(* ===== verification/_CoqProject ===== *)
-Q . S2P
Prelude.v
Text.v
Key.v
Graph.v
WiringError.v
Tarjan.v
Cycles.v
Order.v
Redact.v
Scopes.v
ScopesFacts.v
InputsFacts.v
Visibility.v
VisibilityFacts.v
Register.v
RegisterFacts.v
Freeze.v
FreezeFacts.v
ResolveFacts.v
Wire.v
WireFacts.v
LoadFacts.v
InjectFacts.v
Demo.v
GraphTheorems.v
ScopeTheorems.v
VisibilityTheorems.v
WireTheorems.v
Pattern.v
PatternFacts.v
ParseFacts.v
PreDispatch.v
PreDispatchFacts.v
Router.v
RouterFacts.v
PathSafety.v
HttpTheorems.v
Trace.v
TraceFacts.v
TraceTheorems.v
Timer.v
TimerFacts.v
Lifecycle.v
PlanFacts.v
ConnectFacts.v
Shutdown.v
ShutdownFacts.v
ShutdownInv.v
PhaseInv.v
SequenceEnds.v
LifeDemo.v
LifecycleTheorems.v
Resolver.v
ResolverFacts.v
ReadDemo.v
ResolverTheorems.v
Notify.v
NotifyTheorems.v
Execution.v
ExecutionTheorems.v
Pipeline.v
PipelineFacts.v
PipelineTheorems.v
Config.v
ConfigFacts.v
ConfigTheorems.v
Queue.v
QueueTheorems.v
Events.v
Ordered.v
OrderedTheorems.v
Outbound.v
Connection.v
ConnectionFacts.v
ConnectionTheorems.v
Rooms.v
RoomsTheorems.v
Turns.v
Frames.v
Tcp.v
