(* ===== verification/Prelude.v ===== *)
(** * ulo: a verification of the framework's core

    ulo is a framework for server applications: an app is a tree of modules that declare bindings
    (what can be injected), controllers (what transports call) and hooks. The core, [crates/ulo],
    turns modules into a frozen graph and refuses the app if any rule is broken ([graph/]), builds
    the singletons and runs hooks ([lifecycle/connect.rs]), opens an execution per call
    ([app/shared.rs], [execution/]) and takes the app down again ([lifecycle/shutdown.rs]).
    Transports are crates of their own; [crates/ulo-http] routes requests to handlers.

    ** Parts, and where they are

    - Shared: this file (loops on fuel, lists, the development's tactics and hints); [Text] (the
      [str] operations the sources use); [Key] ([key.rs], [type_name.rs]); [Graph] (the records of
      [binding/], [dependency/], [module/], [transport/] and the frozen graph of [graph/mod.rs]);
      [WiringError] ([error/wiring.rs]).
    - The wiring pass, [graph/]: [Register] ([register.rs]: the walk over modules), [Freeze] and
      [Wire] ([wire.rs]: the registry appended to the graph, the checks, [wire] and [wire_lazy]),
      [Visibility] ([visibility.rs]), [Tarjan] and [Cycles] ([cycles.rs]), [Order] ([order.rs]),
      [Scopes] ([scopes.rs]). What they compute is proved in [RegisterFacts], [FreezeFacts],
      [ResolveFacts], [WireFacts], [LoadFacts], [InjectFacts], [VisibilityFacts], [ScopesFacts], [InputsFacts] and
      stated in [GraphTheorems], [ScopeTheorems], [VisibilityTheorems] and [WireTheorems], with
      [Demo]'s small apps as instances.
    - Redaction: [Redact] ([redact.rs]).
    - HTTP: [Pattern] ([router/pattern.rs] and the macro crate's copy of the grammar), [Router]
      ([router/mod.rs], [malformed] of [service.rs]), [PreDispatch] ([pre_dispatch.rs]); proofs in
      [PatternFacts], [ParseFacts], [PreDispatchFacts], [RouterFacts], [PathSafety]; statements in
      [HttpTheorems].
    - Trace context: [Trace] ([execution/trace.rs]), [TraceFacts], [TraceTheorems].
    - The lifecycle: [Timer] ([timer.rs], [lifecycle/run.rs]), [Lifecycle] ([phase.rs],
      [connect.rs], [AppConfig]), [Shutdown] ([shutdown.rs], and the live set of [app/shared.rs]);
      proofs in [TimerFacts], [PlanFacts], [ConnectFacts], [ShutdownFacts], [ShutdownInv],
      [PhaseInv], [SequenceEnds]; statements in [LifecycleTheorems], instances at the
      app of [LifeDemo].
    - Reads: [Resolver] ([resolver.rs], [AppShared::obtain], [execution/cache.rs], the erased
      constructors of [binding/mod.rs]); [InjectFacts] and [ResolverFacts] carry the types from a
      wired graph to what is read from it; statements in [ResolverTheorems] at the values of
      [ReadDemo].
    - Executions: [Execution] ([execution/mod.rs], [extensions.rs], the deadline of [execute]) with
      [ExecutionTheorems]; [Notify] ([execution/notify.rs]) with [NotifyTheorems].
    - Dispatch: [Pipeline] ([transport/pipeline.rs], [next.rs]) calls the resolver in an execution;
      [PipelineFacts] says what a dispatch does in which order, and that it ends;
      statements in [PipelineTheorems].
    - Configuration, [crates/ulo-config]: [Config] (the tree, the sources, the [.env] format, loading
      and the driver of a typed read); proofs in [ConfigFacts]; statements in
      [ConfigTheorems].
    - Queues of the transports: [Queue] ([ulo-rpc/src/queue.rs]: one call's frames) with
      [QueueTheorems]; [Ordered] ([ulo-transport/src/sync/ordered.rs]: sends in call order) with
      [OrderedTheorems]. What they wait on is [Events], the behaviour of [event_listener].
    - WebSocket connections, [ulo-ws/src/connection.rs]: [Outbound] (the queue a connection's writers
      and its read loop share); [Connection] (the read loop [serve] of every
      connection of a server, their messages in flight and the places they share); [ConnectionFacts];
      statements in [ConnectionTheorems].
    - Rooms, [ulo-ws/src/rooms.rs], [broadcast.rs] and [envelope.rs]: [Rooms] (the hub of a process's
      connections, the targets of broadcasts and the wire between processes) with [RoomsTheorems].
    - Closing a server: [Turns] ([ulo-transport/src/turns.rs]: one more poll for each of its tasks),
      with its statement.
    - RPC frames: [Frames] ([ulo-rpc/src/frame.rs], [codec.rs], and the error details and kinds of
      [ulo-transport]), with its statement; [Tcp] ([ulo-rpc-tcp-core/src/link.rs]: the calls of a
      TCP link's connections), with its statement.

    ** How the code is read

    A [Vec] is a list and an id its position; a [HashMap] is a [gmap], or an association list where
    the code reads its order. A loop is a step function iterated, a pass that pushes errors answers
    them. What user code or another crate implements is a parameter: a module is its identity, its
    settings and what its [register] writes; percent-decoding and the Unicode letter tables are
    functions with the behaviour their documentation gives; the clock is what it answers in each
    poll, with [Timer]'s contract as a hypothesis. A future is the list of what its polls answer,
    so a function that awaits answers [None] while what it awaits has not ended. The connect walk
    is a function of the singletons built so far, with a log of what it called. The shutdown is a
    state, [Shared], changed by events, one for each change the code makes under a lock or between
    two awaits: a trigger, a [close], a poll, a dropped future, the dropped app, an execution
    opened, admitted, attached, ended. Its theorems quantify over every list of events. An execution
    and a notification are states changed by events in the same way, a notification with one event
    for each atomic step of [poll], [drop] and [fire]. A constructor or an enhancer is a tree of
    reads and what it does with their answers; a dispatch is a state-and-error monad with a log.

    ** What is shown

    - Wiring: the walk ends with the root and all that is imported from it registered, each identity
      once, its imports in their order and no other node; wiring that reports nothing leaves a graph
      whose edges are what the declared reads resolve to, in which nothing waits for itself, no singleton needs
      an execution, every input read is seeded and the connect order is topological; each check is
      exact, reporting nothing just when its property holds; Tarjan's algorithm on an explicit
      stack computes the strongly connected components; a reported cycle is a shortest one and a
      reported path a real one; any sequence of lazy loads keeps all of it, base bindings and
      lookups unchanged and no singleton built twice.
    - Redaction: no registered secret and no URL userinfo is left by the functions that hide them.
    - HTTP: parsing accepts exactly the grammar, prints back, and agrees with the macro's check;
      matching by offsets equals matching piece by piece; a request is answered by the most
      specific matching route whatever the order of handlers; a route's precomputed stage runs what
      its entries' scopes say, when no static text holds a [%]; no captured value names another
      directory. Two comparisons that are not exact have examples of where they are not.
    - Trace context: what is written is read back by the next hop, what is received is passed on
      unchanged, and a list is cut to the limits of the specification, entry by entry in a stated
      order, no further than they need.
    - Lifecycle: what the core waits on ends by its bounds; hooks run in connect order and stop in
      the reverse; a constructor runs with its dependencies built; a check makes the attempts it
      says; over every interleaving shutdown hooks run once, in order, after the drain and the
      closes they wait for; a polled [close] comes to its one answer; the servers are released once
      nobody can close them.
    - Reads: in a wired and connected app a read of a visible key that the phase and the execution
      allow ([readable]) ends with an instance of the key's type or an error of user code; an execution builds each of its bindings once; a
      constructor reads what it declared and nothing else; an ended execution gives nothing.
    - Executions: each of their facts is written once, and a stream's callbacks run once; no
      interleaving of a fire with polls and drops loses a wakeup.
    - Dispatch: guards gate all that follows, the handler runs at most once inside its interceptors,
      errors go to the handlers in order, each given what the one before returned until one claims
      it, a panic never escapes, and an enhancer shared by calls is
      built from none of them.
    - Configuration: a loaded tree answers at every path the last source that decides it; a variable
      is read at the path its name stands for; every leaf reported is found again at its path; what
      is written as a [.env] file is read back; a typed read ends within its passes, with a value
      exactly when no source and no pass found a problem, or a report of all of them that quotes no
      secret.
    - Queues: over every interleaving a call's queue keeps its bound, an ordered queue its call
      order, and no wakeup of it is lost; an offer is refused exactly when the queue is full, also
      after the reader has gone.
    - WebSocket connections: over every interleaving of loops, messages and writers the places are
      those of the messages in flight and within their limit; a socket is written in queue order, and
      after the Close frame no more; a parked loop that nothing notified has nothing to do, but for one
      race in which a freed place goes unheard, exhibited as a run.
    - Rooms: membership is what the history says, a broadcast is queued once for exactly the members
      its target names, and what one process publishes another reads back.
    - Turns: a give polls every task's future once more, or the future or its task is over, without
      waiting for a poll under way; a run of two gives shows the one exception, a turn that meets the
      poll made for another.
    - Frames: what one end of a link writes the other reads back, headers, error details and the
      declared lengths included; on TCP every queued frame is a reply as it was given, once, under
      the id that its connection opened the call with, each reply has the fate its call's state
      gives it, and the count a drain waits for is the number of calls known. serde and the codecs'
      crates are a class, [FrameCodec], of what reading and writing a map, a list, a text and a
      number does; the structs' own code is modelled over it.

    ** Fuel

    Loops run on a number of steps that is proved enough, not assumed: [Tarjan.fuel], [place_fuel]
    and [deps_fuel] count vertices and edges, the scope pass and the input walk one turn for each
    binding, the re-export rounds one for each export. [register_from] runs on the caller's fuel,
    [None] when it is spent, which [register_from_ends] excludes for finitely many identities. A
    readiness check runs on the caller's fuel, one attempt a turn; [check_loop_fuel] shows that
    [retries + 1] is enough. The recursion of alias chains is bounded by the number of bindings.
    [obtain] runs on fuel, one level for each construction inside another: [obtain_ends] shows that
    one more than the number of bindings is enough in a wired graph, since constructions are acyclic.

    ** Not modelled

    The texts of reports, beyond the names in them. In the shutdown, wakers: an event says that a
    poll happens, not why. Of [app/]: [listen], [serve] and [load]. Two reads of one execution at
    the same time: reads are made one after another. An interceptor that drops what it runs. The
    HTTP request pipeline outside routing and dispatch, the RPC, gRPC and GraphQL crates beyond the
    queues and frames above, the handshake, the envelope parser and the handlers of WebSocket
    messages, the broadcast adapters, and the macros. Of the configuration: the TOML, JSON and YAML
    parsers, which are other crates', and the deserializer a type's own [Deserialize] drives. The
    graph does not change while the app shuts down: a load refused from the start of a shutdown is
    [allows_load]; one under way then is outside the model. *)

From stdpp Require Export gmap strings list sorting relations fin_sets fin_map_dom.
From Stdlib Require Export Lia.

Declare Scope ulo_scope.
Delimit Scope ulo_scope with ulo.

(** ** Tactics *)

(** Splits a conjunction of boolean tests into propositions. *)
Ltac split_bools :=
  repeat match goal with
  | H : andb _ _ = true |- _ => apply andb_true_iff in H; destruct H
  | H : orb _ _ = false |- _ => apply orb_false_iff in H; destruct H
  | H : negb _ = true |- _ => apply negb_true_iff in H
  | H : negb _ = false |- _ => apply negb_false_iff in H
  | H : bool_decide _ = true |- _ => apply bool_decide_eq_true in H
  | H : bool_decide _ = false |- _ => apply bool_decide_eq_false in H
  | H : Nat.eqb _ _ = true |- _ => apply Nat.eqb_eq in H
  | H : Nat.eqb _ _ = false |- _ => apply Nat.eqb_neq in H
  | H : Nat.leb _ _ = true |- _ => apply Nat.leb_le in H
  | H : Nat.leb _ _ = false |- _ => apply Nat.leb_gt in H
  | H : Nat.ltb _ _ = true |- _ => apply Nat.ltb_lt in H
  | H : Nat.ltb _ _ = false |- _ => apply Nat.ltb_ge in H
  end.

(** Case analysis on the innermost [match] or [if] of the goal, keeping the equation. *)
Ltac case_goal :=
  match goal with
  | |- context [match ?x with _ => _ end] => destruct x eqn:?
  end.

Create HintDb ulo.

#[export] Set Warnings "-clear-no-such-hyp".

(** ** Loops

    A Rust [while] loop is [iterate]: a step that answers [None] when the loop ends, run for at
    most [fuel] rounds. Each loop of the development is run with a fuel that its own termination
    lemma shows to be enough, through [iterate_done]. *)
Section Iterate.
Context {S : Type} (step : S → option S).

Fixpoint iterate (fuel : nat) (s : S) : S :=
  match fuel with
  | 0 => s
  | Datatypes.S fuel =>
      match step s with
      | Some s' => iterate fuel s'
      | None => s
      end
  end.

(** An invariant of the step holds of the state the loop leaves. *)
Lemma iterate_invariant (I : S → Prop) :
  (∀ s s', I s → step s = Some s' → I s') →
  ∀ fuel s, I s → I (iterate fuel s).
Proof.
  intros Hstep fuel. induction fuel as [|fuel IH]; intros s Hs; simpl; [done|].
  destruct (step s) as [s'|] eqn:E; [|done]. eapply IH, Hstep; eauto.
Qed.

(** A measure every round decreases bounds the rounds: with that much fuel the loop has ended. *)
Lemma iterate_done (I : S → Prop) (m : S → nat) :
  (∀ s s', I s → step s = Some s' → I s' ∧ m s' < m s) →
  ∀ fuel s, I s → m s ≤ fuel → step (iterate fuel s) = None.
Proof.
  intros Hstep fuel. induction fuel as [|fuel IH]; intros s Hs Hm; simpl.
  - destruct (step s) as [s'|] eqn:E; [|done].
    destruct (Hstep _ _ Hs E). lia.
  - destruct (step s) as [s'|] eqn:E; [|done].
    destruct (Hstep _ _ Hs E). apply IH; [done|lia].
Qed.
End Iterate.

(** ** Lists *)

(** Rust's [Iterator::find_map]. *)
Fixpoint find_map {A B} (f : A → option B) (l : list A) : option B :=
  match l with
  | [] => None
  | x :: l => match f x with Some y => Some y | None => find_map f l end
  end.

(** Rust's [Iterator::find], with a boolean test. *)
Fixpoint find_first {A} (f : A → bool) (l : list A) : option A :=
  match l with
  | [] => None
  | x :: l => if f x then Some x else find_first f l
  end.

(** Rust's [Iterator::position]. *)
Fixpoint position {A} (f : A → bool) (l : list A) : option nat :=
  match l with
  | [] => None
  | x :: l => if f x then Some 0 else S <$> position f l
  end.

Lemma position_Some {A} (f : A → bool) l i : position f l = Some i → ∃ x, l !! i = Some x ∧ f x = true.
Proof.
  revert i. induction l as [|x l IH]; intros i; simpl; [done|]. destruct (f x) eqn:E; [intros [= <-]; by exists x|].
  intros (j & Hj & ->)%fmap_Some. by apply IH.
Qed.

Lemma position_None {A} (f : A → bool) l x : position f l = None → x ∈ l → f x = false.
Proof.
  induction l as [|y l IH]; simpl; [by intros _ ?%not_elem_of_nil|]. destruct (f y) eqn:E; [done|].
  intros Hp%fmap_None [->|Hin]%elem_of_cons; [done|by apply IH].
Qed.

(** Rust's [Iterator::filter], with a boolean test. *)
Definition filterb {A} (f : A → bool) (l : list A) : list A := filter (λ x, f x = true) l.

Lemma elem_of_filterb {A} (f : A → bool) (l : list A) x :
  x ∈ filterb f l ↔ f x = true ∧ x ∈ l.
Proof. unfold filterb. by rewrite list_elem_of_filter. Qed.

Lemma filterb_cons {A} (f : A → bool) x l :
  filterb f (x :: l) = if f x then x :: filterb f l else filterb f l.
Proof. unfold filterb. rewrite filter_cons. destruct (f x); [by rewrite decide_True|by rewrite decide_False]. Qed.

Lemma filterb_app {A} (f : A → bool) l k : filterb f (l ++ k) = filterb f l ++ filterb f k.
Proof. apply filter_app. Qed.

Lemma filterb_ext {A} (f g : A → bool) l :
  (∀ x, x ∈ l → f x = g x) → filterb f l = filterb g l.
Proof.
  induction l as [|x l IH]; intros H; [done|]. rewrite !filterb_cons, (H x) by left.
  rewrite IH; [done|]. intros y Hy. apply H. by right.
Qed.

Lemma NoDup_filterb {A} (f : A → bool) l : NoDup l → NoDup (filterb f l).
Proof. apply NoDup_filter. Qed.

Lemma find_first_Some {A} (f : A → bool) (l : list A) x :
  find_first f l = Some x → f x = true ∧ x ∈ l.
Proof.
  induction l as [|y l IH]; simpl; [done|].
  destruct (f y) eqn:E; [intros [= <-]; split; [done|left]|].
  intros [? ?]%IH. split; [done|by right].
Qed.

Lemma find_first_None {A} (f : A → bool) (l : list A) :
  find_first f l = None ↔ ∀ x, x ∈ l → f x = false.
Proof.
  induction l as [|y l IH]; simpl.
  { split; [|done]. intros _ x Hx. by apply not_elem_of_nil in Hx. }
  destruct (f y) eqn:E.
  - split; [done|]. intros H. specialize (H y (list_elem_of_here _ _)). congruence.
  - rewrite IH. setoid_rewrite elem_of_cons. split; [intros H x [->|Hx]; auto|auto].
Qed.

Lemma existsb_elem {A} (f : A → bool) (l : list A) :
  existsb f l = true ↔ ∃ x, x ∈ l ∧ f x = true.
Proof. rewrite existsb_exists. by setoid_rewrite list_elem_of_In. Qed.

Lemma existsb_false {A} (f : A → bool) (l : list A) :
  existsb f l = false ↔ ∀ x, x ∈ l → f x = false.
Proof.
  rewrite <- not_true_iff_false, existsb_elem. split.
  - intros H x Hx. destruct (f x) eqn:E; [|done]. destruct H; eauto.
  - intros H (x & Hx & E). rewrite H in E; done.
Qed.

Lemma forallb_elem {A} (f : A → bool) (l : list A) :
  forallb f l = true ↔ ∀ x, x ∈ l → f x = true.
Proof. rewrite forallb_forall. by setoid_rewrite list_elem_of_In. Qed.

Lemma elem_of_opt {A} (o : option A) x : x ∈ option_list o ↔ o = Some x.
Proof.
  destruct o as [y|]; simpl; [rewrite list_elem_of_singleton|rewrite elem_of_nil].
  - split; congruence.
  - by split.
Qed.

Lemma elem_of_concat {A} (l : list (list A)) x : x ∈ concat l ↔ ∃ c, x ∈ c ∧ c ∈ l.
Proof.
  induction l as [|c l IH]; simpl.
  - rewrite elem_of_nil. split; [done|]. by intros (c & _ & ?%not_elem_of_nil).
  - rewrite elem_of_app, IH. setoid_rewrite elem_of_cons. split.
    + intros [|(d & ? & ?)]; eauto.
    + intros (d & Hx & [->|Hd]); eauto.
Qed.

Lemma fmap_eq_nil {A B} (f : A → B) l : f <$> l = [] ↔ l = [].
Proof. by destruct l. Qed.

Lemma StronglySorted_impl_elem {A} (R Q : relation A) l :
  (∀ x y, x ∈ l → y ∈ l → R x y → Q x y) → StronglySorted R l → StronglySorted Q l.
Proof.
  intros HRQ Hs. induction Hs as [|a l Hs IH Hall]; [constructor|]. constructor.
  - apply IH. intros x y Hx Hy. apply HRQ; by right.
  - rewrite Forall_forall in Hall |- *. intros y Hy.
    apply HRQ; [left|by right|by apply Hall].
Qed.

(** A fold each step of which keeps [ok] and adds to the facts [R] of the state those [P] of its
    element. *)
Lemma fold_adds {S A X} (f : S → A → S) (ok : S → Prop) (R : S → X → Prop) (P : A → X → Prop) l :
  (∀ s x, x ∈ l → ok s → ok (f s x) ∧ ∀ k, R (f s x) k ↔ R s k ∨ P x k) →
  ∀ s, ok s → ok (foldl f s l) ∧ ∀ k, R (foldl f s l) k ↔ R s k ∨ ∃ x, x ∈ l ∧ P x k.
Proof.
  induction l as [|x l IH]; intros Hf s Hs; simpl.
  - split; [done|]. intros k. split; [by left|]. intros [|(x & ?%not_elem_of_nil & _)]; done.
  - destruct (Hf s x (list_elem_of_here _ _) Hs) as [Hok Hx].
    destruct (IH ltac:(intros; apply Hf; [by right|done]) (f s x) Hok) as [Hok' Hl].
    split; [done|]. intros k. rewrite Hl, Hx. setoid_rewrite elem_of_cons. split.
    + intros [[|]|(y & ? & ?)]; [by left|right; eauto|right; eauto].
    + intros [|(y & [->|Hy] & Hp)]; [by left; left|by left; right|right; eauto].
Qed.

(** [Vec::contains]. *)
Definition contains {A} `{EqDecision A} (l : list A) (x : A) : bool := bool_decide (x ∈ l).

Lemma contains_true {A} `{EqDecision A} (l : list A) x : contains l x = true ↔ x ∈ l.
Proof. apply bool_decide_eq_true. Qed.

Lemma contains_false {A} `{EqDecision A} (l : list A) x : contains l x = false ↔ x ∉ l.
Proof. apply bool_decide_eq_false. Qed.

(** The total of a list of sizes, for termination measures. *)
Definition total (l : list nat) : nat := foldr Nat.add 0 l.

Lemma total_cons n l : total (n :: l) = n + total l.
Proof. done. Qed.

Lemma total_app l k : total (l ++ k) = total l + total k.
Proof. induction l; simpl; lia. Qed.

Lemma total_fmap_le {A} (f g : A → nat) l :
  (∀ x, x ∈ l → f x ≤ g x) → total (f <$> l) ≤ total (g <$> l).
Proof.
  induction l as [|x l IH]; intros H; simpl; [done|].
  pose proof (H x (list_elem_of_here _ _)).
  apply Nat.add_le_mono; [done|].
  apply IH. intros y Hy. apply H. by right.
Qed.

(** One entry strictly smaller and none greater makes the total smaller. *)
Lemma total_fmap_lt {A} (f g : A → nat) l x k :
  (∀ y, y ∈ l → f y ≤ g y) → x ∈ l → f x + k ≤ g x →
  total (f <$> l) + k ≤ total (g <$> l).
Proof.
  induction l as [|y l IH]; intros H Hx Hlt; [by apply not_elem_of_nil in Hx|].
  pose proof (H y (list_elem_of_here _ _)). simpl in *.
  assert (Hl : ∀ z, z ∈ l → f z ≤ g z) by (intros; apply H; by right).
  apply elem_of_cons in Hx as [->|Hx].
  - pose proof (total_fmap_le f g l Hl). unfold fmap in *. lia.
  - pose proof (IH Hl Hx Hlt). unfold fmap in *. lia.
Qed.

Lemma total_fmap_add {A} (f g : A → nat) l :
  total (f <$> l) + total (g <$> l) = total ((λ x, f x + g x) <$> l).
Proof. induction l as [|x l IH]; [done|]. rewrite !fmap_cons, !total_cons. lia. Qed.

Lemma total_fmap_bound {A} (f : A → nat) k l : (∀ x, x ∈ l → f x ≤ k) → total (f <$> l) ≤ k * length l.
Proof.
  induction l as [|x l IH]; intros H; simpl length; [simpl; lia|]. rewrite fmap_cons, total_cons.
  pose proof (H x (list_elem_of_here _ _)). opose proof (IH _); [intros; apply H; by right|]. lia.
Qed.

Lemma total_insert {A} (f : A → nat) l i x y :
  l !! i = Some x → total (f <$> <[i := y]> l) + f x = total (f <$> l) + f y.
Proof.
  revert i. induction l as [|z l IH]; intros [|i] Hi; simpl in Hi; try done.
  - injection Hi as ->. simpl. lia.
  - change (<[S i := y]> (z :: l)) with (z :: <[i := y]> l). rewrite !fmap_cons, !total_cons.
    specialize (IH i Hi). lia.
Qed.

Lemma fmap_as_seq {A} (f : A → nat) l : f <$> l = (λ i, from_option f 0 (l !! i)) <$> seq 0 (length l).
Proof.
  apply list_eq. intros i. rewrite !list_lookup_fmap. destruct (l !! i) as [x|] eqn:E.
  - rewrite lookup_seq_lt by (by eapply lookup_lt_Some). simpl. by rewrite E.
  - apply lookup_ge_None in E. by rewrite lookup_seq_ge.
Qed.

Lemma length_filterb {A} (f : A → bool) l : length (filterb f l) = total ((λ x, if f x then 1 else 0) <$> l).
Proof.
  induction l as [|x l IH]; [done|]. rewrite filterb_cons, fmap_cons, total_cons. destruct (f x); simpl; lia.
Qed.

(** ** Relations *)

Section Relations.
Context {A : Type} (R : relation A).

Definition acyclic : Prop := ∀ x, ¬ tc R x x.

Lemma tc_last x y : tc R x y → ∃ z, R z y.
Proof. induction 1; eauto. Qed.

Lemma acyclic_subrel (Q : relation A) :
  (∀ x y, Q x y → tc R x y) → acyclic → ∀ x, ¬ tc Q x x.
Proof.
  intros HQ Hac x Hx. apply (Hac x). clear Hac.
  assert (H : ∀ y, tc Q x y → tc R x y); [|by apply H].
  clear Hx. intros y Hy. induction Hy as [x y Hxy|x y z Hxy _ IH]; [by apply HQ|].
  eapply tc_transitive; [by apply HQ|done].
Qed.
End Relations.

(** ** Walks *)

Lemma filterb_all {A} (f : A → bool) l : (∀ x, x ∈ l → f x = true) → filterb f l = l.
Proof.
  induction l as [|x l IH]; intros H; [done|]. rewrite filterb_cons, (H x) by by left. f_equal. apply IH.
  intros y Hy. apply H. by right.
Qed.

Lemma elem_of_drop_in {A} k (l : list A) x : x ∈ drop k l → x ∈ l.
Proof. intros H. rewrite <- (take_drop k l). apply elem_of_app. by right. Qed.

Lemma list_bind_ext_elem {A B} (f h : A → list B) l : (∀ x, x ∈ l → f x = h x) → l ≫= f = l ≫= h.
Proof.
  induction l as [|x l IH]; intros H; simpl; [done|]. rewrite (H x) by by left. f_equal. apply IH. intros y Hy.
  apply H. by right.
Qed.

Lemma find_map_None {A B} (f : A → option B) l : find_map f l = None → ∀ x, x ∈ l → f x = None.
Proof.
  induction l as [|y l IH]; intros H x Hx; [by apply not_elem_of_nil in Hx|]. simpl in H.
  destruct (f y) eqn:E; [done|]. apply elem_of_cons in Hx as [->|Hx]; [done|by apply IH].
Qed.

Lemma bind_nil_iff {A B} (f : A → list B) l : l ≫= f = [] ↔ ∀ x, x ∈ l → f x = [].
Proof.
  induction l as [|x l IH]; simpl; [split; [|done]; intros _ x Hx; by apply not_elem_of_nil in Hx|].
  split.
  - intros H y Hy. apply app_nil in H as [H1 H2]. apply elem_of_cons in Hy as [->|Hy]; [done|]. by apply IH.
  - intros H. rewrite (H x) by by left. apply IH. intros y Hy. apply H. by right.
Qed.

Lemma existsb_ext {A} (f g : A → bool) l : (∀ x, f x = g x) → existsb f l = existsb g l.
Proof. intros H. induction l as [|x l IH]; simpl; [done|]. by rewrite H, IH. Qed.

(** [walk R l]: consecutive nodes of [l] are related. *)
Fixpoint walk {A} (R : A → A → Prop) (l : list A) : Prop :=
  match l with
  | a :: ((b :: _) as rest) => R a b ∧ walk R rest
  | _ => True
  end.

Arguments walk {A} R l : simpl never.

Lemma walk_app_inv {A} (R : A → A → Prop) l a k : walk R (l ++ a :: k) → walk R (l ++ [a]) ∧ walk R (a :: k).
Proof.
  induction l as [|b l IH]; [by split|]. destruct l as [|c l]; simpl in *.
  - intros [? ?]. done.
  - intros [? Hw]. destruct (IH Hw). done.
Qed.

Lemma walk_app {A} (R : A → A → Prop) l a k : walk R (l ++ [a]) → walk R (a :: k) → walk R (l ++ a :: k).
Proof.
  induction l as [|b l IH]; [by intros|]. destruct l as [|c l].
  - intros [? _] ?. done.
  - intros [? Hw] ?. split; [done|]. by apply IH.
Qed.

Lemma tc_walk {A} (R : relation A) x y : tc R x y → ∃ k, walk R (x :: k ++ [y]).
Proof.
  induction 1 as [x y H|x y z H _ [k Hk]]; [by exists []|]. exists (y :: k). by split.
Qed.

Lemma walk_rtc {A} (R : relation A) l x y : walk R (l ++ [y]) → x ∈ l → rtc R x y.
Proof.
  revert x. induction l as [|a l IH]; intros x; [by intros _ ?%not_elem_of_nil|].
  intros Hw [->|Hx]%elem_of_cons.
  - destruct l as [|b l]; [by destruct Hw as [? _]; apply rtc_once|].
    destruct Hw as [Hab Hw]. eapply rtc_l; [done|]. apply IH; [done|left].
  - apply IH; [|done]. by destruct l; [|destruct Hw].
Qed.

Lemma walk_rtc_from {A} (R : relation A) l x y : walk R (x :: l) → y ∈ l → rtc R x y.
Proof.
  revert x. induction l as [|a l IH]; intros x; [by intros _ ?%not_elem_of_nil|].
  intros [Hxa Hw] [->|Hy]%elem_of_cons; [by apply rtc_once|]. eapply rtc_l; [done|]. by apply IH.
Qed.

Lemma walk_impl {A} (R Q : relation A) l :
  (∀ x y, x ∈ l → y ∈ l → R x y → Q x y) → walk R l → walk Q l.
Proof.
  induction l as [|a [|b l] IH]; [done|done|]. intros HRQ [Hab Hw]. split.
  - apply HRQ; [left|right; left|done].
  - apply IH; [|done]. intros x y Hx Hy. apply HRQ; by right.
Qed.

Lemma rtc_ne_tc {A} (R : relation A) x y : rtc R x y → x ≠ y → tc R x y.
Proof. intros H Hne. by apply rtc_tc in H as [|]. Qed.

Lemma walk_cycle {A} (R : relation A) l k x m : walk R (l ++ x :: k ++ x :: m) → tc R x x.
Proof.
  intros [_ Hw]%walk_app_inv. rewrite app_comm_cons in Hw. apply walk_app_inv in Hw as [Hw _].
  destruct k as [|y k]; [by destruct Hw; apply tc_once|].
  destruct Hw as [Hxy Hw]. eapply tc_rtc_r; [by apply tc_once|].
  eapply walk_rtc; [done|]. left.
Qed.

(** A list of nodes none of which is a sink within the list has a cycle. *)
Lemma no_sink_cycle {A} `{EqDecision A} (R : relation A) (l : list A) :
  l ≠ [] → (∀ x, x ∈ l → ∃ y, y ∈ l ∧ R x y) → ∃ x, tc R x x.
Proof.
  intros Hne Hnext.
  assert (Hwalk : ∀ n, ∃ w, length w = S n ∧ w ⊆ l ∧ walk R w).
  { induction n as [|n (w & Hlen & Hin & Hw)].
    - destruct l as [|x l]; [done|]. exists [x]. split; [done|]. split; [set_solver|done].
    - destruct w as [|z w] using rev_ind; [done|]. clear IHw.
      destruct (Hnext z) as (y & Hy & Hzy); [apply Hin; set_solver|].
      exists (w ++ [z; y]). rewrite length_app in Hlen |- *. simpl in *. split; [lia|].
      split; [set_solver|]. by apply walk_app. }
  destruct (Hwalk (length l)) as (w & Hlen & Hin & Hw).
  destruct (decide (NoDup w)) as [Hnd|Hnd].
  - apply NoDup_submseteq, submseteq_length in Hin; [lia|done].
  - assert (∃ l1 x l2 l3, w = l1 ++ x :: l2 ++ x :: l3) as (l1 & x & l2 & l3 & ->).
    { clear -Hnd EqDecision0. induction w as [|a w IH]; [destruct Hnd; constructor|].
      destruct (decide (a ∈ w)) as [Ha|Ha].
      - apply list_elem_of_split in Ha as (l2 & l3 & ->). by exists [], a, l2, l3.
      - destruct IH as (l1 & x & l2 & l3 & ->).
        { intros Hw. apply Hnd. by constructor. }
        by exists (a :: l1), x, l2, l3. }
    exists x. by eapply walk_cycle.
Qed.
