(* ===== verification/Text.v ===== *)
(** * Text: the [str] operations of the Rust standard library the sources use

    A Rust [&str] is its bytes, a [list ascii]; byte offsets into it are list positions, as they
    are in Rust. [str_of] turns a literal into one. The operations are those of [core::str]
    called with an ASCII [char] or a [&str] pattern, on which a byte-level reading is exact: an
    ASCII byte never occurs inside the encoding of another character. *)

From S2P Require Import Prelude.
From Stdlib Require Export Ascii.
From Stdlib Require Import String.

Abbreviation str := (list ascii) (only parsing).

Definition str_of (s : string) : str := list_ascii_of_string s.
Definition string_of (s : str) : string := string_of_list_ascii s.

Lemma str_of_string_of s : str_of (string_of s) = s.
Proof. apply list_ascii_of_string_of_list_ascii. Qed.

Lemma string_of_str_of s : string_of (str_of s) = s.
Proof. apply string_of_list_ascii_of_string. Qed.

(** [str::strip_prefix] with a [&str] pattern. *)
Fixpoint strip_prefix (p s : str) : option str :=
  match p, s with
  | [], _ => Some s
  | _ :: _, [] => None
  | a :: p, b :: s => if bool_decide (a = b) then strip_prefix p s else None
  end.

(** [str::strip_suffix] with a [&str] pattern. *)
Definition strip_suffix (p s : str) : option str :=
  reverse <$> strip_prefix (reverse p) (reverse s).

Definition starts_with (p s : str) : bool := bool_decide (is_Some (strip_prefix p s)).
Definition ends_with (p s : str) : bool := bool_decide (is_Some (strip_suffix p s)).

Lemma strip_prefix_Some p s t : strip_prefix p s = Some t ↔ s = p ++ t.
Proof.
  revert s. induction p as [|a p IH]; intros s; simpl.
  { split; [by intros [= ->]|by intros ->]. }
  destruct s as [|b s]; [split; [done|by intros]|].
  case_bool_decide; subst; [rewrite IH; split; congruence|split; congruence].
Qed.

Lemma strip_prefix_None p s : strip_prefix p s = None ↔ ∀ t, s ≠ p ++ t.
Proof.
  rewrite eq_None_not_Some. unfold is_Some. setoid_rewrite strip_prefix_Some.
  split; [intros H t Ht; apply H; by exists t|intros H [t Ht]; by apply (H t)].
Qed.

Lemma strip_suffix_Some p s t : strip_suffix p s = Some t ↔ s = t ++ p.
Proof.
  unfold strip_suffix. rewrite fmap_Some. setoid_rewrite strip_prefix_Some. split.
  - intros (u & Hu & ->). apply (f_equal reverse) in Hu.
    by rewrite reverse_involutive, reverse_app, reverse_involutive in Hu.
  - intros ->. exists (reverse t). by rewrite reverse_app, reverse_involutive.
Qed.

Lemma strip_suffix_None p s : strip_suffix p s = None ↔ ∀ t, s ≠ t ++ p.
Proof.
  rewrite eq_None_not_Some. unfold is_Some. setoid_rewrite strip_suffix_Some.
  split; [intros H t Ht; apply H; by exists t|intros H [t Ht]; by apply (H t)].
Qed.

Lemma starts_with_spec p s : starts_with p s = true ↔ ∃ t, s = p ++ t.
Proof.
  unfold starts_with. rewrite bool_decide_eq_true. unfold is_Some.
  by setoid_rewrite strip_prefix_Some.
Qed.

(** [str::split] with a [char] pattern: [n] separators give [n + 1] pieces. *)
Fixpoint split_on (c : ascii) (s : str) : list str :=
  match s with
  | [] => [[]]
  | b :: s =>
      if bool_decide (b = c) then [] :: split_on c s
      else match split_on c s with
           | [] => [[b]]
           | p :: ps => (b :: p) :: ps
           end
  end.

(** [slice::join] with a [char] separator. *)
Fixpoint join_on (c : ascii) (ps : list str) : str :=
  match ps with
  | [] => []
  | [p] => p
  | p :: ps => p ++ c :: join_on c ps
  end.

Lemma split_on_nonempty c s : split_on c s ≠ [].
Proof.
  destruct s as [|b s]; simpl; [done|].
  case_bool_decide; [done|]. by destruct (split_on c s).
Qed.

Lemma join_split c s : join_on c (split_on c s) = s.
Proof.
  induction s as [|b s IH]; simpl; [done|].
  pose proof (split_on_nonempty c s) as Hne.
  case_bool_decide as Hb; subst.
  - destruct (split_on c s) as [|p ps]; [done|]. simpl in *. by rewrite IH.
  - destruct (split_on c s) as [|p [|q ps]]; [done|..]; simpl in *; congruence.
Qed.

Lemma split_on_no_sep c s p : p ∈ split_on c s → c ∉ p.
Proof.
  revert p. induction s as [|b s IH]; intros p; simpl.
  { rewrite elem_of_cons, elem_of_nil. intros [->|[]]. apply not_elem_of_nil. }
  case_bool_decide as Hb.
  - rewrite elem_of_cons. intros [->|Hp]; [apply not_elem_of_nil|by apply IH].
  - pose proof (split_on_nonempty c s) as Hne.
    destruct (split_on c s) as [|q qs] eqn:E; [done|].
    rewrite elem_of_cons. intros [->|Hp].
    + rewrite elem_of_cons. intros [->|Hc]; [done|].
      eapply (IH q); [left|done].
    + eapply IH. by right.
Qed.

Lemma split_on_no_sep_id c s : c ∉ s → split_on c s = [s].
Proof.
  induction s as [|b s IH]; simpl; [done|].
  rewrite not_elem_of_cons. intros [Hb Hs].
  rewrite bool_decide_eq_false_2 by congruence. by rewrite IH.
Qed.

Lemma split_on_app c p s : c ∉ p → split_on c (p ++ c :: s) = p :: split_on c s.
Proof.
  induction p as [|b p IH]; simpl.
  { intros _. by rewrite bool_decide_eq_true_2. }
  rewrite not_elem_of_cons. intros [Hb Hp].
  rewrite bool_decide_eq_false_2 by congruence. by rewrite IH.
Qed.

(** Splitting undoes joining pieces that hold no separator. *)
Lemma split_join c ps : ps ≠ [] → (∀ p, p ∈ ps → c ∉ p) → split_on c (join_on c ps) = ps.
Proof.
  induction ps as [|p ps IH]; intros Hne H; [done|].
  destruct ps as [|q ps].
  { apply split_on_no_sep_id, H. left. }
  change (join_on c (p :: q :: ps)) with (p ++ c :: join_on c (q :: ps)).
  rewrite split_on_app by (apply H; left). f_equal.
  apply IH; [done|]. intros r Hr. apply H. by right.
Qed.

(** [str::find] with a [char] pattern. *)
Definition find_char (c : ascii) (s : str) : option nat := position (λ b, bool_decide (b = c)) s.

(** [str::split_once] with a [char] pattern. *)
Fixpoint split_once (c : ascii) (s : str) : option (str * str) :=
  match s with
  | [] => None
  | b :: s =>
      if bool_decide (b = c) then Some ([], s)
      else match split_once c s with
           | Some (x, y) => Some (b :: x, y)
           | None => None
           end
  end.

Lemma first_sep_unique {c : ascii} {u v x y : str} :
  c ∉ u → c ∉ x → u ++ c :: v = x ++ c :: y → u = x ∧ v = y.
Proof.
  revert x. induction u as [|d u IH]; intros [|e x] Hu Hx H; simpl in H.
  - by injection H as <-.
  - rewrite not_elem_of_cons in Hx. destruct Hx. congruence.
  - rewrite not_elem_of_cons in Hu. destruct Hu. congruence.
  - rewrite not_elem_of_cons in Hu, Hx. destruct Hu, Hx. injection H as <- H.
    by destruct (IH x) as [-> ->].
Qed.

Lemma split_once_Some c s x y : split_once c s = Some (x, y) ↔ s = x ++ c :: y ∧ c ∉ x.
Proof.
  revert x y. induction s as [|b s IH]; intros x y; simpl.
  { split; [done|]. intros [H _]. by destruct x. }
  case_bool_decide as Hb; [subst|destruct (split_once c s) as [[u v]|] eqn:E].
  - split; [intros [= <- <-]; split; [done|apply not_elem_of_nil]|].
    intros [H Hx]. destruct (first_sep_unique (not_elem_of_nil c) Hx H) as [<- <-]. done.
  - apply not_eq_sym in Hb. destruct (proj1 (IH u v) eq_refl) as [-> Hu]. split.
    + intros [= <- <-]. split; [done|]. by apply not_elem_of_cons.
    + assert (Hbu : c ∉ b :: u) by (by apply not_elem_of_cons).
      intros [H Hx]. by destruct (first_sep_unique Hbu Hx H) as [<- <-].
  - split; [done|]. intros [H Hx]. destruct x as [|a x]; [simpl in H; congruence|].
    injection H as <- H. rewrite not_elem_of_cons in Hx. destruct Hx as [_ Hx].
    discriminate (proj2 (IH x y) (conj H Hx)).
Qed.

(** [str::trim_start_matches] and [str::trim_end_matches] with a [char] pattern. *)
Fixpoint trim_start_char (c : ascii) (s : str) : str :=
  match s with
  | [] => []
  | b :: t => if bool_decide (b = c) then trim_start_char c t else s
  end.

Definition trim_end_char (c : ascii) (s : str) : str := reverse (trim_start_char c (reverse s)).

(** Decimal digits, as [Display] writes an unsigned integer. *)
Fixpoint decimal_digits (fuel n : nat) (acc : str) : str :=
  let acc := ascii_of_nat (48 + n `mod` 10) :: acc in
  match fuel with
  | 0 => acc
  | S fuel => if bool_decide (n < 10) then acc else decimal_digits fuel (n / 10) acc
  end.

Definition decimal (n : nat) : string := string_of (decimal_digits n n []).

Definition is_ascii_digit (c : ascii) : bool :=
  let n := nat_of_ascii c in (48 <=? n) && (n <=? 57).
Definition is_ascii_lower (c : ascii) : bool :=
  let n := nat_of_ascii c in (97 <=? n) && (n <=? 122).
Definition is_ascii_upper (c : ascii) : bool :=
  let n := nat_of_ascii c in (65 <=? n) && (n <=? 90).
Definition is_ascii_alphabetic (c : ascii) : bool := is_ascii_lower c || is_ascii_upper c.
Definition is_ascii_alphanumeric (c : ascii) : bool := is_ascii_alphabetic c || is_ascii_digit c.

(** The order of [str]: by bytes. *)
Fixpoint str_leb (a b : str) : bool :=
  match a, b with
  | [], _ => true
  | _ :: _, [] => false
  | x :: a, y :: b =>
      if nat_of_ascii x <? nat_of_ascii y then true else if nat_of_ascii y <? nat_of_ascii x then false else str_leb a b
  end.

(** ** Values as text

    A stand-in for the formats of other crates, for examples: a value's number in binary. *)
Fixpoint digits (p : positive) : str := match p with xH => [] | xO p => "0"%char :: digits p | xI p => "1"%char :: digits p end.

Fixpoint number (s : str) : positive := match s with [] => xH | c :: s => if bool_decide (c = "1"%char) then xI (number s) else xO (number s) end.

Definition encoded {A} `{Countable A} (x : A) : str := digits (encode x).

Definition decoded {A} `{Countable A} (s : str) : option A := decode (number s).

Lemma decoded_encoded {A} `{Countable A} (x : A) : decoded (encoded x) = Some x.
Proof.
  unfold decoded, encoded. assert (Hn : ∀ p, number (digits p) = p) by (induction p; simpl; by f_equal). by rewrite Hn, decode_encode.
Qed.

Lemma encoded_no_newline {A} `{Countable A} (x : A) : ascii_of_nat 10 ∉ encoded x.
Proof. unfold encoded. induction (encode x); simpl; rewrite ?elem_of_cons; [intros [|]; done..|]. by intros ?%not_elem_of_nil. Qed.
