(* ===== verification/Key.v ===== *)
(** * Key: type names, keys and qualifiers

    [crates/ulo/src/type_name.rs] and [crates/ulo/src/key.rs]. A Rust [TypeId] is an opaque
    number; a [TypeName] pairs it with the [type_name] text and compares on the number alone, as
    the sources' [PartialEq] and [Hash] do. A [HashMap<Key, V>] is therefore a [gmap] over
    [KeyId], the pair of the two numbers. *)

From S2P Require Import Prelude Text.
Local Open Scope string_scope.
Local Open Scope nat_scope.

Abbreviation TypeId := nat (only parsing).


(** [&'static Location<'static>], where a registration call was written. *)
Record Location := { loc_file : string; loc_line : nat; loc_column : nat }.

#[export] Instance Location_eq_dec : EqDecision Location.
Proof. solve_decision. Defined.

(** ** Type names *)

Record TypeName := { tn_id : TypeId; tn_name : string }.

(** [PartialEq for TypeName]: the ids alone. *)
Definition type_name_eqb (a b : TypeName) : bool := bool_decide (tn_id a = tn_id b).

(** [from_parts]. *)
Definition from_parts (id : TypeId) (name : string) : TypeName := {| tn_id := id; tn_name := name |}.

(** [is_path_char]: [char::is_alphanumeric] on ASCII. *)
Definition is_path_char (c : ascii) : bool :=
  is_ascii_alphanumeric c || contains (str_of "_:{}") c.

Fixpoint take_while {A} (f : A → bool) (s : list A) : list A :=
  match s with
  | [] => []
  | c :: s => if f c then c :: take_while f s else []
  end.

Fixpoint drop_while {A} (f : A → bool) (s : list A) : list A :=
  match s with
  | [] => []
  | c :: t => if f c then drop_while f t else s
  end.

(** [str::split] with the two-character pattern [cc]. *)
Fixpoint split_pair (c : ascii) (s : str) : list str :=
  match s with
  | [] => [[]]
  | [b] => [[b]]
  | b :: ((d :: s) as t) =>
      if bool_decide (b = c) && bool_decide (d = c) then [] :: split_pair c s
      else match split_pair c t with
           | [] => [[b]]
           | p :: ps => (b :: p) :: ps
           end
  end.

(** [path.rsplit("::")]: the pieces from the right. *)
Definition rsplit_path (path : str) : list str := reverse <$> split_pair ":" (reverse path).

Definition path_sep : str := str_of "::".

(** [push_last_segment(out, path)]. *)
Definition push_last_segment (out path : str) : str :=
  let '(out, path) :=
    match strip_prefix path_sep path with
    | Some tail => ((out ++ path_sep)%list, tail)
    | None => (out, path)
    end in
  let segments := rsplit_path path in
  let last := default [] (head segments) in
  let out :=
    if starts_with (str_of "{") last then
      match segments !! 1 with
      | Some enclosing => (out ++ enclosing ++ path_sep)%list
      | None => out
      end
    else out in
  (out ++ last)%list.

(** The loop of [short_type_name]; each round takes a character at least, so the text's length is
    enough fuel. *)
Fixpoint short_loop (fuel : nat) (out rest : str) : str :=
  match fuel, rest with
  | 0, _ | _, [] => out
  | S fuel, c :: tail =>
      if is_path_char c then
        short_loop fuel (push_last_segment out (take_while is_path_char rest)) (drop_while is_path_char rest)
      else short_loop fuel (out ++ [c])%list tail
  end.

Definition short_type_name (full : string) : string :=
  let rest := str_of full in string_of (short_loop (length rest) [] rest).

(** ** Keys *)

Record Key := { key_ty : TypeName; key_qualifier : TypeName }.

Abbreviation KeyId := (nat * nat)%type (only parsing).

Definition key_id (k : Key) : KeyId := (tn_id (key_ty k), tn_id (key_qualifier k)).

(** [PartialEq for Key]. *)
Definition key_eqb (a b : Key) : bool :=
  type_name_eqb (key_ty a) (key_ty b) && type_name_eqb (key_qualifier a) (key_qualifier b).

(** Equality of keys as the program sees it, coarser than equality of the printed names. *)
#[export] Instance Key_equiv : Equiv Key := λ a b, key_id a = key_id b.
#[export] Instance Key_equivalence : Equivalence (≡@{Key}).
Proof. split; unfold equiv, Key_equiv; red; congruence. Qed.
#[export] Instance key_id_proper : Proper ((≡) ==> (=)) key_id.
Proof. by intros a b H. Qed.

Lemma key_eqb_spec a b : key_eqb a b = true ↔ key_id a = key_id b.
Proof.
  unfold key_eqb, type_name_eqb, key_id. rewrite andb_true_iff, !bool_decide_eq_true.
  split; [by intros [-> ->]|by intros [= -> ->]].
Qed.

Lemma key_eqb_false a b : key_eqb a b = false ↔ key_id a ≠ key_id b.
Proof. rewrite <- key_eqb_spec, not_true_iff_false. done. Qed.

#[export] Instance key_eqb_proper : Proper ((≡) ==> (≡) ==> (=)) key_eqb.
Proof.
  intros a b Hab c d Hcd. unfold equiv, Key_equiv in *.
  apply eq_true_iff_eq. by rewrite !key_eqb_spec, Hab, Hcd.
Qed.

(** A qualifier as the records hold it. [TypeId::of::<()>()] is the number [0]. *)
Record Qualifier := { q_id : TypeId; q_name : string }.

#[export] Instance Qualifier_eq_dec : EqDecision Qualifier.
Proof. solve_decision. Defined.

Definition unit_id : TypeId := 0.
Definition qualifier_none : Qualifier := {| q_id := unit_id; q_name := "()" |}.

Definition with_qualifier (k : Key) (qualifier : TypeId) (name : string) : Key :=
  {| key_ty := key_ty k; key_qualifier := from_parts qualifier name |}.

Definition key_from_parts (ty : TypeId) (ty_name : string) (q : TypeId) (q_name : string) : Key :=
  {| key_ty := from_parts ty ty_name; key_qualifier := from_parts q q_name |}.

Definition key_type_id (k : Key) : TypeId := tn_id (key_ty k).
Definition qualifier_id (k : Key) : TypeId := tn_id (key_qualifier k).
Definition is_unqualified (k : Key) : bool := bool_decide (tn_id (key_qualifier k) = unit_id).

Definition key_qualifier_opt (k : Key) : option TypeName :=
  if is_unqualified k then None else Some (key_qualifier k).
Definition qualifier_name (k : Key) : option string := tn_name <$> key_qualifier_opt k.

Inductive BindingKind := BSingle | BCollection.

#[export] Instance BindingKind_eq_dec : EqDecision BindingKind.
Proof. solve_decision. Defined.

Record KeyName := { kn_key : Key; kn_kind : BindingKind }.

Definition key_name_of (k : Key) (kind : BindingKind) : KeyName := {| kn_key := k; kn_kind := kind |}.

(** [role_spelling]. *)
Definition role_spelling (text : string) : string :=
  match strip_prefix (str_of "dyn ") (str_of text) with
  | None => text
  | Some rest =>
      let cut := default (length rest) (find_char "<" rest) in
      let '(path, tail) := (take cut rest, drop cut rest) in
      let last := default [] (head (rsplit_path path)) in
      let prefix := take (length path - length last) path in
      let alias :=
        if bool_decide (last = str_of "ErasedGuard") then Some "AnyGuard"
        else if bool_decide (last = str_of "ErasedInterceptor") then Some "AnyInterceptor"
        else if bool_decide (last = str_of "ErasedErrorHandler") then Some "AnyErrorHandler"
        else None in
      match alias with
      | Some alias => string_of (prefix ++ str_of alias ++ tail)%list
      | None => text
      end
  end.

(** [Key::text_with], over the writing of each of the key's names. *)
Definition key_text_with (name : TypeName → string) (k : Key) : string :=
  let text := role_spelling (name (key_ty k)) in
  match key_qualifier_opt k with
  | Some q => text ++ " @ " ++ name q
  | None => text
  end.

(** [Display for Key] and for [KeyName], without [{:#}]. *)
Definition key_display (k : Key) : string := key_text_with (λ n, short_type_name (tn_name n)) k.

Definition with_kind (kind : BindingKind) (text : string) : string :=
  if bool_decide (kind = BCollection) then text ++ " (collection)" else text.

Definition key_name_display (n : KeyName) : string := with_kind (kn_kind n) (key_display (kn_key n)).

(** ** Facts *)

Lemma with_qualifier_id k q n : key_id (with_qualifier k q n) = (key_type_id k, q).
Proof. done. Qed.

Lemma is_unqualified_id k : is_unqualified k = true ↔ (key_id k).2 = unit_id.
Proof. unfold is_unqualified. apply bool_decide_eq_true. Qed.

Example short_arc : short_type_name "alloc::sync::Arc<my_app::db::PgPool>" = "Arc<PgPool>".
Proof. reflexivity. Qed.
Example short_dyn : short_type_name "dyn my_app::Repo + core::marker::Send" = "dyn Repo + Send".
Proof. reflexivity. Qed.
Example short_closure : short_type_name "app::f::{{closure}}" = "f::{{closure}}".
Proof. reflexivity. Qed.
Example role_guard : role_spelling "dyn ulo::transport::ErasedGuard<Http>" = "ulo::transport::AnyGuard<Http>".
Proof. reflexivity. Qed.
Example role_other : role_spelling "dyn Repo" = "dyn Repo".
Proof. reflexivity. Qed.
