(* ===== verification/Graph.v ===== *)
(** * Graph: the frozen module graph

    The records of [crates/ulo/src/binding/mod.rs], [dependency/mod.rs], [scope.rs], [hooks.rs],
    [module/mod.rs], [module/def.rs], [transport/controller.rs] and [graph/mod.rs], and the
    methods of [Graph]. A closure, constructor or instance behind an [Arc] is an opaque handle
    (a number): the graph stores and shares it and never runs it. A [BindingId] or [ModuleId] is
    the position it indexes; an index out of range panics in Rust, and the totalised lookups here
    answer a default instead, which [graph_wf] shows is never read. *)

From S2P Require Import Prelude Text Key.
Local Open Scope string_scope.
Local Open Scope nat_scope.

Abbreviation Handle := nat (only parsing).
Abbreviation BindingId := nat (only parsing).
Abbreviation ModuleId := nat (only parsing).
Abbreviation ClosureId := nat (only parsing).


(** ** Scopes, bounds and dependencies *)

Inductive ScopeKind := KSingleton | KPerExecution | KTransient | KAuto.

#[export] Instance ScopeKind_eq_dec : EqDecision ScopeKind.
Proof. solve_decision. Defined.

(** A [Duration] is its nanoseconds. *)
Abbreviation Duration := N (only parsing).
Definition is_zero (d : Duration) : bool := bool_decide (d = 0%N).

(** [timer::Bound]. *)
Inductive Bound := BoundDefault | After (d : Duration) | Unbounded.

Inductive ReadKind :=
  | Single (key : Key)
  | Collection (key : Key)
  | Extension (ty : TypeId)
  | Execution
  | Module.

Record Read := { rd_kind : ReadKind; rd_optional : bool }.

Inductive DependencyLabel :=
  | Field (name : string)
  | Param (name : string)
  | Position (index : nat).

Record DependencyRecord := {
  dr_label : DependencyLabel;
  dr_type_name : string;
  dr_reads : list Read; (* [requirement.reads] *)
}.

Record Dependencies := { deps_list : list DependencyRecord; deps_controller : option TypeId }.

Definition dependencies_default : Dependencies := {| deps_list := []; deps_controller := None |}.

(** ** Hooks, readiness checks and bindings *)

Inductive HookKind :=
  | OnModuleInit | OnApplicationBootstrap | OnModuleDestroy
  | BeforeApplicationShutdown | OnApplicationShutdown.

#[export] Instance HookKind_eq_dec : EqDecision HookKind.
Proof. solve_decision. Defined.

(** [Display for HookKind]. *)
Definition hook_kind_display (k : HookKind) : string :=
  match k with
  | OnModuleInit => "OnModuleInit"
  | OnApplicationBootstrap => "OnApplicationBootstrap"
  | OnModuleDestroy => "OnModuleDestroy"
  | BeforeApplicationShutdown => "BeforeApplicationShutdown"
  | OnApplicationShutdown => "OnApplicationShutdown"
  end.

Record HookRecord := {
  hk_kind : HookKind;
  hk_bound : Bound;
  hk_bound_at : option Location;
  hk_run : Handle;
  hk_dependencies : Dependencies;
  hk_location : Location;
}.

Record ReadyRecord := {
  ry_check : Handle;
  ry_dependencies : Dependencies;
  ry_retries : nat;
  ry_backoff : Duration;
  ry_backoff_location : option Location;
  ry_whole : Bound;
  ry_whole_at : option Location;
  ry_attempt : Bound;
  ry_attempt_at : option Location;
  ry_location : Location;
}.

Inductive Recipe :=
  | Construct (ctor : Handle)
  | Factory (ctor : Handle)
  | Value (instance : Handle)
  | Alias (target : Key)
  | Failed.

Record AlsoAs := { aa_key : Key; aa_coerce : Handle; aa_location : Location }.

Record BindingRecord := {
  br_primary : Key;
  br_qualifier : Qualifier;
  br_built : string;
  br_into_primary : option Handle;
  br_also : list AlsoAs;
  br_kind : BindingKind;
  br_scope : ScopeKind;
  br_controller : bool;
  br_controller_type : option TypeName;
  br_recipe : Recipe;
  br_dependencies : Dependencies;
  br_construct_bound : Bound;
  br_construct_bound_at : option Location;
  br_ready : option ReadyRecord;
  br_replaced_ready : list Location;
  br_hooks : list HookRecord;
  br_constructs : bool;
  br_location : Location;
}.

(** [BindingRecord::new]. *)
Definition binding_record (primary : Key) (built : string) (kind : BindingKind) (scope : ScopeKind)
    (recipe : Recipe) (dependencies : Dependencies) (location : Location) : BindingRecord := {|
  br_primary := primary;
  br_qualifier := qualifier_none;
  br_built := built;
  br_into_primary := None;
  br_also := [];
  br_kind := kind;
  br_scope := scope;
  br_controller := false;
  br_controller_type := None;
  br_recipe := recipe;
  br_dependencies := dependencies;
  br_construct_bound := BoundDefault;
  br_construct_bound_at := None;
  br_ready := None;
  br_replaced_ready := [];
  br_hooks := [];
  br_constructs := false;
  br_location := location;
|}.

Definition by_closure (r : BindingRecord) : bool :=
  match br_recipe r with Factory _ => negb (br_constructs r) | _ => false end.

Definition keys_located (r : BindingRecord) : list (Key * Location) :=
  (λ kl : Key * Location, (with_qualifier kl.1 (q_id (br_qualifier r)) (q_name (br_qualifier r)), kl.2)) <$>
  ((br_primary r, br_location r) :: ((λ a, (aa_key a, aa_location a)) <$> br_also r)).

Definition keys (r : BindingRecord) : list Key := (keys_located r).*1.

(** ** Modules *)

(** The configuration behind an identity is compared by value; a handle stands for the value, equal
    exactly when [eq_dyn] is. *)
Record ModuleIdentity := {
  mi_ty : TypeId;
  mi_ty_name : string;
  mi_config : option Handle;
  mi_qualifier : option Qualifier;
  mi_label : option string;
}.

(** What [PartialEq for ModuleIdentity] and its [Hash] read. *)
Abbreviation IdentityId := (nat * option (nat * string) * option nat)%type (only parsing).
Definition identity_id (i : ModuleIdentity) : IdentityId :=
  (mi_ty i, (λ q, (q_id q, q_name q)) <$> mi_qualifier i, mi_config i).
Definition identity_eqb (a b : ModuleIdentity) : bool :=
  bool_decide (mi_ty a = mi_ty b) && bool_decide (mi_qualifier a = mi_qualifier b)
  && bool_decide (mi_config a = mi_config b).

Record ModuleName := { mn_text : string; mn_full : string }.

(** [ModuleName::render]. *)
Definition module_name_render (identity : ModuleIdentity) (instance : nat) (full : bool) : string :=
  let path name := if full then name else short_type_name name in
  let text :=
    match mi_label identity with
    | Some label => if full then label ++ " (" ++ mi_ty_name identity ++ ")" else label
    | None => path (mi_ty_name identity)
    end in
  let text :=
    match mi_qualifier identity with
    | Some q => text ++ " @ " ++ path (q_name q)
    | None => text
    end in
  if bool_decide (0 < instance) then text ++ " #" ++ decimal (instance + 1) else text.

(** [ModuleName::of]. *)
Definition module_name_of (identity : ModuleIdentity) (instance : nat) : ModuleName :=
  {| mn_text := module_name_render identity instance false;
     mn_full := module_name_render identity instance true |}.

Record Setting := { st_name : string; st_value : string; st_at : Location }.
Record Repeat := { rp_name : string; rp_first : Location; rp_second : Location }.

#[export] Instance Repeat_eq_dec : EqDecision Repeat.
Proof. solve_decision. Defined.

Record ModuleSettings := { ms_entries : list Setting; ms_repeats : list Repeat }.

Definition module_settings_new : ModuleSettings := {| ms_entries := []; ms_repeats := [] |}.

(** [ModuleSettings::with], the value already written by [Debug]. *)
Definition settings_with (s : ModuleSettings) (name value : string) (at_ : Location) : ModuleSettings :=
  match find_first (λ w, bool_decide (st_name w = name)) (ms_entries s) with
  | Some first =>
      {| ms_entries := ms_entries s;
         ms_repeats := (ms_repeats s ++ [{| rp_name := name; rp_first := st_at first; rp_second := at_ |}])%list |}
  | None =>
      {| ms_entries := (ms_entries s ++ [{| st_name := name; st_value := value; st_at := at_ |}])%list;
         ms_repeats := ms_repeats s |}
  end.

Definition settings_value (s : ModuleSettings) (name : string) : option string :=
  st_value <$> find_first (λ w, bool_decide (st_name w = name)) (ms_entries s).

(** [ModuleSettings::differences]. *)
Definition differences (s other : ModuleSettings) : list (string * option string * option string) :=
  let names :=
    ((st_name <$> ms_entries s)
      ++ filterb (λ name, bool_decide (settings_value s name = None)) (st_name <$> ms_entries other))%list in
  omap (λ name,
    let '(first, second) := (settings_value s name, settings_value other name) in
    if bool_decide (first = second) then None else Some (name, first, second)) names.

Inductive Import := New (node : nat) | Existing (id : ModuleId).

#[export] Instance Import_eq_dec : EqDecision Import.
Proof. solve_decision. Defined.

Inductive Site :=
  | SiteRoot
  | SiteLoad (at_ : Location)
  | SiteImport (importer : Import) (at_ : Location).

(** ** Handlers *)

Record InputKey := { ik_key : Key; ik_also : list TypeName; ik_location : Location }.

Record ClosureDep := {
  cd_id : ClosureId;
  cd_scope : ScopeKind;
  cd_dependencies : Dependencies;
  cd_role : string;
  cd_tier : string;
  cd_position : nat;
  cd_location : Location;
}.

Inductive EnhancerDep := EType (key : Key) | EClosure (c : ClosureDep).

(** The fields the wiring pass reads; the route, shape, metadata, tiers and handler value a
    transport reads at [prepare] are not among them. *)
Record HandlerDecl := {
  hd_transport : TypeName;
  hd_key : string;
  hd_reads_prefix : bool;
  hd_inputs : list InputKey; (* what [Transport::inputs] writes when the freeze calls it *)
  hd_name : string;
  hd_role_keys : list Key; (* the three of the array *)
  hd_enhancer_deps : list EnhancerDep;
  hd_dependencies : Dependencies;
}.

Record HandlerRecord := {
  hr_controller : BindingId;
  hr_module : ModuleId;
  hr_prefix : option string;
  hr_decl : HandlerDecl;
}.

(** ** The frozen graph *)

Inductive Role := Provider | Controller | Enhancer.

#[export] Instance Role_eq_dec : EqDecision Role.
Proof. solve_decision. Defined.

Inductive Effective := ESingleton | EPerExecution | ETransient.

#[export] Instance Effective_eq_dec : EqDecision Effective.
Proof. solve_decision. Defined.

Inductive EdgeTarget :=
  | TBinding (id : BindingId)
  | TCollection (key : Key)
  | TInput (key : Key)
  | TExecution
  | TModule.

Record Edge := { ed_target : EdgeTarget; ed_dependency : nat; ed_optional : bool }.

Record FrozenBinding := {
  fb_id : BindingId;
  fb_origin : ModuleId;
  fb_record : BindingRecord;
  fb_role : Role;
  fb_effective : Effective;
  fb_needs_execution : bool;
  fb_edges : list Edge;
}.

Inductive Visible :=
  | VBinding (id : BindingId)
  | VInput (key : Key)
  | VAmbiguous (sources : list (ModuleId * BindingId)).

(** [VisibilityTable::entries], each entry with the key it was first inserted under. *)
Abbreviation VisibilityTable := (gmap KeyId (Key * Visible)) (only parsing).

Inductive InputOrigin :=
  | OTransport (name : TypeName) (at_ : Location)
  | OModule (module : ModuleName) (seeders : list TypeName) (at_ : Location)
  | OBinding (module : ModuleName) (at_ : Location).

Record InputDecl := { in_key : Key; in_seeders : list TypeName; in_origin : InputOrigin }.

Record FrozenModule := {
  fm_id : ModuleId;
  fm_identity : ModuleIdentity;
  fm_name : ModuleName;
  fm_global : bool;
  fm_keyed : option Qualifier;
  fm_imports : list ModuleId;
  fm_bindings : list BindingId;
  fm_hooks : list HookRecord;
  fm_meta : list (TypeId * Handle);
  fm_loaded : option nat;
  fm_settings : ModuleSettings;
  fm_site : Site;
}.

Record Graph := {
  g_modules : list FrozenModule;
  g_bindings : list FrozenBinding;
  g_visibility : list VisibilityTable;
  g_collections : gmap KeyId (list BindingId);
  g_inputs : gmap KeyId InputDecl;
  g_by_identity : gmap IdentityId ModuleId;
  g_root : ModuleId;
  g_connect_order : list BindingId;
  g_handlers : list HandlerRecord;
  g_closures : gmap ClosureId Effective;
  g_secrets : list string;
  g_exported : list (list (Key * BindingId));
}.

(** [ExportRecord] and [InputRecord] of [module/def.rs]. *)
Record ExportRecord := { ex_key : Key; ex_reexport : bool; ex_location : Location }.
Record InputRecord := { ir_key : Key; ir_seeder : TypeName; ir_location : Location }.

(** [wire::Declared]: what the checks read that the frozen graph does not keep. *)
Record Declared := {
  dc_root : ModuleId;
  dc_first_module : nat;
  dc_first_binding : nat;
  dc_first_handler : nat;
  dc_exports : list (ModuleId * ExportRecord);
  dc_inputs : list (ModuleId * InputRecord);
  dc_transport_inputs : list InputDecl;
  dc_meta : list (ModuleId * string * Dependencies);
}.

(** ** Lookups *)

Definition no_location : Location := {| loc_file := ""; loc_line := 0; loc_column := 0 |}.
Definition no_type : TypeName := from_parts unit_id "".
Definition no_key : Key := {| key_ty := no_type; key_qualifier := no_type |}.
Definition no_identity : ModuleIdentity :=
  {| mi_ty := 0; mi_ty_name := ""; mi_config := None; mi_qualifier := None; mi_label := None |}.

(** What a lookup out of range answers; no lookup of a well-formed graph does. *)
Definition no_binding : FrozenBinding := {|
  fb_id := 0; fb_origin := 0;
  fb_record := binding_record no_key "" BCollection KAuto Failed dependencies_default no_location;
  fb_role := Provider; fb_effective := EPerExecution; fb_needs_execution := false; fb_edges := [] |}.
Definition no_module : FrozenModule := {|
  fm_id := 0; fm_identity := no_identity; fm_name := module_name_of no_identity 0; fm_global := false;
  fm_keyed := None; fm_imports := []; fm_bindings := []; fm_hooks := []; fm_meta := [];
  fm_loaded := None; fm_settings := module_settings_new; fm_site := SiteRoot |}.

Definition binding (g : Graph) (id : BindingId) : FrozenBinding := default no_binding (g_bindings g !! id).
Definition module (g : Graph) (id : ModuleId) : FrozenModule := default no_module (g_modules g !! id).

(** [Graph::lookup]. *)
Definition lookup (g : Graph) (m : ModuleId) (key : Key) : option Visible :=
  snd <$> (default ∅ (g_visibility g !! m) : VisibilityTable) !! key_id key.

(** [Graph::collection]. *)
Definition collection (g : Graph) (key : Key) : list BindingId :=
  default [] (g_collections g !! key_id key).

Definition empty_graph : Graph := {|
  g_modules := []; g_bindings := []; g_visibility := []; g_collections := ∅; g_inputs := ∅;
  g_by_identity := ∅; g_root := 0; g_connect_order := []; g_handlers := []; g_closures := ∅;
  g_secrets := []; g_exported := [] |}.

Inductive LookupError :=
  | NotFound (key : KeyName)
  | AmbiguousModule (module : string) (candidates : list ModuleName).

(** [Graph::module_of]. *)
Definition module_of (g : Graph) (identity : ModuleIdentity) : LookupError + ModuleId :=
  match g_by_identity g !! identity_id identity with
  | Some id => inr id
  | None =>
      let q := default qualifier_none (mi_qualifier identity) in
      inl (NotFound (key_name_of
        (key_from_parts (mi_ty identity) (mi_ty_name identity) (q_id q) (q_name q)) BSingle))
  end.

(** [Graph::find_module]. *)
Definition find_module (g : Graph) (ty : TypeId) (type_name : string) (qualifier : option Qualifier)
    : LookupError + ModuleId :=
  let found := filterb (λ m,
    bool_decide (mi_ty (fm_identity m) = ty)
    && (bool_decide (qualifier = None) || bool_decide (mi_qualifier (fm_identity m) = qualifier)))
    (g_modules g) in
  match found with
  | [one] => inr (fm_id one)
  | [] =>
      let q := default qualifier_none qualifier in
      inl (NotFound (key_name_of (key_from_parts ty type_name (q_id q) (q_name q)) BSingle))
  | several => inl (AmbiguousModule type_name (fm_name <$> several))
  end.

Definition module_name (g : Graph) (id : ModuleId) : ModuleName := fm_name (module g id).

(** [record_key]: a record's primary key with its qualifier applied. *)
Definition record_key (r : BindingRecord) : Key :=
  with_qualifier (br_primary r) (q_id (br_qualifier r)) (q_name (br_qualifier r)).

(** [boundary_key]: an export key as it leaves a module. *)
Definition boundary_key (keyed : option Qualifier) (key : Key) : Key :=
  match keyed with
  | Some q => if is_unqualified key then with_qualifier key (q_id q) (q_name q) else key
  | None => key
  end.

Definition key_name (g : Graph) (id : BindingId) : KeyName :=
  let r := fb_record (binding g id) in key_name_of (record_key r) (br_kind r).

(** [Graph::label]. *)
Definition label (g : Graph) (id : BindingId) : string :=
  let r := fb_record (binding g id) in
  let text := short_type_name (br_built r) in
  if bool_decide (br_qualifier r = qualifier_none) then text
  else text ++ " @ " ++ short_type_name (q_name (br_qualifier r)).

(** [Graph::scoped_label]. *)
Definition scoped_label (g : Graph) (id : BindingId) : string :=
  label g id ++
  match fb_effective (binding g id) with
  | EPerExecution => " (execution)"
  | ETransient => " (transient)"
  | ESingleton => ""
  end.

Definition dependency_label (l : DependencyLabel) : string :=
  match l with
  | Field name => "field `" ++ name ++ "`"
  | Param name => "param `" ++ name ++ "`"
  | Position index => "param #" ++ decimal (index + 1)
  end.

Definition dependency_text (d : DependencyRecord) : string :=
  short_type_name (dr_type_name d) ++ " (" ++ dependency_label (dr_label d) ++ ")".

(** [Graph::consumer]. *)
Definition consumer (g : Graph) (id : BindingId) (index : nat) : string :=
  let r := fb_record (binding g id) in
  let text := if by_closure r then label g id ++ " factory" else label g id in
  match deps_list (br_dependencies r) !! index with
  | Some d => text ++ " (" ++ dependency_label (dr_label d) ++ ")"
  | None => text
  end.

(** [Graph::dependency_step]. *)
Definition dependency_step (g : Graph) (id : BindingId) (index : nat) : string :=
  match deps_list (br_dependencies (fb_record (binding g id))) !! index with
  | Some d => dependency_text d
  | None => ""
  end.

(** [Graph::handler_name]. *)
Definition handler_name (g : Graph) (h : HandlerRecord) : string :=
  label g (hr_controller h) ++ "::" ++ hd_name (hr_decl h).

(** [Graph::alias_target]. *)
Definition alias_target (g : Graph) (id : BindingId) : option BindingId :=
  let b := binding g id in
  match br_recipe (fb_record b) with
  | Alias target =>
      match lookup g (fb_origin b) target with
      | Some (VBinding t) => Some t
      | _ => None
      end
  | _ => None
  end.

(** What one edge reaches. *)
Definition edge_deps (g : Graph) (e : Edge) : list BindingId :=
  match ed_target e with
  | TBinding dep => [dep]
  | TCollection key => collection g key
  | TInput _ | TExecution | TModule => []
  end.

(** [Graph::construction_deps]. *)
Definition construction_deps (g : Graph) (id : BindingId) : list BindingId :=
  ((fb_edges (binding g id) ≫= edge_deps g) ++ option_list (alias_target g id))%list.

(** [Graph::closure_deps]. *)
Definition closure_deps (g : Graph) (m : ModuleId) (d : Dependencies) : list BindingId :=
  deps_list d ≫= (λ d, dr_reads d ≫= λ read,
    match rd_kind read with
    | Single key => match lookup g m key with Some (VBinding dep) => [dep] | _ => [] end
    | Collection key => collection g key
    | Extension _ | Execution | Module => []
    end).

(** [Graph::readiness_deps]. *)
Definition readiness_deps (g : Graph) (id : BindingId) : list BindingId :=
  let b := binding g id in
  match br_ready (fb_record b) with
  | Some ready => filterb (λ dep, negb (bool_decide (dep = id))) (closure_deps g (fb_origin b) (ry_dependencies ready))
  | None => []
  end.

(** [Graph::passes_execution]. *)
Definition passes_execution (g : Graph) (id : BindingId) : bool :=
  let b := binding g id in
  match fb_effective b with
  | EPerExecution => true
  | ETransient => fb_needs_execution b
  | ESingleton => false
  end.

(** Whether an edge reads execution data directly: the pattern [Execution | Input(_)]. *)
Definition is_execution_edge (e : Edge) : bool :=
  match ed_target e with TExecution | TInput _ => true | _ => false end.

(** [Graph::direct_execution_edge]. *)
Definition direct_execution_edge (g : Graph) (id : BindingId) : option Edge :=
  find_first is_execution_edge (fb_edges (binding g id)).

(** [InputDecl::same_seeders]. *)
Definition same_seeders (d : InputDecl) (other : list TypeName) : bool :=
  bool_decide (length (in_seeders d) = length other)
  && forallb (λ seeder, existsb (type_name_eqb seeder) other) (in_seeders d).

(** ** Field updates *)

Definition set_edges (b : FrozenBinding) (edges : list Edge) : FrozenBinding := {|
  fb_id := fb_id b; fb_origin := fb_origin b; fb_record := fb_record b; fb_role := fb_role b;
  fb_effective := fb_effective b; fb_needs_execution := fb_needs_execution b; fb_edges := edges |}.
Definition set_role (b : FrozenBinding) (role : Role) : FrozenBinding := {|
  fb_id := fb_id b; fb_origin := fb_origin b; fb_record := fb_record b; fb_role := role;
  fb_effective := fb_effective b; fb_needs_execution := fb_needs_execution b; fb_edges := fb_edges b |}.
Definition set_effective (b : FrozenBinding) (e : Effective) : FrozenBinding := {|
  fb_id := fb_id b; fb_origin := fb_origin b; fb_record := fb_record b; fb_role := fb_role b;
  fb_effective := e; fb_needs_execution := fb_needs_execution b; fb_edges := fb_edges b |}.
Definition set_needs (b : FrozenBinding) (n : bool) : FrozenBinding := {|
  fb_id := fb_id b; fb_origin := fb_origin b; fb_record := fb_record b; fb_role := fb_role b;
  fb_effective := fb_effective b; fb_needs_execution := n; fb_edges := fb_edges b |}.

Definition set_bindings (g : Graph) (bs : list FrozenBinding) : Graph := {|
  g_modules := g_modules g; g_bindings := bs; g_visibility := g_visibility g;
  g_collections := g_collections g; g_inputs := g_inputs g; g_by_identity := g_by_identity g;
  g_root := g_root g; g_connect_order := g_connect_order g; g_handlers := g_handlers g;
  g_closures := g_closures g; g_secrets := g_secrets g; g_exported := g_exported g |}.
Definition set_tables (g : Graph) (vis : list VisibilityTable) (exported : list (list (Key * BindingId))) : Graph := {|
  g_modules := g_modules g; g_bindings := g_bindings g; g_visibility := vis;
  g_collections := g_collections g; g_inputs := g_inputs g; g_by_identity := g_by_identity g;
  g_root := g_root g; g_connect_order := g_connect_order g; g_handlers := g_handlers g;
  g_closures := g_closures g; g_secrets := g_secrets g; g_exported := exported |}.
Definition set_closures (g : Graph) (cs : gmap ClosureId Effective) : Graph := {|
  g_modules := g_modules g; g_bindings := g_bindings g; g_visibility := g_visibility g;
  g_collections := g_collections g; g_inputs := g_inputs g; g_by_identity := g_by_identity g;
  g_root := g_root g; g_connect_order := g_connect_order g; g_handlers := g_handlers g;
  g_closures := cs; g_secrets := g_secrets g; g_exported := g_exported g |}.
Definition set_root_order (g : Graph) (root : ModuleId) (order : list BindingId) : Graph := {|
  g_modules := g_modules g; g_bindings := g_bindings g; g_visibility := g_visibility g;
  g_collections := g_collections g; g_inputs := g_inputs g; g_by_identity := g_by_identity g;
  g_root := root; g_connect_order := order; g_handlers := g_handlers g;
  g_closures := g_closures g; g_secrets := g_secrets g; g_exported := g_exported g |}.

(** ** Well-formedness

    The ids a graph holds are positions of its vectors. *)
Record graph_wf (g : Graph) : Prop := {
  wf_binding_id : ∀ i b, g_bindings g !! i = Some b → fb_id b = i;
  wf_module_id : ∀ i m, g_modules g !! i = Some m → fm_id m = i;
  wf_origin : ∀ i b, g_bindings g !! i = Some b → fb_origin b < length (g_modules g);
  wf_edges : ∀ i b e dep, g_bindings g !! i = Some b → e ∈ fb_edges b → ed_target e = TBinding dep →
    dep < length (g_bindings g);
  wf_collections : ∀ k ids dep, g_collections g !! k = Some ids → dep ∈ ids → dep < length (g_bindings g);
  wf_visible : ∀ m key id, lookup g m key = Some (VBinding id) → id < length (g_bindings g);
  wf_module_bindings : ∀ m id, m ∈ g_modules g → id ∈ fm_bindings m → id < length (g_bindings g);
  wf_exported : ∀ l key id, l ∈ g_exported g → (key, id) ∈ l → id < length (g_bindings g);
  wf_handlers : ∀ h, h ∈ g_handlers g → hr_controller h < length (g_bindings g);
  wf_handler_modules : ∀ h, h ∈ g_handlers g → hr_module h < length (g_modules g);
}.

Section Facts.
Context (g : Graph) (Hwf : graph_wf g).

Lemma binding_Some i b : g_bindings g !! i = Some b → binding g i = b.
Proof. unfold binding. by intros ->. Qed.

Lemma binding_out i : length (g_bindings g) ≤ i → binding g i = no_binding.
Proof. unfold binding. by intros ->%lookup_ge_None_2. Qed.

Lemma collection_range key dep : dep ∈ collection g key → dep < length (g_bindings g).
Proof.
  unfold collection. destruct (_ !! _) as [ids|] eqn:E; simpl.
  - by eapply wf_collections.
  - intros H. by apply not_elem_of_nil in H.
Qed.

Lemma alias_target_range id t : alias_target g id = Some t → t < length (g_bindings g).
Proof.
  unfold alias_target. destruct (br_recipe _); try done.
  destruct (lookup _ _ _) as [[]|] eqn:E; try done.
  intros [= <-]. by eapply wf_visible.
Qed.

(** Every binding a construction reads is in the graph. *)
Lemma construction_deps_range id dep :
  dep ∈ construction_deps g id → dep < length (g_bindings g).
Proof.
  unfold construction_deps. rewrite elem_of_app, elem_of_opt, list_elem_of_bind.
  intros [(e & Hdep & He)|H]; [|by eapply alias_target_range].
  unfold edge_deps in Hdep. destruct (ed_target e) eqn:Et; try by apply not_elem_of_nil in Hdep.
  - apply list_elem_of_singleton in Hdep as ->.
    destruct (g_bindings g !! id) as [b|] eqn:Eb.
    + rewrite (binding_Some id b) in He by done. by eapply wf_edges.
    + rewrite binding_out in He by (by apply lookup_ge_None_1). by apply not_elem_of_nil in He.
  - by eapply collection_range.
Qed.

Lemma closure_deps_range m d dep :
  dep ∈ closure_deps g m d → dep < length (g_bindings g).
Proof.
  unfold closure_deps. rewrite list_elem_of_bind. intros (dr & H & _).
  rewrite list_elem_of_bind in H. destruct H as (read & H & _).
  destruct (rd_kind read); try by apply not_elem_of_nil in H.
  - destruct (lookup g m key) as [[]|] eqn:E; try by apply not_elem_of_nil in H.
    apply list_elem_of_singleton in H as ->. by eapply wf_visible.
  - by eapply collection_range.
Qed.

Lemma readiness_deps_range id dep :
  dep ∈ readiness_deps g id → dep < length (g_bindings g).
Proof.
  unfold readiness_deps. destruct (br_ready _); [|intros H; by apply not_elem_of_nil in H].
  rewrite elem_of_filterb. intros [_ H]. by eapply closure_deps_range.
Qed.
End Facts.
