(* ===== verification/WiringError.v ===== *)
(** * WiringError: the failures a wiring pass reports

    [WiringError], [BoundItem], [ModuleSite] and [DifferingSetting] of
    [crates/ulo/src/error/wiring.rs], with the source's constructors. A [Redacted] error is its
    text. *)

From S2P Require Import Prelude Text Key Graph.
Local Open Scope string_scope.
Local Open Scope nat_scope.

Inductive BoundItem := ItemConstruction | ReadinessWhole | ReadinessAttempt | ItemHook (kind : HookKind).

(** [Display for BoundItem]. *)
Definition bound_item_display (i : BoundItem) : string :=
  match i with
  | ItemConstruction => "construction"
  | ReadinessWhole => "readiness check"
  | ReadinessAttempt => "readiness attempt"
  | ItemHook kind => "`" ++ hook_kind_display kind ++ "` hook"
  end.

Inductive ModuleSite :=
  | MSRoot
  | MSImport (importer : ModuleName) (at_ : Location)
  | MSLoad (at_ : Location).

Record DifferingSetting := {
  ds_name : string;
  ds_first : option string;
  ds_second : option string;
  ds_shown : option string * option string;
}.

Inductive WiringError :=
  | ImportCycle (path : list ModuleName)
  | ReexportNotVisible (module : ModuleName) (key : KeyName) (at_ : Location)
  | ReexportAmbiguous (module : ModuleName) (key : KeyName) (sources : list ModuleName) (at_ : Location)
  | KeyedInput (module : ModuleName) (key : KeyName) (at_ : Location)
  | NestedKeyed (module : ModuleName) (outer inner : TypeName)
  | DifferingSettings (module : ModuleName) (first second : ModuleSite) (settings : list DifferingSetting)
  | DuplicateSetting (setting : string) (module : ModuleName) (first second : Location)
  | ExportNotBound (module : ModuleName) (key : KeyName) (imported : bool) (near : option KeyName) (at_ : Location)
  | DuplicateBinding (key : KeyName) (module : ModuleName) (first second : Location)
  | KindMix (key : KeyName) (module : ModuleName) (single collection : Location)
  | DanglingAlias (alias target : KeyName) (module : ModuleName) (at_ : Location)
  | ControllerProvided (key : KeyName) (controller : TypeName) (module : ModuleName) (at_ : Location)
  | ValueFailed (module : ModuleName) (key : KeyName) (error : string) (at_ : Location)
  | QualifiedRoleContribution (key : KeyName) (module : ModuleName) (at_ : Location)
  | SingleRoleBinding (key : KeyName) (module : ModuleName) (at_ : Location)
  | DuplicateReadiness (key : KeyName) (module : ModuleName) (first second : Location)
  | InputConflict (key : KeyName) (first second : InputOrigin)
  | OverrideUnmatched (key : KeyName) (keyed : option ModuleName) (at_ : Location)
  | OverrideAmbiguous (key : KeyName) (matches : list ModuleName) (at_ : Location)
  | OverrideModuleAmbiguous (module : string) (candidates : list ModuleName) (at_ : Location)
  | OverrideKind (key : KeyName) (expected found : BindingKind) (at_ : Location)
  | TimerOverride (at_ : Location)
  | RuntimeOverride (at_ : Location)
  | ReplacementMissingExports (original replacement : ModuleName) (missing : list KeyName)
  | ReplacementUnmatched (original : ModuleName) (at_ : Location)
  | DuplicateReplacement (original : ModuleName) (first second : Location)
  | UnreadPrefix (controller : KeyName) (module : ModuleName) (prefix : string) (transports : list TypeName)
      (at_ : Location)
  | Missing (key : KeyName) (consumer : string) (module : ModuleName) (near : option (KeyName * ModuleName))
  | Ambiguous (key : KeyName) (consumer : string) (module : ModuleName) (sources : list (ModuleName * Location))
  | ControllerRead (controller : KeyName) (consumer : string) (module controller_module : ModuleName)
  | Cycle (path : list (KeyName * ModuleName))
  | ScopeViolation (binding : KeyName) (declared : ScopeKind) (by_closure controller : bool)
      (module : ModuleName) (path : list string)
  | HooksOnPerExecution (binding : KeyName) (module : ModuleName)
  | ClosureScopeViolation (closure : string) (transport : TypeName) (role : string) (path : list string)
      (at_ : Location)
  | ClosureNeedsExecution (closure : string) (path : list string) (at_ : option Location)
  | InputNotSeeded (handler : string) (transport : TypeName) (input : KeyName) (seeder : TypeName)
      (steps : list string)
  | BoundWithoutTimer (item : string) (at_ : Location)
  | BackoffWithoutTimer (binding : string) (at_ : Location)
  | KnobWithoutTimer (knob : string)
  | ZeroBound (item : BoundItem) (binding : option KeyName) (module : ModuleName) (at_ : Location)
  | ZeroDefault (knob : string) (at_ : Location).
