(* ===== verification/Tarjan.v ===== *)
(** * Tarjan: the strongly connected components of the dependency graph

    [strongly_connected] of [crates/ulo/src/graph/cycles.rs], the iterative form of Tarjan's
    algorithm, over a successor vector. The two [Vec]s used as stacks are lists with their last
    element first. [index]'s [UNVISITED] sentinel is [None]: an index counts visited nodes and
    never reaches [usize::MAX]. *)

From S2P Require Import Prelude.

(** The locals of [strongly_connected], [calls] included. *)
Record tarjan := {
  t_index : list (option nat);
  t_low : list nat;
  t_on_stack : list bool;
  t_stack : list nat;
  t_components : list (list nat);
  t_next : nat;
  t_calls : list (nat * nat);
}.

Section Tarjan.
Context (successors : list (list nat)).

Definition count : nat := length successors.
Definition succs (v : nat) : list nat := default [] (successors !! v).

Definition tarjan_init : tarjan := {|
  t_index := replicate count None;
  t_low := replicate count 0;
  t_on_stack := replicate count false;
  t_stack := [];
  t_components := [];
  t_next := 0;
  t_calls := [];
|}.

(** A node met for the first time: numbered, pushed on both stacks. *)
Definition visit (v : nat) (s : tarjan) : tarjan := {|
  t_index := <[v := Some (t_next s)]> (t_index s);
  t_low := <[v := t_next s]> (t_low s);
  t_on_stack := <[v := true]> (t_on_stack s);
  t_stack := v :: t_stack s;
  t_components := t_components s;
  t_next := S (t_next s);
  t_calls := (v, 0) :: t_calls s;
|}.

Definition set_calls (s : tarjan) (calls : list (nat * nat)) : tarjan := {|
  t_index := t_index s; t_low := t_low s; t_on_stack := t_on_stack s; t_stack := t_stack s;
  t_components := t_components s; t_next := t_next s; t_calls := calls |}.

Definition low_of (s : tarjan) (v : nat) : nat := default 0 (t_low s !! v).

(** [low[v] = low[v].min(n)]. *)
Definition min_low (s : tarjan) (v n : nat) : tarjan := {|
  t_index := t_index s; t_low := <[v := Nat.min (low_of s v) n]> (t_low s);
  t_on_stack := t_on_stack s; t_stack := t_stack s;
  t_components := t_components s; t_next := t_next s; t_calls := t_calls s |}.

(** The inner [while let Some(member) = stack.pop()], down to [node] and with it. *)
Fixpoint pop_component (node : nat) (stack : list nat) (on : list bool) (component : list nat)
    : list nat * list bool * list nat :=
  match stack with
  | [] => (stack, on, component)
  | member :: stack =>
      let on := <[member := false]> on in
      let component := component ++ [member] in
      if bool_decide (member = node) then (stack, on, component)
      else pop_component node stack on component
  end.

(** A node whose successors are all followed: its low reaches its caller, and a node that is its
    component's root pops the component. *)
Definition finish (node : nat) (rest : list (nat * nat)) (s : tarjan) : tarjan :=
  let s := set_calls s rest in
  let s :=
    match rest with
    | (parent, _) :: _ => min_low s parent (low_of s node)
    | [] => s
    end in
  if bool_decide (t_index s !! node = Some (Some (low_of s node))) then
    let '(stack, on, component) := pop_component node (t_stack s) (t_on_stack s) [] in
    {| t_index := t_index s; t_low := t_low s; t_on_stack := on; t_stack := stack;
       t_components := t_components s ++ [component]; t_next := t_next s; t_calls := t_calls s |}
  else s.

(** One round of [while let Some(&(node, position)) = calls.last()]. *)
Definition step (s : tarjan) : option tarjan :=
  match t_calls s with
  | [] => None
  | (node, position) :: rest => Some
      match succs node !! position with
      | Some successor =>
          let s := set_calls s ((node, S position) :: rest) in
          if bool_decide (count ≤ successor) then s
          else match t_index s !! successor with
               | Some (Some i) =>
                   if default false (t_on_stack s !! successor) then min_low s node i else s
               | _ => visit successor s
               end
      | None => finish node rest s
      end
  end.

(** Each node is pushed once and each of its successors followed once. *)
Definition fuel : nat := total (length <$> successors) + 2 * count.

(** The body of [for root in 0..count]. *)
Definition search_root (s : tarjan) (root : nat) : tarjan :=
  match t_index s !! root with
  | Some (Some _) => s
  | _ => iterate step fuel (visit root s)
  end.

Definition strongly_connected : list (list nat) :=
  t_components (foldl search_root tarjan_init (seq 0 count)).

(** ** The invariant *)

(** The edges the search follows. *)
Definition edge (u v : nat) : Prop := v ∈ succs u ∧ v < count.

Definition index_of (s : tarjan) (v : nat) : nat :=
  match t_index s !! v with Some (Some i) => i | _ => 0 end.
Definition visited (s : tarjan) (v : nat) : Prop := ∃ i, t_index s !! v = Some (Some i).

(** A frame of [calls] with the finished nodes it holds on the stack. *)
Record seg := { sg_node : nat; sg_pos : nat; sg_fin : list nat }.

Definition seg_stack (sg : seg) : list nat := sg_fin sg ++ [sg_node sg].
Definition seg_call (sg : seg) : nat * nat := (sg_node sg, sg_pos sg).

(** Each frame was pushed following an edge of the frame below it. *)
Fixpoint linked (segs : list seg) : Prop :=
  match segs with
  | a :: ((b :: _) as rest) => edge (sg_node b) (sg_node a) ∧ linked rest
  | _ => True
  end.

(** A followed edge leads to a visited node, and to none on the stack below the frame's low. *)
Definition followed (s : tarjan) (sg : seg) (v : nat) : Prop :=
  visited s v ∧ (v ∈ t_stack s → low_of s (sg_node sg) ≤ index_of s v).

Record seg_ok (s : tarjan) (sg : seg) : Prop := {
  so_pos : sg_pos sg ≤ length (succs (sg_node sg));
  so_node : ∀ k v, k < sg_pos sg → succs (sg_node sg) !! k = Some v → v < count → followed s sg v;
  so_fin : ∀ w v, w ∈ sg_fin sg → edge w v → followed s sg v;
  so_down : ∀ w, w ∈ sg_fin sg → rtc edge (sg_node sg) w;
  so_up : ∀ w, w ∈ sg_fin sg → rtc edge w (sg_node sg);
  so_low : low_of s (sg_node sg) ≤ index_of s (sg_node sg);
  so_reach : ∃ x, x ∈ t_stack s ∧ index_of s x = low_of s (sg_node sg) ∧ rtc edge (sg_node sg) x;
}.

Record inv (s : tarjan) (segs : list seg) : Prop := {
  i_len_index : length (t_index s) = count;
  i_len_low : length (t_low s) = count;
  i_len_on : length (t_on_stack s) = count;
  i_calls : t_calls s = seg_call <$> segs;
  i_stack : t_stack s = segs ≫= seg_stack;
  i_nodup : NoDup (t_stack s ++ concat (t_components s));
  i_on : ∀ v b, t_on_stack s !! v = Some b → (b = true ↔ v ∈ t_stack s);
  i_visited : ∀ v, visited s v ↔ v ∈ t_stack s ++ concat (t_components s);
  i_sorted : StronglySorted (λ a b, index_of s b < index_of s a) (t_stack s);
  i_next : ∀ v i, t_index s !! v = Some (Some i) → i < t_next s;
  i_segs : Forall (seg_ok s) segs;
  i_linked : linked segs;
  i_comps_order : ∀ pre c post, t_components s = pre ++ c :: post →
    ∀ w v, w ∈ c → edge w v → v ∈ concat (pre ++ [c]);
  i_comps_scc : ∀ c, c ∈ t_components s → c ≠ [] ∧ ∀ u v, u ∈ c → v ∈ c → rtc edge u v;
}.

Lemma visited_lt s segs v : inv s segs → visited s v → v < count.
Proof. intros H [i Hi]. rewrite <- (i_len_index _ _ H). by eapply lookup_lt_Some. Qed.

Lemma visited_index s v i : t_index s !! v = Some (Some i) → index_of s v = i.
Proof. unfold index_of. by intros ->. Qed.

Lemma stack_visited s segs v : inv s segs → v ∈ t_stack s → visited s v.
Proof. intros H Hv. apply (i_visited _ _ H). apply elem_of_app. by left. Qed.

(** Everything on the stack reaches the topmost frame. *)
Lemma reach_top s segs sg x :
  linked (sg :: segs) → Forall (seg_ok s) (sg :: segs) →
  x ∈ (sg :: segs) ≫= seg_stack → rtc edge x (sg_node sg).
Proof.
  revert sg. induction segs as [|b segs IH]; intros sg Hl Hok Hx;
    apply Forall_cons in Hok as [Hsg Hok].
  - simpl in Hx. rewrite app_nil_r in Hx. unfold seg_stack in Hx.
    apply elem_of_app in Hx as [Hx|Hx]; [by eapply so_up|].
    apply list_elem_of_singleton in Hx as ->. done.
  - rewrite bind_cons in Hx. apply elem_of_app in Hx as [Hx|Hx].
    + apply elem_of_app in Hx as [Hx|Hx]; [by eapply so_up|].
      apply list_elem_of_singleton in Hx as ->. done.
    + destruct Hl as [He Hl]. etrans; [by apply IH|]. by apply rtc_once.
Qed.

Lemma followed_mono s s' sg v :
  (∀ v, visited s v → visited s' v ∧ index_of s' v = index_of s v) →
  (∀ v, visited s v → v ∈ t_stack s' → v ∈ t_stack s) →
  low_of s' (sg_node sg) ≤ low_of s (sg_node sg) →
  followed s sg v → followed s' sg v.
Proof.
  intros Hvis Hst Hlow [Hv Hle]. destruct (Hvis v Hv) as [Hv' Hi].
  split; [done|]. intros H. rewrite Hi. etrans; [done|]. auto.
Qed.

(** A frame the round does not touch stays as it was. *)
Lemma seg_ok_mono s s' sg :
  (∀ v, visited s v → visited s' v ∧ index_of s' v = index_of s v) →
  (∀ v, visited s v → v ∈ t_stack s' → v ∈ t_stack s) →
  low_of s' (sg_node sg) = low_of s (sg_node sg) →
  visited s (sg_node sg) →
  (∀ x, x ∈ t_stack s → index_of s x = low_of s (sg_node sg) → visited s x ∧ x ∈ t_stack s') →
  seg_ok s sg → seg_ok s' sg.
Proof.
  intros Hvis Hst Hlow Hnode Hx [H1 H2 H3 H4 H5 H6 (x & Hx1 & Hx2 & Hx3)].
  split; try done.
  - intros. eapply followed_mono; eauto. by rewrite Hlow.
  - intros. eapply followed_mono; eauto. by rewrite Hlow.
  - rewrite Hlow. by destruct (Hvis _ Hnode) as [_ ->].
  - destruct (Hx x) as [Hv Hs]; [done..|]. exists x.
    destruct (Hvis _ Hv) as [_ ->]. rewrite Hlow. done.
Qed.

Lemma seg_ok_calls s calls sg : seg_ok s sg → seg_ok (set_calls s calls) sg.
Proof. intros [H1 H2 H3 H4 H5 H6 H7]. by split. Qed.

Lemma seg_on_stack s segs sg : inv s segs → sg ∈ segs → sg_node sg ∈ t_stack s.
Proof.
  intros H Hsg. rewrite (i_stack _ _ H). apply list_elem_of_bind. exists sg. split; [|done].
  unfold seg_stack. apply elem_of_app. right. by apply list_elem_of_singleton.
Qed.

Lemma seg_visited s segs sg : inv s segs → sg ∈ segs → visited s (sg_node sg).
Proof. intros H Hsg. eapply stack_visited; [done|]. by eapply seg_on_stack. Qed.

(** The node of the topmost frame is the node of no other. *)
Lemma top_unique s sg segs sg' :
  inv s (sg :: segs) → sg' ∈ segs → sg_node sg' ≠ sg_node sg.
Proof.
  intros H Hsg' Heq. pose proof (i_nodup _ _ H) as Hnd.
  rewrite (i_stack _ _ H), bind_cons in Hnd.
  apply NoDup_app in Hnd as (Hnd & _ & _). apply NoDup_app in Hnd as (_ & Hnd & _).
  apply (Hnd (sg_node sg)).
  - unfold seg_stack. apply elem_of_app. right. by apply list_elem_of_singleton.
  - apply list_elem_of_bind. exists sg'. split; [|done].
    unfold seg_stack. rewrite Heq. apply elem_of_app. right. by apply list_elem_of_singleton.
Qed.

(** ** A round that follows an edge to a node already visited *)

(** The state after the round, but for [calls]: a low may have been lowered to [n]. *)
Lemma follow_visited s sg segs v n :
  inv s (sg :: segs) →
  succs (sg_node sg) !! sg_pos sg = Some v →
  (v < count → visited s v) →
  (v < count → v ∈ t_stack s → n ≤ index_of s v) →
  n ≤ low_of s (sg_node sg) →
  (n = low_of s (sg_node sg) ∨ ∃ x, x ∈ t_stack s ∧ index_of s x = n ∧ edge (sg_node sg) x) →
  let sg' := {| sg_node := sg_node sg; sg_pos := S (sg_pos sg); sg_fin := sg_fin sg |} in
  inv (set_calls (min_low s (sg_node sg) n) (seg_call <$> sg' :: segs)) (sg' :: segs).
Proof.
  intros H Hv Hvis Hst Hle Hreach sg'.
  pose proof (i_segs _ _ H) as Hsegs. apply Forall_cons in Hsegs as [Hsg Hsegs].
  set (s' := set_calls _ _).
  assert (Hlow : low_of s' (sg_node sg) = n).
  { unfold s', low_of. simpl. rewrite list_lookup_insert_eq.
    - simpl. unfold low_of in *. lia.
    - rewrite (i_len_low _ _ H). eapply visited_lt; [done|]. eapply seg_visited; [done|left]. }
  assert (Hvis' : ∀ v, visited s v → visited s' v ∧ index_of s' v = index_of s v) by done.
  split; simpl; try apply H.
  - rewrite length_insert. apply H.
  - done.
  - apply Forall_cons. split.
    + destruct Hsg as [H1 H2 H3 H4 H5 H6 (x & Hx1 & Hx2 & Hx3)]. split; simpl.
      * by eapply lookup_lt_Some in Hv.
      * intros k u Hk Hu Hlt. destruct (decide (k = sg_pos sg)) as [->|].
        { rewrite Hv in Hu. injection Hu as <-. split; [by apply Hvis|].
          simpl. intros Hin. rewrite Hlow. by apply Hst. }
        eapply (followed_mono s s' sg); [done..| |].
        -- rewrite Hlow. lia.
        -- eapply H2; [|done..]. lia.
      * intros w u Hw Hu. eapply (followed_mono s s' sg); [done..| |by eapply H3].
        rewrite Hlow. lia.
      * done.
      * done.
      * rewrite Hlow. etrans; [done|]. done.
      * rewrite Hlow. destruct Hreach as [->|(y & Hy1 & Hy2 & Hy3)].
        -- by exists x.
        -- exists y. split; [done|]. split; [done|]. by apply rtc_once.
    + rewrite Forall_forall in Hsegs |- *. intros sg0 Hsg0.
      apply (seg_ok_mono s); try done.
      * unfold low_of. simpl. rewrite list_lookup_insert_ne; [done|].
        apply not_eq_sym. by eapply top_unique.
      * eapply seg_visited; [done|]. by right.
      * intros x Hx _. split; [by eapply stack_visited|done].
      * by apply Hsegs.
Qed.

(** ** A round that visits a node *)

Section Visit.
Context (s : tarjan) (segs : list seg) (v : nat) (H : inv s segs).
Context (Hlt : v < count) (Hnew : ¬ visited s v).

Lemma visit_visited u : visited (visit v s) u ↔ u = v ∨ visited s u.
Proof.
  unfold visited. simpl. destruct (decide (u = v)) as [->|Hne].
  - rewrite list_lookup_insert_eq by (by rewrite (i_len_index _ _ H)).
    split; [by left|]. intros _. eauto.
  - rewrite list_lookup_insert_ne by congruence.
    split; [by right|]. by intros [|].
Qed.

Lemma visit_index_old u : visited s u → index_of (visit v s) u = index_of s u.
Proof.
  intros Hu. unfold index_of. simpl. rewrite list_lookup_insert_ne; [done|].
  intros ->. contradiction.
Qed.

Lemma visit_index_new : index_of (visit v s) v = t_next s.
Proof.
  unfold index_of. simpl. by rewrite list_lookup_insert_eq by (by rewrite (i_len_index _ _ H)).
Qed.

Lemma visit_low u : low_of (visit v s) u = if decide (u = v) then t_next s else low_of s u.
Proof.
  unfold low_of. simpl. case_decide as E.
  - subst. by rewrite list_lookup_insert_eq by (by rewrite (i_len_low _ _ H)).
  - by rewrite list_lookup_insert_ne by congruence.
Qed.

Lemma not_on_stack : v ∉ t_stack s ++ concat (t_components s).
Proof. by rewrite <- (i_visited _ _ H). Qed.

Lemma old_index_lt u : visited s u → index_of s u < t_next s.
Proof. intros [i Hi]. rewrite (visited_index _ _ _ Hi). by eapply i_next. Qed.

Lemma visit_keeps_seg sg : sg ∈ segs → seg_ok s sg → seg_ok (visit v s) sg.
Proof.
  intros Hin. pose proof (seg_visited _ _ _ H Hin) as Hvis.
  apply seg_ok_mono; [| | |done|].
  - intros u Hu. rewrite visit_visited, (visit_index_old _ Hu). eauto.
  - intros u Hu. simpl. rewrite elem_of_cons. intros [->|?]; [contradiction|done].
  - rewrite visit_low, decide_False; [done|]. intros E. rewrite E in Hvis. contradiction.
  - intros x Hx _. split; [by eapply stack_visited|]. simpl. by right.
Qed.

(** The new node's frame, above frames that stay as they were. *)
Lemma visit_inv segs' :
  t_stack s = segs' ≫= seg_stack →
  Forall (seg_ok (visit v s)) segs' →
  linked ({| sg_node := v; sg_pos := 0; sg_fin := [] |} :: segs') →
  inv (set_calls (visit v s) (seg_call <$> {| sg_node := v; sg_pos := 0; sg_fin := [] |} :: segs'))
      ({| sg_node := v; sg_pos := 0; sg_fin := [] |} :: segs').
Proof.
  intros Hstack Hsegs Hlinked. pose proof not_on_stack as Hn.
  split; simpl; rewrite ?length_insert; try apply H; try done.
  - by rewrite Hstack.
  - constructor; [done|]. apply H.
  - intros u b. destruct (decide (u = v)) as [->|Hne].
    + rewrite list_lookup_insert_eq by (by rewrite (i_len_on _ _ H)).
      intros [= <-]. split; [left|done].
    + rewrite list_lookup_insert_ne by congruence. rewrite elem_of_cons.
      intros Hb. rewrite (i_on _ _ H _ _ Hb). split; [by right|by intros [|]].
  - intros u. change (visited (visit v s) u ↔ u ∈ v :: (t_stack s ++ concat (t_components s))).
    rewrite visit_visited, elem_of_cons, (i_visited _ _ H). done.
  - constructor.
    + eapply StronglySorted_impl_elem; [|apply H]. intros x y Hx Hy.
      change (index_of s y < index_of s x → index_of (visit v s) y < index_of (visit v s) x).
      rewrite !visit_index_old; [done|by eapply stack_visited..].
    + apply Forall_forall. intros y Hy.
      change (index_of (visit v s) y < index_of (visit v s) v).
      rewrite visit_index_new, visit_index_old by (by eapply stack_visited).
      apply old_index_lt. by eapply stack_visited.
  - intros u i. destruct (decide (u = v)) as [->|Hne].
    + rewrite list_lookup_insert_eq by (by rewrite (i_len_index _ _ H)).
      intros [= <-]. lia.
    + rewrite list_lookup_insert_ne by congruence. intros Hi.
      apply (i_next _ _ H) in Hi. lia.
  - apply Forall_cons. split; [|eapply Forall_impl; [done|intros ?; apply seg_ok_calls]].
    split; simpl; try (intros; lia);
      try (intros ? Hf; by apply not_elem_of_nil in Hf);
      try (intros ? ? Hf; by apply not_elem_of_nil in Hf).
    + change (low_of (visit v s) v ≤ index_of (visit v s) v).
      by rewrite visit_index_new, visit_low, decide_True.
    + exists v. split; [left|]. split; [|done].
      change (index_of (visit v s) v = low_of (visit v s) v).
      by rewrite visit_index_new, visit_low, decide_True.
Qed.
End Visit.

(** ** A round that finishes a node *)

Definition clear_all (on : list bool) (l : list nat) : list bool :=
  foldl (λ on m, <[m := false]> on) on l.

Lemma clear_all_length on l : length (clear_all on l) = length on.
Proof. revert on. induction l as [|m l IH]; intros on; [done|]. simpl. by rewrite IH, length_insert. Qed.

Lemma clear_all_in on l v b : clear_all on l !! v = Some b →
  (v ∈ l ∧ b = false) ∨ ((v ∉ l) ∧ on !! v = Some b).
Proof.
  revert on. induction l as [|m l IH]; intros on; simpl.
  { intros. right. by split; [apply not_elem_of_nil|]. }
  intros [[Hv Hb]|[Hv Hb]]%IH; [left; split; [by right|done]|].
  destruct (decide (v = m)) as [->|Hne].
  - left. split; [left|]. apply list_lookup_insert_Some in Hb as [(_ & <- & _)|[? _]]; done.
  - right. rewrite list_lookup_insert_ne in Hb by congruence. split; [|done].
    by rewrite not_elem_of_cons.
Qed.

Lemma pop_component_spec node fin rest on component :
  node ∉ fin →
  pop_component node (fin ++ node :: rest) on component
  = (rest, clear_all on (fin ++ [node]), component ++ fin ++ [node]).
Proof.
  revert on component. induction fin as [|m fin IH]; intros on component Hn; simpl.
  - by rewrite bool_decide_eq_true_2.
  - apply not_elem_of_cons in Hn as [Hne Hn].
    rewrite bool_decide_eq_false_2 by congruence. rewrite IH by done.
    by rewrite <- app_assoc.
Qed.

Section Finish.
Context (s : tarjan) (sg : seg) (segs : list seg) (H : inv s (sg :: segs)).
Context (Hend : succs (sg_node sg) !! sg_pos sg = None).

Let node := sg_node sg.
Let below := segs ≫= seg_stack.

Lemma top_ok : seg_ok s sg.
Proof. pose proof (i_segs _ _ H) as Hs. by apply Forall_cons in Hs as [? _]. Qed.

Lemma below_ok : Forall (seg_ok s) segs.
Proof. pose proof (i_segs _ _ H) as Hs. by apply Forall_cons in Hs as [_ ?]. Qed.

Lemma stack_split : t_stack s = sg_fin sg ++ node :: below.
Proof.
  rewrite (i_stack _ _ H), bind_cons. unfold seg_stack. by rewrite <- app_assoc.
Qed.

Lemma node_not_fin : node ∉ sg_fin sg.
Proof.
  pose proof (i_nodup _ _ H) as Hnd. rewrite stack_split in Hnd.
  apply NoDup_app in Hnd as (Hnd & _ & _). apply NoDup_app in Hnd as (_ & Hnd & _).
  intros Hin. apply (Hnd _ Hin). left.
Qed.

Lemma node_visited : visited s node.
Proof. eapply seg_visited; [done|left]. Qed.

(** What is below the topmost segment has a smaller index than what is in it. *)
Lemma below_index x y :
  x ∈ sg_fin sg ++ [node] → y ∈ below → index_of s y < index_of s x.
Proof.
  pose proof (i_sorted _ _ H) as Hs.
  rewrite (i_stack _ _ H), bind_cons in Hs.
  intros Hx Hy. by eapply (StronglySorted_app_1_elem_of _ _ _ x y) in Hs.
Qed.

(** A node of the stack no older than the topmost frame is of its segment. *)
Lemma in_segment x : x ∈ t_stack s → index_of s node ≤ index_of s x → x ∈ sg_fin sg ++ [node].
Proof.
  rewrite (i_stack _ _ H), bind_cons. rewrite elem_of_app. intros [Hx|Hx]; [done|].
  intros Hle. exfalso. assert (index_of s x < index_of s node); [|unfold node in *; lia].
  apply below_index; [|done]. apply elem_of_app. right. by apply list_elem_of_singleton.
Qed.

(** Every edge out of the segment has been followed. *)
Lemma segment_followed w v : w ∈ sg_fin sg ++ [node] → edge w v → followed s sg v.
Proof.
  pose proof top_ok as Hok. rewrite elem_of_app, list_elem_of_singleton.
  intros [Hw| ->] He; [by eapply so_fin|].
  destruct He as [He Hlt]. apply list_elem_of_lookup in He as [k Hk].
  apply (so_node _ _ Hok k); [|done..].
  apply lookup_ge_None in Hend. apply lookup_lt_Some in Hk. unfold node in *. lia.
Qed.

Lemma segment_connected u v :
  u ∈ sg_fin sg ++ [node] → v ∈ sg_fin sg ++ [node] → rtc edge u v.
Proof.
  pose proof top_ok as Hok. rewrite !elem_of_app, !list_elem_of_singleton.
  intros Hu Hv. transitivity node.
  - destruct Hu as [Hu| ->]; [by eapply so_up|done].
  - destruct Hv as [Hv| ->]; [by eapply so_down|done].
Qed.

(** *** The node is its component's root *)

Definition popped (calls : list (nat * nat)) : tarjan := {|
  t_index := t_index s; t_low := t_low s;
  t_on_stack := clear_all (t_on_stack s) (sg_fin sg ++ [node]); t_stack := below;
  t_components := t_components s ++ [sg_fin sg ++ [node]]; t_next := t_next s;
  t_calls := calls |}.

Lemma popped_seg calls sg0 : sg0 ∈ segs → seg_ok s sg0 → seg_ok (popped calls) sg0.
Proof.
  intros Hin. apply seg_ok_mono; simpl.
  - done.
  - intros u _ Hu. rewrite (i_stack _ _ H), bind_cons. apply elem_of_app. by right.
  - done.
  - eapply seg_visited; [done|]. by right.
  - intros x Hx Hlow. split; [by eapply stack_visited|].
    rewrite (i_stack _ _ H), bind_cons in Hx. apply elem_of_app in Hx as [Hx|Hx]; [|done].
    pose proof (below_ok) as Hok. rewrite Forall_forall in Hok.
    pose proof (so_low _ _ (Hok _ Hin)).
    assert (index_of s (sg_node sg0) < index_of s x); [|lia].
    apply below_index; [done|]. apply list_elem_of_bind. exists sg0. split; [|done].
    apply elem_of_app. right. by apply list_elem_of_singleton.
Qed.

Lemma popped_inv :
  low_of s node = index_of s node → inv (popped (seg_call <$> segs)) segs.
Proof.
  intros Hlow. pose proof (i_nodup _ _ H) as Hnd.
  assert (Hperm : below ++ concat (t_components s ++ [sg_fin sg ++ [node]])
                  ≡ₚ t_stack s ++ concat (t_components s)).
  { rewrite (i_stack _ _ H), bind_cons, concat_app. simpl. rewrite app_nil_r.
    fold below. unfold seg_stack. fold node. solve_Permutation. }
  split; simpl; try apply H; try done.
  - rewrite clear_all_length. apply H.
  - by rewrite Hperm.
  - intros v b Hb. rewrite stack_split in Hnd.
    apply clear_all_in in Hb as [[Hv ->]|[Hv Hb]].
    + split; [done|]. intros Hbel. exfalso.
      pose proof (below_index v v Hv Hbel). lia.
    + rewrite (i_on _ _ H _ _ Hb), (i_stack _ _ H), bind_cons, elem_of_app.
      split; [intros [|]; done|by right].
  - intros v. rewrite Hperm. apply (i_visited _ _ H).
  - pose proof (i_sorted _ _ H) as Hs. rewrite (i_stack _ _ H), bind_cons in Hs.
    by eapply StronglySorted_app_1_r in Hs.
  - pose proof below_ok as Hok. rewrite Forall_forall in Hok |- *. intros sg0 Hin.
    apply popped_seg; auto.
  - pose proof (i_linked _ _ H) as Hl. destruct segs; [done|]. by destruct Hl.
  - intros pre c post Heq w v Hw He.
    destruct (decide (post = [])) as [->|Hpost].
    + apply app_inj_tail in Heq as [<- <-].
      destruct (segment_followed w v Hw He) as [Hvis Hst].
      rewrite concat_app. simpl. rewrite app_nil_r, elem_of_app.
      apply (i_visited _ _ H) in Hvis. apply elem_of_app in Hvis as [Hvis|]; [right|by left].
      apply in_segment; [done|]. rewrite <- Hlow. by apply Hst.
    + destruct post as [|d post] using rev_ind; [done|]. clear IHpost.
      rewrite app_comm_cons, app_assoc in Heq. apply app_inj_tail in Heq as [Heq _].
      by eapply (i_comps_order _ _ H).
  - intros c. rewrite elem_of_app, list_elem_of_singleton. intros [Hc| ->].
    + by apply (i_comps_scc _ _ H).
    + split; [by destruct (sg_fin sg)|]. apply segment_connected.
Qed.

(** *** The node is not its component's root *)

(** The oldest node the frame is known to reach is below it. *)
Lemma low_below : low_of s node ≠ index_of s node →
  ∃ x, x ∈ below ∧ index_of s x = low_of s node ∧ rtc edge node x.
Proof.
  intros Hne. destruct (so_reach _ _ top_ok) as (x & Hx & Hi & Hr). exists x.
  split; [|done]. pose proof (so_low _ _ top_ok) as Hle. fold node in Hle, Hi.
  rewrite stack_split, elem_of_app, elem_of_cons in Hx.
  pose proof (i_sorted _ _ H) as Hs. rewrite stack_split in Hs.
  destruct Hx as [Hx|[->|Hx]]; [|done|done].
  assert (index_of s node < index_of s x); [|lia].
  eapply (StronglySorted_app_1_elem_of _ _ _ x node) in Hs; [done|done|left].
Qed.

Lemma merged_inv p segs' :
  segs = p :: segs' → low_of s node ≠ index_of s node →
  inv (min_low (set_calls s (seg_call <$> segs)) (sg_node p) (low_of s node))
      ({| sg_node := sg_node p; sg_pos := sg_pos p;
          sg_fin := sg_fin sg ++ node :: sg_fin p |} :: segs').
Proof.
  intros Hsegs Hne. set (s' := min_low _ _ _). set (p' := Build_seg _ _ _).
  assert (Hin : p ∈ segs) by (rewrite Hsegs; left).
  pose proof below_ok as Hbel. pose proof (i_linked _ _ H) as Hl.
  assert (Hlow : low_of s' (sg_node p) = Nat.min (low_of s (sg_node p)) (low_of s node)).
  { unfold low_of at 1. simpl. rewrite list_lookup_insert_eq; [done|].
    rewrite (i_len_low _ _ H). eapply visited_lt, seg_visited; [done..|]. by right. }
  assert (Hlow' : ∀ v, v ≠ sg_node p → low_of s' v = low_of s v).
  { intros v Hv. unfold low_of. simpl. by rewrite list_lookup_insert_ne by congruence. }
  rewrite Hsegs in Hl, Hbel. destruct Hl as [Hpe Hl]. apply Forall_cons in Hbel as [Hp Hbel].
  assert (Hup : rtc edge node (sg_node p)).
  { destruct (low_below Hne) as (x & Hx & _ & Hr). etrans; [done|].
    unfold below in Hx. rewrite Hsegs in Hx. eapply (reach_top s segs' p x); [done| |done].
    by apply Forall_cons. }
  assert (Hseg : ∀ w v, w ∈ sg_fin sg ++ [node] → edge w v → followed s' p' v).
  { intros w v Hw He. destruct (segment_followed w v Hw He) as [Hv Hst]. split; [done|].
    intros Hs. specialize (Hst Hs). simpl. rewrite Hlow. fold node in Hst.
    change (index_of s' v) with (index_of s v). lia. }
  assert (Hold : ∀ v, followed s p v → followed s' p' v).
  { intros v [Hv Hst]. split; [done|]. intros Hs. specialize (Hst Hs). simpl. rewrite Hlow.
    change (index_of s' v) with (index_of s v). lia. }
  assert (Hnode : ∀ w, w ∈ sg_fin sg ++ node :: sg_fin p →
            w ∈ sg_fin sg ++ [node] ∨ w ∈ sg_fin p).
  { intros w. rewrite !elem_of_app, elem_of_cons, list_elem_of_singleton. tauto. }
  assert (Hntop : node ∈ sg_fin sg ++ [node]).
  { apply elem_of_app. right. by apply list_elem_of_singleton. }
  split; simpl; try apply H; try done.
  - rewrite length_insert. apply H.
  - by rewrite Hsegs.
  - rewrite (i_stack _ _ H), bind_cons, Hsegs, bind_cons. unfold seg_stack. simpl.
    by rewrite <- ?app_assoc, <- ?app_comm_cons, <- ?app_assoc.
  - apply Forall_cons. split.
    + destruct Hp as [H1 H2 H3 H4 H5 H6 (x & Hx1 & Hx2 & Hx3)]. split; simpl; try done.
      * intros k v Hk Hv Hlt. apply Hold. by eapply H2.
      * intros w v [Hw|Hw]%Hnode He; [by eapply Hseg|]. by eapply Hold, H3.
      * intros w [Hw|Hw]%Hnode; [|by apply H4].
        eapply rtc_l; [exact Hpe|]. by apply segment_connected.
      * intros w [Hw|Hw]%Hnode; [|by apply H5].
        etrans; [by apply (segment_connected w node)|done].
      * rewrite Hlow. change (index_of s' (sg_node p)) with (index_of s (sg_node p)). lia.
      * rewrite Hlow. destruct (Nat.min_spec (low_of s (sg_node p)) (low_of s node)) as [[_ ->]|[_ ->]].
        { by exists x. }
        destruct (so_reach _ _ top_ok) as (y & Hy & Hi & Hr). exists y.
        split; [done|]. split; [done|]. by eapply rtc_l; [exact Hpe|].
    + rewrite Forall_forall in Hbel |- *. intros sg0 Hsg0.
      assert (Hin0 : sg0 ∈ segs) by (rewrite Hsegs; by right).
      apply (seg_ok_mono s); try done.
      * apply Hlow'. intros Heq. pose proof (i_nodup _ _ H) as Hnd.
        rewrite (i_stack _ _ H), bind_cons, Hsegs, bind_cons in Hnd.
        apply NoDup_app in Hnd as (Hnd & _ & _). apply NoDup_app in Hnd as (_ & _ & Hnd).
        apply NoDup_app in Hnd as (_ & Hnd & _). apply (Hnd (sg_node p)).
        -- apply elem_of_app. right. by apply list_elem_of_singleton.
        -- apply list_elem_of_bind. exists sg0. split; [|done]. rewrite <- Heq.
           apply elem_of_app. right. by apply list_elem_of_singleton.
      * eapply seg_visited; [done|]. by right.
      * intros x Hx _. split; [by eapply stack_visited|done].
      * by apply Hbel.
Qed.

(** A low handed to the caller by a component's root changes nothing. *)
Lemma root_low_kept p segs' :
  segs = p :: segs' → low_of s node = index_of s node →
  min_low (set_calls s (seg_call <$> p :: segs')) (sg_node p) (low_of s node)
  = set_calls s (seg_call <$> p :: segs').
Proof.
  intros Hsegs Hlow. assert (Hin : p ∈ segs) by (rewrite Hsegs; left).
  pose proof below_ok as Hok. rewrite Forall_forall in Hok.
  pose proof (so_low _ _ (Hok _ Hin)) as Hle.
  assert (index_of s (sg_node p) < index_of s node).
  { apply below_index.
    - apply elem_of_app. right. by apply list_elem_of_singleton.
    - apply list_elem_of_bind. exists p. split; [|done].
      apply elem_of_app. right. by apply list_elem_of_singleton. }
  assert (Hlt : sg_node p < length (t_low s)).
  { rewrite (i_len_low _ _ H). eapply visited_lt, seg_visited; [done..|]. by right. }
  unfold min_low. rewrite Nat.min_l.
  - rewrite list_insert_id; [done|]. simpl. unfold low_of. simpl.
    destruct (lookup_lt_is_Some_2 _ _ Hlt) as [n Hn]. by rewrite Hn.
  - change (low_of s (sg_node p) ≤ low_of s node). unfold node in *. lia.
Qed.

(** The frame's low handed to its caller, the first half of [finish]. *)
Definition handed (calls : list (nat * nat)) : tarjan :=
  match calls with
  | (parent, _) :: _ => min_low (set_calls s calls) parent (low_of s node)
  | [] => set_calls s calls
  end.

Lemma handed_root segs0 : segs = segs0 → low_of s node = index_of s node →
  handed (seg_call <$> segs0) = set_calls s (seg_call <$> segs0).
Proof. destruct segs0 as [|p segs']; [done|]. apply root_low_kept. Qed.

Lemma handed_low segs0 : segs = segs0 → low_of (handed (seg_call <$> segs0)) node = low_of s node.
Proof.
  destruct segs0 as [|p segs']; [done|]. intros Hsegs. unfold low_of at 1. simpl.
  rewrite list_lookup_insert_ne; [done|]. eapply top_unique; [exact H|]. rewrite Hsegs. left.
Qed.

Lemma handed_index calls : t_index (handed calls) = t_index s.
Proof. by destruct calls as [|[a b] l]. Qed.

Lemma finish_handed calls : finish node calls s =
  let s := handed calls in
  if bool_decide (t_index s !! node = Some (Some (low_of s node))) then
    let '(stack, on, component) := pop_component node (t_stack s) (t_on_stack s) [] in
    {| t_index := t_index s; t_low := t_low s; t_on_stack := on; t_stack := stack;
       t_components := t_components s ++ [component]; t_next := t_next s;
       t_calls := t_calls s |}
  else s.
Proof. done. Qed.

Lemma finish_index calls : t_index (finish node calls s) = t_index s.
Proof.
  rewrite finish_handed. cbv zeta. case_bool_decide; [|apply handed_index].
  destruct (pop_component _ _ _ _) as [[? ?] ?]. apply handed_index.
Qed.

Lemma finish_root : low_of s node = index_of s node →
  finish node (seg_call <$> segs) s = popped (seg_call <$> segs).
Proof.
  intros Hlow. destruct node_visited as [i Hi].
  rewrite finish_handed. cbv zeta.
  rewrite handed_root by done. simpl. rewrite bool_decide_eq_true_2.
  - by rewrite stack_split, pop_component_spec by apply node_not_fin.
  - change (low_of (set_calls s (seg_call <$> segs)) node) with (low_of s node).
    by rewrite Hlow, Hi, (visited_index _ _ _ Hi).
Qed.

Lemma finish_not_root : low_of s node ≠ index_of s node →
  finish node (seg_call <$> segs) s = handed (seg_call <$> segs).
Proof.
  intros Hlow. destruct node_visited as [i Hi]. rewrite finish_handed. cbv zeta. rewrite bool_decide_eq_false_2; [done|].
  rewrite handed_index, handed_low by done. rewrite Hi.
  rewrite (visited_index _ _ _ Hi) in Hlow. congruence.
Qed.

Lemma finish_inv : ∃ segs', inv (finish node (seg_call <$> segs) s) segs'
  ∧ (seg_call <$> segs') = (seg_call <$> segs).
Proof.
  destruct (decide (low_of s node = index_of s node)) as [Hlow|Hlow].
  - exists segs. rewrite finish_root by done. split; [by apply popped_inv|done].
  - rewrite finish_not_root by done. destruct (low_below Hlow) as (x & Hx & _).
    pose proof (λ p segs', merged_inv p segs') as Hm. unfold below in Hx.
    destruct segs as [|p segs'] eqn:E; [by apply not_elem_of_nil in Hx|].
    eexists. split; [by apply (Hm p segs')|done].
Qed.
End Finish.

(** ** The rounds *)

Definition frame_left (frame : nat * nat) : nat := 1 + (length (succs frame.1) - frame.2).
Definition node_left (index : list (option nat)) (v : nat) : nat :=
  match index !! v with Some (Some _) => 0 | _ => 1 + length (succs v) end.

(** The rounds left: an unfinished frame has one for each successor not followed and one to
    finish, an unvisited node the same of the frame it will be. *)
Definition rounds_left (s : tarjan) : nat :=
  total (frame_left <$> t_calls s) + total (node_left (t_index s) <$> seq 0 count).

Lemma visit_left s v :
  length (t_index s) = count → v < count → ¬ visited s v → rounds_left (visit v s) ≤ rounds_left s.
Proof.
  intros Hlen Hlt Hnew. unfold rounds_left. cbn [t_calls t_index visit].
  rewrite fmap_cons, total_cons.
  assert (Hv : ∀ i, t_index s !! v ≠ Some (Some i)) by (intros i Hi; apply Hnew; by exists i).
  pose proof (total_fmap_lt (node_left (<[v:=Some (t_next s)]> (t_index s))) (node_left (t_index s))
    (seq 0 count) v (frame_left (v, 0))) as Ht.
  cut (total (node_left (<[v:=Some (t_next s)]> (t_index s)) <$> seq 0 count) + frame_left (v, 0)
    ≤ total (node_left (t_index s) <$> seq 0 count)); [lia|].
  apply Ht.
  - intros y _. unfold node_left. destruct (decide (y = v)) as [->|Hne].
    + rewrite list_lookup_insert_eq by lia. lia.
    + by rewrite list_lookup_insert_ne by congruence.
  - apply elem_of_seq. lia.
  - unfold node_left, frame_left. simpl. rewrite list_lookup_insert_eq by lia.
    destruct (t_index s !! v) as [[i|]|] eqn:E; [by destruct (Hv i)|lia|lia].
Qed.

Lemma set_calls_id s calls : t_calls s = calls → set_calls s calls = s.
Proof. by intros <-; destruct s. Qed.

Lemma min_low_id s v n : low_of s v ≤ n → v < length (t_low s) → min_low s v n = s.
Proof.
  intros Hle Hlt. unfold min_low. rewrite Nat.min_l by done.
  rewrite list_insert_id; [by destruct s|]. unfold low_of.
  destruct (lookup_lt_is_Some_2 _ _ Hlt) as [m Hm]. by rewrite Hm.
Qed.

(** A frame's next successor, followed: the frame's position moves on. *)
Definition moved (sg : seg) : seg :=
  {| sg_node := sg_node sg; sg_pos := S (sg_pos sg); sg_fin := sg_fin sg |}.

Lemma step_skip s sg segs v :
  inv s (sg :: segs) → succs (sg_node sg) !! sg_pos sg = Some v →
  (v < count → visited s v ∧ v ∉ t_stack s) →
  inv (set_calls s (seg_call <$> moved sg :: segs)) (moved sg :: segs).
Proof.
  intros H Hv Hd. pose proof (follow_visited s sg segs v (low_of s (sg_node sg)) H Hv) as Hf.
  rewrite min_low_id in Hf; [|done|].
  - apply Hf; [by intros ?; apply Hd|by intros Hlt ?; destruct (Hd Hlt)|done|by left].
  - rewrite (i_len_low _ _ H). eapply visited_lt, seg_visited; [done..|left].
Qed.

Lemma step_lower s sg segs v i :
  inv s (sg :: segs) → succs (sg_node sg) !! sg_pos sg = Some v → v < count →
  t_index s !! v = Some (Some i) → v ∈ t_stack s →
  inv (min_low (set_calls s (seg_call <$> moved sg :: segs)) (sg_node sg) i) (moved sg :: segs).
Proof.
  intros H Hv Hlt Hi Hst.
  pose proof (follow_visited s sg segs v (Nat.min (low_of s (sg_node sg)) i) H Hv) as Hf.
  replace (min_low (set_calls s _) (sg_node sg) i) with
    (set_calls (min_low s (sg_node sg) (Nat.min (low_of s (sg_node sg)) i))
       (seg_call <$> moved sg :: segs)).
  - apply Hf; [intros _; by exists i| |lia|].
    + intros _ _. rewrite (visited_index _ _ _ Hi). lia.
    + destruct (Nat.min_spec (low_of s (sg_node sg)) i) as [[_ ->]|[_ ->]]; [by left|right].
      exists v. split; [done|]. split; [by apply visited_index|].
      split; [by eapply list_elem_of_lookup_2|done].
  - unfold min_low, set_calls. simpl. f_equal. f_equal. unfold low_of. simpl. lia.
Qed.

Lemma step_visit s sg segs v :
  inv s (sg :: segs) → succs (sg_node sg) !! sg_pos sg = Some v → v < count → ¬ visited s v →
  inv (visit v (set_calls s (seg_call <$> moved sg :: segs)))
      ({| sg_node := v; sg_pos := 0; sg_fin := [] |} :: moved sg :: segs).
Proof.
  intros H Hv Hlt Hnew. pose proof (i_segs _ _ H) as Hsegs.
  assert (Hkeep : Forall (seg_ok (visit v s)) (sg :: segs)).
  { rewrite Forall_forall in Hsegs |- *. intros sg0 Hin.
    by apply (visit_keeps_seg s (sg :: segs) v H Hlt Hnew); auto. }
  apply (visit_inv s (sg :: segs) v H Hlt Hnew (moved sg :: segs)).
  - by rewrite (i_stack _ _ H).
  - apply Forall_cons in Hkeep as [Hsg Hkeep]. apply Forall_cons. split; [|done].
    destruct Hsg as [H1 H2 H3 H4 H5 H6 H7]. split; simpl; try done.
    + by eapply lookup_lt_Some in Hv.
    + intros k u Hk Hu Hult. destruct (decide (k = sg_pos sg)) as [->|].
      * rewrite Hv in Hu. injection Hu as <-. split.
        -- by apply (visit_visited s (sg :: segs) v H Hlt); left.
        -- intros _. simpl. change (sg_node (moved sg)) with (sg_node sg).
           etrans; [exact H6|]. rewrite (visit_index_new s (sg :: segs) v H Hlt).
           assert (Hvis : visited s (sg_node sg)) by (eapply seg_visited; [done|left]).
           rewrite (visit_index_old s v) by done.
           apply Nat.lt_le_incl. by eapply old_index_lt.
      * apply (H2 k); [lia|done..].
  - split; [|apply (i_linked _ _ H)]. split; [|done]. by eapply list_elem_of_lookup_2.
Qed.

Lemma step_inv s s' segs :
  inv s segs → step s = Some s' → (∃ segs', inv s' segs') ∧ rounds_left s' < rounds_left s.
Proof.
  intros H Hstep. unfold step in Hstep. rewrite (i_calls _ _ H) in Hstep.
  destruct segs as [|sg segs]; [done|]. simpl in Hstep. injection Hstep as Hstep.
  change (list_fmap _ _ seg_call segs) with (seg_call <$> segs) in Hstep.
  assert (Hleft : rounds_left s = frame_left (seg_call sg) + total (frame_left <$> (seg_call <$> segs))
    + total (node_left (t_index s) <$> seq 0 count)).
  { unfold rounds_left. by rewrite (i_calls _ _ H). }
  destruct (succs (sg_node sg) !! sg_pos sg) as [v|] eqn:Hv.
  - change ((sg_node sg, S (sg_pos sg)) :: (seg_call <$> segs)) with (seg_call <$> moved sg :: segs) in Hstep.
    assert (Hmove : rounds_left (set_calls s (seg_call <$> moved sg :: segs)) < rounds_left s).
    { rewrite Hleft. unfold rounds_left. cbn [t_calls t_index set_calls].
      rewrite fmap_cons, fmap_cons, total_cons. unfold frame_left, seg_call. simpl.
      apply lookup_lt_Some in Hv. lia. }
    case_bool_decide as Hge.
    { subst s'. split; [|done]. eexists. eapply step_skip; [done..|lia]. }
    destruct (t_index s !! v) as [[i|]|] eqn:Hi;
      cbn [t_index set_calls t_on_stack] in Hstep; rewrite ?Hi in Hstep.
    + assert (Hon : v < length (t_on_stack s)) by (rewrite (i_len_on _ _ H); lia).
      apply lookup_lt_is_Some_2 in Hon as [b Hb]. rewrite Hb in Hstep. simpl in Hstep.
      pose proof (i_on _ _ H _ _ Hb) as Hst. destruct b; subst s'; (split; [|done]); eexists.
      * eapply step_lower; [done..|lia|done|by apply Hst].
      * eapply step_skip; [done..|]. intros _. split; [by exists i|]. by rewrite <- Hst.
    + assert (Hnew : ¬ visited s v) by (intros [j Hj]; congruence).
      subst s'. split; [eexists; eapply step_visit; [done..|lia|done]|].
      eapply Nat.le_lt_trans; [|exact Hmove].
      apply visit_left; [apply (i_len_index _ _ H)|lia|done].
    + apply lookup_ge_None in Hi. rewrite (i_len_index _ _ H) in Hi. lia.
  - subst s'. destruct (finish_inv s sg segs H Hv) as (segs' & Hinv & Hcalls).
    split; [by exists segs'|]. rewrite Hleft. unfold rounds_left.
    rewrite (i_calls _ _ Hinv), Hcalls. unfold frame_left at 2. simpl.
    replace (t_index (finish (sg_node sg) (seg_call <$> segs) s)) with (t_index s); [lia|].
    by rewrite finish_index.
Qed.

Lemma step_None s : step s = None → t_calls s = [].
Proof. unfold step. by destruct (t_calls s) as [|[? ?] ?]. Qed.

Lemma step_visited s s' v : step s = Some s' → visited s v → visited s' v.
Proof.
  unfold step. destruct (t_calls s) as [|[node pos] rest]; [done|]. intros [= <-] Hv.
  destruct (succs node !! pos) as [w|]; 
    [|unfold visited; by rewrite (finish_index s {| sg_node := node; sg_pos := 0; sg_fin := [] |})].
  case_bool_decide; [done|]. cbn [t_index set_calls t_on_stack].
  assert (Hvisit : ∀ s0, t_index s0 = t_index s → visited (visit w s0) v).
  { intros s0 E. unfold visited. cbn [t_index visit]. rewrite E. destruct Hv as [i Hi].
    destruct (decide (v = w)) as [->|].
    - rewrite list_lookup_insert_eq by (by eapply lookup_lt_Some). eauto.
    - rewrite list_lookup_insert_ne by congruence. eauto. }
  destruct (t_index s !! w) as [[i|]|]; [|by apply Hvisit..].
  by destruct (default false (t_on_stack s !! w)).
Qed.

Lemma rounds_left_fuel s : t_calls s = [] → rounds_left s ≤ fuel.
Proof.
  intros Hc. unfold rounds_left. rewrite Hc. simpl.
  etrans; [apply (total_fmap_le _ (λ v, 1 + length (succs v)))|].
  { intros v _. unfold node_left. destruct (t_index s !! v) as [[i|]|]; lia. }
  assert (E : (λ v, 1 + length (succs v)) <$> seq 0 count = (λ l, 1 + length l) <$> successors).
  { apply list_eq. intros i. rewrite !list_lookup_fmap. unfold succs, count.
    destruct (successors !! i) as [l|] eqn:E.
    - rewrite lookup_seq_lt by (by eapply lookup_lt_Some). simpl. by rewrite E.
    - apply lookup_ge_None in E. by rewrite lookup_seq_ge. }
  rewrite E. unfold fuel, count. clear E.
  induction successors as [|l ls IH]; [done|].
  rewrite !fmap_cons, !total_cons. simpl length. lia.
Qed.

Lemma search_root_inv s root : inv s [] → root < count →
  inv (search_root s root) [] ∧ visited (search_root s root) root
  ∧ ∀ v, visited s v → visited (search_root s root) v.
Proof.
  intros H Hlt. unfold search_root.
  assert (Hdec : visited s root ∨ ¬ visited s root).
  { unfold visited. destruct (t_index s !! root) as [[i|]|]; [left; eauto|right..]; by intros [? ?]. }
  destruct Hdec as [[i Hi]|Hno].
  { rewrite Hi. split; [done|]. split; [by exists i|done]. }
  replace (match t_index s !! root with Some (Some _) => s
           | _ => iterate step fuel (visit root s) end) with (iterate step fuel (visit root s)).
  2:{ destruct (t_index s !! root) as [[i|]|] eqn:E; [|done..]. destruct Hno. by exists i. }
  assert (Hv : inv (visit root s) [{| sg_node := root; sg_pos := 0; sg_fin := [] |}]).
  { pose proof (visit_inv s [] root H Hlt Hno []) as Hv.
    rewrite set_calls_id in Hv by (simpl; by rewrite (i_calls _ _ H)).
    apply Hv; [apply H|done|done]. }
  assert (Hsteps : ∀ s s', (∃ segs, inv s segs) → step s = Some s' →
    (∃ segs, inv s' segs) ∧ rounds_left s' < rounds_left s).
  { intros s1 s2 [segs1 H1] Hs. by eapply step_inv. }
  assert (Hdone : step (iterate step fuel (visit root s)) = None).
  { eapply (iterate_done step (λ s, ∃ segs, inv s segs) rounds_left); [done|by eexists|].
    etrans; [apply visit_left; [apply H|done|done]|]. apply rounds_left_fuel, (i_calls _ _ H). }
  destruct (iterate_invariant step (λ s, ∃ segs, inv s segs)
    (λ s1 s2 H1 H2, proj1 (Hsteps s1 s2 H1 H2)) fuel (visit root s)) as [segs Hsegs]; [by eexists|].
  assert (Hvis : ∀ v, visited (visit root s) v → visited (iterate step fuel (visit root s)) v).
  { intros v. apply (iterate_invariant step (λ s, visited s v)). intros ????. by eapply step_visited. }
  split; [|split].
  - apply step_None in Hdone. rewrite (i_calls _ _ Hsegs) in Hdone. by destruct segs.
  - apply Hvis. apply (visit_visited s [] root H Hlt). by left.
  - intros v Hv'. apply Hvis. apply (visit_visited s [] root H Hlt). by right.
Qed.

Lemma init_inv : inv tarjan_init [].
Proof.
  assert (Hnot : ∀ v, ¬ visited tarjan_init v).
  { intros v [i Hi]. simpl in Hi. apply lookup_replicate in Hi as [? _]. done. }
  split; simpl; rewrite ?length_replicate; try done.
  - constructor.
  - intros v b [-> _]%lookup_replicate. by split; [|intros ?%not_elem_of_nil].
  - intros v. split; [by intros ?%Hnot|by intros ?%not_elem_of_nil].
  - constructor.
  - intros v i Hi. by destruct (Hnot v); exists i.
  - by intros [].
  - by intros c ?%not_elem_of_nil.
Qed.

Lemma search_inv : ∃ s, t_components s = strongly_connected ∧ inv s [] ∧ ∀ v, v < count → visited s v.
Proof.
  eexists. split; [done|].
  assert (H : ∀ l, (∀ r, r ∈ l → r < count) →
    inv (foldl search_root tarjan_init l) [] ∧ ∀ v, v ∈ l → visited (foldl search_root tarjan_init l) v).
  { induction l as [|r l IH] using rev_ind; intros Hl.
    - split; [apply init_inv|]. by intros v ?%not_elem_of_nil.
    - rewrite foldl_app. simpl. destruct IH as [Hinv Hvis].
      { intros r' Hr. apply Hl, elem_of_app. by left. }
      destruct (search_root_inv _ r Hinv) as (H1 & H2 & H3).
      { apply Hl, elem_of_app. right. by apply list_elem_of_singleton. }
      split; [done|]. intros v. rewrite elem_of_app, list_elem_of_singleton.
      intros [Hv| ->]; auto. }
  destruct (H (seq 0 count)) as [Hinv Hvis]; [by intros r ?%elem_of_seq; lia|].
  split; [done|]. intros v Hv. apply Hvis, elem_of_seq. lia.
Qed.

(** ** What the search answers *)

Lemma scc_partition : concat strongly_connected ≡ₚ seq 0 count.
Proof.
  destruct search_inv as (s & <- & H & Hall). pose proof (i_nodup _ _ H) as Hnd.
  rewrite (i_stack _ _ H) in Hnd. simpl in Hnd.
  apply NoDup_Permutation; [done|apply NoDup_seq|]. intros v.
  rewrite elem_of_seq. pose proof (i_visited _ _ H v) as Hv. rewrite (i_stack _ _ H) in Hv.
  simpl in Hv. rewrite <- Hv. split.
  - intros ?%(visited_lt _ _ _ H). lia.
  - intros. apply Hall. lia.
Qed.

Lemma scc_nodup : NoDup (concat strongly_connected).
Proof. rewrite scc_partition. apply NoDup_seq. Qed.

Lemma concat_unique {A} (l : list (list A)) i j c d x :
  NoDup (concat l) → l !! i = Some c → l !! j = Some d → x ∈ c → x ∈ d → i = j.
Proof.
  revert i j. induction l as [|e l IH]; intros i j Hnd Hi Hj Hc Hd; [done|].
  simpl in Hnd. apply NoDup_app in Hnd as (_ & Hdis & Hnd).
  assert (Hin : ∀ k f, l !! k = Some f → x ∈ f → x ∈ concat l).
  { intros k f Hk Hx. apply elem_of_concat. exists f.
    split; [done|]. by eapply list_elem_of_lookup_2. }
  destruct i, j; simpl in *; simplify_eq; [done|by destruct (Hdis x); eauto..|].
  f_equal. by eapply IH.
Qed.

(** Components come callees first: what a node reaches is in its component or an earlier one. *)
Lemma scc_reach u v i c :
  strongly_connected !! i = Some c → u ∈ c → rtc edge u v →
  ∃ j d, j ≤ i ∧ strongly_connected !! j = Some d ∧ v ∈ d.
Proof.
  destruct search_inv as (s & <- & H & _). intros Hi Hu Hr. revert i c Hi Hu.
  induction Hr as [u|u w v He Hr IH]; intros i c Hi Hu; [by exists i, c|].
  assert (Hw : ∃ j d, j ≤ i ∧ t_components s !! j = Some d ∧ w ∈ d).
  { pose proof (i_comps_order _ _ H (take i (t_components s)) c (drop (S i) (t_components s))) as Ho.
    rewrite take_drop_middle in Ho by done. specialize (Ho eq_refl u w Hu He).
    rewrite concat_app in Ho. simpl in Ho. rewrite app_nil_r in Ho.
    apply elem_of_app in Ho as [Ho|Ho]; [|by exists i, c].
    apply elem_of_concat in Ho as (d & Hd & Hj).
    apply list_elem_of_lookup in Hj as [j Hj]. apply lookup_take_Some in Hj as [Hj Hlt].
    exists j, d. split; [lia|done]. }
  destruct Hw as (j & d & Hle & Hj & Hw). destruct (IH _ _ Hj Hw) as (k & e & Hk & He' & Hv).
  exists k, e. split; [lia|done].
Qed.

Lemma scc_member v : v < count → ∃ i c, strongly_connected !! i = Some c ∧ v ∈ c.
Proof.
  intros Hv. assert (Hin : v ∈ concat strongly_connected).
  { rewrite scc_partition. apply elem_of_seq. lia. }
  apply elem_of_concat in Hin as (c & Hc & Hi).
  apply list_elem_of_lookup in Hi as [i Hi]. eauto.
Qed.

Lemma scc_lt c v : c ∈ strongly_connected → v ∈ c → v < count.
Proof.
  intros Hc Hv. assert (Hin : v ∈ concat strongly_connected).
  { apply elem_of_concat. eauto. }
  rewrite scc_partition, elem_of_seq in Hin. lia.
Qed.

Lemma scc_connected c u v : c ∈ strongly_connected → u ∈ c → v ∈ c → rtc edge u v.
Proof.
  destruct search_inv as (s & <- & H & _). intros Hc. by apply (i_comps_scc _ _ H).
Qed.

Lemma scc_spec u v : u < count →
  (∃ c, c ∈ strongly_connected ∧ u ∈ c ∧ v ∈ c) ↔ rtc edge u v ∧ rtc edge v u.
Proof.
  intros Hu. split.
  - intros (c & Hc & Hcu & Hcv). split; by eapply scc_connected.
  - intros [Huv Hvu]. destruct (scc_member u Hu) as (i & c & Hi & Hc).
    destruct (scc_reach u v i c Hi Hc Huv) as (j & d & Hle & Hj & Hd).
    destruct (scc_reach v u j d Hj Hd Hvu) as (k & e & Hle' & Hk & He).
    pose proof (concat_unique _ _ _ _ _ _ scc_nodup Hi Hk Hc He). subst k.
    assert (i = j) as -> by lia. rewrite Hi in Hj. injection Hj as ->.
    exists d. split; [by eapply list_elem_of_lookup_2|done].
Qed.

Lemma scc_component_nodup c : c ∈ strongly_connected → NoDup c.
Proof.
  pose proof scc_nodup as Hnd. revert Hnd. generalize strongly_connected as l.
  induction l as [|d l IH]; [by intros _ ?%not_elem_of_nil|]. simpl.
  intros (H1 & _ & H2)%NoDup_app. rewrite elem_of_cons. intros [->|]; auto.
Qed.
End Tarjan.
