(* ===== verification/Cycles.v ===== *)
(** * Cycles: self-imports and dependency cycles

    [crates/ulo/src/graph/cycles.rs]: [self_imports], [dependency_cycles] and [cycle_through], over
    [strongly_connected] of [Tarjan]. *)

From S2P Require Import Prelude Text Key Graph WiringError Tarjan.

(** ** The shortest cycle through a node *)

Section Walk.
Context (successors : list (list nat)) (members : gset nat) (start : nat).

(** The inner [while current != start]: back along the parents, the nearest first. Each round
    follows one entry of [parent], and no entry twice. *)
Fixpoint walk_back (fuel : nat) (parent : gmap nat nat) (current : nat) : list nat :=
  match fuel with
  | 0 => []
  | S fuel =>
      if bool_decide (current = start) then []
      else match parent !! current with
           | Some previous => previous :: walk_back fuel parent previous
           | None => []
           end
  end.

(** What is returned when [node] leads back to [start]. *)
Definition closed_path (parent : gmap nat nat) (node : nat) : list nat :=
  reverse (node :: walk_back (size parent) parent node) ++ [start].

(** [for &successor in &successors[node]]: a path to return, or the queue and the parents. *)
Fixpoint scan (node : nat) (l : list nat) (queue : list nat) (parent : gmap nat nat)
    : list nat + list nat * gmap nat nat :=
  match l with
  | [] => inr (queue, parent)
  | successor :: l =>
      if negb (bool_decide (successor ∈ members)) then scan node l queue parent
      else if bool_decide (successor = start) then inl (closed_path parent node)
      else match parent !! successor with
           | Some _ => scan node l queue parent
           | None => scan node l (queue ++ [successor]) (<[successor := node]> parent)
           end
  end.

(** [while let Some(node) = queue.pop_front()]: each member is queued once at most. *)
Fixpoint search (fuel : nat) (queue : list nat) (parent : gmap nat nat) : option (list nat) :=
  match fuel, queue with
  | S fuel, node :: queue =>
      match scan node (succs successors node) queue parent with
      | inl path => Some path
      | inr (queue, parent) => search fuel queue parent
      end
  | _, _ => None
  end.
End Walk.

(** [component.iter().min()]. *)
Fixpoint minimum (l : list nat) : option nat :=
  match l with
  | [] => None
  | x :: l => Some match minimum l with Some y => Nat.min x y | None => x end
  end.

Definition cycle_through (successors : list (list nat)) (component : list nat) : list nat :=
  match minimum component with
  | None => []
  | Some start =>
      let members : gset nat := list_to_set component in
      default [start; start] (search successors members start (S (length component)) [start] ∅)
  end.

(** ** The passes *)

(** [self_imports], over the registry's list of the nodes that import themselves. *)
Definition self_imports (registry_self_imports : list nat) (names : list ModuleName) : list WiringError :=
  omap (λ node, (λ name, ImportCycle [name; name]) <$> names !! node) registry_self_imports.

(** What a binding's construction waits for: what it reads and what its readiness check reads. *)
Definition waits_for (g : Graph) (id : BindingId) : list BindingId :=
  construction_deps g id ++ readiness_deps g id.

Definition dependency_successors (g : Graph) : list (list nat) :=
  waits_for g <$> seq 0 (length (g_bindings g)).

(** The test of [dependency_cycles] on a component. *)
Definition cyclic (successors : list (list nat)) (component : list nat) : bool :=
  bool_decide (1 < length component)
  || match head component with Some only => contains (succs successors only) only | None => false end.

Definition cycle_step (g : Graph) (id : BindingId) : KeyName * ModuleName :=
  (key_name g id, module_name g (fb_origin (binding g id))).

Definition dependency_cycles (g : Graph) : list WiringError :=
  let successors := dependency_successors g in
  (λ component, Cycle (cycle_step g <$> cycle_through successors component))
    <$> filterb (cyclic successors) (strongly_connected successors).

(** ** The breadth-first search *)

Section Search.
Context (successors : list (list nat)) (members : gset nat) (start : nat).

(** An edge the search may follow. *)
Definition inner (u v : nat) : Prop := v ∈ succs successors u ∧ v ∈ members.

(** What the search knows between two rounds, with [d] the depth at which each node was queued,
    the nodes already [done] and, when one is being scanned, the successors of it already seen. *)
Record bfs (d : nat → nat) (done queue : list nat) (parent : gmap nat nat) : Prop := {
  b_start : d start = 0 ∧ parent !! start = None;
  b_known : ∀ v, v ∈ done ++ queue ↔ v = start ∨ is_Some (parent !! v);
  b_parent : ∀ v p, parent !! v = Some p → inner p v ∧ d v = S (d p) ∧ (p = start ∨ is_Some (parent !! p));
  b_depth : ∀ v, is_Some (parent !! v) → d v ≤ size parent;
  b_sorted : StronglySorted (λ a b, d a ≤ d b) (done ++ queue);
  b_closed : ∀ u v, u ∈ done → inner u v → v ≠ start ∧ v ∈ done ++ queue ∧ d v ≤ S (d u);
}.

(** [closed_path] is a walk from [start] back to it, as long as its last node is deep. *)
Lemma walk_back_spec d done queue parent :
  bfs d done queue parent → ∀ n v, v = start ∨ is_Some (parent !! v) → d v ≤ n →
  ∃ l, reverse (v :: walk_back start n parent v) = start :: l ∧ length l = d v
    ∧ walk inner (start :: l) ∧ last (start :: l) = Some v.
Proof.
  intros H n. induction n as [|n IH]; intros v Hv Hd.
  - assert (v = start) as ->.
    { destruct Hv as [|[p Hp]]; [done|]. apply (b_parent _ _ _ _ H) in Hp as (_ & ? & _). lia. }
    exists []. split; [done|]. by destruct (b_start _ _ _ _ H) as [-> _].
  - simpl. case_bool_decide as E.
    { subst. exists []. split; [done|]. by destruct (b_start _ _ _ _ H) as [-> _]. }
    destruct Hv as [|[p Hp]]; [done|]. rewrite Hp.
    destruct (b_parent _ _ _ _ H _ _ Hp) as (He & Hdv & Hknown).
    destruct (IH p Hknown) as (l & Hl & Hlen & Hw & Hlast); [lia|].
    exists (l ++ [v]). rewrite reverse_cons, Hl. split; [done|].
    rewrite length_app. simpl length. split; [lia|]. split.
    + destruct l as [|b l] using rev_ind.
      * simpl in Hlast. injection Hlast as ->. by split.
      * rewrite app_comm_cons, last_snoc in Hlast. injection Hlast as ->.
        change (walk inner ((start :: l ++ [p]) ++ [v])).
        rewrite app_comm_cons, <- app_assoc. apply walk_app; [done|]. by split.
    + by rewrite app_comm_cons, last_snoc.
Qed.

Lemma closed_path_spec d done queue parent v :
  bfs d done queue parent → v = start ∨ is_Some (parent !! v) → inner v start →
  ∃ l, closed_path start parent v = start :: l ++ [start] ∧ length l = d v
    ∧ walk inner (start :: l ++ [start]).
Proof.
  intros H Hv He. destruct (walk_back_spec _ _ _ _ H (size parent) v Hv) as (l & Hl & Hlen & Hw & Hlast).
  - destruct Hv as [->|Hv]; [|by apply (b_depth _ _ _ _ H)]. destruct (b_start _ _ _ _ H) as [-> _]. lia.
  - exists l. unfold closed_path. rewrite Hl. split; [done|]. split; [done|].
    destruct l as [|b l] using rev_ind.
    + simpl in *. injection Hlast as ->. by split.
    + rewrite app_comm_cons, last_snoc in Hlast. injection Hlast as ->.
      rewrite <- app_assoc, app_comm_cons. apply walk_app; [done|]. by split.
Qed.

(** A walk out of [start] either stays in the scanned nodes or meets the queue, no deeper than the
    steps it has taken. *)
Lemma walk_meets_queue d done queue parent l :
  bfs d done queue parent → walk inner (start :: l) → start ∈ done ++ queue →
  (∃ v, v ∈ queue ∧ d v ≤ length l)
  ∨ ∀ v, last (start :: l) = Some v → v ∈ done ∧ d v ≤ length l.
Proof.
  intros H. induction l as [|v l IH] using rev_ind; intros Hw Hs.
  - apply elem_of_app in Hs as [Hs|Hs].
    + right. intros v [= <-]. split; [done|]. destruct (b_start _ _ _ _ H) as [-> _]. done.
    + left. exists start. split; [done|]. destruct (b_start _ _ _ _ H) as [-> _]. lia.
  - rewrite length_app. simpl length.
    assert (Hpre : ∃ u, last (start :: l) = Some u ∧ inner u v ∧ walk inner (start :: l)).
    { destruct l as [|u l] using rev_ind.
      - exists start. by destruct Hw.
      - exists u. rewrite <- app_assoc, app_comm_cons in Hw. apply walk_app_inv in Hw as [Hw [He _]].
        by rewrite app_comm_cons, last_snoc. }
    destruct Hpre as (u & Hlast & He & Hw').
    destruct (IH Hw' Hs) as [(x & Hx & Hd)|Hd]; [left; exists x; split; [done|lia]|].
    destruct (Hd u Hlast) as [Hu Hdu]. destruct (b_closed _ _ _ _ H u v Hu He) as (Hne & Hin & Hdv).
    apply elem_of_app in Hin as [Hin|Hin].
    + right. intros w. rewrite app_comm_cons, last_snoc. intros [= <-]. split; [done|lia].
    + left. exists v. split; [done|lia].
Qed.

(** No node met so far is deeper than the successors of the one being scanned. *)
Lemma known_depth d done node queue parent v :
  bfs d done (node :: queue) parent → (∀ x, x ∈ queue → d x ≤ S (d node)) →
  v ∈ done ++ node :: queue → d v ≤ S (d node).
Proof.
  intros H Hnear [Hv|Hv]%elem_of_app.
  - pose proof (b_sorted _ _ _ _ H) as Hs.
    eapply (StronglySorted_app_1_elem_of _ _ _ v node) in Hs; [simpl in Hs; lia|done|left].
  - apply elem_of_cons in Hv as [->|Hv]; [lia|by apply Hnear].
Qed.

(** Queueing a node the search has not met, below the one being scanned. *)
Lemma enqueue d done node queue parent v :
  bfs d done (node :: queue) parent → (∀ x, x ∈ queue → d x ≤ S (d node)) →
  inner node v → v ≠ start → parent !! v = None →
  let d' := λ x, if decide (x = v) then S (d node) else d x in
  bfs d' done (node :: queue ++ [v]) (<[v := node]> parent)
  ∧ (∀ x, x ∈ done ++ node :: queue → d' x = d x) ∧ d' v = S (d node).
Proof.
  intros H Hnear He Hne Hnew d'.
  assert (Hv : v ∉ done ++ node :: queue).
  { rewrite (b_known _ _ _ _ H). rewrite Hnew. intros [|[? ?]]; done. }
  assert (Hkeep : ∀ x, x ∈ done ++ node :: queue → d' x = d x).
  { intros x Hx. unfold d'. rewrite decide_False; [done|]. by intros ->. }
  assert (Hdv : d' v = S (d node)) by (unfold d'; by rewrite decide_True).
  assert (Hnode : node ∈ done ++ node :: queue) by (apply elem_of_app; right; left).
  assert (Hold : ∀ x, x ∈ done → x ∈ done ++ node :: queue) by (intros; apply elem_of_app; by left).
  assert (Happ : done ++ node :: queue ++ [v] = (done ++ node :: queue) ++ [v]) by by rewrite <- app_assoc.
  split; [|done]. pose proof (b_known _ _ _ _ H) as Hknown. split.
  - destruct (b_start _ _ _ _ H) as [Hd Hp]. rewrite lookup_insert_ne by done. split; [|done].
    rewrite Hkeep; [done|]. apply Hknown. by left.
  - intros x. rewrite Happ, elem_of_app, Hknown, list_elem_of_singleton.
    destruct (decide (x = v)) as [->|Hx].
    + rewrite lookup_insert_eq. split; [by right; eexists|by right].
    + rewrite lookup_insert_ne by done. tauto.
  - intros x p. destruct (decide (x = v)) as [->|Hx].
    + rewrite lookup_insert_eq. intros [= <-]. split; [done|]. split; [by rewrite Hdv, Hkeep|].
      apply Hknown in Hnode as [|Hn]; [by left|right].
      by rewrite lookup_insert_ne by (intros <-; rewrite Hnew in Hn; by destruct Hn).
    + rewrite lookup_insert_ne by done. intros Hp.
      destruct (b_parent _ _ _ _ H _ _ Hp) as (Hi & Hd & Hk). split; [done|].
      rewrite !Hkeep; [|by apply Hknown|by apply Hknown; right; eexists]. split; [done|].
      destruct Hk as [|Hk]; [by left|right].
      by rewrite lookup_insert_ne by (intros <-; rewrite Hnew in Hk; by destruct Hk).
  - intros x Hx. rewrite map_size_insert_None by done.
    destruct (decide (x = v)) as [->|Hxv].
    + rewrite Hdv. apply Hknown in Hnode as [->|Hn]; [|by apply le_n_S, (b_depth _ _ _ _ H)].
      destruct (b_start _ _ _ _ H) as [-> _]. lia.
    + rewrite lookup_insert_ne in Hx by done. rewrite Hkeep by (apply Hknown; by right).
      pose proof (b_depth _ _ _ _ H x Hx). lia.
  - rewrite Happ. apply StronglySorted_app_2.
    + intros x y Hx ->%list_elem_of_singleton. rewrite Hkeep, Hdv by done.
      by eapply known_depth.
    + eapply StronglySorted_impl_elem; [|apply (b_sorted _ _ _ _ H)].
      intros x y Hx Hy. by rewrite !Hkeep.
    + repeat constructor.
  - intros u x Hu Hi. destruct (b_closed _ _ _ _ H u x Hu Hi) as (H1 & H2 & H3).
    split; [done|]. rewrite Happ. split; [apply elem_of_app; by left|].
    rewrite !Hkeep; auto.
Qed.

(** A path the search may answer: closed on [start], and no closed walk of the members shorter. *)
Definition shortest (path : list nat) : Prop :=
  ∃ l, path = start :: l ++ [start] ∧ walk inner path
    ∧ ∀ k, walk inner (start :: k ++ [start]) → length l ≤ length k.

(** The node before [start] on a closed walk. *)
Lemma walk_closing k : walk inner (start :: k ++ [start]) →
  walk inner (start :: k) ∧ ∃ u, last (start :: k) = Some u ∧ inner u start.
Proof.
  intros Hk. destruct k as [|u k] using rev_ind; [split; [done|exists start; by destruct Hk]|].
  rewrite <- app_assoc, app_comm_cons in Hk. apply walk_app_inv in Hk as [Hk [Hi _]].
  split; [done|]. exists u. by rewrite app_comm_cons, last_snoc.
Qed.

Lemma closing_shortest d done node queue parent :
  bfs d done (node :: queue) parent → inner node start → shortest (closed_path start parent node).
Proof.
  intros H He. destruct (closed_path_spec d done (node :: queue) parent node H) as (p & -> & Hlen & Hw).
  { apply (b_known _ _ _ _ H). apply elem_of_app. right. left. }
  { done. }
  exists p. split; [done|]. split; [done|]. intros k Hk. rewrite Hlen.
  apply walk_closing in Hk as [Hk (u & Hu & Hi)].
  pose proof (b_sorted _ _ _ _ H) as Hs. apply StronglySorted_app_1_r in Hs.
  inversion_clear Hs as [|? ? _ Hall]. rewrite Forall_forall in Hall.
  destruct (walk_meets_queue d done (node :: queue) parent k H Hk) as [(x & Hx & Hd)|Hd].
  - apply (b_known _ _ _ _ H). by left.
  - etrans; [|exact Hd]. apply elem_of_cons in Hx as [->|Hx]; [done|by apply Hall].
  - destruct (Hd u Hu) as [Hin _]. by destruct (b_closed _ _ _ _ H u start Hin Hi).
Qed.

Lemma scan_spec node l : ∀ pre d done queue parent,
  succs successors node = pre ++ l →
  bfs d done (node :: queue) parent →
  (∀ x, x ∈ queue → d x ≤ S (d node)) →
  (∀ x, x ∈ pre → x ∈ members → x ≠ start ∧ x ∈ done ++ node :: queue ∧ d x ≤ S (d node)) →
  match scan members start node l queue parent with
  | inl path => shortest path
  | inr (queue', parent') => ∃ d', bfs d' (done ++ [node]) queue' parent'
      ∧ ∀ x y, x ∈ queue' → y ∈ queue' → d' x ≤ S (d' y)
  end.
Proof.
  induction l as [|v l IH]; intros pre d done queue parent Hsucc H Hnear Hpre; simpl.
  - exists d. assert (Happ : (done ++ [node]) ++ queue = done ++ node :: queue) by by rewrite <- app_assoc.
    pose proof (b_sorted _ _ _ _ H) as Hs. split.
    + destruct H as [H1 H2 H3 H4 H5 H6]. split; rewrite ?Happ; try done.
      intros u x. rewrite elem_of_app, list_elem_of_singleton. intros [Hu| ->] Hi; [by apply H6|].
      destruct Hi as [Hi Hm]. rewrite Hsucc, app_nil_r in Hi. by apply Hpre.
    + intros x y Hx Hy. etrans; [by apply Hnear|].
      apply StronglySorted_app_1_r in Hs. inversion_clear Hs as [|? ? _ Hall].
      rewrite Forall_forall in Hall. apply le_n_S. by apply Hall.
  - assert (Hsucc' : succs successors node = (pre ++ [v]) ++ l) by by rewrite <- app_assoc.
    assert (Hkept : ∀ d' queue', (∀ x, x ∈ done ++ node :: queue → x ∈ done ++ node :: queue' ∧ d' x = d x) →
      ∀ x, x ∈ pre → x ∈ members → x ≠ start ∧ x ∈ done ++ node :: queue' ∧ d' x ≤ S (d' node)).
    { intros d' queue' Hk x Hx Hm. destruct (Hpre x Hx Hm) as (H1 & H2 & H3).
      destruct (Hk x H2) as [H4 ->]. destruct (Hk node) as [_ ->]; [|done].
      apply elem_of_app. right. left. }
    case_bool_decide as Hm; simpl.
    2:{ eapply (IH (pre ++ [v])); [done..|]. intros x.
        rewrite elem_of_app, list_elem_of_singleton. intros [Hx| ->]; [by apply Hpre|done]. }
    assert (He : inner node v).
    { split; [|done]. rewrite Hsucc. apply elem_of_app. right. left. }
    case_bool_decide as Hst.
    + subst v. by eapply closing_shortest.
    + destruct (parent !! v) as [p|] eqn:Hp.
      * eapply (IH (pre ++ [v])); [done..|]. intros x.
        rewrite elem_of_app, list_elem_of_singleton. intros [Hx| ->]; [by apply Hpre|].
        intros _. split; [done|].
        assert (Hin : v ∈ done ++ node :: queue) by (apply (b_known _ _ _ _ H); right; by eexists).
        split; [done|]. by eapply known_depth.
      * pose proof (enqueue d done node queue parent v H Hnear He Hst Hp) as Hq. cbv zeta in Hq.
        revert Hq. generalize (λ x, if decide (x = v) then S (d node) else d x) as d'.
        intros d' (H' & Hkeep & Hdv).
        assert (Hnode : d' node = d node) by (apply Hkeep, elem_of_app; right; left).
        eapply (IH (pre ++ [v]) d'); [done..| |].
        -- intros x. rewrite elem_of_app, list_elem_of_singleton, Hnode. intros [Hx| ->]; [|by rewrite Hdv].
           rewrite Hkeep; [by apply Hnear|]. apply elem_of_app. right. by right.
        -- intros x. rewrite elem_of_app, list_elem_of_singleton. intros [Hx| ->] Hmx.
           ++ eapply Hkept; [|done..]. intros y Hy. split; [|by apply Hkeep].
              rewrite app_comm_cons, app_assoc. apply elem_of_app. by left.
           ++ split; [done|]. rewrite Hnode, Hdv. split; [|done].
              rewrite app_comm_cons, app_assoc. apply elem_of_app. right. by apply list_elem_of_singleton.
Qed.
(** The nodes the search can still pop. *)
Definition pops_left (queue : list nat) (parent : gmap nat nat) : nat :=
  length queue + size (members ∖ dom parent).

Lemma scan_left node l : ∀ queue parent queue' parent',
  scan members start node l queue parent = inr (queue', parent') →
  pops_left queue' parent' ≤ pops_left queue parent.
Proof.
  induction l as [|v l IH]; intros queue parent queue' parent'; simpl; [by intros [= <- <-]|].
  case_bool_decide as Hm; simpl; [|by apply IH].
  case_bool_decide; [done|]. destruct (parent !! v) eqn:Hp; [by apply IH|].
  intros Hle%IH. etrans; [exact Hle|]. unfold pops_left. rewrite length_app. simpl.
  assert (E : members ∖ dom parent = {[v]} ∪ (members ∖ dom (<[v:=node]> parent))).
  { apply not_elem_of_dom in Hp. apply set_eq. intros x. rewrite dom_insert_L.
    destruct (decide (x = v)); set_solver. }
  rewrite E, (size_union {[v]}), size_singleton by (rewrite dom_insert_L; set_solver). lia.
Qed.

Lemma search_spec fuel : ∀ d done queue parent,
  bfs d done queue parent → (∀ x y, x ∈ queue → y ∈ queue → d x ≤ S (d y)) →
  pops_left queue parent ≤ fuel →
  match search successors members start fuel queue parent with
  | Some path => shortest path
  | None => ∀ k, ¬ walk inner (start :: k ++ [start])
  end.
Proof.
  assert (Hempty : ∀ d done parent, bfs d done [] parent → ∀ k, ¬ walk inner (start :: k ++ [start])).
  { intros d done parent H k [Hk (u & Hu & Hi)]%walk_closing.
    destruct (walk_meets_queue d done [] parent k H Hk) as [(x & Hx & _)|Hd].
    - apply (b_known _ _ _ _ H). by left.
    - by apply not_elem_of_nil in Hx.
    - destruct (Hd u Hu) as [Hin _]. by destruct (b_closed _ _ _ _ H u start Hin Hi). }
  induction fuel as [|fuel IH]; intros d done queue parent H Hnear Hle; simpl.
  - destruct queue; [|unfold pops_left in Hle; simpl in Hle; lia]. by eapply Hempty.
  - destruct queue as [|node queue]; [by eapply Hempty|].
    assert (Hscan := scan_spec node (succs successors node) [] d done queue parent eq_refl H).
    pose proof (scan_left node (succs successors node) queue parent) as Hm.
    destruct (scan _ _ _ _ _ _) as [path|[queue' parent']].
    + apply Hscan; [intros x Hx; apply Hnear; [by right|left]|by intros x ?%not_elem_of_nil].
    + destruct Hscan as (d' & H' & Hnear').
      * intros x Hx. apply Hnear; [by right|left].
      * by intros x ?%not_elem_of_nil.
      * eapply IH; [done..|]. specialize (Hm _ _ eq_refl).
        unfold pops_left in *. simpl in Hle. lia.
Qed.
End Search.

Lemma bfs_init successors members start : bfs successors members start (λ _, 0) [] [start] ∅.
Proof.
  split; try done.
  - intros v. simpl. rewrite list_elem_of_singleton. split; [by left|]. by intros [|[? ?]].
  - repeat constructor.
  - by intros u v ?%not_elem_of_nil.
Qed.

Lemma minimum_Some l x : minimum l = Some x → x ∈ l ∧ ∀ y, y ∈ l → x ≤ y.
Proof.
  revert x. induction l as [|a l IH]; intros x; [done|]. simpl. intros [= <-].
  destruct (minimum l) as [b|] eqn:E.
  - destruct (IH b eq_refl) as [Hb Hall]. split.
    + destruct (Nat.min_spec a b) as [[_ ->]|[_ ->]]; [left|by right].
    + intros y [->|Hy]%elem_of_cons; [lia|]. specialize (Hall y Hy). lia.
  - destruct l; [|done]. split; [left|]. by intros y ->%list_elem_of_singleton.
Qed.

Lemma minimum_None l : minimum l = None → l = [].
Proof. by destruct l. Qed.

(** ** Cycles of the graph *)

Section Components.
Context (successors : list (list nat)).
Let E := edge successors.

(** A component is cyclic exactly when its nodes lie on a cycle. *)
Lemma cyclic_spec c x : c ∈ strongly_connected successors → x ∈ c →
  cyclic successors c = true ↔ tc E x x.
Proof.
  intros Hc Hx. unfold cyclic. rewrite orb_true_iff, bool_decide_eq_true.
  pose proof (scc_lt _ _ _ Hc Hx) as Hlt. split.
  - intros [Hlen|Hself].
    + destruct c as [|a [|b c]]; simpl in Hlen; [lia..|].
      pose proof (scc_component_nodup _ _ Hc) as Hnd.
      assert (∃ y, y ∈ a :: b :: c ∧ x ≠ y) as (y & Hy & Hne).
      { destruct (decide (x = a)) as [->|]; [|exists a; split; [left|done]].
        exists b. split; [right; left|]. apply NoDup_cons in Hnd as [Hnd _].
        intros ->. apply Hnd. left. }
      eapply tc_rtc_r; [apply rtc_ne_tc; [by eapply scc_connected|done]|by eapply scc_connected].
    + destruct c as [|a c]; [done|]. simpl in Hself. apply contains_true in Hself.
      assert (Ha : tc E a a).
      { apply tc_once. split; [done|]. eapply scc_lt; [done|left]. }
      eapply tc_rtc_l; [eapply scc_connected; [done|done|left]|].
      eapply tc_rtc_r; [done|]. eapply scc_connected; [done|left|done].
  - intros Htc. apply tc_walk in Htc as [k Hk].
    destruct (decide (1 < length c)) as [|Hlen]; [by left|right].
    assert (c = [x]) as ->.
    { destruct c as [|a [|b c]]; simpl in *; [by apply not_elem_of_nil in Hx| |lia].
      by apply list_elem_of_singleton in Hx as ->. }
    simpl. apply contains_true.
    assert (Hall : ∀ y, y ∈ k → y = x).
    { intros y Hy. assert (∃ d, d ∈ strongly_connected successors ∧ x ∈ d ∧ y ∈ d) as (d & Hd & Hxd & Hyd).
      { apply scc_spec; [done|]. split.
        - eapply (walk_rtc_from _ (k ++ [x])); [done|]. apply elem_of_app. by left.
        - eapply (walk_rtc _ (x :: k)); [done|]. by right. }
      apply list_elem_of_lookup in Hd as [i Hi]. apply list_elem_of_lookup in Hc as [j Hj].
      pose proof (concat_unique _ _ _ _ _ _ (scc_nodup successors) Hi Hj Hxd Hx) as ->.
      rewrite Hj in Hi. injection Hi as <-. by apply list_elem_of_singleton in Hyd. }
    destruct k as [|b k]; [by destruct Hk as [[? _] _]|].
    destruct Hk as [[Hk _] _]. by rewrite (Hall b) in Hk by left.
Qed.

(** A closed walk stays in its component. *)
Lemma closed_walk_component c x k y :
  c ∈ strongly_connected successors → x ∈ c → walk E (x :: k ++ [x]) → y ∈ k → y ∈ c.
Proof.
  intros Hc Hx Hk Hy. pose proof (scc_lt _ _ _ Hc Hx) as Hlt.
  assert (∃ d, d ∈ strongly_connected successors ∧ x ∈ d ∧ y ∈ d) as (d & Hd & Hxd & Hyd).
  { apply scc_spec; [done|]. split.
    - eapply (walk_rtc_from _ (k ++ [x])); [done|]. apply elem_of_app. by left.
    - eapply (walk_rtc _ (x :: k)); [done|]. by right. }
  apply list_elem_of_lookup in Hd as [i Hi]. apply list_elem_of_lookup in Hc as [j Hj].
  pose proof (concat_unique _ _ _ _ _ _ (scc_nodup successors) Hi Hj Hxd Hx) as ->.
  rewrite Hj in Hi. by injection Hi as <-.
Qed.

(** [cycle_through] on a cyclic component: a closed walk of the graph through the component's
    smallest node, of the component's nodes, and no closed walk through that node is shorter. *)
Lemma cycle_through_spec c : c ∈ strongly_connected successors → cyclic successors c = true →
  ∃ start l, start ∈ c ∧ (∀ v, v ∈ c → start ≤ v)
    ∧ cycle_through successors c = start :: l ++ [start]
    ∧ walk E (start :: l ++ [start]) ∧ (∀ v, v ∈ l → v ∈ c)
    ∧ ∀ k, walk E (start :: k ++ [start]) → length l ≤ length k.
Proof.
  intros Hc Hcyc. unfold cycle_through.
  destruct (minimum c) as [start|] eqn:Hmin.
  2:{ apply minimum_None in Hmin as ->. done. }
  apply minimum_Some in Hmin as [Hin Hmin]. exists start.
  assert (Hinner : ∀ k, walk E (start :: k ++ [start]) →
            walk (inner successors (list_to_set c)) (start :: k ++ [start])).
  { intros k Hk. eapply walk_impl; [|exact Hk]. intros x y _ Hy [He _]. split; [done|].
    rewrite elem_of_list_to_set.
    rewrite elem_of_cons, elem_of_app, list_elem_of_singleton in Hy.
    destruct Hy as [->|[Hy| ->]]; [done|by eapply closed_walk_component|done]. }
  pose proof (search_spec successors (list_to_set c) start (S (length c)) (λ _, 0) [] [start] ∅
    (bfs_init _ _ _)) as Hs.
  assert (Hfuel : pops_left (list_to_set c) [start] ∅ ≤ S (length c)).
  { unfold pops_left. simpl. apply le_n_S. rewrite dom_empty_L, difference_empty_L.
    rewrite size_list_to_set; [done|]. by eapply scc_component_nodup. }
  destruct (search _ _ _ _ _ _) as [path|]; cbn [default from_option].
  - destruct Hs as (l & -> & Hw & Hshort); [intros; lia|done|]. exists l.
    assert (Hmem : ∀ v, v ∈ l → v ∈ c).
    { intros v Hv. assert (∃ u, inner successors (list_to_set c) u v) as (u & _ & Hm).
      2:{ by apply elem_of_list_to_set in Hm. }
      apply list_elem_of_split in Hv as (l1 & l2 & ->).
      rewrite <- app_assoc, <- app_comm_cons in Hw.
      change (walk (inner successors (list_to_set c)) ((start :: l1) ++ v :: l2 ++ [start])) in Hw.
      apply walk_app_inv in Hw as [Hw _]. destruct l1 as [|u l1] using rev_ind.
      - exists start. by destruct Hw.
      - exists u. rewrite app_comm_cons, <- app_assoc in Hw. apply walk_app_inv in Hw as [_ Hw]. by destruct Hw. }
    split; [done|]. split; [done|]. split; [done|]. split; [|split; [done|]].
    + eapply walk_impl; [|exact Hw]. intros x y _ _ [He Hm]. split; [done|].
      apply elem_of_list_to_set in Hm. by eapply scc_lt.
    + intros k Hk. by apply Hshort, Hinner.
  - exfalso. apply (cyclic_spec c start Hc Hin) in Hcyc. apply tc_walk in Hcyc as [k Hk].
    apply (Hs ltac:(intros; lia) Hfuel k). by apply Hinner.
Qed.
End Components.

Section Graph.
Context (g : Graph) (Hwf : graph_wf g).

(** [b] must be built, or its readiness check passed, before [a] is. *)
Definition depends (a b : BindingId) : Prop := b ∈ waits_for g a.

Lemma waits_for_range a b : b ∈ waits_for g a → b < length (g_bindings g).
Proof.
  unfold waits_for. rewrite elem_of_app. intros [H|H].
  - by eapply construction_deps_range.
  - by eapply readiness_deps_range.
Qed.

Lemma waits_for_out a : length (g_bindings g) ≤ a → waits_for g a = [].
Proof.
  intros Ha. unfold waits_for, construction_deps, readiness_deps, alias_target.
  by rewrite !(binding_out g a).
Qed.

Lemma count_successors : count (dependency_successors g) = length (g_bindings g).
Proof. unfold count, dependency_successors. by rewrite length_fmap, length_seq. Qed.

Lemma succs_successors a : succs (dependency_successors g) a = waits_for g a.
Proof.
  unfold succs, dependency_successors. rewrite list_lookup_fmap.
  destruct (decide (a < length (g_bindings g))) as [Ha|Ha].
  - by rewrite lookup_seq_lt.
  - rewrite lookup_seq_ge by lia. rewrite waits_for_out by lia. done.
Qed.

Lemma edge_depends a b : edge (dependency_successors g) a b ↔ depends a b.
Proof.
  unfold edge, depends. rewrite succs_successors, count_successors.
  split; [by intros [? _]|]. intros H. split; [done|]. by eapply waits_for_range.
Qed.

Lemma tc_depends a b : tc (edge (dependency_successors g)) a b ↔ tc depends a b.
Proof.
  split; induction 1 as [x y H|x y z H _ IH].
  1,3: apply tc_once; by apply edge_depends.
  all: eapply tc_l; [by apply edge_depends|done].
Qed.

Lemma no_cycles_acyclic : dependency_cycles g = [] ↔ acyclic depends.
Proof.
  unfold dependency_cycles. rewrite fmap_eq_nil. split.
  - intros Hnil x Hx. apply tc_depends in Hx.
    assert (Hlt : x < count (dependency_successors g)).
    { by apply tc_last in Hx as (y & _ & Hy). }
    destruct (scc_member _ x Hlt) as (i & c & Hi & Hc). apply list_elem_of_lookup_2 in Hi.
    assert (Hin : c ∈ filterb (cyclic (dependency_successors g)) (strongly_connected (dependency_successors g))).
    { apply elem_of_filterb. split; [|done]. by eapply (cyclic_spec _ c x). }
    rewrite Hnil in Hin. by apply not_elem_of_nil in Hin.
  - intros Hac. destruct (filterb _ _) as [|c l] eqn:El; [done|]. exfalso.
    assert (Hin : c ∈ filterb (cyclic (dependency_successors g)) (strongly_connected (dependency_successors g)))
      by (rewrite El; left).
    apply elem_of_filterb in Hin as [Hcyc Hc]. destruct c as [|x c]; [done|].
    apply (Hac x), tc_depends. eapply (cyclic_spec _ (x :: c)); [done|left|done].
Qed.

Lemma reported_cycle_real path : Cycle path ∈ dependency_cycles g →
  ∃ start l, path = cycle_step g <$> (start :: l ++ [start])
    ∧ walk depends (start :: l ++ [start])
    ∧ (∀ v, tc depends start v → tc depends v start → start ≤ v)
    ∧ ∀ k, walk depends (start :: k ++ [start]) → length l ≤ length k.
Proof.
  unfold dependency_cycles. rewrite list_elem_of_fmap. intros (c & [= ->] & Hc).
  apply elem_of_filterb in Hc as [Hcyc Hc].
  assert (Hw : ∀ l, walk depends l ↔ walk (edge (dependency_successors g)) l).
  { intros l. split; apply walk_impl; intros x y _ _; apply edge_depends. }
  destruct (cycle_through_spec _ c Hc Hcyc) as (start & l & Hin & Hmin & -> & Hwalk & _ & Hshort).
  exists start, l. split; [done|]. rewrite Hw. split; [done|]. split.
  - intros v H1%tc_depends%tc_rtc H2%tc_depends%tc_rtc.
    destruct (proj2 (scc_spec _ start v (scc_lt _ _ _ Hc Hin)) (conj H1 H2)) as (d & Hd & Hsd & Hvd).
    apply list_elem_of_lookup in Hd as [i Hi]. apply list_elem_of_lookup in Hc as [j Hj].
    pose proof (concat_unique _ _ _ _ _ _ (scc_nodup _) Hi Hj Hsd Hin) as ->.
    rewrite Hj in Hi. injection Hi as <-. by apply Hmin.
  - intros k. rewrite Hw. apply Hshort.
Qed.
End Graph.
