(* ===== verification/Order.v ===== *)
(** * Order: collection order and connect order

    [crates/ulo/src/graph/order.rs]. [collection_order] places the modules, depth first and after
    their imports; [connect_order] places the singletons, each after those it waits for. The
    [BinaryHeap<Reverse<BindingId>>] is a sorted list: its [pop] answers the smallest id, which is
    all the source reads of it. A [Vec] used as a stack is a list with its last element first. *)

From S2P Require Import Prelude Text Key Graph WiringError Cycles.

(** ** The modules *)

Section CollectionOrder.
Context (count : nat) (imports : list (list Import)).

Record walk_state := {
  w_order : list nat;
  w_visited : list bool;
  w_stack : list (nat * nat);
}.

(** One round of [while let Some(frame) = stack.last_mut()]. *)
Definition place_step (s : walk_state) : option walk_state :=
  match w_stack s with
  | [] => None
  | (node, next) :: rest => Some
      match imports !! node ≫= λ l, l !! next with
      | Some import =>
          let s := {| w_order := w_order s; w_visited := w_visited s; w_stack := (node, S next) :: rest |} in
          match import with
          | New child =>
              if bool_decide (child < count) && negb (default true (w_visited s !! child)) then
                {| w_order := w_order s; w_visited := <[child := true]> (w_visited s);
                   w_stack := (child, 0) :: w_stack s |}
              else s
          | Existing _ => s
          end
      | None => {| w_order := w_order s ++ [node]; w_visited := w_visited s; w_stack := rest |}
      end
  end.

(** Each node is pushed once, and each of its imports followed once. *)
Definition place_fuel : nat := count + total (length <$> imports).

Definition collection_order : list nat :=
  if bool_decide (count = 0) then []
  else w_order (iterate place_step place_fuel
    {| w_order := []; w_visited := <[0 := true]> (replicate count false); w_stack := [(0, 0)] |}).
End CollectionOrder.

(** ** The singletons *)

Definition is_singleton (g : Graph) (id : BindingId) : bool :=
  bool_decide (fb_effective (binding g id) = ESingleton).

(** The loop of [singleton_deps]. [seen] starts empty and each binding enters it once, so
    [deps_fuel] rounds are enough. *)
Record deps_state := { ds_deps : list BindingId; ds_seen : gset BindingId; ds_pending : list BindingId }.

Definition deps_step (g : Graph) (id : BindingId) (s : deps_state) : option deps_state :=
  match ds_pending s with
  | [] => None
  | dep :: pending => Some
      (if bool_decide (dep = id) || bool_decide (dep ∈ ds_seen s) then
        {| ds_deps := ds_deps s; ds_seen := ds_seen s; ds_pending := pending |}
      else
        let seen := {[dep]} ∪ ds_seen s in
        if is_singleton g dep then
          {| ds_deps := ds_deps s ++ [dep]; ds_seen := seen; ds_pending := pending |}
        else if bool_decide (fb_effective (binding g dep) = ETransient) then
          {| ds_deps := ds_deps s; ds_seen := seen;
             ds_pending := reverse (construction_deps g dep) ++ pending |}
        else {| ds_deps := ds_deps s; ds_seen := seen; ds_pending := pending |})
  end.

Definition deps_fuel (g : Graph) (id : BindingId) : nat :=
  length (waits_for g id)
  + total ((λ dep, length (construction_deps g dep)) <$> seq 0 (length (g_bindings g))).

Definition singleton_deps (g : Graph) (id : BindingId) : list BindingId :=
  ds_deps (iterate (deps_step g id) (deps_fuel g id)
    {| ds_deps := []; ds_seen := ∅; ds_pending := reverse (waits_for g id) |}).

(** [BinaryHeap::push]. *)
Fixpoint heap_push (x : nat) (heap : list nat) : list nat :=
  match heap with
  | [] => [x]
  | y :: heap' => if bool_decide (x ≤ y) then x :: heap else y :: heap_push x heap'
  end.

Record connect_state := {
  cs_waiting : list nat;
  cs_ready : list BindingId;
  cs_order : list BindingId;
  cs_placed : list bool;
}.

(** The counts of the first loop: what each singleton waits for, and who waits for each. *)
Definition count_waits (g : Graph) : list nat * list (list BindingId) :=
  foldl (λ wd b,
    let id := fb_id b in
    if is_singleton g id then
      foldl (λ '(waiting, dependents) dep,
        (alter S id waiting, alter (λ l, l ++ [id]) dep dependents)) wd (singleton_deps g id)
    else wd)
  (replicate (length (g_bindings g)) 0, replicate (length (g_bindings g)) []) (g_bindings g).

(** One dependent of a placed binding: [*left -= 1], ready at zero. *)
Definition release (s : list nat * list BindingId) (dependent : BindingId) : list nat * list BindingId :=
  let '(waiting, ready) := s in
  let waiting := alter pred dependent waiting in
  (waiting, if bool_decide (waiting !! dependent = Some 0) then heap_push dependent ready else ready).

(** One round of [while let Some(Reverse(id)) = ready.pop()]. *)
Definition connect_step (dependents : list (list BindingId)) (s : connect_state) : option connect_state :=
  match cs_ready s with
  | [] => None
  | id :: ready =>
      let '(waiting, ready) := foldl release (cs_waiting s, ready) (default [] (dependents !! id)) in
      Some {| cs_waiting := waiting; cs_ready := ready;
              cs_order := cs_order s ++ [id]; cs_placed := <[id := true]> (cs_placed s) |}
  end.

Definition connect_order (g : Graph) : list BindingId :=
  let '(waiting, dependents) := count_waits g in
  let ready := foldl (λ heap b,
    if is_singleton g (fb_id b) && bool_decide (waiting !! fb_id b = Some 0)
    then heap_push (fb_id b) heap else heap) [] (g_bindings g) in
  let s := iterate (connect_step dependents) (length (g_bindings g))
    {| cs_waiting := waiting; cs_ready := ready; cs_order := [];
       cs_placed := replicate (length (g_bindings g)) false |} in
  cs_order s ++ filterb (λ id, is_singleton g id && negb (default true (cs_placed s !! id)))
                  (fb_id <$> g_bindings g).

(** ** Collection order: facts *)

Section CollectionFacts.
Context (count : nat) (imports : list (list Import)).

(** [u] imports [v], a module of the same registration. *)
Definition imports_new (u v : nat) : Prop := New v ∈ default [] (imports !! u) ∧ v < count.

Definition nodes_of (s : walk_state) : list nat := w_order s ++ (w_stack s).*1.

Fixpoint frames_linked (stack : list (nat * nat)) : Prop :=
  match stack with
  | a :: ((b :: _) as rest) => imports_new b.1 a.1 ∧ frames_linked rest
  | _ => True
  end.

Record placing (s : walk_state) : Prop := {
  p_len : length (w_visited s) = count;
  p_visited : ∀ v, w_visited s !! v = Some true ↔ v ∈ nodes_of s;
  p_nodup : NoDup (nodes_of s);
  p_linked : frames_linked (w_stack s);
  p_frames : ∀ u k, (u, k) ∈ w_stack s → ∀ i v, i < k → default [] (imports !! u) !! i = Some (New v) →
    v < count → v ∈ nodes_of s;
  p_placed : ∀ pre u post, w_order s = pre ++ u :: post → ∀ v, imports_new u v →
    v ∈ nodes_of s ∧ (v ∈ pre ∨ rtc imports_new v u);
  p_reach : ∀ v, v ∈ nodes_of s → rtc imports_new 0 v;
  p_root : 0 ∈ nodes_of s;
}.

Definition place_left (s : walk_state) : nat :=
  total ((λ f : nat * nat, 1 + (length (default [] (imports !! f.1)) - f.2)) <$> w_stack s)
  + total ((λ v, match w_visited s !! v with Some true => 0 | _ => 1 + length (default [] (imports !! v)) end)
      <$> seq 0 count).

(** A frame's node is reached from every frame below it. *)
Lemma frames_reach stack a v : frames_linked (a :: stack) → v ∈ (a :: stack).*1 → rtc imports_new v a.1.
Proof.
  revert a. induction stack as [|b stack IH]; intros a Hl; simpl.
  - by intros ->%list_elem_of_singleton.
  - intros [->|Hv]%elem_of_cons; [done|]. destruct Hl as [He Hl].
    etrans; [by apply IH|]. by apply rtc_once.
Qed.

Lemma get_import node next : (imports !! node ≫= λ l, l !! next) = default [] (imports !! node) !! next.
Proof. by destruct (imports !! node). Qed.

Lemma place_move s node next rest import :
  placing s → w_stack s = (node, next) :: rest → default [] (imports !! node) !! next = Some import →
  (∀ v, import = New v → v < count → v ∈ nodes_of s) →
  placing {| w_order := w_order s; w_visited := w_visited s; w_stack := (node, S next) :: rest |}.
Proof.
  intros [H1 H2 H3 H4 H5 H6 H7 H8] Hst Hi Hv.
  assert (Hn : nodes_of {| w_order := w_order s; w_visited := w_visited s;
            w_stack := (node, S next) :: rest |} = nodes_of s).
  { unfold nodes_of. simpl. by rewrite Hst. }
  split; rewrite ?Hn; simpl; try done.
  - rewrite Hst in H4. by destruct rest.
  - intros u k Hin i v Hk Hlook Hlt. apply elem_of_cons in Hin as [[= -> ->]|Hin].
    + destruct (decide (i = next)) as [->|].
      * rewrite Hi in Hlook. injection Hlook as ->. by apply Hv.
      * eapply (H5 node next); [rewrite Hst; left| |done..]. lia.
    + eapply (H5 u k); [rewrite Hst; by right|done..].
Qed.

Lemma place_push s node next rest child :
  placing s → w_stack s = (node, next) :: rest → default [] (imports !! node) !! next = Some (New child) →
  child < count → w_visited s !! child ≠ Some true →
  placing {| w_order := w_order s; w_visited := <[child := true]> (w_visited s);
             w_stack := (child, 0) :: (node, S next) :: rest |}.
Proof.
  intros [H1 H2 H3 H4 H5 H6 H7 H8] Hst Hi Hlt Hnew.
  set (s' := Build_walk_state _ _ _).
  assert (Hn' : nodes_of s' = w_order s ++ child :: (w_stack s).*1) by (unfold nodes_of; by rewrite Hst).
  assert (Hn : ∀ v, v ∈ nodes_of s' ↔ v = child ∨ v ∈ nodes_of s).
  { intros v. rewrite Hn'. unfold nodes_of. rewrite !elem_of_app, elem_of_cons. tauto. }
  assert (He : imports_new node child) by (split; [by eapply list_elem_of_lookup_2|done]).
  split.
  - simpl. by rewrite length_insert.
  - intros v. rewrite Hn, <- H2. simpl. destruct (decide (v = child)) as [->|Hne].
    + rewrite list_lookup_insert_eq by lia. split; [by left|done].
    + rewrite list_lookup_insert_ne by done. split; [by right|by intros [|]].
  - rewrite Hn', <- Permutation_middle. constructor; [|done]. by rewrite <- H2.
  - simpl. rewrite Hst in H4. by destruct rest.
  - intros u k Hin i v Hk Hlook Hv. apply Hn.
    apply elem_of_cons in Hin as [[= -> ->]|Hin]; [lia|].
    apply elem_of_cons in Hin as [[= -> ->]|Hin].
    + destruct (decide (i = next)) as [->|]; [rewrite Hi in Hlook; injection Hlook as ->; by left|].
      right. eapply (H5 node next); [rewrite Hst; left| |done..]. lia.
    + right. eapply (H5 u k); [rewrite Hst; by right|done..].
  - intros pre u post Heq v Huv. destruct (H6 pre u post Heq v Huv) as [Hin Hor].
    split; [apply Hn; by right|done].
  - intros v [->|Hv]%Hn; [|by apply H7]. eapply rtc_r; [|exact He]. apply H7.
    unfold nodes_of. rewrite Hst. simpl. apply elem_of_app. right. left.
  - apply Hn. by right.
Qed.

Lemma place_pop s node next rest :
  placing s → w_stack s = (node, next) :: rest → default [] (imports !! node) !! next = None →
  placing {| w_order := w_order s ++ [node]; w_visited := w_visited s; w_stack := rest |}.
Proof.
  intros [H1 H2 H3 H4 H5 H6 H7 H8] Hst Hi. set (s' := Build_walk_state _ _ _).
  assert (Hn : nodes_of s' = nodes_of s).
  { unfold nodes_of. simpl. rewrite Hst, <- app_assoc. done. }
  split; rewrite ?Hn; simpl; try done.
  - rewrite Hst in H4. by destruct rest; [|destruct H4].
  - intros u k Hin. apply (H5 u k). rewrite Hst. by right.
  - intros pre u post Heq v Huv. destruct post as [|w post] using rev_ind.
    + apply app_inj_tail in Heq as [<- <-].
      assert (Hv : v ∈ nodes_of s).
      { destruct Huv as [Hin Hlt]. apply list_elem_of_lookup in Hin as [i Hlook].
        eapply (H5 node next); [rewrite Hst; left| |done..].
        apply lookup_ge_None in Hi. apply lookup_lt_Some in Hlook. lia. }
      split; [done|]. unfold nodes_of in Hv. apply elem_of_app in Hv as [|Hv]; [by left|right].
      rewrite Hst in Hv, H4. by eapply (frames_reach rest (node, next)).
    + clear IHpost. rewrite app_comm_cons, app_assoc in Heq. apply app_inj_tail in Heq as [Heq _].
      by eapply H6.
Qed.
Lemma place_step_ok s s' : placing s → place_step count imports s = Some s' →
  placing s' ∧ place_left s' < place_left s.
Proof.
  intros H. unfold place_step. destruct (w_stack s) as [|[node next] rest] eqn:Hst; [done|].
  rewrite get_import. intros [= <-].
  assert (Hleft : place_left s
    = 1 + (length (default [] (imports !! node)) - next)
      + total ((λ f : nat * nat, 1 + (length (default [] (imports !! f.1)) - f.2)) <$> rest)
      + total ((λ v, match w_visited s !! v with Some true => 0 | _ => 1 + length (default [] (imports !! v)) end)
          <$> seq 0 count)).
  { unfold place_left. rewrite Hst, fmap_cons, total_cons. done. }
  destruct (default [] (imports !! node) !! next) as [import|] eqn:Hi.
  2:{ split; [by eapply place_pop|]. rewrite Hleft. unfold place_left. simpl. lia. }
  set (s1 := {| w_order := w_order s; w_visited := w_visited s; w_stack := (node, S next) :: rest |}).
  assert (Hmove : place_left s1 < place_left s).
  { rewrite Hleft. unfold place_left, s1. cbn [w_stack w_visited].
    rewrite fmap_cons, total_cons. apply lookup_lt_Some in Hi. simpl fst. simpl snd. lia. }
  destruct import as [child|id].
  2:{ split; [|done]. by eapply place_move; [done..|]. }
  destruct (bool_decide (child < count) && negb (default true (w_visited s !! child))) eqn:Hb.
  - apply andb_true_iff in Hb as [Hlt Hb]. apply bool_decide_eq_true in Hlt.
    assert (Hnew : w_visited s !! child = Some false).
    { simpl in Hb. destruct (lookup_lt_is_Some_2 (w_visited s) child) as [b Hb'].
      - by rewrite (p_len _ H).
      - rewrite Hb' in Hb |- *. by destruct b. }
    split; [eapply place_push; [done..|]; by rewrite Hnew|].
    eapply Nat.le_lt_trans; [|exact Hmove]. unfold place_left, s1. cbn [w_stack w_visited].
    rewrite fmap_cons, total_cons. simpl fst. simpl snd.
    pose proof (total_fmap_lt
      (λ v, match <[child:=true]> (w_visited s) !! v with
            | Some true => 0 | _ => 1 + length (default [] (imports !! v)) end)
      (λ v, match w_visited s !! v with Some true => 0 | _ => 1 + length (default [] (imports !! v)) end)
      (seq 0 count) child (1 + length (default [] (imports !! child)))) as Ht.
    opose proof (Ht _ _ _) as Hd; [| | |lia].
    + intros y _. destruct (decide (y = child)) as [->|Hne].
      * rewrite list_lookup_insert_eq by (by rewrite (p_len _ H)). apply Nat.le_0_l.
      * by rewrite list_lookup_insert_ne.
    + apply elem_of_seq. lia.
    + rewrite list_lookup_insert_eq by (by rewrite (p_len _ H)). by rewrite Hnew.
  - split; [|done]. eapply place_move; [done..|]. intros v [= ->] Hlt.
    rewrite bool_decide_eq_true_2 in Hb by done. simpl in Hb. apply (p_visited _ H).
    destruct (lookup_lt_is_Some_2 (w_visited s) v) as [b Hb']; [by rewrite (p_len _ H)|].
    rewrite Hb' in Hb |- *. by destruct b.
Qed.

Lemma total_mono_seq (f : nat → nat) (l : list (list Import)) n :
  (∀ v, v < n → f v ≤ 1 + length (default [] (l !! v))) →
  total (f <$> seq 0 n) ≤ n + total (length <$> l).
Proof.
  intros Hf. etrans; [apply (total_fmap_le f (λ v, 1 + length (default [] (l !! v)))); intros v Hv; apply Hf;
    apply elem_of_seq in Hv; lia|]. clear Hf f.
  revert n. induction l as [|x l IH]; intros n.
  - assert (Hone : ∀ m, total ((λ v, 1 + length (default [] (([] : list (list Import)) !! v))) <$> seq m n) = n).
    { induction n as [|n IHn]; intros m; [done|]. simpl seq. by rewrite fmap_cons, total_cons, IHn. }
    rewrite Hone. simpl. lia.
  - destruct n as [|n]; [simpl; lia|]. simpl seq. rewrite !fmap_cons, !total_cons. simpl.
    rewrite <- fmap_S_seq, <- list_fmap_compose. specialize (IH n). unfold compose. simpl in *. lia.
Qed.

(** What the walk answers: every module reached from the root once, each after the modules it
    imports but for an import that closes a cycle. *)
Lemma collection_order_spec : 0 < count →
  NoDup (collection_order count imports)
  ∧ (∀ v, v ∈ collection_order count imports ↔ rtc imports_new 0 v)
  ∧ (∀ pre u post, collection_order count imports = pre ++ u :: post →
       ∀ v, imports_new u v → v ∈ pre ∨ rtc imports_new v u).
Proof.
  intros Hpos. unfold collection_order. rewrite bool_decide_eq_false_2 by lia.
  set (s0 := {| w_order := _; w_visited := _; w_stack := _ |}).
  assert (H0 : placing s0).
  { split; simpl; try done.
    - by rewrite length_insert, length_replicate.
    - intros v. unfold nodes_of. simpl. rewrite list_elem_of_singleton.
      destruct (decide (v = 0)) as [->|Hne].
      + rewrite list_lookup_insert_eq by (by rewrite length_replicate). done.
      + rewrite list_lookup_insert_ne by done. split; [|done]. by intros [? _]%lookup_replicate.
    - apply NoDup_singleton.
    - intros u k [= -> ->]%list_elem_of_singleton. lia.
    - by intros [].
    - by intros v ->%list_elem_of_singleton.
    - left. }
  set (s := iterate _ _ _).
  assert (H : placing s).
  { apply (iterate_invariant (place_step count imports) placing); [|done].
    intros ????. by eapply place_step_ok. }
  assert (Hdone : w_stack s = []).
  { assert (Hn : place_step count imports s = None).
    { apply (iterate_done _ placing place_left); [intros ????; by eapply place_step_ok|done|].
      etrans; [|apply (total_mono_seq (λ v, 1 + length (default [] (imports !! v)))); done].
      unfold place_left. change (w_stack s0) with [(0, 0)]. rewrite fmap_cons, total_cons. simpl fst. simpl snd.
      opose proof (total_fmap_lt
        (λ v, match w_visited s0 !! v with Some true => 0 | _ => 1 + length (default [] (imports !! v)) end)
        (λ v, 1 + length (default [] (imports !! v))) (seq 0 count) 0
        (1 + length (default [] (imports !! 0))) _ _ _) as Ht.
      - intros y _. destruct (w_visited s0 !! y) as [[]|]; lia.
      - apply elem_of_seq. lia.
      - simpl w_visited. rewrite list_lookup_insert_eq by (by rewrite length_replicate). done.
      - simpl in *. lia. }
    unfold place_step in Hn. by destruct (w_stack s) as [|[? ?] ?]. }
  assert (Hnodes : nodes_of s = w_order s) by (unfold nodes_of; by rewrite Hdone, app_nil_r).
  destruct H as [H1 H2 H3 H4 H5 H6 H7 H8]. rewrite Hnodes in *. split; [done|]. split.
  - intros v. split; [apply H7|]. intros Hr. 
    assert (Hclosed : ∀ u, u ∈ w_order s → rtc imports_new u v → v ∈ w_order s); [|by apply (Hclosed 0)].
    clear Hr. intros u Hu Hr. induction Hr as [|u w v Huw Hr IH]; [done|]. apply IH.
    apply list_elem_of_split in Hu as (pre & post & Heq). by apply (H6 pre u post Heq).
  - intros pre u post Heq v Huv. by apply (H6 pre u post Heq).
Qed.
End CollectionFacts.
(** ** What a singleton waits for *)

Section SingletonDeps.
Context (g : Graph) (id : BindingId).

Definition is_transient (t : BindingId) : Prop := fb_effective (binding g t) = ETransient.

(** [id] reads [d], directly, through its readiness check, or through transients built at the
    read. *)
Inductive awaits : BindingId → Prop :=
  | awaits_direct d : d ∈ waits_for g id → awaits d
  | awaits_through t d : awaits t → t ≠ id → is_transient t → d ∈ construction_deps g t → awaits d.

Record collecting (s : deps_state) : Prop := {
  c_awaits : ∀ d, d ∈ ds_seen s ∨ d ∈ ds_pending s → awaits d;
  c_deps : ∀ d, d ∈ ds_deps s ↔ d ∈ ds_seen s ∧ is_singleton g d = true;
  c_not_self : id ∉ ds_seen s;
  c_nodup : NoDup (ds_deps s);
  c_direct : ∀ d, d ∈ waits_for g id → d = id ∨ d ∈ ds_seen s ∨ d ∈ ds_pending s;
  c_through : ∀ t d, t ∈ ds_seen s → is_transient t → d ∈ construction_deps g t →
    d = id ∨ d ∈ ds_seen s ∨ d ∈ ds_pending s;
}.

Definition reads_left (seen : gset BindingId) (d : BindingId) : nat :=
  if decide (d ∈ seen) then 0 else length (construction_deps g d).

Definition collect_left (s : deps_state) : nat :=
  length (ds_pending s) + total (reads_left (ds_seen s) <$> seq 0 (length (g_bindings g))).

Lemma reads_left_le (seen : gset BindingId) dep l :
  total (reads_left ({[dep]} ∪ seen) <$> l) ≤ total (reads_left seen <$> l).
Proof.
  apply total_fmap_le. intros d _. unfold reads_left.
  destruct (decide (d ∈ seen)) as [Hd|Hd].
  - by rewrite decide_True by set_solver.
  - case_decide; lia.
Qed.

Lemma reads_left_take (seen : gset BindingId) dep : dep ∉ seen →
  total (reads_left ({[dep]} ∪ seen) <$> seq 0 (length (g_bindings g))) + length (construction_deps g dep)
  ≤ total (reads_left seen <$> seq 0 (length (g_bindings g))).
Proof.
  intros Hnew. destruct (decide (dep < length (g_bindings g))) as [Hlt|Hge].
  - apply (total_fmap_lt _ _ _ dep).
    + intros d _. unfold reads_left. destruct (decide (d ∈ seen)) as [Hd|Hd].
      * by rewrite decide_True by set_solver.
      * case_decide; lia.
    + apply elem_of_seq. lia.
    + unfold reads_left. rewrite decide_True by set_solver. by rewrite decide_False.
  - assert (E : construction_deps g dep = []).
    { unfold construction_deps, alias_target. by rewrite (binding_out g dep) by lia. }
    rewrite E. simpl. rewrite Nat.add_0_r. apply reads_left_le.
Qed.

Lemma collect_step s s' : collecting s → deps_step g id s = Some s' →
  collecting s' ∧ collect_left s' < collect_left s.
Proof.
  intros [H1 H2 H3 H4 H5 H6]. unfold deps_step, collect_left.
  destruct (ds_pending s) as [|dep pending] eqn:Hp; [done|]. intros [= <-].
  assert (Hdep : awaits dep) by (apply H1; right; left).
  destruct (bool_decide (dep = id) || bool_decide (dep ∈ ds_seen s)) eqn:Hskip.
  { apply orb_true_iff in Hskip. rewrite !bool_decide_eq_true in Hskip.
    split; [|simpl; lia]. split; simpl; try done.
    - intros d [Hd|Hd]; apply H1; [by left|right; by right].
    - intros d Hd. destruct (H5 d Hd) as [|[|[->|]%elem_of_cons]]; tauto.
    - intros t d Ht Htr Hd. destruct (H6 t d Ht Htr Hd) as [|[|[->|]%elem_of_cons]]; tauto. }
  apply orb_false_iff in Hskip as [Hne%bool_decide_eq_false Hnew%bool_decide_eq_false].
  pose proof (reads_left_take (ds_seen s) dep Hnew) as Htake.
  assert (Hd5 : ∀ (pending' : list nat) d, d ∈ waits_for g id → (∀ x, x ∈ pending → x ∈ pending') →
     d = id ∨ d ∈ {[dep]} ∪ ds_seen s ∨ d ∈ pending').
  { intros p' d Hd Hin. destruct (H5 d Hd) as [|[|[->|]%elem_of_cons]]; set_solver. }
  assert (Hd6 : ∀ (pending' : list nat) t d, t ∈ ds_seen s → is_transient t → d ∈ construction_deps g t →
     (∀ x, x ∈ pending → x ∈ pending') → d = id ∨ d ∈ {[dep]} ∪ ds_seen s ∨ d ∈ pending').
  { intros p' t d Ht Htr Hd Hin. destruct (H6 t d Ht Htr Hd) as [|[|[->|]%elem_of_cons]]; set_solver. }
  assert (Haw : ∀ d, d ∈ {[dep]} ∪ ds_seen s ∨ d ∈ pending → awaits d).
  { intros d [[->%elem_of_singleton|Hd]%elem_of_union|Hd]; [done|apply H1; by left|apply H1; right; by right]. }
  destruct (is_singleton g dep) eqn:Hs.
  - split; [|simpl; lia]. split; simpl; try done.
    + intros d. rewrite elem_of_app, list_elem_of_singleton, elem_of_union, elem_of_singleton, H2.
      split; [intros [?| ->]; tauto|tauto].
    + set_solver.
    + apply NoDup_app. split; [done|]. split; [|apply NoDup_singleton].
      intros d [Hd _]%H2 ->%list_elem_of_singleton. done.
    + intros d Hd. by apply Hd5.
    + intros t d [->%elem_of_singleton|Ht]%elem_of_union Htr Hd; [|by eapply Hd6].
      unfold is_singleton, is_transient in *. rewrite Htr in Hs. done.
  - case_bool_decide as Htr.
    + split; [|simpl; rewrite length_app, length_reverse; lia]. split; simpl.
      * intros d [Hd|[Hd|Hd]%elem_of_app]; [apply Haw; by left| |apply Haw; by right].
        rewrite elem_of_reverse in Hd. by apply (awaits_through dep d).
      * intros d. rewrite elem_of_union, elem_of_singleton, H2.
        split; [tauto|]. intros [[->|?] ?]; [congruence|done].
      * set_solver.
      * done.
      * intros d Hd. apply Hd5; [done|]. intros. apply elem_of_app. by right.
      * intros t d [->%elem_of_singleton|Ht]%elem_of_union Htr' Hd.
        -- right. right. apply elem_of_app. left. by rewrite elem_of_reverse.
        -- eapply Hd6; [done..|]. intros. apply elem_of_app. by right.
    + split; [|simpl; lia]. split; simpl; try done.
      * intros d. rewrite elem_of_union, elem_of_singleton, H2.
        split; [tauto|]. intros [[->|?] ?]; [congruence|done].
      * set_solver.
      * intros d Hd. by apply Hd5.
      * intros t d [->%elem_of_singleton|Ht]%elem_of_union Htr' Hd; [done|by eapply Hd6].
Qed.

Lemma singleton_deps_spec :
  NoDup (singleton_deps g id)
  ∧ ∀ d, d ∈ singleton_deps g id ↔ awaits d ∧ d ≠ id ∧ is_singleton g d = true.
Proof.
  unfold singleton_deps. set (s0 := Build_deps_state _ _ _). set (s := iterate _ _ _).
  assert (H0 : collecting s0).
  { split; simpl.
    - intros d [Hd|Hd]; [set_solver|]. rewrite elem_of_reverse in Hd. by apply awaits_direct.
    - intros d. set_solver.
    - set_solver.
    - constructor.
    - intros d Hd. right. right. by rewrite elem_of_reverse.
    - set_solver. }
  assert (H : collecting s).
  { apply (iterate_invariant (deps_step g id) collecting); [|done]. intros ????. by eapply collect_step. }
  assert (Hdone : ds_pending s = []).
  { assert (Hn : deps_step g id s = None).
    { apply (iterate_done _ collecting collect_left); [intros ????; by eapply collect_step|done|].
      unfold collect_left, deps_fuel, s0. cbn [ds_pending ds_seen]. rewrite length_reverse.
      apply Nat.add_le_mono_l, total_fmap_le. intros d _. unfold reads_left. case_decide; lia. }
    unfold deps_step in Hn. by destruct (ds_pending s). }
  destruct H as [H1 H2 H3 H4 H5 H6]. split; [done|]. intros d. rewrite H2. split.
  - intros [Hd Hs]. split; [apply H1; by left|]. split; [|done]. by intros ->.
  - intros (Haw & Hne & Hs). split; [|done]. rewrite Hdone in *.
    clear Hs. induction Haw as [d Hd|t d Ht IH Htne Htr Hd].
    + destruct (H5 d Hd) as [|[|?%not_elem_of_nil]]; done.
    + destruct (H6 t d (IH Htne) Htr Hd) as [|[|?%not_elem_of_nil]]; done.
Qed.
End SingletonDeps.

(** ** The walk over the singletons *)

(** [left l order]: what of [l] is not placed. *)
Definition unplaced (order l : list nat) : list nat := filterb (λ d, negb (contains order d)) l.

Lemma elem_of_unplaced order l d : d ∈ unplaced order l ↔ (d ∉ order) ∧ d ∈ l.
Proof. unfold unplaced. by rewrite elem_of_filterb, negb_true_iff, contains_false. Qed.

Lemma unplaced_nil order l : length (unplaced order l) = 0 ↔ ∀ d, d ∈ l → d ∈ order.
Proof.
  rewrite length_zero_iff_nil. split.
  - intros E d Hd. destruct (decide (d ∈ order)) as [|Hn]; [done|].
    assert (Hin : d ∈ unplaced order l) by by apply elem_of_unplaced.
    rewrite E in Hin. by apply not_elem_of_nil in Hin.
  - intros H. destruct (unplaced order l) as [|d k] eqn:E; [done|].
    assert (Hin : d ∈ unplaced order l) by (rewrite E; left).
    apply elem_of_unplaced in Hin as [Hn Hd]. by destruct Hn; apply H.
Qed.

Lemma unplaced_snoc order l x : NoDup l → x ∉ order →
  length (unplaced order l) = length (unplaced (order ++ [x]) l) + if decide (x ∈ l) then 1 else 0.
Proof.
  intros Hnd Hx. unfold unplaced, filterb. induction Hnd as [|d l Hd Hnd IH]; [done|].
  rewrite !filter_cons. destruct (decide (d = x)) as [->|Hne].
  - rewrite (decide_True (P := x ∈ x :: l)) by left. rewrite (decide_False (P := x ∈ l)) in IH by done.
    rewrite decide_True by (by rewrite negb_true_iff, contains_false).
    rewrite decide_False by (rewrite negb_true_iff, contains_false; set_solver). simpl. lia.
  - assert (E : (x ∈ d :: l) ↔ x ∈ l) by set_solver.
    assert (E2 : (d ∈ order ++ [x]) ↔ d ∈ order) by set_solver.
    rewrite (decide_ext _ _ _ _ E). repeat case_decide; simpl; try lia.
    all: rewrite negb_true_iff, contains_false in *; set_solver.
Qed.

Lemma heap_push_perm x heap : heap_push x heap ≡ₚ x :: heap.
Proof. induction heap as [|y heap IH]; simpl; [done|]. case_bool_decide; [done|]. rewrite IH. constructor. Qed.

Lemma heap_push_sorted x heap : StronglySorted le heap → StronglySorted le (heap_push x heap).
Proof.
  induction 1 as [|y heap Hs IH Hall]; simpl; [repeat constructor|]. rewrite Forall_forall in Hall.
  case_bool_decide as Hle; constructor; try done.
  - by constructor; [|apply Forall_forall].
  - apply Forall_forall. intros z [->|Hz]%elem_of_cons; [done|]. etrans; [done|by apply Hall].
  - apply Forall_forall. intros z. rewrite heap_push_perm. intros [->|Hz]%elem_of_cons; [lia|by apply Hall].
Qed.

(** Releasing a list of dependents, each once. *)
Lemma release_all l : ∀ waiting ready,
  NoDup l → (∀ y, y ∈ l → ∃ k, waiting !! y = Some (S k)) →
  ∃ waiting' ready', foldl release (waiting, ready) l = (waiting', ready')
    ∧ (∀ y, waiting' !! y = if decide (y ∈ l) then pred <$> waiting !! y else waiting !! y)
    ∧ ready' ≡ₚ ready ++ filterb (λ y, bool_decide (waiting !! y = Some 1)) l
    ∧ (StronglySorted le ready → StronglySorted le ready').
Proof.
  induction l as [|x l IH]; intros waiting ready Hnd Hpos.
  { exists waiting, ready. split; [done|]. split; [done|]. split; [|done]. unfold filterb. by rewrite app_nil_r. }
  apply NoDup_cons in Hnd as [Hx Hnd]. simpl.
  destruct (Hpos x (list_elem_of_here _ _)) as [k Hk].
  assert (Hlook : alter pred x waiting !! x = Some k) by by rewrite list_lookup_alter_eq, Hk.
  assert (Hne : ∀ y, y ∈ l → alter pred x waiting !! y = waiting !! y).
  { intros y Hy. rewrite list_lookup_alter_ne; [done|]. by intros ->. }
  destruct (IH (alter pred x waiting) (if bool_decide (alter pred x waiting !! x = Some 0)
     then heap_push x ready else ready)) as (w' & r' & -> & Hw & Hr & Hs); [done| |].
  { intros y Hy. rewrite Hne by done. apply Hpos. by right. }
  exists w', r'. split; [done|]. split; [|split].
  - intros y. rewrite Hw. destruct (decide (y = x)) as [->|Hyx].
    + rewrite decide_False by done. rewrite decide_True by left. by rewrite list_lookup_alter_eq.
    + rewrite list_lookup_alter_ne by done. by rewrite (decide_ext (y ∈ l) (y ∈ x :: l)) by set_solver.
  - rewrite Hr, filterb_cons.
    rewrite (filterb_ext _ (λ y, bool_decide (waiting !! y = Some 1))) by (intros y Hy; by rewrite Hne).
    rewrite Hlook, Hk. destruct (decide (k = 0)) as [->|Hk0].
    + rewrite !bool_decide_eq_true_2 by done. rewrite heap_push_perm. apply Permutation_middle.
    + by rewrite !bool_decide_eq_false_2 by congruence.
  - intros Hsort. apply Hs. case_bool_decide; [by apply heap_push_sorted|done].
Qed.

Section Connect.
Context (g : Graph) (Hwf : graph_wf g).
Let n := length (g_bindings g).

Lemma binding_ids : fb_id <$> g_bindings g = seq 0 n.
Proof.
  apply list_eq. intros i. rewrite list_lookup_fmap. destruct (g_bindings g !! i) as [b|] eqn:E.
  - simpl. rewrite lookup_seq_lt by (by eapply lookup_lt_Some). by rewrite (wf_binding_id g Hwf i b E).
  - apply lookup_ge_None in E. by rewrite lookup_seq_ge.
Qed.

(** What each singleton waits for. *)
Definition waits (id : BindingId) : list BindingId := if is_singleton g id then singleton_deps g id else [].

Lemma waits_nodup id : NoDup (waits id).
Proof. unfold waits. destruct (is_singleton g id); [apply singleton_deps_spec|constructor]. Qed.

Lemma is_singleton_range id : is_singleton g id = true → id < n.
Proof.
  unfold is_singleton. intros Hs%bool_decide_eq_true. destruct (decide (id < n)) as [|Hge]; [done|].
  rewrite binding_out in Hs by (unfold n in *; lia). done.
Qed.

Lemma waits_singleton id d : d ∈ waits id → is_singleton g d = true ∧ is_singleton g id = true.
Proof.
  unfold waits. destruct (is_singleton g id); [|by intros ?%not_elem_of_nil].
  intros (_ & _ & ?)%singleton_deps_spec. done.
Qed.

Definition count_one (id : BindingId) (wd : list nat * list (list BindingId)) (dep : BindingId) :=
  (alter S id wd.1, alter (λ l, l ++ [id]) dep wd.2).

Lemma count_one_all id l : ∀ wd, NoDup l →
  let wd' := foldl (count_one id) wd l in
  (∀ y, wd'.1 !! y = if decide (y = id) then (λ k, k + length l) <$> wd.1 !! y else wd.1 !! y)
  ∧ ∀ d, wd'.2 !! d = if decide (d ∈ l) then (λ k, k ++ [id]) <$> wd.2 !! d else wd.2 !! d.
Proof.
  induction l as [|x l IH]; intros wd Hnd; simpl.
  - split; [|done]. intros y. case_decide; [|done]. subst. destruct (wd.1 !! id); simpl; [f_equal; lia|done].
  - apply NoDup_cons in Hnd as [Hx Hnd]. destruct (IH (count_one id wd x) Hnd) as [Hw Hd]. split.
    + intros y. rewrite Hw. unfold count_one. simpl. case_decide; subst.
      * rewrite list_lookup_alter_eq. destruct (wd.1 !! id); simpl; [f_equal; lia|done].
      * by rewrite list_lookup_alter_ne.
    + intros d. rewrite Hd. unfold count_one. simpl. destruct (decide (d = x)) as [->|Hne].
      * rewrite decide_False by done. rewrite decide_True by left. by rewrite list_lookup_alter_eq.
      * rewrite list_lookup_alter_ne by done. by rewrite (decide_ext (d ∈ l) (d ∈ x :: l)) by set_solver.
Qed.

(** The two vectors: how many each binding waits for, and who waits for each, in id order. *)
Lemma count_waits_spec y : y < n →
  (count_waits g).1 !! y = Some (length (waits y))
  ∧ (count_waits g).2 !! y = Some (filterb (λ z, contains (waits z) y) (seq 0 n)).
Proof.
  intros Hy.
  assert (E : count_waits g = foldl (λ wd id, foldl (count_one id) wd (waits id))
    (replicate n 0, replicate n []) (seq 0 n)).
  { unfold count_waits. rewrite <- binding_ids. fold n. generalize (replicate n 0, replicate n ([] : list nat)).
    clear n Hy. induction (g_bindings g) as [|b bs IH]; intros wd; [done|]. simpl. rewrite <- IH. f_equal.
    unfold waits. destruct (is_singleton g (fb_id b)); [|done].
    generalize (singleton_deps g (fb_id b)) as l. intros l. revert wd.
    induction l as [|x l IHl]; intros [w d]; [done|]. simpl. by rewrite IHl. }
  rewrite E. clear E.
  assert (H : ∀ m, m ≤ n → let wd := foldl (λ wd id, foldl (count_one id) wd (waits id))
      (replicate n 0, replicate n []) (seq 0 m) in
    wd.1 !! y = Some (if decide (y < m) then length (waits y) else 0)
    ∧ wd.2 !! y = Some (filterb (λ z, contains (waits z) y) (seq 0 m))).
  { induction m as [|m IH]; intros Hm.
    - simpl. by rewrite !lookup_replicate_2 by done.
    - rewrite seq_S, foldl_app. simpl. destruct (IH ltac:(lia)) as [Hw Hd]. simpl in Hw, Hd.
      set (wd := foldl _ _ (seq 0 m)) in *.
      destruct (count_one_all m (waits m) wd (waits_nodup m)) as [Hw' Hd']. rewrite Hw', Hd', Hw, Hd.
      rewrite filterb_app, filterb_cons. split.
      + repeat case_decide; subst; simpl; try done; lia.
      + destruct (contains (waits m) y) eqn:C.
        * apply contains_true in C. by rewrite decide_True.
        * apply contains_false in C. by rewrite decide_False, app_nil_r. }
  destruct (H n ltac:(lia)) as [Hw Hd]. rewrite Hw, Hd. by rewrite decide_True.
Qed.

(** Between two rounds: the counts, the heap and the order agree. *)
Record kahn (s : connect_state) : Prop := {
  k_waiting : ∀ y, y < n → cs_waiting s !! y = Some (length (unplaced (cs_order s) (waits y)));
  k_ready : ∀ y, y ∈ cs_ready s ↔
    is_singleton g y = true ∧ (y ∉ cs_order s) ∧ ∀ d, d ∈ waits y → d ∈ cs_order s;
  k_nodup : NoDup (cs_order s ++ cs_ready s);
  k_sorted : StronglySorted le (cs_ready s);
  k_placed : ∀ v, v < n → cs_placed s !! v = Some (contains (cs_order s) v);
  k_singletons : ∀ v, v ∈ cs_order s → is_singleton g v = true;
  k_order : ∀ pre x post, cs_order s = pre ++ x :: post →
    (∀ d, d ∈ waits x → d ∈ pre)
    ∧ ∀ y, is_singleton g y = true → (y ∉ pre) → (∀ d, d ∈ waits y → d ∈ pre) → x ≤ y;
}.

Lemma kahn_step s s' : kahn s → connect_step (count_waits g).2 s = Some s' →
  kahn s' ∧ cs_order s' = cs_order s ++ [default 0 (head (cs_ready s))] ∧ cs_ready s ≠ [].
Proof.
  intros [H1 H2 H3 H4 H5 H6 H7]. unfold connect_step.
  destruct (cs_ready s) as [|id ready] eqn:Hr; [done|].
  destruct (proj1 (H2 id) ltac:(left)) as (Hid & Hnew & Hdeps).
  assert (Hlt : id < n) by by apply is_singleton_range.
  destruct (count_waits_spec id Hlt) as [_ ->]. simpl default.
  set (l := filterb _ _).
  assert (Hl : ∀ y, y ∈ l ↔ id ∈ waits y).
  { intros y. unfold l. rewrite elem_of_filterb, contains_true, elem_of_seq. split; [tauto|].
    intros Hy. split; [done|]. apply waits_singleton in Hy as [_ Hy%is_singleton_range]. lia. }
  assert (Hlen : ∀ y, length (unplaced (cs_order s) (waits y))
     = length (unplaced (cs_order s ++ [id]) (waits y)) + if decide (id ∈ waits y) then 1 else 0).
  { intros y. apply unplaced_snoc; [apply waits_nodup|done]. }
  assert (Hyn : ∀ y, id ∈ waits y → y < n).
  { intros y [_ Hy]%waits_singleton. by apply is_singleton_range. }
  destruct (release_all l (cs_waiting s) ready) as (w' & r' & -> & Hw & Hr' & Hs).
  { apply NoDup_filterb, NoDup_seq. }
  { intros y Hy%Hl. rewrite (H1 y) by auto. rewrite Hlen, decide_True by done.
    exists (length (unplaced (cs_order s ++ [id]) (waits y))). f_equal. lia. }
  intros [= <-]. split; [|done].
  assert (Hone : ∀ y, y ∈ l → cs_waiting s !! y = Some 1 ↔ ∀ d, d ∈ waits y → d ∈ cs_order s ++ [id]).
  { intros y Hy. apply Hl in Hy. rewrite (H1 y), Hlen, decide_True by auto. rewrite <- unplaced_nil.
    split; [intros [= ?]; lia|intros ->; done]. }
  assert (Hlnew : ∀ y, y ∈ l → y ∉ cs_order s).
  { intros y Hy%Hl Hin. apply list_elem_of_split in Hin as (pre & post & Heq).
    destruct (H7 _ _ _ Heq) as [Hpre _]. apply Hnew. rewrite Heq. apply elem_of_app. left. by apply Hpre. }
  split; cbn [cs_waiting cs_ready cs_order cs_placed].
  - intros y Hy. rewrite Hw, (H1 y Hy). rewrite (decide_ext (y ∈ l) (id ∈ waits y)) by apply Hl.
    rewrite Hlen. case_decide; simpl; f_equal; lia.
  - intros y. rewrite Hr', elem_of_app, elem_of_filterb, bool_decide_eq_true.
    specialize (H2 y). rewrite elem_of_cons in H2. rewrite elem_of_app, list_elem_of_singleton.
    apply NoDup_app in H3 as (_ & _ & H3). apply NoDup_cons in H3 as [H3 _]. split.
    + intros [Hy|[Hy Hin]].
      * destruct (proj1 H2 (or_intror Hy)) as (Ha & Hb & Hc). split; [done|].
        split; [intros [?| ->]; done|]. intros d Hd. apply elem_of_app. left. by apply Hc.
      * split; [by apply Hl, waits_singleton in Hin as [_ ?]|]. split.
        -- intros [Hy'| ->]; [by apply (Hlnew y)|]. apply Hl in Hin. by apply Hdeps in Hin.
        -- by apply Hone.
    + intros (Ha & Hb & Hc). destruct (decide (id ∈ waits y)) as [Hin|Hin].
      * right. apply Hl in Hin. split; [by apply Hone|done].
      * left. destruct (proj2 H2) as [->|]; [|tauto|done]. split; [done|]. split; [tauto|].
        intros d Hd. specialize (Hc d Hd). apply elem_of_app in Hc as [|Hc]; [done|].
        by apply list_elem_of_singleton in Hc as ->.
  - rewrite Hr', app_assoc. apply NoDup_app. split; [|split].
    + rewrite <- app_assoc. done.
    + intros y Hy [Hone' Hin]%elem_of_filterb. apply bool_decide_eq_true in Hone'.
      rewrite <- app_assoc in Hy. apply elem_of_app in Hy as [Hy|[->|Hy]%elem_of_cons]; [by eapply Hlnew| |].
      * apply Hl, Hdeps in Hin. done.
      * apply Hl in Hin. assert (Hy' : y ∈ id :: ready) by by right.
        apply H2 in Hy' as (_ & _ & Hy'). by apply Hnew, Hy'.
    + apply NoDup_filterb, NoDup_filterb, NoDup_seq.
  - apply Hs. by inversion H4.
  - intros v Hv. destruct (decide (v = id)) as [->|Hne].
    + rewrite list_lookup_insert_eq.
      * f_equal. symmetry. apply contains_true. set_solver.
      * eapply lookup_lt_Some. by apply H5.
    + rewrite list_lookup_insert_ne by done. rewrite (H5 v Hv). f_equal.
      apply eq_true_iff_eq. rewrite !contains_true. set_solver.
  - intros v [Hv|Hv]%elem_of_app; [by apply H6|]. by apply list_elem_of_singleton in Hv as ->.
  - intros pre x post Heq. destruct post as [|z post _] using rev_ind.
    + apply app_inj_tail in Heq as [<- <-]. split; [done|]. intros y Hy Hn Hd.
      assert (Hin : y ∈ id :: ready) by by apply H2. apply elem_of_cons in Hin as [->|Hin]; [done|].
      inversion H4 as [|? ? _ Hall]. rewrite Forall_forall in Hall. by apply Hall.
    + rewrite app_comm_cons, app_assoc in Heq. apply app_inj_tail in Heq as [Heq _]. by eapply H7.
Qed.

Definition ready_first (waiting : list nat) : list BindingId :=
  foldl (λ heap b,
    if is_singleton g (fb_id b) && bool_decide (waiting !! fb_id b = Some 0)
    then heap_push (fb_id b) heap else heap) [] (g_bindings g).

Lemma ready_first_spec waiting :
  ready_first waiting ≡ₚ filterb (λ y, is_singleton g y && bool_decide (waiting !! y = Some 0)) (seq 0 n)
  ∧ StronglySorted le (ready_first waiting).
Proof.
  unfold ready_first. rewrite <- binding_ids. induction (g_bindings g) as [|b bs IH] using rev_ind.
  - split; [done|constructor].
  - destruct IH as [Hp Hs]. rewrite foldl_app, fmap_app, filterb_app. simpl. rewrite filterb_cons.
    destruct (is_singleton g (fb_id b) && bool_decide (waiting !! fb_id b = Some 0)).
    + split; [|by apply heap_push_sorted]. rewrite heap_push_perm, Hp. by rewrite <- Permutation_cons_append.
    + unfold filterb at 2. simpl. by rewrite app_nil_r.
Qed.

Definition connect_start : connect_state := {|
  cs_waiting := (count_waits g).1; cs_ready := ready_first (count_waits g).1; cs_order := [];
  cs_placed := replicate n false |}.

Lemma unplaced_empty l : unplaced [] l = l.
Proof. induction l as [|x l IH]; [done|]. unfold unplaced in *. by rewrite filterb_cons, IH. Qed.

Lemma kahn_start : kahn connect_start.
Proof.
  destruct (ready_first_spec (count_waits g).1) as [Hp Hs]. split; simpl; try done.
  - intros y Hy. destruct (count_waits_spec y Hy) as [-> _]. by rewrite unplaced_empty.
  - intros y. rewrite Hp, elem_of_filterb, andb_true_iff, bool_decide_eq_true, elem_of_seq. split.
    + intros [[Hy H0] [_ Hlt]]. destruct (count_waits_spec y Hlt) as [E _]. rewrite E in H0.
      split; [done|]. split; [by apply not_elem_of_nil|]. intros d Hd.
      injection H0 as H0%length_zero_iff_nil. by rewrite H0 in Hd.
    + intros (Hy & _ & Hd). pose proof (is_singleton_range _ Hy) as Hlt.
      split; [|lia]. split; [done|]. destruct (count_waits_spec y Hlt) as [-> _]. f_equal.
      rewrite length_zero_iff_nil. destruct (waits y) as [|d l]; [done|].
      exfalso. by eapply not_elem_of_nil, (Hd d), list_elem_of_here.
  - rewrite Hp. apply NoDup_filterb, NoDup_seq.
  - intros v Hv. by rewrite lookup_replicate_2.
  - by intros v ?%not_elem_of_nil.
  - by intros [].
Qed.

Definition connect_end : connect_state := iterate (connect_step (count_waits g).2) n connect_start.

Lemma connect_order_eq : connect_order g =
  cs_order connect_end ++ filterb (λ id, is_singleton g id && negb (default true (cs_placed connect_end !! id)))
    (seq 0 n).
Proof.
  rewrite <- binding_ids. unfold connect_order, connect_end, connect_start, ready_first.
  by destruct (count_waits g) as [waiting dependents].
Qed.

Lemma kahn_room s : kahn s → length (cs_order s) + length (cs_ready s) ≤ n.
Proof.
  intros H. rewrite <- length_app, <- (length_seq n 0).
  apply submseteq_length, NoDup_submseteq; [apply H|]. intros y [Hy|Hy]%elem_of_app; apply elem_of_seq.
  - apply (k_singletons _ H), is_singleton_range in Hy. lia.
  - apply (k_ready _ H) in Hy as [Hy%is_singleton_range _]. lia.
Qed.

Lemma kahn_end : kahn connect_end ∧ cs_ready connect_end = [].
Proof.
  assert (Hstep : ∀ s s', kahn s → connect_step (count_waits g).2 s = Some s' →
    kahn s' ∧ n - length (cs_order s') < n - length (cs_order s)).
  { intros s s' H Hs. destruct (kahn_step s s' H Hs) as (H' & Ho & Hne). split; [done|].
    rewrite Ho, length_app. simpl. pose proof (kahn_room s H).
    destruct (cs_ready s); [done|]. simpl in *. lia. }
  split.
  - apply (iterate_invariant _ kahn); [|apply kahn_start]. intros s s' H Hs. by eapply Hstep.
  - assert (Hn : connect_step (count_waits g).2 connect_end = None).
    { apply (iterate_done _ kahn (λ s, n - length (cs_order s))); [done|apply kahn_start|simpl; lia]. }
    unfold connect_step in Hn. destruct (cs_ready connect_end); [done|].
    by destruct (foldl _ _ _).
Qed.

(** The singletons no round placed. *)
Lemma rest_spec y :
  y ∈ filterb (λ id, is_singleton g id && negb (default true (cs_placed connect_end !! id))) (seq 0 n)
  ↔ is_singleton g y = true ∧ (y ∉ cs_order connect_end).
Proof.
  destruct kahn_end as [H _]. rewrite elem_of_filterb, andb_true_iff, elem_of_seq. split.
  - intros [[Hs Hp] [_ Hlt]]. split; [done|]. rewrite (k_placed _ H y Hlt) in Hp. simpl in Hp.
    apply negb_true_iff in Hp. by apply contains_false in Hp.
  - intros [Hs Hn]. pose proof (is_singleton_range _ Hs) as Hlt. split; [|lia]. split; [done|].
    rewrite (k_placed _ H y Hlt). simpl. apply negb_true_iff. by apply contains_false.
Qed.

Lemma connect_order_perm : connect_order g ≡ₚ filterb (is_singleton g) (seq 0 n).
Proof.
  rewrite connect_order_eq. destruct kahn_end as [H _]. pose proof (k_nodup _ H) as Hnd.
  apply NoDup_app in Hnd as (Hnd & _ & _). apply NoDup_Permutation.
  - apply NoDup_app. split; [done|]. split; [|apply NoDup_filterb, NoDup_seq].
    intros y Hy [_ Hn]%rest_spec. done.
  - apply NoDup_filterb, NoDup_seq.
  - intros y. rewrite elem_of_app, rest_spec, elem_of_filterb, elem_of_seq. split.
    + intros [Hy|[Hy _]]; [apply (k_singletons _ H) in Hy|]; (split; [done|]);
        apply is_singleton_range in Hy; lia.
    + intros [Hy _]. destruct (decide (y ∈ cs_order connect_end)); [by left|by right].
Qed.

Lemma awaits_depends id d : awaits g id d → tc (depends g) id d.
Proof.
  induction 1 as [d Hd|t d _ IH _ _ Hd]; [by apply tc_once|]. eapply tc_r; [done|].
  unfold depends, waits_for. apply elem_of_app. by left.
Qed.

Lemma waits_depends x y : tc (λ a b, b ∈ waits a) x y → tc (depends g) x y.
Proof.
  assert (H : ∀ a b, b ∈ waits a → tc (depends g) a b).
  { intros a b. unfold waits. destruct (is_singleton g a); [|by intros ?%not_elem_of_nil].
    intros (Ha & _)%singleton_deps_spec. by apply awaits_depends. }
  induction 1 as [x y Hxy|x y z Hxy _ IH]; [by apply H|]. etrans; [by apply H|done].
Qed.

Lemma acyclic_all_placed : acyclic (depends g) → connect_order g = cs_order connect_end.
Proof.
  intros Hac. rewrite connect_order_eq. destruct (filterb _ _) as [|y l] eqn:E; [by rewrite app_nil_r|].
  exfalso. destruct kahn_end as [H Hr].
  destruct (no_sink_cycle (λ a b, b ∈ waits a) (y :: l)) as [x Hx]; [done| |].
  - intros x Hx. rewrite <- E in Hx. apply rest_spec in Hx as [Hs Hn].
    destruct (unplaced (cs_order connect_end) (waits x)) as [|d ds] eqn:Hu.
    + exfalso. assert (Hin : x ∈ cs_ready connect_end).
      { apply (k_ready _ H). split; [done|]. split; [done|]. apply unplaced_nil. by rewrite Hu. }
      rewrite Hr in Hin. by apply not_elem_of_nil in Hin.
    + assert (Hd : d ∈ unplaced (cs_order connect_end) (waits x)) by (rewrite Hu; left).
      apply elem_of_unplaced in Hd as [Hdn Hd]. exists d. split; [|done].
      rewrite <- E. apply rest_spec. split; [|done]. by apply waits_singleton in Hd as [? _].
  - by apply (Hac x), waits_depends.
Qed.

Lemma connect_order_sorted : acyclic (depends g) →
  ∀ pre x post, connect_order g = pre ++ x :: post →
    (∀ d, awaits g x d → is_singleton g d = true → d ∈ pre)
    ∧ ∀ y, is_singleton g y = true → (y ∉ pre) →
        (∀ d, awaits g y d → is_singleton g d = true → d ∈ pre) → x ≤ y.
Proof.
  intros Hac pre x post Heq. pose proof Heq as Heq'. rewrite acyclic_all_placed in Heq by done.
  destruct kahn_end as [H _]. destruct (k_order _ H _ _ _ Heq) as [Hd Hmin].
  assert (Hw : ∀ y d, is_singleton g y = true → awaits g y d → is_singleton g d = true → d ∈ waits y).
  { intros y d Hy Hdy Hs. unfold waits. rewrite Hy. apply singleton_deps_spec. split; [done|].
    split; [|done]. intros ->. by apply (Hac y), awaits_depends. }
  split.
  - intros d Hdx Hs. apply Hd, Hw; [|done..]. apply (k_singletons _ H). rewrite Heq. set_solver.
  - intros y Hy Hn Hall. apply Hmin; [done..|]. intros d Hdy. destruct (waits_singleton _ _ Hdy) as [Hs _].
    apply Hall; [|done]. unfold waits in Hdy. rewrite Hy in Hdy. by apply singleton_deps_spec in Hdy as [? _].
Qed.
End Connect.
