(* ===== verification/Redact.v ===== *)
(** * Redact: the redaction function

    [crates/ulo/src/redact.rs]: [SecretRegistry::register] and [replace], [strip_userinfo],
    [setting_url], [scrub] and [chain_text]. An outside error is the list of the messages down its
    [source()] chain, its own first. Texts are bytes, as in [Text]; the one test that reads whole
    characters above ASCII, [char::is_whitespace], is on ASCII here. *)

From S2P Require Import Prelude Text.
Local Open Scope string_scope.
Local Open Scope nat_scope.

Definition MARKER : str := str_of "[redacted]".
Definition MIN_MATCHED : nat := 4.
Definition MAX_CHAIN : nat := 32.

(** ** The registry *)

(** [SecretRegistry::register]. *)
Definition register (texts : list str) (text : str) : list str :=
  if negb (bool_decide (text = [])) && negb (contains texts text) then (texts ++ [text])%list else texts.

(** A byte that continues a character: [10xxxxxx]. *)
Definition is_continuation (c : ascii) : bool :=
  bool_decide (128 ≤ N_of_ascii c)%N && bool_decide (N_of_ascii c < 192)%N.

(** [chars().count()]. *)
Definition char_count (s : str) : nat := length (filterb (λ c, negb (is_continuation c)) s).

(** [chars.next()] and [chars.as_str()]: a character's bytes and what follows. *)
Fixpoint span_continuation (s : str) : str * str :=
  match s with
  | c :: s' => if is_continuation c then let '(a, b) := span_continuation s' in (c :: a, b) else ([], s)
  | [] => ([], [])
  end.

(** [sort_by(|a, b| b.len().cmp(&a.len()))]: longest first, stable. *)
Fixpoint insert_longest (s : str) (l : list str) : list str :=
  match l with
  | [] => [s]
  | t :: l' => if bool_decide (length s ≤ length t) then t :: insert_longest s l' else s :: l
  end.
Definition longest_first (l : list str) : list str := foldl (λ acc s, insert_longest s acc) [] l.

Definition matched (texts : list str) : list str := filterb (λ s, bool_decide (MIN_MATCHED ≤ char_count s)) texts.

(** One round of ['scan]: a secret replaced or a character kept, with what is left. *)
Definition scan_piece (secrets : list str) (rest : str) : bool * str * str :=
  match find_map (λ s, (λ after, (s, after)) <$> strip_prefix s rest) secrets with
  | Some (s, after) => (true, s, after)
  | None =>
      match rest with
      | c :: rest => let '(a, b) := span_continuation rest in (false, c :: a, b)
      | [] => (false, [], [])
      end
  end.

(** The rounds: the pieces the text is cut into. Each takes a byte at least. *)
Fixpoint scan_pieces (fuel : nat) (secrets : list str) (rest : str) : list (bool * str) :=
  match fuel, rest with
  | S fuel, _ :: _ =>
      let '(r, piece, after) := scan_piece secrets rest in (r, piece) :: scan_pieces fuel secrets after
  | _, _ => []
  end.

Definition written (p : bool * str) : str := if p.1 then MARKER else p.2.

Definition pieces (texts : list str) (text : str) : list (bool * str) :=
  scan_pieces (length text) (longest_first (matched texts)) text.

(** [SecretRegistry::replace]. *)
Definition replace_secrets (texts : list str) (text : str) : str :=
  if bool_decide (matched texts = []) then text else pieces texts text ≫= written.

(** ** The userinfo backstop *)

(** [str::find] with a text pattern: the parts before and after its first occurrence. *)
Fixpoint find_text (p s : str) : option (str * str) :=
  match strip_prefix p s with
  | Some after => Some ([], after)
  | None =>
      match s with
      | [] => None
      | c :: s => (λ ba : str * str, (c :: ba.1, ba.2)) <$> find_text p s
      end
  end.

Definition is_ascii_whitespace (c : ascii) : bool :=
  let n := N_of_ascii c in (bool_decide (9 ≤ n)%N && bool_decide (n ≤ 13)%N) || bool_decide (n = 32%N).

(** What ends an authority in prose. *)
Definition ends_authority (c : ascii) : bool :=
  contains [ascii_of_nat 47; ascii_of_nat 63; ascii_of_nat 35; ascii_of_nat 34; ascii_of_nat 39;
            ascii_of_nat 96; ascii_of_nat 60; ascii_of_nat 62] c
  || is_ascii_whitespace c.

(** [split_at] the first character a test holds of. *)
Fixpoint split_where (f : ascii → bool) (s : str) : str * str :=
  match s with
  | [] => ([], [])
  | c :: s' => if f c then ([], s) else let '(a, b) := split_where f s' in (c :: a, b)
  end.

(** [rfind]: the parts before the last occurrence of a character and from it on. *)
Definition rsplit_char (c : ascii) (s : str) : option (str * str) :=
  match split_once c (reverse s) with
  | Some (after, before) => Some (reverse before, c :: reverse after)
  | None => None
  end.

Definition AT : ascii := "@".

Definition strip_authority (authority : str) : str :=
  match rsplit_char AT authority with
  | Some (_, from_at) => (MARKER ++ from_at)%list
  | None => authority
  end.

Definition SEP : str := str_of "://".

(** The loop of [strip_userinfo]: each round passes a separator. *)
Fixpoint strip_userinfo_loop (fuel : nat) (rest : str) : str :=
  match fuel with
  | 0 => rest
  | S fuel =>
      match find_text SEP rest with
      | None => rest
      | Some (head, tail) =>
          let '(authority, after) := split_where ends_authority tail in
          (head ++ SEP ++ strip_authority authority ++ strip_userinfo_loop fuel after)%list
      end
  end.
Definition strip_userinfo (text : str) : str := strip_userinfo_loop (length text) text.

(** [scrub] and [redact]'s text. *)
Definition scrub (texts : list str) (text : str) : str := strip_userinfo (replace_secrets texts text).

Fixpoint contains_text (p s : str) : bool :=
  match strip_prefix p s with
  | Some _ => true
  | None => match s with [] => false | _ :: s => contains_text p s end
  end.

Definition chain_text (messages : list str) : str :=
  match messages with
  | [] => []
  | message :: causes =>
      foldl (λ text message,
        if negb (bool_decide (message = [])) && negb (contains_text message text)
        then (text ++ str_of ": " ++ message)%list else text) message (take MAX_CHAIN causes)
  end.

Definition redact (texts : list str) (messages : list str) : str := scrub texts (chain_text messages).

(** ** Settings that are URLs *)

Definition is_scheme (text : str) : bool :=
  match text with
  | [] => false
  | c :: rest => is_ascii_alphabetic c && forallb (λ c, is_ascii_alphanumeric c || contains (str_of "+-.") c) rest
  end.

Definition port_of (host : str) : option str :=
  let bracketed := strip_prefix (str_of "[") host in
  match (match bracketed with Some inner => snd <$> split_once "]" inner | None => Some host end) with
  | None => None
  | Some after =>
      let port :=
        match rsplit_char ":" after with
        | Some (before, from_colon) => if contains before ":"%char then None else Some (tail from_colon)
        | None => if bool_decide (is_Some bracketed) && negb (bool_decide (after = [])) then None else Some []
        end in
      match port with
      | Some port => if forallb is_ascii_digit port then Some port else None
      | None => None
      end
  end.

Definition is_control_or_space (c : ascii) : bool := bool_decide (N_of_ascii c ≤ 32)%N.
Fixpoint trim_start_where (f : ascii → bool) (s : str) : str :=
  match s with
  | [] => []
  | c :: s' => if f c then trim_start_where f s' else s
  end.
Definition trim_where (f : ascii → bool) (s : str) : str :=
  reverse (trim_start_where f (reverse (trim_start_where f s))).

Definition UNREADABLE : str := str_of "[unreadable]".

Definition setting_url (url : str) : str :=
  let url := filterb (λ c, negb (contains [ascii_of_nat 9; ascii_of_nat 10; ascii_of_nat 13] c))
               (trim_where is_control_or_space url) in
  let url := (split_where (λ c, contains (str_of "?#") c) url).1 in
  let network :=
    match strip_prefix (str_of "//") url with
    | Some rest => (str_of "//", rest)
    | None => ([], url)
    end in
  let '(scheme, rest) :=
    match find_text SEP url with
    | Some (head, tail) => if is_scheme head then ((head ++ SEP)%list, tail) else network
    | None => network
    end in
  let '(authority, path) := split_where (λ c, bool_decide (c = "/"%char)) rest in
  let host := match rsplit_char AT authority with Some (_, from_at) => tail from_at | None => authority end in
  if bool_decide (is_Some (port_of host)) && negb (contains path AT)
  then (scheme ++ host ++ path)%list else (scheme ++ UNREADABLE)%list.

Example setting_keeps : string_of (setting_url (str_of "redis://user:pw@cache:6379/2?pass=x#frag")) = "redis://cache:6379/2".
Proof. reflexivity. Qed.
Example setting_unreadable : string_of (setting_url (str_of "https://collector:4318/team@example/v1")) = "https://[unreadable]".
Proof. reflexivity. Qed.
Example setting_v6 : string_of (setting_url (str_of "redis://:pw@[2001:db8::1]:6379/0?pass=x")) = "redis://[2001:db8::1]:6379/0".
Proof. reflexivity. Qed.
Example setting_bare : string_of (setting_url (str_of "key@cache:6379/1?pass=x")) = "cache:6379/1".
Proof. reflexivity. Qed.
Example setting_unix : string_of (setting_url (str_of "unix:/tmp/redis.sock?pass=x")) = "unix:/tmp/redis.sock".
Proof. reflexivity. Qed.
Example strip_example : string_of (strip_userinfo (str_of "at db://u:p@h/x and q://h")) = "at db://[redacted]@h/x and q://h".
Proof. reflexivity. Qed.
Example replace_example :
  string_of (replace_secrets [str_of "abcd"; str_of "abcdef"; str_of "xy"] (str_of "xy abcdef abcd")) = "xy [redacted] [redacted]".
Proof. reflexivity. Qed.

(** ** Facts *)

Lemma split_where_spec f s : let '(a, b) := split_where f s in
  s = (a ++ b)%list ∧ (∀ c, c ∈ a → f c = false) ∧ (b = [] ∨ ∃ c b', b = c :: b' ∧ f c = true).
Proof.
  induction s as [|c s IH]; simpl.
  - split; [done|]. split; [by intros c ?%not_elem_of_nil|by left].
  - destruct (f c) eqn:E.
    + split; [done|]. split; [by intros d ?%not_elem_of_nil|]. right. eauto.
    + destruct (split_where f s) as [a b]. destruct IH as (-> & Ha & Hb). split; [done|]. split; [|done].
      intros d [->|Hd]%elem_of_cons; auto.
Qed.

Lemma split_where_app f a b : (∀ c, c ∈ a → f c = false) → (b = [] ∨ ∃ c b', b = c :: b' ∧ f c = true) →
  split_where f (a ++ b) = (a, b).
Proof.
  intros Ha Hb. induction a as [|c a IH]; simpl.
  - destruct Hb as [->|(c & b' & -> & Hc)]; [done|]. simpl. by rewrite Hc.
  - rewrite (Ha c) by left. rewrite IH; [done|]. intros d Hd. apply Ha. by right.
Qed.

Lemma rsplit_char_Some c s a b : rsplit_char c s = Some (a, b) ↔ s = (a ++ b)%list ∧ ∃ t, b = c :: t ∧ c ∉ t.
Proof.
  unfold rsplit_char. split.
  - destruct (split_once c (reverse s)) as [[x y]|] eqn:E; [|done]. intros [= <- <-].
    apply split_once_Some in E as [E Hx]. split.
    + rewrite <- (reverse_involutive s), E, reverse_app, reverse_cons, <- app_assoc. done.
    + exists (reverse x). split; [done|]. by rewrite elem_of_reverse.
  - intros [-> (t & -> & Ht)].
    assert (E : split_once c (reverse (a ++ c :: t)) = Some (reverse t, reverse a)).
    { apply split_once_Some. rewrite reverse_app, reverse_cons, <- app_assoc. split; [done|]. by rewrite elem_of_reverse. }
    by rewrite E, !reverse_involutive.
Qed.

Lemma rsplit_char_None c s : rsplit_char c s = None → c ∉ s.
Proof.
  unfold rsplit_char. destruct (split_once c (reverse s)) as [[x y]|] eqn:E; [done|]. intros _ Hin.
  assert (Hr : c ∈ reverse s) by by rewrite elem_of_reverse.
  apply list_elem_of_split in Hr as (x & y & Hs).
  assert (∃ u v, reverse s = (u ++ c :: v)%list ∧ c ∉ u) as (u & v & Huv & Hu).
  { rewrite Hs. clear. induction x as [|d x IH]; [exists [], y; split; [done|apply not_elem_of_nil]|].
    destruct (decide (d = c)) as [->|Hd]; [exists [], (x ++ c :: y)%list; split; [done|apply not_elem_of_nil]|].
    destruct IH as (u & v & E & Hu). exists (d :: u), v. simpl. rewrite E. split; [done|]. set_solver. }
  by rewrite (proj2 (split_once_Some c (reverse s) u v) (conj Huv Hu)) in E.
Qed.

Lemma find_text_Some p s a b : find_text p s = Some (a, b) → s = (a ++ p ++ b)%list.
Proof.
  revert a b. induction s as [|c s IH]; intros a b; simpl.
  - destruct (strip_prefix p []) eqn:E; [|done]. intros [= <- <-]. by apply strip_prefix_Some in E.
  - destruct (strip_prefix p (c :: s)) eqn:E; [intros [= <- <-]; by apply strip_prefix_Some in E|].
    destruct (find_text p s) as [[x y]|]; [|done]. intros [= <- <-]. simpl. by rewrite (IH x y).
Qed.

(** *** A reported URL *)

Lemma host_no_at authority :
  AT ∉ match rsplit_char AT authority with Some (_, from_at) => tail from_at | None => authority end.
Proof.
  destruct (rsplit_char AT authority) as [[a b]|] eqn:E.
  - apply rsplit_char_Some in E as (_ & t & -> & Ht). done.
  - by apply rsplit_char_None.
Qed.

Lemma scheme_char_plain c : is_ascii_alphanumeric c || contains (str_of "+-.") c = true →
  c ≠ AT ∧ c ≠ "?"%char ∧ c ≠ "#"%char.
Proof. destruct c as [[] [] [] [] [] [] [] []]; vm_compute; try done; repeat split; done. Qed.

Definition plain (s : str) : Prop := (AT ∉ s) ∧ ("?"%char ∉ s) ∧ ("#"%char ∉ s).

(** [plain] of a literal, by evaluation. *)
Ltac plain_literal := split; [|split]; apply (bool_decide_unpack _); vm_compute; exact I.

Lemma plain_app s t : plain s → plain t → plain (s ++ t)%list.
Proof. unfold plain. rewrite !not_elem_of_app. tauto. Qed.

Lemma is_scheme_plain s : is_scheme s = true → plain s.
Proof.
  destruct s as [|c s]; [done|]. simpl. intros [Hc Hs]%andb_true_iff. rewrite forallb_elem in Hs.
  assert (H : ∀ d, d ∈ c :: s → d ≠ AT ∧ d ≠ "?"%char ∧ d ≠ "#"%char).
  { intros d [->|Hd]%elem_of_cons; apply scheme_char_plain; [|by apply Hs].
    unfold is_ascii_alphanumeric. by rewrite Hc. }
  split; [|split]; intros Hin; by apply H in Hin as (? & ? & ?).
Qed.

(** A module setting's URL is reported without userinfo, query or fragment: whatever the
    value, the reported text holds no [@], no [?] and no [#]. *)
Theorem setting_url_hides url : plain (setting_url url).
Proof.
  unfold setting_url. set (u := filterb _ _). clearbody u.
  pose proof (split_where_spec (λ c, contains (str_of "?#") c) u) as Hsp.
  destruct (split_where _ u) as [v q]. destruct Hsp as (_ & Hv & _). simpl fst. clear u q.
  assert (Hq : ("?"%char ∉ v) ∧ ("#"%char ∉ v)).
  { split; intros Hin; apply Hv in Hin; done. }
  set (network := match strip_prefix _ v with Some rest => _ | None => _ end).
  set (sr := match find_text SEP v with Some _ => _ | None => _ end).
  assert (Hsr : plain sr.1 ∧ ("?"%char ∉ sr.2) ∧ ("#"%char ∉ sr.2)).
  { assert (Hnet : plain network.1 ∧ ("?"%char ∉ network.2) ∧ ("#"%char ∉ network.2)).
    { unfold network. destruct (strip_prefix _ v) as [rest|] eqn:E; simpl.
      - apply strip_prefix_Some in E. rewrite E, !not_elem_of_app in Hq. split; [|tauto].
        by plain_literal.
      - split; [|done]. split; [|split]; apply not_elem_of_nil. }
    unfold sr. destruct (find_text SEP v) as [[head tl]|] eqn:E; [|done].
    destruct (is_scheme head) eqn:Hs; [|done]. simpl. apply find_text_Some in E.
    rewrite E, !not_elem_of_app in Hq. split; [|tauto]. apply plain_app; [by apply is_scheme_plain|].
    plain_literal. }
  destruct sr as [scheme rest]. destruct Hsr as (Hsch & Hr1 & Hr2). simpl in Hr1, Hr2.
  pose proof (split_where_spec (λ c, bool_decide (c = "/"%char)) rest) as Hsp.
  destruct (split_where _ rest) as [authority path]. destruct Hsp as (-> & _ & _).
  rewrite !not_elem_of_app in Hr1, Hr2.
  set (host := match rsplit_char AT authority with Some _ => _ | None => _ end).
  assert (Hhost : plain host).
  { split; [apply host_no_at|]. unfold host. destruct (rsplit_char AT authority) as [[a b]|] eqn:E; [|tauto].
    apply rsplit_char_Some in E as (-> & t & -> & _). simpl. rewrite !not_elem_of_app, !not_elem_of_cons in Hr1, Hr2. tauto. }
  destruct (_ && _) eqn:Hok.
  - apply andb_true_iff in Hok as [_ Hat%negb_true_iff]. apply contains_false in Hat.
    apply plain_app; [done|]. apply plain_app; [done|]. split; [done|]. tauto.
  - apply plain_app; [done|].
    plain_literal.
Qed.

(** *** Registered secrets *)

Lemma insert_longest_perm s l : insert_longest s l ≡ₚ s :: l.
Proof. induction l as [|t l IH]; simpl; [done|]. case_bool_decide; [|done]. rewrite IH. constructor. Qed.

Lemma insert_longest_sorted s l : StronglySorted (λ a b, length b ≤ length a) l →
  StronglySorted (λ a b, length b ≤ length a) (insert_longest s l).
Proof.
  induction 1 as [|t l Hs IH Hall]; simpl; [repeat constructor|]. rewrite Forall_forall in Hall.
  case_bool_decide as Hle; constructor; try done.
  - apply Forall_forall. intros x. rewrite insert_longest_perm. intros [->|Hx]%elem_of_cons; [done|by apply Hall].
  - by constructor; [|apply Forall_forall].
  - apply Forall_forall. intros x [->|Hx]%elem_of_cons; [lia|]. specialize (Hall x Hx). lia.
Qed.

Lemma longest_first_spec l :
  longest_first l ≡ₚ l ∧ StronglySorted (λ a b, length b ≤ length a) (longest_first l).
Proof.
  unfold longest_first. induction l as [|s l [IHp IHs]] using rev_ind; [split; [done|constructor]|].
  rewrite foldl_app. simpl. split; [|by apply insert_longest_sorted].
  by rewrite insert_longest_perm, IHp, <- Permutation_cons_append.
Qed.

Lemma find_map_Some {A B} (f : A → option B) l y :
  find_map f l = Some y → ∃ pre x post, l = (pre ++ x :: post)%list ∧ f x = Some y ∧ ∀ z, z ∈ pre → f z = None.
Proof.
  induction l as [|x l IH]; simpl; [done|]. destruct (f x) as [z|] eqn:E.
  - intros [= <-]. exists [], x, l. split; [done|]. split; [done|]. by intros w ?%not_elem_of_nil.
  - intros (pre & w & post & -> & Hw & Hpre)%IH. exists (x :: pre), w, post. split; [done|]. split; [done|].
    intros v [->|Hv]%elem_of_cons; auto.
Qed.

Lemma span_continuation_spec s : let '(a, b) := span_continuation s in s = (a ++ b)%list.
Proof.
  induction s as [|c s IH]; simpl; [done|]. destruct (is_continuation c); [|done].
  destruct (span_continuation s) as [a b]. by rewrite IH.
Qed.

(** A piece hides the longest secret that starts there, or nothing starts there. *)
Definition piece_ok (secrets : list str) (p : bool * str) (after : str) : Prop :=
  if p.1 then p.2 ∈ secrets ∧ ∀ s t, s ∈ secrets → (p.2 ++ after)%list = (s ++ t)%list → length s ≤ length p.2
  else ∀ s t, s ∈ secrets → (p.2 ++ after)%list ≠ (s ++ t)%list.

Lemma scan_piece_spec secrets rest : rest ≠ [] → (∀ s, s ∈ secrets → s ≠ []) →
  StronglySorted (λ a b, length b ≤ length a) secrets →
  let '(r, piece, after) := scan_piece secrets rest in
  rest = (piece ++ after)%list ∧ piece ≠ [] ∧ piece_ok secrets (r, piece) after.
Proof.
  intros Hrest Hne Hsort. unfold scan_piece.
  destruct (find_map _ secrets) as [[s after]|] eqn:E.
  - apply find_map_Some in E as (pre & x & post & -> & Hx & Hpre).
    destruct (strip_prefix x rest) as [t|] eqn:Ex; [|done]. injection Hx as -> ->.
    apply strip_prefix_Some in Ex as ->.
    assert (Hs : s ∈ (pre ++ s :: post)%list) by (apply elem_of_app; right; left).
    split; [done|]. split; [by apply Hne|]. split; [done|]. simpl. intros s' t Hs' Heq.
    apply elem_of_app in Hs' as [Hs'|[->|Hs']%elem_of_cons]; [|done|].
    + specialize (Hpre s' Hs'). rewrite Heq in Hpre.
      by rewrite (proj2 (strip_prefix_Some s' (s' ++ t)%list t) eq_refl) in Hpre.
    + apply StronglySorted_app_1_r in Hsort. inversion Hsort as [|? ? _ Hall].
      rewrite Forall_forall in Hall. by apply Hall.
  - destruct rest as [|c rest]; [done|]. pose proof (span_continuation_spec rest) as Hsp.
    destruct (span_continuation rest) as [a b]. rewrite Hsp. split; [done|]. split; [done|].
    intros s t Hs Heq. apply (find_map_None _ _ E) in Hs as Hn. rewrite Hsp in Hn. simpl in Heq.
    rewrite Heq in Hn. by rewrite (proj2 (strip_prefix_Some s (s ++ t)%list t) eq_refl) in Hn.
Qed.

Lemma scan_pieces_spec secrets : (∀ s, s ∈ secrets → s ≠ []) →
  StronglySorted (λ a b, length b ≤ length a) secrets →
  ∀ fuel rest, length rest ≤ fuel →
  (scan_pieces fuel secrets rest ≫= snd) = rest
  ∧ ∀ pre p post, scan_pieces fuel secrets rest = (pre ++ p :: post)%list → piece_ok secrets p (post ≫= snd).
Proof.
  intros Hne Hsort fuel. induction fuel as [|fuel IH]; intros rest Hle; simpl.
  - destruct rest; [|simpl in Hle; lia]. split; [done|]. by intros [].
  - destruct rest as [|c rest]; [split; [done|]; by intros []|].
    pose proof (scan_piece_spec secrets (c :: rest) ltac:(done) Hne Hsort) as Hp.
    destruct (scan_piece secrets (c :: rest)) as [[r piece] after]. destruct Hp as (Heq & Hpne & Hok).
    assert (Hlen : length after ≤ fuel).
    { apply (f_equal length) in Heq. rewrite length_app in Heq. simpl in *. destruct piece; [done|]. simpl in Heq. lia. }
    destruct (IH after Hlen) as [Hcat Hall]. rewrite bind_cons, Hcat. split; [done|].
    intros [|q pre] p post Hsplit; simpl in Hsplit; injection Hsplit as <- Hsplit.
    + by rewrite <- Hsplit, Hcat.
    + by eapply Hall.
Qed.

Lemma matched_nonempty texts s : s ∈ matched texts → s ≠ [].
Proof. unfold matched. intros [H _]%elem_of_filterb ->. done. Qed.

(** [replace] cuts a text into pieces that make it up again and writes the marker for some of
    them. A piece that is hidden is a registered secret of four characters or more, the longest
    that starts there; where a piece is kept no such secret starts, so of no secret's occurrence is
    the first character written. *)
Theorem replace_hides_secrets texts text :
  ∃ ps, ps ≫= snd = text ∧ replace_secrets texts text = ps ≫= written
    ∧ ∀ pre p post, ps = (pre ++ p :: post)%list → piece_ok (matched texts) p (post ≫= snd).
Proof.
  destruct (longest_first_spec (matched texts)) as [Hperm Hsort].
  unfold replace_secrets. case_bool_decide as Hnone.
  - exists [(false, text)]. rewrite !bind_cons, !app_nil_r. split; [done|]. split; [done|].
    intros [|q pre] p post Heq; [|by injection Heq as _ Heq; destruct pre]. injection Heq as <- _.
    intros s t Hs. rewrite Hnone in Hs. by apply not_elem_of_nil in Hs.
  - exists (pieces texts text).
    destruct (scan_pieces_spec (longest_first (matched texts))) with (fuel := length text) (rest := text)
      as [Hcat Hall]; [|done|done|].
    + intros s. rewrite Hperm. apply matched_nonempty.
    + split; [done|]. split; [done|]. intros pre p post Heq. specialize (Hall pre p post Heq).
      destruct p as [[] piece]; unfold piece_ok in *; simpl in *.
      * destruct Hall as [Hin Hmax]. split; [by rewrite <- Hperm|].
        intros s t Hs. apply Hmax. by rewrite Hperm.
      * intros s t Hs. apply Hall. by rewrite Hperm.
Qed.

Lemma strip_loop_fuel fuel : ∀ rest, length rest ≤ fuel →
  strip_userinfo_loop fuel rest = strip_userinfo_loop (length rest) rest.
Proof.
  induction fuel as [fuel IH] using lt_wf_ind. intros rest Hle.
  destruct fuel as [|fuel]; [by destruct rest; [|simpl in Hle; lia]|].
  destruct rest as [|c rest]; [done|]. simpl length. cbn [strip_userinfo_loop].
  destruct (find_text SEP (c :: rest)) as [[head tl]|] eqn:E; [|done].
  pose proof (split_where_spec ends_authority tl) as Hs. destruct (split_where ends_authority tl) as [a b].
  destruct Hs as (-> & _). apply find_text_Some in E. apply (f_equal length) in E.
  rewrite !length_app in E. simpl in E, Hle.
  rewrite (IH fuel) by lia. rewrite (IH (length rest)) by lia. done.
Qed.

(** The backstop: the userinfo of a URL in a text is replaced, its host kept, and the text
    after the authority treated the same way. The URL is the text's first, its authority ends at a
    delimiter or with the text, and the last [@] of the authority ends the userinfo. *)
Theorem strip_userinfo_hides head user host after :
  find_text SEP (head ++ SEP ++ user ++ AT :: host ++ after)%list
    = Some (head, (user ++ AT :: host ++ after)%list) →
  (∀ c, c ∈ (user ++ AT :: host)%list → ends_authority c = false) → AT ∉ host →
  (after = [] ∨ ∃ c rest, after = c :: rest ∧ ends_authority c = true) →
  strip_userinfo (head ++ SEP ++ user ++ AT :: host ++ after)%list
  = (head ++ SEP ++ MARKER ++ AT :: host ++ strip_userinfo after)%list.
Proof.
  intros Hfind Hchars Hat Hafter. unfold strip_userinfo at 1.
  assert (Hlen : length (head ++ SEP ++ user ++ AT :: host ++ after)%list
    = S (length head + 2 + length (user ++ AT :: host)%list + length after)).
  { rewrite !length_app. simpl. rewrite length_app. lia. }
  rewrite Hlen. cbn [strip_userinfo_loop]. rewrite Hfind.
  replace (user ++ AT :: host ++ after)%list with ((user ++ AT :: host) ++ after)%list by by rewrite <- app_assoc.
  rewrite split_where_app by done. unfold strip_authority.
  rewrite (proj2 (rsplit_char_Some AT (user ++ AT :: host) user (AT :: host)))
    by (split; [done|by exists host]).
  rewrite strip_loop_fuel by lia. unfold strip_userinfo. rewrite <- !app_assoc. done.
Qed.

Lemma strip_userinfo_hides_witness :
  strip_userinfo (str_of "db://u:p@h/x") = str_of "db://[redacted]@h/x".
Proof.
  apply (strip_userinfo_hides (str_of "db") (str_of "u:p") (str_of "h") (str_of "/x")).
  - reflexivity.
  - intros c Hc. revert c Hc. apply Forall_forall. repeat constructor.
  - apply (bool_decide_unpack _). vm_compute. exact I.
  - right. exists "/"%char, (str_of "x"). split; reflexivity.
Defined.
