(* ===== verification/Scopes.v ===== *)
(** * Scopes: roles, the needs-execution pass and its checks

    [crates/ulo/src/graph/scopes.rs]. Each check answers the errors it pushes. *)

From S2P Require Import Prelude Text Key Graph WiringError.
Local Open Scope string_scope.
Local Open Scope nat_scope.

(** ** Roles *)

Definition role_types (g : Graph) (bindings : list FrozenBinding) : gset TypeId :=
  list_to_set (key_type_id <$> (g_handlers g ≫= λ h, hd_role_keys (hr_decl h)))
  ∪ list_to_set ((λ b, key_type_id (br_primary (fb_record b))) <$>
      filterb (λ b, bool_decide (br_kind (fb_record b) = BCollection) && bool_decide (fb_role b = Enhancer))
        bindings).

(** The first loop of [mark_role_contributions]. *)
Definition mark_role (roles : gset TypeId) (b : FrozenBinding) : FrozenBinding :=
  if bool_decide (br_kind (fb_record b) = BCollection) && bool_decide (fb_role b = Provider)
     && bool_decide (key_type_id (br_primary (fb_record b)) ∈ roles)
  then set_role b Enhancer else b.

(** The second: what a transport cannot read under a role key. *)
Definition role_errors (g : Graph) (first_binding : nat) (roles checked : gset TypeId) (b : FrozenBinding)
    : list WiringError :=
  let record := fb_record b in
  let new := bool_decide (first_binding ≤ fb_id b) in
  let reported key :=
    bool_decide (key_type_id key ∈ roles) && (new || negb (bool_decide (key_type_id key ∈ checked))) in
  match br_kind record with
  | BCollection =>
      let key := record_key record in
      if negb (is_unqualified key) && reported key
      then [QualifiedRoleContribution (key_name_of key BCollection) (module_name g (fb_origin b)) (br_location record)]
      else []
  | BSingle =>
      (λ kl : Key * Location,
        SingleRoleBinding (key_name_of kl.1 BSingle) (module_name g (fb_origin b)) kl.2)
      <$> filterb (λ kl, reported kl.1) (keys_located record)
  end.

Definition mark_role_contributions (g : Graph) (first_binding : nat) : Graph * list WiringError :=
  let roles := role_types g (g_bindings g) in
  let checked := role_types g (take first_binding (g_bindings g)) in
  let g := set_bindings g (mark_role roles <$> g_bindings g) in
  (g, g_bindings g ≫= role_errors g first_binding roles checked).

(** [through_aliases]. *)
Fixpoint through_aliases_loop (g : Graph) (rounds : nat) (id : BindingId) : BindingId :=
  match rounds with
  | 0 => id
  | S rounds =>
      match alias_target g id with
      | Some target => through_aliases_loop g rounds target
      | None => id
      end
  end.
Definition through_aliases (g : Graph) (id : BindingId) : BindingId :=
  through_aliases_loop g (length (g_bindings g)) id.

(** The bindings the handlers' [EnhancerSpec]s name by type. *)
Definition named_enhancers (g : Graph) : list BindingId :=
  g_handlers g ≫= λ h, hd_enhancer_deps (hr_decl h) ≫= λ dep,
    match dep with
    | EType key =>
        match lookup g (hr_module h) key with
        | Some (VBinding id) => [through_aliases g id]
        | _ => []
        end
    | EClosure _ => []
    end.

Definition name_enhancer (b : FrozenBinding) : FrozenBinding :=
  if bool_decide (fb_role b = Provider) then set_role b Enhancer else b.

Definition assign_roles (g : Graph) : Graph :=
  set_bindings g (foldl (λ bs id, alter name_enhancer id bs) (g_bindings g) (named_enhancers g)).

(** ** The needs-execution pass *)

Definition promote (b : FrozenBinding) : FrozenBinding :=
  if bool_decide (br_scope (fb_record b) = KAuto) && negb (bool_decide (fb_role b = Provider))
  then set_effective b EPerExecution else b.

(** The first loop of [needs_execution], on one binding. *)
Definition declared_effective (k : ScopeKind) : Effective :=
  match k with
  | KSingleton | KAuto => ESingleton
  | KPerExecution => EPerExecution
  | KTransient => ETransient
  end.

Definition start_scope (b : FrozenBinding) : FrozenBinding :=
  let b := set_effective b (declared_effective (br_scope (fb_record b))) in
  let b := set_needs b (bool_decide (br_scope (fb_record b) = KPerExecution)
                        || existsb is_execution_edge (fb_edges b)) in
  if fb_needs_execution b then promote b else b.

(** [readers]: who reads each binding. *)
Definition readers_of (g : Graph) : list (list BindingId) :=
  foldl (λ readers reader,
      foldl (λ readers dep, alter (λ l, l ++ [reader])%list dep readers) readers (construction_deps g reader))
    (replicate (length (g_bindings g)) []) (seq 0 (length (g_bindings g))).

(** One reader of a binding that passes the need. *)
Definition reach_reader (g : Graph) (s : list FrozenBinding * list BindingId) (reader : BindingId)
    : list FrozenBinding * list BindingId :=
  let '(bs, queue) := s in
  match bs !! reader with
  | None => s
  | Some b =>
      if fb_needs_execution b then s
      else
        let bs := <[reader := promote (set_needs b true)]> bs in
        (bs, if passes_execution (set_bindings g bs) reader then (queue ++ [reader])%list else queue)
  end.

(** One round of [while let Some(dep) = queue.pop_front()]. *)
Definition scope_step (g : Graph) (readers : list (list BindingId)) (s : list FrozenBinding * list BindingId)
    : option (list FrozenBinding * list BindingId) :=
  match s.2 with
  | [] => None
  | dep :: queue => Some (foldl (reach_reader g) (s.1, queue) (default [] (readers !! dep)))
  end.

(** Each binding is queued once, when the need reaches it: [count] rounds are enough. *)
Definition needs_execution (g : Graph) : Graph :=
  let count := length (g_bindings g) in
  let g := set_bindings g (start_scope <$> g_bindings g) in
  let queue := filterb (passes_execution g) (seq 0 count) in
  set_bindings g (iterate (scope_step g (readers_of g)) count (g_bindings g, queue)).1.

(** ** Paths for the reports *)

(** Whether the walk of [execution_path] may end at [id]. *)
Definition path_reached (g : Graph) (from id : BindingId) : bool :=
  match direct_execution_edge g id with Some _ => true | None => false end
  || (negb (bool_decide (id = from)) && bool_decide (fb_effective (binding g id) = EPerExecution)).

(** Back along [parent] to [from]; each entry is followed once. *)
Fixpoint path_back (fuel : nat) (from : BindingId) (parent : gmap BindingId BindingId) (current : BindingId)
    : list BindingId :=
  match fuel with
  | 0 => []
  | S fuel =>
      match parent !! current with
      | Some previous =>
          previous :: if bool_decide (previous = from) then [] else path_back fuel from parent previous
      | None => []
      end
  end.

(** The inner [for dep in graph.construction_deps(node)]. *)
Fixpoint path_scan (g : Graph) (from node : BindingId) (deps queue : list BindingId)
    (parent : gmap BindingId BindingId) : list BindingId + list BindingId * gmap BindingId BindingId :=
  match deps with
  | [] => inr (queue, parent)
  | dep :: deps =>
      if bool_decide (dep = from) || bool_decide (is_Some (parent !! dep)) || negb (passes_execution g dep)
      then path_scan g from node deps queue parent
      else
        let parent := <[dep := node]> parent in
        if path_reached g from dep then inl (reverse (dep :: path_back (size parent) from parent dep))
        else path_scan g from node deps (queue ++ [dep])%list parent
  end.

(** Each binding is queued once. *)
Fixpoint path_search (g : Graph) (from : BindingId) (fuel : nat) (queue : list BindingId)
    (parent : gmap BindingId BindingId) : option (list BindingId) :=
  match fuel, queue with
  | S fuel, node :: queue =>
      match path_scan g from node (construction_deps g node) queue parent with
      | inl path => Some path
      | inr (queue, parent) => path_search g from fuel queue parent
      end
  | _, _ => None
  end.

Definition execution_path (g : Graph) (from : BindingId) : list BindingId :=
  if path_reached g from from then [from]
  else default [from] (path_search g from (S (length (g_bindings g))) [from] ∅).

(** What [printed_path] and [execution_steps] add after the last step. *)
Definition last_step (g : Graph) (ids : list BindingId) : list string :=
  match last ids with
  | Some l =>
      match direct_execution_edge g l with
      | Some e => [dependency_step g l (ed_dependency e)]
      | None => []
      end
  | None => []
  end.

Definition printed_path (g : Graph) (from : BindingId) : list string :=
  let ids := execution_path g from in
  (imap (λ position id, if bool_decide (position = 0) then label g id else scoped_label g id) ids
   ++ last_step g ids)%list.

Definition execution_steps (g : Graph) (id : BindingId) : list string :=
  let ids := execution_path g id in
  ((scoped_label g <$> ids) ++ last_step g ids)%list.

(** [execution_read]. *)
Definition execution_read (g : Graph) (m : ModuleId) (owner : option BindingId) (d : DependencyRecord)
    : option (list string) :=
  let through id := negb (bool_decide (Some id = owner)) && passes_execution g id in
  find_map (λ read,
    match rd_kind read with
    | Extension _ | Execution => Some []
    | Single key =>
        match lookup g m key with
        | Some (VInput input) => Some ["input `" ++ key_name_display (key_name_of input BSingle) ++ "`"]
        | Some (VBinding id) => if through id then Some (execution_steps g id) else None
        | _ => None
        end
    | Collection key => execution_steps g <$> find_first through (collection g key)
    | Module => None
    end) (dr_reads d).

(** ** The checks *)

Definition scope_refused (b : FrozenBinding) : bool :=
  fb_needs_execution b
  && match br_scope (fb_record b) with
     | KSingleton => true
     | KAuto => bool_decide (fb_role b = Provider)
     | KPerExecution | KTransient => false
     end.

Definition is_alias_or_failed (r : Recipe) : bool := match r with Alias _ | Failed => true | _ => false end.

(** The body of [check_scopes]. *)
Definition scope_errors (g : Graph) (b : FrozenBinding) : list WiringError :=
  let record := fb_record b in
  if is_alias_or_failed (br_recipe record) then []
  else if scope_refused b then
    [ScopeViolation (key_name g (fb_id b)) (br_scope record) (by_closure record)
       (bool_decide (fb_role b = Controller)) (module_name g (fb_origin b)) (printed_path g (fb_id b))]
  else if bool_decide (fb_effective b = EPerExecution)
          && (negb (bool_decide (br_hooks record = [])) || match br_ready record with Some _ => true | None => false end)
  then [HooksOnPerExecution (key_name g (fb_id b)) (module_name g (fb_origin b))]
  else [].

Definition check_scopes (g : Graph) : list WiringError := g_bindings g ≫= scope_errors g.

(** The read of execution data a closure is refused for, as a path. *)
Definition closure_read (g : Graph) (m : ModuleId) (owner : option BindingId) (d : DependencyRecord)
    : option (list string) :=
  (λ steps, dependency_text d :: steps) <$> execution_read g m owner d.

(** The body of [closure_scopes]: what a handler's enhancer closure is built as, and its error. *)
Definition closure_scope (g : Graph) (h : HandlerRecord) (c : ClosureDep) : Effective * list WiringError :=
  let read := find_map (closure_read g (hr_module h) None) (deps_list (cd_dependencies c)) in
  match cd_scope c with
  | KAuto => (match read with Some _ => EPerExecution | None => ESingleton end, [])
  | KSingleton =>
      (ESingleton,
       match read with
       | Some path =>
           [ClosureScopeViolation
              (cd_tier c ++ "-level " ++ cd_role c ++ " #" ++ decimal (cd_position c) ++ " of " ++ handler_name g h)
              (hd_transport (hr_decl h)) (cd_role c) path (cd_location c)]
       | None => []
       end)
  | KPerExecution => (EPerExecution, [])
  | KTransient => (ETransient, [])
  end.

(** The closures [closure_scopes] decides, with their handlers, in order. *)
Definition enhancer_closures (g : Graph) (declared : Declared) : list (HandlerRecord * ClosureDep) :=
  drop (dc_first_handler declared) (g_handlers g) ≫= λ h,
    omap (λ dep, match dep with EClosure c => Some (h, c) | EType _ => None end) (hd_enhancer_deps (hr_decl h)).

Definition closure_scopes (g : Graph) (declared : Declared) : Graph * list WiringError :=
  let closures := enhancer_closures g declared in
  (set_closures g (foldl (λ m hc, <[cd_id hc.2 := (closure_scope g hc.1 hc.2).1]> m) (g_closures g) closures),
   closures ≫= λ hc, (closure_scope g hc.1 hc.2).2).

(** [Closure::check]. *)
Definition closure_check (g : Graph) (m : ModuleId) (owner : option BindingId) (name : string)
    (at_ : option Location) (d : Dependencies) : list WiringError :=
  omap (λ dep, (λ path, ClosureNeedsExecution name path at_) <$> closure_read g m owner dep) (deps_list d).

Definition check_closures (g : Graph) (declared : Declared) : list WiringError :=
  ((drop (dc_first_binding declared) (g_bindings g) ≫= λ b,
    let m := mn_text (module_name g (fb_origin b)) in
    let lbl := label g (fb_id b) in
    match br_ready (fb_record b) with
    | Some ready =>
        closure_check g (fb_origin b) (Some (fb_id b)) ("readiness check of `" ++ lbl ++ "` in " ++ m)
          (Some (ry_location ready)) (ry_dependencies ready)
    | None => []
    end
    ++ (br_hooks (fb_record b) ≫= λ hook,
      closure_check g (fb_origin b) (Some (fb_id b))
        ("`" ++ hook_kind_display (hk_kind hook) ++ "` hook of `" ++ lbl ++ "` in " ++ m)
        (Some (hk_location hook)) (hk_dependencies hook)))
  ++ (drop (dc_first_module declared) (g_modules g) ≫= λ m,
    fm_hooks m ≫= λ hook,
      closure_check g (fm_id m) None
        ("`" ++ hook_kind_display (hk_kind hook) ++ "` hook of module " ++ mn_text (fm_name m))
        (Some (hk_location hook)) (hk_dependencies hook))
  ++ (dc_meta declared ≫= λ '(m, name, d),
    closure_check g m None
      ("metadata `" ++ short_type_name name ++ "` of " ++ mn_text (module_name g m)) None d))%list.

(** ** Inputs a handler reads *)

Record InputRead := { rd_input : Key; rd_steps : list string }.

(** [InputWalk]'s [seen] and [reads]. *)
Record input_walk := { iw_seen : gset (KeyId * option BindingId); iw_reads : list InputRead }.

Definition record_read (w : input_walk) (input : Key) (reader : option BindingId) (steps : list string) : input_walk :=
  if bool_decide ((key_id input, reader) ∈ iw_seen w) then w
  else {| iw_seen := {[(key_id input, reader)]} ∪ iw_seen w;
          iw_reads := (iw_reads w ++ [{| rd_input := input; rd_steps := steps |}])%list |}.

Definition in_execution (g : Graph) (id : BindingId) : bool :=
  match fb_effective (binding g id) with EPerExecution | ETransient => true | ESingleton => false end.

(** [read_roots]: the roots it pushes and the inputs it records, of one read. *)
Definition read_one (g : Graph) (m : ModuleId) (via : option string) (d : DependencyRecord)
    (s : input_walk * list BindingId) (read : Read) : input_walk * list BindingId :=
  let '(w, roots) := s in
  match rd_kind read with
  | Single key =>
      match lookup g m key with
      | Some (VInput input) =>
          if rd_optional read then (w, roots)
          else (record_read w input None (option_list via ++ [dependency_text d])%list, roots)
      | Some (VBinding id) => (w, (roots ++ [id])%list)
      | _ => (w, roots)
      end
  | Collection key => (w, (roots ++ collection g key)%list)
  | Extension _ | Execution | Module => (w, roots)
  end.

Definition read_roots (g : Graph) (m : ModuleId) (d : Dependencies) (via : option string)
    (s : input_walk * list BindingId) : input_walk * list BindingId :=
  foldl (λ s d, foldl (read_one g m via d) s (dr_reads d)) s (deps_list d).

(** The part of [run] before the queue: the roots, and what parameters and closures read. *)
Definition walk_roots (g : Graph) (h : HandlerRecord) : input_walk * list BindingId :=
  let roots := hr_controller h :: (hd_role_keys (hr_decl h) ≫= collection g) in
  let s := read_roots g (hr_module h) (hd_dependencies (hr_decl h)) None ({| iw_seen := ∅; iw_reads := [] |}, roots) in
  foldl (λ s dep,
    match dep with
    | EType key =>
        match lookup g (hr_module h) key with
        | Some (VBinding id) => (s.1, (s.2 ++ [id])%list)
        | _ => s
        end
    | EClosure c =>
        if bool_decide (g_closures g !! cd_id c = Some ESingleton) then s
        else read_roots g (hr_module h) (cd_dependencies c) (Some "enhancer closure") s
    end) s (hd_enhancer_deps (hr_decl h)).

(** [chain]: back along the parents, stopping at a repeat; a repeat cannot come before [count]
    distinct steps. *)
Fixpoint chain_loop (fuel : nat) (parent : gmap BindingId (option BindingId)) (steps : list BindingId)
    (current : BindingId) : list BindingId :=
  match fuel with
  | 0 => steps
  | S fuel =>
      match parent !! current with
      | Some (Some previous) =>
          if contains steps previous then steps
          else chain_loop fuel parent (steps ++ [previous])%list previous
      | _ => steps
      end
  end.
Definition chain (parent : gmap BindingId (option BindingId)) (node : BindingId) : list BindingId :=
  reverse (chain_loop (size parent) parent [node] node).

Record run_state := { rs_walk : input_walk; rs_parent : gmap BindingId (option BindingId); rs_queue : list BindingId }.

(** The two pushes onto the queue, of a root and of a dependency. *)
Definition push_new (g : Graph) (from : option BindingId)
    (s : gmap BindingId (option BindingId) * list BindingId) (id : BindingId) :=
  let '(parent, queue) := s in
  if in_execution g id && negb (bool_decide (is_Some (parent !! id)))
  then (<[id := from]> parent, (queue ++ [id])%list) else s.

(** The inputs one binding's edges read. *)
Definition record_edges (g : Graph) (parent : gmap BindingId (option BindingId)) (node : BindingId) (w : input_walk) : input_walk :=
  foldl (λ w e,
    match ed_target e with
    | TInput input =>
        if ed_optional e then w
        else record_read w input (Some node)
               ((scoped_label g <$> chain parent node) ++ [dependency_step g node (ed_dependency e)])%list
    | _ => w
    end) w (fb_edges (binding g node)).

(** One round of [while let Some(node) = queue.pop_front()]. *)
Definition run_step (g : Graph) (s : run_state) : option run_state :=
  match rs_queue s with
  | [] => None
  | node :: queue =>
      let w := record_edges g (rs_parent s) node (rs_walk s) in
      let '(parent, queue) := foldl (push_new g (Some node)) (rs_parent s, queue) (construction_deps g node) in
      Some {| rs_walk := w; rs_parent := parent; rs_queue := queue |}
  end.

(** Each binding is queued once. *)
Definition input_reads (g : Graph) (h : HandlerRecord) : list InputRead :=
  let '(w, roots) := walk_roots g h in
  let '(parent, queue) := foldl (push_new g None) (∅, []) roots in
  iw_reads (rs_walk (iterate (run_step g) (length (g_bindings g))
    {| rs_walk := w; rs_parent := parent; rs_queue := queue |})).

(** The body of [check_inputs], on one read. *)
Definition input_error (g : Graph) (h : HandlerRecord) (read : InputRead) : option WiringError :=
  match g_inputs g !! key_id (rd_input read) with
  | None => None
  | Some decl =>
      if existsb (type_name_eqb (hd_transport (hr_decl h))) (in_seeders decl) then None
      else (λ seeder, InputNotSeeded (handler_name g h) (hd_transport (hr_decl h))
              (key_name_of (rd_input read) BSingle) seeder (rd_steps read)) <$> head (in_seeders decl)
  end.

Definition check_inputs (g : Graph) : list WiringError :=
  g_handlers g ≫= λ h, omap (input_error g h) (input_reads g h).
