(* ===== verification/ScopesFacts.v ===== *)
(** * ScopesFacts: what the scope pass decides

    The needs-execution pass computes the least set of bindings that need an execution; the paths
    its reports print are dependency paths to the read of execution data; and the input check
    reports exactly the reads of unseeded inputs a handler reaches. *)

From S2P Require Import Prelude Text Key Graph WiringError Scopes.

(** ** Only scopes change *)

(** Two bindings that differ in effective scope and need alone. *)
Definition same_declaration (a b : FrozenBinding) : Prop :=
  fb_id a = fb_id b ∧ fb_origin a = fb_origin b ∧ fb_record a = fb_record b
  ∧ fb_role a = fb_role b ∧ fb_edges a = fb_edges b.

Lemma same_declaration_refl b : same_declaration b b.
Proof. done. Qed.
Lemma same_declaration_trans a b c : same_declaration a b → same_declaration b c → same_declaration a c.
Proof. unfold same_declaration. naive_solver congruence. Qed.
Lemma same_promote b : same_declaration (promote b) b.
Proof. unfold promote. by destruct (_ && _). Qed.
Lemma same_start b : same_declaration (start_scope b) b.
Proof.
  unfold start_scope. destruct (fb_needs_execution _); [|done].
  eapply same_declaration_trans; [apply same_promote|done].
Qed.
#[export] Hint Resolve same_declaration_refl same_promote same_start : ulo.

Section SameGraph.
Context (g g' : Graph).
Context (Hmods : g_visibility g' = g_visibility g) (Hcoll : g_collections g' = g_collections g).
Context (Hsame : Forall2 same_declaration (g_bindings g') (g_bindings g)).

Lemma same_binding id : same_declaration (binding g' id) (binding g id).
Proof.
  unfold binding. destruct (g_bindings g' !! id) as [b'|] eqn:E'.
  - destruct (Forall2_lookup_l _ _ _ _ _ Hsame E') as (b & E & Hb). by rewrite E.
  - apply lookup_ge_None in E'. rewrite (Forall2_length _ _ _ Hsame) in E'.
    by rewrite lookup_ge_None_2.
Qed.

Lemma same_construction_deps id : construction_deps g' id = construction_deps g id.
Proof.
  destruct (same_binding id) as (_ & Ho & Hr & _ & He).
  unfold construction_deps, alias_target, edge_deps, collection, lookup.
  by rewrite Ho, Hr, He, Hmods, Hcoll.
Qed.
End SameGraph.

(** ** The needs-execution pass *)

Section Needs.
Context (g : Graph) (Hwf : graph_wf g).
Let n := length (g_bindings g).

(** A binding that passes the need upward once it has it: execution scoped, transient, or an [Auto]
    controller or enhancer. *)
Definition carries (b : FrozenBinding) : bool :=
  match br_scope (fb_record b) with
  | KPerExecution | KTransient => true
  | KAuto => negb (bool_decide (fb_role b = Provider))
  | KSingleton => false
  end.

(** A binding whose own declaration needs an execution. *)
Definition needs_directly (b : FrozenBinding) : bool :=
  bool_decide (br_scope (fb_record b) = KPerExecution) || existsb is_execution_edge (fb_edges b).

(** The need, as the documentation of the pass states it. *)
Inductive needs : BindingId → Prop :=
  | needs_direct id : id < n → needs_directly (binding g id) = true → needs id
  | needs_through id dep : id < n → dep ∈ construction_deps g id → needs dep →
      carries (binding g dep) = true → needs id.

(** The scope a binding is built with. *)
Definition built_as (b : FrozenBinding) (need : bool) : Effective :=
  match br_scope (fb_record b) with
  | KSingleton => ESingleton
  | KPerExecution => EPerExecution
  | KTransient => ETransient
  | KAuto => if need && negb (bool_decide (fb_role b = Provider)) then EPerExecution else ESingleton
  end.

Definition scoped (b0 b : FrozenBinding) : Prop :=
  same_declaration b b0 ∧ fb_effective b = built_as b0 (fb_needs_execution b).

Lemma start_scoped b : scoped b (start_scope b) ∧ fb_needs_execution (start_scope b) = needs_directly b.
Proof.
  split; [split; [apply same_start|]|].
  - unfold start_scope, promote, built_as, needs_directly. simpl.
    destruct (br_scope (fb_record b)); simpl; destruct (existsb is_execution_edge (fb_edges b)); simpl; try done;
      by destruct (bool_decide (fb_role b = Provider)).
  - unfold start_scope, promote, needs_directly. simpl.
    destruct (bool_decide (br_scope (fb_record b) = KPerExecution) || existsb is_execution_edge (fb_edges b));
      simpl; [|done].
    by destruct (_ && _).
Qed.

Lemma promote_scoped b0 b : scoped b0 b → fb_needs_execution b = false →
  scoped b0 (promote (set_needs b true)) ∧ fb_needs_execution (promote (set_needs b true)) = true.
Proof.
  intros [Hs He] Hn. assert (Hs' : same_declaration (promote (set_needs b true)) b0).
  { eapply same_declaration_trans; [apply same_promote|]. done. }
  destruct Hs as (_ & _ & Hr & Hro & _). rewrite Hn in He.
  split; [split; [exact Hs'|]|]; clear Hs'; unfold promote, built_as in *; simpl; rewrite Hr, Hro.
  - destruct (br_scope (fb_record b0)); simpl in *; try done;
      destruct (bool_decide (fb_role b0 = Provider)); done.
  - clear He. by destruct (_ && _).
Qed.

Lemma scoped_passes b0 b : scoped b0 b →
  match fb_effective b with EPerExecution => true | ETransient => fb_needs_execution b | ESingleton => false end
  = (match br_scope (fb_record b0) with KPerExecution => true | _ => fb_needs_execution b end) && carries b0.
Proof.
  intros [_ ->]. unfold built_as, carries.
  destruct (br_scope (fb_record b0)), (fb_needs_execution b), (bool_decide (fb_role b0 = Provider)); done.
Qed.

(** The bindings that have not been reached. *)
Definition unreached (bs : list FrozenBinding) : nat :=
  total ((λ b, if fb_needs_execution b then 0 else 1) <$> bs).

(** What holds of the bindings and the queue through the pass. *)
Record passing (bs : list FrozenBinding) (queue : list BindingId) : Prop := {
  ps_scoped : Forall2 scoped (g_bindings g) bs;
  ps_sound : ∀ id b, bs !! id = Some b → fb_needs_execution b = true → needs id;
  ps_direct : ∀ id b, bs !! id = Some b → needs_directly (binding g id) = true → fb_needs_execution b = true;
  ps_queue : ∀ id, id ∈ queue → needs id ∧ carries (binding g id) = true;
}.

(** The binding has been reached. *)
Definition flagged (bs : list FrozenBinding) (id : BindingId) : Prop :=
  ∃ b, bs !! id = Some b ∧ fb_needs_execution b = true.

Lemma passing_lookup bs queue id b : passing bs queue → bs !! id = Some b →
  scoped (binding g id) b ∧ id < n.
Proof.
  intros H Hb. destruct (Forall2_lookup_r _ _ _ _ _ (ps_scoped _ _ H) Hb) as (b0 & Hb0 & Hs).
  rewrite (binding_Some g id b0 Hb0). split; [done|]. by eapply lookup_lt_Some.
Qed.

Lemma reach_readers dep l : ∀ bs queue, passing bs queue →
  (∀ r, r ∈ l → r < n ∧ dep ∈ construction_deps g r) → needs dep → carries (binding g dep) = true →
  let '(bs', queue') := foldl (reach_reader g) (bs, queue) l in
  passing bs' queue'
  ∧ (∀ id, flagged bs id → flagged bs' id)
  ∧ (∀ id, id ∈ queue → id ∈ queue')
  ∧ (∀ id, flagged bs' id → carries (binding g id) = true → flagged bs id ∨ id ∈ queue')
  ∧ (∀ r, r ∈ l → flagged bs' r)
  ∧ length queue' + unreached bs' ≤ length queue + unreached bs.
Proof.
  induction l as [|r l IH]; intros bs queue H Hl Hdep Hcar.
  { simpl. split; [done|]. split; [done|]. split; [done|]. split; [by left|]. split; [|done].
    by intros r ?%not_elem_of_nil. }
  destruct (Hl r (list_elem_of_here _ _)) as [Hr Hdr].
  assert (Hl' : ∀ r, r ∈ l → r < n ∧ dep ∈ construction_deps g r) by (intros; apply Hl; by right).
  assert (Hlen : length bs = n) by (symmetry; apply (Forall2_length _ _ _ (ps_scoped _ _ H))).
  destruct (lookup_lt_is_Some_2 bs r) as [b Hb]; [by rewrite Hlen|].
  simpl. rewrite Hb. destruct (fb_needs_execution b) eqn:Hn.
  { specialize (IH bs queue H Hl' Hdep Hcar). destruct (foldl _ _ _) as [bs' queue'].
    destruct IH as (H1 & H2 & H3 & H4 & H5 & H6). do 4 (split; [done|]). split; [|done].
    intros x [->|Hx]%elem_of_cons; [|by apply H5]. apply H2. by exists b. }
  destruct (passing_lookup _ _ _ _ H Hb) as [Hs _].
  destruct (promote_scoped _ _ Hs Hn) as [Hs' Hn'].
  set (b' := promote (set_needs b true)) in *. set (bs1 := <[r := b']> bs).
  assert (Hlook : bs1 !! r = Some b') by (apply list_lookup_insert_eq; by rewrite Hlen).
  assert (Hpass : passes_execution (set_bindings g bs1) r = carries (binding g r)).
  { unfold passes_execution, binding at 1 2. simpl. rewrite Hlook. simpl.
    rewrite (scoped_passes _ _ Hs'), Hn'. by destruct (br_scope _). }
  assert (Hneeds : needs r) by by eapply needs_through.
  assert (H' : passing bs1 (if carries (binding g r) then (queue ++ [r])%list else queue)).
  { destruct H as [P1 P2 P3 P4]. split.
    - rewrite <- (list_insert_id (g_bindings g) r (binding g r)).
      + by apply Forall2_insert.
      + unfold binding. destruct (lookup_lt_is_Some_2 (g_bindings g) r Hr) as [b0 Hb0]. by rewrite Hb0.
    - intros id x Hx Hfx. destruct (decide (id = r)) as [->|Hne]; [done|].
      unfold bs1 in Hx. rewrite list_lookup_insert_ne in Hx by done. by eapply P2.
    - intros id x Hx Hd. destruct (decide (id = r)) as [->|Hne].
      + rewrite Hlook in Hx. by injection Hx as <-.
      + unfold bs1 in Hx. rewrite list_lookup_insert_ne in Hx by done. by eapply P3.
    - intros id. destruct (carries (binding g r)) eqn:Ec; [|by apply P4].
      rewrite elem_of_app, list_elem_of_singleton. intros [Hid| ->]; [by apply P4|done]. }
  rewrite Hpass. specialize (IH bs1 _ H' Hl' Hdep Hcar).
  destruct (foldl _ _ _) as [bs' queue']. destruct IH as (H1 & H2 & H3 & H4 & H5 & H6).
  assert (Hmono : ∀ id, flagged bs id → flagged bs1 id).
  { intros id (x & Hx & Hfx). destruct (decide (id = r)) as [->|Hne]; [by exists b'|].
    exists x. unfold bs1. by rewrite list_lookup_insert_ne. }
  assert (Hqin : ∀ id, id ∈ queue → id ∈ if carries (binding g r) then (queue ++ [r])%list else queue).
  { intros id Hid. destruct (carries _); [apply elem_of_app; by left|done]. }
  split; [done|]. split; [auto|]. split; [auto|]. split; [|split].
  - intros id Hid Hc. destruct (H4 id Hid Hc) as [(x & Hx & Hfx)|]; [|by right].
    destruct (decide (id = r)) as [->|Hne].
    + right. apply H3. rewrite Hc. apply elem_of_app. right. by apply list_elem_of_singleton.
    + left. exists x. unfold bs1 in Hx. by rewrite list_lookup_insert_ne in Hx.
  - intros x [->|Hx]%elem_of_cons; [|by apply H5]. apply H2. by exists b'.
  - etrans; [exact H6|].
    pose proof (total_insert (λ b, if fb_needs_execution b then 0 else 1) bs r b b' Hb) as Ht.
    cbv beta in Ht. rewrite Hn, Hn' in Ht. unfold unreached. fold bs1 in Ht.
    destruct (carries _); rewrite ?length_app; simpl; lia.
Qed.
End Needs.

Lemma readers_one reader deps : ∀ (readers : list (list BindingId)) d l,
  readers !! d = Some l →
  ∃ l', foldl (λ readers dep, alter (λ l, l ++ [reader])%list dep readers) readers deps !! d = Some l'
    ∧ ∀ r, r ∈ l' ↔ r ∈ l ∨ (r = reader ∧ d ∈ deps).
Proof.
  induction deps as [|dep deps IH]; intros readers d l Hl; simpl.
  - exists l. split; [done|]. intros r. rewrite elem_of_nil. tauto.
  - destruct (decide (d = dep)) as [->|Hne].
    + destruct (IH (alter (λ l, l ++ [reader]) dep readers) dep (l ++ [reader])) as (l' & Hl' & Hr).
      { by rewrite list_lookup_alter_eq, Hl. }
      exists l'. split; [done|]. intros r. rewrite Hr, elem_of_app, list_elem_of_singleton, elem_of_cons. tauto.
    + destruct (IH (alter (λ l, l ++ [reader]) dep readers) d l) as (l' & Hl' & Hr).
      { by rewrite list_lookup_alter_ne. }
      exists l'. split; [done|]. intros r. rewrite Hr, elem_of_cons. tauto.
Qed.

Lemma readers_of_spec g dep : dep < length (g_bindings g) →
  ∃ l, readers_of g !! dep = Some l
    ∧ ∀ r, r ∈ l ↔ r < length (g_bindings g) ∧ dep ∈ construction_deps g r.
Proof.
  intros Hdep. unfold readers_of. set (n := length (g_bindings g)) in *.
  assert (H : ∀ m, ∃ l, foldl (λ readers reader,
      foldl (λ readers dep, alter (λ l, l ++ [reader])%list dep readers) readers (construction_deps g reader))
      (replicate n []) (seq 0 m) !! dep = Some l ∧ ∀ r, r ∈ l ↔ r < m ∧ dep ∈ construction_deps g r).
  { induction m as [|m (l & Hl & Hr)].
    - exists []. split; [by apply lookup_replicate_2|]. intros r. rewrite elem_of_nil. lia.
    - rewrite seq_S, foldl_app. simpl.
      destruct (readers_one m (construction_deps g m) _ dep l Hl) as (l' & Hl' & Hr').
      exists l'. split; [done|]. intros r. rewrite Hr', Hr. split.
      + intros [[? ?]|[-> ?]]; split; try done; lia.
      + intros [Hlt ?]. destruct (decide (r = m)) as [->|]; [by right|left; split; [lia|done]]. }
  apply H.
Qed.

Section Pass.
Context (g : Graph) (Hwf : graph_wf g).
Let n := length (g_bindings g).
Let g1 := set_bindings g (start_scope <$> g_bindings g).

Lemma start_same : Forall2 same_declaration (g_bindings g1) (g_bindings g).
Proof. simpl. apply Forall2_fmap_l. apply Forall_Forall2_diag, Forall_forall. auto with ulo. Qed.

Lemma reader_deps id : construction_deps g1 id = construction_deps g id.
Proof. by apply same_construction_deps; [| |apply start_same]. Qed.

(** Through the pass: every binding the queue has dealt with has its readers reached. *)
Definition pass_inv (s : list FrozenBinding * list BindingId) : Prop :=
  passing g s.1 s.2
  ∧ ∀ dep, flagged s.1 dep → carries (binding g dep) = true →
      dep ∈ s.2 ∨ ∀ r, r < n → dep ∈ construction_deps g r → flagged s.1 r.

Definition pass_left (s : list FrozenBinding * list BindingId) : nat := length s.2 + unreached s.1.

Lemma pass_step s s' : pass_inv s → scope_step g1 (readers_of g1) s = Some s' →
  pass_inv s' ∧ pass_left s' < pass_left s.
Proof.
  intros [H Hclosed]. unfold scope_step. destruct s as [bs queue]. simpl in *.
  destruct queue as [|dep queue]; [done|]. intros [= <-].
  destruct (ps_queue _ _ _ H dep (list_elem_of_here _ _)) as [Hdep Hcar].
  assert (Hlt : dep < n) by by destruct Hdep.
  destruct (readers_of_spec g1 dep) as (l & Hl & Hr); [by simpl; rewrite length_fmap|].
  rewrite Hl. simpl default. simpl in Hr. rewrite length_fmap in Hr.
  assert (Hq : passing g bs queue).
  { destruct H as [P1 P2 P3 P4]. split; try done. intros id Hid. apply P4. by right. }
  pose proof (reach_readers g dep l bs queue Hq) as Hreach.
  change (reach_reader g1) with (reach_reader g).
  destruct (foldl _ _ _) as [bs' queue'].
  destruct Hreach as (H1 & H2 & H3 & H4 & H5 & H6); [|done..|].
  { intros r Hin%Hr. by rewrite reader_deps in Hin. }
  split; [|unfold pass_left; simpl; lia]. split; [done|]. simpl.
  intros d Hd Hc. destruct (H4 d Hd Hc) as [Hold|]; [|by left].
  destruct (Hclosed d Hold Hc) as [[->|Hin]%elem_of_cons|Hall]; [right|left; auto|right; auto].
  intros r Hr1 Hr2. apply H5, Hr. by rewrite reader_deps.
Qed.

Lemma start_lookup id b : (start_scope <$> g_bindings g) !! id = Some b → b = start_scope (binding g id) ∧ id < n.
Proof.
  rewrite list_lookup_fmap. destruct (g_bindings g !! id) as [b0|] eqn:E; [|done]. intros [= <-].
  rewrite (binding_Some g id b0 E). split; [done|]. by eapply lookup_lt_Some.
Qed.

Lemma start_passes id : id < n →
  passes_execution g1 id = needs_directly (binding g id) && carries (binding g id).
Proof.
  intros Hlt. unfold passes_execution, binding at 1 2. simpl. rewrite list_lookup_fmap.
  destruct (lookup_lt_is_Some_2 (g_bindings g) id Hlt) as [b Hb]. rewrite (binding_Some g id b Hb), Hb. simpl.
  destruct (start_scoped b) as [Hs Hn]. rewrite (scoped_passes _ _ Hs), Hn.
  unfold needs_directly. by destruct (br_scope (fb_record b)).
Qed.

Lemma pass_start : pass_inv (g_bindings g1, filterb (passes_execution g1) (seq 0 n)).
Proof.
  assert (Hq : ∀ id, id ∈ filterb (passes_execution g1) (seq 0 n) ↔
    id < n ∧ needs_directly (binding g id) = true ∧ carries (binding g id) = true).
  { intros id. rewrite elem_of_filterb, elem_of_seq. split.
    - intros [Hp Hlt]. rewrite start_passes, andb_true_iff in Hp by lia. split; [lia|done].
    - intros (Hlt & Hd & Hc). rewrite start_passes, Hd, Hc by done. split; [done|lia]. }
  split; [split|]; simpl.
  - apply Forall2_fmap_r, Forall_Forall2_diag, Forall_forall. intros b _. apply start_scoped.
  - intros id b [-> Hlt]%start_lookup Hn. apply needs_direct; [done|].
    by rewrite <- (proj2 (start_scoped (binding g id))).
  - intros id b [-> Hlt]%start_lookup Hd. by rewrite (proj2 (start_scoped (binding g id))).
  - intros id (Hlt & Hd & Hc)%Hq. split; [by apply needs_direct|done].
  - intros dep (b & [-> Hlt]%start_lookup & Hn) Hc. left. apply Hq. split; [done|]. split; [|done].
    by rewrite <- (proj2 (start_scoped (binding g dep))).
Qed.

Lemma pass_left_start : pass_left (g_bindings g1, filterb (passes_execution g1) (seq 0 n)) ≤ n.
Proof.
  unfold pass_left, unreached. simpl. rewrite length_filterb.
  rewrite (fmap_as_seq _ (start_scope <$> g_bindings g)), length_fmap. fold n.
  rewrite total_fmap_add. etrans; [apply (total_fmap_bound _ 1)|by rewrite length_seq, Nat.mul_1_l].
  intros id Hid%elem_of_seq. rewrite list_lookup_fmap.
  destruct (lookup_lt_is_Some_2 (g_bindings g) id) as [b Hb]; [unfold n in Hid; lia|].
  rewrite start_passes, (binding_Some g id b Hb), Hb by lia. simpl.
  rewrite (proj2 (start_scoped b)). destruct (needs_directly b), (carries b); simpl; lia.
Qed.

Definition pass_end : list FrozenBinding * list BindingId :=
  iterate (scope_step g1 (readers_of g1)) n (g_bindings g1, filterb (passes_execution g1) (seq 0 n)).

Lemma pass_end_inv : pass_inv pass_end ∧ pass_end.2 = [].
Proof.
  split.
  - apply (iterate_invariant _ pass_inv); [|apply pass_start]. intros s s' H Hs. by eapply pass_step.
  - assert (Hn : scope_step g1 (readers_of g1) pass_end = None).
    { apply (iterate_done _ pass_inv pass_left); [apply pass_step|apply pass_start|apply pass_left_start]. }
    unfold scope_step in Hn. by destruct (pass_end.2).
Qed.

(** The pass: the declarations are unchanged, a binding is marked exactly when it needs an
    execution, and it is built as the table of the pass says. *)
Lemma needs_execution_spec id : id < n →
  let b := binding (needs_execution g) id in
  same_declaration b (binding g id)
  ∧ (fb_needs_execution b = true ↔ needs g id)
  ∧ fb_effective b = built_as (binding g id) (fb_needs_execution b).
Proof.
  intros Hlt b. destruct pass_end_inv as [[H Hclosed] Hdone].
  assert (Hlen : length pass_end.1 = n) by (symmetry; apply (Forall2_length _ _ _ (ps_scoped _ _ _ H))).
  assert (Hlook : ∀ i, i < n → pass_end.1 !! i = Some (binding (needs_execution g) i)).
  { intros i Hi. change (g_bindings (needs_execution g)) with pass_end.1.
    destruct (lookup_lt_is_Some_2 pass_end.1 i) as [x Hx]; [by rewrite Hlen|]. rewrite Hx. f_equal.
    symmetry. by apply binding_Some. }
  destruct (passing_lookup g _ _ _ _ H (Hlook id Hlt)) as [[Hs He] _].
  split; [done|]. split; [|done]. split; [by apply (ps_sound _ _ _ H), Hlook|].
  intros Hneed. assert (Hf : flagged pass_end.1 id); [|by destruct Hf as (x & Hx & ?); rewrite (Hlook id Hlt) in Hx; injection Hx as <-].
  clear Hs He b. induction Hneed as [id _ Hd|id dep _ Hdep Hn IH Hc].
  - exists (binding (needs_execution g) id). split; [by apply Hlook|].
    apply (ps_direct _ _ _ H id); [by apply Hlook|done].
  - assert (Hdlt : dep < n) by (by eapply construction_deps_range).
    destruct (Hclosed dep (IH Hdlt) Hc) as [Hin|Hall]; [|by apply Hall].
    rewrite Hdone in Hin. by apply not_elem_of_nil in Hin.
Qed.
End Pass.

(** ** The path a report prints *)

Section Path.
Context (g : Graph) (Hwf : graph_wf g) (from : BindingId).

(** A dependency that passes the need upward. *)
Definition passes_to (a b : BindingId) : Prop :=
  b ∈ construction_deps g a ∧ passes_execution g b = true ∧ b ≠ from.

Definition known (parent : gmap BindingId BindingId) (v : BindingId) : Prop := v = from ∨ is_Some (parent !! v).

Record seeking (d : BindingId → nat) (done queue : list BindingId) (parent : gmap BindingId BindingId) : Prop := {
  sk_from : d from = 0 ∧ parent !! from = None;
  sk_known : ∀ v, v ∈ done ++ queue ↔ known parent v;
  sk_parent : ∀ v p, parent !! v = Some p → passes_to p v ∧ d v = S (d p) ∧ known parent p;
  sk_depth : ∀ v, is_Some (parent !! v) → d v ≤ size parent;
  sk_unreached : ∀ v, known parent v → path_reached g from v = false;
  sk_closed : ∀ u v, u ∈ done → passes_to u v → known parent v;
}.

(** What [execution_path] may answer before giving up. *)
Definition good_path (path : list BindingId) : Prop :=
  ∃ l v, path = from :: l ++ [v] ∧ walk passes_to path ∧ path_reached g from v = true.

Lemma path_back_spec (d : BindingId → nat) (parent : gmap BindingId BindingId) :
  d from = 0 → parent !! from = None →
  (∀ v p, parent !! v = Some p → passes_to p v ∧ d v = S (d p) ∧ known parent p) →
  ∀ m v, is_Some (parent !! v) → d v ≤ m →
  ∃ l, reverse (v :: path_back m from parent v) = from :: l ++ [v] ∧ walk passes_to (from :: l ++ [v]).
Proof.
  intros Hd Hfrom Hpar m. induction m as [|m IH]; intros v [p Hp] Hle;
    destruct (Hpar v p Hp) as (Hpv & Hdv & Hk); [lia|]. simpl. rewrite Hp.
  case_bool_decide as E.
  - subst p. by exists [].
  - destruct Hk as [|Hk]; [done|]. destruct (IH p Hk) as (l & Hl & Hw); [lia|].
    exists (l ++ [p]). rewrite reverse_cons, Hl. split; [done|].
    rewrite <- app_assoc, app_comm_cons. apply walk_app; [done|]. by split.
Qed.

Lemma path_scan_spec node deps : ∀ pre d done queue parent,
  construction_deps g node = (pre ++ deps)%list →
  seeking d done (node :: queue) parent →
  (∀ v, v ∈ pre → passes_to node v → known parent v) →
  match path_scan g from node deps queue parent with
  | inl path => good_path path
  | inr (queue', parent') => ∃ d', seeking d' (done ++ [node]) queue' parent'
  end.
Proof.
  induction deps as [|dep deps IH]; intros pre d done queue parent Hdeps H Hpre; simpl.
  { exists d. destruct H as [H1 H2 H3 H4 H5 H6]. split; try done.
    - intros v. rewrite <- app_assoc. apply H2.
    - intros u v. rewrite elem_of_app, list_elem_of_singleton. intros [Hu| ->] Huv; [by eapply H6|].
      apply Hpre; [|done]. destruct Huv as [Hin _]. by rewrite Hdeps, app_nil_r in Hin. }
  assert (Hdeps' : construction_deps g node = ((pre ++ [dep]) ++ deps)%list) by by rewrite <- app_assoc.
  destruct (bool_decide (dep = from) || bool_decide (is_Some (parent !! dep)) || negb (passes_execution g dep))
    eqn:Hskip.
  { eapply (IH (pre ++ [dep])%list); [done..|]. intros v.
    rewrite elem_of_app, list_elem_of_singleton. intros [Hv| ->] Hnv; [by apply Hpre|].
    destruct Hnv as (_ & Hp & Hne). rewrite Hp in Hskip. simpl in Hskip.
    rewrite orb_false_r, orb_true_iff, !bool_decide_eq_true in Hskip. by destruct Hskip as [|]; [|right]. }
  apply orb_false_iff in Hskip as [[Hne Hnew]%orb_false_iff Hp%negb_false_iff].
  apply bool_decide_eq_false in Hne, Hnew. apply eq_None_not_Some in Hnew.
  assert (Hto : passes_to node dep).
  { split; [rewrite Hdeps; set_solver|done]. }
  pose proof H as [H1 H2 H3 H4 H5 H6].
  assert (Hnode : known parent node) by (apply H2; set_solver).
  set (parent1 := <[dep := node]> parent).
  set (d1 := λ v, if decide (v = dep) then S (d node) else d v).
  assert (Hold : ∀ v, known parent v → d1 v = d v ∧ known parent1 v).
  { intros v Hv. assert (v ≠ dep).
    { intros ->. destruct Hv as [|[? Hv]]; [done|]. rewrite Hnew in Hv. done. }
    unfold d1, parent1. rewrite decide_False by done. split; [done|].
    destruct Hv as [|Hv]; [by left|right]. by rewrite lookup_insert_ne. }
  assert (Hd1 : d1 dep = S (d node)) by (unfold d1; by rewrite decide_True).
  assert (Hfrom1 : d1 from = 0 ∧ parent1 !! from = None).
  { destruct (Hold from) as [-> _]; [by left|]. destruct H1 as [? ?]. split; [done|].
    unfold parent1. by rewrite lookup_insert_ne. }
  assert (Hpar1 : ∀ v p, parent1 !! v = Some p → passes_to p v ∧ d1 v = S (d1 p) ∧ known parent1 p).
  { intros v p. unfold parent1 at 1. destruct (decide (v = dep)) as [->|Hv].
    - rewrite lookup_insert_eq. intros [= <-]. destruct (Hold node Hnode) as [-> ?]. by rewrite Hd1.
    - rewrite lookup_insert_ne by done. intros Hvp. destruct (H3 v p Hvp) as (Ha & Hb & Hc).
      destruct (Hold p Hc) as [-> ?]. destruct (Hold v) as [-> ?]; [right; by eexists|]. done. }
  assert (Hdepth1 : ∀ v, is_Some (parent1 !! v) → d1 v ≤ size parent1).
  { intros v Hv. unfold parent1. rewrite map_size_insert_None by done.
    destruct (decide (v = dep)) as [->|Hvd].
    - rewrite Hd1. apply le_n_S. destruct Hnode as [->|Hn]; [destruct H1 as [-> _]; lia|by apply H4].
    - unfold parent1 in Hv. rewrite lookup_insert_ne in Hv by done.
      destruct (Hold v) as [-> _]; [by right|]. specialize (H4 v Hv). lia. }
  destruct (path_reached g from dep) eqn:Hreach.
  - destruct (path_back_spec d1 parent1 (proj1 Hfrom1) (proj2 Hfrom1) Hpar1 (size parent1) dep)
      as (l & Hl & Hw); [unfold parent1; rewrite lookup_insert_eq; by eexists| |].
    + apply Hdepth1. unfold parent1. rewrite lookup_insert_eq. by eexists.
    + exists l, dep. fold parent1. by rewrite Hl.
  - fold parent1.
    assert (Hk1 : ∀ v, known parent1 v ↔ v = dep ∨ known parent v).
    { intros v. split; [|intros [->|Hv]; [right; unfold parent1; rewrite lookup_insert_eq; by eexists|by apply Hold]].
      intros [->|Hv]; [right; by left|]. unfold parent1 in Hv. destruct (decide (v = dep)) as [->|]; [by left|].
      rewrite lookup_insert_ne in Hv by done. right. by right. }
    eapply (IH (pre ++ [dep])%list d1); [done| |].
    + split; try done.
      * intros v. rewrite Hk1, <- H2, app_comm_cons, app_assoc, elem_of_app, list_elem_of_singleton. tauto.
      * intros v [->|Hv]%Hk1; [done|by apply H5].
      * intros u v Hu Huv. apply Hk1. right. by eapply H6.
    + intros v. rewrite elem_of_app, list_elem_of_singleton. intros [Hv| ->] Hnv; apply Hk1; [right|by left].
      by apply Hpre.
Qed.

Lemma path_scan_left node deps : ∀ queue parent queue' parent',
  path_scan g from node deps queue parent = inr (queue', parent') →
  length queue' + size parent = length queue + size parent'.
Proof.
  induction deps as [|dep deps IH]; intros queue parent queue' parent'; simpl; [by intros [= <- <-]|].
  destruct (bool_decide (dep = from) || bool_decide (is_Some (parent !! dep)) || negb (passes_execution g dep))
    eqn:Hskip; [apply IH|].
  apply orb_false_iff in Hskip as [[_ Hnew]%orb_false_iff _]. apply bool_decide_eq_false in Hnew.
  destruct (path_reached g from dep); [done|]. intros Hl%IH.
  rewrite map_size_insert_None in Hl by (by apply eq_None_not_Some). rewrite length_app in Hl. simpl in Hl. lia.
Qed.

Lemma seeking_size d done queue parent : seeking d done queue parent → size parent ≤ length (g_bindings g).
Proof.
  intros H. rewrite <- (length_seq (length (g_bindings g)) 0), <- size_dom.
  rewrite <- (size_list_to_set (C := gset nat) (seq 0 (length (g_bindings g)))) by apply NoDup_seq.
  apply subseteq_size. intros v [p Hp]%elem_of_dom.
  apply elem_of_list_to_set, elem_of_seq. destruct (sk_parent _ _ _ _ H v p Hp) as ((Hin & _) & _).
  apply construction_deps_range in Hin; [|done]. lia.
Qed.

Lemma path_search_spec fuel : ∀ d done queue parent,
  seeking d done queue parent → length queue + length (g_bindings g) ≤ fuel + size parent →
  match path_search g from fuel queue parent with
  | Some path => good_path path
  | None => ∀ v, rtc passes_to from v → path_reached g from v = false
  end.
Proof.
  assert (Hempty : ∀ d done parent, seeking d done [] parent →
    ∀ v, rtc passes_to from v → path_reached g from v = false).
  { intros d done parent [H1 H2 H3 H4 H5 H6] v Hr. apply H5.
    assert (Hk : ∀ u, known parent u → rtc passes_to u v → known parent v); [|apply (Hk from); [by left|done]].
    clear Hr. intros u Hu Hr. induction Hr as [|u w v Huw Hr IH]; [done|]. apply IH.
    apply H2 in Hu. rewrite app_nil_r in Hu. by eapply H6. }
  induction fuel as [|fuel IH]; intros d done queue parent H Hle; simpl.
  - pose proof (seeking_size _ _ _ _ H). destruct queue; [by eapply Hempty|simpl in Hle; lia].
  - destruct queue as [|node queue]; [by eapply Hempty|].
    assert (Hs := path_scan_spec node (construction_deps g node) [] d done queue parent eq_refl H).
    pose proof (path_scan_left node (construction_deps g node) queue parent) as Hm.
    destruct (path_scan _ _ _ _ _ _) as [path|[queue' parent']].
    + apply Hs. by intros v ?%not_elem_of_nil.
    + destruct Hs as [d' H']; [by intros v ?%not_elem_of_nil|]. eapply IH; [done|].
      specialize (Hm _ _ eq_refl). simpl in Hle. lia.
Qed.

(** [execution_path] answers a dependency path from [from], each step of which passes the need,
    ending where execution data is read; [from] alone when no such path exists. *)
Lemma execution_path_spec :
  (execution_path g from = [from] ∧
     (path_reached g from from = true ∨ ∀ v, rtc passes_to from v → path_reached g from v = false))
  ∨ good_path (execution_path g from).
Proof.
  unfold execution_path. destruct (path_reached g from from) eqn:Hf; [left; split; [done|by left]|].
  opose proof (path_search_spec (S (length (g_bindings g))) (λ _, 0) [] [from] ∅ _ _) as Hs.
  - split; try done.
    + intros v. simpl. rewrite list_elem_of_singleton. split; [by left|]. by intros [|[? ?]].
    + intros v [->|[? ?]]; done.
    + by intros u v ?%not_elem_of_nil.
  - rewrite map_size_empty. simpl. lia.
  - destruct (path_search _ _ _ _ _) as [path|]; [by right|left]. split; [done|by right].
Qed.
End Path.

(** ** What the checks conclude *)

Section Checks.
Context (g0 : Graph) (Hwf : graph_wf g0).
Let g := needs_execution g0.
Let n := length (g_bindings g0).

Lemma pass_length : length (g_bindings g) = n.
Proof.
  change (length (pass_end g0).1 = n). destruct (pass_end_inv g0) as [[H _] _].
  symmetry. apply (Forall2_length _ _ _ (ps_scoped _ _ _ H)).
Qed.

Lemma pass_same : Forall2 same_declaration (g_bindings g) (g_bindings g0).
Proof.
  change (Forall2 same_declaration (pass_end g0).1 (g_bindings g0)).
  destruct (pass_end_inv g0) as [[H _] _].
  apply Forall2_flip. eapply Forall2_impl; [apply (ps_scoped _ _ _ H)|]. by intros b0 b [? _].
Qed.

Lemma pass_deps id : construction_deps g id = construction_deps g0 id.
Proof. by apply same_construction_deps; [| |apply pass_same]. Qed.

Lemma needs_execution_wf : graph_wf g.
Proof.
  pose proof pass_same as Hs.
  assert (Hl : ∀ i b, g_bindings g !! i = Some b →
    ∃ b0, g_bindings g0 !! i = Some b0 ∧ same_declaration b b0).
  { intros i b Hb. by eapply Forall2_lookup_l. }
  split.
  - intros i b (b0 & Hb0 & (-> & _))%Hl. by eapply wf_binding_id.
  - apply (wf_module_id g0 Hwf).
  - intros i b (b0 & Hb0 & (_ & -> & _))%Hl. by eapply (wf_origin g0).
  - intros i b e dep (b0 & Hb0 & (_ & _ & _ & _ & ->))%Hl. rewrite pass_length. by eapply (wf_edges g0).
  - rewrite pass_length. apply (wf_collections g0 Hwf).
  - rewrite pass_length. apply (wf_visible g0 Hwf).
  - rewrite pass_length. apply (wf_module_bindings g0 Hwf).
  - rewrite pass_length. apply (wf_exported g0 Hwf).
  - rewrite pass_length. apply (wf_handlers g0 Hwf).
  - apply (wf_handler_modules g0 Hwf).
Qed.

Lemma pass_spec id : id < n →
  same_declaration (binding g id) (binding g0 id)
  ∧ (fb_needs_execution (binding g id) = true ↔ needs g0 id)
  ∧ fb_effective (binding g id) = built_as (binding g0 id) (fb_needs_execution (binding g id)).
Proof. intros Hlt. by apply needs_execution_spec. Qed.

Lemma pass_passes id : id < n → passes_execution g id = true ↔ needs g0 id ∧ carries (binding g0 id) = true.
Proof.
  intros Hlt. destruct (pass_spec id Hlt) as (Hs & Hn & He). unfold passes_execution.
  rewrite (scoped_passes (binding g0 id) (binding g id) (conj Hs He)). rewrite andb_true_iff, <- Hn.
  destruct (br_scope (fb_record (binding g0 id))) eqn:E; try done. split; [|tauto].
  intros [_ ?]. split; [|done]. apply Hn, needs_direct; [done|].
  unfold needs_directly. rewrite E. done.
Qed.

(** Nothing built once needs an execution, when the check reports nothing. *)
Lemma check_scopes_sound id : check_scopes g = [] → id < n →
  is_alias_or_failed (br_recipe (fb_record (binding g0 id))) = false →
  fb_effective (binding g id) = ESingleton → ¬ needs g0 id.
Proof.
  intros Hnil Hlt Hr He Hneed. destruct (pass_spec id Hlt) as ((_ & _ & Hrec & Hrole & _) & Hn & Hb).
  apply Hn in Hneed. rewrite Hneed, He in Hb.
  assert (Hin : binding g id ∈ g_bindings g).
  { destruct (lookup_lt_is_Some_2 (g_bindings g) id) as [b Hb']; [by rewrite pass_length|].
    rewrite (binding_Some g id b Hb'). by eapply list_elem_of_lookup_2. }
  assert (Herr : scope_errors g (binding g id) = []).
  { destruct (scope_errors g (binding g id)) as [|e l] eqn:E; [done|].
    assert (Hc : e ∈ check_scopes g).
    { unfold check_scopes. apply list_elem_of_bind. exists (binding g id). split; [rewrite E; left|done]. }
    rewrite Hnil in Hc. by apply not_elem_of_nil in Hc. }
  unfold scope_errors, scope_refused in Herr. rewrite Hrec, Hr, Hneed, Hrole in Herr.
  unfold built_as in Hb. destruct (br_scope (fb_record (binding g0 id))); try done.
  by destruct (bool_decide (fb_role (binding g0 id) = Provider)).
Qed.

(** A refused binding's report names a dependency path to the read that introduces the need. *)
Lemma violation_path id : id < n → scope_refused (binding g id) = true →
  (execution_path g id = [id] ∧ is_Some (direct_execution_edge g id)) ∨ good_path g id (execution_path g id).
Proof.
  intros Hlt Href. unfold scope_refused in Href. apply andb_true_iff in Href as [Hn Hk].
  destruct (pass_spec id Hlt) as ((_ & _ & Hrec & Hrole & Hed) & Hneed & _). apply Hneed in Hn.
  rewrite Hrec, Hrole in Hk.
  assert (Hcar : carries (binding g0 id) = false).
  { unfold carries. destruct (br_scope _); try done. by apply negb_false_iff. }
  assert (Hscope : br_scope (fb_record (binding g0 id)) ≠ KPerExecution) by by destruct (br_scope _).
  assert (Hex : ∀ x, needs g0 x → rtc (passes_to g id) id x → ∃ y, rtc (passes_to g id) id y ∧ path_reached g id y = true).
  { intros x Hx. induction Hx as [x Hxl Hd|x dep Hxl Hdep Hdn IH Hdc]; intros Hr.
    - exists x. split; [done|]. unfold path_reached, direct_execution_edge.
      destruct (pass_spec x Hxl) as ((_ & _ & _ & _ & Hxe) & Hxn & Hxb). rewrite Hxe.
      destruct (find_first _ _) eqn:Ef; [done|]. simpl. pose proof (proj2 (existsb_false _ _) (proj1 (find_first_None _ _) Ef)) as Hno.
      unfold needs_directly in Hd. rewrite Hno, orb_false_r in Hd. apply bool_decide_eq_true in Hd.
      rewrite bool_decide_eq_false_2 by (by intros ->). simpl. apply bool_decide_eq_true.
      rewrite Hxb. unfold built_as. by rewrite Hd.
    - assert (Hdl : dep < n) by by destruct Hdn.
      apply IH. eapply rtc_r; [exact Hr|]. split; [by rewrite pass_deps|]. split; [by apply pass_passes|].
      intros ->. congruence. }
  destruct (Hex id Hn ltac:(done)) as (y & Hry & Hy).
  destruct (execution_path_spec g needs_execution_wf id) as [[Hp [Hf|Hno]]|]; [|exfalso|by right].
  - left. split; [done|]. unfold path_reached in Hf. rewrite bool_decide_eq_true_2 in Hf by done.
    simpl in Hf. rewrite orb_false_r in Hf. by destruct (direct_execution_edge g id); [eexists|].
  - rewrite (Hno y Hry) in Hy. done.
Qed.
End Checks.
