(* ===== verification/InputsFacts.v ===== *)
(** * InputsFacts: the input check

    [input_reads] of [crates/ulo/src/graph/scopes.rs] finds every non-optional read of an execution
    input a handler reaches, and [check_inputs] reports exactly those whose transport does not
    seed them. *)

From S2P Require Import Prelude Text Key Graph WiringError Scopes.

Section Inputs.
Context (g : Graph) (Hwf : graph_wf g) (h : HandlerRecord).

(** The reads made in the handler's own name: its parameters' and those of its enhancer closures
    that are not built once. *)
Definition own_dependencies : list Dependencies :=
  hd_dependencies (hr_decl h)
  :: omap (λ dep, match dep with
       | EClosure c => if bool_decide (g_closures g !! cd_id c = Some ESingleton) then None else Some (cd_dependencies c)
       | EType _ => None
       end) (hd_enhancer_deps (hr_decl h)).

Definition own_reads : list Read := own_dependencies ≫= λ d, deps_list d ≫= dr_reads.

(** What the handler starts from. *)
Inductive handler_root : BindingId → Prop :=
  | root_controller : handler_root (hr_controller h)
  | root_role key id : key ∈ hd_role_keys (hr_decl h) → id ∈ collection g key → handler_root id
  | root_single read key id : read ∈ own_reads → rd_kind read = Single key →
      lookup g (hr_module h) key = Some (VBinding id) → handler_root id
  | root_collection read key id : read ∈ own_reads → rd_kind read = Collection key →
      id ∈ collection g key → handler_root id
  | root_enhancer key id : EType key ∈ hd_enhancer_deps (hr_decl h) →
      lookup g (hr_module h) key = Some (VBinding id) → handler_root id.

(** The bindings built inside the handler's execution. *)
Inductive handler_reaches : BindingId → Prop :=
  | reaches_root id : handler_root id → in_execution g id = true → handler_reaches id
  | reaches_dep id dep : handler_reaches id → dep ∈ construction_deps g id → in_execution g dep = true →
      handler_reaches dep.

(** The inputs read without [Option] on the way. *)
Inductive reads_input : KeyId → Prop :=
  | reads_own read key input : read ∈ own_reads → rd_kind read = Single key → rd_optional read = false →
      lookup g (hr_module h) key = Some (VInput input) → reads_input (key_id input)
  | reads_edge id e input : handler_reaches id → e ∈ fb_edges (binding g id) →
      ed_target e = TInput input → ed_optional e = false → reads_input (key_id input).

(** *** The record of reads *)

Definition recorded (w : input_walk) (k : KeyId) : Prop := ∃ r, r ∈ iw_reads w ∧ key_id (rd_input r) = k.
Definition seen_ok (w : input_walk) : Prop := ∀ k r, (k, r) ∈ iw_seen w → recorded w k.

Lemma record_read_spec w input reader steps : seen_ok w →
  seen_ok (record_read w input reader steps)
  ∧ ∀ k, recorded (record_read w input reader steps) k ↔ recorded w k ∨ k = key_id input.
Proof.
  intros Hok. unfold record_read. case_bool_decide as Hs.
  - split; [done|]. intros k. split; [by left|]. intros [?| ->]; [done|by eapply Hok].
  - set (w' := Build_input_walk _ _).
    assert (Hrec : ∀ k, recorded w' k ↔ recorded w k ∨ k = key_id input).
    { intros k. unfold recorded. simpl. split.
      - intros (r & [Hr| ->%list_elem_of_singleton]%elem_of_app & <-); [left; eauto|by right].
      - intros [(r & Hr & <-)| ->]; [exists r; set_solver|].
        exists {| rd_input := input; rd_steps := steps |}. set_solver. }
    split; [|done]. intros k r. simpl. rewrite elem_of_union, elem_of_singleton.
    intros [[= -> ->]|Hk]; apply Hrec; [by right|left; by eapply Hok].
Qed.

(** *** The roots *)

(** What a walk's state knows: the inputs recorded and the roots pushed. *)
Definition walk_fact (s : input_walk * list BindingId) (x : KeyId + BindingId) : Prop :=
  match x with inl k => recorded s.1 k | inr id => id ∈ s.2 end.

Definition read_fact (read : Read) (x : KeyId + BindingId) : Prop :=
  match rd_kind read, x with
  | Single key, inl k => rd_optional read = false
      ∧ ∃ input, lookup g (hr_module h) key = Some (VInput input) ∧ k = key_id input
  | Single key, inr id => lookup g (hr_module h) key = Some (VBinding id)
  | Collection key, inr id => id ∈ collection g key
  | _, _ => False
  end.

Lemma read_one_spec via d s read : seen_ok s.1 →
  seen_ok (read_one g (hr_module h) via d s read).1
  ∧ ∀ x, walk_fact (read_one g (hr_module h) via d s read) x ↔ walk_fact s x ∨ read_fact read x.
Proof.
  intros Hs. destruct s as [w roots]. simpl in Hs. unfold read_one, read_fact.
  assert (Hno : ∀ (s : input_walk * list BindingId) (F : KeyId + BindingId → Prop), (∀ x, ¬ F x) →
    ∀ x, walk_fact s x ↔ walk_fact s x ∨ F x) by (intros s F HF x; pose proof (HF x); tauto).
  destruct (rd_kind read) as [key|key| | |].
  2:{ split; [done|]. intros [k|i]; simpl; [tauto|]. by rewrite elem_of_app. }
  2-4: split; [done|]; apply Hno; intros x; simpl; tauto.
  destruct (lookup g (hr_module h) key) as [[id|input|l]|].
  - split; [done|]. intros [k|i]; simpl; [|rewrite elem_of_app, list_elem_of_singleton; naive_solver].
    naive_solver.
  - destruct (rd_optional read) eqn:Ho.
    + split; [done|]. apply Hno. intros [k|i]; naive_solver.
    + destruct (record_read_spec w input None (option_list via ++ [dependency_text d])%list Hs) as [Hok Hr].
      split; [done|]. intros [k|i]; simpl; [rewrite Hr|]; naive_solver.
  - split; [done|]. apply Hno. intros [k|i]; naive_solver.
  - split; [done|]. apply Hno. intros [k|i]; naive_solver.
Qed.

Lemma read_roots_spec d via s : seen_ok s.1 →
  seen_ok (read_roots g (hr_module h) d via s).1
  ∧ ∀ x, walk_fact (read_roots g (hr_module h) d via s) x ↔
      walk_fact s x ∨ ∃ read, read ∈ deps_list d ≫= dr_reads ∧ read_fact read x.
Proof.
  intros Hs. unfold read_roots.
  destruct (fold_adds (λ s d, foldl (read_one g (hr_module h) via d) s (dr_reads d)) (λ s, seen_ok s.1) walk_fact
    (λ d x, ∃ read, read ∈ dr_reads d ∧ read_fact read x) (deps_list d)) with (s := s) as [Hok Hx]; [|exact Hs|].
  2:{ split; [exact Hok|]. intros x. rewrite Hx. setoid_rewrite list_elem_of_bind. clear Hok Hx.
      split; (intros [|Hr]; [by left|right]).
      - destruct Hr as (a & Ha & read & Hr & Hf). exists read. split; [|done]. by exists a.
      - destruct Hr as (read & (a & Hr & Ha) & Hf). exists a. split; [done|]. by exists read. }
  intros s1 dep _ Hs1. eapply (fold_adds _ (λ s, seen_ok s.1) walk_fact read_fact); [|done].
  intros s2 read _ Hw. by apply read_one_spec.
Qed.

(** What one enhancer declaration adds. *)
Definition enhancer_fact (dep : EnhancerDep) (x : KeyId + BindingId) : Prop :=
  match dep with
  | EType key => ∃ id, x = inr id ∧ lookup g (hr_module h) key = Some (VBinding id)
  | EClosure c => g_closures g !! cd_id c ≠ Some ESingleton
      ∧ ∃ read, read ∈ deps_list (cd_dependencies c) ≫= dr_reads ∧ read_fact read x
  end.

Lemma own_reads_spec read : read ∈ own_reads ↔
  read ∈ deps_list (hd_dependencies (hr_decl h)) ≫= dr_reads
  ∨ ∃ c, EClosure c ∈ hd_enhancer_deps (hr_decl h) ∧ g_closures g !! cd_id c ≠ Some ESingleton
      ∧ read ∈ deps_list (cd_dependencies c) ≫= dr_reads.
Proof.
  unfold own_reads, own_dependencies. rewrite bind_cons, elem_of_app.
  apply or_iff_compat_l. rewrite list_elem_of_bind. split.
  - intros (d & Hr & Hd). apply list_elem_of_omap in Hd as ([key|c] & Hin & Hd); [done|].
    case_bool_decide; [done|]. injection Hd as <-. eauto.
  - intros (c & Hin & Hc & Hr). exists (cd_dependencies c). split; [done|].
    apply list_elem_of_omap. exists (EClosure c). split; [done|]. by rewrite bool_decide_eq_false_2.
Qed.

Lemma walk_roots_facts :
  seen_ok (walk_roots g h).1
  ∧ ∀ x, walk_fact (walk_roots g h) x ↔
      (∃ id, x = inr id ∧ (id = hr_controller h ∨ ∃ key, key ∈ hd_role_keys (hr_decl h) ∧ id ∈ collection g key))
      ∨ (∃ read, read ∈ own_reads ∧ read_fact read x)
      ∨ ∃ key id, EType key ∈ hd_enhancer_deps (hr_decl h) ∧ x = inr id
          ∧ lookup g (hr_module h) key = Some (VBinding id).
Proof.
  unfold walk_roots. set (s0 := ({| iw_seen := ∅; iw_reads := [] |}, _)).
  assert (H0 : seen_ok s0.1) by (intros k r; set_solver).
  destruct (read_roots_spec (hd_dependencies (hr_decl h)) None s0 H0) as [H1 Hf1].
  set (s1 := read_roots _ _ _ _ _) in *. clearbody s1.
  destruct (fold_adds (λ s dep,
    match dep with
    | EType key =>
        match lookup g (hr_module h) key with
        | Some (VBinding id) => (s.1, (s.2 ++ [id])%list)
        | _ => s
        end
    | EClosure c =>
        if bool_decide (g_closures g !! cd_id c = Some ESingleton) then s
        else read_roots g (hr_module h) (cd_dependencies c) (Some "enhancer closure"%string) s
    end) (λ s, seen_ok s.1) walk_fact enhancer_fact (hd_enhancer_deps (hr_decl h))) with (s := s1)
    as [H2 Hf2]; [|done|].
  - intros s [key|c] _ Hs; simpl.
    + destruct (lookup g (hr_module h) key) as [[id|input|l]|];
        (split; [done|]; intros [k|i]; simpl; [naive_solver|]); [|naive_solver..].
      rewrite elem_of_app, list_elem_of_singleton. naive_solver.
    + case_bool_decide as Hc; [split; [done|]; intros x; tauto|].
      destruct (read_roots_spec (cd_dependencies c) (Some "enhancer closure"%string) s Hs) as [Hok Hx].
      split; [done|]. intros x. rewrite Hx. tauto.
  - split; [done|]. intros x. rewrite Hf2, Hf1.
    assert (Hs0 : walk_fact s0 x ↔ ∃ id, x = inr id ∧ (id = hr_controller h
      ∨ ∃ key, key ∈ hd_role_keys (hr_decl h) ∧ id ∈ collection g key)).
    { destruct x as [k|i]; simpl.
      - split; [|naive_solver]. by intros (r & ?%not_elem_of_nil & _).
      - rewrite elem_of_cons, list_elem_of_bind. split.
        + intros [->|(key & ? & ?)]; eexists; (split; [done|]); [by left|right; eauto].
        + intros (? & [= <-] & [->|(key & ? & ?)]); [by left|right; eauto]. }
    rewrite Hs0. clear. setoid_rewrite own_reads_spec. split.
    + intros [[|(read & Hr & Hx)]|([key|c] & Hin & He)]; [by left|right; left; exists read; tauto| |].
      * destruct He as (id & -> & Hl). right. right. eauto.
      * destruct He as (Hc & read & Hr & Hx). right. left. exists read. eauto 10.
    + intros [|[(read & [Hr|(c & Hin & Hc & Hr)] & Hx)|(key & id & Hin & -> & Hl)]].
      * by left; left.
      * left. right. eauto.
      * right. exists (EClosure c). split; [done|]. split; [done|]. eauto.
      * right. exists (EType key). split; [done|]. simpl. eauto.
Qed.

Lemma walk_roots_inputs k : recorded (walk_roots g h).1 k ↔
  ∃ read key input, read ∈ own_reads ∧ rd_kind read = Single key ∧ rd_optional read = false
    ∧ lookup g (hr_module h) key = Some (VInput input) ∧ k = key_id input.
Proof.
  destruct walk_roots_facts as [_ Hf]. specialize (Hf (inl k)). simpl in Hf. rewrite Hf. unfold read_fact. split.
  - intros [(? & ? & _)|[(read & Hr & Hx)|(? & ? & _ & ? & _)]]; [done| |done].
    destruct (rd_kind read) as [key|key| | |] eqn:Hk; try done. destruct Hx as (Ho & input & Hl & ->). eauto 10.
  - intros (read & key & input & Hr & Hk & Ho & Hl & ->). right. left. exists read. rewrite Hk. eauto.
Qed.

Lemma walk_roots_roots id : id ∈ (walk_roots g h).2 ↔ handler_root id.
Proof.
  destruct walk_roots_facts as [_ Hf]. specialize (Hf (inr id)). simpl in Hf. rewrite Hf. unfold read_fact. split.
  - intros [(i & [= <-] & [->|(key & ? & ?)])|[(read & Hr & Hx)|(key & i & Hin & [= <-] & Hl)]].
    + constructor.
    + by eapply root_role.
    + destruct (rd_kind read) as [key|key| | |] eqn:Hk; try done; [by eapply root_single|by eapply root_collection].
    + by eapply root_enhancer.
  - intros [|key i Hk Hi|read key i Hr Hk Hl|read key i Hr Hk Hi|key i Hin Hl].
    + left. eauto.
    + left. eauto 10.
    + right. left. exists read. by rewrite Hk.
    + right. left. exists read. by rewrite Hk.
    + right. right. eauto.
Qed.

(** *** The walk *)

Lemma push_all from l : ∀ parent queue, let '(parent', queue') := foldl (push_new g from) (parent, queue) l in
  (∀ v, is_Some (parent' !! v) ↔ is_Some (parent !! v) ∨ (v ∈ l ∧ in_execution g v = true))
  ∧ (∀ v, v ∈ queue' ↔ v ∈ queue ∨ (¬ is_Some (parent !! v) ∧ v ∈ l ∧ in_execution g v = true))
  ∧ length queue' + size parent = length queue + size parent'.
Proof.
  induction l as [|x l IH]; intros parent queue; simpl.
  { split; [|split; [|done]]; intros v; rewrite elem_of_nil; tauto. }
  destruct (in_execution g x) eqn:Hx; simpl.
  2:{ specialize (IH parent queue). destruct (foldl _ _ _) as [parent' queue'].
      destruct IH as (H1 & H2 & H3). split; [|split; [|done]]; intros v; rewrite ?H1, ?H2, elem_of_cons.
      all: destruct (decide (v = x)) as [->|]; [rewrite Hx; intuition congruence|tauto]. }
  destruct (parent !! x) as [y|] eqn:Hp; simpl.
  { specialize (IH parent queue).
    destruct (foldl _ _ _) as [parent' queue']. destruct IH as (H1 & H2 & H3).
    assert (Hs : is_Some (parent !! x)) by (rewrite Hp; by eexists).
    split; [|split; [|done]]; intros v; rewrite ?H1, ?H2, elem_of_cons.
    all: destruct (decide (v = x)) as [->|]; tauto. }
  specialize (IH (<[x := from]> parent) (queue ++ [x])%list).
  destruct (foldl _ _ _) as [parent' queue']. destruct IH as (H1 & H2 & H3).
  assert (Hs : ¬ is_Some (parent !! x)) by (rewrite Hp; by intros [? ?]).
  split; [|split].
  - intros v. rewrite H1, elem_of_cons. destruct (decide (v = x)) as [->|].
    + rewrite lookup_insert_eq. split; [tauto|]. intros _. left. by eexists.
    + rewrite lookup_insert_ne by done. tauto.
  - intros v. rewrite H2, elem_of_cons, elem_of_app, list_elem_of_singleton. destruct (decide (v = x)) as [->|].
    + tauto.
    + rewrite lookup_insert_ne by done. tauto.
  - rewrite map_size_insert_None in H3 by done. rewrite length_app in H3. simpl in H3. lia.
Qed.

Definition edge_read (id : BindingId) (k : KeyId) : Prop :=
  ∃ e input, e ∈ fb_edges (binding g id) ∧ ed_target e = TInput input ∧ ed_optional e = false ∧ k = key_id input.

Lemma record_edges_spec parent node w : seen_ok w →
  seen_ok (record_edges g parent node w)
  ∧ ∀ k, recorded (record_edges g parent node w) k ↔ recorded w k ∨ edge_read node k.
Proof.
  intros Hw. unfold record_edges.
  destruct (fold_adds (λ w e,
    match ed_target e with
    | TInput input =>
        if ed_optional e then w
        else record_read w input (Some node)
               ((scoped_label g <$> chain parent node) ++ [dependency_step g node (ed_dependency e)])%list
    | _ => w
    end) seen_ok recorded (λ e k, ∃ input, ed_target e = TInput input ∧ ed_optional e = false ∧ k = key_id input)
    (fb_edges (binding g node))) with (s := w) as [Hok Hk]; [|done|].
  - intros w1 e _ Hw1. destruct (ed_target e) as [|key|input| |]; try (split; [done|]; naive_solver).
    destruct (ed_optional e); [split; [done|]; naive_solver|].
    destruct (record_read_spec w1 input (Some node)
      ((scoped_label g <$> chain parent node) ++ [dependency_step g node (ed_dependency e)])%list Hw1) as [Hok Hr].
    split; [done|]. intros k. rewrite Hr. naive_solver.
  - split; [done|]. intros k. rewrite Hk. unfold edge_read. naive_solver.
Qed.

Record running (done : list BindingId) (s : run_state) : Prop := {
  rn_known : ∀ v, v ∈ done ++ rs_queue s ↔ is_Some (rs_parent s !! v);
  rn_sound : ∀ v, is_Some (rs_parent s !! v) → handler_reaches v;
  rn_roots : ∀ v, handler_root v → in_execution g v = true → is_Some (rs_parent s !! v);
  rn_closed : ∀ u v, u ∈ done → v ∈ construction_deps g u → in_execution g v = true → is_Some (rs_parent s !! v);
  rn_seen : seen_ok (rs_walk s);
  rn_reads : ∀ k, recorded (rs_walk s) k ↔ recorded (walk_roots g h).1 k ∨ ∃ u, u ∈ done ∧ edge_read u k;
}.

Lemma run_step_spec done s s' : running done s → run_step g s = Some s' →
  (∃ done', running done' s')
  ∧ S (length (rs_queue s') + size (rs_parent s)) = length (rs_queue s) + size (rs_parent s').
Proof.
  intros [H1 H2 H3 H4 H5 H6]. unfold run_step. destruct (rs_queue s) as [|node queue] eqn:Hq; [done|].
  pose proof (push_all (Some node) (construction_deps g node) (rs_parent s) queue) as Hpush.
  destruct (foldl _ _ _) as [parent' queue']. destruct Hpush as (P1 & P2 & P3).
  intros [= <-]. simpl. split; [|lia]. exists (done ++ [node]).
  assert (Hnode : is_Some (rs_parent s !! node)) by (apply H1; set_solver).
  destruct (record_edges_spec (rs_parent s) node (rs_walk s) H5) as [Hok Hr].
  split; simpl.
  - intros v. specialize (H1 v). specialize (P1 v). specialize (P2 v). rewrite elem_of_app, elem_of_cons in H1.
    rewrite !elem_of_app, list_elem_of_singleton. destruct (decide (is_Some (rs_parent s !! v))); tauto.
  - intros v [Hv|[Hv Hx]]%P1; [by apply H2|]. eapply reaches_dep; [by apply H2, Hnode|done..].
  - intros v Hv Hx. apply P1. left. by apply H3.
  - intros u v. rewrite elem_of_app, list_elem_of_singleton. intros [Hu| ->] Hv Hx; apply P1; [left|by right].
    by eapply H4.
  - done.
  - intros k. rewrite Hr, H6. setoid_rewrite elem_of_app. setoid_rewrite list_elem_of_singleton. naive_solver.
Qed.

Context (Hcontroller : hr_controller h < length (g_bindings g)).

Lemma handler_root_range id : handler_root id → id < length (g_bindings g).
Proof.
  destruct 1; [done|by eapply collection_range|by eapply wf_visible|by eapply collection_range|by eapply wf_visible].
Qed.

Lemma handler_reaches_range id : handler_reaches id → id < length (g_bindings g).
Proof. induction 1; [by apply handler_root_range|by eapply construction_deps_range]. Qed.

Lemma running_size done s : running done s → size (rs_parent s) ≤ length (g_bindings g).
Proof.
  intros H. rewrite <- (length_seq (length (g_bindings g)) 0), <- size_dom.
  rewrite <- (size_list_to_set (C := gset nat) (seq 0 (length (g_bindings g)))) by apply NoDup_seq.
  apply subseteq_size. intros v Hv%elem_of_dom.
  apply elem_of_list_to_set, elem_of_seq. apply (rn_sound _ _ H), handler_reaches_range in Hv. lia.
Qed.

Lemma input_reads_spec k : (∃ r, r ∈ input_reads g h ∧ key_id (rd_input r) = k) ↔ reads_input k.
Proof.
  unfold input_reads. pose proof walk_roots_inputs as Hin. pose proof walk_roots_roots as Hro.
  destruct walk_roots_facts as [Hok _]. destruct (walk_roots g h) as [w roots] eqn:Ew. simpl in *.
  pose proof (push_all None roots ∅ []) as Hpush. destruct (foldl _ _ _) as [parent queue].
  destruct Hpush as (P1 & P2 & P3). set (s0 := Build_run_state _ _ _).
  assert (H0 : running [] s0).
  { split; simpl; try done.
    - intros v. rewrite P2, P1, elem_of_nil.
      assert (¬ is_Some ((∅ : gmap BindingId (option BindingId)) !! v)) by by intros [? ?]. tauto.
    - intros v [[? ?]|[Hv Hx]]%P1; [done|]. apply reaches_root; [by apply Hro|done].
    - intros v Hv Hx. apply P1. right. by rewrite Hro.
    - by intros u v ?%not_elem_of_nil.
    - intros j. rewrite Ew. simpl. split; [by left|]. by intros [|(u & ?%not_elem_of_nil & _)]. }
  set (s := iterate _ _ _).
  set (left := λ s, length (rs_queue s) + length (g_bindings g) - size (rs_parent s)).
  assert (Hstep : ∀ s s', (∃ done, running done s) → run_step g s = Some s' →
    (∃ done, running done s') ∧ left s' < left s).
  { intros s1 s2 [done1 H1] Hs. destruct (run_step_spec done1 s1 s2 H1 Hs) as [[done2 H2] Hm].
    split; [by exists done2|]. pose proof (running_size _ _ H1). pose proof (running_size _ _ H2).
    unfold left. lia. }
  assert (H : ∃ done, running done s).
  { apply (iterate_invariant (run_step g) (λ s, ∃ done, running done s)); [|by exists []].
    intros s1 s2 H1 Hs. by destruct (Hstep s1 s2 H1 Hs). }
  assert (Hdone : rs_queue s = []).
  { assert (Hn : run_step g s = None).
    { apply (iterate_done (run_step g) (λ s, ∃ done, running done s) left); [done|by exists []|].
      unfold left. simpl. rewrite map_size_empty in P3. simpl in P3. lia. }
    unfold run_step in Hn. destruct (rs_queue s); [done|]. by destruct (foldl _ _ _). }
  destruct H as [done H]. pose proof (rn_reads _ _ H k) as Hk. rewrite Ew in Hk. simpl in Hk.
  change (recorded (rs_walk s) k ↔ reads_input k). rewrite Hk, Hin.
  assert (Hreach : ∀ v, v ∈ done ↔ handler_reaches v).
  { intros v. pose proof (rn_known _ _ H) as Hkn. rewrite Hdone, app_nil_r in Hkn. split.
    - intros Hv. by apply (rn_sound _ _ H), Hkn.
    - induction 1 as [v Hv Hx|u v _ IH Hv Hx]; apply Hkn; [by apply (rn_roots _ _ H)|by eapply (rn_closed _ _ H)]. }
  split.
  - intros [(read & key & input & ? & ? & ? & ? & ->)|(u & Hu%Hreach & e & input & ? & ? & ? & ->)].
    + by eapply reads_own.
    + by eapply reads_edge.
  - intros [read key input ? ? ? ?|u e input Hu ? ? ?]; [left; eauto 10|right].
    exists u. split; [by apply Hreach|]. by exists e, input.
Qed.
End Inputs.

(** The handler's transport seeds the input. *)
Definition seeded (g : Graph) (h : HandlerRecord) (k : KeyId) : Prop :=
  ∀ decl, g_inputs g !! k = Some decl →
    in_seeders decl = [] ∨ ∃ s, s ∈ in_seeders decl ∧ tn_id s = tn_id (hd_transport (hr_decl h)).

Lemma input_error_None g h read :
  input_error g h read = None ↔ seeded g h (key_id (rd_input read)).
Proof.
  unfold input_error, seeded. destruct (g_inputs g !! _) as [decl|]; [|naive_solver].
  destruct (existsb _ _) eqn:Ex.
  - split; [|done]. intros _ d [= <-]. right. apply existsb_elem in Ex as (s & Hs & E).
    exists s. split; [done|]. unfold type_name_eqb in E. apply bool_decide_eq_true in E. done.
  - rewrite existsb_false in Ex. destruct (in_seeders decl) as [|s l] eqn:Es; [naive_solver|].
    split; [done|]. intros H. destruct (H decl eq_refl) as [|(x & Hx & E)]; [congruence|].
    rewrite Es in Hx. specialize (Ex x Hx). unfold type_name_eqb in Ex.
    apply bool_decide_eq_false in Ex. congruence.
Qed.

(** The check reports nothing exactly when every input a handler reads on the way is seeded. *)
Lemma check_inputs_spec g : graph_wf g →
  check_inputs g = [] ↔ ∀ h, h ∈ g_handlers g → ∀ k, reads_input g h k → seeded g h k.
Proof.
  intros Hwf. unfold check_inputs. split.
  - intros Hnil h Hh k Hk. apply input_reads_spec in Hk as (r & Hr & <-); [|done|by apply wf_handlers].
    apply input_error_None. destruct (input_error g h r) as [e|] eqn:E; [|done].
    assert (Hin : e ∈ g_handlers g ≫= λ h, omap (input_error g h) (input_reads g h)).
    { apply list_elem_of_bind. exists h. split; [|done]. apply list_elem_of_omap. eauto. }
    rewrite Hnil in Hin. by apply not_elem_of_nil in Hin.
  - intros Hall. destruct (_ ≫= _) as [|e l] eqn:E; [done|]. exfalso.
    assert (Hin : e ∈ g_handlers g ≫= λ h, omap (input_error g h) (input_reads g h)) by (rewrite E; left).
    apply list_elem_of_bind in Hin as (h & Hin & Hh). apply list_elem_of_omap in Hin as (r & Hr & He).
    assert (Hn : input_error g h r = None); [|congruence].
    apply input_error_None, Hall; [done|]. apply input_reads_spec; [done|by apply wf_handlers|eauto].
Qed.
