(* ===== verification/Visibility.v ===== *)
(** * Visibility: what each module sees

    [crates/ulo/src/graph/visibility.rs]: the tables, the re-export rounds, and every injection
    point resolved against its module's table. A pass that pushes errors and marks keys reported
    threads both. A [HashMap] is iterated in the order of [map_to_list]; Rust leaves that order
    open, and only which of two equally good hints is printed depends on it. *)

From S2P Require Import Prelude Text Key Graph WiringError.
Local Open Scope string_scope.
Local Open Scope nat_scope.

(** ** Sources *)

Definition answers_to (g : Graph) (key : Key) (id : BindingId) : bool :=
  let record := fb_record (binding g id) in
  bool_decide (br_kind record = BSingle) && existsb (key_eqb key) (keys record).

Definition own_binding (g : Graph) (m : ModuleId) (key : Key) : option BindingId :=
  find_first (answers_to g key) (fm_bindings (module g m)).

Definition exporters (g : Graph) (m : ModuleId) : list ModuleId :=
  (fm_imports (module g m) ++ (fm_id <$> filterb fm_global (g_modules g)))%list.

Definition exported_by (g : Graph) (m : ModuleId) : list (Key * BindingId) := default [] (g_exported g !! m).

(** [if !list.iter().any(|&(_, seen)| seen == id) { list.push((exporter, id)) }]. *)
Definition push_source (exporter : ModuleId) (found : list (ModuleId * BindingId)) (id : BindingId)
    : list (ModuleId * BindingId) :=
  if existsb (λ s, bool_decide (s.2 = id)) found then found else (found ++ [(exporter, id)])%list.

Definition sources (g : Graph) (m : ModuleId) (key : Key) : list (ModuleId * BindingId) :=
  foldl (λ found exporter,
      foldl (λ found e, if key_eqb e.1 key then push_source exporter found e.2 else found)
        found (exported_by g exporter))
    (option_list ((λ id, (m, id)) <$> own_binding g m key)) (exporters g m).

(** ** The tables *)

(** The [sources] map of [table_for], each list with the key it was entered under. *)
Abbreviation SourceMap := (gmap KeyId (Key * list (ModuleId * BindingId))) (only parsing).

Definition enter_own (m : ModuleId) (id : BindingId) (t : SourceMap) (key : Key) : SourceMap :=
  match t !! key_id key with
  | Some _ => t
  | None => <[key_id key := (key, [(m, id)])]> t
  end.

Definition enter_export (exporter : ModuleId) (t : SourceMap) (e : Key * BindingId) : SourceMap :=
  let '(entered, list) := default (e.1, []) (t !! key_id e.1) in
  <[key_id e.1 := (entered, push_source exporter list e.2)]> t.

(** A module's own binding, under each of its keys. *)
Definition enter_binding (g : Graph) (m : ModuleId) (t : SourceMap) (id : BindingId) : SourceMap :=
  let record := fb_record (binding g id) in
  if bool_decide (br_kind record = BSingle) then foldl (enter_own m id) t (keys record) else t.

Definition source_map (g : Graph) (m : ModuleId) : SourceMap :=
  let own := foldl (enter_binding g m) ∅ (fm_bindings (module g m)) in
  foldl (λ t exporter, foldl (enter_export exporter) t (exported_by g exporter)) own (exporters g m).

Definition visible_of (list : list (ModuleId * BindingId)) : Visible :=
  match list with
  | [(_, id)] => VBinding id
  | _ => VAmbiguous list
  end.

Definition table_for (g : Graph) (m : ModuleId) : VisibilityTable :=
  ((λ kl : Key * list (ModuleId * BindingId), (kl.1, visible_of kl.2)) <$> source_map g m)
  ∪ ((λ decl, (in_key decl, VInput (in_key decl))) <$> g_inputs g).

(** ** The export rounds *)

Definition push_export (exported : list (list (Key * BindingId))) (e : ModuleId * Key * BindingId)
    : list (list (Key * BindingId)) :=
  let '(m, key, id) := e in alter (λ l, (l ++ [(key, id)])%list) m exported.

(** The keys a module exports of its own bindings. *)
Definition own_exports (g : Graph) (declared : Declared) : list (ModuleId * Key * BindingId) :=
  omap (λ me : ModuleId * ExportRecord,
    let '(m, e) := me in
    if ex_reexport e then None
    else (λ id, (m, boundary_key (fm_keyed (module g m)) (ex_key e), id)) <$> own_binding g m (ex_key e))
    (dc_exports declared).

(** What a pending re-export resolves to in this round. *)
Definition resolve_reexport (g : Graph) (me : ModuleId * ExportRecord) : option (ModuleId * Key * BindingId) :=
  let '(m, e) := me in
  match sources g m (ex_key e) with
  | [(_, id)] => Some (m, boundary_key (fm_keyed (module g m)) (ex_key e), id)
  | _ => None
  end.

(** One round of the [loop]: [None] when nothing was resolved. *)
Definition reexport_round (g : Graph) (s : list (ModuleId * ExportRecord) * list (list (Key * BindingId)))
    : option (list (ModuleId * ExportRecord) * list (list (Key * BindingId))) :=
  let '(pending, exported) := s in
  let view := set_tables g (g_visibility g) exported in
  let resolved := omap (resolve_reexport view) pending in
  let pending := filterb (λ me, bool_decide (resolve_reexport view me = None)) pending in
  if bool_decide (resolved = []) then None
  else Some (pending, foldl push_export exported resolved).

(** Every round but the last resolves one at least. *)
Definition build_tables (g : Graph) (declared : Declared) : Graph :=
  let count := length (g_modules g) in
  let g := set_tables g (resize count ∅ (g_visibility g)) (resize count [] (g_exported g)) in
  let g := set_tables g (g_visibility g) (foldl push_export (g_exported g) (own_exports g declared)) in
  let pending := filterb (λ me, ex_reexport me.2) (dc_exports declared) in
  let exported := (iterate (reexport_round g) (length pending) (pending, g_exported g)).2 in
  let g := set_tables g (g_visibility g) exported in
  set_tables g
    (foldl (λ vis index, <[index := table_for g index]> vis) (g_visibility g)
       (seq (dc_first_module declared) (count - dc_first_module declared))) exported.

(** ** Hints *)

(** The order of [str]: its bytes, the first that differ deciding. *)
Fixpoint str_leb (a b : str) : bool :=
  match a, b with
  | [], _ => true
  | _, [] => false
  | x :: a, y :: b =>
      let '(m, n) := (N_of_ascii x, N_of_ascii y) in
      bool_decide (m < n)%N || (bool_decide (m = n) && str_leb a b)
  end.

(** [sort_by_key], by the order of the keys: an insertion sort, stable. *)
Fixpoint insert_by {A} (le : A → A → bool) (x : A) (l : list A) : list A :=
  match l with
  | [] => [x]
  | y :: l' => if le y x then y :: insert_by le x l' else x :: l
  end.
Definition sort_by {A} (le : A → A → bool) (l : list A) : list A := foldl (λ acc x, insert_by le x acc) [] l.

Definition full_name (k : Key) : string := tn_name (key_ty k).

Definition auto_suffixes : list string := [" + core::marker::Send"; " + core::marker::Sync"; " + Send"; " + Sync"].

(** [strip_auto_traits]: each round shortens the name. *)
Fixpoint strip_auto_loop (fuel : nat) (name : str) : str :=
  match fuel with
  | 0 => name
  | S fuel =>
      match find_map (λ suffix, strip_suffix (str_of suffix) name) auto_suffixes with
      | Some rest => strip_auto_loop fuel rest
      | None => name
      end
  end.
Definition strip_auto_traits (name : string) : string :=
  string_of (strip_auto_loop (length (str_of name)) (str_of name)).

Definition two_versions (key other : Key) : bool :=
  negb (bool_decide (key_type_id key = key_type_id other)) && bool_decide (full_name key = full_name other).

Definition spelled_alike (key other : Key) : bool :=
  bool_decide (qualifier_id key = qualifier_id other)
  && (two_versions key other
      || (negb (bool_decide (full_name key = full_name other))
          && bool_decide (short_type_name (strip_auto_traits (full_name key))
                          = short_type_name (strip_auto_traits (full_name other))))).

Definition near_leb (missing : Key) (a b : Key * ModuleId) : bool :=
  match negb (two_versions a.1 missing), negb (two_versions b.1 missing) with
  | false, true => true
  | true, false => false
  | _, _ => str_leb (str_of (full_name a.1)) (str_of (full_name b.1))
  end.

Definition near_spelling (g : Graph) (m : ModuleId) (missing : Key) : option (Key * ModuleId) :=
  let near key := spelled_alike key missing in
  let visible := omap (λ e : KeyId * (Key * Visible),
    let '(_, (key, v)) := e in
    if near key then
      match v with
      | VBinding id => Some (key, fb_origin (binding g id))
      | VAmbiguous list => (λ s : ModuleId * BindingId, (key, s.1)) <$> head list
      | VInput _ => None
      end
    else None) (map_to_list (default ∅ (g_visibility g !! m) : VisibilityTable)) in
  match sort_by (near_leb missing) visible with
  | found :: _ => Some found
  | [] =>
      let anywhere := g_bindings g ≫= λ b, (λ key, (key, fb_origin b)) <$> keys (fb_record b) in
      match find_first (λ km, near km.1 && two_versions km.1 missing) anywhere with
      | Some found => Some found
      | None => find_first (λ km, near km.1) anywhere
      end
  end.

Definition own_near_spelling (g : Graph) (m : ModuleId) (exported : Key) : option Key :=
  find_map (λ id,
    let record := fb_record (binding g id) in
    if bool_decide (br_kind record = BSingle)
    then find_first (λ key, spelled_alike key exported) (keys record)
    else None) (fm_bindings (module g m)).

(** ** Injection points *)

(** The [errors] and [reported] a pass carries. *)
Record report := { rp_errors : list WiringError; rp_reported : gset (ModuleId * KeyId) }.

Definition push_error (r : report) (e : WiringError) : report :=
  {| rp_errors := (rp_errors r ++ [e])%list; rp_reported := rp_reported r |}.
Definition mark_reported (r : report) (m : ModuleId) (key : Key) : report :=
  {| rp_errors := rp_errors r; rp_reported := {[(m, key_id key)]} ∪ rp_reported r |}.

Definition ambiguous_sources (g : Graph) (l : list (ModuleId * BindingId)) : list (ModuleName * Location) :=
  (λ s : ModuleId * BindingId, (module_name g s.1, br_location (fb_record (binding g s.2)))) <$> l.

Definition check_key (g : Graph) (m : ModuleId) (key : Key) (optional : bool) (consumer : string) (r : report)
    : option EdgeTarget * report :=
  match lookup g m key with
  | Some (VBinding id) => (Some (TBinding id), r)
  | Some (VInput input) => (Some (TInput input), r)
  | Some (VAmbiguous l) =>
      (None, push_error (mark_reported r m key)
               (Ambiguous (key_name_of key BSingle) consumer (module_name g m) (ambiguous_sources g l)))
  | None =>
      (None,
       if optional then r
       else push_error r (Missing (key_name_of key BSingle) consumer (module_name g m)
              ((λ nm : Key * ModuleId, (key_name_of nm.1 BSingle, module_name g nm.2)) <$> near_spelling g m key)))
  end.

(** One read of one of a binding's dependencies. *)
Definition edge_of_read (g : Graph) (b : FrozenBinding) (index : nat) (s : list Edge * report) (read : Read)
    : list Edge * report :=
  let '(edges, r) := s in
  let '(target, r) :=
    match rd_kind read with
    | Single key => check_key g (fb_origin b) key (rd_optional read) (consumer g (fb_id b) index) r
    | Collection key => (Some (TCollection key), r)
    | Extension _ | Execution => (Some TExecution, r)
    | Module => (Some TModule, r)
    end in
  (match target with
   | Some target => (edges ++ [{| ed_target := target; ed_dependency := index; ed_optional := rd_optional read |}])%list
   | None => edges
   end, r).

Definition binding_edges (g : Graph) (id : BindingId) (r : report) : list Edge * report :=
  let b := binding g id in
  foldl (λ s di, foldl (edge_of_read g b di.1) s (dr_reads di.2))
    ([], r) (imap (λ index d, (index, d)) (deps_list (br_dependencies (fb_record b)))).

Definition check_dependencies (g : Graph) (m : ModuleId) (owner : string) (r : report) (d : Dependencies) : report :=
  foldl (λ r dep, foldl (λ r read,
    match rd_kind read with
    | Single key =>
        (check_key g m key (rd_optional read) (owner ++ " (" ++ dependency_label (dr_label dep) ++ ")") r).2
    | _ => r
    end) r (dr_reads dep)) r (deps_list d).

(** The first loop of [resolve_dependencies]: each new binding's edges. Resolving reads no edge, so
    every binding is resolved against the graph as it was. *)
Definition resolve_bindings (g : Graph) (first : nat) (r : report) : Graph * report :=
  foldl (λ gr index,
    let '(edges, r) := binding_edges gr.1 index gr.2 in
    (set_bindings gr.1 (alter (λ b, set_edges b edges) index (g_bindings gr.1)), r))
  (g, r) (seq first (length (g_bindings g) - first)).

Definition check_handler (g : Graph) (r : report) (h : HandlerRecord) : report :=
  let name := handler_name g h in
  let controller := record_key (fb_record (binding g (hr_controller h))) in
  let r :=
    match lookup g (hr_module h) controller with
    | Some (VAmbiguous l) =>
        if bool_decide ((hr_module h, key_id controller) ∈ rp_reported r) then r
        else push_error (mark_reported r (hr_module h) controller)
               (Ambiguous (key_name_of controller BSingle) (name ++ " (its controller)")
                  (module_name g (hr_module h)) (ambiguous_sources g l))
    | _ => r
    end in
  let r := check_dependencies g (hr_module h) name r (hd_dependencies (hr_decl h)) in
  foldl (λ r dep,
    match dep with
    | EType key =>
        (check_key g (hr_module h) key false
           (name ++ " (enhancer `" ++ short_type_name (full_name key) ++ "`)") r).2
    | EClosure c => check_dependencies g (hr_module h) (name ++ " (enhancer closure)") r (cd_dependencies c)
    end) r (hd_enhancer_deps (hr_decl h)).

Definition opt_str_leb (a b : option string) : bool :=
  match a, b with
  | None, _ => true
  | Some _, None => false
  | Some a, Some b => str_leb (str_of a) (str_of b)
  end.

Definition unread_leb (a b : Key * list (ModuleId * BindingId)) : bool :=
  if bool_decide (full_name a.1 = full_name b.1)
  then opt_str_leb (qualifier_name a.1) (qualifier_name b.1)
  else str_leb (str_of (full_name a.1)) (str_of (full_name b.1)).

(** The sweep of the root's table. *)
Definition sweep_root (g : Graph) (r : report) : report :=
  let unread := omap (λ e : KeyId * (Key * Visible),
    match e.2.2 with
    | VAmbiguous l => if bool_decide ((g_root g, e.1) ∈ rp_reported r) then None else Some (e.2.1, l)
    | _ => None
    end) (map_to_list (default ∅ (g_visibility g !! g_root g) : VisibilityTable)) in
  foldl (λ r e, push_error r
    (Ambiguous (key_name_of e.1 BSingle) "a lookup that names no module" (module_name g (g_root g))
       (ambiguous_sources g e.2))) r (sort_by unread_leb unread).

Definition resolve_dependencies (g : Graph) (declared : Declared) : Graph * list WiringError :=
  let '(g, r) := resolve_bindings g (dc_first_binding declared) {| rp_errors := []; rp_reported := ∅ |} in
  let r := foldl (λ r b,
    let r := match br_ready (fb_record b) with
      | Some ready =>
          check_dependencies g (fb_origin b) ("readiness check of " ++ label g (fb_id b)) r (ry_dependencies ready)
      | None => r
      end in
    foldl (λ r hook, check_dependencies g (fb_origin b)
      (hook_kind_display (hk_kind hook) ++ " hook of " ++ label g (fb_id b)) r (hk_dependencies hook))
      r (br_hooks (fb_record b))) r (drop (dc_first_binding declared) (g_bindings g)) in
  let r := foldl (λ r m, foldl (λ r hook, check_dependencies g (fm_id m)
      (hook_kind_display (hk_kind hook) ++ " hook of " ++ mn_text (fm_name m)) r (hk_dependencies hook))
      r (fm_hooks m)) r (drop (dc_first_module declared) (g_modules g)) in
  let r := foldl (λ r mnd, check_dependencies g mnd.1.1
      ("metadata `" ++ short_type_name mnd.1.2 ++ "` of " ++ mn_text (module_name g mnd.1.1)) r mnd.2)
      r (dc_meta declared) in
  let r := foldl (check_handler g) r (drop (dc_first_handler declared) (g_handlers g)) in
  let r := if bool_decide (dc_first_module declared = 0) then sweep_root g r else r in
  (g, rp_errors r).

(** ** Reads of controllers *)

Definition controller_of (g : Graph) (m : ModuleId) (key : Key) : option BindingId :=
  match lookup g m key with
  | Some (VBinding id) => if br_controller (fb_record (binding g id)) then Some id else None
  | _ => None
  end.

Definition controller_read (g : Graph) (m : ModuleId) (controller : BindingId) (consumer : string) : WiringError :=
  ControllerRead (key_name g controller) consumer (module_name g m)
    (module_name g (fb_origin (binding g controller))).

(** The single reads of a closure that name a controller. *)
Definition closure_reads (g : Graph) (m : ModuleId) (owner : string) (d : Dependencies) : list WiringError :=
  deps_list d ≫= λ dep, omap (λ read,
    match rd_kind read with
    | Single key =>
        (λ id, controller_read g m id (owner ++ " (" ++ dependency_label (dr_label dep) ++ ")")) <$> controller_of g m key
    | _ => None
    end) (dr_reads dep).

Definition reader_controller_reads (g : Graph) (b : FrozenBinding) : list WiringError :=
  (omap (λ e,
    match ed_target e with
    | TBinding id =>
        if br_controller (fb_record (binding g id))
        then Some (controller_read g (fb_origin b) id (consumer g (fb_id b) (ed_dependency e))) else None
    | _ => None
    end) (fb_edges b)
  ++ match br_recipe (fb_record b) with
     | Alias target =>
         match controller_of g (fb_origin b) target with
         | Some id => [controller_read g (fb_origin b) id ("the alias `" ++ key_name_display (key_name g (fb_id b)) ++ "`")%string]
         | None => []
         end
     | _ => []
     end
  ++ match br_ready (fb_record b) with
     | Some ready => closure_reads g (fb_origin b) ("readiness check of " ++ label g (fb_id b)) (ry_dependencies ready)
     | None => []
     end
  ++ (br_hooks (fb_record b) ≫= λ hook,
       closure_reads g (fb_origin b) (hook_kind_display (hk_kind hook) ++ " hook of " ++ label g (fb_id b))
         (hk_dependencies hook)))%list.

Definition check_controller_reads (g : Graph) (declared : Declared) : list WiringError :=
  ((filterb (λ b, negb (br_controller (fb_record b))) (drop (dc_first_binding declared) (g_bindings g))
      ≫= reader_controller_reads g)
  ++ (drop (dc_first_module declared) (g_modules g) ≫= λ m, fm_hooks m ≫= λ hook,
       closure_reads g (fm_id m) (hook_kind_display (hk_kind hook) ++ " hook of " ++ mn_text (fm_name m))
         (hk_dependencies hook))
  ++ (drop (dc_first_handler declared) (g_handlers g) ≫= λ h, hd_enhancer_deps (hr_decl h) ≫= λ dep,
       match dep with
       | EClosure c => closure_reads g (hr_module h) (handler_name g h ++ " (enhancer closure)") (cd_dependencies c)
       | EType _ => []
       end))%list.
