(* ===== verification/VisibilityFacts.v ===== *)
(** * VisibilityFacts: the tables and the re-export rounds

    A table answers what [sources] finds; the rounds stop, and what step 1 accepts of a re-export
    is exported as the module itself sees it. *)

From S2P Require Import Prelude Text Key Graph WiringError Visibility.

(** ** A table answers its sources *)

Section Table.
Context (g : Graph) (m : ModuleId) (key : Key).

(** The list a source map holds for the key. *)
Definition found_in (t : gmap KeyId (Key * list (ModuleId * BindingId))) : list (ModuleId * BindingId) :=
  default [] (snd <$> t !! key_id key).

Definition no_empty (t : gmap KeyId (Key * list (ModuleId * BindingId))) : Prop :=
  ∀ k kl, t !! k = Some kl → kl.2 ≠ [].

Lemma push_source_nonempty ex l id : push_source ex l id ≠ [].
Proof. unfold push_source. destruct (existsb _ l) eqn:E; [by destruct l|by destruct l]. Qed.

Lemma enter_own_spec id t k : no_empty t →
  no_empty (enter_own m id t k)
  ∧ found_in (enter_own m id t k) =
      match found_in t with [] => if key_eqb key k then [(m, id)] else [] | l => l end.
Proof.
  intros Ht. unfold enter_own, found_in. destruct (t !! key_id k) as [[k' l']|] eqn:E.
  - split; [done|]. destruct (key_eqb key k) eqn:Ek; [|by destruct (default [] _)].
    apply key_eqb_spec in Ek. rewrite Ek, E. simpl. pose proof (Ht _ _ E). by destruct l'.
  - split.
    + intros j kl. destruct (decide (j = key_id k)) as [->|]; [rewrite lookup_insert_eq; by intros [= <-]|].
      rewrite lookup_insert_ne by done. apply Ht.
    + destruct (key_eqb key k) eqn:Ek.
      * apply key_eqb_spec in Ek. by rewrite Ek, lookup_insert_eq, E.
      * apply key_eqb_false in Ek. rewrite lookup_insert_ne by done. by destruct (default [] _).
Qed.

Lemma enter_keys_spec id ks : ∀ t, no_empty t →
  no_empty (foldl (enter_own m id) t ks)
  ∧ found_in (foldl (enter_own m id) t ks) =
      match found_in t with [] => if existsb (key_eqb key) ks then [(m, id)] else [] | l => l end.
Proof.
  induction ks as [|k ks IH]; intros t Ht; simpl; [split; [done|by destruct (found_in t)]|].
  destruct (enter_own_spec id t k Ht) as [Ht' Hf]. destruct (IH _ Ht') as [Ht'' ->]. split; [done|].
  rewrite Hf. destruct (found_in t); [|done]. by destruct (key_eqb key k).
Qed.

Lemma enter_binding_spec id t : no_empty t →
  no_empty (enter_binding g m t id)
  ∧ found_in (enter_binding g m t id) =
      match found_in t with [] => if answers_to g key id then [(m, id)] else [] | l => l end.
Proof.
  intros Ht. unfold enter_binding, answers_to. case_bool_decide; cbn [andb].
  - by apply enter_keys_spec.
  - split; [done|by destruct (found_in t)].
Qed.

Lemma own_map_spec ids : ∀ t, no_empty t →
  no_empty (foldl (enter_binding g m) t ids)
  ∧ found_in (foldl (enter_binding g m) t ids) = match found_in t with
      | [] => option_list ((λ id, (m, id)) <$> find_first (answers_to g key) ids) | l => l end.
Proof.
  induction ids as [|id ids IH]; intros t Ht; simpl; [split; [done|by destruct (found_in t)]|].
  destruct (enter_binding_spec id t Ht) as [Ht' Hf]. destruct (IH _ Ht') as [Ht'' ->]. split; [done|].
  rewrite Hf. destruct (found_in t); [|done]. by destruct (answers_to g key id).
Qed.

Lemma enter_export_spec ex t e : no_empty t →
  no_empty (enter_export ex t e)
  ∧ found_in (enter_export ex t e) =
      if key_eqb e.1 key then push_source ex (found_in t) e.2 else found_in t.
Proof.
  intros Ht. unfold enter_export, found_in. destruct (default _ (t !! key_id e.1)) as [k l] eqn:E. split.
  - intros j kl. destruct (decide (j = key_id e.1)) as [->|].
    + rewrite lookup_insert_eq. intros [= <-]. apply push_source_nonempty.
    + rewrite lookup_insert_ne by done. apply Ht.
  - destruct (key_eqb e.1 key) eqn:Ek.
    + apply key_eqb_spec in Ek. rewrite <- Ek, lookup_insert_eq. simpl.
      destruct (t !! key_id e.1) as [[k' l']|]; simpl in E; by injection E as <- <-.
    + apply key_eqb_false in Ek. by rewrite lookup_insert_ne by done.
Qed.

Lemma enter_exports_spec ex es : ∀ t, no_empty t →
  no_empty (foldl (enter_export ex) t es)
  ∧ found_in (foldl (enter_export ex) t es) =
      foldl (λ found e, if key_eqb e.1 key then push_source ex found e.2 else found) (found_in t) es.
Proof.
  induction es as [|e es IH]; intros t Ht; simpl; [done|].
  destruct (enter_export_spec ex t e Ht) as [Ht' <-]. by apply IH.
Qed.

Lemma source_map_spec : no_empty (source_map g m) ∧ found_in (source_map g m) = sources g m key.
Proof.
  unfold source_map, sources, own_binding.
  destruct (own_map_spec (fm_bindings (module g m)) ∅) as [Ht Hf]; [by intros k kl|].
  change (found_in ∅) with (@nil (ModuleId * BindingId)) in Hf. simpl in Hf. rewrite <- Hf. clear Hf. revert Ht.
  generalize (foldl (enter_binding g m) ∅ (fm_bindings (module g m))) as t.
  induction (exporters g m) as [|ex l IH]; intros t Ht; simpl; [done|].
  destruct (enter_exports_spec ex (exported_by g ex) t Ht) as [Ht' <-]. by apply IH.
Qed.

(** What a module's table answers for a key: its sources, and an input below them. *)
Lemma table_for_spec : snd <$> table_for g m !! key_id key =
  match sources g m key with
  | [] => (λ decl, VInput (in_key decl)) <$> g_inputs g !! key_id key
  | [(_, id)] => Some (VBinding id)
  | l => Some (VAmbiguous l)
  end.
Proof.
  destruct source_map_spec as [Hne <-]. unfold table_for. rewrite lookup_union, !lookup_fmap. unfold found_in.
  destruct (source_map g m !! key_id key) as [[k l]|] eqn:E; simpl.
  - pose proof (Hne _ _ E) as Hl. simpl in Hl. rewrite union_Some_l. simpl.
    by destruct l as [|[? ?] [|]].
  - rewrite (left_id_L None _). by destruct (g_inputs g !! key_id key).
Qed.
End Table.

(** ** The sources of a key *)

Lemma push_source_ids ex l i id : id ∈ (push_source ex l i).*2 ↔ id ∈ l.*2 ∨ id = i.
Proof.
  unfold push_source. destruct (existsb _ l) eqn:E.
  - apply existsb_elem in E as (s & Hs & Hi). apply bool_decide_eq_true in Hi. split; [by left|].
    intros [?| ->]; [done|]. apply list_elem_of_fmap. by exists s.
  - rewrite fmap_app, elem_of_app. simpl. by rewrite list_elem_of_singleton.
Qed.

(** The bindings among the sources: the module's own, and what its exporters export. *)
Lemma sources_ids g m key id : id ∈ (sources g m key).*2 ↔
  own_binding g m key = Some id
  ∨ ∃ ex e, ex ∈ exporters g m ∧ e ∈ exported_by g ex ∧ key_id e.1 = key_id key ∧ e.2 = id.
Proof.
  unfold sources.
  destruct (fold_adds (λ found exporter,
      foldl (λ found e, if key_eqb e.1 key then push_source exporter found e.2 else found)
        found (exported_by g exporter)) (λ _, True) (λ (l : list (ModuleId * BindingId)) id, id ∈ l.*2)
      (λ ex id, ∃ e, e ∈ exported_by g ex ∧ key_id e.1 = key_id key ∧ e.2 = id) (exporters g m))
    with (s := option_list ((λ id, (m, id)) <$> own_binding g m key)) as [_ H]; [|done|].
  - intros l ex _ _. split; [done|].
    destruct (fold_adds (λ found e, if key_eqb e.1 key then push_source ex found e.2 else found) (λ _, True)
      (λ (l : list (ModuleId * BindingId)) id, id ∈ l.*2)
      (λ (e : Key * BindingId) id, key_id e.1 = key_id key ∧ e.2 = id) (exported_by g ex)) with (s := l)
      as [_ H]; [|done|exact H].
    intros l1 e _ _. split; [done|]. intros i. destruct (key_eqb e.1 key) eqn:Ek.
    + apply key_eqb_spec in Ek. rewrite push_source_ids.
      split; [intros [?| ->]; [by left|by right]|intros [?|[_ <-]]; [by left|by right]].
    + apply key_eqb_false in Ek. split; [by left|]. intros [?|[? _]]; done.
  - rewrite H. destruct (own_binding g m key) as [i|]; simpl.
    + rewrite list_elem_of_singleton. split.
      * intros [->|(ex & ? & e & ?)]; [by left|right; by exists ex, e].
      * intros [[= ->]|(ex & e & ? & ?)]; [by left|right; eauto].
    + rewrite elem_of_nil. split.
      * intros [|(ex & ? & e & ?)]; [done|right; by exists ex, e].
      * intros [|(ex & e & ? & ?)]; [done|right; eauto].
Qed.

Lemma sources_single g m key ex id i : sources g m key = [(ex, id)] → i ∈ (sources g m key).*2 → i = id.
Proof. intros ->. simpl. by rewrite list_elem_of_singleton. Qed.

(** ** The rounds *)

(** One vector of exports holds what another does. *)
Definition exports_sub (a b : list (list (Key * BindingId))) : Prop :=
  length a = length b ∧ ∀ m e, e ∈ default [] (a !! m) → e ∈ default [] (b !! m).

#[export] Instance exports_sub_preorder : PreOrder exports_sub.
Proof.
  split; [by intros a; split|]. intros a b c [Hl1 H1] [Hl2 H2]. split; [by rewrite Hl1|]. auto.
Qed.

Lemma push_export_sub exported e : exports_sub exported (push_export exported e).
Proof.
  destruct e as [[m k] id]. simpl. split; [by rewrite length_alter|]. intros j x Hx.
  destruct (decide (j = m)) as [->|]; [|by rewrite list_lookup_alter_ne].
  rewrite list_lookup_alter_eq. destruct (exported !! m); [|by apply not_elem_of_nil in Hx].
  simpl in *. apply elem_of_app. by left.
Qed.

Lemma push_exports_sub l : ∀ exported, exports_sub exported (foldl push_export exported l).
Proof.
  induction l as [|e l IH]; intros exported; simpl; [reflexivity|]. etrans; [apply push_export_sub|apply IH].
Qed.

Lemma push_exports_in l : ∀ exported m k id, (m, k, id) ∈ l → m < length exported →
  (k, id) ∈ default [] (foldl push_export exported l !! m).
Proof.
  induction l as [|e l IH]; intros exported m k id Hin Hm; [by apply not_elem_of_nil in Hin|]. simpl.
  apply elem_of_cons in Hin as [<-|Hin].
  - apply (push_exports_sub l). simpl. rewrite list_lookup_alter_eq.
    destruct (lookup_lt_is_Some_2 exported m Hm) as [x Hx]. rewrite Hx. simpl. apply elem_of_app.
    right. by apply list_elem_of_singleton.
  - apply IH; [done|]. by rewrite <- (proj1 (push_export_sub exported e)).
Qed.

Section Rounds.
Context (g : Graph) (pending0 : list (ModuleId * ExportRecord)).
Context (Hrange : ∀ m e, (m, e) ∈ pending0 → m < length (g_modules g)).

Definition view (exported : list (list (Key * BindingId))) : Graph := set_tables g (g_visibility g) exported.

Lemma sources_mono a b m key id : exports_sub a b →
  id ∈ (sources (view a) m key).*2 → id ∈ (sources (view b) m key).*2.
Proof.
  intros [_ Hsub]. rewrite !sources_ids. intros [|(ex & e & Hex & He & Hk & Hi)]; [by left|right].
  exists ex, e. split; [done|]. split; [|done]. by apply Hsub.
Qed.

(** What holds of the pending re-exports and the exports resolved so far. *)
Definition rounds_inv (s : list (ModuleId * ExportRecord) * list (list (Key * BindingId))) : Prop :=
  length s.2 = length (g_modules g)
  ∧ (∀ me, me ∈ s.1 → me ∈ pending0)
  ∧ ∀ m e, (m, e) ∈ pending0 → (m, e) ∈ s.1
      ∨ ∃ id, (boundary_key (fm_keyed (module g m)) (ex_key e), id) ∈ default [] (s.2 !! m)
          ∧ id ∈ (sources (view s.2) m (ex_key e)).*2.

Lemma resolve_Some v m e x : resolve_reexport v (m, e) = Some x →
  ∃ ex id, sources v m (ex_key e) = [(ex, id)] ∧ x = (m, boundary_key (fm_keyed (module v m)) (ex_key e), id).
Proof.
  unfold resolve_reexport. destruct (sources v m (ex_key e)) as [|[ex id] [|]]; try done. intros [= <-]. eauto.
Qed.

Lemma filterb_length_lt {A} (f : A → bool) l x : x ∈ l → f x = false → length (filterb f l) < length l.
Proof.
  intros Hx Hf. induction l as [|y l IH]; [by apply not_elem_of_nil in Hx|]. rewrite filterb_cons.
  assert (Hle : length (filterb f l) ≤ length l) by apply length_filter.
  apply elem_of_cons in Hx as [<-|Hx]; [rewrite Hf; simpl; lia|].
  specialize (IH Hx). destruct (f y); simpl; lia.
Qed.

Lemma round_step s s' : rounds_inv s → reexport_round g s = Some s' →
  rounds_inv s' ∧ length s'.1 < length s.1 ∧ exports_sub s.2 s'.2.
Proof.
  destruct s as [pending exported]. intros (H1 & H2 & H3). simpl in *.
  set (resolved := omap (resolve_reexport (view exported)) pending).
  change (set_tables g (g_visibility g) exported) with (view exported). fold resolved.
  case_bool_decide as Hnil; [done|]. intros [= <-]. simpl.
  pose proof (push_exports_sub resolved exported) as Hsub.
  split; [|split; [|done]].
  - split; [etrans; [symmetry; exact (proj1 Hsub)|done]|]. split.
    + intros me [_ Hin]%elem_of_filterb. by apply H2.
    + intros m e Hin. destruct (H3 m e Hin) as [Hp|(id & Hid & Hs)].
      * destruct (resolve_reexport (view exported) (m, e)) as [x|] eqn:Er.
        -- right. pose proof (resolve_Some _ _ _ _ Er) as (ex & id & Hsrc & ->). exists id. split.
           ++ apply push_exports_in; [|rewrite H1; by eapply Hrange].
              apply list_elem_of_omap. by exists (m, e).
           ++ eapply sources_mono; [exact Hsub|]. rewrite Hsrc. simpl. by apply list_elem_of_singleton.
        -- left. apply elem_of_filterb. split; [|done]. by apply bool_decide_eq_true.
      * right. exists id. split; [by apply Hsub|]. by eapply sources_mono.
  - destruct resolved as [|x l] eqn:El; [done|].
    assert (Hx : x ∈ omap (resolve_reexport (view exported)) pending) by (fold resolved; rewrite El; left).
    apply list_elem_of_omap in Hx as (me & Hme & Hr). eapply filterb_length_lt; [exact Hme|].
    apply bool_decide_eq_false. by rewrite Hr.
Qed.

(** The rounds stop with every unresolved re-export still unresolvable. *)
Lemma rounds_end exported0 : length exported0 = length (g_modules g) →
  let s := iterate (reexport_round g) (length pending0) (pending0, exported0) in
  rounds_inv s ∧ exports_sub exported0 s.2
  ∧ ∀ me, me ∈ s.1 → resolve_reexport (view s.2) me = None.
Proof.
  intros Hlen s.
  assert (H0 : rounds_inv (pending0, exported0)).
  { split; [done|]. split; [done|]. intros m e Hin. by left. }
  assert (H : rounds_inv s ∧ exports_sub exported0 s.2).
  { apply (iterate_invariant (reexport_round g) (λ s, rounds_inv s ∧ exports_sub exported0 s.2)); [|by split].
    intros s1 s2 [Hi Hs] Hr. destruct (round_step s1 s2 Hi Hr) as (Hi' & _ & Hs'). split; [done|by etrans]. }
  destruct H as [H Hsub]. split; [done|]. split; [done|].
  assert (Hn : reexport_round g s = None).
  { apply (iterate_done (reexport_round g) rounds_inv (λ s, length s.1)); [|done|done].
    intros s1 s2 Hi Hr. destruct (round_step s1 s2 Hi Hr) as (Hi' & Hlt & _). done. }
  clearbody s. destruct s as [pending exported]. simpl in *. intros me Hme. change (set_tables g _ _) with (view exported) in Hn.
  case_bool_decide as Hnil; [|done]. destruct (resolve_reexport (view exported) me) as [x|] eqn:E; [|done].
  assert (Hx : x ∈ omap (resolve_reexport (view exported)) pending) by (apply list_elem_of_omap; eauto).
  rewrite Hnil in Hx. by apply not_elem_of_nil in Hx.
Qed.
End Rounds.

Lemma tables_new (f : nat → gmap KeyId (Key * Visible)) n : ∀ a (vis : list (gmap KeyId (Key * Visible))) m, a ≤ m < a + n → m < length vis →
  foldl (λ vis index, <[index := f index]> vis) vis (seq a n) !! m = Some (f m).
Proof.
  induction n as [|n IH] using nat_ind; intros a vis m Hm Hlen; [lia|]. rewrite seq_S, foldl_app. simpl.
  assert (Hl : ∀ l vis, length (foldl (λ vis index, <[index := f index]> vis) vis l) = length (vis : list (gmap KeyId (Key * Visible)))).
  { induction l as [|x l IHl]; intros vis'; simpl; [done|]. by rewrite IHl, length_insert. }
  destruct (decide (m = a + n)) as [->|Hne].
  - rewrite list_lookup_insert_eq; [done|]. by rewrite Hl.
  - rewrite list_lookup_insert_ne by done. apply IH; [lia|done].
Qed.

Lemma tables_old (f : nat → gmap KeyId (Key * Visible)) n : ∀ a (vis : list (gmap KeyId (Key * Visible))) m, m < a →
  foldl (λ vis index, <[index := f index]> vis) vis (seq a n) !! m = vis !! m.
Proof.
  induction n as [|n IH]; intros a vis m Hm; [done|]. simpl. rewrite IH by lia.
  by rewrite list_lookup_insert_ne by lia.
Qed.

Section Tables.
Context (g : Graph) (declared : Declared).
Let count := length (g_modules g).
Let first := dc_first_module declared.
Context (Hrange : ∀ m e, (m, e) ∈ dc_exports declared → m < count).

(** The exports before the rounds and after them. *)
Let start : Graph := set_tables g (resize count ∅ (g_visibility g)) (resize count [] (g_exported g)).
Definition exports_own : list (list (Key * BindingId)) :=
  foldl push_export (resize count [] (g_exported g)) (own_exports start declared).
Definition exports_all : list (list (Key * BindingId)) :=
  (iterate (reexport_round (set_tables start (g_visibility start) exports_own))
    (length (filterb (λ me, ex_reexport me.2) (dc_exports declared)))
    (filterb (λ me, ex_reexport me.2) (dc_exports declared), exports_own)).2.

Definition tables_all : list (gmap KeyId (Key * Visible)) :=
  foldl (λ vis index, <[index := table_for (set_tables start (g_visibility start) exports_all) index]> vis)
    (resize count ∅ (g_visibility g)) (seq first (count - first)).

Lemma build_tables_eq : build_tables g declared = set_tables g tables_all exports_all.
Proof. done. Qed.

Lemma exports_own_length : length exports_own = count.
Proof. unfold exports_own. rewrite <- (proj1 (push_exports_sub _ _)). apply length_resize. Qed.

Lemma exports_rounds :
  rounds_inv start (filterb (λ me, ex_reexport me.2) (dc_exports declared))
    (iterate (reexport_round start) (length (filterb (λ me, ex_reexport me.2) (dc_exports declared)))
      (filterb (λ me, ex_reexport me.2) (dc_exports declared), exports_own))
  ∧ exports_sub exports_own exports_all
  ∧ ∀ me, me ∈ (iterate (reexport_round start) (length (filterb (λ me, ex_reexport me.2) (dc_exports declared)))
      (filterb (λ me, ex_reexport me.2) (dc_exports declared), exports_own)).1 →
      resolve_reexport (view start exports_all) me = None.
Proof.
  apply (rounds_end start (filterb (λ me, ex_reexport me.2) (dc_exports declared))).
  - intros m e [_ Hin]%elem_of_filterb. by eapply Hrange.
  - apply exports_own_length.
Qed.

Lemma exports_all_length : length exports_all = count.
Proof. destruct exports_rounds as (_ & [Hl _] & _). by rewrite <- Hl, exports_own_length. Qed.

(** Every table this wiring built answers its sources. *)
Lemma built_lookup m key : first ≤ m < count →
  lookup (build_tables g declared) m key =
  match sources (build_tables g declared) m key with
  | [] => (λ decl, VInput (in_key decl)) <$> g_inputs g !! key_id key
  | [(_, id)] => Some (VBinding id)
  | l => Some (VAmbiguous l)
  end.
Proof.
  intros Hm. rewrite build_tables_eq. unfold lookup. simpl. unfold tables_all.
  rewrite tables_new; [|lia|rewrite length_resize; lia]. simpl. by rewrite table_for_spec.
Qed.

(** A module that re-exports a key it sees once exports what it sees, through however many other
    re-exports that takes. *)
Lemma reexport_exported m e id : (m, e) ∈ dc_exports declared → ex_reexport e = true → first ≤ m →
  lookup (build_tables g declared) m (ex_key e) = Some (VBinding id) →
  (boundary_key (fm_keyed (module g m)) (ex_key e), id) ∈ exported_by (build_tables g declared) m.
Proof.
  intros Hin Hre Hm Hlook. pose proof (Hrange _ _ Hin) as Hlt. rewrite built_lookup in Hlook by done.
  destruct exports_rounds as ((_ & _ & Hres) & _ & Hstuck).
  change (sources (build_tables g declared) m (ex_key e)) with (sources (view start exports_all) m (ex_key e)) in Hlook.
  assert (Hsrc : ∃ ex, sources (view start exports_all) m (ex_key e) = [(ex, id)]).
  { destruct (sources _ _ _) as [|[ex i] [|]]; [by destruct (g_inputs g !! _)| |done].
    injection Hlook as ->. by exists ex. }
  destruct Hsrc as [ex Hsrc].
  destruct (Hres m e) as [Hp|(i & Hi & Hs)].
  - apply elem_of_filterb. by split.
  - apply Hstuck in Hp. unfold resolve_reexport in Hp. by rewrite Hsrc in Hp.
  - change (_.2) with exports_all in Hi, Hs. rewrite (sources_single _ _ _ _ _ _ Hsrc Hs) in Hi. done.
Qed.

Lemma own_exported m e id : (m, e) ∈ dc_exports declared → ex_reexport e = false →
  own_binding g m (ex_key e) = Some id →
  (boundary_key (fm_keyed (module g m)) (ex_key e), id) ∈ exported_by (build_tables g declared) m.
Proof.
  intros Hin Hre Hown. destruct exports_rounds as (_ & [_ Hsub] & _). apply Hsub.
  apply push_exports_in; [|rewrite length_resize; by eapply Hrange].
  apply list_elem_of_omap. exists (m, e). split; [done|]. rewrite Hre.
  change (own_binding start m (ex_key e)) with (own_binding g m (ex_key e)). by rewrite Hown.
Qed.
End Tables.
