(* ===== verification/Register.v ===== *)
(** * Register: the registration walk

    [crates/ulo/src/graph/register.rs], with [ModuleNode] of [module/def.rs] and [TestPlan] of
    [testing.rs]. A [Box<dyn Module>] is a value of a type [M], and what user code implements of
    the [Module] trait is a parameter: its identity, its settings, and what its [register] writes
    into the node it is given. The walk recurses through imports the user code answers; it runs on
    fuel and answers [None] when that is spent, which [register_from_ends] excludes for finitely many
    identities. *)

From S2P Require Import Prelude Text Key Graph WiringError Redact Order.
Local Open Scope string_scope.
Local Open Scope nat_scope.

(** What mounting a controller writes is the list of its handlers. *)
Record ControllerRecord := {
  ct_binding : nat;
  ct_mount : list HandlerDecl;
  ct_prefix : option (string * Location);
}.

(** A metadata value with what its [dependencies] writes. *)
Record MetaEntry := { me_ty : TypeId; me_name : string; me_value : Handle; me_dependencies : Dependencies }.

(** A [try_value] error: the messages down its chain. *)
Record ValueFailure := { vf_error : list string; vf_location : Location }.

Section Register.
Context {M : Type}.

Record ModuleNode := {
  nd_identity : ModuleIdentity;
  nd_global : bool;
  nd_keyed : option Qualifier;
  nd_nested_keyed : option (Qualifier * Qualifier);
  nd_inherited_keyed : option Qualifier;
  nd_imports : list (M * Location);
  nd_bindings : list BindingRecord;
  nd_enhancers : list nat;
  nd_exports : list ExportRecord;
  nd_controllers : list ControllerRecord;
  nd_inputs : list InputRecord;
  nd_hooks : list HookRecord;
  nd_meta : list MetaEntry;
  nd_secrets : list string;
  nd_failures : list ValueFailure;
  nd_settings : ModuleSettings;
  nd_site : Site;
}.

Definition node_new (identity : ModuleIdentity) : ModuleNode := {|
  nd_identity := identity; nd_global := false; nd_keyed := None; nd_nested_keyed := None;
  nd_inherited_keyed := None; nd_imports := []; nd_bindings := []; nd_enhancers := []; nd_exports := [];
  nd_controllers := []; nd_inputs := []; nd_hooks := []; nd_meta := []; nd_secrets := []; nd_failures := [];
  nd_settings := module_settings_new; nd_site := SiteRoot |}.

(** ** Test plans *)

Inductive OverrideTarget :=
  | Unscoped
  | ModuleType (ty : TypeId) (name : string)
  | ModuleKeyed (ty : TypeId) (name : string) (qualifier : Qualifier)
  | OnModule (identity : ModuleIdentity)
  | Everywhere.

Record Override := {
  ov_key : Key;
  ov_recipe : Recipe;
  ov_dependencies : Dependencies;
  ov_target : OverrideTarget;
  ov_location : Location;
}.

Record CollectionOverride := { co_key : Key; co_items : list Handle; co_location : Location }.
Record Replacement := { rm_original : ModuleIdentity; rm_replacement : M; rm_location : Location }.
Record TestPlan := {
  tp_overrides : list Override;
  tp_collections : list CollectionOverride;
  tp_replacements : list Replacement;
}.

(** ** The registry *)

Record Differing := {
  df_module : Import;
  df_first : Site;
  df_second : Site;
  df_settings : list (string * option string * option string);
}.

Record Replaced := { rd_original : ModuleIdentity; rd_exports : list Key; rd_replacement : nat }.

Record Registry := {
  rg_nodes : list ModuleNode;
  rg_by_identity : gmap IdentityId nat;
  rg_imports : list (list Import);
  rg_post_order : list nat;
  rg_self_imports : list nat;
  rg_replaced : list Replaced;
  rg_differing : list Differing;
  rg_repeats : list (Import * Repeat);
}.

Definition registry_empty : Registry := {|
  rg_nodes := []; rg_by_identity := ∅; rg_imports := []; rg_post_order := []; rg_self_imports := [];
  rg_replaced := []; rg_differing := []; rg_repeats := [] |}.

(** [Differing::of]. *)
Definition differing_of (module : Import) (first second : ModuleSettings * Site) : option Differing :=
  let settings := differences first.1 second.1 in
  if bool_decide (settings = []) then None
  else Some {| df_module := module; df_first := first.2; df_second := second.2; df_settings := settings |}.

(** [Differing::into_error]. *)
Definition import_name (names : list ModuleName) (base : Graph) (import : Import) : ModuleName :=
  match import with
  | New node => default (fm_name no_module) (names !! node)
  | Existing id => module_name base id
  end.

Definition differing_error (names : list ModuleName) (base : Graph) (d : Differing) : WiringError :=
  let name := import_name names base in
  let site s := match s with
    | SiteRoot => MSRoot
    | SiteLoad at_ => MSLoad at_
    | SiteImport importer at_ => MSImport (name importer) at_
    end in
  let shown v := (λ text, string_of (scrub (str_of <$> g_secrets base) (str_of text))) <$> v in
  DifferingSettings (name (df_module d)) (site (df_first d)) (site (df_second d))
    ((λ s : string * option string * option string,
        {| ds_name := s.1.1; ds_first := s.1.2; ds_second := s.2; ds_shown := (shown s.1.2, shown s.2) |})
      <$> df_settings d).

(** [later_repeats]. *)
Definition later_repeats (repeats : list (Import * Repeat)) (module : Import) (claimed later : ModuleSettings)
    : list (Import * Repeat) :=
  foldl (λ repeats repeat,
    if negb (contains (ms_repeats claimed) repeat) && negb (contains repeats (module, repeat))
    then (repeats ++ [(module, repeat)])%list else repeats) repeats (ms_repeats later).

(** [Registry::names]. *)
Abbreviation NameCounts := (gmap (TypeId * option (nat * string)) nat) (only parsing).
Definition counted (i : ModuleIdentity) : TypeId * option (nat * string) :=
  (mi_ty i, (λ q, (q_id q, q_name q)) <$> mi_qualifier i).

Definition names (nodes : list ModuleNode) (post_order : list nat) (base : option Graph) : list ModuleName :=
  let counts : NameCounts := foldl (λ counts m,
    let k := counted (fm_identity m) in <[k := S (default 0 (counts !! k))]> counts)
    ∅ (match base with Some b => g_modules b | None => [] end) in
  let named := foldl (λ (s : NameCounts * list (option ModuleName)) node,
    match nodes !! node with
    | Some n =>
        let k := counted (nd_identity n) in
        let count := default 0 (s.1 !! k) in
        (<[k := S count]> s.1, <[node := Some (module_name_of (nd_identity n) count)]> s.2)
    | None => s
    end) (counts, replicate (length nodes) None) post_order in
  zip_with (λ name n, default (module_name_of (nd_identity n) 0) name) named.2 nodes.

(** ** The walk *)

Context (module_identity : M → ModuleIdentity).
Context (module_settings : M → ModuleSettings).
Context (module_register : M → ModuleNode → ModuleNode).
Context (base : option Graph) (plan : option TestPlan).

Record Walk := { wk_registry : Registry; wk_path : list nat (* the importer first *) }.

Definition set_registry (w : Walk) (r : Registry) : Walk := {| wk_registry := r; wk_path := wk_path w |}.

Definition add_settings (r : Registry) (found : Import) (claimed : ModuleSettings * Site)
    (later : ModuleSettings * Site) : Registry := {|
  rg_nodes := rg_nodes r; rg_by_identity := rg_by_identity r; rg_imports := rg_imports r;
  rg_post_order := rg_post_order r; rg_self_imports := rg_self_imports r; rg_replaced := rg_replaced r;
  rg_differing := (rg_differing r ++ option_list (differing_of found claimed later))%list;
  rg_repeats := later_repeats (rg_repeats r) found claimed.1 later.1 |}.

Definition add_self_import (r : Registry) (node : nat) : Registry := {|
  rg_nodes := rg_nodes r; rg_by_identity := rg_by_identity r; rg_imports := rg_imports r;
  rg_post_order := rg_post_order r; rg_self_imports := (rg_self_imports r ++ [node])%list;
  rg_replaced := rg_replaced r; rg_differing := rg_differing r; rg_repeats := rg_repeats r |}.

Definition add_replaced (r : Registry) (x : Replaced) : Registry := {|
  rg_nodes := rg_nodes r; rg_by_identity := rg_by_identity r; rg_imports := rg_imports r;
  rg_post_order := rg_post_order r; rg_self_imports := rg_self_imports r;
  rg_replaced := (rg_replaced r ++ [x])%list; rg_differing := rg_differing r; rg_repeats := rg_repeats r |}.

Definition add_node (r : Registry) (identity : ModuleIdentity) (node : ModuleNode) : Registry := {|
  rg_nodes := (rg_nodes r ++ [node])%list;
  rg_by_identity := <[identity_id identity := length (rg_nodes r)]> (rg_by_identity r);
  rg_imports := (rg_imports r ++ [[]])%list;
  rg_post_order := rg_post_order r; rg_self_imports := rg_self_imports r; rg_replaced := rg_replaced r;
  rg_differing := rg_differing r; rg_repeats := rg_repeats r |}.

Definition add_import (r : Registry) (index : nat) (reached : Import) : Registry := {|
  rg_nodes := rg_nodes r; rg_by_identity := rg_by_identity r;
  rg_imports := alter (λ l, (l ++ [reached])%list) index (rg_imports r);
  rg_post_order := rg_post_order r; rg_self_imports := rg_self_imports r; rg_replaced := rg_replaced r;
  rg_differing := rg_differing r; rg_repeats := rg_repeats r |}.

Definition clear_imports (n : ModuleNode) : ModuleNode := {|
  nd_identity := nd_identity n; nd_global := nd_global n; nd_keyed := nd_keyed n;
  nd_nested_keyed := nd_nested_keyed n; nd_inherited_keyed := nd_inherited_keyed n; nd_imports := [];
  nd_bindings := nd_bindings n; nd_enhancers := nd_enhancers n; nd_exports := nd_exports n;
  nd_controllers := nd_controllers n; nd_inputs := nd_inputs n; nd_hooks := nd_hooks n; nd_meta := nd_meta n;
  nd_secrets := nd_secrets n; nd_failures := nd_failures n; nd_settings := nd_settings n; nd_site := nd_site n |}.

(** The node [enter] hands to [register]. *)
Definition node_start (identity : ModuleIdentity) (settings : ModuleSettings) (site : Site)
    (inherited : option Qualifier) : ModuleNode := {|
  nd_identity := identity; nd_global := false; nd_keyed := None; nd_nested_keyed := None;
  nd_inherited_keyed := inherited; nd_imports := []; nd_bindings := []; nd_enhancers := []; nd_exports := [];
  nd_controllers := []; nd_inputs := []; nd_hooks := []; nd_meta := []; nd_secrets := []; nd_failures := [];
  nd_settings := settings; nd_site := site |}.

(** The nearest keyed node of the path. *)
Definition inherited_keyed (w : Walk) : option Qualifier :=
  find_map (λ ancestor, rg_nodes (wk_registry w) !! ancestor ≫= nd_keyed) (wk_path w).

(** [enter], over the walk of one import. *)
Definition enter_with (reach : Walk → M → Site → option (Walk * Import))
    (w : Walk) (identity : ModuleIdentity) (m : M) (site : Site) : option (Walk * Import) :=
  let r := wk_registry w in
  match rg_by_identity r !! identity_id identity with
  | Some node =>
      let found := New node in
      if bool_decide (head (wk_path w) = Some node) then Some (set_registry w (add_self_import r node), found)
      else match rg_nodes r !! node with
           | Some claimed =>
               Some (set_registry w (add_settings r found (nd_settings claimed, nd_site claimed)
                       (module_settings m, site)), found)
           | None => None
           end
  | None =>
      let index := length (rg_nodes r) in
      let node := module_register m (node_start identity (module_settings m) site (inherited_keyed w)) in
      let imports := nd_imports node in
      let w1 := {| wk_registry := add_node r identity (clear_imports node); wk_path := index :: wk_path w |} in
      match foldl (λ (acc : option Walk) (import : M * Location),
          match acc with
          | None => None
          | Some w =>
              match reach w import.1 (SiteImport (New index) import.2) with
              | Some (w, reached) => Some (set_registry w (add_import (wk_registry w) index reached))
              | None => None
              end
          end) (Some w1) imports with
      | Some w2 => Some ({| wk_registry := wk_registry w2; wk_path := wk_path w |}, New index)
      | None => None
      end
  end.

(** [replace]. *)
Definition replace_with (reach : Walk → M → Site → option (Walk * Import))
    (w : Walk) (original : M) (identity : ModuleIdentity) (replacement : Replacement) (site : Site)
    : option (Walk * Import) :=
  match enter_with reach w (module_identity (rm_replacement replacement)) (rm_replacement replacement) site with
  | Some (w, New node) =>
      if existsb (λ r, identity_eqb (rd_original r) identity) (rg_replaced (wk_registry w)) then Some (w, New node)
      else
        let scratch := module_register original (node_new identity) in
        let exports := (λ e, boundary_key (nd_keyed scratch) (ex_key e)) <$> nd_exports scratch in
        Some (set_registry w (add_replaced (wk_registry w)
                {| rd_original := identity; rd_exports := exports; rd_replacement := node |}), New node)
  | other => other
  end.

(** [reach]. *)
Fixpoint reach (fuel : nat) (w : Walk) (m : M) (site : Site) : option (Walk * Import) :=
  match fuel with
  | 0 => None
  | S fuel =>
      let identity := module_identity m in
      match base ≫= (λ b, (λ id, (b, id)) <$> g_by_identity b !! identity_id identity) with
      | Some (b, existing) =>
          let frozen := module b existing in
          let found := Existing existing in
          Some (set_registry w (add_settings (wk_registry w) found (fm_settings frozen, fm_site frozen)
                  (module_settings m, site)), found)
      | None =>
          match plan ≫= λ p, find_first (λ r, identity_eqb (rm_original r) identity) (tp_replacements p) with
          | Some replacement => replace_with (reach fuel) w m identity replacement site
          | None => enter_with (reach fuel) w identity m site
          end
      end
  end.

(** [Walk::finish]. *)
Definition finish_walk (w : Walk) : Registry :=
  let r := wk_registry w in {|
  rg_nodes := rg_nodes r; rg_by_identity := rg_by_identity r; rg_imports := rg_imports r;
  rg_post_order := collection_order (length (rg_nodes r)) (rg_imports r);
  rg_self_imports := rg_self_imports r; rg_replaced := rg_replaced r;
  rg_differing := rg_differing r; rg_repeats := rg_repeats r |}.

(** [register_all] and [register_lazy], by the site the walk starts from. *)
Definition register_from (fuel : nat) (m : M) (site : Site) : option Registry :=
  (λ wi : Walk * Import, finish_walk wi.1) <$> reach fuel {| wk_registry := registry_empty; wk_path := [] |} m site.
End Register.
