(* ===== verification/RegisterFacts.v ===== *)
(** * RegisterFacts: what the registration walk leaves

    Each identity is registered once, every import of a registered module is a registered node or a
    module of the base graph, in the order of its imports, nothing else is registered, the walk ends
    for finitely many identities, and collection order places every node. *)

From S2P Require Import Prelude Text Key Graph WiringError Redact Order Register.

Section Facts.
Context {M : Type}.
Context (module_identity : M → ModuleIdentity).
Context (module_settings : M → ModuleSettings).
Context (module_register : M → @ModuleNode M → @ModuleNode M).
Context (base : option Graph) (plan : option (@TestPlan M)).

(** [register] is given a [ModuleDef], which writes no identity. *)
Definition keeps_identity : Prop := ∀ m n, nd_identity (module_register m n) = nd_identity n.
Context (Hkeep : keeps_identity).

Abbreviation Reach := (reach module_identity module_settings module_register base plan).
Abbreviation Enter := (enter_with module_settings module_register).

Implicit Types (r : @Registry M) (w : @Walk M).

Record registry_ok r : Prop := {
  ro_len : length (rg_imports r) = length (rg_nodes r);
  ro_identity : ∀ k i, rg_by_identity r !! k = Some i ↔
    ∃ n, rg_nodes r !! i = Some n ∧ identity_id (nd_identity n) = k;
  ro_imports : ∀ i l j, rg_imports r !! i = Some l → New j ∈ l → j < length (rg_nodes r);
}.

(** A later state of the registry. *)
Record extends r r' : Prop := {
  ex_nodes : rg_nodes r `prefix_of` rg_nodes r';
  ex_imports : ∀ i l x, rg_imports r !! i = Some l → x ∈ l → ∃ l', rg_imports r' !! i = Some l' ∧ x ∈ l';
}.

#[local] Instance extends_preorder : PreOrder extends.
Proof.
  split.
  - intros r. split; [done|]. intros i l x Hi Hx. eauto.
  - intros a b c [Ha1 Ha2] [Hb1 Hb2]. split; [by etrans|]. intros i l x Hi Hx.
    destruct (Ha2 i l x Hi Hx) as (l' & Hi' & Hx'). by eapply Hb2.
Qed.

Definition links r (i j : nat) : Prop := imports_new (length (rg_nodes r)) (rg_imports r) i j.

Lemma extends_length r r' : extends r r' → length (rg_nodes r) ≤ length (rg_nodes r').
Proof. intros [H _]. by apply prefix_length. Qed.

Lemma links_mono r r' i j : extends r r' → links r i j → links r' i j.
Proof.
  intros H [Hin Hlt]. pose proof (extends_length _ _ H). split; [|lia].
  destruct (rg_imports r !! i) as [l|] eqn:E; [|by apply not_elem_of_nil in Hin]. simpl in Hin.
  destruct (ex_imports _ _ H i l _ E Hin) as (l' & -> & Hx). done.
Qed.

Lemma links_rtc_mono r r' i j : extends r r' → rtc (links r) i j → rtc (links r') i j.
Proof. intros H. induction 1 as [|x y z Hxy _ IH]; [done|]. eapply rtc_l; [by eapply links_mono|done]. Qed.

(** What one step of the walk does: the registry grows, and everything new is reached from the
    module the step answers. *)
Record grows w w' (imp : Import) : Prop := {
  gr_ok : registry_ok (wk_registry w');
  gr_extends : extends (wk_registry w) (wk_registry w');
  gr_path : wk_path w' = wk_path w;
  gr_target : ∀ j, imp = New j → j < length (rg_nodes (wk_registry w'));
  gr_first : ∀ j, imp = New j → j ≤ length (rg_nodes (wk_registry w));
  gr_reached : ∀ i, length (rg_nodes (wk_registry w)) ≤ i < length (rg_nodes (wk_registry w')) →
    ∃ j, imp = New j ∧ rtc (links (wk_registry w')) j i;
}.

(** Steps that change neither the nodes nor the imports. *)
Definition same_nodes r r' : Prop :=
  rg_nodes r' = rg_nodes r ∧ rg_imports r' = rg_imports r ∧ rg_by_identity r' = rg_by_identity r.

Lemma same_nodes_ok r r' : same_nodes r r' → registry_ok r → registry_ok r'.
Proof. intros (Hn & Hi & Hb) [H1 H2 H3]. split; rewrite ?Hn, ?Hi, ?Hb; done. Qed.

Lemma same_nodes_extends r r' : same_nodes r r' → extends r r'.
Proof. intros (Hn & Hi & _). split; rewrite ?Hn, ?Hi; [done|]. eauto. Qed.

Lemma same_nodes_grows w r' imp : registry_ok (wk_registry w) → same_nodes (wk_registry w) r' →
  (∀ j, imp = New j → j < length (rg_nodes (wk_registry w))) → grows w (set_registry w r') imp.
Proof.
  intros Hok Hs Hj. pose proof Hs as (Hn & _ & _). split; simpl.
  - by eapply same_nodes_ok.
  - by apply same_nodes_extends.
  - done.
  - by rewrite Hn.
  - intros j Ej. specialize (Hj j Ej). lia.
  - rewrite Hn. lia.
Qed.

Lemma add_node_ok r identity node :
  registry_ok r → rg_by_identity r !! identity_id identity = None → nd_identity node = identity →
  registry_ok (add_node r identity node) ∧ extends r (add_node r identity node).
Proof.
  intros [H1 H2 H3] Hnew Hid. split; split; simpl.
  - by rewrite !length_app, H1.
  - intros k i. destruct (decide (k = identity_id identity)) as [->|Hk].
    + rewrite lookup_insert_eq. split.
      * intros [= <-]. exists node. rewrite lookup_app_r, Nat.sub_diag by done. by rewrite Hid.
      * intros (n & Hn & Hk). destruct (decide (i < length (rg_nodes r))) as [Hlt|Hge].
        -- rewrite lookup_app_l in Hn by done. assert (Hc : rg_by_identity r !! identity_id identity = Some i) by (apply H2; eauto).
           congruence.
        -- apply lookup_lt_Some in Hn. rewrite length_app in Hn. simpl in Hn. f_equal. lia.
    + rewrite lookup_insert_ne by done. rewrite H2. split.
      * intros (n & Hn & Hid'). exists n. split; [|done]. rewrite lookup_app_l; [done|]. by eapply lookup_lt_Some.
      * intros (n & Hn & Hid'). destruct (decide (i < length (rg_nodes r))) as [Hlt|Hge].
        -- rewrite lookup_app_l in Hn by done. eauto.
        -- rewrite lookup_app_r in Hn by lia. apply list_lookup_singleton_Some in Hn as [_ <-]. congruence.
  - intros i l j Hl Hj. rewrite length_app. simpl.
    destruct (decide (i < length (rg_imports r))) as [Hlt|Hge].
    + rewrite lookup_app_l in Hl by done. specialize (H3 i l j Hl Hj). lia.
    + rewrite lookup_app_r in Hl by lia. apply list_lookup_singleton_Some in Hl as [_ <-].
      by apply not_elem_of_nil in Hj.
  - by exists [node].
  - intros i l x Hl Hx. exists l. split; [|done]. rewrite lookup_app_l; [done|]. by eapply lookup_lt_Some.
Qed.

Lemma add_import_ok r index reached :
  registry_ok r → index < length (rg_nodes r) → (∀ j, reached = New j → j < length (rg_nodes r)) →
  registry_ok (add_import r index reached) ∧ extends r (add_import r index reached)
  ∧ ∀ j, reached = New j → links (add_import r index reached) index j.
Proof.
  intros [H1 H2 H3] Hidx Hj.
  destruct (lookup_lt_is_Some_2 (rg_imports r) index) as [l0 Hl0]; [lia|].
  split; [|split].
  - split; simpl; [by rewrite length_alter|done|]. intros i l j Hl Hin.
    destruct (decide (i = index)) as [->|Hne].
    + rewrite list_lookup_alter_eq, Hl0 in Hl. injection Hl as <-.
      apply elem_of_app in Hin as [Hin|Hin]; [by eapply H3|]. apply list_elem_of_singleton in Hin as <-. by apply Hj.
    + rewrite list_lookup_alter_ne in Hl by done. by eapply H3.
  - split; simpl; [done|]. intros i l x Hl Hx. destruct (decide (i = index)) as [->|Hne].
    + rewrite list_lookup_alter_eq, Hl. simpl. exists (l ++ [reached])%list. split; [done|]. apply elem_of_app. by left.
    + rewrite list_lookup_alter_ne by done. eauto.
  - intros j ->. split; [|by apply Hj]. simpl. rewrite list_lookup_alter_eq, Hl0. simpl.
    apply elem_of_app. right. by apply list_elem_of_singleton.
Qed.

(** ** The walk keeps the registry well-formed *)

(** One import of [enter]'s loop. *)
Definition enter_import (reach : @Walk M → M → Site → option (@Walk M * Import)) (index : nat)
    (acc : option (@Walk M)) (import : M * Location) : option (@Walk M) :=
  match acc with
  | None => None
  | Some w =>
      match reach w import.1 (SiteImport (New index) import.2) with
      | Some (w, reached) => Some (set_registry w (add_import (wk_registry w) index reached))
      | None => None
      end
  end.

Lemma enter_imports_none reach index imports : foldl (enter_import reach index) None imports = None.
Proof. by induction imports. Qed.

Definition reach_grows (reach : @Walk M → M → Site → option (@Walk M * Import)) : Prop :=
  ∀ w m s w' imp, registry_ok (wk_registry w) → reach w m s = Some (w', imp) → grows w w' imp.

(** The loop of [enter]: everything it adds is reached from the node it is about. *)
Record entering (index : nat) w0 w : Prop := {
  en_ok : registry_ok (wk_registry w);
  en_extends : extends (wk_registry w0) (wk_registry w);
  en_path : wk_path w = wk_path w0;
  en_index : index < length (rg_nodes (wk_registry w));
  en_reached : ∀ i, length (rg_nodes (wk_registry w0)) ≤ i < length (rg_nodes (wk_registry w)) →
    rtc (links (wk_registry w)) index i;
}.

Lemma enter_import_step reach index w0 w import w' :
  reach_grows reach → entering index w0 w →
  enter_import reach index (Some w) import = Some w' → entering index w0 w'.
Proof.
  intros Hreach [Hok Hext Hpath Hidx Hold] H. simpl in H.
  destruct (reach w import.1 _) as [[w1 reached]|] eqn:E; [|done]. injection H as <-.
  destruct (Hreach _ _ _ _ _ Hok E) as [Hok1 Hext1 Hpath1 Htgt _ Hnew].
  pose proof (extends_length _ _ Hext1).
  destruct (add_import_ok (wk_registry w1) index reached) as (Hok2 & Hext2 & Hlink); [done|lia|done|].
  split; simpl; [done|by do 2 (etrans; [done|])|congruence|lia|].
  intros i Hi. destruct (decide (i < length (rg_nodes (wk_registry w)))) as [Hlt|Hge].
  - eapply links_rtc_mono; [done|]. eapply links_rtc_mono; [done|]. apply Hold. lia.
  - destruct (Hnew i) as (j & -> & Hj); [lia|]. eapply rtc_l; [by apply Hlink|]. by eapply links_rtc_mono.
Qed.

Lemma enter_imports_entering reach index imports w0 w w' :
  reach_grows reach → entering index w0 w →
  foldl (enter_import reach index) (Some w) imports = Some w' → entering index w0 w'.
Proof.
  intros Hreach. revert w. induction imports as [|import imports IH]; intros w Hw H.
  - by injection H as <-.
  - cbn [foldl] in H. destruct (enter_import reach index (Some w) import) as [w1|] eqn:E.
    + by eapply IH; [eapply enter_import_step|].
    + by rewrite enter_imports_none in H.
Qed.

Lemma enter_grows reach w identity m site w' imp :
  reach_grows reach → registry_ok (wk_registry w) →
  Enter reach w identity m site = Some (w', imp) → grows w w' imp.
Proof.
  intros Hreach Hok H. unfold enter_with in H.
  destruct (rg_by_identity (wk_registry w) !! identity_id identity) as [node|] eqn:Eid.
  - apply (ro_identity _ Hok) in Eid as (n & Hn & _). pose proof (lookup_lt_Some _ _ _ Hn).
    rewrite Hn in H. case_bool_decide; injection H as <- <-.
    all: apply same_nodes_grows; [done|done|]; by intros j [= <-].
  - set (node := module_register m _) in H.
    assert (Hnode : nd_identity (clear_imports node) = identity) by (simpl; unfold node; by rewrite Hkeep).
    destruct (add_node_ok _ _ _ Hok Eid Hnode) as [Hok1 Hext1].
    change (foldl _ ?a ?l) with (foldl (enter_import reach (length (rg_nodes (wk_registry w)))) a l) in H.
    match type of H with context [foldl _ (Some ?w) _] => set (w1 := w) in H end.
    destruct (foldl _ _ _) as [w2|] eqn:Ef; [|done]. injection H as <- <-.
    apply (enter_imports_entering _ _ _ w1 w1) in Ef; [|done|split; simpl; [done|reflexivity|done|..]].
    + destruct Ef as [Hok2 Hext2 Hpath2 Hidx2 Hr2]. split; simpl; [done|by etrans|done|..].
      * by intros j [= <-].
      * by intros j [= <-].
      * intros i Hi. eexists. split; [done|].
        destruct (decide (i = length (rg_nodes (wk_registry w)))) as [->|Hne]; [done|].
        apply Hr2. simpl. rewrite length_app. simpl. lia.
    + rewrite length_app. simpl. lia.
    + intros i Hi. lia.
Qed.

Lemma replace_grows reach w m identity replacement site w' imp :
  reach_grows reach → registry_ok (wk_registry w) →
  replace_with module_identity module_settings module_register reach w m identity replacement site = Some (w', imp) →
  grows w w' imp.
Proof.
  intros Hreach Hok H. unfold replace_with in H.
  destruct (enter_with _ _ _ _ _ _ _) as [[w1 [node|id]]|] eqn:E; [|by injection H as <- <-; eapply enter_grows|done].
  apply enter_grows in E; [|done..]. destruct (existsb _ _); injection H as <- <-; [done|].
  destruct E as [Hok1 Hext1 Hpath1 Htgt1 Hfst1 Hr1]. split; simpl; try done.
  - by eapply same_nodes_ok; [|done].
  - etrans; [done|]. by apply same_nodes_extends.
Qed.

Lemma reach_ok fuel : reach_grows (Reach fuel).
Proof.
  induction fuel as [|fuel IH]; [done|]. intros w m s w' imp Hok H. cbn [reach] in H.
  destruct (base ≫= _) as [[b existing]|].
  - injection H as <- <-. by apply same_nodes_grows.
  - destruct (plan ≫= _) as [replacement|]; [by eapply replace_grows|by eapply enter_grows].
Qed.

Lemma registry_empty_ok : registry_ok (@registry_empty M).
Proof.
  split; simpl; [done|..].
  - intros k i. rewrite lookup_empty. split; [done|]. intros (n & Hn & _). by rewrite lookup_nil in Hn.
  - intros i l j Hl. by rewrite lookup_nil in Hl.
Qed.

(** What a finished walk is: every node once per identity, every import in range, and a collection
    order that holds every node once, imports first unless they close a cycle. *)
Record registered (r : @Registry M) : Prop := {
  rr_identities : NoDup ((λ n, identity_id (nd_identity n)) <$> rg_nodes r);
  rr_lookup : ∀ i n, rg_nodes r !! i = Some n → rg_by_identity r !! identity_id (nd_identity n) = Some i;
  rr_imports : ∀ i l j, rg_imports r !! i = Some l → New j ∈ l → j < length (rg_nodes r);
  rr_lengths : length (rg_imports r) = length (rg_nodes r);
  rr_order : rg_post_order r ≡ₚ seq 0 (length (rg_nodes r));
  rr_post : ∀ pre u post, rg_post_order r = (pre ++ u :: post)%list →
    ∀ v, links r u v → v ∈ pre ∨ rtc (links r) v u;
}.

Lemma registry_ok_identities r : registry_ok r → NoDup ((λ n, identity_id (nd_identity n)) <$> rg_nodes r).
Proof.
  intros Hok. apply NoDup_alt. intros i j x Hi Hj.
  apply list_lookup_fmap_Some in Hi as (a & -> & Ha). apply list_lookup_fmap_Some in Hj as (b & Hab & Hb).
  assert (H1 : rg_by_identity r !! identity_id (nd_identity a) = Some i) by (apply (ro_identity _ Hok); eauto).
  assert (H2 : rg_by_identity r !! identity_id (nd_identity a) = Some j) by (apply (ro_identity _ Hok); eauto).
  congruence.
Qed.

Lemma finish_registered m site fuel w imp :
  Reach fuel {| wk_registry := registry_empty; wk_path := [] |} m site = Some (w, imp) →
  registered (finish_walk w).
Proof.
  intros H. apply reach_ok in H; [|by apply registry_empty_ok].
  destruct H as [Hok _ _ _ Hfirst Hreached]. simpl in Hfirst, Hreached.
  set (r := wk_registry w) in *.
  assert (Horder : rg_post_order (finish_walk w) ≡ₚ seq 0 (length (rg_nodes r)) ∧
    ∀ pre u post, rg_post_order (finish_walk w) = (pre ++ u :: post)%list →
    ∀ v, links r u v → v ∈ pre ∨ rtc (links r) v u).
  { simpl. fold r. destruct (decide (0 < length (rg_nodes r))) as [Hpos|Hz].
    - destruct (collection_order_spec (length (rg_nodes r)) (rg_imports r) Hpos) as (Hnd & Hin & Hpost).
      split; [|done]. apply NoDup_Permutation; [done|apply NoDup_seq|]. intros v. rewrite Hin, elem_of_seq. split.
      + intros Hv. apply rtc_inv_r in Hv as [<-|(u & _ & [_ Hlt])]; lia.
      + intros Hv. destruct (Hreached v) as (j & Hj & Hr); [lia|].
        assert (j = 0) as -> by (specialize (Hfirst j Hj); lia). done.
    - assert (length (rg_nodes r) = 0) as E by lia. rewrite E. split; [done|].
      intros pre u post Hpre. by destruct pre. }
  destruct Horder as [Ho Hp]. split; simpl; fold r; try done.
  - by apply registry_ok_identities.
  - intros i n Hn. apply (ro_identity _ Hok). eauto.
  - apply (ro_imports _ Hok).
  - apply (ro_len _ Hok).
Qed.

(** ** The walk registers what is imported *)

(** What a module stands for in the walk: a module of the base graph, or a module to enter, which is
    the plan's replacement if there is one. *)
Definition resolved (m : M) : ModuleId + M :=
  match base ≫= λ b, g_by_identity b !! identity_id (module_identity m) with
  | Some id => inl id
  | None =>
      inr match plan ≫= λ p, find_first (λ x, identity_eqb (rm_original x) (module_identity m)) (tp_replacements p) with
          | Some x => rm_replacement x
          | None => m
          end
  end.

(** [imp] is where [m] is registered. *)
Definition names_module r (m : M) (imp : Import) : Prop :=
  match resolved m with
  | inl id => imp = Existing id
  | inr entered => ∃ j, imp = New j ∧ rg_by_identity r !! identity_id (module_identity entered) = Some j
  end.

(** What [register] of a module writes into the node it is given. *)
Definition written (m : M) (site : Site) (inherited : option Qualifier) : @ModuleNode M :=
  module_register m (node_start (module_identity m) (module_settings m) site inherited).

(** The modules entered on the way from [root]: itself, and what those import. *)
Inductive met (root : M) : M → Prop :=
  | met_root m : resolved root = inr m → met root m
  | met_import m site inherited import m' :
      met root m → import ∈ nd_imports (written m site inherited) → resolved import.1 = inr m' → met root m'.

(** Node [i] holds what one of the met modules wrote, and its imports are where each of the modules
    that one imports is registered, in the order it imports them. *)
Definition complete (root : M) r (i : nat) : Prop :=
  ∃ m site inherited l, met root m ∧ rg_nodes r !! i = Some (clear_imports (written m site inherited))
    ∧ rg_imports r !! i = Some l ∧ Forall2 (λ import, names_module r import.1) (nd_imports (written m site inherited)) l.

Lemma by_identity_mono r r' k i : registry_ok r → registry_ok r' → extends r r' →
  rg_by_identity r !! k = Some i → rg_by_identity r' !! k = Some i.
Proof.
  intros Hr Hr' He (n & Hn & Hid)%(ro_identity _ Hr). apply (ro_identity _ Hr'). exists n. split; [|done].
  eapply prefix_lookup_Some; [done|]. apply (ex_nodes _ _ He).
Qed.

Lemma names_mono r r' m imp : registry_ok r → registry_ok r' → extends r r' → names_module r m imp → names_module r' m imp.
Proof.
  intros Hr Hr' He. unfold names_module. destruct (resolved m); [done|]. intros (j & -> & Hj). exists j. split; [done|]. by apply (by_identity_mono r r').
Qed.

Lemma complete_mono root r r' i : registry_ok r → registry_ok r' → extends r r' → rg_imports r' !! i = rg_imports r !! i →
  complete root r i → complete root r' i.
Proof.
  intros Hr Hr' He Hi (m & site & inh & l & Hm & Hn & Hl & Hf). exists m, site, inh, l. split_and!; [done| |by rewrite Hi|].
  - eapply prefix_lookup_Some; [done|]. apply (ex_nodes _ _ He).
  - eapply Forall2_impl; [exact Hf|]. intros import imp. by apply names_mono.
Qed.

(** What one step of the walk leaves: the imports of the nodes already there as they were, every new
    node complete, and where its module is registered. *)
Record fills (root : M) w w' (m : M) (imp : Import) : Prop := {
  fl_same : ∀ i, i < length (rg_nodes (wk_registry w)) → rg_imports (wk_registry w') !! i = rg_imports (wk_registry w) !! i;
  fl_complete : ∀ i, length (rg_nodes (wk_registry w)) ≤ i < length (rg_nodes (wk_registry w')) → complete root (wk_registry w') i;
  fl_names : names_module (wk_registry w') m imp;
}.

Definition reach_fills (root : M) (reach : @Walk M → M → Site → option (@Walk M * Import)) : Prop :=
  ∀ w m s w' imp, registry_ok (wk_registry w) → (∀ entered, resolved m = inr entered → met root entered) →
    reach w m s = Some (w', imp) → fills root w w' m imp.

(** [enter]'s loop after the imports [before]. *)
Record filling (root : M) (index : nat) w0 w (before : list (M * Location)) : Prop := {
  fg_entering : entering index w0 w;
  fg_same : ∀ i, i < index → rg_imports (wk_registry w) !! i = rg_imports (wk_registry w0) !! i;
  fg_index : ∃ l, rg_imports (wk_registry w) !! index = Some l ∧ Forall2 (λ import, names_module (wk_registry w) import.1) before l;
  fg_complete : ∀ i, index < i < length (rg_nodes (wk_registry w)) → complete root (wk_registry w) i;
}.

Lemma add_import_other r index reached i : i ≠ index → rg_imports (add_import r index reached) !! i = rg_imports r !! i.
Proof. intros Hi. simpl. by rewrite list_lookup_alter_ne. Qed.

Lemma enter_import_fills root reach index w0 w before import w' :
  reach_grows reach → reach_fills root reach → filling root index w0 w before →
  (∀ entered, resolved import.1 = inr entered → met root entered) →
  enter_import reach index (Some w) import = Some w' → filling root index w0 w' (before ++ [import]).
Proof.
  intros Hreach Hfill [Hent Hsame (l & Hl & Hf) Hc] Hmet H. pose proof (enter_import_step _ _ _ _ _ _ Hreach Hent H) as Hent'.
  simpl in H. destruct (reach w import.1 _) as [[w1 reached]|] eqn:E; [|done]. injection H as <-.
  pose proof Hent as [Hok _ _ Hidx _]. pose proof (Hreach _ _ _ _ _ Hok E) as [Hok1 Hext1 _ Htgt _ _].
  destruct (Hfill _ _ _ _ _ Hok Hmet E) as [Hs1 Hc1 Hn1]. pose proof (extends_length _ _ Hext1) as Hlen.
  destruct (add_import_ok (wk_registry w1) index reached) as (Hok2 & Hext2 & _); [done|lia|done|].
  split; cbn [set_registry wk_registry].
  - done.
  - intros i Hi. rewrite add_import_other, Hs1 by lia. by apply Hsame.
  - exists (l ++ [reached])%list. split; [cbn [add_import rg_imports]; rewrite list_lookup_alter_eq, Hs1, Hl by done; done|].
    apply Forall2_app; [|constructor; [by eapply names_mono|constructor]].
    eapply Forall2_impl; [exact Hf|]. intros x imp Hx. eapply names_mono; [..|exact Hx]; [done|done|by etrans].
  - intros i [Hi Hlt]. change (rg_nodes (add_import _ _ _)) with (rg_nodes (wk_registry w1)) in Hlt.
    eapply complete_mono; [exact Hok1|done|done|apply add_import_other; lia|].
    destruct (decide (i < length (rg_nodes (wk_registry w)))) as [Hold|Hnew]; [|apply Hc1; lia].
    eapply complete_mono; [exact Hok|done|done|by apply Hs1|]. apply Hc. lia.
Qed.

Lemma enter_imports_fill root reach index imports w0 w before w' :
  reach_grows reach → reach_fills root reach → filling root index w0 w before →
  (∀ import entered, import ∈ imports → resolved import.1 = inr entered → met root entered) →
  foldl (enter_import reach index) (Some w) imports = Some w' → filling root index w0 w' (before ++ imports).
Proof.
  intros Hreach Hfill. revert w before. induction imports as [|import imports IH]; intros w before Hw Hmet H.
  - injection H as <-. by rewrite app_nil_r.
  - cbn [foldl] in H. destruct (enter_import reach index (Some w) import) as [w1|] eqn:E; [|by rewrite enter_imports_none in H].
    replace (before ++ import :: imports)%list with ((before ++ [import]) ++ imports)%list by by rewrite <- app_assoc.
    eapply IH; [eapply enter_import_fills; [done|done|done| |exact E]|..|exact H].
    + intros entered. apply Hmet. by left.
    + intros x entered Hx. apply Hmet. by right.
Qed.

(** Entering [m] registers its identity, whoever is walking. *)
Definition enters (root : M) w w' (m : M) (imp : Import) : Prop :=
  (∀ i, i < length (rg_nodes (wk_registry w)) → rg_imports (wk_registry w') !! i = rg_imports (wk_registry w) !! i)
  ∧ (∀ i, length (rg_nodes (wk_registry w)) ≤ i < length (rg_nodes (wk_registry w')) → complete root (wk_registry w') i)
  ∧ ∃ j, imp = New j ∧ rg_by_identity (wk_registry w') !! identity_id (module_identity m) = Some j.

Lemma enter_fills root reach w m site w' imp :
  reach_grows reach → reach_fills root reach → registry_ok (wk_registry w) → met root m →
  Enter reach w (module_identity m) m site = Some (w', imp) → enters root w w' m imp.
Proof.
  intros Hreach Hfill Hok Hm H. unfold enter_with in H.
  destruct (rg_by_identity (wk_registry w) !! identity_id (module_identity m)) as [node|] eqn:Eid.
  - pose proof Eid as Eid'. apply (ro_identity _ Hok) in Eid' as (n & Hn & _). rewrite Hn in H.
    case_bool_decide; injection H as <- <-; (split_and!; [done|cbn; lia|by exists node]).
  - fold (written m site (inherited_keyed w)) in H. set (inh := inherited_keyed w) in *.
    assert (Hnode : nd_identity (clear_imports (written m site inh)) = module_identity m) by (simpl; unfold written; by rewrite Hkeep).
    destruct (add_node_ok _ _ _ Hok Eid Hnode) as [Hok1 Hext1].
    change (foldl _ ?a ?l) with (foldl (enter_import reach (length (rg_nodes (wk_registry w)))) a l) in H.
    match type of H with context [foldl _ (Some ?w) _] => set (w1 := w) in H end.
    destruct (foldl _ _ _) as [w2|] eqn:Ef; [|done]. injection H as <- <-.
    assert (Hlen : length (rg_nodes (wk_registry w1)) = S (length (rg_nodes (wk_registry w)))) by (cbn; rewrite length_app; simpl; lia).
    assert (Hent : entering (length (rg_nodes (wk_registry w))) w1 w1) by (split; [done|reflexivity|done|lia|lia]).
    assert (Hstart : filling root (length (rg_nodes (wk_registry w))) w1 w1 []).
    { split; [done|done| |lia]. exists []. split; [|constructor]. cbn. rewrite lookup_app_r, (ro_len _ Hok), Nat.sub_diag by (rewrite (ro_len _ Hok); lia). done. }
    apply (enter_imports_fill root _ _ _ w1 w1 [] w2 Hreach Hfill Hstart) in Ef; [|by intros import entered Hi Hr; eapply met_import].
    destruct Ef as [[Hok2 Hext2 _ _ _] Hs2 (l & Hl & Hf) Hc2]. cbn [app] in Hf. split_and!; cbn [wk_registry].
    + intros i Hi. rewrite Hs2 by done. cbn. rewrite lookup_app_l by (rewrite (ro_len _ Hok); lia). done.
    + intros i Hi. destruct (decide (i = length (rg_nodes (wk_registry w)))) as [->|Hne]; [|apply Hc2; lia].
      exists m, site, inh, l. split_and!; [done| |done|done]. eapply prefix_lookup_Some; [|apply (ex_nodes _ _ Hext2)].
      cbn. by rewrite lookup_app_r, Nat.sub_diag by lia.
    + exists (length (rg_nodes (wk_registry w))). split; [done|]. eapply by_identity_mono; [exact Hok1|done|done|]. cbn. by rewrite lookup_insert_eq.
Qed.

Lemma reach_fills_all root fuel : reach_fills root (Reach fuel).
Proof.
  induction fuel as [|fuel IH]; [done|]. intros w m s w' imp Hok Hmet H. cbn [reach] in H.
  unfold resolved in Hmet.
  destruct (base ≫= λ b, g_by_identity b !! identity_id (module_identity m)) as [existing|] eqn:Ex.
  - apply bind_Some in Ex as (b & Eb & Ex). rewrite Eb in H at 1. cbn in H. rewrite Ex in H. cbn in H.
    injection H as <- <-. split; [done|cbn; lia|]. unfold names_module, resolved. rewrite Eb. cbn. by rewrite Ex.
  - assert (En : base ≫= (λ b, (λ id, (b, id)) <$> g_by_identity b !! identity_id (module_identity m)) = None).
    { destruct base as [b|]; [|done]. cbn in Ex |- *. by rewrite Ex. }
    rewrite En in H. clear En.
    assert (Hnames : ∀ w1 entered imp1, resolved m = inr entered → enters root w w1 entered imp1 → fills root w w1 m imp1).
    { intros w1 entered imp1 Hr (H1 & H2 & j & -> & Hj). split; [done|done|]. unfold names_module. rewrite Hr. eauto. }
    unfold resolved in Hnames. rewrite Ex in Hnames.
    destruct (plan ≫= _) as [x|] eqn:Ep.
    + unfold replace_with in H. destruct (enter_with _ _ _ _ _ _ _) as [[w1 imp1]|] eqn:E; [|done].
      apply (enter_fills root) in E; [|apply reach_ok|done|done|by apply Hmet]. pose proof (Hnames _ _ _ eq_refl E) as [H1 H2 H3].
      destruct imp1 as [node|id]; [|by injection H as <- <-]. destruct (existsb _ _); injection H as <- <-; [done|]. by split.
    + apply (Hnames _ m); [done|]. eapply enter_fills; [apply reach_ok|done|done|by apply Hmet|exact H].
Qed.

(** What a finished walk from [root] registered: the root first, unless the base graph has it; every
    node complete, so with a node for everything it imports; and nothing that is not reached. *)
Record walked (root : M) (r : @Registry M) : Prop := {
  wd_root : match resolved root with
            | inl _ => rg_nodes r = []
            | inr entered => rg_by_identity r !! identity_id (module_identity entered) = Some 0
            end;
  wd_complete : ∀ i, i < length (rg_nodes r) → complete root r i;
  wd_reached : ∀ i, i < length (rg_nodes r) → rtc (links r) 0 i;
}.

Lemma finish_walked m site fuel w imp :
  Reach fuel {| wk_registry := registry_empty; wk_path := [] |} m site = Some (w, imp) → walked m (finish_walk w).
Proof.
  intros H. pose proof (reach_ok fuel {| wk_registry := registry_empty; wk_path := [] |} m site w imp registry_empty_ok H) as [_ _ _ _ Hfirst Hreached].
  destruct (reach_fills_all m fuel {| wk_registry := registry_empty; wk_path := [] |} m site w imp registry_empty_ok (λ x Hx, met_root m x Hx) H) as [_ Hc Hn]. simpl in Hfirst, Hreached, Hc.
  split.
  - cbn. unfold names_module in Hn. destruct (resolved m) as [id|entered].
    + destruct (rg_nodes (wk_registry w)) as [|n l] eqn:E; [done|]. destruct (Hreached 0) as (j & -> & _); [simpl; lia|done].
    + destruct Hn as (j & -> & Hj). specialize (Hfirst j eq_refl). by replace j with 0 in Hj by lia.
  - intros i Hi. destruct (Hc i) as (x & s & inh & l & H1 & H2 & H3 & H4); [simpl in Hi; lia|]. by exists x, s, inh, l.
  - intros i Hi. destruct (Hreached i) as (j & Hj & Hr); [simpl in Hi; lia|]. by replace j with 0 in Hr by (specialize (Hfirst j Hj); lia).
Qed.

(** ** The walk ends

    A walk over modules of finitely many identities needs no more fuel than identities. *)

Context (ids : gset IdentityId) (walks : M → Prop).

(** The modules a walk meets: their identities are finite in number, and what they import and what
    a plan puts in their place are modules of the walk too. *)
Record walkable : Prop := {
  wa_ids : ∀ m, walks m → identity_id (module_identity m) ∈ ids;
  wa_imports : ∀ m n import, walks m → nd_imports n = [] → import ∈ nd_imports (module_register m n) → walks import.1;
  wa_plan : ∀ p x, plan = Some p → x ∈ tp_replacements p → walks (rm_replacement x);
}.
Context (Hwalk : walkable).

Definition unmet r : gset IdentityId := ids ∖ dom (rg_by_identity r).

Definition reach_ends (fuel : nat) (reach : @Walk M → M → Site → option (@Walk M * Import)) : Prop :=
  ∀ w m s, walks m → registry_ok (wk_registry w) → size (unmet (wk_registry w)) < fuel → is_Some (reach w m s).

Lemma extends_unmet r r' : registry_ok r → registry_ok r' → extends r r' → size (unmet r') ≤ size (unmet r).
Proof.
  intros Hr Hr' He. apply subseteq_size. unfold unmet. intros k [Hk Hnot]%elem_of_difference.
  apply elem_of_difference. split; [done|]. contradict Hnot. apply elem_of_dom in Hnot as [i Hi].
  apply (ro_identity _ Hr) in Hi as (n & Hn & Hid). apply elem_of_dom. exists i. apply (ro_identity _ Hr').
  exists n. split; [|done]. eapply prefix_lookup_Some; [done|]. apply (ex_nodes _ _ He).
Qed.

Lemma add_node_unmet r identity node :
  rg_by_identity r !! identity_id identity = None → identity_id identity ∈ ids →
  S (size (unmet (add_node r identity node))) = size (unmet r).
Proof.
  intros Hnew Hin. unfold unmet. simpl. rewrite dom_insert_L.
  set (k := identity_id identity) in *. set (d := dom (rg_by_identity r)).
  assert (k ∉ d) by by apply not_elem_of_dom.
  assert (E : ids ∖ d = {[k]} ∪ ids ∖ ({[k]} ∪ d)).
  { apply set_eq. intros x. rewrite elem_of_union, !elem_of_difference, elem_of_singleton, elem_of_union, elem_of_singleton.
    destruct (decide (x = k)) as [->|]; tauto. }
  rewrite E, (size_union {[k]}), size_singleton; [done|]. set_solver.
Qed.

Lemma enter_imports_end fuel reach index w0 imports :
  reach_grows reach → reach_ends fuel reach → registry_ok (wk_registry w0) → size (unmet (wk_registry w0)) < fuel →
  (∀ import, import ∈ imports → walks import.1) →
  ∀ w, entering index w0 w → is_Some (foldl (enter_import reach index) (Some w) imports).
Proof.
  intros Hg Hends Hok0 Hsize. induction imports as [|import imports IH]; intros Hw w Hent; [by eexists|].
  cbn [foldl]. destruct (Hends w import.1 (SiteImport (New index) import.2)) as [[w1 reached] E].
  - apply Hw. by left.
  - by destruct Hent.
  - destruct Hent as [Hok Hext _ _ _]. pose proof (extends_unmet _ _ Hok0 Hok Hext). lia.
  - assert (Estep : enter_import reach index (Some w) import =
      Some (set_registry w1 (add_import (wk_registry w1) index reached))) by (simpl; by rewrite E).
    rewrite Estep. apply IH; [intros x Hx; apply Hw; by right|]. by eapply enter_import_step.
Qed.

Lemma enter_ends fuel reach w identity m site :
  reach_grows reach → reach_ends fuel reach → registry_ok (wk_registry w) →
  walks m → identity_id identity ∈ ids → size (unmet (wk_registry w)) ≤ fuel →
  is_Some (Enter reach w identity m site).
Proof.
  intros Hg Hends Hok Hm Hid Hsize. unfold enter_with.
  destruct (rg_by_identity (wk_registry w) !! identity_id identity) as [node|] eqn:Eid.
  - apply (ro_identity _ Hok) in Eid as (n & Hn & _). rewrite Hn. case_bool_decide; by eexists.
  - set (node := module_register m _).
    assert (Hnode : nd_identity (clear_imports node) = identity) by (simpl; unfold node; by rewrite Hkeep).
    destruct (add_node_ok _ _ _ Hok Eid Hnode) as [Hok1 Hext1].
    change (foldl _ ?a ?l) with (foldl (enter_import reach (length (rg_nodes (wk_registry w)))) a l).
    set (w1 := {| wk_registry := _; wk_path := _ |}).
    assert (Hent : entering (length (rg_nodes (wk_registry w))) w1 w1).
    { split; simpl; [done|reflexivity|done|rewrite length_app; simpl; lia|lia]. }
    assert (Hsize1 : size (unmet (wk_registry w1)) < fuel).
    { pose proof (add_node_unmet _ identity (clear_imports node) Eid Hid). simpl in *. lia. }
    assert (Himp : ∀ import, import ∈ nd_imports node → walks import.1).
    { intros import Hi. by eapply (wa_imports Hwalk); [..|exact Hi]. }
    destruct (enter_imports_end fuel reach _ w1 (nd_imports node) Hg Hends Hok1 Hsize1 Himp w1 Hent) as [w2 ->].
    by eexists.
Qed.

Lemma reach_ends_all fuel : reach_ends fuel (Reach fuel).
Proof.
  induction fuel as [|fuel IH]; intros w m s Hm Hok Hsize; [lia|]. cbn [reach].
  destruct (base ≫= _) as [[b existing]|]; [by eexists|].
  destruct (plan ≫= _) as [replacement|] eqn:Ep.
  - apply bind_Some in Ep as (p & Hp & Hr). apply find_first_Some in Hr as [_ Hr].
    assert (Hw : walks (rm_replacement replacement)) by by eapply (wa_plan Hwalk).
    unfold replace_with.
    destruct (enter_ends fuel (Reach fuel) w (module_identity (rm_replacement replacement)) (rm_replacement replacement) s)
      as [[w1 [node|id]] ->]; [apply reach_ok|done|done|done|by apply (wa_ids Hwalk)|lia| |by eexists].
    destruct (existsb _ _); by eexists.
  - apply (enter_ends fuel); [apply reach_ok|done|done|done|by apply (wa_ids Hwalk)|lia].
Qed.

Lemma register_from_ends m site fuel : walks m → size ids < fuel →
  ∃ r, register_from module_identity module_settings module_register base plan fuel m site = Some r ∧ registered r ∧ walked m r.
Proof.
  intros Hm Hsize. unfold register_from.
  destruct (reach_ends_all fuel {| wk_registry := registry_empty; wk_path := [] |} m site) as [[w imp] E].
  - done.
  - apply registry_empty_ok.
  - eapply Nat.le_lt_trans; [|exact Hsize]. apply subseteq_size. unfold unmet. set_solver.
  - eexists. rewrite E. split_and!; [done|by eapply finish_registered|by eapply finish_walked].
Qed.
End Facts.
