(* ===== verification/Freeze.v ===== *)
(** * Freeze: the registry appended to the graph

    [freeze] of [crates/ulo/src/graph/wire.rs] and what it calls: the test plan's overrides and
    collections, the timer module, the transports' inputs. A loop that pushes errors answers them,
    or threads them beside what it changes. The types [dyn Timer], [dyn Runtime] and
    [TimerModule] are compile-time names the section is given. *)

From S2P Require Import Prelude Text Key Graph WiringError Tarjan Cycles Order Redact Scopes Visibility Register.
Local Open Scope string_scope.
Local Open Scope nat_scope.

(** [wire::WireEnv]. *)
Record WireEnv := {
  we_timer : option Handle;
  we_runtime : option Handle;
  we_knobs_set : list string;
  we_zero_defaults : list (string * Location);
}.

(** [wire::Steps]. *)
Record Steps := {
  sp_modules : list WiringError;
  sp_bindings : list WiringError;
  sp_dependencies : list WiringError;
  sp_cycles : list WiringError;
  sp_scopes : list WiringError;
  sp_environment : list WiringError;
}.

Definition into_errors (s : Steps) : list WiringError :=
  (sp_modules s ++ sp_bindings s ++ sp_dependencies s ++ sp_cycles s ++ sp_scopes s ++ sp_environment s)%list.

(** The core's types, by name. *)
Record CoreTypes := {
  core_timer : TypeName;
  core_runtime : TypeName;
  core_timer_module : TypeName;
  core_location : Location;
}.

(** [Key::of::<T, ()>()]. *)
Definition key_of (ty : TypeName) : Key :=
  {| key_ty := ty; key_qualifier := from_parts (q_id qualifier_none) (q_name qualifier_none) |}.

(** [unqualified] and [qualifier_of]. *)
Definition unqualified (key : Key) : Key := with_qualifier key (q_id qualifier_none) (q_name qualifier_none).
Definition qualifier_of (key : Key) : Qualifier :=
  {| q_id := qualifier_id key; q_name := default (q_name qualifier_none) (qualifier_name key) |}.

Definition name_at (names : list ModuleName) (index : nat) : ModuleName :=
  default (fm_name no_module) (names !! index).

Definition set_recipe (r : BindingRecord) (recipe : Recipe) (dependencies : Dependencies) : BindingRecord := {|
  br_primary := br_primary r; br_qualifier := br_qualifier r; br_built := br_built r;
  br_into_primary := br_into_primary r; br_also := br_also r; br_kind := br_kind r; br_scope := br_scope r;
  br_controller := br_controller r; br_controller_type := br_controller_type r; br_recipe := recipe;
  br_dependencies := dependencies; br_construct_bound := br_construct_bound r;
  br_construct_bound_at := br_construct_bound_at r; br_ready := br_ready r;
  br_replaced_ready := br_replaced_ready r; br_hooks := br_hooks r; br_constructs := br_constructs r;
  br_location := br_location r |}.

Definition set_also (r : BindingRecord) (also : list AlsoAs) : BindingRecord := {|
  br_primary := br_primary r; br_qualifier := br_qualifier r; br_built := br_built r;
  br_into_primary := br_into_primary r; br_also := also; br_kind := br_kind r; br_scope := br_scope r;
  br_controller := br_controller r; br_controller_type := br_controller_type r; br_recipe := br_recipe r;
  br_dependencies := br_dependencies r; br_construct_bound := br_construct_bound r;
  br_construct_bound_at := br_construct_bound_at r; br_ready := br_ready r;
  br_replaced_ready := br_replaced_ready r; br_hooks := br_hooks r; br_constructs := br_constructs r;
  br_location := br_location r |}.

Definition set_qualifier (r : BindingRecord) (q : Qualifier) : BindingRecord := {|
  br_primary := br_primary r; br_qualifier := q; br_built := br_built r;
  br_into_primary := br_into_primary r; br_also := br_also r; br_kind := br_kind r; br_scope := br_scope r;
  br_controller := br_controller r; br_controller_type := br_controller_type r; br_recipe := br_recipe r;
  br_dependencies := br_dependencies r; br_construct_bound := br_construct_bound r;
  br_construct_bound_at := br_construct_bound_at r; br_ready := br_ready r;
  br_replaced_ready := br_replaced_ready r; br_hooks := br_hooks r; br_constructs := br_constructs r;
  br_location := br_location r |}.

#[export] Instance ModuleName_eq_dec : EqDecision ModuleName.
Proof. solve_decision. Defined.

Section Freeze.
Context {M : Type}.
Abbreviation Node := (@ModuleNode M) (only parsing).

(** A node with other bindings, controllers and enhancer marks. *)
Definition set_records (n : Node) (bindings : list BindingRecord) (controllers : list ControllerRecord)
    (enhancers : list nat) : Node := {|
  nd_identity := nd_identity n; nd_global := nd_global n; nd_keyed := nd_keyed n;
  nd_nested_keyed := nd_nested_keyed n; nd_inherited_keyed := nd_inherited_keyed n; nd_imports := nd_imports n;
  nd_bindings := bindings; nd_enhancers := enhancers; nd_exports := nd_exports n;
  nd_controllers := controllers; nd_inputs := nd_inputs n; nd_hooks := nd_hooks n; nd_meta := nd_meta n;
  nd_secrets := nd_secrets n; nd_failures := nd_failures n; nd_settings := nd_settings n; nd_site := nd_site n |}.

Definition bindings_at (nodes : list Node) (index : nat) : list BindingRecord :=
  default [] (nd_bindings <$> nodes !! index).

(** ** The timer module *)

Definition timer_value (core : CoreTypes) (ty : TypeName) (value : Handle) : BindingRecord * ExportRecord :=
  (binding_record (key_of ty) (tn_name ty) BSingle KSingleton (Value value) dependencies_default (core_location core),
   {| ex_key := key_of ty; ex_reexport := false; ex_location := core_location core |}).

(** [add_timer_module]. *)
Definition add_timer_module (core : CoreTypes) (r : @Registry M) (timer : Handle) (runtime : option Handle)
    : @Registry M :=
  let label := match runtime with Some _ => "AppBuilder::runtime" | None => "AppBuilder::timer" end in
  let identity := {| mi_ty := tn_id (core_timer_module core); mi_ty_name := tn_name (core_timer_module core);
                     mi_config := None; mi_qualifier := None; mi_label := Some label |} in
  let values :=
    timer_value core (core_timer core) timer
      :: match runtime with Some runtime => [timer_value core (core_runtime core) runtime] | None => [] end in
  let node : Node := {|
    nd_identity := identity; nd_global := true; nd_keyed := None; nd_nested_keyed := None;
    nd_inherited_keyed := None; nd_imports := []; nd_bindings := values.*1; nd_enhancers := [];
    nd_exports := values.*2; nd_controllers := []; nd_inputs := []; nd_hooks := []; nd_meta := [];
    nd_secrets := []; nd_failures := []; nd_settings := module_settings_new; nd_site := SiteRoot |} in
  let index := length (rg_nodes r) in {|
  rg_nodes := (rg_nodes r ++ [node])%list;
  rg_by_identity := <[identity_id identity := index]> (rg_by_identity r);
  rg_imports := (rg_imports r ++ [[]])%list;
  rg_post_order := index :: rg_post_order r;
  rg_self_imports := rg_self_imports r; rg_replaced := rg_replaced r; rg_differing := rg_differing r;
  rg_repeats := rg_repeats r |}.

(** ** Overrides *)

Definition single_under (key : Key) (record : BindingRecord) : bool :=
  bool_decide (br_kind record = BSingle) && existsb (λ k, key_eqb k key) (keys record).
Definition contributes_to (key : Key) (record : BindingRecord) : bool :=
  bool_decide (br_kind record = BCollection) && key_eqb (record_key record) key.

(** [one_instance]: the module, or the error it reports. *)
Definition one_instance (nodes : list Node) (post_order : list nat) (names : list ModuleName) (ty : TypeId)
    (qualifier : option Qualifier) (name : string) (ov : Override) : WiringError + nat :=
  let found := filterb (λ node,
    let identity := default no_identity (nd_identity <$> nodes !! node) in
    bool_decide (mi_ty identity = ty)
    && (bool_decide (qualifier = None) || bool_decide (mi_qualifier identity = qualifier))) post_order in
  match found with
  | [one] => inr one
  | [] => inl (OverrideUnmatched (key_name_of (ov_key ov) BSingle) None (ov_location ov))
  | several => inl (OverrideModuleAmbiguous name (name_at names <$> several) (ov_location ov))
  end.

(** [keyed_binder]. *)
Definition keyed_binder (nodes : list Node) (names : list ModuleName) (modules : list nat) (key : Key)
    : option ModuleName :=
  if is_unqualified key then None
  else
    let bare := unqualified key in
    name_at names <$> find_first (λ module,
      bool_decide (q_id <$> (nodes !! module ≫= nd_keyed) = Some (qualifier_id key))
      && existsb (single_under bare) (bindings_at nodes module)) modules.

(** [replace_recipe]. *)
Definition replace_recipe (node : Node) (position : nat) (ov : Override) : Node :=
  match nd_bindings node !! position with
  | None => node
  | Some record =>
      if key_eqb (record_key record) (ov_key ov) then
        set_records node (<[position := set_recipe record (ov_recipe ov) (ov_dependencies ov)]> (nd_bindings node))
          (nd_controllers node) (nd_enhancers node)
      else
        let qualifier := br_qualifier record in
        let kept := filterb (λ also,
          negb (key_eqb (with_qualifier (aa_key also) (q_id qualifier) (q_name qualifier)) (ov_key ov))) (br_also record) in
        let split := set_qualifier
          (binding_record (unqualified (ov_key ov)) (tn_name (key_ty (ov_key ov))) BSingle (br_scope record)
             (ov_recipe ov) (ov_dependencies ov) (ov_location ov)) qualifier in
        set_records node (<[position := set_also record kept]> (nd_bindings node) ++ [split])%list
          (nd_controllers node) (nd_enhancers node)
  end.

(** [Vec::dedup]: runs of equal neighbours. *)
Fixpoint dedup {A} `{EqDecision A} (l : list A) : list A :=
  match l with
  | x :: (y :: _) as t => if bool_decide (x = y) then dedup t else x :: dedup t
  | _ => l
  end.

(** The modules an override is looked for in, or the error its target reports. *)
Definition override_modules (r : @Registry M) (nodes : list Node) (names : list ModuleName) (ov : Override)
    : WiringError + list nat :=
  match ov_target ov with
  | Unscoped | Everywhere => inr (rg_post_order r)
  | ModuleType ty name =>
      match one_instance nodes (rg_post_order r) names ty None name ov with inl e => inl e | inr m => inr [m] end
  | ModuleKeyed ty name qualifier =>
      match one_instance nodes (rg_post_order r) names ty (Some qualifier) name ov with
      | inl e => inl e
      | inr m => inr [m]
      end
  | OnModule identity =>
      match rg_by_identity r !! identity_id identity with
      | Some m => inr [m]
      | None => inl (OverrideUnmatched (key_name_of (ov_key ov) BSingle) None (ov_location ov))
      end
  end.

Definition override_matches (nodes : list Node) (modules : list nat) (key : Key) : list (nat * nat) :=
  modules ≫= λ m,
    omap (λ pr : nat * BindingRecord, if single_under key pr.2 then Some (m, pr.1) else None)
      (imap pair (bindings_at nodes m)).

(** One round of [apply_overrides]: what the override replaces, or its error. *)
Definition override_plan (core : CoreTypes) (r : @Registry M) (nodes : list Node) (names : list ModuleName)
    (ov : Override) : WiringError + list (nat * nat) :=
  if key_eqb (ov_key ov) (key_of (core_timer core)) then inl (TimerOverride (ov_location ov))
  else if key_eqb (ov_key ov) (key_of (core_runtime core)) then inl (RuntimeOverride (ov_location ov))
  else
    match override_modules r nodes names ov with
    | inl e => inl e
    | inr modules =>
        let key := key_name_of (ov_key ov) BSingle in
        match override_matches nodes modules (ov_key ov) with
        | [] =>
            if existsb (λ m, existsb (contributes_to (ov_key ov)) (bindings_at nodes m)) modules
            then inl (OverrideKind key BCollection BSingle (ov_location ov))
            else inl (OverrideUnmatched key (keyed_binder nodes names modules (ov_key ov)) (ov_location ov))
        | matches =>
            if bool_decide (1 < length matches) && match ov_target ov with Unscoped => true | _ => false end
            then inl (OverrideAmbiguous key (dedup ((λ mp, name_at names mp.1) <$> matches)) (ov_location ov))
            else inr matches
        end
    end.

Definition apply_override (core : CoreTypes) (r : @Registry M) (names : list ModuleName)
    (s : list Node * list WiringError) (ov : Override) : list Node * list WiringError :=
  match override_plan core r s.1 names ov with
  | inl e => (s.1, (s.2 ++ [e])%list)
  | inr matches => (foldl (λ nodes mp, alter (λ n, replace_recipe n mp.2 ov) mp.1 nodes) s.1 matches, s.2)
  end.

Definition apply_overrides (core : CoreTypes) (r : @Registry M) (names : list ModuleName) (overrides : list Override)
    (nodes : list Node) : list Node * list WiringError :=
  foldl (apply_override core r names) (nodes, []) overrides.

(** ** Collections *)

(** How many of the first [position] records are removed: [removed_before]. *)
Definition removed_before (key : Key) (records : list BindingRecord) (position : nat) : nat :=
  length (filterb (contributes_to key) (take position records)).

Definition shift_position (key : Key) (records : list BindingRecord) (position : nat) : nat :=
  if bool_decide (position < length records) then position - removed_before key records position else position.

(** [remove_contributions]. *)
Definition remove_contributions (node : Node) (key : Key) : Node * nat :=
  let records := nd_bindings node in
  let kept := filterb (λ r, negb (contributes_to key r)) records in
  let gone position := default false (contributes_to key <$> records !! position) in
  (set_records node kept
     ((λ c, {| ct_binding := shift_position key records (ct_binding c); ct_mount := ct_mount c; ct_prefix := ct_prefix c |})
        <$> nd_controllers node)
     (shift_position key records <$> filterb (λ position, negb (gone position)) (nd_enhancers node)),
   length (filterb (contributes_to key) records)).

Definition collection_record (co : CollectionOverride) (item : Handle) : BindingRecord :=
  set_qualifier
    (binding_record (unqualified (co_key co)) (tn_name (key_ty (co_key co))) BCollection KSingleton (Value item)
       dependencies_default (co_location co)) (qualifier_of (co_key co)).

Definition apply_collection (s : list Node * list WiringError) (co : CollectionOverride)
    : list Node * list WiringError :=
  let '(nodes, errors) := s in
  let done := (λ n, remove_contributions n (co_key co)) <$> nodes in
  let nodes := done.*1 in
  if bool_decide (foldr Nat.add 0 done.*2 = 0) then
    let single := existsb (λ n, existsb (single_under (co_key co)) (nd_bindings n)) nodes in
    let key := key_name_of (co_key co) BCollection in
    (nodes, (errors ++ [if single then OverrideKind key BSingle BCollection (co_location co)
                        else OverrideUnmatched key None (co_location co)])%list)
  else
    (alter (λ root, set_records root (nd_bindings root ++ (collection_record co <$> co_items co))%list
                      (nd_controllers root) (nd_enhancers root)) 0 nodes, errors).

Definition apply_collections (collections : list CollectionOverride) (nodes : list Node)
    : list Node * list WiringError :=
  foldl apply_collection (nodes, []) collections.

(** ** Transports' inputs *)

(** What the freeze threads from module to module. *)
Record freezing := {
  fz_modules : list FrozenModule;
  fz_bindings : list FrozenBinding;
  fz_inputs : gmap KeyId InputDecl;
  fz_by_identity : gmap IdentityId ModuleId;
  fz_handlers : list HandlerRecord;
  fz_contributions : gmap KeyId (list BindingId);
  fz_seen : gset TypeId;
  fz_declared : Declared;
  fz_module_errors : list WiringError;
  fz_binding_errors : list WiringError;
}.

(** The declaration an input of a transport makes. *)
Definition transport_decl (transport : TypeName) (input : InputKey) : InputDecl := {|
  in_key := ik_key input;
  in_seeders := transport :: filterb (λ seeder, negb (type_name_eqb seeder transport)) (ik_also input);
  in_origin := OTransport transport (ik_location input) |}.

(** One input of [declare_transport_inputs]. *)
Definition declare_input (inputs : gmap KeyId InputDecl) (decl : InputDecl) : gmap KeyId InputDecl :=
  let entry := default decl (inputs !! key_id (in_key decl)) in
  let named := forallb (λ seeder, existsb (type_name_eqb seeder) (in_seeders decl)) (in_seeders entry) in
  let seeders :=
    match in_origin entry with
    | OModule _ _ _ => if named then in_seeders decl else in_seeders entry
    | _ => in_seeders entry
    end in
  <[key_id (in_key decl) := {| in_key := in_key entry; in_seeders := seeders; in_origin := in_origin entry |}]> inputs.

(** [declare_transport_inputs], on the graph's inputs, the transports seen and the declarations. *)
Definition declare_transport_inputs (s : gmap KeyId InputDecl * gset TypeId * list InputDecl) (decl : HandlerDecl)
    : gmap KeyId InputDecl * gset TypeId * list InputDecl :=
  let '(inputs, seen, declared) := s in
  if bool_decide (tn_id (hd_transport decl) ∈ seen) then s
  else
    let decls := transport_decl (hd_transport decl) <$> hd_inputs decl in
    (foldl declare_input inputs decls, {[tn_id (hd_transport decl)]} ∪ seen, (declared ++ decls)%list).

(** ** One module *)

(** [transports.contains]: each transport once, in order. *)
Definition push_transport (transports : list TypeName) (decl : HandlerDecl) : list TypeName :=
  if existsb (type_name_eqb (hd_transport decl)) transports then transports
  else (transports ++ [hd_transport decl])%list.

Definition add_inputs (d : Declared) (inputs : list (ModuleId * InputRecord)) (transport_inputs : list InputDecl)
    (exports : list (ModuleId * ExportRecord)) (meta : list (ModuleId * string * Dependencies)) : Declared := {|
  dc_root := dc_root d; dc_first_module := dc_first_module d; dc_first_binding := dc_first_binding d;
  dc_first_handler := dc_first_handler d; dc_exports := (dc_exports d ++ exports)%list;
  dc_inputs := (dc_inputs d ++ inputs)%list; dc_transport_inputs := transport_inputs;
  dc_meta := (dc_meta d ++ meta)%list |}.

(** The binding of slot [slot] of a node, frozen at [id]. *)
Definition freeze_binding (node : Node) (origin : ModuleId) (id : BindingId) (slot : nat) (record : BindingRecord)
    : FrozenBinding := {|
  fb_id := id; fb_origin := origin; fb_record := record;
  fb_role := if br_controller record then Controller
             else if contains (nd_enhancers node) slot then Enhancer else Provider;
  fb_effective := ESingleton; fb_needs_execution := false; fb_edges := [] |}.

Definition freeze_bindings (node : Node) (origin : ModuleId) (first : nat) : list FrozenBinding :=
  imap (λ slot record, freeze_binding node origin (first + slot) slot record) (nd_bindings node).

(** [contributions.entry(record_key(&record)).or_default().push(binding)]. *)
Definition add_contribution (m : gmap KeyId (list BindingId)) (b : FrozenBinding) : gmap KeyId (list BindingId) :=
  if bool_decide (br_kind (fb_record b) = BCollection)
  then let k := key_id (record_key (fb_record b)) in <[k := (default [] (m !! k) ++ [fb_id b])%list]> m
  else m.

(** What mounting one controller adds: its handlers, the inputs of its transports, and an unread
    prefix. *)
Definition mount_controller (bs : list FrozenBinding) (id : ModuleId) (name : ModuleName)
    (s : gmap KeyId InputDecl * gset TypeId * list InputDecl * list HandlerRecord * list WiringError)
    (c : ControllerRecord) : gmap KeyId InputDecl * gset TypeId * list InputDecl * list HandlerRecord * list WiringError :=
  let '(inputs, seen, declared, handlers, errors) := s in
  match bs !! ct_binding c with
  | None => s
  | Some b =>
      let controller_key := key_name_of (record_key (fb_record b)) (br_kind (fb_record b)) in
      let decls := ct_mount c in
      let '(inputs, seen, declared) := foldl declare_transport_inputs (inputs, seen, declared) decls in
      let errors :=
        match ct_prefix c with
        | Some (prefix, at_) =>
            if existsb hd_reads_prefix decls then errors
            else (errors ++ [UnreadPrefix controller_key name prefix (foldl push_transport [] decls) at_])%list
        | None => errors
        end in
      (inputs, seen, declared,
       (handlers ++ ((λ decl, {| hr_controller := fb_id b; hr_module := id;
                                hr_prefix := fst <$> ct_prefix c; hr_decl := decl |}) <$> decls))%list, errors)
  end.

(** [graph.inputs.entry(input.key).or_insert_with(..)]. *)
Definition declare_module_input (name : ModuleName) (inputs : gmap KeyId InputDecl) (input : InputRecord)
    : gmap KeyId InputDecl :=
  match inputs !! key_id (ir_key input) with
  | Some _ => inputs
  | None =>
      <[key_id (ir_key input) := {| in_key := ir_key input; in_seeders := [ir_seeder input];
          in_origin := OModule name [ir_seeder input] (ir_location input) |}]> inputs
  end.

(** The site a frozen module keeps: nodes are named by their module ids. *)
Definition freeze_site (ids : list ModuleId) (site : Site) : Site :=
  match site with
  | SiteImport (New node) at_ => SiteImport (Existing (default 0 (ids !! node))) at_
  | other => other
  end.

Definition freeze_import (ids : list ModuleId) (import : Import) : ModuleId :=
  match import with New node => default 0 (ids !! node) | Existing id => id end.

Definition repeat_error (name : ModuleName) (repeat : Repeat) : WiringError :=
  DuplicateSetting (rp_name repeat) name (rp_first repeat) (rp_second repeat).

(** The body of [freeze]'s loop over the post order. *)
Definition freeze_node (imports : list (list Import)) (names : list ModuleName) (ids : list ModuleId)
    (load : option nat) (s : freezing) (id : ModuleId) (index : nat) (node : Node) : freezing :=
  let name := name_at names index in
  let first := length (fz_bindings s) in
  let bs := freeze_bindings node id first in
  let nested :=
    match nd_nested_keyed node with
    | Some (outer, inner) =>
        [NestedKeyed name (from_parts (q_id outer) (q_name outer)) (from_parts (q_id inner) (q_name inner))]
    | None => []
    end in
  let '(inputs, seen, transport_inputs, handlers, errors) :=
    foldl (mount_controller bs id name)
      (fz_inputs s, fz_seen s, dc_transport_inputs (fz_declared s), fz_handlers s, fz_binding_errors s)
      (nd_controllers node) in
  let meta := sort_by (λ a b, str_leb (str_of (me_name a)) (str_of (me_name b))) (nd_meta node) in {|
  fz_modules := (fz_modules s ++ [{|
    fm_id := id; fm_identity := nd_identity node; fm_name := name; fm_global := nd_global node;
    fm_keyed := nd_keyed node; fm_imports := freeze_import ids <$> default [] (imports !! index);
    fm_bindings := fb_id <$> bs; fm_hooks := nd_hooks node;
    fm_meta := (λ e, (me_ty e, me_value e)) <$> meta; fm_loaded := load; fm_settings := nd_settings node;
    fm_site := freeze_site ids (nd_site node) |}])%list;
  fz_bindings := (fz_bindings s ++ bs)%list;
  fz_inputs := foldl (declare_module_input name) inputs (nd_inputs node);
  fz_by_identity := <[identity_id (nd_identity node) := id]> (fz_by_identity s);
  fz_handlers := handlers;
  fz_contributions := foldl add_contribution (fz_contributions s) bs;
  fz_seen := seen;
  fz_declared := add_inputs (fz_declared s) ((λ input, (id, input)) <$> nd_inputs node) transport_inputs
    ((λ export, (id, export)) <$> nd_exports node)
    ((λ e, (id, me_name e, me_dependencies e)) <$> meta);
  fz_module_errors := (fz_module_errors s ++ (repeat_error name <$> ms_repeats (nd_settings node)) ++ nested)%list;
  fz_binding_errors := errors |}.

(** [let Some(node) = nodes[index].take() else { continue }], then the body. *)
Definition freeze_next (imports : list (list Import)) (names : list ModuleName) (ids : list ModuleId)
    (load : option nat) (first_module : nat) (s : list (option Node) * freezing) (pi : nat * nat)
    : list (option Node) * freezing :=
  match mjoin (s.1 !! pi.2) with
  | Some node => (<[pi.2 := None]> s.1, freeze_node imports names ids load s.2 (first_module + pi.1) pi.2 node)
  | None => s
  end.

(** ** What the freeze reports before the modules *)

Definition replaced_error (nodes : list Node) (names : list ModuleName) (replaced : Replaced) : option WiringError :=
  match nodes !! rd_replacement replaced with
  | None => None
  | Some node =>
      let offered := (λ e, boundary_key (nd_keyed node) (ex_key e)) <$> nd_exports node in
      let missing := (λ key, key_name_of key BSingle) <$>
        filterb (λ key, negb (existsb (key_eqb key) offered)) (rd_exports replaced) in
      if bool_decide (missing = []) then None
      else Some (ReplacementMissingExports (module_name_of (rd_original replaced) 0)
                   (name_at names (rd_replacement replaced)) missing)
  end.

Definition replacement_error (replaced : list Replaced) (replacements : list (@Replacement M)) (position : nat)
    (replacement : @Replacement M) : option WiringError :=
  match find_first (λ earlier, identity_eqb (rm_original earlier) (rm_original replacement))
          (take position replacements) with
  | Some first =>
      Some (DuplicateReplacement (module_name_of (rm_original replacement) 0) (rm_location first) (rm_location replacement))
  | None =>
      if existsb (λ r, identity_eqb (rd_original r) (rm_original replacement)) replaced then None
      else Some (ReplacementUnmatched (module_name_of (rm_original replacement) 0) (rm_location replacement))
  end.

Definition is_failed (r : BindingRecord) : bool := match br_recipe r with Failed => true | _ => false end.

(** The failures paired with the records that failed, by order. *)
Definition paired_failures (nodes : list Node) : list (nat * nat * ValueFailure) :=
  concat (imap (λ index node,
    let failed := omap (λ pr : nat * BindingRecord, if is_failed pr.2 then Some pr.1 else None)
                    (imap pair (nd_bindings node)) in
    zip_with (λ position failure, (index, position, failure)) failed (nd_failures node)) nodes).

Definition failure_error (secrets : list str) (names : list ModuleName) (collections : list CollectionOverride)
    (nodes : list Node) (f : nat * nat * ValueFailure) : option WiringError :=
  let '(index, position, failure) := f in
  match bindings_at nodes index !! position with
  | None => None
  | Some record =>
      if negb (is_failed record) then None
      else if bool_decide (br_kind record = BCollection)
              && existsb (λ co, key_eqb (co_key co) (record_key record)) collections then None
      else Some (ValueFailed (name_at names index) (key_name_of (record_key record) (br_kind record))
                   (string_of (redact secrets (str_of <$> vf_error failure))) (vf_location failure))
  end.

Definition set_secrets (g : Graph) (secrets : list string) : Graph := {|
  g_modules := g_modules g; g_bindings := g_bindings g; g_visibility := g_visibility g;
  g_collections := g_collections g; g_inputs := g_inputs g; g_by_identity := g_by_identity g;
  g_root := g_root g; g_connect_order := g_connect_order g; g_handlers := g_handlers g;
  g_closures := g_closures g; g_secrets := secrets; g_exported := g_exported g |}.

(** The module id of each node. *)
Definition module_ids (count first_module : nat) (post_order : list nat) : list ModuleId :=
  foldl (λ ids pn, <[pn.2 := first_module + pn.1]> ids) (replicate count first_module) (imap pair post_order).

(** The contributions merged into the graph's collections, key by key. *)
Definition merge_collections (collections contributions : gmap KeyId (list BindingId)) : gmap KeyId (list BindingId) :=
  union_with (λ existing ids, Some (existing ++ ids)%list) collections contributions.

(** What the loop over the post order starts from. *)
Definition freeze_start (g : Graph) (r : @Registry M) (count : nat) : freezing :=
  let first_module := length (g_modules g) in {|
  fz_modules := g_modules g; fz_bindings := g_bindings g; fz_inputs := g_inputs g;
  fz_by_identity := g_by_identity g; fz_handlers := g_handlers g; fz_contributions := ∅;
  fz_seen := list_to_set ((λ h, tn_id (hd_transport (hr_decl h))) <$> g_handlers g);
  fz_declared := {|
    dc_root := default first_module (head (module_ids count first_module (rg_post_order r)));
    dc_first_module := first_module; dc_first_binding := length (g_bindings g);
    dc_first_handler := length (g_handlers g);
    dc_exports := []; dc_inputs := []; dc_transport_inputs := []; dc_meta := [] |};
  fz_module_errors := []; fz_binding_errors := [] |}.

(** The loop over the post order. *)
Definition freeze_modules (g : Graph) (r : @Registry M) (nodes : list Node) (names : list ModuleName)
    (load : option nat) : freezing :=
  let first_module := length (g_modules g) in
  let ids := module_ids (length nodes) first_module (rg_post_order r) in
  (foldl (freeze_next (rg_imports r) names ids load first_module) (Some <$> nodes, freeze_start g r (length nodes))
    (imap pair (rg_post_order r))).2.

Definition frozen_graph (g : Graph) (s : freezing) : Graph := {|
  g_modules := fz_modules s; g_bindings := fz_bindings s; g_visibility := g_visibility g;
  g_collections := merge_collections (g_collections g) (fz_contributions s);
  g_inputs := fz_inputs s; g_by_identity := fz_by_identity s; g_root := g_root g;
  g_connect_order := g_connect_order g; g_handlers := fz_handlers s; g_closures := g_closures g;
  g_secrets := g_secrets g; g_exported := g_exported g |}.

(** [freeze]: the graph, what it declared, and its errors of steps 1 and 2. *)
Definition freeze (core : CoreTypes) (g : Graph) (r : @Registry M) (load : option nat) (plan : option (@TestPlan M))
    : Graph * Declared * list WiringError * list WiringError :=
  let names := names (rg_nodes r) (rg_post_order r) (Some g) in
  let self := self_imports (rg_self_imports r) names in
  let g := set_secrets g (string_of <$>
    foldl register (str_of <$> g_secrets g) (str_of <$> (rg_nodes r ≫= nd_secrets))) in
  let differing := differing_error names g <$> rg_differing r in
  let repeats := (λ mr : Import * Repeat, repeat_error (import_name names g mr.1) mr.2) <$> rg_repeats r in
  let replaced := omap (replaced_error (rg_nodes r) names) (rg_replaced r) in
  let replacements := match plan with Some p => tp_replacements p | None => [] end in
  let replacing := omap (λ pr : nat * @Replacement M, replacement_error (rg_replaced r) replacements pr.1 pr.2)
    (imap pair replacements) in
  let failures := paired_failures (rg_nodes r) in
  let '(overrides, collections) := match plan with Some p => (tp_overrides p, tp_collections p) | None => ([], []) end in
  let '(nodes, override_errors) := apply_overrides core r names overrides (rg_nodes r) in
  let failed := omap (failure_error (str_of <$> g_secrets g) names collections nodes) failures in
  let '(nodes, collection_errors) := apply_collections collections nodes in
  let s := freeze_modules g r nodes names load in
  let '(g, role_errors) := mark_role_contributions (frozen_graph g s) (dc_first_binding (fz_declared s)) in
  (g, fz_declared s,
   (self ++ differing ++ repeats ++ fz_module_errors s)%list,
   (replaced ++ replacing ++ override_errors ++ failed ++ collection_errors ++ fz_binding_errors s ++ role_errors)%list).
End Freeze.
