(* ===== verification/FreezeFacts.v ===== *)
(** * FreezeFacts: freezing keeps the graph well-formed

    Each module and binding the freeze appends is given the id of its position, and every id it
    writes elsewhere (a contribution, a handler's controller, a module's bindings) is one of them. *)

From S2P Require Import Prelude Text Key Graph WiringError Cycles Order Redact Scopes ScopesFacts Visibility Register RegisterFacts Freeze.

(** ** Bindings that differ in their role and scope alone *)

Definition same_wiring (a b : FrozenBinding) : Prop :=
  fb_id a = fb_id b ∧ fb_origin a = fb_origin b ∧ fb_record a = fb_record b ∧ fb_edges a = fb_edges b.

#[export] Instance same_wiring_equivalence : Equivalence same_wiring.
Proof. split; unfold same_wiring; [intros x|intros x y H|intros x y z H1 H2]; intuition congruence. Qed.

Lemma same_declaration_wiring a b : same_declaration a b → same_wiring a b.
Proof. unfold same_declaration, same_wiring. tauto. Qed.

Section SameWiring.
Context (g : Graph) (bs : list FrozenBinding) (Hsame : Forall2 same_wiring bs (g_bindings g)).
Abbreviation g' := (set_bindings g bs).

Lemma wiring_length : length bs = length (g_bindings g).
Proof. by eapply Forall2_length. Qed.

Lemma wiring_lookup i b : bs !! i = Some b → ∃ b0, g_bindings g !! i = Some b0 ∧ same_wiring b b0.
Proof. intros Hb. by eapply Forall2_lookup_l in Hb. Qed.

Lemma wiring_binding id : same_wiring (binding g' id) (binding g id).
Proof.
  unfold binding. simpl. destruct (bs !! id) as [b|] eqn:E.
  - apply wiring_lookup in E as (b0 & -> & H). done.
  - apply lookup_ge_None in E. rewrite wiring_length in E. by rewrite (lookup_ge_None_2 _ _ E).
Qed.

Lemma wiring_waits id : waits_for g' id = waits_for g id.
Proof.
  destruct (wiring_binding id) as (Hid & Ho & Hr & He).
  unfold waits_for, construction_deps, readiness_deps, alias_target. rewrite Ho, Hr, He. done.
Qed.

Lemma wiring_wf : graph_wf g → graph_wf g'.
Proof.
  intros [H1 H2 H3 H4 H5 H6 H7 H8 H9 H10]. split; simpl; rewrite ?wiring_length; try done.
  - intros i b (b0 & Hb0 & (-> & _))%wiring_lookup. by apply H1.
  - intros i b (b0 & Hb0 & (_ & -> & _))%wiring_lookup. by eapply H3.
  - intros i b e dep (b0 & Hb0 & (_ & _ & _ & ->))%wiring_lookup. by eapply H4.
Qed.

Lemma wiring_acyclic : acyclic (depends g) → acyclic (depends g').
Proof.
  intros H. red. apply (acyclic_subrel (depends g)); [|done]. intros a b Hab. apply tc_once.
  unfold depends in *. by rewrite wiring_waits in Hab.
Qed.
End SameWiring.

(** ** One module *)

Section Freezing.
Context {M : Type}.
Implicit Types (s : freezing) (node : @ModuleNode M).

Record freezing_ok s : Prop := {
  fo_binding_id : ∀ i b, fz_bindings s !! i = Some b → fb_id b = i;
  fo_module_id : ∀ i m, fz_modules s !! i = Some m → fm_id m = i;
  fo_origin : ∀ i b, fz_bindings s !! i = Some b → fb_origin b < length (fz_modules s);
  fo_edges : ∀ i b e dep, fz_bindings s !! i = Some b → e ∈ fb_edges b → ed_target e = TBinding dep →
    dep < length (fz_bindings s);
  fo_contributions : ∀ k ids dep, fz_contributions s !! k = Some ids → dep ∈ ids → dep < length (fz_bindings s);
  fo_module_bindings : ∀ m id, m ∈ fz_modules s → id ∈ fm_bindings m → id < length (fz_bindings s);
  fo_handlers : ∀ h, h ∈ fz_handlers s → hr_controller h < length (fz_bindings s);
  fo_handler_modules : ∀ h, h ∈ fz_handlers s → hr_module h < length (fz_modules s);
  fo_collected : ∀ i b, fz_bindings s !! i = Some b → dc_first_binding (fz_declared s) ≤ i →
    br_kind (fb_record b) = BCollection → is_Some (fz_contributions s !! key_id (record_key (fb_record b)));
  fo_exports : ∀ m e, (m, e) ∈ dc_exports (fz_declared s) → m < length (fz_modules s);
}.

(** What the freeze fixes before the modules. *)
Definition same_start (a b : Declared) : Prop :=
  dc_root a = dc_root b ∧ dc_first_module a = dc_first_module b
  ∧ dc_first_binding a = dc_first_binding b ∧ dc_first_handler a = dc_first_handler b.

Lemma freeze_bindings_lookup node id first i b :
  freeze_bindings node id first !! i = Some b → fb_id b = first + i ∧ fb_origin b = id ∧ fb_edges b = [].
Proof. unfold freeze_bindings. rewrite list_lookup_imap. intros (r & _ & ->)%fmap_Some. done. Qed.

Lemma freeze_bindings_elem node id first b :
  b ∈ freeze_bindings node id first → fb_id b < first + length (freeze_bindings node id first).
Proof.
  intros (i & Hi)%list_elem_of_lookup. pose proof (lookup_lt_Some _ _ _ Hi).
  apply freeze_bindings_lookup in Hi as (-> & _). lia.
Qed.

Lemma add_contributions_range bs n : (∀ b, b ∈ bs → fb_id b < n) → ∀ m,
  (∀ k ids dep, m !! k = Some ids → dep ∈ ids → dep < n) →
  ∀ k ids dep, foldl add_contribution m bs !! k = Some ids → dep ∈ ids → dep < n.
Proof.
  induction bs as [|b bs IH]; intros Hbs m Hm k ids dep; simpl; [by apply Hm|]. apply IH.
  - intros x Hx. apply Hbs. by right.
  - unfold add_contribution. case_bool_decide; [|done]. clear k ids dep. intros k ids dep.
    destruct (decide (k = key_id (record_key (fb_record b)))) as [->|Hne].
    + rewrite lookup_insert_eq. intros [= <-] [Hin|Hin]%elem_of_app.
      * destruct (m !! _) as [l|] eqn:E; [by eapply Hm|by apply not_elem_of_nil in Hin].
      * apply list_elem_of_singleton in Hin as ->. apply Hbs. by left.
    + rewrite lookup_insert_ne by done. apply Hm.
Qed.

Lemma add_contribution_some m b k : is_Some (m !! k) → is_Some (add_contribution m b !! k).
Proof.
  intros H. unfold add_contribution. case_bool_decide; [|done].
  destruct (decide (k = key_id (record_key (fb_record b)))) as [->|Hne].
  - rewrite lookup_insert_eq. by eexists.
  - by rewrite lookup_insert_ne.
Qed.

Lemma add_contributions_old bs : ∀ m k, is_Some (m !! k) → is_Some (foldl add_contribution m bs !! k).
Proof. induction bs as [|b bs IH]; intros m k H; simpl; [done|]. by apply IH, add_contribution_some. Qed.

Lemma add_contributions_new bs b : b ∈ bs → br_kind (fb_record b) = BCollection → ∀ m,
  is_Some (foldl add_contribution m bs !! key_id (record_key (fb_record b))).
Proof.
  intros Hb Hk. induction bs as [|x bs IH]; intros m; [by apply not_elem_of_nil in Hb|]. simpl.
  apply elem_of_cons in Hb as [<-|Hb]; [|by apply IH]. apply add_contributions_old. unfold add_contribution.
  rewrite bool_decide_eq_true_2 by done. rewrite lookup_insert_eq. by eexists.
Qed.

Abbreviation mounted := (gmap KeyId InputDecl * gset nat * list InputDecl * list HandlerRecord * list WiringError)%type.

Lemma mount_handlers bs id name n cs : (∀ b, b ∈ bs → fb_id b < n) → ∀ (s : mounted),
  (∀ h, h ∈ s.1.2 → hr_controller h < n) →
  ∀ h, h ∈ (foldl (mount_controller bs id name) s cs).1.2 → hr_controller h < n.
Proof.
  intros Hbs. induction cs as [|c cs IH]; intros s Hs; [done|]. simpl. apply IH.
  destruct s as [[[[inputs seen] declared] handlers] errors]. unfold mount_controller.
  destruct (bs !! ct_binding c) as [b|] eqn:Eb; [|done].
  destruct (foldl declare_transport_inputs _ _) as [[inputs' seen'] declared']. simpl.
  intros h [Hh|Hh]%elem_of_app; [by apply Hs|]. apply list_elem_of_fmap in Hh as (d & -> & _). simpl.
  apply Hbs. by eapply list_elem_of_lookup_2.
Qed.

Lemma mount_modules bs id name n cs : id < n → ∀ (s : mounted),
  (∀ h, h ∈ s.1.2 → hr_module h < n) →
  ∀ h, h ∈ (foldl (mount_controller bs id name) s cs).1.2 → hr_module h < n.
Proof.
  intros Hid. induction cs as [|c cs IH]; intros s Hs; [done|]. simpl. apply IH.
  destruct s as [[[[inputs seen] declared] handlers] errors]. unfold mount_controller.
  destruct (bs !! ct_binding c) as [b|]; [|done].
  destruct (foldl declare_transport_inputs _ _) as [[inputs' seen'] declared']. simpl.
  intros h [Hh|Hh]%elem_of_app; [by apply Hs|]. by apply list_elem_of_fmap in Hh as (d & -> & _).
Qed.

Lemma freeze_node_ok imports names ids load s id index node :
  freezing_ok s → id = length (fz_modules s) →
  let s' := freeze_node imports names ids load s id index node in
  freezing_ok s' ∧ length (fz_modules s') = S (length (fz_modules s))
  ∧ fz_bindings s `prefix_of` fz_bindings s'
  ∧ fz_modules s `prefix_of` fz_modules s'
  ∧ same_start (fz_declared s') (fz_declared s).
Proof.
  intros [H1 H2 H3 H4 H5 H6 H7 H9 H10 H8] Hid s'. unfold s', freeze_node.
  set (bs := freeze_bindings node id (length (fz_bindings s))).
  pose proof (freeze_bindings_elem node id (length (fz_bindings s))) as Hbs. fold bs in Hbs.
  destruct (foldl (mount_controller bs id _) _ _) as [[[[inputs seen] tinputs] handlers] errors] eqn:Em.
  assert (Hh : ∀ h, h ∈ handlers → hr_controller h < length (fz_bindings s) + length bs).
  { pose proof (mount_handlers bs id (name_at names index) (length (fz_bindings s) + length bs) (nd_controllers node) Hbs
      (fz_inputs s, fz_seen s, dc_transport_inputs (fz_declared s), fz_handlers s, fz_binding_errors s)) as Hm.
    rewrite Em in Hm. apply Hm. simpl. intros h Hh. specialize (H7 h Hh). lia. }
  assert (Hhm : ∀ h, h ∈ handlers → hr_module h < length (fz_modules s) + 1).
  { pose proof (mount_modules bs id (name_at names index) (length (fz_modules s) + 1) (nd_controllers node) ltac:(lia)
      (fz_inputs s, fz_seen s, dc_transport_inputs (fz_declared s), fz_handlers s, fz_binding_errors s)) as Hm.
    rewrite Em in Hm. apply Hm. simpl. intros h Hin. specialize (H9 h Hin). lia. }
  split; [|split; [|split; [|split]]]; [|simpl; rewrite length_app; simpl; lia|by eexists|by eexists|done].
  split; simpl; rewrite ?length_app; simpl.
  - intros i b [Hb|[Hlt Hb]]%lookup_app_Some; [by apply H1|]. apply freeze_bindings_lookup in Hb as (-> & _). lia.
  - intros i m [Hm|[Hlt Hm]]%lookup_app_Some; [by apply H2|]. apply list_lookup_singleton_Some in Hm as [Hi <-].
    simpl. lia.
  - intros i b [Hb|[Hlt Hb]]%lookup_app_Some; [specialize (H3 _ _ Hb); lia|].
    apply freeze_bindings_lookup in Hb as (_ & -> & _). lia.
  - intros i b e dep [Hb|[Hlt Hb]]%lookup_app_Some He Hd; [specialize (H4 _ _ _ _ Hb He Hd); lia|].
    apply freeze_bindings_lookup in Hb as (_ & _ & Hnil). rewrite Hnil in He. by apply not_elem_of_nil in He.
  - apply add_contributions_range; [done|]. intros k l dep Hl Hd. specialize (H5 k l dep Hl Hd). lia.
  - intros m x [Hm|Hm]%elem_of_app Hx; [specialize (H6 m x Hm Hx); lia|].
    apply list_elem_of_singleton in Hm as ->. simpl in Hx. apply list_elem_of_fmap in Hx as (b & -> & Hb). by apply Hbs.
  - done.
  - done.
  - intros i b [Hb|[Hlt Hb]]%lookup_app_Some Hi Hk; [by eapply add_contributions_old, H10|].
    apply add_contributions_new; [by eapply list_elem_of_lookup_2|done].
  - intros m e [Hm|Hm]%elem_of_app; [specialize (H8 m e Hm); lia|].
    apply list_elem_of_fmap in Hm as (x & [= -> _] & _). lia.
Qed.

(** ** Every module *)

Lemma freeze_fold_ok imports names ids load first l : ∀ start (nodes : list (option (@ModuleNode M))) s,
  NoDup l → (∀ i, i ∈ l → ∃ node, nodes !! i = Some (Some node)) →
  freezing_ok s → length (fz_modules s) = first + start →
  let s' := (foldl (freeze_next imports names ids load first) (nodes, s) (imap (λ p i, (start + p, i)) l)).2 in
  freezing_ok s' ∧ length (fz_modules s') = first + start + length l
  ∧ fz_bindings s `prefix_of` fz_bindings s'
  ∧ fz_modules s `prefix_of` fz_modules s'
  ∧ same_start (fz_declared s') (fz_declared s).
Proof.
  induction l as [|i l IH]; intros start nodes s Hnd Hnodes Hok Hlen.
  - simpl. rewrite Nat.add_0_r. split_and!; try done.
  - apply NoDup_cons in Hnd as [Hi Hnd].
    assert (E : imap (λ p i, (start + p, i)) (i :: l) = (start, i) :: imap (λ p i, (S start + p, i)) l).
    { rewrite imap_cons, Nat.add_0_r. f_equal. apply imap_ext. intros. simpl. f_equal. lia. }
    rewrite E. clear E. cbn [foldl].
    destruct (Hnodes i) as [node Hnode]; [by left|].
    assert (E : freeze_next imports names ids load first (nodes, s) (start, i) =
      (<[i := None]> nodes, freeze_node imports names ids load s (first + start) i node)).
    { unfold freeze_next. cbn [fst snd]. by rewrite Hnode. }
    rewrite E. clear E.
    destruct (freeze_node_ok imports names ids load s (first + start) i node Hok (eq_sym Hlen)) as (Hok1 & Hl1 & Hb1 & Hm1 & Hs1).
    destruct (IH (S start) (<[i := None]> nodes) (freeze_node imports names ids load s (first + start) i node) Hnd)
      as (Hok2 & Hl2 & Hb2 & Hm2 & Hs2); [|done|lia|].
    + intros j Hj. assert (j ≠ i) by (by intros ->). rewrite list_lookup_insert_ne by done. apply Hnodes. by right.
    + split; [done|]. split; [etrans; [exact Hl2|]; simpl; lia|]. split; [by etrans|]. split; [by etrans|].
      destruct Hs1 as (?&?&?&?), Hs2 as (?&?&?&?). split_and!; congruence.
Qed.

Lemma apply_override_length core (r : @Registry M) names ov x :
  length (apply_override core r names x ov).1 = length x.1.
Proof.
  unfold apply_override. destruct (override_plan _ _ _ _ _) as [|matches]; [done|]. simpl.
  generalize x.1. induction matches as [|m l IH]; intros nodes; simpl; [done|]. by rewrite IH, length_alter.
Qed.

Lemma apply_overrides_length core (r : @Registry M) names ovs nodes :
  length (apply_overrides core r names ovs nodes).1 = length nodes.
Proof.
  unfold apply_overrides. change nodes with (nodes, @nil WiringError).1 at 2.
  generalize (nodes, @nil WiringError). induction ovs as [|ov ovs IH]; intros x; simpl; [done|].
  by rewrite IH, apply_override_length.
Qed.

Lemma apply_collections_length cs (nodes : list (@ModuleNode M)) :
  length (apply_collections cs nodes).1 = length nodes.
Proof.
  unfold apply_collections. change nodes with (nodes, @nil WiringError).1 at 2.
  generalize (nodes, @nil WiringError). induction cs as [|c cs IH]; intros x; simpl; [done|].
  rewrite IH. destruct x as [ns es]. unfold apply_collection. case_bool_decide; simpl.
  - by rewrite !length_fmap.
  - by rewrite length_alter, !length_fmap.
Qed.

(** ** The freeze *)

(** The facts of a registry that the freeze relies on. *)
Definition placed (r : @Registry M) : Prop :=
  NoDup (rg_post_order r) ∧ ∀ i, i ∈ rg_post_order r → i < length (rg_nodes r).

Lemma registered_placed (r : @Registry M) : registered r → placed r.
Proof.
  intros [_ _ _ _ Ho _]. split.
  - rewrite Ho. apply NoDup_seq.
  - intros i Hi. rewrite Ho in Hi. apply elem_of_seq in Hi. lia.
Qed.

Lemma add_timer_placed core (r : @Registry M) timer runtime : placed r → placed (add_timer_module core r timer runtime).
Proof.
  intros [Hnd Hlt]. unfold add_timer_module. split; simpl; rewrite ?length_app; simpl.
  - apply NoDup_cons. split; [|done]. intros Hin. specialize (Hlt _ Hin). lia.
  - intros i [->|Hi]%elem_of_cons; [lia|]. specialize (Hlt i Hi). lia.
Qed.

Section Graph.
Context (g : Graph) (Hwf : graph_wf g) (r : @Registry M) (Hr : placed r).

Lemma freeze_modules_ok nodes names load : length nodes = length (rg_nodes r) →
  let s := freeze_modules g r nodes names load in
  freezing_ok s ∧ length (fz_modules s) = length (g_modules g) + length (rg_post_order r)
  ∧ g_bindings g `prefix_of` fz_bindings s
  ∧ g_modules g `prefix_of` fz_modules s
  ∧ dc_first_module (fz_declared s) = length (g_modules g)
  ∧ dc_first_binding (fz_declared s) = length (g_bindings g)
  ∧ dc_first_handler (fz_declared s) = length (g_handlers g).
Proof.
  intros Hlen s. unfold s, freeze_modules. destruct Hr as [Hnd Hlt].
  match goal with |- context [foldl ?f (?a, ?b) _] => set (s0 := b); set (nodes0 := a) end.
  assert (Hok : freezing_ok s0).
  { destruct Hwf as [H1 H2 H3 H4 H5 H6 H7 H8 H9 H10]. split; simpl; try done.
    - intros i b Hb Hi. apply lookup_lt_Some in Hb. lia.
    - intros m e Hm. by apply not_elem_of_nil in Hm. }
  destruct (freeze_fold_ok (rg_imports r) names (module_ids (length nodes) (length (g_modules g)) (rg_post_order r)) load
    (length (g_modules g)) (rg_post_order r) 0 nodes0 s0) as (Hok1 & Hl1 & Hb1 & Hm1 & (_ & Hfm & Hfb & Hfh)).
  - done.
  - intros i Hi. specialize (Hlt i Hi). rewrite <- Hlen in Hlt. apply lookup_lt_is_Some in Hlt as [n Hn].
    exists n. unfold nodes0. by rewrite list_lookup_fmap, Hn.
  - done.
  - simpl. lia.
  - change (imap (λ p i, (0 + p, i)) (rg_post_order r)) with (imap pair (rg_post_order r)) in *.
    split; [done|]. split; [etrans; [exact Hl1|]; lia|]. done.
Qed.

Lemma frozen_wf nodes names load : length nodes = length (rg_nodes r) →
  graph_wf (frozen_graph g (freeze_modules g r nodes names load)).
Proof.
  intros Hlen. destruct (freeze_modules_ok nodes names load Hlen) as ([H1 H2 H3 H4 H5 H6 H7 H9 H10 H8] & _ & Hb & _ & _).
  set (s := freeze_modules g r nodes names load) in *. pose proof (prefix_length _ _ Hb) as Hle.
  split; simpl; try done.
  - intros k ids dep. unfold merge_collections. rewrite lookup_union_with. intros Hk Hd.
    destruct (g_collections g !! k) as [a|] eqn:Ea, (fz_contributions s !! k) as [b|] eqn:Eb; simplify_eq/=.
    + apply elem_of_app in Hd as [Hd|Hd]; [pose proof (wf_collections g Hwf k a dep Ea Hd); lia|by eapply H5].
    + pose proof (wf_collections g Hwf k _ dep Ea Hd). lia.
    + by eapply H5.
  - intros m key id Hl. assert (id < length (g_bindings g)) by by eapply (wf_visible g Hwf m key). lia.
  - intros l key id Hl Hin. pose proof (wf_exported g Hwf l key id Hl Hin). lia.
Qed.
End Graph.

Lemma mark_role_wiring roles bs : Forall2 same_wiring (mark_role roles <$> bs) bs.
Proof.
  induction bs as [|b bs IH]; simpl; constructor; [|done]. unfold mark_role. by destruct (_ && _ && _).
Qed.

(** What the freeze leaves: a well-formed graph that extends the one it started from. *)
Record frozen (g g' : Graph) (declared : Declared) (count : nat) : Prop := {
  fr_wf : graph_wf g';
  fr_bindings : ∃ bs, fb_record <$> g_bindings g' = fb_record <$> (g_bindings g ++ bs)%list;
  fr_modules : g_modules g `prefix_of` g_modules g';
  fr_count : length (g_modules g') = length (g_modules g) + count;
  fr_first_module : dc_first_module declared = length (g_modules g);
  fr_first_binding : dc_first_binding declared = length (g_bindings g);
  fr_first_handler : dc_first_handler declared = length (g_handlers g);
  fr_exports : ∀ m e, (m, e) ∈ dc_exports declared → m < length (g_modules g');
}.

Lemma set_secrets_wf g x : graph_wf g → graph_wf (set_secrets g x).
Proof. by intros [H1 H2 H3 H4 H5 H6 H7 H8 H9 H10]. Qed.

Lemma freeze_ok core g (r : @Registry M) load plan : graph_wf g → placed r →
  let '(g', declared, _, _) := freeze core g r load plan in
  frozen g g' declared (length (rg_post_order r)).
Proof.
  intros Hwf Hr. unfold freeze.
  set (nm := names _ _ _). set (g1 := set_secrets g _).
  destruct (match plan with Some p => _ | None => _ end) as [overrides collections].
  pose proof (apply_overrides_length core r nm overrides (rg_nodes r)) as Hl1.
  destruct (apply_overrides core r nm overrides (rg_nodes r)) as [nodes1 e1].
  pose proof (apply_collections_length collections nodes1) as Hl2.
  destruct (apply_collections collections nodes1) as [nodes2 e2]. simpl in Hl1, Hl2.
  assert (Hlen : length nodes2 = length (rg_nodes r)) by lia.
  assert (Hwf1 : graph_wf g1) by by apply set_secrets_wf.
  pose proof (frozen_wf g1 Hwf1 r Hr nodes2 nm load Hlen) as Hfw.
  destruct (freeze_modules_ok g1 Hwf1 r Hr nodes2 nm load Hlen) as (Hok & Hcount & [bs Hb] & Hm & Hfm & Hfb & Hfh).
  set (s := freeze_modules g1 r nodes2 nm load) in *. unfold mark_role_contributions.
  set (roles := role_types _ _).
  split; simpl; try done.
  - apply wiring_wf; [|done]. apply mark_role_wiring.
  - exists bs. simpl in Hb. rewrite <- Hb, <- list_fmap_compose. apply list_fmap_ext. intros i b _.
    unfold compose, mark_role. by destruct (_ && _ && _).
  - apply (fo_exports _ Hok).
Qed.
End Freezing.
