(* ===== verification/ResolveFacts.v ===== *)
(** * ResolveFacts: the tables and the resolved edges of a well-formed graph

    [build_tables] and [resolve_dependencies] keep a graph well-formed, and a resolution that
    reports nothing leaves an edge for every read a binding needs. *)

From S2P Require Import Prelude Text Key Graph WiringError Cycles Scopes ScopesFacts Visibility VisibilityFacts Register Freeze FreezeFacts.

(** ** Tables *)

Lemma resize_lookup_Some {A} k (x y : A) (l : list A) i : resize k x l !! i = Some y → y = x ∨ l !! i = Some y.
Proof.
  intros H. assert (Hk : i < k) by (apply lookup_lt_Some in H; by rewrite length_resize in H).
  destruct (decide (i < length l)); [rewrite lookup_resize in H by done; by right|].
  rewrite lookup_resize_new in H by lia. left. congruence.
Qed.

Lemma insert_all_length {A} (f : nat → A) l : ∀ vis, length (foldl (λ vis i, <[i := f i]> vis) vis l) = length vis.
Proof. induction l as [|i l IH]; intros vis; simpl; [done|]. by rewrite IH, length_insert. Qed.

Lemma key_id_type k k' : key_id k = key_id k' → key_type_id k = key_type_id k'.
Proof. by intros [= ? _]. Qed.

Lemma boundary_type keyed key : key_type_id (boundary_key keyed key) = key_type_id key.
Proof. destruct keyed as [q|]; [simpl; by destruct (is_unqualified key)|done]. Qed.

(** What holds of every binding a module owns, exports or sees keeps holding of what the tables
    built answer. *)
Section Tables.
Context (g : Graph) (declared : Declared) (P : TypeId → BindingId → Prop).
Context (Pown : ∀ m key id, own_binding g m key = Some id → P (key_type_id key) id).

Definition exports_all_P (exported : list (list (Key * BindingId))) : Prop :=
  ∀ l key id, l ∈ exported → (key, id) ∈ l → P (key_type_id key) id.

Context (Pexported : exports_all_P (g_exported g)).
Context (Pvisible : ∀ m key id, lookup g m key = Some (VBinding id) → P (key_type_id key) id).

Lemma push_exports_P l : (∀ m k id, (m, k, id) ∈ l → P (key_type_id k) id) → ∀ exported,
  exports_all_P exported → exports_all_P (foldl push_export exported l).
Proof.
  induction l as [|[[m k] id] l IH]; intros Hl exported He; [done|]. simpl. apply IH.
  - intros m' k' id' H. eapply Hl. by right.
  - intros x key i Hx Hi. apply list_elem_of_lookup in Hx as [j Hj].
    destruct (decide (j = m)) as [->|Hne].
    + rewrite list_lookup_alter_eq in Hj. apply fmap_Some in Hj as (y & Hy & ->).
      apply elem_of_app in Hi as [Hi|Hi]; [eapply He; [by eapply list_elem_of_lookup_2|done]|].
      apply list_elem_of_singleton in Hi as [= -> ->]. eapply Hl. by left.
    + rewrite list_lookup_alter_ne in Hj by done. eapply He; [by eapply list_elem_of_lookup_2|done].
Qed.

Lemma view_sources_P vis exported m key id : exports_all_P exported →
  id ∈ (sources (set_tables g vis exported) m key).*2 → P (key_type_id key) id.
Proof.
  intros He [Hown|(ex & [k i] & _ & Hin & Hk & <-)]%sources_ids; [by eapply Pown|].
  apply key_id_type in Hk. simpl in Hk. rewrite <- Hk.
  unfold exported_by in Hin. simpl in Hin.
  destruct (exported !! ex) as [l|] eqn:E; [|by apply not_elem_of_nil in Hin].
  eapply He; [by eapply list_elem_of_lookup_2|done].
Qed.

Lemma resolved_P vis exported (pending : list (ModuleId * ExportRecord)) m k id : exports_all_P exported →
  (m, k, id) ∈ omap (resolve_reexport (set_tables g vis exported)) pending → P (key_type_id k) id.
Proof.
  intros He ((m' & e) & _ & Hr)%list_elem_of_omap. apply resolve_Some in Hr as (ex & i & Hs & [= -> -> ->]).
  rewrite boundary_type. eapply (view_sources_P vis exported m'); [done|]. rewrite Hs. by left.
Qed.

Lemma rounds_P vis exported0 pending exported k : exports_all_P exported →
  exports_all_P (iterate (reexport_round (set_tables g vis exported0)) k (pending, exported)).2.
Proof.
  intros He.
  apply (iterate_invariant _ (λ s : list (ModuleId * ExportRecord) * list (list (Key * BindingId)), exports_all_P s.2)); [|done].
  intros [p ex] s' Hex. simpl. case_bool_decide; [done|]. intros [= <-]. simpl.
  apply push_exports_P; [|done]. intros m k' id. by apply resolved_P.
Qed.

Lemma exports_built_P : exports_all_P (exports_all g declared).
Proof.
  apply rounds_P. apply push_exports_P.
  - intros m k id ([m' e] & _ & H)%list_elem_of_omap. destruct (ex_reexport e); [done|].
    apply fmap_Some in H as (i & Hi & [= -> -> ->]). rewrite boundary_type. by eapply Pown.
  - intros l key id Hl Hin. apply list_elem_of_lookup in Hl as [i Hi]. apply resize_lookup_Some in Hi as [->|Hi].
    + by apply not_elem_of_nil in Hin.
    + eapply (Pexported l); [|done]. by eapply list_elem_of_lookup_2.
Qed.

Lemma tables_all_length : length (tables_all g declared) = length (g_modules g).
Proof. unfold tables_all. rewrite insert_all_length. apply length_resize. Qed.

Lemma tables_built_P m key id : lookup (build_tables g declared) m key = Some (VBinding id) → P (key_type_id key) id.
Proof.
  intros H. destruct (decide (m < length (g_modules g))) as [Hlt|Hge].
  2:{ unfold lookup in H. rewrite build_tables_eq in H. simpl in H.
      rewrite lookup_ge_None_2 in H; [done|]. rewrite tables_all_length. lia. }
  destruct (decide (dc_first_module declared ≤ m)) as [Hnew|Hold].
  - rewrite built_lookup in H by done. rewrite build_tables_eq in H.
    destruct (sources _ _ _) as [|[ex i] [|]] eqn:Es; [by destruct (g_inputs g !! _)| |done].
    injection H as ->. eapply view_sources_P; [apply exports_built_P|]. rewrite Es. by left.
  - unfold lookup in H. rewrite build_tables_eq in H. simpl in H. unfold tables_all in H.
    rewrite tables_old in H by lia.
    destruct (resize _ _ _ !! m) as [t|] eqn:Et; [|done]. apply resize_lookup_Some in Et as [->|Et]; [done|].
    apply (Pvisible m key). unfold lookup. by rewrite Et.
Qed.
End Tables.

(** The table of a module the wiring did not add is left as it was. *)
Lemma built_lookup_old g declared m key : m < dc_first_module declared → m < length (g_visibility g) →
  m < length (g_modules g) → lookup (build_tables g declared) m key = lookup g m key.
Proof.
  intros Hm Hv Hl. unfold lookup. rewrite build_tables_eq. simpl. unfold tables_all.
  by rewrite tables_old, lookup_resize by lia.
Qed.

Lemma own_binding_range g m key id : graph_wf g → own_binding g m key = Some id → id < length (g_bindings g).
Proof.
  intros Hwf. unfold own_binding. intros [_ Hin]%find_first_Some. unfold module in Hin.
  destruct (g_modules g !! m) as [fm|] eqn:E; [|by apply not_elem_of_nil in Hin].
  eapply (wf_module_bindings g Hwf fm); [by eapply list_elem_of_lookup_2|done].
Qed.

Lemma build_tables_wf g declared : graph_wf g → graph_wf (build_tables g declared).
Proof.
  intros Hwf.
  pose proof (tables_built_P g declared (λ _ id, id < length (g_bindings g)) (λ m k id, own_binding_range g m k id Hwf)
    (wf_exported g Hwf) (wf_visible g Hwf)) as Hv.
  pose proof (exports_built_P g declared (λ _ id, id < length (g_bindings g)) (λ m k id, own_binding_range g m k id Hwf)
    (wf_exported g Hwf)) as He.
  rewrite build_tables_eq in *. destruct Hwf as [H1 H2 H3 H4 H5 H6 H7 H8 H9 H10]. by split.
Qed.

(** Only single bindings are seen or exported. *)
Record single_seen (g : Graph) : Prop := {
  ss_visible : ∀ m key id, lookup g m key = Some (VBinding id) → br_kind (fb_record (binding g id)) = BSingle;
  ss_exported : ∀ l key id, l ∈ g_exported g → (key, id) ∈ l → br_kind (fb_record (binding g id)) = BSingle;
}.

Lemma build_tables_single g declared : single_seen g → single_seen (build_tables g declared).
Proof.
  intros [Hv He].
  assert (Hown : ∀ m key id, own_binding g m key = Some id → br_kind (fb_record (binding g id)) = BSingle).
  { intros m key id [Ha _]%find_first_Some. unfold answers_to in Ha. apply andb_true_iff in Ha as [Ha _].
    by apply bool_decide_eq_true in Ha. }
  split; intros ???.
  - by apply (tables_built_P g declared (λ _ id, br_kind (fb_record (binding g id)) = BSingle)).
  - by apply (exports_built_P g declared (λ _ id, br_kind (fb_record (binding g id)) = BSingle)).
Qed.

(** ** Injection points *)

(** A read that needs no report: seen once, seen as an input, or optional and not seen at all. *)
Definition resolved (v : option Visible) (optional : bool) : Prop :=
  match v with
  | Some (VBinding _) | Some (VInput _) => True
  | Some (VAmbiguous _) => False
  | None => optional = true
  end.

Definition reads_resolved (g : Graph) (m : ModuleId) (d : Dependencies) : Prop :=
  ∀ dep, dep ∈ deps_list d → ∀ read, read ∈ dr_reads dep → ∀ key, rd_kind read = Single key →
    resolved (lookup g m key) (rd_optional read).

(** A key is marked only with an error beside it. *)
Definition report_ok (r : report) : Prop := rp_errors r = [] → rp_reported r = ∅.

(** A pass that reports nothing exactly when [P]. *)
Definition silent (f : report → report) (P : Prop) : Prop :=
  ∀ r, report_ok r → report_ok (f r) ∧ (rp_errors (f r) = [] ↔ rp_errors r = [] ∧ P).

Lemma push_error_errors r e : rp_errors (push_error r e) ≠ [].
Proof. simpl. by destruct (rp_errors r). Qed.

Lemma silent_id (f : report → report) (P : Prop) : (∀ r, f r = r) → P → silent f P.
Proof. intros Hf HP r Hr. rewrite Hf. tauto. Qed.

Lemma silent_report (f : report → report) (P : Prop) : (∀ r, rp_errors (f r) ≠ []) → ¬ P → silent f P.
Proof. intros Hf HP r Hr. specialize (Hf r). split; [by intros ?|]. tauto. Qed.

Lemma silent_ext (f f' : report → report) (P P' : Prop) : (∀ r, f r = f' r) → (P ↔ P') → silent f P → silent f' P'.
Proof. intros Hf HP H r Hr. rewrite <- Hf. destruct (H r Hr) as [H1 H2]. tauto. Qed.

Lemma silent_comp (f f' : report → report) (P P' : Prop) : silent f P → silent f' P' → silent (λ r, f' (f r)) (P ∧ P').
Proof. intros H H' r Hr. destruct (H r Hr) as [H1 H2], (H' (f r) H1) as [H3 H4]. tauto. Qed.

Lemma silent_foldl {A} (f : report → A → report) (P : A → Prop) l :
  (∀ x, x ∈ l → silent (λ r, f r x) (P x)) → silent (λ r, foldl f r l) (∀ x, x ∈ l → P x).
Proof.
  induction l as [|x l IH]; intros H.
  - apply silent_id; [done|]. intros x Hx. by apply not_elem_of_nil in Hx.
  - eapply silent_ext; [| |apply (silent_comp (λ r, f r x) (λ r, foldl f r l) (P x) (∀ x, x ∈ l → P x))].
    + done.
    + split; [intros [Hx Hl] y [->|Hy]%elem_of_cons; auto|]. intros Hy. split; [apply Hy; by left|]. intros y ?. apply Hy. by right.
    + apply H. by left.
    + apply IH. intros y Hy. apply H. by right.
Qed.

Lemma check_key_silent g m key optional consumer :
  silent (λ r, (check_key g m key optional consumer r).2) (resolved (lookup g m key) optional).
Proof.
  unfold check_key. destruct (lookup g m key) as [[id|input|l]|]; simpl.
  - by apply silent_id.
  - by apply silent_id.
  - apply silent_report; [intros r; apply push_error_errors|by intros ?].
  - destruct optional; [by apply silent_id|]. apply silent_report; [intros r; apply push_error_errors|by intros ?].
Qed.

Lemma check_dependencies_silent g m owner d :
  silent (λ r, check_dependencies g m owner r d) (reads_resolved g m d).
Proof.
  unfold check_dependencies, reads_resolved. apply silent_foldl. intros dep _. apply silent_foldl. intros read _.
  destruct (rd_kind read) as [key| | | |]; [|apply silent_id; [done|]; by intros ? [=]..].
  eapply silent_ext; [done| |apply check_key_silent]. split; [by intros H k [= <-]|]. intros H. by apply H.
Qed.

(** ** The edges of a binding *)

Definition edge_target (g : Graph) (m : ModuleId) (kind : ReadKind) : option EdgeTarget :=
  match kind with
  | Single key =>
      match lookup g m key with
      | Some (VBinding id) => Some (TBinding id)
      | Some (VInput input) => Some (TInput input)
      | _ => None
      end
  | Collection key => Some (TCollection key)
  | Extension _ | Execution => Some TExecution
  | Module => Some TModule
  end.

Definition read_edge (g : Graph) (b : FrozenBinding) (index : nat) (read : Read) : option Edge :=
  (λ target, {| ed_target := target; ed_dependency := index; ed_optional := rd_optional read |})
    <$> edge_target g (fb_origin b) (rd_kind read).

Definition resolved_edges (g : Graph) (b : FrozenBinding) : list Edge :=
  imap (λ index d, (index, d)) (deps_list (br_dependencies (fb_record b)))
    ≫= λ di : nat * DependencyRecord, omap (read_edge g b di.1) (dr_reads di.2).

Lemma edge_of_read_edges g b index s read :
  (edge_of_read g b index s read).1 = (s.1 ++ option_list (read_edge g b index read))%list.
Proof.
  destruct s as [edges r]. unfold edge_of_read, read_edge, edge_target.
  destruct (rd_kind read) as [key| | | |]; simpl; try done.
  unfold check_key. destruct (lookup g (fb_origin b) key) as [[]|]; simpl; try done; by rewrite app_nil_r.
Qed.

Lemma edges_of_reads g b index reads : ∀ s,
  (foldl (edge_of_read g b index) s reads).1 = (s.1 ++ omap (read_edge g b index) reads)%list.
Proof.
  induction reads as [|read reads IH]; intros s; simpl; [by rewrite app_nil_r|].
  rewrite IH, edge_of_read_edges, <- app_assoc. f_equal. by destruct (read_edge g b index read).
Qed.

Lemma binding_edges_eq g id r : (binding_edges g id r).1 = resolved_edges g (binding g id).
Proof.
  unfold binding_edges, resolved_edges. generalize (imap (λ index d, (index, d)) (deps_list (br_dependencies (fb_record (binding g id))))).
  intros l. change (?a ≫= ?f) with ([] ++ (a ≫= f))%list. change (@nil Edge) with (@nil Edge, r).1 at 2.
  generalize (@nil Edge, r). induction l as [|di l IH]; intros s; simpl; [by rewrite app_nil_r|].
  by rewrite IH, edges_of_reads, <- app_assoc.
Qed.

Lemma edge_of_read_silent g b index s read : report_ok s.2 →
  report_ok (edge_of_read g b index s read).2
  ∧ (rp_errors (edge_of_read g b index s read).2 = [] ↔
     rp_errors s.2 = [] ∧ ∀ key, rd_kind read = Single key → resolved (lookup g (fb_origin b) key) (rd_optional read)).
Proof.
  intros Hr. destruct s as [edges r]. simpl in *. unfold edge_of_read.
  destruct (rd_kind read) as [key| | | |]; [|split; [done|]; naive_solver..].
  pose proof (check_key_silent g (fb_origin b) key (rd_optional read) (consumer g (fb_id b) index) r Hr) as [H1 H2].
  destruct (check_key _ _ _ _ _ _) as [target r']. simpl in *. split; [done|]. rewrite H2. naive_solver.
Qed.

Lemma indexed_snd {A} (l : list A) : (imap (λ index x, (index, x)) l).*2 = l.
Proof.
  apply list_eq. intros i. rewrite list_lookup_fmap, list_lookup_imap. by destruct (l !! i).
Qed.

Lemma binding_edges_silent g id :
  silent (λ r, (binding_edges g id r).2) (reads_resolved g (fb_origin (binding g id)) (br_dependencies (fb_record (binding g id)))).
Proof.
  set (b := binding g id).
  assert (H1 : ∀ index reads s, report_ok s.2 →
    report_ok (foldl (edge_of_read g b index) s reads).2 ∧
    (rp_errors (foldl (edge_of_read g b index) s reads).2 = [] ↔ rp_errors s.2 = [] ∧
      ∀ read, read ∈ reads → ∀ key, rd_kind read = Single key → resolved (lookup g (fb_origin b) key) (rd_optional read))).
  { intros index reads. induction reads as [|read reads IH]; intros s Hs; simpl.
    - split; [done|]. split; [|tauto]. intros ->. split; [done|]. intros read Hr. by apply not_elem_of_nil in Hr.
    - destruct (edge_of_read_silent g b index s read Hs) as [Ha Hb]. destruct (IH _ Ha) as [Hc Hd].
      split; [done|]. rewrite Hd, Hb. setoid_rewrite elem_of_cons. naive_solver. }
  intros r Hr. unfold binding_edges, reads_resolved. fold b.
  assert (H2 : ∀ l s, report_ok s.2 →
    report_ok (foldl (λ s di, foldl (edge_of_read g b di.1) s (dr_reads di.2)) s l).2 ∧
    (rp_errors (foldl (λ s di, foldl (edge_of_read g b di.1) s (dr_reads di.2)) s l).2 = [] ↔ rp_errors s.2 = [] ∧
      ∀ dep, dep ∈ (l : list (nat * DependencyRecord)).*2 → ∀ read, read ∈ dr_reads dep → ∀ key, rd_kind read = Single key →
        resolved (lookup g (fb_origin b) key) (rd_optional read))).
  { intros l. induction l as [|di l IH]; intros s Hs; simpl.
    - split; [done|]. split; [|tauto]. intros ->. split; [done|]. intros read Hd. by apply not_elem_of_nil in Hd.
    - destruct (H1 di.1 (dr_reads di.2) s Hs) as [Ha Hb]. destruct (IH _ Ha) as [Hc Hd].
      split; [done|]. rewrite Hd, Hb. setoid_rewrite elem_of_cons. naive_solver. }
  specialize (H2 (imap (λ index d, (index, d)) (deps_list (br_dependencies (fb_record b)))) ([], r) Hr).
  by rewrite indexed_snd in H2.
Qed.

(** ** Every binding *)

Lemma set_bindings_id g : set_bindings g (g_bindings g) = g.
Proof. by destruct g. Qed.

Section Bindings.
Context (g : Graph) (first : nat).

Definition resolve_between (last i : nat) (b : FrozenBinding) : FrozenBinding :=
  if bool_decide (first ≤ i < last) then set_edges b (resolved_edges g b) else b.

Definition binding_reads (b : FrozenBinding) : Prop :=
  reads_resolved g (fb_origin b) (br_dependencies (fb_record b)).

Lemma resolve_next k b : g_bindings g !! (first + k) = Some b →
  alter (λ b, set_edges b (resolved_edges g b)) (first + k) (imap (resolve_between (first + k)) (g_bindings g))
  = imap (resolve_between (first + S k)) (g_bindings g).
Proof.
  intros Hb. apply list_eq. intros i. rewrite list_lookup_imap.
  destruct (decide (i = first + k)) as [->|Hne].
  - rewrite list_lookup_alter_eq, list_lookup_imap, Hb. simpl. unfold resolve_between.
    by rewrite bool_decide_eq_false_2, bool_decide_eq_true_2 by lia.
  - rewrite list_lookup_alter_ne, list_lookup_imap by done. destruct (g_bindings g !! i) as [x|]; [|done]. simpl. f_equal.
    unfold resolve_between. by rewrite (bool_decide_ext (first ≤ i < first + k) (first ≤ i < first + S k)) by lia.
Qed.

Lemma resolve_bindings_upto r k : report_ok r → first + k ≤ length (g_bindings g) →
  let gr := foldl (λ gr index,
    let '(edges, r) := binding_edges gr.1 index gr.2 in
    (set_bindings gr.1 (alter (λ b, set_edges b edges) index (g_bindings gr.1)), r)) (g, r) (seq first k) in
  gr.1 = set_bindings g (imap (resolve_between (first + k)) (g_bindings g))
  ∧ report_ok gr.2
  ∧ (rp_errors gr.2 = [] ↔ rp_errors r = [] ∧
     ∀ i b, first ≤ i < first + k → g_bindings g !! i = Some b → binding_reads b).
Proof.
  intros Hr. induction k as [|k IH]; intros Hk.
  - simpl. split; [|split; [done|]].
    + etrans; [symmetry; apply set_bindings_id|]. f_equal. symmetry.
      apply list_eq. intros i. rewrite list_lookup_imap. destruct (g_bindings g !! i); [|done]. simpl. f_equal.
      unfold resolve_between. by rewrite bool_decide_eq_false_2 by lia.
    + split; [intros ->|tauto]. split; [done|]. intros i b Hi. lia.
  - rewrite seq_S, foldl_app. cbn [foldl]. destruct IH as (Hg & Hok & Herr); [lia|].
    set (gr := foldl _ _ _) in *. destruct (lookup_lt_is_Some_2 (g_bindings g) (first + k)) as [b Hb]; [lia|].
    assert (Eb : binding gr.1 (first + k) = b).
    { rewrite Hg. unfold binding. simpl. rewrite list_lookup_imap, Hb. simpl. unfold resolve_between.
      by rewrite bool_decide_eq_false_2 by lia. }
    pose proof (binding_edges_eq gr.1 (first + k) gr.2) as He.
    pose proof (binding_edges_silent gr.1 (first + k) gr.2 Hok) as [Hok' Hs].
    destruct (binding_edges gr.1 (first + k) gr.2) as [edges r'] eqn:Ee. simpl in *. subst edges.
    rewrite Eb in *. rewrite Hg in *. split; [|split; [done|]].
    + rewrite <- (resolve_next k b Hb). simpl.
      change (resolved_edges (set_bindings g _) b) with (resolved_edges g b).
      change (set_bindings (set_bindings g _) ?x) with (set_bindings g x). f_equal.
      apply list_eq. intros i. destruct (decide (i = first + k)) as [->|Hne]; [|by rewrite !list_lookup_alter_ne].
      rewrite !list_lookup_alter_eq, list_lookup_imap, Hb. simpl. unfold resolve_between.
      by rewrite bool_decide_eq_false_2 by lia.
    + rewrite Hs, Herr. split.
      * intros [[H1 H2] H3]. split; [done|]. intros i x Hi Hx. destruct (decide (i = first + k)) as [->|Hne].
        -- rewrite Hb in Hx. by injection Hx as <-.
        -- eapply H2; [|done]. lia.
      * intros [H1 H2]. split; [split; [done|]|].
        -- intros i x Hi Hx. eapply H2; [|done]. lia.
        -- eapply H2; [|exact Hb]. lia.
Qed.

Definition resolve_from (i : nat) (b : FrozenBinding) : FrozenBinding :=
  if bool_decide (first ≤ i) then set_edges b (resolved_edges g b) else b.

Lemma resolve_bindings_spec r : report_ok r → first ≤ length (g_bindings g) →
  (resolve_bindings g first r).1 = set_bindings g (imap resolve_from (g_bindings g))
  ∧ report_ok (resolve_bindings g first r).2
  ∧ (rp_errors (resolve_bindings g first r).2 = [] ↔
     rp_errors r = [] ∧ ∀ b, b ∈ drop first (g_bindings g) → binding_reads b).
Proof.
  intros Hr Hf. destruct (resolve_bindings_upto r (length (g_bindings g) - first) Hr) as (Hg & Hok & Herr); [lia|].
  replace (first + (length (g_bindings g) - first)) with (length (g_bindings g)) in * by lia.
  split; [|split; [done|]].
  - etrans; [exact Hg|]. f_equal. apply list_eq. intros i. rewrite !list_lookup_imap.
    destruct (g_bindings g !! i) as [b|] eqn:E; [|done]. simpl. f_equal. apply lookup_lt_Some in E.
    unfold resolve_between, resolve_from. by rewrite (bool_decide_ext (first ≤ i < length (g_bindings g)) (first ≤ i)) by lia.
  - etrans; [exact Herr|]. split; intros [H0 H]; (split; [exact H0|]).
    + intros b (i & Hi)%list_elem_of_lookup. rewrite lookup_drop in Hi. eapply H; [|exact Hi].
      apply lookup_lt_Some in Hi. lia.
    + intros i b Hi Hb. apply H. apply list_elem_of_lookup. exists (i - first). rewrite lookup_drop.
      by replace (first + (i - first)) with i by lia.
Qed.

Lemma resolved_edges_range b e dep : graph_wf g → e ∈ resolved_edges g b → ed_target e = TBinding dep →
  dep < length (g_bindings g).
Proof.
  intros Hwf. unfold resolved_edges. rewrite list_elem_of_bind. intros (di & He & _) Ht.
  apply list_elem_of_omap in He as (read & _ & He). unfold read_edge in He. apply fmap_Some in He as (t & Et & ->).
  simpl in Ht. subst t. unfold edge_target in Et. destruct (rd_kind read) as [key| | | |]; try done.
  destruct (lookup g (fb_origin b) key) as [[]|] eqn:El; try done. injection Et as ->. by eapply wf_visible.
Qed.

Lemma resolve_from_wf : graph_wf g → graph_wf (set_bindings g (imap resolve_from (g_bindings g))).
Proof.
  intros Hwf. assert (Hl : ∀ i b, imap resolve_from (g_bindings g) !! i = Some b →
    ∃ b0, g_bindings g !! i = Some b0 ∧ fb_id b = fb_id b0 ∧ fb_origin b = fb_origin b0
      ∧ (fb_edges b = fb_edges b0 ∨ fb_edges b = resolved_edges g b0)).
  { intros i b. rewrite list_lookup_imap. intros (b0 & Hb0 & ->)%fmap_Some. exists b0. unfold resolve_from.
    case_bool_decide; simpl; auto. }
  pose proof (λ b e dep, resolved_edges_range b e dep Hwf) as Hrange.
  destruct Hwf as [H1 H2 H3 H4 H5 H6 H7 H8 H9 H10]. split; simpl; rewrite ?length_imap; try done.
  - intros i b (b0 & Hb0 & -> & _)%Hl. by apply H1.
  - intros i b (b0 & Hb0 & _ & -> & _)%Hl. by eapply H3.
  - intros i b e dep (b0 & Hb0 & _ & _ & [-> | ->])%Hl; [by eapply H4|by eapply Hrange].
Qed.
End Bindings.

(** ** The resolution *)

(** Every injection point this wiring resolves. *)
Record points_resolved (g : Graph) (declared : Declared) : Prop := {
  pt_bindings : ∀ b, b ∈ drop (dc_first_binding declared) (g_bindings g) →
    reads_resolved g (fb_origin b) (br_dependencies (fb_record b))
    ∧ (∀ ready, br_ready (fb_record b) = Some ready → reads_resolved g (fb_origin b) (ry_dependencies ready))
    ∧ (∀ hook, hook ∈ br_hooks (fb_record b) → reads_resolved g (fb_origin b) (hk_dependencies hook));
  pt_modules : ∀ m, m ∈ drop (dc_first_module declared) (g_modules g) →
    ∀ hook, hook ∈ fm_hooks m → reads_resolved g (fm_id m) (hk_dependencies hook);
  pt_meta : ∀ m name d, (m, name, d) ∈ dc_meta declared → reads_resolved g m d;
  pt_handlers : ∀ h, h ∈ drop (dc_first_handler declared) (g_handlers g) →
    (∀ l, lookup g (hr_module h) (record_key (fb_record (binding g (hr_controller h)))) ≠ Some (VAmbiguous l))
    ∧ reads_resolved g (hr_module h) (hd_dependencies (hr_decl h))
    ∧ (∀ key, EType key ∈ hd_enhancer_deps (hr_decl h) → resolved (lookup g (hr_module h) key) false)
    ∧ (∀ c, EClosure c ∈ hd_enhancer_deps (hr_decl h) → reads_resolved g (hr_module h) (cd_dependencies c));
  pt_root : dc_first_module declared = 0 →
    ∀ key l, lookup g (g_root g) key ≠ Some (VAmbiguous l);
}.

Lemma resolve_records g first i : fb_record (binding (set_bindings g (imap (resolve_from g first) (g_bindings g))) i)
  = fb_record (binding g i).
Proof.
  unfold binding. simpl. rewrite list_lookup_imap. destruct (g_bindings g !! i) as [b|]; [|done]. simpl.
  unfold resolve_from. by case_bool_decide.
Qed.

Lemma drop_resolved g first b : b ∈ drop first (imap (resolve_from g first) (g_bindings g)) ↔
  ∃ b0, b0 ∈ drop first (g_bindings g) ∧ b = set_edges b0 (resolved_edges g b0).
Proof.
  split.
  - intros (i & Hi)%list_elem_of_lookup. rewrite lookup_drop, list_lookup_imap in Hi.
    apply fmap_Some in Hi as (b0 & Hb0 & ->). exists b0. split.
    + apply list_elem_of_lookup. exists i. by rewrite lookup_drop.
    + unfold resolve_from. by rewrite bool_decide_eq_true_2 by lia.
  - intros (b0 & (i & Hi)%list_elem_of_lookup & ->). rewrite lookup_drop in Hi. apply list_elem_of_lookup.
    exists i. rewrite lookup_drop, list_lookup_imap, Hi. simpl. f_equal. unfold resolve_from.
    by rewrite bool_decide_eq_true_2 by lia.
Qed.

(** The three parts of [check_handler]. *)
Definition handler_controller (g : Graph) (h : HandlerRecord) (r : report) : report :=
  let key := record_key (fb_record (binding g (hr_controller h))) in
  match lookup g (hr_module h) key with
  | Some (VAmbiguous l) =>
      if bool_decide ((hr_module h, key_id key) ∈ rp_reported r) then r
      else push_error (mark_reported r (hr_module h) key)
             (Ambiguous (key_name_of key BSingle) (handler_name g h ++ " (its controller)")%string
                (module_name g (hr_module h)) (ambiguous_sources g l))
  | _ => r
  end.
Definition handler_params (g : Graph) (h : HandlerRecord) (r : report) : report :=
  check_dependencies g (hr_module h) (handler_name g h) r (hd_dependencies (hr_decl h)).
Definition handler_enhancers (g : Graph) (h : HandlerRecord) (r : report) : report :=
  foldl (λ r dep,
    match dep with
    | EType key =>
        (check_key g (hr_module h) key false
           (handler_name g h ++ " (enhancer `" ++ short_type_name (full_name key) ++ "`)")%string r).2
    | EClosure c =>
        check_dependencies g (hr_module h) (handler_name g h ++ " (enhancer closure)")%string r (cd_dependencies c)
    end) r (hd_enhancer_deps (hr_decl h)).

Lemma handler_controller_silent g h : silent (handler_controller g h)
  (∀ l, lookup g (hr_module h) (record_key (fb_record (binding g (hr_controller h)))) ≠ Some (VAmbiguous l)).
Proof.
  intros r Hr. unfold handler_controller.
  destruct (lookup g (hr_module h) _) as [[id|input|l]|]; try (split; [done|]; split; [by intros ->|tauto]).
  case_bool_decide as Hin.
  - split; [done|]. split; [|by intros [_ H]; destruct (H l)]. intros He. rewrite (Hr He) in Hin. set_solver.
  - split; [intros He; by apply push_error_errors in He|]. split; [intros He; by apply push_error_errors in He|].
    intros [_ H]. by destruct (H l).
Qed.

Lemma handler_enhancers_silent g h : silent (handler_enhancers g h)
  ((∀ key, EType key ∈ hd_enhancer_deps (hr_decl h) → resolved (lookup g (hr_module h) key) false)
   ∧ (∀ c, EClosure c ∈ hd_enhancer_deps (hr_decl h) → reads_resolved g (hr_module h) (cd_dependencies c))).
Proof.
  eapply (silent_ext (handler_enhancers g h) _ (∀ dep, dep ∈ hd_enhancer_deps (hr_decl h) →
    match dep with
    | EType key => resolved (lookup g (hr_module h) key) false
    | EClosure c => reads_resolved g (hr_module h) (cd_dependencies c)
    end)); [done| |].
  - split; [intros H; split; intros x Hx; apply (H _ Hx)|]. intros [H1 H2] [k|c] Hx; auto.
  - apply silent_foldl. intros [k|c] _; [apply check_key_silent|apply check_dependencies_silent].
Qed.

Lemma check_handler_silent g h : silent (λ r, check_handler g r h)
  ((∀ l, lookup g (hr_module h) (record_key (fb_record (binding g (hr_controller h)))) ≠ Some (VAmbiguous l))
   ∧ reads_resolved g (hr_module h) (hd_dependencies (hr_decl h))
   ∧ (∀ key, EType key ∈ hd_enhancer_deps (hr_decl h) → resolved (lookup g (hr_module h) key) false)
   ∧ (∀ c, EClosure c ∈ hd_enhancer_deps (hr_decl h) → reads_resolved g (hr_module h) (cd_dependencies c))).
Proof.
  apply (silent_comp (handler_controller g h) (λ r, handler_enhancers g h (handler_params g h r))).
  - apply handler_controller_silent.
  - apply (silent_comp (handler_params g h) (handler_enhancers g h)); [|apply handler_enhancers_silent].
    apply check_dependencies_silent.
Qed.

Lemma insert_by_elem {A} (le : A → A → bool) x l y : y ∈ insert_by le x l ↔ y = x ∨ y ∈ l.
Proof.
  induction l as [|z l IH]; simpl; [set_solver|]. destruct (le z x); rewrite !elem_of_cons, ?IH; tauto.
Qed.

Lemma sort_by_nil {A} (le : A → A → bool) l : sort_by le l = [] ↔ l = [].
Proof.
  split; [|by intros ->]. unfold sort_by. destruct l as [|x l]; [done|]. simpl.
  assert (H : ∀ l acc, x ∈ acc → x ∈ foldl (λ acc x, insert_by le x acc) acc l).
  { clear l. intros l. induction l as [|z l IH]; intros acc Hx; simpl; [done|]. apply IH, insert_by_elem. by right. }
  specialize (H l [x] (list_elem_of_here _ _)). intros E. rewrite E in H. by apply not_elem_of_nil in H.
Qed.

Lemma push_errors_nil {A} (f : A → WiringError) l r :
  rp_errors (foldl (λ r x, push_error r (f x)) r l) = [] ↔ rp_errors r = [] ∧ l = [].
Proof.
  revert r. induction l as [|x l IH]; intros r; simpl; [tauto|]. rewrite IH. split; [|by intros [_ [=]]].
  intros [H _]. by apply push_error_errors in H.
Qed.

(** The sweep finds nothing when nothing the root sees is ambiguous. *)
Lemma sweep_root_silent g r : report_ok r →
  rp_errors (sweep_root g r) = [] ↔ rp_errors r = [] ∧ ∀ key l, lookup g (g_root g) key ≠ Some (VAmbiguous l).
Proof.
  intros Hr. unfold sweep_root. rewrite push_errors_nil, sort_by_nil. split; intros [He H]; (split; [done|]).
  - intros key l Hl. unfold lookup in Hl. apply fmap_Some in Hl as ([k v] & Hk & Hv). simpl in Hv. subst v.
    assert (Hin : (k, l) ∈ @nil (Key * list (ModuleId * BindingId))); [|by apply not_elem_of_nil in Hin].
    rewrite <- H. apply list_elem_of_omap. exists (key_id key, (k, VAmbiguous l)). split; [by apply elem_of_map_to_list|].
    simpl. rewrite bool_decide_eq_false_2; [done|]. rewrite (Hr He). set_solver.
  - destruct (omap _ _) as [|x l] eqn:E; [done|]. exfalso.
    assert (Hx : x ∈ x :: l) by by left. rewrite <- E in Hx. apply list_elem_of_omap in Hx as ([k [key v]] & Hin & Hv).
    simpl in Hv. destruct v as [| |amb]; try done. apply elem_of_map_to_list in Hin.
    destruct k as [a b].
    set (key0 := {| key_ty := from_parts a EmptyString; key_qualifier := from_parts b EmptyString |}).
    apply (H key0 amb). unfold lookup. change (key_id key0) with (a, b). by rewrite Hin.
Qed.

Section Resolution.
Context (g : Graph) (declared : Declared) (Hfirst : dc_first_binding declared ≤ length (g_bindings g)).
Abbreviation g' := (set_bindings g (imap (resolve_from g (dc_first_binding declared)) (g_bindings g))).

(** The passes of [resolve_dependencies] after the bindings' edges. *)
Definition check_binding_closures (r : report) (b : FrozenBinding) : report :=
  let r := match br_ready (fb_record b) with
    | Some ready => check_dependencies g' (fb_origin b) ("readiness check of " ++ label g' (fb_id b))%string r (ry_dependencies ready)
    | None => r
    end in
  foldl (λ r hook, check_dependencies g' (fb_origin b)
    (hook_kind_display (hk_kind hook) ++ " hook of " ++ label g' (fb_id b))%string r (hk_dependencies hook))
    r (br_hooks (fb_record b)).

Lemma check_binding_closures_silent b : silent (λ r, check_binding_closures r b)
  ((∀ ready, br_ready (fb_record b) = Some ready → reads_resolved g (fb_origin b) (ry_dependencies ready))
   ∧ (∀ hook, hook ∈ br_hooks (fb_record b) → reads_resolved g (fb_origin b) (hk_dependencies hook))).
Proof.
  apply (silent_comp
    (λ r, match br_ready (fb_record b) with
          | Some ready => check_dependencies g' (fb_origin b) ("readiness check of " ++ label g' (fb_id b))%string r (ry_dependencies ready)
          | None => r
          end)
    (λ r, foldl (λ r hook, check_dependencies g' (fb_origin b)
      (hook_kind_display (hk_kind hook) ++ " hook of " ++ label g' (fb_id b))%string r (hk_dependencies hook)) r (br_hooks (fb_record b)))).
  - destruct (br_ready (fb_record b)) as [ready|]; [|by apply silent_id].
    eapply silent_ext; [done| |apply check_dependencies_silent].
    split; [by intros H x [= <-]|]. intros H. by apply H.
  - apply silent_foldl. intros hook _. exact (check_dependencies_silent g' _ _ _).
Qed.

Lemma resolve_dependencies_graph : (resolve_dependencies g declared).1 = g'.
Proof.
  unfold resolve_dependencies.
  destruct (resolve_bindings_spec g (dc_first_binding declared) {| rp_errors := []; rp_reported := ∅ |}) as (Hg & _); [done..|].
  destruct (resolve_bindings _ _ _) as [gr r]. exact Hg.
Qed.

(** The resolution reports nothing exactly when every injection point is resolved. *)
Lemma resolve_dependencies_spec : (resolve_dependencies g declared).2 = [] ↔ points_resolved g declared.
Proof.
  unfold resolve_dependencies.
  destruct (resolve_bindings_spec g (dc_first_binding declared) {| rp_errors := []; rp_reported := ∅ |}) as (Hg & Hok & Herr); [done..|].
  destruct (resolve_bindings _ _ _) as [gr r]. simpl in Hg, Hok, Herr. subst gr.
  change (foldl _ r (drop (dc_first_binding declared) (g_bindings g'))) with
    (foldl check_binding_closures r (drop (dc_first_binding declared) (g_bindings g'))).
  pose proof (silent_foldl check_binding_closures _ (drop (dc_first_binding declared) (g_bindings g'))
    (λ b _, check_binding_closures_silent b) r Hok) as [Hok1 H1].
  set (r1 := foldl check_binding_closures _ _) in *.
  match goal with |- context [foldl ?f r1 ?l] =>
    pose proof (silent_foldl f (λ m, ∀ hook, hook ∈ fm_hooks m → reads_resolved g (fm_id m) (hk_dependencies hook)) l
      (λ m _, silent_foldl _ _ _ (λ hook _, check_dependencies_silent g' _ _ _)) r1 Hok1) as [Hok2 H2];
    set (r2 := foldl f r1 l) in * end.
  match goal with |- context [foldl ?f r2 ?l] =>
    pose proof (silent_foldl f (λ mnd, reads_resolved g mnd.1.1 mnd.2) l
      (λ mnd _, check_dependencies_silent g' _ _ _) r2 Hok2) as [Hok3 H3];
    set (r3 := foldl f r2 l) in * end.
  pose proof (silent_foldl (check_handler g') _ (drop (dc_first_handler declared) (g_handlers g'))
      (λ h _, check_handler_silent g' h) r3 Hok3) as [Hok4 H4].
  set (r4 := foldl (check_handler g') _ _) in *. simpl.
  assert (H5 : rp_errors (if bool_decide (dc_first_module declared = 0) then sweep_root g' r4 else r4) = [] ↔
    rp_errors r4 = [] ∧ (dc_first_module declared = 0 → ∀ key l, lookup g (g_root g) key ≠ Some (VAmbiguous l))).
  { case_bool_decide as E; [|tauto]. rewrite (sweep_root_silent g' r4 Hok4).
    change (lookup g' (g_root g')) with (lookup g (g_root g)). tauto. }
  rewrite H5, H4, H3, H2, H1, Herr. clear. simpl. split.
  - intros [[[[[[_ Ha] Hb] Hc] Hd] He] Hf]. split; try done.
    + intros b Hb0. split; [by apply Ha|].
      apply (Hb (set_edges b (resolved_edges g b))), drop_resolved. eauto.
    + intros m name d Hin. by apply (Hd (m, name, d)).
    + intros h Hh. destruct (He h Hh) as (H1 & H2). rewrite resolve_records in H1. done.
  - intros [Hb Hm Hd Hh Hr]. split_and!; try done.
    + intros b Hin. by apply Hb.
    + intros b (b0 & Hb0 & ->)%drop_resolved. by apply (Hb b0).
    + intros [[m name] d] Hin. by eapply Hd.
    + intros h Hin. rewrite resolve_records. by apply Hh.
Qed.
End Resolution.
