(* ===== verification/Wire.v ===== *)
(** * Wire: the wiring pass

    The checks and the two entry points of [crates/ulo/src/graph/wire.rs]. [wire] registers the
    root, freezes the graph and runs the six steps; [wire_lazy] does the same for one module
    against a frozen graph. Both end in the graph or in every error found. *)

From S2P Require Import Prelude Text Key Graph WiringError Tarjan Cycles Order Redact Scopes Visibility Register Freeze.
Local Open Scope string_scope.
Local Open Scope nat_scope.

(** ** Step 1 *)

Definition check_export (g : Graph) (me : ModuleId * ExportRecord) : option WiringError :=
  let '(m, export) := me in
  let key := key_name_of (ex_key export) BSingle in
  if ex_reexport export then
    match lookup g m (ex_key export) with
    | Some (VBinding _) => None
    | Some (VAmbiguous list) =>
        Some (ReexportAmbiguous (module_name g m) key ((λ s : ModuleId * BindingId, module_name g s.1) <$> list)
                (ex_location export))
    | Some (VInput _) | None => Some (ReexportNotVisible (module_name g m) key (ex_location export))
    end
  else
    match own_binding g m (ex_key export) with
    | Some _ => None
    | None =>
        let imported := match lookup g m (ex_key export) with Some (VBinding _ | VAmbiguous _) => true | _ => false end in
        Some (ExportNotBound (module_name g m) key imported
                ((λ near, key_name_of near BSingle) <$> own_near_spelling g m (ex_key export)) (ex_location export))
    end.

Definition check_keyed_input (g : Graph) (mi : ModuleId * InputRecord) : option WiringError :=
  match fm_keyed (module g mi.1) with
  | Some _ => Some (KeyedInput (module_name g mi.1) (key_name_of (ir_key mi.2) BSingle) (ir_location mi.2))
  | None => None
  end.

Definition check_modules (g : Graph) (declared : Declared) : list WiringError :=
  (omap (check_export g) (dc_exports declared) ++ omap (check_keyed_input g) (dc_inputs declared))%list.

(** ** Step 2 *)

Record duplicates := {
  du_first : gmap KeyId BindingId;
  du_pairs : gset (BindingId * BindingId);
  du_errors : list WiringError;
}.

(** One key of one single binding of a module. *)
Definition check_duplicate (g : Graph) (m : FrozenModule) (id : BindingId) (s : duplicates) (key : Key) : duplicates :=
  match du_first s !! key_id key with
  | Some earlier =>
      if bool_decide (earlier = id) || bool_decide ((earlier, id) ∈ du_pairs s) then s
      else {| du_first := du_first s; du_pairs := {[(earlier, id)]} ∪ du_pairs s;
              du_errors := (du_errors s ++ [DuplicateBinding (key_name_of key BSingle) (fm_name m)
                (br_location (fb_record (binding g earlier))) (br_location (fb_record (binding g id)))])%list |}
  | None => {| du_first := <[key_id key := id]> (du_first s); du_pairs := du_pairs s; du_errors := du_errors s |}
  end.

Definition check_own_bindings (g : Graph) (m : FrozenModule) : list WiringError :=
  du_errors (foldl (λ s id,
    let record := fb_record (binding g id) in
    if bool_decide (br_kind record = BSingle) then foldl (check_duplicate g m id) s (keys record) else s)
    {| du_first := ∅; du_pairs := ∅; du_errors := [] |} (fm_bindings m)).

(** One key of one single binding against the collections. *)
Definition check_mix (g : Graph) (declared : Declared) (roles : gset TypeId) (b : FrozenBinding)
    (s : gset KeyId * list WiringError) (key : Key) : gset KeyId * list WiringError :=
  let '(mixed, errors) := s in
  if bool_decide (key_type_id key ∈ roles) then s
  else match g_collections g !! key_id key with
  | None => s
  | Some contributions =>
      let new := bool_decide (dc_first_binding declared ≤ fb_id b)
                 || existsb (λ id, bool_decide (dc_first_binding declared ≤ id)) contributions in
      if new && negb (bool_decide (key_id key ∈ mixed)) then
        ({[key_id key]} ∪ mixed,
         match contributions with
         | first :: _ =>
             (errors ++ [KindMix (key_name_of key BSingle) (module_name g (fb_origin b)) (br_location (fb_record b))
                (br_location (fb_record (binding g first)))])%list
         | [] => errors
         end)
      else s
  end.

Definition check_mixes (g : Graph) (declared : Declared) : list WiringError :=
  let roles := role_types g (g_bindings g) in
  (foldl (λ s b, if bool_decide (br_kind (fb_record b) = BSingle)
                 then foldl (check_mix g declared roles b) s (keys (fb_record b)) else s)
    (∅, []) (g_bindings g)).2.

(** One new binding: provided as a controller, an alias of nothing, two readiness checks. *)
Definition check_provided (g : Graph) (b : FrozenBinding) : list WiringError :=
  match br_controller_type (fb_record b) with
  | Some controller =>
      if br_controller (fb_record b) then []
      else [ControllerProvided (key_name g (fb_id b)) controller (module_name g (fb_origin b)) (br_location (fb_record b))]
  | None => []
  end.

Definition check_alias (g : Graph) (b : FrozenBinding) : list WiringError :=
  match br_recipe (fb_record b) with
  | Alias target =>
      match lookup g (fb_origin b) target with
      | Some (VBinding _) => []
      | Some (VAmbiguous list) =>
          [Ambiguous (key_name_of target BSingle) ("the alias `" ++ key_name_display (key_name g (fb_id b)) ++ "`")
             (module_name g (fb_origin b)) (ambiguous_sources g list)]
      | Some (VInput _) | None =>
          [DanglingAlias (key_name g (fb_id b)) (key_name_of target BSingle) (module_name g (fb_origin b))
             (br_location (fb_record b))]
      end
  | _ => []
  end.

Definition check_readiness (g : Graph) (b : FrozenBinding) : list WiringError :=
  let record := fb_record b in
  match br_replaced_ready record with
  | first :: rest =>
      match (match rest with second :: _ => Some second | [] => ry_location <$> br_ready record end) with
      | Some second => [DuplicateReadiness (key_name g (fb_id b)) (module_name g (fb_origin b)) first second]
      | None => []
      end
  | [] => []
  end.

(** The single bindings under a key. *)
Definition bound_under (g : Graph) (key : Key) : list FrozenBinding :=
  filterb (λ b, single_under key (fb_record b)) (g_bindings g).

Definition check_input (g : Graph) (s : gmap KeyId Location * list WiringError) (mi : ModuleId * InputRecord)
    : gmap KeyId Location * list WiringError :=
  let '(first_input, errors) := s in
  let input := mi.2 in
  let key := key_name_of (ir_key input) BSingle in
  let '(first_input, errors) :=
    match first_input !! key_id (ir_key input) with
    | Some first =>
        (first_input, (errors ++ [DuplicateBinding key (module_name g mi.1) first (ir_location input)])%list)
    | None => (<[key_id (ir_key input) := ir_location input]> first_input, errors)
    end in
  (first_input,
   (errors ++ ((λ b, DuplicateBinding key (module_name g (fb_origin b)) (ir_location input) (br_location (fb_record b)))
      <$> bound_under g (ir_key input)))%list).

Definition check_transport_input (g : Graph) (declared : Declared) (index : nat) (input : InputDecl) : list WiringError :=
  let key := key_name_of (in_key input) BSingle in
  let earlier := take index (dc_transport_inputs declared) in
  let reported :=
    existsb (λ mi : ModuleId * InputRecord, key_eqb (ir_key mi.2) (in_key input)) (dc_inputs declared)
    || existsb (λ other, key_eqb (in_key other) (in_key input)) earlier in
  (((λ mi : ModuleId * InputRecord,
       InputConflict key (in_origin input) (OModule (module_name g mi.1) [ir_seeder mi.2] (ir_location mi.2)))
      <$> filterb (λ mi : ModuleId * InputRecord,
            key_eqb (ir_key mi.2) (in_key input) && negb (existsb (type_name_eqb (ir_seeder mi.2)) (in_seeders input)))
          (dc_inputs declared))
   ++ ((λ other, InputConflict key (in_origin other) (in_origin input))
      <$> filterb (λ other, key_eqb (in_key other) (in_key input) && negb (same_seeders other (in_seeders input))) earlier)
   ++ (if reported then []
       else (λ b, InputConflict key (in_origin input) (OBinding (module_name g (fb_origin b)) (br_location (fb_record b))))
              <$> bound_under g (in_key input)))%list.

Definition check_bindings (g : Graph) (declared : Declared) : list WiringError :=
  ((drop (dc_first_module declared) (g_modules g) ≫= check_own_bindings g)
   ++ check_mixes g declared
   ++ (drop (dc_first_binding declared) (g_bindings g) ≫= λ b,
         check_provided g b ++ check_alias g b ++ check_readiness g b)
   ++ (foldl (check_input g) (∅, []) (dc_inputs declared)).2
   ++ concat (imap (check_transport_input g declared) (dc_transport_inputs declared)))%list.

(** ** Step 6 *)

(** [written_bound]. *)
Definition written_bound (bound : Bound) (timed : bool) (zero untimed : WiringError) : list WiringError :=
  match bound with
  | After after => if is_zero after then [zero] else if timed then [] else [untimed]
  | BoundDefault | Unbounded => []
  end.

Definition bound_errors (g : Graph) (timed : bool) (b : FrozenBinding) (item : BoundItem) (bound : Bound) (at_ : Location)
    (text : string) : list WiringError :=
  written_bound bound timed (ZeroBound item (Some (key_name g (fb_id b))) (module_name g (fb_origin b)) at_)
    (BoundWithoutTimer text at_).

Definition check_binding_bounds (g : Graph) (timed : bool) (b : FrozenBinding) : list WiringError :=
  let record := fb_record b in
  let name := label g (fb_id b) in
  (bound_errors g timed b ItemConstruction (br_construct_bound record)
     (default (br_location record) (br_construct_bound_at record)) ("construction of `" ++ name ++ "`")
   ++ match br_ready record with
      | Some ready =>
          (if negb timed && negb (is_zero (ry_backoff ready))
           then [BackoffWithoutTimer name (default (ry_location ready) (ry_backoff_location ready))] else [])
          ++ bound_errors g timed b ReadinessWhole (ry_whole ready) (default (ry_location ready) (ry_whole_at ready))
               ("readiness `.timeout` of `" ++ name ++ "`")
          ++ bound_errors g timed b ReadinessAttempt (ry_attempt ready) (default (ry_location ready) (ry_attempt_at ready))
               ("readiness `.attempt_timeout` of `" ++ name ++ "`")
      | None => []
      end
   ++ (br_hooks record ≫= λ hook,
        bound_errors g timed b (ItemHook (hk_kind hook)) (hk_bound hook) (default (hk_location hook) (hk_bound_at hook))
          ("`" ++ hook_kind_display (hk_kind hook) ++ "` hook of `" ++ name ++ "`")))%list.

Definition check_module_bounds (timed : bool) (m : FrozenModule) : list WiringError :=
  fm_hooks m ≫= λ hook,
    let at_ := default (hk_location hook) (hk_bound_at hook) in
    written_bound (hk_bound hook) timed (ZeroBound (ItemHook (hk_kind hook)) None (fm_name m) at_)
      (BoundWithoutTimer ("`" ++ hook_kind_display (hk_kind hook) ++ "` hook of module " ++ mn_text (fm_name m)) at_).

Definition check_environment (g : Graph) (env : WireEnv) (declared : Declared) : list WiringError :=
  let timed := match we_timer env with Some _ => true | None => false end in
  let whole := bool_decide (dc_first_module declared = 0) in
  ((if negb timed && whole then KnobWithoutTimer <$> we_knobs_set env else [])
   ++ (if whole then (λ ka : string * Location, ZeroDefault ka.1 ka.2) <$> we_zero_defaults env else [])
   ++ (drop (dc_first_binding declared) (g_bindings g) ≫= check_binding_bounds g timed)
   ++ (drop (dc_first_module declared) (g_modules g) ≫= check_module_bounds timed))%list.

(** ** The pass *)

(** [check], on the errors [freeze] left. *)
Definition check (g : Graph) (declared : Declared) (env : WireEnv) (modules bindings : list WiringError) : Graph * Steps :=
  let g := build_tables g declared in
  let modules := (modules ++ check_modules g declared)%list in
  let bindings := (bindings ++ check_bindings g declared)%list in
  let '(g, dependencies) := resolve_dependencies g declared in
  let dependencies := (dependencies ++ check_controller_reads g declared)%list in
  let cycles := dependency_cycles g in
  let g := needs_execution (assign_roles g) in
  let scopes := check_scopes g in
  let '(g, closures) := closure_scopes g declared in
  (g, {| sp_modules := modules; sp_bindings := bindings; sp_dependencies := dependencies; sp_cycles := cycles;
         sp_scopes := (scopes ++ closures ++ check_closures g declared ++ check_inputs g)%list;
         sp_environment := check_environment g env declared |}).

(** ** Refusals *)

Inductive LoadRefusal :=
  | Controllers (module : ModuleName)
  | Middleware (module : ModuleName)
  | Contribution (module : ModuleName) (key : KeyName)
  | GlobalExport (module : ModuleName) (key : KeyName)
  | Input (module : ModuleName) (key : KeyName).

Definition reads_key (key : Key) (d : Dependencies) : bool :=
  existsb (λ dep, existsb (λ read, match rd_kind read with Collection k => key_eqb k key | _ => false end) (dr_reads dep))
    (deps_list d).

(** [reads_collection]. *)
Definition reads_collection (base : Graph) (key : Key) : bool :=
  existsb (λ b,
      existsb (λ e, match ed_target e with TCollection k => key_eqb k key | _ => false end) (fb_edges b)
      || match br_ready (fb_record b) with Some ready => reads_key key (ry_dependencies ready) | None => false end
      || existsb (λ hook, reads_key key (hk_dependencies hook)) (br_hooks (fb_record b))) (g_bindings base)
  || existsb (λ m, existsb (λ hook, reads_key key (hk_dependencies hook)) (fm_hooks m)) (g_modules base)
  || existsb (λ h,
      existsb (λ k, key_eqb k key) (hd_role_keys (hr_decl h))
      || reads_key key (hd_dependencies (hr_decl h))
      || existsb (λ dep, match dep with EClosure c => reads_key key (cd_dependencies c) | EType _ => false end)
           (hd_enhancer_deps (hr_decl h))) (g_handlers base).

Section Wire.
Context {M : Type}.
Context (module_identity : M → ModuleIdentity).
Context (module_settings : M → ModuleSettings).
Context (module_register : M → @ModuleNode M → @ModuleNode M).
Context (core : CoreTypes).

(** What one module of a load is refused for. *)
Definition node_refusal (base : Graph) (name : ModuleName) (node : @ModuleNode M) : option LoadRefusal :=
  match nd_controllers node with _ :: _ => Some (Controllers name) | [] =>
  match nd_meta node with _ :: _ => Some (Middleware name) | [] =>
  match nd_inputs node with
  | input :: _ => Some (Input name (key_name_of (ir_key input) BSingle))
  | [] =>
  match (if nd_global node then head (nd_exports node) else None) with
  | Some export => Some (GlobalExport name (key_name_of (boundary_key (nd_keyed node) (ex_key export)) BSingle))
  | None =>
      find_map (λ record,
        if bool_decide (br_kind record = BCollection) then
          let key := record_key record in
          if bool_decide (is_Some (g_collections base !! key_id key)) || reads_collection base key
          then Some (Contribution name (key_name_of key BCollection)) else None
        else None) (nd_bindings node)
  end end end end.

Definition refusal (base : Graph) (r : @Registry M) : option LoadRefusal :=
  let names := names (rg_nodes r) (rg_post_order r) (Some base) in
  find_map (λ index, rg_nodes r !! index ≫= node_refusal base (name_at names index)) (rg_post_order r).

(** [reload_differs]. *)
Definition reload_differs (base : Graph) (existing : ModuleId) (m : M) (at_ : Location) : option (list WiringError) :=
  let frozen := module base existing in
  let differing := differing_error [] base <$>
    option_list (differing_of (Existing existing) (fm_settings frozen, fm_site frozen) (module_settings m, SiteLoad at_)) in
  let repeats := later_repeats [] (Existing existing) (fm_settings frozen) (module_settings m) in
  let errors := (differing ++ ((λ mr : Import * Repeat, repeat_error (fm_name frozen) mr.2) <$> repeats))%list in
  if bool_decide (length errors = 0) then None else Some errors.

(** [wire]; [None] when the walk's fuel is spent. *)
Definition wire (fuel : nat) (root : M) (env : WireEnv) (plan : option (@TestPlan M))
    : option (list WiringError + Graph) :=
  match register_from module_identity module_settings module_register None plan fuel root SiteRoot with
  | None => None
  | Some r =>
      let r := match we_timer env with Some timer => add_timer_module core r timer (we_runtime env) | None => r end in
      let '(g, declared, modules, bindings) := freeze core empty_graph r None plan in
      let g := set_root_order g (dc_root declared) (g_connect_order g) in
      let '(g, steps) := check g declared env modules bindings in
      let errors := into_errors steps in
      Some (if bool_decide (length errors = 0) then inr (set_root_order g (g_root g) (connect_order g))
            else inl errors)
  end.

Record LazyWiring := { lw_graph : Graph; lw_module : ModuleId; lw_singletons : list BindingId }.

Inductive LazyFailure := LazyErrors (errors : list WiringError) | Refused (refusal : LoadRefusal).

(** [base.modules.iter().filter_map(|m| m.loaded).max().map_or(0, |last| last + 1)]. *)
Definition next_load (base : Graph) : nat :=
  foldr (λ loaded next, Nat.max (S loaded) next) 0 (omap fm_loaded (g_modules base)).

(** [wire_lazy]. *)
Definition wire_lazy (fuel : nat) (base : Graph) (m : M) (env : WireEnv) (at_ : Location)
    : option (LazyFailure + LazyWiring) :=
  match g_by_identity base !! identity_id (module_identity m) with
  | Some existing =>
      Some match reload_differs base existing m at_ with
      | Some errors => inl (LazyErrors errors)
      | None => inr {| lw_graph := base; lw_module := existing; lw_singletons := [] |}
      end
  | None =>
      match register_from module_identity module_settings module_register (Some base) None fuel m (SiteLoad at_) with
      | None => None
      | Some r =>
          Some match refusal base r with
          | Some refusal => inl (Refused refusal)
          | None =>
              let '(g, declared, modules, bindings) := freeze core base r (Some (next_load base)) None in
              let '(g, steps) := check g declared env modules bindings in
              let errors := into_errors steps in
              if bool_decide (length errors = 0) then
                let g := set_root_order g (g_root g) (connect_order g) in
                inr {| lw_graph := g; lw_module := dc_root declared;
                       lw_singletons := filterb (λ id, bool_decide (dc_first_binding declared ≤ id)) (g_connect_order g) |}
              else inl (LazyErrors errors)
          end
      end
  end.
End Wire.
