(* ===== verification/WireFacts.v ===== *)
(** * WireFacts: what a wiring that reports nothing guarantees

    [wired] collects it: the graph is well-formed, every injection point is resolved, no
    construction waits for itself, no singleton needs an execution, every input a handler reads is
    seeded by its transport, and the connect order builds what a singleton awaits before it. *)

From S2P Require Import Prelude Text Key Graph WiringError Tarjan Cycles Order Redact Scopes ScopesFacts InputsFacts Visibility VisibilityFacts Register RegisterFacts Freeze FreezeFacts ResolveFacts Wire.

(** ** Roles and closures *)

Lemma assign_roles_wiring g : Forall2 same_wiring (g_bindings (assign_roles g)) (g_bindings g).
Proof.
  simpl. generalize (named_enhancers g). intros l.
  assert (H : ∀ bs, Forall2 same_wiring bs (g_bindings g) →
    Forall2 same_wiring (foldl (λ bs id, alter name_enhancer id bs) bs l) (g_bindings g)).
  { induction l as [|id l IH]; intros bs Hbs; simpl; [done|]. apply IH.
    apply Forall2_same_length_lookup_2; [rewrite length_alter; by eapply Forall2_length|].
    intros i x y Hx Hy. destruct (decide (i = id)) as [->|Hne].
    - rewrite list_lookup_alter_eq in Hx. apply fmap_Some in Hx as (x0 & Hx0 & ->).
      etrans; [|by eapply Forall2_lookup_lr]. unfold name_enhancer. by case_bool_decide.
    - rewrite list_lookup_alter_ne in Hx by done. by eapply Forall2_lookup_lr. }
  apply H. apply Forall_Forall2_diag, Forall_forall. done.
Qed.

(** ** The need of an execution under equal declarations *)

Lemma needs_same g g' : g_visibility g' = g_visibility g → g_collections g' = g_collections g →
  Forall2 same_declaration (g_bindings g') (g_bindings g) → ∀ id, needs g' id → needs g id.
Proof.
  intros Hv Hc Hall. pose proof (Forall2_length _ _ _ Hall) as Hlen.
  induction 1 as [id Hid Hd|id dep Hid Hin Hn IH Hcar].
  - apply needs_direct; [lia|]. unfold needs_directly in *. destruct (same_binding g g' Hall id) as (_ & _ & Hr & _ & He).
    by rewrite <- Hr, <- He.
  - apply (needs_through g id dep); [lia|by rewrite <- (same_construction_deps g g' Hv Hc Hall)|done|].
    unfold carries in *. destruct (same_binding g g' Hall dep) as (_ & _ & Hr & Hrole & _). by rewrite <- Hr, <- Hrole.
Qed.

(** ** Injection points under equal records *)

Lemma points_same g g' declared :
  g_visibility g' = g_visibility g → g_modules g' = g_modules g → g_handlers g' = g_handlers g → g_root g' = g_root g →
  Forall2 (λ a b, fb_origin a = fb_origin b ∧ fb_record a = fb_record b) (g_bindings g') (g_bindings g) →
  points_resolved g declared → points_resolved g' declared.
Proof.
  intros Hv Hm Hh Hr Hall [H1 H2 H3 H4 H5].
  assert (Hl : ∀ m key, lookup g' m key = lookup g m key) by (intros; unfold lookup; by rewrite Hv).
  assert (Hreads : ∀ m d, reads_resolved g m d → reads_resolved g' m d).
  { intros m d H dep Hd read Hread key Hk. rewrite Hl. by eapply H. }
  assert (Hrec : ∀ id, fb_record (binding g' id) = fb_record (binding g id)).
  { intros id. unfold binding. destruct (g_bindings g' !! id) as [b'|] eqn:E'.
    - destruct (Forall2_lookup_l _ _ _ _ _ Hall E') as (b & E & _ & Hb). by rewrite E.
    - apply lookup_ge_None in E'. rewrite (Forall2_length _ _ _ Hall) in E'. by rewrite lookup_ge_None_2. }
  split.
  - intros b' (i & Hi)%list_elem_of_lookup. rewrite lookup_drop in Hi.
    destruct (Forall2_lookup_l _ _ _ _ _ Hall Hi) as (b & Hb & -> & ->).
    destruct (H1 b) as (Ha & Hb' & Hc); [apply list_elem_of_lookup; exists i; by rewrite lookup_drop|].
    split; [by apply Hreads|]. split; intros; apply Hreads; auto.
  - rewrite Hm. intros m Hin hook Hk. apply Hreads. by apply H2.
  - intros m name d Hin. apply Hreads. by eapply H3.
  - rewrite Hh. intros h Hin. destruct (H4 h Hin) as (Ha & Hb & Hc & Hd).
    split; [intros l; rewrite Hrec, Hl; apply Ha|]. split; [by apply Hreads|].
    split; [intros key Hk; rewrite Hl; by apply Hc|]. intros c Hk. apply Hreads. by apply Hd.
  - rewrite Hr. intros Hz key l. rewrite Hl. by apply H5.
Qed.

(** ** The pass *)

(** What holds of a graph the pass found nothing wrong with. *)
Record checked (g : Graph) : Prop := {
  ck_wf : graph_wf g;
  ck_acyclic : acyclic (depends g);
  ck_scopes : ∀ id, id < length (g_bindings g) → is_alias_or_failed (br_recipe (fb_record (binding g id))) = false →
    fb_effective (binding g id) = ESingleton → ¬ needs g id;
  ck_inputs : ∀ h, h ∈ g_handlers g → ∀ k, reads_input g h k → seeded g h k;
}.

Lemma app_nil_iff {A} (a b : list A) : (a ++ b)%list = [] ↔ a = [] ∧ b = [].
Proof. destruct a; simpl; [tauto|]. split; [done|]. by intros [? _]. Qed.

Lemma into_errors_nil s : into_errors s = [] ↔
  sp_modules s = [] ∧ sp_bindings s = [] ∧ sp_dependencies s = [] ∧ sp_cycles s = [] ∧ sp_scopes s = [] ∧ sp_environment s = [].
Proof. unfold into_errors. rewrite !app_nil_iff. tauto. Qed.

Section Check.
Context (g : Graph) (Hwf : graph_wf g) (declared : Declared).
Context (Hfirst : dc_first_binding declared ≤ length (g_bindings g)).

(** The graph after each of the passes that change it. *)
Definition g_tables : Graph := build_tables g declared.
Definition g_edges : Graph :=
  set_bindings g_tables (imap (resolve_from g_tables (dc_first_binding declared)) (g_bindings g_tables)).
Definition g_roles : Graph := assign_roles g_edges.
Definition g_scopes : Graph := needs_execution g_roles.
Definition g_checked : Graph := (closure_scopes g_scopes declared).1.

Lemma check_eq env ms bs : (check g declared env ms bs).1 = g_checked
  ∧ (into_errors (check g declared env ms bs).2 = [] ↔
     (ms = [] ∧ check_modules g_tables declared = [])
     ∧ (bs = [] ∧ check_bindings g_tables declared = [])
     ∧ ((resolve_dependencies g_tables declared).2 = [] ∧ check_controller_reads g_edges declared = [])
     ∧ dependency_cycles g_edges = []
     ∧ (check_scopes g_scopes = [] ∧ (closure_scopes g_scopes declared).2 = []
        ∧ check_closures g_checked declared = [] ∧ check_inputs g_checked = [])
     ∧ check_environment g_checked env declared = []).
Proof.
  unfold check. fold g_tables.
  assert (Hg : (resolve_dependencies g_tables declared).1 = g_edges) by by apply resolve_dependencies_graph.
  destruct (resolve_dependencies g_tables declared) as [ge de]. simpl in Hg. subst ge. fold g_roles. fold g_scopes.
  unfold g_checked. destruct (closure_scopes g_scopes declared) as [gc ce]. simpl.
  split; [done|]. rewrite into_errors_nil. simpl. rewrite !app_nil_iff. tauto.
Qed.

Lemma g_edges_wf : graph_wf g_edges.
Proof. apply resolve_from_wf. by apply build_tables_wf. Qed.

Lemma g_roles_wf : graph_wf g_roles.
Proof. apply wiring_wf; [apply assign_roles_wiring|apply g_edges_wf]. Qed.

Lemma g_scopes_wiring : Forall2 same_wiring (g_bindings g_scopes) (g_bindings g_roles).
Proof. eapply Forall2_impl; [apply pass_same|]. apply same_declaration_wiring. Qed.

Lemma g_checked_wf : graph_wf g_checked.
Proof. destruct (needs_execution_wf g_roles g_roles_wf) as [H1 H2 H3 H4 H5 H6 H7 H8 H9 H10]. by split. Qed.

Lemma g_checked_records : Forall2 (λ a b, fb_origin a = fb_origin b ∧ fb_record a = fb_record b)
  (g_bindings g_checked) (g_bindings g_tables).
Proof.
  apply Forall2_same_length_lookup_2.
  - transitivity (length (g_bindings g_roles)); [by eapply Forall2_length, g_scopes_wiring|].
    etrans; [by eapply Forall2_length, assign_roles_wiring|]. simpl. apply length_imap.
  - intros i x y Hx Hy. destruct (Forall2_lookup_l _ _ _ _ _ g_scopes_wiring Hx) as (a & Ha & (_ & -> & -> & _)).
    destruct (Forall2_lookup_l _ _ _ _ _ (assign_roles_wiring g_edges) Ha) as (b & Hb & (_ & -> & -> & _)).
    simpl in Hb. rewrite list_lookup_imap in Hb. simpl in Hy. rewrite Hy in Hb. injection Hb as <-.
    unfold resolve_from. by case_bool_decide.
Qed.

Lemma check_sound env ms bs : into_errors (check g declared env ms bs).2 = [] →
  checked g_checked ∧ points_resolved g_checked declared.
Proof.
  intros (_ & _ & [Hdeps _] & Hcyc & (Hsc & _ & _ & Hin) & _)%(proj2 (check_eq env ms bs)). split; [split|].
  - apply g_checked_wf.
  - apply (no_cycles_acyclic g_edges g_edges_wf) in Hcyc.
    apply (wiring_acyclic g_edges (g_bindings g_roles) (assign_roles_wiring g_edges)) in Hcyc.
    by apply (wiring_acyclic g_roles (g_bindings g_scopes) g_scopes_wiring) in Hcyc.
  - intros id Hid Hr He Hn. change (g_bindings g_checked) with (g_bindings (needs_execution g_roles)) in Hid. rewrite pass_length in Hid.
    eapply (check_scopes_sound g_roles g_roles_wf id Hsc Hid); [|exact He|].
    + destruct (pass_spec g_roles g_roles_wf id Hid) as ((_ & _ & Hrec & _) & _). rewrite <- Hrec. exact Hr.
    + revert Hn. apply needs_same; [done|done|]. apply pass_same.
  - by apply check_inputs_spec; [apply g_checked_wf|].
  - apply (points_same g_tables g_checked); try done; [apply g_checked_records|].
    by apply resolve_dependencies_spec.
Qed.
End Check.

(** ** The wiring of an app *)

(** Everything from the first module on. *)
Definition whole : Declared := {|
  dc_root := 0; dc_first_module := 0; dc_first_binding := 0; dc_first_handler := 0;
  dc_exports := []; dc_inputs := []; dc_transport_inputs := []; dc_meta := [] |}.

Record wired (g : Graph) : Prop := {
  wd_checked : checked g;
  wd_points : points_resolved g whole;
  wd_order : g_connect_order g ≡ₚ filterb (is_singleton g) (seq 0 (length (g_bindings g)));
  wd_sorted : ∀ pre x post, g_connect_order g = (pre ++ x :: post)%list →
    ∀ d, awaits g x d → is_singleton g d = true → d ∈ pre;
}.

Lemma empty_wf : graph_wf empty_graph.
Proof.
  split; simpl; try done; try (intros; by apply not_elem_of_nil in H).
Qed.

Lemma checked_order g root order : checked g → checked (set_root_order g root order).
Proof.
  intros [[H1 H2 H3 H4 H5 H6 H7 H8 H9 H10] Hac Hsc Hin].
  assert (Hwf : graph_wf (set_root_order g root order)) by by split.
  split; [done|exact Hac| |].
  - intros id Hid Hr He Hn. eapply Hsc; [exact Hid|done|done|]. revert Hn.
    apply needs_same; [done|done|]. apply Forall_Forall2_diag, Forall_forall. by intros.
  - apply (check_inputs_spec _ Hwf). change (check_inputs (set_root_order g root order)) with (check_inputs g).
    apply (check_inputs_spec g); [by split|done].
Qed.

Lemma checked_wired g : checked g → points_resolved g whole → wired (set_root_order g (g_root g) (connect_order g)).
Proof.
  intros Hck Hp. pose proof (checked_order g (g_root g) (connect_order g) Hck) as Hck'.
  destruct (ck_wf _ Hck'), Hck' as [Hwf Hac _ _].
  split; [by apply checked_order| | |].
  - revert Hp. apply points_same; try done. apply Forall_Forall2_diag, Forall_forall. by intros.
  - apply (connect_order_perm (set_root_order g (g_root g) (connect_order g)) Hwf).
  - intros pre x post Ho. apply (connect_order_sorted (set_root_order g (g_root g) (connect_order g)) Hwf Hac pre x post Ho).
Qed.

Lemma points_whole g declared : dc_first_module declared = 0 → dc_first_binding declared = 0 → dc_first_handler declared = 0 →
  points_resolved g declared → points_resolved g whole.
Proof.
  intros Hm Hb Hh [H1 H2 H3 H4 H5]. rewrite Hm, Hb, Hh in *. split; try done.
  intros m name d H. by apply not_elem_of_nil in H.
Qed.

Section Wire.
Context {M : Type}.
Context (module_identity : M → ModuleIdentity).
Context (module_settings : M → ModuleSettings).
Context (module_register : M → @ModuleNode M → @ModuleNode M).
Context (core : CoreTypes).

Lemma wire_registered fuel (root : M) env plan r :
  keeps_identity module_register →
  register_from module_identity module_settings module_register None plan fuel root SiteRoot = Some r →
  match wire module_identity module_settings module_register core fuel root env plan with
  | Some (inr g) => wired g
  | Some (inl errors) => errors ≠ []
  | None => False
  end.
Proof.
  intros Hkeep Hreg. unfold wire. rewrite Hreg.
  assert (Hpl : placed r).
  { unfold register_from in Hreg. apply fmap_Some in Hreg as ([w imp] & Hw & ->).
    apply registered_placed. by eapply finish_registered. }
  set (r' := match we_timer env with Some _ => _ | None => _ end).
  assert (Hpl' : placed r') by (unfold r'; destruct (we_timer env); [by apply add_timer_placed|done]).
  pose proof (freeze_ok core empty_graph r' None plan empty_wf Hpl') as Hfr.
  destruct (freeze core empty_graph r' None plan) as [[[g declared] ms] bs] eqn:Ef.
  destruct Hfr as [Hwf _ _ _ Hfm Hfb Hfh _]. simpl in Hfm, Hfb, Hfh.
  set (g1 := set_root_order g (dc_root declared) (g_connect_order g)).
  assert (Hwf1 : graph_wf g1) by (destruct Hwf as [H1 H2 H3 H4 H5 H6 H7 H8 H9 H10]; by split).
  assert (Hfirst : dc_first_binding declared ≤ length (g_bindings g1)) by (rewrite Hfb; lia).
  pose proof (check_sound g1 Hwf1 declared Hfirst env ms bs) as Hs.
  pose proof (proj1 (check_eq g1 declared Hfirst env ms bs)) as Hg.
  destruct (check g1 declared env ms bs) as [g2 steps]. simpl in Hs, Hg. subst g2.
  case_bool_decide as Hn; [|intros E; by rewrite E in Hn]. apply nil_length_inv in Hn. destruct (Hs Hn) as [Hc Hp].
  apply checked_wired; [done|]. by eapply points_whole; [..|exact Hp].
Qed.
End Wire.
