(* ===== verification/LoadFacts.v ===== *)
(** * LoadFacts: a lazy load extends the graph it is loaded into

    [wire_lazy] decides every scope and order again over the whole graph; these lemmas show that
    what it decided for the base graph stays: roles, scopes, what a binding waits for, and the
    connect order, to which the load only appends. *)

From S2P Require Import Prelude Text Key Graph WiringError Tarjan Cycles Order Redact Scopes ScopesFacts InputsFacts Visibility VisibilityFacts Register RegisterFacts Freeze FreezeFacts ResolveFacts Wire WireFacts.

(** ** Where what the freeze adds comes from *)

Section Freeze.
Context {M : Type}.
Context (g : Graph) (r : @Registry M) (nodes : list (@ModuleNode M)) (nm : list ModuleName) (load : option nat).
Abbreviation frozen_state := (freeze_modules g r nodes nm load).

Lemma freeze_modules_ind (P : freezing → Prop) :
  P (freeze_start g r (length nodes)) →
  (∀ s id index node imports ids, index ∈ rg_post_order r → nodes !! index = Some node → P s →
     P (freeze_node imports nm ids load s id index node)) →
  P frozen_state.
Proof.
  intros H0 Hstep. unfold freeze_modules.
  set (ids := module_ids _ _ _). set (f := freeze_next _ _ _ _ _).
  assert (H : ∀ l (x : list (option (@ModuleNode M)) * freezing),
    (∀ pi, pi ∈ l → pi.2 ∈ rg_post_order r) →
    (∀ i node, x.1 !! i = Some (Some node) → nodes !! i = Some node) → P x.2 → P (foldl f x l).2).
  { induction l as [|[p i] l IH]; intros [ns s] Hl Hn Hs; [done|]. cbn [foldl]. apply IH.
    - intros pi Hpi. apply Hl. by right.
    - unfold f, freeze_next. simpl in *. destruct (mjoin (ns !! i)) as [node|]; [|done]. simpl.
      intros j node'. destruct (decide (j = i)) as [->|Hne]; [|rewrite list_lookup_insert_ne by done; apply Hn].
      intros Hj. destruct (decide (i < length ns)) as [Hlt|Hge].
      + rewrite list_lookup_insert_eq in Hj by done. done.
      + rewrite list_insert_ge in Hj by lia. by apply Hn.
    - unfold f, freeze_next. simpl in *. destruct (ns !! i) as [[node|]|] eqn:E; simpl; [|done|done].
      apply Hstep; [apply (Hl (p, i)); by left|by apply Hn|done]. }
  apply H; [|intros i node|exact H0].
  - intros pi Hpi. apply list_elem_of_lookup in Hpi as [k Hk]. rewrite list_lookup_imap in Hk.
    apply fmap_Some in Hk as (j & Hj & ->). simpl. by eapply list_elem_of_lookup_2.
  - simpl. rewrite list_lookup_fmap. destruct (nodes !! i); simpl; congruence.
Qed.

(** A record some node of the registry brought. *)
Definition brought (record : BindingRecord) : Prop :=
  ∃ index node, index ∈ rg_post_order r ∧ nodes !! index = Some node ∧ record ∈ nd_bindings node.

Lemma freeze_bindings_record (node : @ModuleNode M) id first b : b ∈ freeze_bindings node id first → fb_record b ∈ nd_bindings node.
Proof.
  intros (i & Hi)%list_elem_of_lookup. unfold freeze_bindings in Hi. rewrite list_lookup_imap in Hi.
  apply fmap_Some in Hi as (record & Hr & ->). simpl. by eapply list_elem_of_lookup_2.
Qed.

Lemma frozen_records i b : fz_bindings frozen_state !! i = Some b → length (g_bindings g) ≤ i → brought (fb_record b).
Proof.
  revert i b. apply (freeze_modules_ind (λ s, ∀ i b, fz_bindings s !! i = Some b → length (g_bindings g) ≤ i → brought (fb_record b))).
  - simpl. intros i b Hb Hi. apply lookup_lt_Some in Hb. lia.
  - intros s id index node imports ids Hidx Hnode IH i b Hb Hi. unfold freeze_node in Hb.
    destruct (foldl (mount_controller _ _ _) _ _) as [[[[? ?] ?] ?] ?]. simpl in Hb.
    apply lookup_app_Some in Hb as [Hb|[_ Hb]]; [by eapply IH|].
    exists index, node. split; [done|]. split; [done|].
    eapply freeze_bindings_record. by eapply list_elem_of_lookup_2.
Qed.

Lemma add_contributions_from bs : ∀ m k ids, foldl add_contribution m bs !! k = Some ids →
  is_Some (m !! k) ∨ ∃ b, b ∈ bs ∧ br_kind (fb_record b) = BCollection ∧ key_id (record_key (fb_record b)) = k.
Proof.
  induction bs as [|b bs IH]; intros m k ids H; simpl in H; [left; by eexists|].
  apply IH in H as [[l Hl]|(x & Hx & Hk)]; [|right; exists x; split; [by right|done]].
  unfold add_contribution in Hl. case_bool_decide as Hc; [|left; by eexists].
  destruct (decide (k = key_id (record_key (fb_record b)))) as [->|Hne].
  - right. exists b. split; [by left|done].
  - rewrite lookup_insert_ne in Hl by done. left. by eexists.
Qed.

Lemma frozen_contributions k ids : fz_contributions frozen_state !! k = Some ids →
  ∃ record, brought record ∧ br_kind record = BCollection ∧ key_id (record_key record) = k.
Proof.
  revert k ids. apply (freeze_modules_ind (λ s, ∀ k ids, fz_contributions s !! k = Some ids →
    ∃ record, brought record ∧ br_kind record = BCollection ∧ key_id (record_key record) = k)).
  - simpl. intros k ids. by rewrite lookup_empty.
  - intros s id index node imports ids Hidx Hnode IH k l. unfold freeze_node.
    destruct (foldl (mount_controller _ _ _) _ _) as [[[[? ?] ?] ?] ?]. simpl.
    intros [[x Hx]|(b & Hb & Hc & Hk)]%add_contributions_from; [by eapply IH|].
    exists (fb_record b). split; [|done]. exists index, node. split; [done|]. split; [done|].
    by eapply freeze_bindings_record.
Qed.

Lemma frozen_handlers :
  (∀ index node, index ∈ rg_post_order r → nodes !! index = Some node → nd_controllers node = []) →
  fz_handlers frozen_state = g_handlers g.
Proof.
  intros Hnone. apply (freeze_modules_ind (λ s, fz_handlers s = g_handlers g)); [done|].
  intros s id index node imports ids Hidx Hnode IH. unfold freeze_node. rewrite (Hnone index node Hidx Hnode). done.
Qed.
End Freeze.

(** ** Roles *)

Lemma elem_of_role_types g bs t : t ∈ role_types g bs ↔
  (∃ h k, h ∈ g_handlers g ∧ k ∈ hd_role_keys (hr_decl h) ∧ t = key_type_id k)
  ∨ ∃ b, b ∈ bs ∧ br_kind (fb_record b) = BCollection ∧ fb_role b = Enhancer
      ∧ t = key_type_id (br_primary (fb_record b)).
Proof.
  unfold role_types. rewrite elem_of_union, !elem_of_list_to_set, !list_elem_of_fmap. split; intros [H|H].
  - destruct H as (k & -> & (h & Hk & Hh)%list_elem_of_bind). left. by exists h, k.
  - destruct H as (b & -> & [Hf Hb]%elem_of_filterb). apply andb_true_iff in Hf as [H1%bool_decide_eq_true H2%bool_decide_eq_true].
    right. by exists b.
  - destruct H as (h & k & Hh & Hk & ->). left. exists k. split; [done|]. apply list_elem_of_bind. by exists h.
  - destruct H as (b & Hb & H1 & H2 & ->). right. exists b. split; [done|]. apply elem_of_filterb. split; [|done].
    by rewrite !bool_decide_eq_true_2.
Qed.

(** Every contribution under a role key is an enhancer. *)
Definition roles_marked (g : Graph) : Prop :=
  ∀ b, b ∈ g_bindings g → br_kind (fb_record b) = BCollection → fb_role b = Provider →
    key_type_id (br_primary (fb_record b)) ∉ role_types g (g_bindings g).

Lemma mark_role_record roles b : fb_record (mark_role roles b) = fb_record b.
Proof. unfold mark_role. by destruct (_ && _ && _). Qed.

Lemma mark_roles_marked g : roles_marked (set_bindings g (mark_role (role_types g (g_bindings g)) <$> g_bindings g)).
Proof.
  set (roles := role_types g (g_bindings g)). intros b' Hb' Hk Hp Hin. simpl in Hb'.
  apply list_elem_of_fmap in Hb' as (b & -> & Hb). rewrite mark_role_record in *.
  assert (Hn : key_type_id (br_primary (fb_record b)) ∉ roles).
  { intros Hr. unfold mark_role in Hp. destruct (bool_decide (fb_role b = Provider)) eqn:E.
    - rewrite !bool_decide_eq_true_2 in Hp by done. done.
    - rewrite andb_false_r in Hp. apply bool_decide_eq_false in E. done. }
  apply Hn. apply elem_of_role_types in Hin as [Hh|(x & Hx & Hxk & Hxr & Ht)]; [apply elem_of_role_types; by left|].
  simpl in Hx. apply list_elem_of_fmap in Hx as (y & -> & Hy). rewrite mark_role_record in *. rewrite Ht.
  unfold mark_role in Hxr. destruct (_ && _ && _) eqn:E.
  - apply andb_true_iff in E as [_ E]. by apply bool_decide_eq_true in E.
  - apply elem_of_role_types. right. by exists y.
Qed.

(** Roles are not read by [role_types] of single bindings. *)
Lemma role_types_single g bs bs' :
  Forall2 (λ a b, fb_record a = fb_record b ∧ (fb_role a = fb_role b ∨ br_kind (fb_record b) = BSingle)) bs' bs →
  ∀ t, t ∈ role_types g bs' ↔ t ∈ role_types g bs.
Proof.
  intros Hall t. rewrite !elem_of_role_types. split; (intros [H|(b & Hb & Hk & Hr & ->)]; [by left|right]).
  - apply list_elem_of_lookup in Hb as [i Hi]. destruct (Forall2_lookup_l _ _ _ _ _ Hall Hi) as (b0 & Hb0 & Hrec & Hrole).
    exists b0. rewrite Hrec in *. destruct Hrole as [Hrole|]; [|congruence]. rewrite <- Hrole.
    split; [by eapply list_elem_of_lookup_2|done].
  - apply list_elem_of_lookup in Hb as [i Hi]. destruct (Forall2_lookup_r _ _ _ _ _ Hall Hi) as (b0 & Hb0 & Hrec & Hrole).
    exists b0. rewrite Hrec. destruct Hrole as [Hrole|]; [|congruence]. rewrite Hrole.
    split; [by eapply list_elem_of_lookup_2|done].
Qed.

(** Contributions are filed under their keys. *)
Definition all_collected (g : Graph) : Prop :=
  ∀ b, b ∈ g_bindings g → br_kind (fb_record b) = BCollection → is_Some (g_collections g !! key_id (record_key (fb_record b))).

(** What the freeze settles and the checks keep. *)
Record marked (g : Graph) : Prop := {
  mk_single : single_seen g;
  mk_roles : roles_marked g;
  mk_collected : all_collected g;
}.

(** What the checks settle. *)
Record settled (g : Graph) : Prop := {
  se_checked : checked g;
  se_marked : marked g;
  se_order : g_connect_order g = connect_order g;
  se_scoped : ∀ id, id < length (g_bindings g) →
    fb_effective (binding g id) = built_as (binding g id) (fb_needs_execution (binding g id))
    ∧ (fb_needs_execution (binding g id) = true ↔ needs g id);
  se_named : ∀ id, id ∈ named_enhancers g → fb_role (binding g id) ≠ Provider;
  se_tables : length (g_visibility g) = length (g_modules g);
}.

(** ** The checks settle the graph *)

Lemma named_single g id : single_seen g → id ∈ named_enhancers g → br_kind (fb_record (binding g id)) = BSingle.
Proof.
  intros [Hv _]. unfold named_enhancers. rewrite list_elem_of_bind. intros (h & Hid & _).
  apply list_elem_of_bind in Hid as (dep & Hid & _). destruct dep as [key|]; [|by apply not_elem_of_nil in Hid].
  destruct (lookup g (hr_module h) key) as [[t| |]|] eqn:E; try by apply not_elem_of_nil in Hid.
  apply list_elem_of_singleton in Hid as ->. apply Hv in E. unfold through_aliases. clear h key.
  generalize (length (g_bindings g)). intros rounds. revert t E. induction rounds as [|rounds IH]; intros t E; simpl; [done|].
  destruct (alias_target g t) as [u|] eqn:Et; [|done]. apply IH. unfold alias_target in Et.
  destruct (br_recipe _) as [| | |target|]; try done. destruct (lookup g (fb_origin (binding g t)) target) as [[]|] eqn:El; try done.
  injection Et as <-. by eapply Hv.
Qed.

Definition name_all (ids : list BindingId) (bs : list FrozenBinding) : list FrozenBinding :=
  foldl (λ bs id, alter name_enhancer id bs) bs ids.

Lemma name_all_lookup ids : ∀ bs i b, name_all ids bs !! i = Some b →
  ∃ b0, bs !! i = Some b0 ∧ fb_record b = fb_record b0
    ∧ (i ∈ ids → fb_role b ≠ Provider) ∧ (fb_role b0 ≠ Provider → fb_role b = fb_role b0)
    ∧ (i ∉ ids → fb_role b = fb_role b0).
Proof.
  induction ids as [|id ids IH]; intros bs i b Hb; simpl in Hb.
  - exists b. split; [done|]. split; [done|]. split; [by intros H; apply not_elem_of_nil in H|done].
  - apply IH in Hb as (x & Hx & Hrec & H1 & H2 & H3). destruct (decide (i = id)) as [->|Hne].
    + rewrite list_lookup_alter_eq in Hx. apply fmap_Some in Hx as (b0 & Hb0 & ->). exists b0.
      assert (Hnp : fb_role (name_enhancer b0) ≠ Provider) by (unfold name_enhancer; case_bool_decide; done).
      assert (Hrec0 : fb_record (name_enhancer b0) = fb_record b0) by (unfold name_enhancer; by case_bool_decide).
      split; [done|]. split; [congruence|]. split; [intros _; by rewrite (H2 Hnp)|]. split.
      * intros Hr. rewrite (H2 Hnp). unfold name_enhancer. by rewrite bool_decide_eq_false_2.
      * intros Hin. destruct Hin. by left.
    + rewrite list_lookup_alter_ne in Hx by done. exists x. split; [done|]. split; [done|]. split.
      * intros [->|Hin]%elem_of_cons; [done|by apply H1].
      * split; [done|]. intros Hin. apply H3. intros Hi. apply Hin. by right.
Qed.

Lemma marked_same g g' : g_visibility g' = g_visibility g → g_exported g' = g_exported g →
  g_collections g' = g_collections g → g_handlers g' = g_handlers g →
  Forall2 (λ a b, fb_record a = fb_record b ∧ (fb_role a = fb_role b ∨ br_kind (fb_record b) = BSingle))
    (g_bindings g') (g_bindings g) → marked g → marked g'.
Proof.
  intros Hv He Hc Hh Hall [[Hs1 Hs2] Hr Hcol].
  assert (Hrec : ∀ id, fb_record (binding g' id) = fb_record (binding g id)).
  { intros id. unfold binding. destruct (g_bindings g' !! id) as [b'|] eqn:E'.
    - destruct (Forall2_lookup_l _ _ _ _ _ Hall E') as (b & E & Hb & _). by rewrite E.
    - apply lookup_ge_None in E'. rewrite (Forall2_length _ _ _ Hall) in E'. by rewrite lookup_ge_None_2. }
  assert (Hin : ∀ b', b' ∈ g_bindings g' → ∃ b, b ∈ g_bindings g ∧ fb_record b' = fb_record b
    ∧ (fb_role b' = fb_role b ∨ br_kind (fb_record b) = BSingle)).
  { intros b' (i & Hi)%list_elem_of_lookup. destruct (Forall2_lookup_l _ _ _ _ _ Hall Hi) as (b & E & Hb & Hrole).
    exists b. split; [by eapply list_elem_of_lookup_2|done]. }
  split; [split|..].
  - intros m key id. rewrite Hrec. unfold lookup. rewrite Hv. apply Hs1.
  - intros l key id. rewrite He, Hrec. apply Hs2.
  - intros b' (b & Hb & Erec & Hrole)%Hin Hk Hp Ht. rewrite Erec in *. destruct Hrole as [Hrole|]; [|congruence].
    apply (Hr b Hb Hk); [congruence|]. apply (role_types_single g _ _ Hall).
    revert Ht. rewrite !elem_of_role_types. by rewrite Hh.
  - intros b' (b & Hb & Erec & _)%Hin. rewrite Erec, Hc. by apply Hcol.
Qed.

Section SameNames.
Context (g g' : Graph).
Context (Hv : g_visibility g' = g_visibility g) (Hh : g_handlers g' = g_handlers g).
Context (Hall : Forall2 same_wiring (g_bindings g') (g_bindings g)).

Lemma named_alias id : alias_target g' id = alias_target g id.
Proof.
  assert (H : same_wiring (binding g' id) (binding g id)).
  { unfold binding. destruct (g_bindings g' !! id) as [b'|] eqn:E'.
    - destruct (Forall2_lookup_l _ _ _ _ _ Hall E') as (b & E & Hb). by rewrite E.
    - apply lookup_ge_None in E'. rewrite (Forall2_length _ _ _ Hall) in E'. by rewrite lookup_ge_None_2. }
  destruct H as (_ & Ho & Hr & _). unfold alias_target, lookup. by rewrite Ho, Hr, Hv.
Qed.

Lemma named_same : named_enhancers g' = named_enhancers g.
Proof.
  unfold named_enhancers. rewrite Hh. apply list_bind_ext; [|done]. intros h. apply list_bind_ext; [|done].
  intros [key|c]; [|done]. unfold lookup. rewrite Hv.
  destruct (snd <$> _) as [[t| |]|]; try done. f_equal. unfold through_aliases.
  rewrite (Forall2_length _ _ _ Hall). generalize (length (g_bindings g)). intros rounds. revert t.
  induction rounds as [|rounds IH]; intros t; simpl; [done|]. rewrite named_alias. destruct (alias_target g t); [apply IH|done].
Qed.
End SameNames.

Lemma named_range g id : graph_wf g → id ∈ named_enhancers g → id < length (g_bindings g).
Proof.
  intros Hwf. unfold named_enhancers. rewrite list_elem_of_bind. intros (h & Hid & _).
  apply list_elem_of_bind in Hid as (dep & Hid & _). destruct dep as [key|]; [|by apply not_elem_of_nil in Hid].
  destruct (lookup g (hr_module h) key) as [[t| |]|] eqn:E; try by apply not_elem_of_nil in Hid.
  apply list_elem_of_singleton in Hid as ->. apply wf_visible in E; [|done]. unfold through_aliases. clear h key.
  generalize (length (g_bindings g)) at 1. intros rounds. revert t E. induction rounds as [|rounds IH]; intros t E; simpl; [done|].
  destruct (alias_target g t) as [u|] eqn:Et; [|done]. apply IH. by eapply alias_target_range.
Qed.

Lemma connect_order_root g root order : connect_order (set_root_order g root order) = connect_order g.
Proof. reflexivity. Qed.

Lemma marked_root g root order : marked g → marked (set_root_order g root order).
Proof. apply marked_same; try done. apply Forall_Forall2_diag, Forall_forall. auto. Qed.

Lemma same_declaration_sym a b : same_declaration a b → same_declaration b a.
Proof. unfold same_declaration. intuition congruence. Qed.

(** The pass decides scopes and needs for good: a later field changes neither. *)
Lemma scoped_root g closures root order : graph_wf g →
  let G := set_root_order (set_closures (needs_execution g) closures) root order in
  ∀ id, id < length (g_bindings G) →
    fb_effective (binding G id) = built_as (binding G id) (fb_needs_execution (binding G id))
    ∧ (fb_needs_execution (binding G id) = true ↔ needs G id).
Proof.
  intros Hwf G id Hid.
  assert (Hsame : Forall2 same_declaration (g_bindings G) (g_bindings g)) by apply (pass_same g).
  change (g_bindings G) with (g_bindings (needs_execution g)) in Hid. rewrite pass_length in Hid.
  destruct (pass_spec g Hwf id Hid) as ((_ & _ & Hrec & Hrole & _) & Hn & He).
  change (binding (needs_execution g) id) with (binding G id) in *. split.
  - rewrite He. unfold built_as. by rewrite Hrec, Hrole.
  - rewrite Hn. split; apply needs_same; try done. apply Forall2_flip. eapply Forall2_impl; [exact Hsame|].
    intros a b. apply same_declaration_sym.
Qed.

Section Settle.
Context (g : Graph) (Hwf : graph_wf g) (Hmk : marked g) (declared : Declared).
Context (Hfirst : dc_first_binding declared ≤ length (g_bindings g)).
Abbreviation gt := (g_tables g declared).
Abbreviation ge := (g_edges g declared).
Abbreviation gr := (g_roles g declared).
Abbreviation gs := (g_scopes g declared).
Abbreviation gc := (g_checked g declared).

Lemma tables_marked : marked gt.
Proof. destruct Hmk as [H1 H2 H3]. split; [by apply build_tables_single|done|done]. Qed.

Lemma edges_roles : Forall2 (λ a b, fb_record a = fb_record b ∧ fb_role a = fb_role b) (g_bindings ge) (g_bindings gt).
Proof.
  apply Forall2_same_length_lookup_2; [apply length_imap|]. intros i x y Hx Hy.
  change (g_bindings ge) with (imap (resolve_from gt (dc_first_binding declared)) (g_bindings gt)) in Hx.
  rewrite list_lookup_imap, Hy in Hx. injection Hx as <-. unfold resolve_from. by case_bool_decide.
Qed.

Lemma edges_marked : marked ge.
Proof.
  apply (marked_same gt); try done; [|apply tables_marked].
  eapply Forall2_impl; [apply edges_roles|]. intros a b [? ?]. auto.
Qed.

Lemma roles_lookup i b : g_bindings gr !! i = Some b → ∃ b0, g_bindings ge !! i = Some b0 ∧ fb_record b = fb_record b0
  ∧ (i ∈ named_enhancers ge → fb_role b ≠ Provider) ∧ (fb_role b0 ≠ Provider → fb_role b = fb_role b0)
  ∧ (i ∉ named_enhancers ge → fb_role b = fb_role b0).
Proof. apply name_all_lookup. Qed.

Lemma roles_changed : Forall2 (λ a b, fb_record a = fb_record b ∧ (fb_role a = fb_role b ∨ br_kind (fb_record b) = BSingle))
  (g_bindings gr) (g_bindings ge).
Proof.
  apply Forall2_same_length_lookup_2; [by eapply Forall2_length, assign_roles_wiring|]. intros i x y Hx Hy.
  destruct (roles_lookup i x Hx) as (b0 & Hb0 & Hrec & _ & _ & Hno). rewrite Hy in Hb0. injection Hb0 as <-.
  split; [done|]. destruct (decide (i ∈ named_enhancers ge)) as [Hin|Hin]; [|left; by apply Hno].
  right. apply named_single in Hin; [|apply edges_marked]. by rewrite (binding_Some ge i y Hy) in Hin.
Qed.

Lemma checked_marked : marked gc.
Proof.
  apply (marked_same gr); try done.
  - eapply Forall2_impl; [apply (pass_same gr)|]. intros a b (_ & _ & H1 & H2 & _). auto.
  - apply (marked_same ge); try done; [apply roles_changed|apply edges_marked].
Qed.

Lemma check_settled env ms bs root : into_errors (check g declared env ms bs).2 = [] →
  settled (set_root_order gc root (connect_order gc)).
Proof.
  intros Herr. destruct (check_sound g Hwf declared Hfirst env ms bs Herr) as [Hck _].
  pose proof (g_roles_wf g Hwf declared) as Hwr. split.
  - by apply checked_order.
  - apply marked_root, checked_marked.
  - symmetry. apply connect_order_root.
  - by apply scoped_root.
  - intros id Hid. rewrite (named_same ge) in Hid.
    + pose proof (named_range ge id (g_edges_wf g Hwf declared) Hid) as Hlt.
      rewrite <- (Forall2_length _ _ _ (assign_roles_wiring ge)) in Hlt. apply lookup_lt_is_Some in Hlt as [b Hb0].
      destruct (roles_lookup id b Hb0) as (_ & _ & _ & Hnp & _).
      destruct (same_binding gr (needs_execution gr) (pass_same gr) id) as (_ & _ & _ & Hrole & _).
      rewrite (binding_Some gr id b Hb0) in Hrole.
      change (fb_role (binding (needs_execution gr) id) ≠ Provider). rewrite Hrole. by apply Hnp.
    + done.
    + done.
    + etrans; [|apply assign_roles_wiring]. apply (g_scopes_wiring g declared).
  - exact (tables_all_length g declared).
Qed.
End Settle.

(** ** The freeze marks the graph *)

Section Shape.
Context {M : Type}.
Implicit Types (r : @Registry M).

Lemma freeze_shape core g r load plan : ∃ x nodes nm ms bs,
  let s := freeze_modules (set_secrets g x) r nodes nm load in
  let mr := mark_role_contributions (frozen_graph (set_secrets g x) s) (dc_first_binding (fz_declared s)) in
  freeze core g r load plan = (mr.1, fz_declared s, ms, (bs ++ mr.2)%list)
  ∧ length nodes = length (rg_nodes r) ∧ (plan = None → nodes = rg_nodes r).
Proof.
  unfold freeze. set (nm := names _ _ _). set (x := string_of <$> _).
  destruct (match plan with Some p => _ | None => _ end) as [overrides collections] eqn:Ep.
  pose proof (apply_overrides_length core r nm overrides (rg_nodes r)) as Hl1.
  destruct (apply_overrides core r nm overrides (rg_nodes r)) as [nodes1 e1] eqn:E1.
  pose proof (apply_collections_length collections nodes1) as Hl2.
  destruct (apply_collections collections nodes1) as [nodes2 e2] eqn:E2. simpl in Hl1, Hl2.
  destruct (mark_role_contributions _ _) as [g' re] eqn:Em.
  exists x, nodes2, nm. do 2 eexists. cbv zeta. rewrite Em. simpl. split; [by rewrite !app_assoc|]. split; [lia|].
  intros ->. injection Ep as <- <-. injection E1 as <- _. injection E2 as <- _. done.
Qed.

Section State.
Context (g : Graph) (Hwf : graph_wf g) (r : @Registry M) (Hr : placed r) (x : list string).
Context (nodes : list (@ModuleNode M)) (nm : list ModuleName) (load : option nat).
Context (Hlen : length nodes = length (rg_nodes r)).
Abbreviation s := (freeze_modules (set_secrets g x) r nodes nm load).
Abbreviation gf := (frozen_graph (set_secrets g x) s).
Abbreviation roles := (role_types gf (g_bindings gf)).
Abbreviation gm := (set_bindings gf (mark_role roles <$> g_bindings gf)).

Lemma state_ok : freezing_ok s ∧ g_bindings g `prefix_of` fz_bindings s ∧ g_modules g `prefix_of` fz_modules s
  ∧ dc_first_module (fz_declared s) = length (g_modules g)
  ∧ dc_first_binding (fz_declared s) = length (g_bindings g).
Proof.
  destruct (freeze_modules_ok (set_secrets g x) (set_secrets_wf g x Hwf) r Hr nodes nm load Hlen) as (H1 & _ & H2 & H3 & H4 & H5 & _).
  done.
Qed.

Lemma gm_lookup i : g_bindings gm !! i = mark_role roles <$> fz_bindings s !! i.
Proof. simpl. by rewrite list_lookup_fmap. Qed.

Lemma gm_base i b : g_bindings g !! i = Some b → g_bindings gm !! i = Some (mark_role roles b).
Proof.
  intros Hb. rewrite gm_lookup. destruct state_ok as (_ & Hp & _). by rewrite (prefix_lookup_Some _ _ _ _ Hb Hp).
Qed.

Lemma gm_record id : id < length (g_bindings g) → fb_record (binding gm id) = fb_record (binding g id).
Proof.
  intros Hid. apply lookup_lt_is_Some in Hid as [b Hb]. unfold binding at 1. rewrite (gm_base id b Hb), (binding_Some g id b Hb).
  apply mark_role_record.
Qed.

Lemma gm_marked : single_seen g → all_collected g → marked gm.
Proof.
  intros [Hs1 Hs2] Hcol. split; [split|..].
  - intros m key id Hl. change (lookup gm m key) with (lookup g m key) in Hl.
    rewrite gm_record by (by eapply wf_visible). by eapply Hs1.
  - intros l key id Hl Hin. rewrite gm_record by (by eapply (wf_exported g Hwf)). by eapply Hs2.
  - apply mark_roles_marked.
  - intros b' (i & Hi)%list_elem_of_lookup Hk. rewrite gm_lookup in Hi. apply fmap_Some in Hi as (b & Hb & ->).
    rewrite mark_role_record in *. destruct state_ok as (Hok & [bs Hp] & _ & _ & Hfb). simpl.
    unfold merge_collections. rewrite lookup_union_with.
    destruct (decide (i < length (g_bindings g))) as [Hlt|Hge].
    + rewrite Hp, lookup_app_l in Hb by done. destruct (Hcol b) as [l ->]; [by eapply list_elem_of_lookup_2|done|].
      destruct (fz_contributions s !! _); by eexists.
    + destruct (fo_collected _ Hok i b Hb) as [l ->]; [lia|done|]. destruct (g_collections g !! _); by eexists.
Qed.
End State.

Lemma empty_settled : marked empty_graph.
Proof.
  split; [split|..].
  - done.
  - intros l key id H. by apply not_elem_of_nil in H.
  - intros b H. by apply not_elem_of_nil in H.
  - intros b H. by apply not_elem_of_nil in H.
Qed.

Lemma freeze_marked core g r load plan : graph_wf g → placed r → marked g →
  marked (freeze core g r load plan).1.1.1.
Proof.
  intros Hwf Hr [Hs _ Hc]. destruct (freeze_shape core g r load plan) as (x & nodes & nm & ms & bs & Hf & Hlen & _).
  rewrite Hf. by apply gm_marked.
Qed.
End Shape.

(** ** Alias chains *)

Lemma alias_depends g t u : alias_target g t = Some u → depends g t u.
Proof.
  intros H. unfold depends, waits_for, construction_deps. apply elem_of_app. left. apply elem_of_app. right.
  rewrite H. by left.
Qed.

(** In a graph without cycles [through_aliases] has rounds enough to reach a binding that is no
    alias. *)
Lemma alias_end g : graph_wf g → acyclic (depends g) → ∀ rounds t seen,
  NoDup (t :: seen) → (∀ x, x ∈ t :: seen → x < length (g_bindings g)) → (∀ x, x ∈ seen → tc (depends g) x t) →
  length (g_bindings g) ≤ rounds + length seen →
  alias_target g (through_aliases_loop g rounds t) = None.
Proof.
  intros Hwf Hac. induction rounds as [|rounds IH]; intros t seen Hnd Hlt Htc Hlen.
  - exfalso. assert (Hsub : (t :: seen) ⊆+ seq 0 (length (g_bindings g))).
    { apply NoDup_submseteq; [done|]. intros x Hx. apply elem_of_seq. specialize (Hlt x Hx). lia. }
    apply submseteq_length in Hsub. rewrite length_seq in Hsub. simpl in *. lia.
  - simpl. destruct (alias_target g t) as [u|] eqn:Eu; [|done]. pose proof (alias_depends g t u Eu) as Hd.
    apply (IH u (t :: seen)).
    + apply NoDup_cons. split; [|done]. intros [->|Hin]%elem_of_cons; [by apply (Hac t), tc_once|].
      apply (Hac u). eapply tc_r; [by apply Htc|done].
    + intros x [->|Hx]%elem_of_cons; [by eapply alias_target_range|by apply Hlt].
    + intros x [->|Hx]%elem_of_cons; [by apply tc_once|]. eapply tc_r; [by apply Htc|done].
    + simpl. lia.
Qed.

Lemma alias_more g rounds : ∀ t more, alias_target g (through_aliases_loop g rounds t) = None →
  through_aliases_loop g (rounds + more) t = through_aliases_loop g rounds t.
Proof.
  induction rounds as [|rounds IH]; intros t more H; simpl in *.
  - destruct more; simpl; [done|]. by rewrite H.
  - destruct (alias_target g t); [by apply IH|done].
Qed.

Lemma alias_rounds g t rounds : graph_wf g → acyclic (depends g) → t < length (g_bindings g) →
  length (g_bindings g) ≤ rounds → through_aliases_loop g rounds t = through_aliases g t.
Proof.
  intros Hwf Hac Ht Hr. unfold through_aliases.
  replace rounds with (length (g_bindings g) + (rounds - length (g_bindings g))) by lia. apply alias_more.
  apply (alias_end g Hwf Hac _ t []); [by apply NoDup_singleton| |by intros x Hx; apply not_elem_of_nil in Hx|simpl; lia].
  intros x Hx. by apply list_elem_of_singleton in Hx as ->.
Qed.

(** ** Continuity

    [g'] is a later graph that kept what [g] reads. *)
Record continues (g g' : Graph) : Prop := {
  co_bindings : ∀ i b, g_bindings g !! i = Some b → ∃ b', g_bindings g' !! i = Some b' ∧ same_declaration b' b;
  co_lookup : ∀ m key, m < length (g_modules g) → lookup g' m key = lookup g m key;
  co_edges : ∀ b e key, b ∈ g_bindings g → e ∈ fb_edges b → ed_target e = TCollection key → collection g' key = collection g key;
  co_ready : ∀ b ready dep read key, b ∈ g_bindings g → br_ready (fb_record b) = Some ready → dep ∈ deps_list (ry_dependencies ready) →
    read ∈ dr_reads dep → rd_kind read = Collection key → collection g' key = collection g key;
}.

Section Continues.
Context (g g' : Graph) (Hwf : graph_wf g) (Hco : continues g g').
Abbreviation n := (length (g_bindings g)).

Lemma continues_binding i : i < n → same_declaration (binding g' i) (binding g i).
Proof.
  intros [b Hb]%lookup_lt_is_Some. destruct (co_bindings _ _ Hco i b Hb) as (b' & Hb' & H).
  by rewrite (binding_Some g i b Hb), (binding_Some g' i b' Hb').
Qed.

Lemma continues_length : n ≤ length (g_bindings g').
Proof.
  destruct (decide (n = 0)) as [Hz|Hz]; [lia|]. destruct (lookup_lt_is_Some_2 (g_bindings g) (n - 1)) as [b Hb]; [lia|].
  destruct (co_bindings _ _ Hco _ _ Hb) as (b' & Hb' & _). apply lookup_lt_Some in Hb'. lia.
Qed.

Lemma continues_origin i : i < n → fb_origin (binding g i) < length (g_modules g).
Proof. intros [b Hb]%lookup_lt_is_Some. rewrite (binding_Some g i b Hb). by eapply wf_origin. Qed.

Lemma continues_alias i : i < n → alias_target g' i = alias_target g i.
Proof.
  intros Hi. destruct (continues_binding i Hi) as (_ & Ho & Hr & _). unfold alias_target. rewrite Ho, Hr.
  destruct (br_recipe _); try done. by rewrite (co_lookup _ _ Hco) by (by apply continues_origin).
Qed.

Lemma continues_construction i : i < n → construction_deps g' i = construction_deps g i.
Proof.
  intros Hi. unfold construction_deps. rewrite continues_alias by done. f_equal.
  destruct (continues_binding i Hi) as (_ & _ & _ & _ & ->). apply list_bind_ext_elem. intros e He.
  unfold edge_deps. destruct (ed_target e) as [|key| | |] eqn:Et; try done.
  apply lookup_lt_is_Some in Hi as [b Hb]. rewrite (binding_Some g i b Hb) in He.
  eapply (co_edges _ _ Hco); [by eapply list_elem_of_lookup_2|done|done].
Qed.

Lemma continues_waits i : i < n → waits_for g' i = waits_for g i.
Proof.
  intros Hi. unfold waits_for. rewrite continues_construction by done. f_equal.
  destruct (continues_binding i Hi) as (_ & Ho & Hr & _). unfold readiness_deps. rewrite Ho, Hr.
  destruct (br_ready _) as [ready|] eqn:Er; [|done]. f_equal. unfold closure_deps.
  apply list_bind_ext_elem. intros dep Hdep. apply list_bind_ext_elem. intros read Hread.
  destruct (rd_kind read) as [key|key| | |] eqn:Ek; try done.
  - by rewrite (co_lookup _ _ Hco) by (by apply continues_origin).
  - apply lookup_lt_is_Some in Hi as [b Hb]. rewrite (binding_Some g i b Hb) in Er.
    eapply (co_ready _ _ Hco); [by eapply list_elem_of_lookup_2|done|done|done|done].
Qed.

Lemma continues_needs i : i < n → needs g' i ↔ needs g i.
Proof.
  intros Hi. split.
  - intros H. induction H as [i Hi' Hd|i dep Hi' Hdep Hn IH Hc].
    + apply needs_direct; [done|]. unfold needs_directly in *. destruct (continues_binding i Hi) as (_ & _ & Hr & _ & He).
      by rewrite <- Hr, <- He.
    + rewrite continues_construction in Hdep by done. pose proof (construction_deps_range g Hwf i dep Hdep) as Hd.
      apply (needs_through g i dep); [done|done|by apply IH|]. unfold carries in *.
      destruct (continues_binding dep Hd) as (_ & _ & Hr & Hrole & _). by rewrite <- Hr, <- Hrole.
  - intros H. pose proof continues_length as Hlen. induction H as [i Hi' Hd|i dep Hi' Hdep Hn IH Hc].
    + apply needs_direct; [lia|]. unfold needs_directly in *. destruct (continues_binding i Hi) as (_ & _ & Hr & _ & He).
      by rewrite Hr, He.
    + pose proof (construction_deps_range g Hwf i dep Hdep) as Hd.
      apply (needs_through g' i dep); [lia|by rewrite continues_construction|by apply IH|]. unfold carries in *.
      destruct (continues_binding dep Hd) as (_ & _ & Hr & Hrole & _). by rewrite Hr, Hrole.
Qed.
End Continues.

(** ** The order *)

Section Order.
Context (g g' : Graph) (Hwf : graph_wf g) (Hwf' : graph_wf g') (Hac : acyclic (depends g)) (Hac' : acyclic (depends g')).
Context (Hco : continues g g').
Context (Heff : ∀ i, i < length (g_bindings g) → fb_effective (binding g' i) = fb_effective (binding g i)).
Abbreviation n := (length (g_bindings g)).

Lemma continues_singleton i : i < n → is_singleton g' i = is_singleton g i.
Proof. intros Hi. unfold is_singleton. by rewrite Heff. Qed.

Lemma awaits_range i d : awaits g i d → d < n.
Proof. intros H. inversion H; subst; [by eapply waits_for_range|by eapply construction_deps_range]. Qed.

Lemma continues_awaits i d : i < n → awaits g' i d ↔ awaits g i d.
Proof.
  intros Hi. split.
  - induction 1 as [d Hd|t d Ht IH Hne Htr Hd].
    + apply awaits_direct. by rewrite <- (continues_waits g g' Hwf Hco).
    + pose proof (awaits_range i t IH) as Htn. apply (awaits_through g i t); [done|done| |].
      * unfold is_transient in *. by rewrite <- Heff.
      * by rewrite <- (continues_construction g g' Hwf Hco).
  - induction 1 as [d Hd|t d Ht IH Hne Htr Hd].
    + apply awaits_direct. by rewrite (continues_waits g g' Hwf Hco).
    + pose proof (awaits_range i t Ht) as Htn. apply (awaits_through g' i t); [done|done| |].
      * unfold is_transient in *. by rewrite Heff.
      * by rewrite (continues_construction g g' Hwf Hco).
Qed.

Lemma singleton_range h i : is_singleton h i = true → i < length (g_bindings h).
Proof.
  unfold is_singleton. intros H. destruct (decide (i < length (g_bindings h))); [done|].
  rewrite (binding_out h i) in H by lia. done.
Qed.

Lemma ordered_singleton h i : graph_wf h → i ∈ connect_order h ↔ is_singleton h i = true.
Proof.
  intros Hw. rewrite (connect_order_perm h Hw), elem_of_filterb, elem_of_seq. split; [tauto|].
  intros Hs. pose proof (singleton_range h i Hs). split; [done|lia].
Qed.

Lemma ordered_nodup h : graph_wf h → NoDup (connect_order h).
Proof. intros Hw. rewrite (connect_order_perm h Hw). apply NoDup_filterb, NoDup_seq. Qed.

(** The two orders agree as far as the first goes. *)
Lemma order_take k : k ≤ length (connect_order g) → take k (connect_order g') = take k (connect_order g).
Proof.
  induction k as [|k IH]; intros Hk; [done|]. specialize (IH ltac:(lia)).
  destruct (lookup_lt_is_Some_2 (connect_order g) k) as [x Hx]; [lia|].
  pose proof (take_drop_middle _ _ _ Hx) as Eg. set (pre := take k (connect_order g)) in *.
  assert (Hxs : is_singleton g x = true) by (apply ordered_singleton; [done|]; by eapply list_elem_of_lookup_2).
  assert (Hxn : x < n) by by apply singleton_range.
  assert (Hxpre : x ∉ pre).
  { pose proof (ordered_nodup g Hwf) as Hnd. rewrite <- Eg in Hnd. apply NoDup_app in Hnd as (_ & Hd & _).
    intros Hin. apply (Hd x Hin). by left. }
  destruct (connect_order_sorted g Hwf Hac _ _ _ (eq_sym Eg)) as [Hxd Hxmin].
  assert (Hx' : is_singleton g' x = true) by by rewrite continues_singleton.
  assert (Hin' : x ∈ connect_order g') by by apply ordered_singleton.
  destruct (connect_order g' !! k) as [y|] eqn:Hy.
  - pose proof (take_drop_middle _ _ _ Hy) as Eg'. rewrite IH in Eg'.
    destruct (connect_order_sorted g' Hwf' Hac' _ _ _ (eq_sym Eg')) as [Hyd Hymin].
    assert (Hys : is_singleton g' y = true) by (apply ordered_singleton; [done|]; by eapply list_elem_of_lookup_2).
    assert (Hle : y ≤ x).
    { apply Hymin; [done|done|]. intros d Hd Hds. apply continues_awaits in Hd; [|done].
      apply Hxd; [done|]. rewrite <- continues_singleton; [done|]. by eapply awaits_range. }
    assert (Hyn : y < n) by lia. assert (Hysg : is_singleton g y = true) by by rewrite <- continues_singleton.
    assert (Hypre : y ∉ pre).
    { pose proof (ordered_nodup g' Hwf') as Hnd. rewrite <- Eg' in Hnd. apply NoDup_app in Hnd as (_ & Hd & _).
      intros Hin. apply (Hd y Hin). by left. }
    assert (Hge : x ≤ y).
    { apply Hxmin; [done|done|]. intros d Hd Hds. apply Hyd; [by apply continues_awaits|].
      rewrite continues_singleton; [done|]. by eapply awaits_range. }
    assert (y = x) as -> by lia. rewrite (take_S_r _ _ _ Hy), (take_S_r _ _ _ Hx), IH. done.
  - exfalso. apply lookup_ge_None in Hy. apply list_elem_of_lookup in Hin' as [j Hj].
    assert (Hjk : j < k) by (apply lookup_lt_Some in Hj; lia). apply Hxpre. rewrite <- IH.
    apply list_elem_of_lookup. exists j. by rewrite lookup_take_lt.
Qed.

(** The order is the old one, followed by the new singletons. *)
Lemma order_appends :
  connect_order g' = (connect_order g ++ filterb (λ id, bool_decide (n ≤ id)) (connect_order g'))%list.
Proof.
  pose proof (order_take (length (connect_order g)) ltac:(lia)) as Ht. rewrite (firstn_all (connect_order g)) in Ht.
  rewrite <- (take_drop (length (connect_order g)) (connect_order g')) at 1. rewrite Ht. f_equal.
  rewrite <- (take_drop (length (connect_order g)) (connect_order g')) at 2. rewrite Ht, filterb_app.
  assert (Hold : filterb (λ id, bool_decide (n ≤ id)) (connect_order g) = []).
  { destruct (filterb _ _) as [|z l] eqn:E; [done|]. assert (Hz : z ∈ z :: l) by by left. rewrite <- E in Hz.
    apply elem_of_filterb in Hz as [Hz1%bool_decide_eq_true Hz2]. apply ordered_singleton, singleton_range in Hz2; [lia|done]. }
  rewrite Hold. simpl. symmetry. apply filterb_all. intros z Hz. apply bool_decide_eq_true.
  destruct (decide (n ≤ z)) as [|Hlt]; [done|]. exfalso.
  assert (Hz' : z ∈ connect_order g') by (eapply elem_of_drop_in; exact Hz).
  apply ordered_singleton in Hz'; [|done]. rewrite continues_singleton in Hz' by lia. apply ordered_singleton in Hz'; [|done].
  pose proof (ordered_nodup g' Hwf') as Hnd. rewrite <- (take_drop (length (connect_order g)) (connect_order g')), Ht in Hnd.
  apply NoDup_app in Hnd as (_ & Hd & _). by apply (Hd z Hz').
Qed.
End Order.

(** ** What the passes leave alone *)

Section Kept.
Context (g : Graph) (declared : Declared).

Lemma edges_handlers : g_handlers (g_edges g declared) = g_handlers g.
Proof. done. Qed.
Lemma edges_lookup m key : lookup (g_edges g declared) m key = lookup (build_tables g declared) m key.
Proof. done. Qed.
Lemma edges_bindings : g_bindings (g_edges g declared) =
  imap (resolve_from (g_tables g declared) (dc_first_binding declared)) (g_bindings g).
Proof. done. Qed.
Lemma edges_length : length (g_bindings (g_edges g declared)) = length (g_bindings g).
Proof. rewrite edges_bindings. apply length_imap. Qed.
Lemma roles_kept_lookup m key : lookup (g_roles g declared) m key = lookup (build_tables g declared) m key.
Proof. done. Qed.
Lemma roles_kept_collection key : collection (g_roles g declared) key = collection g key.
Proof. done. Qed.
End Kept.

(** ** A load *)

Lemma key_eqb_id k key key' : key_id key = key_id key' → key_eqb k key = key_eqb k key'.
Proof. intros H. apply eq_true_iff_eq. by rewrite !key_eqb_spec, H. Qed.

Lemma reads_key_proper key key' d : key_id key = key_id key' → reads_key key d = reads_key key' d.
Proof.
  intros H. unfold reads_key. apply existsb_ext. intros dep. apply existsb_ext. intros read.
  destruct (rd_kind read); try done. by apply key_eqb_id.
Qed.

Lemma reads_collection_proper g key key' : key_id key = key_id key' → reads_collection g key = reads_collection g key'.
Proof.
  intros H. unfold reads_collection.
  assert (Hd : ∀ d, reads_key key d = reads_key key' d) by (intros d; by apply reads_key_proper).
  assert (Hk : ∀ k, key_eqb k key = key_eqb k key') by (intros k; by apply key_eqb_id).
  f_equal; [f_equal|]; apply existsb_ext; intros y.
  - f_equal; [f_equal|].
    + apply existsb_ext. intros e. by destruct (ed_target e).
    + by destruct (br_ready _).
    + apply existsb_ext. intros hook. apply Hd.
  - apply existsb_ext. intros hook. apply Hd.
  - f_equal; [f_equal|].
    + apply existsb_ext. intros k. apply Hk.
    + apply Hd.
    + apply existsb_ext. intros [k|c]; [done|apply Hd].
Qed.

Section Load.
Context {M : Type}.
Context (g : Graph) (Hse : settled g) (r : @Registry M) (Hr : placed r) (Href : refusal g r = None).
Context (x : list string) (nm : list ModuleName) (load : option nat).
Let Hwf : graph_wf g := ck_wf _ (se_checked _ Hse).
Abbreviation nodes := (rg_nodes r).
Abbreviation s := (freeze_modules (set_secrets g x) r nodes nm load).
Abbreviation gf := (frozen_graph (set_secrets g x) s).
Abbreviation roles := (role_types gf (g_bindings gf)).
Abbreviation gm := (set_bindings gf (mark_role roles <$> g_bindings gf)).
Context (Hrole_errors : (mark_role_contributions gf (dc_first_binding (fz_declared s))).2 = []).

(** Nothing the load brings mounts a handler or contributes to a collection of the base. *)
Lemma load_node index node : index ∈ rg_post_order r → nodes !! index = Some node →
  nd_controllers node = []
  ∧ ∀ record, record ∈ nd_bindings node → br_kind record = BCollection →
      g_collections g !! key_id (record_key record) = None ∧ reads_collection g (record_key record) = false.
Proof.
  intros Hi Hn. pose proof (find_map_None _ _ Href index Hi) as H. simpl in H. rewrite Hn in H. simpl in H.
  unfold node_refusal in H. destruct (nd_controllers node); [|done]. destruct (nd_meta node); [|done].
  destruct (nd_inputs node); [|done]. destruct (if nd_global node then _ else _); [done|]. split; [done|].
  intros record Hrec Hk. pose proof (find_map_None _ _ H record Hrec) as Hf. simpl in Hf.
  rewrite bool_decide_eq_true_2 in Hf by done. destruct (_ || _) eqn:E; [done|].
  apply orb_false_iff in E as [E1%bool_decide_eq_false E2]. split; [by apply eq_None_not_Some|done].
Qed.

Lemma load_handlers : g_handlers gf = g_handlers g.
Proof. apply (frozen_handlers (set_secrets g x) r nodes nm load). intros index node Hi Hn. by apply (load_node index node). Qed.

Lemma load_contribution k ids : fz_contributions s !! k = Some ids →
  g_collections g !! k = None ∧ ∀ key, key_id key = k → reads_collection g key = false.
Proof.
  intros (record & (index & node & Hi & Hn & Hrec) & Hk & <-)%frozen_contributions.
  destruct (load_node index node Hi Hn) as [_ H]. destruct (H record Hrec Hk) as [H1 H2]. split; [done|].
  intros key Hkey. rewrite <- H2. by apply reads_collection_proper.
Qed.

Lemma load_collection key : reads_collection g key = true → collection gf key = collection g key.
Proof.
  intros Hread. unfold collection. simpl. unfold merge_collections. rewrite lookup_union_with.
  destruct (fz_contributions s !! key_id key) as [ids|] eqn:E.
  - destruct (load_contribution _ _ E) as [_ H]. rewrite (H key eq_refl) in Hread. done.
  - by destruct (g_collections g !! key_id key).
Qed.

Lemma load_state : freezing_ok s ∧ g_bindings g `prefix_of` fz_bindings s ∧ g_modules g `prefix_of` fz_modules s
  ∧ dc_first_module (fz_declared s) = length (g_modules g)
  ∧ dc_first_binding (fz_declared s) = length (g_bindings g).
Proof. by apply (state_ok g Hwf r Hr x nodes nm load). Qed.

(** A contribution under a role key is unqualified, or the freeze reports it. *)
Lemma load_unqualified b : b ∈ fz_bindings s → br_kind (fb_record b) = BCollection →
  key_type_id (record_key (fb_record b)) ∈ roles →
  (dc_first_binding (fz_declared s) ≤ fb_id b ∨ key_type_id (record_key (fb_record b)) ∉ role_types g (g_bindings g)) →
  is_unqualified (record_key (fb_record b)) = true.
Proof.
  intros Hb Hk Ht Hnew. destruct (is_unqualified _) eqn:E; [done|]. exfalso.
  unfold mark_role_contributions in Hrole_errors. simpl in Hrole_errors. rewrite bind_nil_iff in Hrole_errors.
  specialize (Hrole_errors (mark_role roles b)). unfold role_errors in Hrole_errors.
  rewrite mark_role_record, Hk in Hrole_errors. rewrite E in Hrole_errors. simpl in Hrole_errors.
  rewrite (bool_decide_eq_true_2 (_ ∈ roles)) in Hrole_errors by done. simpl in Hrole_errors.
  destruct (_ || _) eqn:En.
  - by specialize (Hrole_errors ltac:(apply list_elem_of_fmap; by exists b)).
  - apply orb_false_iff in En as [E1%bool_decide_eq_false E2]. apply negb_false_iff, bool_decide_eq_true in E2.
    destruct Hnew as [Hnew|Hnew].
    + apply E1. unfold mark_role. by destruct (_ && _ && _).
    + apply Hnew. revert E2. rewrite !elem_of_role_types, load_handlers.
      destruct load_state as (_ & [bs Hp] & _ & _ & ->). by rewrite Hp, take_app_length.
Qed.

Lemma record_key_type record : key_type_id (record_key record) = key_type_id (br_primary record).
Proof. done. Qed.

Lemma unqualified_id a b : key_type_id a = key_type_id b → is_unqualified a = true → is_unqualified b = true → key_id a = key_id b.
Proof.
  unfold is_unqualified, key_id, key_type_id. intros Ht Ha%bool_decide_eq_true Hb%bool_decide_eq_true.
  unfold qualifier_id in *. congruence.
Qed.

(** A load leaves the roles of the base as they are. *)
Lemma load_binding i b : g_bindings g !! i = Some b → g_bindings gm !! i = Some b.
Proof.
  intros Hb. rewrite (gm_base g Hwf r Hr x nodes nm load eq_refl i b Hb). f_equal. unfold mark_role.
  destruct (_ && _ && _) eqn:E; [|done]. exfalso.
  apply andb_true_iff in E as [[Hk%bool_decide_eq_true Hp%bool_decide_eq_true]%andb_true_iff Ht%bool_decide_eq_true].
  destruct load_state as (Hok & [bs Hpre] & _ & _ & Hfb).
  assert (Hin : b ∈ fz_bindings s) by (rewrite Hpre; apply elem_of_app; left; by eapply list_elem_of_lookup_2).
  assert (Hbase : key_type_id (br_primary (fb_record b)) ∉ role_types g (g_bindings g)).
  { apply (mk_roles _ (se_marked _ Hse)); [by eapply list_elem_of_lookup_2|done|done]. }
  assert (Hbu : is_unqualified (record_key (fb_record b)) = true) by (apply load_unqualified; auto).
  pose proof Ht as Hnew. apply elem_of_role_types in Hnew as [Hh|(c & Hc & Hck & Hcr & Htc)].
  { apply Hbase, elem_of_role_types. left. by rewrite load_handlers in Hh. }
  simpl in Hc. apply list_elem_of_lookup in Hc as [j Hj]. pose proof (fo_binding_id _ Hok j c Hj) as Hcid.
  destruct (decide (j < length (g_bindings g))) as [Hlt|Hge].
  { apply Hbase, elem_of_role_types. right. exists c. rewrite Hpre, lookup_app_l in Hj by done.
    split; [by eapply list_elem_of_lookup_2|done]. }
  assert (Hcu : is_unqualified (record_key (fb_record c)) = true).
  { apply load_unqualified; [by eapply list_elem_of_lookup_2|done| |left; lia]. rewrite record_key_type, <- Htc. done. }
  destruct (frozen_records (set_secrets g x) r nodes nm load j c Hj) as (index & node & Hi & Hn & Hrec); [simpl; lia|].
  destruct (load_node index node Hi Hn) as [_ H]. destruct (H _ Hrec Hck) as [Hnone _].
  destruct (mk_collected _ (se_marked _ Hse) b) as [l Hl]; [by eapply list_elem_of_lookup_2|done|].
  rewrite (unqualified_id (record_key (fb_record b)) (record_key (fb_record c))) in Hl; [congruence|exact Htc|done|done].
Qed.

Context (declared : Declared) (Hdm : dc_first_module declared = length (g_modules g))
  (Hdb : dc_first_binding declared = length (g_bindings g)).

Lemma load_wf : graph_wf gm.
Proof.
  apply wiring_wf; [apply mark_role_wiring|]. by apply (frozen_wf (set_secrets g x) (set_secrets_wf g x Hwf) r Hr).
Qed.

Lemma load_lookup m key : m < length (g_modules g) → lookup (build_tables gm declared) m key = lookup g m key.
Proof.
  intros Hm. destruct load_state as (_ & _ & Hp & _). pose proof (prefix_length _ _ Hp) as Hl.
  pose proof (se_tables _ Hse) as Ht.
  rewrite built_lookup_old; [done|by rewrite Hdm|simpl; lia|simpl; lia].
Qed.

Lemma load_edge i b : g_bindings g !! i = Some b → g_bindings (g_edges gm declared) !! i = Some b.
Proof.
  intros Hb. rewrite edges_bindings, list_lookup_imap, (load_binding i b Hb). simpl. f_equal. unfold resolve_from.
  apply lookup_lt_Some in Hb. by rewrite bool_decide_eq_false_2 by lia.
Qed.

Lemma load_edge_binding i : i < length (g_bindings g) → binding (g_edges gm declared) i = binding g i.
Proof.
  intros [b Hb]%lookup_lt_is_Some. by rewrite (binding_Some g i b Hb), (binding_Some _ i b (load_edge i b Hb)).
Qed.

Lemma load_alias i : i < length (g_bindings g) → alias_target (g_edges gm declared) i = alias_target g i.
Proof.
  intros Hi. unfold alias_target. rewrite load_edge_binding by done. destruct (br_recipe _); try done.
  rewrite edges_lookup, load_lookup; [done|]. apply lookup_lt_is_Some in Hi as [b Hb]. rewrite (binding_Some g i b Hb). by eapply wf_origin.
Qed.

Lemma load_aliases rounds : ∀ t, t < length (g_bindings g) →
  through_aliases_loop (g_edges gm declared) rounds t = through_aliases_loop g rounds t.
Proof.
  induction rounds as [|rounds IH]; intros t Ht; simpl; [done|]. rewrite load_alias by done.
  destruct (alias_target g t) as [u|] eqn:E; [|done]. apply IH. by eapply alias_target_range.
Qed.

Lemma load_named : named_enhancers (g_edges gm declared) = named_enhancers g.
Proof.
  unfold named_enhancers. rewrite edges_handlers.
  change (g_handlers gm) with (g_handlers gf). rewrite load_handlers.
  apply list_bind_ext_elem. intros h Hh. apply list_bind_ext_elem. intros [key|c] _; [|done].
  rewrite edges_lookup, load_lookup by (by apply (wf_handler_modules g Hwf)).
  destruct (lookup g (hr_module h) key) as [[t| |]|] eqn:E; try done. f_equal.
  apply wf_visible in E; [|done]. unfold through_aliases at 1. rewrite load_aliases by done.
  apply alias_rounds; [done|apply (ck_acyclic _ (se_checked _ Hse))|done|].
  destruct load_state as (_ & Hp & _). apply prefix_length in Hp.
  rewrite edges_length. simpl. by rewrite length_fmap.
Qed.

(** The base as the scope pass of the load finds it. *)
Lemma load_roles i b : g_bindings g !! i = Some b →
  ∃ b', g_bindings (g_roles gm declared) !! i = Some b' ∧ same_declaration b' b.
Proof.
  intros Hb. pose proof (load_edge i b Hb) as He.
  destruct (Forall2_lookup_r _ _ _ _ _ (assign_roles_wiring (g_edges gm declared)) He) as (b' & Hb' & (H1 & H2 & H3 & H4)).
  exists b'. split; [done|]. destruct (roles_lookup gm declared i b' Hb') as (b0 & Hb0 & _ & _ & Hkeep & Hno).
  rewrite He in Hb0. injection Hb0 as <-.
  assert (Hrole : fb_role b' = fb_role b).
  { destruct (decide (i ∈ named_enhancers (g_edges gm declared))) as [Hin|Hin]; [|by apply Hno].
    apply Hkeep. rewrite load_named in Hin. apply (se_named _ Hse) in Hin. by rewrite (binding_Some g i b Hb) in Hin. }
  done.
Qed.

Lemma elem_existsb {A} (f : A → bool) l y : y ∈ l → f y = true → existsb f l = true.
Proof. intros Hy Hf. apply existsb_elem. eauto. Qed.

Lemma load_continues : continues g (g_roles gm declared).
Proof.
  split.
  - apply load_roles.
  - intros m key Hm. rewrite roles_kept_lookup. by apply load_lookup.
  - intros b e key Hb He Ht. rewrite roles_kept_collection. apply load_collection. unfold reads_collection.
    rewrite (elem_existsb _ (g_bindings g) b); [done|done|]. rewrite (elem_existsb _ (fb_edges b) e); [done|done|].
    rewrite Ht. by apply key_eqb_spec.
  - intros b ready dep read key Hb Hready Hdep Hread Hk. rewrite roles_kept_collection. apply load_collection. unfold reads_collection.
    rewrite (elem_existsb _ (g_bindings g) b); [done|done|]. rewrite Hready.
    assert (Hrk : reads_key key (ry_dependencies ready) = true).
    { unfold reads_key. apply (elem_existsb _ _ dep); [done|]. apply (elem_existsb _ _ read); [done|].
      rewrite Hk. by apply key_eqb_spec. }
    rewrite Hrk. by rewrite orb_true_r.
Qed.

(** What the load decides for the base is what was decided. *)
Lemma load_effective i : i < length (g_bindings g) →
  fb_effective (binding (g_scopes gm declared) i) = fb_effective (binding g i).
Proof.
  intros Hi. pose proof (g_roles_wf gm load_wf declared) as Hwr.
  pose proof (continues_length _ _ load_continues) as Hl.
  destruct (pass_spec (g_roles gm declared) Hwr i ltac:(lia)) as (_ & Hn & He).
  destruct (se_scoped _ Hse i Hi) as [He0 Hn0]. etrans; [exact He|]. rewrite He0.
  destruct (continues_binding g _ load_continues i Hi) as (_ & _ & Hrec & Hrole & _).
  assert (Hneed : fb_needs_execution (binding (needs_execution (g_roles gm declared)) i) = fb_needs_execution (binding g i)).
  { apply eq_true_iff_eq. rewrite Hn, Hn0. by apply continues_needs; [| apply load_continues|]. }
  unfold built_as. by rewrite Hneed, Hrec, Hrole.
Qed.
End Load.

Lemma continues_same g h h' : g_visibility h' = g_visibility h → g_collections h' = g_collections h →
  Forall2 same_declaration (g_bindings h') (g_bindings h) → continues g h → continues g h'.
Proof.
  intros Hv Hc Hall [H1 H2 H3 H4].
  assert (Hcol : ∀ key, collection h' key = collection h key) by (intros key; unfold collection; by rewrite Hc).
  split.
  - intros i b Hb. destruct (H1 i b Hb) as (b1 & Hb1 & Hs). destruct (Forall2_lookup_r _ _ _ _ _ Hall Hb1) as (b2 & Hb2 & Hs2).
    exists b2. split; [done|]. by eapply same_declaration_trans.
  - intros m key Hm. unfold lookup. rewrite Hv. by apply H2.
  - intros b e key. rewrite Hcol. apply H3.
  - intros b ready dep read key. rewrite Hcol. apply H4.
Qed.

(** What a successful load leaves. *)
Record loaded (base g : Graph) (singletons : list BindingId) : Prop := {
  ld_settled : settled g;
  ld_order : g_connect_order g = (g_connect_order base ++ singletons)%list;
  ld_bindings : ∀ i, i < length (g_bindings base) →
    same_declaration (binding g i) (binding base i) ∧ fb_effective (binding g i) = fb_effective (binding base i);
  ld_lookup : ∀ m key, m < length (g_modules base) → lookup g m key = lookup base m key;
}.

(** The last steps of the load, on any graph the pass left. *)
Lemma load_finish g gr closures root : settled g → continues g gr →
  (∀ i, i < length (g_bindings g) → fb_effective (binding (needs_execution gr) i) = fb_effective (binding g i)) →
  let gc := set_closures (needs_execution gr) closures in
  let G := set_root_order gc root (connect_order gc) in
  settled G →
  loaded g G (filterb (λ id, bool_decide (length (g_bindings g) ≤ id)) (g_connect_order G)).
Proof.
  intros Hse Hco Heff gc G HG.
  assert (HcoG : continues g G) by (apply (continues_same g gr G); [done|done|apply (pass_same gr)|done]).
  split; [done| | |].
  - rewrite (se_order _ Hse), (se_order _ HG). apply order_appends; try done; try apply se_checked; try done.
  - intros i Hi. split; [by apply continues_binding|by apply Heff].
  - apply (co_lookup _ _ HcoG).
Qed.

Section Lazy.
Context {M : Type}.
Context (module_identity : M → ModuleIdentity).
Context (module_settings : M → ModuleSettings).
Context (module_register : M → @ModuleNode M → @ModuleNode M).
Context (core : CoreTypes).

Lemma register_placed base plan fuel m site (r : @Registry M) : keeps_identity module_register →
  register_from module_identity module_settings module_register base plan fuel m site = Some r → placed r.
Proof.
  intros Hkeep Hreg. unfold register_from in Hreg. apply fmap_Some in Hreg as ([w imp] & Hw & ->).
  apply registered_placed. by eapply finish_registered.
Qed.

Lemma some_inr_inj {A B} (x y : B) : @Some (A + B) (inr x) = Some (inr y) → x = y.
Proof. congruence. Qed.

Lemma reload_loaded g : settled g → loaded g g [].
Proof. intros H. split; [done|by rewrite app_nil_r|by intros|done]. Qed.

Lemma lazy_loaded fuel base m env at_ lw : keeps_identity module_register → settled base →
  wire_lazy module_identity module_settings module_register core fuel base m env at_ = Some (inr lw) →
  loaded base (lw_graph lw) (lw_singletons lw).
Proof.
  intros Hkeep Hse. unfold wire_lazy. destruct (g_by_identity base !! _) as [existing|].
  { destruct (reload_differs _ _ _ _ _); [done|]. intros [= <-]. by apply reload_loaded. }
  destruct (register_from _ _ _ _ _ _ _ _) as [r|] eqn:Hreg; [|done].
  pose proof (register_placed _ _ _ _ _ _ Hkeep Hreg) as Hr.
  destruct (refusal base r) as [|] eqn:Href; [done|].
  pose proof (ck_wf _ (se_checked _ Hse)) as Hwf.
  destruct (freeze_shape core base r (Some (next_load base)) None) as (x & nodes & nm & ms & bs & Hf & _ & Hnodes).
  rewrite (Hnodes eq_refl) in Hf. clear nodes Hnodes. rewrite Hf. cbv zeta.
  set (s := freeze_modules (set_secrets base x) r (rg_nodes r) nm (Some (next_load base))).
  set (gf := frozen_graph (set_secrets base x) s).
  destruct (mark_role_contributions gf (dc_first_binding (fz_declared s))) as [gm re] eqn:Em. simpl fst. simpl snd.
  destruct (state_ok base Hwf r Hr x (rg_nodes r) nm (Some (next_load base)) eq_refl) as (_ & Hpb & _ & Hfm & Hfb). fold s in Hpb, Hfm, Hfb.
  assert (Egm : gm = set_bindings gf (mark_role (role_types gf (g_bindings gf)) <$> g_bindings gf)).
  { unfold mark_role_contributions in Em. by injection Em as <-. }
  assert (Hwgm : graph_wf gm) by (rewrite Egm; by apply (load_wf base Hse r Hr x nm (Some (next_load base)))).
  assert (Hmk : marked gm).
  { rewrite Egm. apply (gm_marked base Hwf r Hr x (rg_nodes r) nm _ eq_refl); apply (se_marked _ Hse). }
  assert (Hfirst : dc_first_binding (fz_declared s) ≤ length (g_bindings gm)).
  { rewrite Hfb, Egm. simpl. rewrite length_fmap. by apply prefix_length. }
  pose proof (check_settled gm Hwgm Hmk (fz_declared s) Hfirst env ms (bs ++ re)%list (g_root (g_checked gm (fz_declared s)))) as Hs.
  destruct (check_eq gm (fz_declared s) Hfirst env ms (bs ++ re)%list) as [Hg Herr].
  destruct (check gm (fz_declared s) env ms (bs ++ re)%list) as [g2 steps]. simpl in Hs, Hg, Herr. subst g2.
  case_bool_decide as Hn; [|done]. apply nil_length_inv in Hn. intros Hlw%some_inr_inj. subst lw.
  unfold lw_graph, lw_singletons.
  apply Herr in Hn as Hall. destruct Hall as (_ & [Hbs _] & _). apply app_nil_iff in Hbs as [_ ->].
  assert (Hre : (mark_role_contributions gf (dc_first_binding (fz_declared s))).2 = []) by by rewrite Em.
  rewrite Hfb. apply (load_finish base (g_roles gm (fz_declared s))); [done| | |by apply Hs].
  - rewrite Egm. by apply (load_continues base Hse r Hr Href x nm (Some (next_load base)) Hre).
  - intros i Hi. rewrite Egm. by apply (load_effective base Hse r Hr Href x nm (Some (next_load base)) Hre).
Qed.

Lemma wire_settled fuel (root : M) env plan g : keeps_identity module_register →
  wire module_identity module_settings module_register core fuel root env plan = Some (inr g) → settled g.
Proof.
  intros Hkeep. unfold wire. destruct (register_from _ _ _ _ _ _ _ _) as [r|] eqn:Hreg; [|done].
  pose proof (register_placed _ _ _ _ _ _ Hkeep Hreg) as Hr.
  set (r' := match we_timer env with Some _ => _ | None => _ end).
  assert (Hr' : placed r') by (unfold r'; destruct (we_timer env); [by apply add_timer_placed|done]).
  pose proof (freeze_ok core empty_graph r' None plan empty_wf Hr') as Hfr.
  pose proof (freeze_marked core empty_graph r' None plan empty_wf Hr' empty_settled) as Hmk.
  destruct (freeze core empty_graph r' None plan) as [[[gz declared] ms] bs]. simpl in Hmk.
  destruct Hfr as [Hwf _ _ _ Hfm Hfb Hfh _].
  set (g1 := set_root_order gz (dc_root declared) (g_connect_order gz)).
  assert (Hwf1 : graph_wf g1) by (destruct Hwf as [H1 H2 H3 H4 H5 H6 H7 H8 H9 H10]; by split).
  assert (Hmk1 : marked g1) by by apply marked_root.
  assert (Hfirst : dc_first_binding declared ≤ length (g_bindings g1)) by (rewrite Hfb; simpl; lia).
  pose proof (check_settled g1 Hwf1 Hmk1 declared Hfirst env ms bs (g_root (g_checked g1 declared))) as Hs.
  pose proof (proj1 (check_eq g1 declared Hfirst env ms bs)) as Hg.
  destruct (check g1 declared env ms bs) as [g2 steps]. simpl in Hs, Hg. subst g2.
  case_bool_decide as Hn; [|done]. apply nil_length_inv in Hn. intros Hg%some_inr_inj. subst g. by apply Hs.
Qed.
End Lazy.
