(* ===== verification/InjectFacts.v ===== *)
(** * InjectFacts: what wiring leaves for reads

    [injectable] collects what a read relies on: each edge is the one its read resolves to, an alias
    has its target, and the binding, input or collection a key leads to is of the key's type. A
    wiring that reports nothing leaves a graph that is [injectable]. *)

From S2P Require Import Prelude Text Key Graph WiringError Tarjan Cycles Order Redact Scopes ScopesFacts InputsFacts Visibility VisibilityFacts Register RegisterFacts Freeze FreezeFacts ResolveFacts Wire WireFacts LoadFacts.
Local Open Scope nat_scope.

(** What wiring leaves for the resolver to read. *)
Record injectable (g : Graph) : Prop := {
  ij_settled : settled g;
  ij_points : points_resolved g whole;
  ij_edges : ∀ id b, g_bindings g !! id = Some b → fb_edges b = resolved_edges g b;
  ij_alias : ∀ id b target, g_bindings g !! id = Some b → br_recipe (fb_record b) = Alias target →
    ∃ t, lookup g (fb_origin b) target = Some (VBinding t);
  ij_visible : ∀ m key id, lookup g m key = Some (VBinding id) →
    ∃ k, k ∈ keys (fb_record (binding g id)) ∧ key_type_id k = key_type_id key;
  ij_input : ∀ m key input, lookup g m key = Some (VInput input) → key_type_id input = key_type_id key;
  ij_collected : ∀ key id, id ∈ collection g key → key_type_id (br_primary (fb_record (binding g id))) = key_type_id key;
}.

(** ** Types behind keys *)

(** A key of [id] has the type. *)
Definition has_type (g : Graph) (ty : TypeId) (id : BindingId) : Prop :=
  ∃ k, k ∈ keys (fb_record (binding g id)) ∧ key_type_id k = ty.

Record typed_seen (g : Graph) : Prop := {
  ts_visible : ∀ m key id, lookup g m key = Some (VBinding id) → has_type g (key_type_id key) id;
  ts_exported : ∀ l key id, l ∈ g_exported g → (key, id) ∈ l → has_type g (key_type_id key) id;
  ts_inputs : ∀ k decl, g_inputs g !! k = Some decl → key_id (in_key decl) = k;
  ts_seen : ∀ m key input, lookup g m key = Some (VInput input) → key_type_id input = key_type_id key;
  ts_collected : ∀ k ids id, g_collections g !! k = Some ids → id ∈ ids → key_id (record_key (fb_record (binding g id))) = k;
}.

Lemma build_tables_typed g declared : typed_seen g → typed_seen (build_tables g declared).
Proof.
  intros [Hv He Hi Hs Hc].
  assert (Hown : ∀ m key id, own_binding g m key = Some id → has_type g (key_type_id key) id).
  { intros m key id [Ha _]%find_first_Some. unfold answers_to in Ha. apply andb_true_iff in Ha as [_ Ha].
    apply existsb_elem in Ha as (k & Hk & E%key_eqb_spec). exists k. split; [done|]. symmetry. by apply key_id_type. }
  split.
  - intros m key id. apply (tables_built_P g declared (has_type g) Hown He Hv).
  - intros l key id. apply (exports_built_P g declared (has_type g) Hown He).
  - done.
  - intros m key input Hl. destruct (decide (m < length (g_modules g))) as [Hlt|Hge].
    2:{ unfold lookup in Hl. rewrite build_tables_eq in Hl. simpl in Hl. rewrite lookup_ge_None_2 in Hl; [done|]. rewrite tables_all_length. lia. }
    destruct (decide (dc_first_module declared ≤ m)) as [Hnew|Hold].
    + rewrite built_lookup in Hl by done. destruct (sources _ _ _) as [|[ex i] [|]]; [|done|done].
      apply fmap_Some in Hl as (decl & Hd & [= ->]). by apply key_id_type, Hi.
    + unfold lookup in Hl. rewrite build_tables_eq in Hl. simpl in Hl. unfold tables_all in Hl. rewrite tables_old in Hl by lia.
      destruct (resize _ _ _ !! m) as [t|] eqn:Et; [|done]. apply resize_lookup_Some in Et as [->|Et]; [done|].
      apply (Hs m). unfold lookup. by rewrite Et.
  - done.
Qed.

Lemma typed_same g g' : g_visibility g' = g_visibility g → g_exported g' = g_exported g → g_inputs g' = g_inputs g →
  g_collections g' = g_collections g → (∀ id, fb_record (binding g' id) = fb_record (binding g id)) → typed_seen g → typed_seen g'.
Proof.
  intros Hv He Hi Hc Hr [H1 H2 H3 H4 H5].
  assert (Hn : ∀ ty id, has_type g ty id → has_type g' ty id) by (intros ty id; unfold has_type; by rewrite Hr).
  split; unfold lookup in *; rewrite ?Hv, ?He, ?Hi, ?Hc; try done; intros; [by eapply Hn, H1|by eapply Hn, H2|]. rewrite Hr. by eapply H5.
Qed.

(** ** The freeze *)

Lemma declare_inputs_keyed decls : ∀ inputs, (∀ k d, inputs !! k = Some d → key_id (in_key d) = k) →
  ∀ k d, foldl declare_input inputs decls !! k = Some d → key_id (in_key d) = k.
Proof.
  induction decls as [|decl decls IH]; intros inputs Hi; simpl; [done|]. apply IH. intros k d. unfold declare_input.
  intros [[<- <-]|[_ H]]%lookup_insert_Some; [|by apply Hi]. simpl. destruct (inputs !! _) as [e|] eqn:E; simpl; [by apply Hi|done].
Qed.

Lemma declare_module_inputs_keyed name l : ∀ inputs, (∀ k d, inputs !! k = Some d → key_id (in_key d) = k) →
  ∀ k d, foldl (declare_module_input name) inputs l !! k = Some d → key_id (in_key d) = k.
Proof.
  induction l as [|i l IH]; intros inputs Hi; simpl; [done|]. apply IH. intros k d. unfold declare_module_input.
  destruct (inputs !! key_id (ir_key i)); [apply Hi|]. intros [[<- <-]|[_ H]]%lookup_insert_Some; [done|by apply Hi].
Qed.

Lemma mount_inputs_keyed bs id name cs : ∀ s, (∀ k d, s.1.1.1.1 !! k = Some d → key_id (in_key d) = k) →
  ∀ k d, (foldl (mount_controller bs id name) s cs).1.1.1.1 !! k = Some d → key_id (in_key d) = k.
Proof.
  induction cs as [|c cs IH]; intros s Hs; [done|]. simpl. apply IH. destruct s as [[[[inputs seen] declared] handlers] errors].
  unfold mount_controller. destruct (bs !! ct_binding c) as [b|]; [|done]. simpl in Hs.
  assert (H : ∀ l s, (∀ k d, s.1.1 !! k = Some d → key_id (in_key d) = k) →
    ∀ k d, (foldl declare_transport_inputs s l).1.1 !! k = Some d → key_id (in_key d) = k).
  { clear. intros l. induction l as [|decl l IHl]; intros s Hs; [done|]. simpl. apply IHl. destruct s as [[i se] de].
    unfold declare_transport_inputs. case_bool_decide; [done|]. simpl. by apply declare_inputs_keyed. }
  specialize (H (ct_mount c) (inputs, seen, declared) Hs). destruct (foldl declare_transport_inputs _ _) as [[inputs' seen'] declared']. exact H.
Qed.

(** Contributions are kept under their binding's key. *)
Definition collected_in (bs : list FrozenBinding) (m : gmap KeyId (list BindingId)) : Prop :=
  ∀ k ids i, m !! k = Some ids → i ∈ ids → ∃ b, bs !! i = Some b ∧ key_id (record_key (fb_record b)) = k.

Lemma add_contributions_keyed all bs : (∀ b, b ∈ bs → all !! fb_id b = Some b) → ∀ m, collected_in all m → collected_in all (foldl add_contribution m bs).
Proof.
  induction bs as [|b bs IH]; intros Hbs m Hm; simpl; [done|]. apply IH; [intros x Hx; apply Hbs; by right|].
  unfold add_contribution. case_bool_decide; [|done]. intros k ids i [[<- <-]|[_ Hk]]%lookup_insert_Some Hi; [|by eapply Hm].
  apply elem_of_app in Hi as [Hi|Hi].
  - destruct (m !! _) as [l|] eqn:E; [by eapply Hm|by apply not_elem_of_nil in Hi].
  - apply list_elem_of_singleton in Hi as ->. exists b. split; [apply Hbs; by left|done].
Qed.

Section Frozen.
Context {M : Type}.

Lemma frozen_inputs_keyed g (r : @Registry M) nodes nm load : (∀ k d, g_inputs g !! k = Some d → key_id (in_key d) = k) →
  ∀ k d, fz_inputs (freeze_modules g r nodes nm load) !! k = Some d → key_id (in_key d) = k.
Proof.
  intros Hg. apply (freeze_modules_ind g r nodes nm load (λ s, ∀ k d, fz_inputs s !! k = Some d → key_id (in_key d) = k)); [done|].
  intros s id index node imports ids _ _ IH. unfold freeze_node.
  pose proof (mount_inputs_keyed (freeze_bindings node id (length (fz_bindings s))) id (name_at nm index) (nd_controllers node)
    (fz_inputs s, fz_seen s, dc_transport_inputs (fz_declared s), fz_handlers s, fz_binding_errors s) IH) as H.
  destruct (foldl (mount_controller _ _ _) _ _) as [[[[inputs seen] tinputs] handlers] errors]. simpl. by apply declare_module_inputs_keyed.
Qed.

Lemma frozen_collected g (r : @Registry M) nodes nm load :
  let s := freeze_modules g r nodes nm load in collected_in (fz_bindings s) (fz_contributions s).
Proof.
  simpl. apply (freeze_modules_ind g r nodes nm load (λ s, collected_in (fz_bindings s) (fz_contributions s))).
  - intros k ids i. simpl. by rewrite lookup_empty.
  - intros s id index node imports ids _ _ IH. unfold freeze_node. destruct (foldl (mount_controller _ _ _) _ _) as [[[[? ?] ?] ?] ?]. simpl.
    apply add_contributions_keyed.
    + intros b (i & Hi)%list_elem_of_lookup. destruct (freeze_bindings_lookup _ _ _ _ _ Hi) as (-> & _).
      rewrite lookup_app_r by lia. by replace (length (fz_bindings s) + i - length (fz_bindings s)) with i by lia.
    + intros k ids' i Hk Hi. destruct (IH k ids' i Hk Hi) as (b & Hb & E). exists b. split; [by apply lookup_app_l_Some|done].
Qed.

Lemma freeze_typed core g (r : @Registry M) load plan : graph_wf g → placed r → typed_seen g → typed_seen (freeze core g r load plan).1.1.1.
Proof.
  intros Hwf Hr [H1 H2 H3 H4 H5]. destruct (freeze_shape core g r load plan) as (x & nodes & nm & ms & bs & Hf & Hlen & _). rewrite Hf. clear Hf. simpl.
  assert (Hn : ∀ ty id, id < length (g_bindings g) → has_type g ty id → has_type (mark_role_contributions (frozen_graph (set_secrets g x)
    (freeze_modules (set_secrets g x) r nodes nm load)) (dc_first_binding (fz_declared (freeze_modules (set_secrets g x) r nodes nm load)))).1 ty id).
  { intros ty id Hid. unfold has_type. simpl. by rewrite (gm_record g Hwf r Hr x nodes nm load Hlen). }
  split.
  - intros m key id Hl. apply Hn; [by eapply wf_visible|by eapply H1].
  - intros l key id Hl Hin. apply Hn; [by eapply (wf_exported g Hwf)|by eapply H2].
  - by apply frozen_inputs_keyed.
  - exact H4.
  - intros k ids id. simpl. unfold merge_collections. rewrite lookup_union_with. intros Hk Hin.
    assert (Hid : (∃ l, g_collections g !! k = Some l ∧ id ∈ l) ∨ ∃ l, fz_contributions (freeze_modules (set_secrets g x) r nodes nm load) !! k = Some l ∧ id ∈ l).
    { destruct (g_collections g !! k) as [l|], (fz_contributions _ !! k) as [l'|]; simpl in Hk; try done; injection Hk as <-; [|by eauto..].
      apply elem_of_app in Hin as [?|?]; eauto. }
    destruct Hid as [(l & Hl & Hid)|(l & Hl & Hid)].
    + rewrite (gm_record g Hwf r Hr x nodes nm load Hlen); [by eapply H5|]. by eapply (wf_collections g Hwf).
    + destruct (frozen_collected (set_secrets g x) r nodes nm load k l id Hl Hid) as (b & Hb & E).
      unfold binding. simpl. rewrite list_lookup_fmap, Hb. simpl. by rewrite mark_role_record.
Qed.
End Frozen.

Lemma empty_typed : typed_seen empty_graph.
Proof. split; try done. intros l key id H. by apply not_elem_of_nil in H. Qed.

(** ** The checks *)

Lemma resolved_edges_same g g' b b' : g_visibility g' = g_visibility g → fb_origin b' = fb_origin b → fb_record b' = fb_record b →
  resolved_edges g' b' = resolved_edges g b.
Proof.
  intros Hv Ho Hr. unfold resolved_edges. rewrite Hr. apply list_bind_ext; [|done]. intros [index dep].
  apply list_omap_ext, Forall_Forall2_diag, Forall_forall. intros read _. unfold read_edge, edge_target, lookup. by rewrite Ho, Hv.
Qed.

Lemma no_alias_errors g declared b : check_bindings g declared = [] → b ∈ drop (dc_first_binding declared) (g_bindings g) → check_alias g b = [].
Proof.
  unfold check_bindings. rewrite !app_nil_iff. intros (_ & _ & Hcb & _) Hb. destruct (check_alias g b) as [|e l] eqn:E; [done|exfalso].
  assert (Hin : e ∈ @nil WiringError); [|by apply not_elem_of_nil in Hin]. rewrite <- Hcb. apply list_elem_of_bind. exists b.
  split; [rewrite E; set_solver|done].
Qed.

Section Checked.
Context (g : Graph) (declared : Declared) (Hfirst : dc_first_binding declared = 0).
Abbreviation gt := (g_tables g declared).
Abbreviation gc := (g_checked g declared).

Lemma checked_visibility : g_visibility gc = g_visibility gt.
Proof. reflexivity. Qed.

Lemma checked_lookup m key : lookup gc m key = lookup gt m key.
Proof. unfold lookup. by rewrite checked_visibility. Qed.

Lemma checked_edges id b : g_bindings gc !! id = Some b → fb_edges b = resolved_edges gc b.
Proof.
  intros Hb. destruct (Forall2_lookup_l _ _ _ _ _ (g_scopes_wiring g declared) Hb) as (x & Hx & (_ & Ho & Hr & ->)).
  destruct (Forall2_lookup_l _ _ _ _ _ (assign_roles_wiring (g_edges g declared)) Hx) as (y & Hy & (_ & Ho' & Hr' & ->)).
  simpl in Hy. rewrite list_lookup_imap in Hy. apply fmap_Some in Hy as (z & Hz & ->). unfold resolve_from in *. rewrite Hfirst in *.
  rewrite bool_decide_eq_true_2 in * by lia. simpl in *. symmetry. apply resolved_edges_same; [done|congruence..].
Qed.

Lemma checked_aliases id b target : check_bindings gt declared = [] → g_bindings gc !! id = Some b → br_recipe (fb_record b) = Alias target →
  ∃ t, lookup gc (fb_origin b) target = Some (VBinding t).
Proof.
  intros Hcb Hb Ht. destruct (Forall2_lookup_l _ _ _ _ _ (g_checked_records g declared) Hb) as (b0 & Hb0 & Ho & Hr).
  assert (Hal : check_alias gt b0 = []) by (apply (no_alias_errors gt declared); [done|]; rewrite Hfirst; by eapply list_elem_of_lookup_2).
  unfold check_alias in Hal. rewrite <- Hr, Ht, <- Ho in Hal. rewrite checked_lookup.
  destruct (lookup gt (fb_origin b) target) as [[t| |]|]; try done. by exists t.
Qed.

Lemma checked_typed : typed_seen g → typed_seen gc.
Proof.
  intros H. apply (typed_same gt); [reflexivity..| |by apply build_tables_typed]. intros id. unfold binding.
  destruct (g_bindings gc !! id) as [b|] eqn:E.
  - destruct (Forall2_lookup_l _ _ _ _ _ (g_checked_records g declared) E) as (b0 & Hb0 & _ & Hr). by rewrite Hb0.
  - apply lookup_ge_None in E. rewrite (Forall2_length _ _ _ (g_checked_records g declared)) in E. by rewrite (lookup_ge_None_2 _ _ E).
Qed.
End Checked.

Lemma injectable_root g root order : settled (set_root_order g root order) → points_resolved (set_root_order g root order) whole → typed_seen g →
  (∀ id b, g_bindings g !! id = Some b → fb_edges b = resolved_edges g b) →
  (∀ id b target, g_bindings g !! id = Some b → br_recipe (fb_record b) = Alias target → ∃ t, lookup g (fb_origin b) target = Some (VBinding t)) →
  injectable (set_root_order g root order).
Proof.
  intros Hse Hp [H1 _ _ H4 H5] He Ha. split; [done|done|..].
  - intros id b Hb. etrans; [by eapply He|]. by apply resolved_edges_same.
  - exact Ha.
  - exact H1.
  - exact H4.
  - intros key id. unfold collection. simpl. destruct (g_collections g !! _) as [ids|] eqn:E; [|intros Hid; by apply not_elem_of_nil in Hid].
    intros Hid. by apply (key_id_type (record_key _)), (H5 _ _ _ E Hid).
Qed.

Section Wired.
Context {M : Type}.
Context (module_identity : M → ModuleIdentity).
Context (module_settings : M → ModuleSettings).
Context (module_register : M → @ModuleNode M → @ModuleNode M).
Context (core : CoreTypes).

(** Wiring leaves a graph whose reads lead to what their keys name. *)
Lemma wire_injectable fuel (root : M) env plan g : keeps_identity module_register →
  wire module_identity module_settings module_register core fuel root env plan = Some (inr g) → injectable g.
Proof.
  intros Hkeep Hw. pose proof (wire_settled _ _ _ _ _ _ _ _ _ Hkeep Hw) as Hse. pose proof Hw as Hw'.
  unfold wire in Hw. destruct (register_from _ _ _ _ _ _ _ _) as [r|] eqn:Hreg; [|done].
  pose proof (register_placed _ _ _ _ _ _ _ _ _ Hkeep Hreg) as Hr.
  pose proof (wire_registered module_identity module_settings module_register core fuel root env plan r Hkeep Hreg) as Hwd. rewrite Hw' in Hwd. clear Hw'.
  set (r' := match we_timer env with Some _ => _ | None => _ end) in Hw.
  assert (Hr' : placed r') by (unfold r'; destruct (we_timer env); [by apply add_timer_placed|done]).
  pose proof (freeze_ok core empty_graph r' None plan empty_wf Hr') as Hfr.
  pose proof (freeze_typed core empty_graph r' None plan empty_wf Hr' empty_typed) as Hty.
  destruct (freeze core empty_graph r' None plan) as [[[gz declared] ms] bs]. simpl in Hty.
  destruct Hfr as [Hwf _ _ _ Hfm Hfb Hfh _]. simpl in Hfb.
  set (g1 := set_root_order gz (dc_root declared) (g_connect_order gz)) in Hw.
  assert (Hfirst : dc_first_binding declared ≤ length (g_bindings g1)) by (rewrite Hfb; simpl; lia).
  destruct (check_eq g1 declared Hfirst env ms bs) as [Hg He]. destruct (check g1 declared env ms bs) as [g2 steps]. simpl in Hg, He. subst g2.
  case_bool_decide as Hn; [|done]. apply nil_length_inv in Hn. apply some_inr_inj in Hw. subst g.
  destruct (proj1 He Hn) as (_ & [_ Hcb] & _). assert (Hty1 : typed_seen (g_checked g1 declared)) by (apply checked_typed; by apply (typed_same gz)).
  apply injectable_root; [done|apply Hwd|done| |].
  - intros id b Hb. by apply (checked_edges g1 declared Hfb id).
  - intros id b target Hb. by apply (checked_aliases g1 declared Hfb id).
Qed.
End Wired.
