(* ===== verification/Demo.v ===== *)
(** * Demo: concrete graphs

    An executable test of [graph_wf], a small app of two modules wired by [wire], and a graph with
    a construction cycle. The instances of the theorems are taken at them. *)

From S2P Require Import Prelude Text Key Graph WiringError Tarjan Cycles Order Redact Scopes Visibility Register Freeze Wire.
Local Open Scope string_scope.
Local Open Scope nat_scope.

(** ** The test *)

Definition graph_wfb (g : Graph) : bool :=
  let n := length (g_bindings g) in
  let below id := bool_decide (id < n) in
  bool_decide (fb_id <$> g_bindings g = seq 0 n)
  && bool_decide (fm_id <$> g_modules g = seq 0 (length (g_modules g)))
  && forallb (λ b, bool_decide (fb_origin b < length (g_modules g))) (g_bindings g)
  && forallb (λ b, forallb (λ e, match ed_target e with TBinding dep => below dep | _ => true end) (fb_edges b)) (g_bindings g)
  && forallb (λ kv : KeyId * list BindingId, forallb below kv.2) (map_to_list (g_collections g))
  && forallb (λ t : gmap KeyId (Key * Visible),
       forallb (λ kv : KeyId * (Key * Visible), match kv.2.2 with VBinding id => below id | _ => true end) (map_to_list t))
       (g_visibility g)
  && forallb (λ m, forallb below (fm_bindings m)) (g_modules g)
  && forallb (λ l : list (Key * BindingId), forallb (λ e : Key * BindingId, below e.2) l) (g_exported g)
  && forallb (λ h, below (hr_controller h)) (g_handlers g)
  && forallb (λ h, bool_decide (hr_module h < length (g_modules g))) (g_handlers g).

Lemma forallb_at {A} (f : A → bool) l x : forallb f l = true → x ∈ l → f x = true.
Proof. rewrite forallb_elem. auto. Qed.

Lemma ids_positions {A} (f : A → nat) (l : list A) i x : f <$> l = seq 0 (length l) → l !! i = Some x → f x = i.
Proof.
  intros H Hi. assert (E : (f <$> l) !! i = Some (f x)) by (rewrite list_lookup_fmap, Hi; done).
  rewrite H in E. apply lookup_seq in E. lia.
Qed.

Lemma graph_wfb_sound g : graph_wfb g = true → graph_wf g.
Proof.
  unfold graph_wfb. rewrite !andb_true_iff. intros (((((((((H1 & H2) & H3) & H4) & H5) & H6) & H7) & H8) & H9) & H10).
  apply bool_decide_eq_true in H1, H2. split.
  - intros i b. by apply ids_positions.
  - intros i m. by apply ids_positions.
  - intros i b Hb. eapply bool_decide_eq_true, (forallb_at _ _ _ H3). by eapply list_elem_of_lookup_2.
  - intros i b e dep Hb He Ht. pose proof (forallb_at _ _ _ H4 (list_elem_of_lookup_2 _ _ _ Hb)) as H.
    pose proof (forallb_at _ _ _ H He) as H'. simpl in H'. rewrite Ht in H'. by apply bool_decide_eq_true in H'.
  - intros k ids dep Hk Hd. apply elem_of_map_to_list in Hk. pose proof (forallb_at _ _ _ H5 Hk) as H.
    by eapply bool_decide_eq_true, (forallb_at _ _ _ H).
  - intros m key id Hl. unfold lookup in Hl. destruct (g_visibility g !! m) as [t|] eqn:Et; [|done].
    simpl in Hl. apply fmap_Some in Hl as ([k v] & Hk & Hv). simpl in Hv. subst v.
    apply elem_of_map_to_list in Hk. pose proof (forallb_at _ _ _ H6 (list_elem_of_lookup_2 _ _ _ Et)) as H.
    pose proof (forallb_at _ _ _ H Hk) as H'. by apply bool_decide_eq_true in H'.
  - intros m id Hm Hid. pose proof (forallb_at _ _ _ H7 Hm) as H. by eapply bool_decide_eq_true, (forallb_at _ _ _ H).
  - intros l key id Hl Hin. pose proof (forallb_at _ _ _ H8 Hl) as H. pose proof (forallb_at _ _ _ H Hin) as H'.
    by apply bool_decide_eq_true in H'.
  - intros h Hh. by eapply bool_decide_eq_true, (forallb_at _ _ _ H9).
  - intros h Hh. by eapply bool_decide_eq_true, (forallb_at _ _ _ H10).
Qed.

(** ** An app *)

Definition type_of (id : TypeId) (name : string) : TypeName := from_parts id name.
Definition loc (line : nat) : Location := {| loc_file := "app.rs"; loc_line := line; loc_column := 5 |}.

Definition Store : TypeName := type_of 10 "app::Store".
Definition Users : TypeName := type_of 11 "app::Users".
Definition Plugin : TypeName := type_of 12 "app::Plugin".
Definition Request : TypeName := type_of 13 "http::Request".
Definition Api : TypeName := type_of 14 "app::Api".
Definition Http : TypeName := type_of 15 "http::Http".
Definition Guard : TypeName := type_of 16 "dyn http::Guard".
Definition Audit : TypeName := type_of 17 "app::Audit".

Definition demo_core : CoreTypes := {|
  core_timer := type_of 1 "dyn ulo::Timer"; core_runtime := type_of 2 "dyn ulo::Runtime";
  core_timer_module := type_of 3 "ulo::graph::wire::TimerModule"; core_location := loc 1 |}.

Definition demo_env : WireEnv := {|
  we_timer := Some 7; we_runtime := None; we_knobs_set := []; we_zero_defaults := [] |}.

Definition reads (l : list (string * ReadKind)) : Dependencies := {|
  deps_list := (λ nk : string * ReadKind,
    {| dr_label := Field nk.1; dr_type_name := nk.1; dr_reads := [{| rd_kind := nk.2; rd_optional := false |}] |}) <$> l;
  deps_controller := None |}.

Definition provide (ty : TypeName) (scope : ScopeKind) (d : Dependencies) (line : nat) : BindingRecord :=
  binding_record (key_of ty) (tn_name ty) BSingle scope (Construct line) d (loc line).

Definition controller_record (ty : TypeName) (d : Dependencies) (line : nat) : BindingRecord := {|
  br_primary := key_of ty; br_qualifier := qualifier_none; br_built := tn_name ty; br_into_primary := None;
  br_also := []; br_kind := BSingle; br_scope := KAuto; br_controller := true; br_controller_type := Some ty;
  br_recipe := Construct line; br_dependencies := d; br_construct_bound := BoundDefault;
  br_construct_bound_at := None; br_ready := None; br_replaced_ready := []; br_hooks := []; br_constructs := true;
  br_location := loc line |}.

Definition contribution (ty : TypeName) (line : nat) : BindingRecord :=
  binding_record (key_of ty) (tn_name ty) BCollection KSingleton (Construct line) dependencies_default (loc line).

Inductive DemoModule := AppModule | StoreModule | AuditModule.

Definition demo_identity (m : DemoModule) : ModuleIdentity := {|
  mi_ty := match m with AppModule => 20 | StoreModule => 21 | AuditModule => 22 end;
  mi_ty_name := match m with AppModule => "app::App" | StoreModule => "app::StoreModule" | AuditModule => "app::AuditModule" end;
  mi_config := None; mi_qualifier := None; mi_label := None |}.

Definition demo_settings (m : DemoModule) : ModuleSettings := module_settings_new.

Definition demo_node (n : @ModuleNode DemoModule) (imports : list DemoModule) (bindings : list BindingRecord)
    (exports : list TypeName) (controllers : list ControllerRecord) : @ModuleNode DemoModule := {|
  nd_identity := nd_identity n; nd_global := nd_global n; nd_keyed := nd_keyed n; nd_nested_keyed := nd_nested_keyed n;
  nd_inherited_keyed := nd_inherited_keyed n; nd_imports := (λ m, (m, loc 30)) <$> imports; nd_bindings := bindings;
  nd_enhancers := nd_enhancers n; nd_exports := (λ ty, {| ex_key := key_of ty; ex_reexport := false; ex_location := loc 31 |}) <$> exports;
  nd_controllers := controllers; nd_inputs := nd_inputs n; nd_hooks := nd_hooks n; nd_meta := nd_meta n;
  nd_secrets := nd_secrets n; nd_failures := nd_failures n; nd_settings := nd_settings n; nd_site := nd_site n |}.

Definition demo_handler : HandlerDecl := {|
  hd_transport := Http; hd_key := "http"; hd_reads_prefix := true;
  hd_inputs := [{| ik_key := key_of Request; ik_also := []; ik_location := loc 40 |}];
  hd_name := "list"; hd_role_keys := [key_of Guard]; hd_enhancer_deps := []; hd_dependencies := dependencies_default |}.

(** The app imports the store, whose [Store] its [Users] reads; [Api], a controller, reads [Users]
    and the request. The audit module is loaded later. *)
Definition demo_register (m : DemoModule) (n : @ModuleNode DemoModule) : @ModuleNode DemoModule :=
  match m with
  | AppModule =>
      demo_node n [StoreModule]
        [provide Users KAuto (reads [("store", Single (key_of Store)); ("plugins", Collection (key_of Plugin))]) 32;
         controller_record Api (reads [("users", Single (key_of Users)); ("request", Single (key_of Request))]) 33] []
        [{| ct_binding := 1; ct_mount := [demo_handler]; ct_prefix := None |}]
  | StoreModule =>
      demo_node n [] [provide Store KSingleton dependencies_default 34; contribution Plugin 35] [Store] []
  | AuditModule =>
      demo_node n [StoreModule] [provide Audit KAuto (reads [("store", Single (key_of Store))]) 36] [] []
  end.

Definition demo_wiring : option (list WiringError + Graph) :=
  wire demo_identity demo_settings demo_register demo_core 4 AppModule demo_env None.

Definition demo_graph : Graph := match demo_wiring with Some (inr g) => g | _ => empty_graph end.

Lemma demo_wired : demo_wiring = Some (inr demo_graph).
Proof. vm_compute. reflexivity. Qed.

Lemma demo_wf : graph_wf demo_graph.
Proof. apply graph_wfb_sound. vm_compute. reflexivity. Qed.

(** What a pass over the whole graph declares: the store's export. *)
Definition whole_app : Declared := {|
  dc_root := 2; dc_first_module := 0; dc_first_binding := 0; dc_first_handler := 0;
  dc_exports := [(1, {| ex_key := key_of Store; ex_reexport := false; ex_location := loc 31 |})];
  dc_inputs := []; dc_transport_inputs := []; dc_meta := [] |}.

(** ** A cycle *)

Definition link (scope : ScopeKind) (id : BindingId) (deps : list BindingId) : FrozenBinding := {|
  fb_id := id; fb_origin := 0; fb_record := provide (type_of (50 + id) "app::Link") scope dependencies_default 50;
  fb_role := Provider; fb_effective := ESingleton; fb_needs_execution := false;
  fb_edges := (λ d, {| ed_target := TBinding d; ed_dependency := 0; ed_optional := false |}) <$> deps |}.

Definition linked (bs : list FrozenBinding) : Graph := {|
  g_modules := [no_module];
  g_bindings := bs;
  g_visibility := []; g_collections := ∅; g_inputs := ∅; g_by_identity := ∅; g_root := 0; g_connect_order := [];
  g_handlers := []; g_closures := ∅; g_secrets := []; g_exported := [] |}.

Definition loop_graph : Graph :=
  linked [link KSingleton 0 [1]; link KSingleton 1 [3]; link KSingleton 2 [1; 3]; link KSingleton 3 [2]].

Lemma loop_wf : graph_wf loop_graph.
Proof. apply graph_wfb_sound. vm_compute. reflexivity. Qed.

(** ** A singleton that reads an execution, through a transient *)

Definition captive_graph : Graph :=
  linked [link KSingleton 0 [1]; link KTransient 1 [2]; link KPerExecution 2 []].

Lemma captive_wf : graph_wf captive_graph.
Proof. apply graph_wfb_sound. vm_compute. reflexivity. Qed.
