(* ===== verification/GraphTheorems.v ===== *)
(** * GraphTheorems: cycles and orders

    The theorems on the algorithms over ids: strongly connected components, the cycles reported,
    collection order, what a singleton awaits, and connect order. *)

From S2P Require Import Prelude Text Key Graph WiringError Tarjan Cycles Order Register Freeze Wire Demo.
Local Open Scope nat_scope.

(** The cycle a binding on a cycle is reported with. *)
Lemma cycle_covered g x : graph_wf g → tc (depends g) x x →
  ∃ start l, Cycle (cycle_step g <$> (start :: l ++ [start])) ∈ dependency_cycles g
    ∧ walk (depends g) (start :: l ++ [start])
    ∧ rtc (depends g) x start ∧ rtc (depends g) start x.
Proof.
  intros Hwf Hx. apply (tc_depends g Hwf) in Hx.
  assert (Hlt : x < count (dependency_successors g)) by by apply tc_last in Hx as (y & _ & Hy).
  destruct (scc_member _ x Hlt) as (i & c & Hi & Hc). apply list_elem_of_lookup_2 in Hi.
  assert (Hcyc : cyclic (dependency_successors g) c = true) by by eapply (cyclic_spec _ c x).
  destruct (cycle_through_spec _ c Hi Hcyc) as (start & l & Hs & _ & Hct & Hw & _).
  exists start, l. split; [|split].
  - unfold dependency_cycles. apply list_elem_of_fmap. exists c. rewrite Hct. split; [done|].
    apply elem_of_filterb. by split.
  - eapply walk_impl; [|exact Hw]. intros a b _ _. by apply edge_depends.
  - destruct (proj1 (scc_spec _ x start Hlt) (ex_intro _ c (conj Hi (conj Hc Hs)))) as [H1 H2].
    assert (Hr : ∀ a b, rtc (edge (dependency_successors g)) a b → rtc (depends g) a b).
    { intros a b. induction 1 as [|a' y b' Hay _ IH]; [done|]. eapply rtc_l; [by apply edge_depends|done]. }
    auto.
Qed.

(** The components Tarjan's algorithm answers, run with an explicit stack, are the strongly
    connected components of the graph: each vertex is in one of them, once, and two vertices share
    one exactly when each is reached from the other. *)
Theorem strongly_connected_correct (successors : list (list nat)) :
  concat (strongly_connected successors) ≡ₚ seq 0 (count successors)
  ∧ ∀ u v, u < count successors →
      (∃ c, c ∈ strongly_connected successors ∧ u ∈ c ∧ v ∈ c)
      ↔ rtc (edge successors) u v ∧ rtc (edge successors) v u.
Proof. split; [apply scc_partition|]. intros u v. apply scc_spec. Qed.

(** C26: the cycle pass of the wiring reports nothing exactly when no construction waits for itself;
    and every binding that does wait for itself is on a cycle with the start of a cycle reported. *)
Theorem dependency_cycles_complete g (Hwf : graph_wf g) :
  (dependency_cycles g = [] ↔ acyclic (depends g))
  ∧ ∀ x, tc (depends g) x x →
      ∃ start l, Cycle (cycle_step g <$> (start :: l ++ [start])) ∈ dependency_cycles g
        ∧ walk (depends g) (start :: l ++ [start])
        ∧ rtc (depends g) x start ∧ rtc (depends g) start x.
Proof. split; [by apply no_cycles_acyclic|]. intros x. by apply cycle_covered. Qed.

Lemma dependency_cycles_complete_witness : dependency_cycles demo_graph = [] ∧ acyclic (depends demo_graph).
Proof.
  assert (H : dependency_cycles demo_graph = []) by (vm_compute; reflexivity).
  split; [exact H|]. exact (proj1 (proj1 (dependency_cycles_complete demo_graph demo_wf)) H).
Defined.

(** a cycle the wiring reports is one: each binding printed waits for the next and the first is
    printed again at the end; it starts at the smallest binding of those that wait for each other,
    and no cycle through its start is shorter. *)
Theorem reported_cycle_shortest g path (Hwf : graph_wf g) : Cycle path ∈ dependency_cycles g →
  ∃ start l, path = cycle_step g <$> (start :: l ++ [start])
    ∧ walk (depends g) (start :: l ++ [start])
    ∧ (∀ v, tc (depends g) start v → tc (depends g) v start → start ≤ v)
    ∧ ∀ k, walk (depends g) (start :: k ++ [start]) → length l ≤ length k.
Proof. by apply reported_cycle_real. Qed.

Lemma reported_cycle_shortest_witness :
  ∃ start l, (cycle_step loop_graph <$> [1; 3; 2; 1]) = cycle_step loop_graph <$> (start :: l ++ [start])
    ∧ ∀ k, walk (depends loop_graph) (start :: k ++ [start]) → length l ≤ length k.
Proof.
  destruct (reported_cycle_shortest loop_graph (cycle_step loop_graph <$> [1; 3; 2; 1]) loop_wf) as (s & l & H1 & _ & _ & H4).
  - vm_compute. left.
  - exists s, l. split; [exact H1|exact H4].
Defined.

(** Collection order is a depth-first post-order of the imports: each node reached from the
    root is placed once, and an import that is not placed before its importer reaches it again, so
    it closes a cycle. *)
Theorem collection_order_correct count imports : 0 < count →
  NoDup (collection_order count imports)
  ∧ (∀ v, v ∈ collection_order count imports ↔ rtc (imports_new count imports) 0 v)
  ∧ (∀ pre u post, collection_order count imports = pre ++ u :: post →
       ∀ v, imports_new count imports u v → v ∈ pre ∨ rtc (imports_new count imports) v u).
Proof. apply collection_order_spec. Qed.

Lemma collection_order_correct_witness :
  collection_order 3 [[New 1; New 2]; [New 2]; []] = [2; 1; 0]
  ∧ NoDup (collection_order 3 [[New 1; New 2]; [New 2]; []]).
Proof. split; [reflexivity|]. apply (collection_order_correct 3 [[New 1; New 2]; [New 2]; []]). lia. Defined.

(** A singleton waits for each singleton it reads, directly or through transients and the
    aliases built at the read, and each that its readiness check reads; each is listed once and it
    never waits for itself. *)
Theorem singleton_deps_correct g id :
  NoDup (singleton_deps g id)
  ∧ ∀ d, d ∈ singleton_deps g id ↔ awaits g id d ∧ d ≠ id ∧ is_singleton g d = true.
Proof. apply singleton_deps_spec. Qed.

(** C27: connect order holds every singleton once, and a singleton after every singleton it awaits;
    of those whose dependencies are placed, the smallest id runs next. *)
Theorem connect_order_correct g (Hwf : graph_wf g) (Hac : acyclic (depends g)) :
  connect_order g ≡ₚ filterb (is_singleton g) (seq 0 (length (g_bindings g)))
  ∧ ∀ pre x post, connect_order g = pre ++ x :: post →
      (∀ d, awaits g x d → is_singleton g d = true → d ∈ pre)
      ∧ ∀ y, is_singleton g y = true → y ∉ pre →
          (∀ d, awaits g y d → is_singleton g d = true → d ∈ pre) → x ≤ y.
Proof. split; [by apply connect_order_perm|]. intros pre x post. by apply connect_order_sorted. Qed.

Lemma connect_order_correct_witness :
  connect_order demo_graph = [0; 1; 2; 3]
  ∧ ∀ d, awaits demo_graph 3 d → is_singleton demo_graph d = true → d ∈ [0; 1; 2].
Proof.
  assert (E : connect_order demo_graph = [0; 1; 2; 3]) by (vm_compute; reflexivity). split; [exact E|].
  assert (Hac : acyclic (depends demo_graph)).
  { apply (no_cycles_acyclic demo_graph demo_wf). vm_compute. reflexivity. }
  apply (connect_order_correct demo_graph demo_wf Hac) with (post := []). exact E.
Defined.
