(* ===== verification/ScopeTheorems.v ===== *)
(** * ScopeTheorems: executions and inputs

    The theorems on the scope pass: which bindings need an execution and what each is built as,
    what the scope check refuses and how it explains it, and which inputs a handler reads. *)

From S2P Require Import Prelude Text Key Graph WiringError Cycles Scopes ScopesFacts InputsFacts Register Freeze Wire Demo.
Local Open Scope nat_scope.

(** C28: the queue of the scope pass computes the need as the design states it: a binding needs an
    execution when it is declared per execution or reads execution data, or when it reads one that
    does and passes it on (per execution, transient, or an [Auto] controller or enhancer), and no
    others. Each binding is then built as its declared scope says, an [Auto] controller or enhancer
    per execution when it needs one. *)
Theorem needs_execution_correct g id (Hwf : graph_wf g) (Hid : id < length (g_bindings g)) :
  let b := binding (needs_execution g) id in
  same_declaration b (binding g id)
  ∧ (fb_needs_execution b = true ↔ needs g id)
  ∧ fb_effective b = built_as (binding g id) (fb_needs_execution b).
Proof. by apply needs_execution_spec. Qed.

Lemma needs_execution_correct_witness :
  fb_needs_execution (binding (needs_execution demo_graph) 4) = true ∧ needs demo_graph 4.
Proof.
  assert (E : fb_needs_execution (binding (needs_execution demo_graph) 4) = true) by (vm_compute; reflexivity).
  split; [exact E|]. refine (proj1 (proj1 (proj2 (needs_execution_correct demo_graph 4 demo_wf _))) E).
  apply (bool_decide_unpack _). vm_compute. exact I.
Defined.

Lemma scope_refused_iff g id : graph_wf g → id < length (g_bindings g) →
  scope_refused (binding (needs_execution g) id) = true ↔
  fb_effective (binding (needs_execution g) id) = ESingleton ∧ needs g id.
Proof.
  intros Hwf Hid. destruct (needs_execution_spec g Hwf id Hid) as ((_ & _ & Hr & Hrole & _) & Hn & He).
  unfold scope_refused. rewrite He, Hr, Hrole, andb_true_iff, Hn. unfold built_as.
  destruct (fb_needs_execution (binding (needs_execution g) id)) eqn:E.
  - assert (needs g id) by tauto. destruct (br_scope _); simpl; try (split; intros [? ?]; done).
    case_bool_decide; simpl; split; intros [? ?]; done.
  - assert (¬ needs g id) by (intros H%Hn; done). tauto.
Qed.

(** The scope check passes a graph exactly when nothing built once needs an execution and
    nothing built per execution has hooks or a readiness check; an alias and a failed value are
    exempt. *)
Theorem check_scopes_exact g (Hwf : graph_wf g) :
  check_scopes (needs_execution g) = [] ↔
  ∀ id, id < length (g_bindings g) →
    let b := binding (needs_execution g) id in
    is_alias_or_failed (br_recipe (fb_record b)) = false →
    (fb_effective b = ESingleton → ¬ needs g id)
    ∧ (fb_effective b = EPerExecution → br_hooks (fb_record b) = [] ∧ br_ready (fb_record b) = None).
Proof.
  unfold check_scopes. rewrite bind_nil_iff.
  assert (Hel : ∀ P : FrozenBinding → Prop, (∀ b, b ∈ g_bindings (needs_execution g) → P b) ↔
    ∀ id, id < length (g_bindings g) → P (binding (needs_execution g) id)).
  { intros P. rewrite <- pass_length. split.
    - intros H id Hid. apply lookup_lt_is_Some in Hid as [b Hb]. rewrite (binding_Some _ _ _ Hb).
      apply H. by eapply list_elem_of_lookup_2.
    - intros H b (id & Hb)%list_elem_of_lookup. rewrite <- (binding_Some _ _ _ Hb). apply H. by eapply lookup_lt_Some. }
  rewrite Hel. apply forall_proper. intros id. apply forall_proper. intros Hid.
  pose proof (scope_refused_iff g id Hwf Hid) as Href. unfold scope_errors. cbv zeta.
  destruct (is_alias_or_failed _); [split; [by intros|done]|].
  destruct (scope_refused (binding (needs_execution g) id)) eqn:Er.
  - split; [done|]. intros H. exfalso. destruct (proj1 Href eq_refl) as [H1 H2]. by apply (H eq_refl).
  - assert (Hs : fb_effective (binding (needs_execution g) id) = ESingleton → ¬ needs g id).
    { intros H1 H2. assert (false = true) by (apply Href; tauto). done. }
    destruct (bool_decide (fb_effective _ = EPerExecution)) eqn:Ee; simpl.
    + apply bool_decide_eq_true in Ee. rewrite Ee.
      case_bool_decide as Eh; simpl; [rewrite Eh|].
      * destruct (br_ready _); naive_solver.
      * split; [done|]. intros H. by destruct (proj2 (H eq_refl) eq_refl).
    + apply bool_decide_eq_false in Ee. tauto.
Qed.

Lemma check_scopes_exact_witness : check_scopes (needs_execution demo_graph) = [] ∧ ¬ needs demo_graph 3.
Proof.
  assert (E : check_scopes (needs_execution demo_graph) = []) by (vm_compute; reflexivity).
  split; [exact E|]. refine (proj1 (proj1 (check_scopes_exact demo_graph demo_wf) E 3 _ _) _).
  - apply (bool_decide_unpack _). vm_compute. exact I.
  - vm_compute. reflexivity.
  - vm_compute. reflexivity.
Defined.

(** a refused binding's report explains it: the path printed is a chain of dependencies, each
    passing the need on, from the binding to one that reads execution data or is declared per
    execution; or the binding itself reads execution data. *)
Theorem violation_path_real g id (Hwf : graph_wf g) (Hid : id < length (g_bindings g)) :
  scope_refused (binding (needs_execution g) id) = true →
  (execution_path (needs_execution g) id = [id] ∧ is_Some (direct_execution_edge (needs_execution g) id))
  ∨ good_path (needs_execution g) id (execution_path (needs_execution g) id).
Proof. by apply violation_path. Qed.

Lemma violation_path_real_witness :
  execution_path (needs_execution captive_graph) 0 = [0; 1; 2]
  ∧ (([0; 1; 2] = [0] ∧ is_Some (direct_execution_edge (needs_execution captive_graph) 0))
     ∨ good_path (needs_execution captive_graph) 0 [0; 1; 2]).
Proof.
  assert (E : execution_path (needs_execution captive_graph) 0 = [0; 1; 2]) by (vm_compute; reflexivity).
  split; [exact E|]. rewrite <- E. apply (violation_path_real captive_graph 0 captive_wf).
  - apply (bool_decide_unpack _). vm_compute. exact I.
  - vm_compute. reflexivity.
Defined.

(** A wiring finds no input unseeded exactly when every input a handler's execution reads
    without [Option], in its parameters, its enhancer closures or anything it builds in the
    execution, is declared with the handler's transport among its seeders. *)
Theorem check_inputs_exact g (Hwf : graph_wf g) :
  check_inputs g = [] ↔ ∀ h, h ∈ g_handlers g → ∀ k, reads_input g h k → seeded g h k.
Proof. by apply check_inputs_spec. Qed.

Lemma check_inputs_exact_witness :
  check_inputs demo_graph = [] ∧ ∀ h, h ∈ g_handlers demo_graph → ∀ k, reads_input demo_graph h k → seeded demo_graph h k.
Proof.
  assert (E : check_inputs demo_graph = []) by (vm_compute; reflexivity).
  split; [exact E|]. exact (proj1 (check_inputs_exact demo_graph demo_wf) E).
Defined.
