(* ===== verification/VisibilityTheorems.v ===== *)
(** * VisibilityTheorems: what a module sees and exports

    The theorems on the visibility tables, on the exports behind them, and on the resolution of
    injection points against them. *)

From S2P Require Import Prelude Text Key Graph WiringError Cycles Scopes ScopesFacts Visibility VisibilityFacts Register Freeze FreezeFacts ResolveFacts Wire Demo.
Local Open Scope nat_scope.

(** ** Sources *)

(** [id] reaches the module under [key]: its own binding, or one an import or a global exports. *)
Definition source_of (g : Graph) (m : ModuleId) (key : Key) (id : BindingId) : Prop :=
  own_binding g m key = Some id
  ∨ ∃ ex e, ex ∈ exporters g m ∧ e ∈ exported_by g ex ∧ key_id e.1 = key_id key ∧ e.2 = id.

Lemma push_source_nodup ex l id : NoDup l.*2 → NoDup (push_source ex l id).*2.
Proof.
  intros H. unfold push_source. destruct (existsb _ l) eqn:E; [done|]. rewrite fmap_app. simpl.
  apply NoDup_app. split; [done|]. split; [|apply NoDup_singleton].
  intros x Hx ->%list_elem_of_singleton. apply list_elem_of_fmap in Hx as (s & -> & Hs).
  rewrite existsb_false in E. specialize (E s Hs). apply bool_decide_eq_false in E. done.
Qed.

Lemma sources_nodup g m key : NoDup (sources g m key).*2.
Proof.
  unfold sources.
  assert (H : ∀ l acc, NoDup acc.*2 → NoDup (foldl (λ found exporter,
    foldl (λ found e, if key_eqb e.1 key then push_source exporter found e.2 else found) found (exported_by g exporter)) acc l).*2).
  { induction l as [|ex l IH]; intros acc Hacc; simpl; [done|]. apply IH. generalize (exported_by g ex). intros es.
    revert acc Hacc. induction es as [|e es IHes]; intros acc Hacc; simpl; [done|]. apply IHes.
    destruct (key_eqb _ _); [by apply push_source_nodup|done]. }
  apply H. destruct (own_binding g m key); simpl; [apply NoDup_singleton|constructor].
Qed.

(** What a module's table answers for a key is what its sources are: the binding, when exactly
    one binding reaches the module under the key; every one of them, when there are several; an
    input declared under the key when there is none; and nothing otherwise. *)
Theorem table_answers_sources g declared m key :
  dc_first_module declared ≤ m < length (g_modules g) →
  let g' := build_tables g declared in
  match lookup g' m key with
  | Some (VBinding id) => ∀ i, source_of g' m key i ↔ i = id
  | Some (VAmbiguous l) => 2 ≤ length l ∧ NoDup l.*2 ∧ ∀ i, source_of g' m key i ↔ i ∈ l.*2
  | Some (VInput input) => (∀ i, ¬ source_of g' m key i) ∧ ∃ decl, g_inputs g !! key_id key = Some decl ∧ input = in_key decl
  | None => (∀ i, ¬ source_of g' m key i) ∧ g_inputs g !! key_id key = None
  end.
Proof.
  intros Hm g'. unfold g'. rewrite built_lookup by done. fold g'.
  assert (Hs : ∀ i, source_of g' m key i ↔ i ∈ (sources g' m key).*2) by (intros i; symmetry; apply sources_ids).
  pose proof (sources_nodup g' m key) as Hnd.
  destruct (sources g' m key) as [|[a id] [|p l]] eqn:E.
  - assert (Hno : ∀ i, ¬ source_of g' m key i) by (intros i Hi%Hs; by apply not_elem_of_nil in Hi).
    destruct (g_inputs g !! key_id key) as [decl|]; simpl; eauto.
  - intros i. rewrite Hs. simpl. by rewrite list_elem_of_singleton.
  - split; [simpl; lia|]. done.
Qed.

Lemma table_answers_sources_witness :
  lookup (build_tables demo_graph whole_app) 2 (key_of Store) = Some (VBinding 1)
  ∧ ∀ i, source_of (build_tables demo_graph whole_app) 2 (key_of Store) i ↔ i = 1.
Proof.
  assert (E : lookup (build_tables demo_graph whole_app) 2 (key_of Store) = Some (VBinding 1)) by (vm_compute; reflexivity).
  split; [exact E|]. opose proof (table_answers_sources demo_graph whole_app 2 (key_of Store) _) as H.
  - apply (bool_decide_unpack _). vm_compute. exact I.
  - cbv zeta in H. rewrite E in H. exact H.
Defined.

(** ** Exports *)

Lemma push_exports_inv l : ∀ exported m e, e ∈ default [] (foldl push_export exported l !! m) →
  e ∈ default [] (exported !! m) ∨ (m, e.1, e.2) ∈ l.
Proof.
  induction l as [|[[j k] id] l IH]; intros exported m e He; [by left|]. simpl in He.
  apply IH in He as [He|He]; [|right; by right].
  destruct (decide (j = m)) as [->|Hne]; [|rewrite list_lookup_alter_ne in He by done; by left].
  rewrite list_lookup_alter_eq in He. destruct (exported !! m) as [x|]; [|by apply not_elem_of_nil in He].
  simpl in He. apply elem_of_app in He as [He|He]; [by left|]. apply list_elem_of_singleton in He as ->.
  right. by left.
Qed.

(** What a declared export of a module may be resolved to. *)
Definition export_of (g : Graph) (declared : Declared) (m : ModuleId) (e : Key * BindingId) : Prop :=
  ∃ x, (m, x) ∈ dc_exports declared ∧ e.1 = boundary_key (fm_keyed (module g m)) (ex_key x)
    ∧ if ex_reexport x then source_of (build_tables g declared) m (ex_key x) e.2 else own_binding g m (ex_key x) = Some e.2.

Lemma rounds_sound g pending exported k :
  let s := iterate (reexport_round g) k (pending, exported) in
  exports_sub exported s.2
  ∧ ∀ m e, e ∈ default [] (s.2 !! m) → e ∈ default [] (exported !! m) ∨
      ∃ x, (m, x) ∈ pending ∧ e.1 = boundary_key (fm_keyed (module g m)) (ex_key x) ∧ e.2 ∈ (sources (view g s.2) m (ex_key x)).*2.
Proof.
  intros s.
  assert (H : (∀ me, me ∈ s.1 → me ∈ pending) ∧ exports_sub exported s.2 ∧ ∀ m e, e ∈ default [] (s.2 !! m) →
    e ∈ default [] (exported !! m) ∨
      ∃ x, (m, x) ∈ pending ∧ e.1 = boundary_key (fm_keyed (module g m)) (ex_key x) ∧ e.2 ∈ (sources (view g s.2) m (ex_key x)).*2);
    [|tauto].
  apply (iterate_invariant (reexport_round g)
    (λ s : list (ModuleId * ExportRecord) * list (list (Key * BindingId)), (∀ me, me ∈ s.1 → me ∈ pending)
       ∧ exports_sub exported s.2 ∧ ∀ m e, e ∈ default [] (s.2 !! m) → e ∈ default [] (exported !! m) ∨
      ∃ x, (m, x) ∈ pending ∧ e.1 = boundary_key (fm_keyed (module g m)) (ex_key x) ∧ e.2 ∈ (sources (view g s.2) m (ex_key x)).*2)).
  - intros [p ex] s' (Hp & Hsub & Hs). simpl in *. case_bool_decide; [done|]. intros [= <-]. simpl.
    set (resolved := omap (resolve_reexport _) p). pose proof (push_exports_sub resolved ex) as Hsub'.
    split; [intros me [_ Hme]%elem_of_filterb; by apply Hp|]. split; [by etrans|].
    intros m e [He|He]%push_exports_inv.
    + destruct (Hs m e He) as [|(x & Hx & Hk & Hi)]; [by left|right]. exists x. split; [done|]. split; [done|].
      by eapply sources_mono.
    + right. apply list_elem_of_omap in He as ([m' x] & Hx & Hr).
      apply resolve_Some in Hr as (a & id & Hsrc & [= -> Hk ->]). exists x. split; [by apply Hp|]. split; [done|].
      eapply sources_mono; [exact Hsub'|]. change (set_tables g (g_visibility g) ex) with (view g ex) in Hsrc.
      rewrite Hsrc. simpl. by left.
  - split; [done|]. split; [done|]. intros m e He. by left.
Qed.

Lemma exported_sound g declared m e : e ∈ exported_by (build_tables g declared) m →
  e ∈ exported_by g m ∨ export_of g declared m e.
Proof.
  intros He. change (e ∈ default [] (exports_all g declared !! m)) in He.
  destruct (rounds_sound (set_tables (set_tables g (resize (length (g_modules g)) ∅ (g_visibility g)) (resize (length (g_modules g)) [] (g_exported g)))
      (resize (length (g_modules g)) ∅ (g_visibility g)) (exports_own g declared))
    (filterb (λ me, ex_reexport me.2) (dc_exports declared)) (exports_own g declared)
    (length (filterb (λ me, ex_reexport me.2) (dc_exports declared)))) as [_ Hs].
  destruct (Hs m e He) as [Hown|(x & Hx & Hk & Hi)].
  - apply push_exports_inv in Hown as [Hb|Hown].
    + left. unfold exported_by. destruct (resize _ _ _ !! m) as [l|] eqn:E; [|by apply not_elem_of_nil in Hb].
      apply resize_lookup_Some in E as [->|E]; [by apply not_elem_of_nil in Hb|]. by rewrite E.
    + right. apply list_elem_of_omap in Hown as ([m' x] & Hx & Hr). destruct (ex_reexport x) eqn:Ex; [done|].
      apply fmap_Some in Hr as (id & Hid & [= -> Hk Hi]). exists x. rewrite Ex. split; [done|]. split; [done|].
      rewrite Hi. exact Hid.
  - right. apply elem_of_filterb in Hx as [Hre Hx]. simpl in Hre. exists x. rewrite Hre. split; [done|]. split; [done|].
    apply sources_ids. exact Hi.
Qed.

(** what a module exports after the rounds of re-export: everything it declares of its own
    bindings and everything it re-exports and sees exactly once, through any number of other
    modules' re-exports, under the key at its boundary; and nothing but that and what it exported
    before. *)
Theorem exports_correct g declared m
    (Hrange : ∀ m e, (m, e) ∈ dc_exports declared → m < length (g_modules g)) :
  (∀ e, e ∈ exported_by (build_tables g declared) m → e ∈ exported_by g m ∨ export_of g declared m e)
  ∧ (∀ x id, (m, x) ∈ dc_exports declared → ex_reexport x = false → own_binding g m (ex_key x) = Some id →
       (boundary_key (fm_keyed (module g m)) (ex_key x), id) ∈ exported_by (build_tables g declared) m)
  ∧ (∀ x id, (m, x) ∈ dc_exports declared → ex_reexport x = true → dc_first_module declared ≤ m →
       lookup (build_tables g declared) m (ex_key x) = Some (VBinding id) →
       (boundary_key (fm_keyed (module g m)) (ex_key x), id) ∈ exported_by (build_tables g declared) m).
Proof.
  split; [intros e; apply exported_sound|]. split; intros x id.
  - by apply own_exported.
  - by apply reexport_exported.
Qed.

Lemma exports_correct_witness :
  (key_of Store, 1) ∈ exported_by (build_tables demo_graph whole_app) 1
  ∧ ∀ e, e ∈ exported_by (build_tables demo_graph whole_app) 1 → e ∈ exported_by demo_graph 1 ∨ export_of demo_graph whole_app 1 e.
Proof.
  assert (H : ∀ m e, (m, e) ∈ dc_exports whole_app → m < length (g_modules demo_graph)).
  { intros m e Hm. apply list_elem_of_singleton in Hm. injection Hm as -> ->. apply (bool_decide_unpack _). vm_compute. exact I. }
  destruct (exports_correct demo_graph whole_app 1 H) as (H1 & H2 & _). split; [|exact H1].
  apply (H2 {| ex_key := key_of Store; ex_reexport := false; ex_location := loc 31 |} 1).
  - left.
  - reflexivity.
  - vm_compute. reflexivity.
Defined.

(** ** Resolution *)

(** The dependency step reports nothing exactly when every injection point of what it wires is
    resolved: each single read of a binding, of a readiness check, of a hook, of module metadata,
    of a handler and of its enhancers is seen once or is an input, or is optional and not seen;
    each handler's controller is not ambiguous, and, for a whole app, nothing the root sees is. The
    edges it leaves are the reads that resolved. *)
Theorem resolve_dependencies_exact g declared (Hfirst : dc_first_binding declared ≤ length (g_bindings g)) :
  ((resolve_dependencies g declared).2 = [] ↔ points_resolved g declared)
  ∧ ∀ id b, g_bindings (resolve_dependencies g declared).1 !! id = Some b →
      dc_first_binding declared ≤ id → fb_edges b = resolved_edges g (binding g id).
Proof.
  split; [by apply resolve_dependencies_spec|]. intros id b. rewrite resolve_dependencies_graph by done. simpl.
  rewrite list_lookup_imap. intros (b0 & Hb0 & ->)%fmap_Some Hid. unfold resolve_from.
  rewrite bool_decide_eq_true_2 by done. simpl. by rewrite (binding_Some g id b0).
Qed.

Lemma resolve_dependencies_exact_witness :
  (resolve_dependencies demo_graph whole_app).2 = [] ∧ points_resolved demo_graph whole_app.
Proof.
  assert (E : (resolve_dependencies demo_graph whole_app).2 = []) by (vm_compute; reflexivity).
  split; [exact E|]. refine (proj1 (proj1 (resolve_dependencies_exact demo_graph whole_app _)) E).
  apply Nat.le_0_l.
Defined.
