(* ===== verification/WireTheorems.v ===== *)
(** * WireTheorems: the registration walk and the wiring pass *)

From S2P Require Import Prelude Text Key Graph WiringError Tarjan Cycles Order Redact Scopes ScopesFacts InputsFacts Visibility VisibilityFacts Register RegisterFacts Freeze FreezeFacts ResolveFacts Wire WireFacts LoadFacts InjectFacts Demo.
Local Open Scope nat_scope.

(** The demo app's modules are a walk of three identities. *)
Definition demo_ids : gset (nat * option (nat * string) * option nat) :=
  {[(20, None, None); (21, None, None); (22, None, None)]}.

Lemma demo_keeps : keeps_identity demo_register.
Proof. intros [] n; reflexivity. Qed.

Lemma demo_walkable : walkable demo_identity demo_register None demo_ids (λ _, True).
Proof. split; [|done|done]. intros [] _; apply (bool_decide_unpack _); vm_compute; exact I. Qed.

(** C29: the registration walk over modules of finitely many identities ends, and what it leaves is
    the registry of what the root imports. The root is registered first, unless the base graph has
    it; every node is what [register] of a module met on the way wrote, and the modules that one
    imports are all registered, in the order it imports them, as themselves, as the plan's
    replacement, or as a module of the base graph; no other node is there. Every identity is
    registered once and found, every import is of a node or of the base graph, and collection order
    holds each node once, after the nodes it imports unless they import it back. *)
Theorem registration_correct {M} (module_identity : M → ModuleIdentity) (module_settings : M → ModuleSettings)
    (module_register : M → ModuleNode → ModuleNode) base plan ids walks fuel m site
    (Hkeep : keeps_identity module_register)
    (Hwalk : walkable module_identity module_register plan ids walks) :
  walks m → size ids < fuel →
  ∃ r, register_from module_identity module_settings module_register base plan fuel m site = Some r
    ∧ registered r ∧ walked module_identity module_settings module_register base plan m r.
Proof. intros. by eapply register_from_ends. Qed.

Lemma registration_correct_witness :
  ∃ r, register_from demo_identity demo_settings demo_register None None 4 AppModule SiteRoot = Some r
    ∧ registered r ∧ walked demo_identity demo_settings demo_register None None AppModule r.
Proof.
  refine (registration_correct demo_identity demo_settings demo_register None None demo_ids (λ _, True) 4 AppModule SiteRoot
    demo_keeps demo_walkable I _). apply (bool_decide_unpack _). vm_compute. exact I.
Defined.

(** C1: wiring an app ends, with errors or with a graph that is fit to build: its ids are in range,
    every injection point is resolved, no construction waits for itself, nothing built once needs
    an execution, every input a handler reads is seeded by its transport, and the connect order
    holds every singleton once, after all it awaits. Its edges are what the declared reads resolve
    to, every alias has its target, and what a key leads to is of the key's type. *)
Theorem wire_correct {M} (module_identity : M → ModuleIdentity) (module_settings : M → ModuleSettings)
    (module_register : M → ModuleNode → ModuleNode) core plan ids walks fuel root env
    (Hkeep : keeps_identity module_register)
    (Hwalk : walkable module_identity module_register plan ids walks) :
  walks root → size ids < fuel →
  match wire module_identity module_settings module_register core fuel root env plan with
  | Some (inr g) => wired g ∧ injectable g
  | Some (inl errors) => errors ≠ []
  | None => False
  end.
Proof.
  intros Hroot Hsize. pose proof (wire_injectable module_identity module_settings module_register core fuel root env plan) as Hij.
  destruct (register_from_ends module_identity module_settings module_register None plan Hkeep ids walks Hwalk root SiteRoot fuel Hroot Hsize)
    as (r & Hr & _).
  pose proof (wire_registered module_identity module_settings module_register core fuel root env plan r Hkeep Hr) as Hwd.
  destruct (wire _ _ _ _ _ _ _ _) as [[errors|g]|]; [done| |done]. split; [done|by apply Hij].
Qed.

Lemma wire_correct_witness : wire demo_identity demo_settings demo_register demo_core 4 AppModule demo_env None = Some (inr demo_graph)
  ∧ wired demo_graph ∧ injectable demo_graph.
Proof.
  split; [exact demo_wired|].
  assert (Hsize : size demo_ids < 4) by (apply (bool_decide_unpack _); vm_compute; exact I).
  pose proof (wire_correct demo_identity demo_settings demo_register demo_core None demo_ids (λ _, True) 4 AppModule demo_env
    demo_keeps demo_walkable I Hsize) as H.
  fold demo_wiring in H. rewrite demo_wired in H. exact H.
Defined.

(** ** Lazy loads *)

(** Loading a module again, or one whose wiring declares nothing that refuses it, gives a graph. *)
Definition demo_load : option (LazyFailure + LazyWiring) :=
  wire_lazy demo_identity demo_settings demo_register demo_core 4 demo_graph AuditModule demo_env (loc 60).

Definition demo_loaded : LazyWiring :=
  match demo_load with Some (inr lw) => lw | _ => {| lw_graph := empty_graph; lw_module := 0; lw_singletons := [] |} end.

Lemma demo_load_ok : demo_load = Some (inr demo_loaded).
Proof. vm_compute. reflexivity. Qed.

Lemma demo_settled : settled demo_graph.
Proof. exact (wire_settled demo_identity demo_settings demo_register demo_core 4 AppModule demo_env None demo_graph demo_keeps demo_wired). Qed.

(** C2: a lazy load that succeeds into a settled graph extends it: the graph it leaves is settled
    too, the connect order is the base's followed by exactly the singletons the load reports, no
    binding of the base changes its declaration, its edges or the scope it was built under, and
    every lookup of a base module answers what it answered. *)
Theorem load_extends {M} (module_identity : M → ModuleIdentity) (module_settings : M → ModuleSettings)
    (module_register : M → ModuleNode → ModuleNode) core fuel base m env at_ lw
    (Hkeep : keeps_identity module_register) (Hbase : settled base) :
  wire_lazy module_identity module_settings module_register core fuel base m env at_ = Some (inr lw) →
  loaded base (lw_graph lw) (lw_singletons lw).
Proof. by apply lazy_loaded. Qed.

Lemma load_extends_witness : lw_singletons demo_loaded = [5] ∧ loaded demo_graph (lw_graph demo_loaded) (lw_singletons demo_loaded).
Proof.
  split; [vm_compute; reflexivity|].
  exact (load_extends demo_identity demo_settings demo_register demo_core 4 demo_graph AuditModule demo_env (loc 60) demo_loaded
    demo_keeps demo_settled demo_load_ok).
Defined.

(** An app's graph over its life: what [wire] gave, then what each lazy load gave; [built] is what
    was built and connected, in the order the steps reported it. *)
Inductive app_graph {M} (module_identity : M → ModuleIdentity) (module_settings : M → ModuleSettings)
    (module_register : M → ModuleNode → ModuleNode) (core : CoreTypes) : list BindingId → Graph → Prop :=
| app_wired fuel root env plan g :
    wire module_identity module_settings module_register core fuel root env plan = Some (inr g) →
    app_graph module_identity module_settings module_register core (g_connect_order g) g
| app_loaded built g fuel m env at_ lw :
    app_graph module_identity module_settings module_register core built g →
    wire_lazy module_identity module_settings module_register core fuel g m env at_ = Some (inr lw) →
    app_graph module_identity module_settings module_register core (built ++ lw_singletons lw)%list (lw_graph lw).

(** C3: whatever modules an app loads and in whatever order, its graph stays fit to build: every
    check holds of it, and what was built so far is its connect order, so no singleton is ever
    built twice and each was built after all it awaits. *)
Theorem app_graph_settled {M} (module_identity : M → ModuleIdentity) (module_settings : M → ModuleSettings)
    (module_register : M → ModuleNode → ModuleNode) core built g (Hkeep : keeps_identity module_register) :
  app_graph module_identity module_settings module_register core built g →
  settled g ∧ g_connect_order g = built ∧ NoDup built.
Proof.
  intros H.
  assert (Hs : settled g ∧ g_connect_order g = built).
  { induction H as [fuel root env plan g Hw|built g fuel m env at_ lw _ [IHs IHo] Hl].
    - split; [by eapply wire_settled|done].
    - destruct (lazy_loaded _ _ _ _ _ _ _ _ _ _ Hkeep IHs Hl) as [Hs Ho _ _]. by rewrite Ho, IHo. }
  destruct Hs as [Hs Ho]. split_and!; [done|done|]. rewrite <- Ho, (se_order _ Hs).
  apply ordered_nodup, (ck_wf _ (se_checked _ Hs)).
Qed.

Lemma app_graph_settled_witness : settled (lw_graph demo_loaded).
Proof.
  pose proof (app_wired demo_identity demo_settings demo_register demo_core 4 AppModule demo_env None demo_graph demo_wired) as Hw.
  pose proof (app_loaded demo_identity demo_settings demo_register demo_core _ demo_graph 4 AuditModule demo_env (loc 60) demo_loaded
    Hw demo_load_ok) as Hl.
  exact (proj1 (app_graph_settled demo_identity demo_settings demo_register demo_core _ _ demo_keeps Hl)).
Defined.
