(* ===== verification/Pattern.v ===== *)
(** * Pattern: route patterns and pre-dispatch scopes

    [ulo-http/src/router/pattern.rs], and the check [ulo-http-macros/src/pattern.rs] makes of the
    same grammar at compile time. A path is its bytes. Percent-decoding is the
    [percent_encoding] crate's, a parameter; of [char::is_alphabetic] and [char::is_numeric] the
    ASCII half is written out and the Unicode tables are parameters. *)

From S2P Require Import Prelude Text.
Local Open Scope nat_scope.

(** What the code calls outside the repository: [percent_decode_str(..).decode_utf8_lossy()], and
    the Unicode tables behind [char::is_alphabetic] and [char::is_numeric] past ASCII. *)
Class HttpEnv := {
  percent_decode_lossy : str → str;
  unicode_alphabetic : N → bool;
  unicode_numeric : N → bool;
}.

(** The value of a hexadecimal digit. *)
Definition hex_digit (c : ascii) : option N :=
  let n := N_of_ascii c in
  if (48 <=? n)%N && (n <=? 57)%N then Some (n - 48)%N
  else if (65 <=? n)%N && (n <=? 70)%N then Some (n - 55)%N
  else if (97 <=? n)%N && (n <=? 102)%N then Some (n - 87)%N
  else None.

(** The bytes a text stands for (RFC 3986 §2.1): an escape is the byte it writes, everything else
    is itself. *)
Fixpoint unescape (s : str) : str :=
  match s with
  | [] => []
  | c :: rest =>
      match rest with
      | a :: b :: after =>
          match (if bool_decide (c = "%"%char) then hex_digit a else None), hex_digit b with
          | Some x, Some y => ascii_of_N (16 * x + y) :: unescape after
          | _, _ => c :: unescape rest
          end
      | _ => c :: unescape rest
      end
  end.

Definition is_ascii (c : ascii) : bool := (N_of_ascii c <? 128)%N.

(** What the router relies on of percent-decoding: text with no escape is itself; the escapes are
    those of [unescape], and reading the bytes as UTF-8 neither adds, drops nor moves an ASCII
    byte, nor drops every byte of a sequence past ASCII; a slash is never inside an escape or a
    character. *)
Class PercentDecoding `{HttpEnv} : Prop := {
  decoding_plain s : "%"%char ∉ s → percent_decode_lossy s = s;
  decoding_ascii s : filterb is_ascii (percent_decode_lossy s) = filterb is_ascii (unescape s);
  decoding_beyond s : forallb is_ascii (percent_decode_lossy s) = forallb is_ascii (unescape s);
  decoding_at_slash s t : percent_decode_lossy (s ++ "/"%char :: t) = percent_decode_lossy s ++ "/"%char :: percent_decode_lossy t;
}.

(** ** Segments and patterns *)

Inductive Segment :=
| Static (text : str)
| Param (name : str)
| Rest (name : str).

#[export] Instance Segment_eq_dec : EqDecision Segment.
Proof. solve_decision. Defined.

Record Pattern := { pt_raw : str; pt_segments : list Segment }.

Record PatternError := { pe_pattern : str; pe_reason : string }.

(** A path's parameters in pattern order, [PathParams]. *)
Definition PathParams : Type := list (str * str).

(** [path] without its trailing slash, except for [/]. *)
Definition normalize (path : str) : str :=
  match strip_suffix ["/"%char] path with
  | Some stripped => if bool_decide (stripped = []) then path else stripped
  | None => path
  end.

(** [offset += piece.len() + 1] along the pieces. *)
Fixpoint with_offsets (offset : nat) (pieces : list str) : list (nat * str) :=
  match pieces with
  | [] => []
  | piece :: pieces => (offset, piece) :: with_offsets (offset + (length piece + 1)) pieces
  end.

(** The segments of a normalized path, each with its byte offset in it: none for [/]. *)
Definition split_path (path : str) : list (nat * str) :=
  match strip_prefix ["/"%char] path with
  | None => [(0, path)]
  | Some rest => if bool_decide (rest = []) then [] else with_offsets 1 (split_on "/"%char rest)
  end.

(** The byte offset of the first [%2F] or [%2f]: [windows(3).position]. *)
Fixpoint encoded_slash (text : str) : option nat :=
  match text with
  | [] => None
  | a :: rest =>
      match rest with
      | b :: c :: _ =>
          if bool_decide (a = "%"%char) && bool_decide (b = "2"%char)
             && (bool_decide (c = "F"%char) || bool_decide (c = "f"%char))
          then Some 0 else S <$> encoded_slash rest
      | _ => None
      end
  end.

Section Env.
Context `{HttpEnv}.

(** ** Decoding *)

(** The loop of [decode]; [fuel] is the length of [rest], which each turn shortens by three at least. *)
Fixpoint decode_loop (fuel : nat) (at_ : option nat) (rest : str) : str :=
  match at_, fuel with
  | Some slash, S fuel =>
      let next := drop (slash + 3) rest in
      percent_decode_lossy (take slash rest) ++ take 3 (drop slash rest) ++ decode_loop fuel (encoded_slash next) next
  | _, _ => percent_decode_lossy rest
  end.

Definition decode (piece : str) : str :=
  match encoded_slash piece with
  | None => percent_decode_lossy piece
  | Some first => decode_loop (length piece) (Some first) piece
  end.

Definition static_matches (text piece : str) : bool :=
  bool_decide (text = piece) || (Prelude.contains piece "%"%char && bool_decide (decode piece = text)).

(** ** Parsing *)

(** [str::chars]: the code points of a string's UTF-8 bytes. *)
Fixpoint chars (s : str) : list N :=
  match s with
  | [] => []
  | a :: s =>
      let n := N_of_ascii a in
      let tail b := (N_of_ascii b `mod` 64)%N in
      if (n <? 128)%N then n :: chars s
      else if (n <? 224)%N then
        match s with
        | b :: s => ((n `mod` 32) * 64 + tail b)%N :: chars s
        | _ => []
        end
      else if (n <? 240)%N then
        match s with
        | b :: c :: s => ((n `mod` 16) * 4096 + tail b * 64 + tail c)%N :: chars s
        | _ => []
        end
      else
        match s with
        | b :: c :: d :: s => ((n `mod` 8) * 262144 + tail b * 4096 + tail c * 64 + tail d)%N :: chars s
        | _ => []
        end
  end.

Definition underscore : N := 95%N.

Definition is_alphabetic (c : N) : bool :=
  if (c <? 128)%N then is_ascii_alphabetic (ascii_of_N c) else unicode_alphabetic c.
Definition is_numeric (c : N) : bool :=
  if (c <? 128)%N then is_ascii_digit (ascii_of_N c) else unicode_numeric c.
Definition is_alphanumeric (c : N) : bool := is_alphabetic c || is_numeric c.

Definition check_name (name : str) : string + unit :=
  match chars name with
  | [] => inl "a parameter name is empty"%string
  | first :: rest =>
      if negb (bool_decide (first = underscore)) && negb (is_alphabetic first)
      then inl "a parameter name starts with `_` or a letter"%string
      else if existsb (λ c, negb (bool_decide (c = underscore)) && negb (is_alphanumeric c)) rest
      then inl "a parameter name holds only `_`, letters and digits"%string
      else inr ()
  end.

(** Records [name], refusing one already recorded. *)
Definition named (names : list str) (name : str) : string + list str :=
  if Prelude.contains names name then inl "a parameter name appears twice"%string else inr (names ++ [name]).

(** One piece of [parse_segments], [names] being the names recorded so far. *)
Definition parse_piece (scope : bool) (last index : nat) (names : list str) (piece : str)
    : string + (Segment * list str) :=
  if bool_decide (piece = []) then inl "a segment between two `/` is empty"%string
  else if scope && bool_decide (piece = ["*"%char]) then
    if bool_decide (index = last) then inr (Rest ["*"%char], names) else inl "`*` is the last segment only"%string
  else match strip_prefix ["{"%char] piece with
  | Some inner =>
      match strip_suffix ["}"%char] inner with
      | None => inl "a `{` opens a segment that does not end with `}`"%string
      | Some inner =>
          match strip_prefix ["*"%char] inner with
          | Some name =>
              match check_name name with
              | inl reason => inl reason
              | inr _ =>
                  if bool_decide (index = last) then
                    match named names name with
                    | inl reason => inl reason
                    | inr names => inr (Rest name, names)
                    end
                  else inl "`{*name}` is the last segment only"%string
              end
          | None =>
              match check_name inner with
              | inl reason => inl reason
              | inr _ =>
                  match named names inner with
                  | inl reason => inl reason
                  | inr names => inr (Param inner, names)
                  end
              end
          end
      end
  | None =>
      if Prelude.contains piece "{"%char || Prelude.contains piece "}"%char
      then inl "a brace appears outside a whole `{name}` segment"%string
      else inr (Static (decode piece), names)
  end.

(** The loop over the pieces. *)
Fixpoint parse_pieces (scope : bool) (last index : nat) (names : list str) (pieces : list str) : string + list Segment :=
  match pieces with
  | [] => inr []
  | piece :: pieces =>
      match parse_piece scope last index names piece with
      | inl reason => inl reason
      | inr (segment, names) =>
          match parse_pieces scope last (S index) names pieces with
          | inl reason => inl reason
          | inr segments => inr (segment :: segments)
          end
      end
  end.

Definition parse_segments (text : str) (scope : bool) : string + list Segment :=
  if negb (starts_with ["/"%char] text) then inl "a pattern starts with `/`"%string
  else
    let normalized := normalize text in
    if bool_decide (normalized = ["/"%char]) then inr []
    else
      let pieces := split_on "/"%char (drop 1 normalized) in
      parse_pieces scope (length pieces - 1) 0 [] pieces.

Definition pattern_parse (text : str) : PatternError + Pattern :=
  match parse_segments text false with
  | inl reason => inl {| pe_pattern := text; pe_reason := reason |}
  | inr segments => inr {| pt_raw := normalize text; pt_segments := segments |}
  end.

(** [prefix] and [route] joined with exactly one [/] between them. *)
Definition pattern_join (prefix route : str) : str :=
  let prefix := trim_end_char "/"%char prefix in
  let route := trim_start_char "/"%char route in
  let joined := if starts_with ["/"%char] prefix then prefix else "/"%char :: prefix in
  if bool_decide (route = []) then joined
  else (if ends_with ["/"%char] joined then joined else joined ++ ["/"%char]) ++ route.

(** ** The compile-time check of [ulo-http-macros] *)

Definition macro_check_name (name : str) : string + unit :=
  match chars name with
  | [] => inl "a parameter name is empty"%string
  | first :: rest =>
      if negb (bool_decide (first = underscore)) && negb (is_alphabetic first)
      then inl "a parameter name starts with `_` or a letter"%string
      else if existsb (λ c, negb (bool_decide (c = underscore)) && negb (is_alphanumeric c)) rest
      then inl "a parameter name holds only `_`, letters and digits"%string
      else inr ()
  end.

(** One turn of the loop: the names after it. *)
Definition macro_check_piece (last index : nat) (names : list str) (piece : str) : string + list str :=
  if bool_decide (piece = []) then inl "a segment between two `/` is empty"%string
  else match strip_prefix ["{"%char] piece with
  | Some inner =>
      match strip_suffix ["}"%char] inner with
      | None => inl "a `{` opens a segment that does not end with `}`"%string
      | Some inner =>
          let name : string + str :=
            match strip_prefix ["*"%char] inner with
            | Some name =>
                match macro_check_name name with
                | inl reason => inl reason
                | inr _ => if bool_decide (index = last) then inr name else inl "`{*name}` is the last segment only"%string
                end
            | None => match macro_check_name inner with inl reason => inl reason | inr _ => inr inner end
            end in
          match name with
          | inl reason => inl reason
          | inr name =>
              if Prelude.contains names name then inl "a parameter name appears twice"%string else inr (names ++ [name])
          end
      end
  | None =>
      if Prelude.contains piece "{"%char || Prelude.contains piece "}"%char
      then inl "a brace appears outside a whole `{name}` segment"%string
      else inr names
  end.

Fixpoint macro_check_pieces (last index : nat) (names : list str) (pieces : list str) : string + unit :=
  match pieces with
  | [] => inr ()
  | piece :: pieces =>
      match macro_check_piece last index names piece with
      | inl reason => inl reason
      | inr names => macro_check_pieces last (S index) names pieces
      end
  end.

Definition macro_check (text : str) : string + unit :=
  if negb (starts_with ["/"%char] text) then inl "a pattern starts with `/`"%string
  else
    let normalized :=
      match strip_suffix ["/"%char] text with
      | Some stripped => if bool_decide (stripped = []) then text else stripped
      | None => text
      end in
    if bool_decide (normalized = ["/"%char]) then inr ()
    else
      let pieces := split_on "/"%char (drop 1 normalized) in
      macro_check_pieces (length pieces - 1) 0 [] pieces.


(** ** Matching *)

(** The loop of [match_split] from segment [index] on; [pairs] is what it captured. *)
Fixpoint match_from (path : str) (pieces : list (nat * str)) (count index : nat) (segments : list Segment) (pairs : PathParams)
    : option PathParams :=
  match segments with
  | [] => if bool_decide (length pieces = count) then Some pairs else None
  | Rest name :: _ =>
      match pieces !! index with
      | None => None
      | Some (offset, piece) =>
          if bool_decide (piece = []) then None else Some (pairs ++ [(name, decode (drop offset path))])
      end
  | Static text :: segments =>
      match pieces !! index with
      | None => None
      | Some (_, piece) =>
          if static_matches text piece then match_from path pieces count (S index) segments pairs else None
      end
  | Param name :: segments =>
      match pieces !! index with
      | None => None
      | Some (_, piece) =>
          if bool_decide (piece = []) then None
          else match_from path pieces count (S index) segments (pairs ++ [(name, decode piece)])
      end
  end.

Definition match_split (p : Pattern) (path : str) (pieces : list (nat * str)) : option PathParams :=
  match_from path pieces (length (pt_segments p)) 0 (pt_segments p) [].

Definition pattern_matches (p : Pattern) (path : str) : option PathParams :=
  let path := normalize path in match_split p path (split_path path).

Definition conflicts_at (a b : Segment) : bool :=
  match a, b with
  | Static a, Static b => bool_decide (a = b)
  | Param _, Param _ | Rest _, Rest _ => true
  | _, _ => false
  end.

Definition conflicts (p other : Pattern) : bool :=
  bool_decide (length (pt_segments p) = length (pt_segments other))
  && forallb (λ ab : Segment * Segment, conflicts_at ab.1 ab.2) (zip (pt_segments p) (pt_segments other)).

Definition param_names (p : Pattern) : list str :=
  omap (λ s, match s with Param name | Rest name => Some name | Static _ => None end) (pt_segments p).

Definition rank (s : Segment) : nat :=
  match s with Static _ => 0 | Param _ => 1 | Rest _ => 2 end.

Definition precedence (p : Pattern) : list nat := rank <$> pt_segments p.

(** ** Scopes *)

Record ScopePattern := { sp_raw : str; sp_segments : list Segment; sp_wildcard : bool }.

Definition scope_parse (text : str) : PatternError + ScopePattern :=
  match parse_segments text true with
  | inl reason => inl {| pe_pattern := text; pe_reason := reason |}
  | inr segments =>
      let wildcard := match last segments with Some (Rest _) => true | _ => false end in
      inr {| sp_raw := normalize text;
             sp_segments := if wildcard then take (length segments - 1) segments else segments;
             sp_wildcard := wildcard |}
  end.

(** The request paths a route pattern or a scope matches: exactly [fixed], or with [open], [fixed]
    followed by one or more segments. *)
Record Shape := { sh_fixed : list Segment; sh_open : bool }.

Definition pattern_shape (p : Pattern) : Shape :=
  match last (pt_segments p) with
  | Some (Rest _) => {| sh_fixed := take (length (pt_segments p) - 1) (pt_segments p); sh_open := true |}
  | _ => {| sh_fixed := pt_segments p; sh_open := false |}
  end.

Definition scope_shape (s : ScopePattern) : Shape :=
  {| sh_fixed := sp_segments s; sh_open := sp_wildcard s |}.

Definition contains_at (a b : Segment) : bool :=
  match a, b with
  | Static a, Static b => bool_decide (a = b)
  | Param _, _ => true
  | _, _ => false
  end.

(** Whether every path [other] matches, [s] matches too. *)
Definition shape_contains (s other : Shape) : bool :=
  let mine := length (sh_fixed s) in
  let theirs := length (sh_fixed other) in
  let fits :=
    match sh_open s, sh_open other with
    | true, true => bool_decide (mine ≤ theirs)
    | true, false => bool_decide (mine < theirs)
    | false, false => bool_decide (theirs = mine)
    | false, true => false
    end in
  fits && forallb (λ ab : Segment * Segment, contains_at ab.1 ab.2) (zip (sh_fixed s) (sh_fixed other)).

Definition overlaps_at (a b : Segment) : bool :=
  match a, b with
  | Static a, Static b => bool_decide (a = b)
  | _, _ => true
  end.

(** Whether some path matches both. *)
Definition shape_overlaps (s other : Shape) : bool :=
  let mine := length (sh_fixed s) in
  let theirs := length (sh_fixed other) in
  let fits :=
    match sh_open s, sh_open other with
    | true, true => true
    | true, false => bool_decide (mine < theirs)
    | false, true => bool_decide (theirs < mine)
    | false, false => bool_decide (theirs = mine)
    end in
  fits && forallb (λ ab : Segment * Segment, overlaps_at ab.1 ab.2) (zip (sh_fixed s) (sh_fixed other)).

Definition narrower (short : list Segment) (index : nat) (segment : Segment) : Segment :=
  match short !! index with
  | Some (Static text) => Static text
  | _ => segment
  end.

(** The paths both match; [Shared] is an owned [Shape]. *)
Definition shape_intersection (s other : Shape) : option Shape :=
  if negb (shape_overlaps s other) then None
  else
    let '(long, short) :=
      if bool_decide (length (sh_fixed other) ≤ length (sh_fixed s))
      then (sh_fixed s, sh_fixed other) else (sh_fixed other, sh_fixed s) in
    Some {| sh_fixed := imap (narrower short) long; sh_open := sh_open s && sh_open other |}.

Definition covers (s : ScopePattern) (p : Pattern) : bool := shape_contains (scope_shape s) (pattern_shape p).
Definition overlaps (s : ScopePattern) (p : Pattern) : bool := shape_overlaps (scope_shape s) (pattern_shape p).
Definition scope_contains (s other : ScopePattern) : bool := shape_contains (scope_shape s) (scope_shape other).
Definition shared_with (s : ScopePattern) (p : Pattern) : option Shape := shape_intersection (scope_shape s) (pattern_shape p).
Definition pattern_contains (p : Pattern) (shared : Shape) : bool := shape_contains (pattern_shape p) shared.

Definition covers_at (segment : Segment) (piece : str) : bool :=
  match segment with
  | Static text => static_matches text piece
  | Param _ => negb (bool_decide (piece = []))
  | Rest _ => false
  end.

(** Whether the scope matches the request path, compared as the router compares it. *)
Definition covers_path (s : ScopePattern) (path : str) : bool :=
  let pieces := split_path (normalize path) in
  (if sp_wildcard s then bool_decide (length (sp_segments s) < length pieces)
   else bool_decide (length pieces = length (sp_segments s)))
  && forallb (λ sp : Segment * (nat * str), covers_at sp.1 sp.2.2) (zip (sp_segments s) pieces).

(** ** Segments no request reaches *)

Definition holds_backslash (s : Segment) : bool :=
  match s with Static text => Prelude.contains text "\"%char | _ => false end.

(** The piece of [raw] written for the first static segment that holds a backslash once decoded. *)
Definition unreachable_segment (raw : str) (segments : list Segment) : option str :=
  match position holds_backslash segments with
  | None => None
  | Some index =>
      match strip_prefix ["/"%char] raw with
      | None => None
      | Some rest => split_on "/"%char rest !! index
      end
  end.
End Env.

(** [is_dot_segment]: at most two dots, each raw or escaped, and nothing else; [dots] counts the
    ones behind. *)
Fixpoint dot_loop (dots : nat) (rest : str) : bool :=
  match rest with
  | [] => bool_decide (0 < dots)
  | first :: tail =>
      if bool_decide (first = "."%char) then
        if bool_decide (2 < S dots) then false else dot_loop (S dots) tail
      else if bool_decide (first = "%"%char) then
        match tail with
        | two :: e :: after =>
            if bool_decide (two = "2"%char) && (bool_decide (e = "e"%char) || bool_decide (e = "E"%char)) then
              if bool_decide (2 < S dots) then false else dot_loop (S dots) after
            else false
        | _ => false
        end
      else false
  end.

Definition is_dot_segment (segment : str) : bool := dot_loop 0 segment.

Definition has_dot_segment (path : str) : bool := existsb is_dot_segment (split_on "/"%char path).

(** [windows(3).any] for an escaped backslash. *)
Fixpoint encoded_backslash (path : str) : bool :=
  match path with
  | [] => false
  | a :: rest =>
      match rest with
      | b :: c :: _ =>
          (bool_decide (a = "%"%char) && bool_decide (b = "5"%char)
           && (bool_decide (c = "C"%char) || bool_decide (c = "c"%char))) || encoded_backslash rest
      | _ => false
      end
  end.

Definition has_backslash (path : str) : bool := Prelude.contains path "\"%char || encoded_backslash path.
