(* ===== verification/PatternFacts.v ===== *)
(** * PatternFacts: what parsing, matching and comparing patterns compute *)

From S2P Require Import Prelude Text Pattern.
Local Open Scope nat_scope.

(** ** The encoded slash *)

Definition slash_escape (x : ascii) : bool := bool_decide (x = "F"%char) || bool_decide (x = "f"%char).

Lemma slash_escape_true x : slash_escape x = true ↔ x = "F"%char ∨ x = "f"%char.
Proof. unfold slash_escape. by rewrite orb_true_iff, !bool_decide_eq_true. Qed.

Lemma encoded_slash_cons a b c t : encoded_slash (a :: b :: c :: t) =
  if bool_decide (a = "%"%char) && bool_decide (b = "2"%char) && slash_escape c then Some 0
  else S <$> encoded_slash (b :: c :: t).
Proof. reflexivity. Qed.

Lemma encoded_slash_some t i : encoded_slash t = Some i →
  encoded_slash (take i t) = None ∧ ∃ x rest, drop i t = "%"%char :: "2"%char :: x :: rest ∧ slash_escape x = true.
Proof.
  revert i. induction t as [|a t IH]; intros i; [done|]. destruct t as [|b [|c t]]; [done|done|].
  rewrite encoded_slash_cons. destruct (_ && _ && _) eqn:E.
  - intros [= <-]. split_bools. subst. split; [done|]. by exists c, t.
  - intros (j & Hj & ->)%fmap_Some. destruct (IH j Hj) as [Hn Hx]. split; [|exact Hx]. cbn [take].
    destruct j as [|[|j]]; cbn [take] in *; [done|done|]. rewrite encoded_slash_cons, E. by rewrite Hn.
Qed.

Lemma encoded_slash_none t u x v : encoded_slash t = None → t = u ++ "%"%char :: "2"%char :: x :: v → slash_escape x = false.
Proof.
  revert u. induction t as [|a t IH]; intros u Hn Ht; [by destruct u|].
  destruct u as [|a' u].
  - simpl in Ht. injection Ht as -> ->. rewrite encoded_slash_cons in Hn. by destruct (slash_escape x).
  - simpl in Ht. injection Ht as -> Ht. apply (IH u); [|done]. subst t.
    destruct (u ++ _) as [|b [|c t]] eqn:E; [by destruct u|by destruct u as [|? [|? ?]]|].
    rewrite encoded_slash_cons in Hn. destruct (_ && _ && _); [done|]. by destruct (encoded_slash (b :: c :: t)).
Qed.

Lemma encoded_slash_plain s : "%"%char ∉ s → encoded_slash s = None.
Proof.
  intros Hs. destruct (encoded_slash s) as [i|] eqn:E; [|done]. destruct (encoded_slash_some s i E) as (_ & x & rest & Hd & _).
  exfalso. apply Hs. rewrite <- (take_drop i s), Hd. set_solver.
Qed.

(** ** Normalized paths and their pieces *)

Lemma normalize_spec path : normalize path = path ∨ (normalize path ≠ [] ∧ path = normalize path ++ ["/"%char]).
Proof.
  unfold normalize. destruct (strip_suffix _ path) as [t|] eqn:E; [|by left].
  apply strip_suffix_Some in E. case_bool_decide; [by left|by right].
Qed.

Lemma normalize_open t : last t ≠ Some "/"%char → normalize t = t.
Proof.
  intros Ht. destruct (normalize_spec t) as [E|[_ E]]; [done|]. exfalso. apply Ht. rewrite E. apply last_snoc.
Qed.

Lemma with_offsets_pieces o ps : (with_offsets o ps).*2 = ps.
Proof. revert o. induction ps as [|p ps IH]; intros o; simpl; [done|]. by rewrite IH. Qed.

Lemma with_offsets_drop o ps i off piece pre : with_offsets o ps !! i = Some (off, piece) → length pre = o →
  drop off (pre ++ join_on "/"%char ps) = join_on "/"%char (drop i ps).
Proof.
  revert o i pre. induction ps as [|p ps IH]; intros o i pre Hi Hpre; [done|].
  destruct i as [|i]; [simpl in Hi; injection Hi as <- <-; subst o; by rewrite drop_app_length|].
  simpl in Hi. destruct ps as [|q ps]; [done|].
  change (join_on "/"%char (p :: q :: ps)) with (p ++ "/"%char :: join_on "/"%char (q :: ps)).
  replace (pre ++ p ++ "/"%char :: join_on "/"%char (q :: ps)) with ((pre ++ p ++ ["/"%char]) ++ join_on "/"%char (q :: ps))
    by (by rewrite <- !app_assoc).
  apply (IH (o + (length p + 1)) i); [done|]. rewrite !length_app. simpl. lia.
Qed.

(** The rest of the path from a piece's offset is the pieces from it on. *)
Lemma split_path_drop path i off piece : split_path path !! i = Some (off, piece) →
  drop off path = join_on "/"%char (drop i (split_path path).*2).
Proof.
  unfold split_path. destruct (strip_prefix _ path) as [rest|] eqn:E.
  - apply strip_prefix_Some in E. subst path. case_bool_decide as Hr; [done|]. intros Hi.
    rewrite with_offsets_pieces. rewrite <- (join_split "/"%char rest) at 1.
    by apply (with_offsets_drop 1 _ _ _ piece ["/"%char]).
  - destruct i as [|i]; [|done]. intros [= <- <-]. done.
Qed.

Lemma split_path_slash rest : (split_path ("/"%char :: rest)).*2 = if bool_decide (rest = []) then [] else split_on "/"%char rest.
Proof.
  unfold split_path. rewrite (proj2 (strip_prefix_Some ["/"%char] ("/"%char :: rest) rest)) by done.
  case_bool_decide; [done|]. by rewrite with_offsets_pieces.
Qed.

(** The pieces the router compares a request path by. *)
Definition request_pieces (path : str) : list str := (split_path (normalize path)).*2.

(** The path of some pieces. *)
Definition path_of (ps : list str) : str := "/"%char :: join_on "/"%char ps.

Definition sendable (ps : list str) : Prop := (∀ p, p ∈ ps → "/"%char ∉ p) ∧ last ps ≠ Some [].

Lemma join_on_snoc c (ps : list str) p : ps ≠ [] → join_on c (ps ++ [p]) = join_on c ps ++ c :: p.
Proof.
  induction ps as [|q ps IH]; intros Hne; [done|]. destruct ps as [|r ps]; [done|].
  change (join_on c ((q :: r :: ps) ++ [p])) with (q ++ c :: join_on c ((r :: ps) ++ [p])).
  rewrite IH by done. change (join_on c (q :: r :: ps)) with (q ++ c :: join_on c (r :: ps)). by rewrite <- app_assoc.
Qed.

Lemma join_on_last c (ps : list str) p : last ps = Some p → p ≠ [] → last (join_on c ps) = last p.
Proof.
  intros (k & ->)%last_Some Hp. destruct (decide (k = [])) as [->|Hk]; [done|].
  rewrite join_on_snoc by done. rewrite last_app, last_cons. destruct (last p) eqn:E; [done|]. by apply last_None in E.
Qed.

Lemma request_pieces_path ps : sendable ps → request_pieces (path_of ps) = ps.
Proof.
  intros [Hs Hl]. unfold request_pieces, path_of. destruct ps as [|p0 ps0]; [done|]. set (ps := p0 :: ps0) in *.
  destruct (last ps) as [p|] eqn:El; [|by apply last_None in El].
  assert (Hp : p ≠ []) by congruence.
  assert (Hlast : last (join_on "/"%char ps) = last p) by by apply join_on_last.
  assert (Hmem : p ∈ ps) by (apply last_Some in El as (k & ->); set_solver).
  destruct (last p) as [c|] eqn:Ec; [|by apply last_None in Ec].
  assert (Hne : join_on "/"%char ps ≠ []) by (intros E; by rewrite E in Hlast).
  rewrite normalize_open.
  - rewrite split_path_slash, bool_decide_eq_false_2 by done. by apply split_join.
  - rewrite last_cons, Hlast. intros [= ->]. apply last_Some in Ec as (k & ->). apply (Hs _ Hmem). set_solver.
Qed.

Lemma request_pieces_no_slash path p : starts_with ["/"%char] path = true → p ∈ request_pieces path → "/"%char ∉ p.
Proof.
  intros (t & ->)%starts_with_spec. unfold request_pieces.
  assert (Hn : ∃ u, normalize (["/"%char] ++ t) = "/"%char :: u).
  { destruct (normalize_spec (["/"%char] ++ t)) as [E|[Hne E]]; [rewrite E; by exists t|].
    destruct (normalize (["/"%char] ++ t)) as [|a u]; [done|]. simpl in E. injection E as <- _. by exists u. }
  destruct Hn as [u ->]. rewrite split_path_slash. case_bool_decide; [by intros ?%not_elem_of_nil|]. apply split_on_no_sep.
Qed.

(** ** Escapes *)

Definition escape_of (a b c : ascii) : Prop :=
  ∃ x y, hex_digit a = Some x ∧ hex_digit b = Some y ∧ c = ascii_of_N (16 * x + y).

Lemma unescape_cons c rest : unescape (c :: rest) = c :: unescape rest
  ∨ ∃ a b after, c = "%"%char ∧ rest = a :: b :: after ∧ ∃ d, escape_of a b d ∧ unescape (c :: rest) = d :: unescape after.
Proof.
  cbn [unescape]. destruct rest as [|a [|b after]]; [by left|by left|].
  destruct (bool_decide (c = "%"%char)) eqn:E; [|by left]. apply bool_decide_eq_true in E as ->.
  destruct (hex_digit a) as [x|] eqn:Ha; [|by left]. destruct (hex_digit b) as [y|] eqn:Hb; [|by left].
  right. exists a, b, after. split; [done|]. split; [done|]. eexists. split; [by exists x, y|done].
Qed.

(** A byte a text stands for is in it, or is written by an escape in it. *)
Lemma unescape_elem s c : c ∈ unescape s → c ∈ s ∨ ∃ u a b v, s = u ++ "%"%char :: a :: b :: v ∧ escape_of a b c.
Proof.
  remember (length s) as n eqn:En. revert s En. induction (lt_wf n) as [n _ IH]. intros s -> Hin.
  destruct s as [|d rest]; [by left|]. destruct (unescape_cons d rest) as [E|(a & b & after & -> & -> & e & He & E)]; rewrite E in Hin;
    apply elem_of_cons in Hin as [-> |Hin].
  - left. by left.
  - destruct (IH (length rest) ltac:(simpl; lia) rest eq_refl Hin) as [?|(u & a & b & v & -> & He)]; [left; by right|].
    right. by exists (d :: u), a, b, v.
  - right. by exists [], a, b, after.
  - destruct (IH (length after) ltac:(simpl; lia) after eq_refl Hin) as [?|(u & a' & b' & v & -> & He')]; [left; set_solver|].
    right. by exists ("%"%char :: a :: b :: u), a', b', v.
Qed.

Lemma hex_bound a x : hex_digit a = Some x → (x < 16)%N.
Proof. destruct a as [[] [] [] [] [] [] [] []]; vm_compute; intros [= <-]; done. Qed.

(** The digits of an escape, from the byte it writes. *)
Lemma escape_digits a b c : escape_of a b c → hex_digit a = Some (N_of_ascii c / 16)%N ∧ hex_digit b = Some (N_of_ascii c `mod` 16)%N.
Proof.
  intros (x & y & Ha & Hb & ->). pose proof (hex_bound _ _ Ha). pose proof (hex_bound _ _ Hb).
  rewrite N_ascii_embedding by lia. rewrite Ha, Hb. split; f_equal.
  - apply (N.div_unique _ _ _ y); lia.
  - apply (N.mod_unique _ _ x); lia.
Qed.

Lemma hex_2 a : hex_digit a = Some 2%N → a = "2"%char.
Proof. destruct a as [[] [] [] [] [] [] [] []]; vm_compute; try done; by intros [=]. Qed.
Lemma hex_5 a : hex_digit a = Some 5%N → a = "5"%char.
Proof. destruct a as [[] [] [] [] [] [] [] []]; vm_compute; try done; by intros [=]. Qed.
Lemma hex_12 a : hex_digit a = Some 12%N → a = "C"%char ∨ a = "c"%char.
Proof. destruct a as [[] [] [] [] [] [] [] []]; vm_compute; try (by intros [=]); auto. Qed.
Lemma hex_14 a : hex_digit a = Some 14%N → a = "e"%char ∨ a = "E"%char.
Proof. destruct a as [[] [] [] [] [] [] [] []]; vm_compute; try (by intros [=]); auto. Qed.
Lemma hex_15 a : hex_digit a = Some 15%N → a = "F"%char ∨ a = "f"%char.
Proof. destruct a as [[] [] [] [] [] [] [] []]; vm_compute; try (by intros [=]); auto. Qed.

Section Env.
Context `{Henv : HttpEnv, Hdec : !PercentDecoding}.

(** ** Percent-decoding *)

Lemma decoding_elem s c : is_ascii c = true → c ∈ percent_decode_lossy s ↔ c ∈ unescape s.
Proof.
  intros Hc. assert (H : ∀ l, c ∈ l ↔ c ∈ filterb is_ascii l) by (intros l; rewrite elem_of_filterb; naive_solver).
  rewrite H, decoding_ascii, <- H. done.
Qed.

(** Decoded to ASCII, a text is the bytes it stands for. *)
Lemma decoding_bytes s t : percent_decode_lossy s = t → forallb is_ascii t = true → unescape s = t.
Proof.
  intros <- Ht. pose proof Ht as Hu. rewrite decoding_beyond in Hu. rewrite forallb_elem in Ht, Hu.
  rewrite <- (filterb_all is_ascii (unescape s)), <- decoding_ascii by done. by apply filterb_all.
Qed.

Lemma decoding_nonempty s : s ≠ [] → percent_decode_lossy s ≠ [].
Proof.
  intros Hs E. apply decoding_bytes in E; [|done]. destruct s as [|c s]; [done|]. cbn [unescape] in E.
  destruct s as [|a [|b s]]; try done. by repeat case_match.
Qed.

(** ** Decoding *)

Lemma lossy_no_slash s : "/"%char ∉ s → encoded_slash s = None → "/"%char ∉ percent_decode_lossy s.
Proof.
  intros Hs Hn Hin. apply decoding_elem in Hin; [|done].
  apply unescape_elem in Hin as [Hin|(u & a & b & v & E & He)]; [done|].
  apply escape_digits in He as [->%hex_2 Hb%hex_15]. pose proof (encoded_slash_none s u b v Hn E) as Hf.
  apply slash_escape_true in Hb. congruence.
Qed.

Lemma decode_loop_no_slash fuel at_ s : length s ≤ fuel → "/"%char ∉ s → encoded_slash s = at_ → "/"%char ∉ decode_loop fuel at_ s.
Proof.
  revert at_ s. induction fuel as [|fuel IH]; intros at_ s Hlen Hs Hat.
  { destruct s; [|simpl in Hlen; lia]. simpl in Hat. subst at_. by apply lossy_no_slash. }
  destruct at_ as [i|]; [|by apply lossy_no_slash]. cbn [decode_loop].
  destruct (encoded_slash_some s i Hat) as (Hn & x & rest & Hd & Hx).
  rewrite !not_elem_of_app. split; [|split].
  - apply lossy_no_slash; [|done]. intros Hin. apply Hs. rewrite <- (take_drop i s). apply elem_of_app. by left.
  - intros Hin. apply Hs. apply elem_of_drop_in with (k := i). rewrite <- (take_drop 3 (drop i s)). set_solver.
  - apply IH; [|intros Hin; apply Hs; by eapply elem_of_drop_in|done].
    rewrite length_drop. lia.
Qed.

(** A decoded segment holds no slash: every [/] in a captured value is one the client sent. *)
Lemma decode_no_slash piece : "/"%char ∉ piece → "/"%char ∉ decode piece.
Proof.
  intros Hp. unfold decode. destruct (encoded_slash piece) as [i|] eqn:E; [|by apply lossy_no_slash].
  by apply decode_loop_no_slash.
Qed.

Lemma decode_plain s : "%"%char ∉ s → decode s = s.
Proof. intros Hs. unfold decode. rewrite encoded_slash_plain by done. by apply decoding_plain. Qed.

Lemma decode_nonempty s : s ≠ [] → decode s ≠ [].
Proof.
  intros Hs. unfold decode. destruct (encoded_slash s) as [i|] eqn:E; [|by apply decoding_nonempty].
  destruct (encoded_slash_some s i E) as (_ & x & rest & Hd & _).
  destruct (length s) as [|n] eqn:El; [by destruct s|]. cbn [decode_loop]. rewrite Hd.
  intros Happ. apply app_eq_nil in Happ as [_ Happ]. done.
Qed.

(** A static segment whose text holds no [%] matches exactly the pieces that decode to it. *)
Lemma static_matches_plain text piece : "%"%char ∉ text → static_matches text piece = true ↔ decode piece = text.
Proof.
  intros Ht. unfold static_matches. rewrite orb_true_iff, andb_true_iff, contains_true, !bool_decide_eq_true. split.
  - intros [<-|[_ E]]; [by apply decode_plain|done].
  - intros <-. destruct (decide ("%"%char ∈ piece)) as [Hin|Hn]; [by right|]. left. by apply decode_plain.
Qed.

(** The piece a static segment was written as matches it. *)
Lemma static_matches_self piece : static_matches (decode piece) piece = true.
Proof.
  unfold static_matches. rewrite orb_true_iff, andb_true_iff, contains_true, !bool_decide_eq_true.
  destruct (decide ("%"%char ∈ piece)) as [Hin|Hn]; [by right|]. left. by apply decode_plain.
Qed.

Lemma static_matches_nonempty text piece : text ≠ [] → static_matches text piece = true → piece ≠ [].
Proof.
  intros Ht. unfold static_matches. rewrite orb_true_iff, andb_true_iff, contains_true, !bool_decide_eq_true.
  intros [<-|[Hin _]]; [done|]. intros ->. by apply not_elem_of_nil in Hin.
Qed.

(** ** Matching as one reads a pattern *)

(** Whether a pattern's segments match a path's pieces, and what they capture, piece by piece. *)
Fixpoint route_fits (segments : list Segment) (ps : list str) : bool :=
  match segments, ps with
  | [], [] => true
  | Rest _ :: _, p :: _ => negb (bool_decide (p = []))
  | s :: segments, p :: ps => covers_at s p && route_fits segments ps
  | _, _ => false
  end.

Fixpoint captured (segments : list Segment) (ps : list str) : PathParams :=
  match segments, ps with
  | Rest name :: _, ps => [(name, decode (join_on "/"%char ps))]
  | Static _ :: segments, _ :: ps => captured segments ps
  | Param name :: segments, p :: ps => (name, decode p) :: captured segments ps
  | _, _ => []
  end.

Lemma match_from_spec path count index segments pairs : count = index + length segments → index ≤ length (split_path path) →
  match_from path (split_path path) count index segments pairs =
  let ps := drop index (split_path path).*2 in
  if route_fits segments ps then Some (pairs ++ captured segments ps) else None.
Proof.
  revert index pairs. induction segments as [|s segments IH]; intros index pairs Hc Hi; cbv zeta.
  - simpl. simpl in Hc. destruct (drop index (split_path path).*2) as [|p ps] eqn:E.
    + apply (f_equal length) in E. rewrite length_drop, length_fmap in E. simpl in E.
      rewrite bool_decide_eq_true_2 by lia. by rewrite app_nil_r.
    + apply (f_equal length) in E. rewrite length_drop, length_fmap in E. simpl in E.
      by rewrite bool_decide_eq_false_2 by lia.
  - simpl in Hc. destruct (split_path path !! index) as [[off piece]|] eqn:E.
    + assert (Hd : drop index (split_path path).*2 = piece :: drop (S index) (split_path path).*2).
      { apply drop_S. by rewrite list_lookup_fmap, E. }
      pose proof (split_path_drop path index off piece E) as Hoff. apply lookup_lt_Some in E as Hlt.
      destruct s as [text|name|name]; cbn [match_from]; rewrite E.
      * rewrite Hd. cbn [route_fits covers_at captured]. destruct (static_matches text piece); [|done]. cbn [andb]. apply IH; lia.
      * rewrite Hd. cbn [route_fits covers_at captured]. case_bool_decide; [done|]. cbn [negb andb].
        rewrite IH by lia. cbv zeta. destruct (route_fits _ _); [|done]. by rewrite <- app_assoc.
      * rewrite Hoff, Hd. cbn [route_fits captured]. by case_bool_decide.
    + apply lookup_ge_None in E as Hge. rewrite drop_ge by (rewrite length_fmap; done).
      destruct s; cbn [match_from]; by rewrite E.
Qed.

Lemma pattern_matches_spec p path : pattern_matches p path =
  let ps := request_pieces path in
  if route_fits (pt_segments p) ps then Some (captured (pt_segments p) ps) else None.
Proof.
  unfold pattern_matches, match_split. rewrite match_from_spec by (simpl; lia). done.
Qed.

(** ** Shapes *)

(** Whether pieces are of a shape: a scope's reading of a path. *)
Definition shape_fits (sh : Shape) (ps : list str) : bool :=
  (if sh_open sh then bool_decide (length (sh_fixed sh) < length ps) else bool_decide (length ps = length (sh_fixed sh)))
  && forallb (λ sp : Segment * str, covers_at sp.1 sp.2) (zip (sh_fixed sh) ps).

Lemma forallb_zip {A B} (f : A * B → bool) (l : list A) (k : list B) :
  forallb f (zip l k) = true ↔ ∀ i a b, l !! i = Some a → k !! i = Some b → f (a, b) = true.
Proof.
  revert k. induction l as [|x l IH]; intros [|y k]; simpl.
  - split; [by intros _ i a b H; rewrite lookup_nil in H|done].
  - split; [by intros _ i a b H; rewrite lookup_nil in H|done].
  - split; [by intros _ i a b _ H; rewrite lookup_nil in H|done].
  - rewrite andb_true_iff, IH. split.
    + intros [H0 H] [|i] a b; simpl; [by intros [= <-] [= <-]|apply H].
    + intros H. split; [by apply (H 0)|]. intros i a b. apply (H (S i)).
Qed.

Definition of_length (sh : Shape) (n : nat) : Prop :=
  if sh_open sh then length (sh_fixed sh) < n else n = length (sh_fixed sh).

Lemma shape_fits_true sh ps : shape_fits sh ps = true ↔ of_length sh (length ps)
  ∧ ∀ i s p, sh_fixed sh !! i = Some s → ps !! i = Some p → covers_at s p = true.
Proof.
  unfold shape_fits, of_length. rewrite andb_true_iff, forallb_zip. by destruct (sh_open sh); rewrite bool_decide_eq_true.
Qed.

Lemma covers_path_fits s path : covers_path s path = shape_fits (scope_shape s) (request_pieces path).
Proof.
  unfold covers_path, shape_fits, request_pieces. simpl. rewrite length_fmap. f_equal.
  generalize (split_path (normalize path)). induction (sp_segments s) as [|a l IH]; intros [|[o q] k]; simpl; [done..|].
  by rewrite IH.
Qed.

(** The segments a parsed pattern holds before a rest: no rest, and no static segment that is
    empty or holds a slash. *)
Definition segment_ok (s : Segment) : Prop :=
  match s with Static t => t ≠ [] ∧ "/"%char ∉ t | Param _ => True | Rest _ => False end.
Definition shape_ok (sh : Shape) : Prop := ∀ s, s ∈ sh_fixed sh → segment_ok s.

(** The texts of static segments hold no [%] once decoded. *)
Definition segment_plain (s : Segment) : Prop := match s with Static t => "%"%char ∉ t | _ => True end.
Definition shape_plain (sh : Shape) : Prop := ∀ s, s ∈ sh_fixed sh → segment_plain s.

Lemma covers_nonempty s p : segment_ok s → covers_at s p = true → p ≠ [].
Proof.
  destruct s as [t|n|n]; simpl; [|by intros _ ?%negb_true_iff%bool_decide_eq_false|done].
  intros [Ht _]. by apply static_matches_nonempty.
Qed.

Lemma shape_contains_true a b : shape_contains a b = true ↔
  match sh_open a, sh_open b with
  | true, true => length (sh_fixed a) ≤ length (sh_fixed b)
  | true, false => length (sh_fixed a) < length (sh_fixed b)
  | false, false => length (sh_fixed b) = length (sh_fixed a)
  | false, true => False
  end ∧ ∀ i s t, sh_fixed a !! i = Some s → sh_fixed b !! i = Some t → contains_at s t = true.
Proof.
  unfold shape_contains. rewrite andb_true_iff, forallb_zip.
  destruct (sh_open a), (sh_open b); rewrite ?bool_decide_eq_true; naive_solver.
Qed.

Lemma shape_overlaps_true a b : shape_overlaps a b = true ↔
  match sh_open a, sh_open b with
  | true, true => True
  | true, false => length (sh_fixed a) < length (sh_fixed b)
  | false, true => length (sh_fixed b) < length (sh_fixed a)
  | false, false => length (sh_fixed b) = length (sh_fixed a)
  end ∧ ∀ i s t, sh_fixed a !! i = Some s → sh_fixed b !! i = Some t → overlaps_at s t = true.
Proof.
  unfold shape_overlaps. rewrite andb_true_iff, forallb_zip.
  destruct (sh_open a), (sh_open b); rewrite ?bool_decide_eq_true; naive_solver.
Qed.

Lemma fixed_in_pieces sh (ps : list str) i s : of_length sh (length ps) → sh_fixed sh !! i = Some s → is_Some (ps !! i).
Proof.
  intros Hlen Hi. apply lookup_lt_Some in Hi. apply lookup_lt_is_Some. unfold of_length in Hlen. destruct (sh_open sh); lia.
Qed.

(** A shape matches all that a shape it contains matches. *)
Lemma contains_sound a b ps : shape_ok b → shape_contains a b = true → shape_fits b ps = true → shape_fits a ps = true.
Proof.
  rewrite shape_contains_true, !shape_fits_true. intros Hok [Hfit Hc] [Hlen Hb]. split.
  { unfold of_length in *. destruct (sh_open a), (sh_open b); simpl in *; [lia|lia|done|lia]. }
  intros i s p Hs Hp.
  assert (Hlt : i < length (sh_fixed b)).
  { apply lookup_lt_Some in Hs. destruct (sh_open a), (sh_open b); simpl in *; [lia|lia|done|lia]. }
  apply lookup_lt_is_Some in Hlt as [t Ht]. pose proof (Hc i s t Hs Ht) as H. pose proof (Hb i t p Ht Hp) as Hcov.
  destruct s as [x|n|n]; simpl in H; [|by apply negb_true_iff, bool_decide_eq_false, (covers_nonempty t); [apply Hok; by eapply list_elem_of_lookup_2|]|done].
  destruct t; [|done|done]. by apply bool_decide_eq_true in H as ->.
Qed.

(** Two shapes of one path overlap, when no static text holds a [%]. *)
Lemma overlaps_complete a b ps : shape_plain a → shape_plain b →
  shape_fits a ps = true → shape_fits b ps = true → shape_overlaps a b = true.
Proof.
  rewrite shape_overlaps_true, !shape_fits_true. intros Hpa Hpb [Hla Ha] [Hlb Hb]. split.
  { unfold of_length in *. destruct (sh_open a), (sh_open b); simpl in *; [done|lia|lia|lia]. }
  intros i s t Hs Ht. destruct (fixed_in_pieces a ps i s Hla Hs) as [p Hp].
  pose proof (Ha i s p Hs Hp) as H1. pose proof (Hb i t p Ht Hp) as H2.
  destruct s as [x|n|n]; [|done|done]. destruct t as [y|n|n]; [|done|done]. simpl in *.
  apply static_matches_plain in H1; [|by apply (Hpa (Static x)); eapply list_elem_of_lookup_2].
  apply static_matches_plain in H2; [|by apply (Hpb (Static y)); eapply list_elem_of_lookup_2].
  apply bool_decide_eq_true. congruence.
Qed.

Lemma overlaps_at_sym s t : overlaps_at s t = overlaps_at t s.
Proof. destruct s, t; try done. simpl. apply bool_decide_ext. naive_solver. Qed.

Lemma shape_overlaps_sym a b : shape_overlaps a b = shape_overlaps b a.
Proof.
  apply eq_bool_prop_intro. rewrite !Is_true_true, !shape_overlaps_true.
  setoid_rewrite overlaps_at_sym at 1. destruct (sh_open a), (sh_open b); naive_solver lia.
Qed.

(** The intersection with the shape of the longer [fixed] first. *)
Definition meet (a b : Shape) : Shape :=
  {| sh_fixed := imap (narrower (sh_fixed b)) (sh_fixed a); sh_open := sh_open a && sh_open b |}.

Lemma meet_at b i s p : segment_ok s → (∀ t, sh_fixed b !! i = Some t → segment_ok t ∧ overlaps_at s t = true) →
  covers_at (narrower (sh_fixed b) i s) p = true ↔
  covers_at s p = true ∧ ∀ t, sh_fixed b !! i = Some t → covers_at t p = true.
Proof.
  intros Hs Hb. unfold narrower. destruct (sh_fixed b !! i) as [t|] eqn:E; [|naive_solver].
  destruct (Hb t eq_refl) as [Hok Hov]. destruct t as [y|n|n]; [| |done].
  - split; [|naive_solver]. intros Hc. split; [|by intros t [= <-]]. destruct s as [x|n|n]; [|by apply negb_true_iff, bool_decide_eq_false, (covers_nonempty (Static y))|done].
    simpl in Hov. by apply bool_decide_eq_true in Hov as ->.
  - split; [|naive_solver]. intros Hc. split; [done|]. intros t [= <-].
    by apply negb_true_iff, bool_decide_eq_false, (covers_nonempty s).
Qed.

Lemma meet_spec a b ps : shape_ok a → shape_ok b → shape_overlaps a b = true → length (sh_fixed b) ≤ length (sh_fixed a) →
  shape_fits (meet a b) ps = true ↔ shape_fits a ps = true ∧ shape_fits b ps = true.
Proof.
  intros Hoa Hob Ho Hle. apply shape_overlaps_true in Ho as [Hfit Hov]. rewrite !shape_fits_true.
  assert (Hlen : of_length (meet a b) (length ps) ↔ of_length a (length ps) ∧ of_length b (length ps)).
  { unfold of_length, meet. simpl. rewrite length_imap. destruct (sh_open a), (sh_open b); simpl; lia. }
  assert (Hat : ∀ i s p, sh_fixed a !! i = Some s →
    covers_at (narrower (sh_fixed b) i s) p = true ↔ covers_at s p = true ∧ ∀ t, sh_fixed b !! i = Some t → covers_at t p = true).
  { intros i s p Hs. apply meet_at; [apply Hoa; by eapply list_elem_of_lookup_2|].
    intros t Ht. split; [apply Hob; by eapply list_elem_of_lookup_2|by apply (Hov i)]. }
  rewrite Hlen. split.
  - intros [[Hla Hlb] H]. assert (Hboth : ∀ i s p, sh_fixed a !! i = Some s → ps !! i = Some p →
      covers_at s p = true ∧ ∀ t, sh_fixed b !! i = Some t → covers_at t p = true).
    { intros i s p Hs Hp. apply Hat; [done|]. apply (H i); [|done]. simpl. rewrite list_lookup_imap, Hs. done. }
    split; (split; [done|]).
    + intros i s p Hs Hp. by apply (Hboth i).
    + intros i t p Ht Hp. assert (Hi : is_Some (sh_fixed a !! i)) by (apply lookup_lt_is_Some; apply lookup_lt_Some in Ht; lia).
      destruct Hi as [s Hs]. by apply (Hboth i s p).
  - intros [[Hla Ha] [Hlb Hb]]. split; [done|]. intros i s p Hs Hp. simpl in Hs. rewrite list_lookup_imap in Hs.
    apply fmap_Some in Hs as (s0 & Hs0 & ->). apply Hat; [done|]. split; [by apply (Ha i)|]. intros t Ht. by apply (Hb i).
Qed.

Lemma intersection_meet a b : shape_intersection a b =
  if shape_overlaps a b then
    Some (if bool_decide (length (sh_fixed b) ≤ length (sh_fixed a)) then meet a b else meet b a)
  else None.
Proof.
  unfold shape_intersection. destruct (shape_overlaps a b); [|done]. simpl. case_bool_decide; [done|].
  unfold meet. by rewrite andb_comm.
Qed.

(** The intersection matches what both match. *)
Lemma intersection_spec a b sh ps : shape_ok a → shape_ok b → shape_intersection a b = Some sh →
  shape_fits sh ps = true ↔ shape_fits a ps = true ∧ shape_fits b ps = true.
Proof.
  intros Hoa Hob. rewrite intersection_meet. destruct (shape_overlaps a b) eqn:Ho; [|done]. intros [= <-].
  case_bool_decide; [by apply meet_spec|]. rewrite meet_spec, (comm (∧)); [done|done|done| |lia]. by rewrite shape_overlaps_sym.
Qed.

Lemma intersection_ok a b sh : shape_ok a → shape_ok b → shape_intersection a b = Some sh → shape_ok sh.
Proof.
  intros Hoa Hob. rewrite intersection_meet. destruct (shape_overlaps a b); [|done]. intros [= <-].
  assert (H : ∀ x y, shape_ok x → shape_ok y → shape_ok (meet x y)).
  { intros x y Hx Hy s Hs. apply list_elem_of_lookup in Hs as [i Hi]. simpl in Hi. rewrite list_lookup_imap in Hi.
    apply fmap_Some in Hi as (s0 & Hs0 & ->). unfold narrower. destruct (sh_fixed y !! i) as [[t|n|n]|] eqn:E;
      try (by apply Hx; eapply list_elem_of_lookup_2). by apply Hy; eapply list_elem_of_lookup_2. }
  case_bool_decide; by apply H.
Qed.

(** ** A path of a shape *)

Definition sample_at (n : nat) (s : Segment) : str :=
  match s with Static t => t | _ => replicate (S n) "x"%char end.

(** Pieces of a shape, a parameter's longer than [n], with [extra] pieces where it is open. *)
Definition sample (n extra : nat) (sh : Shape) : list str :=
  (sample_at n <$> sh_fixed sh) ++ replicate extra ["x"%char].

Lemma sample_piece n extra sh p : shape_ok sh → p ∈ sample n extra sh → p ≠ [] ∧ "/"%char ∉ p.
Proof.
  intros Hok [(s & -> & Hs)%list_elem_of_fmap|Hp]%elem_of_app.
  - apply Hok in Hs. destruct s as [t|m|m]; [done| |done]. simpl. split; [done|].
    intros Hin. apply elem_of_cons in Hin as [|Hin]; [done|]. by apply elem_of_replicate in Hin as [? _].
  - apply elem_of_replicate in Hp as [-> _]. split; [done|]. by intros ?%list_elem_of_singleton.
Qed.

Lemma sample_sendable n extra sh : shape_ok sh → sendable (sample n extra sh).
Proof.
  intros Hok. split; [intros p Hp; by apply (sample_piece n extra sh)|].
  intros (k & E)%last_Some. assert (Hp : [] ∈ sample n extra sh) by (rewrite E; set_solver). by apply sample_piece in Hp as [? _].
Qed.

Lemma sample_length n extra sh : length (sample n extra sh) = length (sh_fixed sh) + extra.
Proof. unfold sample. by rewrite length_app, length_fmap, length_replicate. Qed.

Lemma sample_lookup n extra sh i s : sh_fixed sh !! i = Some s → sample n extra sh !! i = Some (sample_at n s).
Proof. intros Hs. unfold sample. apply lookup_app_l_Some. by rewrite list_lookup_fmap, Hs. Qed.

Lemma sample_fits n extra sh : shape_ok sh → of_length sh (length (sh_fixed sh) + extra) → shape_fits sh (sample n extra sh) = true.
Proof.
  intros Hok Hlen. apply shape_fits_true. rewrite sample_length. split; [done|]. intros i s p Hs Hp.
  rewrite (sample_lookup _ _ _ _ _ Hs) in Hp. injection Hp as <-.
  assert (Hoks : segment_ok s) by (apply Hok; by eapply list_elem_of_lookup_2).
  destruct s as [t|m|m]; [|done|done]. simpl. unfold static_matches. by rewrite bool_decide_eq_true_2.
Qed.

Definition extra_of (sh : Shape) : nat := if sh_open sh then 1 else 0.

(** Two shapes overlap exactly when a path is of both, when no static text holds a [%]. *)
Lemma overlaps_exact a b : shape_ok a → shape_ok b → shape_plain a → shape_plain b →
  shape_overlaps a b = true ↔ ∃ ps, sendable ps ∧ (∀ p, p ∈ ps → p ≠ []) ∧ shape_fits a ps = true ∧ shape_fits b ps = true.
Proof.
  intros Hoa Hob Hpa Hpb. split; [|intros (ps & _ & _ & Ha & Hb); by eapply overlaps_complete].
  intros Ho. destruct (shape_intersection a b) as [sh|] eqn:E; [|by rewrite intersection_meet, Ho in E].
  pose proof (intersection_ok a b sh Hoa Hob E) as Hok.
  exists (sample 0 (extra_of sh) sh). split; [by apply sample_sendable|]. split; [intros p Hp; by eapply sample_piece|].
  apply (intersection_spec a b sh _ Hoa Hob E). apply sample_fits; [done|]. unfold of_length, extra_of. destruct (sh_open sh); lia.
Qed.

(** A static segment shorter than a parameter's sample does not match it. *)
Definition statics_length (sh : Shape) : nat :=
  total ((λ s, match s with Static t => length t | _ => 0 end) <$> sh_fixed sh).

Lemma statics_bound sh t : Static t ∈ sh_fixed sh → length t ≤ statics_length sh.
Proof.
  unfold statics_length. induction (sh_fixed sh) as [|s l IH]; [by intros ?%not_elem_of_nil|].
  rewrite fmap_cons, total_cons. intros [<-|Hin]%elem_of_cons; [lia|]. apply IH in Hin. lia.
Qed.

Lemma sample_plain n s : segment_plain s → "%"%char ∉ sample_at n s.
Proof.
  destruct s; [done|..]; intros _; unfold sample_at; by intros [? _]%elem_of_replicate.
Qed.

(** A shape contains another exactly when it matches all that the other matches, when no static
    text holds a [%]. *)
Lemma contains_exact a b : shape_ok a → shape_ok b → shape_plain a → shape_plain b →
  shape_contains a b = true ↔
  ∀ ps, sendable ps → (∀ p, p ∈ ps → p ≠ []) → shape_fits b ps = true → shape_fits a ps = true.
Proof.
  intros Hoa Hob Hpa Hpb. split; [intros Hc ps _ _; by apply contains_sound|]. intros Hall.
  assert (Hs : ∀ extra, of_length b (length (sh_fixed b) + extra) →
    of_length a (length (sh_fixed b) + extra)
    ∧ ∀ i s t, sh_fixed a !! i = Some s → sh_fixed b !! i = Some t → covers_at s (sample_at (statics_length a) t) = true).
  { intros extra He. pose proof (Hall (sample (statics_length a) extra b) (sample_sendable _ _ _ Hob)
      ltac:(intros p Hp; by eapply sample_piece) (sample_fits _ _ _ Hob He)) as H.
    apply shape_fits_true in H as [Hl H]. rewrite sample_length in Hl. split; [done|].
    intros i s t Hi Ht. apply (H i); [done|]. by apply sample_lookup. }
  apply shape_contains_true. split.
  - pose proof (Hs 0) as H0. pose proof (Hs 1) as H1. pose proof (Hs 2) as H2. unfold of_length in *.
    destruct (sh_open a), (sh_open b).
    + destruct (H1 ltac:(lia)). lia.
    + destruct (H0 ltac:(lia)). lia.
    + destruct (H1 ltac:(lia)), (H2 ltac:(lia)). lia.
    + destruct (H0 ltac:(lia)). lia.
  - intros i s t Hi Ht. destruct (Hs (extra_of b)) as [_ H].
    { unfold of_length, extra_of. destruct (sh_open b); lia. }
    specialize (H i s t Hi Ht). apply list_elem_of_lookup_2 in Hi, Ht. pose proof (Hoa s Hi) as Hos. pose proof (Hob t Ht) as Hot.
    destruct s as [x|m|m]; [|done|done]. unfold covers_at in H. apply static_matches_plain in H; [|by apply (Hpa (Static x))].
    rewrite decode_plain in H by (apply sample_plain; by apply Hpb).
    destruct t as [y|m|m]; [by apply bool_decide_eq_true| |done].
    exfalso. apply statics_bound in Hi. rewrite <- H in Hi. unfold sample_at in Hi. rewrite length_replicate in Hi. lia.
Qed.

(** ** Routes as shapes *)

Definition is_rest (s : Segment) : bool := match s with Rest _ => true | _ => false end.

Lemma route_fits_closed segments ps : (∀ s, s ∈ segments → is_rest s = false) →
  route_fits segments ps = shape_fits {| sh_fixed := segments; sh_open := false |} ps.
Proof.
  unfold shape_fits. simpl. revert ps. induction segments as [|s segments IH]; intros [|p ps] Hno.
  - done.
  - done.
  - simpl. by destruct s.
  - assert (Hs : is_rest s = false) by (apply Hno; by left).
    assert (E : route_fits (s :: segments) (p :: ps) = covers_at s p && route_fits segments ps) by by destruct s.
    rewrite E, IH by (intros s' Hs'; apply Hno; by right). simpl. rewrite andb_assoc, (andb_comm (covers_at s p)), <- andb_assoc.
    f_equal. apply bool_decide_ext. lia.
Qed.

Definition opens (sh : Shape) (ps : list str) : bool :=
  if sh_open sh then match ps !! length (sh_fixed sh) with Some p => negb (bool_decide (p = [])) | None => false end else true.

Lemma route_fits_open fixed name ps : (∀ s, s ∈ fixed → is_rest s = false) →
  let sh := {| sh_fixed := fixed; sh_open := true |} in
  route_fits (fixed ++ [Rest name]) ps = shape_fits sh ps && opens sh ps.
Proof.
  cbv zeta. unfold shape_fits, opens. simpl. revert ps. induction fixed as [|s fixed IH]; intros [|p ps] Hno.
  - done.
  - done.
  - simpl. by destruct s.
  - assert (Hs : is_rest s = false) by (apply Hno; by left).
    assert (E : route_fits ((s :: fixed) ++ [Rest name]) (p :: ps) = covers_at s p && route_fits (fixed ++ [Rest name]) ps) by by destruct s.
    rewrite E, IH by (intros s' Hs'; apply Hno; by right). simpl.
    rewrite !andb_assoc, (andb_comm (covers_at s p)), <- !andb_assoc. f_equal. apply bool_decide_ext. lia.
Qed.

(** A rest is the last segment only. *)
Definition rest_last (segments : list Segment) : Prop := ∀ i name, segments !! i = Some (Rest name) → S i = length segments.

Lemma rest_last_fixed fixed s : rest_last (fixed ++ [s]) → ∀ x, x ∈ fixed → is_rest x = false.
Proof.
  intros H x Hx. apply list_elem_of_lookup in Hx as [i Hi]. destruct x as [t|n|n]; [done|done|].
  pose proof (H i n ltac:(by apply lookup_app_l_Some)) as E. apply lookup_lt_Some in Hi. rewrite length_app in E. simpl in E. lia.
Qed.

(** A route matches the paths of its shape with something where its rest starts. *)
Lemma route_fits_shape p ps : rest_last (pt_segments p) →
  route_fits (pt_segments p) ps = shape_fits (pattern_shape p) ps && opens (pattern_shape p) ps.
Proof.
  intros Hr. unfold pattern_shape. destruct (last (pt_segments p)) as [s|] eqn:E.
  - apply last_Some in E as (fixed & E). rewrite E in Hr. pose proof (rest_last_fixed _ _ Hr) as Hno. destruct s as [t|n|n].
    + rewrite andb_true_r. apply route_fits_closed. rewrite E. intros s [Hs|Hs]%elem_of_app; [by apply Hno|].
      by apply list_elem_of_singleton in Hs as ->.
    + rewrite andb_true_r. apply route_fits_closed. rewrite E. intros s [Hs|Hs]%elem_of_app; [by apply Hno|].
      by apply list_elem_of_singleton in Hs as ->.
    + rewrite E. rewrite length_app. simpl length. replace (length fixed + 1 - 1) with (length fixed) by lia. rewrite take_app_length.
      by apply route_fits_open.
  - apply last_None in E. rewrite andb_true_r. apply route_fits_closed. rewrite E. by intros s ?%not_elem_of_nil.
Qed.

End Env.
