(* ===== verification/ParseFacts.v ===== *)
(** * ParseFacts: the route-pattern grammar *)

From S2P Require Import Prelude Text Pattern PatternFacts.
Local Open Scope nat_scope.

Section Env.
Context `{Henv : HttpEnv}.

(** ** The grammar *)

(** What a piece of a pattern reads as. *)
Inductive reads (scope : bool) : str → Segment → Prop :=
| reads_static piece : piece ≠ [] → "{"%char ∉ piece → "}"%char ∉ piece → (scope = true → piece ≠ ["*"%char]) →
    reads scope piece (Static (decode piece))
| reads_param name : check_name name = inr () → reads scope ("{"%char :: name ++ ["}"%char]) (Param name)
| reads_rest name : check_name name = inr () → reads scope ("{"%char :: "*"%char :: name ++ ["}"%char]) (Rest name)
| reads_wildcard : scope = true → reads scope ["*"%char] (Rest ["*"%char]).

(** The names a segment records, a scope's wildcard none. *)
Definition recorded (s : Segment) : list str :=
  match s with
  | Static _ => []
  | Param name => [name]
  | Rest name => if bool_decide (name = ["*"%char]) then [] else [name]
  end.

Lemma check_name_star s : check_name ("*"%char :: s) ≠ inr ().
Proof. unfold check_name. cbn [chars]. by vm_compute. Qed.

Lemma valid_not_star name : check_name name = inr () → name ≠ ["*"%char].
Proof. intros H ->. by apply (check_name_star []). Qed.

Lemma recorded_rest name : check_name name = inr () → recorded (Rest name) = [name].
Proof. intros H. simpl. by rewrite bool_decide_eq_false_2 by by apply valid_not_star. Qed.

Lemma named_spec names name names' : named names name = inr names' ↔ (name ∉ names) ∧ names' = names ++ [name].
Proof.
  unfold named. destruct (Prelude.contains names name) eqn:E.
  - apply contains_true in E. naive_solver.
  - apply contains_false in E. naive_solver.
Qed.

Lemma parse_piece_sound scope last index names piece s names' : parse_piece scope last index names piece = inr (s, names') →
  reads scope piece s ∧ (is_rest s = true → index = last) ∧ (∀ n, n ∈ recorded s → n ∉ names) ∧ names' = names ++ recorded s.
Proof.
  unfold parse_piece. case_bool_decide as Hne; [done|].
  destruct (scope && bool_decide (piece = ["*"%char])) eqn:Ew.
  { apply andb_true_iff in Ew as [-> ->%bool_decide_eq_true]. case_bool_decide as Hl; [|done]. intros [= <- <-].
    split_and!; [by apply reads_wildcard|done|by intros n ?%not_elem_of_nil|by rewrite app_nil_r]. }
  destruct (strip_prefix _ piece) as [inner|] eqn:E1.
  - apply strip_prefix_Some in E1 as ->. destruct (strip_suffix _ inner) as [inner'|] eqn:E2; [|done].
    apply strip_suffix_Some in E2 as ->. destruct (strip_prefix _ inner') as [name|] eqn:E3.
    + apply strip_prefix_Some in E3 as ->. destruct (check_name name) as [|[]] eqn:Ec; [done|].
      clear Ew. case_bool_decide as Hl; [|done]. destruct (named names name) as [|ns] eqn:En; [done|]. apply named_spec in En as [Hn ->].
      intros [= <- <-]. rewrite recorded_rest by done.
      split_and!; [by apply reads_rest|done|by intros n ->%list_elem_of_singleton|done].
    + destruct (check_name inner') as [|[]] eqn:Ec; [done|]. destruct (named names inner') as [|ns] eqn:En; [done|].
      apply named_spec in En as [Hn ->]. intros [= <- <-].
      split_and!; [by apply reads_param|done|by intros n ->%list_elem_of_singleton|done].
  - destruct (_ || _) eqn:Eb; [done|]. apply orb_false_iff in Eb as [H1%contains_false H2%contains_false].
    intros [= <- <-]. split_and!; [|done|by intros n ?%not_elem_of_nil|by rewrite app_nil_r].
    apply reads_static; try done. intros Hs Hp. subst. by vm_compute in Ew.
Qed.

Lemma parse_piece_complete scope last index names piece s : reads scope piece s → (is_rest s = true → index = last) →
  (∀ n, n ∈ recorded s → n ∉ names) → parse_piece scope last index names piece = inr (s, names ++ recorded s).
Proof.
  intros Hr Hl Hn. unfold parse_piece. destruct Hr as [piece Hne Ho Hc Hw|name Hc|name Hc|Hw].
  - rewrite bool_decide_eq_false_2 by done.
    assert (Ew : scope && bool_decide (piece = ["*"%char]) = false).
    { destruct scope; [|done]. simpl. apply bool_decide_eq_false. by apply Hw. }
    rewrite Ew. assert (E1 : strip_prefix ["{"%char] piece = None).
    { apply strip_prefix_None. intros t ->. set_solver. }
    rewrite E1, (proj2 (contains_false piece "{"%char) Ho), (proj2 (contains_false piece "}"%char) Hc). simpl. by rewrite app_nil_r.
  - rewrite bool_decide_eq_false_2 by done. rewrite (bool_decide_eq_false_2 (_ = ["*"%char])) by done. rewrite andb_false_r.
    rewrite (proj2 (strip_prefix_Some ["{"%char] _ (name ++ ["}"%char]))) by done.
    rewrite (proj2 (strip_suffix_Some ["}"%char] _ name)) by done.
    assert (E3 : strip_prefix ["*"%char] name = None).
    { apply strip_prefix_None. intros t ->. by apply (check_name_star t). }
    rewrite E3, Hc. rewrite (proj2 (named_spec names name (names ++ [name]))); [done|]. split; [|done]. apply Hn. by left.
  - rewrite bool_decide_eq_false_2 by done. rewrite (bool_decide_eq_false_2 (_ = ["*"%char])) by done. rewrite andb_false_r.
    rewrite (proj2 (strip_prefix_Some ["{"%char] _ ("*"%char :: name ++ ["}"%char]))) by done.
    rewrite (proj2 (strip_suffix_Some ["}"%char] _ ("*"%char :: name))) by done.
    rewrite (proj2 (strip_prefix_Some ["*"%char] _ name)) by done. rewrite Hc, bool_decide_eq_true_2 by by apply Hl.
    rewrite recorded_rest in * by done.
    rewrite (proj2 (named_spec names name (names ++ [name]))); [done|]. split; [|done]. apply Hn. by left.
  - subst scope. rewrite bool_decide_eq_false_2 by done. rewrite (bool_decide_eq_true_2 (_ = ["*"%char])) by done. simpl.
    rewrite bool_decide_eq_true_2 by by apply Hl. by rewrite app_nil_r.
Qed.

Definition all_names (segments : list Segment) : list str := segments ≫= recorded.

Lemma parse_pieces_spec scope last index names pieces segments : parse_pieces scope last index names pieces = inr segments ↔
  Forall2 (reads scope) pieces segments ∧ (∀ i s, segments !! i = Some s → is_rest s = true → index + i = last)
  ∧ NoDup (all_names segments) ∧ (∀ n, n ∈ all_names segments → n ∉ names).
Proof.
  revert index names segments. induction pieces as [|piece pieces IH]; intros index names segments; simpl.
  - split.
    + intros [= <-]. split_and!; [done|by intros i s H; rewrite lookup_nil in H|constructor|by intros n ?%not_elem_of_nil].
    + intros (H & _). by apply Forall2_nil_inv_l in H as ->.
  - split.
    + destruct (parse_piece _ _ _ _ _) as [|[s names']] eqn:E; [done|]. apply parse_piece_sound in E as (Hr & Hl & Hn & ->).
      destruct (parse_pieces _ _ _ _ _) as [|segs] eqn:Es; [done|]. intros [= <-]. apply IH in Es as (Hf & Hrest & Hnd & Hfresh).
      split_and!; [by constructor| |..].
      * intros [|i] s'; simpl; [intros [= <-] Hs; specialize (Hl Hs); lia|]. intros Hi Hs. specialize (Hrest i s' Hi Hs). lia.
      * unfold all_names. cbn. apply NoDup_app. split_and!; [destruct s; simpl; try case_bool_decide; repeat constructor; set_solver| |done].
        intros n Hin Hin'. apply (Hfresh n Hin'). set_solver.
      * unfold all_names. cbn. intros n [Hin|Hin]%elem_of_app; [by apply Hn|]. specialize (Hfresh n Hin). set_solver.
    + intros (Hf & Hrest & Hnd & Hfresh). apply Forall2_cons_inv_l in Hf as (s & segs & Hr & Hf & ->).
      unfold all_names in *. cbn in Hnd, Hfresh. apply NoDup_app in Hnd as (_ & Hdis & Hnd).
      rewrite (parse_piece_complete scope last index names piece s); [|done| |].
      * rewrite (proj2 (IH (S index) (names ++ recorded s) segs)); [done|]. split_and!; [done| |done|].
        -- intros i s' Hi Hs. specialize (Hrest (S i) s' Hi Hs). lia.
        -- intros n Hin. specialize (Hfresh n). set_solver.
      * intros Hs. specialize (Hrest 0 s eq_refl Hs). lia.
      * intros n Hin. apply Hfresh. set_solver.
Qed.

(** ** Whole patterns *)

Lemma normalize_slash text : starts_with ["/"%char] text = true → ∃ u, normalize text = "/"%char :: u.
Proof.
  intros (t & ->)%starts_with_spec. destruct (normalize_spec (["/"%char] ++ t)) as [E|[Hne E]]; [rewrite E; by exists t|].
  destruct (normalize (["/"%char] ++ t)) as [|a u]; [done|]. simpl in E. injection E as <- _. by exists u.
Qed.

Lemma normalize_starts text u : normalize text = "/"%char :: u → starts_with ["/"%char] text = true.
Proof.
  intros E. apply starts_with_spec. destruct (normalize_spec text) as [E'|[_ E']]; [exists u; simpl; congruence|].
  rewrite E', E. by exists (u ++ ["/"%char]).
Qed.

Lemma join_on_nil c (ps : list str) : join_on c ps = [] → ps = [] ∨ ps = [[]].
Proof. destruct ps as [|p [|q ps]]; [by left|simpl; intros ->; by right|]. simpl. by destruct p. Qed.

(** The grammar, as a statement: a path of pieces, a slash more at the end or not, each read as a
    segment, the rest last and no name twice. *)
Definition grammar (scope : bool) (text : str) (segments : list Segment) : Prop :=
  ∃ pieces, normalize text = path_of pieces ∧ (∀ p, p ∈ pieces → "/"%char ∉ p)
    ∧ Forall2 (reads scope) pieces segments ∧ rest_last segments ∧ NoDup (all_names segments).

Lemma reads_nonempty scope piece s : reads scope piece s → piece ≠ [].
Proof. by destruct 1. Qed.

Lemma rest_last_at segments : rest_last segments ↔ ∀ i s, segments !! i = Some s → is_rest s = true → 0 + i = length segments - 1.
Proof.
  split.
  - intros H i s Hi Hs. destruct s; try done. apply H in Hi. lia.
  - intros H i name Hi. pose proof (H i _ Hi eq_refl). apply lookup_lt_Some in Hi. lia.
Qed.

Lemma parse_segments_spec text scope segments : parse_segments text scope = inr segments ↔ grammar scope text segments.
Proof.
  unfold parse_segments, grammar. destruct (starts_with _ text) eqn:Es; simpl.
  - destruct (normalize_slash text Es) as [u Hu]. rewrite Hu. case_bool_decide as Hroot.
    + injection Hroot as ->. split.
      * intros [= <-]. exists []. split_and!; [done|by intros p ?%not_elem_of_nil|done| |constructor].
        intros i name Hi. by rewrite lookup_nil in Hi.
      * intros (pieces & E & _ & Hf & _). unfold path_of in E. injection E as E. symmetry in E. apply join_on_nil in E as [-> | ->].
        -- by apply Forall2_nil_inv_l in Hf as ->.
        -- apply Forall2_cons_inv_l in Hf as (s & k & Hr & _). by apply reads_nonempty in Hr.
    + change (drop 1 ("/"%char :: u)) with u. assert (Hune : u ≠ []) by congruence. rewrite parse_pieces_spec. split.
      * intros (Hf & Hl & Hnd & _). exists (split_on "/"%char u). unfold path_of. rewrite join_split.
        split_and!; [done|intros p; apply split_on_no_sep|done| |done]. apply rest_last_at.
        intros i s Hi Hs. rewrite <- (Forall2_length _ _ _ Hf). by apply (Hl i s).
      * intros (pieces & E & Hno & Hf & Hl & Hnd). unfold path_of in E. injection E as ->.
        rewrite split_join; [|intros ->; by apply Hune|done].
        split_and!; [done| |done|by intros n _ ?%not_elem_of_nil].
        intros i s Hi Hs. rewrite (Forall2_length _ _ _ Hf). by apply (proj1 (rest_last_at segments) Hl i s).
  - split; [done|]. intros (pieces & E & _). apply normalize_starts in E. congruence.
Qed.

Lemma pattern_parse_spec text p : pattern_parse text = inr p ↔ grammar false text (pt_segments p) ∧ pt_raw p = normalize text.
Proof.
  unfold pattern_parse. rewrite <- parse_segments_spec. destruct (parse_segments text false) as [r|segs]; [naive_solver|].
  split; [by intros [= <-]|]. intros [[= ->] H]. f_equal. destruct p; simpl in *; congruence.
Qed.

(** A pattern's own text is normalized, so it parses to the pattern again. *)
Lemma grammar_normalized scope text segments : grammar scope text segments → normalize (normalize text) = normalize text.
Proof.
  intros (pieces & E & Hno & Hf & _). rewrite E. destruct (last pieces) as [p|] eqn:El.
  - apply normalize_open. unfold path_of. assert (Hp : p ∈ pieces) by (apply last_Some in El as (k & ->); set_solver).
    apply list_elem_of_lookup in Hp as [i Hi]. destruct (Forall2_lookup_l _ _ _ _ _ Hf Hi) as (s & _ & Hr).
    assert (Hne : p ≠ []) by by eapply reads_nonempty.
    rewrite last_cons, (join_on_last _ _ _ El Hne). destruct (last p) as [c|] eqn:Ec; [|by apply last_None in Ec].
    intros [= ->]. apply last_Some in Ec as (k & ->). apply (Hno (k ++ ["/"%char])); [by eapply list_elem_of_lookup_2|set_solver].
  - by apply last_None in El as ->.
Qed.

Lemma grammar_raw scope text segments : grammar scope text segments → grammar scope (normalize text) segments.
Proof.
  intros Hg. pose proof (grammar_normalized _ _ _ Hg) as E. destruct Hg as (pieces & Hn & Hrest). exists pieces. by rewrite E.
Qed.

Lemma pattern_parse_raw text p : pattern_parse text = inr p → pattern_parse (pt_raw p) = inr p.
Proof.
  rewrite !pattern_parse_spec. intros [Hg E]. rewrite E. split; [by apply grammar_raw|]. symmetry. by eapply grammar_normalized.
Qed.

(** ** The compile-time check *)

Lemma macro_check_name_eq name : macro_check_name name = check_name name.
Proof. reflexivity. Qed.

Lemma macro_check_piece_eq last index names piece : macro_check_piece last index names piece =
  match parse_piece false last index names piece with inl reason => inl reason | inr (_, names) => inr names end.
Proof.
  unfold macro_check_piece, parse_piece, named. change (@macro_check_name Henv) with (@check_name Henv).
  destruct (bool_decide (piece = [])); [done|]. rewrite andb_false_l.
  destruct (strip_prefix ["{"%char] piece) as [inner|]; [|by destruct (_ || _)].
  destruct (strip_suffix ["}"%char] inner) as [inner'|]; [|done].
  destruct (strip_prefix ["*"%char] inner') as [name|].
  - destruct (check_name name); [done|]. destruct (bool_decide (index = last)); [|done]. by destruct (Prelude.contains names name).
  - destruct (check_name inner'); [done|]. by destruct (Prelude.contains names inner').
Qed.

Lemma macro_check_pieces_eq last index names pieces : macro_check_pieces last index names pieces =
  match parse_pieces false last index names pieces with inl reason => inl reason | inr _ => inr () end.
Proof.
  revert index names. induction pieces as [|piece pieces IH]; intros index names; [done|]. cbn [macro_check_pieces parse_pieces].
  rewrite macro_check_piece_eq. destruct (parse_piece _ _ _ _ _) as [|[s ns]]; [done|]. rewrite IH. by destruct (parse_pieces _ _ _ _ _).
Qed.

Lemma macro_check_eq text : macro_check text = match pattern_parse text with inl err => inl (pe_reason err) | inr _ => inr () end.
Proof.
  unfold macro_check, pattern_parse, parse_segments. fold (normalize text). destruct (starts_with _ text); [|done]. simpl.
  case_bool_decide; [done|]. rewrite macro_check_pieces_eq. by destruct (parse_pieces _ _ _ _ _).
Qed.
End Env.

(** ** What parsing leaves *)

Section Parsed.
Context `{Henv : HttpEnv, Hdec : !PercentDecoding}.

Lemma reads_ok scope piece s : "/"%char ∉ piece → reads scope piece s → is_rest s = false → segment_ok s.
Proof.
  intros Hp Hr. revert Hp. destruct Hr as [q Hne _ _ _|name _|name _|_]; simpl; [|done|done|done].
  intros Hp _. split; [by apply decode_nonempty|by apply decode_no_slash].
Qed.

Lemma grammar_ok scope text segments s : grammar scope text segments → s ∈ segments → is_rest s = false → segment_ok s.
Proof.
  intros (pieces & _ & Hno & Hf & _) Hs. apply list_elem_of_lookup in Hs as [i Hi].
  destruct (Forall2_lookup_r _ _ _ _ _ Hf Hi) as (piece & Hp & Hr). eapply reads_ok; [|done].
  apply Hno. by eapply list_elem_of_lookup_2.
Qed.

(** A pattern of the parser. *)
Record parsed (p : Pattern) : Prop := {
  ps_rest : rest_last (pt_segments p);
  ps_shape : shape_ok (pattern_shape p);
  ps_names : NoDup (param_names p);
}.

Lemma plain_recorded text segments : grammar false text segments →
  all_names segments = omap (λ s, match s with Param name | Rest name => Some name | Static _ => None end) segments.
Proof.
  intros (pieces & _ & _ & Hf & _ & _). unfold all_names. induction Hf as [|piece s pieces segments Hr _ IH]; [done|]. cbn. rewrite IH.
  destruct Hr as [| |name Hn|]; [done|done| |done]. by rewrite recorded_rest.
Qed.

Definition before_rest (segments : list Segment) : list Segment :=
  match last segments with Some (Rest _) => take (length segments - 1) segments | _ => segments end.

Lemma before_rest_in segments x : rest_last segments → x ∈ before_rest segments → x ∈ segments ∧ is_rest x = false.
Proof.
  unfold before_rest. intros Hl. destruct (last segments) as [y|] eqn:E; [|apply last_None in E as ->; by intros ?%not_elem_of_nil].
  apply last_Some in E as (k & ->). pose proof (rest_last_fixed _ _ Hl) as Hk. destruct y as [t|n|n].
  - intros Hx. split; [done|]. apply elem_of_app in Hx as [Hx|Hx]; [by apply Hk|by apply list_elem_of_singleton in Hx as ->].
  - intros Hx. split; [done|]. apply elem_of_app in Hx as [Hx|Hx]; [by apply Hk|by apply list_elem_of_singleton in Hx as ->].
  - rewrite length_app. simpl. replace (length k + 1 - 1) with (length k) by lia. rewrite take_app_length.
    intros Hx. split; [set_solver|by apply Hk].
Qed.

Lemma pattern_shape_fixed p : sh_fixed (pattern_shape p) = before_rest (pt_segments p).
Proof. unfold pattern_shape, before_rest. by destruct (last (pt_segments p)) as [[]|]. Qed.

Lemma pattern_parsed text p : pattern_parse text = inr p → parsed p.
Proof.
  intros [Hg Hraw]%pattern_parse_spec. pose proof Hg as (_ & _ & _ & _ & Hl & Hnd). split; [done| |].
  - intros s Hs. rewrite pattern_shape_fixed in Hs. apply before_rest_in in Hs as [Hin Hr]; [|done]. by eapply grammar_ok.
  - unfold param_names. by rewrite <- (plain_recorded text).
Qed.

Record scope_parsed (s : ScopePattern) : Prop := { sps_shape : shape_ok (scope_shape s) }.

Lemma scope_is_parsed text s : scope_parse text = inr s → scope_parsed s.
Proof.
  unfold scope_parse. destruct (parse_segments text true) as [|segs] eqn:E; [done|]. intros [= <-].
  apply parse_segments_spec in E as Hg. pose proof Hg as (_ & _ & _ & _ & Hl & _). split. intros x Hx. simpl in Hx.
  assert (Hx' : x ∈ before_rest segs) by (revert Hx; unfold before_rest; by destruct (last segs) as [[]|]).
  apply before_rest_in in Hx' as [Hin Hr]; [|done]. by eapply grammar_ok.
Qed.
End Parsed.

(** ** Joining a prefix and a route *)

Lemma trim_start_same c s : trim_start_char c (c :: s) = trim_start_char c s.
Proof. simpl. by rewrite bool_decide_eq_true_2. Qed.

Lemma trim_start_stop c (s : str) : head s ≠ Some c → trim_start_char c s = s.
Proof. destruct s as [|b s]; [done|]. simpl. intros H. rewrite bool_decide_eq_false_2; [done|congruence]. Qed.

Lemma trim_end_same c s : trim_end_char c (s ++ [c]) = trim_end_char c s.
Proof. unfold trim_end_char. rewrite reverse_app. f_equal. apply trim_start_same. Qed.

Lemma trim_end_stop c (s : str) : last s ≠ Some c → trim_end_char c s = s.
Proof.
  intros H. unfold trim_end_char. rewrite trim_start_stop; [apply reverse_involutive|]. by rewrite <- last_reverse, reverse_involutive.
Qed.

Lemma join_on_app c (ps rs : list str) : ps ≠ [] → rs ≠ [] → join_on c (ps ++ rs) = join_on c ps ++ c :: join_on c rs.
Proof.
  intros Hp Hr. induction ps as [|p ps IH]; [done|]. destruct ps as [|q ps]; [by destruct rs|].
  change (join_on c ((p :: q :: ps) ++ rs)) with (p ++ c :: join_on c ((q :: ps) ++ rs)).
  rewrite IH by done. change (join_on c (p :: q :: ps)) with (p ++ c :: join_on c (q :: ps)). by rewrite <- app_assoc.
Qed.

(** Pieces as a pattern has them. *)
Definition solid (ps : list str) : Prop := ∀ p, p ∈ ps → p ≠ [] ∧ "/"%char ∉ p.

Lemma solid_last ps : solid ps → ps ≠ [] → last (path_of ps) ≠ Some "/"%char.
Proof.
  intros Hs Hne. destruct (last ps) as [p|] eqn:E; [|by apply last_None in E].
  assert (Hp : p ∈ ps) by (apply last_Some in E as (k & ->); set_solver). destruct (Hs p Hp) as [Hp1 Hp2].
  unfold path_of. rewrite last_cons, (join_on_last _ _ _ E Hp1). destruct (last p) as [c|] eqn:Ec; [|by apply last_None in Ec].
  intros [= ->]. apply last_Some in Ec as (k & ->). set_solver.
Qed.

Lemma solid_head ps tail : solid ps → ps ≠ [] → head (join_on "/"%char ps ++ tail) ≠ Some "/"%char.
Proof.
  intros Hs Hne. destruct ps as [|p ps]; [done|]. destruct (Hs p ltac:(by left)) as [Hp1 Hp2]. destruct p as [|a p]; [done|].
  destruct ps; simpl; intros [= ->]; set_solver.
Qed.

(** A text whose normalized form is a path: that path, or it and a slash. *)
Lemma normalized_path text ps : normalize text = path_of ps → text = path_of ps ∨ text = path_of ps ++ ["/"%char].
Proof. intros E. destruct (normalize_spec text) as [E'|[_ E']]; rewrite E in E'; [by left|by right]. Qed.

Lemma normalize_solid ps tail : solid ps → tail = [] ∨ tail = ["/"%char] → normalize (path_of ps ++ tail) = path_of ps.
Proof.
  intros Hs [-> | ->].
  - rewrite app_nil_r. destruct (decide (ps = [])) as [->|Hne]; [done|]. by apply normalize_open, solid_last.
  - unfold normalize. rewrite (proj2 (strip_suffix_Some ["/"%char] _ (path_of ps))) by done. by rewrite bool_decide_eq_false_2.
Qed.

Lemma trimmed_prefix ps tail : solid ps → tail = [] ∨ tail = ["/"%char] →
  trim_end_char "/"%char (path_of ps ++ tail) = if bool_decide (ps = []) then [] else path_of ps.
Proof.
  intros Hs Ht. assert (E : trim_end_char "/"%char (path_of ps ++ tail) = trim_end_char "/"%char (path_of ps)).
  { destruct Ht as [-> | ->]; [by rewrite app_nil_r|apply trim_end_same]. }
  rewrite E. case_bool_decide as Hp; [by subst|]. by apply trim_end_stop, solid_last.
Qed.

Lemma trimmed_route ps tail : solid ps → tail = [] ∨ tail = ["/"%char] →
  trim_start_char "/"%char (path_of ps ++ tail) = if bool_decide (ps = []) then [] else join_on "/"%char ps ++ tail.
Proof.
  intros Hs Ht. unfold path_of. rewrite <- app_comm_cons, trim_start_same. case_bool_decide as Hp.
  - subst. by destruct Ht as [-> | ->].
  - by apply trim_start_stop, solid_head.
Qed.

Lemma ends_with_last c (s : str) : ends_with [c] s = bool_decide (last s = Some c).
Proof.
  unfold ends_with. apply bool_decide_ext. unfold is_Some. setoid_rewrite strip_suffix_Some. rewrite last_Some. done.
Qed.

(** The pieces of a joined path are the prefix's, then the route's. *)
Lemma join_pieces prefix route ps rs : solid ps → solid rs → normalize prefix = path_of ps → normalize route = path_of rs →
  normalize (pattern_join prefix route) = path_of (ps ++ rs).
Proof.
  intros Hps Hrs Hp Hr.
  assert (Ht : ∀ text qs, normalize text = path_of qs → ∃ tail, text = path_of qs ++ tail ∧ (tail = [] ∨ tail = ["/"%char])).
  { intros text qs [->| ->]%normalized_path; [exists []; rewrite app_nil_r; split; [done|by left]|exists ["/"%char]; split; [done|by right]]. }
  destruct (Ht _ _ Hp) as (tp & -> & Htp), (Ht _ _ Hr) as (tr & -> & Htr). clear Ht Hp Hr.
  assert (Hsolid : solid (ps ++ rs)) by (intros p [Hin|Hin]%elem_of_app; [by apply Hps|by apply Hrs]).
  unfold pattern_join. rewrite trimmed_prefix, trimmed_route by done.
  set (joined := if starts_with _ _ then _ else _).
  assert (Ej : joined = path_of ps).
  { unfold joined. case_bool_decide; [by subst|]. by rewrite (proj2 (starts_with_spec _ _)); [|exists (join_on "/"%char ps)]. }
  rewrite Ej. clear joined Ej. destruct (decide (rs = [])) as [-> |Hrne].
  { rewrite !bool_decide_eq_true_2 by done. rewrite app_nil_r. rewrite <- (app_nil_r (path_of ps)) at 1. by apply normalize_solid; [|left]. }
  assert (Hj : join_on "/"%char rs ++ tr ≠ []).
  { intros [E _]%app_eq_nil. apply join_on_nil in E as [-> | ->]; [done|]. by destruct (Hrs [] ltac:(by left)). }
  rewrite (bool_decide_eq_false_2 (rs = [])) by done. rewrite bool_decide_eq_false_2 by done.
  rewrite ends_with_last. destruct (decide (ps = [])) as [-> |Hpne].
  - rewrite bool_decide_eq_true_2 by done. simpl app at 2. change (path_of [] ++ join_on "/"%char rs ++ tr) with (path_of rs ++ tr).
    by apply normalize_solid.
  - rewrite bool_decide_eq_false_2.
    + rewrite <- (normalize_solid (ps ++ rs) tr Hsolid Htr). f_equal. unfold path_of. rewrite join_on_app by done.
      simpl. by rewrite <- !app_assoc.
    + by apply solid_last.
Qed.

Section Join.
Context `{Henv : HttpEnv}.

Lemma reads_solid scope pieces segments : (∀ p, p ∈ pieces → "/"%char ∉ p) → Forall2 (reads scope) pieces segments → solid pieces.
Proof.
  intros Hno Hf p Hp. split; [|by apply Hno]. apply list_elem_of_lookup in Hp as [i Hi].
  destruct (Forall2_lookup_l _ _ _ _ _ Hf Hi) as (s & _ & Hr). by eapply reads_nonempty.
Qed.

Lemma join_grammar prefix route ps rs : grammar false prefix ps → grammar false route rs →
  (∀ s, s ∈ ps → is_rest s = false) → (∀ n, n ∈ all_names ps → n ∉ all_names rs) →
  grammar false (pattern_join prefix route) (ps ++ rs).
Proof.
  intros (pp & Ep & Hnp & Hfp & _ & Hdp) (rp & Er & Hnr & Hfr & Hlr & Hdr) Hno Hdis. exists (pp ++ rp).
  split; [apply join_pieces; [by eapply reads_solid|by eapply reads_solid|done|done]|].
  split; [intros p [Hin|Hin]%elem_of_app; [by apply Hnp|by apply Hnr]|]. split; [by apply Forall2_app|]. split.
  - intros i name [Hi|[Hge Hi]]%lookup_app_Some.
    + apply list_elem_of_lookup_2 in Hi. by apply Hno in Hi.
    + apply Hlr in Hi. rewrite length_app. lia.
  - unfold all_names in *. rewrite bind_app. apply NoDup_app. split_and!; [done|done|done].
Qed.
End Join.
