(* ===== verification/PreDispatch.v ===== *)
(** * PreDispatch: the pre-dispatch stage

    [ulo-http/src/pre_dispatch.rs]: the builder of a module's entries, [Stage::build], the scoped
    stage of a route and the entries a request runs. Function pointers and middleware values are
    identifiers; what an entry does once it runs is its own. [Failure]s are the data their texts
    are written from. *)

From S2P Require Import Prelude Text Key Graph Pattern.
Local Open Scope nat_scope.

(** ** Entries as declared *)

Inductive Step :=
| ByType (resolve : nat)
| Value (middleware : nat)
| Layer (layer : nat)
| Adopt (copy : nat) (ty : TypeName).

Record Supply := { sy_ty : TypeName; sy_location : Location }.

Record Entry := {
  en_step : Step;
  en_scoped : bool;
  en_scope : list str;
  en_exclude : list str;
  en_supplies : list Supply;
  en_dependencies : option TypeName;
  en_check : option (unit → string + unit);
  en_cors : option nat;
  en_location : Location;
}.

Record PreDispatch := {
  pd_entries : list Entry;
  pd_stray_excludes : list Location;
  pd_stray_supplies : list Location;
  pd_adopt_supplies : list Location;
}.

Definition pre_dispatch_default : PreDispatch :=
  {| pd_entries := []; pd_stray_excludes := []; pd_stray_supplies := []; pd_adopt_supplies := [] |}.

Definition with_entries (p : PreDispatch) (entries : list Entry) : PreDispatch := {|
  pd_entries := entries; pd_stray_excludes := pd_stray_excludes p; pd_stray_supplies := pd_stray_supplies p;
  pd_adopt_supplies := pd_adopt_supplies p |}.

Definition pre_push (p : PreDispatch) (step : Step) (scope : option (list str)) (dependencies : option TypeName)
    (check : option (unit → string + unit)) (caller : Location) : PreDispatch :=
  with_entries p (pd_entries p ++ [{|
    en_step := step; en_scoped := bool_decide (is_Some scope); en_scope := default [] scope; en_exclude := [];
    en_supplies := []; en_dependencies := dependencies; en_check := check; en_cors := None; en_location := caller |}]).

Definition pre_apply (p : PreDispatch) (resolve : nat) (m : TypeName) (caller : Location) : PreDispatch :=
  pre_push p (ByType resolve) None (Some m) None caller.

(** [entries.last_mut()] changed by [f]. *)
Definition map_last (f : Entry → Entry) (l : list Entry) : list Entry :=
  match last l with
  | Some e => take (length l - 1) l ++ [f e]
  | None => l
  end.

Definition set_cors (cors : option nat) (e : Entry) : Entry := {|
  en_step := en_step e; en_scoped := en_scoped e; en_scope := en_scope e; en_exclude := en_exclude e;
  en_supplies := en_supplies e; en_dependencies := en_dependencies e; en_check := en_check e; en_cors := cors;
  en_location := en_location e |}.

(** [cors] is the value when it downcasts to [Cors], with the check that value runs. *)
Definition pre_apply_value (p : PreDispatch) (middleware : nat) (cors : option (nat * (unit → string + unit))) (caller : Location) : PreDispatch :=
  let p := pre_push p (Value middleware) None None (snd <$> cors) caller in
  with_entries p (map_last (set_cors (fst <$> cors)) (pd_entries p)).

Definition pre_apply_for (p : PreDispatch) (resolve : nat) (m : TypeName) (patterns : list str) (caller : Location) : PreDispatch :=
  pre_push p (ByType resolve) (Some patterns) (Some m) None caller.

Definition pre_layer (p : PreDispatch) (layer : nat) (caller : Location) : PreDispatch :=
  pre_push p (Layer layer) None None None caller.

Definition pre_layer_for (p : PreDispatch) (patterns : list str) (layer : nat) (caller : Location) : PreDispatch :=
  pre_push p (Layer layer) (Some patterns) None None caller.

Definition pre_adopt (p : PreDispatch) (copy : nat) (ty : TypeName) (caller : Location) : PreDispatch :=
  pre_push p (Adopt copy ty) None None None caller.

Definition add_supply (s : Supply) (e : Entry) : Entry := {|
  en_step := en_step e; en_scoped := en_scoped e; en_scope := en_scope e; en_exclude := en_exclude e;
  en_supplies := en_supplies e ++ [s]; en_dependencies := en_dependencies e; en_check := en_check e; en_cors := en_cors e;
  en_location := en_location e |}.

Definition pre_supplies (p : PreDispatch) (ty : TypeName) (caller : Location) : PreDispatch :=
  match last (pd_entries p) with
  | Some e =>
      match en_step e with
      | Adopt _ _ => {|
          pd_entries := pd_entries p; pd_stray_excludes := pd_stray_excludes p; pd_stray_supplies := pd_stray_supplies p;
          pd_adopt_supplies := pd_adopt_supplies p ++ [caller] |}
      | _ => with_entries p (map_last (add_supply {| sy_ty := ty; sy_location := caller |}) (pd_entries p))
      end
  | None => {|
      pd_entries := pd_entries p; pd_stray_excludes := pd_stray_excludes p; pd_stray_supplies := pd_stray_supplies p ++ [caller];
      pd_adopt_supplies := pd_adopt_supplies p |}
  end.

Definition add_exclude (patterns : list str) (e : Entry) : Entry := {|
  en_step := en_step e; en_scoped := en_scoped e; en_scope := en_scope e; en_exclude := en_exclude e ++ patterns;
  en_supplies := en_supplies e; en_dependencies := en_dependencies e; en_check := en_check e; en_cors := en_cors e;
  en_location := en_location e |}.

Definition pre_exclude (p : PreDispatch) (patterns : list str) (caller : Location) : PreDispatch :=
  match last (pd_entries p) with
  | Some _ => with_entries p (map_last (add_exclude patterns) (pd_entries p))
  | None => {|
      pd_entries := pd_entries p; pd_stray_excludes := pd_stray_excludes p ++ [caller]; pd_stray_supplies := pd_stray_supplies p;
      pd_adopt_supplies := pd_adopt_supplies p |}
  end.

(** ** The stage *)

Inductive Action :=
| RunByType (resolve : nat)
| RunValue (middleware : nat)
| RunLayer (layer : nat)
| RunAdopt (copy : nat).

Definition action_of (s : Step) : Action :=
  match s with
  | ByType resolve => RunByType resolve
  | Value middleware => RunValue middleware
  | Layer layer => RunLayer layer
  | Adopt copy _ => RunAdopt copy
  end.

Record Runnable := { ru_module : nat; ru_action : Action; ru_exclude : list ScopePattern }.

Record Filter := { fi_scope : list ScopePattern; fi_exclude : list ScopePattern }.

Record Covering := { cv_runnable : Runnable; cv_scope : list ScopePattern; cv_exclude : list ScopePattern }.

Definition covering_filter (c : Covering) : Filter := {| fi_scope := cv_scope c; fi_exclude := cv_exclude c |}.

(** A scoped entry as declared: its module, the [Arc] of the module's entries by its address, and
    its index there. *)
Record StageStep := { sp_module : nat; sp_meta : nat; sp_index : nat }.

Record ScopedStage := { ss_steps : list StageStep; ss_filters : list (option Filter); ss_run : list Runnable }.

Definition scoped_stage_empty : ScopedStage := {| ss_steps := []; ss_filters := []; ss_run := [] |}.

(** What [prepare] refuses, as data. *)
Inductive StageFailure :=
| StrayExclude (at_ : Location)
| StraySupplies (at_ : Location)
| AdoptSupplies (at_ : Location)
| CheckFailed (at_ : Location) (err : string)
| BadScope (at_ : Location) (pattern : str) (err : PatternError)
| UnreachableScope (at_ : Location) (what : string) (pattern segment : str)
| EmptyScope (at_ : Location)
| UnreachedScope (at_ : Location) (scope : str).

Record Stage := {
  st_scoped : list (StageStep * Location);
  st_shared : list ScopedStage;
  st_run : list Runnable;
  st_covering : list Covering;
  st_reached : list (list bool);
  st_unrouted : ScopedStage;
  st_cors : list (nat * list ScopePattern);
}.

Definition stage_empty : Stage := {|
  st_scoped := []; st_shared := []; st_run := []; st_covering := []; st_reached := []; st_unrouted := scoped_stage_empty;
  st_cors := [] |}.

Section Env.
Context `{HttpEnv}.

(** [patterns] parsed, each that does not parse refused, and with [routed] each no path reaches. *)
Definition scope_of (what : string) (routed : bool) (at_ : Location) (pattern : str) : StageFailure + ScopePattern :=
  match scope_parse pattern with
  | inl err => inl (BadScope at_ pattern err)
  | inr parsed =>
      match unreachable_segment (sp_raw parsed) (sp_segments parsed) with
      | Some segment => if routed then inl (UnreachableScope at_ what pattern segment) else inr parsed
      | None => inr parsed
      end
  end.

Definition scopes (patterns : list str) (what : string) (routed : bool) (at_ : Location) : list StageFailure * list ScopePattern :=
  let answers := scope_of what routed at_ <$> patterns in
  (omap (λ a, match a with inl f => Some f | inr _ => None end) answers,
   omap (λ a, match a with inl _ => None | inr s => Some s end) answers).

(** What [Stage::build] has so far. *)
Record Building := {
  bd_failures : list StageFailure;
  bd_scoped : list (StageStep * Location);
  bd_covering : list Covering;
  bd_reached : list (list bool);
  bd_cors : list (nat * list ScopePattern);
  bd_run : list Runnable;
}.

Definition building_start : Building :=
  {| bd_failures := []; bd_scoped := []; bd_covering := []; bd_reached := []; bd_cors := []; bd_run := [] |}.

Definition check_failures (e : Entry) : list StageFailure :=
  match en_check e with
  | Some check => match check () with inl err => [CheckFailed (en_location e) err] | inr _ => [] end
  | None => []
  end.

(** One entry of the module at [ptr]. *)
Definition build_entry (http : bool) (module ptr : nat) (b : Building) (index : nat) (e : Entry) : Building :=
  let '(exclude_failures, exclude) := scopes (en_exclude e) "exclusion" http (en_location e) in
  let failures := bd_failures b ++ check_failures e ++ exclude_failures in
  if negb (en_scoped e) then {|
    bd_failures := failures; bd_scoped := bd_scoped b; bd_covering := bd_covering b; bd_reached := bd_reached b;
    bd_cors := match en_cors e with Some cors => bd_cors b ++ [(cors, exclude)] | None => bd_cors b end;
    bd_run := bd_run b ++ [{| ru_module := module; ru_action := action_of (en_step e); ru_exclude := exclude |}] |}
  else
    let failures := if bool_decide (en_scope e = []) then failures ++ [EmptyScope (en_location e)] else failures in
    let '(scope_failures, scope) := scopes (en_scope e) "scope" http (en_location e) in
    {| bd_failures := failures ++ scope_failures;
       bd_scoped := bd_scoped b ++ [({| sp_module := module; sp_meta := ptr; sp_index := index |}, en_location e)];
       bd_covering := bd_covering b ++ [{|
         cv_runnable := {| ru_module := module; ru_action := action_of (en_step e); ru_exclude := [] |};
         cv_scope := scope; cv_exclude := exclude |}];
       bd_reached := bd_reached b ++ [replicate (length scope) false];
       bd_cors := bd_cors b; bd_run := bd_run b |}.

Fixpoint build_entries (http : bool) (module ptr : nat) (b : Building) (index : nat) (entries : list Entry) : Building :=
  match entries with
  | [] => b
  | e :: entries => build_entries http module ptr (build_entry http module ptr b index e) (S index) entries
  end.

Definition build_meta (http : bool) (b : Building) (meta : nat * nat * PreDispatch) : Building :=
  let '(module, ptr, p) := meta in
  let b := {|
    bd_failures := bd_failures b ++ (StrayExclude <$> pd_stray_excludes p) ++ (StraySupplies <$> pd_stray_supplies p)
                     ++ (AdoptSupplies <$> pd_adopt_supplies p);
    bd_scoped := bd_scoped b; bd_covering := bd_covering b; bd_reached := bd_reached b; bd_cors := bd_cors b; bd_run := bd_run b |} in
  build_entries http module ptr b 0 (pd_entries p).

(** Every module's entries, in collection order, as one stage; every failure returned. A meta is
    its module, the address of its entries and the entries. [http] is whether the transport is
    HTTP. *)
Definition stage_build (http : bool) (metas : list (nat * nat * PreDispatch)) : list StageFailure + Stage :=
  let b := foldl (build_meta http) building_start metas in
  if negb (bool_decide (bd_failures b = [])) then inl (bd_failures b)
  else inr {|
    st_scoped := bd_scoped b; st_shared := []; st_run := bd_run b; st_covering := bd_covering b; st_reached := bd_reached b;
    st_unrouted := {|
      ss_steps := fst <$> bd_scoped b;
      ss_filters := (λ c, Some (covering_filter c)) <$> bd_covering b;
      ss_run := cv_runnable <$> bd_covering b |};
    st_cors := bd_cors b |}.

(** ** Requests *)

Definition admits (f : Filter) (path : str) : bool :=
  existsb (λ s, covers_path s path) (fi_scope f) && negb (existsb (λ s, covers_path s path) (fi_exclude f)).

(** The entries a request on [path] runs, in order. *)
Definition runnable_for (s : ScopedStage) (path : str) : list Runnable :=
  if forallb (λ f : option Filter, bool_decide (f = None)) (ss_filters s) then ss_run s
  else fst <$> filterb (λ rf : Runnable * option Filter,
         match rf.2 with None => true | Some filter => admits filter path end) (zip (ss_run s) (ss_filters s)).

(** [Runnable::skips]: an unscoped entry's exclusions, read by the path it receives. *)
Definition skips (r : Runnable) (path : str) : bool := existsb (λ s, covers_path s path) (ru_exclude r).

(** ** The scoped stage of a route *)

Definition holds (s : ScopedStage) (steps : list StageStep) (filters : list (option Filter)) : bool :=
  bool_decide (length (ss_steps s) = length steps)
  && forallb (λ hw : StageStep * StageStep,
       bool_decide (sp_meta hw.1 = sp_meta hw.2) && bool_decide (sp_index hw.1 = sp_index hw.2)) (zip (ss_steps s) steps)
  && forallb (λ hw : option Filter * option Filter,
       Bool.eqb (bool_decide (is_Some hw.1)) (bool_decide (is_Some hw.2))) (zip (ss_filters s) filters).

(** Whether a route's pattern reaches each scope of an entry, as [scoped_for] records it. *)
Definition reach_scopes (c : Covering) (p : Pattern) (reached : list bool) : list bool :=
  zip_with (λ s (r : bool), if overlaps s p && negb (existsb (λ x, scope_contains x s) (cv_exclude c)) then true else r)
    (cv_scope c) reached.

(** One entry in [scoped_for]: whether it is in the route's stage, and with a filter or not. *)
Definition cover_entry (c : Covering) (p : Pattern) : option (option Filter) :=
  if existsb (λ x, covers x p) (cv_exclude c) then None
  else if existsb (λ s, overlaps s p) (cv_scope c) then
    let whole := existsb (λ s, covers s p) (cv_scope c) && negb (existsb (λ x, overlaps x p) (cv_exclude c)) in
    Some (if whole then None else Some (covering_filter c))
  else None.

Definition reach_entry (c : Covering) (p : Pattern) (reached : list bool) : list bool :=
  if existsb (λ x, covers x p) (cv_exclude c) then reached else reach_scopes c p reached.

Definition covered_entries (st : Stage) (p : Pattern) : list (nat * option Filter) :=
  omap (λ ic : nat * Covering, (λ f, (ic.1, f)) <$> cover_entry ic.2 p) (imap pair (st_covering st)).

Definition scoped_for (st : Stage) (p : Pattern) : Stage * ScopedStage :=
  let covered := covered_entries st p in
  let reached := zip_with (λ c r, reach_entry c p r) (st_covering st) (st_reached st) in
  let steps := omap (λ cf : nat * option Filter, fst <$> st_scoped st !! cf.1) covered in
  let filters := snd <$> covered in
  let set shared := {|
    st_scoped := st_scoped st; st_shared := shared; st_run := st_run st; st_covering := st_covering st; st_reached := reached;
    st_unrouted := st_unrouted st; st_cors := st_cors st |} in
  match find_first (λ s, holds s steps filters) (st_shared st) with
  | Some stage => (set (st_shared st), stage)
  | None =>
      let run := omap (λ cf : nat * option Filter, cv_runnable <$> st_covering st !! cf.1) covered in
      let stage := {| ss_steps := steps; ss_filters := filters; ss_run := run |} in
      (set (st_shared st ++ [stage]), stage)
  end.

(** [Stage::scoped]. *)
Definition stage_scoped (st : Stage) (route : str) : PatternError + Stage * ScopedStage :=
  match pattern_parse route with
  | inl err => inl err
  | inr p => inr (scoped_for st p)
  end.

(** One refusal for each scope no route reached. *)
Definition unreached (st : Stage) : list StageFailure :=
  zip_with pair (zip (st_covering st) (st_reached st)) (st_scoped st) ≫= λ '((c, reached), (_, location)),
    zip (cv_scope c) reached ≫= λ '(scope, reached),
      if reached : bool then [] else [UnreachedScope location (sp_raw scope)].

Definition same_step (meta index : nat) (s : StageStep * Location) : bool :=
  bool_decide (sp_meta s.1 = meta) && bool_decide (sp_index s.1 = index).

(** Whether the scoped entry at [index] of [meta] runs on every request that reaches the route,
    [before] being the patterns the router tries first. *)
Definition runs_on_every_request (st : Stage) (meta index : nat) (p : Pattern) (before : list Pattern) : bool :=
  match position (same_step meta index) (st_scoped st) with
  | None => false
  | Some at_ =>
      match st_covering st !! at_ with
      | None => false
      | Some c =>
          existsb (λ s, covers s p) (cv_scope c)
          && forallb (λ x, match shared_with x p with
                           | None => true
                           | Some shared => existsb (λ route, pattern_contains route shared) before
                           end) (cv_exclude c)
      end
  end.

(** Whether a scope and a route, both as written, share a path; not when either does not parse. *)
Definition shares_path (scope route : str) : bool :=
  match scope_parse scope, pattern_parse route with
  | inr scope, inr route => overlaps scope route
  | _, _ => false
  end.
End Env.
