(* ===== verification/PreDispatchFacts.v ===== *)
(** * PreDispatchFacts: the entries a routed request runs *)

From S2P Require Import Prelude Text Key Graph Pattern PatternFacts ParseFacts PreDispatch.
Local Open Scope nat_scope.

(** ** Lists of lookups that succeed *)

Lemma omap_lookup {A B} (f : A → option B) (l : list A) i : (∀ x, x ∈ l → is_Some (f x)) → omap f l !! i = l !! i ≫= f.
Proof.
  revert i. induction l as [|x l IH]; intros i Hl; [done|]. cbn.
  destruct (Hl x ltac:(by left)) as [y Hy]. rewrite Hy. destruct i as [|i]; simpl; [by rewrite Hy|].
  apply IH. intros z Hz. apply Hl. by right.
Qed.

Lemma omap_length {A B} (f : A → option B) (l : list A) : (∀ x, x ∈ l → is_Some (f x)) → length (omap f l) = length l.
Proof.
  induction l as [|x l IH]; intros Hl; [done|]. cbn. destruct (Hl x ltac:(by left)) as [y ->]. simpl. f_equal.
  apply IH. intros z Hz. apply Hl. by right.
Qed.

Lemma filterb_omap {A B} (g : A → bool) (f : A → B) (l : list A) : f <$> filterb g l = omap (λ x, if g x then Some (f x) else None) l.
Proof. induction l as [|x l IH]; [done|]. rewrite filterb_cons. cbn. destruct (g x); cbn; by rewrite IH. Qed.

Lemma imap_pair_lookup {A} (l : list A) i x : (i, x) ∈ imap pair l ↔ l !! i = Some x.
Proof.
  rewrite list_elem_of_lookup. setoid_rewrite list_lookup_imap. split.
  - intros (j & (y & Hy & [= -> ->])%fmap_Some). done.
  - intros Hi. exists i. by rewrite Hi.
Qed.

Lemma omap_imap_pair {A B} (f : A → option B) (l : list A) : omap (λ ix : nat * A, f ix.2) (imap pair l) = omap f l.
Proof.
  assert (H : ∀ k, omap (λ ix : nat * A, f ix.2) (imap (λ i, pair (k + i)) l) = omap f l).
  { induction l as [|x l IH]; intros k; [done|]. cbn. rewrite <- (IH (S k)). 
    assert (E : imap ((λ i : nat, pair (k + i)) ∘ S) l = imap (λ i, pair (S k + i)) l).
    { apply imap_ext. intros i y _. simpl. by rewrite Nat.add_succ_r. }
    rewrite E. done. }
  apply (H 0).
Qed.

Section Env.
Context `{Henv : HttpEnv, Hdec : !PercentDecoding}.

(** ** A route's path and its scopes *)

Record route_ok (p : Pattern) : Prop := { ro_parsed : parsed p; ro_plain : shape_plain (pattern_shape p) }.
Definition scope_ok (s : ScopePattern) : Prop := shape_ok (scope_shape s) ∧ shape_plain (scope_shape s).

Lemma matches_fits p path params : parsed p → pattern_matches p path = Some params →
  shape_fits (pattern_shape p) (request_pieces path) = true ∧ opens (pattern_shape p) (request_pieces path) = true.
Proof.
  intros Hp. rewrite pattern_matches_spec. cbv zeta. destruct (route_fits _ _) eqn:E; [|done]. intros _.
  rewrite route_fits_shape in E by apply Hp. by apply andb_true_iff in E.
Qed.

Lemma covers_route s p path params : parsed p → pattern_matches p path = Some params → covers s p = true → covers_path s path = true.
Proof.
  intros Hp Hm Hc. rewrite covers_path_fits. apply (contains_sound _ (pattern_shape p)); [apply Hp|done|]. by eapply matches_fits.
Qed.

Lemma overlaps_route s p path params : scope_ok s → route_ok p → pattern_matches p path = Some params →
  covers_path s path = true → overlaps s p = true.
Proof.
  intros [Hs1 Hs2] [Hp1 Hp2] Hm Hc. rewrite covers_path_fits in Hc.
  eapply overlaps_complete; [done|done|exact Hc|]. by eapply matches_fits.
Qed.

(** ** One entry *)

Definition covering_ok (c : Covering) : Prop := ∀ s, s ∈ cv_scope c ∨ s ∈ cv_exclude c → scope_ok s.

(** Whether an entry runs, as its route's stage decides it. *)
Definition entry_runs (c : Covering) (p : Pattern) (path : str) : bool :=
  match cover_entry c p with
  | None => false
  | Some None => true
  | Some (Some filter) => admits filter path
  end.

Lemma cover_entry_filter c p f : cover_entry c p = Some (Some f) → f = covering_filter c.
Proof. unfold cover_entry. destruct (existsb _ _); [done|]. destruct (existsb _ _); [|done]. by destruct (_ && _); intros [= <-]. Qed.

(** It is decided as its scopes and exclusions decide the path. *)
Lemma entry_decides c p path params : covering_ok c → route_ok p → pattern_matches p path = Some params →
  entry_runs c p path = admits (covering_filter c) path.
Proof.
  intros Hc Hp Hm. unfold entry_runs. destruct (cover_entry c p) as [[f|]|] eqn:E.
  - by apply cover_entry_filter in E as ->.
  - revert E. unfold cover_entry. destruct (existsb (λ x, covers x p) _); [done|]. destruct (existsb (λ s, overlaps s p) _); [|done].
    destruct (existsb (λ s, covers s p) (cv_scope c)) eqn:Ew; [|done]. destruct (existsb (λ x, overlaps x p) _) eqn:Ex; [done|].
    intros _. symmetry. apply andb_true_iff. simpl. split.
    + apply existsb_elem in Ew as (s & Hs & Hcov). apply existsb_elem. exists s. split; [done|]. by eapply covers_route; [apply Hp|..].
    + apply negb_true_iff, existsb_false. intros x Hx. rewrite existsb_false in Ex. specialize (Ex x Hx).
      destruct (covers_path x path) eqn:Ep; [|done]. rewrite (overlaps_route x p path params) in Ex; [done| |done|done|done].
      apply Hc. by right.
  - symmetry. apply andb_false_iff. simpl. revert E. unfold cover_entry. destruct (existsb (λ x, covers x p) _) eqn:Ex.
    + intros _. right. apply negb_false_iff, existsb_elem. apply existsb_elem in Ex as (x & Hx & Hcov).
      exists x. split; [done|]. by eapply covers_route; [apply Hp|..].
    + destruct (existsb (λ s, overlaps s p) _) eqn:Eo; [done|]. intros _. left. apply existsb_false. intros s Hs.
      rewrite existsb_false in Eo. specialize (Eo s Hs). destruct (covers_path s path) eqn:Ep; [|done].
      rewrite (overlaps_route s p path params) in Eo; [done| |done|done|done]. apply Hc. by left.
Qed.

(** ** Stages *)

Lemma runnable_for_eq s path : length (ss_run s) = length (ss_filters s) →
  runnable_for s path = fst <$> filterb (λ rf : Runnable * option Filter,
    match rf.2 with None => true | Some filter => admits filter path end) (zip (ss_run s) (ss_filters s)).
Proof.
  intros Hlen. unfold runnable_for. destruct (forallb _ _) eqn:E; [|done].
  rewrite forallb_elem in E. rewrite filterb_all; [by rewrite fst_zip by lia|].
  intros [r f] Hin. apply elem_of_zip_r in Hin. apply E, bool_decide_eq_true in Hin. by simpl in *; subst.
Qed.

Definition running (st : Stage) (path : str) : list Runnable :=
  omap (λ c, if admits (covering_filter c) path then Some (cv_runnable c) else None) (st_covering st).

(** What [scoped_for] builds for a route no earlier route shares a stage with. *)
Definition fresh_stage (st : Stage) (p : Pattern) : ScopedStage :=
  let covered := covered_entries st p in
  {| ss_steps := omap (λ cf : nat * option Filter, fst <$> st_scoped st !! cf.1) covered;
     ss_filters := snd <$> covered;
     ss_run := omap (λ cf : nat * option Filter, cv_runnable <$> st_covering st !! cf.1) covered |}.

Lemma covered_in st p i f : (i, f) ∈ covered_entries st p → ∃ c, st_covering st !! i = Some c ∧ cover_entry c p = Some f.
Proof.
  intros ([j c] & Hin & E)%list_elem_of_omap. simpl in E. apply fmap_Some in E as (f' & Hf & [= -> ->]).
  apply imap_pair_lookup in Hin. by exists c.
Qed.

Lemma fresh_run_length st p : length (ss_run (fresh_stage st p)) = length (ss_filters (fresh_stage st p)).
Proof.
  simpl. rewrite length_fmap. apply omap_length. intros [i f] Hin. apply covered_in in Hin as (c & Hc & _). simpl. rewrite Hc. by exists (cv_runnable c).
Qed.

Lemma omap_fmap_zip {A B C} (f : A → option B) (g : A → C) (l : list A) : (∀ x, x ∈ l → is_Some (f x)) →
  zip (omap f l) (g <$> l) = omap (λ x, (λ y, (y, g x)) <$> f x) l.
Proof.
  induction l as [|x l IH]; intros Hl; [done|]. cbn. destruct (Hl x ltac:(by left)) as [y ->]. cbn. f_equal.
  apply IH. intros z Hz. apply Hl. by right.
Qed.

Lemma omap_omap {A B C} (f : A → option B) (g : B → option C) (l : list A) : omap g (omap f l) = omap (λ x, f x ≫= g) l.
Proof. induction l as [|x l IH]; [done|]. cbn. destruct (f x) as [y|]; cbn; [|done]. destruct (g y); cbn; by rewrite IH. Qed.

Lemma omap_ext_elem {A B} (f g : A → option B) (l : list A) : (∀ x, x ∈ l → f x = g x) → omap f l = omap g l.
Proof.
  induction l as [|x l IH]; intros H; [done|]. cbn. rewrite (H x) by (by left). destruct (g x); rewrite IH; try done;
    intros y Hy; apply H; by right.
Qed.

(** The fresh stage of a route runs, for a path of the route, exactly what admits the path. *)
Lemma fresh_runs st p path params : (∀ c, c ∈ st_covering st → covering_ok c) → route_ok p →
  pattern_matches p path = Some params → runnable_for (fresh_stage st p) path = running st path.
Proof.
  intros Hok Hp Hm. rewrite runnable_for_eq by apply fresh_run_length. simpl.
  rewrite omap_fmap_zip by (intros [i f] Hin; apply covered_in in Hin as (c & Hc & _); simpl; rewrite Hc; by exists (cv_runnable c)).
  rewrite filterb_omap, omap_omap. unfold covered_entries. rewrite omap_omap. unfold running.
  rewrite <- (omap_imap_pair (λ c, if admits (covering_filter c) path then Some (cv_runnable c) else None)).
  apply omap_ext_elem. intros [i c] Hin. apply imap_pair_lookup in Hin as Hi. simpl.
  rewrite <- (entry_decides c p path params); [|apply Hok; by eapply list_elem_of_lookup_2|done|done].
  unfold entry_runs. destruct (cover_entry c p) as [[f|]|]; simpl; [| |done]; rewrite Hi; simpl; by try destruct (admits f path).
Qed.

(** ** The stages handed out *)

Record stage_ok (st : Stage) : Prop := {
  so_length : length (st_scoped st) = length (st_covering st);
  so_steps : ∀ i j s t, st_scoped st !! i = Some s → st_scoped st !! j = Some t →
    sp_meta s.1 = sp_meta t.1 → sp_index s.1 = sp_index t.1 → i = j;
  so_scopes : ∀ c, c ∈ st_covering st → covering_ok c;
  so_shared : ∀ s, s ∈ st_shared st → ∃ p, s = fresh_stage st p;
  so_unrouted : st_unrouted st = {|
    ss_steps := fst <$> st_scoped st;
    ss_filters := (λ c, Some (covering_filter c)) <$> st_covering st;
    ss_run := cv_runnable <$> st_covering st |};
}.

Lemma unrouted_runs st path : stage_ok st → runnable_for (st_unrouted st) path = running st path.
Proof.
  intros Hst. rewrite (so_unrouted _ Hst). rewrite runnable_for_eq by (simpl; by rewrite !length_fmap). simpl.
  unfold running. induction (st_covering st) as [|c l IH]; [done|]. cbn -[filterb admits]. rewrite filterb_cons. cbn -[filterb admits].
  destruct (admits (covering_filter c) path); cbn -[filterb admits]; by rewrite IH.
Qed.

Lemma covered_step st p i f : stage_ok st → (i, f) ∈ covered_entries st p → is_Some (fst <$> st_scoped st !! i).
Proof.
  intros Hst (c & Hc & _)%covered_in. apply lookup_lt_Some in Hc. rewrite <- (so_length _ Hst) in Hc.
  apply lookup_lt_is_Some in Hc as [s ->]. by exists s.1.
Qed.

(** A stage handed out before that holds what a route needs is the route's. *)
Lemma holds_fresh st p q : stage_ok st →
  holds (fresh_stage st p) (ss_steps (fresh_stage st q)) (ss_filters (fresh_stage st q)) = true → fresh_stage st p = fresh_stage st q.
Proof.
  intros Hst Hh. unfold holds in Hh. apply andb_true_iff in Hh as [Hh Hf]. apply andb_true_iff in Hh as [Hl Hs].
  apply bool_decide_eq_true in Hl. rewrite forallb_zip in Hs. rewrite forallb_zip in Hf.
  assert (E : covered_entries st p = covered_entries st q); [|unfold fresh_stage; by rewrite E].
  simpl in Hl, Hs, Hf.
  rewrite !omap_length in Hl by (intros [i f] Hin; by eapply covered_step).
  apply list_eq. intros k. destruct (covered_entries st p !! k) as [[i f]|] eqn:E1.
  - assert (Hk : k < length (covered_entries st q)) by (rewrite <- Hl; by eapply lookup_lt_Some).
    apply lookup_lt_is_Some in Hk as [[j h] E2]. rewrite E2.
    pose proof (list_elem_of_lookup_2 _ _ _ E1) as In1. pose proof (list_elem_of_lookup_2 _ _ _ E2) as In2.
    destruct (covered_step st p i f Hst In1) as [s Es], (covered_step st q j h Hst In2) as [t Et].
    assert (Hst1 : omap (λ cf : nat * option Filter, fst <$> st_scoped st !! cf.1) (covered_entries st p) !! k = Some s).
    { rewrite omap_lookup by (intros [? ?] Hin; by eapply covered_step). by rewrite E1. }
    assert (Hst2 : omap (λ cf : nat * option Filter, fst <$> st_scoped st !! cf.1) (covered_entries st q) !! k = Some t).
    { rewrite omap_lookup by (intros [? ?] Hin; by eapply covered_step). by rewrite E2. }
    pose proof (Hs k s t Hst1 Hst2) as Hsame. simpl in Hsame. split_bools.
    apply fmap_Some in Es as (s' & Es & ->), Et as (t' & Et & ->).
    assert (i = j) by (by eapply (so_steps _ Hst)). subst j.
    destruct (covered_in st p i f In1) as (c & Hc & Hcf), (covered_in st q i h In2) as (c' & Hc' & Hch).
    assert (c' = c) by congruence. subst c'.
    assert (Hfl : Bool.eqb (bool_decide (is_Some f)) (bool_decide (is_Some h)) = true).
    { apply (Hf k f h); rewrite list_lookup_fmap; [by rewrite E1|by rewrite E2]. }
    do 2 f_equal. destruct f as [f|], h as [h|]; try done.
    by apply cover_entry_filter in Hcf as ->, Hch as ->.
  - apply lookup_ge_None in E1. symmetry. apply lookup_ge_None. lia.
Qed.

Lemma scoped_for_fresh st p : stage_ok st → (scoped_for st p).2 = fresh_stage st p.
Proof.
  intros Hst. unfold scoped_for. destruct (find_first _ _) as [s|] eqn:E; [|done]. simpl.
  apply find_first_Some in E as [Hh Hin]. destruct (so_shared _ Hst s Hin) as [q ->]. by apply holds_fresh.
Qed.

(** What [scoped_for] leaves is a stage with the same entries. *)
Lemma scoped_for_ok st p : stage_ok st → stage_ok (scoped_for st p).1 ∧ st_covering (scoped_for st p).1 = st_covering st
  ∧ st_unrouted (scoped_for st p).1 = st_unrouted st.
Proof.
  intros Hst. destruct Hst as [H1 H2 H3 H4 H5]. unfold scoped_for. destruct (find_first _ _) as [s|] eqn:E; simpl.
  - split; [|done]. by split.
  - split; [|done]. split; [done|done|done| |done]. simpl. intros s [Hs|Hs]%elem_of_app; [by apply H4|].
    apply list_elem_of_singleton in Hs as ->. by exists p.
Qed.

(** A route's stage runs on a path of the route what an unrouted request on that path runs. *)
Lemma scoped_runs st p path params : stage_ok st → route_ok p → pattern_matches p path = Some params →
  runnable_for (scoped_for st p).2 path = runnable_for (st_unrouted st) path.
Proof.
  intros Hst Hp Hm. rewrite scoped_for_fresh, unrouted_runs by done. eapply fresh_runs; [apply Hst|done|done].
Qed.
(** ** What [Stage::build] leaves *)

Definition step_pair (s : StageStep * Location) : nat * nat := (sp_meta s.1, sp_index s.1).

(** The entries of the metas at [ptrs], and of [ptr] those before [index]. *)
Record building_ok (ptrs : list nat) (ptr index : nat) (b : Building) : Prop := {
  bo_length : length (bd_scoped b) = length (bd_covering b);
  bo_nodup : NoDup (step_pair <$> bd_scoped b);
  bo_pairs : ∀ m k, (m, k) ∈ step_pair <$> bd_scoped b → m ∈ ptrs ∨ (m = ptr ∧ k < index);
  bo_shapes : ∀ c s, c ∈ bd_covering b → s ∈ cv_scope c ∨ s ∈ cv_exclude c → shape_ok (scope_shape s);
}.

Lemma scopes_ok patterns what routed at_ s : s ∈ (scopes patterns what routed at_).2 → shape_ok (scope_shape s).
Proof.
  intros (a & Ha & E)%list_elem_of_omap. destruct a as [|s']; [done|]. injection E as ->.
  apply list_elem_of_fmap in Ha as (text & E & _). symmetry in E. unfold scope_of in E. destruct (scope_parse text) as [|q] eqn:Ep; [done|].
  assert (q = s) as -> by (destruct (unreachable_segment _ _), routed; congruence). by eapply sps_shape, scope_is_parsed.
Qed.

Lemma build_entry_ok http module ptrs ptr b index e : ptr ∉ ptrs →
  building_ok ptrs ptr index b → building_ok ptrs ptr (S index) (build_entry http module ptr b index e).
Proof.
  intros Hptr [H1 H2 H3 H4]. unfold build_entry.
  pose proof (scopes_ok (en_exclude e) "exclusion" http (en_location e)) as Hex.
  destruct (scopes (en_exclude e) _ _ _) as [xf exclude]. simpl in Hex.
  destruct (en_scoped e); cbn [negb].
  - pose proof (scopes_ok (en_scope e) "scope" http (en_location e)) as Hsc.
    destruct (scopes (en_scope e) _ _ _) as [sf scope]. simpl in Hsc. split; simpl.
    + rewrite !length_app. simpl. lia.
    + rewrite fmap_app. apply NoDup_app. split_and!; [done| |apply NoDup_singleton].
      intros [m k] Hin Hin'. apply list_elem_of_singleton in Hin' as [= -> ->]. apply H3 in Hin as [?|[_ ?]]; [done|lia].
    + intros m k Hin. rewrite fmap_app in Hin. apply elem_of_app in Hin as [Hin|Hin].
      * apply H3 in Hin as [?|[-> ?]]; [by left|right; split; [done|lia]].
      * apply list_elem_of_singleton in Hin as [= -> ->]. right. split; [done|lia].
    + intros c s [Hc|Hc]%elem_of_app; [by apply H4|]. apply list_elem_of_singleton in Hc as ->. simpl. intros [Hs|Hs]; [by apply Hsc|by apply Hex].
  - split; simpl; [done|done| |done]. intros m k Hin. apply H3 in Hin as [?|[-> ?]]; [by left|right; split; [done|lia]].
Qed.

Lemma build_entries_ok http module ptrs ptr b index entries : ptr ∉ ptrs → building_ok ptrs ptr index b →
  building_ok (ptr :: ptrs) 0 0 (build_entries http module ptr b index entries).
Proof.
  intros Hptr. revert b index. induction entries as [|e entries IH]; intros b index Hb; simpl.
  - destruct Hb as [H1 H2 H3 H4]. split; [done|done| |done]. intros m k Hin. left. apply H3 in Hin as [?|[-> _]]; [by right|by left].
  - by apply IH, build_entry_ok.
Qed.

Lemma build_metas_ok http metas ptrs b : NoDup ((λ m : nat * nat * PreDispatch, m.1.2) <$> metas) →
  (∀ m, m ∈ metas → m.1.2 ∉ ptrs) → building_ok ptrs 0 0 b →
  ∃ ptrs', building_ok ptrs' 0 0 (foldl (build_meta http) b metas).
Proof.
  revert ptrs b. induction metas as [|[[module ptr] p] metas IH]; intros ptrs b Hnd Hfresh Hb; [by exists ptrs|].
  rewrite fmap_cons in Hnd. apply NoDup_cons in Hnd as [Hn Hnd].
  assert (Hp : ptr ∉ ptrs) by (apply (Hfresh (module, ptr, p)); by left).
  apply (IH (ptr :: ptrs)); [done| |].
  - intros m Hm [E|Hin]%elem_of_cons; [|apply (Hfresh m); [by right|done]]. apply Hn. rewrite list_elem_of_fmap. by exists m.
  - simpl. apply build_entries_ok; [done|]. destruct Hb as [H1 H2 H3 H4]. split; simpl; [done|done| |done].
    intros m k Hin. apply H3 in Hin as [?|[_ ?]]; [by left|lia].
Qed.

Definition stage_plain (st : Stage) : Prop :=
  ∀ c s, c ∈ st_covering st → s ∈ cv_scope c ∨ s ∈ cv_exclude c → shape_plain (scope_shape s).

Lemma stage_build_ok http metas st : NoDup ((λ m : nat * nat * PreDispatch, m.1.2) <$> metas) →
  stage_build http metas = inr st → stage_plain st → stage_ok st.
Proof.
  intros Hnd. unfold stage_build. case_bool_decide as Hf; [|done]. intros [= <-] Hplain.
  destruct (build_metas_ok http metas [] building_start Hnd) as [ptrs [H1 H2 H3 H4]].
  - intros m _. apply not_elem_of_nil.
  - split; simpl; [done|constructor|by intros m k ?%not_elem_of_nil|by intros c s ?%not_elem_of_nil].
  - split; simpl; [done| | |by intros s ?%not_elem_of_nil|done].
    + intros i j s t Hi Hj Em Ek. eapply (NoDup_lookup _ i j (step_pair s) H2); rewrite list_lookup_fmap, ?Hi, ?Hj; simpl; [done|].
      unfold step_pair. by rewrite Em, Ek.
    + intros c Hc s Hs. split; [by eapply H4|by eapply (Hplain c)].
Qed.

(** ** Entries on every request *)

Definition whole (ps : list str) : Prop := ∀ p, p ∈ ps → p ≠ [].

Lemma whole_opens sh ps : whole ps → shape_fits sh ps = true → opens sh ps = true.
Proof.
  intros Hw [Hlen _]%shape_fits_true. unfold opens, of_length in *. destruct (sh_open sh); [|done].
  apply lookup_lt_is_Some in Hlen as [p Hp]. rewrite Hp. apply negb_true_iff, bool_decide_eq_false, Hw. by eapply list_elem_of_lookup_2.
Qed.

(** An entry said to run on every request that reaches a route runs on each whose path has no
    empty segment. *)
Lemma every_request_runs st meta index p before path params : stage_ok st → route_ok p → (∀ r, r ∈ before → parsed r) →
  runs_on_every_request st meta index p before = true →
  whole (request_pieces path) → pattern_matches p path = Some params → (∀ r, r ∈ before → pattern_matches r path = None) →
  ∃ i s c, st_scoped st !! i = Some s ∧ sp_meta s.1 = meta ∧ sp_index s.1 = index ∧ st_covering st !! i = Some c
    ∧ admits (covering_filter c) path = true.
Proof.
  intros Hst Hp Hbefore. unfold runs_on_every_request. destruct (position _ _) as [i|] eqn:E; [|done].
  destruct (st_covering st !! i) as [c|] eqn:Ec; [|done]. intros [Hs Hx]%andb_true_iff Hw Hm Hno.
  destruct (matches_fits _ _ _ (ro_parsed _ Hp) Hm) as [Hfit Hopen].
  assert (Hc : covering_ok c) by (apply (so_scopes _ Hst); by eapply list_elem_of_lookup_2).
  apply position_Some in E as (s & Hi & Hsame). unfold same_step in Hsame. split_bools.
  exists i, s, c. split_and!; [done|done|done|done|]. apply andb_true_iff. simpl. split.
  - apply existsb_elem in Hs as (x & Hin & Hcov). apply existsb_elem. exists x. split; [done|]. by eapply covers_route; [apply Hp|..].
  - apply negb_true_iff, existsb_false. intros x Hin. rewrite forallb_elem in Hx. specialize (Hx x Hin).
    destruct (covers_path x path) eqn:Ep; [|done]. exfalso. rewrite covers_path_fits in Ep.
    destruct (Hc x ltac:(by right)) as [Hxo Hxp]. pose proof (ps_shape _ (ro_parsed _ Hp)) as Hpo.
    assert (Ho : shape_overlaps (scope_shape x) (pattern_shape p) = true) by (eapply overlaps_complete; [done|apply Hp|exact Ep|done]).
    unfold shared_with in Hx. destruct (shape_intersection (scope_shape x) (pattern_shape p)) as [sh|] eqn:Esh; [|by rewrite intersection_meet, Ho in Esh].
    apply existsb_elem in Hx as (r & Hr & Hcont).
    assert (Hsh : shape_fits sh (request_pieces path) = true) by (apply (intersection_spec _ _ _ _ Hxo Hpo Esh); by split).
    assert (Hrf : shape_fits (pattern_shape r) (request_pieces path) = true) by (eapply contains_sound; [exact (intersection_ok _ _ _ Hxo Hpo Esh)|exact Hcont|done]).
    pose proof (Hno r Hr) as Hnone. rewrite pattern_matches_spec in Hnone. cbv zeta in Hnone.
    rewrite route_fits_shape, Hrf, whole_opens in Hnone; [done|done|done|]. by apply Hbefore.
Qed.
End Env.
