(* ===== verification/Router.v ===== *)
(** * Router: the route table

    [ulo-http/src/router/mod.rs], [Timeout::duration] of [limits.rs] and the refusal of a malformed
    path, [service.rs]. A handler is what [Router::build] reads of a [MountedHandler<Http>]; its
    function, its methods' names and the checks of its [Path] extractors are given with it. *)

From S2P Require Import Prelude Text Key Graph Pattern PreDispatch.
Local Open Scope nat_scope.

(** A handler as a route-table failure names it. *)
Record Who := { who_controller : TypeName; who_name : string }.

(** One [Path] extractor's check of a route's parameter names, and the type it names. *)
Record PathCheck := { pc_check : list str → string + unit; pc_ty : TypeName }.

(** The [HttpHandler] a mounted handler holds. *)
Record HttpHandler := { hh_method : string; hh_call : nat; hh_path_checks : list PathCheck }.

Record MountedHandler := {
  mh_id : nat;
  mh_who : Who;
  mh_handler : option HttpHandler;
  mh_route : option str;
  mh_prefix : option str;
  mh_body_limit : option Z;
  mh_timeout : option Bound;
  (** [declared_on_method]: the method's own declaration. *)
  mh_timeout_on_method : bool;
}.

Record RouteTarget := {
  rt_handler : nat;
  rt_call : nat;
  rt_pattern : str;
  rt_route : str;
  rt_body_limit : Z;
  rt_timeout : option Duration;
  rt_stage : ScopedStage;
}.

Record RouteEntry := {
  re_pattern : Pattern;
  re_methods : list (string * RouteTarget);
  re_allow : list string;
  re_route : str;
}.

Definition Router : Type := list RouteEntry.

Inductive RouteFailure :=
| NotAnHttpHandler (who : Who)
| NoRouteSet (who : Who)
| BadPattern (who : Who) (err : PatternError)
| UnreachableRoute (who : Who) (pattern segment : str)
| PathMisfit (who : Who) (ty : TypeName) (pattern : str) (reason : string)
| NamesDiffer (taken : str) (other : Who) (pattern : str) (who : Who)
| BothAnswer (other who : Who) (method : string) (pattern : str)
| ZeroTimeouts (controller : TypeName) (handler : option string) (routes : list (string * str)).

(** The routes sharing one pattern while the table is built. *)
Record Group := { gr_pattern : Pattern; gr_targets : list (string * RouteTarget * Who) }.

Record ZeroTimeout := { zt_controller : TypeName; zt_handler : option string; zt_routes : list (string * str) }.

Definition zero_failure (z : ZeroTimeout) : RouteFailure := ZeroTimeouts (zt_controller z) (zt_handler z) (zt_routes z).

Definition timeout_duration (b : Bound) : option Duration :=
  match b with After d => Some d | BoundDefault | Unbounded => None end.

Definition entry_target (e : RouteEntry) (method : string) : option RouteTarget :=
  snd <$> find_first (λ mt : string * RouteTarget, bool_decide (mt.1 = method)) (re_methods e).

(** The methods a pattern answers, in declaration order, [HEAD] beside [GET], and [OPTIONS]. *)
Definition allow_of (methods : list string) : list string :=
  let names :=
    if Prelude.contains methods "HEAD"%string then methods
    else match position (λ n, bool_decide (n = "GET"%string)) methods with
         | Some get => take (get + 1) methods ++ "HEAD"%string :: drop (get + 1) methods
         | None => methods
         end in
  if Prelude.contains names "OPTIONS"%string then names else names ++ ["OPTIONS"%string].

(** [Ord] on [Vec<u8>]: lexicographic, a prefix first. *)
Fixpoint lex_le (a b : list nat) : bool :=
  match a, b with
  | [], _ => true
  | _ :: _, [] => false
  | x :: a, y :: b => if bool_decide (x < y) then true else if bool_decide (x = y) then lex_le a b else false
  end.

(** [sort_by_cached_key], a stable sort: an element goes before the first that is not less. *)
Fixpoint sort_insert (x : RouteEntry) (l : list RouteEntry) : list RouteEntry :=
  match l with
  | [] => [x]
  | y :: l => if lex_le (precedence (re_pattern x)) (precedence (re_pattern y)) then x :: y :: l else y :: sort_insert x l
  end.

Fixpoint sort_routes (l : list RouteEntry) : list RouteEntry :=
  match l with
  | [] => []
  | x :: l => sort_insert x (sort_routes l)
  end.

Section Env.
Context `{HttpEnv}.

(** What [Router::build] has so far; [bl_stage] is the stage its routes take theirs from. *)
Record Table := {
  tb_errors : list RouteFailure;
  tb_groups : list Group;
  tb_zeros : list ZeroTimeout;
  tb_stage : Stage;
}.

Definition add_error (t : Table) (e : RouteFailure) : Table :=
  {| tb_errors := tb_errors t ++ [e]; tb_groups := tb_groups t; tb_zeros := tb_zeros t; tb_stage := tb_stage t |}.

Definition path_failures (who : Who) (http : HttpHandler) (p : Pattern) : list RouteFailure :=
  omap (λ c, match pc_check c (param_names p) with
             | inl reason => Some (PathMisfit who (pc_ty c) (pt_raw p) reason)
             | inr _ => None
             end) (hh_path_checks http).

(** A zero timeout recorded under its declaration. *)
Fixpoint add_zero (controller : TypeName) (handler : option string) (route : string * str) (zeros : list ZeroTimeout) : list ZeroTimeout :=
  match zeros with
  | [] => [{| zt_controller := controller; zt_handler := handler; zt_routes := [route] |}]
  | z :: zeros =>
      if type_name_eqb (zt_controller z) controller && bool_decide (zt_handler z = handler)
      then {| zt_controller := zt_controller z; zt_handler := zt_handler z; zt_routes := zt_routes z ++ [route] |} :: zeros
      else z :: add_zero controller handler route zeros
  end.

Definition push_target (target : string * RouteTarget * Who) (g : Group) : Group :=
  {| gr_pattern := gr_pattern g; gr_targets := gr_targets g ++ [target] |}.

(** A route put in the first group its pattern conflicts with, or in a group of its own. A group
    holds one target at least, which the refusal of a differing name reads. *)
Fixpoint place (pattern : Pattern) (method : string) (target : RouteTarget) (who : Who) (groups : list Group)
    : RouteFailure + list Group :=
  match groups with
  | [] => inr [{| gr_pattern := pattern; gr_targets := [(method, target, who)] |}]
  | g :: groups =>
      if conflicts (gr_pattern g) pattern then
        if negb (bool_decide (pt_raw (gr_pattern g) = pt_raw pattern)) then
          match gr_targets g with
          | (_, _, other) :: _ => inl (NamesDiffer (pt_raw (gr_pattern g)) other (pt_raw pattern) who)
          | [] => inr (g :: groups)
          end
        else
          match find_first (λ t : string * RouteTarget * Who, bool_decide (t.1.1 = method)) (gr_targets g) with
          | Some (_, _, other) => inl (BothAnswer other who method (pt_raw pattern))
          | None => inr (push_target (method, target, who) g :: groups)
          end
      else
        match place pattern method target who groups with
        | inl failure => inl failure
        | inr groups => inr (g :: groups)
        end
  end.

Definition route_text (prefix : option str) (route : str) : str :=
  match prefix with Some prefix => pattern_join prefix route | None => route end.

(** One handler of [Router::build]. *)
Definition build_handler (default_body_limit : Z) (mount : str) (t : Table) (h : MountedHandler) : Table :=
  let who := mh_who h in
  match mh_handler h with
  | None => add_error t (NotAnHttpHandler who)
  | Some http =>
      match mh_route h with
      | None => add_error t (NoRouteSet who)
      | Some route =>
          match pattern_parse (route_text (mh_prefix h) route) with
          | inl err => add_error t (BadPattern who err)
          | inr pattern =>
              match unreachable_segment (pt_raw pattern) (pt_segments pattern) with
              | Some segment => add_error t (UnreachableRoute who (pt_raw pattern) segment)
              | None =>
                  let errors := tb_errors t ++ path_failures who http pattern in
                  let zeros :=
                    if match mh_timeout h with Some (After d) => is_zero d | _ => false end then
                      add_zero (who_controller who) (if mh_timeout_on_method h then Some (who_name who) else None)
                        (hh_method http, pt_raw pattern) (tb_zeros t)
                    else tb_zeros t in
                  let shown := if bool_decide (mount = []) then pt_raw pattern else pattern_join mount (pt_raw pattern) in
                  let '(stage, scoped) := scoped_for (tb_stage t) pattern in
                  let target := {|
                    rt_handler := mh_id h; rt_call := hh_call http; rt_pattern := pt_raw pattern; rt_route := shown;
                    rt_body_limit := default default_body_limit (mh_body_limit h);
                    rt_timeout := mh_timeout h ≫= timeout_duration; rt_stage := scoped |} in
                  match place pattern (hh_method http) target who (tb_groups t) with
                  | inl failure => {| tb_errors := errors ++ [failure]; tb_groups := tb_groups t; tb_zeros := zeros; tb_stage := stage |}
                  | inr groups => {| tb_errors := errors; tb_groups := groups; tb_zeros := zeros; tb_stage := stage |}
                  end
              end
          end
      end
  end.

Definition group_entry (g : Group) : RouteEntry :=
  let methods := fst <$> gr_targets g in {|
  re_pattern := gr_pattern g; re_methods := methods; re_allow := allow_of (fst <$> methods);
  re_route := match methods with (_, t) :: _ => rt_route t | [] => [] end |}.

Definition table_start (stage : Stage) : Table :=
  {| tb_errors := []; tb_groups := []; tb_zeros := []; tb_stage := stage |}.

(** The table for [handlers], the stage's reached scopes with it; every failure returned. *)
Definition router_build (handlers : list MountedHandler) (default_body_limit : Z) (stage : Stage) (mount : str)
    : (list RouteFailure + Router) * Stage :=
  let t := foldl (build_handler default_body_limit mount) (table_start stage) handlers in
  let errors := tb_errors t ++ (zero_failure <$> tb_zeros t) in
  (if negb (bool_decide (errors = [])) then inl errors else inr (sort_routes (group_entry <$> tb_groups t)), tb_stage t).

Inductive Routed :=
| Found (target : RouteTarget) (params : PathParams) (head_from_get : bool)
| NotFound
| MethodNotAllowed (allow : list string)
| Options (allow : list string) (route : str).

(** What the entry a path matches answers. *)
Definition entry_answers (e : RouteEntry) (method : string) (params : PathParams) : Routed :=
  match entry_target e method with
  | Some target => Found target params false
  | None =>
      match (if bool_decide (method = "HEAD"%string) then entry_target e "GET"%string else None) with
      | Some target => Found target params true
      | None =>
          if bool_decide (method = "OPTIONS"%string) then Options (re_allow e) (re_route e) else MethodNotAllowed (re_allow e)
      end
  end.

Fixpoint route_in (method : string) (path : str) (pieces : list (nat * str)) (routes : Router) : Routed :=
  match routes with
  | [] => NotFound
  | e :: routes =>
      match match_split (re_pattern e) path pieces with
      | None => route_in method path pieces routes
      | Some params => entry_answers e method params
      end
  end.

Definition router_route (r : Router) (method : string) (path : str) : Routed :=
  let path := normalize path in route_in method path (split_path path) r.
End Env.

(** The 400 a path refused before routing answers. *)
Inductive Malformed := DotSegment | Backslash.

Definition malformed (path : str) : option Malformed :=
  if has_dot_segment path then Some DotSegment else if has_backslash path then Some Backslash else None.
