(* ===== verification/RouterFacts.v ===== *)
(** * RouterFacts: the route table and its answers *)

From S2P Require Import Prelude Text Key Graph Pattern PatternFacts ParseFacts PreDispatch PreDispatchFacts Router.
Local Open Scope nat_scope.

(** ** Precedence *)

Lemma lex_le_refl a : lex_le a a = true.
Proof. induction a as [|x a IH]; [done|]. simpl. rewrite bool_decide_eq_false_2 by lia. by rewrite bool_decide_eq_true_2. Qed.

Lemma lex_le_cons x y a b : lex_le (x :: a) (y :: b) = true ↔ x < y ∨ (x = y ∧ lex_le a b = true).
Proof. simpl. repeat case_bool_decide; naive_solver lia. Qed.

Lemma lex_le_total a b : lex_le a b = true ∨ lex_le b a = true.
Proof.
  revert b. induction a as [|x a IH]; intros [|y b]; [by left|by left|by right|]. rewrite !lex_le_cons.
  destruct (IH b); destruct (decide (x = y)); naive_solver lia.
Qed.

Lemma lex_le_trans a b c : lex_le a b = true → lex_le b c = true → lex_le a c = true.
Proof.
  revert b c. induction a as [|x a IH]; intros [|y b] [|z c]; try done. rewrite !lex_le_cons.
  intros [?|[-> H1]] [?|[-> H2]]; try (left; lia). right. split; [done|]. by eapply IH.
Qed.

Lemma lex_le_antisym a b : lex_le a b = true → lex_le b a = true → a = b.
Proof.
  revert b. induction a as [|x a IH]; intros [|y b]; try done. rewrite !lex_le_cons.
  intros [?|[-> H1]] [?|[E H2]]; try lia. f_equal. by apply IH.
Qed.

Definition before_entry (a b : RouteEntry) : Prop := lex_le (precedence (re_pattern a)) (precedence (re_pattern b)) = true.

Lemma sort_insert_perm x l : sort_insert x l ≡ₚ x :: l.
Proof. induction l as [|y l IH]; simpl; [done|]. destruct (lex_le _ _); [done|]. rewrite IH. apply Permutation_swap. Qed.

Lemma sort_routes_perm l : sort_routes l ≡ₚ l.
Proof. induction l as [|x l IH]; simpl; [done|]. by rewrite sort_insert_perm, IH. Qed.

Lemma sort_insert_sorted x l : StronglySorted before_entry l → StronglySorted before_entry (sort_insert x l).
Proof.
  induction 1 as [|y l Hs IH Hall]; simpl; [repeat constructor|]. destruct (lex_le _ _) eqn:E.
  - constructor; [by constructor|]. constructor; [done|]. eapply Forall_impl; [done|]. intros z Hz. by eapply lex_le_trans.
  - constructor; [done|]. rewrite sort_insert_perm. constructor; [|done].
    destruct (lex_le_total (precedence (re_pattern y)) (precedence (re_pattern x))) as [?|H]; [done|]. unfold before_entry in *. congruence.
Qed.

Lemma sort_routes_sorted l : StronglySorted before_entry (sort_routes l).
Proof. induction l as [|x l IH]; simpl; [constructor|]. by apply sort_insert_sorted. Qed.

(** ** The table as it is built *)

Section Env.
Context `{Henv : HttpEnv, Hdec : !PercentDecoding}.

(** A handler answers a method on a pattern. *)
Definition serves (h : MountedHandler) (p : Pattern) (method : string) : Prop :=
  ∃ http route, mh_handler h = Some http ∧ hh_method http = method ∧ mh_route h = Some route
    ∧ pattern_parse (route_text (mh_prefix h) route) = inr p.

Lemma serves_parsed h p m : serves h p m → parsed p.
Proof. intros (http & route & _ & _ & _ & Hp). by eapply pattern_parsed. Qed.

Lemma serves_raw h p m : serves h p m → pattern_parse (pt_raw p) = inr p.
Proof. intros (http & route & _ & _ & _ & Hp). by eapply pattern_parse_raw. Qed.

Lemma serves_fun h p q m n : serves h p m → serves h q n → p = q ∧ m = n.
Proof. intros (http & r & H1 & H2 & H3 & H4) (http' & r' & H1' & H2' & H3' & H4'). simplify_eq. split; congruence. Qed.

Record group_ok (hs : list MountedHandler) (g : Group) : Prop := {
  go_targets : ∀ m t w, (m, t, w) ∈ gr_targets g → ∃ h, h ∈ hs ∧ serves h (gr_pattern g) m ∧ rt_handler t = mh_id h;
  go_methods : NoDup ((λ t : string * RouteTarget * Who, t.1.1) <$> gr_targets g);
  go_some : gr_targets g ≠ [];
}.

Definition apart (a b : Group) : Prop := conflicts (gr_pattern a) (gr_pattern b) = false.

Record groups_ok (hs : list MountedHandler) (gs : list Group) : Prop := {
  gso_each : ∀ g, g ∈ gs → group_ok hs g;
  gso_apart : StronglySorted apart gs;
  gso_all : ∀ h, h ∈ hs → ∃ p m g t w, serves h p m ∧ g ∈ gs ∧ gr_pattern g = p ∧ (m, t, w) ∈ gr_targets g ∧ rt_handler t = mh_id h;
}.

Lemma group_ok_more hs h g : group_ok hs g → group_ok (hs ++ [h]) g.
Proof. intros [H1 H2 H3]. split; [|done|done]. intros m t w Hin. destruct (H1 m t w Hin) as (h' & Hh & Hrest). exists h'. set_solver. Qed.

Lemma group_pattern_raw hs g : group_ok hs g → pattern_parse (pt_raw (gr_pattern g)) = inr (gr_pattern g).
Proof.
  intros [H1 _ H3]. destruct (gr_targets g) as [|[[m t] w] l] eqn:E; [done|]. destruct (H1 m t w ltac:(by left)) as (h & _ & Hs & _).
  by eapply serves_raw.
Qed.

(** Placing a route keeps the groups apart and puts the route in the group of its pattern. *)
Lemma place_ok hs h p method target who gs gs' : serves h p method → rt_handler target = mh_id h →
  (∀ g, g ∈ gs → group_ok hs g) → StronglySorted apart gs → place p method target who gs = inr gs' →
  (∀ g, g ∈ gs' → group_ok (hs ++ [h]) g) ∧ StronglySorted apart gs'
  ∧ (∃ g, g ∈ gs' ∧ gr_pattern g = p ∧ (method, target, who) ∈ gr_targets g)
  ∧ (∀ g m t w, g ∈ gs → (m, t, w) ∈ gr_targets g → ∃ g', g' ∈ gs' ∧ gr_pattern g' = gr_pattern g ∧ (m, t, w) ∈ gr_targets g')
  ∧ ∀ g', g' ∈ gs' → gr_pattern g' = p ∨ ∃ g, g ∈ gs ∧ gr_pattern g' = gr_pattern g.
Proof.
  intros Hs Ht. revert gs'. induction gs as [|g gs IH]; intros gs' Hok Hap; cbn [place].
  - intros [= <-]. split_and!.
    + intros g ->%list_elem_of_singleton. split; simpl; [|apply NoDup_singleton|done].
      intros m t w [= -> -> ->]%list_elem_of_singleton. exists h. set_solver.
    + repeat constructor.
    + eexists. split; [by left|]. split; [done|]. by left.
    + by intros g m t w ?%not_elem_of_nil.
    + intros g' ->%list_elem_of_singleton. by left.
  - apply StronglySorted_inv in Hap as [Hap Hall]. assert (Hg : group_ok hs g) by (apply Hok; by left).
    destruct (conflicts (gr_pattern g) p) eqn:Ec.
    + case_bool_decide as Hraw; simpl; [|destruct (gr_targets g) as [|[[? ?] ?] ?] eqn:E; [by destruct Hg|done]].
      assert (Hp : gr_pattern g = p).
      { pose proof (group_pattern_raw hs g Hg) as E. rewrite Hraw, (serves_raw h p method Hs) in E. congruence. }
      destruct (find_first _ _) as [[[? ?] ?]|] eqn:Ef; [done|]. intros [= <-].
      pose proof (find_first_None (λ t : string * RouteTarget * Who, bool_decide (t.1.1 = method)) (gr_targets g)) as Hnone.
      apply proj1 in Hnone. specialize (Hnone Ef).
      split_and!.
      * intros g' [->|Hin]%elem_of_cons; [|apply group_ok_more, Hok; by right]. destruct Hg as [H1 H2 H3]. split; simpl.
        -- intros m t w [Hin|[= -> -> ->]%list_elem_of_singleton]%elem_of_app; [|exists h; rewrite Hp; set_solver].
           destruct (H1 m t w Hin) as (h' & ? & ? & ?). exists h'. set_solver.
        -- rewrite fmap_app. apply NoDup_app. split_and!; [done| |apply NoDup_singleton].
           intros m Hin Hin'. simpl in Hin'. apply list_elem_of_singleton in Hin' as ->.
           apply list_elem_of_fmap in Hin as (t & E & Hin). specialize (Hnone t Hin). simpl in Hnone. rewrite bool_decide_eq_false in Hnone. congruence.
        -- by destruct (gr_targets g).
      * constructor; done.
      * eexists. split; [by left|]. simpl. split; [done|]. set_solver.
      * intros g' m t w [->|Hin]%elem_of_cons Hin'; [|exists g'; split; [by right|done]].
        eexists. split; [by left|]. simpl. split; [done|]. set_solver.
      * intros g' [->|Hin]%elem_of_cons; [by left|]. right. exists g'. split; [by right|done].
    + destruct (place p method target who gs) as [|gs0] eqn:E; [done|]. intros [= <-].
      destruct (IH gs0 ltac:(intros g' Hg'; apply Hok; by right) Hap eq_refl) as (I1 & I2 & I3 & I4 & I5). split_and!.
      * intros g' [->|Hin]%elem_of_cons; [by apply group_ok_more|by apply I1].
      * constructor; [done|]. rewrite Forall_forall in Hall |- *. intros g' Hin. unfold apart.
        destruct (I5 g' Hin) as [-> |(g0 & Hin0 & ->)]; [done|by apply Hall].
      * destruct I3 as (g' & Hin & Hrest). exists g'. split; [by right|done].
      * intros g' m t w [->|Hin]%elem_of_cons Hin'; [exists g; split; [by left|done]|].
        destruct (I4 g' m t w Hin Hin') as (g2 & Hin2 & Hrest). exists g2. split; [by right|done].
      * intros g' [->|Hin]%elem_of_cons; [right; exists g; split; [by left|done]|].
        destruct (I5 g' Hin) as [?|(g0 & Hin0 & ?)]; [by left|]. right. exists g0. split; [by right|done].
Qed.

Lemma place_serves hs h p method target who gs gs' : serves h p method → rt_handler target = mh_id h → groups_ok hs gs →
  place p method target who gs = inr gs' → groups_ok (hs ++ [h]) gs'.
Proof.
  intros Hs Ht [H1 H2 H3] Hp. destruct (place_ok hs h p method target who gs gs' Hs Ht H1 H2 Hp) as (I1 & I2 & (g0 & Hg0 & Hgp & Hin0) & I4 & _).
  split; [done|done|]. intros h' [Hh|Hh]%elem_of_app.
  - destruct (H3 h' Hh) as (q & m & g & t & w & Hq & Hg & <- & Hin & Hid). destruct (I4 g m t w Hg Hin) as (g' & Hg' & E & Hin').
    exists (gr_pattern g), m, g', t, w. done.
  - apply list_elem_of_singleton in Hh as ->. by exists p, method, g0, target, who.
Qed.

(** ** A table built without errors *)

Lemma build_handler_errors d mount t h : tb_errors (build_handler d mount t h) = [] → tb_errors t = [].
Proof.
  unfold build_handler, add_error. repeat (case_match; simpl); simplify_eq; try done; intros E;
    repeat (apply app_eq_nil in E as [E ?]); done.
Qed.

Lemma build_errors d mount hs t : tb_errors (foldl (build_handler d mount) t hs) = [] → tb_errors t = [].
Proof. revert t. induction hs as [|h hs IH]; intros t; [done|]. simpl. intros H%IH. by eapply build_handler_errors. Qed.

Lemma build_handler_groups d mount t h hs : groups_ok hs (tb_groups t) → tb_errors (build_handler d mount t h) = [] →
  groups_ok (hs ++ [h]) (tb_groups (build_handler d mount t h)).
Proof.
  intros Hok. unfold build_handler, add_error.
  destruct (mh_handler h) as [http|] eqn:E1; [|intros [_ ?]%app_eq_nil; done].
  destruct (mh_route h) as [route|] eqn:E2; [|intros [_ ?]%app_eq_nil; done].
  destruct (pattern_parse _) as [|p] eqn:E3; [intros [_ ?]%app_eq_nil; done|].
  destruct (unreachable_segment _ _); [intros [_ ?]%app_eq_nil; done|].
  destruct (scoped_for _ _) as [stage scoped]. set (target := {| rt_handler := _ |}).
  destruct (place _ _ target _ _) as [|gs] eqn:E4; simpl; [intros [_ ?]%app_eq_nil; done|].
  intros _. eapply (place_serves hs h p (hh_method http) target); [|done|done|exact E4]. by exists http, route.
Qed.

Lemma build_groups d mount hs done_ t : groups_ok done_ (tb_groups t) → tb_errors (foldl (build_handler d mount) t hs) = [] →
  groups_ok (done_ ++ hs) (tb_groups (foldl (build_handler d mount) t hs)).
Proof.
  revert done_ t. induction hs as [|h hs IH]; intros done_ t Hok; simpl; [by rewrite app_nil_r|]. intros He.
  rewrite cons_middle, app_assoc. apply IH; [|done]. apply build_handler_groups; [done|]. by eapply build_errors.
Qed.

(** ** The built router *)

Record router_ok (hs : list MountedHandler) (r : Router) : Prop := {
  rr_sorted : StronglySorted before_entry r;
  rr_targets : ∀ e m t, e ∈ r → (m, t) ∈ re_methods e → ∃ h, h ∈ hs ∧ serves h (re_pattern e) m ∧ rt_handler t = mh_id h;
  rr_methods : ∀ e, e ∈ r → NoDup (re_methods e).*1 ∧ re_methods e ≠ [];
  rr_allow : ∀ e, e ∈ r → re_allow e = allow_of (re_methods e).*1;
  rr_all : ∀ h, h ∈ hs → ∃ p m e t, serves h p m ∧ e ∈ r ∧ re_pattern e = p ∧ (m, t) ∈ re_methods e ∧ rt_handler t = mh_id h;
  rr_apart : ∀ i j a b, r !! i = Some a → r !! j = Some b → conflicts (re_pattern a) (re_pattern b) = true → i = j;
}.

Lemma conflicts_sym p q : conflicts p q = conflicts q p.
Proof.
  unfold conflicts. apply eq_bool_prop_intro. rewrite !Is_true_true, !andb_true_iff, !bool_decide_eq_true.
  rewrite !forallb_zip.
  assert (Hs : ∀ a b, conflicts_at a b = conflicts_at b a) by (intros [] []; simpl; try done; apply bool_decide_ext; naive_solver).
  split; intros [H1 H2]; (split; [done|]); intros i a b Ha Hb; simpl; rewrite Hs; by apply (H2 i).
Qed.

Lemma apart_unique gs i j a b : StronglySorted apart gs → gs !! i = Some a → gs !! j = Some b →
  conflicts (gr_pattern a) (gr_pattern b) = true → i = j.
Proof.
  intros Hs. revert i j. induction Hs as [|g gs Hs IH Hall]; intros i j Hi Hj Hc; [by rewrite lookup_nil in Hi|].
  rewrite Forall_forall in Hall. destruct i as [|i], j as [|j]; simpl in *; [done| | |f_equal; by apply IH].
  - injection Hi as ->. apply list_elem_of_lookup_2 in Hj. apply Hall in Hj. unfold apart in Hj. congruence.
  - injection Hj as ->. apply list_elem_of_lookup_2 in Hi. apply Hall in Hi. unfold apart in Hi. rewrite conflicts_sym in Hc. congruence.
Qed.

Lemma pairwise_perm {A} (R : A → A → Prop) (l k : list A) : k ≡ₚ l →
  (∀ i j x y, l !! i = Some x → l !! j = Some y → R x y → i = j) → ∀ i j x y, k !! i = Some x → k !! j = Some y → R x y → i = j.
Proof.
  intros Hp Hl i j x y Hi Hj Hr. apply Permutation_inj in Hp as [_ (f & Hf & Hlk)].
  rewrite Hlk in Hi, Hj. apply Hf. by eapply Hl.
Qed.

Lemma router_build_ok hs d stage mount r : (router_build hs d stage mount).1 = inr r → router_ok hs r.
Proof.
  unfold router_build. set (t := foldl _ _ hs). simpl. case_bool_decide as He; [|done]. simpl. intros [= <-].
  apply app_eq_nil in He as [He _].
  assert (Hg : groups_ok hs (tb_groups t)).
  { apply (build_groups d mount hs [] (table_start stage)); [|done]. split; [by intros g ?%not_elem_of_nil|constructor|by intros h ?%not_elem_of_nil]. }
  destruct Hg as [H1 H2 H3].
  assert (Hin : ∀ e, e ∈ sort_routes (group_entry <$> tb_groups t) → ∃ g, g ∈ tb_groups t ∧ e = group_entry g).
  { intros e He'. rewrite sort_routes_perm in He'. apply list_elem_of_fmap in He' as (g & -> & Hg). by exists g. }
  split; [apply sort_routes_sorted| | |by intros e (g & Hg & ->)%Hin| |].
  - intros e m x (g & Hg & ->)%Hin Hm. simpl in Hm. apply list_elem_of_fmap in Hm as ([[m' x'] w] & [= -> ->] & Hm).
    by apply (go_targets _ _ (H1 g Hg) m' x' w).
  - intros e (g & Hg & ->)%Hin. simpl. destruct (H1 g Hg) as [_ Hnd Hne]. split; [|by destruct (gr_targets g)].
    rewrite <- list_fmap_compose. exact Hnd.
  - intros h Hh. destruct (H3 h Hh) as (p & m & g & x & w & Hs & Hg & Hp & Hx & Hid). exists p, m, (group_entry g), x. split_and!; [done| |done| |done].
    + rewrite sort_routes_perm, list_elem_of_fmap. by exists g.
    + simpl. rewrite list_elem_of_fmap. by exists (m, x, w).
  - apply (pairwise_perm (λ a b, conflicts (re_pattern a) (re_pattern b) = true) (group_entry <$> tb_groups t)); [apply sort_routes_perm|].
    intros i j a b Hi Hj Hc. rewrite list_lookup_fmap in Hi, Hj.
    apply fmap_Some in Hi as (g & Hg & ->), Hj as (g' & Hg' & ->). by apply (apart_unique (tb_groups t) i j g g').
Qed.

(** ** Routing *)

Lemma rest_last_tail s l : rest_last (s :: l) → rest_last l.
Proof. intros H i name Hi. pose proof (H (S i) name Hi) as E. simpl in E. lia. Qed.

Lemma same_rank_conflict l k ps : rank <$> l = rank <$> k → rest_last l → rest_last k →
  (∀ s, s ∈ l → segment_plain s) → (∀ s, s ∈ k → segment_plain s) →
  route_fits l ps = true → route_fits k ps = true → forallb (λ ab : Segment * Segment, conflicts_at ab.1 ab.2) (zip l k) = true.
Proof.
  revert k ps. induction l as [|s l IH]; intros [|t k] ps Hr Hl Hk Hpl Hpk Hf1 Hf2; try done.
  injection Hr as Hrank Hr. destruct ps as [|p ps]; [by destruct s|].
  assert (Hrec : is_rest s = false → is_rest t = false → covers_at s p = true ∧ covers_at t p = true
    ∧ forallb (λ ab : Segment * Segment, conflicts_at ab.1 ab.2) (zip l k) = true).
  { intros Hs Ht. assert (E1 : covers_at s p && route_fits l ps = true) by by destruct s.
    assert (E2 : covers_at t p && route_fits k ps = true) by by destruct t. apply andb_true_iff in E1 as [? ?], E2 as [? ?].
    split_and!; [done|done|]. apply (IH k ps); try done; try (by eapply rest_last_tail);
      intros x Hx; [apply Hpl|apply Hpk]; by right. }
  cbn [zip zip_with forallb]. destruct s as [x|n|n], t as [y|m|m]; try done; simpl.
  - destruct (Hrec eq_refl eq_refl) as (C1 & C2 & ->). simpl in C1, C2. rewrite andb_true_r. apply bool_decide_eq_true.
    apply static_matches_plain in C1; [|by apply (Hpl (Static x)); left]. apply static_matches_plain in C2; [|by apply (Hpk (Static y)); left]. congruence.
  - by destruct (Hrec eq_refl eq_refl) as (_ & _ & ->).
  - pose proof (Hl 0 n eq_refl) as E. simpl in E. destruct l; [done|simpl in E; lia].
Qed.

Lemma route_ok_plain p s : route_ok p → s ∈ pt_segments p → segment_plain s.
Proof.
  intros [[Hl _ _] Hp] Hs. destruct s as [t|n|n]; [|done|done]. apply Hp. rewrite pattern_shape_fixed. unfold before_rest.
  destruct (last (pt_segments p)) as [[]|] eqn:E; try done. apply last_Some in E as (k & E). rewrite E in *.
  rewrite length_app. simpl. replace (length k + 1 - 1) with (length k) by lia. rewrite take_app_length.
  apply elem_of_app in Hs as [?|Hs]; [done|]. by apply list_elem_of_singleton in Hs.
Qed.

Lemma matches_route_fits p path params : pattern_matches p path = Some params →
  route_fits (pt_segments p) (request_pieces path) = true ∧ params = captured (pt_segments p) (request_pieces path).
Proof. rewrite pattern_matches_spec. cbv zeta. destruct (route_fits _ _); [by intros [= <-]|done]. Qed.

(** Two patterns of one precedence that match one path conflict, when no static text holds a [%]. *)
Lemma same_precedence p q path ps qs : route_ok p → route_ok q → precedence p = precedence q →
  pattern_matches p path = Some ps → pattern_matches q path = Some qs → conflicts p q = true.
Proof.
  intros Hp Hq Hprec [H1 _]%matches_route_fits [H2 _]%matches_route_fits. unfold conflicts. apply andb_true_iff. split.
  - apply bool_decide_eq_true. apply (f_equal length) in Hprec. unfold precedence in Hprec. by rewrite !length_fmap in Hprec.
  - eapply (same_rank_conflict _ _ (request_pieces path)); [done|apply Hp|apply Hq| | |done|done];
      intros s; by apply route_ok_plain.
Qed.

(** The answer is that of the first entry that matches. *)
Lemma router_route_cases r method path :
  (router_route r method path = NotFound ∧ ∀ e, e ∈ r → pattern_matches (re_pattern e) path = None)
  ∨ ∃ pre e post params, r = pre ++ e :: post ∧ (∀ x, x ∈ pre → pattern_matches (re_pattern x) path = None)
      ∧ pattern_matches (re_pattern e) path = Some params ∧ router_route r method path = entry_answers e method params.
Proof.
  unfold router_route, pattern_matches. cbv zeta. set (np := normalize path). induction r as [|e r IH].
  { left. split; [done|]. by intros e ?%not_elem_of_nil. }
  cbn [route_in]. destruct (match_split (re_pattern e) np (split_path np)) as [params|] eqn:E.
  - right. exists [], e, r, params. split_and!; [done|by intros x ?%not_elem_of_nil|done|done].
  - destruct IH as [[H1 H2]|(pre & e' & post & params & -> & H1 & H2 & H3)].
    + left. split; [done|]. intros x [->|Hx]%elem_of_cons; [done|by apply H2].
    + right. exists (e :: pre), e', post, params. split_and!; [done| |done|done]. intros x [->|Hx]%elem_of_cons; [done|by apply H1].
Qed.

Lemma conflicts_refl p : conflicts p p = true.
Proof.
  unfold conflicts. rewrite bool_decide_eq_true_2 by done. apply forallb_zip. intros i a b Ha Hb. assert (b = a) as -> by congruence.
  destruct a; simpl; [by apply bool_decide_eq_true|done|done].
Qed.

(** The handlers of a pattern are the methods of its entry. *)
Lemma entry_serves hs r e m : router_ok hs r → e ∈ r →
  (∃ h, h ∈ hs ∧ serves h (re_pattern e) m) ↔ ∃ t, (m, t) ∈ re_methods e.
Proof.
  intros Hr He. split; [|intros (t & Ht); destruct (rr_targets _ _ Hr e m t He Ht) as (h & ? & ? & ?); by exists h].
  intros (h & Hh & Hs). destruct (rr_all _ _ Hr h Hh) as (p & m' & e' & t & Hs' & He' & Hp & Ht & _).
  destruct (serves_fun _ _ _ _ _ Hs Hs') as [E ->]. exists t.
  apply list_elem_of_lookup in He as [i Hi], He' as [j Hj].
  assert (i = j) as -> by (apply (rr_apart _ _ Hr i j e e' Hi Hj); rewrite Hp, E; apply conflicts_refl). congruence.
Qed.

Lemma entry_target_spec e m t : NoDup (re_methods e).*1 → entry_target e m = Some t ↔ (m, t) ∈ re_methods e.
Proof.
  intros Hnd. unfold entry_target. split.
  - intros ([m' t'] & E & ->)%fmap_Some. apply find_first_Some in E as [E Hin]. simpl in E. by apply bool_decide_eq_true in E as ->.
  - intros Hin. destruct (find_first _ _) as [[m' t']|] eqn:E.
    + apply find_first_Some in E as [E Hin']. simpl in E. apply bool_decide_eq_true in E as ->. simpl. f_equal.
      apply list_elem_of_lookup in Hin as [i Hi], Hin' as [j Hj].
      assert (i = j) by (apply (NoDup_lookup _ i j m Hnd); rewrite list_lookup_fmap; [by rewrite Hi|by rewrite Hj]). congruence.
    + rewrite find_first_None in E. specialize (E _ Hin). simpl in E. by rewrite bool_decide_eq_false in E.
Qed.

Lemma entry_target_none e m : NoDup (re_methods e).*1 → entry_target e m = None ↔ ¬ ∃ t, (m, t) ∈ re_methods e.
Proof.
  intros Hnd. rewrite eq_None_not_Some. unfold is_Some. by setoid_rewrite (entry_target_spec e m _ Hnd).
Qed.

(** ** The methods a path answers *)

Lemma allow_head_elem methods m : 
  let names := if Prelude.contains methods "HEAD"%string then methods
    else match position (λ n, bool_decide (n = "GET"%string)) methods with
         | Some get => take (get + 1) methods ++ "HEAD"%string :: drop (get + 1) methods
         | None => methods
         end in
  (m ∈ names ↔ m ∈ methods ∨ (m = "HEAD"%string ∧ "GET"%string ∈ methods)) ∧ (NoDup methods → NoDup names).
Proof.
  cbv zeta. destruct (Prelude.contains methods "HEAD") eqn:Eh.
  { apply contains_true in Eh. split; [|done]. naive_solver. }
  apply contains_false in Eh. destruct (position _ methods) as [g|] eqn:Eg.
  - apply position_Some in Eg as (x & Hx & E). apply bool_decide_eq_true in E as ->. apply list_elem_of_lookup_2 in Hx.
    assert (Hp : take (g + 1) methods ++ "HEAD"%string :: drop (g + 1) methods ≡ₚ "HEAD"%string :: methods).
    { rewrite <- Permutation_middle. by rewrite take_drop. }
    split; [rewrite Hp, elem_of_cons; naive_solver|]. intros Hnd. rewrite Hp. by apply NoDup_cons.
  - split; [|done]. assert (Hg : "GET"%string ∉ methods); [|naive_solver]. intros Hin. clear Eh.
    induction methods as [|x l IH]; [by apply not_elem_of_nil in Hin|]. simpl in Eg.
    case_bool_decide; [done|]. apply IH; [by destruct (position _ l)|]. apply elem_of_cons in Hin as [|]; congruence.
Qed.

Lemma allow_of_spec methods : (∀ m, m ∈ allow_of methods ↔
  m ∈ methods ∨ (m = "HEAD"%string ∧ "GET"%string ∈ methods) ∨ m = "OPTIONS"%string) ∧ (NoDup methods → NoDup (allow_of methods)).
Proof.
  unfold allow_of. pose proof (allow_head_elem methods) as Hn. cbv zeta in Hn. set (names := if Prelude.contains methods _ then _ else _) in *.
  assert (Hm : ∀ m, m ∈ names ↔ m ∈ methods ∨ (m = "HEAD"%string ∧ "GET"%string ∈ methods)) by (intros m; apply Hn).
  pose proof (proj2 (Hn ""%string)) as Hnd. clearbody names. clear Hn.
  destruct (Prelude.contains names "OPTIONS") eqn:E.
  - apply contains_true in E. split; [|done]. intros m. specialize (Hm m) as Hm'. naive_solver.
  - apply contains_false in E. split.
    + intros m. rewrite elem_of_app, list_elem_of_singleton, Hm. naive_solver.
    + intros H. apply NoDup_app. split_and!; [by apply Hnd| |apply NoDup_singleton]. intros x Hx ->%list_elem_of_singleton. done.
Qed.

(** ** What routing decides *)

(** A pattern handlers serve, that matches, before every other that does. *)
Record best (hs : list MountedHandler) (path : str) (p : Pattern) (params : PathParams) : Prop := {
  be_served : ∃ h m, h ∈ hs ∧ serves h p m;
  be_matches : pattern_matches p path = Some params;
  be_least : ∀ h q m, h ∈ hs → serves h q m → pattern_matches q path ≠ None → lex_le (precedence p) (precedence q) = true;
}.

Definition answers (hs : list MountedHandler) (p : Pattern) (method : string) : Prop := ∃ h, h ∈ hs ∧ serves h p method.

Definition allows (hs : list MountedHandler) (p : Pattern) (allow : list string) : Prop :=
  NoDup allow ∧ ∀ m, m ∈ allow ↔ answers hs p m ∨ (m = "HEAD"%string ∧ answers hs p "GET"%string) ∨ m = "OPTIONS"%string.

(** What the pattern a path is routed to answers a method. *)
Definition decides (hs : list MountedHandler) (p : Pattern) (params : PathParams) (method : string) (routed : Routed) : Prop :=
  match routed with
  | NotFound => False
  | Found t ps false => ps = params ∧ ∃ h, h ∈ hs ∧ serves h p method ∧ rt_handler t = mh_id h
  | Found t ps true => ps = params ∧ method = "HEAD"%string ∧ ¬ answers hs p method
      ∧ ∃ h, h ∈ hs ∧ serves h p "GET"%string ∧ rt_handler t = mh_id h
  | Options allow _ => method = "OPTIONS"%string ∧ ¬ answers hs p method ∧ allows hs p allow
  | MethodNotAllowed allow => method ≠ "OPTIONS"%string ∧ ¬ answers hs p method
      ∧ (method = "HEAD"%string → ¬ answers hs p "GET"%string) ∧ allows hs p allow
  end.

Definition decision (hs : list MountedHandler) (method : string) (path : str) (routed : Routed) : Prop :=
  match routed with
  | NotFound => ∀ h p m, h ∈ hs → serves h p m → pattern_matches p path = None
  | _ => ∃ p params, best hs path p params ∧ decides hs p params method routed
  end.

Lemma decides_decision hs p params method path routed : best hs path p params → decides hs p params method routed →
  decision hs method path routed.
Proof. intros Hb Hd. destruct routed; [by exists p, params|done|by exists p, params|by exists p, params]. Qed.

Lemma first_best hs r pre e post path params : router_ok hs r → r = pre ++ e :: post →
  (∀ x, x ∈ pre → pattern_matches (re_pattern x) path = None) → pattern_matches (re_pattern e) path = Some params →
  best hs path (re_pattern e) params.
Proof.
  intros Hr E Hpre Hm. assert (He : e ∈ r) by (rewrite E; set_solver).
  split; [|done|].
  - destruct (rr_methods _ _ Hr e He) as [_ Hne]. destruct (re_methods e) as [|[m t] l] eqn:El; [done|].
    destruct (rr_targets _ _ Hr e m t He) as (h & ? & ? & _); [rewrite El; by left|]. by exists h, m.
  - intros h q m Hh Hs Hq. destruct (rr_all _ _ Hr h Hh) as (p' & m' & e' & t & Hs' & He' & Hp & _ & _).
    destruct (serves_fun _ _ _ _ _ Hs Hs') as [-> _]. subst p'. rewrite E in He'.
    apply elem_of_app in He' as [He'|He']; [by specialize (Hpre e' He')|].
    apply elem_of_cons in He' as [-> |He']; [apply lex_le_refl|].
    pose proof (rr_sorted _ _ Hr) as Hsort. rewrite E in Hsort. apply StronglySorted_app in Hsort as (_ & _ & Hsort).
    apply StronglySorted_inv in Hsort as [_ Hall]. rewrite Forall_forall in Hall. by apply Hall.
Qed.

Lemma route_decision hs r method path : router_ok hs r → decision hs method path (router_route r method path).
Proof.
  intros Hr. destruct (router_route_cases r method path) as [[-> Hnone]|(pre & e & post & params & E & Hpre & Hm & ->)].
  { intros h p m Hh Hs. destruct (rr_all _ _ Hr h Hh) as (p' & m' & e' & t & Hs' & He' & <- & _).
    destruct (serves_fun _ _ _ _ _ Hs Hs') as [-> _]. by apply Hnone. }
  pose proof (first_best hs r pre e post path params Hr E Hpre Hm) as Hbest.
  assert (He : e ∈ r) by (rewrite E; set_solver). destruct (rr_methods _ _ Hr e He) as [Hnd _].
  assert (Hans : ∀ m, answers hs (re_pattern e) m ↔ ∃ t, (m, t) ∈ re_methods e) by (intros m; by apply entry_serves with (r := r)).
  assert (Hallow : allows hs (re_pattern e) (re_allow e)).
  { rewrite (rr_allow _ _ Hr e He). destruct (allow_of_spec (re_methods e).*1) as [Hel Hnd']. split; [by apply Hnd'|].
    intros m. rewrite Hel, !Hans, !list_elem_of_fmap. split.
    - intros [([m' t] & -> & Hin)|[[-> ([m' t] & -> & Hin)]| ->]]; simpl; [left; by exists t|right; left; split; [done|by exists t]|by right; right].
    - intros [[t Hin]|[[-> [t Hin]]| ->]]; [left; by exists (m, t)|right; left; split; [done|by exists ("GET"%string, t)]|by right; right]. }
  apply (decides_decision hs (re_pattern e) params); [done|].
  unfold entry_answers. destruct (entry_target e method) as [t|] eqn:Et.
  { apply entry_target_spec in Et; [|done]. split; [done|]. by apply (rr_targets _ _ Hr e method t). }
  apply entry_target_none in Et; [|done]. rewrite <- Hans in Et.
  case_bool_decide as Hhead.
  - destruct (entry_target e "GET") as [t|] eqn:Eg.
    + apply entry_target_spec in Eg; [|done]. split_and!; [done|done|done|]. by apply (rr_targets _ _ Hr e _ t).
    + apply entry_target_none in Eg; [|done]. rewrite <- Hans in Eg. rewrite bool_decide_eq_false_2 by (by subst).
      simpl. split_and!; [by subst|done|done|done].
  - case_bool_decide as Hopt; simpl.
    + done.
    + split; [done|]. split; [done|]. split; [by intros ?|done].
Qed.

(** ** Order of declaration *)

Definition plain_handlers (hs : list MountedHandler) : Prop := ∀ h p m, h ∈ hs → serves h p m → shape_plain (pattern_shape p).

Lemma best_unique hs r path p q ps qs : router_ok hs r → plain_handlers hs → best hs path p ps → best hs path q qs → p = q ∧ ps = qs.
Proof.
  intros Hr Hplain [(h1 & m1 & Hh1 & Hs1) Hm1 Hl1] [(h2 & m2 & Hh2 & Hs2) Hm2 Hl2].
  assert (Hp : route_ok p) by (split; [by eapply serves_parsed|exact (Hplain h1 p m1 Hh1 Hs1)]).
  assert (Hq : route_ok q) by (split; [by eapply serves_parsed|exact (Hplain h2 q m2 Hh2 Hs2)]).
  assert (Hc : conflicts p q = true).
  { eapply same_precedence; [done|done| |done|done]. apply lex_le_antisym; [by eapply Hl1; [exact Hh2|..]; rewrite ?Hm2|by eapply Hl2; [exact Hh1|..]; rewrite ?Hm1]. }
  destruct (rr_all _ _ Hr h1 Hh1) as (p' & m' & e1 & t1 & Hs1' & He1 & Hp1 & _). destruct (serves_fun _ _ _ _ _ Hs1 Hs1') as [-> _].
  destruct (rr_all _ _ Hr h2 Hh2) as (q' & m'' & e2 & t2 & Hs2' & He2 & Hq2 & _). destruct (serves_fun _ _ _ _ _ Hs2 Hs2') as [-> _].
  apply list_elem_of_lookup in He1 as [i Hi], He2 as [j Hj].
  assert (i = j) by (apply (rr_apart _ _ Hr i j e1 e2 Hi Hj); by rewrite Hp1, Hq2). subst j.
  assert (p' = q') by congruence. subst q'. split; congruence.
Qed.

Lemma serves_unique hs r h k p m : router_ok hs r → h ∈ hs → k ∈ hs → serves h p m → serves k p m → mh_id h = mh_id k.
Proof.
  intros Hr Hh Hk Hs1 Hs2.
  destruct (rr_all _ _ Hr h Hh) as (p1 & m1 & e1 & t1 & Hs1' & He1 & Hp1 & Ht1 & Hid1). destruct (serves_fun _ _ _ _ _ Hs1 Hs1') as [-> ->].
  destruct (rr_all _ _ Hr k Hk) as (p2 & m2 & e2 & t2 & Hs2' & He2 & Hp2 & Ht2 & Hid2). destruct (serves_fun _ _ _ _ _ Hs2 Hs2') as [-> ->].
  pose proof (proj1 (rr_methods _ _ Hr e1 He1)) as Hnd.
  apply list_elem_of_lookup in He1 as [i Hi], He2 as [j Hj].
  assert (i = j) by (apply (rr_apart _ _ Hr i j e1 e2 Hi Hj); rewrite Hp1, Hp2; apply conflicts_refl). subst j.
  assert (e2 = e1) by congruence. subst e2. apply entry_target_spec in Ht1, Ht2; [|done..]. congruence.
Qed.

(** Two answers that agree: the same handler with the same parameters, or the same refusal. *)
Definition agree (a b : Routed) : Prop :=
  match a, b with
  | Found t ps x, Found u qs y => rt_handler t = rt_handler u ∧ ps = qs ∧ x = y
  | NotFound, NotFound => True
  | MethodNotAllowed a, MethodNotAllowed b | Options a _, Options b _ => a ≡ₚ b
  | _, _ => False
  end.

Lemma answers_perm hs ks p m : hs ≡ₚ ks → answers hs p m ↔ answers ks p m.
Proof. intros Hp. unfold answers. by setoid_rewrite Hp. Qed.

Lemma allows_perm hs ks p a b : hs ≡ₚ ks → allows hs p a → allows ks p b → a ≡ₚ b.
Proof.
  intros Hp [Hn1 H1] [Hn2 H2]. apply NoDup_Permutation; [done|done|]. intros m. rewrite H1, H2, !(answers_perm hs ks) by done. done.
Qed.

Lemma best_perm hs ks path p ps : hs ≡ₚ ks → best hs path p ps → best ks path p ps.
Proof.
  intros Hp [(h & m & Hh & Hs) H2 H3]. split; [exists h, m; by rewrite <- Hp|done|]. intros h' q m' Hh'. rewrite <- Hp in Hh'. by apply H3.
Qed.

Lemma decides_kind hs p ps method a : decides hs p ps method a →
  let A := answers hs p method in
  let G := answers hs p "GET"%string in
  match a with
  | Found _ _ false => A
  | Found _ _ true => method = "HEAD"%string ∧ ¬ A ∧ G
  | NotFound => False
  | Options _ _ => method = "OPTIONS"%string ∧ ¬ A
  | MethodNotAllowed _ => method ≠ "OPTIONS"%string ∧ ¬ A ∧ (method = "HEAD"%string → ¬ G)
  end.
Proof.
  unfold answers. destruct a as [t x [|]| |a|a ra]; simpl.
  - intros (_ & ? & ? & h & ? & ? & _). split_and!; [done|done|by exists h].
  - intros (_ & h & ? & ? & _). by exists h.
  - done.
  - intros (? & ? & ? & _). done.
  - intros (? & ? & _). done.
Qed.

Lemma decides_agree hs ks r p ps method a b : router_ok hs r → hs ≡ₚ ks →
  decides hs p ps method a → decides ks p ps method b → agree a b.
Proof.
  intros Hr Hp Ha Hb.
  assert (Hid : ∀ h k m, h ∈ hs → k ∈ ks → serves h p m → serves k p m → mh_id h = mh_id k).
  { intros h k m Hh Hk. rewrite <- Hp in Hk. by apply (serves_unique hs r). }
  assert (Hho : ¬ (method = "HEAD"%string ∧ method = "OPTIONS"%string)) by (intros [-> ?]; done).
  pose proof (decides_kind _ _ _ _ _ Ha) as Ka. pose proof (decides_kind _ _ _ _ _ Hb) as Kb. cbv zeta in Ka, Kb.
  pose proof (answers_perm hs ks p method Hp) as Pm. pose proof (answers_perm hs ks p "GET"%string Hp) as Pg.
  destruct a as [t x [|]| |a|a ra], b as [u y [|]| |b|b rb]; try tauto.
  - destruct Ha as (-> & _ & _ & h & ? & ? & Et), Hb as (-> & _ & _ & k & ? & ? & Eu).
    split_and!; [rewrite Et, Eu; by eapply Hid|done|done].
  - destruct Ha as (-> & h & ? & ? & Et), Hb as (-> & k & ? & ? & Eu). split_and!; [rewrite Et, Eu; by eapply Hid|done|done].
  - destruct Ha as (_ & _ & _ & Ha), Hb as (_ & _ & _ & Hb). by eapply allows_perm.
  - destruct Ha as (_ & _ & Ha), Hb as (_ & _ & Hb). by eapply allows_perm.
Qed.

(** Two tables of the same handlers, in whatever order, route alike. *)
Lemma route_agree hs ks r r' method path : router_ok hs r → router_ok ks r' → plain_handlers hs → hs ≡ₚ ks →
  agree (router_route r method path) (router_route r' method path).
Proof.
  intros Hr Hr' Hplain Hperm. pose proof (route_decision hs r method path Hr) as D1. pose proof (route_decision ks r' method path Hr') as D2.
  assert (Hmiss : ∀ l p ps, (∀ h q m, h ∈ l → serves h q m → pattern_matches q path = None) → ¬ best l path p ps).
  { intros l p ps Hn [(h & m & Hh & Hs) Hm _]. specialize (Hn h p m Hh Hs). congruence. }
  unfold decision in D1, D2.
  assert (D1' : router_route r method path = NotFound ∨ ∃ p ps, best hs path p ps ∧ decides hs p ps method (router_route r method path))
    by (destruct (router_route r method path); auto).
  assert (D2' : router_route r' method path = NotFound ∨ ∃ p ps, best ks path p ps ∧ decides ks p ps method (router_route r' method path))
    by (destruct (router_route r' method path); auto).
  destruct D1' as [E1|(p & ps & Hb1 & Hd1)], D2' as [E2|(q & qs & Hb2 & Hd2)].
  - by rewrite E1, E2.
  - exfalso. rewrite E1 in D1. apply (Hmiss hs q qs D1). by eapply best_perm.
  - exfalso. rewrite E2 in D2. apply (Hmiss ks p ps D2). by eapply best_perm.
  - apply (best_perm ks hs) in Hb2; [|done]. destruct (best_unique hs r path p q ps qs Hr Hplain Hb1 Hb2) as [-> ->].
    exact (decides_agree hs ks r _ _ _ _ _ Hr Hperm Hd1 Hd2).
Qed.
End Env.
