(* ===== verification/PathSafety.v ===== *)
(** * PathSafety: what a captured value can hold

    [decode], [has_dot_segment] and [has_backslash] of [router/pattern.rs], with [malformed] of
    [service.rs]: a path that is not refused gives parameters that name no other directory. *)

From S2P Require Import Prelude Text Key Graph Pattern PatternFacts ParseFacts PreDispatch Router.
Local Open Scope nat_scope.

(** ** Encoded slashes and separators *)

Lemma encoded_slash_skip c t : c ≠ "%"%char → encoded_slash (c :: t) = S <$> encoded_slash t.
Proof.
  intros Hc. destruct t as [|b [|d t]]; [done|done|]. rewrite encoded_slash_cons, bool_decide_eq_false_2 by done. done.
Qed.

Lemma encoded_slash_at_slash s t : encoded_slash (s ++ "/"%char :: t) =
  match encoded_slash s with Some i => Some i | None => (λ j, length s + 1 + j) <$> encoded_slash t end.
Proof.
  induction s as [|a s IH].
  { simpl app. rewrite encoded_slash_skip by done. simpl. by destruct (encoded_slash t). }
  destruct s as [|b [|c s]].
  - simpl app. change (encoded_slash [a]) with (@None nat). destruct t as [|d t]; [done|]. rewrite encoded_slash_cons.
    rewrite (bool_decide_eq_false_2 ("/"%char = "2"%char)) by done. rewrite andb_false_r. simpl andb. rewrite encoded_slash_skip by done.
    generalize (encoded_slash (d :: t)). by intros [j|].
  - simpl app. change (encoded_slash [a; b]) with (@None nat). rewrite encoded_slash_cons. replace (slash_escape "/"%char) with false by done.
    rewrite andb_false_r. simpl app in IH. rewrite IH. change (encoded_slash [b]) with (@None nat).
    generalize (encoded_slash t). by intros [j|].
  - change ((a :: b :: c :: s) ++ "/"%char :: t) with (a :: b :: c :: (s ++ "/"%char :: t)). rewrite !encoded_slash_cons.
    destruct (_ && _ && _); [done|]. change (b :: c :: s ++ "/"%char :: t) with ((b :: c :: s) ++ "/"%char :: t). rewrite IH.
    destruct (encoded_slash (b :: c :: s)) as [i|]; [done|]. by destruct (encoded_slash t).
Qed.

Lemma encoded_slash_bound s i : encoded_slash s = Some i → i + 3 ≤ length s.
Proof.
  intros H. destruct (encoded_slash_some s i H) as (_ & x & rest & Hd & _). apply (f_equal length) in Hd.
  rewrite length_drop in Hd. simpl in Hd. lia.
Qed.

Section Env.
Context `{Henv : HttpEnv, Hdec : !PercentDecoding}.

Lemma decode_loop_eq f s : length s ≤ f → decode_loop f (encoded_slash s) s = decode s.
Proof.
  unfold decode. revert s. assert (H : ∀ f g s, length s ≤ f → length s ≤ g →
    decode_loop f (encoded_slash s) s = decode_loop g (encoded_slash s) s).
  { induction f0 as [|f0 IH]; intros g s Hf Hg; (destruct (encoded_slash s) as [i|] eqn:E; [|by destruct g]);
      pose proof (encoded_slash_bound s i E); [lia|]. destruct g as [|g]; [lia|]. cbn [decode_loop].
    do 2 f_equal. apply IH; rewrite length_drop; lia. }
  intros s Hs. destruct (encoded_slash s) as [i|] eqn:E; [|by destruct f]. rewrite <- E. by apply H.
Qed.

Lemma decode_unfold s : decode s = match encoded_slash s with
  | None => percent_decode_lossy s
  | Some i => percent_decode_lossy (take i s) ++ take 3 (drop i s) ++ decode (drop (i + 3) s)
  end.
Proof.
  unfold decode at 1. destruct (encoded_slash s) as [i|] eqn:E; [|done]. pose proof (encoded_slash_bound s i E).
  destruct (length s) as [|n] eqn:El; [lia|]. cbn [decode_loop]. rewrite decode_loop_eq; [done|]. rewrite length_drop. lia.
Qed.

(** A separator stays one, between what its sides decode to. *)
Lemma decode_at_slash s t : decode (s ++ "/"%char :: t) = decode s ++ "/"%char :: decode t.
Proof.
  remember (length s) as n eqn:En. revert s En. induction (lt_wf n) as [n _ IH]. intros s ->.
  rewrite (decode_unfold (s ++ _)), encoded_slash_at_slash, (decode_unfold s). destruct (encoded_slash s) as [i|] eqn:E.
  - pose proof (encoded_slash_bound s i E) as Hb. rewrite take_app_le, drop_app_le by lia.
    rewrite take_app_le by (rewrite length_drop; lia). rewrite drop_app_le by lia.
    rewrite (IH (length (drop (i + 3) s))) by (try done; rewrite length_drop; lia). by rewrite <- !app_assoc.
  - rewrite (decode_unfold t). destruct (encoded_slash t) as [j|]; simpl; [|apply decoding_at_slash].
    assert (Ht : take (length s + 1 + j) (s ++ "/"%char :: t) = s ++ "/"%char :: take j t).
    { rewrite take_app_ge by lia. f_equal. by replace (length s + 1 + j - length s) with (S j) by lia. }
    assert (Hd : ∀ k, drop (length s + 1 + k) (s ++ "/"%char :: t) = drop k t).
    { intros k. rewrite drop_app_ge by lia. by replace (length s + 1 + k - length s) with (S k) by lia. }
    rewrite Ht, Hd, decoding_at_slash, <- Nat.add_assoc, Hd. by rewrite <- !app_assoc.
Qed.

Lemma decode_join ps : ps ≠ [] → decode (join_on "/"%char ps) = join_on "/"%char (decode <$> ps).
Proof.
  induction ps as [|p ps IH]; intros Hne; [done|]. destruct ps as [|q ps]; [done|].
  change (join_on "/"%char (p :: q :: ps)) with (p ++ "/"%char :: join_on "/"%char (q :: ps)). rewrite decode_at_slash, IH by done. done.
Qed.

(** ** Backslashes *)

Lemma encoded_backslash_true s : encoded_backslash s = true ↔
  ∃ u x v, s = u ++ "%"%char :: "5"%char :: x :: v ∧ (x = "C"%char ∨ x = "c"%char).
Proof.
  induction s as [|a s IH]; [split; [done|]; intros (u & x & v & E & _); by destruct u|].
  destruct s as [|b [|c s]].
  - split; [done|]. intros (u & x & v & E & _). by destruct u as [|? [|? ?]].
  - split; [done|]. intros (u & x & v & E & _). by destruct u as [|? [|? [|? ?]]].
  - cbn [encoded_backslash]. change (match c :: s with [] => false | c0 :: _ => _ end) with (encoded_backslash (b :: c :: s)).
    rewrite orb_true_iff, IH, !andb_true_iff, orb_true_iff, !bool_decide_eq_true. split.
    + intros [[[-> ->] Hc]|(u & x & v & E & Hx)]; [by exists [], c, s|]. exists (a :: u), x, v. by rewrite E.
    + intros ([|a' u] & x & v & E & Hx); simpl in E; simplify_eq; [by left|]. right. by exists u, x, v.
Qed.

Lemma has_backslash_part u s v : has_backslash (u ++ s ++ v) = false → has_backslash s = false.
Proof.
  unfold has_backslash. rewrite !orb_false_iff, !contains_false, <- !not_true_iff_false, !encoded_backslash_true. intros [H1 H2].
  split; [set_solver|]. intros (u' & x & v' & -> & Hx). apply H2. exists (u ++ u'), x, (v' ++ v). split; [|done]. by rewrite <- !app_assoc.
Qed.

Lemma lossy_no_backslash s : has_backslash s = false → "\"%char ∉ percent_decode_lossy s.
Proof.
  unfold has_backslash. rewrite orb_false_iff, contains_false, <- not_true_iff_false, encoded_backslash_true. intros [H1 H2] Hin.
  apply decoding_elem in Hin; [|done]. apply unescape_elem in Hin as [Hin|(u & a & b & v & E & He)]; [done|].
  apply escape_digits in He as [->%hex_5 Hb%hex_12]. apply H2. by exists u, b, v.
Qed.

Lemma decode_no_backslash s : has_backslash s = false → "\"%char ∉ decode s.
Proof.
  remember (length s) as n eqn:En. revert s En. induction (lt_wf n) as [n _ IH]. intros s -> Hs.
  rewrite decode_unfold. destruct (encoded_slash s) as [i|] eqn:E; [|by apply lossy_no_backslash].
  pose proof (encoded_slash_bound s i E) as Hb. destruct (encoded_slash_some s i E) as (_ & x & rest & Hd & Hx).
  assert (Hpart : s = take i s ++ take 3 (drop i s) ++ drop (i + 3) s).
  { rewrite <- (take_drop i s) at 1. f_equal. rewrite <- (take_drop 3 (drop i s)) at 1. by rewrite drop_drop. }
  rewrite !not_elem_of_app. split_and!.
  - apply lossy_no_backslash. rewrite Hpart in Hs. by apply (has_backslash_part []) in Hs.
  - rewrite Hd. simpl. apply slash_escape_true in Hx. rewrite !not_elem_of_cons. split_and!; try done; [by destruct Hx as [-> | ->]|].
    apply not_elem_of_nil.
  - apply (IH (length (drop (i + 3) s))); [rewrite length_drop; lia|done|]. rewrite Hpart in Hs.
    rewrite app_assoc, <- (app_nil_r (drop (i + 3) s)) in Hs. by apply has_backslash_part in Hs.
Qed.

(** ** Dot segments *)

Lemma dot_loop_dots n d s : unescape s = replicate n "."%char → d + n ≤ 2 → dot_loop d s = bool_decide (0 < d + n).
Proof.
  revert d s. induction n as [|n IH]; intros d s Hu Hd.
  - destruct s as [|c s]; [by rewrite Nat.add_0_r|]. by destruct (unescape_cons c s) as [E|(a & b & after & -> & -> & e & _ & E)]; rewrite E in Hu.
  - destruct s as [|c s]; [done|]. destruct (unescape_cons c s) as [E|(a & b & after & -> & -> & e & He & E)]; rewrite E in Hu; simpl in Hu; injection Hu as -> Hu.
    + cbn [dot_loop]. rewrite bool_decide_eq_true_2 by done. rewrite bool_decide_eq_false_2 by lia. rewrite (IH (S d) s Hu) by lia.
      apply bool_decide_ext. lia.
    + apply escape_digits in He as [->%hex_2 Hb%hex_14]. cbn [dot_loop].
      rewrite (bool_decide_eq_false_2 ("%"%char = "."%char)) by done. rewrite (bool_decide_eq_true_2 ("%"%char = "%"%char)) by done.
      rewrite (bool_decide_eq_true_2 ("2"%char = "2"%char)) by done.
      assert (Eb : bool_decide (b = "e"%char) || bool_decide (b = "E"%char) = true) by (by destruct Hb as [-> | ->]).
      rewrite Eb. simpl andb. cbv iota. rewrite (bool_decide_eq_false_2 (2 < S d)) by lia. rewrite (IH (S d) after Hu) by lia.
      apply bool_decide_ext. lia.
Qed.

Definition dots (s : str) : Prop := s = ["."%char] ∨ s = ["."%char; "."%char].

Lemma decode_not_dots s : is_dot_segment s = false → ¬ dots (decode s).
Proof.
  intros Hs Hd. assert (Hn : ∃ n, 1 ≤ n ≤ 2 ∧ decode s = replicate n "."%char).
  { destruct Hd as [-> | ->]; [by exists 1; split; [lia|]|by exists 2; split; [lia|]]. }
  destruct Hn as (n & Hn & E). rewrite decode_unfold in E. destruct (encoded_slash s) as [i|] eqn:Es.
  - destruct (encoded_slash_some s i Es) as (_ & x & rest & Hdrop & _).
    assert (Hin : "%"%char ∈ replicate n "."%char) by (rewrite <- E, Hdrop; set_solver). by apply elem_of_replicate in Hin as [? _].
  - apply decoding_bytes in E; [|destruct Hn; by destruct n as [|[|[|?]]]; try lia].
    unfold is_dot_segment in Hs. rewrite (dot_loop_dots n 0 s E) in Hs by lia. apply bool_decide_eq_false in Hs. lia.
Qed.

(** ** Captured values *)

Lemma split_on_snoc (s : str) : split_on "/"%char (s ++ ["/"%char]) = split_on "/"%char s ++ [[]].
Proof.
  induction s as [|b s IH]; [done|]. simpl. rewrite IH. case_bool_decide; [done|].
  pose proof (split_on_nonempty "/"%char s). by destruct (split_on "/"%char s).
Qed.

Lemma request_pieces_split path p : starts_with ["/"%char] path = true → p ∈ request_pieces path → p ∈ split_on "/"%char path.
Proof.
  intros Hs. destruct (normalize_slash path Hs) as [u Hu]. unfold request_pieces. rewrite Hu, split_path_slash.
  case_bool_decide; [by intros ?%not_elem_of_nil|]. intros Hp.
  assert (Hin : p ∈ split_on "/"%char ("/"%char :: u)) by (simpl; by right).
  destruct (normalize_spec path) as [E|[_ E]]; rewrite Hu in E; rewrite <- ?E; [done|]. rewrite E, split_on_snoc. set_solver.
Qed.

Lemma split_on_part path p : p ∈ split_on "/"%char path → ∃ u v, path = u ++ p ++ v.
Proof.
  revert p. induction path as [|b s IH]; intros p; simpl.
  { intros ->%list_elem_of_singleton. by exists [], []. }
  case_bool_decide as Hb.
  - intros [->|Hin]%elem_of_cons; [by exists [], (b :: s)|]. destruct (IH p Hin) as (u & v & ->). by exists (b :: u), v.
  - pose proof (split_on_nonempty "/"%char s) as Hne. destruct (split_on "/"%char s) as [|q qs] eqn:E; [done|].
    intros [->|Hin]%elem_of_cons.
    + assert (Hq : ∃ v, s = q ++ v).
      { rewrite <- (join_split "/"%char s), E. destruct qs as [|r qs]; [exists []; by rewrite app_nil_r|]. simpl. by eexists. }
      destruct Hq as [v ->]. by exists [], v.
    + destruct (IH p ltac:(by right)) as (u & v & ->). by exists (b :: u), v.
Qed.

(** A value that stays below the directory it is joined to: no backslash, no dot segment. *)
Record safe_value (v : str) : Prop := {
  sv_backslash : "\"%char ∉ v;
  sv_dots : ∀ q, q ∈ split_on "/"%char v → ¬ dots q;
}.

Lemma piece_safe path p : starts_with ["/"%char] path = true → malformed path = None → p ∈ request_pieces path →
  ("/"%char ∉ decode p) ∧ ("\"%char ∉ decode p) ∧ ¬ dots (decode p).
Proof.
  intros Hs Hm Hp. pose proof (request_pieces_no_slash path p Hs Hp) as Hns. apply request_pieces_split in Hp; [|done].
  unfold malformed in Hm. destruct (has_dot_segment path) eqn:Ed; [done|]. destruct (has_backslash path) eqn:Eb; [done|]. split_and!.
  - by apply decode_no_slash.
  - apply decode_no_backslash. destruct (split_on_part path p Hp) as (u & v & E). rewrite E in Eb. by apply has_backslash_part in Eb.
  - apply decode_not_dots. unfold has_dot_segment in Ed. rewrite existsb_false in Ed. by apply Ed.
Qed.

Lemma pieces_safe path ps : starts_with ["/"%char] path = true → malformed path = None → ps ≠ [] → (∀ p, p ∈ ps → p ∈ request_pieces path) →
  safe_value (decode (join_on "/"%char ps)).
Proof.
  intros Hs Hm Hne Hin. rewrite decode_join by done.
  assert (Hall : ∀ q, q ∈ decode <$> ps → ("/"%char ∉ q) ∧ ("\"%char ∉ q) ∧ ¬ dots q).
  { intros q (p & -> & Hp)%list_elem_of_fmap. by apply (piece_safe path p Hs Hm), Hin. }
  assert (Hne' : decode <$> ps ≠ []) by by destruct ps.
  assert (Hsp : split_on "/"%char (join_on "/"%char (decode <$> ps)) = decode <$> ps).
  { apply split_join; [done|]. intros q Hq. by apply Hall. }
  split; [|rewrite Hsp; intros q Hq; by apply Hall].
  intros Hb. clear Hsp. induction (decode <$> ps) as [|q qs IH]; [done|]. destruct qs as [|r qs].
  - simpl in Hb. by destruct (Hall q ltac:(by left)) as (_ & ? & _).
  - change (join_on "/"%char (q :: r :: qs)) with (q ++ "/"%char :: join_on "/"%char (r :: qs)) in Hb.
    apply elem_of_app in Hb as [Hb|Hb]; [by destruct (Hall q ltac:(by left)) as (_ & ? & _)|].
    apply elem_of_cons in Hb as [|Hb]; [done|]. apply IH; [intros x Hx; apply Hall; by right|done|done].
Qed.

Lemma captured_safe path segments ps n v : starts_with ["/"%char] path = true → malformed path = None →
  (∀ p, p ∈ ps → p ∈ request_pieces path) → route_fits segments ps = true → (n, v) ∈ captured segments ps →
  safe_value v ∧ (Param n ∈ segments ∧ ("/"%char ∉ v) ∨ Rest n ∈ segments).
Proof.
  intros Hs Hm. revert ps. induction segments as [|s segments IH]; intros ps Hin Hf Hc; [by apply not_elem_of_nil in Hc|].
  destruct s as [t|m|m].
  - destruct ps as [|p ps]; [done|]. simpl in Hf, Hc. apply andb_true_iff in Hf as [_ Hf].
    destruct (IH ps ltac:(intros q Hq; apply Hin; by right) Hf Hc) as [? [[? ?]|?]]; (split; [done|]); [left|right]; set_solver.
  - destruct ps as [|p ps]; [done|]. simpl in Hf, Hc. apply andb_true_iff in Hf as [_ Hf].
    apply elem_of_cons in Hc as [[= -> ->]|Hc].
    + split; [|left; split; [by left|by apply (piece_safe path p Hs Hm), Hin; left]].
      apply (pieces_safe path [p]); [done|done|done|]. intros q ->%list_elem_of_singleton. apply Hin. by left.
    + destruct (IH ps ltac:(intros q Hq; apply Hin; by right) Hf Hc) as [? [[? ?]|?]]; (split; [done|]); [left|right]; set_solver.
  - destruct ps as [|p ps]; [done|]. simpl in Hc. apply list_elem_of_singleton in Hc as [= -> ->].
    split; [|right; by left]. by apply (pieces_safe path (p :: ps)).
Qed.
End Env.
