(* ===== verification/HttpTheorems.v ===== *)
(** * HttpTheorems: patterns, scopes, routes and the pre-dispatch stage *)

From S2P Require Import Prelude Text Key Graph Pattern PatternFacts ParseFacts PreDispatch PreDispatchFacts Router RouterFacts PathSafety Demo.
Local Open Scope nat_scope.

Section Env.
Context `{Henv : HttpEnv, Hdec : !PercentDecoding}.

(** C36: routing answers as the handlers declare: among the patterns of the handlers that match the
    path, the one first in precedence decides, its parameters captured; its handler for the method
    is called, or its [GET] handler for a [HEAD] it has none for; otherwise the refusal carries
    exactly the methods the pattern answers, [HEAD] with [GET] and [OPTIONS] always, each once; and
    only a path no handler's pattern matches is not found. *)
Theorem route_correct hs body_limit stage mount r method path :
  (router_build hs body_limit stage mount).1 = inr r → decision hs method path (router_route r method path).
Proof. intros H. apply route_decision. by eapply router_build_ok. Qed.

(** The order handlers are declared in changes nothing: two tables of the same handlers route
    every request to the same handler with the same parameters, or refuse it alike. The static
    segments' decoded texts hold no [%]. *)
Theorem route_order_independent hs ks body_limit stage mount r r' method path :
  (router_build hs body_limit stage mount).1 = inr r → (router_build ks body_limit stage mount).1 = inr r' →
  hs ≡ₚ ks → plain_handlers hs →
  agree (router_route r method path) (router_route r' method path).
Proof. intros H1%router_build_ok H2%router_build_ok Hp Hplain. by eapply route_agree. Qed.

(** C37: when no static segment of the route, nor of the scopes and exclusions of the stage, holds a
    [%] once decoded, and no entry was declared twice (each has an address of its own), a route's own
    stage runs, on every path the route matches, exactly the scoped entries whose scopes match the
    path and whose exclusions do not, in declaration order, whatever routes took their stage before
    it: what the same path would run with no route at all. [comparisons_miss] shows that the condition
    on the texts is needed. *)
Theorem scoped_stage_exact http metas st earlier route p path params
    (Hptrs : NoDup ((λ m : nat * nat * PreDispatch, m.1.2) <$> metas))
    (Hplain : stage_plain st) (Hroute : shape_plain (pattern_shape p)) :
  stage_build http metas = inr st → pattern_parse route = inr p → pattern_matches p path = Some params →
  let stage := (scoped_for (foldl (λ st q, (scoped_for st q).1) st earlier) p).2 in
  runnable_for stage path = omap (λ c, if admits (covering_filter c) path then Some (cv_runnable c) else None) (st_covering st)
  ∧ runnable_for stage path = runnable_for (st_unrouted st) path.
Proof.
  intros Hb Hp Hm. pose proof (stage_build_ok http metas st Hptrs Hb Hplain) as Hok.
  assert (Hst : ∀ l st0, stage_ok st0 → let st1 := foldl (λ st q, (scoped_for st q).1) st0 l in
    stage_ok st1 ∧ st_covering st1 = st_covering st0 ∧ st_unrouted st1 = st_unrouted st0).
  { induction l as [|q l IH]; intros st0 H0; [done|]. simpl. destruct (scoped_for_ok st0 q H0) as (H1 & Ec & Eu).
    destruct (IH _ H1) as (H2 & Ec' & Eu'). split; [done|]. by rewrite Ec', Eu'. }
  destruct (Hst earlier st Hok) as (H1 & Ec & Eu). cbv zeta.
  rewrite (scoped_runs _ p path params H1); [|split; [by eapply pattern_parsed|done]|done].
  split; [|by rewrite Eu]. rewrite unrouted_runs by done. unfold running. by rewrite Ec.
Qed.

(** comparing a scope with a route as patterns is exact: the scope covers the route when it
    matches every path the route matches, overlaps it when some path matches both, and what they
    share is what both match. The static segments' decoded texts hold no [%]; paths are those with
    no empty segment. *)
Theorem scope_comparison_exact scope_text route_text s p
    (Hs : shape_plain (scope_shape s)) (Hp : shape_plain (pattern_shape p)) :
  scope_parse scope_text = inr s → pattern_parse route_text = inr p →
  let fits ps := ∃ params, pattern_matches p (path_of ps) = Some params in
  let paths ps := sendable ps ∧ ∀ q, q ∈ ps → q ≠ [] in
  (covers s p = true ↔ ∀ ps, paths ps → fits ps → covers_path s (path_of ps) = true)
  ∧ (overlaps s p = true ↔ ∃ ps, paths ps ∧ fits ps ∧ covers_path s (path_of ps) = true)
  ∧ ∀ shared, shared_with s p = Some shared → ∀ ps, paths ps →
      shape_fits shared ps = true ↔ fits ps ∧ covers_path s (path_of ps) = true.
Proof.
  intros [Hso]%scope_is_parsed Hpp%pattern_parsed fits paths. pose proof (ps_shape _ Hpp) as Hpo.
  assert (Hfits : ∀ ps, paths ps → fits ps ↔ shape_fits (pattern_shape p) ps = true).
  { intros ps [Hsend Hne]. unfold fits. setoid_rewrite pattern_matches_spec. cbv zeta. rewrite request_pieces_path by done.
    rewrite route_fits_shape by apply Hpp. destruct (shape_fits (pattern_shape p) ps) eqn:E; simpl.
    - rewrite (whole_opens _ _ Hne E). split; [done|]. intros _. by eexists.
    - split; [by intros [? ?]|done]. }
  assert (Hcov : ∀ ps, paths ps → covers_path s (path_of ps) = shape_fits (scope_shape s) ps).
  { intros ps [Hsend _]. rewrite covers_path_fits. by rewrite request_pieces_path. }
  split_and!.
  - unfold covers. rewrite contains_exact by done. unfold paths. split.
    + intros H ps Hps Hf. rewrite Hcov by done. destruct Hps as [H1 H2]. apply H; [done|done|]. by apply Hfits; [split|].
    + intros H ps H1 H2 Hf. rewrite <- Hcov by done. apply H; [done|]. by apply Hfits; [split|].
  - unfold overlaps. rewrite overlaps_exact by done. split.
    + intros (ps & H1 & H2 & H3 & H4). exists ps. rewrite Hfits, Hcov by done. done.
    + intros (ps & Hps & H3 & H4). rewrite Hfits in H3 by done. rewrite Hcov in H4 by done. destruct Hps. by exists ps.
  - intros shared Hsh ps Hps. rewrite Hfits, Hcov by done. rewrite (intersection_spec _ _ _ ps Hso Hpo Hsh). naive_solver.
Qed.


(** a pattern matches a path exactly when its segments fit the path's pieces one by one, a rest
    taking all that remain, and the parameters it captures are the decoded pieces in order: the
    byte offsets the router slices by are those of the pieces. *)
Theorem match_reference p path : pattern_matches p path =
  let ps := request_pieces path in
  if route_fits (pt_segments p) ps then Some (captured (pt_segments p) ps) else None.
Proof. apply pattern_matches_spec. Qed.

(** C38: the parser accepts exactly the grammar: a path whose pieces each read as a segment, a rest
    last only and no name twice. *)
Theorem parse_exact text scope segments : parse_segments text scope = inr segments ↔ grammar scope text segments.
Proof. apply parse_segments_spec. Qed.

(** A parsed pattern prints as a text that parses to it again. *)
Theorem parse_print_roundtrip text p : pattern_parse text = inr p → pattern_parse (pt_raw p) = inr p.
Proof. apply pattern_parse_raw. Qed.

(** The macro crate's check and the router's parser, kept in step by hand, accept the same
    literals and give the same reasons for the others. *)
Theorem macro_check_agrees text : macro_check text = match pattern_parse text with inl err => inl (pe_reason err) | inr _ => inr () end.
Proof. apply macro_check_eq. Qed.

(** A controller's prefix joined to a route is the prefix's segments followed by the route's,
    however many slashes their texts meet with. *)
Theorem join_concatenates prefix route p q (Hp : pattern_parse prefix = inr p) (Hq : pattern_parse route = inr q)
    (Hrest : ∀ s, s ∈ pt_segments p → is_rest s = false) (Hnames : ∀ n, n ∈ param_names p → n ∉ param_names q) :
  ∃ j, pattern_parse (pattern_join prefix route) = inr j ∧ pt_segments j = pt_segments p ++ pt_segments q.
Proof.
  apply pattern_parse_spec in Hp as [Gp _], Hq as [Gq _]. exists {| pt_raw := normalize (pattern_join prefix route); pt_segments := pt_segments p ++ pt_segments q |}.
  split; [|done]. apply pattern_parse_spec. split; [|done]. simpl. apply join_grammar; [done|done|done|].
  intros n. rewrite (plain_recorded prefix), (plain_recorded route) by done. apply Hnames.
Qed.
End Env.

(** ** A decoder for the witnesses: the bytes an escaped text stands for *)

Lemma unescape_plain s : "%"%char ∉ s → unescape s = s.
Proof.
  induction s as [|c s IH]; [done|]. rewrite not_elem_of_cons. intros [Hc Hs].
  destruct (unescape_cons c s) as [->|(a & b & after & -> & _)]; [by rewrite IH|done].
Qed.

Lemma unescape_raw c rest : (c ≠ "%"%char ∨ hex_digit (default c (head rest)) = None ∨ hex_digit (default "/"%char (rest !! 1)) = None) →
  unescape (c :: rest) = c :: unescape rest.
Proof.
  intros H. destruct (unescape_cons c rest) as [->|(a & b & after & -> & -> & d & (x & y & Ha & Hb & _) & _)]; [done|].
  simpl in H. destruct H as [?|[?|?]]; congruence.
Qed.

Lemma unescape_at_slash s t : unescape (s ++ "/"%char :: t) = unescape s ++ "/"%char :: unescape t.
Proof.
  remember (length s) as n eqn:En. revert s En. induction (lt_wf n) as [n _ IH]. intros s ->. destruct s as [|c s].
  { simpl app. by rewrite unescape_raw by by left. }
  destruct s as [|a [|b s]].
  - simpl app. rewrite unescape_raw by (right; left; done). by rewrite unescape_raw by by left.
  - simpl app. rewrite (unescape_raw c) by (right; right; done). change (a :: "/"%char :: t) with ([a] ++ "/"%char :: t). by rewrite (IH 1 ltac:(simpl; lia) [a] eq_refl).
  - assert (Heq : ∀ X, unescape (c :: a :: b :: X) = match (if bool_decide (c = "%"%char) then hex_digit a else None), hex_digit b with
      | Some x, Some y => ascii_of_N (16 * x + y) :: unescape X | _, _ => c :: unescape (a :: b :: X) end) by done.
    simpl app. rewrite !Heq.
    pose proof (IH (length s) ltac:(simpl; lia) s eq_refl) as I1. pose proof (IH (length (a :: b :: s)) ltac:(simpl; lia) (a :: b :: s) eq_refl) as I2.
    simpl app in I2. destruct (if bool_decide _ then _ else _); [destruct (hex_digit b)|]; by rewrite ?I1, ?I2.
Qed.

Definition demo_http : HttpEnv :=
  {| percent_decode_lossy := unescape; unicode_alphabetic := λ _, false; unicode_numeric := λ _, false |}.

#[local] Existing Instance demo_http.

#[local] Instance demo_decoding : PercentDecoding.
Proof. split; [apply unescape_plain|done|done|apply unescape_at_slash]. Qed.

(** ** A table and a stage *)

Definition demo_route (id : nat) (name method route : string) : MountedHandler := {|
  mh_id := id; mh_who := {| who_controller := Api; who_name := name |};
  mh_handler := Some {| hh_method := method; hh_call := id; hh_path_checks := [] |};
  mh_route := Some (str_of route); mh_prefix := Some (str_of "/api"); mh_body_limit := None; mh_timeout := None;
  mh_timeout_on_method := false |}.

Definition demo_routes : list MountedHandler := [
  demo_route 0 "one" "GET" "/users/{id}"; demo_route 1 "me" "GET" "/users/me"; demo_route 2 "add" "POST" "/users/{id}";
  demo_route 3 "file" "GET" "/files/{*rest}"].

Definition demo_pre : PreDispatch :=
  pre_exclude (pre_apply_for (pre_apply pre_dispatch_default 7 Users (loc 70)) 8 Store [str_of "/api/users/*"] (loc 71))
    [str_of "/api/users/me"] (loc 72).

Definition demo_metas : list (nat * nat * PreDispatch) := [(0, 40, demo_pre)].

Definition demo_stage : Stage := match stage_build true demo_metas with inr st => st | inl _ => stage_empty end.

Definition demo_table (hs : list MountedHandler) : Router :=
  match (router_build hs 1024 demo_stage []).1 with inr r => r | inl _ => [] end.

Definition parsed_of (text : string) : Pattern :=
  match pattern_parse (str_of text) with inr p => p | inl _ => {| pt_raw := []; pt_segments := [] |} end.
Definition scope_of_text (text : string) : ScopePattern :=
  match scope_parse (str_of text) with inr s => s | inl _ => {| sp_raw := []; sp_segments := []; sp_wildcard := false |} end.

(** [shape_plain], decided. *)
Definition plainb (sh : Shape) : bool :=
  forallb (λ s, match s with Static t => negb (Prelude.contains t "%"%char) | _ => true end) (sh_fixed sh).

Lemma plainb_sound sh : plainb sh = true → shape_plain sh.
Proof.
  unfold plainb. rewrite forallb_elem. intros H s Hs. specialize (H s Hs). destruct s; [|done|done].
  apply negb_true_iff, contains_false in H. done.
Qed.

Definition handler_plainb (h : MountedHandler) : bool :=
  match mh_route h with
  | Some route => match pattern_parse (route_text (mh_prefix h) route) with inr p => plainb (pattern_shape p) | inl _ => true end
  | None => true
  end.

Lemma plain_handlers_sound hs : forallb handler_plainb hs = true → plain_handlers hs.
Proof.
  rewrite forallb_elem. intros H h p m Hh (http & route & _ & _ & Hr & Hp). specialize (H h Hh). unfold handler_plainb in H.
  rewrite Hr, Hp in H. by apply plainb_sound.
Qed.

Lemma route_correct_witness :
  (∃ t, router_route (demo_table demo_routes) "HEAD" (str_of "/api/users/me/") = Found t [] true ∧ rt_handler t = 1)
  ∧ router_route (demo_table demo_routes) "PUT" (str_of "/api/users/7") = MethodNotAllowed ["GET"; "HEAD"; "POST"; "OPTIONS"]%string
  ∧ decision demo_routes "GET" (str_of "/api/files/a%20b/c") (router_route (demo_table demo_routes) "GET" (str_of "/api/files/a%20b/c")).
Proof.
  split; [eexists; split; [vm_compute; reflexivity|reflexivity]|]. split; [vm_compute; reflexivity|].
  apply (route_correct demo_routes 1024 demo_stage []). vm_compute. reflexivity.
Defined.

Lemma route_order_independent_witness :
  agree (router_route (demo_table demo_routes) "GET" (str_of "/api/users/me"))
    (router_route (demo_table (reverse demo_routes)) "GET" (str_of "/api/users/me")).
Proof.
  apply (route_order_independent demo_routes (reverse demo_routes) 1024 demo_stage []).
  - vm_compute. reflexivity.
  - vm_compute. reflexivity.
  - symmetry. apply reverse_Permutation.
  - apply plain_handlers_sound. vm_compute. reflexivity.
Defined.

Definition stage_plainb (st : Stage) : bool :=
  forallb (λ c, forallb (λ s, plainb (scope_shape s)) (cv_scope c) && forallb (λ s, plainb (scope_shape s)) (cv_exclude c)) (st_covering st).

Lemma stage_plain_sound st : stage_plainb st = true → stage_plain st.
Proof.
  unfold stage_plainb. rewrite forallb_elem. intros H c s Hc. specialize (H c Hc). apply andb_true_iff in H as [H1 H2].
  rewrite forallb_elem in H1. rewrite forallb_elem in H2. intros [Hs|Hs]; apply plainb_sound; auto.
Qed.

Lemma scoped_stage_exact_witness :
  let run path := runnable_for (scoped_for (scoped_for demo_stage (parsed_of "/api/files/{*rest}")).1 (parsed_of "/api/users/{id}")).2 (str_of path) in
  run "/api/users/7" = [{| ru_module := 0; ru_action := RunByType 8; ru_exclude := [] |}] ∧ run "/api/users/me" = []
  ∧ run "/api/users/7" = runnable_for (st_unrouted demo_stage) (str_of "/api/users/7").
Proof.
  split; [vm_compute; reflexivity|]. split; [vm_compute; reflexivity|].
  refine (proj2 (scoped_stage_exact true demo_metas demo_stage [parsed_of "/api/files/{*rest}"] (str_of "/api/users/{id}")
    (parsed_of "/api/users/{id}") (str_of "/api/users/7") [(str_of "id", str_of "7")] _ _ _ _ _ _)).
  - apply NoDup_singleton.
  - apply stage_plain_sound. vm_compute. reflexivity.
  - apply plainb_sound. vm_compute. reflexivity.
  - vm_compute. reflexivity.
  - vm_compute. reflexivity.
  - vm_compute. reflexivity.
Defined.

Lemma scope_comparison_exact_witness :
  covers (scope_of_text "/users/*") (parsed_of "/users/{id}/posts") = true
  ∧ covers (scope_of_text "/users/me") (parsed_of "/users/{id}") = false
  ∧ (overlaps (scope_of_text "/users/me") (parsed_of "/users/{id}") = true ↔ ∃ ps, (sendable ps ∧ ∀ q, q ∈ ps → q ≠ [])
       ∧ (∃ params, pattern_matches (parsed_of "/users/{id}") (path_of ps) = Some params) ∧ covers_path (scope_of_text "/users/me") (path_of ps) = true).
Proof.
  split; [vm_compute; reflexivity|]. split; [vm_compute; reflexivity|].
  refine (proj1 (proj2 (scope_comparison_exact (str_of "/users/me") (str_of "/users/{id}") (scope_of_text "/users/me") (parsed_of "/users/{id}") _ _ _ _))).
  - apply plainb_sound. vm_compute. reflexivity.
  - apply plainb_sound. vm_compute. reflexivity.
  - vm_compute. reflexivity.
  - vm_compute. reflexivity.
Defined.


Lemma parse_print_roundtrip_witness : pt_raw (parsed_of "/files/{name}/") = str_of "/files/{name}"
  ∧ pattern_parse (pt_raw (parsed_of "/files/{name}/")) = inr (parsed_of "/files/{name}/").
Proof. split; [vm_compute; reflexivity|]. apply (parse_print_roundtrip (str_of "/files/{name}/")). vm_compute. reflexivity. Defined.

Lemma join_concatenates_witness :
  ∃ j, pattern_parse (pattern_join (str_of "/api/") (str_of "/users/{id}")) = inr j
    ∧ pt_segments j = [Static (str_of "api"); Static (str_of "users"); Param (str_of "id")].
Proof.
  destruct (join_concatenates (str_of "/api/") (str_of "/users/{id}") (parsed_of "/api/") (parsed_of "/users/{id}")) as (j & Hj & E).
  - vm_compute. reflexivity.
  - vm_compute. reflexivity.
  - intros s Hs. apply list_elem_of_singleton in Hs as ->. reflexivity.
  - intros n Hn. apply not_elem_of_nil in Hn as [].
  - exists j. split; [exact Hj|]. rewrite E. vm_compute. reflexivity.
Defined.

(** ** Where the comparisons fall short *)

(** C40: Two comparisons fall short of the paths they stand for. A static segment matches a piece as
    sent or once decoded, so the texts [%41] and [A] share the path [/%41], which [overlaps] does not
    see: the route [/%2541] runs no entry scoped to [/A] for it, and a request no route matches
    would. And a scope's wildcard matches an empty segment where a route's rest does not, so an
    exclusion can take a path from the entry that the route said to claim it does not match: the
    entry is said to run on every request of [/files/{*rest}] and does not on [/files/health//x]. *)
Example comparisons_miss :
  (let st := match stage_build true [(0, 40, pre_apply_for pre_dispatch_default 8 Store [str_of "/A"] (loc 71))] with
             | inr st => st | inl _ => stage_empty end in
   let route := parsed_of "/%2541" in
   pattern_matches route (str_of "/%41") = Some [] ∧ covers_path (scope_of_text "/A") (str_of "/%41") = true
   ∧ overlaps (scope_of_text "/A") route = false
   ∧ runnable_for (scoped_for st route).2 (str_of "/%41") = [] ∧ length (runnable_for (st_unrouted st) (str_of "/%41")) = 1)
  ∧ let pre := pre_exclude (pre_apply_for pre_dispatch_default 8 Store [str_of "/files/*"] (loc 71)) [str_of "/files/health/*"] (loc 72) in
    let st := match stage_build true [(0, 40, pre)] with inr st => st | inl _ => stage_empty end in
    let path := str_of "/files/health//x" in
    runs_on_every_request st 40 0 (parsed_of "/files/{*rest}") [parsed_of "/files/health/{*rest}"] = true
    ∧ pattern_matches (parsed_of "/files/health/{*rest}") path = None
    ∧ (∃ params, pattern_matches (parsed_of "/files/{*rest}") path = Some params)
    ∧ runnable_for (scoped_for st (parsed_of "/files/{*rest}")).2 path = [].
Proof.
  split; vm_compute; [repeat split; reflexivity|]. split; [reflexivity|]. split; [reflexivity|]. split; [eexists; reflexivity|reflexivity].
Qed.
