(* ===== verification/Trace.v ===== *)
(** * Trace: W3C trace context

    [ulo/src/execution/trace.rs]: [traceparent] and [tracestate] parsed, carried and written out.
    A byte is an [N] below 256, a header value its bytes. *)

From S2P Require Import Prelude Text.
Local Open Scope nat_scope.

Definition SAMPLED : N := 1.
Definition MAX_MEMBERS : nat := 32.
Definition PROPAGATED : nat := 512.
Definition LONG_ENTRY : nat := 128.
Definition LEN_00 : nat := 55.

Inductive TraceOrigin := Received | Originated.

(** [str::trim_matches] with [' '] and ['\t']. *)
Definition is_ows (c : ascii) : bool := bool_decide (c = " "%char) || bool_decide (c = "009"%char).

Fixpoint trim_ows_start (s : str) : str :=
  match s with
  | [] => []
  | c :: t => if is_ows c then trim_ows_start t else s
  end.

Definition trim_ows (s : str) : str := reverse (trim_ows_start (reverse (trim_ows_start s))).

(** ** Hexadecimal *)

Definition nibble (digit : ascii) : option N :=
  let n := N_of_ascii digit in
  if (48 <=? n)%N && (n <=? 57)%N then Some (n - 48)%N
  else if (97 <=? n)%N && (n <=? 102)%N then Some (n - 97 + 10)%N
  else None.

(** The pairs of [digits.chunks_exact(2)]. *)
Fixpoint hex_pairs (digits : str) : option (list N) :=
  match digits with
  | a :: b :: digits =>
      match nibble a with
      | None => None
      | Some x =>
          match nibble b with
          | None => None
          | Some y => (λ out, N.lor (N.shiftl x 4) y :: out) <$> hex_pairs digits
          end
      end
  | _ => Some []
  end.

(** [n] bytes from exactly [2 * n] lowercase hex digits. *)
Definition hex (n : nat) (digits : str) : option (list N) :=
  if bool_decide (length digits = n * 2) then hex_pairs digits else None.

Definition DIGITS : str := str_of "0123456789abcdef".

Definition push_hex (bytes : list N) : str :=
  bytes ≫= λ byte, [default "0"%char (DIGITS !! N.to_nat (N.shiftr byte 4)); default "0"%char (DIGITS !! N.to_nat (N.land byte 15))].

(** ** Trace parents *)

Definition zeros (n : nat) : list N := replicate n 0%N.

(** The trace ID, span ID and flags of one value already trimmed, or [None] for a restart. *)
Definition parse_traceparent (b : str) : option (list N * list N * N) :=
  if bool_decide (length b < 3) || negb (bool_decide (b !! 2 = Some "-"%char)) then None
  else match hex 1 (take 2 b) with
  | Some [version] =>
      if bool_decide (version = 255%N) || bool_decide (length b < LEN_00)
         || negb (bool_decide (b !! 35 = Some "-"%char)) || negb (bool_decide (b !! 52 = Some "-"%char)) then None
      else match hex 16 (take 32 (drop 3 b)) with
      | None => None
      | Some trace_id =>
          match hex 8 (take 16 (drop 36 b)) with
          | None => None
          | Some span_id =>
              match hex 1 (take 2 (drop 53 b)) with
              | Some [flags] =>
                  if (if bool_decide (version = 0%N) then negb (bool_decide (length b = LEN_00))
                      else bool_decide (LEN_00 < length b) && negb (bool_decide (b !! LEN_00 = Some "-"%char))) then None
                  else if bool_decide (trace_id = zeros 16) || bool_decide (span_id = zeros 8) then None
                  else Some (trace_id, span_id, flags)
              | _ => None
              end
          end
      end
  | _ => None
  end.

(** ** Trace states *)

(** The characters of a key after its first. *)
Definition key_rest (c : ascii) : bool :=
  is_ascii_lower c || is_ascii_digit c || bool_decide (c = "_"%char) || bool_decide (c = "-"%char)
  || bool_decide (c = "*"%char) || bool_decide (c = "/"%char).

(** [chars.next().is_some_and(first) && chars.all(rest)]. *)
Definition named_by (first rest : ascii → bool) (s : str) : bool :=
  match s with [] => false | c :: s => first c && forallb rest s end.

Definition key_valid (key : str) : bool :=
  match split_once "@"%char key with
  | None => bool_decide (length key ≤ 256) && named_by is_ascii_lower key_rest key
  | Some (tenant, system) =>
      bool_decide (length tenant ≤ 241) && bool_decide (length system ≤ 14)
      && named_by (λ c, is_ascii_lower c || is_ascii_digit c) key_rest tenant && named_by is_ascii_lower key_rest system
  end.

Definition value_byte (c : ascii) : bool :=
  let n := nat_of_ascii c in
  (32 <=? n) && (n <=? 126) && negb (bool_decide (c = ","%char)) && negb (bool_decide (c = "="%char)).

Definition value_valid (value : str) : bool :=
  negb (bool_decide (value = [])) && bool_decide (length value ≤ 256) && forallb value_byte value && negb (ends_with [" "%char] value).

Record TraceState := { ts_entries : list (str * str) }.

Definition trace_state_new : TraceState := {| ts_entries := [] |}.

(** The members of [TraceState::parse], [None] where it answers the empty list. *)
Fixpoint parse_members (ms : list str) (members : nat) (entries : list (str * str)) : option (list (str * str)) :=
  match ms with
  | [] => Some entries
  | m :: ms =>
      let member := trim_ows m in
      if bool_decide (member = []) then parse_members ms members entries
      else
        let members := S members in
        if bool_decide (MAX_MEMBERS < members) then None
        else match split_once "="%char member with
        | None => None
        | Some (key, value) =>
            if negb (key_valid key) || negb (value_valid value) then None
            else if existsb (λ kv : str * str, bool_decide (kv.1 = key)) entries then parse_members ms members entries
            else parse_members ms members (entries ++ [(key, value)])
        end
  end.

Definition state_parse (fields : list str) : TraceState :=
  match parse_members (fields ≫= split_on ","%char) 0 [] with
  | Some entries => {| ts_entries := entries |}
  | None => trace_state_new
  end.

Definition state_get (s : TraceState) (key : str) : option str :=
  snd <$> find_first (λ kv : str * str, bool_decide (kv.1 = key)) (ts_entries s).

Definition entry_len (kv : str * str) : nat := length kv.1 + 1 + length kv.2.

Definition header_len (entries : list (str * str)) : nat := total (entry_len <$> entries) + (length entries - 1).

(** The first entry from [from] on over [LONG_ENTRY]. *)
Definition long (entries : list (str * str)) (from : nat) : option nat :=
  Nat.add from <$> position (λ e, bool_decide (LONG_ENTRY < entry_len e)) (drop from entries).

(** One turn of the loop of [truncated]. *)
Definition truncate_step (keep : nat) (entries : list (str * str)) : option (list (str * str)) :=
  if bool_decide (PROPAGATED < header_len entries) && bool_decide (1 < length entries) then
    let at_ := match long entries keep with
               | Some i => Some i
               | None => if bool_decide (keep < length entries) then Some (length entries - 1) else long entries 1
               end in
    Some match at_ with
         | Some i => take i entries ++ drop (S i) entries
         | None => take (length entries - 1) entries
         end
  else None.

Definition clamp (keep low high : nat) : nat := if bool_decide (keep < low) then low else if bool_decide (high < keep) then high else keep.

(** [entries] cut to 32 members, then to 512 characters by whole entries; each turn drops one. *)
Definition truncated (entries : list (str * str)) (keep : nat) : list (str * str) :=
  let entries := take MAX_MEMBERS entries in
  let keep := clamp keep 1 (Nat.max (length entries) 1) in
  iterate (truncate_step keep) (length entries) entries.

Definition with_entry (s : TraceState) (key value : str) : option TraceState :=
  if negb (key_valid key) || negb (value_valid value) then None
  else Some {| ts_entries := truncated ((key, value) :: filterb (λ kv, negb (bool_decide (kv.1 = key))) (ts_entries s)) 1 |}.

Definition prepend (s front : TraceState) : TraceState :=
  {| ts_entries := truncated
       (ts_entries front ++ filterb (λ kv, bool_decide (state_get front kv.1 = None)) (ts_entries s)) (length (ts_entries front)) |}.

(** [Display]: members joined by [,]. *)
Definition state_display (s : TraceState) : str :=
  join_on ","%char ((λ kv : str * str, kv.1 ++ "="%char :: kv.2) <$> ts_entries s).

(** ** Trace contexts *)

Record ReceivedText := { rx_traceparent : str; rx_tracestate : option str }.

Record TraceContext := {
  tc_trace_id : list N;
  tc_span_id : list N;
  tc_flags : N;
  tc_state : TraceState;
  tc_origin : TraceOrigin;
  tc_received : option ReceivedText;
}.

Definition trace_extract (traceparent tracestate : list str) : option TraceContext :=
  match traceparent with
  | [only] =>
      let only := trim_ows only in
      match parse_traceparent only with
      | None => None
      | Some (trace_id, span_id, flags) =>
          let fields := filterb (λ f, negb (bool_decide (f = []))) (trim_ows <$> tracestate) in
          Some {| tc_trace_id := trace_id; tc_span_id := span_id; tc_flags := flags; tc_state := state_parse fields;
                  tc_origin := Received;
                  tc_received := Some {| rx_traceparent := only;
                    rx_tracestate := if bool_decide (fields = []) then None else Some (join_on ","%char fields) |} |}
      end
  | _ => None
  end.

Definition trace_new (trace_id span_id : list N) (flags : N) (state : TraceState) : option TraceContext :=
  if bool_decide (trace_id = zeros 16) || bool_decide (span_id = zeros 8) then None
  else Some {| tc_trace_id := trace_id; tc_span_id := span_id; tc_flags := flags; tc_state := state; tc_origin := Originated;
               tc_received := None |}.

Definition sampled (c : TraceContext) : bool := negb (bool_decide (N.land (tc_flags c) SAMPLED = 0%N)).

Definition traceparent_00 (c : TraceContext) : str :=
  str_of "00-" ++ push_hex (tc_trace_id c) ++ "-"%char :: push_hex (tc_span_id c) ++ "-"%char :: push_hex [N.land (tc_flags c) SAMPLED].

Definition traceparent (c : TraceContext) : str :=
  match tc_origin c, tc_received c with
  | Received, Some received => rx_traceparent received
  | _, _ => traceparent_00 c
  end.

Definition tracestate (c : TraceContext) : option str :=
  match tc_origin c, tc_received c with
  | Received, Some received => rx_tracestate received
  | _, _ => if bool_decide (ts_entries (tc_state c) = []) then None else Some (state_display (tc_state c))
  end.

Definition trace_received (c : TraceContext) : TraceContext :=
  {| tc_trace_id := tc_trace_id c; tc_span_id := tc_span_id c; tc_flags := tc_flags c; tc_state := tc_state c;
     tc_origin := Received; tc_received := tc_received c |}.

Definition originated (c : TraceContext) : TraceContext :=
  {| tc_trace_id := tc_trace_id c; tc_span_id := tc_span_id c; tc_flags := tc_flags c; tc_state := tc_state c;
     tc_origin := Originated; tc_received := None |}.
