(* ===== verification/TraceFacts.v ===== *)
(** * TraceFacts: what trace headers keep *)

From S2P Require Import Prelude Text Trace.
Local Open Scope nat_scope.

(** ** Hexadecimal *)

Definition is_byte (b : N) : Prop := (b < 256)%N.

Lemma byte_digits b : is_byte b →
  nibble (default "0"%char (DIGITS !! N.to_nat (N.shiftr b 4))) = Some (N.shiftr b 4)
  ∧ nibble (default "0"%char (DIGITS !! N.to_nat (N.land b 15))) = Some (N.land b 15)
  ∧ N.lor (N.shiftl (N.shiftr b 4) 4) (N.land b 15) = b.
Proof.
  intros Hb.
  assert (H : Forall (λ n, nibble (default "0"%char (DIGITS !! N.to_nat (N.shiftr (N.of_nat n) 4))) = Some (N.shiftr (N.of_nat n) 4)
    ∧ nibble (default "0"%char (DIGITS !! N.to_nat (N.land (N.of_nat n) 15))) = Some (N.land (N.of_nat n) 15)
    ∧ N.lor (N.shiftl (N.shiftr (N.of_nat n) 4) 4) (N.land (N.of_nat n) 15) = N.of_nat n) (seq 0 256)).
  { apply (bool_decide_unpack _). vm_compute. exact I. }
  rewrite Forall_forall in H. specialize (H (N.to_nat b)). rewrite N2Nat.id in H. apply H. apply elem_of_seq. unfold is_byte in Hb. lia.
Qed.

Lemma push_hex_cons b bs : push_hex (b :: bs) =
  default "0"%char (DIGITS !! N.to_nat (N.shiftr b 4)) :: default "0"%char (DIGITS !! N.to_nat (N.land b 15)) :: push_hex bs.
Proof. reflexivity. Qed.

Lemma push_hex_length bs : length (push_hex bs) = length bs * 2.
Proof. induction bs as [|b bs IH]; [done|]. rewrite push_hex_cons. simpl. rewrite IH. lia. Qed.

Lemma hex_push bs : Forall is_byte bs → hex (length bs) (push_hex bs) = Some bs.
Proof.
  intros H. unfold hex. rewrite bool_decide_eq_true_2 by apply push_hex_length. induction H as [|b bs Hb _ IH]; [done|].
  rewrite push_hex_cons. destruct (byte_digits b Hb) as (H1 & H2 & H3). cbn [hex_pairs]. rewrite H1, H2, IH. simpl. by rewrite H3.
Qed.

Lemma nibble_bound c x : nibble c = Some x → (x < 16)%N.
Proof.
  unfold nibble. destruct ((48 <=? _)%N && _) eqn:E1; [|destruct ((97 <=? _)%N && _) eqn:E2; [|done]];
    intros [= <-]; apply andb_true_iff in E1 || apply andb_true_iff in E2; rewrite !N.leb_le in *; lia.
Qed.

Lemma lor_nibbles x y : (x < 16)%N → (y < 16)%N → is_byte (N.lor (N.shiftl x 4) y).
Proof.
  intros Hx Hy. unfold is_byte. destruct (N.eq_dec (N.lor (N.shiftl x 4) y) 0%N) as [->|Hne]; [lia|].
  apply N.log2_lt_pow2 with (b := 8%N); [lia|]. rewrite N.log2_lor. rewrite N.shiftl_mul_pow2.
  assert (Hl : ∀ z, (z < 256)%N → (N.log2 z < 8)%N).
  { intros z Hz. destruct (N.eq_dec z 0%N) as [->|?]; [done|]. apply N.log2_lt_pow2; [lia|done]. }
  apply N.max_lub_lt; apply Hl; lia.
Qed.

Lemma hex_bytes n digits bs : hex n digits = Some bs → length bs = n ∧ Forall is_byte bs.
Proof.
  unfold hex. case_bool_decide as Hl; [|done]. revert n digits bs Hl.
  assert (H : ∀ n digits bs, length digits = n * 2 → hex_pairs digits = Some bs → length bs = n ∧ Forall is_byte bs); [|intros; by apply (H _ digits)].
  induction n as [|n IH]; intros digits bs Hl.
  - destruct digits; [|done]. simpl. by intros [= <-].
  - destruct digits as [|a [|b digits]]; simpl in Hl; try lia. simpl. destruct (nibble a) as [x|] eqn:Ea; [|done].
    destruct (nibble b) as [y|] eqn:Eb; [|done]. intros (out & Hout & ->)%fmap_Some. destruct (IH digits out ltac:(lia) Hout) as [? ?].
    split; [simpl; lia|]. constructor; [|done]. apply lor_nibbles; by eapply nibble_bound.
Qed.

(** ** Trace parents *)

Record ids_valid (trace_id span_id : list N) : Prop := {
  iv_trace : length trace_id = 16 ∧ Forall is_byte trace_id ∧ trace_id ≠ zeros 16;
  iv_span : length span_id = 8 ∧ Forall is_byte span_id ∧ span_id ≠ zeros 8;
}.

Lemma lookup_app_at {A} (l : list A) x k n : length l = n → (l ++ x :: k) !! n = Some x.
Proof. intros <-. by apply list_lookup_middle. Qed.

Lemma drop_app_at {A} (l k : list A) n : length l = n → drop n (l ++ k) = k.
Proof. intros <-. apply drop_app_length. Qed.

Lemma drop_cons_at {A} (l k : list A) x n : length l = n → drop (S n) (l ++ x :: k) = k.
Proof. intros <-. rewrite drop_app_ge by lia. by replace (S (length l) - length l) with 1 by lia. Qed.

Lemma take_app_at {A} (l k : list A) n : length l = n → take n (l ++ k) = l.
Proof. intros <-. apply take_app_length. Qed.

(** Version [00] as written is read back. *)
Lemma parse_written t s f : ids_valid t s → is_byte f →
  parse_traceparent (str_of "00-" ++ push_hex t ++ "-"%char :: push_hex s ++ "-"%char :: push_hex [f]) = Some (t, s, f).
Proof.
  intros [(Ht1 & Ht2 & Ht3) (Hs1 & Hs2 & Hs3)] Hf.
  pose proof (push_hex_length t) as Lt. pose proof (push_hex_length s) as Ls. rewrite Ht1 in Lt. rewrite Hs1 in Ls.
  set (b := str_of "00-" ++ push_hex t ++ "-"%char :: push_hex s ++ "-"%char :: push_hex [f]).
  assert (Hb1 : b = (str_of "00-" ++ push_hex t) ++ "-"%char :: push_hex s ++ "-"%char :: push_hex [f]) by (unfold b; by rewrite <- app_assoc).
  assert (Hb2 : b = (str_of "00-" ++ push_hex t ++ "-"%char :: push_hex s) ++ "-"%char :: push_hex [f]) by (unfold b; by rewrite <- !app_assoc).
  assert (Hlen : length b = 55) by (unfold b; rewrite !length_app; simpl; rewrite length_app, Lt, Ls; reflexivity).
  assert (D3 : take 32 (drop 3 b) = push_hex t).
  { unfold b. rewrite (drop_app_at (str_of "00-")) by done. by rewrite take_app_at. }
  assert (L35 : b !! 35 = Some "-"%char) by (rewrite Hb1; apply lookup_app_at; rewrite length_app, Lt; done).
  assert (D36 : take 16 (drop 36 b) = push_hex s).
  { rewrite Hb1, drop_cons_at by (rewrite length_app, Lt; done). by rewrite take_app_at. }
  assert (L52 : b !! 52 = Some "-"%char) by (rewrite Hb2; apply lookup_app_at; rewrite !length_app; simpl; rewrite Lt, Ls; done).
  assert (D53 : take 2 (drop 53 b) = push_hex [f]).
  { rewrite Hb2, drop_cons_at by (rewrite !length_app; simpl; rewrite Lt, Ls; done). done. }
  assert (T2 : take 2 b = str_of "00") by done. assert (L2 : b !! 2 = Some "-"%char) by done.
  clearbody b. unfold parse_traceparent. rewrite Hlen, L2, T2. simpl bool_decide. cbn [orb negb].
  replace (hex 1 (str_of "00")) with (Some [0%N]) by done.
  rewrite L35, L52, D3, D36, D53. rewrite <- Ht1 at 1. rewrite hex_push by done. rewrite <- Hs1 at 1. rewrite hex_push by done.
  change 1 with (length [f]) at 1. rewrite hex_push by by constructor.
  rewrite (bool_decide_eq_false_2 (t = zeros 16)), (bool_decide_eq_false_2 (s = zeros 8)) by done. done.
Qed.

Lemma parse_traceparent_ids b t s f : parse_traceparent b = Some (t, s, f) → ids_valid t s ∧ is_byte f.
Proof.
  unfold parse_traceparent. destruct (_ || _); [done|]. destruct (hex 1 (take 2 b)) as [[|v [|? ?]]|]; try done.
  destruct (_ || _ || _ || _); [done|]. destruct (hex 16 _) as [t'|] eqn:E1; [|done]. destruct (hex 8 _) as [s'|] eqn:E2; [|done].
  destruct (hex 1 (take 2 (drop 53 b))) as [[|f' [|? ?]]|] eqn:E3; try done. destruct (if bool_decide (v = 0%N) then _ else _); [done|].
  destruct (_ || _) eqn:Ez; [done|]. intros [= -> -> ->]. apply orb_false_iff in Ez as [Z1%bool_decide_eq_false Z2%bool_decide_eq_false].
  apply hex_bytes in E1 as [? ?], E2 as [? ?], E3 as [_ E3]. split; [by split|]. by inversion E3.
Qed.

(** ** Keys and values *)

Lemma key_rest_plain c : key_rest c = true → c ≠ ","%char ∧ c ≠ "="%char ∧ is_ows c = false.
Proof. intros H. destruct c as [[] [] [] [] [] [] [] []]; vm_compute in H |- *; try done; by split_and!. Qed.

Lemma lower_rest c : is_ascii_lower c = true → key_rest c = true.
Proof. unfold key_rest. by intros ->. Qed.

Lemma named_by_plain first s c : (∀ c, first c = true → key_rest c = true) → named_by first key_rest s = true → c ∈ s → key_rest c = true.
Proof.
  intros Hf. destruct s as [|d s]; [done|]. simpl. intros [H1 H2]%andb_true_iff [->|Hin]%elem_of_cons; [by apply Hf|].
  rewrite forallb_elem in H2. by apply H2.
Qed.

(** Every character of a valid key but one [@] is one of a key's. *)
Lemma key_valid_plain key c : key_valid key = true → c ∈ key → c ≠ ","%char ∧ c ≠ "="%char ∧ is_ows c = false.
Proof.
  unfold key_valid. destruct (split_once "@"%char key) as [[tenant system]|] eqn:E.
  - apply split_once_Some in E as [-> _]. intros H Hin. split_bools. apply elem_of_app in Hin as [Hin|Hin].
    + apply key_rest_plain. eapply (named_by_plain (λ c, is_ascii_lower c || is_ascii_digit c)); [|done|done].
      intros d. unfold key_rest. by intros ->.
    + apply elem_of_cons in Hin as [-> |Hin]; [done|]. apply key_rest_plain. by eapply named_by_plain; [apply lower_rest|..].
  - intros H Hin. split_bools. apply key_rest_plain. by eapply named_by_plain; [apply lower_rest|..].
Qed.

Lemma key_valid_head key : key_valid key = true → ∃ c k, key = c :: k.
Proof.
  destruct key as [|c k]; [|by exists c, k]. intros H. by vm_compute in H.
Qed.

Lemma value_valid_plain v c : value_valid v = true → c ∈ v → c ≠ ","%char ∧ c ≠ "="%char.
Proof.
  unfold value_valid. intros H Hin. split_bools. rewrite forallb_elem in *. match goal with H : ∀ x, x ∈ v → _ |- _ => specialize (H c Hin) end.
  unfold value_byte in *. split_bools. done.
Qed.

Lemma value_valid_last v : value_valid v = true → ∃ k c, v = k ++ [c] ∧ is_ows c = false.
Proof.
  unfold value_valid. intros H. split_bools. destruct (last v) as [c|] eqn:E; [|by apply last_None in E].
  apply last_Some in E as (k & ->). exists k, c. split; [done|]. unfold is_ows. apply orb_false_iff. split; apply bool_decide_eq_false; intros ->.
  - match goal with H : ends_with _ _ = false |- _ => revert H end. unfold ends_with. rewrite bool_decide_eq_false. intros H'. apply H'.
    exists k. by apply strip_suffix_Some.
  - rewrite forallb_elem in *. match goal with H : ∀ x, x ∈ _ → _ |- _ => specialize (H "009"%char ltac:(set_solver)) end. done.
Qed.

(** ** Trimming *)

Lemma trim_start_id c s : is_ows c = false → trim_ows_start (c :: s) = c :: s.
Proof. simpl. by intros ->. Qed.

Lemma trim_ows_id s : (∀ c k, s = c :: k → is_ows c = false) → (∀ c k, s = k ++ [c] → is_ows c = false) → trim_ows s = s.
Proof.
  intros H1 H2. unfold trim_ows. destruct s as [|c s]; [done|]. rewrite (trim_start_id c s) by by eapply H1.
  destruct (reverse (c :: s)) as [|d t] eqn:E.
  - apply (f_equal reverse) in E. by rewrite reverse_involutive in E.
  - rewrite trim_start_id; [by rewrite <- E, reverse_involutive|]. apply (H2 d (reverse t)).
    apply (f_equal reverse) in E. by rewrite reverse_involutive, reverse_cons in E.
Qed.

(** ** Trace states *)

Definition entry_valid (kv : str * str) : Prop := key_valid kv.1 = true ∧ value_valid kv.2 = true.

Record state_valid (s : TraceState) : Prop := {
  sv_members : length (ts_entries s) ≤ MAX_MEMBERS;
  sv_keys : NoDup (ts_entries s).*1;
  sv_entries : ∀ kv, kv ∈ ts_entries s → entry_valid kv;
}.

Definition member (kv : str * str) : str := kv.1 ++ "="%char :: kv.2.

Lemma member_trim kv : entry_valid kv → trim_ows (member kv) = member kv ∧ member kv ≠ [].
Proof.
  destruct kv as [k v]. intros [Hk Hv]. unfold member. simpl in *. destruct (key_valid_head k Hk) as (c & k' & ->). split; [|done].
  destruct (value_valid_last v Hv) as (v' & d & -> & Hd). apply trim_ows_id.
  - intros c' s [= <- _]. by eapply (key_valid_plain _ c Hk); left.
  - intros c' s E. replace ((c :: k') ++ "="%char :: v' ++ [d]) with (((c :: k') ++ "="%char :: v') ++ [d]) in E by by rewrite <- app_assoc.
    apply app_inj_tail in E as [_ <-]. done.
Qed.

Lemma member_split kv : entry_valid kv → split_once "="%char (member kv) = Some (kv.1, kv.2).
Proof.
  intros [Hk _]. apply split_once_Some. split; [done|]. intros Hin. by eapply key_valid_plain in Hin as (_ & ? & _).
Qed.

Lemma member_comma kv : entry_valid kv → ","%char ∉ member kv.
Proof.
  intros [Hk Hv]. unfold member. rewrite not_elem_of_app, not_elem_of_cons. split_and!; [|done|].
  - intros Hin. by eapply key_valid_plain in Hin as (? & _).
  - intros Hin. by eapply value_valid_plain in Hin as (? & _).
Qed.

Lemma parse_members_written es n acc : n + length es ≤ MAX_MEMBERS → NoDup (acc ++ es).*1 → (∀ kv, kv ∈ es → entry_valid kv) →
  parse_members (member <$> es) n acc = Some (acc ++ es).
Proof.
  revert n acc. induction es as [|kv es IH]; intros n acc Hn Hnd Hv; [by rewrite app_nil_r|].
  assert (Hkv : entry_valid kv) by (apply Hv; by left). cbn [fmap list_fmap parse_members].
  destruct (member_trim kv Hkv) as [-> Hne]. rewrite bool_decide_eq_false_2 by done. simpl in Hn.
  rewrite bool_decide_eq_false_2 by lia. rewrite member_split by done. destruct Hkv as [Hk Hval]. rewrite Hk, Hval. simpl.
  assert (Hex : existsb (λ kv0 : str * str, bool_decide (kv0.1 = kv.1)) acc = false).
  { apply existsb_false. intros x Hx. apply bool_decide_eq_false. intros E. rewrite fmap_app, fmap_cons in Hnd.
    apply NoDup_app in Hnd as (_ & Hnd & _). apply (Hnd kv.1); [rewrite list_elem_of_fmap; by exists x|by left]. }
  rewrite Hex. destruct kv as [k v]. rewrite IH; [by rewrite <- app_assoc|lia| |].
  - by rewrite <- app_assoc.
  - intros x Hx. apply Hv. by right.
Qed.

(** A valid list as written is read back. *)
Lemma state_parse_display s : state_valid s → ts_entries s ≠ [] → state_parse [state_display s] = s.
Proof.
  intros [H1 H2 H3] Hne. unfold state_parse, state_display. cbn [mbind list_bind]. rewrite app_nil_r.
  rewrite split_join; [|by destruct (ts_entries s)|].
  - fold member. change (λ kv : str * str, kv.1 ++ "="%char :: kv.2) with member.
    rewrite parse_members_written; [by destruct s|simpl; lia|done|done].
  - intros p (kv & -> & Hkv)%list_elem_of_fmap. by apply member_comma, H3.
Qed.

(** What [parse] answers is valid. *)
Lemma parse_members_valid ms n acc es : length acc ≤ n → n ≤ MAX_MEMBERS → NoDup acc.*1 → (∀ kv, kv ∈ acc → entry_valid kv) →
  parse_members ms n acc = Some es → state_valid {| ts_entries := es |}.
Proof.
  revert n acc. induction ms as [|m ms IH]; intros n acc Hl Hn Hnd Hv; cbn [parse_members].
  { intros [= <-]. split; [simpl; lia|done|done]. }
  case_bool_decide; [by apply IH|]. case_bool_decide as Hmax; [done|].
  destruct (split_once _ _) as [[k v]|]; [|done]. destruct (negb (key_valid k) || negb (value_valid v)) eqn:Ev; [done|].
  apply orb_false_iff in Ev as [Hk%negb_false_iff Hval%negb_false_iff].
  destruct (existsb _ acc) eqn:Ee; [apply IH; [lia|lia|done|done]|]. rewrite existsb_false in Ee. apply IH.
  - rewrite length_app. simpl. lia.
  - lia.
  - rewrite fmap_app. apply NoDup_app. split_and!; [done| |apply NoDup_singleton]. intros x Hx ->%list_elem_of_singleton. simpl in Hx.
    apply list_elem_of_fmap in Hx as (kv & E & Hkv). specialize (Ee kv Hkv). rewrite bool_decide_eq_false in Ee. congruence.
  - intros kv [Hkv|Hkv]%elem_of_app; [by apply Hv|]. by apply list_elem_of_singleton in Hkv as ->.
Qed.

Lemma state_parse_valid fields : state_valid (state_parse fields).
Proof.
  unfold state_parse. destruct (parse_members _ _ _) as [es|] eqn:E.
  - eapply parse_members_valid; [..|exact E]; [simpl; lia|unfold MAX_MEMBERS; lia|constructor|by intros kv ?%not_elem_of_nil].
  - split; simpl; [unfold MAX_MEMBERS; lia|constructor|by intros kv ?%not_elem_of_nil].
Qed.

(** ** Truncation *)

Lemma long_bound es from i : long es from = Some i → from ≤ i < length es.
Proof.
  unfold long. intros (j & Hj & ->)%fmap_Some. apply position_Some in Hj as (e & Hj%lookup_lt_Some & _). rewrite length_drop in Hj. lia.
Qed.

Definition removed (es : list (str * str)) (i : nat) : list (str * str) := take i es ++ drop (S i) es.

Lemma removed_length es i : i < length es → S (length (removed es i)) = length es.
Proof. intros Hi. unfold removed. rewrite length_app, length_take, length_drop. lia. Qed.

Lemma removed_sublist es i : removed es i `sublist_of` es.
Proof.
  unfold removed. transitivity (take i es ++ drop i es); [|by rewrite take_drop].
  apply sublist_app; [done|]. rewrite <- Nat.add_1_r, <- drop_drop. apply sublist_drop.
Qed.

Lemma removed_head es i : 0 < i → head (removed es i) = head es.
Proof. intros Hi. unfold removed. destruct es as [|e es]; [by destruct i|]. destruct i; [lia|done]. Qed.

Lemma removed_take es i k : k ≤ i → take k (removed es i) = take k es.
Proof.
  intros Hk. unfold removed. destruct (decide (k ≤ length (take i es))) as [Hl|Hl].
  - rewrite take_app_le by done. rewrite take_take. f_equal. lia.
  - rewrite length_take in Hl. assert (length es ≤ i) by lia. rewrite (drop_ge es) by lia. rewrite app_nil_r, take_take. f_equal. lia.
Qed.

(** An entry over 128 characters. *)
Definition is_long (e : str * str) : bool := bool_decide (LONG_ENTRY < entry_len e).

Lemma long_found es from i : long es from = Some i → ∃ e, es !! i = Some e ∧ is_long e = true.
Proof.
  unfold long. intros (j & Hj & ->)%fmap_Some. apply position_Some in Hj as (e & He & Hl). exists e. by rewrite lookup_drop in He.
Qed.

Lemma long_none es from : long es from = None → ∀ e, e ∈ drop from es → is_long e = false.
Proof. unfold long. intros Hp%fmap_None e He. by eapply position_None in Hp. Qed.

(** One turn removes an entry, never the leftmost. While the list is longer than [keep] it is one
    after the first [keep]: a long one, or the last when none of those is long. *)
Lemma truncate_step_spec keep es es' : 1 ≤ keep → truncate_step keep es = Some es' →
  ∃ i, 0 < i < length es ∧ es' = removed es i
    ∧ (keep < length es → keep ≤ i
       ∧ ((∃ e, es !! i = Some e ∧ is_long e = true) ∨ (i = length es - 1 ∧ ∀ e, e ∈ drop keep es → is_long e = false))).
Proof.
  intros Hk. unfold truncate_step. destruct (_ && _) eqn:E; [|done]. split_bools.
  assert (Hpop : take (length es - 1) es = removed es (length es - 1)).
  { unfold removed. rewrite drop_ge by lia. by rewrite app_nil_r. }
  destruct (long es keep) as [i|] eqn:E1.
  - intros [= <-]. pose proof (long_bound _ _ _ E1). exists i. split_and!; [lia|lia|done|]. intros _. split; [lia|].
    left. by apply (long_found es keep).
  - pose proof (long_none _ _ E1) as Hnone. case_bool_decide as Hlen.
    + intros [= <-]. exists (length es - 1). split_and!; [lia|lia|done|]. intros _. split; [lia|]. by right.
    + destruct (long es 1) as [i|] eqn:E2; intros [= <-].
      * apply long_bound in E2. exists i. split_and!; [lia|lia|done|lia].
      * rewrite Hpop. exists (length es - 1). split_and!; [lia|lia|done|lia].
Qed.

Lemma truncate_step_none keep es : truncate_step keep es = None → header_len es ≤ PROPAGATED ∨ length es ≤ 1.
Proof.
  unfold truncate_step. destruct (_ && _) eqn:E; [done|]. intros _. apply andb_false_iff in E as [E|E]; apply bool_decide_eq_false in E; lia.
Qed.

(** What truncation leaves of [es]: some of its entries in order, the leftmost among them; of the
    first [keep], all, or nothing else; of the others, every one that is not long, or none that is
    long and of the rest the leftmost. *)
Record kept (keep : nat) (es r : list (str * str)) : Prop := {
  kp_sublist : r `sublist_of` es;
  kp_head : head r = head es;
  kp_front : (take keep r = take keep es ∧ keep ≤ length r) ∨ (r `sublist_of` take keep es ∧ length r ≤ keep);
  kp_back : filterb (λ e, negb (is_long e)) (drop keep r) = filterb (λ e, negb (is_long e)) (drop keep es)
    ∨ drop keep r `prefix_of` filterb (λ e, negb (is_long e)) (drop keep es);
}.

Lemma removed_drop es i k : k ≤ i → drop k (removed es i) = removed (drop k es) (i - k).
Proof.
  intros Hk. unfold removed. rewrite drop_drop. replace (k + S (i - k)) with (S i) by lia.
  destruct (decide (i ≤ length es)) as [Hi|Hi].
  - rewrite drop_app_le by (rewrite length_take; lia). f_equal. rewrite take_drop_commute. f_equal. f_equal. lia.
  - rewrite (drop_ge es (S i)), !app_nil_r by lia. rewrite take_drop_commute. f_equal. f_equal. lia.
Qed.

Lemma removed_filter f es i e : es !! i = Some e → f e = false → filterb f (removed es i) = filterb f es.
Proof.
  intros He Hf. unfold removed. rewrite <- (take_drop_middle es i e He) at 3. rewrite !filterb_app, filterb_cons, Hf. done.
Qed.

Lemma removed_last_prefix es i : i = length es - 1 → removed es i `prefix_of` es.
Proof.
  intros ->. unfold removed. rewrite drop_ge by lia. rewrite app_nil_r. exists (drop (length es - 1) es). by rewrite take_drop.
Qed.

Lemma truncate_keeps keep es fuel : 1 ≤ keep → keep ≤ length es → kept keep es (iterate (truncate_step keep) fuel es).
Proof.
  intros Hk Hle. apply (iterate_invariant _ (kept keep es)); [|split; [done|done|by left|by left]].
  intros r r' [H1 H2 H3 H4] Hstep. apply truncate_step_spec in Hstep as (i & Hi & -> & Hif); [|done].
  pose proof (removed_length r i ltac:(lia)) as Hrl. split.
  - by etrans; [apply removed_sublist|].
  - by rewrite removed_head by lia.
  - destruct H3 as [[H3 Hkl]|[H3 Hlk]].
    + destruct (decide (keep < length r)) as [Hlt|Hge].
      * destruct (Hif Hlt) as [Hki _]. left. split; [by rewrite removed_take by lia|lia].
      * right. split; [|lia]. rewrite <- H3. rewrite (take_ge r keep) by lia. apply removed_sublist.
    + right. split; [|lia]. by etrans; [apply removed_sublist|].
  - destruct (decide (keep < length r)) as [Hlt|Hge].
    2: { rewrite (drop_ge (removed r i)) by lia. right. apply prefix_nil. }
    destruct (Hif Hlt) as [Hki Hwhat]. rewrite removed_drop by lia. destruct Hwhat as [(e & He & Hl)|[Hlast Hnone]].
    + destruct H4 as [H4|H4].
      * left. rewrite (removed_filter _ _ _ e); [done|rewrite lookup_drop; replace (keep + (i - keep)) with i by lia; done|by rewrite Hl].
      * exfalso. assert (Hin : e ∈ drop keep r).
        { apply list_elem_of_lookup. exists (i - keep). rewrite lookup_drop. by replace (keep + (i - keep)) with i by lia. }
        destruct H4 as [k Hpre]. assert (Hin' : e ∈ filterb (λ e, negb (is_long e)) (drop keep es)).
        { rewrite Hpre. apply elem_of_app. by left. }
        apply elem_of_filterb in Hin' as [Hn _]. by rewrite Hl in Hn.
    + right. etrans; [apply removed_last_prefix; rewrite length_drop; lia|]. destruct H4 as [H4|H4]; [|done].
      rewrite <- H4. rewrite filterb_all; [done|]. intros e He. by rewrite (Hnone e He).
Qed.

Lemma truncated_spec es keep : es ≠ [] → 1 ≤ keep →
  let r := truncated es keep in
  length r ≤ MAX_MEMBERS ∧ (header_len r ≤ PROPAGATED ∨ length r ≤ 1)
  ∧ kept (Nat.min keep (length (take MAX_MEMBERS es))) (take MAX_MEMBERS es) r.
Proof.
  intros Hne Hkeep. cbv zeta. unfold truncated. set (cut := take MAX_MEMBERS es).
  assert (Hcut : 1 ≤ length cut ≤ MAX_MEMBERS).
  { unfold cut. rewrite length_take. destruct es; [done|]. unfold MAX_MEMBERS. cbn [length]. lia. }
  assert (Hc : clamp keep 1 (Nat.max (length cut) 1) = Nat.min keep (length cut)).
  { unfold clamp. repeat case_bool_decide; lia. }
  rewrite Hc. pose proof (truncate_keeps (Nat.min keep (length cut)) cut (length cut) ltac:(lia) ltac:(lia)) as Hk. split_and!; [| |done].
  - destruct Hk as [Hs _ _ _]. apply sublist_length in Hs. lia.
  - apply (truncate_step_none (Nat.min keep (length cut))). apply (iterate_done _ (λ _, True) length); [|done|done].
    intros r r' _ Hstep. split; [done|]. apply truncate_step_spec in Hstep as (i & Hi & -> & _); [|lia].
    pose proof (removed_length r i ltac:(lia)). lia.
Qed.

(** *** Which entries go, and when the cutting stops *)

Definition not_long (l : list (str * str)) : list (str * str) := filterb (λ e, negb (is_long e)) l.

(** The lists on the way from [pre ++ l] to [pre ++ not_long l]: each without one more of the long
    entries of [l], from the left. *)
Fixpoint long_cuts (pre l : list (str * str)) : list (list (str * str)) :=
  match l with
  | [] => []
  | e :: l => if is_long e then (pre ++ l) :: long_cuts pre l else long_cuts (pre ++ [e]) l
  end.

(** The lists on the way from [pre ++ l] to [pre]: each without one more entry of [l], from the
    right. *)
Fixpoint right_cuts (pre l : list (str * str)) : list (list (str * str)) :=
  match l with [] => [] | e :: l => right_cuts (pre ++ [e]) l ++ [pre] end.

(** [l] given up after [pre]: the long entries from the left, then the others from the right. *)
Definition cuts_after (pre l : list (str * str)) : list (list (str * str)) := long_cuts pre l ++ right_cuts pre (not_long l).

(** Everything the limit may leave of a list, the whole list first and its leftmost entry last:
    what follows the first [keep] is given up, and then what follows the leftmost. *)
Definition cuts (keep : nat) (es : list (str * str)) : list (list (str * str)) :=
  es :: cuts_after (take keep es) (drop keep es) ++ cuts_after (take 1 (take keep es)) (drop 1 (take keep es)).

(** [r] is the first of [cs] within the limit, or the last of them when none is. *)
Definition first_within (cs : list (list (str * str))) (r : list (str * str)) : Prop :=
  ∃ n, cs !! n = Some r ∧ (∀ m c, m < n → cs !! m = Some c → PROPAGATED < header_len c)
    ∧ (header_len r ≤ PROPAGATED ∨ S n = length cs).

(** Each list is what one turn of the loop makes of the one before it, if that is over the limit. *)
Fixpoint linked (keep : nat) (c : list (str * str)) (cs : list (list (str * str))) : Prop :=
  match cs with
  | [] => True
  | d :: cs => (PROPAGATED < header_len c → truncate_step keep c = Some d) ∧ linked keep d cs
  end.

Lemma linked_app keep c cs ds : linked keep c (cs ++ ds) ↔ linked keep c cs ∧ linked keep (default c (last cs)) ds.
Proof.
  revert c. induction cs as [|d cs IH]; intros c; [simpl; tauto|]. cbn [app linked]. rewrite IH, last_cons.
  destruct (last cs); simpl; tauto.
Qed.

Lemma long_first pre mid e l : Forall (λ x, is_long x = false) mid → is_long e = true →
  long (pre ++ mid ++ e :: l) (length pre) = Some (length pre + length mid).
Proof.
  intros Hm He. unfold long. rewrite drop_app_length. change (λ e, bool_decide (LONG_ENTRY < entry_len e)) with is_long.
  assert (position is_long (mid ++ e :: l) = Some (length mid)) as ->; [|done].
  induction Hm as [|x mid Hx _ IH]; simpl; [by rewrite He|]. by rewrite Hx, IH.
Qed.

Lemma long_absent pre l : Forall (λ x, is_long x = false) l → long (pre ++ l) (length pre) = None.
Proof.
  intros Hl. unfold long. rewrite drop_app_length. change (λ e, bool_decide (LONG_ENTRY < entry_len e)) with is_long.
  assert (position is_long l = None) as ->; [|done]. induction Hl as [|x l Hx _ IH]; simpl; [done|]. by rewrite Hx, IH.
Qed.

(** The part of a list a turn may take from: all past the first [keep], or past the leftmost once
    nothing is left there. *)
Definition takes_after (keep : nat) (pre l : list (str * str)) : Prop :=
  1 ≤ keep ∧ pre ≠ [] ∧ (length pre = keep ∨ (length pre = 1 ∧ length (pre ++ l) ≤ keep)).

Lemma step_long keep pre mid e l : takes_after keep pre (mid ++ e :: l) → Forall (λ x, is_long x = false) mid → is_long e = true →
  PROPAGATED < header_len (pre ++ mid ++ e :: l) → truncate_step keep (pre ++ mid ++ e :: l) = Some (pre ++ mid ++ l).
Proof.
  intros (Hk & Hne & Hat) Hm He Hover. unfold truncate_step.
  rewrite (bool_decide_eq_true_2 _ Hover), bool_decide_eq_true_2 by (destruct pre; [done|]; rewrite !length_app; simpl; lia). cbn [andb].
  assert (Hrem : take (length pre + length mid) (pre ++ mid ++ e :: l) ++ drop (S (length pre + length mid)) (pre ++ mid ++ e :: l) = pre ++ mid ++ l).
  { rewrite !(app_assoc pre mid). rewrite <- length_app. rewrite take_app_length. f_equal.
    change (e :: l) with ([e] ++ l). rewrite app_assoc. replace (S (length (pre ++ mid))) with (length ((pre ++ mid) ++ [e])) by (rewrite length_app; simpl; lia).
    apply drop_app_length. }
  destruct Hat as [<-|[H1 Hle]].
  - rewrite long_first by done. by rewrite Hrem.
  - assert (long (pre ++ mid ++ e :: l) keep = None) as -> by (unfold long; by rewrite drop_ge by done).
    rewrite bool_decide_eq_false_2 by lia. rewrite <- H1. rewrite long_first by done. by rewrite Hrem.
Qed.

Lemma step_right keep pre l e : takes_after keep pre (l ++ [e]) → Forall (λ x, is_long x = false) (l ++ [e]) →
  PROPAGATED < header_len (pre ++ l ++ [e]) → truncate_step keep (pre ++ l ++ [e]) = Some (pre ++ l).
Proof.
  intros (Hk & Hne & Hat) Hl Hover. unfold truncate_step.
  rewrite (bool_decide_eq_true_2 _ Hover), bool_decide_eq_true_2 by (destruct pre; [done|]; rewrite !length_app; simpl; lia). cbn [andb].
  assert (Hlen : length (pre ++ l ++ [e]) - 1 = length (pre ++ l)) by (rewrite !length_app; simpl; lia).
  assert (Htake : take (length (pre ++ l)) (pre ++ l ++ [e]) = pre ++ l) by (rewrite app_assoc; apply take_app_length).
  destruct Hat as [<-|[H1 Hle]].
  - rewrite long_absent, bool_decide_eq_true_2, Hlen by (done || (rewrite !length_app; simpl; lia)). rewrite Htake.
    rewrite drop_ge by (rewrite !length_app; simpl; lia). by rewrite app_nil_r.
  - assert (long (pre ++ l ++ [e]) keep = None) as -> by (unfold long; by rewrite drop_ge by done).
    rewrite bool_decide_eq_false_2 by lia. assert (long (pre ++ l ++ [e]) 1 = None) as -> by (rewrite <- H1; by apply long_absent). by rewrite Hlen, Htake.
Qed.

Lemma takes_shorter keep pre l k : takes_after keep pre l → length k ≤ length l → takes_after keep pre k.
Proof. intros (H1 & H2 & [H3|[H3 H4]]) Hk; (split_and!; [done|done|]); [by left|right]. rewrite length_app in *. lia. Qed.

Lemma long_cuts_linked keep pre mid l : Forall (λ x, is_long x = false) mid → takes_after keep pre (mid ++ l) →
  linked keep (pre ++ mid ++ l) (long_cuts (pre ++ mid) l)
  ∧ default (pre ++ mid ++ l) (last (long_cuts (pre ++ mid) l)) = pre ++ mid ++ not_long l.
Proof.
  revert mid. induction l as [|e l IH]; intros mid Hm Ht; [done|]. cbn [long_cuts]. unfold not_long. rewrite filterb_cons. fold (not_long l).
  destruct (is_long e) eqn:He; cbn [negb].
  - destruct (IH mid Hm) as [H1 H2]; [eapply takes_shorter; [exact Ht|]; rewrite !length_app; simpl; lia|].
    split.
    + cbn [linked]. rewrite <- app_assoc. split; [by apply step_long|done].
    + rewrite last_cons. rewrite <- H2. rewrite <- app_assoc. by destruct (last _).
  - rewrite <- app_assoc. change (e :: l) with ([e] ++ l). rewrite (app_assoc mid [e] l).
    destruct (IH (mid ++ [e])) as [H1 H2]; [apply Forall_app; auto|by rewrite <- app_assoc|]. split; [done|].
    rewrite H2. by rewrite <- app_assoc.
Qed.

Lemma right_cuts_linked keep pre mid l : Forall (λ x, is_long x = false) (mid ++ l) → takes_after keep pre (mid ++ l) →
  linked keep (pre ++ mid ++ l) (right_cuts (pre ++ mid) l)
  ∧ default (pre ++ mid ++ l) (last (right_cuts (pre ++ mid) l)) = pre ++ mid.
Proof.
  revert mid. induction l as [|e l IH]; intros mid Hm Ht; cbn [right_cuts]; [by rewrite app_nil_r|].
  assert (E : mid ++ e :: l = (mid ++ [e]) ++ l) by by rewrite <- app_assoc.
  rewrite E in *. destruct (IH (mid ++ [e]) Hm Ht) as [H1 H2].
  rewrite <- (app_assoc pre mid [e]). rewrite last_snoc. split; [|done]. apply linked_app. split; [done|]. rewrite H2. cbn [linked]. split; [|done].
  apply Forall_app in Hm as [Hm _]. apply step_right; [|done]. eapply takes_shorter; [exact Ht|]. rewrite !length_app. lia.
Qed.

Lemma not_long_forall l : Forall (λ x, is_long x = false) (not_long l).
Proof. apply Forall_forall. intros x [Hx%negb_true_iff _]%elem_of_filterb. done. Qed.

Lemma long_cuts_length pre l : length (long_cuts pre l) + length (not_long l) = length l.
Proof.
  revert pre. induction l as [|e l IH]; intros pre; [done|]. cbn [long_cuts]. unfold not_long. rewrite filterb_cons. fold (not_long l).
  destruct (is_long e); simpl; [rewrite IH|rewrite <- (IH (pre ++ [e]))]; lia.
Qed.

Lemma cuts_after_linked keep pre l : takes_after keep pre l →
  linked keep (pre ++ l) (cuts_after pre l) ∧ default (pre ++ l) (last (cuts_after pre l)) = pre.
Proof.
  intros Ht. destruct (long_cuts_linked keep pre [] l) as [H1 H2]; [done|done|]. rewrite app_nil_r in H1, H2. cbn [app] in H1, H2.
  destruct (right_cuts_linked keep pre [] (not_long l)) as [H3 H4]; [apply not_long_forall| |].
  { eapply takes_shorter; [exact Ht|]. cbn [app]. pose proof (long_cuts_length [] l); lia. }
  rewrite app_nil_r in H3, H4. cbn [app] in H3, H4. unfold cuts_after. split.
  - apply linked_app. by rewrite H2.
  - rewrite last_app. destruct (last (right_cuts _ _)) as [x|]; [done|]. cbn in H4. by rewrite H2.
Qed.

Lemma cuts_linked keep es : es ≠ [] → 1 ≤ keep ≤ length es → ∃ cs, cuts keep es = es :: cs ∧ linked keep es cs ∧ default es (last cs) = take 1 es.
Proof.
  intros Hne Hk. eexists. split; [done|]. rewrite last_app.
  destruct (cuts_after_linked keep (take keep es) (drop keep es)) as [H1 H2].
  { split_and!; [lia| |left; rewrite length_take; lia]. destruct es, keep; done || lia. }
  destruct (cuts_after_linked keep (take 1 (take keep es)) (drop 1 (take keep es))) as [H3 H4].
  { split_and!; [lia| |right; rewrite take_drop, !length_take; lia]. destruct es, keep; done || lia. }
  rewrite take_drop in H1, H2, H3, H4. split; [apply linked_app; by rewrite H2|].
  assert (Ht : take 1 (take keep es) = take 1 es) by (rewrite take_take; f_equal; lia). rewrite Ht in *.
  destruct (last (cuts_after (take 1 es) _)) as [x|]; [done|]. cbn in H4. by rewrite H2.
Qed.

(** Running the loop down a chain that ends in one entry stops at the first list within the limit. *)
Lemma iterate_linked keep fuel c cs : linked keep c cs → length cs ≤ fuel → length (default c (last cs)) ≤ 1 →
  first_within (c :: cs) (iterate (truncate_step keep) fuel c).
Proof.
  revert c cs. induction fuel as [|fuel IH]; intros c cs Hl Hf Hlast.
  { destruct cs; [|simpl in Hf; lia]. exists 0. split_and!; [done|lia|by right]. }
  cbn [iterate]. destruct (decide (PROPAGATED < header_len c)) as [Hover|Hle].
  - destruct cs as [|d cs].
    + unfold truncate_step. rewrite (bool_decide_eq_false_2 (1 < length c)) by (simpl in Hlast; lia). rewrite andb_false_r.
      exists 0. split_and!; [done|lia|by right].
    + destruct Hl as [Hs Hl]. rewrite (Hs Hover). destruct (IH d cs Hl) as (n & Hn & Hb & Hend); [simpl in Hf; lia| |].
      { rewrite last_cons in Hlast. by destruct (last cs). }
      exists (S n). split_and!; [done| |simpl in *; destruct Hend; [by left|right; lia]].
      intros [|m] x Hm Hx; [by injection Hx as <-|]. apply (Hb m); [lia|done].
  - unfold truncate_step. rewrite bool_decide_eq_false_2 by done. simpl. exists 0. split_and!; [done|lia|left; lia].
Qed.

Lemma right_cuts_length pre l : length (right_cuts pre l) = length l.
Proof. revert pre. induction l as [|e l IH]; intros pre; [done|]. cbn [right_cuts]. rewrite length_app, IH. simpl. lia. Qed.

Lemma cuts_after_length pre l : length (cuts_after pre l) = length l.
Proof. unfold cuts_after. rewrite length_app, right_cuts_length. apply long_cuts_length. Qed.

(** [truncated] answers the first of the [cuts] of the first 32 members that is within the limit. *)
Lemma truncated_first es keep : es ≠ [] → 1 ≤ keep →
  first_within (cuts (Nat.min keep (length (take MAX_MEMBERS es))) (take MAX_MEMBERS es)) (truncated es keep).
Proof.
  intros Hne Hkeep. unfold truncated. set (cut := take MAX_MEMBERS es).
  assert (Hcut : 1 ≤ length cut) by (unfold cut; rewrite length_take; destruct es; [done|]; unfold MAX_MEMBERS; cbn [length]; lia).
  assert (Hc : clamp keep 1 (Nat.max (length cut) 1) = Nat.min keep (length cut)) by (unfold clamp; repeat case_bool_decide; lia).
  rewrite Hc. destruct (cuts_linked (Nat.min keep (length cut)) cut) as (cs & E & Hl & Hlast); [by destruct cut; simpl in Hcut; [lia|]|lia|].
  rewrite E. apply iterate_linked; [done| |by rewrite Hlast, length_take; lia].
  injection E as <-. rewrite length_app, !cuts_after_length, !length_drop, length_take. lia.
Qed.

(** Truncating a valid list leaves a valid one. *)
Lemma truncated_valid es keep : NoDup es.*1 → (∀ kv, kv ∈ es → entry_valid kv) → state_valid {| ts_entries := truncated es keep |}.
Proof.
  intros Hnd Hv. assert (Hsub : truncated es keep `sublist_of` take MAX_MEMBERS es).
  { unfold truncated. apply (iterate_invariant _ (λ r, r `sublist_of` take MAX_MEMBERS es)); [|done].
    intros r r' Hr. set (k := clamp _ _ _). intros (i & _ & -> & _)%truncate_step_spec; [by etrans; [apply removed_sublist|]|].
    unfold k, clamp. repeat case_bool_decide; lia. }
  assert (Hes : truncated es keep `sublist_of` es) by (etrans; [exact Hsub|apply sublist_take]).
  split; cbn [ts_entries].
  - apply sublist_length in Hsub. rewrite length_take in Hsub. lia.
  - eapply sublist_NoDup; [exact Hnd|]. by apply fmap_sublist.
  - intros kv Hkv. apply Hv. by eapply elem_of_sublist.
Qed.

(** ** Whole headers *)

(** No whitespace around. *)
Definition trimmed (s : str) : Prop :=
  (∀ c, head s = Some c → is_ows c = false) ∧ (∀ c, last s = Some c → is_ows c = false).

Lemma trim_trimmed s : trimmed s → trim_ows s = s.
Proof.
  intros [H1 H2]. apply trim_ows_id.
  - intros c k ->. by apply H1.
  - intros c k ->. apply H2, last_snoc.
Qed.

Lemma trim_start_head s c : head (trim_ows_start s) = Some c → is_ows c = false.
Proof. induction s as [|d s IH]; simpl; [done|]. destruct (is_ows d) eqn:E; [done|]. by intros [= <-]. Qed.

Lemma trim_start_suffix s : trim_ows_start s `suffix_of` s.
Proof. induction s as [|d s IH]; simpl; [done|]. destruct (is_ows d); [by apply suffix_cons_r|done]. Qed.

Lemma trim_ows_trimmed s : trimmed (trim_ows s).
Proof.
  unfold trim_ows. set (t := trim_ows_start s). split; intros c.
  - rewrite head_reverse. destruct (trim_start_suffix (reverse t)) as [k Hk].
    destruct (trim_ows_start (reverse t)) as [|d r] eqn:E; [done|]. intros Hl. apply (trim_start_head s). fold t.
    rewrite <- (reverse_involutive t), Hk, head_reverse, last_app, Hl. done.
  - rewrite last_reverse. apply trim_start_head.
Qed.

(** Fields joined are read as the one list they are. *)
Lemma split_on_join c fields : fields ≠ [] → split_on c (join_on c fields) = fields ≫= split_on c.
Proof.
  assert (Happ : ∀ p s, split_on c (p ++ c :: s) = split_on c p ++ split_on c s).
  { intros p s. induction p as [|b p IH]; simpl; [by rewrite bool_decide_eq_true_2|]. case_bool_decide; [by rewrite IH|].
    rewrite IH. pose proof (split_on_nonempty c p). by destruct (split_on c p). }
  induction fields as [|f [|g fields] IH]; intros Hne; [done|simpl; by rewrite app_nil_r|].
  change (join_on c (f :: g :: fields)) with (f ++ c :: join_on c (g :: fields)). by rewrite Happ, IH.
Qed.

Lemma state_parse_joined fields : fields ≠ [] → state_parse [join_on ","%char fields] = state_parse fields.
Proof. intros Hne. unfold state_parse. cbn [mbind list_bind]. by rewrite app_nil_r, split_on_join. Qed.

Lemma join_trimmed fields : fields ≠ [] → (∀ f, f ∈ fields → f ≠ [] ∧ trimmed f) → join_on ","%char fields ≠ [] ∧ trimmed (join_on ","%char fields).
Proof.
  induction fields as [|f [|g fields] IH]; intros Hne H; [done|apply H; by left|].
  change (join_on ","%char (f :: g :: fields)) with (f ++ ","%char :: join_on ","%char (g :: fields)).
  destruct IH as [Hn [_ Hl]]; [done|intros h Hh; apply H; by right|]. destruct (H f) as [Hf [Hh _]]; [by left|].
  split; [by destruct f|]. split; intros c.
  - rewrite head_app. destruct f; [done|]. apply Hh.
  - rewrite last_app, last_cons. destruct (last (join_on _ _)) eqn:E; [apply Hl|by apply last_None in E].
Qed.

Lemma push_hex_plain bs c : Forall is_byte bs → c ∈ push_hex bs → is_ows c = false.
Proof.
  induction 1 as [|b bs Hb _ IH]; [by intros ?%not_elem_of_nil|]. rewrite push_hex_cons, !elem_of_cons.
  destruct (byte_digits b Hb) as (H1 & H2 & _). assert (Hn : ∀ d x, nibble d = Some x → is_ows d = false).
  { intros d x. destruct d as [[] [] [] [] [] [] [] []]; vm_compute; done. }
  intros [->|[->|Hin]]; [by eapply Hn|by eapply Hn|by apply IH].
Qed.

Lemma traceparent_trimmed c : Forall is_byte [N.land (tc_flags c) SAMPLED] → trimmed (traceparent_00 c).
Proof.
  intros Hf. unfold traceparent_00. split; intros d; [by intros [= <-]|].
  rewrite !last_app, !last_cons, !last_app, !last_cons. destruct (last (push_hex [_])) as [e|] eqn:E; [|by apply last_None in E].
  intros [= <-]. apply (push_hex_plain _ e Hf). by apply last_Some_elem_of.
Qed.

Lemma state_display_trimmed s : state_valid s → ts_entries s ≠ [] → state_display s ≠ [] ∧ trimmed (state_display s).
Proof.
  intros [_ _ Hv] Hne. unfold state_display. apply join_trimmed; [by destruct (ts_entries s)|].
  intros f (kv & -> & Hkv)%list_elem_of_fmap. fold (member kv). destruct (member_trim kv (Hv kv Hkv)) as [E Hn]. split; [done|].
  rewrite <- E. apply trim_ows_trimmed.
Qed.

(** ** Adding to a list *)

(** The members of [with_entry] and [prepend] before truncation. *)
Definition entry_added (s : TraceState) (key value : str) : list (str * str) :=
  (key, value) :: filterb (λ kv, negb (bool_decide (kv.1 = key))) (ts_entries s).

Definition merged (s front : TraceState) : list (str * str) :=
  ts_entries front ++ filterb (λ kv, bool_decide (state_get front kv.1 = None)) (ts_entries s).

Lemma filtered_keys f (es : list (str * str)) : NoDup es.*1 → NoDup (filterb f es).*1.
Proof. intros H. eapply sublist_NoDup; [exact H|]. apply fmap_sublist, sublist_filter. Qed.

Lemma entry_added_valid s key value : state_valid s → entry_valid (key, value) →
  NoDup (entry_added s key value).*1 ∧ ∀ kv, kv ∈ entry_added s key value → entry_valid kv.
Proof.
  intros [_ Hn Hv] Hkv. unfold entry_added. split.
  - rewrite fmap_cons. apply NoDup_cons. split; [|by apply filtered_keys].
    by intros (kv & E & [Hb%negb_true_iff%bool_decide_eq_false _]%elem_of_filterb)%list_elem_of_fmap.
  - intros kv [-> |[_ Hin]%elem_of_filterb]%elem_of_cons; [done|by apply Hv].
Qed.

Lemma state_get_None s key : state_get s key = None ↔ ∀ kv, kv ∈ ts_entries s → kv.1 ≠ key.
Proof.
  unfold state_get. rewrite fmap_None, find_first_None. split; intros H kv Hkv; specialize (H kv Hkv); by rewrite bool_decide_eq_false in *.
Qed.

Lemma merged_valid s front : state_valid s → state_valid front → NoDup (merged s front).*1 ∧ ∀ kv, kv ∈ merged s front → entry_valid kv.
Proof.
  intros [_ Hn Hv] [_ Hfn Hfv]. unfold merged. split.
  - rewrite fmap_app. apply NoDup_app. split_and!; [done| |by apply filtered_keys].
    intros k (kv & -> & Hkv)%list_elem_of_fmap (kw & E & [Hb%bool_decide_eq_true _]%elem_of_filterb)%list_elem_of_fmap.
    rewrite state_get_None in Hb. by apply (Hb kv Hkv).
  - intros kv [Hkv|[_ Hkv]%elem_of_filterb]%elem_of_app; [by apply Hfv|by apply Hv].
Qed.

Lemma find_first_app {A} (f : A → bool) l k :
  find_first f (l ++ k) = match find_first f l with Some x => Some x | None => find_first f k end.
Proof. induction l as [|x l IH]; simpl; [done|]. by destruct (f x). Qed.

Lemma find_first_filterb {A} (f g : A → bool) l : (∀ x, f x = true → g x = true) → find_first f (filterb g l) = find_first f l.
Proof.
  intros H. induction l as [|x l IH]; [done|]. rewrite filterb_cons. simpl. destruct (g x) eqn:E; simpl; [by rewrite IH|].
  destruct (f x) eqn:Ef; [by rewrite H in E|done].
Qed.

(** A key of the merged list: the front's value, else the list's own. *)
Lemma merged_get s front key :
  state_get {| ts_entries := merged s front |} key = match state_get front key with Some v => Some v | None => state_get s key end.
Proof.
  unfold state_get at 1, merged. cbn [ts_entries]. rewrite find_first_app. destruct (state_get front key) as [v|] eqn:Eg.
  - unfold state_get in Eg. by destruct (find_first _ (ts_entries front)).
  - pose proof Eg as E. unfold state_get in E. apply fmap_None in E. rewrite E, find_first_filterb; [done|].
    intros kv Hb%bool_decide_eq_true. apply bool_decide_eq_true. by rewrite Hb.
Qed.

(** A list within the limits is left alone. *)
Lemma truncated_id es keep : length es ≤ MAX_MEMBERS → header_len es ≤ PROPAGATED → truncated es keep = es.
Proof.
  intros Hl Hh. unfold truncated. rewrite take_ge by done. destruct es as [|e es]; [done|]. cbn [length iterate].
  unfold truncate_step at 1. by rewrite bool_decide_eq_false_2 by lia.
Qed.

Lemma header_len_app es r : header_len (es ++ r) = header_len es + header_len r + (if bool_decide (es = [] ∨ r = []) then 0 else 1).
Proof.
  unfold header_len. rewrite fmap_app, total_app, length_app. case_bool_decide as H; destruct es, r; simpl; try lia; exfalso; naive_solver.
Qed.

Lemma header_len_sublist es r : r `sublist_of` es → header_len r ≤ header_len es.
Proof.
  induction 1 as [|e r es H IH|e r es H IH]; [done| |].
  - change (e :: r) with ([e] ++ r). change (e :: es) with ([e] ++ es). rewrite !header_len_app.
    repeat case_bool_decide; try lia. destruct es; [|naive_solver]. apply sublist_nil_r in H. naive_solver.
  - change (e :: es) with ([e] ++ es). rewrite header_len_app. lia.
Qed.

Lemma merged_sublist s front : merged s front `sublist_of` ts_entries front ++ ts_entries s.
Proof. apply sublist_app; [done|apply sublist_filter]. Qed.
