(* ===== verification/TraceTheorems.v ===== *)
(** * TraceTheorems: trace context, as a tracer reads it

    What crosses a hop: a context originated here is read back by the next hop, one passed through
    is carried unchanged, and a list stays within the limits whatever is added to it. *)

From S2P Require Import Prelude Text Trace TraceFacts.
Local Open Scope nat_scope.

(** The values the next hop receives. *)
Definition sent_fields (c : TraceContext) : list str := match tracestate c with Some s => [s] | None => [] end.

(** A context originated here and written out is read back by the next hop: the same trace and
    span IDs, the same list, of the flags the sampled one, with the text as written kept to be
    passed on. The IDs are not all zero and the list is valid, as everything that builds one makes
    it. *)
Theorem context_roundtrip (c : TraceContext) :
  ids_valid (tc_trace_id c) (tc_span_id c) → state_valid (tc_state c) →
  trace_extract [traceparent (originated c)] (sent_fields (originated c)) =
    Some {| tc_trace_id := tc_trace_id c; tc_span_id := tc_span_id c; tc_flags := N.land (tc_flags c) SAMPLED;
            tc_state := tc_state c; tc_origin := Received;
            tc_received := Some {| rx_traceparent := traceparent (originated c); rx_tracestate := tracestate (originated c) |} |}.
Proof.
  intros Hids Hs. assert (Hf : is_byte (N.land (tc_flags c) SAMPLED)).
  { unfold is_byte, SAMPLED. change 1%N with (N.ones 1). rewrite N.land_ones. change (2 ^ 1)%N with 2%N. pose proof (N.mod_lt (tc_flags c) 2). lia. }
  unfold trace_extract. unfold traceparent at 1 2 3. cbn [originated tc_origin tc_received].
  rewrite trim_trimmed by (apply traceparent_trimmed; by constructor).
  assert (Hp : parse_traceparent (traceparent_00 (originated c)) = Some (tc_trace_id c, tc_span_id c, N.land (tc_flags c) SAMPLED)).
  { by apply parse_written. }
  rewrite Hp. unfold sent_fields, tracestate. cbn [originated tc_origin tc_received tc_state].
  case_bool_decide as Hne; cbn [fmap list_fmap].
  - do 2 f_equal. destruct c as [? ? ? [es] ? ?]. simpl in *. by subst.
  - destruct (state_display_trimmed _ Hs Hne) as [Hd Ht]. rewrite trim_trimmed by done.
    rewrite filterb_cons, bool_decide_eq_false_2 by done. cbn. by rewrite state_parse_display.
Qed.

Definition witness_state : TraceState := state_parse [str_of "vendor=abc , t1@sys=1"].

Definition witness_context : TraceContext :=
  {| tc_trace_id := replicate 16 171%N; tc_span_id := replicate 8 7%N; tc_flags := 3; tc_state := witness_state;
     tc_origin := Received; tc_received := None |}.

Lemma witness_ids : ids_valid (tc_trace_id witness_context) (tc_span_id witness_context).
Proof. split; (split; [done|split; [by apply (bool_decide_unpack _)|done]]). Qed.

Lemma context_roundtrip_witness :
  traceparent (originated witness_context) = str_of "00-abababababababababababababababab-0707070707070707-01"
  ∧ (tc_state <$> trace_extract [traceparent (originated witness_context)] (sent_fields (originated witness_context)))
    = Some {| ts_entries := [(str_of "vendor", str_of "abc"); (str_of "t1@sys", str_of "1")] |}.
Proof.
  split; [vm_compute; reflexivity|]. rewrite (context_roundtrip witness_context witness_ids (state_parse_valid _)). vm_compute. reflexivity.
Defined.

(** A context passed through is passed through whole: whatever the headers carried, a service
    without a tracer hands the next hop values that hop reads as the very context this one read,
    so a trace crosses any number of hops unchanged; what was read has valid IDs and a valid
    list. *)
Theorem pass_through (parents states : list str) (c : TraceContext) :
  trace_extract parents states = Some c →
  (ids_valid (tc_trace_id c) (tc_span_id c) ∧ state_valid (tc_state c))
  ∧ (∃ only, parents = [only] ∧ traceparent c = trim_ows only)
  ∧ trace_extract [traceparent c] (sent_fields c) = Some c.
Proof.
  unfold trace_extract at 1. destruct parents as [|only [|? ?]]; try done.
  destruct (parse_traceparent (trim_ows only)) as [[[t s] f]|] eqn:Ep; [|done].
  set (fields := filterb _ _). intros [= <-]. cbn [tc_trace_id tc_span_id tc_state].
  destruct (parse_traceparent_ids _ _ _ _ Ep) as [Hids _]. split; [split; [done|apply state_parse_valid]|].
  split; [by exists only|]. unfold sent_fields, traceparent, tracestate. cbn [tc_origin tc_received rx_traceparent rx_tracestate].
  assert (Htr : ∀ g, g ∈ fields → g ≠ [] ∧ trimmed g).
  { intros g Hg. unfold fields in Hg. apply elem_of_filterb in Hg as [Hne%negb_true_iff%bool_decide_eq_false (h & -> & _)%list_elem_of_fmap].
    split; [done|apply trim_ows_trimmed]. }
  clearbody fields. unfold trace_extract. rewrite trim_trimmed by apply trim_ows_trimmed. rewrite Ep.
  case_bool_decide as Hf; cbn [fmap list_fmap]; [by rewrite Hf|].
  destruct (join_trimmed fields Hf Htr) as [Hne Ht]. rewrite trim_trimmed by done.
  rewrite filterb_cons, bool_decide_eq_false_2 by done. cbn -[state_parse]. by rewrite state_parse_joined.
Qed.

Definition witness_parent : str := str_of " cc-0af7651916cd43dd8448eb211c80319c-b7ad6b7169203331-03-extra ".

Lemma pass_through_witness :
  ∃ c, trace_extract [witness_parent] [str_of "a=1,b=2"; []; str_of " c=3"] = Some c
    ∧ trace_extract [traceparent c] (sent_fields c) = Some c ∧ sent_fields c = [str_of "a=1,b=2,c=3"].
Proof.
  destruct (trace_extract [witness_parent] [str_of "a=1,b=2"; []; str_of " c=3"]) as [c|] eqn:E; [|by vm_compute in E].
  exists c. split; [done|]. split; [by apply (pass_through _ _ c E)|]. vm_compute in E. injection E as <-. reflexivity.
Defined.

(** C39: A list a writer adds to stays within the limits, and nothing goes that need not.
    [truncated] answers at most 32 members and at most 512 characters, or the one entry that is
    longer by itself. Entries go one by one, in this order: after the first [keep], those over 128
    characters from the left and then the rest from the right; then, after the leftmost, the same
    again. The answer is the first list on that way that is within 512 characters, so a list within
    the limits is kept whole. It keeps members in order, the leftmost always; it gives up the first
    [keep] only once nothing else is left. *)
Theorem truncated_bounds (es : list (str * str)) (keep : nat) :
  es ≠ [] → 1 ≤ keep →
  let first := Nat.min keep (length (take MAX_MEMBERS es)) in
  let r := truncated es keep in
  length r ≤ MAX_MEMBERS ∧ (header_len r ≤ PROPAGATED ∨ length r ≤ 1)
  ∧ first_within (cuts first (take MAX_MEMBERS es)) r
  ∧ (length es ≤ MAX_MEMBERS → header_len es ≤ PROPAGATED → r = es)
  ∧ kept first (take MAX_MEMBERS es) r.
Proof.
  intros Hne Hk. destruct (truncated_spec es keep Hne Hk) as (H1 & H2 & H3). cbv zeta. split_and!; [done|done|by apply truncated_first|by intros; apply truncated_id|done].
Qed.

Definition witness_entries : list (str * str) :=
  [(str_of "k", replicate 200 "x"%char); (str_of "a", replicate 100 "x"%char); (str_of "l", replicate 150 "x"%char);
   (str_of "b", replicate 100 "x"%char); (str_of "c", replicate 100 "x"%char); (str_of "d", replicate 100 "x"%char)].

Lemma truncated_bounds_witness :
  (truncated witness_entries 1).*1 = [str_of "k"; str_of "a"; str_of "b"; str_of "c"] ∧ header_len witness_entries = 767
  ∧ (header_len (truncated witness_entries 1) ≤ 512 ∨ length (truncated witness_entries 1) ≤ 1).
Proof.
  split; [vm_compute; reflexivity|]. split; [vm_compute; reflexivity|].
  exact (proj1 (proj2 (truncated_bounds witness_entries 1 ltac:(done) ltac:(lia)))).
Defined.

(** Every way of building a list builds a valid one: at most 32 members, no key twice, every key
    and value on the grammar. Adding an entry fails exactly when its key or value is off the
    grammar, and an added entry is the leftmost one, found under its key. A list prepended to
    keeps the front's leftmost member leftmost and, when both lists fit the limits together, gives
    each key the front's value or else its own. *)
Theorem state_operations_valid (s front : TraceState) (fields : list str) (key value : str) :
  state_valid s → state_valid front →
  state_valid (state_parse fields)
  ∧ (with_entry s key value = None ↔ ¬ entry_valid (key, value))
  ∧ (∀ s', with_entry s key value = Some s' →
       state_valid s' ∧ head (ts_entries s') = Some (key, value) ∧ state_get s' key = Some value)
  ∧ state_valid (prepend s front)
  ∧ (ts_entries front ≠ [] → head (ts_entries (prepend s front)) = head (ts_entries front))
  ∧ (length (ts_entries front ++ ts_entries s) ≤ MAX_MEMBERS → header_len (ts_entries front ++ ts_entries s) ≤ PROPAGATED →
       state_get (prepend s front) key = match state_get front key with Some v => Some v | None => state_get s key end).
Proof.
  intros Hs Hf. split; [apply state_parse_valid|]. unfold with_entry, prepend. fold (entry_added s key value) (merged s front).
  split_and!.
  - unfold entry_valid. cbn [fst snd]. destruct (key_valid key), (value_valid value); simpl; split; try done; [by intros []|by intros _ []..].
  - destruct (negb (key_valid key) || negb (value_valid value)) eqn:E; [done|].
    apply orb_false_iff in E as [Hk%negb_false_iff Hval%negb_false_iff]. intros s' [= <-].
    destruct (entry_added_valid s key value Hs (conj Hk Hval)) as [H1 H2].
    destruct (truncated_spec (entry_added s key value) 1 ltac:(done) ltac:(lia)) as (_ & _ & [_ Hh _ _]).
    split_and!; [by apply truncated_valid|cbn [ts_entries]; by rewrite Hh|]. unfold state_get. cbn [ts_entries].
    destruct (truncated _ 1) as [|kv r]; [done|]. injection Hh as ->. simpl. by rewrite bool_decide_eq_true_2.
  - destruct (merged_valid s front Hs Hf) as [H1 H2]. by apply truncated_valid.
  - intros Hne. cbn [ts_entries]. destruct (truncated_spec (merged s front) (length (ts_entries front))) as (_ & _ & [_ Hh _ _]).
    + unfold merged. by destruct (ts_entries front).
    + destruct (ts_entries front); [done|simpl; lia].
    + rewrite Hh. unfold merged. by destruct (ts_entries front).
  - intros Hl Hh. pose proof (merged_sublist s front) as Hsub. rewrite truncated_id; [apply merged_get| |].
    + apply sublist_length in Hsub. lia.
    + apply header_len_sublist in Hsub. lia.
Qed.

Lemma state_operations_valid_witness :
  with_entry witness_state (str_of "Bad") (str_of "1") = None
  ∧ state_valid (prepend witness_state (state_parse [str_of "vendor=new"]))
  ∧ ts_entries (prepend witness_state (state_parse [str_of "vendor=new"])) = [(str_of "vendor", str_of "new"); (str_of "t1@sys", str_of "1")].
Proof.
  destruct (state_operations_valid witness_state (state_parse [str_of "vendor=new"]) [] (str_of "Bad") (str_of "1")
    (state_parse_valid _) (state_parse_valid _)) as (_ & Hw & _ & Hp & _).
  split; [apply Hw; intros [H _]; by vm_compute in H|]. split; [exact Hp|]. vm_compute. reflexivity.
Defined.
