(* ===== verification/Timer.v ===== *)
(** * Timer: bounds, and the one runner for code the core waits on

    [ulo/src/timer.rs] and [ulo/src/lifecycle/run.rs]. An instant is its nanoseconds on the app's
    clock. A future is what each poll of it answers; a poll happens at one reading of the clock.
    The [Timer] is a trait of the runtime's: a [Tick] is what it answers in one poll. *)

From S2P Require Import Prelude Text Key Graph Redact.
Local Open Scope nat_scope.

(** ** Errors and reasons *)

(** [BoxError]: the messages of its chain, its own first, and whether a [Permanent] is in it. *)
Record BoxError := { be_messages : list str; be_permanent : bool }.

(** [Redacted]: the original and the text shown for it. *)
Record Redacted := { rd_inner : BoxError; rd_text : str }.

Definition redacted (secrets : list str) (e : BoxError) : Redacted := {| rd_inner := e; rd_text := redact secrets (be_messages e) |}.

(** [redact_panic]: the payload's message, scrubbed. *)
Definition redact_panic (secrets : list str) (message : str) : Redacted :=
  {| rd_inner := {| be_messages := [message]; be_permanent := false |}; rd_text := scrub secrets message |}.

Inductive Limit := LimitItem | LimitAttempt | LimitDefault | ShutdownCap.

Inductive FailureReason :=
  | Panicked (message : Redacted)
  | TimedOut (after : Duration) (limit : Limit)
  | Skipped
  | Errored (error : Redacted).

(** [RuntimeShutDown] inside a [Permanent]: three links with one text, or the error it came
    after. *)
Definition SHUT_DOWN : str := str_of "the runtime has shut down".

Definition shut_down (secrets : list str) : FailureReason :=
  Errored (redacted secrets {| be_messages := [SHUT_DOWN; SHUT_DOWN; SHUT_DOWN]; be_permanent := true |}).

Definition shut_down_after (secrets : list str) (last : Redacted) : FailureReason :=
  Errored (redacted secrets {| be_messages := [SHUT_DOWN; SHUT_DOWN; rd_text last]; be_permanent := true |}).

(** ** Bounds *)

Inductive BoundKind := KindHook | KindConstruction | KindReadinessAttempt | KindReadinessWhole.

Inductive Resolved := ResolvedAfter (after : Duration) (limit : Limit) | ResolvedUnbounded.

Record Defaults := { df_hook_timeout : Duration; df_construct_timeout : Duration }.

Definition resolve_bound (bound : Bound) (kind : BoundKind) (defaults : option Defaults) : Resolved :=
  match defaults with
  | None => ResolvedUnbounded
  | Some defaults =>
      match bound with
      | Unbounded => ResolvedUnbounded
      | After after => ResolvedAfter after match kind with KindReadinessAttempt => LimitAttempt | _ => LimitItem end
      | BoundDefault =>
          match kind with
          | KindHook => ResolvedAfter (df_hook_timeout defaults) LimitDefault
          | KindConstruction | KindReadinessAttempt => ResolvedAfter (df_construct_timeout defaults) LimitDefault
          | KindReadinessWhole => ResolvedUnbounded
          end
      end
  end.

(** ** The clock *)

(** What a [try_sleep] answers once it ends. *)
Inductive Slept := SleptOk | SleptRefused.

(** One poll: the clock's reading, and what a [try_sleep] asked to end at an instant answers. *)
Record Tick := { tk_now : N; tk_sleep : N → option Slept }.

(** [Timer]'s contract: a sleep ends once its time has passed, before that only by a refusal. *)
Record tick_keeps (t : Tick) : Prop := {
  tk_done : ∀ until, tk_sleep t until = Some SleptOk → (until <= tk_now t)%N;
  tk_waits : ∀ until, tk_sleep t until = None → (tk_now t < until)%N;
}.

Inductive Cut := CutExpired | CutRefused.

(** What one poll of the item answers: nothing yet, its value, or a panic's message. *)
Abbreviation ItemPoll T := (option (T + str)) (only parsing).

Section Clock.
(** The last instant the clock can name; [checked_add] past it is [None]. *)
Context (clock_max : N).

Definition checked_add (now : N) (d : Duration) : option N :=
  if bool_decide (now + d <= clock_max)%N then Some (now + d)%N else None.

Record Expiry := { ex_until : option N; ex_sleep : option N; ex_refused : bool }.

(** [until.saturating_duration_since(now)] is [N]'s subtraction. *)
Definition expiry_at (now until : N) : Expiry :=
  let left := (until - now)%N in
  {| ex_until := Some until; ex_sleep := if is_zero left then None else Some (now + left)%N; ex_refused := false |}.

Definition expiry_after (now : N) (d : Duration) : Expiry :=
  {| ex_until := checked_add now d; ex_sleep := if is_zero d then None else Some (now + d)%N; ex_refused := false |}.

Definition expiry_passed (t : Tick) (e : Expiry) : bool :=
  match ex_until e with Some until => bool_decide (until <= tk_now t)%N | None => false end.

Definition expiry_poll (t : Tick) (e : Expiry) : Expiry * option Cut :=
  if ex_refused e then (e, Some CutRefused)
  else match ex_sleep e with
  | None => (e, Some CutExpired)
  | Some until =>
      match tk_sleep t until with
      | None => (e, None)
      | Some SleptOk => (e, Some CutExpired)
      | Some SleptRefused =>
          if expiry_passed t e then (e, Some CutExpired)
          else ({| ex_until := ex_until e; ex_sleep := ex_sleep e; ex_refused := true |}, None)
      end
  end.

(** ** Racing a bound *)

Record Race := { rc_expiry : Expiry; rc_first : bool; rc_early : option Cut }.

Definition race_start (e : Expiry) : Race := {| rc_expiry := e; rc_first := true; rc_early := None |}.

(** One poll of [race]: [fut] is the wrapped future's state and [poll] one poll of it. *)
Definition race_poll {F A} (poll : F → F * option A) (t : Tick) (r : Race) (fut : F) : F * Race * option (A + Cut) :=
  let polled := rc_first r in
  let '(expiry, cut) := if polled then expiry_poll t (rc_expiry r) else (rc_expiry r, None) in
  let early := match cut with Some c => Some c | None => rc_early r end in
  let '(fut, out) := poll fut in
  let r := {| rc_expiry := expiry; rc_first := false; rc_early := early |} in
  match out with
  | Some output => (fut, r, Some (inl output))
  | None =>
      match early with
      | Some cut => (fut, r, Some (inr cut))
      | None =>
          if polled then (fut, r, None)
          else let '(expiry, cut) := expiry_poll t expiry in
            (fut, {| rc_expiry := expiry; rc_first := false; rc_early := early |}, inr <$> cut)
      end
  end.

(** ** The runner *)

Record Cap := { cap_at : N; cap_after : Duration }.

Inductive Outcome (T : Type) :=
  | Done (value : T)
  | RunPanicked (message : Redacted)
  | RunTimedOut (after : Duration) (limit : Limit)
  | RunRefused.
Arguments Done {T} _.
Arguments RunPanicked {T} _.
Arguments RunTimedOut {T} _ _.
Arguments RunRefused {T}.

(** The two [timeout]s of [run], present when there is a [Timer] and the limit. *)
Record RunState := { rn_cap : option (Race * Duration); rn_own : option (Race * Duration * Limit) }.

(** Both expiries are made in the first poll of [run]. *)
Definition run_start (timer : bool) (bound : Resolved) (cap : option Cap) (now : N) : RunState := {|
  rn_cap := if timer then (λ c, (race_start (expiry_at now (cap_at c)), cap_after c)) <$> cap else None;
  rn_own := match timer, bound with
            | true, ResolvedAfter after limit => Some (race_start (expiry_after now after), after, limit)
            | _, _ => None
            end |}.

(** One poll of [capped]: the item under the cap. *)
Definition capped_poll {T} (t : Tick) (item : ItemPoll T) (cap : option (Race * Duration))
    : option (Race * Duration) * option ((T + str) + (Cut * Duration * Limit)) :=
  match cap with
  | None => (None, inl <$> item)
  | Some (race, after) =>
      let '(_, race, out) := race_poll (λ u : unit, (u, item)) t race tt in
      (Some (race, after),
       (λ o, match o with inl v => inl v | inr cut => inr (cut, after, ShutdownCap) end) <$> out)
  end.

(** One poll of [ended]. *)
Definition ended_poll {T} (t : Tick) (item : ItemPoll T) (s : RunState)
    : RunState * option ((T + str) + (Cut * Duration * Limit)) :=
  match rn_own s with
  | None => let '(cap, out) := capped_poll t item (rn_cap s) in ({| rn_cap := cap; rn_own := None |}, out)
  | Some (race, after, limit) =>
      let '(cap, race, out) := race_poll (capped_poll t item) t race (rn_cap s) in
      ({| rn_cap := cap; rn_own := Some (race, after, limit) |},
       (λ o, match o with inl v => v | inr cut => inr (cut, after, limit) end) <$> out)
  end.

Definition outcome_of {T} (secrets : list str) (ended : (T + str) + (Cut * Duration * Limit)) : Outcome T :=
  match ended with
  | inl (inl value) => Done value
  | inl (inr payload) => RunPanicked (redact_panic secrets payload)
  | inr (CutExpired, after, limit) => RunTimedOut after limit
  | inr (CutRefused, _, _) => RunRefused
  end.

Fixpoint run_polls {T} (secrets : list str) (polls : list (Tick * ItemPoll T)) (s : RunState) : option (Outcome T * list (Tick * ItemPoll T)) :=
  match polls with
  | [] => None
  | (t, item) :: polls =>
      let '(s, out) := ended_poll t item s in
      match out with
      | Some ended => Some (outcome_of secrets ended, polls)
      | None => run_polls secrets polls s
      end
  end.

(** [run] over the polls it is given: the outcome and the polls left, [None] while it waits. *)
Definition run {T} (timer : bool) (bound : Resolved) (cap : option Cap) (secrets : list str) (polls : list (Tick * ItemPoll T))
    : option (Outcome T * list (Tick * ItemPoll T)) :=
  match polls with
  | [] => None
  | (t, _) :: _ => run_polls secrets polls (run_start timer bound cap (tk_now t))
  end.
End Clock.
Arguments Done {T} _.
Arguments RunPanicked {T} _.
Arguments RunTimedOut {T} _ _.
Arguments RunRefused {T}.
