(* ===== verification/TimerFacts.v ===== *)
(** * TimerFacts: what the runner answers *)

From S2P Require Import Prelude Text Key Graph Redact Timer.
Local Open Scope nat_scope.

Section Facts.
Context (clock_max : N).

(** An expiry ending at [e], made no earlier than [lo]; [bounded] when the clock can name [e]; [R]
    holds once the clock has refused a sleep. *)
Record watching (lo e : N) (bounded : bool) (R : Prop) (x : Expiry) : Prop := {
  wt_until : ex_until x = if bounded then Some e else None;
  wt_sleep : ex_sleep x = Some e ∨ (ex_sleep x = None ∧ (e <= lo)%N);
  wt_refused : ex_refused x = true → R;
}.

Lemma watching_at R now until : watching now until true R (expiry_at now until).
Proof.
  unfold expiry_at. split; cbn [ex_until ex_sleep ex_refused]; [done| |done]. unfold is_zero. case_bool_decide; [right|left].
  - split; [done|lia].
  - f_equal. lia.
Qed.

Lemma watching_after R now d : watching now (now + d) (bool_decide (now + d <= clock_max)%N) R (expiry_after clock_max now d).
Proof.
  unfold expiry_after, checked_add. split; cbn [ex_until ex_sleep ex_refused]; [by case_bool_decide| |done]. unfold is_zero.
  case_bool_decide; [right|left]; [|done]. split; [done|lia].
Qed.

(** What one poll of an expiry answers. *)
Lemma expiry_poll_spec lo e bounded (R : Prop) x t : watching lo e bounded R x → tick_keeps t → (lo <= tk_now t)%N →
  (∀ u, tk_sleep t u = Some SleptRefused → R) →
  let '(x', cut) := expiry_poll t x in
  match cut with
  | Some CutExpired => (e <= tk_now t)%N
  | Some CutRefused => R
  | None => watching lo e bounded R x' ∧ (bounded = true → (tk_now t < e)%N)
  end.
Proof.
  intros [Hu Hs Hr] [Hd Hw] Hlo HR. unfold expiry_poll, expiry_passed. destruct (ex_refused x) eqn:Er; [by apply Hr|].
  destruct Hs as [Hs|[Hs He]]; rewrite Hs; [|lia]. destruct (tk_sleep t e) as [[]|] eqn:Es.
  - by apply Hd.
  - rewrite Hu. destruct bounded; [|split; [split; [done|by left|intros _; by eapply HR]|done]].
    case_bool_decide as Hp; [done|]. split; [split; [done|by left|intros _; by eapply HR]|]. intros _. lia.
  - split; [split; [done|by left|by rewrite Er]|]. intros _. by apply Hw.
Qed.

(** A race between polls. *)
Record racing (lo e : N) (bounded : bool) (R : Prop) (r : Race) : Prop := {
  rg_watching : watching lo e bounded R (rc_expiry r);
  rg_early : rc_early r = None;
}.

(** The wrapped future is polled first and outranks the bound; the bound ends the race in the
    first poll it has passed in. *)
Lemma race_poll_spec {F A} (poll : F → F * option A) lo e bounded (R : Prop) r t fut :
  racing lo e bounded R r → tick_keeps t → (lo <= tk_now t)%N → (∀ u, tk_sleep t u = Some SleptRefused → R) →
  let '(fut', r', out) := race_poll poll t r fut in
  fut' = (poll fut).1 ∧
  match (poll fut).2 with
  | Some v => out = Some (inl v)
  | None =>
      (out = Some (inr CutExpired) ∧ (e <= tk_now t)%N) ∨ (out = Some (inr CutRefused) ∧ R)
      ∨ (out = None ∧ racing lo e bounded R r' ∧ (bounded = true → (tk_now t < e)%N))
  end.
Proof.
  intros [Hw He] Hk Hlo HR. unfold race_poll. rewrite He. pose proof (expiry_poll_spec lo e bounded R (rc_expiry r) t Hw Hk Hlo HR) as Hx.
  destruct (poll fut) as [fut' out]. cbn [fst snd]. destruct (rc_first r); destruct (expiry_poll t (rc_expiry r)) as [x cut].
  - destruct out as [v|]; [by destruct cut|]. destruct cut as [[]|]; (split; [done|]); [by left|right; by left|].
    right. right. destruct Hx as [Hx1 Hx2]. split; [done|]. split; [by split|done].
  - destruct out as [v|]; [done|]. destruct cut as [[]|]; (split; [done|]); [by left|right; by left|].
    right. right. destruct Hx as [Hx1 Hx2]. split; [done|]. split; [by split|done].
Qed.

(** ** The runner *)

Context {T : Type} (timer : bool) (bound : Resolved) (cap : option Cap) (secrets : list str).

(** The instants the two limits end at, for a run whose first poll reads [now]. *)
Definition cap_end : option N := if timer then cap_at <$> cap else None.
Definition own_end (now : N) : option N :=
  match timer, bound with true, ResolvedAfter after _ => checked_add clock_max now after | _, _ => None end.

Definition before (t : Tick) (e : option N) : Prop := ∀ u, e = Some u → (tk_now t < u)%N.

(** How one poll ends the run: the item first, then the cap, then the item's own bound. *)
Inductive ended_by (R : Prop) (now : N) (t : Tick) : ItemPoll T → Outcome T → Prop :=
  | by_value v : ended_by R now t (Some (inl v)) (Done v)
  | by_panic p : ended_by R now t (Some (inr p)) (RunPanicked (redact_panic secrets p))
  | by_cap c : timer = true → cap = Some c → (cap_at c <= tk_now t)%N → ended_by R now t None (RunTimedOut (cap_after c) ShutdownCap)
  | by_own after limit : timer = true → bound = ResolvedAfter after limit → (now + after <= tk_now t)%N → before t cap_end →
      ended_by R now t None (RunTimedOut after limit)
  | by_refusal : timer = true → R → ended_by R now t None RunRefused.

Definition cap_ok (now : N) (R : Prop) (o : option (Race * Duration)) : Prop :=
  match o with
  | Some (r, after) => ∃ c, timer = true ∧ cap = Some c ∧ after = cap_after c ∧ racing now (cap_at c) true R r
  | None => cap_end = None
  end.

Definition own_ok (now : N) (R : Prop) (o : option (Race * Duration * Limit)) : Prop :=
  match o with
  | Some (r, after, limit) => timer = true ∧ bound = ResolvedAfter after limit
      ∧ racing now (now + after) (bool_decide (now + after <= clock_max)%N) R r
  | None => own_end now = None
  end.

Lemma run_start_ok now R : cap_ok now R (rn_cap (run_start clock_max timer bound cap now)) ∧ own_ok now R (rn_own (run_start clock_max timer bound cap now)).
Proof.
  unfold run_start, cap_ok, own_ok, cap_end, own_end. cbn [rn_cap rn_own]. split.
  - destruct timer; [|done]. destruct cap as [c|]; [|done]. simpl. exists c. split_and!; try done. split; [apply watching_at|done].
  - destruct timer; [|done]. destruct bound; [|done]. split_and!; try done. split; [apply watching_after|done].
Qed.

Lemma capped_poll_spec now (R : Prop) t (item : ItemPoll T) o : cap_ok now R o → tick_keeps t → (now <= tk_now t)%N →
  (∀ u, tk_sleep t u = Some SleptRefused → R) →
  let '(o', out) := capped_poll t item o in
  match out with
  | Some ended => (item = None → ended_by R now t item (outcome_of secrets ended)) ∧ (∀ v, item = Some v → ended = inl v)
  | None => item = None ∧ cap_ok now R o' ∧ before t cap_end
  end.
Proof.
  intros Hc Hk Hlo HR. unfold capped_poll. destruct o as [[r after]|]; simpl in Hc.
  - destruct Hc as (c & Ht & Hcap & -> & Hr).
    pose proof (race_poll_spec (λ u : unit, (u, item)) now (cap_at c) true R r t tt Hr Hk Hlo HR) as H.
    destruct (race_poll _ t r tt) as [[u r'] out]. destruct H as [_ H]. cbn [snd] in H.
    destruct item as [v|]; [subst out; simpl; split; [done|by intros ? [= <-]]|].
    destruct H as [[-> H]|[[-> H]|(-> & H & Hb)]]; simpl.
    + split; [|done]. intros _. by apply by_cap.
    + split; [|done]. intros _. by apply by_refusal.
    + split_and!; [done|by exists c|]. unfold cap_end. rewrite Ht, Hcap. intros u0 [= <-]. by apply Hb.
  - destruct item as [v|]; simpl; [split; [done|by intros ? [= <-]]|]. split_and!; [done|done|]. rewrite Hc. by intros ? ?.
Qed.

Lemma ended_poll_spec now (R : Prop) t (item : ItemPoll T) s : cap_ok now R (rn_cap s) → own_ok now R (rn_own s) → tick_keeps t →
  (now <= tk_now t)%N → (∀ u, tk_sleep t u = Some SleptRefused → R) →
  let '(s', out) := ended_poll t item s in
  match out with
  | Some ended => ended_by R now t item (outcome_of secrets ended)
  | None => item = None ∧ before t cap_end ∧ before t (own_end now) ∧ cap_ok now R (rn_cap s') ∧ own_ok now R (rn_own s')
  end.
Proof.
  intros Hc Ho Hk Hlo HR. unfold ended_poll. pose proof (capped_poll_spec now R t item (rn_cap s) Hc Hk Hlo HR) as Hcap.
  assert (Hitem : ∀ ended, (item = None → ended_by R now t item (outcome_of secrets ended)) ∧ (∀ v, item = Some v → ended = inl v) →
    ended_by R now t item (outcome_of secrets ended)).
  { intros ended [H1 H2]. destruct item as [v|]; [|by apply H1]. rewrite (H2 v eq_refl). destruct v; [apply by_value|apply by_panic]. }
  destruct (rn_own s) as [[[r after] limit]|] eqn:Eo; cbn [own_ok] in Ho.
  - destruct Ho as (Ht & Hb & Hr).
    pose proof (race_poll_spec (capped_poll t item) now (now + after) _ R r t (rn_cap s) Hr Hk Hlo HR) as H.
    destruct (race_poll (capped_poll t item) t r (rn_cap s)) as [[cap' r'] out]. destruct H as [Hcap' H].
    destruct (capped_poll t item (rn_cap s)) as [cap2 [ended|]]; cbn [fst snd] in *; subst cap'.
    + subst out. simpl. by apply Hitem.
    + destruct Hcap as (-> & Hc' & Hbef). destruct H as [[-> H]|[[-> H]|(-> & H & Hown)]]; simpl.
      * by apply by_own.
      * by apply by_refusal.
      * split_and!; try done. unfold own_end, checked_add. rewrite Ht, Hb. intros u. case_bool_decide; [|done]. intros [= <-]. by apply Hown.
  - destruct (capped_poll t item (rn_cap s)) as [cap2 [ended|]]; [by apply Hitem|].
    destruct Hcap as (-> & Hc' & Hbef). split_and!; try done. rewrite Ho. by intros ? ?.
Qed.

(** The polls a run may be given: a clock that keeps its contract and does not go back. *)
Definition polls_ok (now : N) (polls : list (Tick * ItemPoll T)) : Prop :=
  ∀ t item, (t, item) ∈ polls → tick_keeps t ∧ (now <= tk_now t)%N.

Definition refused_in (polls : list (Tick * ItemPoll T)) : Prop :=
  ∃ t item u, (t, item) ∈ polls ∧ tk_sleep t u = Some SleptRefused.

(** A poll that leaves the run waiting: the item pending and no limit passed. *)
Definition waited (now : N) (p : Tick * ItemPoll T) : Prop := p.2 = None ∧ before p.1 cap_end ∧ before p.1 (own_end now).

Lemma run_polls_spec now (R : Prop) polls s : cap_ok now R (rn_cap s) → own_ok now R (rn_own s) → polls_ok now polls →
  (refused_in polls → R) →
  match run_polls secrets polls s with
  | None => Forall (waited now) polls
  | Some (o, rest) => ∃ pre t item, polls = pre ++ (t, item) :: rest ∧ Forall (waited now) pre ∧ ended_by R now t item o
  end.
Proof.
  revert s. induction polls as [|[t item] polls IH]; intros s Hc Ho Hp HR; [constructor|]. cbn [run_polls].
  destruct (Hp t item) as [Hk Hlo]; [by left|]. assert (HRt : ∀ u, tk_sleep t u = Some SleptRefused → R).
  { intros u Hu. apply HR. exists t, item, u. split; [by left|done]. }
  pose proof (ended_poll_spec now R t item s Hc Ho Hk Hlo HRt) as H. destruct (ended_poll t item s) as [s' [ended|]].
  - exists [], t, item. split_and!; [done|constructor|done].
  - destruct H as (-> & Hb1 & Hb2 & Hc' & Ho').
    assert (Hp' : polls_ok now polls) by (intros t' i' Hin; apply (Hp t' i'); by right).
    assert (HR' : refused_in polls → R).
    { intros (t' & i' & u & Hin & Hu). apply HR. exists t', i', u. split; [by right|done]. }
    specialize (IH s' Hc' Ho' Hp' HR').
    destruct (run_polls secrets polls s') as [[o rest]|]; [|by constructor].
    destruct IH as (pre & t' & i' & -> & Hpre & He). exists ((t, None) :: pre), t', i'. split_and!; [done| |done]. by constructor.
Qed.
End Facts.

(** ** An item ready at once *)

Lemma race_poll_ready {F A} (poll : F → F * option A) t r fut v : (poll fut).2 = Some v → (race_poll poll t r fut).2 = Some (inl v).
Proof.
  intros H. unfold race_poll. destruct (if rc_first r then _ else _) as [x cut]. destruct (poll fut) as [f out]. cbn in H. by subst.
Qed.

Lemma capped_poll_ready {T} t (v : T + str) cap : (capped_poll t (Some v) cap).2 = Some (inl v).
Proof.
  unfold capped_poll. destruct cap as [[r after]|]; [|done].
  pose proof (race_poll_ready (λ u : unit, (u, Some v)) t r tt v eq_refl) as H. destruct (race_poll _ _ _ _) as [[f r'] out]. cbn in *. by subst.
Qed.

Lemma run_ready {T} clock_max timer bound cap secrets t (v : T + str) polls :
  run clock_max timer bound cap secrets ((t, Some v) :: polls) = Some (outcome_of secrets (inl v), polls).
Proof.
  unfold run. cbn [run_polls]. set (s := run_start _ _ _ _ _).
  assert (H : (ended_poll t (Some v) s).2 = Some (inl v)); [|destruct (ended_poll t (Some v) s) as [s' out]; cbn in H; by subst].
  unfold ended_poll. destruct (rn_own s) as [[[r after] limit]|].
  - pose proof (race_poll_ready (capped_poll t (Some v)) t r (rn_cap s) (inl v) (capped_poll_ready t v _)) as H.
    destruct (race_poll _ _ _ _) as [[f r'] out]. cbn in *. by subst.
  - pose proof (capped_poll_ready t v (rn_cap s)) as H. by destruct (capped_poll _ _ _).
Qed.
