(* ===== verification/Lifecycle.v ===== *)
(** * Lifecycle: phases, the hook plan and the connect walk

    [ulo/src/lifecycle/phase.rs], [ulo/src/lifecycle/connect.rs] and the timing configuration of
    [ulo/src/app/mod.rs]. User code, a constructor, a readiness attempt or a hook, is what each
    poll of its future answers. *)

From S2P Require Import Prelude Text Key Graph Redact Timer.
Local Open Scope nat_scope.

(** ** Phases *)

Inductive Phase := Wired | Connecting | Running | Stopping | Draining | Destroying | Closed.

#[export] Instance Phase_eq_dec : EqDecision Phase.
Proof. solve_decision. Defined.

(** [derive(PartialOrd)]: declaration order. *)
Definition phase_rank (p : Phase) : nat :=
  match p with Wired => 0 | Connecting => 1 | Running => 2 | Stopping => 3 | Draining => 4 | Destroying => 5 | Closed => 6 end.

Record PhaseCell := { pc_phase : Phase; pc_drain_ended : bool; pc_terminal_refused : nat }.

Definition phase_cell_new (initial : Phase) : PhaseCell :=
  {| pc_phase := initial; pc_drain_ended := false; pc_terminal_refused := 0 |}.

Definition advance (c : PhaseCell) (to : Phase) : PhaseCell :=
  if bool_decide (phase_rank (pc_phase c) < phase_rank to)
  then {| pc_phase := to; pc_drain_ended := pc_drain_ended c; pc_terminal_refused := pc_terminal_refused c |} else c.

(** A refused terminal execution is counted. *)
Definition allows_execution (c : PhaseCell) (terminal : bool) : PhaseCell * bool :=
  if negb terminal then (c, bool_decide (phase_rank (pc_phase c) < phase_rank Draining))
  else
    let allowed := bool_decide (phase_rank (pc_phase c) ≤ phase_rank Draining) && negb (pc_drain_ended c) in
    (if allowed then c
     else {| pc_phase := pc_phase c; pc_drain_ended := pc_drain_ended c; pc_terminal_refused := S (pc_terminal_refused c) |}, allowed).

Definition allows_singleton_lookup (c : PhaseCell) : bool := bool_decide (phase_rank (pc_phase c) < phase_rank Destroying).
Definition allows_load (c : PhaseCell) : bool := bool_decide (phase_rank (pc_phase c) < phase_rank Stopping).

Definition end_drain (c : PhaseCell) : PhaseCell :=
  {| pc_phase := pc_phase c; pc_drain_ended := true; pc_terminal_refused := pc_terminal_refused c |}.

(** ** Configuration *)

Record AppConfig := {
  ac_timer : bool;
  ac_drain_timeout : option Duration;
  ac_shutdown_timeout : option Duration;
  ac_hook_timeout : option Duration;
  ac_construct_timeout : option Duration;
  ac_hook_timeout_at : option Location;
  ac_construct_timeout_at : option Location;
}.

Definition SECOND : Duration := 1000000000%N.
Definition DEFAULT_DRAIN : Duration := (10 * SECOND)%N.
Definition DEFAULT_HOOK : Duration := (10 * SECOND)%N.
Definition DEFAULT_CONSTRUCT : Duration := (30 * SECOND)%N.

Definition config_defaults (c : AppConfig) : option Defaults :=
  if ac_timer c then Some {|
    df_hook_timeout := default DEFAULT_HOOK (ac_hook_timeout c);
    df_construct_timeout := default DEFAULT_CONSTRUCT (ac_construct_timeout c) |}
  else None.

Definition config_drain (c : AppConfig) : Duration :=
  if ac_timer c then default DEFAULT_DRAIN (ac_drain_timeout c) else 0%N.

Definition zero_default (set : option (Duration * Location)) (name : string) : option (string * Location) :=
  match set with Some (d, at_) => if is_zero d then Some (name, at_) else None | None => None end.

Definition zip_option {A B} (a : option A) (b : option B) : option (A * B) :=
  match a, b with Some a, Some b => Some (a, b) | _, _ => None end.

Definition zero_defaults (c : AppConfig) : list (string * Location) :=
  omap id [zero_default (zip_option (ac_hook_timeout c) (ac_hook_timeout_at c)) "hook_timeout"%string;
           zero_default (zip_option (ac_construct_timeout c) (ac_construct_timeout_at c)) "construct_timeout"%string].

Definition knobs_set (c : AppConfig) : list string :=
  omap (λ kd : string * option Duration, (λ _, kd.1) <$> kd.2)
    [("drain_timeout"%string, ac_drain_timeout c); ("shutdown_timeout"%string, ac_shutdown_timeout c);
     ("hook_timeout"%string, ac_hook_timeout c); ("construct_timeout"%string, ac_construct_timeout c)].

(** ** The hook plan *)

Inductive HookOwner := OwnerBinding (id : BindingId) | OwnerModule (id : ModuleId).

#[export] Instance HookOwner_eq_dec : EqDecision HookOwner.
Proof. solve_decision. Defined.

(** [after_last]: the position after the last of each module's singletons. *)
Definition after_last (g : Graph) (singletons : list BindingId) : gmap ModuleId nat :=
  foldl (λ m p, <[fb_origin (binding g p.2) := S p.1]> m) ∅ (imap pair singletons).

(** [placed] before its sort, with [floor]. *)
Definition place_modules (g : Graph) (singletons : list BindingId) (modules : list ModuleId) : list (nat * ModuleId) :=
  (foldl (λ '(floor, placed) m,
      let at_ := default floor (after_last g singletons !! m) in
      (Nat.max floor at_, placed ++ [(at_, m)])) (0, []) modules).2.

(** [sort_by_key], stable. *)
Fixpoint at_insert (x : nat * ModuleId) (l : list (nat * ModuleId)) : list (nat * ModuleId) :=
  match l with
  | [] => [x]
  | y :: l => if bool_decide (x.1 ≤ y.1) then x :: y :: l else y :: at_insert x l
  end.

Fixpoint at_sort (l : list (nat * ModuleId)) : list (nat * ModuleId) :=
  match l with [] => [] | x :: l => at_insert x (at_sort l) end.

(** The [while let Some(..) = next.peek()] loop: the modules placed at [i] or before, and the rest. *)
Fixpoint due (i : nat) (next : list (nat * ModuleId)) : list HookOwner * list (nat * ModuleId) :=
  match next with
  | (at_, m) :: rest =>
      if bool_decide (i < at_) then ([], next) else let '(ms, rest) := due i rest in (OwnerModule m :: ms, rest)
  | [] => ([], [])
  end.

Fixpoint weave (i : nat) (singletons : list BindingId) (next : list (nat * ModuleId)) : list HookOwner :=
  match singletons with
  | [] => (λ am : nat * ModuleId, OwnerModule am.2) <$> next
  | id :: singletons => let '(ms, next) := due i next in ms ++ OwnerBinding id :: weave (S i) singletons next
  end.

Definition hook_plan (g : Graph) (singletons : list BindingId) (modules : list ModuleId) : list HookOwner :=
  weave 0 singletons (at_sort (place_modules g singletons modules)).

Definition hooks_of (g : Graph) (owner : HookOwner) : list HookRecord :=
  match owner with
  | OwnerBinding id => br_hooks (fb_record (binding g id))
  | OwnerModule id => fm_hooks (module g id)
  end.

(** The key a hook failure names; a module's is its own type, under its qualifier. *)
Definition binding_key (b : FrozenBinding) : KeyName :=
  key_name_of (default (br_primary (fb_record b)) (head (keys (fb_record b)))) (br_kind (fb_record b)).

Definition owner_key (g : Graph) (owner : HookOwner) : KeyName :=
  match owner with
  | OwnerBinding id => binding_key (binding g id)
  | OwnerModule id =>
      let identity := fm_identity (module g id) in
      let q := default qualifier_none (mi_qualifier identity) in
      key_name_of (key_from_parts (mi_ty identity) (mi_ty_name identity) (q_id q) (q_name q)) BSingle
  end.

(** ** User code *)

(** [LookupError], of which a constructor's failed read keeps a nested construction's failure; any
    other is its text. *)
Inductive ReadError :=
  | ReadConstruct (key : KeyName) (reason : FailureReason)
  | ReadOther (text : str).

Inductive ConstructError := CtorFailed (error : BoxError) | CtorDependency (error : ReadError).

Inductive ConnectError :=
  | ConnectConstruct (key : KeyName) (module : ModuleName) (reason : FailureReason)
  | ConnectReadiness (key : KeyName) (module : ModuleName) (attempts : N) (reason : FailureReason)
  | ConnectHook (hook : HookKind) (key : KeyName) (reason : FailureReason).

Abbreviation Instances := (gmap BindingId Handle) (only parsing).

(** How a backoff ends: slept, refused at a reading of the clock, or with the whole check cut. *)
Inductive BackoffEnd := BackoffSlept | BackoffRefused (now : N) | BackoffCut (cut : Cut).

(** One attempt of a readiness check: its polls, or the whole check cut in it; then its backoff. *)
Record Try := { ty_attempt : list (Tick * ItemPoll (unit + ConstructError)) + Cut; ty_backoff : BackoffEnd }.

(** What user code answers: a constructor and a hook by the singletons built when it runs, a check
    by the attempt too. [uc_armed] is the clock as the whole-check bound is armed. *)
Class UserCode := {
  uc_ctor : BindingId → Instances → list (Tick * ItemPoll (Handle + ConstructError));
  uc_armed : BindingId → N;
  uc_check : BindingId → nat → Instances → Try;
  uc_hook : HookOwner → nat → option string → Instances → list (Tick * ItemPoll (unit + BoxError));
}.

(** What the walk does, for its order: a call of user code with the singletons it could read. *)
Inductive LifeEvent :=
  | CtorRan (id : BindingId) (built : list BindingId)
  | Stored (id : BindingId)
  | CheckRan (id : BindingId) (attempt : nat)
  | HookRan (kind : HookKind) (owner : HookOwner) (index : nat).

Record Walk := { wk_store : Instances; wk_log : list LifeEvent }.

Definition logged (w : Walk) (e : LifeEvent) : Walk := {| wk_store := wk_store w; wk_log := wk_log w ++ [e] |}.
Definition stored (w : Walk) (id : BindingId) (instance : Handle) : Walk :=
  {| wk_store := <[id := instance]> (wk_store w); wk_log := wk_log w ++ [Stored id] |}.

(** ** The connect walk *)

Section Connect.
Context (clock_max : N) {code : UserCode} (g : Graph) (config : AppConfig).

Definition secrets : list str := str_of <$> g_secrets g.

(** A step of the walk: [None] while user code it waits on has not ended. *)
Abbreviation Step := (option (Walk * option ConnectError)) (only parsing).

Definition reason_permanent (reason : FailureReason) : bool :=
  match reason with Errored r => be_permanent (rd_inner r) | _ => false end.

Definition read_permanent (e : ReadError) : bool :=
  match e with ReadConstruct _ reason => reason_permanent reason | ReadOther _ => false end.

(** [core_error], with the text the error prints. *)
Definition core_error (e : ReadError) (text : str) : Redacted :=
  {| rd_inner := {| be_messages := [text]; be_permanent := read_permanent e |}; rd_text := text |}.

Definition owner_of (from : ModuleId) (key : Key) : option ModuleId :=
  match lookup g from key with
  | Some (VBinding id) => Some (fb_origin (binding g id))
  | _ => fb_origin <$> find_first (λ b, existsb (λ k, key_eqb k key) (keys (fb_record b))) (g_bindings g)
  end.

Definition dependency_failure (b : FrozenBinding) (e : ReadError) : ConnectError :=
  match e with
  | ReadConstruct key reason =>
      ConnectConstruct key (module_name g (default (fb_origin b) (owner_of (fb_origin b) (kn_key key)))) reason
  | ReadOther text => ConnectConstruct (binding_key b) (module_name g (fb_origin b)) (Errored (core_error e text))
  end.

(** The failure of an outcome other than a value. *)
Definition cut_reason {T} (o : Outcome T) : option FailureReason :=
  match o with
  | Done _ => None
  | RunPanicked p => Some (Panicked p)
  | RunTimedOut after limit => Some (TimedOut after limit)
  | RunRefused => Some (shut_down secrets)
  end.

Definition build_singleton (w : Walk) (id : BindingId) : Step :=
  let b := binding g id in
  match br_recipe (fb_record b) with
  | Value instance => Some (stored w id instance, None)
  | Alias _ | Failed => Some (w, None)
  | Construct _ | Factory _ =>
      let bound := resolve_bound (br_construct_bound (fb_record b)) KindConstruction (config_defaults config) in
      let w := logged w (CtorRan id (elements (dom (wk_store w)))) in
      match run clock_max (ac_timer config) bound None secrets (uc_ctor id (wk_store w)) with
      | None => None
      | Some (Done (inl instance), _) => Some (stored w id instance, None)
      | Some (Done (inr (CtorDependency e)), _) => Some (w, Some (dependency_failure b e))
      | Some (Done (inr (CtorFailed e)), _) =>
          Some (w, Some (ConnectConstruct (binding_key b) (module_name g (fb_origin b)) (Errored (redacted secrets e))))
      | Some (o, _) =>
          Some (w, (λ reason, ConnectConstruct (binding_key b) (module_name g (fb_origin b)) reason) <$> cut_reason o)
      end
  end.

(** ** Readiness checks *)

Definition U32_MAX : N := (2 ^ 32 - 1)%N.

(** The counter after [n] attempts, and [made] in the attempt after them. *)
Definition attempts_after (n : nat) : N := (N.of_nat n mod 2 ^ 32)%N.
Definition made_after (n : nat) : N := N.min (attempts_after n + 1) U32_MAX.

Definition construct_permanent (e : ConstructError) : bool :=
  match e with
  | CtorFailed e => be_permanent e
  | CtorDependency e => read_permanent e
  end.

(** [construct_error]; [read_text] is what [LookupError::Construct] prints. *)
Definition construct_error (read_text : KeyName → FailureReason → str) (e : ConstructError) : Redacted :=
  match e with
  | CtorFailed e => redacted secrets e
  | CtorDependency e => core_error e match e with ReadConstruct key reason => read_text key reason | ReadOther text => text end
  end.

(** What the whole-check bound reports when it cuts the loop; without the bound nothing cuts it. *)
Definition whole_cut (whole : Resolved) (cut : Cut) : option FailureReason :=
  match ac_timer config, whole, cut with
  | true, ResolvedAfter after limit, CutExpired => Some (TimedOut after limit)
  | true, ResolvedAfter _ _, CutRefused => Some (shut_down secrets)
  | _, _, _ => None
  end.

(** The reason of a backoff the clock refused at [now], after an attempt that ended by [reason]. *)
Definition backoff_refused (whole : Resolved) (armed now : N) (reason : FailureReason) : FailureReason :=
  let passed := match ac_timer config, whole with
                | true, ResolvedAfter after limit =>
                    match checked_add clock_max armed after with
                    | Some ends => if bool_decide (ends <= now)%N then Some (TimedOut after limit) else None
                    | None => None
                    end
                | _, _ => None
                end in
  match passed with
  | Some reason => reason
  | None => match reason with Errored last => shut_down_after secrets last | _ => shut_down secrets end
  end.

(** How one attempt ends: passed, ended for good, or to be retried. *)
Inductive AttemptEnd := AttemptPassed | AttemptFinal (reason : FailureReason) | AttemptAgain (reason : FailureReason).

Definition attempt_end (read_text : KeyName → FailureReason → str) (o : Outcome (unit + ConstructError)) : AttemptEnd :=
  match o with
  | Done (inl _) => AttemptPassed
  | Done (inr e) =>
      let reason := Errored (construct_error read_text e) in
      if construct_permanent e then AttemptFinal reason else AttemptAgain reason
  | RunPanicked p => AttemptFinal (Panicked p)
  | RunTimedOut after limit => AttemptAgain (TimedOut after limit)
  | RunRefused => AttemptFinal (shut_down secrets)
  end.

(** The loop of [run_readiness], after [n] attempts: the attempts made and why it failed. Each turn
    of it is one attempt, so [fuel] bounds the attempts. *)
Fixpoint check_loop (read_text : KeyName → FailureReason → str) (fuel : nat) (w : Walk) (id : BindingId) (ready : ReadyRecord) (whole : Resolved) (n : nat)
    : option (Walk * nat * option FailureReason) :=
  match fuel with
  | 0 => None
  | S fuel =>
      let try_ := uc_check id n (wk_store w) in
      let w := logged w (CheckRan id n) in
      match ty_attempt try_ with
      | inr cut => (λ reason, (w, S n, Some reason)) <$> whole_cut whole cut
      | inl polls =>
          match run clock_max (ac_timer config) (resolve_bound (ry_attempt ready) KindReadinessAttempt (config_defaults config)) None secrets polls with
          | None => None
          | Some (o, _) =>
              match attempt_end read_text o with
              | AttemptPassed => Some (w, S n, None)
              | AttemptFinal reason => Some (w, S n, Some reason)
              | AttemptAgain reason =>
                  if bool_decide (N.of_nat (ry_retries ready) < made_after n)%N then Some (w, S n, Some reason)
                  else if ac_timer config && negb (is_zero (ry_backoff ready)) then
                    match ty_backoff try_ with
                    | BackoffSlept => check_loop read_text fuel w id ready whole (S n)
                    | BackoffRefused now => Some (w, S n, Some (backoff_refused whole (uc_armed id) now reason))
                    | BackoffCut cut => (λ reason, (w, S n, Some reason)) <$> whole_cut whole cut
                    end
                  else check_loop read_text fuel w id ready whole (S n)
              end
          end
      end
  end.

Definition run_readiness (read_text : KeyName → FailureReason → str) (fuel : nat) (w : Walk) (id : BindingId) (ready : ReadyRecord) : Step :=
  let b := binding g id in
  let whole := resolve_bound (ry_whole ready) KindReadinessWhole (config_defaults config) in
  match check_loop read_text fuel w id ready whole 0 with
  | None => None
  | Some (w, _, None) => Some (w, None)
  | Some (w, n, Some reason) =>
      Some (w, Some (ConnectReadiness (binding_key b) (module_name g (fb_origin b)) (attempts_after n) reason))
  end.

(** ** Hooks and the walk *)

(** [run_hook]: [Some None] for a binding never built. *)
Definition run_hook (store : Instances) (owner : HookOwner) (index : nat) (hook : HookRecord) (signal : option string) (cap : option Cap)
    : option (option (Outcome (unit + BoxError))) :=
  let bound := resolve_bound (hk_bound hook) KindHook (config_defaults config) in
  let runs := (λ o, Some o.1) <$> run clock_max (ac_timer config) bound cap secrets (uc_hook owner index signal store) in
  match owner with
  | OwnerBinding id => match store !! id with None => Some None | Some _ => runs end
  | OwnerModule _ => runs
  end.

Definition hook_failure (o : option (Outcome (unit + BoxError))) : option FailureReason :=
  match o with
  | None | Some (Done (inl _)) => None
  | Some (Done (inr e)) => Some (Errored (redacted secrets e))
  | Some o => cut_reason o
  end.

(** Runs each step in turn, to the first failure. *)
Fixpoint each {A} (f : Walk → A → Step) (w : Walk) (l : list A) : Step :=
  match l with
  | [] => Some (w, None)
  | x :: l =>
      match f w x with
      | None => None
      | Some (w, Some e) => Some (w, Some e)
      | Some (w, None) => each f w l
      end
  end.

Definition startup_hook (kind : HookKind) (owner : HookOwner) (w : Walk) (ih : nat * HookRecord) : Step :=
  if bool_decide (hk_kind ih.2 = kind) then
    match run_hook (wk_store w) owner ih.1 ih.2 None None with
    | None => None
    | Some o =>
        let w := match o with None => w | Some _ => logged w (HookRan kind owner ih.1) end in
        Some (w, (λ reason, ConnectHook kind (owner_key g owner) reason) <$> hook_failure o)
    end
  else Some (w, None).

Definition run_startup_hooks (kind : HookKind) (w : Walk) (singletons : list BindingId) (modules : list ModuleId) : Step :=
  each (λ w owner, each (startup_hook kind owner) w (imap pair (hooks_of g owner))) w (hook_plan g singletons modules).

Definition connect_one (read_text : KeyName → FailureReason → str) (fuel : nat) (w : Walk) (id : BindingId) : Step :=
  match (match wk_store w !! id with Some _ => Some (w, None) | None => build_singleton w id end) with
  | Some (w, None) =>
      match br_ready (fb_record (binding g id)) with
      | Some ready => run_readiness read_text fuel w id ready
      | None => Some (w, None)
      end
  | other => other
  end.

Definition and_then (s : Step) (next : Walk → Step) : Step :=
  match s with Some (w, None) => next w | other => other end.

Definition connect (read_text : KeyName → FailureReason → str) (fuel : nat) (w : Walk) (singletons : list BindingId) (modules : list ModuleId) : Step :=
  and_then (each (connect_one read_text fuel) w singletons) (λ w,
  and_then (run_startup_hooks OnModuleInit w singletons modules) (λ w,
  run_startup_hooks OnApplicationBootstrap w singletons modules)).
End Connect.
