(* ===== verification/PlanFacts.v ===== *)
(** * PlanFacts: the order hooks run in *)

From S2P Require Import Prelude Text Key Graph Redact Timer Lifecycle.
Local Open Scope nat_scope.

Definition owner_binding (o : HookOwner) : option BindingId := match o with OwnerBinding id => Some id | OwnerModule _ => None end.
Definition owner_module (o : HookOwner) : option ModuleId := match o with OwnerModule m => Some m | OwnerBinding _ => None end.

(** ** Where a module is placed *)

Lemma after_last_lookup g singletons m :
  after_last g singletons !! m = None ↔ ∀ id, id ∈ singletons → fb_origin (binding g id) ≠ m.
Proof.
  unfold after_last. induction singletons as [|id l IH] using rev_ind.
  { simpl. rewrite lookup_empty. split; [intros _ id ?%not_elem_of_nil; done|done]. }
  rewrite imap_app, foldl_app. simpl. rewrite lookup_insert_None, IH. split.
  - intros [H1 H2] x [Hx|Hx%list_elem_of_singleton]%elem_of_app; [by apply H1|]. by subst.
  - intros H. split; [intros x Hx; apply H; set_solver|]. apply H. set_solver.
Qed.

(** The position of a module with singletons is right after its last one. *)
Lemma after_last_Some g singletons m n : after_last g singletons !! m = Some n →
  ∃ pre id post, singletons = pre ++ id :: post ∧ fb_origin (binding g id) = m ∧ n = S (length pre)
    ∧ ∀ x, x ∈ post → fb_origin (binding g x) ≠ m.
Proof.
  unfold after_last. revert n. induction singletons as [|id l IH] using rev_ind; intros n.
  { simpl. by rewrite lookup_empty. }
  rewrite imap_app, foldl_app. simpl. rewrite Nat.add_0_r. intros [[<- <-]|[Hne Hn]]%lookup_insert_Some.
  - exists l, id, []. split_and!; try done. by intros x ?%not_elem_of_nil.
  - destruct (IH n Hn) as (pre & x & post & -> & H1 & H2 & H3). exists pre, x, (post ++ [id]). rewrite <- app_assoc. split_and!; try done.
    intros y [Hy|Hy%list_elem_of_singleton]%elem_of_app; [by apply H3|]. by subst.
Qed.

(** [floor] never passes the last singleton. *)
Lemma place_modules_app g singletons ms m :
  place_modules g singletons (ms ++ [m]) = place_modules g singletons ms
    ++ [(default (foldl (λ a p, Nat.max a p.1) 0 (place_modules g singletons ms)) (after_last g singletons !! m), m)].
Proof.
  unfold place_modules. rewrite foldl_app. simpl.
  assert (H : ∀ ms, (foldl (λ '(floor, placed) m, (Nat.max floor (default floor (after_last g singletons !! m)),
      placed ++ [(default floor (after_last g singletons !! m), m)])) (0, []) ms).1
    = foldl (λ a p, Nat.max a p.1) 0 (foldl (λ '(floor, placed) m, (Nat.max floor (default floor (after_last g singletons !! m)),
      placed ++ [(default floor (after_last g singletons !! m), m)])) (0, []) ms).2).
  { clear ms. intros ms. induction ms as [|x ms IH] using rev_ind; [done|]. rewrite foldl_app. simpl.
    destruct (foldl _ _ ms) as [floor placed]. simpl in *. by rewrite foldl_app, <- IH. }
  specialize (H ms). destruct (foldl _ _ ms) as [floor placed]. simpl in *. by rewrite H.
Qed.

Lemma max_fold_ge (l : list (nat * ModuleId)) a p : p ∈ l → p.1 ≤ foldl (λ a p, Nat.max a p.1) a l.
Proof.
  assert (Hm : ∀ (l : list (nat * ModuleId)) a, a ≤ foldl (λ a p, Nat.max a p.1) a l).
  { clear l a. induction l as [|q l IH]; intros a; simpl; [done|]. etrans; [|apply IH]. lia. }
  revert a. induction l as [|q l IH]; intros a; [by intros ?%not_elem_of_nil|].
  intros [->|Hp]%elem_of_cons; simpl; [etrans; [|apply Hm]; lia|by apply IH].
Qed.

Lemma max_fold_le (l : list (nat * ModuleId)) a n : a ≤ n → (∀ p, p ∈ l → p.1 ≤ n) → foldl (λ a p, Nat.max a p.1) a l ≤ n.
Proof.
  revert a. induction l as [|q l IH]; intros a Ha H; simpl; [done|]. apply IH; [|intros p Hp; apply H; by right].
  specialize (H q ltac:(by left)). lia.
Qed.

Lemma place_modules_snd g singletons ms : (place_modules g singletons ms).*2 = ms.
Proof. induction ms as [|m ms IH] using rev_ind; [done|]. by rewrite place_modules_app, fmap_app, IH. Qed.

Lemma after_last_bound g singletons m n : after_last g singletons !! m = Some n → n ≤ length singletons.
Proof. intros (pre & id & post & -> & _ & -> & _)%after_last_Some. rewrite length_app. simpl. lia. Qed.

Lemma place_modules_bound g singletons ms p : p ∈ place_modules g singletons ms → p.1 ≤ length singletons.
Proof.
  revert p. induction ms as [|m ms IH] using rev_ind; intros p; [by intros ?%not_elem_of_nil|].
  rewrite place_modules_app. intros [Hp| ->%list_elem_of_singleton]%elem_of_app; [by apply IH|]. simpl.
  destruct (after_last g singletons !! m) as [n|] eqn:E; simpl; [by eapply after_last_bound|]. apply max_fold_le; [lia|done].
Qed.

(** A module's position: after its last singleton, or no earlier than every module before it. *)
Lemma place_modules_at g singletons before m after :
  ∃ at_, (place_modules g singletons (before ++ m :: after)) !! length before = Some (at_, m)
    ∧ match after_last g singletons !! m with
      | Some n => at_ = n
      | None => ∀ p, p ∈ place_modules g singletons before → p.1 ≤ at_
      end
    ∧ take (length before) (place_modules g singletons (before ++ m :: after)) = place_modules g singletons before.
Proof.
  assert (H : ∀ after, ∃ rest, place_modules g singletons ((before ++ [m]) ++ after) = place_modules g singletons (before ++ [m]) ++ rest).
  { clear after. intros after. induction after as [|x after IH] using rev_ind; [exists []; by rewrite !app_nil_r|].
    destruct IH as [rest IH]. rewrite app_assoc, place_modules_app, IH. eexists. by rewrite <- app_assoc. }
  destruct (H after) as [rest Hr]. rewrite <- app_assoc in Hr. simpl in Hr. rewrite Hr, place_modules_app, <- app_assoc.
  assert (Hl : length (place_modules g singletons before) = length before).
  { rewrite <- (place_modules_snd g singletons before) at 2. by rewrite length_fmap. }
  eexists. split_and!.
  - rewrite lookup_app_r by lia. rewrite Hl, Nat.sub_diag. reflexivity.
  - destruct (after_last g singletons !! m) as [n|]; [done|]. intros p Hp. simpl. by apply max_fold_ge.
  - by rewrite take_app_length' by done.
Qed.

(** ** The sort *)

Definition at_le (x y : nat * ModuleId) : Prop := x.1 ≤ y.1.

Lemma at_insert_perm x l : at_insert x l ≡ₚ x :: l.
Proof. induction l as [|y l IH]; simpl; [done|]. case_bool_decide; [done|]. by rewrite IH, Permutation_swap. Qed.

Lemma at_sort_perm l : at_sort l ≡ₚ l.
Proof. induction l as [|x l IH]; simpl; [done|]. by rewrite at_insert_perm, IH. Qed.

Lemma at_insert_sorted x l : StronglySorted at_le l → StronglySorted at_le (at_insert x l).
Proof.
  induction 1 as [|y l Hl IH Hy]; simpl; [by repeat constructor|]. case_bool_decide as Hxy.
  - constructor; [by constructor|]. constructor; [done|]. eapply Forall_impl; [exact Hy|]. unfold at_le. lia.
  - constructor; [done|]. rewrite at_insert_perm. constructor; [unfold at_le; lia|done].
Qed.

Lemma at_sort_sorted l : StronglySorted at_le (at_sort l).
Proof. induction l as [|x l IH]; simpl; [constructor|]. by apply at_insert_sorted. Qed.

Lemma at_insert_sublist x l : l `sublist_of` at_insert x l.
Proof. induction l as [|y l IH]; simpl; [apply sublist_nil_l|]. case_bool_decide; [by apply sublist_cons|by apply sublist_skip]. Qed.

(** An element goes before every one that follows it and is not smaller. *)
Lemma at_insert_before x y l : StronglySorted at_le l → y ∈ l → x.1 ≤ y.1 → [x; y] `sublist_of` at_insert x l.
Proof.
  induction 1 as [|z l Hl IH Hz]; [by intros ?%not_elem_of_nil|]. intros Hy Hxy. simpl. case_bool_decide as Hxz.
  - apply sublist_skip, singleton_sublist_l. done.
  - apply sublist_cons. apply elem_of_cons in Hy as [->|Hy]; [lia|]. by apply IH.
Qed.

Lemma at_sort_stable x y l : [x; y] `sublist_of` l → x.1 ≤ y.1 → [x; y] `sublist_of` at_sort l.
Proof.
  intros Hs Hxy. induction l as [|z l IH]; [by apply sublist_nil_r in Hs|]. simpl. apply sublist_cons_r in Hs as [Hs|(k & E & Hs)].
  - etrans; [by apply IH|]. apply at_insert_sublist.
  - injection E as -> <-. apply at_insert_before; [apply at_sort_sorted| |done]. rewrite at_sort_perm. by apply singleton_sublist_l.
Qed.

(** ** The weave *)

Lemma due_spec i next : StronglySorted at_le next →
  ∃ k, (due i next).1 = OwnerModule <$> (take k next).*2 ∧ (due i next).2 = drop k next
    ∧ (∀ p, p ∈ take k next → p.1 ≤ i) ∧ ∀ p, p ∈ drop k next → i < p.1.
Proof.
  induction 1 as [|[a m] l Hl IH Ha]; simpl; [by exists 0; split_and!; [..|intros p ?%not_elem_of_nil|intros p ?%not_elem_of_nil]|].
  case_bool_decide as Hi.
  - exists 0. split_and!; [done|done|by intros p ?%not_elem_of_nil|]. intros p [->|Hp]%elem_of_cons; [done|].
    rewrite Forall_forall in Ha. specialize (Ha p Hp). unfold at_le in Ha. simpl in Ha. lia.
  - destruct IH as (k & H1 & H2 & H3 & H4). destruct (due i l) as [ms rest]. simpl in *. exists (S k). simpl. split_and!; [by rewrite H1|done| |done].
    intros p [->|Hp]%elem_of_cons; [simpl; lia|by apply H3].
Qed.

Lemma omap_owner_modules (ms : list ModuleId) : omap owner_binding (OwnerModule <$> ms) = [] ∧ omap owner_module (OwnerModule <$> ms) = ms.
Proof. induction ms as [|m ms [IH1 IH2]]; [done|]. simpl. split; [done|by f_equal]. Qed.

(** The weave keeps the singletons and the modules, each in order. *)
Lemma weave_orders i s next : StronglySorted at_le next →
  omap owner_binding (weave i s next) = s ∧ omap owner_module (weave i s next) = next.*2.
Proof.
  revert i next. induction s as [|id s IH]; intros i next Hs; cbn [weave].
  - change (λ am : nat * ModuleId, OwnerModule am.2) with (OwnerModule ∘ (snd : nat * ModuleId → ModuleId)).
    rewrite list_fmap_compose. apply omap_owner_modules.
  - destruct (due_spec i next Hs) as (k & H1 & H2 & _ & _). destruct (due i next) as [ms rest]. cbn [fst snd] in *. subst.
    assert (Hd : StronglySorted at_le (drop k next)).
    { rewrite <- (take_drop k next) in Hs. by apply StronglySorted_app in Hs as (_ & _ & ?). }
    destruct (IH (S i) (drop k next) Hd) as [IH1 IH2]. destruct (omap_owner_modules (take k next).*2) as [O1 O2].
    rewrite !omap_app. cbn [omap list_omap owner_binding owner_module]. rewrite O1, O2, IH1, IH2. split; [done|].
    by rewrite <- fmap_app, take_drop.
Qed.

(** In a list of modules alone: no binding before one of them. *)
Lemma modules_split (xs : list (nat * ModuleId)) pre m post : OwnerModule <$> xs.*2 = pre ++ OwnerModule m :: post →
  omap owner_binding pre = [] ∧ ∃ at_, (at_, m) ∈ xs.
Proof.
  intros E. split.
  - destruct (omap_owner_modules xs.*2) as [H _]. rewrite E, omap_app in H. by apply app_eq_nil in H as [? _].
  - assert (Hin : OwnerModule m ∈ OwnerModule <$> xs.*2) by (rewrite E; set_solver).
    apply list_elem_of_fmap in Hin as (m' & [= <-] & ([a m'] & -> & Hin)%list_elem_of_fmap). by exists a.
Qed.

(** The singletons before a module in the weave are those before its position. *)
Lemma weave_split i s next m pre post : StronglySorted at_le next → (∀ p, p ∈ next → i ≤ p.1 ≤ i + length s) →
  weave i s next = pre ++ OwnerModule m :: post → ∃ at_, (at_, m) ∈ next ∧ omap owner_binding pre = take (at_ - i) s.
Proof.
  revert i next pre. induction s as [|id s IH]; intros i next pre Hs Hb E; cbn [weave] in E.
  - change (λ am : nat * ModuleId, OwnerModule am.2) with (OwnerModule ∘ (snd : nat * ModuleId → ModuleId)) in E.
    rewrite list_fmap_compose in E. apply modules_split in E as (-> & a & Ha). exists a. by rewrite take_nil.
  - destruct (due_spec i next Hs) as (k & H1 & H2 & H3 & H4). destruct (due i next) as [ms rest]. cbn [fst snd] in *. subst ms rest.
    assert (Hd : StronglySorted at_le (drop k next)).
    { rewrite <- (take_drop k next) in Hs. by apply StronglySorted_app in Hs as (_ & _ & ?). }
    apply app_eq_inv in E as [(l & E & El)|(l & -> & El)].
    + destruct l as [|o l]; [done|]. injection El as <- El. apply modules_split in E as (-> & a & Ha).
      assert (Hn : (a, m) ∈ next) by (rewrite <- (take_drop k next); set_solver). exists a. split; [done|].
      specialize (H3 _ Ha). specialize (Hb _ Hn). simpl in *. by replace (a - i) with 0 by lia.
    + destruct l as [|o l]; [done|]. injection El as <- El. apply (IH (S i) (drop k next)) in El as (a & Ha & El); [|done|].
      * exists a. split; [rewrite <- (take_drop k next); set_solver|]. rewrite omap_app. destruct (omap_owner_modules (take k next).*2) as [-> _].
        specialize (H4 _ Ha). simpl in H4. replace (a - i) with (S (a - S i)) by lia. change (id :: omap owner_binding l = id :: take (a - S i) s).
        by rewrite El.
      * intros p Hp. specialize (H4 _ Hp). assert (Hn : p ∈ next) by (rewrite <- (take_drop k next); set_solver).
        specialize (Hb _ Hn). simpl in *. lia.
Qed.

(** ** The plan *)

(** What the plan promises: every singleton and module once; singletons in connect order; a
    module's own hooks right after its last singleton; a module with none after every module
    before it in collection order. *)
Record plan_ok (g : Graph) (singletons : list BindingId) (modules : list ModuleId) (plan : list HookOwner) : Prop := {
  po_perm : plan ≡ₚ (OwnerBinding <$> singletons) ++ (OwnerModule <$> modules);
  po_bindings : omap owner_binding plan = singletons;
  po_after : ∀ pre m post id, plan = pre ++ OwnerModule m :: post → id ∈ singletons → fb_origin (binding g id) = m → OwnerBinding id ∈ pre;
  po_right_after : ∀ pre m post, plan = pre ++ OwnerModule m :: post → (∃ id, id ∈ singletons ∧ fb_origin (binding g id) = m) →
    ∃ id, last (omap owner_binding pre) = Some id ∧ fb_origin (binding g id) = m;
  po_collection : ∀ a b, [a; b] `sublist_of` modules → (∀ id, id ∈ singletons → fb_origin (binding g id) ≠ b) →
    [OwnerModule a; OwnerModule b] `sublist_of` plan;
}.

Lemma owners_perm (plan : list HookOwner) : plan ≡ₚ (OwnerBinding <$> omap owner_binding plan) ++ (OwnerModule <$> omap owner_module plan).
Proof.
  induction plan as [|[id|m] plan IH]; [done| |].
  - simpl. by constructor.
  - simpl. by rewrite IH at 1; rewrite Permutation_middle.
Qed.

Lemma elem_of_owner_binding id (pre : list HookOwner) : id ∈ omap owner_binding pre ↔ OwnerBinding id ∈ pre.
Proof.
  rewrite list_elem_of_omap. split; [intros ([x|m] & Hx & [= ->]); done|]. intros H. by exists (OwnerBinding id).
Qed.

Lemma owner_modules_sublist (plan : list HookOwner) a b : [a; b] `sublist_of` omap owner_module plan → [OwnerModule a; OwnerModule b] `sublist_of` plan.
Proof.
  induction plan as [|[id|m] plan IH]; simpl; intros H; [by apply sublist_nil_r in H|apply sublist_cons; by apply IH|].
  apply sublist_cons_r in H as [H|(k & E & H)]; [apply sublist_cons; by apply IH|]. injection E as -> <-.
  apply sublist_skip, singleton_sublist_l. apply singleton_sublist_l in H. apply list_elem_of_omap in H as ([x|m'] & Hx & [= ->]). done.
Qed.

Lemma sublist_pair_split {A} (a b : A) l : [a; b] `sublist_of` l → ∃ l1 l2, l = l1 ++ b :: l2 ∧ a ∈ l1.
Proof.
  intros H. apply sublist_cons_l in H as (k1 & k2 & -> & H). apply singleton_sublist_l in H.
  apply list_elem_of_split in H as (x & y & ->). exists (k1 ++ a :: x), y. rewrite <- app_assoc. split; [done|]. set_solver.
Qed.

Lemma placed_at g singletons modules a m n : (a, m) ∈ place_modules g singletons modules → after_last g singletons !! m = Some n → a = n.
Proof.
  intros [i Hi]%list_elem_of_lookup Hn.
  assert (Hm : modules !! i = Some m) by (rewrite <- (place_modules_snd g singletons modules), list_lookup_fmap; by rewrite Hi).
  destruct (place_modules_at g singletons (take i modules) m (drop (S i) modules)) as (a' & H1 & H2 & _).
  rewrite Hn in H2. rewrite take_drop_middle in H1 by done. rewrite length_take_le in H1 by (apply lookup_lt_Some in Hm; lia).
  rewrite Hi in H1. by injection H1 as <-.
Qed.

(** The singletons before a module that has some: up to its last one. *)
Lemma plan_prefix g singletons modules pre m post : hook_plan g singletons modules = pre ++ OwnerModule m :: post →
  (∃ id, id ∈ singletons ∧ fb_origin (binding g id) = m) →
  ∃ x l, singletons = omap owner_binding pre ++ l ∧ last (omap owner_binding pre) = Some x ∧ fb_origin (binding g x) = m
    ∧ ∀ y, y ∈ l → fb_origin (binding g y) ≠ m.
Proof.
  unfold hook_plan. intros E (id & Hid & Ho). apply (weave_split 0) in E as (a & Ha & Hpre); [|apply at_sort_sorted|].
  2: { intros p Hp. rewrite at_sort_perm in Hp. apply place_modules_bound in Hp. lia. }
  rewrite at_sort_perm in Ha. destruct (after_last g singletons !! m) as [n|] eqn:El; [|rewrite after_last_lookup in El; by exfalso; apply (El id)].
  rewrite (placed_at _ _ _ _ _ _ Ha El), Nat.sub_0_r in Hpre. apply after_last_Some in El as (l1 & x & l2 & Heq & Hx & Hn & Hl2).
  exists x, l2. rewrite Hpre, Hn, Heq. replace (S (length l1)) with (length (l1 ++ [x])) by (rewrite length_app; simpl; lia).
  replace (l1 ++ x :: l2) with ((l1 ++ [x]) ++ l2) by by rewrite <- app_assoc. by rewrite take_app_length, last_snoc.
Qed.

Lemma hook_plan_ok g singletons modules : plan_ok g singletons modules (hook_plan g singletons modules).
Proof.
  destruct (weave_orders 0 singletons _ (at_sort_sorted (place_modules g singletons modules))) as [HB HM].
  fold (hook_plan g singletons modules) in HB, HM. split.
  - rewrite (owners_perm (hook_plan g singletons modules)), HB, HM, at_sort_perm. by rewrite place_modules_snd.
  - done.
  - intros pre m post id E Hid Ho. apply plan_prefix in E as (x & l & Heq & _ & _ & Hl); [|by exists id].
    apply elem_of_owner_binding. rewrite Heq in Hid. apply elem_of_app in Hid as [Hid|Hid]; [done|]. by apply Hl in Hid.
  - intros pre m post E Hm. apply plan_prefix in E as (x & l & _ & Hx & Ho & _); [|done]. by exists x.
  - intros a b Hab Hnone. apply owner_modules_sublist. rewrite HM.
    destruct (sublist_pair_split a b modules Hab) as (l1 & l2 & -> & Ha).
    destruct (place_modules_at g singletons l1 b l2) as (n & H1 & H2 & H3). rewrite (proj2 (after_last_lookup _ _ _) Hnone) in H2.
    rewrite <- (place_modules_snd g singletons l1) in Ha. apply list_elem_of_fmap in Ha as ([na a'] & -> & Hina).
    change [(na, a').2; b] with ([(na, a'); (n, b)].*2). apply fmap_sublist. apply at_sort_stable; [|by apply (H2 _ Hina)].
    rewrite <- (take_drop_middle (place_modules g singletons (l1 ++ b :: l2)) (length l1) (n, b)) by done. rewrite H3.
    apply list_elem_of_split in Hina as (x & y & ->). rewrite <- app_assoc. apply sublist_inserts_l. simpl. apply sublist_skip.
    apply sublist_inserts_l, sublist_skip, sublist_nil_l.
Qed.
