(* ===== verification/ConnectFacts.v ===== *)
(** * ConnectFacts: what the connect walk runs, and when *)

From S2P Require Import Prelude Text Key Graph Redact Timer Lifecycle PlanFacts.
Local Open Scope nat_scope.

(** A call of user code; a check counts once, whatever its attempts. *)
Inductive Call :=
  | CallCtor (id : BindingId)
  | CallCheck (id : BindingId)
  | CallHook (kind : HookKind) (owner : HookOwner) (index : nat).

Definition call_of (e : LifeEvent) : option Call :=
  match e with
  | CtorRan id _ => Some (CallCtor id)
  | CheckRan id 0 => Some (CallCheck id)
  | HookRan kind owner index => Some (CallHook kind owner index)
  | _ => None
  end.

Definition calls (w : Walk) : list Call := omap call_of (wk_log w).

Lemma calls_logged w e : calls (logged w e) = calls w ++ option_list (call_of e).
Proof. unfold calls, logged. simpl. rewrite omap_app. simpl. by destruct (call_of e). Qed.

Lemma calls_stored w id i : calls (stored w id i) = calls w.
Proof. unfold calls, stored. simpl. rewrite omap_app. simpl. by rewrite app_nil_r. Qed.

Lemma omap_bind {A B} (f : A → option B) (l : list A) : omap f l = l ≫= λ x, option_list (f x).
Proof.
  induction l as [|x l IH]; [done|]. change (omap f (x :: l)) with (match f x with Some y => y :: omap f l | None => omap f l end).
  change ((x :: l) ≫= λ x, option_list (f x)) with (option_list (f x) ++ (l ≫= λ x, option_list (f x))). rewrite IH. by destruct (f x).
Qed.

Section Connect.
Context (clock_max : N) {code : UserCode} (g : Graph) (config : AppConfig) (read_text : KeyName → FailureReason → str).

(** The bindings an instance is stored for, and those a constructor is called for. *)
Definition constructs (id : BindingId) : bool :=
  match br_recipe (fb_record (binding g id)) with Construct _ | Factory _ => true | _ => false end.
Definition builds (id : BindingId) : bool :=
  match br_recipe (fb_record (binding g id)) with Construct _ | Factory _ | Value _ => true | _ => false end.

Definition build_calls (id : BindingId) : list Call :=
  (if constructs id then [CallCtor id] else [])
  ++ match br_ready (fb_record (binding g id)) with Some _ => [CallCheck id] | None => [] end.

Definition owner_built (owner : HookOwner) : bool := match owner with OwnerBinding id => builds id | OwnerModule _ => true end.

Definition hook_calls (kind : HookKind) (owner : HookOwner) : list Call :=
  if owner_built owner
  then omap (λ ih : nat * HookRecord, if bool_decide (hk_kind ih.2 = kind) then Some (CallHook kind owner ih.1) else None) (imap pair (hooks_of g owner))
  else [].

(** Everything a walk over [singletons] and [modules] calls, in order. *)
Definition schedule (singletons : list BindingId) (modules : list ModuleId) : list Call :=
  (singletons ≫= build_calls) ++ (hook_plan g singletons modules ≫= hook_calls OnModuleInit)
  ++ (hook_plan g singletons modules ≫= hook_calls OnApplicationBootstrap).

(** A step that ran [cs] of the calls [sched] says: a part of them, all unless it failed. *)
Definition ran (w : Walk) (sched : list Call) (r : Walk * option ConnectError) : Prop :=
  ∃ cs, calls r.1 = calls w ++ cs ∧ cs `prefix_of` sched ∧ (r.2 = None → cs = sched).

Lemma ran_nothing w e : ran w [] (w, e).
Proof. exists []. rewrite app_nil_r. by split_and!. Qed.

Lemma ran_app w s1 s2 r1 r2 : ran w s1 r1 → r1.2 = None → ran r1.1 s2 r2 → ran w (s1 ++ s2) r2.
Proof.
  intros (c1 & E1 & _ & F1) Hn (c2 & E2 & P2 & F2). specialize (F1 Hn) as ->. exists (s1 ++ c2). rewrite E2, E1, <- app_assoc. split_and!; [done| |].
  - by apply prefix_app.
  - intros He. by rewrite F2.
Qed.

Lemma ran_stop w s1 s2 r : ran w s1 r → r.2 ≠ None → ran w (s1 ++ s2) r.
Proof. intros (cs & E & P & _) He. exists cs. split_and!; [done|by apply prefix_app_r|done]. Qed.

(** A walk over [all], [done] of it behind: an invariant [I] of what is behind, and [J] of the walk
    whether or not it fails. *)
Lemma each_ran {A} (f : Walk → A → option (Walk * option ConnectError)) (sched : A → list Call) (I : list A → Walk → Prop) (J : Walk → Prop) (all : list A) :
  (∀ before x after w r, all = before ++ x :: after → I before w → J w → f w x = Some r →
     ran w (sched x) r ∧ J r.1 ∧ (r.2 = None → I (before ++ [x]) r.1)) →
  ∀ l before w r, all = before ++ l → I before w → J w → each f w l = Some r → ran w (l ≫= sched) r ∧ J r.1 ∧ (r.2 = None → I all r.1).
Proof.
  intros Hf l. induction l as [|x l IH]; intros before w r Hall HI HJ; cbn [each].
  - intros [= <-]. rewrite app_nil_r in Hall. subst. split_and!; [apply ran_nothing|done|done].
  - destruct (f w x) as [[w1 e1]|] eqn:E; [|done]. destruct (Hf before x l w (w1, e1) Hall HI HJ E) as (Hr & HJ1 & HI1).
    change ((x :: l) ≫= sched) with (sched x ++ (l ≫= sched)). destruct e1 as [e1|].
    + intros [= <-]. split_and!; [by apply ran_stop|done|done].
    + intros Hl. apply (IH (before ++ [x])) in Hl as (Hr' & HJ' & HI'); [|by rewrite <- app_assoc|by apply HI1|done].
      split_and!; [by eapply ran_app|done|done].
Qed.

(** ** Building *)

(** [w'] is [w] with the calls and the instance of one binding more, its log grown alike. *)
Lemma build_singleton_ran w id r : build_singleton clock_max g config w id = Some r →
  ran w (if constructs id then [CallCtor id] else []) r
  ∧ (r.2 = None → ∀ d, is_Some (wk_store r.1 !! d) ↔ is_Some (wk_store w !! d) ∨ (d = id ∧ builds id = true))
  ∧ ∀ x built, CtorRan x built ∈ wk_log r.1 → CtorRan x built ∈ wk_log w ∨ (x = id ∧ built = elements (dom (wk_store w))).
Proof.
  unfold build_singleton, constructs, builds.
  assert (Hin : ∀ inst d, is_Some (<[id := inst]> (wk_store w) !! d) ↔ is_Some (wk_store w !! d) ∨ (d = id ∧ true = true)).
  { intros inst d. rewrite lookup_insert_is_Some'. split; [intros [<-|?]; [by right|by left]|intros [?|[-> _]]; [by right|by left]]. }
  assert (Hid : ∀ d, is_Some (wk_store w !! d) ↔ is_Some (wk_store w !! d) ∨ (d = id ∧ false = true)).
  { intros d. split; [by left|by intros [?|[_ ?]]]. }
  assert (Hctor : ∀ w' e, (wk_log w' = wk_log w ++ [CtorRan id (elements (dom (wk_store w)))]
      ∨ wk_log w' = (wk_log w ++ [CtorRan id (elements (dom (wk_store w)))]) ++ [Stored id]) →
    ran w [CallCtor id] (w', e) ∧ ∀ x built, CtorRan x built ∈ wk_log w' → CtorRan x built ∈ wk_log w ∨ (x = id ∧ built = elements (dom (wk_store w)))).
  { intros w' e Hl. split.
    - exists [CallCtor id]. split_and!; [|done|done]. unfold calls. cbn [fst]. destruct Hl as [-> | ->]; rewrite !omap_app; [done|]. by rewrite app_nil_r.
    - intros x built. destruct Hl as [-> | ->]; rewrite !elem_of_app, !list_elem_of_singleton; naive_solver. }
  destruct (br_recipe (fb_record (binding g id))) as [ctor|ctor|instance|target|] eqn:Er.
  1,2: set (w1 := logged w _); destruct (run _ _ _ _ _ _) as [[o rest]|]; [|done];
    destruct o as [[instance|[e|e]]|p|after limit|]; intros [= <-];
    match goal with |- ran _ _ (?w', ?e) ∧ _ => destruct (Hctor w' e) as [H1 H2]; [by (left + right)|] end;
    (split_and!; [exact H1| |exact H2]); cbn [snd fst stored wk_store w1 logged]; try done; intros _; apply Hin.
  - intros [= <-]. split_and!; [by exists []; rewrite app_nil_r; cbn [fst]; rewrite calls_stored|intros _; apply Hin|].
    intros x built. cbn [fst stored wk_log]. rewrite elem_of_app, list_elem_of_singleton. by intros [?|?]; [left|].
  - intros [= <-]. split_and!; [apply ran_nothing|intros _; apply Hid|by left].
  - intros [= <-]. split_and!; [apply ran_nothing|intros _; apply Hid|by left].
Qed.

(** ** Readiness checks *)

(** A step that builds nothing. *)
Definition kept_store (w w' : Walk) : Prop :=
  wk_store w' = wk_store w ∧ ∀ x built, CtorRan x built ∈ wk_log w' → CtorRan x built ∈ wk_log w.

Lemma kept_refl w : kept_store w w.
Proof. by split. Qed.

Lemma kept_logged w e : (∀ x built, e ≠ CtorRan x built) → kept_store w (logged w e).
Proof. intros He. split; [done|]. intros x built. simpl. rewrite elem_of_app, list_elem_of_singleton. intros [?|E]; [done|]. by destruct (He x built). Qed.

Lemma kept_trans w1 w2 w3 : kept_store w1 w2 → kept_store w2 w3 → kept_store w1 w3.
Proof. intros [S1 L1] [S2 L2]. split; [by rewrite S2|]. intros x built H. by apply L1, L2. Qed.

(** The attempts of one check in a log, in order. *)
Definition check_attempts (id : BindingId) (log : list LifeEvent) : list nat :=
  omap (λ e, match e with CheckRan x n => if bool_decide (x = id) then Some n else None | _ => None end) log.

Lemma made_exact n : (N.of_nat n < U32_MAX)%N → made_after n = (N.of_nat n + 1)%N.
Proof. intros H. unfold made_after, attempts_after, U32_MAX in *. rewrite N.mod_small; lia. Qed.

(** The loop after [n] attempts, [k] made when it ends: attempts [n] to [k - 1] ran, at most
    [retries + 1] in all. *)
Record check_ran (id : BindingId) (ready : ReadyRecord) (n : nat) (w w' : Walk) (k : nat) : Prop := {
  cr_kept : kept_store w w';
  cr_more : n < k;
  cr_calls : calls w' = calls w ++ (if bool_decide (n = 0) then [CallCheck id] else []);
  cr_attempts : check_attempts id (wk_log w') = check_attempts id (wk_log w) ++ seq n (k - n);
  cr_bound : n ≤ ry_retries ready → (N.of_nat (ry_retries ready) < U32_MAX)%N → k ≤ S (ry_retries ready);
}.

Lemma check_ran_one id ready n w : check_ran id ready n w (logged w (CheckRan id n)) (S n).
Proof.
  split; [by apply kept_logged|lia| | |lia].
  - rewrite calls_logged. by destruct n.
  - unfold check_attempts. simpl. rewrite omap_app. simpl. rewrite bool_decide_eq_true_2 by done. by replace (S n - n) with 1 by lia.
Qed.

Lemma check_ran_again id ready n w w' k : ¬ (N.of_nat (ry_retries ready) < made_after n)%N →
  check_ran id ready (S n) (logged w (CheckRan id n)) w' k → check_ran id ready n w w' k.
Proof.
  intros Hmade [K M C A B]. destruct (check_ran_one id ready n w) as [K1 _ C1 A1 _]. split; [by eapply kept_trans|lia| | |].
  - rewrite C, C1. rewrite (bool_decide_eq_false_2 (S n = 0)) by done. by rewrite app_nil_r.
  - rewrite A, A1, <- app_assoc. f_equal. replace (S n - n) with 1 by lia. by replace (k - n) with (S (k - S n)) by lia.
  - intros Hn Hmax. apply B; [|done]. rewrite made_exact in Hmade by lia. lia.
Qed.

Lemma check_loop_ran fuel w id ready whole n w' k res :
  check_loop clock_max g config read_text fuel w id ready whole n = Some (w', k, res) → check_ran id ready n w w' k.
Proof.
  revert w n. induction fuel as [|fuel IH]; intros w n; cbn [check_loop]; [done|].
  assert (Hstop : ∀ res', Some (logged w (CheckRan id n), S n, res') = Some (w', k, res) → check_ran id ready n w w' k).
  { intros res' [= <- <- _]. apply check_ran_one. }
  assert (Hcut : ∀ cut, (λ reason, (logged w (CheckRan id n), S n, Some reason)) <$> whole_cut g config whole cut = Some (w', k, res) →
    check_ran id ready n w w' k).
  { intros cut (reason & _ & E)%fmap_Some. apply (Hstop (Some reason)). by rewrite E. }
  destruct (ty_attempt _) as [polls|cut]; [|apply Hcut]. destruct (run _ _ _ _ _ polls) as [[o rest]|]; [|done].
  destruct (attempt_end _ _ o) as [|reason|reason]; [apply Hstop|apply Hstop|]. case_bool_decide as Hmade; [apply Hstop|].
  destruct (ac_timer config && _).
  - destruct (ty_backoff _) as [|now|cut]; [|apply Hstop|apply Hcut]. intros H. by eapply check_ran_again, IH.
  - intros H. by eapply check_ran_again, IH.
Qed.

(** More fuel than attempts allowed changes nothing. *)
Lemma check_loop_fuel fuel w id ready whole n : (N.of_nat (ry_retries ready) < U32_MAX)%N → n ≤ ry_retries ready → ry_retries ready - n < fuel →
  check_loop clock_max g config read_text fuel w id ready whole n
  = check_loop clock_max g config read_text (S (ry_retries ready - n)) w id ready whole n.
Proof.
  intros Hmax. revert w n. induction fuel as [|fuel IH]; intros w n Hn Hf; [lia|]. cbn [check_loop].
  destruct (ty_attempt _) as [polls|cut]; [|done]. destruct (run _ _ _ _ _ polls) as [[o rest]|]; [|done].
  destruct (attempt_end _ _ o) as [|reason|reason]; [done|done|]. case_bool_decide as Hmade; [done|].
  rewrite made_exact in Hmade by lia.
  assert (Hgo : check_loop clock_max g config read_text fuel (logged w (CheckRan id n)) id ready whole (S n)
    = check_loop clock_max g config read_text (ry_retries ready - n) (logged w (CheckRan id n)) id ready whole (S n)).
  { rewrite IH by lia. by replace (S (ry_retries ready - S n)) with (ry_retries ready - n) by lia. }
  destruct (ac_timer config && _); [|done]. by destruct (ty_backoff _).
Qed.

(** How attempt [n] of a check ends, unless the whole check is cut in it. *)
Definition attempt_ends (id : BindingId) (ready : ReadyRecord) (store : gmap BindingId Handle) (n : nat) : option AttemptEnd :=
  match ty_attempt (uc_check id n store) with
  | inl polls =>
      (λ o, attempt_end g read_text o.1)
        <$> run clock_max (ac_timer config) (resolve_bound (ry_attempt ready) KindReadinessAttempt (config_defaults config)) None (secrets g) polls
  | inr _ => None
  end.

(** How a check of [k] attempts ends: as the last one did, after the last retry; or cut in it or in
    its backoff. *)
Definition check_result (id : BindingId) (ready : ReadyRecord) (whole : Resolved) (store : gmap BindingId Handle) (k : nat) (res : option FailureReason) : Prop :=
  let try_ := uc_check id (k - 1) store in
  match attempt_ends id ready store (k - 1) with
  | Some AttemptPassed => res = None
  | Some (AttemptFinal reason) => res = Some reason
  | Some (AttemptAgain reason) =>
      (k = S (ry_retries ready) ∧ res = Some reason)
      ∨ (k ≤ ry_retries ready ∧ ac_timer config = true ∧ is_zero (ry_backoff ready) = false
         ∧ match ty_backoff try_ with
           | BackoffSlept => False
           | BackoffRefused now => res = Some (backoff_refused clock_max g config whole (uc_armed id) now reason)
           | BackoffCut cut => is_Some res ∧ res = whole_cut g config whole cut
           end)
  | None => ∃ cut, ty_attempt try_ = inr cut ∧ is_Some res ∧ res = whole_cut g config whole cut
  end.

Lemma check_loop_ends fuel w id ready whole n w' k res : (N.of_nat (ry_retries ready) < U32_MAX)%N → n ≤ ry_retries ready →
  check_loop clock_max g config read_text fuel w id ready whole n = Some (w', k, res) →
  (∀ i, n ≤ i → S i < k → ∃ reason, attempt_ends id ready (wk_store w) i = Some (AttemptAgain reason))
  ∧ check_result id ready whole (wk_store w) k res.
Proof.
  intros Hmax. revert w n. induction fuel as [|fuel IH]; intros w n Hn; cbn [check_loop]; [done|].
  assert (Hone : S n - 1 = n) by lia. pose proof (eq_refl (attempt_ends id ready (wk_store w) n)) as Ea. unfold attempt_ends in Ea at 2.
  assert (Hstop : ∀ res', check_result id ready whole (wk_store w) (S n) res' → Some (logged w (CheckRan id n), S n, res') = Some (w', k, res) →
    (∀ i, n ≤ i → S i < k → ∃ reason, attempt_ends id ready (wk_store w) i = Some (AttemptAgain reason))
    ∧ check_result id ready whole (wk_store w) k res).
  { intros res' Hr [= <- <- <-]. split; [lia|done]. }
  assert (Hcut : ∀ cut, (λ reason, (logged w (CheckRan id n), S n, Some reason)) <$> whole_cut g config whole cut = Some (w', k, res) →
    w' = logged w (CheckRan id n) ∧ k = S n ∧ is_Some res ∧ res = whole_cut g config whole cut).
  { intros cut (reason & E & [= -> -> ->])%fmap_Some. rewrite E. by split_and!. }
  destruct (ty_attempt (uc_check id n (wk_store w))) as [polls|cut] eqn:Et.
  2: { intros (-> & -> & Hs & Hc)%Hcut. split; [lia|]. unfold check_result. rewrite Hone, Ea. eauto. }
  destruct (run _ _ _ _ _ polls) as [[o rest]|]; [|done]. cbn [fmap option_fmap option_map fst] in Ea.
  destruct (attempt_end _ _ o) as [|reason|reason]; [apply Hstop; unfold check_result; by rewrite Hone, Ea..|].
  rewrite made_exact by lia. case_bool_decide as Hmade; [apply Hstop; unfold check_result; rewrite Hone, Ea; left; split; [lia|done]|].
  assert (Hgo : check_loop clock_max g config read_text fuel (logged w (CheckRan id n)) id ready whole (S n) = Some (w', k, res) →
    (∀ i, n ≤ i → S i < k → ∃ reason, attempt_ends id ready (wk_store w) i = Some (AttemptAgain reason))
    ∧ check_result id ready whole (wk_store w) k res).
  { intros (H1 & H2)%IH; [|lia]. split; [|done]. intros i Hi Hk. destruct (decide (i = n)) as [-> |]; [eauto|]. apply H1; lia. }
  destruct (ac_timer config && _) eqn:Eb; [|done]. apply andb_prop in Eb as [Eb1 Eb2%negb_true_iff].
  destruct (ty_backoff _) as [|now|cut] eqn:Eo; [done| |].
  - apply Hstop. unfold check_result. rewrite Hone, Ea, Eo. right. split_and!; [lia|done..].
  - intros (-> & -> & Hs & Hc)%Hcut. split; [lia|]. unfold check_result. rewrite Hone, Ea, Eo. right. split_and!; [lia|done..].
Qed.

Lemma run_readiness_ran fuel w id ready r : run_readiness clock_max g config read_text fuel w id ready = Some r →
  ran w [CallCheck id] r ∧ kept_store w r.1.
Proof.
  unfold run_readiness. destruct (check_loop _ _ _ _ _ _ _ _ _ _) as [[[w' k] res]|] eqn:E; [|done].
  apply check_loop_ran in E as [K _ C _ _]. assert (Hran : ∀ e, ran w [CallCheck id] (w', e)).
  { intros e. exists [CallCheck id]. by split_and!. }
  destruct res; intros [= <-]; by split.
Qed.

(** ** Hooks *)

(** The store says which owners have an instance to run on. *)
Definition store_says (w : Walk) (owner : HookOwner) : Prop :=
  match owner with OwnerBinding id => is_Some (wk_store w !! id) ↔ builds id = true | OwnerModule _ => True end.

Definition hook_call (kind : HookKind) (owner : HookOwner) (ih : nat * HookRecord) : list Call :=
  if owner_built owner && bool_decide (hk_kind ih.2 = kind) then [CallHook kind owner ih.1] else [].

Lemma hook_calls_bind kind owner : hook_calls kind owner = imap pair (hooks_of g owner) ≫= hook_call kind owner.
Proof.
  unfold hook_calls, hook_call. destruct (owner_built owner).
  - rewrite omap_bind. apply list_bind_ext; [|done]. intros ih. simpl. by case_bool_decide.
  - simpl. by induction (imap pair (hooks_of g owner)).
Qed.

Lemma startup_hook_ran kind owner w ih r : store_says w owner → startup_hook clock_max g config kind owner w ih = Some r →
  ran w (hook_call kind owner ih) r ∧ kept_store w r.1.
Proof.
  intros Hs. unfold startup_hook, hook_call. case_bool_decide as Hk; [|intros [= <-]; rewrite andb_false_r; split; [apply ran_nothing|apply kept_refl]].
  rewrite andb_true_r. assert (Hrun : ∀ o, ran w [CallHook kind owner ih.1] (logged w (HookRan kind owner ih.1), o)
    ∧ kept_store w (logged w (HookRan kind owner ih.1))).
  { intros o. split; [|by apply kept_logged]. exists [CallHook kind owner ih.1]. split_and!; [|done|done]. cbn [fst]. by rewrite calls_logged. }
  unfold run_hook. destruct owner as [id|m]; cbn [store_says owner_built] in *.
  - destruct (wk_store w !! id) as [inst|] eqn:Es.
    + rewrite (proj1 Hs) by done. destruct (run _ _ _ _ _ _) as [[o rest]|]; [|done]. simpl. intros [= <-]. apply Hrun.
    + destruct (builds id); [by destruct (proj2 Hs eq_refl)|]. intros [= <-]. split; [apply ran_nothing|apply kept_refl].
  - destruct (run _ _ _ _ _ _) as [[o rest]|]; [|done]. simpl. intros [= <-]. apply Hrun.
Qed.

Lemma store_says_kept w w' owner : kept_store w w' → store_says w owner → store_says w' owner.
Proof. intros [E _]. unfold store_says. by rewrite E. Qed.

Lemma run_startup_hooks_ran kind w singletons modules r :
  (∀ owner, owner ∈ hook_plan g singletons modules → store_says w owner) →
  run_startup_hooks clock_max g config kind w singletons modules = Some r →
  ran w (hook_plan g singletons modules ≫= hook_calls kind) r ∧ kept_store w r.1.
Proof.
  intros Hsay H. unfold run_startup_hooks in H.
  eapply (each_ran _ (hook_calls kind) (λ _ _, True) (kept_store w) (hook_plan g singletons modules)) in H as (H1 & H2 & _);
    [done| |by instantiate (1 := [])|done|apply kept_refl].
  intros before owner after w1 r1 Hall _ K1 H1. rewrite hook_calls_bind.
  eapply (each_ran _ (hook_call kind owner) (λ _ _, True) (kept_store w) (imap pair (hooks_of g owner))) in H1 as (R & K & _);
    [done| |by instantiate (1 := [])|done|done].
  intros b ih a w2 r2 _ _ K2 H2. apply startup_hook_ran in H2 as [R2 K2'].
  - split_and!; [done|by eapply kept_trans|done].
  - apply (store_says_kept w); [done|]. apply Hsay. rewrite Hall. set_solver.
Qed.

(** ** The walk *)

(** Every constructor called saw the instances of all the singletons before its own. *)
Definition ctors_see (singletons : list BindingId) (w0 w : Walk) : Prop :=
  ∀ x built, CtorRan x built ∈ wk_log w → CtorRan x built ∈ wk_log w0
    ∨ ∃ pre post, singletons = pre ++ x :: post ∧ ∀ d, d ∈ pre → builds d = true → d ∈ built.

Definition built_so_far (w0 : Walk) (before : list BindingId) (w : Walk) : Prop :=
  ∀ d, is_Some (wk_store w !! d) ↔ is_Some (wk_store w0 !! d) ∨ (d ∈ before ∧ builds d = true).

Lemma ctors_see_kept singletons w0 w w' : kept_store w w' → ctors_see singletons w0 w → ctors_see singletons w0 w'.
Proof. intros [_ K] H x built Hin. by apply H, K. Qed.

Lemma connect_one_ran fuel singletons w0 before id after w r : singletons = before ++ id :: after → NoDup singletons →
  (∀ d, d ∈ singletons → wk_store w0 !! d = None) → built_so_far w0 before w → ctors_see singletons w0 w →
  connect_one clock_max g config read_text fuel w id = Some r →
  ran w (build_calls id) r ∧ ctors_see singletons w0 r.1 ∧ (r.2 = None → built_so_far w0 (before ++ [id]) r.1).
Proof.
  intros Hall Hnd H0 HB HS. unfold connect_one, build_calls. assert (Hid : wk_store w !! id = None).
  { apply eq_None_not_Some. intros [[i Hi]|[Hin _]]%HB; [rewrite H0 in Hi; [done|rewrite Hall; set_solver]|].
    rewrite Hall in Hnd. apply NoDup_app in Hnd as (_ & Hnd & _). apply (Hnd id Hin). by left. }
  rewrite Hid. destruct (build_singleton clock_max g config w id) as [[w1 e1]|] eqn:E; [|done].
  apply build_singleton_ran in E as (R1 & S1 & L1). cbn [fst snd] in *.
  assert (HS1 : ctors_see singletons w0 w1).
  { intros x built Hin. apply L1 in Hin as [Hin|[-> ->]]; [by apply HS|]. right. exists before, after. split; [done|].
    intros d Hd Hb. apply elem_of_elements, elem_of_dom, HB. by right. }
  assert (HB1 : e1 = None → built_so_far w0 (before ++ [id]) w1).
  { intros He d. rewrite (S1 He d), (HB d), elem_of_app, list_elem_of_singleton. naive_solver. }
  destruct e1 as [e1|]; [intros [= <-]; split_and!; [by apply ran_stop|done|done]|].
  destruct (br_ready _) as [ready|]; [|intros [= <-]; split_and!; [by rewrite app_nil_r|done|done]].
  intros [R2 K2]%run_readiness_ran. split_and!; [by eapply ran_app|by eapply ctors_see_kept|].
  intros He d. rewrite (proj1 K2). by apply HB1.
Qed.

Lemma connect_ran fuel w singletons modules r : NoDup singletons → (∀ d, d ∈ singletons → wk_store w !! d = None) →
  connect clock_max g config read_text fuel w singletons modules = Some r →
  ran w (schedule singletons modules) r ∧ ctors_see singletons w r.1 ∧ (r.2 = None → built_so_far w singletons r.1).
Proof.
  intros Hnd H0. unfold connect, schedule. destruct (each _ w singletons) as [[w1 e1]|] eqn:E1; [|done].
  eapply (each_ran _ build_calls (built_so_far w) (ctors_see singletons w) singletons) in E1 as (R1 & S1 & B1);
    [|intros b x a w' r' Ha HB HS H; by eapply connect_one_ran|by instantiate (1 := [])| |by left].
  2: { intros d. split; [by left|]. intros [?|[?%not_elem_of_nil _]]; done. }
  destruct e1 as [e1|]; cbn [and_then fst snd] in *; [intros [= <-]; split_and!; [by apply ran_stop|done|done]|].
  specialize (B1 eq_refl).
  assert (Hsay : ∀ owner, owner ∈ hook_plan g singletons modules → store_says w1 owner).
  { intros [id|m] Hin; [|done]. simpl. assert (Hs : id ∈ singletons).
    { rewrite <- (po_bindings _ _ _ _ (hook_plan_ok g singletons modules)). by apply elem_of_owner_binding. }
    rewrite (B1 id), (H0 id Hs). split; [intros [[i Hi]|[_ ?]]; done|]. by right. }
  destruct (run_startup_hooks _ _ _ OnModuleInit w1 singletons modules) as [[w2 e2]|] eqn:E2; [|done].
  apply run_startup_hooks_ran in E2 as [R2 K2]; [|done]. cbn [fst snd] in *.
  destruct e2 as [e2|].
  { cbn [and_then]. intros [= <-]. split_and!; [|by eapply ctors_see_kept|done]. eapply ran_app; [done|done|]. by apply ran_stop. }
  cbn [and_then]. intros [R3 K3]%run_startup_hooks_ran; [|intros owner Ho; eapply store_says_kept; [done|by apply Hsay]].
  split_and!.
  - eapply ran_app; [done|done|]. by eapply ran_app.
  - eapply ctors_see_kept; [done|]. by eapply ctors_see_kept.
  - intros _ d. rewrite (proj1 K3), (proj1 K2). apply B1.
Qed.

(** ** The walk returns *)

(** User code whose every call comes to an end: by itself or by its bound. *)
Record code_ends : Prop := {
  ce_ctor : ∀ id store, constructs id = true →
    is_Some (run clock_max (ac_timer config) (resolve_bound (br_construct_bound (fb_record (binding g id))) KindConstruction (config_defaults config)) None
      (secrets g) (uc_ctor id store));
  ce_check : ∀ id ready n store, br_ready (fb_record (binding g id)) = Some ready →
    let whole := resolve_bound (ry_whole ready) KindReadinessWhole (config_defaults config) in
    match ty_attempt (uc_check id n store) with
    | inl _ => is_Some (attempt_ends id ready store n)
    | inr cut => is_Some (whole_cut g config whole cut)
    end ∧ match ty_backoff (uc_check id n store) with BackoffCut cut => is_Some (whole_cut g config whole cut) | _ => True end;
  ce_hook : ∀ owner index hook store, is_Some (run_hook clock_max g config store owner index hook None None);
}.

(** A check's retries, counted in [u32] without wrapping and within the fuel. *)
Definition retries_fit (fuel : nat) : Prop :=
  ∀ id ready, br_ready (fb_record (binding g id)) = Some ready → ry_retries ready < fuel ∧ (N.of_nat (ry_retries ready) < U32_MAX)%N.

Lemma each_returns {A} (f : Walk → A → option (Walk * option ConnectError)) w l : (∀ w x, is_Some (f w x)) → is_Some (each f w l).
Proof.
  intros Hf. revert w. induction l as [|x l IH]; intros w; cbn [each]; [done|]. destruct (Hf w x) as [[w1 [e1|]] ->]; [done|]. apply IH.
Qed.

Lemma check_loop_returns fuel w id ready n : code_ends → br_ready (fb_record (binding g id)) = Some ready → (N.of_nat (ry_retries ready) < U32_MAX)%N →
  n ≤ ry_retries ready → ry_retries ready - n < fuel →
  is_Some (check_loop clock_max g config read_text fuel w id ready (resolve_bound (ry_whole ready) KindReadinessWhole (config_defaults config)) n).
Proof.
  intros Hc Hr Hmax. revert w n. induction fuel as [|fuel IH]; intros w n Hn Hf; [lia|]. cbn [check_loop].
  destruct (ce_check Hc id ready n (wk_store w) Hr) as [H1 H2]. unfold attempt_ends in H1.
  destruct (ty_attempt _) as [polls|cut]; [|by destruct H1 as [reason ->]]. destruct (run _ _ _ _ _ polls) as [[o rest]|]; [|by destruct H1].
  destruct (attempt_end _ _ o) as [|reason|reason]; [done|done|]. rewrite made_exact by lia. case_bool_decide as Hmade; [done|].
  destruct (ac_timer config && _); [|apply IH; lia]. destruct (ty_backoff _) as [|now|cut]; [apply IH; lia|done|by destruct H2 as [? ->]].
Qed.

Lemma build_singleton_returns w id : code_ends → is_Some (build_singleton clock_max g config w id).
Proof.
  intros Hc. pose proof (ce_ctor Hc id) as H. unfold build_singleton, constructs in *.
  destruct (br_recipe _); try done; cbn [wk_store logged]; destruct (H (wk_store w) eq_refl) as [[o rest] ->]; by destruct o as [[?|[?|?]]|?|? ?|].
Qed.

Lemma connect_one_returns fuel w id : code_ends → retries_fit fuel → is_Some (connect_one clock_max g config read_text fuel w id).
Proof.
  intros Hc Hf. unfold connect_one. assert (H : is_Some (match wk_store w !! id with Some _ => Some (w, None) | None => build_singleton clock_max g config w id end)).
  { destruct (wk_store w !! id); [done|]. by apply build_singleton_returns. }
  destruct H as [[w1 [e1|]] ->]; [done|]. destruct (br_ready _) as [ready|] eqn:Er; [|done]. destruct (Hf id ready Er). unfold run_readiness.
  destruct (check_loop_returns fuel w1 id ready 0) as [[[w2 k] [reason|]] ->]; try done; lia.
Qed.

Lemma run_startup_hooks_returns kind w singletons modules : code_ends → is_Some (run_startup_hooks clock_max g config kind w singletons modules).
Proof.
  intros Hc. apply each_returns. intros w1 owner. apply each_returns. intros w2 ih. unfold startup_hook. case_bool_decide; [|done].
  by destruct (ce_hook Hc owner ih.1 ih.2 (wk_store w2)) as [o ->].
Qed.

Lemma connect_returns fuel w singletons modules : code_ends → retries_fit fuel → is_Some (connect clock_max g config read_text fuel w singletons modules).
Proof.
  intros Hc Hf. unfold connect. destruct (each_returns (connect_one clock_max g config read_text fuel) w singletons) as [[w1 [e1|]] ->];
    [intros; by apply connect_one_returns|done|]. cbn [and_then].
  destruct (run_startup_hooks_returns OnModuleInit w1 singletons modules Hc) as [[w2 [e2|]] ->]; [done|]. by apply run_startup_hooks_returns.
Qed.
End Connect.
