(* ===== verification/Shutdown.v ===== *)
(** * Shutdown: one shutdown per app, resumed by whoever asks for it

    [ulo/src/lifecycle/shutdown.rs], with the live set and the opening of executions of
    [ulo/src/app/shared.rs]. The app is shared state that callers change under its locks: each
    locked change is one event, and a caller's future may be dropped at any await, which leaves
    the sequence where [Progress] says. The graph is the one published when the shutdown
    begins. *)

From S2P Require Import Prelude Text Key Graph Redact Timer Lifecycle.
Local Open Scope nat_scope.

(** ** The order of shutdown hooks *)

(** [Ord] on [Option<u32>]: [None] first. *)
Definition load_le (a b : option nat) : bool :=
  match a, b with None, _ => true | Some _, None => false | Some x, Some y => x <=? y end.

(** [sort_unstable] and [dedup]. *)
Fixpoint load_insert (x : option nat) (l : list (option nat)) : list (option nat) :=
  match l with
  | [] => [x]
  | y :: l => if bool_decide (x = y) then y :: l else if load_le x y then x :: y :: l else y :: load_insert x l
  end.

Definition loads_of (g : Graph) : list (option nat) := foldr load_insert [] (fm_loaded <$> g_modules g).

Definition load_singletons (g : Graph) (load : option nat) : list BindingId :=
  filterb (λ id, bool_decide (fm_loaded (module g (fb_origin (binding g id))) = load)) (g_connect_order g).

Definition load_modules (g : Graph) (load : option nat) : list ModuleId :=
  fm_id <$> filterb (λ m, bool_decide (fm_loaded m = load)) (g_modules g).

(** One owner's hooks of [kind], the last first. *)
Definition owner_entries (g : Graph) (kind : HookKind) (owner : HookOwner) : list (HookOwner * nat) :=
  omap (λ ih : nat * HookRecord, if bool_decide (hk_kind ih.2 = kind) then Some (owner, ih.1) else None)
    (reverse (imap pair (hooks_of g owner))).

Definition load_plan (g : Graph) (load : option nat) : list HookOwner :=
  hook_plan g (load_singletons g load) (load_modules g load).

Definition shutdown_plan (g : Graph) (kind : HookKind) : list (HookOwner * nat) :=
  reverse (loads_of g) ≫= λ load, reverse (load_plan g load) ≫= owner_entries g kind.

(** ** Bounds of the sequence *)

Inductive DrainEnd := DrainNow | DrainAt (at_ : N) | DrainOpen.

Inductive CloseBound :=
  | CloseUnbounded
  | CloseExpired (after : Duration)
  | CloseWithin (until : N) (after : Duration) (limit : Limit).

Section Clock.
Context (clock_max : N).

Definition cap_expired (now : N) (c : Cap) : bool := bool_decide (cap_at c <= now)%N.

Definition cap_from_now (timer : bool) (now : N) (limit : option Duration) : option Cap :=
  match timer, limit with
  | true, Some after => (λ at_, {| cap_at := at_; cap_after := after |}) <$> checked_add clock_max now after
  | _, _ => None
  end.

Definition drain_end (timer : bool) (now : N) (window : Duration) (cap : option Cap) : DrainEnd :=
  if negb timer then DrainNow
  else match checked_add clock_max now window, cap with
  | Some at_, Some cap => DrainAt (N.min at_ (cap_at cap))
  | Some at_, None => DrainAt at_
  | None, Some cap => DrainAt (cap_at cap)
  | None, None => DrainOpen
  end.

Definition close_bound (timer : bool) (now : N) (cap : option Cap) (hook_timeout : option Duration) : CloseBound :=
  if negb timer then CloseUnbounded
  else match cap, hook_timeout with
  | Some cap, _ => if cap_expired now cap then CloseExpired (cap_after cap) else CloseWithin (cap_at cap) (cap_after cap) ShutdownCap
  | None, Some after =>
      match checked_add clock_max now after with
      | Some until => CloseWithin until after LimitDefault
      | None => CloseUnbounded
      end
  | None, None => CloseUnbounded
  end.

Abbreviation ClosePolls := (list (Tick * ItemPoll (unit + BoxError))) (only parsing).

(** [race] over the polls it is given. *)
Fixpoint race_polls {A} (polls : list (Tick * option A)) (r : Race) : option (A + Cut) :=
  match polls with
  | [] => None
  | (t, item) :: polls =>
      let '(_, r, out) := race_poll (λ u : unit, (u, item)) t r tt in
      match out with Some o => Some o | None => race_polls polls r end
  end.

Definition timeout_at (until : N) (polls : ClosePolls) : option (((unit + BoxError) + str) + Cut) :=
  match polls with [] => None | (t, _) :: _ => race_polls polls (race_start (expiry_at (tk_now t) until)) end.

(** [close.await], over the polls it is given. *)
Definition awaited (polls : ClosePolls) : option ((unit + BoxError) + str) := find_map snd polls.

Definition close_result (secrets : list str) (ended : (unit + BoxError) + str) : option FailureReason :=
  match ended with
  | inl (inl _) => None
  | inl (inr e) => Some (Errored (redacted secrets e))
  | inr payload => Some (Panicked (redact_panic secrets payload))
  end.

(** A [close] under its bound: [None] while it waits, else why it failed, if it did. *)
Definition bounded_close (secrets : list str) (bound : CloseBound) (polls : ClosePolls) : option (option FailureReason) :=
  match bound with
  | CloseUnbounded => close_result secrets <$> awaited polls
  | CloseExpired after =>
      match polls with
      | [] => None
      | (_, Some ended) :: _ => Some (close_result secrets ended)
      | (_, None) :: _ => Some (Some (TimedOut after ShutdownCap))
      end
  | CloseWithin until after limit =>
      match timeout_at until polls with
      | None => None
      | Some (inl ended) => Some (close_result secrets ended)
      | Some (inr CutExpired) => Some (Some (TimedOut after limit))
      | Some (inr CutRefused) => Some (Some (shut_down secrets))
      end
  end.

(** Whether the drain's wait has ended: [settled] in a poll, or the window's [sleep] over. *)
Definition drain_waited (end_ : DrainEnd) (timer : bool) (now : N) (polls : list (Tick * bool)) : bool :=
  match end_, timer with
  | DrainOpen, _ => existsb snd polls
  | DrainAt at_, true =>
      if is_zero (at_ - now)%N then negb (bool_decide (polls = []))
      else existsb (λ p : Tick * bool, p.2 || match tk_sleep p.1 at_ with Some _ => true | None => false end) polls
  | _, _ => negb (bool_decide (polls = []))
  end.
End Clock.

(** ** The shared state *)

Inductive ServeEnd := ServeErrored (error : Redacted) | ServePanicked (message : Redacted) | ServeReturned.

Inductive ShutdownFailure :=
  | FailHook (hook : HookKind) (key : KeyName) (reason : FailureReason)
  | FailClose (transport : TypeName) (reason : FailureReason)
  | FailDropped
  | FailServe (transport : TypeName) (end_ : ServeEnd).

(** [Shutdown], and [ShutdownError] when there are failures. *)
Record Report := { rp_signal : string; rp_abandoned : nat; rp_terminal_skipped : nat }.
Record ShutdownOutcome := { so_report : Report; so_failures : list ShutdownFailure }.

Record Trigger := { tr_signal : option string; tr_cause : option ShutdownFailure }.

Record Release := { rl_app_dropped : bool; rl_closing : nat; rl_released : bool; rl_servers_closed : bool }.

Inductive Stage := StageTrigger | StageBefore | StageDrain | StageDestroy | StageClose | StageShutdown | StageDone.

#[export] Instance Stage_eq_dec : EqDecision Stage.
Proof. solve_decision. Defined.

Record Progress := {
  pg_stage : Stage;
  pg_cap : option Cap;
  pg_plan : option (list (HookOwner * nat));
  pg_cursor : nat;
  pg_accepting_stopped : bool;
  pg_drain_end : option DrainEnd;
  pg_failures : list ShutdownFailure;
  pg_abandoned : nat;
  pg_terminal_abandoned : nat;
}.

Definition progress_default : Progress := {|
  pg_stage := StageTrigger; pg_cap := None; pg_plan := None; pg_cursor := 0; pg_accepting_stopped := false;
  pg_drain_end := None; pg_failures := []; pg_abandoned := 0; pg_terminal_abandoned := 0 |}.

(** An execution: its [ExecShared]'s flags, once attached. *)
Record Exec := { xc_terminal : bool; xc_ended : bool; xc_cancelled : bool }.

(** An entry of the live set as [open] makes it: entered, past the phase check, attached. *)
Inductive LiveEntry := Entered | Allowed (terminal : bool) | Attached (exec : Exec).

(** [LiveInner]; an entry not yet attached holds an empty [Weak]. *)
Record LiveInner := { lv_next : nat; lv_executions : gmap nat LiveEntry; lv_cancelled : bool }.

(** Where the runner of the sequence waits. *)
Inductive RunnerAt :=
  | AtStage
  | AtHooks (kind : HookKind)
  | AtHook (kind : HookKind) (owner : HookOwner) (index : nat)
  | AtDrain (asked : N)
  | AtCancel
  | AtClose (bound : CloseBound).

(** A [close] call: its claim, whether it found the servers released, and its answer. *)
Record Closing := { cl_dropped : bool; cl_signal : string; cl_answer : option ShutdownOutcome }.

(** [AppShared]; the runner is the claim whose future initialises the outcome, [sh_releasing] the
    drops between [released_by_drop] and [after_release], and [sh_ran] what the hook steps have
    taken from their plans, for statements. *)
Record Shared := {
  sh_graph : Graph;
  sh_config : AppConfig;
  sh_store : gmap BindingId Handle;
  sh_phase : PhaseCell;
  sh_draining : bool;
  sh_live : LiveInner;
  sh_servers : list TypeName;
  sh_trigger : Trigger;
  sh_outcome : option ShutdownOutcome;
  sh_progress : Progress;
  sh_release : Release;
  sh_claims : gmap nat Closing;
  sh_runner : option (nat * string * RunnerAt);
  sh_releasing : list bool;
  sh_ran : list (HookKind * (HookOwner * nat));
}.

Definition set_phase (s : Shared) (v : PhaseCell) : Shared := {|
  sh_graph := sh_graph s; sh_config := sh_config s; sh_store := sh_store s; sh_phase := v; sh_draining := sh_draining s;
  sh_live := sh_live s; sh_servers := sh_servers s; sh_trigger := sh_trigger s; sh_outcome := sh_outcome s;
  sh_progress := sh_progress s; sh_release := sh_release s; sh_claims := sh_claims s; sh_runner := sh_runner s; sh_ran := sh_ran s;
  sh_releasing := sh_releasing s |}.
Definition set_draining (s : Shared) : Shared := {|
  sh_graph := sh_graph s; sh_config := sh_config s; sh_store := sh_store s; sh_phase := sh_phase s; sh_draining := true;
  sh_live := sh_live s; sh_servers := sh_servers s; sh_trigger := sh_trigger s; sh_outcome := sh_outcome s;
  sh_progress := sh_progress s; sh_release := sh_release s; sh_claims := sh_claims s; sh_runner := sh_runner s; sh_ran := sh_ran s;
  sh_releasing := sh_releasing s |}.
Definition set_live (s : Shared) (v : LiveInner) : Shared := {|
  sh_graph := sh_graph s; sh_config := sh_config s; sh_store := sh_store s; sh_phase := sh_phase s; sh_draining := sh_draining s;
  sh_live := v; sh_servers := sh_servers s; sh_trigger := sh_trigger s; sh_outcome := sh_outcome s;
  sh_progress := sh_progress s; sh_release := sh_release s; sh_claims := sh_claims s; sh_runner := sh_runner s; sh_ran := sh_ran s;
  sh_releasing := sh_releasing s |}.
Definition release_servers (s : Shared) : Shared := {|
  sh_graph := sh_graph s; sh_config := sh_config s; sh_store := sh_store s; sh_phase := sh_phase s; sh_draining := sh_draining s;
  sh_live := sh_live s; sh_servers := []; sh_trigger := sh_trigger s; sh_outcome := sh_outcome s;
  sh_progress := sh_progress s; sh_release := sh_release s; sh_claims := sh_claims s; sh_runner := sh_runner s; sh_ran := sh_ran s;
  sh_releasing := sh_releasing s |}.
Definition set_trigger (s : Shared) (v : Trigger) : Shared := {|
  sh_graph := sh_graph s; sh_config := sh_config s; sh_store := sh_store s; sh_phase := sh_phase s; sh_draining := sh_draining s;
  sh_live := sh_live s; sh_servers := sh_servers s; sh_trigger := v; sh_outcome := sh_outcome s;
  sh_progress := sh_progress s; sh_release := sh_release s; sh_claims := sh_claims s; sh_runner := sh_runner s; sh_ran := sh_ran s;
  sh_releasing := sh_releasing s |}.
Definition set_outcome (s : Shared) (v : ShutdownOutcome) : Shared := {|
  sh_graph := sh_graph s; sh_config := sh_config s; sh_store := sh_store s; sh_phase := sh_phase s; sh_draining := sh_draining s;
  sh_live := sh_live s; sh_servers := sh_servers s; sh_trigger := sh_trigger s; sh_outcome := Some v;
  sh_progress := sh_progress s; sh_release := sh_release s; sh_claims := sh_claims s; sh_runner := None; sh_ran := sh_ran s;
  sh_releasing := sh_releasing s |}.
Definition set_progress (s : Shared) (v : Progress) : Shared := {|
  sh_graph := sh_graph s; sh_config := sh_config s; sh_store := sh_store s; sh_phase := sh_phase s; sh_draining := sh_draining s;
  sh_live := sh_live s; sh_servers := sh_servers s; sh_trigger := sh_trigger s; sh_outcome := sh_outcome s;
  sh_progress := v; sh_release := sh_release s; sh_claims := sh_claims s; sh_runner := sh_runner s; sh_ran := sh_ran s;
  sh_releasing := sh_releasing s |}.
Definition set_release (s : Shared) (v : Release) : Shared := {|
  sh_graph := sh_graph s; sh_config := sh_config s; sh_store := sh_store s; sh_phase := sh_phase s; sh_draining := sh_draining s;
  sh_live := sh_live s; sh_servers := sh_servers s; sh_trigger := sh_trigger s; sh_outcome := sh_outcome s;
  sh_progress := sh_progress s; sh_release := v; sh_claims := sh_claims s; sh_runner := sh_runner s; sh_ran := sh_ran s;
  sh_releasing := sh_releasing s |}.
Definition set_claims (s : Shared) (v : gmap nat Closing) : Shared := {|
  sh_graph := sh_graph s; sh_config := sh_config s; sh_store := sh_store s; sh_phase := sh_phase s; sh_draining := sh_draining s;
  sh_live := sh_live s; sh_servers := sh_servers s; sh_trigger := sh_trigger s; sh_outcome := sh_outcome s;
  sh_progress := sh_progress s; sh_release := sh_release s; sh_claims := v; sh_runner := sh_runner s; sh_ran := sh_ran s;
  sh_releasing := sh_releasing s |}.
Definition set_runner (s : Shared) (v : option (nat * string * RunnerAt)) : Shared := {|
  sh_graph := sh_graph s; sh_config := sh_config s; sh_store := sh_store s; sh_phase := sh_phase s; sh_draining := sh_draining s;
  sh_live := sh_live s; sh_servers := sh_servers s; sh_trigger := sh_trigger s; sh_outcome := sh_outcome s;
  sh_progress := sh_progress s; sh_release := sh_release s; sh_claims := sh_claims s; sh_runner := v; sh_ran := sh_ran s;
  sh_releasing := sh_releasing s |}.
Definition set_releasing (s : Shared) (v : list bool) : Shared := {|
  sh_graph := sh_graph s; sh_config := sh_config s; sh_store := sh_store s; sh_phase := sh_phase s; sh_draining := sh_draining s;
  sh_live := sh_live s; sh_servers := sh_servers s; sh_trigger := sh_trigger s; sh_outcome := sh_outcome s;
  sh_progress := sh_progress s; sh_release := sh_release s; sh_claims := sh_claims s; sh_runner := sh_runner s; sh_ran := sh_ran s;
  sh_releasing := v |}.
Definition took_hook (s : Shared) (kind : HookKind) (entry : HookOwner * nat) : Shared := {|
  sh_graph := sh_graph s; sh_config := sh_config s; sh_store := sh_store s; sh_phase := sh_phase s; sh_draining := sh_draining s;
  sh_live := sh_live s; sh_servers := sh_servers s; sh_trigger := sh_trigger s; sh_outcome := sh_outcome s;
  sh_progress := sh_progress s; sh_release := sh_release s; sh_claims := sh_claims s; sh_runner := sh_runner s;
  sh_ran := sh_ran s ++ [(kind, entry)]; sh_releasing := sh_releasing s |}.

Definition with_stage (p : Progress) (stage : Stage) : Progress := {|
  pg_stage := stage; pg_cap := pg_cap p; pg_plan := pg_plan p; pg_cursor := pg_cursor p; pg_accepting_stopped := pg_accepting_stopped p;
  pg_drain_end := pg_drain_end p; pg_failures := pg_failures p; pg_abandoned := pg_abandoned p; pg_terminal_abandoned := pg_terminal_abandoned p |}.
Definition with_plan (p : Progress) (plan : option (list (HookOwner * nat))) (cursor : nat) : Progress := {|
  pg_stage := pg_stage p; pg_cap := pg_cap p; pg_plan := plan; pg_cursor := cursor; pg_accepting_stopped := pg_accepting_stopped p;
  pg_drain_end := pg_drain_end p; pg_failures := pg_failures p; pg_abandoned := pg_abandoned p; pg_terminal_abandoned := pg_terminal_abandoned p |}.
Definition with_failures (p : Progress) (failures : list ShutdownFailure) : Progress := {|
  pg_stage := pg_stage p; pg_cap := pg_cap p; pg_plan := pg_plan p; pg_cursor := pg_cursor p; pg_accepting_stopped := pg_accepting_stopped p;
  pg_drain_end := pg_drain_end p; pg_failures := pg_failures p ++ failures; pg_abandoned := pg_abandoned p;
  pg_terminal_abandoned := pg_terminal_abandoned p |}.

(** ** Triggers and claims *)

Definition trigger_with (s : Shared) (signal : string) (cause : option ShutdownFailure) : Shared * bool :=
  match tr_signal (sh_trigger s) with
  | Some _ => (s, false)
  | None => (set_trigger s {| tr_signal := Some signal; tr_cause := cause |}, true)
  end.

Definition take_cause (s : Shared) : Shared * option ShutdownFailure :=
  (set_trigger s {| tr_signal := tr_signal (sh_trigger s); tr_cause := None |}, tr_cause (sh_trigger s)).

(** [Closing::claim], at the call to [close]. *)
Definition claim (s : Shared) (id : nat) (signal : string) : Shared :=
  let r := sh_release s in
  let dropped := rl_released r && negb (rl_servers_closed r) in
  let s := set_release s {| rl_app_dropped := rl_app_dropped r; rl_closing := S (rl_closing r); rl_released := rl_released r;
                            rl_servers_closed := rl_servers_closed r |} in
  set_claims s (<[id := {| cl_dropped := dropped; cl_signal := signal; cl_answer := None |}]> (sh_claims s)).

Definition released_by_drop (s : Shared) : Shared * option bool :=
  let r := sh_release s in
  if negb (rl_app_dropped r) || negb (bool_decide (rl_closing r = 0)) then (s, None)
  else
    let unclosed := negb (rl_servers_closed r) in
    let s := set_release s {| rl_app_dropped := rl_app_dropped r; rl_closing := rl_closing r; rl_released := true;
                              rl_servers_closed := rl_servers_closed r |} in
    (if unclosed then set_phase s (advance (sh_phase s) Closed) else s, Some unclosed).

Definition after_release (s : Shared) (unclosed : bool) : Shared :=
  release_servers (if unclosed then set_draining s else s).

(** The locked part of a drop; [after_release] follows it outside the lock. *)
Definition release_if_last (s : Shared) : Shared :=
  let '(s, released) := released_by_drop s in
  match released with Some unclosed => set_releasing s (sh_releasing s ++ [unclosed]) | None => s end.

Definition finish_release (s : Shared) : Shared :=
  match sh_releasing s with unclosed :: rest => after_release (set_releasing s rest) unclosed | [] => s end.

(** [Drop for Closing]: the claim's future goes with it, the runner's among them. *)
Definition drop_claim (s : Shared) (id : nat) : Shared :=
  match sh_claims s !! id with
  | None => s
  | Some _ =>
      let s := match sh_runner s with Some (i, _, _) => if bool_decide (i = id) then set_runner s None else s | None => s end in
      let s := set_claims s (delete id (sh_claims s)) in
      let r := sh_release s in
      release_if_last (set_release s {| rl_app_dropped := rl_app_dropped r; rl_closing := rl_closing r - 1; rl_released := rl_released r;
                                        rl_servers_closed := rl_servers_closed r |})
  end.

Definition app_dropped (s : Shared) : Shared :=
  let r := sh_release s in
  release_if_last (set_release s {| rl_app_dropped := true; rl_closing := rl_closing r; rl_released := rl_released r;
                                    rl_servers_closed := rl_servers_closed r |}).

(** What a [close] answers once a drop has released the servers. *)
Definition dropped (s : Shared) (signal : string) : ShutdownOutcome := {|
  so_report := {| rp_signal := default signal (tr_signal (sh_trigger s)); rp_abandoned := 0; rp_terminal_skipped := 0 |};
  so_failures := [FailDropped] |}.

Definition answer_claim (s : Shared) (id : nat) (c : Closing) (o : ShutdownOutcome) : Shared :=
  set_claims s (<[id := {| cl_dropped := cl_dropped c; cl_signal := cl_signal c; cl_answer := Some o |}]> (sh_claims s)).

(** One poll of a [close] that has not answered and does not run the sequence: the drop's answer,
    the outcome once there is one, or the trigger and the sequence taken over when nobody runs
    it. *)
Definition poll_claim (s : Shared) (id : nat) : Shared :=
  match sh_claims s !! id with
  | None => s
  | Some c =>
      if match cl_answer c with Some _ => true | None => false end then s
      else if cl_dropped c then answer_claim s id c (dropped s (cl_signal c))
      else
        let s := (trigger_with s (cl_signal c) None).1 in
        match sh_outcome s, sh_runner s with
        | Some o, _ => answer_claim s id c o
        | None, None => set_runner s (Some (id, default (cl_signal c) (tr_signal (sh_trigger s)), AtStage))
        | None, Some _ => s
        end
  end.

(** ** Executions *)

Definition live_with (l : LiveInner) (executions : gmap nat LiveEntry) : LiveInner :=
  {| lv_next := lv_next l; lv_executions := executions; lv_cancelled := lv_cancelled l |}.

(** [LiveSet::enter]: the slot's id is the counter's. *)
Definition enter (s : Shared) : Shared * nat :=
  let l := sh_live s in
  (set_live s {| lv_next := S (lv_next l); lv_executions := <[lv_next l := Entered]> (lv_executions l); lv_cancelled := lv_cancelled l |}, lv_next l).

(** The phase check of [open]; a refusal drops the slot. *)
Definition open_allowed (s : Shared) (id : nat) (terminal : bool) : Shared :=
  match lv_executions (sh_live s) !! id with
  | Some Entered =>
      let '(phase, allowed) := allows_execution (sh_phase s) terminal in
      let s := set_phase s phase in
      set_live s (live_with (sh_live s)
        (if allowed then <[id := Allowed terminal]> (lv_executions (sh_live s)) else delete id (lv_executions (sh_live s))))
  | _ => s
  end.

(** [LiveSet::attach]: an execution attached after the drain's end is cancelled at once. *)
Definition attach (s : Shared) (id : nat) : Shared :=
  match lv_executions (sh_live s) !! id with
  | Some (Allowed terminal) =>
      set_live s (live_with (sh_live s)
        (<[id := Attached {| xc_terminal := terminal; xc_ended := false; xc_cancelled := lv_cancelled (sh_live s) |}]> (lv_executions (sh_live s))))
  | _ => s
  end.

(** The execution ends, then its slot drops. *)
Definition end_execution (s : Shared) (id : nat) : Shared :=
  match lv_executions (sh_live s) !! id with
  | Some (Attached x) =>
      set_live s (live_with (sh_live s)
        (<[id := Attached {| xc_terminal := xc_terminal x; xc_ended := true; xc_cancelled := xc_cancelled x |}]> (lv_executions (sh_live s))))
  | _ => s
  end.

Definition leave (s : Shared) (id : nat) : Shared :=
  match lv_executions (sh_live s) !! id with
  | Some (Attached {| xc_ended := true |}) => set_live s (live_with (sh_live s) (delete id (lv_executions (sh_live s))))
  | _ => s
  end.

Definition live_execs (m : gmap nat LiveEntry) : list Exec :=
  omap (λ e : nat * LiveEntry, match e.2 with Attached x => if xc_ended x then None else Some x | _ => None end) (map_to_list m).

Definition cancel_entry (e : LiveEntry) : LiveEntry :=
  match e with
  | Attached x => if xc_ended x then e else Attached {| xc_terminal := xc_terminal x; xc_ended := false; xc_cancelled := true |}
  | _ => e
  end.

(** [cancel_all]: how many were live, and how many of them terminal. *)
Definition cancel_all (s : Shared) : Shared * (nat * nat) :=
  let l := sh_live s in
  let live := live_execs (lv_executions l) in
  (set_live s {| lv_next := lv_next l; lv_executions := cancel_entry <$> lv_executions l; lv_cancelled := true |},
   (length live, length (filterb xc_terminal live))).

(** ** The sequence *)

(** What the world answers the runner: the clock, and the polls of what it waits on. *)
Record Obs := {
  ob_now : N;
  ob_hook : list (Tick * ItemPoll (unit + BoxError));
  ob_drain : list (Tick * bool);
  ob_closes : list (list (Tick * ItemPoll (unit + BoxError)));
}.

Definition stage_kind (stage : Stage) : option HookKind :=
  match stage with
  | StageBefore => Some BeforeApplicationShutdown
  | StageDestroy => Some OnModuleDestroy
  | StageShutdown => Some OnApplicationShutdown
  | _ => None
  end.

Section Sequence.
Context (clock_max : N).

Definition app_secrets (s : Shared) : list str := str_of <$> g_secrets (sh_graph s).

Definition at_ (s : Shared) (who : nat * string) (a : RunnerAt) : Shared := set_runner s (Some (who.1, who.2, a)).

(** The end of a hook step, and what the sequence does after it. *)
Definition hooks_done (s : Shared) (who : nat * string) : Shared :=
  let p := with_plan (sh_progress s) None 0 in
  match pg_stage p with
  | StageBefore => at_ (set_progress s (with_stage p StageDrain)) who AtStage
  | StageDestroy => at_ (set_progress s (with_stage p StageClose)) who AtStage
  | _ => at_ (set_progress (set_phase s (advance (sh_phase s) Closed)) (with_stage p StageDone)) who AtStage
  end.

(** One turn of the loop of [run_hook_step], up to the hook's await. *)
Definition next_hook (s : Shared) (who : nat * string) (kind : HookKind) (now : N) : Shared :=
  let p := sh_progress s in
  match default [] (pg_plan p) !! pg_cursor p with
  | None => hooks_done s who
  | Some (owner, index) =>
      let s := took_hook (set_progress s (with_plan p (pg_plan p) (S (pg_cursor p)))) kind (owner, index) in
      match hooks_of (sh_graph s) owner !! index with
      | None => at_ s who (AtHooks kind)
      | Some hook =>
          let expired := match pg_cap p with Some cap => ac_timer (sh_config s) && cap_expired now cap | None => false end in
          if expired then
            at_ (set_progress s (with_failures (sh_progress s) [FailHook kind (owner_key (sh_graph s) owner) Skipped])) who (AtHooks kind)
          else match owner with
          | OwnerBinding id =>
              match sh_store s !! id with
              | None => at_ s who (AtHooks kind)
              | Some _ => at_ s who (AtHook kind owner index)
              end
          | OwnerModule _ => at_ s who (AtHook kind owner index)
          end
      end
  end.

(** The outcome of the hook awaited. *)
Definition end_hook (s : Shared) (who : nat * string) (kind : HookKind) (owner : HookOwner) (o : Outcome (unit + BoxError)) : Shared :=
  match hook_failure (sh_graph s) (Some o) with
  | None => at_ s who (AtHooks kind)
  | Some reason =>
      at_ (set_progress s (with_failures (sh_progress s) [FailHook kind (owner_key (sh_graph s) owner) reason])) who (AtHooks kind)
  end.

Definition hook_bound (s : Shared) (owner : HookOwner) (index : nat) : Resolved :=
  match hooks_of (sh_graph s) owner !! index with
  | Some hook => resolve_bound (hk_bound hook) KindHook (config_defaults (sh_config s))
  | None => ResolvedUnbounded
  end.

(** The drain up to its wait. *)
Definition stop_accepting (s : Shared) (now : N) : Shared :=
  let p := sh_progress s in
  if pg_accepting_stopped p then s
  else
    let s := set_draining (set_phase s (advance (sh_phase s) Draining)) in
    set_progress s {|
      pg_stage := pg_stage p; pg_cap := pg_cap p; pg_plan := pg_plan p; pg_cursor := pg_cursor p; pg_accepting_stopped := true;
      pg_drain_end := Some (drain_end clock_max (ac_timer (sh_config s)) now (config_drain (sh_config s)) (pg_cap p));
      pg_failures := pg_failures p; pg_abandoned := pg_abandoned p; pg_terminal_abandoned := pg_terminal_abandoned p |}.

(** The drain after its wait: the drain's end, which refuses terminal executions, then the
    cancellation. *)
Definition end_wait (s : Shared) (who : nat * string) : Shared := at_ (set_phase s (end_drain (sh_phase s))) who AtCancel.

Definition cancel_rest (s : Shared) (who : nat * string) : Shared :=
  let '(s, (abandoned, terminal)) := cancel_all s in
  let p := sh_progress s in
  at_ (set_progress s {|
    pg_stage := StageDestroy; pg_cap := pg_cap p; pg_plan := pg_plan p; pg_cursor := pg_cursor p; pg_accepting_stopped := pg_accepting_stopped p;
    pg_drain_end := pg_drain_end p; pg_failures := pg_failures p; pg_abandoned := abandoned; pg_terminal_abandoned := terminal |}) who AtStage.

(** What follows the close step: the servers closed, then let go. *)
Definition servers_closed (s : Shared) (who : nat * string) : Shared :=
  let r := sh_release s in
  let s := set_release s {| rl_app_dropped := rl_app_dropped r; rl_closing := rl_closing r; rl_released := rl_released r; rl_servers_closed := true |} in
  let s := release_servers s in
  at_ (set_progress s (with_stage (with_plan (sh_progress s) (pg_plan (sh_progress s)) 0) StageShutdown)) who AtStage.

(** The failures of the closes, in bind order. *)
Definition close_failures (servers : list TypeName) (ended : list (option FailureReason)) : list ShutdownFailure :=
  omap (λ se : TypeName * option FailureReason, FailClose se.1 <$> se.2) (zip servers ended).

(** [close_servers] up to its wait: a runner that finds every close started starts none again. *)
Definition start_closes (s : Shared) (who : nat * string) (now : N) : Shared :=
  let p := sh_progress s in
  if bool_decide (length (sh_servers s) ≤ pg_cursor p) then servers_closed s who
  else
    let bound := close_bound clock_max (ac_timer (sh_config s)) now (pg_cap p) (df_hook_timeout <$> config_defaults (sh_config s)) in
    at_ (set_progress s (with_plan p (pg_plan p) (length (sh_servers s)))) who (AtClose bound).

(** [join_all] over the closes, each with the polls it is given, in bind order: [None] while one of
    them waits; then their failures. *)
Definition end_closes (s : Shared) (who : nat * string) (bound : CloseBound) (polls : list (list (Tick * ItemPoll (unit + BoxError)))) : option Shared :=
  match mapM (bounded_close (app_secrets s) bound) (take (length (sh_servers s)) polls) with
  | Some ended =>
      if bool_decide (length ended = length (sh_servers s)) then
        Some (servers_closed (set_progress s (with_failures (sh_progress s) (close_failures (sh_servers s) ended))) who)
      else None
  | None => None
  end.

Definition outcome_now (s : Shared) (signal : string) : ShutdownOutcome :=
  let p := sh_progress s in {|
  so_report := {| rp_signal := signal; rp_abandoned := pg_abandoned p;
                  rp_terminal_skipped := pg_terminal_abandoned p + pc_terminal_refused (sh_phase s) |};
  so_failures := pg_failures p |}.

(** The runner on from where it stands, [None] while what it waits on has not ended. *)
Definition runner_step (s : Shared) (who : nat * string) (a : RunnerAt) (o : Obs) : option Shared :=
  let p := sh_progress s in
  match a with
  | AtStage =>
      Some match pg_stage p with
      | StageTrigger =>
          let '(s, cause) := take_cause s in
          let s := set_phase s (advance (sh_phase s) Stopping) in
          let cap := cap_from_now clock_max (ac_timer (sh_config s)) (ob_now o) (ac_shutdown_timeout (sh_config s)) in
          at_ (set_progress s {|
            pg_stage := StageBefore; pg_cap := cap; pg_plan := pg_plan p; pg_cursor := pg_cursor p; pg_accepting_stopped := pg_accepting_stopped p;
            pg_drain_end := pg_drain_end p; pg_failures := pg_failures p ++ option_list cause; pg_abandoned := pg_abandoned p;
            pg_terminal_abandoned := pg_terminal_abandoned p |}) who AtStage
      | StageBefore | StageDestroy | StageShutdown =>
          let s := if bool_decide (pg_stage p = StageDestroy) then set_phase s (advance (sh_phase s) Destroying) else s in
          let kind := default BeforeApplicationShutdown (stage_kind (pg_stage p)) in
          let plan := default (shutdown_plan (sh_graph s) kind) (pg_plan p) in
          at_ (set_progress s (with_plan p (Some plan) (pg_cursor p))) who (AtHooks kind)
      | StageDrain => at_ (stop_accepting s (ob_now o)) who (AtDrain (ob_now o))
      | StageClose => start_closes s who (ob_now o)
      | StageDone => set_outcome s (outcome_now s who.2)
      end
  | AtHooks kind => Some (next_hook s who kind (ob_now o))
  | AtHook kind owner index =>
      match run clock_max (ac_timer (sh_config s)) (hook_bound s owner index) (pg_cap p) (app_secrets s) (ob_hook o) with
      | None => None
      | Some (outcome, _) => Some (end_hook s who kind owner outcome)
      end
  | AtDrain asked =>
      if drain_waited (default DrainNow (pg_drain_end p)) (ac_timer (sh_config s)) asked (ob_drain o) then Some (end_wait s who) else None
  | AtCancel => Some (cancel_rest s who)
  | AtClose bound => end_closes s who bound (ob_closes o)
  end.

(** ** Events *)

Inductive Event :=
  | ETrigger (signal : string) (cause : option ShutdownFailure)
  | EClose (id : nat) (signal : string)
  | EPoll (id : nat) (o : Obs)
  | EDropClose (id : nat)
  | EDropApp
  | EReleased
  | EEnter
  | EAdmit (id : nat) (terminal : bool)
  | EAttach (id : nat)
  | EEnd (id : nat)
  | ELeave (id : nat).

(** One event. A [close] has an id of its own; a poll of the runner's claim moves the sequence. *)
Definition event (s : Shared) (e : Event) : Shared :=
  match e with
  | ETrigger signal cause => (trigger_with s signal cause).1
  | EClose id signal => match sh_claims s !! id with None => claim s id signal | Some _ => s end
  | EPoll id o =>
      match sh_runner s with
      | Some (i, signal, a) => if bool_decide (i = id) then default s (runner_step s (i, signal) a o) else poll_claim s id
      | None => poll_claim s id
      end
  | EDropClose id => drop_claim s id
  | EDropApp => app_dropped s
  | EReleased => finish_release s
  | EEnter => (enter s).1
  | EAdmit id terminal => open_allowed s id terminal
  | EAttach id => attach s id
  | EEnd id => end_execution s id
  | ELeave id => leave s id
  end.

Definition events (s : Shared) (es : list Event) : Shared := foldl event s es.
End Sequence.

(** The app once [connect] has run, its transports bound. *)
Definition running (g : Graph) (config : AppConfig) (store : gmap BindingId Handle) (servers : list TypeName) : Shared := {|
  sh_graph := g; sh_config := config; sh_store := store; sh_phase := phase_cell_new Running; sh_draining := false;
  sh_live := {| lv_next := 0; lv_executions := ∅; lv_cancelled := false |}; sh_servers := servers;
  sh_trigger := {| tr_signal := None; tr_cause := None |}; sh_outcome := None; sh_progress := progress_default;
  sh_release := {| rl_app_dropped := false; rl_closing := 0; rl_released := false; rl_servers_closed := false |};
  sh_claims := ∅; sh_runner := None; sh_ran := []; sh_releasing := [] |}.
