(* ===== verification/ShutdownFacts.v ===== *)
(** * ShutdownFacts: the order of shutdown hooks, and the sequence's invariants *)

From S2P Require Import Prelude Text Key Graph Redact Timer Lifecycle PlanFacts Shutdown.
Local Open Scope nat_scope.

(** ** The order of shutdown hooks *)

Definition load_before (a b : option nat) : Prop := load_le a b = true ∧ a ≠ b.

Lemma load_le_trans a b c : load_le a b = true → load_le b c = true → load_le a c = true.
Proof. destruct a, b, c; simpl; try done. rewrite !Nat.leb_le. lia. Qed.

Lemma load_le_total a b : load_le a b = false → load_le b a = true.
Proof. destruct a, b; simpl; try done. rewrite Nat.leb_gt, Nat.leb_le. lia. Qed.

Lemma load_le_antisym a b : load_le a b = true → load_le b a = true → a = b.
Proof. destruct a, b; simpl; try done. rewrite !Nat.leb_le. intros. f_equal. lia. Qed.

Lemma elem_of_load_insert x y l : y ∈ load_insert x l ↔ y = x ∨ y ∈ l.
Proof.
  induction l as [|z l IH]; simpl; [set_solver|]. case_bool_decide; [subst; set_solver|]. destruct (load_le x z); set_solver.
Qed.

Lemma load_insert_sorted x l : StronglySorted load_before l → StronglySorted load_before (load_insert x l).
Proof.
  induction 1 as [|z l Hl IH Hz]; simpl; [by repeat constructor|]. case_bool_decide as Hxz; [by constructor|].
  destruct (load_le x z) eqn:E.
  - constructor; [by constructor|]. constructor; [by split|]. rewrite Forall_forall in Hz |- *. intros y Hy. destruct (Hz y Hy) as [H1 H2].
    split; [by eapply load_le_trans|]. intros <-. apply Hxz, load_le_antisym; done.
  - constructor; [done|]. rewrite Forall_forall in Hz |- *. intros y [->|Hy]%elem_of_load_insert; [|by apply Hz].
    split; [by apply load_le_total|congruence].
Qed.

Lemma loads_of_sorted g : StronglySorted load_before (loads_of g).
Proof. unfold loads_of. induction (fm_loaded <$> g_modules g) as [|x l IH]; simpl; [constructor|]. by apply load_insert_sorted. Qed.

Lemma elem_of_loads g x : x ∈ loads_of g ↔ x ∈ fm_loaded <$> g_modules g.
Proof.
  unfold loads_of. induction (fm_loaded <$> g_modules g) as [|y l IH]; simpl; [done|]. rewrite elem_of_load_insert, IH. set_solver.
Qed.

(** Startup's order of the hooks of [kind], load by load. *)
Definition startup_entries (g : Graph) (kind : HookKind) (owner : HookOwner) : list (HookOwner * nat) :=
  omap (λ ih : nat * HookRecord, if bool_decide (hk_kind ih.2 = kind) then Some (owner, ih.1) else None) (imap pair (hooks_of g owner)).

Definition startup_plan (g : Graph) (kind : HookKind) : list (HookOwner * nat) :=
  loads_of g ≫= λ load, load_plan g load ≫= startup_entries g kind.

Lemma omap_reverse {A B} (f : A → option B) (l : list A) : omap f (reverse l) = reverse (omap f l).
Proof.
  induction l as [|x l IH]; [done|]. rewrite reverse_cons, omap_app, IH.
  change (omap f (x :: l)) with (match f x with Some y => y :: omap f l | None => omap f l end). simpl. destruct (f x).
  - by rewrite reverse_cons.
  - by rewrite app_nil_r.
Qed.

Lemma bind_reverse {A B} (f h : A → list B) (l : list A) : (∀ x, f x = reverse (h x)) → reverse l ≫= f = reverse (l ≫= h).
Proof.
  intros Hf. induction l as [|x l IH]; [done|]. rewrite reverse_cons, bind_app, IH.
  change ((x :: l) ≫= h) with (h x ++ (l ≫= h)). rewrite reverse_app. f_equal. simpl. by rewrite app_nil_r, Hf.
Qed.

(** Shutdown runs the exact reverse of startup's order. *)
Lemma shutdown_plan_reverse g kind : shutdown_plan g kind = reverse (startup_plan g kind).
Proof.
  unfold shutdown_plan, startup_plan. apply bind_reverse. intros load. apply bind_reverse. intros owner. unfold owner_entries, startup_entries.
  apply omap_reverse.
Qed.

(** ** What the plans hold *)

Lemma elem_of_startup_entries g kind owner o i :
  (o, i) ∈ startup_entries g kind owner ↔ o = owner ∧ ∃ hook, hooks_of g owner !! i = Some hook ∧ hk_kind hook = kind.
Proof.
  unfold startup_entries. rewrite list_elem_of_omap. split.
  - intros ([j hook] & Hin & E). simpl in E. case_bool_decide as Hk; [|done]. injection E as -> ->. split; [done|]. exists hook. split; [|done].
    apply elem_of_lookup_imap in Hin as (k & x & [= -> ->] & Hx). done.
  - intros (-> & hook & Hi & Hk). exists (i, hook). split; [apply elem_of_lookup_imap; by exists i, hook|]. simpl. by rewrite bool_decide_eq_true_2.
Qed.

(** The owners of an app: its singletons and its modules. *)
Definition app_owner (g : Graph) (owner : HookOwner) : Prop :=
  match owner with OwnerBinding id => id ∈ g_connect_order g | OwnerModule m => m ∈ fm_id <$> g_modules g end.

(** A binding's module is in the graph, and a module's id is its position. *)
Record owners_wf (g : Graph) : Prop := {
  ow_nodup : NoDup (g_connect_order g);
  ow_ids : ∀ i m, g_modules g !! i = Some m → fm_id m = i;
  ow_origin : ∀ id, id ∈ g_connect_order g → fb_origin (binding g id) < length (g_modules g);
}.

Definition owner_load (g : Graph) (owner : HookOwner) : option nat :=
  match owner with
  | OwnerBinding id => fm_loaded (module g (fb_origin (binding g id)))
  | OwnerModule m => fm_loaded (module g m)
  end.

Lemma module_at g i m : g_modules g !! i = Some m → module g i = m.
Proof. unfold module. by intros ->. Qed.

Lemma elem_of_load_plan g load owner : owners_wf g → owner ∈ load_plan g load ↔ app_owner g owner ∧ owner_load g owner = load.
Proof.
  intros [_ Hid _]. unfold load_plan. rewrite (po_perm _ _ _ _ (hook_plan_ok g _ _)), elem_of_app, !list_elem_of_fmap.
  unfold load_singletons, load_modules, app_owner, owner_load. split.
  - intros [(id & -> & [H1%bool_decide_eq_true H2]%elem_of_filterb)|(m & -> & (fm & -> & [H1%bool_decide_eq_true H2]%elem_of_filterb)%list_elem_of_fmap)].
    + done.
    + split; [apply list_elem_of_fmap; by exists fm|]. apply list_elem_of_lookup in H2 as [i Hi]. rewrite (Hid _ _ Hi), (module_at _ _ _ Hi). done.
  - destruct owner as [id|m]; intros [H1 H2].
    + left. exists id. split; [done|]. apply elem_of_filterb. split; [by apply bool_decide_eq_true|done].
    + right. exists m. split; [done|]. apply list_elem_of_fmap in H1 as (fm & -> & Hfm). apply list_elem_of_fmap. exists fm. split; [done|].
      apply elem_of_filterb. split; [|done]. apply bool_decide_eq_true. apply list_elem_of_lookup in Hfm as [i Hi].
      rewrite (Hid _ _ Hi), (module_at _ _ _ Hi) in H2. done.
Qed.

Lemma owner_load_known g owner : owners_wf g → app_owner g owner → owner_load g owner ∈ loads_of g.
Proof.
  intros [_ Hid Ho] H. apply elem_of_loads, list_elem_of_fmap. destruct owner as [id|m]; simpl in *.
  - destruct (lookup_lt_is_Some_2 (g_modules g) _ (Ho _ H)) as [fm Hfm]. exists fm. rewrite (module_at _ _ _ Hfm). split; [done|].
    by eapply list_elem_of_lookup_2.
  - apply list_elem_of_fmap in H as (fm & -> & Hfm). apply list_elem_of_lookup in Hfm as [i Hi]. exists fm.
    rewrite (Hid _ _ Hi), (module_at _ _ _ Hi). split; [done|]. by eapply list_elem_of_lookup_2.
Qed.

Lemma elem_of_startup_plan g kind owner i : owners_wf g →
  (owner, i) ∈ startup_plan g kind ↔ app_owner g owner ∧ ∃ hook, hooks_of g owner !! i = Some hook ∧ hk_kind hook = kind.
Proof.
  intros Hwf. unfold startup_plan. rewrite list_elem_of_bind. split.
  - intros (load & H & _). apply list_elem_of_bind in H as (o & [-> Hh]%elem_of_startup_entries & Ho).
    apply elem_of_load_plan in Ho as [Ho _]; done.
  - intros [Ho Hh]. exists (owner_load g owner). split; [|by apply owner_load_known]. apply list_elem_of_bind. exists owner.
    split; [by apply elem_of_startup_entries|]. by apply elem_of_load_plan.
Qed.

Lemma load_plan_nodup g load : owners_wf g → NoDup (load_plan g load).
Proof.
  intros [Hnd Hid _]. unfold load_plan. rewrite (po_perm _ _ _ _ (hook_plan_ok g _ _)). apply NoDup_app. split_and!.
  - apply NoDup_fmap_2; [by intros ? ? [= ->]|]. by apply NoDup_filterb.
  - intros o (id & -> & _)%list_elem_of_fmap (m & E & _)%list_elem_of_fmap. done.
  - apply NoDup_fmap_2; [by intros ? ? [= ->]|]. unfold load_modules. eapply sublist_NoDup; [|apply fmap_sublist, sublist_filter].
    apply NoDup_alt. intros i j x Hi Hj. rewrite list_lookup_fmap in Hi, Hj.
    destruct (g_modules g !! i) as [m|] eqn:Ei; [|done]. destruct (g_modules g !! j) as [m'|] eqn:Ej; [|done].
    simpl in *. rewrite (Hid _ _ Ei) in Hi. rewrite (Hid _ _ Ej) in Hj. congruence.
Qed.

Lemma startup_entries_nodup g kind owner : NoDup (startup_entries g kind owner).
Proof.
  unfold startup_entries. assert (H : ∀ (hs : list HookRecord) n, NoDup (omap (λ ih : nat * HookRecord,
    if bool_decide (hk_kind ih.2 = kind) then Some (owner, ih.1) else None) (imap (λ i h, (n + i, h)) hs))
    ∧ ∀ o i, (o, i) ∈ omap (λ ih : nat * HookRecord, if bool_decide (hk_kind ih.2 = kind) then Some (owner, ih.1) else None) (imap (λ i h, (n + i, h)) hs) → n ≤ i).
  { induction hs as [|h hs IH]; intros n; [split; [constructor|by intros o i ?%not_elem_of_nil]|]. rewrite imap_cons, Nat.add_0_r.
    replace (imap ((λ i h, (n + i, h)) ∘ S) hs) with (imap (λ i h, (S n + i, h)) hs) by (apply imap_ext; intros; simpl; f_equal; lia).
    destruct (IH (S n)) as [IH1 IH2]. change (omap ?f (?x :: ?l)) with (match f x with Some y => y :: omap f l | None => omap f l end).
    simpl. case_bool_decide.
    - split; [constructor; [intros Hin; apply IH2 in Hin; lia|done]|]. intros o i [[= -> ->]|Hin]%elem_of_cons; [done|]. apply IH2 in Hin. lia.
    - split; [done|]. intros o i Hin. apply IH2 in Hin. lia. }
  apply (H (hooks_of g owner) 0).
Qed.

Lemma loads_nodup g : NoDup (loads_of g).
Proof.
  pose proof (loads_of_sorted g) as H. induction H as [|x l Hl IH Hx]; [constructor|]. constructor; [|done].
  intros Hin. rewrite Forall_forall in Hx. by destruct (Hx x Hin).
Qed.

Lemma startup_plan_nodup g kind : owners_wf g → NoDup (startup_plan g kind).
Proof.
  intros Hwf. unfold startup_plan. apply NoDup_bind.
  - intros l1 l2 [o i] _ _ (o1 & [-> _]%elem_of_startup_entries & H1)%list_elem_of_bind
      (o2 & [-> _]%elem_of_startup_entries & H2)%list_elem_of_bind.
    apply elem_of_load_plan in H1 as [_ <-], H2 as [_ <-]; done.
  - intros load _. apply NoDup_bind; [|intros o _; apply startup_entries_nodup|by apply load_plan_nodup].
    intros o1 o2 [o i] _ _ [-> _]%elem_of_startup_entries [-> _]%elem_of_startup_entries. done.
  - apply loads_nodup.
Qed.

(** ** Which hook comes first *)

Lemma bind_pair {A B} (f : A → list B) a b x y l : [a; b] `sublist_of` l → x ∈ f a → y ∈ f b → [x; y] `sublist_of` (l ≫= f).
Proof.
  intros H Hx Hy. apply sublist_cons_l in H as (l1 & l2 & -> & H). apply singleton_sublist_l, list_elem_of_split in H as (l3 & l4 & ->).
  rewrite bind_app. apply sublist_inserts_l. change ((a :: l3 ++ b :: l4) ≫= f) with (f a ++ ((l3 ++ b :: l4) ≫= f)). rewrite bind_app.
  change ((b :: l4) ≫= f) with (f b ++ (l4 ≫= f)).
  change [x; y] with ([x] ++ [y]). apply sublist_app; [by apply singleton_sublist_l|]. apply sublist_inserts_l, sublist_inserts_r. by apply singleton_sublist_l.
Qed.

Lemma bind_pair_in {A B} (f : A → list B) a x y l : a ∈ l → [x; y] `sublist_of` f a → [x; y] `sublist_of` (l ≫= f).
Proof.
  intros (l1 & l2 & ->)%list_elem_of_split H. rewrite bind_app. apply sublist_inserts_l. change ((a :: l2) ≫= f) with (f a ++ (l2 ≫= f)).
  by apply sublist_inserts_r.
Qed.

Lemma owner_bindings_sublist (plan : list HookOwner) a b : [a; b] `sublist_of` omap owner_binding plan → [OwnerBinding a; OwnerBinding b] `sublist_of` plan.
Proof.
  induction plan as [|[id|m] plan IH]; simpl; intros H; [by apply sublist_nil_r in H| |apply sublist_cons; by apply IH].
  apply sublist_cons_r in H as [H|(k & E & H)]; [apply sublist_cons; by apply IH|]. injection E as -> <-.
  apply sublist_skip, singleton_sublist_l. apply singleton_sublist_l in H. by apply elem_of_owner_binding.
Qed.

Lemma sorted_pair (l : list (option nat)) a b : StronglySorted load_before l → a ∈ l → b ∈ l → load_before a b → [a; b] `sublist_of` l.
Proof.
  induction 1 as [|x l Hl IH Hx]; [by intros ?%not_elem_of_nil|]. intros [->|Ha]%elem_of_cons [->|Hb]%elem_of_cons [H1 H2]; [done| | |].
  - by apply sublist_skip, singleton_sublist_l.
  - rewrite Forall_forall in Hx. destruct (Hx a Ha) as [H3 _]. by destruct H2; apply load_le_antisym.
  - apply sublist_cons. by apply IH.
Qed.

Lemma filterb_pair {A} (f : A → bool) (l : list A) a b : [a; b] `sublist_of` l → f a = true → f b = true → [a; b] `sublist_of` filterb f l.
Proof.
  intros H Ha Hb. apply sublist_cons_l in H as (l1 & l2 & -> & H). apply singleton_sublist_l, list_elem_of_split in H as (l3 & l4 & ->).
  rewrite filterb_app, filterb_cons, Ha, filterb_app, filterb_cons, Hb. apply sublist_inserts_l, sublist_skip, sublist_inserts_l, sublist_skip, sublist_nil_l.
Qed.

(** Of two singletons, the hooks of the one earlier in connect order, or loaded earlier, come first
    at startup. *)
Lemma startup_pair g kind a b i j : owners_wf g → [a; b] `sublist_of` g_connect_order g →
  load_le (owner_load g (OwnerBinding a)) (owner_load g (OwnerBinding b)) = true →
  (OwnerBinding a, i) ∈ startup_plan g kind → (OwnerBinding b, j) ∈ startup_plan g kind →
  [(OwnerBinding a, i); (OwnerBinding b, j)] `sublist_of` startup_plan g kind.
Proof.
  intros Hwf Hab Hle Hina Hinb. apply elem_of_startup_plan in Hina as [Ha Hi], Hinb as [Hb Hj]; [|done..].
  assert (Ea : (OwnerBinding a, i) ∈ startup_entries g kind (OwnerBinding a)) by by apply elem_of_startup_entries.
  assert (Eb : (OwnerBinding b, j) ∈ startup_entries g kind (OwnerBinding b)) by by apply elem_of_startup_entries.
  destruct (decide (owner_load g (OwnerBinding a) = owner_load g (OwnerBinding b))) as [E|Hne].
  - apply (bind_pair_in _ (owner_load g (OwnerBinding a))); [by apply owner_load_known|].
    apply (bind_pair _ (OwnerBinding a) (OwnerBinding b)); [|done|done]. apply owner_bindings_sublist.
    unfold load_plan. rewrite (po_bindings _ _ _ _ (hook_plan_ok g _ _)). unfold load_singletons.
    apply filterb_pair; [done|by apply bool_decide_eq_true|]. by apply bool_decide_eq_true.
  - apply (bind_pair _ (owner_load g (OwnerBinding a)) (owner_load g (OwnerBinding b))).
    + apply sorted_pair; [apply loads_of_sorted|by apply owner_load_known|by apply owner_load_known|by split].
    + apply list_elem_of_bind. exists (OwnerBinding a). split; [done|]. by apply elem_of_load_plan.
    + apply list_elem_of_bind. exists (OwnerBinding b). split; [done|]. by apply elem_of_load_plan.
Qed.
