(* ===== verification/ShutdownInv.v ===== *)
(** * ShutdownInv: what holds of an app in every state its events reach *)

From S2P Require Import Prelude Text Key Graph Redact Timer Lifecycle PlanFacts Shutdown ShutdownFacts.
Local Open Scope nat_scope.

(** ** What the hook steps have taken *)

Definition entries (kind : HookKind) (l : list (HookOwner * nat)) : list (HookKind * (HookOwner * nat)) := pair kind <$> l.

Definition full (g : Graph) (kind : HookKind) : list (HookKind * (HookOwner * nat)) := entries kind (shutdown_plan g kind).

(** Every shutdown hook of the app, in the order the steps take them. *)
Definition all_hooks (g : Graph) : list (HookKind * (HookOwner * nat)) :=
  full g BeforeApplicationShutdown ++ full g OnModuleDestroy ++ full g OnApplicationShutdown.

(** The steps behind a stage. *)
Definition steps_before (g : Graph) (stage : Stage) : list (HookKind * (HookOwner * nat)) :=
  match stage with
  | StageTrigger | StageBefore => []
  | StageDrain | StageDestroy => full g BeforeApplicationShutdown
  | StageClose | StageShutdown => full g BeforeApplicationShutdown ++ full g OnModuleDestroy
  | StageDone => all_hooks g
  end.

Definition taken (g : Graph) (p : Progress) : list (HookKind * (HookOwner * nat)) :=
  steps_before g (pg_stage p)
  ++ match stage_kind (pg_stage p) with Some kind => entries kind (take (pg_cursor p) (shutdown_plan g kind)) | None => [] end.

Definition plan_fits (g : Graph) (p : Progress) : Prop :=
  match stage_kind (pg_stage p) with
  | Some kind => (pg_plan p = None ∧ pg_cursor p = 0) ∨ pg_plan p = Some (shutdown_plan g kind)
  | None => pg_plan p = None ∧ (pg_stage p ≠ StageClose → pg_cursor p = 0)
  end.

Definition at_fits (g : Graph) (p : Progress) (a : RunnerAt) : Prop :=
  match a with
  | AtStage => True
  | AtHooks kind | AtHook kind _ _ => stage_kind (pg_stage p) = Some kind ∧ pg_plan p = Some (shutdown_plan g kind)
  | AtDrain _ | AtCancel => pg_stage p = StageDrain
  | AtClose _ => pg_stage p = StageClose
  end.

Definition runner_fits (g : Graph) (p : Progress) (r : option (nat * string * RunnerAt)) : Prop :=
  match r with Some (_, _, a) => at_fits g p a | None => True end.

Record seq_ok (s : Shared) : Prop := {
  sq_ran : sh_ran s = taken (sh_graph s) (sh_progress s);
  sq_plan : plan_fits (sh_graph s) (sh_progress s);
  sq_at : runner_fits (sh_graph s) (sh_progress s) (sh_runner s);
  sq_out : sh_outcome s ≠ None → pg_stage (sh_progress s) = StageDone ∧ sh_runner s = None;
}.

(** A change that leaves the sequence alone, but for a runner gone or come. *)
Record seq_same (s s' : Shared) : Prop := {
  ss_graph : sh_graph s' = sh_graph s;
  ss_progress : sh_progress s' = sh_progress s;
  ss_ran : sh_ran s' = sh_ran s;
  ss_outcome : sh_outcome s' = sh_outcome s;
  ss_runner : sh_runner s' = sh_runner s ∨ sh_runner s' = None
    ∨ (sh_outcome s = None ∧ ∃ id signal, sh_runner s' = Some (id, signal, AtStage));
}.

Lemma seq_same_ok s s' : seq_same s s' → seq_ok s → seq_ok s'.
Proof.
  intros [Hg Hp Hr Ho Hrun] [H1 H2 H3 H4]. split; rewrite ?Hg, ?Hp, ?Hr, ?Ho; [done|done| |].
  - destruct Hrun as [-> |[-> |(_ & i & sig & ->)]]; done.
  - intros Hn. destruct (H4 Hn) as [? ?]. split; [done|]. destruct Hrun as [-> |[-> |(? & _)]]; done.
Qed.

Lemma seq_same_refl s : seq_same s s.
Proof. split; try done. by left. Qed.

Lemma trigger_same s signal cause : seq_same s (trigger_with s signal cause).1.
Proof. unfold trigger_with. destruct (tr_signal (sh_trigger s)); split; try done; by left. Qed.

Lemma release_same s : seq_same s (release_if_last s).
Proof. unfold release_if_last, released_by_drop. destruct (_ || _); [apply seq_same_refl|]. destruct (negb (rl_servers_closed _)); split; try done; by left. Qed.

Lemma seq_same_trans s1 s2 s3 : seq_same s1 s2 → seq_same s2 s3 → seq_same s1 s3.
Proof.
  intros [A1 A2 A3 A4 A5] [B1 B2 B3 B4 B5]. split; [congruence..|]. destruct B5 as [-> |[-> |(E & B5)]]; [done|right; by left|].
  right. right. split; [congruence|done].
Qed.

Lemma poll_claim_same s id : seq_same s (poll_claim s id).
Proof.
  unfold poll_claim. destruct (sh_claims s !! id) as [c|]; [|apply seq_same_refl]. destruct (cl_answer c); [apply seq_same_refl|].
  destruct (cl_dropped c); [split; try done; by left|]. eapply seq_same_trans; [apply (trigger_same s (cl_signal c) None)|].
  set (t := (trigger_with s (cl_signal c) None).1). clearbody t. destruct (sh_outcome t) eqn:Eo; [split; try done; by left|].
  destruct (sh_runner t) eqn:Er; [apply seq_same_refl|]. split; try done. right. right. split; [done|]. by eexists _, _.
Qed.

Lemma drop_claim_same s id : seq_same s (drop_claim s id).
Proof.
  unfold drop_claim. destruct (sh_claims s !! id) as [c|]; [|apply seq_same_refl]. eapply seq_same_trans; [|apply release_same].
  destruct (sh_runner s) as [[[i sig] a]|] eqn:Er; [case_bool_decide|]; split; try done; cbn; rewrite ?Er; [right; by left|by left|by left].
Qed.

Lemma live_same s e :
  match e with EEnter | EAdmit _ _ | EAttach _ | EEnd _ | ELeave _ | EReleased => True | _ => False end → seq_same s (event 0 s e).
Proof.
  destruct e as [| | | | | | |id t|id|id|id]; intros []; cbn [event].
  - unfold finish_release, after_release. destruct (sh_releasing s) as [|[] ?]; (apply seq_same_refl || (split; try done; by left)).
  - split; try done; by left.
  - unfold open_allowed. destruct (lv_executions _ !! id) as [[| |]|]; try apply seq_same_refl. destruct (allows_execution _ _). split; try done; by left.
  - unfold attach. destruct (lv_executions _ !! id) as [[| |]|]; try apply seq_same_refl. split; try done; by left.
  - unfold end_execution. destruct (lv_executions _ !! id) as [[| |]|]; try apply seq_same_refl. split; try done; by left.
  - unfold leave. destruct (lv_executions _ !! id) as [[| |[? [] ?]]|]; try apply seq_same_refl. split; try done; by left.
Qed.

(** ** The runner *)

Lemma entries_snoc kind l x : entries kind (l ++ [x]) = entries kind l ++ [(kind, x)].
Proof. unfold entries. by rewrite fmap_app. Qed.

Lemma next_hook_ok s who kind now : seq_ok s → sh_outcome s = None → stage_kind (pg_stage (sh_progress s)) = Some kind →
  pg_plan (sh_progress s) = Some (shutdown_plan (sh_graph s) kind) → seq_ok (next_hook s who kind now).
Proof.
  intros [H1 H2 H3 H4] Ho Hk Hp. unfold next_hook. rewrite Hp.
  change (default [] (Some (shutdown_plan (sh_graph s) kind))) with (shutdown_plan (sh_graph s) kind). unfold taken in H1. rewrite Hk in H1.
  destruct (shutdown_plan (sh_graph s) kind !! pg_cursor (sh_progress s)) as [[owner index]|] eqn:E.
  - assert (Htook : ∀ p', pg_stage p' = pg_stage (sh_progress s) → pg_plan p' = Some (shutdown_plan (sh_graph s) kind) →
      pg_cursor p' = S (pg_cursor (sh_progress s)) → sh_ran s ++ [(kind, (owner, index))] = taken (sh_graph s) p').
    { intros p' Es Ep Ec. unfold taken. rewrite Es, Ec, Hk, (take_S_r _ _ _ E), entries_snoc, app_assoc, H1. done. }
    assert (Hok : ∀ p' a, pg_stage p' = pg_stage (sh_progress s) → pg_plan p' = Some (shutdown_plan (sh_graph s) kind) →
      pg_cursor p' = S (pg_cursor (sh_progress s)) → (a = AtHooks kind ∨ a = AtHook kind owner index) →
      seq_ok (at_ (took_hook (set_progress s p') kind (owner, index)) who a)).
    { intros p' a Es Ep Ec Ha. split; cbn; [by apply Htook| | |by rewrite Ho].
      - unfold plan_fits. rewrite Es, Hk. by right.
      - destruct Ha as [-> | ->]; cbn; by rewrite Es. }
    set (pw := with_plan (sh_progress s) (Some (shutdown_plan (sh_graph s) kind)) (S (pg_cursor (sh_progress s)))).
    cbn [took_hook sh_config set_progress sh_store sh_graph].
    destruct (hooks_of (sh_graph s) owner !! index) as [hook|]; [|by apply (Hok pw (AtHooks kind)); auto].
    destruct (match pg_cap (sh_progress s) with Some cap => _ | None => _ end); [apply (Hok (with_failures pw _) (AtHooks kind)); auto|].
    destruct owner as [id|m]; [destruct (sh_store s !! id)|];
      (apply (Hok pw (AtHooks kind)); by auto) || (apply (Hok pw (AtHook kind _ index)); by auto).
  - assert (Hall : take (pg_cursor (sh_progress s)) (shutdown_plan (sh_graph s) kind) = shutdown_plan (sh_graph s) kind).
    { apply take_ge. by apply lookup_ge_None. }
    rewrite Hall in H1. unfold hooks_done. cbn [with_plan pg_stage].
    destruct (pg_stage (sh_progress s)) eqn:Es; try done; injection Hk as <-; cbn [steps_before] in H1; split; cbn; rewrite ?Ho; try done;
      rewrite H1; unfold taken; cbn; rewrite ?app_nil_r; try done; unfold all_hooks, full; by rewrite <- ?app_assoc.
Qed.

Lemma servers_closed_ok s who : sh_outcome s = None → sh_ran s = taken (sh_graph s) (sh_progress s) →
  pg_stage (sh_progress s) = StageClose → pg_plan (sh_progress s) = None → seq_ok (servers_closed s who).
Proof.
  intros Ho H1 Es Hp. unfold taken in H1. rewrite Es in H1. cbn in H1. split; cbn; rewrite ?Ho, ?Hp; try done; by left.
Qed.

Lemma at_stage_ok clock_max s who o : seq_ok s → sh_outcome s = None →
  match runner_step clock_max s who AtStage o with Some s' => seq_ok s' | None => False end.
Proof.
  intros [H1 H2 H3 H4] Ho. unfold runner_step, start_closes, end_closes. pose proof H1 as Hran. unfold plan_fits, taken in *.
  destruct (pg_stage (sh_progress s)) eqn:Es; cbn [stage_kind steps_before default bool_decide] in *.
  2,4,6: destruct H2 as [[Hp Hc]|Hp]; rewrite Hp; cbn [default];
    (split; cbn; rewrite ?Ho; try done; unfold taken, plan_fits; cbn; rewrite ?Es; try done; try by right).
  - destruct H2 as [Hp Hc]. split; cbn; rewrite ?Ho; try done; unfold taken, plan_fits; cbn; rewrite ?Hc by done; try done.
    by left.
  - unfold stop_accepting. destruct H2 as [Hp Hc]. destruct (pg_accepting_stopped (sh_progress s)); split; cbn; rewrite ?Ho; try done;
      unfold taken, plan_fits; cbn; by rewrite Es.
  - destruct H2 as [Hp _]. case_bool_decide.
    + apply servers_closed_ok; [done| |done|done]. rewrite Hran. unfold taken. by rewrite Es.
    + split; cbn; rewrite ?Ho; try done; unfold taken, plan_fits; cbn; by rewrite Es.
  - split; cbn; try done; unfold taken, plan_fits; cbn; by rewrite Es.
Qed.

Lemma runner_step_ok clock_max s who a o s' : seq_ok s → sh_outcome s = None → sh_runner s = Some (who.1, who.2, a) →
  runner_step clock_max s who a o = Some s' → seq_ok s'.
Proof.
  intros Hs Ho Hr. pose proof Hs as [H1 H2 H3 H4]. rewrite Hr in H3. cbn in H3. destruct a as [|kind|kind owner index|asked| |bound].
  - pose proof (at_stage_ok clock_max s who o Hs Ho) as H. intros E. by rewrite E in H.
  - intros [= <-]. destruct H3 as [Hk Hp]. by apply next_hook_ok.
  - unfold runner_step, start_closes, end_closes. destruct (run _ _ _ _ _ _) as [[oc rest]|]; [|done]. intros [= <-]. unfold end_hook.
    destruct (hook_failure _ _); split; cbn; rewrite ?Ho; try done.
  - unfold runner_step, start_closes, end_closes. destruct (drain_waited _ _ _ _); [|done]. intros [= <-]. split; cbn; rewrite ?Ho; try done.
  - intros [= <-]. cbn in H3. unfold taken, plan_fits in *. rewrite H3 in H1, H2. cbn in *. destruct H2 as [Hp Hc].
    unfold cancel_rest. cbn. split; cbn; rewrite ?Ho; try done; unfold taken, plan_fits; cbn; rewrite ?H1, ?Hc by done; try done. by left.
  - unfold runner_step, start_closes, end_closes. destruct (mapM _ _) as [ended|]; [|done]. case_bool_decide; [|done]. intros [= <-].
    unfold plan_fits in H2. rewrite H3 in H2. destruct H2 as [Hp _]. by apply servers_closed_ok.
Qed.

Lemma event_seq_ok clock_max s e : seq_ok s → seq_ok (event clock_max s e).
Proof.
  intros Hs. assert (Hpoll : ∀ id, seq_ok (poll_claim s id)) by (intros id; by eapply seq_same_ok; [apply poll_claim_same|]).
  destruct e as [sig cause|id sig|id o|id| | | |id t|id|id|id]; cbn [event].
  - eapply seq_same_ok; [apply trigger_same|done].
  - destruct (sh_claims s !! id); [done|]. eapply seq_same_ok; [|exact Hs]. split; try done. by left.
  - destruct (sh_runner s) as [[[i sig] a]|] eqn:Er; [|done]. case_bool_decide; [|done].
    destruct (runner_step _ _ _ _ _) as [s'|] eqn:E; [|done]. cbn [default].
    assert (Ho : sh_outcome s = None) by (destruct (sh_outcome s) eqn:Ho; [destruct (sq_out s Hs); [by rewrite Ho|congruence]|done]).
    by eapply (runner_step_ok _ s (i, sig) a).
  - eapply seq_same_ok; [apply drop_claim_same|done].
  - eapply seq_same_ok; [|exact Hs]. unfold app_dropped. eapply seq_same_trans; [|apply release_same]. split; try done. by left.
  - eapply seq_same_ok; [apply (live_same s EReleased I)|done].
  - eapply seq_same_ok; [apply (live_same s EEnter I)|done].
  - eapply seq_same_ok; [apply (live_same s (EAdmit id t) I)|done].
  - eapply seq_same_ok; [apply (live_same s (EAttach id) I)|done].
  - eapply seq_same_ok; [apply (live_same s (EEnd id) I)|done].
  - eapply seq_same_ok; [apply (live_same s (ELeave id) I)|done].
Qed.

Lemma running_seq_ok g config store servers : seq_ok (running g config store servers).
Proof. by split. Qed.

(** ** Claims, the servers and the executions, in every state an app reaches *)

(** ** How one step of the runner changes the rest *)

Definition late (stage : Stage) : bool := match stage with StageShutdown | StageDone => true | _ => false end.

(** A step leaves claims and drops alone; it closes the servers at the end of the close step, and
    ends by storing the outcome. *)
Record runner_change (s s' : Shared) (who : nat * string) : Prop := {
  rch_claims : sh_claims s' = sh_claims s;
  rch_releasing : sh_releasing s' = sh_releasing s;
  rch_dropped : rl_app_dropped (sh_release s') = rl_app_dropped (sh_release s);
  rch_closing : rl_closing (sh_release s') = rl_closing (sh_release s);
  rch_released : rl_released (sh_release s') = rl_released (sh_release s);
  rch_closed : (rl_servers_closed (sh_release s') = rl_servers_closed (sh_release s) ∧ sh_servers s' = sh_servers s
      ∧ late (pg_stage (sh_progress s')) = late (pg_stage (sh_progress s)))
    ∨ (rl_servers_closed (sh_release s') = true ∧ sh_servers s' = [] ∧ late (pg_stage (sh_progress s')) = true);
  rch_runner : (∃ a, sh_runner s' = Some (who.1, who.2, a) ∧ sh_outcome s' = sh_outcome s)
    ∨ (sh_runner s' = None ∧ pg_stage (sh_progress s) = StageDone ∧ is_Some (sh_outcome s'));
  rch_trigger : tr_signal (sh_trigger s') = tr_signal (sh_trigger s);
}.

Ltac runner_frame := split; cbn; try done; try (left; by eauto); try (right; by eauto).

Lemma runner_step_change clock_max s who a o s' : seq_ok s → sh_runner s = Some (who.1, who.2, a) →
  runner_step clock_max s who a o = Some s' → runner_change s s' who.
Proof.
  intros Hs Hr. pose proof (sq_at s Hs) as Hat. rewrite Hr in Hat. cbn in Hat. destruct a as [|kind|kind owner index|asked| |bound].
  - unfold runner_step, start_closes, end_closes. intros [= <-]. destruct (pg_stage (sh_progress s)) eqn:Es; cbn [bool_decide].
    + runner_frame. left. by rewrite Es.
    + runner_frame.
    + unfold stop_accepting. destruct (pg_accepting_stopped _); runner_frame.
    + runner_frame.
    + case_bool_decide; runner_frame.
    + runner_frame.
    + runner_frame.
  - intros [= <-]. destruct Hat as [Hk Hp]. unfold next_hook, hooks_done. destruct (_ !! _) as [[owner index]|].
    + destruct (hooks_of _ _ !! _); [|runner_frame]. destruct (match pg_cap _ with Some _ => _ | None => _ end); [runner_frame|].
      destruct owner as [id|m]; [destruct (sh_store _ !! id)|]; runner_frame.
    + cbn. destruct (pg_stage (sh_progress s)) eqn:Es; try done; runner_frame; left; by rewrite Es.
  - unfold runner_step, start_closes, end_closes. destruct (run _ _ _ _ _ _) as [[oc rest]|]; [|done]. intros [= <-]. unfold end_hook.
    destruct (hook_failure _ _); runner_frame.
  - unfold runner_step, start_closes, end_closes. destruct (drain_waited _ _ _ _); [|done]. intros [= <-]. runner_frame.
  - intros [= <-]. unfold cancel_rest. runner_frame. left. by rewrite Hat.
  - unfold runner_step, start_closes, end_closes. destruct (mapM _ _); [|done]. case_bool_decide; [|done]. intros [= <-]. runner_frame.
Qed.

(** ** Claims and servers *)

Section Release.
Context (servers : list TypeName).

Record rel_ok (s : Shared) : Prop := {
  ro_count : rl_closing (sh_release s) = size (sh_claims s);
  ro_runner : ∀ id signal a, sh_runner s = Some (id, signal, a) →
    ∃ c, sh_claims s !! id = Some c ∧ cl_dropped c = false ∧ cl_answer c = None;
  ro_gone : rl_released (sh_release s) = true → rl_servers_closed (sh_release s) = false →
    sh_runner s = None ∧ (∀ id c, sh_claims s !! id = Some c → cl_dropped c = true) ∧ pc_phase (sh_phase s) = Closed
    ∧ ((sh_servers s = [] ∧ sh_draining s = true) ∨ true ∈ sh_releasing s);
  ro_dropped : ∀ id c, sh_claims s !! id = Some c → cl_dropped c = true →
    rl_released (sh_release s) = true ∧ rl_servers_closed (sh_release s) = false;
  ro_due : rl_app_dropped (sh_release s) = true → rl_closing (sh_release s) = 0 → rl_released (sh_release s) = true;
  ro_closed : rl_servers_closed (sh_release s) = late (pg_stage (sh_progress s));
  ro_empty : rl_servers_closed (sh_release s) = true → sh_servers s = [];
  ro_held : rl_released (sh_release s) = false → rl_servers_closed (sh_release s) = false → sh_servers s = servers;
  ro_releasing : ∀ b, b ∈ sh_releasing s → rl_released (sh_release s) = true ∧ b = negb (rl_servers_closed (sh_release s));
  ro_answer : ∀ id c o, sh_claims s !! id = Some c → cl_answer c = Some o →
    if cl_dropped c then so_failures o = [FailDropped] else sh_outcome s = Some o;
}.

Lemma runner_change_rel s s' who a : rel_ok s → seq_ok s → sh_runner s = Some (who.1, who.2, a) → sh_outcome s = None →
  runner_change s s' who → rel_ok s'.
Proof.
  intros [R1 R2 R3 R4 R5 R6 R7 R8 R9 R10] Hs Hr Ho [C1 C2 C3 C4 C5 C6 C7 _].
  assert (Hlive : rl_released (sh_release s) = true → rl_servers_closed (sh_release s) = true).
  { intros E. destruct (rl_servers_closed (sh_release s)) eqn:Ec; [done|]. destruct (R3 E eq_refl) as [Hn _]. congruence. }
  assert (Hclosed : rl_servers_closed (sh_release s') = rl_servers_closed (sh_release s) ∨ rl_servers_closed (sh_release s') = true) by naive_solver.
  assert (Hnodrop : ∀ id c, sh_claims s !! id = Some c → cl_dropped c = false).
  { intros id c Hc. destruct (cl_dropped c) eqn:Ed; [|done]. destruct (R4 id c Hc Ed) as [E1 E2]. rewrite (Hlive E1) in E2. done. }
  split; rewrite ?C1, ?C2, ?C3, ?C4, ?C5.
  - done.
  - intros id sig a' E. destruct C7 as [(a2 & E' & _)|(E' & _)]; [|congruence]. rewrite E' in E. injection E as <- <- <-. by eapply R2.
  - intros E1 E2. specialize (Hlive E1). destruct Hclosed as [E|E]; congruence.
  - intros id c Hc Hd. rewrite (Hnodrop id c Hc) in Hd. done.
  - done.
  - destruct C6 as [(-> & _ & ->)|(-> & _ & ->)]; done.
  - intros E. destruct C6 as [(E1 & -> & _)|(_ & -> & _)]; [|done]. apply R7. congruence.
  - intros E1 E2. destruct C6 as [(E3 & -> & _)|(E3 & _)]; [|congruence]. apply R8; [done|congruence].
  - intros b Hb. destruct (R9 b Hb) as [E1 ->]. split; [done|]. rewrite (Hlive E1). destruct Hclosed as [-> | ->]; by rewrite ?(Hlive E1).
  - intros id c oc Hc Ha. rewrite (Hnodrop id c Hc). specialize (R10 id c oc Hc Ha). rewrite (Hnodrop id c Hc) in R10. congruence.
Qed.

(** A change that leaves claims, drops, servers and the sequence's place alone. *)
Record rel_same (s s' : Shared) : Prop := {
  rs_claims : sh_claims s' = sh_claims s;
  rs_releasing : sh_releasing s' = sh_releasing s;
  rs_release : sh_release s' = sh_release s;
  rs_servers : sh_servers s' = sh_servers s;
  rs_runner : sh_runner s' = sh_runner s;
  rs_outcome : sh_outcome s' = sh_outcome s;
  rs_progress : sh_progress s' = sh_progress s;
  rs_phase : pc_phase (sh_phase s') = pc_phase (sh_phase s);
  rs_draining : sh_draining s' = sh_draining s;
}.

Lemma rel_same_ok s s' : rel_same s s' → rel_ok s → rel_ok s'.
Proof. intros [E1 E2 E3 E4 E5 E6 E7 E8 E9] [R1 R2 R3 R4 R5 R6 R7 R8 R9 R10]. split; rewrite ?E1, ?E2, ?E3, ?E4, ?E5, ?E6, ?E7, ?E8, ?E9; done. Qed.

Lemma trigger_rel s signal cause : rel_ok s → rel_ok (trigger_with s signal cause).1.
Proof. apply rel_same_ok. unfold trigger_with. by destruct (tr_signal _). Qed.

Lemma admit_phase c terminal : pc_phase (allows_execution c terminal).1 = pc_phase c ∧ pc_drain_ended (allows_execution c terminal).1 = pc_drain_ended c.
Proof. unfold allows_execution. destruct (negb terminal); [done|]. by destruct (_ && _). Qed.

Lemma live_rel s e :
  match e with EEnter | EAdmit _ _ | EAttach _ | EEnd _ | ELeave _ => True | _ => False end → rel_ok s → rel_ok (event 0 s e).
Proof.
  intros He. apply rel_same_ok. destruct e as [| | | | | | |id t|id|id|id]; try done; cbn [event].
  - unfold open_allowed. destruct (lv_executions _ !! id) as [[| |]|]; try done. pose proof (admit_phase (sh_phase s) t) as [E _].
    by destruct (allows_execution _ _).
  - unfold attach. by destruct (lv_executions _ !! id) as [[| |]|].
  - unfold end_execution. by destruct (lv_executions _ !! id) as [[| |]|].
  - unfold leave. by destruct (lv_executions _ !! id) as [[| |[? [] ?]]|].
Qed.

Lemma claim_rel s id signal : sh_claims s !! id = None → rel_ok s → rel_ok (claim s id signal).
Proof.
  intros Hid [R1 R2 R3 R4 R5 R6 R7 R8 R9 R10]. split; cbn; try done.
  - rewrite map_size_insert_None by done. by rewrite R1.
  - intros i sig a E. destruct (R2 i sig a E) as (c & Hc & H). exists c. split; [|done]. rewrite lookup_insert_ne; [done|]. congruence.
  - intros E1 E2. destruct (R3 E1 E2) as (H1 & H2 & H3 & H4). split_and!; try done. intros i c. rewrite E1, E2. cbn.
    intros [[<- <-]|[_ Hc]]%lookup_insert_Some; [done|by eapply H2].
  - intros i c [[<- <-]|[_ Hc]]%lookup_insert_Some; [|by eapply R4]. cbn. rewrite andb_true_iff, negb_true_iff. done.
  - intros i c o [[<- <-]|[_ Hc]]%lookup_insert_Some; [done|by eapply R10].
Qed.

Lemma answer_rel s id c o : rel_ok s → sh_claims s !! id = Some c → (∀ sig a, sh_runner s ≠ Some (id, sig, a)) →
  (if cl_dropped c then so_failures o = [FailDropped] else sh_outcome s = Some o) → rel_ok (answer_claim s id c o).
Proof.
  intros [R1 R2 R3 R4 R5 R6 R7 R8 R9 R10] Hid Hr Ho. split; cbn; try done.
  - rewrite map_size_insert_Some by done. by rewrite R1.
  - intros i sig a E. destruct (R2 i sig a E) as (c' & Hc & H). exists c'. split; [|done]. rewrite lookup_insert_ne; [done|]. intros ->. by apply Hr in E.
  - intros E1 E2. destruct (R3 E1 E2) as (H1 & H2 & H3 & H4). split_and!; try done. intros i c'.
    intros [[<- <-]|[_ Hc]]%lookup_insert_Some; [cbn; by eapply H2|by eapply H2].
  - intros i c' [[<- <-]|[_ Hc]]%lookup_insert_Some; [cbn; by eapply R4|by eapply R4].
  - intros i c' o' [[<- <-]|[_ Hc]]%lookup_insert_Some; [by intros [= <-]|by eapply R10].
Qed.

Lemma poll_claim_rel s id : rel_ok s → (∀ sig a, sh_runner s ≠ Some (id, sig, a)) → rel_ok (poll_claim s id).
Proof.
  intros Hs Hr. unfold poll_claim. destruct (sh_claims s !! id) as [c|] eqn:Hc; [|done]. destruct (cl_answer c) eqn:Ha; [done|].
  destruct (cl_dropped c) eqn:Hd; [apply answer_rel; [done..|by rewrite Hd]|].
  pose proof (trigger_rel s (cl_signal c) None Hs) as Ht.
  assert (Et : sh_claims (trigger_with s (cl_signal c) None).1 = sh_claims s ∧ sh_runner (trigger_with s (cl_signal c) None).1 = sh_runner s).
  { unfold trigger_with. by destruct (tr_signal _). }
  set (t := (trigger_with s (cl_signal c) None).1) in *. clearbody t. destruct Et as [Ec Er].
  destruct (sh_outcome t) as [o|] eqn:Eo; [apply answer_rel; [done|by rewrite Ec|by rewrite Er|by rewrite Hd]|].
  destruct (sh_runner t) eqn:Ert; [done|]. destruct Ht as [R1 R2 R3 R4 R5 R6 R7 R8 R9 R10]. split; cbn; try done.
  - intros i sig a [= <- <- <-]. exists c. by rewrite Ec.
  - intros E1 E2. destruct (R3 E1 E2) as (_ & H2 & _). rewrite Ec in H2. by rewrite (H2 id c Hc) in Hd.
Qed.

Lemma advance_closed c : pc_phase (advance c Closed) = Closed.
Proof. unfold advance. case_bool_decide as H; [done|]. destruct (pc_phase c); simpl in H; try done; lia. Qed.

(** A drop, of the app or of a claim: claims only go, and the last release follows at once. *)
Definition after_drop (s : Shared) (dropped : bool) (claims : gmap nat Closing) (runner : option (nat * string * RunnerAt)) : Shared :=
  set_release (set_claims (set_runner s runner) claims)
    {| rl_app_dropped := dropped; rl_closing := size claims; rl_released := rl_released (sh_release s);
       rl_servers_closed := rl_servers_closed (sh_release s) |}.

Lemma release_rel s dropped claims runner : rel_ok s → claims ⊆ sh_claims s → (runner = None ∨ runner = sh_runner s) →
  (∀ id sig a, runner = Some (id, sig, a) → is_Some (claims !! id)) → (rl_app_dropped (sh_release s) = true → dropped = true) →
  rel_ok (release_if_last (after_drop s dropped claims runner)).
Proof.
  intros [R1 R2 R3 R4 R5 R6 R7 R8 R9 R10] Hsub Hrun Hrc Hd.
  assert (Hin : ∀ id c, claims !! id = Some c → sh_claims s !! id = Some c) by (intros id c Hc; by eapply lookup_weaken).
  assert (Hrun' : ∀ id sig a, runner = Some (id, sig, a) → ∃ c, claims !! id = Some c ∧ cl_dropped c = false ∧ cl_answer c = None).
  { intros id sig a E. destruct (Hrc id sig a E) as [c Hc]. exists c. split; [done|]. destruct Hrun as [-> | ->]; [done|].
    destruct (R2 id sig a E) as (c' & Hc' & H). rewrite (Hin id c Hc) in Hc'. by injection Hc' as <-. }
  assert (Hgone : rl_released (sh_release s) = true → rl_servers_closed (sh_release s) = false →
    runner = None ∧ (∀ id c, claims !! id = Some c → cl_dropped c = true)).
  { intros E1 E2. destruct (R3 E1 E2) as (H1 & H2 & _). split; [destruct Hrun as [-> | ->]; done|]. intros id c Hc. by eapply H2, Hin. }
  unfold release_if_last, released_by_drop. destruct (negb _ || negb _) eqn:Edue; cbn in Edue.
  - split; cbn; try done.
    + intros E1 E2. destruct (R3 E1 E2) as (_ & _ & H3 & H4). destruct (Hgone E1 E2). done.
    + intros id c Hc. by eapply R4, Hin.
    + intros -> E. apply orb_true_iff in Edue as [Edue|Edue]; [done|]. by rewrite bool_decide_eq_true_2 in Edue.
    + intros id c o Hc. by eapply R10, Hin.
  - apply orb_false_iff in Edue as [E1%negb_false_iff E2%negb_false_iff%bool_decide_eq_true]. apply map_size_empty_inv in E2. subst claims.
    assert (Hn : runner = None) by (destruct runner as [[[i sig] a]|]; [by destruct (Hrc i sig a eq_refl)|done]). subst runner.
    cbn. destruct (rl_servers_closed (sh_release s)) eqn:Ec; cbn; split; cbn; rewrite ?Ec; try done.
    + intros b [Hb|Hb%list_elem_of_singleton]%elem_of_app; [|by subst]. by destruct (R9 b Hb) as [_ ->].
    + intros _ _. split_and!; [done|done|apply advance_closed|]. right. set_solver.
    + intros b [Hb|Hb%list_elem_of_singleton]%elem_of_app; [|by subst]. by destruct (R9 b Hb) as [_ ->].
Qed.

Lemma drop_claim_rel s id : rel_ok s → rel_ok (drop_claim s id).
Proof.
  intros Hs. pose proof Hs as [R1 R2 _ _ _ _ _ _ _ _]. unfold drop_claim. destruct (sh_claims s !! id) as [c|] eqn:Hc; [|done].
  assert (Hsize : rl_closing (sh_release s) - 1 = size (delete id (sh_claims s))).
  { rewrite R1, map_size_delete_Some by by rewrite Hc. lia. }
  assert (Hsub : delete id (sh_claims s) ⊆ sh_claims s) by apply delete_subseteq.
  destruct (sh_runner s) as [[[i sig] a]|] eqn:Er; [case_bool_decide as Hi|].
  - pose proof (release_rel s (rl_app_dropped (sh_release s)) (delete id (sh_claims s)) None Hs Hsub) as H. unfold after_drop in H.
    cbn in *. rewrite Hsize. apply H; [by left|done|done].
  - pose proof (release_rel s (rl_app_dropped (sh_release s)) (delete id (sh_claims s)) (sh_runner s) Hs Hsub) as H. unfold after_drop in H.
    destruct s. cbn in *. rewrite Hsize. apply H; [by right| |done].
    intros i' sig' a' E. rewrite Er in E. injection E as <- <- <-. rewrite lookup_delete_ne by done.
    destruct (R2 i sig a eq_refl) as (c' & -> & _). done.
  - pose proof (release_rel s (rl_app_dropped (sh_release s)) (delete id (sh_claims s)) (sh_runner s) Hs Hsub) as H. unfold after_drop in H.
    destruct s. cbn in *. rewrite Hsize. apply H; [by right| |done]. rewrite Er. done.
Qed.

Lemma app_dropped_rel s : rel_ok s → rel_ok (app_dropped s).
Proof.
  intros Hs. pose proof Hs as [R1 R2 _ _ _ _ _ _ _ _].
  pose proof (release_rel s true (sh_claims s) (sh_runner s) Hs ltac:(done)) as H. unfold after_drop, app_dropped in *.
  destruct s. cbn in *. rewrite R1. apply H; [by right| |done]. intros id sig a E. destruct (R2 id sig a E) as (c & -> & _). done.
Qed.

Lemma finish_release_rel s : rel_ok s → rel_ok (finish_release s).
Proof.
  intros Hs. unfold finish_release. destruct (sh_releasing s) as [|b rest] eqn:Er; [done|].
  destruct Hs as [R1 R2 R3 R4 R5 R6 R7 R8 R9 R10]. destruct (R9 b) as [E1 Eb]; [rewrite Er; by left|]. unfold after_release.
  destruct (rl_servers_closed (sh_release s)) eqn:Ec; subst b; cbn [negb].
  - split; cbn; rewrite ?Ec; try done; try congruence. intros b Hb. apply R9. rewrite Er. by right.
  - split; cbn; rewrite ?Ec; try done; try congruence.
    + intros _ _. destruct (R3 E1 eq_refl) as (H1 & H2 & H3 & _). split_and!; try done. by left.
    + intros b Hb. apply R9. rewrite Er. by right.
Qed.

Lemma event_rel_ok clock_max s e : seq_ok s → rel_ok s → rel_ok (event clock_max s e).
Proof.
  intros Hq Hs. destruct e as [sig cause|id sig|id o|id| | | |id t|id|id|id]; cbn [event].
  - by apply trigger_rel.
  - destruct (sh_claims s !! id) eqn:E; [done|]. by apply claim_rel.
  - destruct (sh_runner s) as [[[i sig] a]|] eqn:Er; [|apply poll_claim_rel; [done|by rewrite Er]].
    case_bool_decide as Hi; [|apply poll_claim_rel; [done|rewrite Er; congruence]].
    destruct (runner_step _ _ _ _ _) as [s'|] eqn:E; [|done]. cbn [default].
    assert (Ho : sh_outcome s = None) by (destruct (sh_outcome s) eqn:Ho; [destruct (sq_out s Hq); [by rewrite Ho|congruence]|done]).
    eapply (runner_change_rel s s' (i, sig) a); try done. by eapply runner_step_change.
  - by apply drop_claim_rel.
  - by apply app_dropped_rel.
  - by apply finish_release_rel.
  - by apply (live_rel s EEnter I).
  - by apply (live_rel s (EAdmit id t) I).
  - by apply (live_rel s (EAttach id) I).
  - by apply (live_rel s (EEnd id) I).
  - by apply (live_rel s (ELeave id) I).
Qed.

Lemma running_rel_ok g config store : rel_ok (running g config store servers).
Proof. split; cbn; try done. intros b ?%not_elem_of_nil. done. Qed.
End Release.
