(* ===== verification/PhaseInv.v ===== *)
(** * PhaseInv: phases and executions in every state an app reaches, and the end of the sequence *)

From S2P Require Import Prelude Text Key Graph Redact Timer Lifecycle PlanFacts Shutdown ShutdownFacts ShutdownInv.
Local Open Scope nat_scope.

Definition rank (s : Shared) : nat := phase_rank (pc_phase (sh_phase s)).

Definition drained (stage : Stage) : bool := match stage with StageDestroy | StageClose | StageShutdown | StageDone => true | _ => false end.
Definition destroying (p : Progress) : bool :=
  match pg_stage p with
  | StageDestroy => match pg_plan p with Some _ => true | None => false end
  | StageClose | StageShutdown | StageDone => true
  | _ => false
  end.

Record phase_ok (s : Shared) : Prop := {
  pk_stopping : pg_stage (sh_progress s) ≠ StageTrigger → 3 ≤ rank s;
  pk_accept : pg_accepting_stopped (sh_progress s) = true → 4 ≤ rank s ∧ sh_draining s = true;
  pk_wait : match sh_runner s with
            | Some (_, _, AtDrain _) => pg_accepting_stopped (sh_progress s) = true
            | Some (_, _, AtCancel) => pg_accepting_stopped (sh_progress s) = true ∧ pc_drain_ended (sh_phase s) = true
            | _ => True
            end;
  pk_drained : drained (pg_stage (sh_progress s)) = true →
    pg_accepting_stopped (sh_progress s) = true ∧ pc_drain_ended (sh_phase s) = true ∧ lv_cancelled (sh_live s) = true;
  pk_destroy : destroying (sh_progress s) = true → 5 ≤ rank s;
  pk_done : pg_stage (sh_progress s) = StageDone → 6 ≤ rank s;
  pk_cancel : lv_cancelled (sh_live s) = true → pc_drain_ended (sh_phase s) = true ∧ 4 ≤ rank s;
  pk_live : lv_cancelled (sh_live s) = true → ∀ id x, lv_executions (sh_live s) !! id = Some (Attached x) →
    xc_ended x = true ∨ xc_cancelled x = true;
}.

(** A change that leaves the sequence and the live set alone, and the phase no earlier. *)
Record phase_same (s s' : Shared) : Prop := {
  pa_seq : seq_same s s';
  pa_rank : rank s ≤ rank s';
  pa_ended : pc_drain_ended (sh_phase s') = pc_drain_ended (sh_phase s);
  pa_draining : sh_draining s = true → sh_draining s' = true;
  pa_cancelled : lv_cancelled (sh_live s') = lv_cancelled (sh_live s);
  pa_live : lv_cancelled (sh_live s) = true → (∀ id x, lv_executions (sh_live s) !! id = Some (Attached x) → xc_ended x = true ∨ xc_cancelled x = true) →
    ∀ id x, lv_executions (sh_live s') !! id = Some (Attached x) → xc_ended x = true ∨ xc_cancelled x = true;
}.

Lemma phase_same_ok s s' : phase_same s s' → phase_ok s → phase_ok s'.
Proof.
  intros [[Eg Ep Er Eo Erun] Hr He Hd Hc Hl] [K1 K2 K3 K4 K5 K6 K7 K8]. split; rewrite ?Ep, ?He, ?Hc.
  - intros H. specialize (K1 H). lia.
  - intros H. destruct (K2 H). split; [lia|auto].
  - destruct Erun as [-> |[-> |(_ & i & sig & ->)]]; done.
  - done.
  - intros H. specialize (K5 H). lia.
  - intros H. specialize (K6 H). lia.
  - intros H. destruct (K7 H). split; [done|lia].
  - intros H id x Hx. eapply Hl; [done|by apply K8|done].
Qed.

Lemma rank_advance c to : phase_rank (pc_phase (advance c to)) = Nat.max (phase_rank (pc_phase c)) (phase_rank to).
Proof. unfold advance. case_bool_decide; cbn; lia. Qed.

Lemma ended_advance c to : pc_drain_ended (advance c to) = pc_drain_ended c.
Proof. unfold advance. by case_bool_decide. Qed.

Lemma trigger_phase s signal cause : phase_same s (trigger_with s signal cause).1.
Proof. split; [apply trigger_same|..]; unfold trigger_with; destruct (tr_signal _); done. Qed.

Lemma poll_claim_phase s id : phase_same s (poll_claim s id).
Proof.
  split; [apply poll_claim_same|..]; unfold poll_claim, trigger_with; destruct (sh_claims s !! id) as [c|]; try done; destruct (cl_answer c); try done;
    destruct (cl_dropped c); try done; destruct (tr_signal _); cbn; destruct (sh_outcome s); try done; by destruct (sh_runner s).
Qed.

Lemma release_phase s : phase_same s (release_if_last s).
Proof.
  split; [apply release_same|..]; unfold release_if_last, released_by_drop, rank; destruct (_ || _); try done; destruct (negb (rl_servers_closed _)); try done;
    cbn; rewrite ?rank_advance, ?ended_advance; try done; lia.
Qed.

Lemma phase_same_trans s1 s2 s3 : phase_same s1 s2 → phase_same s2 s3 → phase_same s1 s3.
Proof.
  intros [A1 A2 A3 A4 A5 A6] [B1 B2 B3 B4 B5 B6]. split; [by eapply seq_same_trans|lia|congruence|auto|congruence|].
  intros Hc H. apply B6; [congruence|]. by apply A6.
Qed.

Lemma drop_claim_phase s id : phase_same s (drop_claim s id).
Proof.
  unfold drop_claim. destruct (sh_claims s !! id) as [c|]; [|split; try done; apply seq_same_refl]. eapply phase_same_trans; [|apply release_phase].
  destruct (sh_runner s) as [[[i sig] a]|] eqn:Er; [case_bool_decide|]; (split; [|done..]); split; try done; cbn; rewrite ?Er; [right; by left|by left|by left].
Qed.

Lemma finish_release_phase s : phase_same s (finish_release s).
Proof.
  split; [apply (live_same s EReleased I)|..]; unfold finish_release, after_release, rank; destruct (sh_releasing s) as [|[] ?]; done.
Qed.

Lemma admit_phase_same s id terminal : phase_same s (open_allowed s id terminal).
Proof.
  pose proof (admit_phase (sh_phase s) terminal) as [E1 E2].
  split; [apply (live_same s (EAdmit id terminal) I)|..]; unfold open_allowed, rank; destruct (lv_executions _ !! id) as [[| |]|]; try done;
    destruct (allows_execution (sh_phase s) terminal) as [c allowed]; cbn in *; rewrite ?E1, ?E2; try done.
  intros Hc H i x. destruct allowed; [intros [[_ ?]|[_ Hx]]%lookup_insert_Some; [done|by eapply H]|intros [_ Hx]%lookup_delete_Some; by eapply H].
Qed.

Lemma attach_phase_same s id : phase_same s (attach s id).
Proof.
  split; [apply (live_same s (EAttach id) I)|..]; unfold attach, rank; destruct (lv_executions _ !! id) as [[|t|]|]; try done.
  cbn. intros Hc H i x [[_ [= <-]]|[_ Hx]]%lookup_insert_Some; [by right|by eapply H].
Qed.

Lemma end_phase_same s id : phase_same s (end_execution s id).
Proof.
  split; [apply (live_same s (EEnd id) I)|..]; unfold end_execution, rank; destruct (lv_executions _ !! id) as [[|t|y]|]; try done.
  cbn. intros Hc H i x [[_ [= <-]]|[_ Hx]]%lookup_insert_Some; [by left|by eapply H].
Qed.

Lemma leave_phase_same s id : phase_same s (leave s id).
Proof.
  split; [apply (live_same s (ELeave id) I)|..]; unfold leave, rank; destruct (lv_executions _ !! id) as [[|t|[? [] ?]]|]; try done.
  cbn. intros Hc H i x [_ Hx]%lookup_delete_Some. by eapply H.
Qed.

Lemma enter_phase_same s : phase_same s (enter s).1.
Proof.
  split; [apply (live_same s EEnter I)|done..|]. cbn. intros Hc H i x [[_ ?]|[_ Hx]]%lookup_insert_Some; [done|by eapply H].
Qed.

Lemma cancel_all_live s id x : lv_executions (sh_live (cancel_all s).1) !! id = Some (Attached x) → xc_ended x = true ∨ xc_cancelled x = true.
Proof.
  cbn. rewrite lookup_fmap. destruct (lv_executions (sh_live s) !! id) as [[|t|y]|]; cbn; try done.
  destruct (xc_ended y) eqn:Ey; intros [= <-]; [by left|by right].
Qed.

(** A step that leaves stage, plan-or-not, acceptance, the drain's end and the live set alone. *)
Lemma phase_ok_frame s s' : phase_ok s → rank s ≤ rank s' → pg_stage (sh_progress s') = pg_stage (sh_progress s) →
  pg_accepting_stopped (sh_progress s') = pg_accepting_stopped (sh_progress s) →
  (destroying (sh_progress s') = true → 5 ≤ rank s') →
  pc_drain_ended (sh_phase s') = pc_drain_ended (sh_phase s) → sh_draining s' = sh_draining s → sh_live s' = sh_live s →
  (∀ i sig a, sh_runner s' = Some (i, sig, a) → match a with AtDrain _ | AtCancel => False | _ => True end) → phase_ok s'.
Proof.
  intros [K1 K2 K3 K4 K5 K6 K7 K8] Hr Es Ea Hd Ee Edr El Hrun. split; rewrite ?Es, ?Ea, ?Ee, ?Edr, ?El; try done.
  - intros H. specialize (K1 H). lia.
  - intros H. destruct (K2 H). split; [lia|done].
  - destruct (sh_runner s') as [[[i sig] a]|]; [|done]. specialize (Hrun i sig a eq_refl). by destruct a.
  - intros H. specialize (K6 H). lia.
  - intros H. destruct (K7 H). split; [done|lia].
Qed.

Lemma destroying_hook p kind : stage_kind (pg_stage p) = Some kind → is_Some (pg_plan p) → ∀ p', pg_stage p' = pg_stage p → destroying p' = true → destroying p = true.
Proof. unfold destroying. intros Hk [pl Hp] p' ->. rewrite Hp. by destruct (pg_stage p). Qed.

Lemma next_hook_phase s who kind now : phase_ok s → stage_kind (pg_stage (sh_progress s)) = Some kind → is_Some (pg_plan (sh_progress s)) →
  phase_ok (next_hook s who kind now).
Proof.
  intros Hs Hk Hp. pose proof Hs as [K1 K2 K3 K4 K5 K6 K7 K8].
  assert (Hd : ∀ p', pg_stage p' = pg_stage (sh_progress s) → destroying p' = true → 5 ≤ rank s).
  { intros p' E H. apply K5. by eapply destroying_hook. }
  unfold next_hook, hooks_done. destruct (_ !! _) as [[owner index]|].
  - destruct (hooks_of _ _ !! _); [|apply (phase_ok_frame s); try done; try (by apply Hd); by intros i sig a [= <- <- <-]].
    destruct (match pg_cap _ with Some _ => _ | None => _ end); [apply (phase_ok_frame s); try done; try (by apply Hd); by intros i sig a [= <- <- <-]|].
    destruct owner as [id|m]; [destruct (sh_store _ !! id)|]; (apply (phase_ok_frame s); try done; try (by apply Hd); by intros i sig a [= <- <- <-]).
  - cbn. destruct (pg_stage (sh_progress s)) eqn:Es; try done.
    + split; cbn; try done. intros _. by apply K1.
    + destruct (K4 eq_refl) as (A1 & A2 & A3). assert (H5 : 5 ≤ rank s) by (apply K5; unfold destroying; rewrite Es; by destruct Hp as [? ->]).
      unfold rank in *. split; cbn; try done; unfold rank; cbn; lia.
    + destruct (K4 eq_refl) as (A1 & A2 & A3). unfold rank in *. destruct (K7 A3) as [_ ?]. destruct (K2 A1).
      split; cbn; unfold rank; cbn; rewrite ?rank_advance, ?ended_advance; cbn; try done; try (split; [|done]); try lia.
      * intros _. split; [done|lia].
Qed.

Ltac phase_solve := unfold rank in *; split; cbn; unfold rank; cbn; rewrite ?rank_advance, ?ended_advance; cbn; try done; try lia; try (intros _; split; [lia|done]).

Lemma servers_closed_phase s who : phase_ok s → pg_stage (sh_progress s) = StageClose → phase_ok (servers_closed s who).
Proof.
  intros [K1 K2 K3 K4 K5 K6 K7 K8] Es. rewrite Es in *. destruct (K4 eq_refl) as (A1 & A2 & A3). destruct (K2 A1).
  assert (H5 : 5 ≤ rank s) by (apply K5; unfold destroying; by rewrite Es). phase_solve.
Qed.

Lemma at_stage_phase clock_max s who o s' : seq_ok s → phase_ok s → runner_step clock_max s who AtStage o = Some s' → phase_ok s'.
Proof.
  intros Hq Hs. pose proof Hs as [K1 K2 K3 K4 K5 K6 K7 K8]. pose proof (sq_plan s Hq) as Hplan. unfold plan_fits in Hplan.
  unfold runner_step, start_closes, end_closes. intros [= <-]. destruct (pg_stage (sh_progress s)) eqn:Es; cbn [bool_decide stage_kind] in *.
  - phase_solve; [intros H; destruct (K2 H); split; [lia|done]|intros H; destruct (K7 H); split; [done|lia]].
  - apply (phase_ok_frame s); try done; try (unfold destroying; cbn; by rewrite Es); by intros i sig a [= <- <- <-].
  - specialize (K1 ltac:(done)). unfold stop_accepting. destruct (pg_accepting_stopped (sh_progress s)) eqn:Ea.
    + destruct (K2 eq_refl). phase_solve; rewrite ?Es; done.
    + phase_solve; rewrite ?Es; try done; try (unfold destroying; cbn; by rewrite Es). intros H. destruct (K7 H); split; [done|lia].
  - destruct (K4 eq_refl) as (A1 & A2 & A3). destruct (K2 A1). destruct (K7 A3). case_bool_decide; [|done].
    phase_solve; rewrite ?Es; try done; intros _; split; [done|lia].
  - case_bool_decide; [by apply servers_closed_phase|]. apply (phase_ok_frame s); try done; try (by intros i sig a [= <- <- <-]).
  - destruct (K4 eq_refl) as (A1 & A2 & A3). destruct (K2 A1). assert (H5 : 5 ≤ rank s) by (apply K5; unfold destroying; by rewrite Es).
    phase_solve; rewrite ?Es; done.
  - by apply (phase_ok_frame s).
Qed.

Lemma runner_step_phase clock_max s who a o s' : seq_ok s → phase_ok s → sh_runner s = Some (who.1, who.2, a) →
  runner_step clock_max s who a o = Some s' → phase_ok s'.
Proof.
  intros Hq Hs Hr. pose proof (sq_at s Hq) as Hat. rewrite Hr in Hat. cbn in Hat. pose proof Hs as [K1 K2 K3 K4 K5 K6 K7 K8]. rewrite Hr in K3.
  destruct a as [|kind|kind owner index|asked| |bound].
  - by apply at_stage_phase.
  - intros [= <-]. destruct Hat as [Hk Hp]. apply next_hook_phase; [done|done|by rewrite Hp].
  - unfold runner_step, start_closes, end_closes. destruct (run _ _ _ _ _ _) as [[oc rest]|]; [|done]. intros [= <-]. unfold end_hook.
    destruct (hook_failure _ _); apply (phase_ok_frame s); try done; by intros i sig a [= <- <- <-].
  - unfold runner_step, start_closes, end_closes. destruct (drain_waited _ _ _ _); [|done]. intros [= <-]. destruct (K2 K3). phase_solve. by rewrite Hat.
  - intros [= <-]. destruct K3 as [A1 A2]. destruct (K2 A1). pose proof (sq_plan s Hq) as Hplan. unfold plan_fits in Hplan. rewrite Hat in Hplan.
    destruct Hplan as [Hp _]. unfold rank in *. split; try (by cbn); try (unfold rank; cbn; lia).
    + unfold destroying. cbn. by rewrite Hp.
    + intros _. apply cancel_all_live.
  - unfold runner_step, start_closes, end_closes. destruct (mapM _ _); [|done]. case_bool_decide; [|done]. intros [= <-]. apply servers_closed_phase; [|done].
    apply (phase_ok_frame s); try done. cbn. rewrite Hr. by intros i sig a [= <- <- <-].
Qed.

Lemma event_phase_ok clock_max s e : seq_ok s → phase_ok s → phase_ok (event clock_max s e).
Proof.
  intros Hq Hs. destruct e as [sig cause|id sig|id o|id| | | |id t|id|id|id]; cbn [event].
  - eapply phase_same_ok; [apply trigger_phase|done].
  - destruct (sh_claims s !! id); [done|]. eapply phase_same_ok; [|exact Hs]. split; try done. split; try done. by left.
  - destruct (sh_runner s) as [[[i sig] a]|] eqn:Er; [|by eapply phase_same_ok; [apply poll_claim_phase|]].
    case_bool_decide; [|by eapply phase_same_ok; [apply poll_claim_phase|]].
    destruct (runner_step _ _ _ _ _) as [s'|] eqn:E; [|done]. by eapply (runner_step_phase _ s (i, sig) a).
  - eapply phase_same_ok; [apply drop_claim_phase|done].
  - eapply phase_same_ok; [|exact Hs]. unfold app_dropped. eapply phase_same_trans; [|apply release_phase]. split; try done. split; try done. by left.
  - eapply phase_same_ok; [apply finish_release_phase|done].
  - eapply phase_same_ok; [apply enter_phase_same|done].
  - eapply phase_same_ok; [apply admit_phase_same|done].
  - eapply phase_same_ok; [apply attach_phase_same|done].
  - eapply phase_same_ok; [apply end_phase_same|done].
  - eapply phase_same_ok; [apply leave_phase_same|done].
Qed.

Lemma running_phase_ok g config store servers : phase_ok (running g config store servers).
Proof. split; cbn; try done; unfold rank; cbn; lia. Qed.

(** ** Every state an app reaches *)

Record app_ok (servers : list TypeName) (s : Shared) : Prop := {
  ok_seq : seq_ok s;
  ok_rel : rel_ok servers s;
  ok_phase : phase_ok s;
}.

Lemma event_ok clock_max servers s e : app_ok servers s → app_ok servers (event clock_max s e).
Proof. intros [H1 H2 H3]. split; [by apply event_seq_ok|by apply event_rel_ok|by apply event_phase_ok]. Qed.

Lemma reached_ok clock_max servers s es : app_ok servers s → app_ok servers (events clock_max s es).
Proof. revert s. induction es as [|e es IH]; intros s Hs; [done|]. cbn. by apply IH, event_ok. Qed.

Lemma running_ok g config store servers : app_ok servers (running g config store servers).
Proof. split; [apply running_seq_ok|apply running_rel_ok|apply running_phase_ok]. Qed.
