(* ===== verification/SequenceEnds.v ===== *)
(** * SequenceEnds: the sequence comes to its end *)

From S2P Require Import Prelude Text Key Graph Redact Timer Lifecycle PlanFacts Shutdown ShutdownFacts ShutdownInv PhaseInv.
Local Open Scope nat_scope.

(** The steps left from a stage on: of a hook step, two for each hook left, its start and its end. *)
Definition hook_steps (g : Graph) (kind : HookKind) (cursor : nat) : nat := 2 * (length (shutdown_plan g kind) - cursor) + 2.

Definition stage_steps (g : Graph) (stage : Stage) (cursor : nat) : nat :=
  let done := 1 in
  let shutdown c := hook_steps g OnApplicationShutdown c + done in
  let close := 2 + shutdown 0 in
  let destroy c := hook_steps g OnModuleDestroy c + close in
  let drain := 3 + destroy 0 in
  let before c := hook_steps g BeforeApplicationShutdown c + drain in
  match stage with
  | StageTrigger => 1 + before 0
  | StageBefore => before cursor
  | StageDrain => drain
  | StageDestroy => destroy cursor
  | StageClose => close
  | StageShutdown => shutdown cursor
  | StageDone => done
  end.

Definition steps_left (s : Shared) (a : RunnerAt) : nat :=
  let n := stage_steps (sh_graph s) (pg_stage (sh_progress s)) (pg_cursor (sh_progress s)) in
  match a with AtStage | AtHook _ _ _ => n | AtHooks _ | AtDrain _ | AtClose _ => n - 1 | AtCancel => n - 2 end.

(** What one step leads to: the outcome, or the same runner with fewer steps left. *)
Definition gets_on (s s' : Shared) (who : nat * string) (n : nat) : Prop :=
  is_Some (sh_outcome s') ∨ (sh_outcome s' = sh_outcome s ∧ ∃ a, sh_runner s' = Some (who.1, who.2, a) ∧ steps_left s' a < n).

Lemma hook_steps_next g kind c : c < length (shutdown_plan g kind) → hook_steps g kind (S c) < hook_steps g kind c - 1.
Proof. unfold hook_steps. lia. Qed.

Lemma stage_steps_next g stage kind c : stage_kind stage = Some kind → c < length (shutdown_plan g kind) →
  stage_steps g stage (S c) < stage_steps g stage c - 1.
Proof. intros Hk Hc%hook_steps_next. destruct stage; try done; injection Hk as <-; unfold stage_steps; lia. Qed.

Lemma next_hook_gets_on s who kind now : stage_kind (pg_stage (sh_progress s)) = Some kind →
  pg_plan (sh_progress s) = Some (shutdown_plan (sh_graph s) kind) → gets_on s (next_hook s who kind now) who (steps_left s (AtHooks kind)).
Proof.
  intros Hk Hp. right. unfold next_hook. rewrite Hp. change (default [] (Some (shutdown_plan (sh_graph s) kind))) with (shutdown_plan (sh_graph s) kind).
  destruct (_ !! _) as [[owner index]|] eqn:E.
  - apply lookup_lt_Some in E. pose proof (stage_steps_next (sh_graph s) _ _ _ Hk E) as Hn.
    destruct (hooks_of _ _ !! _); [|split; [done|]; eexists; split; [reflexivity|]; cbn; lia].
    destruct (match pg_cap _ with Some _ => _ | None => _ end); [split; [done|]; eexists; split; [reflexivity|]; cbn; lia|].
    destruct owner as [id|m]; [destruct (sh_store _ !! id)|]; (split; [done|]; eexists; split; [reflexivity|]; cbn; lia).
  - unfold hooks_done. cbn. destruct (pg_stage (sh_progress s)) eqn:Es; try done; (split; [done|]; eexists; split; [reflexivity|]);
      unfold steps_left; cbn; rewrite ?Es; unfold stage_steps, hook_steps; lia.
Qed.

Lemma runner_gets_on clock_max s who a o s' : seq_ok s → sh_runner s = Some (who.1, who.2, a) → runner_step clock_max s who a o = Some s' →
  gets_on s s' who (steps_left s a).
Proof.
  intros Hq Hr. pose proof (sq_at s Hq) as Hat. rewrite Hr in Hat. cbn in Hat. pose proof (sq_plan s Hq) as Hplan. unfold plan_fits in Hplan.
  destruct a as [|kind|kind owner index|asked| |bound].
  - unfold runner_step, start_closes, end_closes. intros [= <-]. destruct (pg_stage (sh_progress s)) eqn:Es; cbn [stage_kind] in *; try case_bool_decide;
      try (right; split; [done|]; eexists; split; [reflexivity|]; unfold steps_left; cbn; rewrite ?Es; unfold stage_steps, hook_steps; lia).
    + right. unfold stop_accepting. destruct (pg_accepting_stopped _); (split; [done|]; eexists; split; [reflexivity|]);
        unfold steps_left; cbn; rewrite ?Es; unfold stage_steps, hook_steps; lia.
    + left. done.
  - intros [= <-]. destruct Hat as [Hk Hp]. by apply next_hook_gets_on.
  - unfold runner_step, start_closes, end_closes. destruct (run _ _ _ _ _ _) as [[oc rest]|]; [|done]. intros [= <-]. right. destruct Hat as [Hk _].
    assert (Hpos : 0 < stage_steps (sh_graph s) (pg_stage (sh_progress s)) (pg_cursor (sh_progress s))).
    { unfold stage_steps, hook_steps. destruct (pg_stage _); lia. }
    unfold end_hook. destruct (hook_failure _ _); (split; [done|]; eexists; split; [reflexivity|]; cbn; lia).
  - unfold runner_step, start_closes, end_closes. destruct (drain_waited _ _ _ _); [|done]. intros [= <-]. right. split; [done|]. eexists. split; [reflexivity|].
    unfold steps_left. cbn. rewrite Hat. unfold stage_steps, hook_steps. lia.
  - intros [= <-]. right. split; [done|]. eexists. split; [reflexivity|]. unfold steps_left. cbn. rewrite Hat. rewrite Hat in Hplan. destruct Hplan as [_ Hc].
    rewrite Hc by done. unfold stage_steps, hook_steps. lia.
  - unfold runner_step, start_closes, end_closes. destruct (mapM _ _); [|done]. case_bool_decide; [|done]. intros [= <-]. right. split; [done|]. eexists. split; [reflexivity|].
    unfold steps_left. cbn. rewrite Hat. unfold stage_steps, hook_steps. lia.
Qed.

(** ** Polling on *)

Section Polling.
Context (clock_max : N) (servers : list TypeName) (id : nat).

(** The polls a [close] is given answer what it waits on: no step of the runner waits. *)
Definition answers (s : Shared) (o : Obs) : Prop :=
  match sh_runner s with Some (i, sig, a) => i = id → is_Some (runner_step clock_max s (i, sig) a o) | None => True end.

Fixpoint answered (s : Shared) (obs : list Obs) : Prop :=
  match obs with [] => True | o :: obs => answers s o ∧ answered (event clock_max s (EPoll id o)) obs end.

Definition answersb (s : Shared) (o : Obs) : bool :=
  match sh_runner s with
  | Some (i, sig, a) => if bool_decide (i = id) then match runner_step clock_max s (i, sig) a o with Some _ => true | None => false end else true
  | None => true
  end.

Fixpoint answeredb (s : Shared) (obs : list Obs) : bool :=
  match obs with [] => true | o :: obs => answersb s o && answeredb (event clock_max s (EPoll id o)) obs end.

Lemma answeredb_sound s obs : answeredb s obs = true → answered s obs.
Proof.
  revert s. induction obs as [|o obs IH]; intros s; [done|]. cbn [answeredb answered]. intros [H1 H2]%andb_prop. split; [|by apply IH].
  revert H1. unfold answersb, answers. destruct (sh_runner s) as [[[i sig] a]|]; [|done]. intros H ->.
  rewrite bool_decide_eq_true_2 in H by done. by destruct (runner_step _ _ _ _ _).
Qed.

Lemma steps_left_pos s sig a : seq_ok s → sh_runner s = Some (id, sig, a) → 0 < steps_left s a.
Proof.
  intros Hq Hr. pose proof (sq_at s Hq) as Hat. rewrite Hr in Hat. cbn in Hat. revert Hat. unfold steps_left, stage_steps, hook_steps.
  destruct a; cbn; intros Hat; try (rewrite Hat; lia); destruct (pg_stage (sh_progress s)); try lia; by destruct Hat.
Qed.

(** ** A polled [close] answers *)

(** The polls a whole sequence needs. *)
Definition sequence_steps (g : Graph) : nat := stage_steps g StageTrigger 0.

Lemma steps_left_total s a : steps_left s a ≤ sequence_steps (sh_graph s).
Proof.
  unfold steps_left, sequence_steps, stage_steps, hook_steps. destruct a, (pg_stage (sh_progress s)); lia.
Qed.

Definition claim_answered (s : Shared) : Prop := ∃ c o, sh_claims s !! id = Some c ∧ cl_answer c = Some o.

Lemma poll_kept s o : rel_ok servers s → claim_answered s → claim_answered (event clock_max s (EPoll id o)).
Proof.
  intros Hrel (c & oc & Hc & Ha). assert (Hp : claim_answered (poll_claim s id)) by (unfold poll_claim; rewrite Hc, Ha; by exists c, oc).
  cbn [event]. destruct (sh_runner s) as [[[i sig] a]|] eqn:Er; [|done]. case_bool_decide as E; [|done]. subst i.
  destruct (ro_runner _ _ Hrel _ _ _ Er) as (c' & Hc' & _ & Ha'). congruence.
Qed.

Lemma polls_kept s obs : app_ok servers s → claim_answered s → claim_answered (events clock_max s (EPoll id <$> obs)).
Proof.
  revert s. induction obs as [|o obs IH]; intros s Hs Ha; [done|]. cbn [fmap list_fmap events foldl].
  apply IH; [by apply event_ok|]. apply poll_kept; [apply Hs|done].
Qed.

(** A claim nobody runs for is answered by its poll, or runs the sequence itself. *)
Lemma poll_claim_takes s c : sh_claims s !! id = Some c → sh_runner s = None →
  claim_answered (poll_claim s id) ∨ ∃ sig, sh_runner (poll_claim s id) = Some (id, sig, AtStage).
Proof.
  intros Hc Hr. unfold poll_claim. rewrite Hc. destruct (cl_answer c) as [oc|] eqn:Ea; [left; by exists c, oc|].
  destruct (cl_dropped c); [left; eexists _, _; split; [apply lookup_insert_eq|done]|].
  assert (Er : sh_runner (trigger_with s (cl_signal c) None).1 = None) by (unfold trigger_with; by destruct (tr_signal _)).
  rewrite Er. destruct (sh_outcome _); [left; eexists _, _; split; [apply lookup_insert_eq|done]|]. right. by eexists.
Qed.

Lemma runner_answers s sig a obs : app_ok servers s → sh_runner s = Some (id, sig, a) → answered s obs → steps_left s a < length obs →
  claim_answered (events clock_max s (EPoll id <$> obs)).
Proof.
  revert s a. induction obs as [|o obs IH]; intros s a Hs Hr Hans Hn; [cbn in Hn; lia|].
  destruct Hans as [Ha Hans]. unfold answers in Ha. rewrite Hr in Ha. destruct (Ha eq_refl) as [s' E]. pose proof (event_ok clock_max servers s (EPoll id o) Hs) as Hs'.
  change (claim_answered (events clock_max (event clock_max s (EPoll id o)) (EPoll id <$> obs))).
  assert (Es : event clock_max s (EPoll id o) = s') by (cbn [event]; rewrite Hr, bool_decide_eq_true_2 by done; by rewrite E). rewrite Es in *.
  destruct (runner_gets_on clock_max s (id, sig) a o s' (ok_seq _ _ Hs) Hr E) as [[oc Ho]|(_ & a' & Hr' & Hlt)].
  2: { apply (IH s' a'); try done. cbn in Hn. lia. }
  destruct (ro_runner _ _ (ok_rel _ _ Hs) _ _ _ Hr) as (c & Hc & Hd & Hn0).
  pose proof (rch_claims _ _ _ (runner_step_change clock_max s (id, sig) a o s' (ok_seq _ _ Hs) Hr E)) as Ec. destruct (sq_out s' (ok_seq _ _ Hs')) as [_ Hrun]; [by rewrite Ho|].
  pose proof (steps_left_pos s sig a (ok_seq _ _ Hs) Hr) as Hpos.
  destruct obs as [|o2 obs]; [cbn in Hn; lia|].
  change (claim_answered (events clock_max (event clock_max s' (EPoll id o2)) (EPoll id <$> obs))). apply polls_kept; [by apply event_ok|].
  cbn [event]. rewrite Hrun. destruct (poll_claim_takes s' c) as [H|(sig' & H)]; [by rewrite Ec|done|done|].
  pose proof (event_ok clock_max servers s' (EPoll id o2) Hs') as Hs2. cbn [event] in Hs2. rewrite Hrun in Hs2.
  destruct (sq_out _ (ok_seq _ _ Hs2)) as [_ Hx]; [rewrite (ss_outcome _ _ (poll_claim_same s' id)), Ho; done|congruence].
Qed.

Lemma close_answers s c obs : app_ok servers s → sh_claims s !! id = Some c → (sh_runner s = None ∨ ∃ sig a, sh_runner s = Some (id, sig, a)) →
  answered s obs → S (sequence_steps (sh_graph s)) < length obs → claim_answered (events clock_max s (EPoll id <$> obs)).
Proof.
  intros Hs Hc [Hr|(sig & a & Hr)] Hans Hn.
  2: { eapply runner_answers; [done|done|done|]. pose proof (steps_left_total s a). lia. }
  destruct obs as [|o obs]; [cbn [length] in Hn; lia|]. destruct Hans as [_ Hans]. pose proof (event_ok clock_max servers s (EPoll id o) Hs) as Hs'.
  change (claim_answered (events clock_max (event clock_max s (EPoll id o)) (EPoll id <$> obs))).
  cbn [event] in *. rewrite Hr in *. destruct (poll_claim_takes s c Hc Hr) as [H|(sig & H)]; [by apply polls_kept|].
  eapply runner_answers; [done|done|done|]. pose proof (steps_left_total (poll_claim s id) AtStage) as Hl.
  rewrite (ss_graph _ _ (poll_claim_same s id)) in Hl. cbn [length] in Hn. lia.
Qed.
End Polling.

(** ** Facts for statements *)

Lemma taken_prefix g p : taken g p `prefix_of` all_hooks g.
Proof.
  unfold taken, all_hooks. assert (Ht : ∀ kind n, entries kind (take n (shutdown_plan g kind)) `prefix_of` full g kind).
  { intros kind n. unfold full, entries. rewrite fmap_take. apply prefix_take. }
  destruct (pg_stage p); cbn [steps_before stage_kind].
  - apply prefix_nil.
  - etrans; [apply Ht|]. by apply prefix_app_r.
  - rewrite app_nil_r. by apply prefix_app_r.
  - apply prefix_app. etrans; [apply Ht|]. by apply prefix_app_r.
  - rewrite app_nil_r, app_assoc. by apply prefix_app_r.
  - rewrite (app_assoc (full g BeforeApplicationShutdown)). apply prefix_app, Ht.
  - by rewrite app_nil_r.
Qed.

Lemma elem_of_entries kind kind' e l : (kind, e) ∈ entries kind' l → kind = kind' ∧ e ∈ l.
Proof. unfold entries. intros (x & [= -> ->] & Hx)%list_elem_of_fmap. done. Qed.

(** What has been taken tells how far the sequence is. *)
Lemma taken_kind g p kind e : plan_fits g p → (kind, e) ∈ taken g p →
  match kind with
  | OnModuleDestroy => destroying p = true ∧ drained (pg_stage p) = true
  | OnApplicationShutdown => late (pg_stage p) = true
  | _ => True
  end.
Proof.
  unfold taken, plan_fits, destroying. intros Hp Hin. assert (Hk : kind = OnModuleDestroy ∨ kind = OnApplicationShutdown ∨
    (kind ≠ OnModuleDestroy ∧ kind ≠ OnApplicationShutdown)) by (destruct kind; auto).
  destruct Hk as [-> |[-> |[Hk1 Hk2]]]; [| |by destruct kind].
  - destruct (pg_stage p); cbn [steps_before stage_kind] in *; try done; [by apply not_elem_of_nil in Hin|..].
    + apply elem_of_entries in Hin as [? _]. done.
    + rewrite app_nil_r in Hin. apply elem_of_entries in Hin as [? _]. done.
    + apply elem_of_app in Hin as [Hin|Hin]; [apply elem_of_entries in Hin as [? _]; done|]. destruct Hp as [[-> Hc]|Hp]; [|by rewrite Hp].
      rewrite Hc in Hin. apply elem_of_entries in Hin as [_ Hin]. by apply not_elem_of_nil in Hin.
  - destruct (pg_stage p); cbn [steps_before stage_kind] in *; try done; unfold full in Hin; [by apply not_elem_of_nil in Hin|..].
    + apply elem_of_entries in Hin as [? _]. done.
    + rewrite app_nil_r in Hin. apply elem_of_entries in Hin as [? _]. done.
    + apply elem_of_app in Hin as [Hin|Hin]; apply elem_of_entries in Hin as [? _]; done.
    + rewrite app_nil_r in Hin. apply elem_of_app in Hin as [Hin|Hin]; apply elem_of_entries in Hin as [? _]; done.
Qed.

Lemma all_hooks_nodup g : owners_wf g → NoDup (all_hooks g).
Proof.
  intros Hwf. assert (Hf : ∀ kind, NoDup (full g kind)).
  { intros kind. unfold full, entries. apply NoDup_fmap_2; [by intros ? ? [= ->]|]. rewrite shutdown_plan_reverse, reverse_Permutation. by apply startup_plan_nodup. }
  unfold all_hooks. apply NoDup_app. split_and!; [apply Hf| |apply NoDup_app; split_and!; [apply Hf| |apply Hf]].
  - intros [k e] [-> _]%elem_of_entries [[H _]%elem_of_entries|[H _]%elem_of_entries]%elem_of_app; done.
  - intros [k e] [-> _]%elem_of_entries [H _]%elem_of_entries. done.
Qed.

Lemma event_outcome clock_max s e oc : seq_ok s → sh_outcome s = Some oc → sh_outcome (event clock_max s e) = Some oc.
Proof.
  intros Hq Ho. destruct (sq_out s Hq) as [_ Hr]; [by rewrite Ho|]. rewrite <- Ho.
  destruct e as [sig cause|id sig|id o|id| | | |id t|id|id|id]; cbn [event].
  - apply (ss_outcome _ _ (trigger_same s sig cause)).
  - by destruct (sh_claims s !! id).
  - rewrite Hr. apply (ss_outcome _ _ (poll_claim_same s id)).
  - apply (ss_outcome _ _ (drop_claim_same s id)).
  - unfold app_dropped. by rewrite (ss_outcome _ _ (release_same _)).
  - apply (ss_outcome _ _ (live_same s EReleased I)).
  - done.
  - apply (ss_outcome _ _ (live_same s (EAdmit id t) I)).
  - apply (ss_outcome _ _ (live_same s (EAttach id) I)).
  - apply (ss_outcome _ _ (live_same s (EEnd id) I)).
  - apply (ss_outcome _ _ (live_same s (ELeave id) I)).
Qed.

Lemma events_outcome clock_max s es oc : seq_ok s → sh_outcome s = Some oc → sh_outcome (events clock_max s es) = Some oc.
Proof. revert s. induction es as [|e es IH]; intros s Hq Ho; [done|]. cbn [events foldl]. apply IH; [by apply event_seq_ok|by apply event_outcome]. Qed.

Lemma seq_graph s s' : seq_same s s' → sh_graph s' = sh_graph s.
Proof. by intros []. Qed.

Lemma event_graph clock_max s e : sh_graph (event clock_max s e) = sh_graph s.
Proof.
  destruct e as [sig cause|id sig|id o|id| | | |id t|id|id|id]; cbn [event].
  - apply seq_graph, trigger_same.
  - by destruct (sh_claims s !! id).
  - destruct (sh_runner s) as [[[i sig] a]|]; [|apply seq_graph, poll_claim_same]. case_bool_decide; [|apply seq_graph, poll_claim_same].
    unfold runner_step, start_closes, end_closes. destruct a as [|kind|kind owner index|asked| |bound]; cbn [default].
    + destruct (pg_stage (sh_progress s)); try done; try (by case_bool_decide). unfold stop_accepting. by destruct (pg_accepting_stopped _).
    + unfold next_hook, hooks_done. destruct (_ !! _) as [[owner index]|]; [|by destruct (pg_stage _)]. destruct (hooks_of _ _ !! _); [|done].
      destruct (match pg_cap _ with Some _ => _ | None => _ end); [done|]. destruct owner as [x|m]; [by destruct (sh_store _ !! x)|done].
    + destruct (run _ _ _ _ _ _) as [[oc rest]|]; [|done]. cbn. unfold end_hook. by destruct (hook_failure _ _).
    + by destruct (drain_waited _ _ _ _).
    + done.
    + destruct (mapM _ _); [|done]. by case_bool_decide.
  - apply seq_graph, drop_claim_same.
  - unfold app_dropped. by rewrite (seq_graph _ _ (release_same _)).
  - apply (seq_graph _ _ (live_same s EReleased I)).
  - done.
  - apply (seq_graph _ _ (live_same s (EAdmit id t) I)).
  - apply (seq_graph _ _ (live_same s (EAttach id) I)).
  - apply (seq_graph _ _ (live_same s (EEnd id) I)).
  - apply (seq_graph _ _ (live_same s (ELeave id) I)).
Qed.

Lemma events_graph clock_max s es : sh_graph (events clock_max s es) = sh_graph s.
Proof. revert s. induction es as [|e es IH]; intros s; [done|]. cbn [events foldl]. etrans; [apply IH|]. apply event_graph. Qed.
