(* ===== verification/LifeDemo.v ===== *)
(** * LifeDemo: a small app with hooks, for the lifecycle's examples

    [Users] reads [Store]; [Store] has an init hook, a destroy hook and a readiness check, [Users]
    a destroy and a shutdown hook, and the app's module a before-shutdown hook of its own. *)

From S2P Require Import Prelude Text Key Graph Order Register RegisterFacts Redact Freeze Wire LoadFacts Demo Timer Lifecycle Shutdown.
Local Open Scope nat_scope.

Definition hook (kind : HookKind) (line : nat) : HookRecord := {|
  hk_kind := kind; hk_bound := BoundDefault; hk_bound_at := None; hk_run := line; hk_dependencies := dependencies_default;
  hk_location := loc line |}.

Definition with_hooks (r : BindingRecord) (hooks : list HookRecord) (ready : option ReadyRecord) : BindingRecord := {|
  br_primary := br_primary r; br_qualifier := br_qualifier r; br_built := br_built r; br_into_primary := br_into_primary r;
  br_also := br_also r; br_kind := br_kind r; br_scope := br_scope r; br_controller := br_controller r;
  br_controller_type := br_controller_type r; br_recipe := br_recipe r; br_dependencies := br_dependencies r;
  br_construct_bound := br_construct_bound r; br_construct_bound_at := br_construct_bound_at r; br_ready := ready;
  br_replaced_ready := br_replaced_ready r; br_hooks := hooks; br_constructs := br_constructs r; br_location := br_location r |}.

Definition store_ready : ReadyRecord := {|
  ry_check := 37; ry_dependencies := dependencies_default; ry_retries := 2; ry_backoff := SECOND; ry_backoff_location := None;
  ry_whole := BoundDefault; ry_whole_at := None; ry_attempt := BoundDefault; ry_attempt_at := None; ry_location := loc 37 |}.

Definition life_node (n : @ModuleNode DemoModule) (hooks : list HookRecord) : @ModuleNode DemoModule := {|
  nd_identity := nd_identity n; nd_global := nd_global n; nd_keyed := nd_keyed n; nd_nested_keyed := nd_nested_keyed n;
  nd_inherited_keyed := nd_inherited_keyed n; nd_imports := nd_imports n; nd_bindings := nd_bindings n;
  nd_enhancers := nd_enhancers n; nd_exports := nd_exports n; nd_controllers := nd_controllers n; nd_inputs := nd_inputs n;
  nd_hooks := hooks; nd_meta := nd_meta n; nd_secrets := nd_secrets n; nd_failures := nd_failures n;
  nd_settings := nd_settings n; nd_site := nd_site n |}.

Definition life_register (m : DemoModule) (n : @ModuleNode DemoModule) : @ModuleNode DemoModule :=
  match m with
  | AppModule =>
      life_node (demo_node n [StoreModule]
        [with_hooks (provide Users KSingleton (reads [("store"%string, Single (key_of Store))]) 32)
           [hook OnModuleDestroy 41; hook OnApplicationShutdown 42] None] [] []) [hook BeforeApplicationShutdown 43]
  | StoreModule =>
      demo_node n []
        [with_hooks (provide Store KSingleton dependencies_default 34) [hook OnModuleInit 44; hook OnModuleDestroy 45] (Some store_ready)]
        [Store] []
  | AuditModule => n
  end.

Lemma life_keeps : keeps_identity life_register.
Proof. intros [] n; reflexivity. Qed.

Definition life_env : WireEnv := {| we_timer := Some 7; we_runtime := None; we_knobs_set := []; we_zero_defaults := [] |}.

Definition life_wiring : option (list WiringError.WiringError + Graph) :=
  wire demo_identity demo_settings life_register demo_core 4 AppModule life_env None.

Definition life_graph : Graph := match life_wiring with Some (inr g) => g | _ => empty_graph end.

Lemma life_wired : life_wiring = Some (inr life_graph).
Proof. vm_compute. reflexivity. Qed.

Lemma life_settled : settled life_graph.
Proof. exact (wire_settled demo_identity demo_settings life_register demo_core 4 AppModule life_env None life_graph life_keeps life_wired). Qed.

Definition life_config : AppConfig := {|
  ac_timer := true; ac_drain_timeout := None; ac_shutdown_timeout := None; ac_hook_timeout := None; ac_construct_timeout := None;
  ac_hook_timeout_at := None; ac_construct_timeout_at := None |}.

(** A clock at [now] that refuses nothing. *)
Definition tick (now : N) : Tick := {| tk_now := now; tk_sleep := λ until, if bool_decide (until <= now)%N then Some SleptOk else None |}.

Lemma tick_ok now : tick_keeps (tick now).
Proof. split; intros u; cbn; case_bool_decide; try done. intros _. lia. Qed.

(** User code that ends at once: the store's check fails once and then passes. *)
#[export] Instance life_code : UserCode := {|
  uc_ctor := λ id _, [(tick 1, Some (inl (inl (100 + id))))];
  uc_armed := λ _, 1%N;
  uc_check := λ _ n _, {|
    ty_attempt := inl [(tick 1, Some (inl (if bool_decide (n = 0) then inr (CtorFailed {| be_messages := [str_of "down"]; be_permanent := false |}) else inl tt)))];
    ty_backoff := BackoffSlept |};
  uc_hook := λ _ _ _ _, [(tick 1, Some (inl (inl tt)))];
|}.

Definition no_text (key : KeyName) (reason : FailureReason) : str := [].

Definition started : option (Walk * option ConnectError) :=
  connect 1000 life_graph life_config no_text 5 {| wk_store := ∅; wk_log := [] |} (g_connect_order life_graph) (fm_id <$> g_modules life_graph).

(** Polls that end whatever is awaited. *)
Definition at_once : Obs := {|
  ob_now := 1; ob_hook := [(tick 1, Some (inl (inl tt)))]; ob_drain := [(tick 1, true)]; ob_closes := [[(tick 1, Some (inl (inl tt)))]] |}.

Definition life_store : gmap BindingId Handle := <[0 := 7]> (<[1 := 101]> (<[2 := 102]> ∅)).

Definition life_started : Shared := running life_graph life_config life_store [Store].

(** The demo app started and closed: a [close] polled to the first hook and dropped, then another
    polled to the end. *)
Definition closing : list Event :=
  [EClose 1 "SIGTERM"%string] ++ replicate 5 (EPoll 1 at_once) ++ [EDropClose 1; EClose 2 "close"%string] ++ replicate 40 (EPoll 2 at_once).

(** A [close] dropped in its drain; the one after it takes the sequence over there. *)
Definition taken_over : list Event :=
  [EClose 1 "SIGTERM"%string] ++ replicate 8 (EPoll 1 at_once) ++ [EDropClose 1; EClose 2 "close"%string].
