(* ===== verification/LifecycleTheorems.v ===== *)
(** * LifecycleTheorems: starting, running and stopping an app

    What a bound ends, the order hooks run in, what the connect walk builds, and the one shutdown
    that every [close] and drop shares. *)

From S2P Require Import Prelude Text Key Graph Order Redact LoadFacts Demo WireTheorems Timer TimerFacts Lifecycle PlanFacts ConnectFacts Shutdown ShutdownFacts ShutdownInv PhaseInv SequenceEnds LifeDemo.
Local Open Scope nat_scope.

(** ** Bounds *)

(** C35: What the core waits on never outlives its bounds. Over any polls by a clock that keeps its
    contract, [run] waits only while the item is pending and neither limit has passed, and the
    first poll that finds otherwise ends it: with the item's value or panic if it is ready in that
    poll, else the shutdown cap's [TimedOut] if the cap has passed, else the item's own. Only a
    clock that refused to time ends it otherwise. *)
Theorem run_correct {T} clock_max timer bound cap secrets now (t : Tick) (item : ItemPoll T) polls :
  tk_now t = now → polls_ok now ((t, item) :: polls) →
  match run clock_max timer bound cap secrets ((t, item) :: polls) with
  | None => Forall (waited clock_max timer bound cap now) ((t, item) :: polls)
  | Some (o, rest) =>
      ∃ pre t' item', (t, item) :: polls = pre ++ (t', item') :: rest ∧ Forall (waited clock_max timer bound cap now) pre
        ∧ ended_by timer bound cap secrets (refused_in ((t, item) :: polls)) now t' item' o
  end.
Proof.
  intros Hnow Hok. unfold run. rewrite Hnow.
  destruct (run_start_ok clock_max timer bound cap now (refused_in ((t, item) :: polls))) as [Hc Ho].
  by apply run_polls_spec.
Qed.

(** An item that ends on the poll both limits pass is done; one that does not is cut by the cap. *)
Lemma run_correct_witness :
  let bound := ResolvedAfter 5 LimitItem in
  let cap := Some {| cap_at := 15; cap_after := 9 |} in
  run 1000 true bound cap [] [(tick 10, None); (tick 15, Some (inl 7))] = Some (Done 7, [])
  ∧ run (T := nat) 1000 true bound cap [] [(tick 10, None); (tick 15, None)] = Some (RunTimedOut 9 ShutdownCap, [])
  ∧ ∃ pre t' item', [(tick 10, None); (tick 15, None)] = pre ++ (t', item') :: [] ∧ Forall (waited (T := nat) 1000 true bound cap 10) pre
      ∧ ended_by (T := nat) true bound cap [] (refused_in (T := nat) [(tick 10, None); (tick 15, None)]) 10 t' item' (RunTimedOut 9 ShutdownCap).
Proof.
  intros bound cap. assert (E : run (T := nat) 1000 true bound cap [] [(tick 10, None); (tick 15, None)] = Some (RunTimedOut 9 ShutdownCap, []))
    by (vm_compute; reflexivity).
  split; [vm_compute; reflexivity|]. split; [exact E|].
  pose proof (run_correct (T := nat) 1000 true bound cap [] 10 (tick 10) None [(tick 15, None)] eq_refl) as H. rewrite E in H. apply H.
  intros t i Hin. apply elem_of_cons in Hin as [[= -> ->]|Hin]; [split; [apply tick_ok|done]|].
  apply list_elem_of_singleton in Hin as [= -> ->]. split; [apply tick_ok|done].
Defined.

(** ** The order of hooks *)

Lemma settled_owners g : settled g → owners_wf g.
Proof.
  intros [[Hwf _ _ _] _ Ho _ _ _]. split.
  - rewrite Ho, connect_order_perm by done. apply NoDup_filterb, NoDup_seq.
  - apply Hwf.
  - intros id Hid. rewrite Ho, connect_order_perm in Hid by done. apply elem_of_filterb in Hid as [_ Hid]. apply elem_of_seq in Hid.
    destruct (lookup_lt_is_Some_2 (g_bindings g) id) as [b Hb]; [lia|]. rewrite (binding_Some g _ _ Hb). by eapply wf_origin.
Qed.

Lemma reverse_pair {A} (a b : A) l : [a; b] `sublist_of` l → [b; a] `sublist_of` reverse l.
Proof.
  intros H. apply sublist_cons_l in H as (l1 & l2 & -> & H). apply singleton_sublist_l, list_elem_of_split in H as (l3 & l4 & ->).
  rewrite reverse_app, reverse_cons, reverse_app, reverse_cons, <- !app_assoc. apply sublist_inserts_l, sublist_skip, sublist_inserts_l, sublist_skip, sublist_nil_l.
Qed.

Lemma sublist_in_order {A} (a b : A) pre post : a ∈ pre → [a; b] `sublist_of` pre ++ b :: post.
Proof.
  intros (l1 & l2 & ->)%list_elem_of_split. rewrite <- app_assoc. apply sublist_inserts_l, sublist_skip, sublist_inserts_l, sublist_skip, sublist_nil_l.
Qed.

(** Hooks run in the order their owners can rely on. In each load's group, singletons keep
    connect order and a module's own hooks follow right after its last singleton, or after the
    modules before it when it has none; every hook of an app is in the plan of its kind once.
    Shutdown runs the exact reverse: a singleton's hooks run before those of every singleton it
    awaits that was loaded with it or earlier, which is still whole when they run. *)
Theorem hooks_order_correct g kind (Hg : settled g) :
  shutdown_plan g kind = reverse (startup_plan g kind) ∧ NoDup (shutdown_plan g kind)
  ∧ (∀ owner i, (owner, i) ∈ shutdown_plan g kind ↔ app_owner g owner ∧ ∃ hook, hooks_of g owner !! i = Some hook ∧ hk_kind hook = kind)
  ∧ (∀ load, plan_ok g (load_singletons g load) (load_modules g load) (load_plan g load))
  ∧ ∀ x d i j, awaits g x d → is_singleton g x = true → is_singleton g d = true →
      load_le (owner_load g (OwnerBinding d)) (owner_load g (OwnerBinding x)) = true →
      (OwnerBinding x, i) ∈ shutdown_plan g kind → (OwnerBinding d, j) ∈ shutdown_plan g kind →
      [(OwnerBinding x, i); (OwnerBinding d, j)] `sublist_of` shutdown_plan g kind.
Proof.
  pose proof (settled_owners g Hg) as Hwf. assert (Hrev := shutdown_plan_reverse g kind).
  assert (Hin : ∀ e, e ∈ shutdown_plan g kind ↔ e ∈ startup_plan g kind) by (intros e; by rewrite Hrev, elem_of_reverse).
  split; [done|]. split; [rewrite Hrev, reverse_Permutation; by apply startup_plan_nodup|].
  split; [intros owner i; rewrite Hin; by apply elem_of_startup_plan|]. split; [intros load; apply hook_plan_ok|].
  intros x d i j Haw Hx Hd Hle Hi Hj. rewrite Hin in Hi, Hj. rewrite Hrev.
  apply reverse_pair, startup_pair; [done| |done|done|done].
  apply elem_of_startup_plan in Hi as [Hxo _]; [|done]. simpl in Hxo. apply list_elem_of_split in Hxo as (pre & post & E). rewrite E.
  destruct Hg as [[Hg1 Hg2 _ _] _ Ho _ _ _]. rewrite Ho in E. destruct (connect_order_sorted g Hg1 Hg2 pre x post E) as [Hpre _].
  apply sublist_in_order. by apply Hpre.
Qed.

Lemma hooks_order_correct_witness :
  shutdown_plan life_graph OnModuleDestroy = [(OwnerBinding 2, 0); (OwnerBinding 1, 1)]
  ∧ [(OwnerBinding 2, 0); (OwnerBinding 1, 1)] `sublist_of` shutdown_plan life_graph OnModuleDestroy.
Proof.
  assert (E : shutdown_plan life_graph OnModuleDestroy = [(OwnerBinding 2, 0); (OwnerBinding 1, 1)]) by (vm_compute; reflexivity).
  split; [exact E|]. destruct (hooks_order_correct life_graph OnModuleDestroy life_settled) as (_ & _ & _ & _ & H).
  apply (H 2 1 0 1); [apply awaits_direct; vm_compute; left|reflexivity|reflexivity|reflexivity|rewrite E; left|rewrite E; right; left].
Defined.

(** ** Starting *)

(** C30: A connect walk builds an app in the order its parts rely on. When every call of user code
    comes to an end, by itself or by its bound, the walk returns. What it called is then a part,
    from the start, of the schedule: each singleton's constructor and readiness check in connect
    order, then the init hooks, then the bootstrap hooks, each in the hook plan; and all of it
    unless the walk failed, with exactly the singletons that have instances stored. A constructor
    ran only once the instance of every singleton its own awaits was there to be read. *)
Theorem connect_correct {code : UserCode} clock_max g config read_text fuel (Hg : settled g) :
  let order := g_connect_order g in
  let modules := fm_id <$> g_modules g in
  let walk := connect clock_max g config read_text fuel {| wk_store := ∅; wk_log := [] |} order modules in
  (code_ends clock_max g config read_text → retries_fit g fuel → is_Some walk)
  ∧ ∀ w failed, walk = Some (w, failed) →
    calls w `prefix_of` schedule g order modules
    ∧ (failed = None → calls w = schedule g order modules ∧ ∀ d, is_Some (wk_store w !! d) ↔ d ∈ order ∧ builds g d = true)
    ∧ ∀ x built, CtorRan x built ∈ wk_log w → x ∈ order ∧ ∀ d, awaits g x d → is_singleton g d = true → builds g d = true → d ∈ built.
Proof.
  intros order modules walk. split; [by apply connect_returns|]. intros w failed E.
  apply connect_ran in E as ((cs & Hcs & Hpre & Hall) & Hsee & Hbuilt); [|apply (ow_nodup _ (settled_owners g Hg))|by intros d _; apply lookup_empty].
  cbn [fst snd calls wk_log omap list_omap app] in *. rewrite Hcs. split_and!; [done| |].
  - intros Hf. split; [by apply Hall|]. intros d. rewrite (Hbuilt Hf d). cbn [wk_store]. rewrite lookup_empty. split; [by intros [[? ?]|?]|by right].
  - intros x built Hin. apply Hsee in Hin as [Hin%not_elem_of_nil|(pre & post & E & Hd)]; [done|]. split; [rewrite E; set_solver|].
    intros d Haw Hs. apply Hd. destruct Hg as [[Hg1 Hg2 _ _] _ Ho _ _ _]. unfold order in E. rewrite Ho in E.
    destruct (connect_order_sorted g Hg1 Hg2 pre x post E) as [H _]. by apply H.
Qed.

Lemma life_ends : code_ends 1000 life_graph life_config no_text.
Proof.
  split.
  - intros id store _. cbn [uc_ctor life_code]. by rewrite run_ready.
  - intros id ready n store _. split; [|done]. unfold attempt_ends. cbn [uc_check life_code ty_attempt]. by rewrite run_ready.
  - intros [id|m] index h store; unfold run_hook; cbn [uc_hook life_code]; rewrite run_ready; [by destruct (store !! id)|done].
Qed.

Lemma life_fit : retries_fit life_graph 5.
Proof.
  intros id ready. unfold binding. assert (Hall : Forall (λ b, match br_ready (fb_record b) with Some r => ry_retries r = 2 | None => True end) (g_bindings life_graph))
    by (vm_compute; repeat constructor).
  destruct (g_bindings life_graph !! id) as [b|] eqn:Eb; [|done]. cbn [default]. rewrite Forall_lookup in Hall. specialize (Hall id b Eb).
  intros E. cbn in E, Hall. rewrite E in Hall. rewrite Hall. split; [lia|done].
Qed.

Lemma connect_correct_witness :
  is_Some started ∧ ∀ w failed, started = Some (w, failed) → ∀ built, CtorRan 2 built ∈ wk_log w → 1 ∈ built.
Proof.
  destruct (connect_correct 1000 life_graph life_config no_text 5 life_settled) as [H1 H2]. split; [exact (H1 life_ends life_fit)|].
  intros w failed E built Hin. destruct (H2 w failed E) as (_ & _ & H). destruct (H 2 built Hin) as [_ Hd].
  apply Hd; [apply awaits_direct; vm_compute; left|reflexivity|reflexivity].
Defined.

(** C31: A readiness check retries no more than it says. With its retries counted in [u32] without
    wrapping, a check that ends made at least one attempt and at most [retries + 1], numbered in
    turn, and stored nothing; every attempt but the last failed in a way to be retried, and the
    check ends as the last did, or by a cut or a refused backoff after it. Fuel past [retries + 1]
    changes nothing, and with attempts that end it returns. *)
Theorem readiness_bounded {code : UserCode} clock_max g config read_text fuel w id ready :
  let whole := resolve_bound (ry_whole ready) KindReadinessWhole (config_defaults config) in
  (N.of_nat (ry_retries ready) < U32_MAX)%N → ry_retries ready < fuel →
  check_loop clock_max g config read_text fuel w id ready whole 0 = check_loop clock_max g config read_text (S (ry_retries ready)) w id ready whole 0
  ∧ (code_ends clock_max g config read_text → br_ready (fb_record (binding g id)) = Some ready →
     is_Some (check_loop clock_max g config read_text fuel w id ready whole 0))
  ∧ ∀ w' k res, check_loop clock_max g config read_text fuel w id ready whole 0 = Some (w', k, res) →
    1 ≤ k ≤ S (ry_retries ready) ∧ wk_store w' = wk_store w
    ∧ check_attempts id (wk_log w') = check_attempts id (wk_log w) ++ seq 0 k
    ∧ (∀ i, S i < k → ∃ reason, attempt_ends clock_max g config read_text id ready (wk_store w) i = Some (AttemptAgain reason))
    ∧ check_result clock_max g config read_text id ready whole (wk_store w) k res.
Proof.
  intros whole Hmax Hfuel. split_and!.
  - rewrite check_loop_fuel by lia. by rewrite Nat.sub_0_r.
  - intros Hc Hr. apply check_loop_returns; [done|done|done|lia|lia].
  - intros w' k res E. pose proof E as [[K _] M _ A B]%check_loop_ran. apply check_loop_ends in E as [E1 E2]; [|done|lia].
    split_and!; [lia|apply B; [lia|done]|done|by rewrite A, Nat.sub_0_r|intros i Hi; apply E1; lia|done].
Qed.

Lemma readiness_bounded_witness :
  ∃ w' res, check_loop 1000 life_graph life_config no_text 5 {| wk_store := ∅; wk_log := [] |} 1 store_ready
      (resolve_bound (ry_whole store_ready) KindReadinessWhole (config_defaults life_config)) 0 = Some (w', 2, res)
    ∧ check_attempts 1 (wk_log w') = [0; 1] ∧ 2 ≤ S (ry_retries store_ready).
Proof.
  eexists _, _. split; [vm_compute; reflexivity|].
  destruct (readiness_bounded 1000 life_graph life_config no_text 5 {| wk_store := ∅; wk_log := [] |} 1 store_ready) as (_ & _ & H); [reflexivity|cbn; lia|].
  destruct (H _ _ _ ltac:(vm_compute; reflexivity)) as (Hk & _ & Ha & _). split; [exact Ha|apply Hk].
Defined.

(** ** Stopping *)

(** C32: Shutdown hooks run once each, in order, and never beside what they would break. Whatever
    the interleaving of triggers, closes, drops, polls and executions, the hooks taken are always a
    part, from the start, of the one list of them, before-shutdown, destroy and shutdown hooks each
    in reverse plan order; none is taken twice though the sequence is abandoned and resumed; and
    all have been once there is an outcome. Before the first destroy hook the drain has ended, no
    execution can be opened any more and each that was is ended or cancelled; before the first
    shutdown hook every server has been closed and let go. *)
Theorem shutdown_hooks_once clock_max g config store servers es (Hg : settled g) :
  let s := events clock_max (running g config store servers) es in
  sh_ran s `prefix_of` all_hooks g ∧ NoDup (sh_ran s) ∧ (sh_outcome s ≠ None → sh_ran s = all_hooks g)
  ∧ (∀ entry, (OnModuleDestroy, entry) ∈ sh_ran s →
       allows_singleton_lookup (sh_phase s) = false
       ∧ (∀ terminal, (allows_execution (sh_phase s) terminal).2 = false)
       ∧ ∀ id x, lv_executions (sh_live s) !! id = Some (Attached x) → xc_ended x = true ∨ xc_cancelled x = true)
  ∧ (∀ entry, (OnApplicationShutdown, entry) ∈ sh_ran s → rl_servers_closed (sh_release s) = true ∧ sh_servers s = []).
Proof.
  intros s. destruct (reached_ok clock_max servers _ es (running_ok g config store servers)) as [[Q1 Q2 Q3 Q4] Hrel Hph]. fold s in Q1, Q2, Q3, Q4, Hrel, Hph.
  assert (Eg : sh_graph s = g) by (unfold s; by rewrite events_graph). rewrite Eg in *.
  assert (Hpre : sh_ran s `prefix_of` all_hooks g) by (rewrite Q1; apply taken_prefix). split; [done|]. split_and!.
  - destruct Hpre as [rest E]. pose proof (all_hooks_nodup g (settled_owners g Hg)) as H. rewrite E in H. by apply NoDup_app in H as [? _].
  - intros Ho. destruct (Q4 Ho) as [Es _]. rewrite Q1. unfold taken. rewrite Es. cbn. by rewrite app_nil_r.
  - intros entry Hin. rewrite Q1 in Hin. destruct (taken_kind g _ _ _ Q2 Hin) as [Hd Hdr]. pose proof (pk_destroy s Hph Hd) as H5.
    destruct (pk_drained s Hph Hdr) as (_ & He & Hc). unfold rank in H5. split_and!.
    + unfold allows_singleton_lookup. apply bool_decide_eq_false_2. cbn. lia.
    + intros []; unfold allows_execution; cbn; [by rewrite He, andb_false_r|]. apply bool_decide_eq_false_2. lia.
    + by apply (pk_live s Hph).
  - intros entry Hin. rewrite Q1 in Hin. pose proof (taken_kind g _ _ _ Q2 Hin) as Hl. cbn in Hl.
    assert (E : rl_servers_closed (sh_release s) = true) by (by rewrite (ro_closed _ _ Hrel)). split; [done|]. by apply (ro_empty _ _ Hrel).
Qed.

Lemma shutdown_hooks_once_witness :
  sh_ran (events 1000 life_started closing)
  = [(BeforeApplicationShutdown, (OwnerModule 2, 0)); (OnModuleDestroy, (OwnerBinding 2, 0)); (OnModuleDestroy, (OwnerBinding 1, 1));
     (OnApplicationShutdown, (OwnerBinding 2, 1))]
  ∧ sh_ran (events 1000 life_started closing) = all_hooks life_graph.
Proof.
  split; [vm_compute; reflexivity|].
  destruct (shutdown_hooks_once 1000 life_graph life_config life_store [Store] closing life_settled) as (_ & _ & H & _).
  apply H. vm_compute. discriminate.
Defined.

(** C33: A [close] comes to its answer. Take any state an app reaches and a [close] that runs the
    sequence or that no other runs for: polled so that what it waits on is answered each time, it
    has its answer after two polls for each shutdown hook and a constant number besides, whether it
    is the first [close], one that takes over where a dropped one stood, or one that comes after
    the end. *)
Theorem shutdown_ends clock_max g config store servers es id c obs :
  let s := events clock_max (running g config store servers) es in
  sh_claims s !! id = Some c → (sh_runner s = None ∨ ∃ signal a, sh_runner s = Some (id, signal, a)) →
  answered clock_max id s obs → 2 * length (all_hooks g) + 15 ≤ length obs →
  ∃ c' o, sh_claims (events clock_max s (EPoll id <$> obs)) !! id = Some c' ∧ cl_answer c' = Some o.
Proof.
  intros s Hc Hr Ha Hn. apply (close_answers clock_max servers id s c obs); try done; [apply reached_ok, running_ok|].
  replace (sh_graph s) with g by (unfold s; by rewrite events_graph). unfold sequence_steps, stage_steps, hook_steps.
  unfold all_hooks, full, entries in Hn. rewrite !length_app, !length_fmap in Hn. lia.
Qed.

Lemma shutdown_ends_witness :
  pg_stage (sh_progress (events 1000 life_started taken_over)) = StageDrain
  ∧ ∃ c o, sh_claims (events 1000 (events 1000 life_started taken_over) (EPoll 2 <$> replicate 23 at_once)) !! 2 = Some c ∧ cl_answer c = Some o.
Proof.
  split; [vm_compute; reflexivity|].
  eapply (shutdown_ends 1000 life_graph life_config life_store [Store] taken_over 2 _ (replicate 23 at_once)).
  - vm_compute. reflexivity.
  - left. vm_compute. reflexivity.
  - apply answeredb_sound. vm_compute. reflexivity.
  - vm_compute. lia.
Defined.

(** C34: One shutdown, one answer, and servers never lost. In every state an app reaches, each
    [close] that has answered gave the app's one outcome, which never changes, or that a drop had
    released the app. The servers are held until a shutdown closed them or the app and every
    [close] were dropped, and once both are dropped they are released; a drop that released them
    unclosed leaves the phase closed with no shutdown running, and every later [close] told so. An
    outcome means the servers were closed and the app is. *)
Theorem servers_released clock_max g config store servers es :
  let s := events clock_max (running g config store servers) es in
  (∀ id c o, sh_claims s !! id = Some c → cl_answer c = Some o → if cl_dropped c then so_failures o = [FailDropped] else sh_outcome s = Some o)
  ∧ (∀ o es', sh_outcome s = Some o → sh_outcome (events clock_max s es') = Some o
       ∧ rl_servers_closed (sh_release s) = true ∧ sh_servers s = [] ∧ pc_phase (sh_phase s) = Closed)
  ∧ (rl_released (sh_release s) = false → rl_servers_closed (sh_release s) = false → sh_servers s = servers)
  ∧ (rl_app_dropped (sh_release s) = true → sh_claims s = ∅ → rl_released (sh_release s) = true)
  ∧ (rl_released (sh_release s) = true → rl_servers_closed (sh_release s) = false →
       sh_runner s = None ∧ pc_phase (sh_phase s) = Closed ∧ (∀ id c, sh_claims s !! id = Some c → cl_dropped c = true)
       ∧ (sh_releasing s = [] → sh_servers s = [] ∧ sh_draining s = true)).
Proof.
  intros s. destruct (reached_ok clock_max servers _ es (running_ok g config store servers)) as [Hq Hrel Hph]. fold s in Hq, Hrel, Hph.
  destruct Hrel as [R1 R2 R3 R4 R5 R6 R7 R8 R9 R10]. split_and!; [done| |done| |].
  - intros o es' Ho. destruct (sq_out s Hq) as [Es _]; [by rewrite Ho|]. rewrite Es in R6. cbn in R6. split_and!; [by apply events_outcome|done|by apply R7|].
    pose proof (pk_done s Hph Es) as H6. unfold rank in H6. destruct (pc_phase (sh_phase s)); cbn in H6; try lia. done.
  - intros Hd Hc. apply R5; [done|]. by rewrite R1, Hc.
  - intros Hr Hc. destruct (R3 Hr Hc) as (H1 & H2 & H3 & H4). split_and!; [done|done|done|]. intros E. destruct H4 as [H4|H4]; [done|].
    rewrite E in H4. by apply not_elem_of_nil in H4.
Qed.

(** The app dropped under a running [close] keeps its servers until that is dropped too. *)
Lemma servers_released_witness :
  let dropped := events 1000 life_started (taken_over ++ [EDropApp]) in
  sh_servers dropped = [Store]
  ∧ let gone := events 1000 life_started (taken_over ++ [EDropApp; EDropClose 2; EReleased; EClose 3 "close"%string; EPoll 3 at_once]) in
    sh_servers gone = [] ∧ pc_phase (sh_phase gone) = Closed ∧ so_failures <$> (sh_claims gone !! 3 ≫= cl_answer) = Some [FailDropped].
Proof.
  cbv zeta.
  destruct (servers_released 1000 life_graph life_config life_store [Store] (taken_over ++ [EDropApp])) as (_ & _ & H1 & _ & _).
  destruct (servers_released 1000 life_graph life_config life_store [Store]
    (taken_over ++ [EDropApp; EDropClose 2; EReleased; EClose 3 "close"%string; EPoll 3 at_once])) as (_ & _ & _ & _ & H2).
  split; [apply H1; vm_compute; reflexivity|]. destruct H2 as (_ & H2 & _ & H3); [vm_compute; reflexivity|vm_compute; reflexivity|].
  split; [apply H3; vm_compute; reflexivity|]. split; [exact H2|vm_compute; reflexivity].
Defined.
