(* ===== verification/Resolver.v ===== *)
(** * Resolver: how a constructor's reads are answered

    [ulo/src/resolver.rs], [obtain] and [build] of [ulo/src/app/shared.rs], the instance cells of
    [ulo/src/execution/cache.rs] and the erased constructors of [ulo/src/binding/mod.rs]. A
    constructor is user code: a [Body] says what it reads next and, from the answers, how its future
    ends under [run]. An instance is a handle with the type of the [Arc] in it. Reads are made one
    after another, so a cell is never awaited while another reader fills it. *)

From S2P Require Import Prelude Text Key Graph Redact Timer Lifecycle.
Local Open Scope nat_scope.

(** ** Errors *)

Inductive LookupKind := OfBinding | OfExtension | OfInput | OfModule.

(** [LookupError], less the module lookups, [Graph.LookupError]. *)
Inductive ReadFailure :=
  | ReadNotFound (key : KeyName) (kind : LookupKind)
  | ReadNotReady (key : KeyName)
  | ReadWrongType (key : KeyName) (requested : TypeId)
  | ReadWrongKind (key : KeyName) (expected found : BindingKind)
  | ReadExecutionRequired (key : KeyName)
  | ReadExecutionEnded (key : KeyName)
  | ReadAmbiguous (key : KeyName) (sources : list ModuleName)
  | ReadConstructed (key : KeyName) (reason : FailureReason)
  | ReadClosed (key : KeyName).

Inductive CtorError := CFailed (error : BoxError) | CDependency (error : ReadFailure).

(** ** Instances *)

(** What is opaque of values and of the [|a| a] closures that coerce them: the type inside an
    instance, and a coercion's types. *)
Class Values := {
  ty_of : Handle → TypeId;
  co_from : Handle → TypeId;
  co_to : Handle → TypeId;
  co_apply : Handle → Handle → Handle;
  co_typed : ∀ c i, ty_of (co_apply c i) = co_to c;
}.

Section Values.
Context {values : Values}.

Definition downcast_instance (ty : TypeId) (i : Handle) : option Handle := if bool_decide (ty_of i = ty) then Some i else None.

(** [coercion]: an instance of another type passes through. *)
Definition coerce (c i : Handle) : Handle := if bool_decide (ty_of i = co_from c) then co_apply c i else i.
End Values.

(** ** Declared reads *)

Inductive Wanted := WantSingle (key : Key) | WantCollection (key : Key) | WantExtension (name : TypeName) | WantExecution.

Record Reading := { rg_reader : Key; rg_declared : list Read }.

Definition declares (reading : Reading) (wanted : Wanted) : bool :=
  existsb (λ read, match rd_kind read, wanted with
                   | Single a, WantSingle b | Collection a, WantCollection b => key_eqb a b
                   | Extension a, WantExtension b => bool_decide (a = tn_id b)
                   | Execution, WantExecution => true
                   | _, _ => false
                   end) (rg_declared reading).

(** [UndeclaredRead]: the reader and what it read. *)
Record UndeclaredRead := { ur_reader : TypeName; ur_what : Wanted }.

(** ** Constructors *)

(** A read a body makes: [dep] and [by_key], [many], [ext], [input], [execution], [module]. *)
Inductive ReadCall :=
  | CallDep (key : Key) (ty : TypeId)
  | CallMany (key : Key)
  | CallExt (name : TypeName) (key : Key)
  | CallInput (key : Key)
  | CallExecution (key : Key)
  | CallModule.

Inductive Answer := AnOne (i : Handle) | AnMany (l : list Handle) | AnHandle | AnError (e : ReadFailure).

Inductive Body (R : Type) :=
  | BEnd (o : R)
  | BCall (call : ReadCall) (next : Answer → Body R).
Arguments BEnd {R} o.
Arguments BCall {R} call next.

(** The body of an erased constructor, run under [run]. *)
Abbreviation CtorBody := (Body (Outcome (Handle + CtorError))) (only parsing).

(** User code: each erased constructor's body, and what [Reading::of] holds for a [Construct]. *)
Class Bodies := {
  bd_body : Handle → CtorBody;
  bd_reading : Handle → Reading;
  bd_undeclared : UndeclaredRead → BoxError; (* [Permanent::new] of it *)
}.

(** ** The resolver *)

Inductive Purpose := Lookup | LifecyclePurpose.

#[export] Instance Purpose_eq_dec : EqDecision Purpose.
Proof. solve_decision. Defined.

(** What a read sees of [ExecShared]: its inputs and extensions, and whether it has ended. *)
Record ExecView := { ev_ended : bool; ev_inputs : gmap TypeId Handle; ev_extensions : gmap TypeId Handle }.

Record Resolver := { rv_module : ModuleId; rv_exec : option ExecView; rv_purpose : Purpose }.

Definition in_module (r : Resolver) (m : ModuleId) : Resolver := {| rv_module := m; rv_exec := rv_exec r; rv_purpose := rv_purpose r |}.

(** [OnceCells] of the execution: [None] once released. *)
Abbreviation Cells := (option (gmap BindingId Handle)) (only parsing).

Inductive Found := FoundBinding (id : BindingId) | FoundInput (key : Key).

Section Resolve.
Context {values : Values} {bodies : Bodies} (g : Graph) (store : gmap BindingId Handle) (phase : PhaseCell).

Definition not_found (key : Key) (kind : LookupKind) : ReadFailure := ReadNotFound (key_name_of key BSingle) kind.

Definition locate (r : Resolver) (key : Key) : ReadFailure + Found :=
  match lookup g (rv_module r) key with
  | Some (VBinding id) => inr (FoundBinding id)
  | Some (VInput input) => inr (FoundInput input)
  | Some (VAmbiguous sources) =>
      inl (ReadAmbiguous (key_name_of key BSingle) ((λ s : ModuleId * BindingId, module_name g s.1) <$> sources))
  | None =>
      if bool_decide (collection g key ≠ []) then inl (ReadWrongKind (key_name_of key BCollection) BSingle BCollection)
      else inl (not_found key OfBinding)
  end.

Definition contributions (r : Resolver) (key : Key) : ReadFailure + list BindingId :=
  let ids := collection g key in
  if bool_decide (ids = []) && match lookup g (rv_module r) key with Some _ => true | None => false end
  then inl (ReadWrongKind (key_name_of key BSingle) BCollection BSingle)
  else inr ids.

Definition exec_for (r : Resolver) (key : Key) : ReadFailure + ExecView :=
  match rv_exec r with
  | None => inl (ReadExecutionRequired (key_name_of key BSingle))
  | Some exec => if ev_ended exec then inl (ReadExecutionEnded (key_name_of key BSingle)) else inr exec
  end.

Definition seeded_input (r : Resolver) (input : Key) (ty : TypeId) : ReadFailure + Handle :=
  match exec_for r input with
  | inl e => inl e
  | inr exec =>
      match ev_inputs exec !! key_type_id input with
      | None => inl (not_found input OfInput)
      | Some i => match downcast_instance ty i with Some i => inr i | None => inl (ReadWrongType (key_name_of input BSingle) ty) end
      end
  end.

(** [coercion_to], its loop bounded by the binding count. *)
Fixpoint coercion_loop (rounds : nat) (id : BindingId) (ty : TypeId) : option Handle :=
  match rounds with
  | 0 => None
  | S rounds =>
      let b := binding g id in
      let record := fb_record b in
      match (if bool_decide (key_type_id (br_primary record) = ty) then br_into_primary record else None) with
      | Some c => Some c
      | None =>
          match find_first (λ also, bool_decide (key_type_id (aa_key also) = ty)) (br_also record) with
          | Some also => Some (aa_coerce also)
          | None =>
              match br_recipe record with
              | Alias target => match lookup g (fb_origin b) target with Some (VBinding next) => coercion_loop rounds next ty | _ => None end
              | _ => None
              end
          end
      end
  end.

Definition coercion_to (id : BindingId) (ty : TypeId) : option Handle := coercion_loop (length (g_bindings g)) id ty.

Definition widen (id : BindingId) (ty : TypeId) (i : Handle) : option Handle :=
  match downcast_instance ty i with
  | Some i => Some i
  | None => match coercion_to id ty with Some c => downcast_instance ty (coerce c i) | None => None end
  end.

(** [as_key]: the answer in the type of [key]. *)
Definition as_key (source : FrozenBinding) (key : Key) (i : Handle) : Handle :=
  if bool_decide (key_type_id key = key_type_id (br_primary (fb_record source))) then i
  else match find_first (λ also, bool_decide (key_type_id (aa_key also) = key_type_id key)) (br_also (fb_record source)) with
       | Some also => coerce (aa_coerce also) i
       | None => i
       end.

Definition check_singleton_lookup (r : Resolver) (key : KeyName) : option ReadFailure :=
  if bool_decide (rv_purpose r = Lookup) && negb (allows_singleton_lookup phase) then Some (ReadClosed key) else None.

(** Reads that build: how [obtain] answers is the parameter, since a build reads in turn. *)
Section Build.
Context (obtain : Resolver → BindingId → Cells → option (Cells * (ReadFailure + Handle))).

Definition single (r : Resolver) (key : Key) (ty : TypeId) (cells : Cells) : option (Cells * (ReadFailure + Handle)) :=
  match locate r key with
  | inl e => Some (cells, inl e)
  | inr found =>
      if bool_decide (key_type_id key ≠ ty) then Some (cells, inl (ReadWrongType (key_name_of key BSingle) ty))
      else match found with
      | FoundInput input => Some (cells, seeded_input r input ty)
      | FoundBinding id =>
          match obtain r id cells with
          | Some (cells, inr i) =>
              Some (cells, match widen id ty i with Some i => inr i | None => inl (ReadWrongType (key_name_of key BSingle) ty) end)
          | other => other
          end
      end
  end.

(** The loop of [many_qualified]. *)
Fixpoint many_loop (r : Resolver) (key : Key) (ids : list BindingId) (cells : Cells) : option (Cells * (ReadFailure + list Handle)) :=
  match ids with
  | [] => Some (cells, inr [])
  | id :: ids =>
      match obtain r id cells with
      | None => None
      | Some (cells, inl e) => Some (cells, inl e)
      | Some (cells, inr i) =>
          match widen id (key_type_id key) i with
          | None => Some (cells, inl (ReadWrongType (key_name_of key BCollection) (key_type_id key)))
          | Some i =>
              match many_loop r key ids cells with
              | Some (cells, inr l) => Some (cells, inr (i :: l))
              | other => other
              end
          end
      end
  end.

Definition wanted_of (call : ReadCall) : option Wanted :=
  match call with
  | CallDep key _ | CallInput key => Some (WantSingle key)
  | CallMany key => Some (WantCollection key)
  | CallExt name _ => Some (WantExtension name)
  | CallExecution _ => Some WantExecution
  | CallModule => None
  end.

(** [declared]: the refusal of a read outside the reading, and what is kept of it. *)
Definition refused (reading : option Reading) (call : ReadCall) : option (Key * UndeclaredRead) :=
  match reading, wanted_of call with
  | Some reading, Some wanted =>
      if declares reading wanted then None
      else Some (rg_reader reading, {| ur_reader := key_ty (rg_reader reading); ur_what := wanted |})
  | _, _ => None
  end.

Definition one (a : ReadFailure + Handle) : Answer := match a with inl e => AnError e | inr i => AnOne i end.

Definition answer (r : Resolver) (call : ReadCall) (cells : Cells) : option (Cells * Answer) :=
  match call with
  | CallDep key ty => (λ ca, (ca.1, one ca.2)) <$> single r key ty cells
  | CallMany key =>
      match contributions r key with
      | inl e => Some (cells, AnError e)
      | inr ids => (λ ca : Cells * (ReadFailure + list Handle), (ca.1, match ca.2 with inl e => AnError e | inr l => AnMany l end)) <$> many_loop r key ids cells
      end
  | CallExt name key =>
      Some (cells, match exec_for r key with
                   | inl e => AnError e
                   | inr exec => match ev_extensions exec !! tn_id name with Some i => AnOne i | None => AnError (not_found key OfExtension) end
                   end)
  | CallInput key =>
      Some (cells, match exec_for r key with
                   | inl e => AnError e
                   | inr exec => match ev_inputs exec !! key_type_id key with Some i => AnOne i | None => AnError (not_found key OfInput) end
                   end)
  | CallExecution key => Some (cells, match exec_for r key with inl e => AnError e | inr _ => AnHandle end)
  | CallModule => Some (cells, AnHandle)
  end.

(** The body run to its end; the first refusal is kept. *)
Fixpoint run_body {R} (r : Resolver) (reading : option Reading) (violation : option UndeclaredRead) (b : Body R) (cells : Cells)
    : option (Cells * option UndeclaredRead * R) :=
  match b with
  | BEnd o => Some (cells, violation, o)
  | BCall call next =>
      match refused reading call with
      | Some (reader, refusal) =>
          let error := Errored (redacted (secrets g) (bd_undeclared refusal)) in
          run_body r reading (Some (default refusal violation)) (next (AnError (ReadConstructed (key_name_of reader BSingle) error))) cells
      | None =>
          match answer r call cells with
          | None => None
          | Some (cells, a) => run_body r reading violation (next a) cells
          end
      end
  end.

(** [erase_construct] around a [Construct]'s body; a factory's runs as it is. *)
Definition run_ctor (r : Resolver) (recipe : Recipe) (cells : Cells) : option (Cells * Outcome (Handle + CtorError)) :=
  match recipe with
  | Construct ctor =>
      match run_body r (Some (bd_reading ctor)) None (bd_body ctor) cells with
      | None => None
      | Some (cells, Some refusal, Done _) => Some (cells, Done (inr (CFailed (bd_undeclared refusal))))
      | Some (cells, _, o) => Some (cells, o)
      end
  | Factory ctor => (λ cvo, (cvo.1.1, cvo.2)) <$> run_body r None None (bd_body ctor) cells
  | _ => None
  end.

Definition build (r : Resolver) (b : FrozenBinding) (key : KeyName) (cells : Cells) : option (Cells * (ReadFailure + Handle)) :=
  match run_ctor (in_module r (fb_origin b)) (br_recipe (fb_record b)) cells with
  | None => None
  | Some (cells, Done (inl i)) => Some (cells, inr i)
  | Some (cells, Done (inr (CDependency e))) => Some (cells, inl e)
  | Some (cells, Done (inr (CFailed e))) => Some (cells, inl (ReadConstructed key (Errored (redacted (secrets g) e))))
  | Some (cells, o) =>
      (λ reason, (cells, inl (ReadConstructed key reason))) <$> cut_reason g o
  end.

(** [OnceCells::get_or_build]. *)
Definition get_or_build (id : BindingId) (key : KeyName) (built : Cells → option (Cells * (ReadFailure + Handle))) (cells : Cells)
    : option (Cells * (ReadFailure + Handle)) :=
  match cells with
  | None => Some (cells, inl (ReadExecutionEnded key))
  | Some m =>
      match m !! id with
      | Some i => Some (cells, inr i)
      | None =>
          match built cells with
          | Some (cells, inr i) => Some ((λ m, <[id := i]> m) <$> cells, inr i)
          | other => other
          end
      end
  end.

Definition obtain_alias (r : Resolver) (alias : FrozenBinding) (target : Key) (cells : Cells) : option (Cells * (ReadFailure + Handle)) :=
  match lookup g (fb_origin alias) target with
  | Some (VBinding source) =>
      match obtain r source cells with
      | Some (cells, inr i) => Some (cells, inr (as_key (binding g source) target i))
      | other => other
      end
  | Some (VInput input) =>
      match rv_exec r with
      | None => Some (cells, inl (ReadExecutionRequired (key_name_of input BSingle)))
      | Some exec =>
          Some (cells, match ev_inputs exec !! key_type_id input with Some i => inr i | None => inl (ReadNotFound (key_name_of input BSingle) OfInput) end)
      end
  | _ => Some (cells, inl (ReadNotFound (key_name_of target BSingle) OfBinding))
  end.

(** The instance as its recipe built it. *)
Definition built (r : Resolver) (id : BindingId) (key : KeyName) (cells : Cells) : option (Cells * (ReadFailure + Handle)) :=
  let b := binding g id in
  match br_recipe (fb_record b) with
  | Value v =>
      Some (cells, match (if bool_decide (fb_effective b = ESingleton) then check_singleton_lookup r key else None) with Some e => inl e | None => inr v end)
  | Alias _ | Failed => Some (cells, inl (ReadNotFound key OfBinding))
  | Construct _ | Factory _ =>
      match fb_effective b with
      | ESingleton =>
          Some (cells, match check_singleton_lookup r key with
                       | Some e => inl e
                       | None => match store !! id with Some i => inr i | None => inl (ReadNotReady key) end
                       end)
      | EPerExecution =>
          match rv_exec r with
          | None => Some (cells, inl (ReadExecutionRequired key))
          | Some _ => get_or_build id key (build r b key) cells
          end
      | ETransient => build r b key cells
      end
  end.

Definition obtain_step (r : Resolver) (id : BindingId) (cells : Cells) : option (Cells * (ReadFailure + Handle)) :=
  let b := binding g id in
  let key := key_name g id in
  if match rv_exec r with Some exec => ev_ended exec | None => false end then Some (cells, inl (ReadExecutionEnded key))
  else match br_recipe (fb_record b) with
  | Alias target => obtain_alias r b target cells
  | _ =>
      match built r id key cells with
      | Some (cells, inr i) => Some (cells, inr match br_into_primary (fb_record b) with Some widen => coerce widen i | None => i end)
      | other => other
      end
  end.
End Build.

(** [obtain]; each build or alias it follows spends one of [fuel]. *)
Fixpoint obtain (fuel : nat) (r : Resolver) (id : BindingId) (cells : Cells) : option (Cells * (ReadFailure + Handle)) :=
  match fuel with
  | 0 => None
  | S fuel => obtain_step (obtain fuel) r id cells
  end.
End Resolve.
