(* ===== verification/ResolverFacts.v ===== *)
(** * ResolverFacts: reads on a wired graph *)

From S2P Require Import Prelude Text Key Graph WiringError Cycles Order Redact Scopes ScopesFacts Visibility VisibilityFacts Register Freeze ResolveFacts Wire WireFacts LoadFacts InjectFacts Timer Lifecycle Resolver.
Local Open Scope nat_scope.

(** ** What user code is taken to do *)

Section Code.
Context {values : Values} {bodies : Bodies} (g : Graph).

Definition primary_ty (id : BindingId) : TypeId := key_type_id (br_primary (fb_record (binding g id))).

(** The type a recipe builds. *)
Definition built_ty (record : BindingRecord) : TypeId :=
  match br_into_primary record with Some c => co_from c | None => key_type_id (br_primary record) end.

Definition declared_reads (b : FrozenBinding) : list Read := deps_list (br_dependencies (fb_record b)) ≫= dr_reads.

Definition read_names (read : Read) (wanted : Wanted) : bool :=
  declares {| rg_reader := br_primary (fb_record no_binding); rg_declared := [read] |} wanted.

(** A read declared only as optional. *)
Definition only_optional (reads : list Read) (call : ReadCall) : Prop :=
  ∀ read wanted, read ∈ reads → wanted_of call = Some wanted → read_names read wanted = true → rd_optional read = true.

Definition excused (reads : list Read) (call : ReadCall) (e : ReadFailure) : Prop :=
  match e with ReadNotFound _ _ => only_optional reads call | _ => False end.

(** A body as the typed methods of the resolver let it be written: [dep] asks for the type of its
    key, [input] for a key its module sees as an input; a [Dependency] error is one that a read of
    it answered, the [NotFound] of an optional read apart; and the instance is of the type it
    builds. *)
Fixpoint body_ok (m : ModuleId) (ty : TypeId) (reads : list Read) (seen : ReadFailure → Prop) (b : CtorBody) : Prop :=
  match b with
  | BEnd (Done (inl i)) => ty_of i = ty
  | BEnd (Done (inr (CDependency e))) => seen e
  | BEnd _ => True
  | BCall call next =>
      match call with
      | CallDep key t => t = key_type_id key
      | CallInput key => ∃ input, lookup g m key = Some (VInput input) ∧ key_type_id input = key_type_id key
      | _ => True
      end
      ∧ ∀ a, body_ok m ty reads (λ e, seen e ∨ (a = AnError e ∧ ¬ excused reads call e)) (next a)
  end.

(** A factory reads its parameters, which are its dependencies. *)
Fixpoint reads_within {R} (reads : list Read) (b : Body R) : Prop :=
  match b with
  | BEnd _ => True
  | BCall call next =>
      match wanted_of call with Some wanted => existsb (λ read, read_names read wanted) reads = true | None => True end
      ∧ ∀ a, reads_within reads (next a)
  end.

(** The records of a graph as the builder methods write them, and the bodies of their recipes. *)
Record records_ok : Prop := {
  rk_recipe : ∀ id b, g_bindings g !! id = Some b →
    match br_recipe (fb_record b) with
    | Construct ctor =>
        rg_declared (bd_reading ctor) = declared_reads b
        ∧ body_ok (fb_origin b) (built_ty (fb_record b)) (declared_reads b) (λ _, False) (bd_body ctor)
    | Factory ctor =>
        reads_within (declared_reads b) (bd_body ctor)
        ∧ body_ok (fb_origin b) (built_ty (fb_record b)) (declared_reads b) (λ _, False) (bd_body ctor)
    | Value v => ty_of v = built_ty (fb_record b)
    | Alias target =>
        br_scope (fb_record b) = KTransient ∧ br_also (fb_record b) = [] ∧ key_type_id target = key_type_id (br_primary (fb_record b))
    | Failed => False
    end;
  rk_widened : ∀ id b c, g_bindings g !! id = Some b → br_into_primary (fb_record b) = Some c → co_to c = key_type_id (br_primary (fb_record b));
  rk_also : ∀ id b also, g_bindings g !! id = Some b → also ∈ br_also (fb_record b) →
    br_into_primary (fb_record b) = None ∧ co_from (aa_coerce also) = key_type_id (br_primary (fb_record b))
    ∧ co_to (aa_coerce also) = key_type_id (aa_key also);
}.
End Code.

(** ** The types of answers *)

Section Types.
Context {values : Values} {bodies : Bodies} (g : Graph) (Hij : injectable g) (Hrec : records_ok g).

Lemma coerce_typed c i : ty_of i = co_from c → ty_of (coerce c i) = co_to c.
Proof. intros H. unfold coerce. rewrite bool_decide_eq_true_2 by done. apply co_typed. Qed.

Lemma downcast_typed ty i j : downcast_instance ty i = Some j → ty_of j = ty.
Proof. unfold downcast_instance. case_bool_decide; [|done]. by intros [= <-]. Qed.

Lemma keys_types record k : k ∈ keys record → key_type_id k = key_type_id (br_primary record)
  ∨ ∃ also, also ∈ br_also record ∧ key_type_id k = key_type_id (aa_key also).
Proof.
  unfold keys, keys_located. rewrite <- list_fmap_compose. intros (kl & -> & Hkl)%list_elem_of_fmap. simpl.
  apply elem_of_cons in Hkl as [-> |Hkl]; [by left|]. apply list_elem_of_fmap in Hkl as (also & -> & Ha). right. by exists also.
Qed.

Lemma also_found record ty : (∃ also, also ∈ br_also record ∧ key_type_id (aa_key also) = ty) →
  ∃ also, find_first (λ also, bool_decide (key_type_id (aa_key also) = ty)) (br_also record) = Some also
    ∧ also ∈ br_also record ∧ key_type_id (aa_key also) = ty.
Proof.
  intros (also & Ha & Ht). destruct (find_first _ _) as [a|] eqn:E.
  - apply find_first_Some in E as [E Hin]. apply bool_decide_eq_true in E. by exists a.
  - eapply find_first_None in E; [|done]. by apply bool_decide_eq_false in E.
Qed.

(** An instance of a binding's primary type is answered under every key that names it. *)
Lemma widen_ok id b ty i : g_bindings g !! id = Some b → ty_of i = key_type_id (br_primary (fb_record b)) →
  (ty = key_type_id (br_primary (fb_record b)) ∨ ∃ also, also ∈ br_also (fb_record b) ∧ key_type_id (aa_key also) = ty) →
  ∃ j, widen g id ty i = Some j ∧ ty_of j = ty.
Proof.
  intros Hb Hi Hty. unfold widen. destruct (downcast_instance ty i) as [j|] eqn:Ed; [exists j; split; [done|by eapply downcast_typed]|].
  unfold downcast_instance in Ed. case_bool_decide as Hne; [done|]. destruct Hty as [-> |Hty]; [done|].
  apply also_found in Hty as (also & Hf & Ha & Ht). pose proof (lookup_lt_Some _ _ _ Hb) as Hlt.
  assert (Ec : coercion_to g id ty = Some (aa_coerce also)).
  { unfold coercion_to. destruct (length (g_bindings g)); [lia|]. cbn [coercion_loop]. rewrite (binding_Some g id b Hb).
    destruct (rk_also g Hrec id b also Hb Ha) as [-> _]. rewrite Hf. by destruct (bool_decide _). }
  rewrite Ec. destruct (rk_also g Hrec id b also Hb Ha) as (_ & Hfrom & Hto).
  assert (Hj : ty_of (coerce (aa_coerce also) i) = ty) by (rewrite coerce_typed by congruence; congruence).
  exists (coerce (aa_coerce also) i). split; [|done]. unfold downcast_instance. by rewrite bool_decide_eq_true_2.
Qed.

Lemma as_key_ok id b key i : g_bindings g !! id = Some b → ty_of i = key_type_id (br_primary (fb_record b)) →
  (∃ k, k ∈ keys (fb_record b) ∧ key_type_id k = key_type_id key) → ty_of (as_key b key i) = key_type_id key.
Proof.
  intros Hb Hi (k & Hk & Hkt). unfold as_key. case_bool_decide as Hp; [congruence|]. apply keys_types in Hk as [Hk|(also & Ha & Hk)]; [congruence|].
  destruct (also_found (fb_record b) (key_type_id key)) as (a & -> & Hin & Ht); [exists also; split; [done|congruence]|].
  destruct (rk_also g Hrec id b a Hb Hin) as (_ & Hfrom & Hto). rewrite coerce_typed; congruence.
Qed.
End Types.

(** ** Declared reads and edges *)

Lemma names_eq read wanted : read_names read wanted = match rd_kind read, wanted with
  | Single a, WantSingle b | Collection a, WantCollection b => key_eqb a b
  | Extension a, WantExtension b => bool_decide (a = tn_id b)
  | Execution, WantExecution => true
  | _, _ => false
  end.
Proof. unfold read_names, declares. simpl. by rewrite orb_false_r. Qed.

Lemma declares_names reading wanted : declares reading wanted = existsb (λ read, read_names read wanted) (rg_declared reading).
Proof. unfold declares. apply existsb_ext. intros read. by rewrite names_eq. Qed.

Section Declared.
Context (g : Graph) (Hij : injectable g) (id : BindingId) (b : FrozenBinding) (Hb : g_bindings g !! id = Some b).

Definition reads_on (x d : BindingId) : Prop := d ∈ construction_deps g x.

Lemma declared_edge read t : read ∈ declared_reads b → edge_target g (fb_origin b) (rd_kind read) = Some t →
  ∃ e, e ∈ fb_edges b ∧ ed_target e = t ∧ ed_optional e = rd_optional read.
Proof.
  intros Hr Ht. rewrite (ij_edges g Hij id b Hb). unfold declared_reads in Hr. apply list_elem_of_bind in Hr as (dep & Hr & Hdep).
  apply list_elem_of_lookup in Hdep as [index Hdep]. eexists {| ed_target := t; ed_dependency := index; ed_optional := rd_optional read |}.
  split; [|done]. unfold resolved_edges. apply list_elem_of_bind. exists (index, dep). split.
  - apply list_elem_of_omap. exists read. split; [done|]. unfold read_edge. cbn [fst]. by rewrite Ht.
  - apply list_elem_of_lookup. exists index. by rewrite list_lookup_imap, Hdep.
Qed.

Lemma declared_resolved read key : read ∈ declared_reads b → rd_kind read = Single key → resolved (lookup g (fb_origin b) key) (rd_optional read).
Proof.
  intros Hr Hk. destruct (pt_bindings g whole (ij_points g Hij) b) as [H _]; [by eapply list_elem_of_lookup_2|].
  unfold declared_reads in Hr. apply list_elem_of_bind in Hr as (dep & Hr & Hdep). by eapply H.
Qed.

Lemma edge_reads e d : e ∈ fb_edges b → d ∈ edge_deps g e → reads_on id d.
Proof.
  intros He Hd. unfold reads_on, construction_deps. rewrite (binding_Some g id b Hb). apply elem_of_app. left. apply list_elem_of_bind. by exists e.
Qed.

Lemma execution_needs e : e ∈ fb_edges b → is_execution_edge e = true → needs g id.
Proof.
  intros He Hx. apply needs_direct; [by eapply lookup_lt_Some|]. rewrite (binding_Some g id b Hb). unfold needs_directly. apply orb_true_iff. right.
  apply existsb_elem. by exists e.
Qed.

Lemma lookup_same m k k' : key_eqb k k' = true → lookup g m k = lookup g m k'.
Proof. unfold lookup. intros E%key_eqb_spec. by rewrite E. Qed.

Lemma collection_same k k' : key_eqb k k' = true → collection g k = collection g k'.
Proof. unfold collection. intros E%key_eqb_spec. by rewrite E. Qed.
End Declared.

(** ** Answers to a body's reads *)

(** Failures that are user code's: a failed build, an extension no guard wrote, and a key read as
    the kind it is not, which wiring does not refuse. *)
Definition allowed (e : ReadFailure) : Prop :=
  match e with ReadConstructed _ _ | ReadWrongKind _ _ _ | ReadNotFound _ OfExtension => True | _ => False end.

Section Answers.
Context {values : Values} {bodies : Bodies} (g : Graph) (Hij : injectable g) (Hrec : records_ok g).

Definition instances_typed (m : gmap BindingId Handle) : Prop :=
  ∀ id b i, g_bindings g !! id = Some b → m !! id = Some i → ty_of i = built_ty (fb_record b).

(** Cells to read through: there, and holding what their bindings build, for an execution. *)
Definition cells_ok (r : Resolver) (cells : option (gmap BindingId Handle)) : Prop :=
  match rv_exec r with Some _ => ∃ m, cells = Some m ∧ instances_typed m | None => True end.

(** What a cell holds stays. *)
Definition cells_le (c c' : option (gmap BindingId Handle)) : Prop :=
  match c, c' with Some m, Some m' => m ⊆ m' | None, None => True | _, _ => False end.

Lemma cells_le_refl c : cells_le c c.
Proof. by destruct c; simpl. Qed.

Lemma cells_le_trans a b c : cells_le a b → cells_le b c → cells_le a c.
Proof. destruct a, b, c; simpl; try done. apply transitivity. Qed.

Definition fine (r : Resolver) (id : BindingId) (cells : option (gmap BindingId Handle))
    (res : option (option (gmap BindingId Handle) * (ReadFailure + Handle))) : Prop :=
  ∃ cells' a, res = Some (cells', a) ∧ cells_ok r cells' ∧ cells_le cells cells'
    ∧ match a with inl e => allowed e | inr i => ty_of i = primary_ty g id end.

(** What a resolver must see to read for [id]: an execution that lives, holding the inputs that
    [id] reads and need not be there by chance, or none and none needed. *)
Record view_ok (r : Resolver) (id : BindingId) : Prop := {
  vo_exec : match rv_exec r with
            | Some ev => ev_ended ev = false ∧ ∀ ty i, ev_inputs ev !! ty = Some i → ty_of i = ty
            | None => ¬ needs g id
            end;
  vo_inputs : ∀ ev d e key, rv_exec r = Some ev → rtc (reads_on g) id d → e ∈ fb_edges (binding g d) → ed_target e = TInput key →
    ed_optional e = false → is_Some (ev_inputs ev !! key_type_id key);
}.

Section Body.
Context (obt : Resolver → BindingId → option (gmap BindingId Handle) → option (option (gmap BindingId Handle) * (ReadFailure + Handle))).
Context (id : BindingId) (b : FrozenBinding) (Hb : g_bindings g !! id = Some b).
Context (r : Resolver) (Hmod : rv_module r = fb_origin b) (Hview : view_ok r id).
Context (IH : ∀ d cells, reads_on g id d → cells_ok r cells → fine r d cells (obt r d cells)).

Lemma required_or_optional call wanted : wanted_of call = Some wanted →
  (∃ read, read ∈ declared_reads b ∧ read_names read wanted = true ∧ rd_optional read = false) ∨ only_optional (declared_reads b) call.
Proof.
  intros Hw. destruct (existsb (λ read, read_names read wanted && negb (rd_optional read)) (declared_reads b)) eqn:E.
  - left. apply existsb_elem in E as (read & Hin & [Hn Ho%negb_true_iff]%andb_prop). by exists read.
  - right. intros read w Hin Hw' Hn. rewrite Hw in Hw'. injection Hw' as <-. pose proof (proj1 (existsb_false _ _) E read Hin) as H. simpl in H.
    rewrite Hn in H. by apply negb_false_iff in H.
Qed.

(** An edge that reads execution data means there is an execution. *)
Lemma has_execution e : e ∈ fb_edges b → is_execution_edge e = true → ∃ ev, rv_exec r = Some ev ∧ ev_ended ev = false
  ∧ ∀ ty i, ev_inputs ev !! ty = Some i → ty_of i = ty.
Proof.
  intros He Hx. pose proof (vo_exec r id Hview) as H. destruct (rv_exec r) as [ev|]; [by exists ev|].
  exfalso. apply H. by eapply execution_needs.
Qed.

(** The input behind a declared key is there, or its absence is excused. *)
Lemma input_there call key input read : wanted_of call = Some (WantSingle key) → read ∈ declared_reads b → read_names read (WantSingle key) = true →
  lookup g (fb_origin b) key = Some (VInput input) →
  ∃ ev, rv_exec r = Some ev ∧ ev_ended ev = false ∧ (∀ ty i, ev_inputs ev !! ty = Some i → ty_of i = ty)
    ∧ (is_Some (ev_inputs ev !! key_type_id input) ∨ only_optional (declared_reads b) call).
Proof.
  intros Hw Hin Hn Hl.
  assert (Hedge : ∀ rd, rd ∈ declared_reads b → read_names rd (WantSingle key) = true →
    ∃ e, e ∈ fb_edges b ∧ ed_target e = TInput input ∧ ed_optional e = rd_optional rd).
  { intros rd Hrd Hnm. apply (declared_edge g Hij id b Hb); [done|]. rewrite names_eq in Hnm. destruct (rd_kind rd) as [k| | | |]; try done. simpl.
    by rewrite (lookup_same g _ k key Hnm), Hl. }
  destruct (Hedge read Hin Hn) as (e & He & Ht & _). destruct (has_execution e He) as (ev & Hev & Hend & Hty); [unfold is_execution_edge; by rewrite Ht|].
  exists ev. split_and!; [done..|]. destruct (required_or_optional call _ Hw) as [(rd & Hrd & Hnm & Ho)|]; [left|by right].
  destruct (Hedge rd Hrd Hnm) as (e' & He' & Ht' & Ho'). eapply (vo_inputs r id Hview ev id e'); [done|apply rtc_refl| |done|congruence].
  by rewrite (binding_Some g id b Hb).
Qed.

Definition answered_ok (call : ReadCall) (cells : option (gmap BindingId Handle)) (res : option (option (gmap BindingId Handle) * Answer)) : Prop :=
  ∃ cells' a, res = Some (cells', a) ∧ cells_ok r cells' ∧ cells_le cells cells'
    ∧ ∀ e, a = AnError e → allowed e ∨ excused (declared_reads b) call e.

Lemma answered_now call cells a : cells_ok r cells → (∀ e, a = AnError e → allowed e ∨ excused (declared_reads b) call e) →
  answered_ok call cells (Some (cells, a)).
Proof. intros Hc Ha. exists cells, a. split_and!; [done|done|apply cells_le_refl|done]. Qed.

Lemma visible_widens key d i : lookup g (fb_origin b) key = Some (VBinding d) → ty_of i = primary_ty g d →
  ∃ j, widen g d (key_type_id key) i = Some j.
Proof.
  intros Hl Hi. assert (Hwf : graph_wf g) by apply (ij_settled g Hij). pose proof (wf_visible g Hwf _ _ _ Hl) as Hlt.
  apply lookup_lt_is_Some in Hlt as [bd Hbd]. unfold primary_ty in Hi. rewrite (binding_Some g d bd Hbd) in Hi.
  destruct (widen_ok g Hrec d bd (key_type_id key) i Hbd Hi) as (j & Hj & _); [|by exists j].
  destruct (ij_visible g Hij _ _ _ Hl) as (k & Hk & Hkt). rewrite (binding_Some g d bd Hbd) in Hk.
  apply keys_types in Hk as [Hk|(also & Ha & Hk)]; [left; congruence|right]. exists also. split; [done|congruence].
Qed.

Lemma dep_answered key read cells : read ∈ declared_reads b → read_names read (WantSingle key) = true → cells_ok r cells →
  answered_ok (CallDep key (key_type_id key)) cells (answer g obt r (CallDep key (key_type_id key)) cells).
Proof.
  intros Hin Hn Hc. unfold answer, single, locate. rewrite Hmod. pose proof Hn as Hn'. rewrite names_eq in Hn'. destruct (rd_kind read) as [k| | | |] eqn:Ek; try done.
  pose proof (declared_resolved g Hij id b Hb read k Hin Ek) as Hres. rewrite (lookup_same g _ k key Hn') in Hres.
  destruct (lookup g (fb_origin b) key) as [[d|input|sources]|] eqn:El; [| |done|].
  - rewrite bool_decide_eq_false_2 by tauto. assert (Hd : reads_on g id d).
    { destruct (declared_edge g Hij id b Hb read (TBinding d) Hin) as (e & He & Ht & _); [rewrite Ek; simpl; by rewrite (lookup_same g _ k key Hn'), El|].
      eapply edge_reads; [done|done|]. unfold edge_deps. rewrite Ht. by left. }
    destruct (IH d cells Hd Hc) as (c' & a & -> & Hc' & Hle & Ha). exists c'. destruct a as [e|i]; simpl.
    + eexists. split_and!; [done..|]. intros e' [= <-]. by left.
    + destruct (visible_widens key d i El Ha) as [j ->]. eexists. by split_and!.
  - rewrite bool_decide_eq_false_2 by tauto. simpl. apply answered_now; [done|].
    destruct (input_there (CallDep key (key_type_id key)) key input read eq_refl Hin Hn El) as (ev & Hev & Hend & Hty & Hthere).
    unfold seeded_input, exec_for. rewrite Hev, Hend. destruct (ev_inputs ev !! key_type_id input) as [i|] eqn:Ei.
    + unfold downcast_instance. by rewrite bool_decide_eq_true_2 by (rewrite (Hty _ _ Ei); by eapply ij_input).
    + intros e [= <-]. right. simpl. by destruct Hthere as [[? ?]|].
  - case_bool_decide as Hcol; simpl; apply answered_now; try done; intros e [= <-]; [by left|right]. simpl.
    intros rd w Hrd [= <-] Hnm. rewrite names_eq in Hnm. destruct (rd_kind rd) as [k'| | | |] eqn:Ek'; try done.
    pose proof (declared_resolved g Hij id b Hb rd k' Hrd Ek') as H. by rewrite (lookup_same g _ k' key Hnm), El in H.
Qed.

Lemma many_answered key read cells : read ∈ declared_reads b → read_names read (WantCollection key) = true → cells_ok r cells →
  answered_ok (CallMany key) cells (answer g obt r (CallMany key) cells).
Proof.
  intros Hin Hn Hc. unfold answer, contributions. destruct (bool_decide (collection g key = []) && _);
    [apply answered_now; [done|]; intros e [= <-]; by left|].
  assert (Hdeps : ∀ d, d ∈ collection g key → reads_on g id d).
  { intros d Hd. rewrite names_eq in Hn. destruct (rd_kind read) as [|k| | |] eqn:Ek; try done.
    destruct (declared_edge g Hij id b Hb read (TCollection k) Hin) as (e & He & Ht & _); [by rewrite Ek|].
    eapply edge_reads; [done|done|]. unfold edge_deps. by rewrite Ht, (collection_same g k key Hn). }
  assert (Hty : ∀ d, d ∈ collection g key → primary_ty g d = key_type_id key) by (intros d Hd; by apply ij_collected).
  revert Hdeps Hty. generalize (collection g key). intros ids. clear Hin Hn.
  assert (Hloop : ∀ cells, cells_ok r cells → (∀ d, d ∈ ids → reads_on g id d) → (∀ d, d ∈ ids → primary_ty g d = key_type_id key) →
    ∃ c' a, many_loop g obt r key ids cells = Some (c', a) ∧ cells_ok r c' ∧ cells_le cells c' ∧ ∀ e, a = inl e → allowed e).
  { clear cells Hc. induction ids as [|d ids IHl]; intros cells Hc Hdeps Hty; cbn [many_loop].
    { eexists _, _. split_and!; [done|done|apply cells_le_refl|done]. }
    destruct (IH d cells) as (c1 & a1 & -> & Hc1 & Hle1 & Ha1); [apply Hdeps; by left|done|]. destruct a1 as [e|i].
    { eexists _, _. split_and!; [done|done|done|]. by intros ? [= <-]. }
    assert (Hd : d < length (g_bindings g)) by (eapply construction_deps_range; [apply (ij_settled g Hij)|apply Hdeps; by left]).
    apply lookup_lt_is_Some in Hd as [bd Hbd]. pose proof (Hty d ltac:(by left)) as Hp. unfold primary_ty in Hp, Ha1. rewrite (binding_Some g d bd Hbd) in Hp, Ha1.
    destruct (widen_ok g Hrec d bd (key_type_id key) i Hbd Ha1) as (j & -> & _); [by left|].
    destruct (IHl c1 Hc1) as (c2 & a2 & -> & Hc2 & Hle2 & Ha2); [intros; apply Hdeps; by right|intros; apply Hty; by right|].
    destruct a2 as [e|l]; eexists _, _; (split_and!; [done|done|by eapply cells_le_trans|]); [intros ? [= <-]; by apply Ha2|done]. }
  intros Hdeps Hty. destruct (Hloop cells Hc Hdeps Hty) as (c' & a & -> & Hc' & Hle & Ha). exists c'. eexists. split_and!; [done|done|done|].
  intros e. destruct a; simpl; [|done]. intros [= <-]. left. by apply Ha.
Qed.

Lemma execution_there read : read ∈ declared_reads b → (∃ ty, rd_kind read = Extension ty) ∨ rd_kind read = Execution →
  ∃ ev, rv_exec r = Some ev ∧ ev_ended ev = false.
Proof.
  intros Hin Hk. destruct (declared_edge g Hij id b Hb read TExecution Hin) as (e & He & Ht & _); [destruct Hk as [[ty ->]| ->]; done|].
  destruct (has_execution e He) as (ev & Hev & Hend & _); [unfold is_execution_edge; by rewrite Ht|]. by exists ev.
Qed.

(** Every read a binding declares is answered, and fails only by user code or, optional, as not
    found. *)
Lemma answer_declared call cells : cells_ok r cells →
  match call with
  | CallDep key t => t = key_type_id key
  | CallInput key => ∃ input, lookup g (fb_origin b) key = Some (VInput input) ∧ key_type_id input = key_type_id key
  | _ => True
  end →
  match wanted_of call with Some wanted => existsb (λ read, read_names read wanted) (declared_reads b) = true | None => True end →
  answered_ok call cells (answer g obt r call cells).
Proof.
  intros Hc Hcall Hdec. destruct (wanted_of call) as [wanted|] eqn:Ew.
  2: { destruct call; try done. by apply answered_now. }
  apply existsb_elem in Hdec as (read & Hin & Hn). destruct call as [key t|key|name key|key|key|]; try done; injection Ew as <-.
  - subst t. by eapply dep_answered.
  - by eapply many_answered.
  - destruct (execution_there read Hin) as (ev & Hev & Hend); [rewrite names_eq in Hn; destruct (rd_kind read); try done; eauto|].
    unfold answer, exec_for. rewrite Hev, Hend. apply answered_now; [done|]. destruct (ev_extensions ev !! _); [done|]. intros e [= <-]. by left.
  - destruct Hcall as (input & Hl & Ht). destruct (input_there (CallInput key) key input read eq_refl Hin Hn Hl) as (ev & Hev & Hend & _ & Hthere).
    unfold answer, exec_for. rewrite Hev, Hend. rewrite Ht in Hthere. apply answered_now; [done|]. destruct (ev_inputs ev !! _); [done|].
    intros e [= <-]. right. simpl. by destruct Hthere as [[? ?]|].
  - destruct (execution_there read Hin) as (ev & Hev & Hend); [rewrite names_eq in Hn; destruct (rd_kind read); try done; eauto|].
    unfold answer, exec_for. rewrite Hev, Hend. by apply answered_now.
Qed.

(** ** Bodies *)

(** A body that has not been refused a read ends with its instance, with a failure of user code, or
    with an error a read of it answered. *)
Definition ended_ok (o : Outcome (Handle + CtorError)) : Prop :=
  match o with Done (inl i) => ty_of i = built_ty (fb_record b) | Done (inr (CDependency e)) => allowed e | _ => True end.

Lemma run_body_ok reading body : ∀ seen v cells, cells_ok r cells → (v = None → ∀ e, seen e → allowed e) →
  body_ok g (fb_origin b) (built_ty (fb_record b)) (declared_reads b) seen body →
  match reading with Some rd => rg_declared rd = declared_reads b | None => reads_within (declared_reads b) body end →
  ∃ cells' v' o, run_body g obt r reading v body cells = Some (cells', v', o) ∧ cells_ok r cells' ∧ cells_le cells cells'
    ∧ (v' = None → v = None ∧ ended_ok o) ∧ (reading = None → v' = v).
Proof.
  induction body as [o|call next IHb]; intros seen v cells Hc Hseen Hbody Hread; cbn [run_body].
  - eexists _, _, _. split_and!; [done|done|apply cells_le_refl| |done]. intros ->. split; [done|]. unfold ended_ok.
    destruct o as [[i|[e|e]]|p|a l|]; try done. by apply Hseen.
  - destruct Hbody as [Hcall Hnext]. destruct (refused reading call) as [[reader refusal]|] eqn:Er.
    + set (a := AnError _). pose proof (Hnext a) as Ha.
      edestruct (λ Hv, IHb a _ (Some (default refusal v)) cells Hc Hv Ha) as (c' & v' & o & -> & Hc' & Hle & Hv & _);
        [by intros [=]|destruct reading; [done|by unfold refused in Er]|].
      eexists _, _, _. split_and!; [done|done|done|intros Hnone; by destruct (Hv Hnone)|]. intros ->. by unfold refused in Er.
    + destruct (answer_declared call cells Hc Hcall) as (c1 & a & -> & Hc1 & Hle1 & Ha).
      { unfold refused in Er. destruct (wanted_of call) as [w|] eqn:Ew; [|done]. destruct reading as [rd|].
        - rewrite declares_names, Hread in Er. by destruct (existsb _ _).
        - cbn [reads_within] in Hread. rewrite Ew in Hread. by destruct Hread. }
      destruct (IHb a (λ e, seen e ∨ (a = AnError e ∧ ¬ excused (declared_reads b) call e)) v c1 Hc1) as (c' & v' & o & -> & Hc' & Hle & Hv & Hv'); [|done| |].
      * intros -> e [He|[He Hx]]; [by apply Hseen|]. by destruct (Ha e He).
      * destruct reading; [done|]. by destruct Hread.
      * eexists _, _, _. split_and!; [done|done|by eapply cells_le_trans|done|done].
Qed.
End Body.
End Answers.

(** ** Obtaining a binding *)

Section Obtain.
Context {values : Values} {bodies : Bodies} (g : Graph) (Hij : injectable g) (Hrec : records_ok g).
Context (store : gmap BindingId Handle) (phase : PhaseCell) (Hstore : instances_typed g store).

Let Hwf : graph_wf g := ck_wf g (se_checked g (ij_settled g Hij)).

(** Singletons can be read: the phase allows it, or the lifecycle reads. *)
Definition open_to (r : Resolver) : Prop := rv_purpose r = LifecyclePurpose ∨ allows_singleton_lookup phase = true.

Lemma lookup_open r key : open_to r → check_singleton_lookup phase r key = None.
Proof. unfold check_singleton_lookup. intros [-> | ->]; [done|]. by rewrite andb_false_r. Qed.

(** A binding the connect walk stores an instance for. *)
Definition stored_once (id : BindingId) : Prop :=
  fb_effective (binding g id) = ESingleton ∧ match br_recipe (fb_record (binding g id)) with Construct _ | Factory _ => True | _ => False end.

Lemma view_in_module r m id : view_ok g r id → view_ok g (in_module r m) id.
Proof. by intros [H1 H2]. Qed.

(** The need for an execution goes no further down than up. *)
Lemma view_reads r id d : view_ok g r id → id < length (g_bindings g) → reads_on g id d → view_ok g r d.
Proof.
  intros [Hx Hin] Hid Hd. split.
  - destruct (rv_exec r); [done|]. intros Hn. apply Hx. pose proof (construction_deps_range g Hwf id d Hd) as Hlt.
    eapply needs_through; [done|done|done|]. destruct (carries (binding g d)) eqn:Ec; [done|exfalso].
    apply lookup_lt_is_Some in Hlt as Hbd. destruct Hbd as [bd Hbd]. pose proof (rk_recipe g Hrec d bd Hbd) as Hr.
    destruct (se_scoped g (ij_settled g Hij) d Hlt) as [He _].
    assert (Hs : fb_effective (binding g d) = ESingleton).
    { rewrite He. unfold carries, built_as in *. destruct (br_scope _); try done. by rewrite Ec, andb_false_r. }
    apply (ck_scopes g (se_checked g (ij_settled g Hij)) d Hlt); [|done|done]. unfold carries in Ec. rewrite (binding_Some g d bd Hbd) in *.
    destruct (br_recipe (fb_record bd)); try done. destruct Hr as [Hr _]. by rewrite Hr in Ec.
  - intros ev x e key Hev Hx'. apply (Hin ev x e key Hev). by eapply rtc_l.
Qed.

Section Step.
Context (obt : Resolver → BindingId → option (gmap BindingId Handle) → option (option (gmap BindingId Handle) * (ReadFailure + Handle))).
Context (id : BindingId) (b : FrozenBinding) (Hb : g_bindings g !! id = Some b) (r : Resolver) (Hview : view_ok g r id).
Context (IH : ∀ m d cells, reads_on g id d → cells_ok g r cells → fine g r d cells (obt (in_module r m) d cells)).

Definition built_fine (cells : option (gmap BindingId Handle)) (res : option (option (gmap BindingId Handle) * (ReadFailure + Handle))) : Prop :=
  ∃ cells' a, res = Some (cells', a) ∧ cells_ok g r cells' ∧ cells_le cells cells'
    ∧ match a with inl e => allowed e | inr i => ty_of i = built_ty (fb_record b) end.

Lemma built_now cells a : cells_ok g r cells → match a with inl e => allowed e | inr i => ty_of i = built_ty (fb_record b) end →
  built_fine cells (Some (cells, a)).
Proof. intros Hc Ha. exists cells, a. split_and!; [done|done|apply cells_le_refl|done]. Qed.

Lemma run_ctor_ok cells : cells_ok g r cells → match br_recipe (fb_record b) with Construct _ | Factory _ => True | _ => False end →
  ∃ cells' o, run_ctor g obt (in_module r (fb_origin b)) (br_recipe (fb_record b)) cells = Some (cells', o)
    ∧ cells_ok g r cells' ∧ cells_le cells cells' ∧ ended_ok b o.
Proof.
  intros Hc Hk. set (r' := in_module r (fb_origin b)).
  assert (Hbody := λ reading body, run_body_ok g Hij Hrec obt id b Hb r' eq_refl (view_in_module r (fb_origin b) id Hview)
    (λ d cells Hd Hc, IH (fb_origin b) d cells Hd Hc) reading body (λ _, False) None cells Hc (λ _ e, False_ind _)).
  pose proof (rk_recipe g Hrec id b Hb) as Hr. unfold run_ctor. destruct (br_recipe (fb_record b)) as [ctor|ctor| | |]; try done.
  - destruct Hr as [Hd Hok]. destruct (Hbody (Some (bd_reading ctor)) (bd_body ctor) Hok Hd) as (c' & v' & o & -> & Hc' & Hle & Hv & _).
    destruct v' as [refusal|]; [|exists c', o; split_and!; [by destruct o|done|done|by apply Hv]].
    destruct o; (eexists _, _; by split_and!).
  - destruct Hr as [Hd Hok]. destruct (Hbody None (bd_body ctor) Hok Hd) as (c' & v' & o & -> & Hc' & Hle & Hv & Hv').
    exists c', o. split_and!; [done|done|done|]. by apply Hv, Hv'.
Qed.

Lemma build_ok key cells : cells_ok g r cells → match br_recipe (fb_record b) with Construct _ | Factory _ => True | _ => False end →
  built_fine cells (build g obt r b key cells).
Proof.
  intros Hc Hk. unfold build. destruct (run_ctor_ok cells Hc Hk) as (c' & o & -> & Hc' & Hle & Ho).
  destruct o as [[i|[e|e]]|p|a l|]; (eexists _, _; by split_and!).
Qed.

(** An entry the build of another binding cannot have made. *)
Lemma insert_kept (m m' : gmap BindingId Handle) i : m !! id = None → m ⊆ m' → m ⊆ <[id := i]> m'.
Proof.
  intros Hn Hle. apply map_subseteq_spec. intros j x Hj. rewrite lookup_insert_ne by congruence. by eapply lookup_weaken.
Qed.

Lemma get_or_build_ok key cells : is_Some (rv_exec r) → cells_ok g r cells → match br_recipe (fb_record b) with Construct _ | Factory _ => True | _ => False end →
  built_fine cells (get_or_build id key (build g obt r b key) cells).
Proof.
  intros [ev Hev] Hc Hk. pose proof Hc as Hc0. unfold cells_ok in Hc. rewrite Hev in Hc. destruct Hc as (m & -> & Hm). unfold get_or_build.
  destruct (m !! id) as [i|] eqn:Ei; [apply built_now; [done|by eapply Hm]|].
  destruct (build_ok key (Some m) Hc0 Hk) as (c' & a & -> & Hc' & Hle & Ha). destruct a as [e|i]; [eexists _, _; by split_and!|].
  unfold cells_ok in Hc'. rewrite Hev in Hc'. destruct Hc' as (m' & -> & Hm'). eexists _, _. split_and!; [done| |by apply insert_kept|done].
  unfold cells_ok. rewrite Hev. eexists. split; [done|]. intros j bj x Hbj [[<- <-]|[_ Hx]]%lookup_insert_Some; [congruence|by eapply Hm'].
Qed.

Lemma built_ok key cells : cells_ok g r cells → open_to r → (stored_once id → is_Some (store !! id)) →
  (∀ target, br_recipe (fb_record b) ≠ Alias target) → built_fine cells (built g store phase obt r id key cells).
Proof.
  intros Hc Hopen Hsto Hna. pose proof (rk_recipe g Hrec id b Hb) as Hr. unfold built, stored_once in *. rewrite (binding_Some g id b Hb) in *.
  assert (Hs : match br_recipe (fb_record b) with Construct _ | Factory _ => True | _ => False end → fb_effective b = ESingleton →
    built_fine cells (Some (cells, match check_singleton_lookup phase r key with
                                   | Some e => inl e | None => match store !! id with Some i => inr i | None => inl (ReadNotReady key) end end))).
  { intros Hk He. rewrite lookup_open by done. destruct (Hsto (conj He Hk)) as [i Hi]. rewrite Hi. apply built_now; [done|by eapply Hstore]. }
  assert (Hx : match br_recipe (fb_record b) with Construct _ | Factory _ => True | _ => False end → fb_effective b = EPerExecution →
    built_fine cells match rv_exec r with None => Some (cells, inl (ReadExecutionRequired key)) | Some _ => get_or_build id key (build g obt r b key) cells end).
  { intros Hk He. pose proof (vo_exec g r id Hview) as Hv. destruct (rv_exec r) as [ev|] eqn:Ev; [apply get_or_build_ok; [by rewrite Ev|done|done]|exfalso].
    apply Hv. pose proof (lookup_lt_Some _ _ _ Hb) as Hid. destruct (se_scoped g (ij_settled g Hij) id Hid) as [He' Hn]. apply Hn.
    rewrite (binding_Some g id b Hb) in *. rewrite He in He'. unfold built_as in He'. destruct (br_scope (fb_record b)) eqn:Es; try done.
    - apply Hn. apply needs_direct; [done|]. rewrite (binding_Some g id b Hb). unfold needs_directly. by rewrite Es.
    - by destruct (fb_needs_execution b). }
  destruct (br_recipe (fb_record b)) as [ctor|ctor|v|target|] eqn:Er; [| | |by destruct (Hna target)|done].
  1,2: destruct (fb_effective b); [by apply Hs|by apply Hx|apply build_ok; [done|by rewrite Er]].
  apply built_now; [done|]. destruct (bool_decide _); by rewrite ?lookup_open.
Qed.

Lemma obtain_step_ok cells : cells_ok g r cells → open_to r → (stored_once id → is_Some (store !! id)) →
  fine g r id cells (obtain_step g store phase obt r id cells).
Proof.
  intros Hc Hopen Hsto. unfold obtain_step. assert (Hend : match rv_exec r with Some ev => ev_ended ev | None => false end = false).
  { pose proof (vo_exec g r id Hview) as Hv. destruct (rv_exec r); [by destruct Hv|done]. }
  rewrite Hend, (binding_Some g id b Hb). unfold fine, primary_ty. rewrite (binding_Some g id b Hb).
  assert (Hb' : (∀ target, br_recipe (fb_record b) ≠ Alias target) →
    ∃ c' a, match built g store phase obt r id (key_name g id) cells with
            | Some (cells, inr i) => Some (cells, inr match br_into_primary (fb_record b) with Some widen => coerce widen i | None => i end)
            | other => other
            end = Some (c', a) ∧ cells_ok g r c' ∧ cells_le cells c'
      ∧ match a with inl e => allowed e | inr i => ty_of i = key_type_id (br_primary (fb_record b)) end).
  { intros Hna. destruct (built_ok (key_name g id) cells Hc Hopen Hsto Hna) as (c' & a & -> & Hc' & Hle & Ha). destruct a as [e|i]; eexists _, _; (split_and!; [done|done|done|]); [done|].
    unfold built_ty in Ha. destruct (br_into_primary (fb_record b)) as [c|] eqn:Ei; [|done]. rewrite coerce_typed by done. by eapply rk_widened. }
  destruct (br_recipe (fb_record b)) as [| | |target|] eqn:Er; try (by apply Hb'). unfold obtain_alias.
  destruct (ij_alias g Hij id b target Hb Er) as [t Ht]. rewrite Ht. assert (Hd : reads_on g id t).
  { unfold reads_on, construction_deps, alias_target. rewrite (binding_Some g id b Hb), Er, Ht. apply elem_of_app. right. by left. }
  destruct (IH (rv_module r) t cells Hd Hc) as (c' & a & E & Hc' & Hle & Ha). replace (in_module r (rv_module r)) with r in E by (by destruct r). rewrite E.
  destruct a as [e|i]; eexists _, _; (split_and!; [done|done|done|]); [done|].
  pose proof (wf_visible g Hwf _ _ _ Ht) as Hlt. apply lookup_lt_is_Some in Hlt as [bt Hbt]. unfold primary_ty in Ha. rewrite (binding_Some g t bt Hbt) in *.
  pose proof (rk_recipe g Hrec id b Hb) as Hr. rewrite Er in Hr. destruct Hr as (_ & _ & Hkt). rewrite <- Hkt.
  eapply as_key_ok; [done|done|done|]. destruct (ij_visible g Hij _ _ _ Ht) as (k & Hk & Hkk). rewrite (binding_Some g t bt Hbt) in Hk. by exists k.
Qed.
End Step.

(** ** Fuel *)

(** The bindings being built above [id]. *)
Record above (path : list BindingId) (id : BindingId) : Prop := {
  ab_nodup : NoDup path;
  ab_range : ∀ p, p ∈ path → p < length (g_bindings g);
  ab_reads : ∀ p, p ∈ path → tc (reads_on g) p id;
}.

Lemma reads_acyclic : acyclic (reads_on g).
Proof.
  red. apply (acyclic_subrel (depends g)); [|apply (ck_acyclic g (se_checked g (ij_settled g Hij)))]. intros x d Hd. apply tc_once. apply elem_of_app. by left.
Qed.

Lemma above_reads path id d : above path id → id < length (g_bindings g) → reads_on g id d → above (id :: path) d.
Proof.
  intros [H1 H2 H3] Hid Hd. split.
  - apply NoDup_cons. split; [|done]. intros Hin. by apply (reads_acyclic id), H3.
  - intros p [-> |Hp]%elem_of_cons; [done|by apply H2].
  - intros p [-> |Hp]%elem_of_cons; [by apply tc_once|]. eapply tc_r; [by apply H3|done].
Qed.

Lemma above_short path id : above path id → length path ≤ length (g_bindings g).
Proof.
  intros [H1 H2 _]. transitivity (length (seq 0 (length (g_bindings g)))); [|by rewrite length_seq]. apply submseteq_length, NoDup_submseteq; [done|].
  intros p Hp. apply elem_of_seq. specialize (H2 p Hp). lia.
Qed.

Lemma obtain_ok fuel : ∀ id path r cells, above path id → length (g_bindings g) < fuel + length path → id < length (g_bindings g) →
  view_ok g r id → open_to r → (∀ d, rtc (reads_on g) id d → stored_once d → is_Some (store !! d)) → cells_ok g r cells →
  fine g r id cells (obtain g store phase fuel r id cells).
Proof.
  induction fuel as [|fuel IH]; intros id path r cells Hab Hf Hid Hv Ho Hs Hc; [apply above_short in Hab; simpl in Hf; lia|].
  cbn [obtain]. pose proof Hid as Hid'. apply lookup_lt_is_Some in Hid' as [b Hb]. eapply obtain_step_ok; [done|done| |done|done|intros H; by apply Hs; [apply rtc_refl|]].
  intros m d cells' Hd Hc'. pose proof (construction_deps_range g Hwf id d Hd) as Hlt.
  change (fine g r d cells' (obtain g store phase fuel (in_module r m) d cells')) with (fine g (in_module r m) d cells' (obtain g store phase fuel (in_module r m) d cells')).
  apply (IH d (id :: path)); [by apply above_reads|simpl; lia|done|by apply view_in_module, (view_reads r id d)|done| |done].
  intros x Hx. apply Hs. by eapply rtc_l.
Qed.
End Obtain.

(** ** Reads by key *)

Section Reads.
Context {values : Values} {bodies : Bodies} (g : Graph) (Hij : injectable g) (Hrec : records_ok g).
Context (store : gmap BindingId Handle) (phase : PhaseCell) (Hstore : instances_typed g store).

(** Every singleton that is constructed has its instance. *)
Definition all_stored : Prop := ∀ d, stored_once g d → is_Some (store !! d).

Lemma obtain_fine fuel id r cells : all_stored → length (g_bindings g) < fuel → id < length (g_bindings g) → view_ok g r id →
  open_to phase r → cells_ok g r cells → fine g r id cells (obtain g store phase fuel r id cells).
Proof.
  intros Hall Hf Hid Hv Ho Hc. apply (obtain_ok g Hij Hrec store phase Hstore fuel id []); try done; [|simpl; lia|by intros; apply Hall].
  split; [by apply NoDup_nil|intros p Hp; by apply not_elem_of_nil in Hp..].
Qed.

Lemma single_fine fuel r key id cells : all_stored → length (g_bindings g) < fuel → lookup g (rv_module r) key = Some (VBinding id) →
  view_ok g r id → open_to phase r → cells_ok g r cells →
  ∃ cells' a, single g (obtain g store phase fuel) r key (key_type_id key) cells = Some (cells', a) ∧ cells_ok g r cells' ∧ cells_le cells cells'
    ∧ match a with inl e => allowed e | inr i => ty_of i = key_type_id key end.
Proof.
  intros Hall Hf Hl Hv Ho Hc. pose proof (wf_visible g (ck_wf g (se_checked g (ij_settled g Hij))) _ _ _ Hl) as Hid.
  destruct (obtain_fine fuel id r cells Hall Hf Hid Hv Ho Hc) as (c' & a & E & Hc' & Hle & Ha).
  unfold single, locate. rewrite Hl, bool_decide_eq_false_2, E by tauto. destruct a as [e|i]; eexists _, _; (split_and!; [done|done|done|]); [done|].
  apply lookup_lt_is_Some in Hid as [b Hb]. unfold primary_ty in Ha. rewrite (binding_Some g id b Hb) in Ha.
  destruct (widen_ok g Hrec id b (key_type_id key) i Hb Ha) as (j & -> & Hj); [|done].
  destruct (ij_visible g Hij _ _ _ Hl) as (k & Hk & Hkt). rewrite (binding_Some g id b Hb) in Hk.
  apply keys_types in Hk as [Hk|(also & Hin & Hk)]; [left; congruence|right]. exists also. split; [done|congruence].
Qed.

(** What is visible can be read: for a binding, a view to build it with and a phase that gives
    singletons out; for an input, a live execution that was seeded with it. *)
Definition readable (r : Resolver) (v : Visible) : Prop :=
  match v with
  | VBinding id => view_ok g r id ∧ open_to phase r
  | VInput input => ∃ ev i, rv_exec r = Some ev ∧ ev_ended ev = false ∧ ev_inputs ev !! key_type_id input = Some i ∧ ty_of i = key_type_id input
  | VAmbiguous _ => False
  end.

Lemma single_visible fuel r key v cells : all_stored → length (g_bindings g) < fuel → lookup g (rv_module r) key = Some v →
  readable r v → cells_ok g r cells →
  ∃ cells' a, single g (obtain g store phase fuel) r key (key_type_id key) cells = Some (cells', a) ∧ cells_le cells cells'
    ∧ match a with inl e => allowed e | inr i => ty_of i = key_type_id key end.
Proof.
  intros Hall Hf Hl Hr Hc. destruct v as [id|input|]; [| |done].
  - destruct Hr as [Hv Ho]. destruct (single_fine fuel r key id cells) as (c' & a & E & _ & H); eauto.
  - destruct Hr as (ev & i & Hev & Hend & Hi & Hty). unfold single, locate. rewrite Hl, bool_decide_eq_false_2 by tauto.
    unfold seeded_input, exec_for, downcast_instance. rewrite Hev, Hend, Hi, Hty, (ij_input g Hij _ _ _ Hl), bool_decide_eq_true_2 by done.
    eexists _, _. split_and!; [done|apply cells_le_refl|]. simpl. by rewrite Hty, (ij_input g Hij _ _ _ Hl).
Qed.

(** Bindings obtained one after another in an execution, each with its answer. *)
Fixpoint obtain_each (fuel : nat) (r : Resolver) (ids : list BindingId) (cells : option (gmap BindingId Handle))
    : option (option (gmap BindingId Handle) * list (BindingId * (ReadFailure + Handle))) :=
  match ids with
  | [] => Some (cells, [])
  | id :: ids =>
      match obtain g store phase fuel r id cells with
      | None => None
      | Some (cells, a) => (λ cl : option (gmap BindingId Handle) * list (BindingId * (ReadFailure + Handle)), (cl.1, (id, a) :: cl.2)) <$> obtain_each fuel r ids cells
      end
  end.

Definition once_per_execution (id : BindingId) : Prop :=
  fb_effective (binding g id) = EPerExecution ∧ match br_recipe (fb_record (binding g id)) with Construct _ | Factory _ => True | _ => False end.

(** The answer for a cell that is filled. *)
Definition answer_of (id : BindingId) (i : Handle) : Handle :=
  match br_into_primary (fb_record (binding g id)) with Some widen => coerce widen i | None => i end.

Lemma obtain_filled fuel r ev id m i : once_per_execution id → rv_exec r = Some ev → ev_ended ev = false → m !! id = Some i →
  obtain g store phase (S fuel) r id (Some m) = Some (Some m, inr (answer_of id i)).
Proof.
  intros [He Hk] Hev Hend Hm. cbn [obtain]. unfold obtain_step, built. rewrite Hev, Hend, He. unfold answer_of.
  destruct (br_recipe (fb_record (binding g id))); try done; unfold get_or_build; by rewrite Hm.
Qed.

Lemma obtain_fills fuel r ev id m m' i : once_per_execution id → rv_exec r = Some ev → ev_ended ev = false →
  obtain g store phase fuel r id (Some m) = Some (Some m', inr i) → ∃ j, m' !! id = Some j ∧ i = answer_of id j.
Proof.
  intros [He Hk] Hev Hend E. destruct fuel as [|fuel]; [done|]. cbn [obtain] in E. unfold obtain_step, built in E. rewrite Hev, Hend, He in E.
  assert (Hg : ∀ key built, (∃ c j, get_or_build id key built (Some m) = Some (c, inr j) ∧ c = Some m' ∧ i = answer_of id j) → ∃ j, m' !! id = Some j ∧ i = answer_of id j).
  { intros key built' (c & j & Eg & -> & ->). unfold get_or_build in Eg. exists j. split; [|done]. destruct (m !! id) as [x|] eqn:Em; [congruence|].
    destruct (built' (Some m)) as [[[m1|] [e|x]]|]; simplify_eq/=. apply lookup_insert_eq. }
  unfold answer_of in *. destruct (br_recipe (fb_record (binding g id))); try done.
  all: eapply Hg; destruct (get_or_build _ _ _ _) as [[c [e|j]]|] eqn:Eg; simplify_eq; eauto.
Qed.

Definition shared_answers (m : gmap BindingId Handle) (l : list (BindingId * (ReadFailure + Handle))) : Prop :=
  ∀ id i, (id, inr i) ∈ l → once_per_execution id → ∃ j, m !! id = Some j ∧ i = answer_of id j.

Lemma obtain_each_fine fuel r ev ids : all_stored → length (g_bindings g) < fuel → rv_exec r = Some ev → open_to phase r →
  (∀ id, id ∈ ids → id < length (g_bindings g) ∧ view_ok g r id) → ∀ m, instances_typed g m →
  ∃ m' l, obtain_each fuel r ids (Some m) = Some (Some m', l) ∧ l.*1 = ids ∧ m ⊆ m' ∧ shared_answers m' l
    ∧ ∀ id a, (id, a) ∈ l → match a with inl e => allowed e | inr i => ty_of i = primary_ty g id end.
Proof.
  intros Hall Hf Hev Ho. induction ids as [|id ids IH]; intros Hids m Hm; cbn [obtain_each].
  { exists m, []. split_and!; try done; intros ? ? H; by apply not_elem_of_nil in H. }
  destruct (Hids id ltac:(by left)) as [Hid Hv].
  destruct (obtain_fine fuel id r (Some m) Hall Hf Hid Hv Ho) as (c' & a & E & Hc' & Hle & Ha); [unfold cells_ok; rewrite Hev; eauto|]. rewrite E.
  unfold cells_ok in Hc'. rewrite Hev in Hc'. destruct Hc' as (m1 & -> & Hm1).
  destruct (IH (λ x Hx, Hids x (list_elem_of_further _ _ _ Hx)) m1 Hm1) as (m2 & l & -> & Hl & Hle2 & Hsh & Hans).
  exists m2, ((id, a) :: l). split_and!; [done|by rewrite fmap_cons, Hl|by etrans| |].
  - intros x i [E'|Hin]%elem_of_cons Hx; [|by apply Hsh]. injection E' as <- <-.
    destruct (obtain_fills fuel r ev x m m1 i Hx Hev) as (j & Hj & ->); [|done|exists j; split; [by eapply lookup_weaken|done]].
    pose proof (vo_exec g r x Hv) as H. rewrite Hev in H. by destruct H.
  - intros x y [E'|Hin]%elem_of_cons; [by injection E' as -> ->|by apply Hans].
Qed.

(** ** Reads a body declares *)

(** The run of a body whose every read is answered, and the reads it makes. *)
Inductive runs (fuel : nat) (r : Resolver) : CtorBody → option (gmap BindingId Handle) → list ReadCall → option (gmap BindingId Handle) → Outcome (Handle + CtorError) → Prop :=
  | runs_end o cells : runs fuel r (BEnd o) cells [] cells o
  | runs_call call next cells cells1 a calls cells' o :
      answer g (obtain g store phase fuel) r call cells = Some (cells1, a) → runs fuel r (next a) cells1 calls cells' o →
      runs fuel r (BCall call next) cells (call :: calls) cells' o.

Definition all_declared (reading : Reading) (calls : list ReadCall) : Prop :=
  ∀ call wanted, call ∈ calls → wanted_of call = Some wanted → declares reading wanted = true.

Lemma refused_declared reading call : refused (Some reading) call = None ↔ ∀ wanted, wanted_of call = Some wanted → declares reading wanted = true.
Proof.
  unfold refused. destruct (wanted_of call) as [w|]; [|by split]. destruct (declares reading w) eqn:E; split; [by intros _ ? [= <-]|done|done|].
  intros H. specialize (H w eq_refl). congruence.
Qed.

Lemma run_body_refused fuel r reading (b : CtorBody) : ∀ v cells c' o, run_body g (obtain g store phase fuel) r reading (Some v) b cells = Some (c', None, o) → False.
Proof.
  induction b as [o'|call next IH]; intros v cells c' o; cbn [run_body]; [done|]. destruct (refused reading call) as [[reader refusal]|]; [apply IH|].
  destruct (answer _ _ _ _ _) as [[c1 a]|]; [apply IH|done].
Qed.

Lemma run_body_runs fuel r reading b : ∀ cells c' o, run_body g (obtain g store phase fuel) r (Some reading) None b cells = Some (c', None, o) ↔
  ∃ calls, runs fuel r b cells calls c' o ∧ all_declared reading calls.
Proof.
  induction b as [o'|call next IH]; intros cells c' o; cbn [run_body].
  - split; [intros [= <- <-]; exists []; split; [constructor|intros ? ? H; by apply not_elem_of_nil in H]|]. intros (calls & H & _). by inversion H; subst.
  - destruct (refused (Some reading) call) as [[reader refusal]|] eqn:Er.
    + split; [by intros ?%run_body_refused|]. intros (calls & H & Hd). inversion H; subst. exfalso.
      assert (Hn : refused (Some reading) call = None); [|congruence]. apply refused_declared. intros w. apply Hd. by left.
    + rewrite refused_declared in Er. destruct (answer _ _ _ _ _) as [[c1 a]|] eqn:Ea.
      * rewrite IH. split; intros (calls & H & Hd).
        -- exists (call :: calls). split; [by econstructor|]. intros x w [-> |Hin]%elem_of_cons; [apply Er|by apply Hd].
        -- inversion H; subst. rewrite Ea in *. simplify_eq. eexists. split; [done|]. intros x w Hin. apply Hd. by right.
      * split; [done|]. intros (calls & H & _). inversion H; subst. congruence.
Qed.
End Reads.

(** ** Reads end *)

(** A read ends when obtaining what its key names does. *)
Section Answers.
Context {values : Values} {bodies : Bodies} (g : Graph).
Context (obt : Resolver → BindingId → option (gmap BindingId Handle) → option (option (gmap BindingId Handle) * (ReadFailure + Handle))).
Context (D : BindingId → Prop) (Hobt : ∀ r d cells, D d → is_Some (obt r d cells)).

Definition names_within (m : ModuleId) (call : ReadCall) : Prop :=
  match call with
  | CallDep key _ => ∀ d, lookup g m key = Some (VBinding d) → D d
  | CallMany key => ∀ d, d ∈ collection g key → D d
  | _ => True
  end.

Lemma many_some r key ids : (∀ d, d ∈ ids → D d) → ∀ cells, is_Some (many_loop g obt r key ids cells).
Proof.
  induction ids as [|d ids IH]; intros Hd cells; cbn [many_loop]; [by eexists|]. destruct (Hobt r d cells) as [[c [e|i]] ->]; [apply Hd; by left|by eexists|].
  destruct (widen g d _ i); [|by eexists]. destruct (IH (λ d Hin, Hd d (list_elem_of_further _ _ _ Hin)) c) as [[c' [e|l]] ->]; by eexists.
Qed.

Lemma answer_some r call cells : names_within (rv_module r) call → is_Some (answer g obt r call cells).
Proof.
  intros Hn. destruct call as [key ty|key|name key|key|key|]; cbn [answer]; try by eexists.
  - apply fmap_is_Some. unfold single. destruct (locate g r key) as [e|found] eqn:El; [by eexists|]. case_bool_decide; [by eexists|]. destruct found as [d|input]; [|by eexists].
    assert (Hl : lookup g (rv_module r) key = Some (VBinding d)) by (unfold locate in El; repeat case_match; simplify_eq; done).
    destruct (Hobt r d cells (Hn d Hl)) as [[c [e|i]] ->]; by eexists.
  - unfold contributions. destruct (bool_decide _ && _); [by eexists|]. apply fmap_is_Some, many_some, Hn.
Qed.

(** Every read a body can make that the reading lets through. *)
Fixpoint body_within {R} (m : ModuleId) (reading : option Reading) (b : Body R) : Prop :=
  match b with
  | BEnd _ => True
  | BCall call next => (refused reading call = None → names_within m call) ∧ ∀ a, body_within m reading (next a)
  end.

Lemma run_body_some {R} r reading (b : Body R) : body_within (rv_module r) reading b → ∀ v cells, is_Some (run_body g obt r reading v b cells).
Proof.
  induction b as [o|call next IH]; intros Hb v cells; cbn [run_body]; [by eexists|]. destruct Hb as [Hc Hn]. destruct (refused reading call) as [[reader refusal]|]; [by apply IH|].
  destruct (answer_some r call cells (Hc eq_refl)) as [[c a] ->]. by apply IH.
Qed.
End Answers.

Section Total.
Context {values : Values} {bodies : Bodies} (g : Graph) (Hij : injectable g) (Hrec : records_ok g).
Context (store : gmap BindingId Handle) (phase : PhaseCell).

Lemma declared_names_within id b call : g_bindings g !! id = Some b →
  match wanted_of call with Some wanted => existsb (λ read, read_names read wanted) (declared_reads b) = true | None => True end →
  names_within g (reads_on g id) (fb_origin b) call.
Proof.
  intros Hb Hw. destruct call as [key ty|key|name key|key|key|]; cbn [names_within wanted_of] in *; try done; apply existsb_elem in Hw as (read & Hin & Hn); rewrite names_eq in Hn.
  - intros d Hl. destruct (rd_kind read) as [k| | | |] eqn:Ek; try done.
    destruct (declared_edge g Hij id b Hb read (TBinding d) Hin) as (e & He & Ht & _); [rewrite Ek; simpl; by rewrite (lookup_same g _ k key Hn), Hl|].
    eapply edge_reads; [done|done|]. unfold edge_deps. rewrite Ht. by left.
  - intros d Hd. destruct (rd_kind read) as [|k| | |] eqn:Ek; try done. destruct (declared_edge g Hij id b Hb read (TCollection k) Hin) as (e & He & Ht & _); [by rewrite Ek|].
    eapply edge_reads; [done|done|]. unfold edge_deps. by rewrite Ht, (collection_same g k key Hn).
Qed.

Lemma ctor_within id b : g_bindings g !! id = Some b →
  match br_recipe (fb_record b) with
  | Construct ctor => body_within g (reads_on g id) (fb_origin b) (Some (bd_reading ctor)) (bd_body ctor)
  | Factory ctor => body_within g (reads_on g id) (fb_origin b) None (bd_body ctor)
  | _ => True
  end.
Proof.
  intros Hb. pose proof (rk_recipe g Hrec id b Hb) as Hr. destruct (br_recipe (fb_record b)) as [ctor|ctor| | |]; try done; destruct Hr as [Hd _].
  - generalize (bd_body ctor). intros body. induction body as [o|call next IH]; [done|]. split; [|exact IH]. intros Href. apply declared_names_within; [done|].
    destruct (wanted_of call) as [w|] eqn:Ew; [|done]. rewrite <- Hd, <- declares_names. by apply (proj1 (refused_declared _ _) Href).
  - revert Hd. generalize (bd_body ctor). intros body. induction body as [o|call next IH]; intros Hd; [done|]. destruct Hd as [Hc Hn]. split; [|intros a; by apply IH].
    intros _. by apply declared_names_within.
Qed.

Lemma obtain_step_some obt id b r cells : g_bindings g !! id = Some b → (∀ r d cells, reads_on g id d → is_Some (obt r d cells)) →
  is_Some (obtain_step g store phase obt r id cells).
Proof.
  intros Hb Hobt. unfold obtain_step. destruct (match rv_exec r with Some exec => ev_ended exec | None => false end); [by eexists|].
  rewrite (binding_Some g id b Hb). pose proof (ctor_within id b Hb) as Hc.
  assert (Hctor : match br_recipe (fb_record b) with Construct _ | Factory _ => True | _ => False end → ∀ cells,
    ∃ c o, run_ctor g obt (in_module r (fb_origin b)) (br_recipe (fb_record b)) cells = Some (c, o)).
  { intros Hk c. destruct (br_recipe (fb_record b)) as [ctor|ctor| | |]; try done; cbn [run_ctor].
    - destruct (run_body_some g obt (reads_on g id) Hobt (in_module r (fb_origin b)) _ _ Hc None c) as [[[c' v] o] ->]. destruct v, o; eauto.
    - destruct (run_body_some g obt (reads_on g id) Hobt (in_module r (fb_origin b)) _ _ Hc None c) as [[[c' v] o] ->]. simpl. eauto. }
  assert (Hbuild : match br_recipe (fb_record b) with Construct _ | Factory _ => True | _ => False end → ∀ key cells, is_Some (build g obt r b key cells)).
  { intros Hk key c. unfold build. destruct (Hctor Hk c) as (c' & o & ->). destruct o as [[i|[e|e]]| | |]; by eexists. }
  assert (Hbuilt : ∀ key cells, is_Some (built g store phase obt r id key cells)).
  { intros key c. unfold built. rewrite (binding_Some g id b Hb). destruct (br_recipe (fb_record b)) as [ctor|ctor| | |]; try by eexists.
    all: destruct (fb_effective b); [by eexists| |by apply Hbuild]; destruct (rv_exec r) as [ev|]; [|by eexists]; unfold get_or_build; destruct c as [m|]; [|by eexists];
      destruct (m !! id) as [x|]; [by eexists|]; destruct (Hbuild I key (Some m)) as [[c' [e|i]] ->]; by eexists. }
  assert (Hfin : is_Some match built g store phase obt r id (key_name g id) cells with
    | Some (cells, inr i) => Some (cells, inr match br_into_primary (fb_record b) with Some widen => coerce widen i | None => i end) | other => other end).
  { destruct (Hbuilt (key_name g id) cells) as [[c [e|i]] ->]; by eexists. }
  destruct (br_recipe (fb_record b)) as [| | |target|] eqn:Er; try exact Hfin. unfold obtain_alias. destruct (ij_alias g Hij id b target Hb Er) as [t Ht]. rewrite Ht.
  destruct (Hobt r t cells) as [[c [e|i]] ->]; [|by eexists..]. unfold reads_on, construction_deps, alias_target. rewrite (binding_Some g id b Hb), Er, Ht. apply elem_of_app. right. by left.
Qed.

(** On a wired graph obtaining ends, whatever the execution, the store and the phase. *)
Lemma obtain_some fuel : ∀ id path r cells, above g path id → length (g_bindings g) < fuel + length path → id < length (g_bindings g) →
  is_Some (obtain g store phase fuel r id cells).
Proof.
  induction fuel as [|fuel IH]; intros id path r cells Hab Hf Hid; [apply above_short in Hab; simpl in Hf; lia|].
  cbn [obtain]. pose proof Hid as Hid'. apply lookup_lt_is_Some in Hid' as [b Hb]. apply (obtain_step_some _ id b); [done|]. intros r' d cells' Hd.
  assert (Hwf : graph_wf g) by apply (ij_settled g Hij). pose proof (construction_deps_range g Hwf id d Hd).
  apply (IH d (id :: path)); [by apply above_reads|simpl; lia|done].
Qed.

Lemma obtain_ends fuel id r cells : length (g_bindings g) < fuel → id < length (g_bindings g) → is_Some (obtain g store phase fuel r id cells).
Proof. intros Hf Hid. apply (obtain_some fuel id []); [|simpl; lia|done]. split; [by apply NoDup_nil|intros p Hp; by apply not_elem_of_nil in Hp..]. Qed.
End Total.
