(* ===== verification/ReadDemo.v ===== *)
(** * ReadDemo: user code for the app of Demo.v, and an execution that reads from it *)

From S2P Require Import Prelude Text Key Graph WiringError Cycles Order Redact Register RegisterFacts Freeze Wire Demo Timer Lifecycle LifeDemo Resolver ResolverFacts.
Local Open Scope nat_scope.

(** Instance [100 * ty + n] is of type [ty]; the timer's is 7. *)
Definition demo_ty (i : Handle) : TypeId := if bool_decide (i = 7) then 1 else i / 100.

#[export] Instance demo_values : Values := {|
  ty_of := demo_ty; co_from := λ _, 0; co_to := λ _, 0; co_apply := λ _ _, 0; co_typed := λ _ _, eq_refl |}.

(** Reads by key, one after another, then the instance; the first failure ends it. *)
Fixpoint reading_body (calls : list ReadCall) (i : Handle) : CtorBody :=
  match calls with
  | [] => BEnd (Done (inl i))
  | call :: calls => BCall call (λ a, match a with AnError e => BEnd (Done (inr (CDependency e))) | _ => reading_body calls i end)
  end.

Definition calls_of (line : nat) : list ReadCall :=
  match line with
  | 32 => [CallDep (key_of Store) 10; CallMany (key_of Plugin)]
  | 33 => [CallDep (key_of Users) 11; CallDep (key_of Request) 13]
  | _ => []
  end.

Definition instance_of (line : nat) : Handle :=
  match line with 32 => 1132 | 33 => 1433 | 34 => 1034 | 35 => 1235 | _ => 0 end.

Definition declared_of (line : nat) : Dependencies :=
  match line with
  | 32 => reads [("store"%string, Single (key_of Store)); ("plugins"%string, Collection (key_of Plugin))]
  | 33 => reads [("users"%string, Single (key_of Users)); ("request"%string, Single (key_of Request))]
  | _ => dependencies_default
  end.

#[export] Instance demo_bodies : Bodies := {|
  bd_body := λ line, reading_body (calls_of line) (instance_of line);
  bd_reading := λ line, {| rg_reader := key_of Api; rg_declared := deps_list (declared_of line) ≫= dr_reads |};
  bd_undeclared := λ _, {| be_messages := [str_of "undeclared"]; be_permanent := true |} |}.

Definition demo_code : UserCode := {|
  uc_ctor := λ id _, [(tick 1, Some (inl (inl (default 0 ([7; 1034; 1235; 1132; 1433] !! id)))))];
  uc_armed := λ _, 1%N;
  uc_check := λ _ _ _, {| ty_attempt := inl [(tick 1, Some (inl (inl tt)))]; ty_backoff := BackoffSlept |};
  uc_hook := λ _ _ _ _, [(tick 1, Some (inl (inl tt)))];
|}.

Definition demo_connected : option (Walk * option ConnectError) :=
  connect (code := demo_code) 1000 demo_graph life_config no_text 5 {| wk_store := ∅; wk_log := [] |} (g_connect_order demo_graph) (fm_id <$> g_modules demo_graph).

Definition demo_walk : Walk := match demo_connected with Some (w, _) => w | None => {| wk_store := ∅; wk_log := [] |} end.

Lemma demo_connects : demo_connected = Some (demo_walk, None).
Proof. vm_compute. reflexivity. Qed.

(** ** The records *)

Definition built_ok_at (b : FrozenBinding) : Prop :=
  br_into_primary (fb_record b) = None ∧ br_also (fb_record b) = [] ∧
  match br_recipe (fb_record b) with
  | Construct line =>
      br_dependencies (fb_record b) = declared_of line ∧ ty_of (instance_of line) = key_type_id (br_primary (fb_record b))
  | Value v => ty_of v = key_type_id (br_primary (fb_record b))
  | _ => False
  end.

Lemma demo_built id b : g_bindings demo_graph !! id = Some b → built_ok_at b.
Proof.
  intros Hb%list_elem_of_lookup_2. revert b Hb. apply Forall_forall. vm_compute. repeat constructor.
Qed.

(** The reads of a body are declared, none as optional. *)
Definition required (line : nat) (call : ReadCall) : bool :=
  match wanted_of call with
  | Some wanted => existsb (λ read, read_names read wanted && negb (rd_optional read)) (deps_list (declared_of line) ≫= dr_reads)
  | None => false
  end.

Lemma demo_required line : forallb (required line) (calls_of line) = true.
Proof. do 33 (destruct line as [|line]; [reflexivity|]). destruct line; reflexivity. Qed.

Lemma required_unexcused line call e : required line call = true → ¬ excused (deps_list (declared_of line) ≫= dr_reads) call e.
Proof.
  unfold required. destruct (wanted_of call) as [w|] eqn:Ew; [|done]. intros (read & Hr & [Hn Ho%negb_true_iff]%andb_prop)%existsb_elem.
  destruct e; try by intros []. intros H. specialize (H read w Hr Ew Hn). congruence.
Qed.

Definition plain_call (call : ReadCall) : Prop :=
  match call with CallDep key ty => ty = key_type_id key | CallInput _ => False | _ => True end.

Lemma reading_body_ok g m line ty calls i seen : ty_of i = ty → forallb (required line) calls = true → Forall plain_call calls →
  body_ok g m ty (deps_list (declared_of line) ≫= dr_reads) seen (reading_body calls i).
Proof.
  intros Hty. revert seen. induction calls as [|call calls IH]; intros seen Hreq Hp; cbn [reading_body body_ok]; [done|].
  apply andb_true_iff in Hreq as [Hreq Hreqs]. apply Forall_cons in Hp as [Hp Hps]. split; [by destruct call|].
  intros a. destruct a as [| | |e]; [by apply IH..|]. cbn [body_ok]. right. split; [done|]. by apply required_unexcused.
Qed.

Lemma calls_plain line : Forall plain_call (calls_of line).
Proof. do 33 (destruct line as [|line]; [by repeat constructor|]). destruct line; by repeat constructor. Qed.

Lemma demo_records : records_ok demo_graph.
Proof.
  split.
  - intros id b Hb. destruct (demo_built id b Hb) as (Hi & _ & Hr). unfold built_ty, declared_reads. rewrite Hi.
    destruct (br_recipe (fb_record b)) as [line| | | |]; [|destruct Hr|exact Hr|destruct Hr..]. destruct Hr as [-> Hty]. split; [reflexivity|].
    apply reading_body_ok; [exact Hty|apply demo_required|apply calls_plain].
  - intros id b c Hb Hc. destruct (demo_built id b Hb) as (Hi & _). congruence.
  - intros id b also Hb Ha. destruct (demo_built id b Hb) as (_ & Hn & _). rewrite Hn in Ha. destruct (not_elem_of_nil _ Ha).
Qed.

(** Instances of the types their bindings build. *)
Definition typedb (g : Graph) (m : gmap BindingId Handle) : bool :=
  forallb (λ p : BindingId * Handle, match g_bindings g !! p.1 with Some b => Nat.eqb (ty_of p.2) (built_ty (fb_record b)) | None => true end) (map_to_list m).

Lemma typedb_sound g m : typedb g m = true → instances_typed g m.
Proof.
  intros H id b i Hb Hi. apply elem_of_map_to_list in Hi. pose proof (forallb_at _ _ _ H Hi) as E. cbn [fst snd] in E. rewrite Hb in E. by apply Nat.eqb_eq.
Qed.

Lemma demo_typed : instances_typed demo_graph (wk_store demo_walk).
Proof. apply typedb_sound. vm_compute. reflexivity. Qed.

(** ** An execution *)

(** A request being handled, its input seeded. *)
Definition demo_exec : ExecView := {| ev_ended := false; ev_inputs := {[13 := 1399]}; ev_extensions := ∅ |}.
Definition demo_resolver : Resolver := {| rv_module := 2; rv_exec := Some demo_exec; rv_purpose := Lookup |}.

(** Only the request is read as an input. *)
Definition reads_request (g : Graph) : bool :=
  forallb (λ b, forallb (λ e, match ed_target e with TInput key => Nat.eqb (key_type_id key) 13 | _ => true end) (fb_edges b)) (g_bindings g).

Lemma request_view g id : reads_request g = true → view_ok g demo_resolver id.
Proof.
  intros H. split; cbn [demo_resolver rv_exec demo_exec ev_inputs ev_ended].
  - split; [reflexivity|]. by intros ty i [<- <-]%lookup_singleton_Some.
  - intros ev d e key [= <-] _ He Ht _. unfold binding in He. destruct (g_bindings g !! d) as [b|] eqn:Eb; [|destruct (not_elem_of_nil _ He)].
    pose proof (forallb_at _ _ _ H (list_elem_of_lookup_2 _ _ _ Eb)) as Hb. pose proof (forallb_at _ _ _ Hb He) as E. cbn beta in E. rewrite Ht in E.
    apply Nat.eqb_eq in E. rewrite E. exists 1399. reflexivity.
Qed.

Lemma demo_view id : view_ok demo_graph demo_resolver id.
Proof. apply request_view. vm_compute. reflexivity. Qed.
