(* ===== verification/ResolverTheorems.v ===== *)
(** * ResolverTheorems: reading instances out of a wired app

    Reads on the graph [wire] returns and the store [connect] fills: what they answer, what an
    execution shares, and what is refused. The examples are at the app of Demo.v. *)

From S2P Require Import Prelude Text Key Graph WiringError Cycles Order Redact Scopes ScopesFacts Visibility VisibilityFacts Register RegisterFacts Freeze ResolveFacts Wire WireFacts LoadFacts Demo WireTheorems InjectFacts Timer TimerFacts Lifecycle ConnectFacts LifeDemo Resolver ResolverFacts ReadDemo.
Local Open Scope nat_scope.

(** The walk leaves an instance for every singleton that is constructed. *)
Lemma connect_stores {code : UserCode} clock_max g config read_text fuel w : settled g →
  connect clock_max g config read_text fuel {| wk_store := ∅; wk_log := [] |} (g_connect_order g) (fm_id <$> g_modules g) = Some (w, None) →
  all_stored g (wk_store w).
Proof.
  intros Hg E. pose proof (ck_wf g (se_checked g Hg)) as Hwf.
  apply connect_ran in E as (_ & _ & Hbuilt); [|rewrite (se_order g Hg); by apply ordered_nodup|by intros d _; apply lookup_empty].
  intros d [He Hk]. apply (Hbuilt eq_refl d). right. split.
  - rewrite (se_order g Hg). apply ordered_singleton; [done|]. unfold is_singleton. by rewrite He.
  - unfold builds. by destruct (br_recipe _).
Qed.

Section Wired.
Context {M : Type} (module_identity : M → ModuleIdentity) (module_settings : M → ModuleSettings).
Context (module_register : M → @ModuleNode M → @ModuleNode M) (core : CoreTypes).
Context (Hkeep : keeps_identity module_register).
Context {values : Values} {bodies : Bodies} {code : UserCode}.

(** C4: In an app that wired and connected, reading a key that a module sees as a binding or an
    input gives an instance of the key's type, or fails by user code: a constructor that failed, an
    extension no guard wrote, a key read as the other kind. The read ends, whatever it has to build;
    nothing is ambiguous, missing, not ready, of the wrong type, or in want of an execution. This is
    under the conditions of [readable]: a read of a binding is in a phase that gives singletons out,
    and in a live execution that was seeded with every input the construction reads without
    [Option], or outside of one when the construction needs none; a read of an input is in a live
    execution seeded with it. The bodies of the constructors read what their records declare
    ([records_ok]) and the connected instances have the types of their bindings. *)
Theorem reads_resolve fuel (root : M) env plan g clock_max config read_text connect_fuel w phase r key v cells obtain_fuel :
  wire module_identity module_settings module_register core fuel root env plan = Some (inr g) →
  connect clock_max g config read_text connect_fuel {| wk_store := ∅; wk_log := [] |} (g_connect_order g) (fm_id <$> g_modules g) = Some (w, None) →
  records_ok g → instances_typed g (wk_store w) →
  lookup g (rv_module r) key = Some v → readable g phase r v → cells_ok g r cells → length (g_bindings g) < obtain_fuel →
  ∃ cells' a, single g (obtain g (wk_store w) phase obtain_fuel) r key (key_type_id key) cells = Some (cells', a) ∧ cells_le cells cells'
    ∧ match a with inl e => allowed e | inr i => ty_of i = key_type_id key end.
Proof.
  intros Hw Hc Hrec Hty Hl Hr Hcells Hf. pose proof (wire_injectable _ _ _ _ _ _ _ _ _ Hkeep Hw) as Hij.
  eapply (single_visible g Hij Hrec (wk_store w) phase Hty); eauto. eapply connect_stores; [apply Hij|done].
Qed.

(** C5: An execution has one instance of a binding built per execution. Obtaining bindings one after
    another, the same one any number of times and whatever each builds on the way, ends with an
    answer for each, and two answers of one binding are the same instance. *)
Theorem per_execution_once fuel (root : M) env plan g clock_max config read_text connect_fuel w phase r ev ids m obtain_fuel :
  wire module_identity module_settings module_register core fuel root env plan = Some (inr g) →
  connect clock_max g config read_text connect_fuel {| wk_store := ∅; wk_log := [] |} (g_connect_order g) (fm_id <$> g_modules g) = Some (w, None) →
  records_ok g → instances_typed g (wk_store w) → rv_exec r = Some ev → open_to phase r → instances_typed g m →
  length (g_bindings g) < obtain_fuel → (∀ id, id ∈ ids → id < length (g_bindings g) ∧ view_ok g r id) →
  ∃ m' answers, obtain_each g (wk_store w) phase obtain_fuel r ids (Some m) = Some (Some m', answers) ∧ answers.*1 = ids ∧ m ⊆ m'
    ∧ ∀ id i j, once_per_execution g id → (id, inr i) ∈ answers → (id, inr j) ∈ answers → i = j.
Proof.
  intros Hw Hc Hrec Hty Hev Ho Hm Hf Hids. pose proof (wire_injectable _ _ _ _ _ _ _ _ _ Hkeep Hw) as Hij.
  destruct (obtain_each_fine g Hij Hrec (wk_store w) phase Hty obtain_fuel r ev ids) with (m := m) as (m' & l & E & Hl & Hle & Hsh & _); try done.
  { eapply connect_stores; [apply Hij|done]. }
  exists m', l. split_and!; try done. intros id i j Ho' Hi Hj. destruct (Hsh id i Hi Ho') as (x & Hx & ->), (Hsh id j Hj Ho') as (y & Hy & ->). congruence.
Qed.
End Wired.

Section Bodies.
Context {values : Values} {bodies : Bodies} (g : Graph) (store : gmap BindingId Handle) (phase : PhaseCell).

(** A construct closure yields an instance exactly when its body, its reads answered, ends with
    that instance having read nothing outside its declared dependencies. An undeclared read fails
    the construction even when the body ignores the error and ends with an instance. *)
Theorem construct_reads_declared fuel r ctor cells cells' i :
  run_ctor g (obtain g store phase fuel) r (Construct ctor) cells = Some (cells', Done (inl i))
  ↔ ∃ calls, runs g store phase fuel r (bd_body ctor) cells calls cells' (Done (inl i)) ∧ all_declared (bd_reading ctor) calls.
Proof.
  rewrite <- run_body_runs. cbn [run_ctor]. destruct (run_body _ _ _ _ _ _ _) as [[[c [v|]] o]|]; [destruct o; naive_solver|destruct o; naive_solver|done].
Qed.

(** An execution that ended gives nothing out and builds nothing: every read of it leaves the
    cells as they were, and is an error unless it is of the module or of an empty collection. *)
Theorem ended_gives_nothing fuel r ev call cells cells' a : rv_exec r = Some ev → ev_ended ev = true →
  answer g (obtain g store phase fuel) r call cells = Some (cells', a) →
  cells' = cells ∧ ((∃ e, a = AnError e) ∨ call = CallModule ∨ ∃ key, call = CallMany key ∧ collection g key = [] ∧ a = AnMany []).
Proof.
  intros Hev Hend. assert (Hob : ∀ id c, obtain g store phase fuel r id c = None ∨ ∃ e, obtain g store phase fuel r id c = Some (c, inl e)).
  { intros id c. destruct fuel; [by left|right]. cbn [obtain]. unfold obtain_step. rewrite Hev, Hend. by eexists. }
  assert (Hex : ∀ key, ∃ e, exec_for r key = inl e) by (intros key; unfold exec_for; rewrite Hev, Hend; by eexists).
  destruct call as [key ty|key|name key|key|key|]; cbn [answer].
  - unfold single. destruct (locate g r key) as [e|found]; [intros [= <- <-]; eauto|]. case_bool_decide; [intros [= <- <-]; simpl; eauto|].
    destruct found as [id|input].
    + destruct (Hob id cells) as [-> |(e & ->)]; [done|]. intros [= <- <-]. simpl. eauto.
    + unfold seeded_input. destruct (Hex input) as [e ->]. intros [= <- <-]. simpl. eauto.
  - unfold contributions. destruct (bool_decide _ && _); [intros [= <- <-]; eauto|]. destruct (collection g key) as [|id ids] eqn:Ec.
    + intros [= <- <-]. simpl. split; [done|]. right; right. eauto.
    + cbn [many_loop]. destruct (Hob id cells) as [-> |(e & ->)]; [done|]. intros [= <- <-]. simpl. eauto.
  - destruct (Hex key) as [e ->]. intros [= <- <-]. eauto.
  - destruct (Hex key) as [e ->]. intros [= <- <-]. eauto.
  - destruct (Hex key) as [e ->]. intros [= <- <-]. eauto.
  - intros [= <- <-]. eauto.
Qed.
End Bodies.

(** ** Examples *)

Lemma demo_cells : cells_ok demo_graph demo_resolver (Some ∅).
Proof. exists ∅. split; [reflexivity|]. intros id b i _ Hi. rewrite lookup_empty in Hi. discriminate Hi. Qed.

(** [Api] read as the request is handled, by the controller's module. *)
Lemma reads_resolve_example : ∃ cells' a,
  single demo_graph (obtain demo_graph (wk_store demo_walk) (phase_cell_new Running) 6) demo_resolver (key_of Api) 14 (Some ∅) = Some (cells', a)
  ∧ cells_le (Some ∅) cells' ∧ match a with inl e => allowed e | inr i => demo_ty i = 14 end.
Proof.
  apply (reads_resolve demo_identity demo_settings demo_register demo_core demo_keeps (code := demo_code) 4 AppModule demo_env None demo_graph
    1000 life_config no_text 5 demo_walk (phase_cell_new Running) demo_resolver (key_of Api) (VBinding 4) (Some ∅) 6 demo_wired demo_connects demo_records demo_typed).
  - vm_compute. reflexivity.
  - split; [apply demo_view|]. right. reflexivity.
  - apply demo_cells.
  - apply Nat.ltb_lt. vm_compute. reflexivity.
Defined.

(** It was built once: read twice, the same instance. *)
Example api_read : obtain_each demo_graph (wk_store demo_walk) (phase_cell_new Running) 6 demo_resolver [4; 3; 4] (Some ∅)
  = Some (Some {[4 := 1433]}, [(4, inr 1433); (3, inr 1132); (4, inr 1433)]).
Proof. vm_compute. reflexivity. Qed.

Lemma per_execution_once_example : ∃ m' answers,
  obtain_each demo_graph (wk_store demo_walk) (phase_cell_new Running) 6 demo_resolver [4; 3; 4] (Some ∅) = Some (Some m', answers)
  ∧ answers.*1 = [4; 3; 4] ∧ ∅ ⊆ m'
  ∧ ∀ id i j, once_per_execution demo_graph id → (id, inr i) ∈ answers → (id, inr j) ∈ answers → i = j.
Proof.
  apply (per_execution_once demo_identity demo_settings demo_register demo_core demo_keeps (code := demo_code) 4 AppModule demo_env None demo_graph
    1000 life_config no_text 5 demo_walk (phase_cell_new Running) demo_resolver demo_exec [4; 3; 4] ∅ 6 demo_wired demo_connects demo_records demo_typed).
  - reflexivity.
  - right. reflexivity.
  - intros id b i _ Hi. rewrite lookup_empty in Hi. discriminate Hi.
  - apply Nat.ltb_lt. vm_compute. reflexivity.
  - intros id Hid. split; [|apply demo_view]. apply Nat.ltb_lt. revert id Hid. apply Forall_forall. vm_compute. repeat constructor.
Defined.

(** The request ended: its input is no longer given out. *)
Definition ended_resolver : Resolver :=
  {| rv_module := 2; rv_exec := Some {| ev_ended := true; ev_inputs := {[13 := 1399]}; ev_extensions := ∅ |}; rv_purpose := Lookup |}.

Lemma ended_gives_nothing_example : answer demo_graph (obtain demo_graph (wk_store demo_walk) (phase_cell_new Running) 6) ended_resolver (CallDep (key_of Api) 14) (Some ∅)
    = Some (Some ∅, AnError (ReadExecutionEnded (key_name_of (key_of Api) BSingle)))
  ∧ Some ∅ = (Some ∅ : option (gmap BindingId Handle)).
Proof.
  split; [vm_compute; reflexivity|].
  eapply (ended_gives_nothing demo_graph (wk_store demo_walk) (phase_cell_new Running) 6 ended_resolver _ (CallDep (key_of Api) 14) (Some ∅) (Some ∅)
    (AnError (ReadExecutionEnded (key_name_of (key_of Api) BSingle)))); [reflexivity|reflexivity|vm_compute; reflexivity].
Defined.
