(* ===== verification/Notify.v ===== *)
(** * Notify: one-shot notification

    [ulo/src/execution/notify.rs], which [Cancelled] and [Draining] wrap. The lock and the [fired]
    flag are what threads share: an [Event] is one atomic step of a call, so a run is any
    interleaving of polls, drops and fires. A waker is opaque: the task it wakes and [will_wake] are
    parameters, of which the contract of [Waker::will_wake] is assumed. *)

From S2P Require Import Prelude.
Local Open Scope nat_scope.

(** [Waker]: of two wakers that will wake each other both wake the same task. *)
Class Wakers := {
  Waker : Type;
  task : Waker → nat;
  will_wake : Waker → Waker → bool;
  will_wake_same : ∀ a b, will_wake a b = true → task a = task b;
}.

Section Notify.
Context {wakers : Wakers}.

(** Where a listener's call is. *)
Inductive ListenPc :=
  | Idle
  | Unlocked (waker : Waker)   (* [poll], past its first [is_fired] *)
  | Locked (waker : Waker)     (* [poll], under the lock and past its second *)
  | Resolved                   (* the last poll answered [Ready] *)
  | Dropping (index : nat)     (* [drop], before the lock *)
  | DropLocked (index : nat)   (* [drop], under the lock and past [is_fired] *)
  | Dropped.

(** [Listen]. [ln_wait] is the waker its last poll answered [Pending] to, and [ln_own] the slot it
    holds, which a drop past the fire leaves behind. *)
Record Listener := { ln_slot : option nat; ln_pc : ListenPc; ln_wait : option Waker; ln_own : option nat }.

(** Where a call of [fire] is. *)
Inductive FirePc := Swapped | Waking (slots : list (option Waker)) | Fired | FiredBefore.

Inductive Holder := HeldBy (listener : nat).

Record State := {
  n_fired : bool;
  n_slots : list (option Waker);
  n_free : list nat;
  n_lock : option Holder;
  n_listeners : list Listener;
  n_fires : list FirePc;
  n_woken : list nat; (* the tasks woken so far *)
}.

Definition notify_new : State :=
  {| n_fired := false; n_slots := []; n_free := []; n_lock := None; n_listeners := []; n_fires := []; n_woken := [] |}.

Inductive Event :=
  | EListen                          (* [listen] *)
  | EPoll (l : nat) (waker : Waker)  (* [poll] called *)
  | EPollLock (l : nat)              (* the lock taken, [is_fired] read again *)
  | EPollRegister (l : nat)          (* the waker stored, the lock released *)
  | EDrop (l : nat)                  (* [drop] called *)
  | EDropLock (l : nat)
  | EDropFree (l : nat)
  | EFire                            (* [fire] called: the swap *)
  | EFireTake (f : nat)              (* the lock taken, the slots taken, the lock released *)
  | EFireWake (f : nat).             (* the next slot *)

Definition set_listener (s : State) (l : nat) (x : Listener) (lock : option Holder) : State :=
  {| n_fired := n_fired s; n_slots := n_slots s; n_free := n_free s; n_lock := lock;
     n_listeners := <[l := x]> (n_listeners s); n_fires := n_fires s; n_woken := n_woken s |}.

Definition set_fire (s : State) (f : nat) (pc : FirePc) : State :=
  {| n_fired := n_fired s; n_slots := n_slots s; n_free := n_free s; n_lock := n_lock s;
     n_listeners := n_listeners s; n_fires := <[f := pc]> (n_fires s); n_woken := n_woken s |}.

Definition set_waiters (s : State) (slots : list (option Waker)) (free : list nat) : State :=
  {| n_fired := n_fired s; n_slots := slots; n_free := free; n_lock := n_lock s;
     n_listeners := n_listeners s; n_fires := n_fires s; n_woken := n_woken s |}.

(** The poll answers [Ready]. *)
Definition resolved (x : Listener) : Listener :=
  {| ln_slot := ln_slot x; ln_pc := Resolved; ln_wait := None; ln_own := ln_own x |}.

(** The registration under the lock: the listener's slot, and the slots and free list after. *)
Definition register (slots : list (option Waker)) (free : list nat) (slot : option nat) (waker : Waker)
    : nat * list (option Waker) * list nat :=
  match (slot ≫= λ i, if bool_decide (i < length slots) then Some i else None) with
  | Some i =>
      let kept := match slots !! i with Some (Some w) => will_wake w waker | _ => false end in
      (i, (if kept then slots else <[i := Some waker]> slots), free)
  | None =>
      match last free with
      | Some i => (i, <[i := Some waker]> slots, removelast free)
      | None => (length slots, (slots ++ [Some waker])%list, free)
      end
  end.

Definition listen (s : State) : State :=
  {| n_fired := n_fired s; n_slots := n_slots s; n_free := n_free s; n_lock := n_lock s;
     n_listeners := (n_listeners s ++ [{| ln_slot := None; ln_pc := Idle; ln_wait := None; ln_own := None |}])%list;
     n_fires := n_fires s; n_woken := n_woken s |}.

(** [Listen::poll], in its three steps. *)
Definition poll_start (s : State) (l : nat) (x : Listener) (waker : Waker) : State :=
  if n_fired s then set_listener s l (resolved x) (n_lock s)
  else set_listener s l {| ln_slot := ln_slot x; ln_pc := Unlocked waker; ln_wait := ln_wait x; ln_own := ln_own x |} (n_lock s).

Definition poll_lock (s : State) (l : nat) (x : Listener) (waker : Waker) : State :=
  if n_fired s then set_listener s l (resolved x) None
  else set_listener s l {| ln_slot := ln_slot x; ln_pc := Locked waker; ln_wait := ln_wait x; ln_own := ln_own x |} (Some (HeldBy l)).

Definition poll_register (s : State) (l : nat) (x : Listener) (waker : Waker) : State :=
  let '(i, slots, free) := register (n_slots s) (n_free s) (ln_slot x) waker in
  set_listener (set_waiters s slots free) l {| ln_slot := Some i; ln_pc := Idle; ln_wait := Some waker; ln_own := Some i |} None.

(** [Drop for Listen]. *)
Definition drop_start (s : State) (l : nat) (x : Listener) : State :=
  let pc := match ln_slot x with Some i => Dropping i | None => Dropped end in
  set_listener s l {| ln_slot := None; ln_pc := pc; ln_wait := None; ln_own := ln_own x |} (n_lock s).

Definition drop_lock (s : State) (l : nat) (x : Listener) (index : nat) : State :=
  if n_fired s then set_listener s l {| ln_slot := None; ln_pc := Dropped; ln_wait := None; ln_own := ln_own x |} None
  else set_listener s l {| ln_slot := None; ln_pc := DropLocked index; ln_wait := None; ln_own := ln_own x |} (Some (HeldBy l)).

Definition drop_free (s : State) (l : nat) (x : Listener) (index : nat) : State :=
  let s' := if bool_decide (index < length (n_slots s)) then set_waiters s (<[index := None]> (n_slots s)) (n_free s ++ [index])%list else s in
  set_listener s' l {| ln_slot := None; ln_pc := Dropped; ln_wait := None; ln_own := None |} None.

(** [fire]. *)
Definition fire_start (s : State) : State :=
  {| n_fired := true; n_slots := n_slots s; n_free := n_free s; n_lock := n_lock s; n_listeners := n_listeners s;
     n_fires := (n_fires s ++ [if n_fired s then FiredBefore else Swapped])%list; n_woken := n_woken s |}.

Definition fire_take (s : State) (f : nat) : State := set_fire (set_waiters s [] []) f (Waking (n_slots s)).

Definition fire_wake (s : State) (f : nat) (slots : list (option Waker)) : State :=
  match slots with
  | [] => set_fire s f Fired
  | slot :: slots =>
      let s := set_fire s f (Waking slots) in
      {| n_fired := n_fired s; n_slots := n_slots s; n_free := n_free s; n_lock := n_lock s; n_listeners := n_listeners s;
         n_fires := n_fires s; n_woken := (n_woken s ++ option_list (task <$> slot))%list |}
  end.

(** One step; [None] when the call is not there to make it, or must wait for the lock. *)
Definition step (s : State) (e : Event) : option State :=
  match e with
  | EListen => Some (listen s)
  | EPoll l waker =>
      match n_listeners s !! l with
      | Some x => match ln_pc x with Idle | Resolved => Some (poll_start s l x waker) | _ => None end
      | None => None
      end
  | EPollLock l =>
      match n_listeners s !! l, n_lock s with
      | Some x, None => match ln_pc x with Unlocked waker => Some (poll_lock s l x waker) | _ => None end
      | _, _ => None
      end
  | EPollRegister l =>
      match n_listeners s !! l with
      | Some x => match ln_pc x with Locked waker => Some (poll_register s l x waker) | _ => None end
      | None => None
      end
  | EDrop l =>
      match n_listeners s !! l with
      | Some x => match ln_pc x with Idle | Resolved => Some (drop_start s l x) | _ => None end
      | None => None
      end
  | EDropLock l =>
      match n_listeners s !! l, n_lock s with
      | Some x, None => match ln_pc x with Dropping index => Some (drop_lock s l x index) | _ => None end
      | _, _ => None
      end
  | EDropFree l =>
      match n_listeners s !! l with
      | Some x => match ln_pc x with DropLocked index => Some (drop_free s l x index) | _ => None end
      | None => None
      end
  | EFire => Some (fire_start s)
  | EFireTake f =>
      match n_fires s !! f, n_lock s with
      | Some Swapped, None => Some (fire_take s f)
      | _, _ => None
      end
  | EFireWake f => match n_fires s !! f with Some (Waking slots) => Some (fire_wake s f slots) | _ => None end
  end.

Inductive reachable : State → Prop :=
  | reachable_new : reachable notify_new
  | reachable_step s e s' : reachable s → step s e = Some s' → reachable s'.
End Notify.
