(* ===== verification/NotifyTheorems.v ===== *)
(** * NotifyTheorems: no wakeup is lost

    The slots of a notification and who holds them, over every interleaving. *)

From S2P Require Import Prelude Notify.
Local Open Scope nat_scope.

(** ** Lists *)

Lemma omap_insert_same {A B} (f : A → option B) (l : list A) i x y : l !! i = Some y → f x = f y → omap f (<[i := x]> l) = omap f l.
Proof.
  revert i. induction l as [|z l IH]; intros [|i] Hy Hf; simplify_eq/=; [by rewrite Hf|by rewrite IH].
Qed.

Lemma omap_insert_more {A B} (f : A → option B) (l : list A) i x y b : l !! i = Some y → f y = None → f x = Some b → omap f (<[i := x]> l) ≡ₚ b :: omap f l.
Proof.
  revert i. induction l as [|z l IH]; intros [|i] Hy Hn Hs; simplify_eq/=; [by rewrite Hn, Hs|].
  specialize (IH i Hy Hn Hs). destruct (f z); [rewrite IH; apply perm_swap|done].
Qed.

Lemma omap_insert_less {A B} (f : A → option B) (l : list A) i x y b : l !! i = Some y → f y = Some b → f x = None → omap f l ≡ₚ b :: omap f (<[i := x]> l).
Proof.
  revert i. induction l as [|z l IH]; intros [|i] Hy Hs Hn; simplify_eq/=; [by rewrite Hn, Hs|].
  specialize (IH i Hy Hs Hn). destruct (f z); [rewrite IH; apply perm_swap|done].
Qed.

Lemma last_split {A} (l : list A) x : last l = Some x → l = (removelast l ++ [x])%list.
Proof.
  intros H. assert (Hn : l ≠ []) by (by intros ->). destruct (last_Some l x) as [[k ->] _]; [done|]. by rewrite removelast_last.
Qed.

Section Facts.
Context {wakers : Wakers}.

(** The slots the fire took and has not woken; [None] before it took them. *)
Definition taken (s : State) : option (list (option Waker)) :=
  match n_fires s with
  | Waking slots :: _ => Some slots
  | Fired :: _ => Some []
  | _ => None
  end.

Definition in_lock (x : Listener) : bool := match ln_pc x with Locked _ | DropLocked _ => true | _ => false end.

(** A listener and the slot it holds, before the slots are taken. *)
Definition listener_ok (slots : list (option Waker)) (x : Listener) : Prop :=
  match ln_pc x with
  | Dropping i | DropLocked i => ln_own x = Some i ∧ ln_slot x = None
  | Dropped => ln_slot x = None
  | _ => ln_own x = ln_slot x
  end
  ∧ ∀ w, ln_wait x = Some w → ∃ i w', ln_slot x = Some i ∧ slots !! i = Some (Some w') ∧ task w' = task w.

(** A task that waits has been woken or is about to be. *)
Definition listener_served (woken : list nat) (slots : list (option Waker)) (x : Listener) : Prop :=
  ∀ w, ln_wait x = Some w → task w ∈ woken ∨ ∃ w', Some w' ∈ slots ∧ task w' = task w.

Record inv (s : State) : Prop := {
  iv_fires : if n_fired s then ∃ pc rest, n_fires s = pc :: rest ∧ pc ≠ FiredBefore ∧ Forall (λ pc, pc = FiredBefore) rest else n_fires s = [];
  iv_lock : ∀ l x, n_listeners s !! l = Some x → in_lock x = true → n_lock s = Some (HeldBy l) ∧ taken s = None;
  iv_held : ∀ l, n_lock s = Some (HeldBy l) → ∃ x, n_listeners s !! l = Some x ∧ in_lock x = true;
  iv_slots : taken s = None → (n_free s ++ omap ln_own (n_listeners s))%list ≡ₚ seq 0 (length (n_slots s));
  iv_before : taken s = None → n_woken s = [] ∧ ∀ l x, n_listeners s !! l = Some x → listener_ok (n_slots s) x;
  iv_after : ∀ slots, taken s = Some slots → ∀ l x, n_listeners s !! l = Some x → listener_served (n_woken s) slots x;
}.

Lemma inv_new : inv notify_new.
Proof. by split. Qed.

(** A step of one listener that changes no slot. *)
Lemma inv_listener s l x x' lock : inv s → n_listeners s !! l = Some x → ln_own x' = ln_own x →
  (in_lock x' = true → lock = Some (HeldBy l) ∧ n_fired s = false) →
  (lock = n_lock s ∨ n_lock s = None ∨ in_lock x = true) →
  (lock = n_lock s ∧ in_lock x' = in_lock x ∨ lock = None ∨ lock = Some (HeldBy l) ∧ in_lock x' = true) →
  (∀ slots, listener_ok slots x → listener_ok slots x') →
  (ln_wait x' = ln_wait x ∨ ln_wait x' = None) →
  inv (set_listener s l x' lock).
Proof.
  intros [Hf Hl Hh Hs Hb Ha] Hx Hown Hin Hlock Hheld Hok Hw. split; cbn [set_listener n_fired n_fires n_lock n_slots n_free n_listeners n_woken]; [exact Hf| | | | |].
  - change (taken (set_listener s l x' lock)) with (taken s).
    intros k y [[<- [<- _]]|[Hne Hy]]%list_lookup_insert_Some Hi.
    + destruct (Hin Hi) as [-> Hnf]. split; [done|]. unfold taken. rewrite Hnf in Hf. by rewrite Hf.
    + destruct (Hl k y Hy Hi) as [Hk Ht]. split; [|done]. destruct Hlock as [-> |[Hn|Hix]]; [done|congruence|].
      destruct (Hl l x Hx Hix) as [Hk' _]. rewrite Hk in Hk'. injection Hk' as ->. done.
  - intros k Hk. pose proof (lookup_lt_Some _ _ _ Hx) as Hlt. destruct (decide (k = l)) as [->|Hne].
    + exists x'. split; [by apply list_lookup_insert_eq|]. destruct Hheld as [[-> ->]|[->|[_ ?]]]; [|done|done].
      destruct (Hh l Hk) as (y & Hy & Hiy). congruence.
    + destruct Hheld as [[-> _]|[->|[-> _]]]; [|done|congruence]. rewrite list_lookup_insert_ne by done. by apply Hh.
  - intros Ht. rewrite (omap_insert_same _ _ _ _ x); [by apply Hs|done|done].
  - intros Ht. destruct (Hb Ht) as [Hwk Hall]. split; [done|]. intros k y [[<- [<- _]]|[Hne Hy]]%list_lookup_insert_Some; [by eapply Hok, Hall|by eapply Hall].
  - intros slots Ht k y [[<- [<- _]]|[Hne Hy]]%list_lookup_insert_Some; [|by eapply Ha].
    intros w Hw'. destruct Hw as [Hw|Hw]; [|congruence]. eapply (Ha slots Ht l x Hx). congruence.
Qed.

Lemma inv_listen s : inv s → inv (listen s).
Proof.
  intros [Hf Hl Hh Hs Hb Ha]. split; cbn [listen n_fired n_fires n_lock n_slots n_free n_listeners n_woken]; [exact Hf| | | | |].
  - intros k y [Hy|[_ [_ <-]%list_lookup_singleton_Some]]%lookup_app_Some Hi; [by eapply Hl|done].
  - intros k Hk. destruct (Hh k Hk) as (x & Hx & Hin). exists x. split; [by apply lookup_app_l_Some|done].
  - intros Ht. rewrite omap_app. cbn. rewrite app_nil_r. by apply Hs.
  - intros Ht. destruct (Hb Ht) as [Hwk Hall]. split; [done|].
    intros k y [Hy|[_ [_ <-]%list_lookup_singleton_Some]]%lookup_app_Some; [by eapply Hall|by split].
  - intros slots Ht k y [Hy|[_ [_ <-]%list_lookup_singleton_Some]]%lookup_app_Some; [by eapply Ha|by intros w].
Qed.

(** ** Registering *)

Lemma owned_range s l x i : inv s → taken s = None → n_listeners s !! l = Some x → ln_own x = Some i → i < length (n_slots s).
Proof.
  intros Hi Ht Hx Ho. assert (Hin : i ∈ seq 0 (length (n_slots s))); [|apply elem_of_seq in Hin; lia].
  rewrite <- (iv_slots s Hi Ht). apply elem_of_app. right. apply list_elem_of_omap. exists x. split; [by eapply list_elem_of_lookup_2|done].
Qed.

Lemma owned_once s l k x y i : inv s → taken s = None → n_listeners s !! l = Some x → n_listeners s !! k = Some y →
  ln_own x = Some i → ln_own y = Some i → l = k.
Proof.
  intros Hi Ht Hx Hy Hox Hoy. destruct (decide (l = k)) as [|Hne]; [done|exfalso].
  assert (Hnd : NoDup (n_free s ++ omap ln_own (n_listeners s))%list) by (rewrite (iv_slots s Hi Ht); apply NoDup_seq).
  apply NoDup_app in Hnd as (_ & _ & Hnd). clear -Hx Hy Hox Hoy Hne Hnd. revert l k Hx Hy Hne. induction (n_listeners s) as [|z ls IH]; intros [|l] [|k] Hx Hy Hne; simplify_eq/=.
  - rewrite Hox in Hnd. apply NoDup_cons in Hnd as [Hn _]. apply Hn, list_elem_of_omap. exists y. split; [by eapply list_elem_of_lookup_2|done].
  - rewrite Hoy in Hnd. apply NoDup_cons in Hnd as [Hn _]. apply Hn, list_elem_of_omap. exists x. split; [by eapply list_elem_of_lookup_2|done].
  - eapply (IH ltac:(by destruct (ln_own z); [apply NoDup_cons in Hnd as [_ ?]|]) l k); auto.
Qed.

Lemma free_unowned s l x i : inv s → taken s = None → n_listeners s !! l = Some x → ln_own x = Some i → i ∉ n_free s.
Proof.
  intros Hi Ht Hx Ho Hin. assert (Hnd : NoDup (n_free s ++ omap ln_own (n_listeners s))%list) by (rewrite (iv_slots s Hi Ht); apply NoDup_seq).
  apply NoDup_app in Hnd as (_ & Hnd & _). apply (Hnd i Hin), list_elem_of_omap. exists x. split; [by eapply list_elem_of_lookup_2|done].
Qed.

(** What a registration leaves: a slot of the listener's own, holding a waker of its task, the slots
    of every other listener as they were, and every slot held or free. *)
Record registered (s : State) (l : nat) (x : Listener) (waker : Waker) (i : nat) (slots : list (option Waker)) (free : list nat) : Prop := {
  rg_here : ∃ w, slots !! i = Some (Some w) ∧ task w = task waker;
  rg_kept : ∀ k y j, k ≠ l → n_listeners s !! k = Some y → ln_own y = Some j → slots !! j = n_slots s !! j;
  rg_account : ∀ x', ln_own x' = Some i → (free ++ omap ln_own (<[l := x']> (n_listeners s)))%list ≡ₚ seq 0 (length slots);
}.

Lemma register_ok s l x waker : inv s → taken s = None → n_listeners s !! l = Some x → ln_own x = ln_slot x →
  let '(i, slots, free) := register (n_slots s) (n_free s) (ln_slot x) waker in registered s l x waker i slots free.
Proof.
  intros Hi Ht Hx Hown. pose proof (iv_slots s Hi Ht) as Hacc. unfold register. destruct (ln_slot x) as [i|] eqn:Es; simpl.
  - pose proof (owned_range s l x i Hi Ht Hx Hown) as Hlt. rewrite bool_decide_eq_true_2 by done.
    destruct (match n_slots s !! i with Some (Some w) => will_wake w waker | _ => false end) eqn:Ek.
    + split; [|done|].
      * destruct (n_slots s !! i) as [[w|]|]; try done. exists w. split; [done|]. by apply will_wake_same.
      * intros x' Hx'. rewrite (omap_insert_same _ _ _ _ x); [done|done|congruence].
    + split.
      * exists waker. by rewrite list_lookup_insert_eq.
      * intros k y j Hne Hy Hj. rewrite list_lookup_insert_ne; [done|]. intros ->. apply Hne. by eapply (owned_once s k l).
      * intros x' Hx'. rewrite length_insert, (omap_insert_same _ _ _ _ x); [done|done|congruence].
  - destruct (last (n_free s)) as [i|] eqn:El.
    + pose proof (last_split _ _ El) as Hfree.
      assert (Hlt : i < length (n_slots s)).
      { assert (Hin : i ∈ seq 0 (length (n_slots s))); [|apply elem_of_seq in Hin; lia]. rewrite <- Hacc, Hfree. set_solver. }
      split.
      * exists waker. by rewrite list_lookup_insert_eq.
      * intros k y j Hne Hy Hj. rewrite list_lookup_insert_ne; [done|]. intros ->. apply (free_unowned s k y j Hi Ht Hy Hj). rewrite Hfree. set_solver.
      * intros x' Hx'. rewrite length_insert, (omap_insert_more _ _ _ _ x i) by done. rewrite <- Hacc. rewrite Hfree at 2. rewrite <- app_assoc. done.
    + apply last_None in El. rewrite El in *. split.
      * exists waker. by rewrite list_lookup_middle.
      * intros k y j Hne Hy Hj. pose proof (owned_range s k y j Hi Ht Hy Hj). by rewrite lookup_app_l.
      * intros x' Hx'. rewrite (omap_insert_more _ _ _ _ x (length (n_slots s))) by done. rewrite length_app. simpl. rewrite Nat.add_1_r, seq_S, <- Hacc. simpl.
        apply Permutation_cons_append.
Qed.

Lemma inv_register s l x waker : inv s → n_listeners s !! l = Some x → ln_pc x = Locked waker → inv (poll_register s l x waker).
Proof.
  intros Hi Hx Hpc. destruct (iv_lock s Hi l x Hx) as [Hlk Ht]; [unfold in_lock; by rewrite Hpc|].
  destruct (iv_before s Hi Ht) as [Hwk Hall]. destruct (Hall l x Hx) as [Hown _]. rewrite Hpc in Hown.
  pose proof (register_ok s l x waker Hi Ht Hx Hown) as Hreg. unfold poll_register.
  destruct (register (n_slots s) (n_free s) (ln_slot x) waker) as [[i slots] free]. destruct Hreg as [Hhere Hkept Hacc].
  assert (Ht' : ∀ x', taken (set_listener (set_waiters s slots free) l x' None) = None) by done.
  split; cbn [set_listener set_waiters n_fired n_fires n_lock n_slots n_free n_listeners n_woken].
  - apply (iv_fires s Hi).
  - intros k y [[<- [<- _]]|[Hne Hy]]%list_lookup_insert_Some Hin; [done|]. destruct (iv_lock s Hi k y Hy Hin) as [Hk _]. congruence.
  - done.
  - intros _. by apply Hacc.
  - intros _. split; [done|]. intros k y [[<- [<- _]]|[Hne Hy]]%list_lookup_insert_Some.
    + split; [done|]. simpl. intros w [= <-]. destruct Hhere as (w' & Hw' & Htask). by exists i, w'.
    + destruct (Hall k y Hy) as [Ho Hw]. split; [done|]. intros w Hwait. destruct (Hw w Hwait) as (j & w' & Hj & Hs & Htask). exists j, w'. split_and!; [done| |done].
      rewrite (Hkept k y j); [done|done|done|]. unfold listener_ok in Ho. destruct (ln_pc y); try congruence; destruct Ho; congruence.
  - intros slots' Hs. unfold taken in *. cbn in Hs. congruence.
Qed.

(** ** Dropping *)

Lemma inv_free s l x index : inv s → n_listeners s !! l = Some x → ln_pc x = DropLocked index → inv (drop_free s l x index).
Proof.
  intros Hi Hx Hpc. destruct (iv_lock s Hi l x Hx) as [Hlk Ht]; [unfold in_lock; by rewrite Hpc|].
  destruct (iv_before s Hi Ht) as [Hwk Hall]. destruct (Hall l x Hx) as [Hown _]. rewrite Hpc in Hown. destruct Hown as [Hown _].
  pose proof (owned_range s l x index Hi Ht Hx Hown) as Hlt. unfold drop_free. rewrite bool_decide_eq_true_2 by done.
  split; cbn [set_listener set_waiters n_fired n_fires n_lock n_slots n_free n_listeners n_woken].
  - apply (iv_fires s Hi).
  - intros k y [[<- [<- _]]|[Hne Hy]]%list_lookup_insert_Some Hin; [done|]. destruct (iv_lock s Hi k y Hy Hin) as [Hk _]. congruence.
  - done.
  - intros _. rewrite length_insert, <- (iv_slots s Hi Ht), <- app_assoc. apply Permutation_app_head. simpl.
    symmetry. by apply (omap_insert_less _ _ _ _ x).
  - intros _. split; [done|]. intros k y [[<- [<- _]]|[Hne Hy]]%list_lookup_insert_Some; [by split|].
    destruct (Hall k y Hy) as [Ho Hw]. split; [done|]. intros w Hwait. destruct (Hw w Hwait) as (j & w' & Hj & Hs & Htask). exists j, w'. split_and!; [done| |done].
    rewrite list_lookup_insert_ne; [done|]. intros ->. apply Hne. eapply (owned_once s l k); try done.
    unfold listener_ok in Ho. destruct (ln_pc y); try congruence; destruct Ho; congruence.
  - intros slots' Hs. unfold taken in *. cbn in Hs. congruence.
Qed.

(** ** Firing *)

Lemma inv_fire s : inv s → inv (fire_start s).
Proof.
  intros [Hf Hl Hh Hs Hb Ha]. destruct (n_fired s) eqn:Ef.
  - destruct Hf as (pc & rest & Hfs & Hpc & Hrest). assert (Ht : taken (fire_start s) = taken s) by (unfold taken; simpl; by rewrite Hfs).
    split; rewrite ?Ht; try done. simpl. rewrite Hfs, Ef. exists pc, (rest ++ [FiredBefore])%list. split_and!; [done|done|]. apply Forall_app. split; [done|by repeat constructor].
  - assert (Ht : taken (fire_start s) = None) by (unfold taken; simpl; by rewrite Hf, Ef).
    assert (Ht0 : taken s = None) by (unfold taken; by rewrite Hf).
    split; rewrite ?Ht; try done.
    + simpl. rewrite Hf, Ef. by exists Swapped, [].
    + intros l x Hx Hin. split; [by eapply Hl|done].
    + intros _. by apply Hs.
    + intros _. by apply Hb.
Qed.

(** The fire that swapped is the first. *)
Lemma first_fire s f pc : inv s → n_fires s !! f = Some pc → pc ≠ FiredBefore → f = 0 ∧ n_fires s = pc :: tail (n_fires s).
Proof.
  intros Hi Hf Hne. pose proof (iv_fires s Hi) as H. destruct (n_fired s); [|rewrite H in Hf; done].
  destruct H as (pc' & rest & Hfs & _ & Hrest). rewrite Hfs in *. destruct f as [|f]; [by simplify_eq/=|]. simpl in Hf.
  rewrite Forall_forall in Hrest. apply list_elem_of_lookup_2, Hrest in Hf. congruence.
Qed.

Lemma fires_set s pc rest pc' : inv s → n_fires s = pc :: rest → pc ≠ FiredBefore → pc' ≠ FiredBefore →
  n_fired s = true ∧ ∃ rest', <[0 := pc']> (n_fires s) = pc' :: rest' ∧ Forall (λ pc, pc = FiredBefore) rest'.
Proof.
  intros Hi Hfs Hpc Hpc'. pose proof (iv_fires s Hi) as H. destruct (n_fired s); [|congruence]. split; [done|].
  destruct H as (p & r & Hfs' & _ & Hr). rewrite Hfs' in Hfs. injection Hfs as -> ->. rewrite Hfs'. by exists rest.
Qed.

Lemma inv_take s f : inv s → n_fires s !! f = Some Swapped → n_lock s = None → inv (fire_take s f).
Proof.
  intros Hi Hf Hlk. destruct (first_fire s f Swapped Hi Hf) as [-> Hfs]; [done|].
  destruct (fires_set s Swapped (tail (n_fires s)) (Waking (n_slots s)) Hi Hfs) as (Hfd & rest & Hset & Hrest); [done..|].
  assert (Ht : taken s = None) by (unfold taken; by rewrite Hfs). destruct (iv_before s Hi Ht) as [Hwk Hall].
  assert (Ht' : taken (fire_take s 0) = Some (n_slots s)) by (unfold taken; cbn; by rewrite Hset).
  split; rewrite ?Ht'; try done.
  - cbn. rewrite Hfd, Hset. by exists (Waking (n_slots s)), rest.
  - intros l x Hx Hin. destruct (iv_lock s Hi l x Hx Hin). congruence.
  - apply (iv_held s Hi).
  - intros slots [= <-] l x Hx w Hw. destruct (Hall l x Hx) as [_ H]. destruct (H w Hw) as (i & w' & _ & Hs & Htask). right. exists w'. split; [by eapply list_elem_of_lookup_2|done].
Qed.

Lemma inv_wake s f slots : inv s → n_fires s !! f = Some (Waking slots) → inv (fire_wake s f slots).
Proof.
  intros Hi Hf. destruct (first_fire s f (Waking slots) Hi Hf) as [-> Hfs]; [done|].
  assert (Ht : taken s = Some slots) by (unfold taken; by rewrite Hfs). pose proof (iv_after s Hi slots Ht) as Ha.
  destruct slots as [|slot slots]; cbn [fire_wake].
  - destruct (fires_set s (Waking []) (tail (n_fires s)) Fired Hi Hfs) as (Hfd & rest & Hset & Hrest); [done..|].
    assert (Ht' : taken (set_fire s 0 Fired) = Some []) by (unfold taken; cbn; by rewrite Hset).
    split; rewrite ?Ht'; try done.
    + cbn. rewrite Hfd, Hset. by exists Fired, rest.
    + intros l x Hx Hin. destruct (iv_lock s Hi l x Hx Hin). congruence.
    + apply (iv_held s Hi).
    + by intros ? [= <-].
  - destruct (fires_set s (Waking (slot :: slots)) (tail (n_fires s)) (Waking slots) Hi Hfs) as (Hfd & rest & Hset & Hrest); [done..|].
    match goal with |- inv ?S => assert (Ht' : taken S = Some slots) by (unfold taken; cbn; by rewrite Hset) end.
    split; rewrite ?Ht'; try done.
    + cbn. rewrite Hfd, Hset. by exists (Waking slots), rest.
    + intros l x Hx Hin. destruct (iv_lock s Hi l x Hx Hin). congruence.
    + apply (iv_held s Hi).
    + intros ? [= <-] l x Hx w Hw. cbn [n_woken set_fire]. destruct (Ha l x Hx w Hw) as [Hin|(w' & Hin & Htask)]; [left; apply elem_of_app; by left|].
      apply elem_of_cons in Hin as [<-|Hin]; [|right; by exists w']. left. apply elem_of_app. right. simpl. rewrite Htask. by left.
Qed.

(** ** Every step *)

(** [Idle] or [Resolved]. *)
Lemma between_calls {T} x (a : option T) s' : match ln_pc x with Idle | Resolved => a | _ => None end = Some s' →
  a = Some s' ∧ in_lock x = false ∧ ∀ slots, listener_ok slots x → ln_own x = ln_slot x.
Proof. unfold in_lock, listener_ok. destruct (ln_pc x); try done; intros ->; split_and!; try done; by intros slots [? _]. Qed.

Lemma inv_step s e s' : inv s → step s e = Some s' → inv s'.
Proof.
  intros Hi Hst. destruct e as [|l waker|l|l|l|l|l| |f|f]; cbn [step] in Hst.
  - injection Hst as <-. by apply inv_listen.
  - destruct (n_listeners s !! l) as [x|] eqn:Hx; [|done]. apply between_calls in Hst as ([= <-] & Hin & Hown). unfold poll_start.
    destruct (n_fired s); (apply (inv_listener s l x); [done|done|done|done|by left|by left| |by auto]).
    all: intros slots Hok; specialize (Hown slots Hok); destruct Hok as [_ Hw]; split; [done|]; (done || exact Hw).
  - destruct (n_listeners s !! l) as [x|] eqn:Hx; [|done]. destruct (n_lock s) eqn:Hlk; [done|]. destruct (ln_pc x) as [|w| | | | |] eqn:Hp; try done. injection Hst as <-.
    unfold poll_lock. destruct (n_fired s) eqn:Ef; (apply (inv_listener s l x); [done|done|done|done|by right; left|by auto| |by auto]).
    all: intros slots [Ho Hw]; rewrite Hp in Ho; by split.
  - destruct (n_listeners s !! l) as [x|] eqn:Hx; [|done]. destruct (ln_pc x) as [| |w| | | |] eqn:Hp; try done. injection Hst as <-. by apply inv_register.
  - destruct (n_listeners s !! l) as [x|] eqn:Hx; [|done]. apply between_calls in Hst as ([= <-] & Hin & Hown). unfold drop_start.
    apply (inv_listener s l x); [done|done|done| |by left| | |by auto]; [unfold in_lock; simpl; by destruct (ln_slot x)|left; rewrite Hin; unfold in_lock; simpl; by destruct (ln_slot x)|].
    intros slots Hok. specialize (Hown slots Hok). split; [|done]. simpl. by destruct (ln_slot x).
  - destruct (n_listeners s !! l) as [x|] eqn:Hx; [|done]. destruct (n_lock s) eqn:Hlk; [done|]. destruct (ln_pc x) as [| | | |i| |] eqn:Hp; try done. injection Hst as <-.
    unfold drop_lock. destruct (n_fired s) eqn:Ef; (apply (inv_listener s l x); [done|done|done|done|by right; left|by auto| |by auto]).
    all: intros slots [Ho Hw]; rewrite Hp in Ho; destruct Ho as [Ho Hn]; (split; [|by intros w [=]]); [done..|by split].
  - destruct (n_listeners s !! l) as [x|] eqn:Hx; [|done]. destruct (ln_pc x) as [| | | | |i|] eqn:Hp; try done. injection Hst as <-. by apply inv_free.
  - injection Hst as <-. by apply inv_fire.
  - destruct (n_fires s !! f) as [[| | |]|] eqn:Hf; try done. destruct (n_lock s) eqn:Hlk; [done|]. injection Hst as <-. by apply inv_take.
  - destruct (n_fires s !! f) as [[|slots| |]|] eqn:Hf; try done. injection Hst as <-. by apply inv_wake.
Qed.

Lemma reachable_inv s : reachable s → inv s.
Proof. induction 1 as [|s e s' _ IH Hst]; [apply inv_new|by eapply inv_step]. Qed.
(** ** Progress *)

Definition steps (s : State) (es : list Event) : option State := foldl (λ os e, os ≫= λ s, step s e) (Some s) es.

Lemma steps_cons s e es s' s'' : step s e = Some s' → steps s' es = Some s'' → steps s (e :: es) = Some s''.
Proof. unfold steps. simpl. by intros ->. Qed.

Lemma steps_reachable s es : ∀ s', reachable s → steps s es = Some s' → reachable s'.
Proof.
  revert s. induction es as [|e es IH]; intros s s' Hr Hs; [by injection Hs as <-|]. unfold steps in Hs. simpl in Hs.
  destruct (step s e) as [s1|] eqn:E; [eapply IH; [by eapply reachable_step|exact Hs]|exfalso].
  clear -Hs. induction es as [|e' es IH]; [done|]. by apply IH.
Qed.

(** The lock's holder can always go on, and lets it go. *)
Lemma lock_released s : inv s → ∃ es s', length es ≤ 1 ∧ steps s es = Some s' ∧ n_lock s' = None ∧ n_fires s' = n_fires s ∧ length (n_slots s') ≤ S (length (n_slots s)).
Proof.
  intros Hi. destruct (n_lock s) as [[l]|] eqn:Hlk; [|exists [], s; simpl; split_and!; try done; lia].
  destruct (iv_held s Hi l Hlk) as (x & Hx & Hin). unfold in_lock in Hin. destruct (ln_pc x) as [| |w| | |i|] eqn:Hp; try done.
  - exists [EPollRegister l]. eexists. split_and!; [done|unfold steps; simpl; by rewrite Hx, Hp|..]; unfold poll_register;
      destruct (register _ _ _ _) as [[j slots] free] eqn:E; [done|done|]. simpl. unfold register in E.
    repeat case_match; simplify_eq; rewrite ?length_insert, ?length_app; simpl; lia.
  - exists [EDropFree l]. eexists. split_and!; [done|unfold steps; simpl; by rewrite Hx, Hp|..]; unfold drop_free; [done|by case_bool_decide|].
    case_bool_decide; simpl; rewrite ?length_insert; lia.
Qed.

Lemma wakes_all s f slots : n_fires s !! f = Some (Waking slots) →
  ∃ s', steps s (replicate (S (length slots)) (EFireWake f)) = Some s' ∧ n_fires s' !! f = Some Fired.
Proof.
  revert s. induction slots as [|slot slots IH]; intros s Hf; pose proof (lookup_lt_Some _ _ _ Hf) as Hlt.
  - eexists. split; [unfold steps; simpl; by rewrite Hf|]. simpl. by apply list_lookup_insert_eq.
  - destruct (IH (fire_wake s f (slot :: slots))) as (s' & Hs' & Hfd); [simpl; by apply list_lookup_insert_eq|].
    exists s'. split; [|done]. simpl. eapply steps_cons; [|exact Hs']. simpl. by rewrite Hf.
Qed.
End Facts.

(** C10: A one-shot notification loses no wakeup. However polls, drops and fires interleave, nothing
    is woken before the fire; once the fire that won has returned, the task of every listener whose
    last poll answered [Pending] has been woken; and a poll that starts after the fire answers
    [Ready]. Until the slots are taken each is held by one listener or free. *)
Theorem no_lost_wakeup {wakers : Wakers} s : reachable s →
  (n_fired s = false → n_woken s = [] ∧ (n_free s ++ omap ln_own (n_listeners s))%list ≡ₚ seq 0 (length (n_slots s)))
  ∧ (∀ f l x w, n_fires s !! f = Some Fired → n_listeners s !! l = Some x → ln_wait x = Some w → task w ∈ n_woken s)
  ∧ (∀ l x w s', n_fired s = true → n_listeners s !! l = Some x → step s (EPoll l w) = Some s' → n_listeners s' !! l = Some (resolved x)).
Proof.
  intros Hi%reachable_inv. split_and!.
  - intros Hf. assert (Ht : taken s = None) by (pose proof (iv_fires s Hi) as H; rewrite Hf in H; unfold taken; by rewrite H).
    split; [by apply (iv_before s Hi)|by apply (iv_slots s Hi)].
  - intros f l x w Hf Hx Hw. destruct (first_fire s f Fired Hi Hf) as [_ Hfs]; [done|].
    assert (Ht : taken s = Some []) by (unfold taken; by rewrite Hfs).
    destruct (iv_after s Hi [] Ht l x Hx w Hw) as [|(w' & Hin & _)]; [done|by apply not_elem_of_nil in Hin].
  - intros l x w s' Hf Hx Hst. cbn [step] in Hst. rewrite Hx in Hst. apply between_calls in Hst as ([= <-] & _). unfold poll_start. rewrite Hf. simpl.
    apply list_lookup_insert_eq. by eapply lookup_lt_Some.
Qed.

(** The fire that won never waits for good: from any state a run can be in, it returns after at
    most one step of the listener that holds the lock, one to take the slots and one for each. *)
Theorem fire_returns {wakers : Wakers} s f : reachable s → n_fires s !! f = Some Swapped →
  ∃ es s', length es ≤ 4 + length (n_slots s) ∧ steps s es = Some s' ∧ n_fires s' !! f = Some Fired.
Proof.
  intros Hi%reachable_inv Hf. destruct (lock_released s Hi) as (es & s1 & Hlen & Hs1 & Hlk & Hfs & Hslots).
  assert (Hf1 : n_fires s1 !! f = Some Swapped) by by rewrite Hfs.
  destruct (wakes_all (fire_take s1 f) f (n_slots s1)) as (s' & Hs' & Hfd); [simpl; apply list_lookup_insert_eq; by eapply lookup_lt_Some|].
  exists (es ++ EFireTake f :: replicate (S (length (n_slots s1))) (EFireWake f))%list, s'. split_and!; [|..|done].
  - rewrite length_app. simpl. rewrite length_replicate. lia.
  - unfold steps. rewrite foldl_app. unfold steps in Hs1. rewrite Hs1. eapply steps_cons; [|exact Hs']. simpl. by rewrite Hf1, Hlk.
Qed.

(** ** Examples *)

(** A waker is its task. *)
#[export] Instance task_wakers : Wakers :=
  {| Waker := nat; task := id; will_wake := Nat.eqb; will_wake_same := λ a b, proj1 (Nat.eqb_eq a b) |}.

(** Two listeners register, one of them as the fire swaps; a third drops its slot. *)
Definition raced : list Event :=
  [EListen; EListen; EListen; EPoll 0 7; EPollLock 0; EPollRegister 0; EPoll 2 9; EPollLock 2; EPollRegister 2;
   EDrop 2; EPoll 1 8; EPollLock 1; EFire; EPollRegister 1; EDropLock 2; EFireTake 0; EFireWake 0; EFireWake 0; EFireWake 0; EFireWake 0].

Definition raced_end : State := default notify_new (steps notify_new raced).

Lemma raced_reachable : reachable raced_end.
Proof. apply (steps_reachable notify_new raced); [constructor|]. vm_compute. reflexivity. Qed.

Lemma no_lost_wakeup_example : (8 : nat) ∈ n_woken raced_end.
Proof.
  apply (proj1 (proj2 (no_lost_wakeup raced_end raced_reachable)) 0 1 (default {| ln_slot := None; ln_pc := Idle; ln_wait := None; ln_own := None |} (n_listeners raced_end !! 1)) 8); vm_compute; reflexivity.
Defined.

Definition raced_swap : State := default notify_new (steps notify_new (take 13 raced)).

Lemma raced_swap_reachable : reachable raced_swap.
Proof. apply (steps_reachable notify_new (take 13 raced)); [constructor|]. vm_compute. reflexivity. Qed.

Lemma fire_returns_example : ∃ es s', length es ≤ 6 ∧ steps raced_swap es = Some s' ∧ n_fires s' !! 0 = Some Fired.
Proof. apply (fire_returns raced_swap 0 raced_swap_reachable). vm_compute. reflexivity. Defined.
