(* ===== verification/Execution.v ===== *)
(** * Execution: the state every handle to one execution shares

    [ExecShared] of [ulo/src/execution/mod.rs], its extensions and inputs of
    [execution/extensions.rs], and the deadline of [AppShared::execute]. Handles are cloned across
    tasks, so a run is any sequence of [ExecEvent]s: each is one atomic step, a [cancel_with] two.
    The [OnceCells] of the cache are kept by the kind of their slot. *)

From S2P Require Import Prelude Text Key Graph Trace Timer.
Local Open Scope nat_scope.

Inductive CancelReason := Disconnected | ClientCancelled | DeadlineReason | DrainReason | Explicit.

Inductive StreamOutcome := StreamCompleted | CutOff (reason : option CancelReason).

#[export] Instance CancelReason_eq_dec : EqDecision CancelReason.
Proof. solve_decision. Defined.

#[export] Instance StreamOutcome_eq_dec : EqDecision StreamOutcome.
Proof. solve_decision. Defined.

(** [ExecShared]. [xs_ran] is what [on_stream_end]'s callbacks were called with, in order, and
    [xs_running] those a report has taken and not yet called. *)
Record ExecState := {
  xs_module : ModuleId;
  xs_routed : option ModuleId;
  xs_cells : option (gmap BindingId Handle);
  xs_closures : option (gmap ClosureId Handle);
  xs_extensions : gmap TypeId Handle;
  xs_inputs : gmap TypeId Handle;
  xs_fired : bool;
  xs_reason : option CancelReason;
  xs_deadline : option N;
  xs_inbound : option TraceContext;
  xs_own : option TraceContext;
  xs_handler : option Handle;
  xs_late : bool;
  xs_outcome : option StreamOutcome;
  xs_callbacks : list Handle;
  xs_running : list Handle;
  xs_ran : list (Handle * StreamOutcome);
  xs_ended : bool;
}.

(** [AppShared::open], past the phase check. *)
Definition exec_open (trace_on : bool) (m : ModuleId) (deadline : option N) (trace : option TraceContext) : ExecState := {|
  xs_module := m; xs_routed := None; xs_cells := Some ∅; xs_closures := Some ∅; xs_extensions := ∅; xs_inputs := ∅;
  xs_fired := false; xs_reason := None; xs_deadline := deadline;
  xs_inbound := if trace_on then trace_received <$> trace else None; xs_own := None; xs_handler := None; xs_late := false;
  xs_outcome := None; xs_callbacks := []; xs_running := []; xs_ran := []; xs_ended := false |}.

(** [OnceLock::set]. *)
Definition set_once {A} (cell : option A) (x : A) : option A := match cell with Some _ => cell | None => Some x end.

Definition seed (s : ExecState) (ty : TypeId) (i : Handle) : ExecState := {|
  xs_module := xs_module s; xs_routed := xs_routed s; xs_cells := xs_cells s; xs_closures := xs_closures s; xs_extensions := xs_extensions s;
  xs_inputs := <[ty := i]> (xs_inputs s); xs_fired := xs_fired s; xs_reason := xs_reason s; xs_deadline := xs_deadline s;
  xs_inbound := xs_inbound s; xs_own := xs_own s; xs_handler := xs_handler s; xs_late := xs_late s; xs_outcome := xs_outcome s;
  xs_callbacks := xs_callbacks s; xs_running := xs_running s; xs_ran := xs_ran s; xs_ended := xs_ended s |}.

Definition set_extensions (s : ExecState) (m : gmap TypeId Handle) : ExecState := {|
  xs_module := xs_module s; xs_routed := xs_routed s; xs_cells := xs_cells s; xs_closures := xs_closures s; xs_extensions := m;
  xs_inputs := xs_inputs s; xs_fired := xs_fired s; xs_reason := xs_reason s; xs_deadline := xs_deadline s;
  xs_inbound := xs_inbound s; xs_own := xs_own s; xs_handler := xs_handler s; xs_late := xs_late s; xs_outcome := xs_outcome s;
  xs_callbacks := xs_callbacks s; xs_running := xs_running s; xs_ran := xs_ran s; xs_ended := xs_ended s |}.

(** [route_to]: the module of another app changes nothing. *)
Definition route_to (s : ExecState) (same_app : bool) (m : ModuleId) : ExecState :=
  if same_app then {|
  xs_module := xs_module s; xs_routed := set_once (xs_routed s) m; xs_cells := xs_cells s; xs_closures := xs_closures s; xs_extensions := xs_extensions s;
  xs_inputs := xs_inputs s; xs_fired := xs_fired s; xs_reason := xs_reason s; xs_deadline := xs_deadline s;
  xs_inbound := xs_inbound s; xs_own := xs_own s; xs_handler := xs_handler s; xs_late := xs_late s; xs_outcome := xs_outcome s;
  xs_callbacks := xs_callbacks s; xs_running := xs_running s; xs_ran := xs_ran s; xs_ended := xs_ended s |} else s.

(** [ExecShared::module]. *)
Definition exec_module (s : ExecState) : ModuleId := default (xs_module s) (xs_routed s).

Definition exec_trace (s : ExecState) : option TraceContext := match xs_own s with Some c => Some c | None => xs_inbound s end.

Definition set_trace (trace_on : bool) (s : ExecState) (c : TraceContext) : ExecState :=
  if negb trace_on || bool_decide (is_Some (xs_handler s)) then s else {|
  xs_module := xs_module s; xs_routed := xs_routed s; xs_cells := xs_cells s; xs_closures := xs_closures s; xs_extensions := xs_extensions s;
  xs_inputs := xs_inputs s; xs_fired := xs_fired s; xs_reason := xs_reason s; xs_deadline := xs_deadline s;
  xs_inbound := xs_inbound s; xs_own := set_once (xs_own s) (originated c); xs_handler := xs_handler s; xs_late := xs_late s; xs_outcome := xs_outcome s;
  xs_callbacks := xs_callbacks s; xs_running := xs_running s; xs_ran := xs_ran s; xs_ended := xs_ended s |}.

(** [exec.shared.handler.set(..)]. *)
Definition set_handler (s : ExecState) (h : Handle) : ExecState := {|
  xs_module := xs_module s; xs_routed := xs_routed s; xs_cells := xs_cells s; xs_closures := xs_closures s; xs_extensions := xs_extensions s;
  xs_inputs := xs_inputs s; xs_fired := xs_fired s; xs_reason := xs_reason s; xs_deadline := xs_deadline s;
  xs_inbound := xs_inbound s; xs_own := xs_own s; xs_handler := set_once (xs_handler s) h; xs_late := xs_late s; xs_outcome := xs_outcome s;
  xs_callbacks := xs_callbacks s; xs_running := xs_running s; xs_ran := xs_ran s; xs_ended := xs_ended s |}.

Definition set_late (s : ExecState) : ExecState := {|
  xs_module := xs_module s; xs_routed := xs_routed s; xs_cells := xs_cells s; xs_closures := xs_closures s; xs_extensions := xs_extensions s;
  xs_inputs := xs_inputs s; xs_fired := xs_fired s; xs_reason := xs_reason s; xs_deadline := xs_deadline s;
  xs_inbound := xs_inbound s; xs_own := xs_own s; xs_handler := xs_handler s; xs_late := true; xs_outcome := xs_outcome s;
  xs_callbacks := xs_callbacks s; xs_running := xs_running s; xs_ran := xs_ran s; xs_ended := xs_ended s |}.

(** The two steps of [cancel_with]. *)
Definition cancel_reason_set (s : ExecState) (reason : CancelReason) : ExecState := {|
  xs_module := xs_module s; xs_routed := xs_routed s; xs_cells := xs_cells s; xs_closures := xs_closures s; xs_extensions := xs_extensions s;
  xs_inputs := xs_inputs s; xs_fired := xs_fired s; xs_reason := set_once (xs_reason s) reason; xs_deadline := xs_deadline s;
  xs_inbound := xs_inbound s; xs_own := xs_own s; xs_handler := xs_handler s; xs_late := xs_late s; xs_outcome := xs_outcome s;
  xs_callbacks := xs_callbacks s; xs_running := xs_running s; xs_ran := xs_ran s; xs_ended := xs_ended s |}.

Definition cancel_fire (s : ExecState) : ExecState := {|
  xs_module := xs_module s; xs_routed := xs_routed s; xs_cells := xs_cells s; xs_closures := xs_closures s; xs_extensions := xs_extensions s;
  xs_inputs := xs_inputs s; xs_fired := true; xs_reason := xs_reason s; xs_deadline := xs_deadline s;
  xs_inbound := xs_inbound s; xs_own := xs_own s; xs_handler := xs_handler s; xs_late := xs_late s; xs_outcome := xs_outcome s;
  xs_callbacks := xs_callbacks s; xs_running := xs_running s; xs_ran := xs_ran s; xs_ended := xs_ended s |}.

Definition cancel_with (s : ExecState) (reason : CancelReason) : ExecState := cancel_fire (cancel_reason_set s reason).

Definition set_stream (s : ExecState) (outcome : option StreamOutcome) (callbacks running : list Handle) (ran : list (Handle * StreamOutcome)) : ExecState := {|
  xs_module := xs_module s; xs_routed := xs_routed s; xs_cells := xs_cells s; xs_closures := xs_closures s; xs_extensions := xs_extensions s;
  xs_inputs := xs_inputs s; xs_fired := xs_fired s; xs_reason := xs_reason s; xs_deadline := xs_deadline s;
  xs_inbound := xs_inbound s; xs_own := xs_own s; xs_handler := xs_handler s; xs_late := xs_late s; xs_outcome := outcome;
  xs_callbacks := callbacks; xs_running := running; xs_ran := ran; xs_ended := xs_ended s |}.

(** [on_stream_end]: kept for the report, or called at once after it. *)
Definition on_stream_end (s : ExecState) (f : Handle) : ExecState :=
  match xs_outcome s with
  | Some outcome => set_stream s (xs_outcome s) (xs_callbacks s) (xs_running s) (xs_ran s ++ [(f, outcome)])%list
  | None => set_stream s None (xs_callbacks s ++ [f])%list (xs_running s) (xs_ran s)
  end.

(** [report_stream_end] under its lock. *)
Definition report_take (s : ExecState) (outcome : StreamOutcome) : ExecState :=
  match xs_outcome s with
  | Some _ => s
  | None => set_stream s (Some outcome) [] (xs_running s ++ xs_callbacks s)%list (xs_ran s)
  end.

(** The next callback of its loop. A panic of the callback is dropped. *)
Definition report_run (s : ExecState) : option ExecState :=
  match xs_running s, xs_outcome s with
  | f :: running, Some outcome => Some (set_stream s (xs_outcome s) (xs_callbacks s) running (xs_ran s ++ [(f, outcome)])%list)
  | _, _ => None
  end.

(** [Drop for Execution]: the flag, then [OnceCells::release]. *)
Definition exec_ended (s : ExecState) : ExecState := {|
  xs_module := xs_module s; xs_routed := xs_routed s; xs_cells := xs_cells s; xs_closures := xs_closures s; xs_extensions := xs_extensions s;
  xs_inputs := xs_inputs s; xs_fired := xs_fired s; xs_reason := xs_reason s; xs_deadline := xs_deadline s;
  xs_inbound := xs_inbound s; xs_own := xs_own s; xs_handler := xs_handler s; xs_late := xs_late s; xs_outcome := xs_outcome s;
  xs_callbacks := xs_callbacks s; xs_running := xs_running s; xs_ran := xs_ran s; xs_ended := true |}.

Definition set_cells (s : ExecState) (cells : option (gmap BindingId Handle)) (closures : option (gmap ClosureId Handle)) : ExecState := {|
  xs_module := xs_module s; xs_routed := xs_routed s; xs_cells := cells; xs_closures := closures; xs_extensions := xs_extensions s;
  xs_inputs := xs_inputs s; xs_fired := xs_fired s; xs_reason := xs_reason s; xs_deadline := xs_deadline s;
  xs_inbound := xs_inbound s; xs_own := xs_own s; xs_handler := xs_handler s; xs_late := xs_late s; xs_outcome := xs_outcome s;
  xs_callbacks := xs_callbacks s; xs_running := xs_running s; xs_ran := xs_ran s; xs_ended := xs_ended s |}.

Definition release_cells (s : ExecState) : ExecState := set_cells s None None.

(** ** Runs *)

Inductive ExecEvent :=
  | XSeed (ty : TypeId) (i : Handle)
  | XExtend (ty : TypeId) (i : Handle)
  | XRemove (ty : TypeId)
  | XRouteTo (same_app : bool) (m : ModuleId)
  | XSetTrace (c : TraceContext)
  | XDispatch (h : Handle)
  | XLate
  | XCancelSet (reason : CancelReason)
  | XCancelFire
  | XOnStreamEnd (f : Handle)
  | XReport (outcome : StreamOutcome)
  | XReportRun
  | XEnd
  | XRelease.

(** One step; the fire of a [cancel_with] comes after its reason is set, the release after the flag. *)
Definition exec_step (trace_on : bool) (s : ExecState) (e : ExecEvent) : option ExecState :=
  match e with
  | XSeed ty i => Some (seed s ty i)
  | XExtend ty i => Some (set_extensions s (<[ty := i]> (xs_extensions s)))
  | XRemove ty => Some (set_extensions s (delete ty (xs_extensions s)))
  | XRouteTo same_app m => Some (route_to s same_app m)
  | XSetTrace c => Some (set_trace trace_on s c)
  | XDispatch h => Some (set_handler s h)
  | XLate => Some (set_late s)
  | XCancelSet reason => Some (cancel_reason_set s reason)
  | XCancelFire => if bool_decide (is_Some (xs_reason s)) then Some (cancel_fire s) else None
  | XOnStreamEnd f => Some (on_stream_end s f)
  | XReport outcome => Some (report_take s outcome)
  | XReportRun => report_run s
  | XEnd => Some (exec_ended s)
  | XRelease => if xs_ended s then Some (release_cells s) else None
  end.

Definition exec_steps (trace_on : bool) (s : ExecState) (es : list ExecEvent) : option ExecState :=
  foldl (λ os e, os ≫= λ s, exec_step trace_on s e) (Some s) es.

(** ** The deadline of [execute] *)

(** [deadline_sleep]: the time left to sleep for; a deadline already past cancels at once. *)
Definition deadline_sleep (timer : option N) (s : ExecState) : ExecState * option N :=
  match xs_deadline s, timer with
  | Some at_, Some now =>
      let left := (at_ - now)%N in
      if bool_decide (left = 0%N) then (cancel_with s DeadlineReason, None) else (s, Some left)
  | _, _ => (s, None)
  end.

(** [cancel_at], one poll for each element: whether the sleep is ready, and the future's value. *)
Fixpoint cancel_at {T} (sleeping : bool) (s : ExecState) (polls : list (bool * option T)) : option (ExecState * T) :=
  match polls with
  | [] => None
  | (ready, value) :: polls =>
      let fired := sleeping && ready in
      let s := if fired then cancel_with s DeadlineReason else s in
      match value with
      | Some v => Some (s, v)
      | None => cancel_at (sleeping && negb ready) s polls
      end
  end.
