(* ===== verification/ExecutionTheorems.v ===== *)
(** * ExecutionTheorems: what every handle to one execution can rely on *)

From S2P Require Import Prelude Text Key Graph Trace Timer Execution.
Local Open Scope nat_scope.

(** ** One step *)

(** What is written once stays. *)
Definition kept {A} (a b : option A) : Prop := ∀ x, a = Some x → b = Some x.

Lemma once_kept_refl {A} (a : option A) : kept a a.
Proof. by intros x. Qed.

Lemma kept_set_once {A} (a : option A) x : kept a (set_once a x).
Proof. by intros y ->. Qed.

#[export] Hint Resolve once_kept_refl kept_set_once : core.

Record later (s s' : ExecState) : Prop := {
  lt_reason : kept (xs_reason s) (xs_reason s');
  lt_routed : kept (xs_routed s) (xs_routed s');
  lt_handler : kept (xs_handler s) (xs_handler s');
  lt_own : kept (xs_own s) (xs_own s');
  lt_outcome : kept (xs_outcome s) (xs_outcome s');
  lt_inbound : xs_inbound s' = xs_inbound s;
  lt_trace : is_Some (xs_handler s) → exec_trace s' = exec_trace s;
  lt_fired : xs_fired s = true → xs_fired s' = true;
  lt_ended : xs_ended s = true → xs_ended s' = true;
  lt_released : xs_cells s = None → xs_cells s' = None;
}.

Lemma later_refl s : later s s.
Proof. by split. Qed.

Lemma later_trans a b c : later a b → later b c → later a c.
Proof.
  intros [A1 A2 A3 A4 A5 A6 A7 A8 A9 A10] [B1 B2 B3 B4 B5 B6 B7 B8 B9 B10].
  split; [by intros x Hx%A1%B1|by intros x Hx%A2%B2|by intros x Hx%A3%B3|by intros x Hx%A4%B4|by intros x Hx%A5%B5|congruence| |by auto..].
  intros [h Hh]. rewrite B7, A7; [done|by exists h|]. exists h. by apply A3.
Qed.

Lemma step_later trace_on s e s' : exec_step trace_on s e = Some s' → later s s'.
Proof.
  destruct e; cbn [exec_step]; intros E; simplify_eq; try (split; simpl; by auto).
  - destruct same_app; [split; simpl; by auto|apply later_refl].
  - unfold set_trace. destruct (negb trace_on || _) eqn:E; [apply later_refl|]. apply orb_false_iff in E as [_ E]. apply bool_decide_eq_false in E.
    split; simpl; auto. by intros H.
  - case_bool_decide; simplify_eq. split; simpl; by auto.
  - unfold on_stream_end. destruct (xs_outcome s) eqn:Eo; split; simpl; rewrite ?Eo; by auto.
  - unfold report_take. destruct (xs_outcome s) eqn:Eo; [apply later_refl|]. split; simpl; rewrite ?Eo; by auto.
  - unfold report_run in E. destruct (xs_running s), (xs_outcome s) eqn:Eo; simplify_eq. split; simpl; rewrite ?Eo; by auto.
  - destruct (xs_ended s) eqn:Ee; simplify_eq. split; simpl; by auto.
Qed.

Lemma exec_steps_cons trace_on s e es : exec_steps trace_on s (e :: es) = exec_step trace_on s e ≫= λ s, exec_steps trace_on s es.
Proof.
  unfold exec_steps. simpl. destruct (exec_step trace_on s e); [done|]. simpl. by induction es.
Qed.

Lemma steps_later trace_on es : ∀ s s', exec_steps trace_on s es = Some s' → later s s'.
Proof.
  induction es as [|e es IH]; intros s s' E; [injection E as <-; apply later_refl|]. rewrite exec_steps_cons in E.
  destruct (exec_step trace_on s e) as [s1|] eqn:E1; [|done]. eapply later_trans; [by eapply step_later|by apply IH].
Qed.

Lemma exec_steps_snoc trace_on s es e : exec_steps trace_on s (es ++ [e]) = exec_steps trace_on s es ≫= λ s, exec_step trace_on s e.
Proof. unfold exec_steps. by rewrite foldl_app. Qed.

(** Rule induction over a run. *)
Lemma exec_steps_ind (trace_on : bool) (P : list ExecEvent → ExecState → Prop) s0 : P [] s0 →
  (∀ es s e s', P es s → exec_step trace_on s e = Some s' → P (es ++ [e])%list s') → ∀ es s, exec_steps trace_on s0 es = Some s → P es s.
Proof.
  intros H0 Hs es. induction es as [|e es IH] using rev_ind; intros s E; [by injection E as <-|]. rewrite exec_steps_snoc in E.
  destruct (exec_steps trace_on s0 es) as [s1|] eqn:E1; [|done]. eapply Hs; [by apply IH|exact E].
Qed.

(** ** Executions *)

(** What an execution records it records once, whatever its handles do: the reason it was
    cancelled with, the module it is routed to, its handler, its own trace context and how its reply
    stream ended are the first written; its trace no longer changes once a dispatch has begun; it
    stays cancelled, ended and released; and a cancelled execution always has a reason. *)
Theorem execution_writes_once trace_on m deadline trace es s es' s' :
  exec_steps trace_on (exec_open trace_on m deadline trace) es = Some s → exec_steps trace_on s es' = Some s' →
  later s s' ∧ (xs_fired s = true → is_Some (xs_reason s)) ∧ (xs_ended s = false → is_Some (xs_cells s)).
Proof.
  intros E E'. split; [by eapply steps_later|]. clear E'. revert es s E.
  apply (exec_steps_ind trace_on (λ _ s, (xs_fired s = true → is_Some (xs_reason s)) ∧ (xs_ended s = false → is_Some (xs_cells s)))); [by split; [|eexists]|].
  intros es s e s2 [H1 H2] E. pose proof (step_later _ _ _ _ E) as Hl.
  destruct e; cbn [exec_step] in E; simplify_eq; try (split; simpl; by auto).
  - destruct same_app; split; simpl; auto.
  - unfold set_trace. destruct (negb trace_on || _); split; simpl; auto.
  - split; simpl; auto. intros Hf. destruct (xs_reason s); simpl; eauto.
  - case_bool_decide; simplify_eq. split; simpl; auto.
  - unfold on_stream_end. destruct (xs_outcome s); split; simpl; auto.
  - unfold report_take. destruct (xs_outcome s); split; simpl; auto.
  - unfold report_run in E. destruct (xs_running s), (xs_outcome s); simplify_eq. split; simpl; auto.
  - destruct (xs_ended s) eqn:Ee; simplify_eq. split; simpl; [auto|congruence].
Qed.

Definition registered_of (e : ExecEvent) : option Handle := match e with XOnStreamEnd f => Some f | _ => None end.
Definition reported_of (e : ExecEvent) : option StreamOutcome := match e with XReport o => Some o | _ => None end.

Record streamed (es : list ExecEvent) (s : ExecState) : Prop := {
  sm_all : ((xs_ran s).*1 ++ xs_running s ++ xs_callbacks s)%list ≡ₚ omap registered_of es;
  sm_first : xs_outcome s = head (omap reported_of es);
  sm_before : xs_outcome s = None → xs_ran s = [] ∧ xs_running s = [];
  sm_after : ∀ o, xs_outcome s = Some o → xs_callbacks s = [] ∧ Forall (λ fo, fo.2 = o) (xs_ran s);
}.

Lemma streamed_same es s e s' : streamed es s → registered_of e = None → reported_of e = None →
  xs_outcome s' = xs_outcome s → xs_callbacks s' = xs_callbacks s → xs_running s' = xs_running s → xs_ran s' = xs_ran s → streamed (es ++ [e])%list s'.
Proof.
  intros [H1 H2 H3 H4] Hr Hp Ho Hc Hn Ha. split; rewrite ?omap_app; cbn; rewrite ?Hr, ?Hp, ?app_nil_r, ?Ho, ?Hc, ?Hn, ?Ha; done.
Qed.

Lemma head_app_Some {A} (l k : list A) x : head l = Some x → head (l ++ k)%list = Some x.
Proof. by destruct l. Qed.

(** Every [on_stream_end] callback runs once, with how the reply stream first ended. Whenever
    callbacks are registered and the end is reported, each one registered has been called, waits for
    the loop of the report, or waits for a report that has not come; none is called before it; all
    are called with its outcome, and later reports change nothing. *)
Theorem stream_callbacks_once trace_on m deadline trace es s :
  exec_steps trace_on (exec_open trace_on m deadline trace) es = Some s → streamed es s.
Proof.
  revert es s. apply (exec_steps_ind trace_on streamed); [by split|]. intros es s e s' Hst E.
  destruct e; cbn [exec_step] in E; simplify_eq; try (by eapply streamed_same).
  - destruct same_app; by eapply streamed_same.
  - unfold set_trace. destruct (negb trace_on || _); by eapply streamed_same.
  - case_bool_decide; simplify_eq. by eapply streamed_same.
  - destruct Hst as [H1 H2 H3 H4]. unfold on_stream_end. destruct (xs_outcome s) as [o|] eqn:Eo; split; rewrite ?omap_app; cbn; rewrite ?app_nil_r.
    + destruct (H4 o eq_refl) as [Hc _]. rewrite fmap_app, <- H1, Hc, !app_nil_r. cbn. rewrite <- !app_assoc. apply Permutation_app_head. apply Permutation_cons_append.
    + done.
    + done.
    + intros o' [= <-]. destruct (H4 o eq_refl) as [Hc Ha]. split; [done|]. apply Forall_app. split; [done|by repeat constructor].
    + by rewrite <- H1, <- !app_assoc.
    + done.
    + done.
    + done.
  - destruct Hst as [H1 H2 H3 H4]. unfold report_take. destruct (xs_outcome s) as [o|] eqn:Eo.
    + split; rewrite ?omap_app; cbn; rewrite ?app_nil_r; [done| |by rewrite Eo|by rewrite Eo]. rewrite Eo. symmetry. by apply head_app_Some.
    + destruct (H3 eq_refl) as [Hr Hn]. split; rewrite ?omap_app; cbn; rewrite ?app_nil_r, ?Hr, ?Hn; simpl.
      * rewrite Hr, Hn in H1. exact H1.
      * destruct (omap reported_of es); [done|]. by simpl in H2.
      * done.
      * by intros o [= <-].
  - destruct Hst as [H1 H2 H3 H4]. unfold report_run in E. destruct (xs_running s) as [|f running] eqn:En; [done|]. destruct (xs_outcome s) as [o|] eqn:Eo; [|done]. injection E as <-.
    split; rewrite ?omap_app; cbn; rewrite ?app_nil_r, ?Eo; [|done|done|].
    + rewrite fmap_app, <- H1. cbn. by rewrite <- app_assoc.
    + intros o' [= <-]. destruct (H4 o eq_refl) as [Hc Ha]. split; [done|]. apply Forall_app. split; [done|by repeat constructor].
  - destruct (xs_ended s); simplify_eq. by eapply streamed_same.
Qed.

(** ** Deadlines *)

(** The deadline of [execute] is a signal to the closure, never its end: its result is the value
    of the first poll that has one, whether or not the deadline has passed, and the execution is
    cancelled with [Deadline] exactly when the sleep was over by then, unless it was cancelled
    before. *)
Theorem deadline_signals {T} s polls s' (v : T) : cancel_at true s polls = Some (s', v) →
  ∃ pre ready post, polls = (pre ++ (ready, Some v) :: post)%list ∧ Forall (λ p, p.2 = None) pre
    ∧ (s' = if existsb fst pre || ready then cancel_with s DeadlineReason else s)
    ∧ (xs_reason s' = if existsb fst pre || ready then set_once (xs_reason s) DeadlineReason else xs_reason s).
Proof.
  enough (H : ∀ sleeping, cancel_at sleeping s polls = Some (s', v) → ∃ pre ready post, polls = (pre ++ (ready, Some v) :: post)%list ∧ Forall (λ p, p.2 = None) pre
    ∧ (s' = if sleeping && (existsb fst pre || ready) then cancel_with s DeadlineReason else s)).
  { intros E. destruct (H true E) as (pre & ready & post & -> & Hp & ->). exists pre, ready, post. split_and!; [done|done|done|]. simpl. by destruct (existsb fst pre || ready). }
  revert s. induction polls as [|[ready value] polls IH]; intros s sleeping E; [done|]. cbn [cancel_at] in E. destruct value as [v'|].
  - injection E as <- <-. exists [], ready, polls. by split_and!.
  - apply IH in E as (pre & ready' & post & -> & Hp & ->). exists ((ready, None) :: pre), ready', post. split_and!; [done|by constructor|].
    cbn [existsb fst]. destruct sleeping, ready; done.
Qed.

(** ** Examples *)

(** Cancelled twice and ended, with a callback registered before the report and one after it. *)
Definition handled : list ExecEvent :=
  [XSeed 13 1399; XRouteTo true 2; XDispatch 5; XOnStreamEnd 40; XCancelSet ClientCancelled; XCancelFire; XReport (CutOff (Some ClientCancelled));
   XOnStreamEnd 41; XReport StreamCompleted; XReportRun; XEnd; XRelease].

Definition opened : ExecState := exec_open true 0 (Some 100%N) None.
Definition handled_end : ExecState := default opened (exec_steps true opened handled).

Lemma handled_runs : exec_steps true opened handled = Some handled_end.
Proof. vm_compute. reflexivity. Qed.

Lemma execution_writes_once_example : xs_reason handled_end = Some ClientCancelled.
Proof.
  apply (lt_reason _ _ (proj1 (execution_writes_once true 0 (Some 100%N) None (take 6 handled) (default opened (exec_steps true opened (take 6 handled)))
    (drop 6 handled) handled_end ltac:(vm_compute; reflexivity) ltac:(vm_compute; reflexivity)))). vm_compute. reflexivity.
Defined.

Lemma stream_callbacks_once_example : (xs_ran handled_end).*1 = [41; 40] ∧ Forall (λ fo, fo.2 = CutOff (Some ClientCancelled)) (xs_ran handled_end).
Proof.
  split; [vm_compute; reflexivity|].
  apply (sm_after _ _ (stream_callbacks_once true 0 (Some 100%N) None handled handled_end handled_runs)). vm_compute. reflexivity.
Defined.

Lemma deadline_signals_example : xs_reason (cancel_with opened DeadlineReason) = Some DeadlineReason
  ∧ ∃ pre ready post, [(false, None); (true, None); (false, Some 9)] = (pre ++ (ready, Some 9) :: post)%list ∧ Forall (λ p, p.2 = None) pre
      ∧ (cancel_with opened DeadlineReason = if existsb fst pre || ready then cancel_with opened DeadlineReason else opened)
      ∧ (xs_reason (cancel_with opened DeadlineReason) = if existsb fst pre || ready then set_once (xs_reason opened) DeadlineReason else xs_reason opened).
Proof. split; [reflexivity|]. apply (deadline_signals opened [(false, None); (true, None); (false, Some 9)]). reflexivity. Defined.
