(* ===== verification/Pipeline.v ===== *)
(** * Pipeline: the dispatch of one call

    [ulo/src/transport/pipeline.rs], [transport/next.rs] and the declarations of
    [transport/enhancer.rs]. Guards, interceptors, error handlers, the handler and the closures that
    build them are user code, given by [Enhancers]: each call of it ends with a value, an error or a
    panic, or never. An interceptor is what it does before [Next::run] and what it does after, since
    [run] consumes the [Next]. *)

From S2P Require Import Prelude Text Key Graph Redact Timer Lifecycle Execution Resolver.
Local Open Scope nat_scope.

Declare Scope pipe_scope.
Delimit Scope pipe_scope with pipe.

(** ** Errors *)

Inductive DispatchStage := AtGuard | AtInterceptor | AtHandler | AtErrorHandler | AtPreDispatch.

(** The [BoxError] of a call, by what is in it. *)
Inductive DispatchError :=
  | GuardRejected (guard : string)
  | PanicRecovered (stage : DispatchStage) (message : Redacted)
  | LookupFailed (error : ReadFailure)
  | EndStream
  | UserError (error : BoxError).

Inductive Ending (A : Type) :=
  | Ok (a : A)
  | Err (e : DispatchError)
  | Panic (payload : str).
Arguments Ok {A} a.
Arguments Err {A} e.
Arguments Panic {A} payload.

(** ** Declarations *)

Record ClosureDecl := { cl_id : ClosureId; cl_build : Handle }.

Inductive Decl :=
  | DeclType (key : Key) (coerce : Handle)
  | DeclValue (value : Handle)
  | DeclClosure (closure : ClosureDecl).

Record EnhancerSpec := { sp_guards : list Decl; sp_interceptors : list Decl; sp_error_handlers : list Decl }.

(** What [dispatch] reads of a [MountedHandler], and of its transport. *)
Record MountedHandler := {
  mh_module : ModuleId;
  mh_controller : Key;
  mh_controller_spec : EnhancerSpec;
  mh_method_spec : EnhancerSpec;
  mh_info : Handle;
}.

Record TransportRoles := {
  tr_guard : Key;          (* [AnyGuard<T>] *)
  tr_interceptor : Key;    (* [AnyInterceptor<T>] *)
  tr_error_handler : Key;  (* [AnyErrorHandler<T>] *)
  tr_builds_controller : bool;
}.

(** ** What happens *)

Inductive Tier := GlobalTier | ControllerTier | MethodTier.

Abbreviation Place := (Tier * nat)%type (only parsing).

Inductive PipeEvent :=
  | EvGuard (p : Place)                       (* being obtained *)
  | EvAnswered (p : Place) (a : Ending bool)  (* what [can_activate] ended with *)
  | EvInterceptor (p : Place)                 (* being obtained *)
  | EvController                              (* being built *)
  | EvIntercept (k : nat)                     (* the interceptor at [k] called *)
  | EvCall                                    (* the handler called *)
  | EvOffer (p : Place) (e : DispatchError)   (* an error handler being obtained, to be offered [e] *)
  | EvHandled (p : Place) (e : DispatchError) (a : Ending Handle).  (* what [handle], given [e], ended with *)

(** The execution, the app's closures built once, the rest user code can change, and the events. *)
Record PipeState (W : Type) := { ps_exec : ExecState; ps_closures : gmap ClosureId Handle; ps_world : W; ps_log : list PipeEvent }.
Arguments ps_exec {W} _.
Arguments ps_closures {W} _.
Arguments ps_world {W} _.
Arguments ps_log {W} _.

(** User code. A reply is opaque, and what an interceptor keeps across [Next::run]. *)
Class Enhancers (W : Type) := {
  en_name : Handle → string;
  can_activate : Handle → ExecState → W → option (ExecState * W * Ending bool);
  intercept_before : Handle → ExecState → W → option (ExecState * W * Ending (Handle + Handle));
  intercept_after : Handle → Handle + DispatchError → ExecState → W → option (ExecState * W * Ending Handle);
  handle_error : Handle → DispatchError → ExecState → W → option (ExecState * W * Ending Handle);
  call_handler : ExecState → W → option (ExecState * W * Ending Handle);
  cl_body : Handle → Body (ReadFailure + Handle + str);
}.

Section Pipeline.
Context {W : Type} {values : Values} {bodies : Bodies} {enhancers : Enhancers W}.
Context (g : Graph) (store : gmap BindingId Handle) (phase : PhaseCell) (fuel : nat) (roles : TransportRoles).
Abbreviation PipeS := (PipeState W).

(** ** Steps *)

(** A stage of the pipeline: [None] when user code never ends. *)
Definition Pipe (A : Type) : Type := PipeS → option (PipeS * Ending A).

Definition ret {A} (a : A) : Pipe A := λ s, Some (s, Ok a).
Definition fail {A} (e : DispatchError) : Pipe A := λ s, Some (s, Err e).

(** [?] on a result, and a panic unwinding. *)
Definition and_then {A B} (m : Pipe A) (k : A → Pipe B) : Pipe B := λ s,
  match m s with
  | None => None
  | Some (s, Ok a) => k a s
  | Some (s, Err e) => Some (s, Err e)
  | Some (s, Panic p) => Some (s, Panic p)
  end.

Notation "'let!' x := m 'in' k" := (and_then m (λ x, k)) (at level 10, x name, m at level 100, k at level 200) : pipe_scope.
Notation "m ;; k" := (and_then m (λ _, k)) (at level 100, right associativity) : pipe_scope.
Local Open Scope pipe_scope.

Definition log (e : PipeEvent) : Pipe unit := λ s,
  Some ({| ps_exec := ps_exec s; ps_closures := ps_closures s; ps_world := ps_world s; ps_log := (ps_log s ++ [e])%list |}, Ok tt).

Definition set_exec (s : PipeS) (x : ExecState) : PipeS :=
  {| ps_exec := x; ps_closures := ps_closures s; ps_world := ps_world s; ps_log := ps_log s |}.

Definition set_app_closures (s : PipeS) (c : gmap ClosureId Handle) : PipeS :=
  {| ps_exec := ps_exec s; ps_closures := c; ps_world := ps_world s; ps_log := ps_log s |}.

(** A call of user code. *)
Definition user {A} (f : ExecState → W → option (ExecState * W * Ending A)) : Pipe A := λ s,
  match f (ps_exec s) (ps_world s) with
  | None => None
  | Some (x, w, a) => Some ({| ps_exec := x; ps_closures := ps_closures s; ps_world := w; ps_log := ps_log s |}, a)
  end.

(** [caught]. *)
Definition caught {A} (stage : DispatchStage) (m : Pipe A) : Pipe A := λ s,
  match m s with
  | Some (s, Panic p) => Some (s, Err (PanicRecovered stage (redact_panic (secrets g) p)))
  | other => other
  end.

(** ** Obtaining *)

Definition view_of (x : ExecState) : ExecView := {| ev_ended := xs_ended x; ev_inputs := xs_inputs x; ev_extensions := xs_extensions x |}.

(** [exec.resolver().in_module(m)]. *)
Definition resolver_in (x : ExecState) (m : ModuleId) : Resolver :=
  {| rv_module := m; rv_exec := Some (view_of x); rv_purpose := Lookup |}.

Definition without_execution (r : Resolver) : Resolver := {| rv_module := rv_module r; rv_exec := None; rv_purpose := rv_purpose r |}.

(** [Resolver::instance]. *)
Definition instance (m : ModuleId) (id : BindingId) : Pipe Handle := λ s,
  match obtain g store phase fuel (resolver_in (ps_exec s) m) id (xs_cells (ps_exec s)) with
  | None => None
  | Some (cells, a) =>
      Some (set_exec s (set_cells (ps_exec s) cells (xs_closures (ps_exec s))),
            match a with inl e => Err (LookupFailed e) | inr i => Ok i end)
  end.

Definition wrong_type (key : Key) (kind : BindingKind) (ty : TypeId) : DispatchError := LookupFailed (ReadWrongType (key_name_of key kind) ty).

(** [Resolver::entries] and [Entry::resolve]. *)
Definition entries (m : ModuleId) (key : Key) : Pipe (list BindingId) := λ s,
  match contributions g (resolver_in (ps_exec s) m) key with
  | inl e => Some (s, Err (LookupFailed e))
  | inr ids => Some (s, Ok ids)
  end.

Definition entry_resolve (m : ModuleId) (key : Key) (id : BindingId) : Pipe Handle :=
  let! i := instance m id in
  match widen g id (key_type_id key) i with
  | Some i => ret i
  | None => fail (wrong_type key BCollection (key_type_id key))
  end.

(** [(closure.build)(r)], its reads in the execution's cells or outside of any. *)
Definition run_closure (r : Resolver) (c : ClosureDecl) (cells : option (gmap BindingId Handle)) : option (option (gmap BindingId Handle) * Ending Handle) :=
  match run_body g (obtain g store phase fuel) r None None (cl_body (cl_build c)) cells with
  | None => None
  | Some (cells, _, inl (inl e)) => Some (cells, Err (LookupFailed e))
  | Some (cells, _, inl (inr i)) => Some (cells, Ok i)
  | Some (cells, _, inr p) => Some (cells, Panic p)
  end.

Definition run_inside (m : ModuleId) (c : ClosureDecl) : Pipe Handle := λ s,
  match run_closure (resolver_in (ps_exec s) m) c (xs_cells (ps_exec s)) with
  | None => None
  | Some (cells, a) => Some (set_exec s (set_cells (ps_exec s) cells (xs_closures (ps_exec s))), a)
  end.

Definition run_outside (m : ModuleId) (c : ClosureDecl) : Pipe Handle := λ s,
  match run_closure (without_execution (resolver_in (ps_exec s) m)) c None with
  | None => None
  | Some (_, a) => Some (s, a)
  end.

(** [OnceCells::get_or_build] of the app, and of the execution. *)
Definition once_in_app (id : ClosureId) (build : Pipe Handle) : Pipe Handle := λ s,
  match ps_closures s !! id with
  | Some i => Some (s, Ok i)
  | None =>
      match build s with
      | Some (s, Ok i) => Some (set_app_closures s (<[id := i]> (ps_closures s)), Ok i)
      | other => other
      end
  end.

Definition once_in_execution (id : ClosureId) (key : KeyName) (build : Pipe Handle) : Pipe Handle := λ s,
  match xs_closures (ps_exec s) with
  | None => Some (s, Err (LookupFailed (ReadExecutionEnded key)))
  | Some m =>
      match m !! id with
      | Some i => Some (s, Ok i)
      | None =>
          match build s with
          | Some (s, Ok i) =>
              Some (set_exec s (set_cells (ps_exec s) (xs_cells (ps_exec s)) ((λ m, <[id := i]> m) <$> xs_closures (ps_exec s))), Ok i)
          | other => other
          end
      end
  end.

Definition as_role (role : Key) (i : Handle) : Pipe Handle :=
  match downcast_instance (key_type_id role) i with
  | Some i => ret i
  | None => fail (wrong_type role BSingle (key_type_id role))
  end.

Definition build_closure (m : ModuleId) (role : Key) (c : ClosureDecl) : Pipe Handle :=
  match g_closures g !! cl_id c with
  | Some ESingleton => let! i := once_in_app (cl_id c) (run_outside m c) in as_role role i
  | Some EPerExecution => let! i := once_in_execution (cl_id c) (key_name_of role BSingle) (run_inside m c) in as_role role i
  | Some ETransient | None => run_inside m c
  end.

(** [obtain] of the pipeline. *)
Definition decl_obtain (m : ModuleId) (role : Key) (d : Decl) : Pipe Handle :=
  match d with
  | DeclValue value => ret value
  | DeclClosure c => build_closure m role c
  | DeclType key c =>
      match lookup g m key with
      | Some (VBinding id) =>
          let! i := instance m id in
          match downcast_instance (key_type_id role) (coerce c i) with
          | Some i => ret i
          | None => fail (wrong_type key BSingle (key_type_id role))
          end
      | _ => fail (LookupFailed (ReadNotFound (key_name_of key BSingle) OfBinding))
      end
  end.

(** Where each contribution or declaration is, and how it is obtained. *)
Abbreviation Sources := (list (Place * Pipe Handle)) (only parsing).

Definition global_sources (m : ModuleId) (key : Key) (ids : list BindingId) : Sources :=
  imap (λ i id, ((GlobalTier, i), entry_resolve m key id)) ids.

Definition tier_sources (m : ModuleId) (role : Key) (tier : Tier) (decls : list Decl) : Sources :=
  imap (λ i d, ((tier, i), decl_obtain m role d)) decls.

(** ** Guards *)

Definition check (p : Place) (guard : Handle) : Pipe unit := λ s,
  match user (can_activate guard) s with
  | None => None
  | Some (s, a) =>
      (log (EvAnswered p a);;
       match a with
       | Ok true => ret tt
       | Ok false => fail (GuardRejected (en_name guard))
       | Err e => fail e
       | Panic payload => λ s, Some (s, Panic payload)
       end) s
  end.

Fixpoint guards_each (sources : Sources) : Pipe unit :=
  match sources with
  | [] => ret tt
  | (p, obtained) :: sources => log (EvGuard p);; let! guard := obtained in check p guard;; guards_each sources
  end.

Definition admit_all (h : MountedHandler) : Pipe unit :=
  let m := mh_module h in
  let! ids := entries m (tr_guard roles) in
  guards_each (global_sources m (tr_guard roles) ids);;
  guards_each (tier_sources m (tr_guard roles) ControllerTier (sp_guards (mh_controller_spec h))
               ++ tier_sources m (tr_guard roles) MethodTier (sp_guards (mh_method_spec h)))%list.

(** ** The chain *)

(** [Next::run] from the interceptor at [k] on. *)
Fixpoint next_run (k : nat) (rest : list Handle) : Pipe Handle :=
  match rest with
  | [] => caught AtHandler (log EvCall;; user call_handler)
  | first :: rest =>
      caught AtInterceptor (
        log (EvIntercept k);;
        let! before := user (intercept_before first) in
        match before with
        | inl reply => ret reply
        | inr kept => λ s,
            match next_run (S k) rest s with
            | None => None
            | Some (s, Ok reply) => user (intercept_after kept (inl reply)) s
            | Some (s, Err e) => user (intercept_after kept (inr e)) s
            | Some (s, Panic p) => Some (s, Panic p)
            end
        end)
  end.

Fixpoint interceptors_each (sources : Sources) : Pipe (list Handle) :=
  match sources with
  | [] => ret []
  | (p, obtained) :: sources =>
      log (EvInterceptor p);; let! i := obtained in let! rest := interceptors_each sources in ret (i :: rest)
  end.

Definition build_interceptors (h : MountedHandler) : Pipe (list Handle) :=
  let m := mh_module h in
  let! ids := entries m (tr_interceptor roles) in
  interceptors_each
    (global_sources m (tr_interceptor roles) ids
     ++ tier_sources m (tr_interceptor roles) ControllerTier (sp_interceptors (mh_controller_spec h))
     ++ tier_sources m (tr_interceptor roles) MethodTier (sp_interceptors (mh_method_spec h)))%list.

Definition build_controller (h : MountedHandler) : Pipe unit :=
  match lookup g (mh_module h) (mh_controller h) with
  | Some (VBinding id) =>
      if bool_decide (fb_effective (binding g id) = ETransient) then ret tt
      else log EvController;; instance (mh_module h) id;; ret tt
  | _ => ret tt
  end.

Definition respond (h : MountedHandler) : Pipe Handle :=
  let! interceptors := caught AtInterceptor (build_interceptors h) in
  (if tr_builds_controller roles then build_controller h else ret tt);;
  next_run 0 interceptors.

(** ** Error handlers *)

(** [offer]. *)
Definition offer_to (p : Place) (eh : Handle) (e : DispatchError) : Pipe Handle := λ s,
  match user (handle_error eh e) s with
  | None => None
  | Some (s, a) => (log (EvHandled p e a);; λ s, Some (s, a)) s
  end.

(** The loop over error handlers: [Err] hands the next one the error returned. *)
Fixpoint offers (sources : Sources) (e : DispatchError) : Pipe Handle :=
  match sources with
  | [] => fail e
  | (p, obtained) :: sources => λ s,
      match caught AtErrorHandler (log (EvOffer p e);; let! eh := obtained in offer_to p eh e) s with
      | Some (s, Err next) => offers sources next s
      | other => other
      end
  end.

Definition declared_handlers (h : MountedHandler) : Sources :=
  (reverse (tier_sources (mh_module h) (tr_error_handler roles) MethodTier (sp_error_handlers (mh_method_spec h)))
   ++ reverse (tier_sources (mh_module h) (tr_error_handler roles) ControllerTier (sp_error_handlers (mh_controller_spec h))))%list.

Definition claim (m : ModuleId) (h : option MountedHandler) (e : DispatchError) : Pipe Handle := λ s,
  match offers (match h with Some h => declared_handlers h | None => [] end) e s with
  | Some (s, Err e) =>
      (let! ids := entries m (tr_error_handler roles) in
       offers (reverse (global_sources m (tr_error_handler roles) ids)) e) s
  | other => other
  end.

(** ** Entry points *)

Definition dispatch (h : MountedHandler) : Pipe Handle := λ s,
  let s := set_exec s (set_handler (ps_exec s) (mh_info h)) in
  match (caught AtGuard (admit_all h);; respond h) s with
  | Some (s, Err e) => claim (mh_module h) (Some h) e s
  | other => other
  end.

Definition recover (h : option MountedHandler) (e : DispatchError) : Pipe Handle := λ s,
  match h with
  | Some handler => claim (mh_module handler) h e (set_exec s (set_handler (ps_exec s) (mh_info handler)))
  | None => claim (exec_module (ps_exec s)) None e s
  end.

Inductive LateOutcome := Render (e : DispatchError) | Ignored | EndedStream.

Definition dispatch_late (h : MountedHandler) (e : DispatchError) (s : PipeS) : option (PipeS * Ending LateOutcome) :=
  match recover (Some h) e (set_exec s (set_late (ps_exec s))) with
  | None => None
  | Some (s, Ok _) => Some (s, Ok Ignored)
  | Some (s, Err EndStream) => Some (s, Ok EndedStream)
  | Some (s, Err e) => Some (s, Ok (Render e))
  | Some (s, Panic p) => Some (s, Panic p)
  end.
End Pipeline.
