(* ===== verification/PipelineFacts.v ===== *)
(** * PipelineFacts: what each stage of a dispatch does, in order

    A stage is specified by the events it logs: [guarded], [chained] and [offered] are the traces of
    the guards, the interceptor chain and the error handlers. *)

From S2P Require Import Prelude Text Key Graph WiringError Cycles Redact Scopes Visibility Register Freeze ResolveFacts Wire WireFacts LoadFacts Timer Lifecycle InjectFacts Resolver ResolverFacts Execution Pipeline.
Local Open Scope nat_scope.

Section Facts.
Context {W : Type} {values : Values} {bodies : Bodies} {enhancers : Enhancers W}.
Context (g : Graph) (store : gmap BindingId Handle) (phase : PhaseCell) (fuel : nat) (roles : TransportRoles).

Abbreviation Stage := (Pipe (W := W)) (only parsing).

(** ** Traces *)

(** What a stage logs and how it ends satisfy [P]. *)
Definition emits {A} (m : Stage A) (P : list PipeEvent → Ending A → Prop) : Prop :=
  ∀ s s' a, m s = Some (s', a) → ∃ l, ps_log s' = (ps_log s ++ l)%list ∧ P l a.

Definition quiet {A} (m : Stage A) : Prop := emits m (λ l _, l = []).

Lemma emits_weaken {A} (m : Stage A) (P Q : list PipeEvent → Ending A → Prop) : emits m P → (∀ l a, P l a → Q l a) → emits m Q.
Proof. intros Hm HPQ s s' a E. destruct (Hm s s' a E) as (l & Hl & HP). eauto. Qed.

Lemma emits_then {A B} (m : Stage A) (k : A → Stage B) (P : list PipeEvent → Ending A → Prop) (Q : A → list PipeEvent → Ending B → Prop) :
  emits m P → (∀ a, emits (k a) (Q a)) →
  emits (and_then m k) (λ l b, (∃ a l1 l2, l = (l1 ++ l2)%list ∧ P l1 (Ok a) ∧ Q a l2 b)
    ∨ (∃ e, P l (Err e) ∧ b = Err e) ∨ ∃ p, P l (Panic p) ∧ b = Panic p).
Proof.
  intros Hm Hk s s' b E. unfold and_then in E. destruct (m s) as [[s1 [a|e|p]]|] eqn:E1; [| | |done].
  - destruct (Hm _ _ _ E1) as (l1 & Hl1 & HP), (Hk a _ _ _ E) as (l2 & Hl2 & HQ). exists (l1 ++ l2)%list.
    split; [by rewrite Hl2, Hl1, app_assoc|]. left. eauto 6.
  - injection E as <- <-. destruct (Hm _ _ _ E1) as (l1 & Hl1 & HP). eauto 8.
  - injection E as <- <-. destruct (Hm _ _ _ E1) as (l1 & Hl1 & HP). eauto 8.
Qed.

Lemma quiet_then {A B} (m : Stage A) (k : A → Stage B) : quiet m → (∀ a, quiet (k a)) → quiet (and_then m k).
Proof.
  intros Hm Hk. eapply emits_weaken; [by apply (emits_then m k (λ l _, l = []) (λ _ l _, l = []))|].
  intros l b [(a & l1 & l2 & -> & -> & ->)|[(e & -> & _)|(p & -> & _)]]; done.
Qed.

Lemma emits_ret {A} (a : A) : emits (ret a : Stage A) (λ l b, l = [] ∧ b = Ok a).
Proof. intros s s' b [= <- <-]. exists []. by rewrite app_nil_r. Qed.

Lemma quiet_ret {A} (a : A) : quiet (ret a : Stage A).
Proof. intros s s' b [= <- <-]. exists []. by rewrite app_nil_r. Qed.

Lemma quiet_fail {A} e : quiet (fail e : Stage A).
Proof. intros s s' b [= <- <-]. exists []. by rewrite app_nil_r. Qed.

Lemma quiet_user {A} (f : ExecState → W → option (ExecState * W * Ending A)) : quiet (user f).
Proof. intros s s' a E. unfold user in E. destruct (f _ _) as [[[x w] b]|]; [|done]. injection E as <- <-. exists []. by rewrite app_nil_r. Qed.

Lemma quiet_instance m id : quiet (instance g store phase fuel m id).
Proof.
  intros s s' a E. unfold instance in E. destruct (obtain _ _ _ _ _ _ _) as [[cells b]|]; [|done]. injection E as <- <-. exists []. by rewrite app_nil_r.
Qed.

Lemma quiet_entries m key : quiet (entries g m key).
Proof. intros s s' a E. unfold entries in E. destruct (contributions _ _ _); injection E as <- <-; exists []; by rewrite app_nil_r. Qed.

Lemma quiet_inside m c : quiet (run_inside g store phase fuel m c).
Proof. intros s s' a E. unfold run_inside in E. destruct (run_closure _ _ _ _ _ _ _) as [[cells b]|]; [|done]. injection E as <- <-. exists []. by rewrite app_nil_r. Qed.

Lemma quiet_outside m c : quiet (run_outside g store phase fuel m c).
Proof. intros s s' a E. unfold run_outside in E. destruct (run_closure _ _ _ _ _ _ _) as [[cells b]|]; [|done]. injection E as <- <-. exists []. by rewrite app_nil_r. Qed.

Lemma quiet_once_app id build : quiet build → quiet (once_in_app id build).
Proof.
  intros Hb s s' a E. unfold once_in_app in E. destruct (ps_closures s !! id); [injection E as <- <-; exists []; by rewrite app_nil_r|].
  destruct (build s) as [[s1 [i|e|p]]|] eqn:E1; [| | |done]; injection E as <- <-; apply Hb in E1 as (l & Hl & ->); by exists [].
Qed.

Lemma quiet_once_execution id key build : quiet build → quiet (once_in_execution id key build).
Proof.
  intros Hb s s' a E. unfold once_in_execution in E. destruct (xs_closures (ps_exec s)) as [m|]; [|injection E as <- <-; exists []; by rewrite app_nil_r].
  destruct (m !! id); [injection E as <- <-; exists []; by rewrite app_nil_r|].
  destruct (build s) as [[s1 [i|e|p]]|] eqn:E1; [| | |done]; injection E as <- <-; apply Hb in E1 as (l & Hl & ->); by exists [].
Qed.

Lemma quiet_role role i : quiet (as_role role i).
Proof. unfold as_role. destruct (downcast_instance _ _); [apply quiet_ret|apply quiet_fail]. Qed.

Lemma quiet_obtain m role d : quiet (decl_obtain g store phase fuel m role d).
Proof.
  unfold decl_obtain. destruct d as [key c|value|c]; [|apply quiet_ret|].
  - destruct (lookup g m key) as [[id| |]|]; try apply quiet_fail. apply quiet_then; [apply quiet_instance|]. intros i.
    destruct (downcast_instance _ _); [apply quiet_ret|apply quiet_fail].
  - unfold build_closure. destruct (g_closures g !! cl_id c) as [[| |]|]; try apply quiet_inside.
    + apply quiet_then; [apply quiet_once_app, quiet_outside|intros i; apply quiet_role].
    + apply quiet_then; [apply quiet_once_execution, quiet_inside|intros i; apply quiet_role].
Qed.

Lemma quiet_entry m key id : quiet (entry_resolve g store phase fuel m key id).
Proof.
  unfold entry_resolve. apply quiet_then; [apply quiet_instance|]. intros i. destruct (widen g id _ i); [apply quiet_ret|apply quiet_fail].
Qed.

Abbreviation Sources := (list (Tier * nat * Stage Handle)) (only parsing).

Definition quiet_sources (sources : Sources) : Prop := Forall (λ po, quiet po.2) sources.

Lemma quiet_global m key ids : quiet_sources (global_sources g store phase fuel m key ids).
Proof. apply Forall_forall. intros po (i & Hi)%list_elem_of_lookup. unfold global_sources in Hi. rewrite list_lookup_imap in Hi. apply fmap_Some in Hi as (id & _ & ->). apply quiet_entry. Qed.

Lemma quiet_tier m role tier decls : quiet_sources (tier_sources g store phase fuel m role tier decls).
Proof. apply Forall_forall. intros po (i & Hi)%list_elem_of_lookup. unfold tier_sources in Hi. rewrite list_lookup_imap in Hi. apply fmap_Some in Hi as (d & _ & ->). apply quiet_obtain. Qed.

(** A step that logs an event, then a quiet one. *)
Lemma emits_log {B} e (k : Stage B) (P : list PipeEvent → Ending B → Prop) : emits k P → emits (and_then (log e) (λ _, k)) (λ l b, ∃ l', l = e :: l' ∧ P l' b).
Proof.
  intros Hk s s' b E. cbn in E. apply Hk in E as (l & Hl & HP). exists (e :: l). split; [|eauto]. rewrite Hl. cbn. by rewrite <- app_assoc.
Qed.

(** [caught] logs what its future did, and turns its panic into an error. *)
Definition no_panic {A} (a : Ending A) : Prop := match a with Panic _ => False | _ => True end.

Definition caught_as {A} (stage : DispatchStage) (a0 : Ending A) : Ending A :=
  match a0 with Panic p => Err (PanicRecovered stage (redact_panic (secrets g) p)) | other => other end.

Lemma emits_caught {A} stage (m : Stage A) (P : list PipeEvent → Ending A → Prop) :
  emits m P → emits (caught g stage m) (λ l a, ∃ a0, P l a0 ∧ a = caught_as stage a0).
Proof.
  intros Hm s s' a E. unfold caught in E. destruct (m s) as [[s1 a1]|] eqn:E1; [|done]. destruct (Hm _ _ _ E1) as (l & Hl & HP).
  destruct a1; injection E as <- <-; exists l; split; try done; eexists; by split.
Qed.

Lemma caught_no_panic {A} stage (m : Stage A) s s' a : caught g stage m s = Some (s', a) → no_panic a.
Proof. unfold caught. destruct (m s) as [[s1 [| |]]|]; [..|done]; by intros [= <- <-]. Qed.

(** ** Guards *)

(** How a guard that does not admit ends the stage. *)
Definition refusal_of (a : Ending bool) (b : Ending unit) : Prop :=
  match a with
  | Ok true => False
  | Ok false => ∃ guard, b = Err (GuardRejected guard)
  | Err e => b = Err e
  | Panic p => b = Panic p
  end.

(** The guards at [ps] asked one after another, to the first that does not admit. *)
Inductive guarded : list (Tier * nat) → list PipeEvent → Ending unit → Prop :=
  | guarded_all : guarded [] [] (Ok tt)
  | guarded_unbuilt p ps b : b ≠ Ok tt → guarded (p :: ps) [EvGuard p] b
  | guarded_refused p ps a b : refusal_of a b → guarded (p :: ps) [EvGuard p; EvAnswered p a] b
  | guarded_admitted p ps l b : guarded ps l b → guarded (p :: ps) (EvGuard p :: EvAnswered p (Ok true) :: l) b.

Lemma emits_check p guard : emits (check p guard) (λ l b, ∃ a, l = [EvAnswered p a] ∧ match b with Ok _ => a = Ok true | _ => refusal_of a b end).
Proof.
  intros s s' b E. unfold check in E. destruct (user (can_activate guard) s) as [[s1 a]|] eqn:E1; [|done].
  destruct (quiet_user _ _ _ _ E1) as (l & Hl & ->). rewrite app_nil_r in Hl. cbn in E.
  exists [EvAnswered p a]. destruct a as [[|]|e|q]; cbn in E; injection E as <- <-; cbn; rewrite Hl; (split; [done|]); eexists; (split; [done|]); try done. by eexists.
Qed.

Lemma emits_guards sources : quiet_sources sources → emits (guards_each sources) (guarded sources.*1).
Proof.
  induction sources as [|[p obtained] sources IH]; intros Hq.
  - intros s s' a [= <- <-]. exists []. split; [by rewrite app_nil_r|constructor].
  - apply Forall_cons in Hq as [Hq Hqs]. cbn [guards_each fmap list_fmap fst].
    eapply emits_weaken; [apply emits_log; eapply (emits_then obtained _ (λ l _, l = [])); [exact Hq|]; intros guard;
      eapply (emits_then _ _ _ (λ _, guarded sources.*1)); [apply (emits_check p guard)|intros u; by apply IH]|].
    intros l b (l' & -> & [(guard & l1 & l2 & -> & -> & Hb)|[(e & -> & ->)|(q & -> & ->)]]); [|by constructor..].
    destruct Hb as [([] & l3 & l4 & -> & (a & -> & ->) & Hb)|[(e & (a & -> & Ha) & ->)|(q & (a & -> & Ha) & ->)]]; by constructor.
Qed.

Lemma guarded_app ps qs l1 l2 b : guarded ps l1 (Ok tt) → guarded qs l2 b → guarded (ps ++ qs) (l1 ++ l2) b.
Proof.
  intros H Hq. remember (Ok tt) as done_ eqn:Ed. induction H as [|p ps b' Hne|p ps answer b' Hr|p ps l b' H IH]; simpl; [done|congruence| |].
  - subst b'. destruct answer as [[]|e|q]; try done. by destruct Hr.
  - constructor. by apply IH.
Qed.

Lemma guarded_more ps qs l b : guarded ps l b → b ≠ Ok tt → guarded (ps ++ qs) l b.
Proof. induction 1; intros Hne; simpl; [done|by constructor|by constructor|]. constructor. by apply IHguarded. Qed.

(** The places of a role for a handler, in the order of the stack. *)
Definition global_places (m : ModuleId) (key : Key) : list (Tier * nat) := (λ i, (GlobalTier, i)) <$> seq 0 (length (collection g key)).
Definition tier_places (tier : Tier) (decls : list Decl) : list (Tier * nat) := (λ i, (tier, i)) <$> seq 0 (length decls).

Lemma imap_places {A B} (f : nat → A → B) (l : list A) (tier : Tier) : (imap (λ i x, ((tier, i), f i x)) l).*1 = (λ i, (tier, i)) <$> seq 0 (length l).
Proof.
  apply list_eq. intros i. rewrite !list_lookup_fmap, list_lookup_imap. destruct (decide (i < length l)) as [Hlt|Hge].
  - rewrite lookup_seq_lt by done. apply lookup_lt_is_Some in Hlt as [x ->]. done.
  - rewrite !lookup_ge_None_2; [done|rewrite length_seq; lia|lia].
Qed.

Definition guard_places (h : MountedHandler) : list (Tier * nat) :=
  (global_places (mh_module h) (tr_guard roles)
   ++ tier_places ControllerTier (sp_guards (mh_controller_spec h)) ++ tier_places MethodTier (sp_guards (mh_method_spec h)))%list.

(** The ids a role's entries read are its collection. *)
Lemma entries_ids m key (s : PipeState W) s' a : entries g m key s = Some (s', a) → s' = s ∧ match a with Ok ids => ids = collection g key | Err _ => True | Panic _ => False end.
Proof. unfold entries, contributions. destruct (bool_decide _ && _); intros [= <- <-]; done. Qed.

Lemma emits_entries m key {B} (k : list BindingId → Stage B) (P : list PipeEvent → Ending B → Prop) :
  emits (k (collection g key)) P → emits (and_then (entries g m key) k) (λ l b, P l b ∨ l = [] ∧ ∃ e, b = Err e).
Proof.
  intros Hk s s' b E. unfold and_then in E. destruct (entries g m key s) as [[s1 a]|] eqn:E1; [|done].
  destruct (entries_ids _ _ _ _ _ E1) as [-> Ha]. destruct a as [ids|e|p]; [|injection E as <- <-|done].
  - subst ids. apply Hk in E as (l & Hl & HP). eauto.
  - exists []. rewrite app_nil_r. split; [done|]. right. eauto.
Qed.

Lemma emits_admit h : emits (admit_all g store phase fuel roles h) (λ l b, guarded (guard_places h) l b ∨ l = [] ∧ ∃ e, b = Err e).
Proof.
  unfold admit_all. apply emits_entries. eapply emits_weaken; [eapply (emits_then _ _ _ (λ _, guarded _)); [apply emits_guards, quiet_global|];
    intros u; apply emits_guards, Forall_app; split; apply quiet_tier|].
  unfold guard_places, global_places, tier_places, tier_sources, global_sources. rewrite fmap_app, !imap_places.
  intros l b [([] & l1 & l2 & -> & H1 & H2)|[(e & H1 & ->)|(q & H1 & ->)]]; [by apply guarded_app|by apply guarded_more..].
Qed.

(** ** The chain *)

(** Interceptors from [k] on, each called by the one before, then the handler if the last went on. *)
Definition chained (k n : nat) (l : list PipeEvent) : Prop :=
  ∃ j called, j ≤ n ∧ (called = true → j = n) ∧ l = ((EvIntercept <$> seq k j) ++ (if called then [EvCall] else []))%list.

Lemma emits_next rest : ∀ k, emits (next_run g k rest) (λ l a, chained k (length rest) l ∧ no_panic a).
Proof.
  induction rest as [|first rest IH]; intros k s s' a E; pose proof E as Hn; cbn [next_run] in Hn; apply caught_no_panic in Hn; cbn [next_run] in E.
  - destruct (emits_caught AtHandler _ _ (emits_log EvCall _ _ (quiet_user call_handler)) s s' a E) as (l & Hl & a0 & (l' & -> & ->) & _).
    exists [EvCall]. split_and!; try done. by exists 0, true.
  - revert s s' a E Hn.
    enough (H : emits (next_run g k (first :: rest)) (λ l a, chained k (S (length rest)) l)) by (intros s s' a E Hn; apply H in E as (l & Hl & Hc); eauto).
    cbn [next_run]. eapply emits_weaken; [apply emits_caught, emits_log; eapply (emits_then _ _ (λ l _, l = []) (λ _ l _, chained (S k) (length rest) l)); [apply quiet_user|]|].
    + intros [reply|kept]; [intros s s' a [= <- <-]; exists []; split; [by rewrite app_nil_r|by exists 0, false; split_and!; [lia|..]]|].
      intros s s' a E. destruct (next_run g (S k) rest s) as [[s1 a1]|] eqn:E1; [|done]. destruct (IH _ _ _ _ E1) as (l & Hl & Hc & Hp).
      destruct a1 as [r|e|p]; [| |done]; apply quiet_user in E as (l2 & Hl2 & ->); rewrite app_nil_r in Hl2; exists l; split; [congruence|done|congruence|done].
    + intros l a (a0 & (l' & -> & Hl') & _).
      assert (Hc : chained (S k) (length rest) l' ∨ l' = []).
      { destruct Hl' as [(b & l1 & l2 & -> & -> & Hc)|[(e & -> & _)|(p & -> & _)]]; auto. }
      destruct Hc as [(j & called & Hj & Hcal & ->)| ->].
      * exists (S j), called. split_and!; [lia|intros H; f_equal; by apply Hcal|done].
      * exists 1, false. split_and!; [lia|done|done].
Qed.

(** Interceptors obtained in order, to the first failure. *)
Lemma emits_interceptors sources : quiet_sources sources → emits (interceptors_each sources) (λ l a,
  (∃ i, i ≤ length sources ∧ l = EvInterceptor <$> take i sources.*1) ∧ match a with Ok built => l = EvInterceptor <$> sources.*1 ∧ length built = length sources | _ => True end).
Proof.
  induction sources as [|[p obtained] sources IH]; intros Hq.
  - intros s s' a [= <- <-]. exists []. split; [by rewrite app_nil_r|]. split; [by exists 0|done].
  - apply Forall_cons in Hq as [Hq Hqs]. cbn [interceptors_each fmap list_fmap fst].
    eapply emits_weaken; [apply emits_log; eapply (emits_then obtained _ (λ l _, l = [])); [exact Hq|]; intros i;
      eapply (emits_then (interceptors_each sources)); [by apply IH|intros rest; apply (emits_ret (i :: rest))]|].
    intros l a (l' & -> & H).
    assert (H' : (∃ i, i ≤ length sources ∧ l' = EvInterceptor <$> take i sources.*1) ∧ match a with Ok built => l' = EvInterceptor <$> sources.*1 ∧ length built = S (length sources) | _ => True end).
    { destruct H as [(i & l1 & l2 & -> & -> & [(rest & l3 & l4 & -> & ((j & Hj & ->) & Hall & Hlen) & -> & ->)|[(e & [Hj _] & ->)|(q & [Hj _] & ->)]])|[(e & -> & ->)|(q & -> & ->)]]; simpl.
      - rewrite app_nil_r. split; [eauto|]. split; [done|]. by f_equal.
      - done.
      - done.
      - split; [by exists 0; split; [lia|]|done].
      - split; [by exists 0; split; [lia|]|done]. }
    destruct H' as [(i & Hi & ->) Ha]. split; [exists (S i); split; [simpl; lia|done]|]. destruct a; [|done..]. destruct Ha as [Ha Hlen]. simpl. by rewrite Ha.
Qed.

Definition interceptor_places (h : MountedHandler) : list (Tier * nat) :=
  (global_places (mh_module h) (tr_interceptor roles)
   ++ tier_places ControllerTier (sp_interceptors (mh_controller_spec h)) ++ tier_places MethodTier (sp_interceptors (mh_method_spec h)))%list.

(** What follows the guards: the interceptors obtained, in order; once all are, the controller; then
    the chain. *)
Inductive responded (h : MountedHandler) : list PipeEvent → Prop :=
  | responded_unbuilt i : i ≤ length (interceptor_places h) → responded h (EvInterceptor <$> take i (interceptor_places h))
  | responded_built controller chain : controller = [] ∨ controller = [EvController] → chained 0 (length (interceptor_places h)) chain →
      responded h ((EvInterceptor <$> interceptor_places h) ++ controller ++ chain)%list.

Lemma emits_build_interceptors h : emits (build_interceptors g store phase fuel roles h) (λ l a,
  (∃ i, i ≤ length (interceptor_places h) ∧ l = EvInterceptor <$> take i (interceptor_places h))
  ∧ match a with Ok built => l = EvInterceptor <$> interceptor_places h ∧ length built = length (interceptor_places h) | _ => True end).
Proof.
  assert (Hp : ∀ m, (global_sources g store phase fuel m (tr_interceptor roles) (collection g (tr_interceptor roles))
     ++ tier_sources g store phase fuel m (tr_interceptor roles) ControllerTier (sp_interceptors (mh_controller_spec h))
     ++ tier_sources g store phase fuel m (tr_interceptor roles) MethodTier (sp_interceptors (mh_method_spec h))).*1 = interceptor_places h).
  { intros m. unfold interceptor_places, global_places, tier_places, tier_sources, global_sources. by rewrite !fmap_app, !imap_places. }
  unfold build_interceptors. eapply emits_weaken; [apply emits_entries, emits_interceptors; apply Forall_app; split; [apply quiet_global|apply Forall_app; split; apply quiet_tier]|].
  cbn beta. rewrite Hp. assert (Hlen := f_equal length (Hp (mh_module h))). rewrite length_fmap in Hlen. rewrite Hlen.
  intros l a [H|[-> [e ->]]]; [exact H|]. split; [exists 0; split; [lia|done]|done].
Qed.

Lemma emits_controller h : emits (if tr_builds_controller roles then build_controller g store phase fuel h else ret tt) (λ l a, l = [] ∨ l = [EvController]).
Proof.
  assert (Hr : emits (ret tt : Stage unit) (λ l a, l = [] ∨ l = [EvController])) by (eapply emits_weaken; [apply emits_ret|]; intros l a [-> _]; by left).
  destruct (tr_builds_controller roles); [|exact Hr]. unfold build_controller. destruct (lookup g _ _) as [[id| |]|]; try exact Hr.
  case_bool_decide; [exact Hr|]. eapply emits_weaken; [apply emits_log, quiet_then; [apply quiet_instance|intros i; apply quiet_ret]|].
  intros l a (l' & -> & ->). by right.
Qed.

Lemma emits_respond h : emits (respond g store phase fuel roles h) (λ l a, responded h l).
Proof.
  unfold respond. eapply emits_weaken.
  - eapply (emits_then _ _ _ (λ built l a, ∃ c ch, l = (c ++ ch)%list ∧ (c = [] ∨ c = [EvController]) ∧ (ch = [] ∨ chained 0 (length built) ch))); [apply emits_caught, emits_build_interceptors|].
    intros built. eapply emits_weaken; [eapply (emits_then _ _ _ (λ _ l _, chained 0 (length built) l)); [apply emits_controller|]|].
    + intros u. eapply emits_weaken; [apply emits_next|]. by intros l a [H _].
    + intros l a [(u & l1 & l2 & -> & Hc & Hch)|[(e & Hc & _)|(p & Hc & _)]]; [exists l1, l2; auto|exists l, []; rewrite app_nil_r; auto..].
  - intros l a H.
    assert (Hun : ∀ i, i ≤ length (interceptor_places h) → responded h (EvInterceptor <$> take i (interceptor_places h))) by (intros i Hi; by constructor).
    destruct H as [(built & l1 & l2 & -> & (a0 & ((i & Hi & ->) & Ha) & Ea) & c & ch & -> & Hc & Hch)|[(e & (a0 & ((i & Hi & ->) & _) & _) & _)|(p & (a0 & ((i & Hi & ->) & _) & _) & _)]]; [|by apply Hun..].
    destruct a0 as [built'|e|p]; simplify_eq/=. destruct Ha as [-> Hlen]. rewrite Hlen in Hch. constructor; [done|].
    destruct Hch as [-> |Hch]; [|done]. exists 0, false. split_and!; [lia|done|done].
Qed.

(** ** Error handlers *)

(** The handler that [obtained] answers, given [e], ends with [b]. *)
Definition handles (obtained : Stage Handle) (e : DispatchError) (b : Ending Handle) : Prop :=
  ∃ eh s s' x w x' w', obtained s = Some (s', Ok eh) ∧ handle_error eh e x w = Some (x', w', b).

(** Obtaining the handler ends with [b]. *)
Definition obtains (obtained : Stage Handle) (b : Ending Handle) : Prop := ∃ s s', obtained s = Some (s', b).

(** The handlers of [sources] offered [e] one after another. Each is given what the one before it
    returned; one that panics, or cannot be obtained, hands on that. The first to answer [Ok] ends
    the offers, with its reply. *)
Inductive offered : Sources → DispatchError → list PipeEvent → Ending Handle → Prop :=
  | offered_none e : offered [] e [] (Err e)
  | offered_claimed p obtained sources e reply :
      handles obtained e (Ok reply) →
      offered ((p, obtained) :: sources) e [EvOffer p e; EvHandled p e (Ok reply)] (Ok reply)
  | offered_next p obtained sources e b next l a :
      handles obtained e b → caught_as AtErrorHandler b = Err next → offered sources next l a →
      offered ((p, obtained) :: sources) e (EvOffer p e :: EvHandled p e b :: l) a
  | offered_unbuilt p obtained sources e b next l a :
      obtains obtained b → caught_as AtErrorHandler b = Err next → offered sources next l a →
      offered ((p, obtained) :: sources) e (EvOffer p e :: l) a.

Lemma offer_to_handles p eh e s s' b : offer_to p eh e s = Some (s', b) →
  ps_log s' = (ps_log s ++ [EvHandled p e b])%list ∧ ∃ x w x' w', handle_error eh e x w = Some (x', w', b).
Proof.
  unfold offer_to, user. destruct (handle_error eh e (ps_exec s) (ps_world s)) as [[[x w] a]|] eqn:E; [|done].
  intros [= <- <-]. split; [done|]. eauto 6.
Qed.

Lemma emits_offers sources : quiet_sources sources → ∀ e, emits (offers g sources e) (offered sources e).
Proof.
  induction sources as [|[p obtained] sources IH]; intros Hq e.
  - intros s s' a [= <- <-]. exists []. split; [by rewrite app_nil_r|constructor].
  - apply Forall_cons in Hq as [Hq Hqs]. intros s s' a E. cbn [offers] in E. unfold caught in E. cbn [and_then log] in E.
    set (s0 := {| ps_exec := ps_exec s; ps_log := _ |}) in E. assert (Hs0 : ps_log s0 = (ps_log s ++ [EvOffer p e])%list) by done. clearbody s0.
    unfold and_then in E. destruct (obtained s0) as [[s1 b]|] eqn:E1; [|done]. destruct (Hq _ _ _ E1) as (l1 & Hl1 & ->). rewrite app_nil_r in Hl1.
    assert (Hrest : ∀ s2 next l, ps_log s2 = (ps_log s ++ l)%list → offers g sources next s2 = Some (s', a) →
      ∃ l', ps_log s' = (ps_log s ++ l ++ l')%list ∧ offered sources next l' a).
    { intros s2 next l Hl E2. destruct (IH Hqs next _ _ _ E2) as (l' & Hl' & H). exists l'. split; [by rewrite Hl', Hl, app_assoc|done]. }
    assert (Hun : ∀ next, caught_as AtErrorHandler b = Err next → offers g sources next s1 = Some (s', a) →
      ∃ l, ps_log s' = (ps_log s ++ l)%list ∧ offered ((p, obtained) :: sources) e l a).
    { intros next Hb E2. destruct (Hrest s1 next [EvOffer p e]) as (l' & Hl' & H); [by rewrite Hl1|done|].
      exists (EvOffer p e :: l'). split; [done|]. eapply offered_unbuilt; [by exists s0, s1|done|done]. }
    destruct b as [eh|e1|q]; [|by eapply Hun..]. destruct (offer_to p eh e s1) as [[s2 b]|] eqn:E2; [|done].
    destruct (offer_to_handles _ _ _ _ _ _ E2) as [Hl2 (x & w & x' & w' & Hcall)]. rewrite Hl1, Hs0, <- app_assoc in Hl2. cbn in Hl2.
    assert (Hh : handles obtained e b) by (exists eh, s0, s1, x, w, x', w'; done).
    assert (Hnext : ∀ next, caught_as AtErrorHandler b = Err next → offers g sources next s2 = Some (s', a) →
      ∃ l, ps_log s' = (ps_log s ++ l)%list ∧ offered ((p, obtained) :: sources) e l a).
    { intros next Hb E3. destruct (Hrest s2 next [EvOffer p e; EvHandled p e b] Hl2 E3) as (l' & Hl' & H).
      exists (EvOffer p e :: EvHandled p e b :: l'). split; [done|]. by eapply offered_next. }
    destruct b as [reply|e1|q]; [|by eapply Hnext..]. injection E as <- <-. eexists. split; [exact Hl2|by constructor].
Qed.

Definition declared_places (h : MountedHandler) : list (Tier * nat) :=
  (reverse (tier_places MethodTier (sp_error_handlers (mh_method_spec h))) ++ reverse (tier_places ControllerTier (sp_error_handlers (mh_controller_spec h))))%list.

Definition error_places (h : option MountedHandler) (m : ModuleId) : list (Tier * nat) :=
  (match h with Some h => declared_places h | None => [] end ++ reverse (global_places m (tr_error_handler roles)))%list.

Lemma offered_app ss ts e l e' l' a : offered ss e l (Err e') → offered ts e' l' a → offered (ss ++ ts) e (l ++ l') a.
Proof.
  intros H Hq. remember (Err e') as b eqn:Eb.
  induction H as [|p m ss e reply|p m ss e c next l b Hh Hc H IH|p m ss e c next l b Hh Hc H IH]; simplify_eq/=; [done|..].
  - by eapply offered_next; [..|apply IH].
  - by eapply offered_unbuilt; [..|apply IH].
Qed.

Lemma offered_ok ss ts e l reply : offered ss e l (Ok reply) → offered (ss ++ ts) e l (Ok reply).
Proof.
  intros H. remember (Ok reply) as b eqn:Eb.
  induction H as [|p m ss e r|p m ss e c next l b Hh Hc H IH|p m ss e c next l b Hh Hc H IH]; simplify_eq/=; [by constructor|..].
  - by eapply offered_next; [..|apply IH].
  - by eapply offered_unbuilt; [..|apply IH].
Qed.

Lemma offered_no_panic ss e l a : offered ss e l a → no_panic a.
Proof. by induction 1. Qed.

(** The error handlers of a call, in the order they are offered its error. *)
Definition declared_sources (h : option MountedHandler) : Sources :=
  match h with Some h => declared_handlers g store phase fuel roles h | None => [] end.

Definition error_sources (h : option MountedHandler) (m : ModuleId) : Sources :=
  (declared_sources h ++ reverse (global_sources g store phase fuel m (tr_error_handler roles) (collection g (tr_error_handler roles))))%list.

(** Every handler is offered the error, or all the declared are and the global ones cannot be read. *)
Definition claimed (h : option MountedHandler) (m : ModuleId) (e : DispatchError) (l : list PipeEvent) (a : Ending Handle) : Prop :=
  offered (error_sources h m) e l a
  ∨ ∃ e' failed, offered (declared_sources h) e l (Err e') ∧ a = Err (LookupFailed failed)
    ∧ collection g (tr_error_handler roles) = [] ∧ is_Some (lookup g m (tr_error_handler roles)).

Lemma quiet_declared h : quiet_sources (declared_handlers g store phase fuel roles h).
Proof. apply Forall_app. split; apply Forall_reverse, quiet_tier. Qed.

Lemma declared_fst h : (declared_handlers g store phase fuel roles h).*1 = declared_places h.
Proof. unfold declared_handlers, declared_places, tier_places, tier_sources. by rewrite fmap_app, !fmap_reverse, !imap_places. Qed.

Lemma error_sources_fst h m : (error_sources h m).*1 = error_places h m.
Proof.
  unfold error_sources, error_places, declared_sources, global_places, global_sources. rewrite fmap_app, fmap_reverse, imap_places.
  f_equal. destruct h; [apply declared_fst|done].
Qed.

Lemma emits_claim m h e : emits (claim g store phase fuel roles m h e) (claimed h m e).
Proof.
  intros s s' a E. unfold claim in E. fold (declared_sources h) in E.
  assert (Hs : quiet_sources (declared_sources h)) by (unfold declared_sources; destruct h; [apply quiet_declared|constructor]).
  destruct (offers g (declared_sources h) e s) as [[s1 a1]|] eqn:E1; [|done]. destruct (emits_offers _ Hs e _ _ _ E1) as (l1 & Hl1 & Hoff).
  destruct a1 as [reply|e1|p]; [|..|by apply offered_no_panic in Hoff].
  - injection E as <- <-. exists l1. split; [done|]. left. by apply offered_ok.
  - unfold and_then in E. destruct (entries g m (tr_error_handler roles) s1) as [[s2 b]|] eqn:E2; [|done].
    unfold entries, contributions in E2. destruct (bool_decide (collection g (tr_error_handler roles) = []) && _) eqn:Ec; injection E2 as <- <-.
    + injection E as <- <-. exists l1. split; [done|]. right. eexists _, _. split; [exact Hoff|]. split; [done|].
      apply andb_true_iff in Ec as [Ec%bool_decide_eq_true Ev]. split; [done|]. cbn in Ev. by destruct (lookup g m _); [eexists|].
    + destruct (emits_offers (reverse (global_sources g store phase fuel m (tr_error_handler roles) (collection g (tr_error_handler roles)))) ltac:(apply Forall_reverse, quiet_global) e1 _ _ _ E)
        as (l2 & Hl2 & Hoff2). exists (l1 ++ l2)%list. split; [by rewrite Hl2, Hl1, app_assoc|]. left. by eapply offered_app.
Qed.

(** ** Dispatch *)

Lemma no_panic_then {A B} (m : Stage A) (k : A → Stage B) s s' b : (∀ s s' a, m s = Some (s', a) → no_panic a) → (∀ a s s' b, k a s = Some (s', b) → no_panic b) →
  and_then m k s = Some (s', b) → no_panic b.
Proof.
  intros Hm Hk E. unfold and_then in E. destruct (m s) as [[s1 [a|e|p]]|] eqn:E1; [by eapply Hk|by injection E as <- <-|by apply Hm in E1|done].
Qed.

Lemma no_panic_instance m id (s : PipeState W) s' a : instance g store phase fuel m id s = Some (s', a) → no_panic a.
Proof. unfold instance. destruct (obtain _ _ _ _ _ _ _) as [[cells [|]]|]; [..|done]; by intros [= <- <-]. Qed.

Lemma no_panic_respond h s s' a : respond g store phase fuel roles h s = Some (s', a) → no_panic a.
Proof.
  unfold respond. apply no_panic_then; [by intros; eapply caught_no_panic|]. clear s s' a. intros built s s' a. apply no_panic_then.
  - clear s s' a. intros s s' a. destruct (tr_builds_controller roles); [|by intros [= <- <-]]. unfold build_controller.
    destruct (lookup g _ _) as [[id| |]|]; try (by intros [= <- <-]). case_bool_decide; [by intros [= <- <-]|].
    apply no_panic_then; [by intros ? ? ? [= <- <-]|]. clear s s' a. intros u s s' a. apply no_panic_then; [apply no_panic_instance|by intros ? ? ? ? [= <- <-]].
  - clear s s' a. intros u s s' a E. by apply emits_next in E as (l & _ & _ & H).
Qed.

(** A dispatch, by its events: the guards; if they all admit, what follows them; if either ends with
    an error, the error handlers. *)
Inductive dispatched (h : MountedHandler) : list PipeEvent → list PipeEvent → list PipeEvent → Ending Handle → Prop :=
  | dispatched_reply l1 l2 reply : guarded (guard_places h) l1 (Ok tt) → responded h l2 → dispatched h l1 l2 [] (Ok reply)
  | dispatched_failed l1 l2 l3 e a : guarded (guard_places h) l1 (Ok tt) → responded h l2 → claimed (Some h) (mh_module h) e l3 a → dispatched h l1 l2 l3 a
  | dispatched_refused l1 b l3 e a : guarded (guard_places h) l1 b ∨ l1 = [] → b ≠ Ok tt → caught_as AtGuard b = Err e →
      claimed (Some h) (mh_module h) e l3 a → dispatched h l1 [] l3 a.

Lemma emits_dispatch h : emits (dispatch g store phase fuel roles h) (λ l a, ∃ l1 l2 l3, l = (l1 ++ l2 ++ l3)%list ∧ dispatched h l1 l2 l3 a).
Proof.
  intros s s' a E. unfold dispatch in E. set (s0 := set_exec s _) in E. change (ps_log s) with (ps_log s0). clearbody s0. clear s. unfold and_then in E.
  destruct (caught g AtGuard (admit_all g store phase fuel roles h) s0) as [[s1 b]|] eqn:E1; [|done].
  pose proof (caught_no_panic _ _ _ _ _ E1) as Hnp. destruct (emits_caught AtGuard _ _ (emits_admit h) _ _ _ E1) as (l1 & Hl1 & b0 & Hg & ->).
  destruct (caught_as AtGuard b0) as [[]|e|p] eqn:Eb; [| |done].
  - assert (b0 = Ok tt) as -> by (by destruct b0; simplify_eq/=). destruct Hg as [Hg|[_ [e He]]]; [|done].
    destruct (respond g store phase fuel roles h s1) as [[s2 c]|] eqn:E2; [|done]. pose proof (no_panic_respond _ _ _ _ E2) as Hnp2.
    destruct (emits_respond h _ _ _ E2) as (l2 & Hl2 & Hr). destruct c as [reply|e|p]; [| |done].
    + injection E as <- <-. exists (l1 ++ l2)%list. split; [by rewrite Hl2, Hl1, app_assoc|]. exists l1, l2, []. rewrite app_nil_r. split; [done|]. by constructor.
    + destruct (emits_claim _ _ _ _ _ _ E) as (l3 & Hl3 & Hc). exists (l1 ++ l2 ++ l3)%list. split; [by rewrite Hl3, Hl2, Hl1, !app_assoc|]. exists l1, l2, l3. split; [done|].
      by eapply dispatched_failed.
  - destruct (emits_claim _ _ _ _ _ _ E) as (l3 & Hl3 & Hc). exists (l1 ++ l3)%list. split; [by rewrite Hl3, Hl1, app_assoc|]. exists l1, [], l3. split; [done|].
    apply (dispatched_refused h l1 b0 l3 e); [destruct Hg as [?|[-> _]]; auto|by intros ->|done|done].
Qed.
End Facts.

(** ** A dispatch ends when user code does *)

(** Every call of user code comes to an end. *)
Record enhancers_end {W} (enhancers : Enhancers W) : Prop := {
  ee_guard : ∀ guard x w, is_Some (can_activate guard x w);
  ee_before : ∀ i x w, is_Some (intercept_before i x w);
  ee_after : ∀ i a x w, is_Some (intercept_after i a x w);
  ee_error : ∀ h e x w, is_Some (handle_error h e x w);
  ee_call : ∀ x w, is_Some (call_handler x w);
}.

Section Ends.
Context {W : Type} {values : Values} {bodies : Bodies} {enhancers : Enhancers W}.
Context (g : Graph) (store : gmap BindingId Handle) (phase : PhaseCell) (fuel : nat) (roles : TransportRoles).
Context (Hij : injectable g) (Hrec : records_ok g) (Hfuel : length (g_bindings g) < fuel) (Hcode : enhancers_end enhancers).

Let Hwf : graph_wf g := ck_wf g (se_checked g (ij_settled g Hij)).

Abbreviation Stage := (Pipe (W := W)) (only parsing).

Definition ends {A} (m : Stage A) : Prop := ∀ s, is_Some (m s).

Lemma ends_then {A B} (m : Stage A) (k : A → Stage B) : ends m → (∀ a, ends (k a)) → ends (and_then m k).
Proof. intros Hm Hk s. unfold and_then. destruct (Hm s) as [[s' [a|e|p]] ->]; [by apply Hk|by eexists..]. Qed.

Lemma ends_ret {A} (a : A) : ends (ret a : Stage A).
Proof. by eexists. Qed.

Lemma ends_fail {A} e : ends (fail e : Stage A).
Proof. by eexists. Qed.

Lemma ends_log e : ends (log e : Stage unit).
Proof. by eexists. Qed.

Lemma ends_user {A} (f : ExecState → W → option (ExecState * W * Ending A)) : (∀ x w, is_Some (f x w)) → ends (user f).
Proof. intros Hf s. unfold user. destruct (Hf (ps_exec s) (ps_world s)) as [[[x w] a] ->]. by eexists. Qed.

Lemma ends_caught {A} stage (m : Stage A) : ends m → ends (caught g stage m).
Proof. intros Hm s. unfold caught. destruct (Hm s) as [[s' [a|e|p]] ->]; by eexists. Qed.

Lemma ends_instance m id : id < length (g_bindings g) → ends (instance g store phase fuel m id).
Proof. intros Hid s. unfold instance. destruct (obtain_ends g Hij Hrec store phase fuel id (resolver_in (ps_exec s) m) (xs_cells (ps_exec s)) Hfuel Hid) as [[c a] ->]. by eexists. Qed.

Lemma ends_entries m key {B} (k : list BindingId → Stage B) : ends (k (collection g key)) → ends (and_then (entries g m key) k).
Proof. intros Hk s. unfold and_then, entries, contributions. destruct (bool_decide _ && _); [by eexists|apply Hk]. Qed.

Lemma run_closure_some r c cells : is_Some (run_closure g store phase fuel r c cells).
Proof.
  unfold run_closure.
  destruct (run_body_some g (obtain g store phase fuel) (λ d, d < length (g_bindings g)) (λ r d cells Hd, obtain_ends g Hij Hrec store phase fuel d r cells Hfuel Hd)
    r None (cl_body (cl_build c))) with (v := @None UndeclaredRead) (cells := cells) as [[[c' v] a] ->]; [|by destruct a as [[|]|]; eexists].
  generalize (cl_body (cl_build c)). intros b. induction b as [o|call next IH]; [done|]. split; [|exact IH]. intros _. destruct call as [key ty|key| | | |]; try done; cbn [names_within].
  - intros d. apply (wf_visible g Hwf).
  - intros d. unfold collection. destruct (g_collections g !! _) as [ids|] eqn:E; [by eapply (wf_collections g Hwf)|intros Hd; by apply not_elem_of_nil in Hd].
Qed.

Lemma ends_inside m c : ends (run_inside g store phase fuel m c).
Proof. intros s. unfold run_inside. destruct (run_closure_some (resolver_in (ps_exec s) m) c (xs_cells (ps_exec s))) as [[c' a] ->]. by eexists. Qed.

Lemma ends_role role i : ends (as_role role i : Stage Handle).
Proof. unfold as_role. destruct (downcast_instance _ _); [apply ends_ret|apply ends_fail]. Qed.

Lemma ends_closure m role c : ends (build_closure g store phase fuel m role c).
Proof.
  unfold build_closure. destruct (g_closures g !! cl_id c) as [[| |]|]; try apply ends_inside.
  - apply ends_then; [|intros i; apply ends_role]. intros s. unfold once_in_app. destruct (ps_closures s !! cl_id c); [by eexists|].
    unfold run_outside. destruct (run_closure_some (without_execution (resolver_in (ps_exec s) m)) c None) as [[c' [i|e|p]] ->]; by eexists.
  - apply ends_then; [|intros i; apply ends_role]. intros s. unfold once_in_execution. destruct (xs_closures (ps_exec s)) as [cells|]; [|by eexists].
    destruct (cells !! cl_id c); [by eexists|]. destruct (ends_inside m c s) as [[s' [i|e|p]] ->]; by eexists.
Qed.

Lemma ends_decl m role d : ends (decl_obtain g store phase fuel m role d).
Proof.
  unfold decl_obtain. destruct d as [key c|value|c]; [|apply ends_ret|apply ends_closure].
  destruct (lookup g m key) as [[id| |]|] eqn:El; try apply ends_fail. apply ends_then; [apply ends_instance; by eapply (wf_visible g Hwf)|].
  intros i. destruct (downcast_instance _ _); [apply ends_ret|apply ends_fail].
Qed.

Definition ending_sources (sources : list (Tier * nat * Stage Handle)) : Prop := Forall (λ po, ends po.2) sources.

Lemma ends_tier m role tier decls : ending_sources (tier_sources g store phase fuel m role tier decls).
Proof. apply Forall_forall. intros po (i & Hi)%list_elem_of_lookup. unfold tier_sources in Hi. rewrite list_lookup_imap in Hi. apply fmap_Some in Hi as (d & _ & ->). apply ends_decl. Qed.

Lemma ends_global m key : ending_sources (global_sources g store phase fuel m key (collection g key)).
Proof.
  apply Forall_forall. intros po (i & Hi)%list_elem_of_lookup. unfold global_sources in Hi. rewrite list_lookup_imap in Hi. apply fmap_Some in Hi as (id & Hid & ->). simpl.
  unfold entry_resolve. apply ends_then.
  - apply ends_instance. apply list_elem_of_lookup_2 in Hid. unfold collection in Hid. destruct (g_collections g !! _) as [ids|] eqn:E; [by eapply (wf_collections g Hwf)|by apply not_elem_of_nil in Hid].
  - intros x. destruct (widen g id _ x); [apply ends_ret|apply ends_fail].
Qed.

Lemma ends_guards sources : ending_sources sources → ends (guards_each sources).
Proof.
  induction 1 as [|[p obtained] sources Ho _ IH]; [apply ends_ret|]. cbn [guards_each]. apply ends_then; [apply ends_log|]. intros _. apply ends_then; [exact Ho|]. intros guard.
  apply ends_then; [|intros _; exact IH]. intros s. unfold check. destruct (ends_user (can_activate guard) (ee_guard _ Hcode guard) s) as [[s' [[|]|e|q]] ->]; by eexists.
Qed.

Lemma ends_interceptors sources : ending_sources sources → ends (interceptors_each sources).
Proof.
  induction 1 as [|[p obtained] sources Ho _ IH]; [apply ends_ret|]. cbn [interceptors_each]. apply ends_then; [apply ends_log|]. intros _. apply ends_then; [exact Ho|]. intros i.
  apply ends_then; [exact IH|]. intros rest. apply ends_ret.
Qed.

Lemma ends_next rest : ∀ k, ends (next_run g k rest).
Proof.
  induction rest as [|first rest IH]; intros k; cbn [next_run]; apply ends_caught, ends_then; [apply ends_log|intros _; apply ends_user, Hcode|apply ends_log|].
  intros _. apply ends_then; [apply ends_user, Hcode|]. intros [reply|kept]; [apply ends_ret|]. intros s. destruct (IH (S k) s) as [[s' [r|e|p]] ->]; [apply ends_user, Hcode..|by eexists].
Qed.

Lemma ends_respond h : ends (respond g store phase fuel roles h).
Proof.
  unfold respond. apply ends_then.
  - apply ends_caught. unfold build_interceptors. apply ends_entries, ends_interceptors, Forall_app. split; [apply ends_global|]. apply Forall_app. split; apply ends_tier.
  - intros built. apply ends_then; [|intros _; apply ends_next]. destruct (tr_builds_controller roles); [|apply ends_ret]. unfold build_controller.
    destruct (lookup g _ _) as [[id| |]|] eqn:El; try apply ends_ret. case_bool_decide; [apply ends_ret|]. apply ends_then; [apply ends_log|]. intros _.
    apply ends_then; [apply ends_instance; by eapply (wf_visible g Hwf)|intros _; apply ends_ret].
Qed.

Lemma ends_admit h : ends (admit_all g store phase fuel roles h).
Proof.
  unfold admit_all. apply ends_entries, ends_then; [apply ends_guards, ends_global|]. intros _. apply ends_guards, Forall_app. split; apply ends_tier.
Qed.

Lemma ends_offers sources : ending_sources sources → ∀ e, ends (offers g sources e).
Proof.
  induction 1 as [|[p obtained] sources Ho _ IH]; intros e; [apply ends_fail|]. intros s. cbn [offers].
  assert (Ha : ends (caught g AtErrorHandler (and_then (log (EvOffer p e)) (λ _, and_then obtained (λ eh, offer_to p eh e))))).
  { apply ends_caught, ends_then; [apply ends_log|]. intros _. apply ends_then; [exact Ho|]. intros eh t. unfold offer_to.
    destruct (ends_user (handle_error eh e)) with (s := t) as [[t' b] ->]; [apply Hcode|]. by eexists. }
  destruct (Ha s) as [[s' [r|next|q]] ->]; [by eexists|by apply IH|by eexists].
Qed.

Lemma ends_claim m h e : ends (claim g store phase fuel roles m h e).
Proof.
  intros s. unfold claim. destruct (ends_offers (match h with Some h => declared_handlers g store phase fuel roles h | None => [] end)) with (e := e) (s := s) as [[s' [r|e'|p]] ->]; [|by eexists| |by eexists].
  - destruct h; [|constructor]. apply Forall_app. split; apply Forall_reverse, ends_tier.
  - apply ends_entries, ends_offers, Forall_reverse, ends_global.
Qed.

Lemma ends_dispatch h : ends (dispatch g store phase fuel roles h).
Proof.
  intros s. unfold dispatch. destruct (ends_then _ _ (ends_caught AtGuard _ (ends_admit h)) (λ _, ends_respond h) (set_exec s (set_handler (ps_exec s) (mh_info h)))) as [[s' [r|e|p]] ->];
    [by eexists|apply ends_claim|by eexists].
Qed.
End Ends.
