(* ===== verification/PipelineTheorems.v ===== *)
(** * PipelineTheorems: the dispatch of a call

    Guards gate the handler, the chain runs it at most once, every error reaches the error handlers
    in order, and no panic escapes. The examples are at the app of Demo.v. *)

From S2P Require Import Prelude Text Key Graph WiringError Cycles Order Redact Scopes ScopesFacts Visibility VisibilityFacts Register RegisterFacts Freeze ResolveFacts Wire WireFacts LoadFacts Demo WireTheorems InjectFacts Timer Lifecycle LifeDemo Execution Resolver ResolverFacts ReadDemo Pipeline PipelineFacts.
Local Open Scope nat_scope.

Section Dispatch.
Context {W : Type} {values : Values} {bodies : Bodies} {enhancers : Enhancers W}.
Context (g : Graph) (store : gmap BindingId Handle) (phase : PhaseCell) (fuel : nat) (roles : TransportRoles).

(** ** Guards *)

Definition admitted (ps : list (Tier * nat)) : list PipeEvent := ps ≫= λ p, [EvGuard p; EvAnswered p (Ok true)].

Definition guard_event (e : PipeEvent) : bool := match e with EvGuard _ | EvAnswered _ _ => true | _ => false end.
Definition offer_event (e : PipeEvent) : bool := match e with EvOffer _ _ | EvHandled _ _ _ => true | _ => false end.

(** The guard at [p] could not be obtained, or was asked and did not admit. *)
Definition stopped_at (p : Tier * nat) (l : list PipeEvent) : Prop := l = [EvGuard p] ∨ ∃ a, a ≠ Ok true ∧ l = [EvGuard p; EvAnswered p a].

Lemma guarded_done ps l : guarded ps l (Ok tt) → l = admitted ps.
Proof.
  intros H. remember (Ok tt) as b eqn:Eb. induction H as [|p ps b Hne|p ps a b Hr|p ps l b H IH]; [done|congruence| |].
  - subst b. destruct a as [[]|e|q]; try done. by destruct Hr.
  - cbn. by rewrite IH.
Qed.

Lemma guarded_stopped ps l b : guarded ps l b → b ≠ Ok tt → ∃ k p tail, ps !! k = Some p ∧ l = (admitted (take k ps) ++ tail)%list ∧ stopped_at p tail.
Proof.
  induction 1 as [|p ps b Hne|p ps a b Hr|p ps l b H IH]; intros Hb; [done|..].
  - exists 0, p, [EvGuard p]. split_and!; [done|done|by left].
  - exists 0, p, [EvGuard p; EvAnswered p a]. split_and!; [done|done|]. right. exists a. split; [|done]. by intros ->.
  - destruct (IH Hb) as (k & q & tail & Hk & -> & Ht). by exists (S k), q, tail.
Qed.

Lemma chained_plain k n l : chained k n l → Forall (λ e, guard_event e = false ∧ offer_event e = false) l.
Proof.
  intros (j & called & _ & _ & ->). apply Forall_app. split; [|by destruct called; repeat constructor].
  apply Forall_forall. intros e (i & -> & _)%list_elem_of_fmap. done.
Qed.

Lemma interceptors_plain (ps : list (Tier * nat)) : Forall (λ e, guard_event e = false ∧ offer_event e = false) (EvInterceptor <$> ps).
Proof. apply Forall_forall. by intros e (p & -> & _)%list_elem_of_fmap. Qed.

Lemma responded_plain h l : responded g roles h l → Forall (λ e, guard_event e = false ∧ offer_event e = false) l.
Proof.
  intros [i Hi|c ch Hc Hch]; [apply interceptors_plain|]. apply Forall_app. split; [apply interceptors_plain|]. apply Forall_app. split; [|by eapply chained_plain].
  destruct Hc as [-> | ->]; by repeat constructor.
Qed.

Lemma offered_offers ss e l a : offered g ss e l a → Forall (λ e, offer_event e = true ∧ guard_event e = false) l.
Proof. induction 1; by repeat constructor. Qed.

Lemma claimed_offers h m e l a : claimed g store phase fuel roles h m e l a → Forall (λ e, offer_event e = true ∧ guard_event e = false) l.
Proof. by intros [H|(e' & failed & H & _)]; apply offered_offers in H. Qed.

(** C6: Nothing of a call runs before every guard has admitted it. A dispatch asks the guards,
    global then controller then method, obtaining each only once the one before admitted. Either all
    admit, and then no guard is asked again; or one cannot be obtained or does not admit, and then
    no later guard is obtained, and neither an interceptor, nor the controller, nor the handler is:
    only error handlers follow. *)
Theorem guards_gate h s s' out : ps_log s = [] → dispatch g store phase fuel roles h s = Some (s', out) →
  (∃ rest, ps_log s' = (admitted (guard_places g roles h) ++ rest)%list ∧ Forall (λ e, guard_event e = false) rest)
  ∨ ∃ stopped offers, ps_log s' = (stopped ++ offers)%list ∧ Forall (λ e, offer_event e = true) offers
    ∧ (stopped = [] ∨ ∃ k p tail, guard_places g roles h !! k = Some p ∧ stopped = (admitted (take k (guard_places g roles h)) ++ tail)%list ∧ stopped_at p tail).
Proof.
  intros Hlog E. destruct (emits_dispatch g store phase fuel roles h s s' out E) as (l & Hl & l1 & l2 & l3 & -> & Hd). rewrite Hlog in Hl. simpl in Hl.
  assert (Hall : ∀ l2 l3, responded g roles h l2 → Forall (λ e, offer_event e = true ∧ guard_event e = false) l3 → Forall (λ e, guard_event e = false) (l2 ++ l3)).
  { intros k2 k3 H2%responded_plain H3. apply Forall_app. split; [by eapply Forall_impl; [exact H2|]; intros e [? ?]|by eapply Forall_impl; [exact H3|]; intros e [? ?]]. }
  destruct Hd as [l1 l2 reply Hg Hr|l1 l2 l3 e a Hg Hr Hc|l1 b l3 e a Hg Hb He Hc].
  - left. apply guarded_done in Hg as ->. exists (l2 ++ [])%list. split; [done|]. by apply Hall.
  - left. apply guarded_done in Hg as ->. exists (l2 ++ l3)%list. split; [done|]. apply Hall; [done|by eapply claimed_offers].
  - right. exists l1, l3. split_and!; [done| |].
    + eapply Forall_impl; [by eapply claimed_offers|]. by intros x [? ?].
    + destruct Hg as [Hg| ->]; [right; by eapply guarded_stopped|by left].
Qed.

(** ** The chain *)

Definition calls (l : list PipeEvent) : nat := length (filterb (λ e, match e with EvCall => true | _ => false end) l).

Lemma calls_app l l' : calls (l ++ l') = calls l + calls l'.
Proof. unfold calls. by rewrite filterb_app, length_app. Qed.

Lemma calls_none l : Forall (λ e, e ≠ EvCall) l → calls l = 0.
Proof. unfold calls. induction 1 as [|e l He _ IH]; [done|]. simpl. by destruct e. Qed.

Lemma call_in l : EvCall ∈ l ↔ 0 < calls l.
Proof.
  unfold calls. induction l as [|e l IH]; [split; intros H; [by apply not_elem_of_nil in H|by apply Nat.lt_irrefl in H]|].
  rewrite elem_of_cons, IH. destruct e; simpl; (split; [intros [?|?]|]); try done; try lia; auto.
Qed.

(** What runs before the handler when it runs. *)
Lemma responded_calls h l : responded g roles h l → calls l ≤ 1 ∧ (EvCall ∈ l → ∃ c, (c = [] ∨ c = [EvController]) ∧
  l = ((EvInterceptor <$> interceptor_places g roles h) ++ c ++ (EvIntercept <$> seq 0 (length (interceptor_places g roles h))) ++ [EvCall])%list).
Proof.
  assert (Hi : ∀ ps, calls (EvInterceptor <$> ps) = 0) by (intros ps; apply calls_none, Forall_forall; by intros e (p & -> & _)%list_elem_of_fmap).
  assert (Hk : ∀ k n, calls (EvIntercept <$> seq k n) = 0) by (intros k n; apply calls_none, Forall_forall; by intros e (p & -> & _)%list_elem_of_fmap).
  intros [i Hi'|c ch Hc (j & called & Hj & Hcal & ->)]; rewrite call_in.
  - rewrite Hi. split; lia.
  - rewrite !calls_app, Hi, Hk. assert (calls c = 0) as -> by (destruct Hc as [-> | ->]; done). destruct called; [|change (calls []) with 0; split; [lia|intros H; lia]].
    change (calls [EvCall]) with 1. split; [lia|]. intros _. rewrite (Hcal eq_refl). by exists c.
Qed.

(** C7: The handler of a call runs at most once, and only inside every interceptor: when it runs,
    all the guards admitted, all the interceptors were obtained, global then controller then method,
    the controller was built if the transport has it built ahead, and each interceptor was called by
    the one before it. *)
Theorem handler_runs_once h s s' out : ps_log s = [] → dispatch g store phase fuel roles h s = Some (s', out) →
  calls (ps_log s') ≤ 1
  ∧ (EvCall ∈ ps_log s' → ∃ c offers, (c = [] ∨ c = [EvController]) ∧ Forall (λ e, offer_event e = true) offers ∧
      ps_log s' = (admitted (guard_places g roles h) ++ (EvInterceptor <$> interceptor_places g roles h) ++ c
                   ++ (EvIntercept <$> seq 0 (length (interceptor_places g roles h))) ++ [EvCall] ++ offers)%list).
Proof.
  intros Hlog E. destruct (emits_dispatch g store phase fuel roles h s s' out E) as (l & Hl & l1 & l2 & l3 & -> & Hd). rewrite Hlog in Hl. simpl in Hl.
  assert (Hoff : ∀ l, Forall (λ e, offer_event e = true ∧ guard_event e = false) l → calls l = 0 ∧ Forall (λ e, offer_event e = true) l).
  { intros k H. split; [apply calls_none|]; (eapply Forall_impl; [exact H|]); by intros [] [? ?]. }
  assert (Hadm : ∀ ps, calls (admitted ps) = 0).
  { intros ps. apply calls_none, Forall_forall. intros e (p & He & _)%list_elem_of_bind. set_solver. }
  assert (Hmain : ∀ l2 l3, responded g roles h l2 → Forall (λ e, offer_event e = true ∧ guard_event e = false) l3 → ps_log s' = (admitted (guard_places g roles h) ++ l2 ++ l3)%list →
    calls (ps_log s') ≤ 1 ∧ (EvCall ∈ ps_log s' → ∃ c offers, (c = [] ∨ c = [EvController]) ∧ Forall (λ e, offer_event e = true) offers ∧
      ps_log s' = (admitted (guard_places g roles h) ++ (EvInterceptor <$> interceptor_places g roles h) ++ c
                   ++ (EvIntercept <$> seq 0 (length (interceptor_places g roles h))) ++ [EvCall] ++ offers)%list)).
  { intros k2 k3 Hr H3 ->. destruct (Hoff k3 H3) as [Hz Ho], (responded_calls h k2 Hr) as [H1 H2]. rewrite call_in, !calls_app, Hadm, Hz. split; [lia|]. intros Hin.
    destruct H2 as (c & Hc & ->); [apply call_in; lia|]. exists c, k3. split_and!; [done|done|]. by rewrite <- !app_assoc. }
  destruct Hd as [l1 l2 reply Hg Hr|l1 l2 l3 e a Hg Hr Hc|l1 b l3 e a Hg Hb He Hc].
  - apply guarded_done in Hg as ->. by apply (Hmain l2 []).
  - apply guarded_done in Hg as ->. apply (Hmain l2 l3); [done|by eapply claimed_offers|done].
  - assert (Hz : calls (ps_log s') = 0); [|split; [lia|]; rewrite call_in; lia]. apply claimed_offers, Hoff in Hc as [Hc _]. rewrite Hl, !calls_app, Hc.
    destruct Hg as [Hg| ->]; [|done]. destruct (guarded_stopped _ _ _ Hg Hb) as (k & p & tail & _ & -> & Ht). rewrite calls_app, Hadm.
    destruct Ht as [-> |(a' & _ & ->)]; done.
Qed.

(** ** Error handlers *)

(** What a call does before its error handlers: the guards, and then the rest. *)
Definition attempted (h : MountedHandler) (s : PipeState W) : option (PipeState W * Ending Handle) :=
  and_then (caught g AtGuard (admit_all g store phase fuel roles h)) (λ _, respond g store phase fuel roles h) (set_exec s (set_handler (ps_exec s) (mh_info h))).

Lemma attempted_log h s s' a : ps_log s = [] → attempted h s = Some (s', a) → Forall (λ e, offer_event e = false) (ps_log s') ∧ no_panic a.
Proof.
  intros Hlog E. unfold attempted, and_then in E. set (s0 := set_exec s _) in E. assert (Hs0 : ps_log s0 = []) by done. clearbody s0.
  assert (Hadm : ∀ ps, Forall (λ e, offer_event e = false) (admitted ps)).
  { intros ps. apply Forall_forall. intros e (p & He & _)%list_elem_of_bind. set_solver. }
  assert (Hguards : ∀ l b, guarded (guard_places g roles h) l b → Forall (λ e, offer_event e = false) l).
  { intros l b Hg. assert (b = Ok tt ∨ b ≠ Ok tt) as [->|Hne] by (destruct b as [[]| |]; auto); [by apply guarded_done in Hg as ->|].
    destruct (guarded_stopped _ _ _ Hg Hne) as (k & p & tail & _ & -> & Ht). apply Forall_app. split; [done|].
    destruct Ht as [-> |(c & _ & ->)]; by repeat constructor. }
  destruct (caught g AtGuard (admit_all g store phase fuel roles h) s0) as [[s1 b]|] eqn:E1; [|done]. pose proof (caught_no_panic _ _ _ _ _ _ E1) as Hnp.
  destruct (emits_caught g AtGuard _ _ (emits_admit g store phase fuel roles h) _ _ _ E1) as (l1 & Hl1 & b0 & Hg & ->). rewrite Hs0 in Hl1. simpl in Hl1.
  assert (H1 : Forall (λ e, offer_event e = false) (ps_log s1)) by (rewrite Hl1; destruct Hg as [Hg|[-> _]]; [by eapply Hguards|done]).
  destruct (caught_as g AtGuard b0) as [[]|e|p]; [|by injection E as <- <-|done].
  split; [|by eapply no_panic_respond]. destruct (emits_respond g store phase fuel roles h _ _ _ E) as (l2 & -> & Hr%responded_plain).
  apply Forall_app. split; [done|]. eapply Forall_impl; [exact Hr|]. by intros e [? ?].
Qed.

(** C8: An error of a call goes to its error handlers, method then controller then global, each
    tier from the last declared. The first is given the error the guards, the interceptors or the
    handler ended with; each next one what the one before it returned, or its panic, or the failure
    to obtain it; the first to answer [Ok] has claimed the error, and its reply is the call's; the
    error the last one returned is the call's when none claims it. A call without an error reaches
    none. (The global ones cannot be read at all when the role's key has no contribution and names a
    single binding in the controller's module; the call then fails with that.) *)
Theorem errors_offered_in_order h s s' out : ps_log s = [] → dispatch g store phase fuel roles h s = Some (s', out) →
  (error_sources g store phase fuel roles (Some h) (mh_module h)).*1
    = (reverse (tier_places MethodTier (sp_error_handlers (mh_method_spec h)))
       ++ reverse (tier_places ControllerTier (sp_error_handlers (mh_controller_spec h)))
       ++ reverse (global_places g (mh_module h) (tr_error_handler roles)))%list
  ∧ ∃ s1 a, attempted h s = Some (s1, a) ∧ Forall (λ e, offer_event e = false) (ps_log s1)
    ∧ match a with
      | Ok reply => s' = s1 ∧ out = Ok reply
      | Err e => ∃ offers, ps_log s' = (ps_log s1 ++ offers)%list ∧ claimed g store phase fuel roles (Some h) (mh_module h) e offers out
      | Panic _ => False
      end.
Proof.
  intros Hlog E. split; [by rewrite error_sources_fst; unfold error_places, declared_places; rewrite <- app_assoc|].
  unfold dispatch in E. fold (attempted h s) in E. destruct (attempted h s) as [[s1 a]|] eqn:E1; [|done].
  destruct (attempted_log h s s1 a Hlog E1) as [Hl Hnp]. exists s1, a. split_and!; [done|done|]. destruct a as [reply|e|p]; [| |done].
  - by injection E as <- <-.
  - apply emits_claim in E as (l & Hl' & Hc). eauto.
Qed.

Lemma claimed_no_panic h m e l a : claimed g store phase fuel roles h m e l a → no_panic a.
Proof. intros [H|(e' & failed & _ & -> & _)]; [by eapply offered_no_panic|done]. Qed.

(** ** Answers *)

(** C9: A call is always answered. In an app that wired, when every call of user code ends, by a
    value, an error or a panic, a dispatch ends with a reply or an error: no panic escapes it, of
    the guards, the interceptors, the handler, the error handlers or the closures that build them. *)
Theorem dispatch_answers h s : injectable g → records_ok g → length (g_bindings g) < fuel → enhancers_end enhancers →
  ∃ s' out, dispatch g store phase fuel roles h s = Some (s', out) ∧ no_panic out.
Proof.
  intros Hij Hrec Hf Hcode. destruct (ends_dispatch g store phase fuel roles Hij Hrec Hf Hcode h s) as [[s' out] E]. exists s', out. split; [done|].
  destruct (emits_dispatch g store phase fuel roles h s s' out E) as (l & _ & l1 & l2 & l3 & _ & Hd). destruct Hd; [done|by eapply claimed_no_panic..].
Qed.

(** ** Closures built once *)

(** An enhancer closure that is built once is built outside the call: what it ends with and what
    the app keeps of it are the same whatever the execution holds, and the execution is left as it
    was. No data of one call reaches the instance every later call shares. *)
Theorem once_built_outside_calls m role c s t : g_closures g !! cl_id c = Some ESingleton → ps_closures s = ps_closures t →
  match build_closure g store phase fuel m role c s, build_closure g store phase fuel m role c t with
  | Some (s', a), Some (t', b) =>
      a = b ∧ ps_closures s' = ps_closures t' ∧ ps_exec s' = ps_exec s ∧ ps_exec t' = ps_exec t
      ∧ ∀ i, a = Ok i → is_Some (ps_closures s' !! cl_id c)
  | None, None => True
  | _, _ => False
  end.
Proof.
  intros Hc Hst. unfold build_closure. rewrite Hc. unfold and_then, once_in_app. rewrite <- Hst. destruct (ps_closures s !! cl_id c) as [i|] eqn:Ei.
  - unfold as_role. destruct (downcast_instance _ i); cbn; split_and!; try done; rewrite Ei; by eexists.
  - unfold run_outside. cbn [without_execution resolver_in rv_module rv_purpose]. destruct (run_closure _ _ _ _ _ _ _) as [[cells [i|e|p]]|]; [| | |done].
    + rewrite Hst. unfold as_role. destruct (downcast_instance _ i); cbn; split_and!; try done; rewrite lookup_insert_eq; by eexists.
    + by split_and!.
    + by split_and!.
Qed.
End Dispatch.

(** ** Examples *)

(** A handler of the demo app's controller with a guard of its controller's and two of its own, an
    interceptor, and two error handlers. *)
Definition Intercepting : TypeName := type_of 18 "dyn http::Interceptor".
Definition Rescue : TypeName := type_of 19 "dyn http::ErrorHandler".

Definition demo_roles : TransportRoles :=
  {| tr_guard := key_of Guard; tr_interceptor := key_of Intercepting; tr_error_handler := key_of Rescue; tr_builds_controller := true |}.

Definition no_spec : EnhancerSpec := {| sp_guards := []; sp_interceptors := []; sp_error_handlers := [] |}.

Definition demo_mounted (guards : list Decl) : MountedHandler := {|
  mh_module := 2; mh_controller := key_of Api;
  mh_controller_spec := {| sp_guards := [DeclValue 1601]; sp_interceptors := [DeclValue 1801]; sp_error_handlers := [DeclValue 1901] |};
  mh_method_spec := {| sp_guards := guards; sp_interceptors := []; sp_error_handlers := [DeclValue 1902] |};
  mh_info := 5 |}.

Definition mapped : DispatchError := UserError {| be_messages := [str_of "mapped"]; be_permanent := false |}.

(** Guard 1602 refuses, 1603 panics, the rest admit; the handler replies 200; the method's error
    handler hands on an error of its own and the controller's claims it. *)
#[export] Instance demo_enhancers : Enhancers unit := {|
  en_name := λ guard, "app::Auth"%string;
  can_activate := λ guard x w, Some (x, w, if bool_decide (guard = 1603) then Panic (str_of "guard") else Ok (negb (bool_decide (guard = 1602))));
  intercept_before := λ i x w, Some (x, w, Ok (inr i));
  intercept_after := λ i a x w, Some (x, w, match a with inl reply => Ok reply | inr e => Err e end);
  handle_error := λ h e x w, Some (x, w, if bool_decide (h = 1902) then Err (mapped) else Ok 403);
  call_handler := λ x w, Some (x, w, Ok 200);
  cl_body := λ _, BEnd (inl (inr 1600)) |}.

Definition demo_start : PipeState unit := {|
  ps_exec := seed (exec_open true 0 None None) 13 1399; ps_closures := ∅; ps_world := tt; ps_log := [] |}.

Definition demo_dispatch (h : MountedHandler) : option (PipeState unit * Ending Handle) :=
  dispatch demo_graph (wk_store demo_walk) (phase_cell_new Running) 6 demo_roles h demo_start.

Definition admitting : MountedHandler := demo_mounted [].
Definition refusing : MountedHandler := demo_mounted [DeclValue 1602; DeclValue 1603].

Definition admitting_end : PipeState unit := match demo_dispatch admitting with Some (s, _) => s | None => demo_start end.
Definition refusing_end : PipeState unit := match demo_dispatch refusing with Some (s, _) => s | None => demo_start end.

Lemma demo_admitted : dispatch demo_graph (wk_store demo_walk) (phase_cell_new Running) 6 demo_roles admitting demo_start = Some (admitting_end, Ok 200).
Proof. vm_compute. reflexivity. Qed.

Lemma demo_refused : dispatch demo_graph (wk_store demo_walk) (phase_cell_new Running) 6 demo_roles refusing demo_start = Some (refusing_end, Ok 403).
Proof. vm_compute. reflexivity. Qed.

Example refused_log : ps_log refusing_end =
  [EvGuard (ControllerTier, 0); EvAnswered (ControllerTier, 0) (Ok true); EvGuard (MethodTier, 0); EvAnswered (MethodTier, 0) (Ok false);
   EvOffer (MethodTier, 0) (GuardRejected "app::Auth"); EvHandled (MethodTier, 0) (GuardRejected "app::Auth") (Err (mapped));
   EvOffer (ControllerTier, 0) (mapped); EvHandled (ControllerTier, 0) (mapped) (Ok 403)].
Proof. vm_compute. reflexivity. Qed.

Lemma guards_gate_example :
  (∃ rest, ps_log refusing_end = (admitted (guard_places demo_graph demo_roles refusing) ++ rest)%list ∧ Forall (λ e, guard_event e = false) rest)
  ∨ ∃ stopped offers, ps_log refusing_end = (stopped ++ offers)%list ∧ Forall (λ e, offer_event e = true) offers
    ∧ (stopped = [] ∨ ∃ k p tail, guard_places demo_graph demo_roles refusing !! k = Some p
        ∧ stopped = (admitted (take k (guard_places demo_graph demo_roles refusing)) ++ tail)%list ∧ stopped_at p tail).
Proof. exact (guards_gate demo_graph (wk_store demo_walk) (phase_cell_new Running) 6 demo_roles refusing demo_start refusing_end (Ok 403) eq_refl demo_refused). Defined.

Lemma handler_runs_once_example : calls (ps_log admitting_end) ≤ 1 ∧ EvCall ∈ ps_log admitting_end.
Proof.
  split; [|apply call_in; vm_compute; constructor].
  exact (proj1 (handler_runs_once demo_graph (wk_store demo_walk) (phase_cell_new Running) 6 demo_roles admitting demo_start admitting_end (Ok 200) eq_refl demo_admitted)).
Defined.

Lemma errors_offered_in_order_example : ∃ s1 e offers,
  attempted demo_graph (wk_store demo_walk) (phase_cell_new Running) 6 demo_roles refusing demo_start = Some (s1, Err e)
  ∧ e = GuardRejected "app::Auth" ∧ ps_log refusing_end = (ps_log s1 ++ offers)%list
  ∧ claimed demo_graph (wk_store demo_walk) (phase_cell_new Running) 6 demo_roles (Some refusing) (mh_module refusing) e offers (Ok 403).
Proof.
  destruct (errors_offered_in_order demo_graph (wk_store demo_walk) (phase_cell_new Running) 6 demo_roles refusing demo_start refusing_end (Ok 403) eq_refl demo_refused)
    as (_ & s1 & a & E & _ & H).
  pose proof E as E'. vm_compute in E'. injection E' as Es Ea. subst a. destruct H as (offers & Hl & Hc). exists s1, (GuardRejected "app::Auth"), offers. split_and!; done.
Defined.

Lemma demo_injectable : injectable demo_graph.
Proof. exact (wire_injectable demo_identity demo_settings demo_register demo_core 4 AppModule demo_env None demo_graph demo_keeps demo_wired). Qed.

Definition panicking : MountedHandler := demo_mounted [DeclValue 1603].

Lemma dispatch_answers_example : ∃ s' out,
  dispatch demo_graph (wk_store demo_walk) (phase_cell_new Running) 6 demo_roles panicking demo_start = Some (s', out) ∧ no_panic out.
Proof.
  apply (dispatch_answers demo_graph (wk_store demo_walk) (phase_cell_new Running) 6 demo_roles panicking demo_start demo_injectable demo_records).
  - apply Nat.ltb_lt. vm_compute. reflexivity.
  - split; intros; eexists; reflexivity.
Defined.

(** Another execution, without the request. *)
Definition opened_late : ExecState := set_late (exec_open false 1 None None).

(** A graph whose closure 9 is built once. *)
Definition closure_graph : Graph := set_closures demo_graph {[9 := ESingleton]}.

Lemma once_built_outside_calls_example :
  match build_closure closure_graph (wk_store demo_walk) (phase_cell_new Running) 6 2 (key_of Guard) {| cl_id := 9; cl_build := 1 |} demo_start,
        build_closure closure_graph (wk_store demo_walk) (phase_cell_new Running) 6 2 (key_of Guard) {| cl_id := 9; cl_build := 1 |} (set_exec demo_start opened_late) with
  | Some (s', a), Some (t', b) =>
      a = b ∧ ps_closures s' = ps_closures t' ∧ ps_exec s' = ps_exec demo_start ∧ ps_exec t' = opened_late
      ∧ ∀ i, a = Ok i → is_Some (ps_closures s' !! 9)
  | None, None => True
  | _, _ => False
  end.
Proof.
  apply (once_built_outside_calls closure_graph (wk_store demo_walk) (phase_cell_new Running) 6 2 (key_of Guard) {| cl_id := 9; cl_build := 1 |} demo_start (set_exec demo_start opened_late)).
  - vm_compute. reflexivity.
  - reflexivity.
Defined.
