(* ===== verification/Config.v ===== *)
(** * Config: the layered configuration tree

    [ulo-config]: the origin-carrying tree and its merge ([tree.rs]), the sources and their layers
    ([source.rs], less the readers of TOML, JSON and YAML, which are other crates' parsers), the
    [.env] parser ([format/dotenv.rs]), positions in a file ([format/mod.rs]), problems
    ([problems.rs]), the loaded configuration ([config.rs]), the driver of a typed read and its
    scrub ([de.rs]) and the unread-key check ([module.rs]). A type's own [Deserialize] is a
    parameter of the read: what one pass over the tree answers. *)

From S2P Require Import Prelude Text.
Local Open Scope nat_scope.
Local Open Scope list_scope.
#[local] Set Warnings "-register-all".

(** ** The tree *)

Inductive Origin :=
  | OFile (path : str) (line column : N)
  | OVariable (name : str)
  | OExplicit (key : str)
  | ODefault.

(** A float is opaque. A [Node] is its value and its origin. *)
Inductive Value :=
  | VNull
  | VBool (b : bool)
  | VInteger (n : Z)
  | VFloat (f : nat)
  | VString (s : str)
  | VText (s : str)
  | VArray (items : list (Value * Origin))
  | VTable (entries : list (str * (Value * Origin))).

Definition Node : Type := Value * Origin.

Abbreviation Tree := (option Node).

(** [iter().find(..)] on the entries of a table. *)
Fixpoint entry_of (key : str) (entries : list (str * Node)) : option Node :=
  match entries with
  | [] => None
  | (k, n) :: entries => if bool_decide (k = key) then Some n else entry_of key entries
  end.

(** The first entry of [key] changed by [f], or [(key, new)] pushed. *)
Fixpoint upsert (key : str) (f : Node → Node) (new : Node) (entries : list (str * Node)) : list (str * Node) :=
  match entries with
  | [] => [(key, new)]
  | (k, n) :: entries => if bool_decide (k = key) then (k, f n) :: entries else (k, n) :: upsert key f new entries
  end.

(** [merge]: the upper node, [(value, origin)], over a base. *)
Fixpoint merge (value : Value) (origin : Origin) (base : Node) : Node :=
  match value, base with
  | VTable upper, (VTable entries, o) =>
      (VTable ((fix over (upper : list (str * (Value * Origin))) (entries : list (str * Node)) : list (str * Node) :=
         match upper with
         | [] => entries
         | (key, (v, vo)) :: upper => over upper (upsert key (merge v vo) (v, vo) entries)
         end) upper entries), o)
  | _, _ => (value, origin)
  end.

Definition overlay (t upper : Tree) : Tree :=
  match upper, t with
  | None, _ => t
  | Some (v, o), Some base => Some (merge v o base)
  | Some u, None => Some u
  end.

Definition is_table (n : Node) : bool := match n.1 with VTable _ => true | _ => false end.

Definition empty_table (o : Origin) : Node := (VTable [], o).

Fixpoint set_in (table : Node) (segments : list str) (node : Node) : Node :=
  match table, segments with
  | (VTable entries, o), first :: rest =>
      match rest with
      | [] => (VTable (upsert first (λ _, node) node entries), o)
      | _ =>
          (VTable (upsert first (λ child, set_in (if is_table child then child else empty_table node.2) rest node)
                          (set_in (empty_table node.2) rest node) entries), o)
      end
  | _, _ => table
  end.

Definition tree_set (t : Tree) (segments : list str) (node : Node) : Tree :=
  match segments with
  | [] => t
  | _ =>
      let root := match t with Some root => root | None => empty_table node.2 end in
      let root := if is_table root then root else (VTable [], root.2) in
      Some (set_in root segments node)
  end.

Definition dot : ascii := "."%char.
Definition bracket : ascii := "["%char.
Definition bracket_end : ascii := "]"%char.

(** [str::parse::<usize>], on 64 bits. *)
Fixpoint digits_value (acc : N) (s : str) : option N :=
  match s with
  | [] => Some acc
  | c :: s =>
      if is_ascii_digit c then
        let acc := (10 * acc + N.of_nat (nat_of_ascii c - 48))%N in
        if bool_decide (acc < 2 ^ 64)%N then digits_value acc s else None
      else None
  end.

Definition parse_usize (s : str) : option N :=
  let s := match s with "+"%char :: s => s | _ => s end in
  match s with [] => None | _ => digits_value 0 s end.

Definition item_of (n : Node) (index : N) : option Node :=
  match n.1 with
  | VArray items => if bool_decide (index < N.of_nat (length items))%N then items !! N.to_nat index else None
  | _ => None
  end.

(** The [while] over the indexes after a name; a round takes two characters at least. *)
Fixpoint index_loop (fuel : nat) (n : Node) (indexes : str) : option Node :=
  match indexes with
  | [] => Some n
  | c :: rest =>
      match fuel with
      | 0 => None
      | S fuel =>
          if bool_decide (c = bracket) then
            match split_once bracket_end rest with
            | Some (digits, indexes) =>
                match parse_usize digits with
                | Some index => match item_of n index with Some n => index_loop fuel n indexes | None => None end
                | None => None
                end
            | None => None
            end
          else None
      end
  end.

Definition named_child (n : Node) (name : str) : option Node :=
  match name with
  | [] => Some n
  | _ => match n.1 with VTable entries => entry_of name entries | _ => None end
  end.

Definition get_segment (n : Node) (segment : str) : option Node :=
  let '(name, indexes) := match find_char bracket segment with
                          | Some i => (take i segment, drop i segment)
                          | None => (segment, [])
                          end in
  match named_child n name with
  | Some n => index_loop (length indexes) n indexes
  | None => None
  end.

Definition tree_get (t : Tree) (path : str) : option Node :=
  match t with
  | None => None
  | Some root =>
      match path with
      | [] => Some root
      | _ => foldl (λ on segment, on ≫= λ n, get_segment n segment) (Some root) (split_on dot path)
      end
  end.

Definition join_key (parent key : str) : str := match parent with [] => key | _ => parent ++ dot :: key end.

Definition join_index (parent : str) (index : nat) : str := parent ++ bracket :: str_of (decimal index) ++ [bracket_end].

Fixpoint collect (value : Value) (origin : Origin) (path : str) : list (str * Node) :=
  match value with
  | VTable entries =>
      (fix go (entries : list (str * (Value * Origin))) :=
         match entries with
         | [] => []
         | (key, (v, o)) :: entries => collect v o (join_key path key) ++ go entries
         end) entries
  | VArray items =>
      (fix go (index : nat) (items : list (Value * Origin)) :=
         match items with
         | [] => []
         | (v, o) :: items => collect v o (join_index path index) ++ go (S index) items
         end) 0 items
  | _ => [(path, (value, origin))]
  end.

Definition tree_leaves (t : Tree) : list (str * Node) := match t with Some (v, o) => collect v o [] | None => [] end.

(** ** Problems *)

Record Problem := { pb_path : str; pb_origin : option Origin; pb_message : str; pb_flattened : bool; pb_truncated : bool }.

Abbreviation Problems := (list Problem).

Definition problem_at (path message : str) : Problem :=
  {| pb_path := path; pb_origin := None; pb_message := message; pb_flattened := false; pb_truncated := false |}.

Definition problem_at_origin (path : str) (origin : Origin) (message : str) : Problem :=
  {| pb_path := path; pb_origin := Some origin; pb_message := message; pb_flattened := false; pb_truncated := false |}.

(** ** Text *)

(** The UTF-8 encodings of the characters [char::is_whitespace] holds for. *)
Definition bytes_of (ns : list nat) : str := ascii_of_nat <$> ns.

Definition whitespaces : list str :=
  bytes_of <$> ([[9]; [10]; [11]; [12]; [13]; [32]; [194; 133]; [194; 160]; [225; 154; 128]]
    ++ ((λ n, [226; 128; n]) <$> seq 128 11) ++ [[226; 128; 168]; [226; 128; 169]; [226; 128; 175]; [226; 129; 159]; [227; 128; 128]]).

(** The whitespace character [s] starts with, removed. *)
Definition strip_space (s : str) : option str := find_map (λ w, strip_prefix w s) whitespaces.

Fixpoint trim_start_on (fuel : nat) (s : str) : str :=
  match fuel with
  | 0 => s
  | S fuel => match strip_space s with Some s => trim_start_on fuel s | None => s end
  end.

Definition trim_start (s : str) : str := trim_start_on (length s) s.

Definition strip_space_end (s : str) : option str := find_map (λ w, strip_suffix w s) whitespaces.

Fixpoint trim_end_on (fuel : nat) (s : str) : str :=
  match fuel with
  | 0 => s
  | S fuel => match strip_space_end s with Some s => trim_end_on fuel s | None => s end
  end.

Definition trim_end (s : str) : str := trim_end_on (length s) s.

Definition trim (s : str) : str := trim_end (trim_start s).

Definition starts_with_space (s : str) : bool := bool_decide (is_Some (strip_space s)).

Definition newline : ascii := ascii_of_nat 10.
Definition carriage_return : ascii := ascii_of_nat 13.

Definition line_of (s : str) : str := default s (strip_suffix [carriage_return] s).

(** [str::lines]: a last line with no newline after it keeps a carriage return. *)
Fixpoint lines_of (pieces : list str) : list str :=
  match pieces with
  | [] => []
  | [last] => match last with [] => [] | _ => [last] end
  | piece :: pieces => line_of piece :: lines_of pieces
  end.

Definition lines (s : str) : list str := lines_of (split_on newline s).

(** ** The .env parser *)

(** [u32::try_from(n).unwrap_or(u32::MAX)]. *)
Definition to_u32 (n : nat) : N := N.min (N.of_nat n) (2 ^ 32 - 1).

Record EnvEntry := { ee_key : str; ee_value : str; ee_line : N }.

Definition valid_key (key : str) : bool :=
  match key with
  | [] => false
  | _ => forallb (λ c, is_ascii_alphanumeric c || bool_decide (c ∈ ["_"; "."; "-"]%char)) key
  end.

Definition quote : ascii := "'"%char.
Definition double_quote : ascii := ascii_of_nat 34.
Definition backslash : ascii := "\"%char.
Definition hash : ascii := "#"%char.

(** What may follow a closing quote. *)
Definition after_quote (tail : str) : bool :=
  match trim_start tail with
  | [] => true
  | c :: _ as trimmed => bool_decide (c = hash) && negb (bool_decide (length trimmed = length tail))
  end.

Inductive ValueError := SingleNotClosed | DoubleNotClosed | BadEscape | TextAfterQuote.

(** The loop over the body of a double-quoted value; an ASCII byte is a character. *)
Fixpoint double_quoted (body out : str) : ValueError + str :=
  match body with
  | [] => inl DoubleNotClosed
  | c :: body =>
      if bool_decide (c = double_quote) then (if after_quote body then inr out else inl TextAfterQuote)
      else if bool_decide (c = backslash) then
        match body with
        | [] => inl DoubleNotClosed
        | e :: body =>
            if bool_decide (e = "n"%char) then double_quoted body (out ++ [newline])
            else if bool_decide (e = double_quote) then double_quoted body (out ++ [double_quote])
            else if bool_decide (e = backslash) then double_quoted body (out ++ [backslash])
            else inl BadEscape
        end
      else double_quoted body (out ++ [c])
  end.

(** The characters before a comment; [skip] bytes are the rest of a whitespace character. *)
Fixpoint before_comment (previous_space : bool) (skip : nat) (s : str) : str :=
  match s with
  | [] => []
  | c :: t =>
      match skip with
      | S skip => c :: before_comment previous_space skip t
      | 0 =>
          if bool_decide (c = hash) && previous_space then []
          else match strip_space s with
               | Some rest => c :: before_comment true (length t - length rest) t
               | None => c :: before_comment false 0 t
               end
      end
  end.

Definition parse_value (rest : str) : ValueError + str :=
  let trimmed := trim_start rest in
  match strip_prefix [quote] trimmed with
  | Some body =>
      match split_once quote body with
      | Some (value, tail) => if after_quote tail then inr value else inl TextAfterQuote
      | None => inl SingleNotClosed
      end
  | None =>
      match strip_prefix [double_quote] trimmed with
      | Some body => double_quoted body []
      | None => inr (trim (before_comment (starts_with_space rest) 0 rest))
      end
  end.

(** Why a line is refused; a repeated key with both lines. *)
Inductive EnvProblem :=
  | ExpectedKeyValue (line : N)
  | BadKey (line : N)
  | BadValue (key : str) (line : N) (e : ValueError)
  | WrittenTwice (key : str) (first line : N).

Definition without_export (content : str) : str :=
  match strip_prefix (str_of "export") content with
  | Some rest => match rest with
                 | c :: _ => if bool_decide (c = " "%char) || bool_decide (c = ascii_of_nat 9) then trim_start rest else content
                 | [] => content
                 end
  | None => content
  end.

(** One line: nothing, an entry or a problem. *)
Definition read_line (line : N) (raw : str) : option (EnvProblem + (str * str)) :=
  let content := trim_start raw in
  match content with
  | [] => None
  | c :: _ =>
      if bool_decide (c = hash) then None
      else match split_once "="%char (without_export content) with
           | None => Some (inl (ExpectedKeyValue line))
           | Some (key, rest) =>
               let key := trim_end key in
               if negb (valid_key key) then Some (inl (BadKey line))
               else match parse_value rest with
                    | inl e => Some (inl (BadValue key line e))
                    | inr value => Some (inr (key, value))
                    end
           end
  end.

Record EnvState := { es_entries : list EnvEntry; es_problems : list EnvProblem }.

(** The line of the entry of [key] among those read, which is what [first_seen] holds. *)
Definition first_seen (s : EnvState) (key : str) : option N :=
  ee_line <$> find_first (λ e, bool_decide (ee_key e = key)) (es_entries s).

Definition dotenv_line (s : EnvState) (line : N) (raw : str) : EnvState :=
  match read_line line raw with
  | None => s
  | Some (inl p) => {| es_entries := es_entries s; es_problems := es_problems s ++ [p] |}
  | Some (inr (key, value)) =>
      match first_seen s key with
      | Some first => {| es_entries := es_entries s; es_problems := es_problems s ++ [WrittenTwice key first line] |}
      | None => {| es_entries := es_entries s ++ [{| ee_key := key; ee_value := value; ee_line := line |}]; es_problems := es_problems s |}
      end
  end.

(** The loop of [dotenv::parse] from line [index + 1] on. *)
Fixpoint dotenv_lines (s : EnvState) (index : nat) (raws : list str) : EnvState :=
  match raws with
  | [] => s
  | raw :: raws => dotenv_lines (dotenv_line s (to_u32 (S index)) raw) (S index) raws
  end.

Definition dotenv_parse (text : str) : list EnvProblem + list EnvEntry :=
  let s := dotenv_lines {| es_entries := []; es_problems := [] |} 0 (lines text) in
  match es_problems s with [] => inr (es_entries s) | ps => inl ps end.

Definition value_error_text (e : ValueError) : string :=
  match e with
  | SingleNotClosed => "single quote is not closed"
  | DoubleNotClosed => "double quote is not closed"
  | BadEscape => string_of (str_of "escape is not one of \n, \" ++ [double_quote] ++ str_of " and \\")
  | TextAfterQuote => "unexpected text after the closing quote"
  end.

(** The problem of a refused line, as it is reported. *)
Definition env_problem (file : str) (p : EnvProblem) : Problem :=
  let origin line := OFile file line 0 in
  match p with
  | ExpectedKeyValue line => problem_at_origin [] (origin line) (str_of "expected KEY=VALUE")
  | BadKey line =>
      problem_at_origin [] (origin line) (str_of "the key may hold only letters, digits, `_`, `.` and `-`, and may not be empty")
  | BadValue key line e => problem_at_origin key (origin line) (str_of (value_error_text e))
  | WrittenTwice key first line =>
      problem_at_origin key (origin line)
        (str_of "key is written twice, at lines " ++ str_of (decimal (N.to_nat first)) ++ str_of " and " ++ str_of (decimal (N.to_nat line)))
  end.

(** ** Sources *)

Record SourceFailure := { sf_source : str; sf_problems : Problems }.

Record Layer := { ly_tree : Tree; ly_failures : list SourceFailure; ly_defaults : bool }.

Definition layer_of (t : Tree) : Layer := {| ly_tree := t; ly_failures := []; ly_defaults := false |}.

Definition layer_failed_with (source : str) (ps : Problems) : Layer :=
  {| ly_tree := None; ly_failures := [{| sf_source := source; sf_problems := ps |}]; ly_defaults := false |}.

Definition layer_failed (source message : str) : Layer := layer_failed_with source [problem_at [] message].

(** What reading a file answers: the text of a file that is not valid UTF-8 is not one. *)
Inductive FileRead :=
  | FileText (text : str)
  | FileNotFound
  | FileUnreadable (error : str)
  | FileNotUtf8.

Definition byte_order_mark : str := bytes_of [239; 187; 191].

(** [read_text]. *)
Definition read_text (name : str) (optional : bool) (file : FileRead) : Layer + str :=
  match file with
  | FileNotFound => inl (if optional then layer_of None else layer_failed name (str_of "file not found"))
  | FileUnreadable error => inl (layer_failed name (str_of "file cannot be read: " ++ error))
  | FileNotUtf8 => inl (layer_failed name (str_of "file is not valid UTF-8"))
  | FileText text => inr (default text (strip_prefix byte_order_mark text))
  end.

(** [str::split] with a [&str] pattern that is not empty. *)
Fixpoint split_text_on (fuel : nat) (sep s piece : str) : list str :=
  match fuel with
  | 0 => [piece]
  | S fuel =>
      match strip_prefix sep s with
      | Some rest => piece :: split_text_on fuel sep rest []
      | None => match s with [] => [piece] | c :: s => split_text_on fuel sep s (piece ++ [c]) end
      end
  end.

Definition split_text (sep s : str) : list str := split_text_on (S (length s)) sep s [].

Definition nonempty (s : str) : bool := match s with [] => false | _ => true end.

Inductive Scalar := SBool (b : bool) | SInteger (n : Z) | SFloat (f : nat) | SString (s : str).

(** [serde_json::Value]. *)
Inductive Json :=
  | JNull
  | JBool (b : bool)
  | JInteger (n : Z)
  | JFloat (f : nat)
  | JString (s : str)
  | JArray (items : list Json)
  | JObject (entries : list (str * Json)).

Fixpoint default_node (j : Json) : Node :=
  let value := match j with
    | JNull => VNull
    | JBool b => VBool b
    | JInteger n => VInteger n
    | JFloat f => VFloat f
    | JString s => VString s
    | JArray items => VArray (default_node <$> items)
    | JObject entries => VTable ((λ e : str * Json, (e.1, default_node e.2)) <$> entries)
    end in
  (value, ODefault).

(** [TypeDefaults]: the value or why it cannot be written, and the path. *)
Record TypeDefaults := { td_value : str + Json; td_path : list str }.

Definition segments_of_path (path : str) : list str := filterb nonempty (split_on dot path).

Definition defaults_at (d : TypeDefaults) (path : str) : TypeDefaults := {| td_value := td_value d; td_path := segments_of_path path |}.

Inductive Format := FormatToml | FormatJson | FormatYaml.

Inductive Source :=
  | SDefaults
  | STypeDefaults (d : TypeDefaults)
  | SFile (name : str) (format : Format) (optional : bool)
  | SDotEnv (name : str) (optional : bool) (prefix : option str) (separator : str)
  | SEnv (vars : list (str * str)) (prefix : option str) (separator : str)
  | SValues (entries : list (str * Scalar)).

Section Sources.
(** Case mapping is the standard library's Unicode tables; the other formats' parsers and the file
    system are outside the crate. *)
Context (to_lowercase : str → str) (parse_format : Format → str → str → Problems + Tree) (read_file : str → FileRead).

(** [segments]: the path a variable's name stands for. *)
Definition segments (name : str) (prefix : option str) (separator : str) : option (list str) :=
  match (match prefix with Some prefix => strip_prefix prefix name | None => Some name end) with
  | None => None
  | Some rest =>
      let segments := match separator with
        | [] => [to_lowercase rest]
        | _ => to_lowercase <$> filterb nonempty (split_text separator rest)
        end in
      if forallb (λ s, negb (nonempty s)) segments then None else Some segments
  end.

Definition scalar_value (s : Scalar) : Value :=
  match s with SBool b => VBool b | SInteger n => VInteger n | SFloat f => VFloat f | SString s => VString s end.

(** The loops of the sources that set one value after another. *)
Definition set_named (prefix : option str) (separator : str) (t : Tree) (name : str) (node : Node) : Tree :=
  match segments name prefix separator with Some path => tree_set t path node | None => t end.

Definition env_tree (vars : list (str * str)) (prefix : option str) (separator : str) : Tree :=
  foldl (λ t '(name, value), set_named prefix separator t name (VText value, OVariable name)) None vars.

Definition dotenv_tree (name : str) (prefix : option str) (separator : str) (entries : list EnvEntry) : Tree :=
  foldl (λ t e, set_named prefix separator t (ee_key e) (VText (ee_value e), OFile name (ee_line e) 0)) None entries.

Definition values_tree (entries : list (str * Scalar)) : Tree :=
  foldl (λ t '(key, scalar), tree_set t (segments_of_path key) (scalar_value scalar, OExplicit key)) None entries.

(** [Source::read] of each. *)
Definition source_read (s : Source) : Layer :=
  match s with
  | SDefaults => {| ly_tree := None; ly_failures := []; ly_defaults := true |}
  | STypeDefaults d =>
      match td_value d with
      | inl message => layer_failed (str_of "default") message
      | inr value =>
          let node := default_node value in
          layer_of (match td_path d with [] => Some node | path => tree_set None path node end)
      end
  | SFile name format optional =>
      match read_text name optional (read_file name) with
      | inl layer => layer
      | inr text => match parse_format format text name with inr t => layer_of t | inl ps => layer_failed_with name ps end
      end
  | SDotEnv name optional prefix separator =>
      match read_text name optional (read_file name) with
      | inl layer => layer
      | inr text =>
          match dotenv_parse text with
          | inr entries => layer_of (dotenv_tree name prefix separator entries)
          | inl ps => layer_failed_with name (env_problem name <$> ps)
          end
      end
  | SEnv vars prefix separator => layer_of (env_tree vars prefix separator)
  | SValues entries => layer_of (values_tree entries)
  end.

(** ** The loaded configuration *)

Record Loaded := { ld_tree : Tree; ld_failures : list SourceFailure; ld_defaults : bool; ld_consumed : gset str }.

Definition load_layer (l : Loaded) (layer : Layer) : Loaded := {|
  ld_tree := overlay (ld_tree l) (ly_tree layer);
  ld_failures := ld_failures l ++ ly_failures layer;
  ld_defaults := ld_defaults l || ly_defaults layer;
  ld_consumed := ld_consumed l |}.

(** [ConfigBuilder::load]. *)
Definition load (sources : list Source) : Loaded :=
  foldl (λ l s, load_layer l (source_read s)) {| ld_tree := None; ld_failures := []; ld_defaults := false; ld_consumed := ∅ |} sources.
End Sources.

Definition mark_consumed (l : Loaded) (paths : gset str) : Loaded :=
  {| ld_tree := ld_tree l; ld_failures := ld_failures l; ld_defaults := ld_defaults l; ld_consumed := ld_consumed l ∪ paths |}.

Definition unread (l : Loaded) : list (str * Origin) :=
  (λ e : str * Node, (e.1, e.2.2)) <$> filterb (λ e : str * Node, negb (bool_decide (e.1 ∈ ld_consumed l))) (tree_leaves (ld_tree l)).

(** [check_unread]: the problems it refuses with. *)
Definition check_unread (l : Loaded) (deny : bool) : Problems :=
  if deny then (λ e : str * Origin, problem_at_origin e.1 e.2 (str_of "no module reads this key")) <$> unread l else [].

(** ** A typed read *)

(** [str::contains] with a [&str] pattern, and [chars().count()]. *)
Fixpoint contains_text (t s : str) : bool :=
  starts_with t s || match s with [] => false | _ :: s => contains_text t s end.

Definition is_continuation (c : ascii) : bool := let n := nat_of_ascii c in (128 <=? n) && (n <=? 191).

Definition char_count (s : str) : nat := length (filterb (λ c, negb (is_continuation c)) s).

Definition MIN_SCRUBBED : nat := 4.

(** The elements of a [BTreeSet<String>], in order. *)
Definition in_order (texts : gset str) : list str := merge_sort (λ a b, Is_true (str_leb a b)) (elements texts).

Definition scrubs (texts : gset str) (message : str) : bool :=
  existsb (λ text, (MIN_SCRUBBED <=? char_count text) && contains_text text message) (in_order texts).

Definition INVALID_VALUE : str := str_of "invalid value".

Definition scrub_problem (texts : gset str) (p : Problem) : Problem :=
  {| pb_path := pb_path p; pb_origin := pb_origin p;
     pb_message := if scrubs texts (pb_message p) then INVALID_VALUE else pb_message p;
     pb_flattened := pb_flattened p; pb_truncated := pb_truncated p |}.

Definition scrub (ps : Problems) (texts : gset str) : Problems := scrub_problem texts <$> ps.

Definition truncation_notice (count : nat) : Problem :=
  {| pb_path := []; pb_origin := None;
     pb_message := str_of "the report stopped after " ++ str_of (decimal count) ++ str_of " problems; fix these and read again";
     pb_flattened := false; pb_truncated := true |}.

Record DeError := { de_message : str; de_recorded : bool }.

Record NewPatch := { np_parent : str; np_field : str; np_problem : option Problem }.

(** What one pass of a type's [Deserialize] over the tree leaves: its result, the texts of the
    secrets it met, the paths it read, the field it found missing, the section that failed with
    where its problems begin, and its problems. *)
Record PassEnd (T : Type) := {
  pe_result : DeError + T;
  pe_texts : gset str;
  pe_consumed : gset str;
  pe_patch : option NewPatch;
  pe_failed : option (str * nat);
  pe_problems : Problems;
}.
Arguments pe_result {T} _.
Arguments pe_texts {T} _.
Arguments pe_consumed {T} _.
Arguments pe_patch {T} _.
Arguments pe_failed {T} _.
Arguments pe_problems {T} _.

Definition MAX_PASSES : N := 2048.

Section Read.
Context {T : Type} (pass : list (str * str) → gset str → PassEnd T) (l : Loaded) (path : str).

(** The locals of [section]. *)
Record Reading := {
  rd_patches : list (str * str);
  rd_missing : Problems;
  rd_texts : gset str;
  rd_consumed : gset str;
  rd_value : option T;
  rd_found : Problems;
  rd_skipped : gset str;
  rd_held : Problems;
  rd_settled : bool;
}.

Definition reading_start : Reading :=
  {| rd_patches := []; rd_missing := []; rd_texts := ∅; rd_consumed := ∅; rd_value := None; rd_found := []; rd_skipped := ∅; rd_held := []; rd_settled := false |}.

Definition known_patch (r : Reading) (p : NewPatch) : bool := bool_decide ((np_parent p, np_field p) ∈ rd_patches r).

Definition unrecorded (p : str) (origin : option Origin) (e : DeError) : Problems :=
  if de_recorded e then [] else [{| pb_path := p; pb_origin := origin; pb_message := de_message e; pb_flattened := false; pb_truncated := false |}].

(** What every pass adds. *)
Definition pass_seen (r : Reading) (p : PassEnd T) : Reading :=
  {| rd_patches := rd_patches r; rd_missing := rd_missing r; rd_texts := rd_texts r ∪ pe_texts p; rd_consumed := rd_consumed r ∪ pe_consumed p;
     rd_value := rd_value r; rd_found := rd_found r; rd_skipped := rd_skipped r; rd_held := rd_held r; rd_settled := rd_settled r |}.

(** A section set aside with its problems. *)
Definition set_aside (r : Reading) (section : str) (problems : Problems) : Reading :=
  {| rd_patches := rd_patches r; rd_missing := rd_missing r; rd_texts := rd_texts r; rd_consumed := rd_consumed r; rd_value := rd_value r;
     rd_found := rd_found r; rd_skipped := rd_skipped r ∪ {[section]}; rd_held := rd_held r ++ problems; rd_settled := rd_settled r |}.

Definition add_patch (r : Reading) (p : NewPatch) : Reading :=
  {| rd_patches := rd_patches r ++ [(np_parent p, np_field p)]; rd_missing := rd_missing r ++ option_list (np_problem p); rd_texts := rd_texts r;
     rd_consumed := rd_consumed r; rd_value := rd_value r; rd_found := rd_found r; rd_skipped := rd_skipped r; rd_held := rd_held r; rd_settled := rd_settled r |}.

Definition settle (r : Reading) (value : option T) (found missing : Problems) : Reading :=
  {| rd_patches := rd_patches r; rd_missing := rd_missing r ++ missing; rd_texts := rd_texts r; rd_consumed := rd_consumed r; rd_value := value;
     rd_found := found; rd_skipped := rd_skipped r; rd_held := rd_held r; rd_settled := true |}.

(** One turn of the loop: the state, and whether it goes on. *)
Definition pass_turn (last : bool) (r : Reading) : Reading * bool :=
  let p := pass (rd_patches r) (rd_skipped r) in
  let r := pass_seen r p in
  match pe_result p, pe_patch p with
  | inr done, patch => (settle r (Some done) (pe_problems p) (option_list (patch ≫= np_problem)), false)
  | inl e, None =>
      match pe_failed p with
      | Some (section, start) =>
          if last then (r, false)
          else (set_aside r section (drop start (pe_problems p) ++ unrecorded section (snd <$> tree_get (ld_tree l) section) e), true)
      | None => (settle r None (pe_problems p ++ unrecorded path (snd <$> tree_get (ld_tree l) path) e) [], false)
      end
  | inl e, Some patch =>
      if known_patch r patch then (settle r None (pe_problems p ++ unrecorded path (snd <$> tree_get (ld_tree l) path) e) [], false)
      else if last then (r, false)
      else (add_patch r patch, true)
  end.

(** The loop, with [turns] more after this one. *)
Fixpoint pass_loop (turns : nat) (r : Reading) : Reading :=
  match turns with
  | 0 => (pass_turn true r).1
  | S turns => let '(r, more) := pass_turn false r in if more then pass_loop turns r else r
  end.

(** The problems of the sources, each with an origin. *)
Definition failure_problems (f : SourceFailure) : Problems :=
  (λ p, {| pb_path := pb_path p; pb_origin := Some (default (OFile (sf_source f) 0 0) (pb_origin p)); pb_message := pb_message p;
           pb_flattened := false; pb_truncated := false |}) <$> sf_problems f.

Definition report (r : Reading) : Problems :=
  let ps := scrub ((ld_failures l ≫= failure_problems) ++ rd_held r ++ rd_found r ++ rd_missing r) (rd_texts r) in
  if rd_settled r then ps else ps ++ [truncation_notice (length ps)].

Record ConfigError := { ce_header : str; ce_problems : Problems }.

(** [section]: the outcome, the secrets and the loaded configuration after it. *)
Definition section : (ConfigError + T) * list str * Loaded :=
  let r := pass_loop (N.to_nat MAX_PASSES) reading_start in
  let problems := report r in
  let header := match path with [] => str_of "configuration is invalid" | _ => str_of "section `" ++ path ++ str_of "` is invalid" end in
  let outcome := match rd_value r, problems with
    | Some value, [] => inr value
    | None, [] => inl {| ce_header := header; ce_problems := [problem_at path (str_of "the section could not be read")] |}
    | _, _ => inl {| ce_header := header; ce_problems := problems |}
    end in
  (outcome, filterb nonempty (in_order (rd_texts r)), mark_consumed l (rd_consumed r)).
End Read.
