(* ===== verification/ConfigFacts.v ===== *)
(** * ConfigFacts: walks of the configuration tree and lines of a .env file

    What a merge and a set leave at every path of keys, the paths of leaves read back, and the
    problems a typed read reports. A line written with a double-quoted value is read back, and a file
    is accepted just when each of its lines is and no key is written twice. *)

From S2P Require Import Prelude Text Config.
Local Open Scope nat_scope.
Local Open Scope list_scope.

(** ** Induction on values *)

Section ValueInd.
Context (P : Value → Prop).
Context (Hleaf : ∀ v, (∀ items, v ≠ VArray items) → (∀ es, v ≠ VTable es) → P v).
Context (Harray : ∀ items, Forall (λ n : Node, P n.1) items → P (VArray items)).
Context (Htable : ∀ es, Forall (λ e : str * Node, P e.2.1) es → P (VTable es)).

Fixpoint value_nested (v : Value) : P v :=
  match v with
  | VArray items => Harray items ((fix go items : Forall (λ n : Node, P n.1) items :=
      match items with [] => Forall_nil_2 _ | n :: items => Forall_cons_2 (λ n : Node, P n.1) n items (value_nested n.1) (go items) end) items)
  | VTable es => Htable es ((fix go es : Forall (λ e : str * Node, P e.2.1) es :=
      match es with [] => Forall_nil_2 _ | e :: es => Forall_cons_2 (λ e : str * Node, P e.2.1) e es (value_nested e.2.1) (go es) end) es)
  | v' => Hleaf v' ltac:(done) ltac:(done)
  end.
End ValueInd.

(** ** Well-formed trees: no table holds a key twice *)

Fixpoint value_wf (v : Value) : Prop :=
  match v with
  | VArray items => (fix go (items : list (Value * Origin)) := match items with [] => True | n :: items => value_wf n.1 ∧ go items end) items
  | VTable es =>
      NoDup es.*1 ∧ (fix go (es : list (str * (Value * Origin))) := match es with [] => True | e :: es => value_wf e.2.1 ∧ go es end) es
  | _ => True
  end.

Lemma value_wf_table es : value_wf (VTable es) ↔ NoDup es.*1 ∧ Forall (λ e : str * Node, value_wf e.2.1) es.
Proof. simpl. f_equiv. induction es as [|e es IH]; [split; constructor|]. rewrite Forall_cons. by rewrite IH. Qed.

Lemma value_wf_array items : value_wf (VArray items) ↔ Forall (λ n : Node, value_wf n.1) items.
Proof. simpl. induction items as [|n items IH]; [split; constructor|]. rewrite Forall_cons. by rewrite IH. Qed.

Definition tree_wf (t : Tree) : Prop := match t with Some n => value_wf n.1 | None => True end.

(** ** Entries *)

Lemma entry_of_elem key es n : NoDup es.*1 → entry_of key es = Some n ↔ (key, n) ∈ es.
Proof.
  induction es as [|[k m] es IH]; simpl; [by rewrite elem_of_nil|]. rewrite NoDup_cons, elem_of_cons. intros [Hk Hes]. case_bool_decide as E; subst.
  - split; [intros [= ->]; by left|]. intros [[= ->]|Hin]; [done|]. destruct Hk. by apply (list_elem_of_fmap_2 fst) in Hin.
  - rewrite (IH Hes). naive_solver.
Qed.

Lemma entry_of_None key es : entry_of key es = None ↔ key ∉ es.*1.
Proof.
  induction es as [|[k m] es IH]; simpl; [by rewrite elem_of_nil; naive_solver|]. rewrite not_elem_of_cons. case_bool_decide; [naive_solver|]. rewrite IH. naive_solver.
Qed.

Lemma entry_of_in key es n : entry_of key es = Some n → (key, n) ∈ es.
Proof. induction es as [|[k m] es IH]; simpl; [done|]. case_bool_decide; subst; [intros [= ->]; left|right; auto]. Qed.

Lemma entry_upsert key' key f new es :
  entry_of key' (upsert key f new es) = if bool_decide (key' = key) then Some (match entry_of key es with Some n => f n | None => new end) else entry_of key' es.
Proof.
  induction es as [|[k n] es IH]; simpl.
  { destruct (decide (key = key')) as [->|]; [by rewrite !bool_decide_eq_true_2|]. by rewrite !bool_decide_eq_false_2 by congruence. }
  destruct (decide (k = key)) as [->|Hk].
  - rewrite (bool_decide_eq_true_2 (key = key)) by done. simpl. destruct (decide (key = key')) as [->|Hk']; [by rewrite !bool_decide_eq_true_2|].
    by rewrite !bool_decide_eq_false_2 by congruence.
  - rewrite (bool_decide_eq_false_2 (k = key)) by done. simpl. rewrite IH. destruct (decide (k = key')) as [->|Hk']; [|by rewrite (bool_decide_eq_false_2 (k = key'))].
    rewrite (bool_decide_eq_true_2 (key' = key')) by done. by rewrite (bool_decide_eq_false_2 (key' = key)).
Qed.

Lemma upsert_keys key f new es : (upsert key f new es).*1 = if bool_decide (key ∈ es.*1) then es.*1 else es.*1 ++ [key].
Proof.
  induction es as [|[k n] es IH]; csimpl; [done|].
  destruct (decide (k = key)) as [->|Hne].
  - rewrite (bool_decide_eq_true_2 (key = key)) by done. csimpl. by rewrite bool_decide_eq_true_2 by left.
  - rewrite (bool_decide_eq_false_2 (k = key)) by done. csimpl. rewrite IH.
    destruct (decide (key ∈ es.*1)) as [Hin|Hin].
    + rewrite !bool_decide_eq_true_2 by (done || by right). done.
    + rewrite !bool_decide_eq_false_2; [done|by rewrite not_elem_of_cons|done].
Qed.

Lemma upsert_Forall (P : Node → Prop) key f new es : P new → (∀ n, P n → P (f n)) → Forall (λ e : str * Node, P e.2) es → Forall (λ e : str * Node, P e.2) (upsert key f new es).
Proof.
  intros Hn Hf. induction es as [|[k n] es IH]; simpl; [by repeat constructor|]. rewrite Forall_cons. intros [H1 H2].
  case_bool_decide; constructor; simpl in *; auto.
Qed.

Lemma upsert_wf key f new es : value_wf (VTable es) → value_wf new.1 → (∀ n : Node, value_wf n.1 → value_wf (f n).1) → value_wf (VTable (upsert key f new es)).
Proof.
  rewrite !value_wf_table. intros [Hnd Hes] Hn Hf. split.
  - rewrite upsert_keys. case_bool_decide as Hk; [done|]. apply NoDup_app. split_and!; [done| |apply NoDup_singleton]. by intros k Hin ->%list_elem_of_singleton.
  - by apply (upsert_Forall (λ n, value_wf n.1)).
Qed.

(** ** Merge *)

Definition merge_over (upper entries : list (str * Node)) : list (str * Node) :=
  foldl (λ es e, upsert e.1 (merge e.2.1 e.2.2) e.2 es) entries upper.

Lemma merge_table upper o entries eo : merge (VTable upper) o (VTable entries, eo) = (VTable (merge_over upper entries), eo).
Proof.
  cbn [merge]. f_equal. f_equal. unfold merge_over. revert entries. induction upper as [|[k [v vo]] upper IH]; intros entries; [done|]. cbn [foldl fst snd]. apply IH.
Qed.

Lemma merge_leaf v o base : (∀ es, v ≠ VTable es) ∨ (∀ es, base.1 ≠ VTable es) → merge v o base = (v, o).
Proof. destruct v, base as [[] bo]; simpl; naive_solver. Qed.

Lemma entry_over key upper entries : NoDup upper.*1 →
  entry_of key (merge_over upper entries) =
  match entry_of key upper with
  | Some n => Some (match entry_of key entries with Some b => merge n.1 n.2 b | None => n end)
  | None => entry_of key entries
  end.
Proof.
  unfold merge_over. revert entries. induction upper as [|[k n] upper IH]; intros entries; [done|]. cbn [fmap list_fmap fst]. rewrite NoDup_cons. intros [Hk Hu].
  cbn [foldl fst snd entry_of]. rewrite (IH _ Hu), entry_upsert. destruct (decide (k = key)) as [->|Hne].
  - rewrite !bool_decide_eq_true_2 by done. by rewrite (proj2 (entry_of_None key upper)).
  - rewrite (bool_decide_eq_false_2 (k = key)), (bool_decide_eq_false_2 (key = k)) by congruence. done.
Qed.

Lemma merge_wf v : ∀ o base, value_wf v → value_wf base.1 → value_wf (merge v o base).1.
Proof.
  induction v as [v Ha Ht|items _|es IH] using value_nested; intros o [b bo] Hv Hb.
  - rewrite merge_leaf by (left; naive_solver). done.
  - by rewrite merge_leaf by (left; naive_solver).
  - destruct b as [| | | | | | |entries]; [by rewrite merge_leaf by (right; naive_solver)..|]. rewrite merge_table. simpl fst.
    apply value_wf_table in Hv as [_ Hv]. unfold merge_over. clear -IH Hv Hb. revert entries Hb.
    induction es as [|[k [v vo]] es IHes]; intros entries Hb; [done|]. apply Forall_cons in IH as [IH1 IH2], Hv as [Hv1 Hv2]. cbn [foldl fst snd].
    apply IHes; [done..|]. apply upsert_wf; [done|done|]. intros n Hn. by apply IH1.
Qed.

Lemma overlay_wf t u : tree_wf t → tree_wf u → tree_wf (overlay t u).
Proof. destruct u as [[v o]|], t as [base|]; simpl; [intros; by apply merge_wf|done..]. Qed.

(** ** Walks by keys *)

Inductive Walked := Found (n : Node) | Blocked | Missing.

Fixpoint walk_keys (n : Node) (p : list str) : Walked :=
  match p with
  | [] => Found n
  | k :: p => match n.1 with
              | VTable es => match entry_of k es with Some c => walk_keys c p | None => Missing end
              | _ => Blocked
              end
  end.

Definition tree_walk (t : Tree) (p : list str) : Walked := match t with Some n => walk_keys n p | None => Missing end.

(** The node at a path of keys that is not a table, and whether the tree decides what is there: a
    node at the path, or a leaf on the way to it. *)
Definition scalar_at (t : Tree) (p : list str) : option Node :=
  match tree_walk t p with Found n => if is_table n then None else Some n | _ => None end.

Definition decides (t : Tree) (p : list str) : bool := match tree_walk t p with Missing => false | _ => true end.

Lemma merge_scalar v : ∀ o base p, value_wf v →
  scalar_at (Some (merge v o base)) p = if decides (Some (v, o)) p then scalar_at (Some (v, o)) p else scalar_at (Some base) p.
Proof.
  induction v as [v Ha Ht|items _|es IH] using value_nested; intros o [b bo] p Hv.
  - rewrite merge_leaf by (left; naive_solver). destruct p as [|k p]; unfold scalar_at, decides; simpl; [done|]. by destruct v; try naive_solver.
  - rewrite merge_leaf by (left; naive_solver). by destruct p.
  - destruct b as [| | | | | | |entries].
    1-7: rewrite merge_leaf by (right; naive_solver); destruct p as [|k p]; unfold scalar_at, decides; simpl; [done|];
      destruct (entry_of k es) as [c|]; [|done]; by destruct (walk_keys c p).
    rewrite merge_table. destruct p as [|k p]; [done|]. unfold scalar_at, decides. cbn [tree_walk walk_keys fst].
    apply value_wf_table in Hv as [Hnd Hv]. rewrite (entry_over k es entries Hnd).
    destruct (entry_of k es) as [[c co]|] eqn:Ec; [|done]. apply entry_of_in in Ec.
    destruct (entry_of k entries) as [base|] eqn:Eb.
    + assert (Hc := proj1 (Forall_forall _ _) IH (k, (c, co)) Ec co base p (proj1 (Forall_forall _ _) Hv (k, (c, co)) Ec)). exact Hc.
    + cbn [fst snd]. by destruct (walk_keys (c, co) p).
Qed.

Lemma overlay_scalar t u p : tree_wf u → scalar_at (overlay t u) p = if decides u p then scalar_at u p else scalar_at t p.
Proof.
  destruct u as [[v o]|]; simpl; [|done]. intros Hu. destruct t as [base|]; [by apply merge_scalar|].
  unfold scalar_at, decides. cbn [tree_walk]. by destruct (walk_keys (v, o) p).
Qed.

(** ** Set *)

(** Two paths part: neither is a prefix of the other. *)
Definition parts (p q : list str) : Prop := ∃ c a b s t, p = c ++ a :: s ∧ q = c ++ b :: t ∧ a ≠ b.

Lemma parts_cons k p q : parts (k :: p) (k :: q) → parts p q.
Proof. intros ([|x c] & a & b & s & t & E1 & E2 & Hne); simplify_eq/=. by exists c, a, b, s, t. Qed.

Lemma parts_nil p : ¬ parts p [] ∧ ¬ parts [] p.
Proof. split; intros ([|] & a & b & s & t & E1 & E2 & _); done. Qed.

(** The table [set_in] goes on in. *)
Definition table_of (o : Origin) (n : option Node) : Node :=
  match n with Some n => if is_table n then n else empty_table o | None => empty_table o end.

Lemma is_table_of o n : is_table (table_of o n) = true.
Proof. unfold table_of. destruct n as [n|]; [|done]. by destruct (is_table n) eqn:E. Qed.

Lemma set_in_entry table first rest node k entries o : table = (VTable entries, o) →
  ∃ entries', set_in table (first :: rest) node = (VTable entries', o)
    ∧ entry_of k entries' = if bool_decide (k = first) then Some (match rest with [] => node | _ => set_in (table_of node.2 (entry_of first entries)) rest node end) else entry_of k entries.
Proof.
  intros ->. destruct rest as [|r rest]; eexists; (split; [reflexivity|]); rewrite entry_upsert; case_bool_decide; [by destruct (entry_of first entries)|done| |done].
  unfold table_of. destruct (entry_of first entries) as [n|]; [|done]. by destruct (is_table n).
Qed.

Lemma is_table_Some n : is_table n = true → ∃ es o, n = (VTable es, o).
Proof. destruct n as [[] o]; simpl; try done. by eauto. Qed.

Lemma set_in_found segs : ∀ table node, segs ≠ [] → is_table table = true → walk_keys (set_in table segs node) segs = Found node.
Proof.
  induction segs as [|k segs IH]; intros table node Hne Ht; [done|]. apply is_table_Some in Ht as (es & o & ->).
  destruct (set_in_entry (VTable es, o) k segs node k es o eq_refl) as (es' & -> & He). cbn [walk_keys fst]. rewrite He, bool_decide_eq_true_2 by done.
  destruct segs as [|k' segs]; [done|]. apply IH; [done|]. apply is_table_of.
Qed.

Lemma scalar_table_of o n q : q ≠ [] → scalar_at (Some (table_of o n)) q = match n with Some n => scalar_at (Some n) q | None => None end.
Proof.
  intros Hq. destruct q as [|k q]; [done|]. unfold table_of. destruct n as [[v vo]|]; [|done]. by destruct v.
Qed.

Lemma set_in_parts segs : ∀ table node q, is_table table = true → parts segs q → scalar_at (Some (set_in table segs node)) q = scalar_at (Some table) q.
Proof.
  induction segs as [|k segs IH]; intros table node q Ht Hp; [by apply parts_nil in Hp|]. apply is_table_Some in Ht as (es & o & ->).
  destruct q as [|k' q]; [by apply parts_nil in Hp|].
  destruct (set_in_entry (VTable es, o) k segs node k' es o eq_refl) as (es' & -> & He).
  unfold scalar_at. cbn [tree_walk walk_keys fst]. rewrite He. case_bool_decide as Hk; [subst|done]. apply parts_cons in Hp.
  destruct segs as [|r segs]; [by apply parts_nil in Hp|]. assert (q ≠ []) by (intros ->; by apply parts_nil in Hp).
  etrans; [exact (IH (table_of node.2 (entry_of k es)) node q (is_table_of _ _) Hp)|]. rewrite scalar_table_of by done. by destruct (entry_of k es).
Qed.

Lemma tree_set_found t segs node : segs ≠ [] → tree_walk (tree_set t segs node) segs = Found node.
Proof.
  intros Hne. unfold tree_set. destruct segs as [|k segs]; [done|]. cbv zeta. cbn [tree_walk]. apply set_in_found; [done|].
  destruct t as [n|]; [|done]. destruct (is_table n) eqn:E; [done|done].
Qed.

Lemma tree_set_parts t segs node q : parts segs q → scalar_at (tree_set t segs node) q = scalar_at t q.
Proof.
  intros Hp. unfold tree_set. destruct segs as [|k segs]; [by apply parts_nil in Hp|]. cbv zeta. assert (q ≠ []) by (intros ->; by apply parts_nil in Hp).
  destruct t as [[v o]|].
  - destruct (is_table (v, o)) eqn:E; rewrite set_in_parts by done; [done|]. destruct q as [|k' q]; [done|]. by destruct v.
  - rewrite set_in_parts by done. by destruct q.
Qed.

Lemma set_in_wf segs : ∀ table node, value_wf table.1 → value_wf node.1 → value_wf (set_in table segs node).1.
Proof.
  induction segs as [|k segs IH]; intros [v o] node Ht Hn; [by destruct v|]. destruct v; try done.
  destruct segs as [|k' segs]; cbn [set_in fst]; apply upsert_wf; auto.
  - apply IH; [|done]. apply value_wf_table. split; constructor.
  - intros n Hn'. apply IH; [|done]. destruct (is_table n); [done|]. apply value_wf_table. split; constructor.
Qed.

Lemma tree_set_wf t segs node : tree_wf t → value_wf node.1 → tree_wf (tree_set t segs node).
Proof.
  intros Ht Hn. unfold tree_set. destruct segs as [|k segs]; [done|]. cbv zeta. apply set_in_wf; [|done].
  assert (He : value_wf (VTable [])) by (apply value_wf_table; split; constructor).
  destruct t as [n|]; [|done]. by destruct (is_table n).
Qed.

(** Setting one value after another: the last one that does not part from a path is what is there. *)
Definition set_all (t : Tree) (sets : list (list str * Node)) : Tree := foldl (λ t s, tree_set t s.1 s.2) t sets.

Lemma set_all_last t pre p n post : p ≠ [] → is_table n = false → Forall (λ s : list str * Node, parts s.1 p) post →
  scalar_at (set_all t (pre ++ (p, n) :: post)) p = Some n.
Proof.
  intros Hp Hn Hpost. unfold set_all. rewrite foldl_app. cbn [foldl fst snd]. set (t' := foldl _ t pre).
  assert (H0 : scalar_at (tree_set t' p n) p = Some n) by (unfold scalar_at; rewrite tree_set_found by done; by rewrite Hn).
  revert H0. generalize (tree_set t' p n). induction post as [|[q m] post IH]; intros u Hu; [done|]. apply Forall_cons in Hpost as [Hq Hpost].
  cbn [foldl fst snd]. apply IH; [done|]. by rewrite tree_set_parts.
Qed.

Lemma set_all_wf t sets : tree_wf t → Forall (λ s : list str * Node, value_wf s.2.1) sets → tree_wf (set_all t sets).
Proof.
  revert t. induction sets as [|s sets IH]; intros t Ht; [done|]. rewrite Forall_cons. intros [H1 H2]. cbn. apply IH; [|done]. by apply tree_set_wf.
Qed.

(** ** Dotted paths *)

Lemma split_on_mid c p s : split_on c (p ++ c :: s) = split_on c p ++ split_on c s.
Proof.
  induction p as [|b p IH]; simpl; [by rewrite bool_decide_eq_true_2|]. case_bool_decide; [by rewrite IH|]. rewrite IH.
  pose proof (split_on_nonempty c p). by destruct (split_on c p).
Qed.

Lemma split_on_last c p s : c ∉ s → ∃ init l, split_on c p = init ++ [l] ∧ split_on c (p ++ s) = init ++ [l ++ s].
Proof.
  intros Hs. induction p as [|b p (init & l & E1 & E2)]; simpl.
  - exists [], []. split; [done|]. by apply split_on_no_sep_id.
  - case_bool_decide.
    + exists ([] :: init), l. by rewrite E1, E2.
    + rewrite E1, E2. destruct init as [|i init]; [by exists [], (b :: l)|by exists ((b :: i) :: init), l].
Qed.

Lemma decimal_digit n : is_ascii_digit (ascii_of_nat (48 + n `mod` 10)) = true ∧ nat_of_ascii (ascii_of_nat (48 + n `mod` 10)) = 48 + n `mod` 10.
Proof.
  assert (Hm : n `mod` 10 < 10) by (apply Nat.mod_upper_bound; lia). unfold is_ascii_digit. rewrite nat_ascii_embedding by lia.
  split; [|done]. apply andb_true_iff. split; apply Nat.leb_le; lia.
Qed.

Lemma decimal_digits_value fuel : ∀ n s, n ≤ fuel → (N.of_nat n < 2 ^ 64)%N → digits_value 0 (decimal_digits fuel n s) = digits_value (N.of_nat n) s.
Proof.
  assert (Hstep : ∀ q n s, (N.of_nat n < 2 ^ 64)%N → q = n / 10 → digits_value (N.of_nat q) (ascii_of_nat (48 + n `mod` 10) :: s) = digits_value (N.of_nat n) s).
  { intros q n s Hn ->. destruct (decimal_digit n) as [Hd Hv]. cbn [digits_value]. rewrite Hd, Hv. pose proof (Nat.div_mod_eq n 10).
    replace (10 * N.of_nat (n / 10) + N.of_nat (48 + n `mod` 10 - 48))%N with (N.of_nat n) by lia. by rewrite bool_decide_eq_true_2. }
  induction fuel as [|fuel IH]; intros n s Hn Hb; cbn [decimal_digits].
  - assert (n = 0) as -> by lia. by apply (Hstep 0).
  - case_bool_decide as H10; [apply (Hstep 0); [done|]; symmetry; by apply Nat.div_small|].
    rewrite IH; [by apply Hstep| |].
    + assert (n / 10 < n) by (apply Nat.div_lt; lia). lia.
    + assert (n / 10 ≤ n) by (apply Nat.Div0.div_le_upper_bound; lia). lia.
Qed.

Lemma decimal_digits_all fuel : ∀ n s, Forall (λ c, is_ascii_digit c = true) s → Forall (λ c, is_ascii_digit c = true) (decimal_digits fuel n s) ∧ decimal_digits fuel n s ≠ [].
Proof.
  induction fuel as [|fuel IH]; intros n s Hs; cbn [decimal_digits]; [|case_bool_decide; [|apply IH]]; try (split; [|done]); constructor; try done; by destruct (decimal_digit n).
Qed.

Lemma decimal_str n : str_of (decimal n) = decimal_digits n n [].
Proof. apply str_of_string_of. Qed.

Lemma parse_decimal n : (N.of_nat n < 2 ^ 64)%N → parse_usize (str_of (decimal n)) = Some (N.of_nat n).
Proof.
  intros Hn. rewrite decimal_str. destruct (decimal_digits_all n n []) as [Hd Hne]; [constructor|].
  pose proof (decimal_digits_value n n [] (le_n n) Hn) as E. destruct (decimal_digits n n []) as [|c s]; [done|]. apply Forall_cons in Hd as [Hc _].
  unfold parse_usize. destruct (decide (c = "+"%char)) as [->|Hp]; [done|].
  assert (Hm : match c :: s with "+"%char :: s => s | _ => c :: s end = c :: s).
  { destruct c as [[] [] [] [] [] [] [] []]; try reflexivity. by destruct Hp. }
  by rewrite Hm, E.
Qed.

Lemma digits_no_char c s : is_ascii_digit c = false → Forall (λ c, is_ascii_digit c = true) s → c ∉ s.
Proof. intros Hc Hs Hin. rewrite Forall_forall in Hs. specialize (Hs c Hin). congruence. Qed.

Lemma decimal_no_char c n : is_ascii_digit c = false → c ∉ str_of (decimal n).
Proof. intros Hc. rewrite decimal_str. apply digits_no_char; [done|]. apply decimal_digits_all. constructor. Qed.

Lemma split_once_more c s x y t : split_once c s = Some (x, y) → split_once c (s ++ t) = Some (x, y ++ t).
Proof. rewrite !split_once_Some. intros [-> Hc]. split; [by rewrite <- app_assoc|done]. Qed.

Lemma index_loop_app f : ∀ g n m s t r, index_loop f n s = Some m → index_loop g m t = Some r → index_loop (f + g) n (s ++ t) = Some r.
Proof.
  assert (Hmono : ∀ g f m t r, index_loop g m t = Some r → index_loop (f + g) m t = Some r).
  { induction g as [|g IH]; intros f' m t r; [destruct t; [by destruct f'|done]|]. rewrite Nat.add_succ_r. destruct t as [|c t]; [done|]. cbn [index_loop].
    case_bool_decide; [|done]. destruct (split_once _ t) as [[d t']|]; [|done]. destruct (parse_usize d); [|done]. destruct (item_of m _); [|done]. apply IH. }
  induction f as [|f IH]; intros g n m s t r; (destruct s as [|c s]; [intros [= ->] H; exact (Hmono g _ m t r H)|]); [done|]. cbn [index_loop Nat.add app].
  case_bool_decide; [|done]. destruct (split_once bracket_end s) as [[d s']|] eqn:E; [|done]. rewrite (split_once_more _ _ _ _ t E).
  destruct (parse_usize d); [|done]. destruct (item_of n _); [|done]. apply IH.
Qed.

Definition index_text (i : nat) : str := bracket :: str_of (decimal i) ++ [bracket_end].

Lemma index_loop_one n i m : (N.of_nat i < 2 ^ 64)%N → item_of n (N.of_nat i) = Some m → index_loop (length (index_text i)) n (index_text i) = Some m.
Proof.
  intros Hi Hm. cbn [length index_text index_loop]. rewrite bool_decide_eq_true_2 by done.
  rewrite (proj2 (split_once_Some bracket_end (str_of (decimal i) ++ [bracket_end]) (str_of (decimal i)) [])) by (split; [done|by apply decimal_no_char]).
  rewrite parse_decimal, Hm by done. by destruct (length _).
Qed.

Lemma position_before {A} (f : A → bool) l i j x : position f l = Some i → j < i → l !! j = Some x → f x = false.
Proof.
  revert i j. induction l as [|y l IH]; intros i j; simpl; [done|]. destruct (f y) eqn:E; [intros [= <-]; lia|].
  intros (k & Hk & ->)%fmap_Some Hlt. destruct j as [|j]; [by intros [= <-]|]. apply (IH k); [done|lia].
Qed.

(** The name of a segment and the indexes after it. *)
Lemma segment_split segment : ∃ name indexes, segment = name ++ indexes ∧ (bracket ∉ name) ∧ (indexes = [] ∨ ∃ rest, indexes = bracket :: rest)
  ∧ ∀ n, get_segment n segment = (named_child n name ≫= λ n, index_loop (length indexes) n indexes).
Proof.
  unfold get_segment, find_char. destruct (position _ segment) as [i|] eqn:E.
  - pose proof E as (x & Hx & Hb)%position_Some. case_bool_decide; [subst|done]. exists (take i segment), (drop i segment). split_and!.
    + by rewrite take_drop.
    + intros (j & Hj)%list_elem_of_lookup. apply lookup_take_Some in Hj as [Hj Hlt]. pose proof (position_before _ _ _ j bracket E Hlt Hj) as Hb'%bool_decide_eq_false. done.
    + right. exists (drop (S i) segment). by apply drop_S.
    + intros n. by destruct (named_child n _).
  - exists segment, []. rewrite app_nil_r. split_and!; [done| |by left|intros n; by destruct (named_child n _)].
    intros Hin. eapply position_None in E; [|exact Hin]. by apply bool_decide_eq_false in E.
Qed.

Lemma get_segment_index n segment m i r : get_segment n segment = Some m → (N.of_nat i < 2 ^ 64)%N → item_of m (N.of_nat i) = Some r →
  get_segment n (segment ++ index_text i) = Some r.
Proof.
  intros E Hi Hr. destruct (segment_split segment) as (name & idx & -> & Hname & Hidx & Hg). rewrite Hg in E. clear Hg.
  rewrite <- app_assoc. destruct (segment_split (name ++ idx ++ index_text i)) as (name' & idx' & Eq & Hname' & Hidx' & Hg). rewrite Hg.
  assert (name' = name ∧ idx' = idx ++ index_text i) as [-> ->].
  { assert (∃ rest, idx ++ index_text i = bracket :: rest) as [rest Hrest] by (destruct Hidx as [->|[rest ->]]; eexists; reflexivity).
    rewrite Hrest in Eq |- *. destruct Hidx' as [->|[rest' ->]]; [rewrite app_nil_r in Eq; subst name'; destruct Hname'; apply elem_of_app; right; left|].
    by destruct (first_sep_unique Hname Hname' Eq) as [-> ->]. }
  destruct (named_child n name) as [c|]; [|done]. cbn in E |- *. rewrite length_app. eapply index_loop_app; [exact E|]. by apply index_loop_one.
Qed.

(** A key that a dotted path can name. *)
Definition plain_key (k : str) : Prop := k ≠ [] ∧ (dot ∉ k) ∧ (bracket ∉ k).

Lemma get_join_key root path n k : plain_key k → tree_get (Some root) path = Some n → tree_get (Some root) (join_key path k) = named_child n k.
Proof.
  intros (Hne & Hdot & Hbr) E.
  assert (Hseg : ∀ m, get_segment m k = named_child m k).
  { intros m. unfold get_segment, find_char. destruct (position _ k) as [i|] eqn:Ep.
    - apply position_Some in Ep as (x & Hx & Hb). case_bool_decide; [subst|done]. destruct Hbr. by eapply list_elem_of_lookup_2.
    - by destruct (named_child m k). }
  destruct path as [|c path]; unfold join_key.
  - injection E as <-. destruct k as [|c k]; [done|]. cbn [tree_get]. rewrite split_on_no_sep_id by done. cbn [foldl]. apply Hseg.
  - cbn [tree_get app] in E |- *. change (c :: path ++ dot :: k) with ((c :: path) ++ dot :: k). rewrite split_on_mid, foldl_app, E, split_on_no_sep_id by done. cbn [foldl]. apply Hseg.
Qed.

Lemma get_join_index root path n i r : (N.of_nat i < 2 ^ 64)%N → tree_get (Some root) path = Some n → item_of n (N.of_nat i) = Some r →
  tree_get (Some root) (join_index path i) = Some r.
Proof.
  intros Hi E Hr. change (join_index path i) with (path ++ index_text i).
  assert (Hdot : dot ∉ index_text i).
  { unfold index_text. rewrite not_elem_of_cons, not_elem_of_app. split_and!; [done|by apply decimal_no_char|]. by intros ?%list_elem_of_singleton. }
  destruct path as [|c path].
  - injection E as <-. cbn [tree_get app index_text]. rewrite split_on_no_sep_id by exact Hdot. cbn [foldl]. by apply (get_segment_index root [] root i r).
  - cbn [tree_get app] in E |- *. destruct (split_on_last dot (c :: path) (index_text i) Hdot) as (init & l & E1 & E2).
    change (c :: path ++ index_text i) with ((c :: path) ++ index_text i). rewrite E2. rewrite E1 in E. rewrite foldl_app in E |- *. cbn [foldl] in E |- *.
    destruct (foldl _ (Some root) init) as [m|]; [|done]. cbn in E |- *. by eapply get_segment_index.
Qed.

(** ** Leaves *)

(** Every key of a tree can be named, and no array is longer than an index can be. *)
Fixpoint value_named (v : Value) : Prop :=
  match v with
  | VArray items =>
      (N.of_nat (length items) ≤ 2 ^ 64)%N ∧ (fix go (items : list (Value * Origin)) := match items with [] => True | n :: items => value_named n.1 ∧ go items end) items
  | VTable es => (fix go (es : list (str * (Value * Origin))) := match es with [] => True | e :: es => (plain_key e.1 ∧ value_named e.2.1) ∧ go es end) es
  | _ => True
  end.

Lemma value_named_table es : value_named (VTable es) ↔ Forall (λ e : str * Node, plain_key e.1 ∧ value_named e.2.1) es.
Proof. simpl. induction es as [|e es IH]; [split; constructor|]. rewrite Forall_cons. by rewrite IH. Qed.

Lemma value_named_array items : value_named (VArray items) ↔ (N.of_nat (length items) ≤ 2 ^ 64)%N ∧ Forall (λ n : Node, value_named n.1) items.
Proof. simpl. f_equiv. clear. induction items as [|n items IH]; [split; constructor|]. rewrite Forall_cons. by rewrite IH. Qed.

Definition tree_named (t : Tree) : Prop := match t with Some n => value_named n.1 | None => True end.

Lemma collect_table es o path : collect (VTable es) o path = es ≫= λ e : str * Node, collect e.2.1 e.2.2 (join_key path e.1).
Proof. cbn [collect]. induction es as [|[k [v vo]] es IH]; [done|]. cbn. by rewrite IH. Qed.

Lemma collect_array items o path : collect (VArray items) o path = concat (imap (λ i (n : Node), collect n.1 n.2 (join_index path i)) items).
Proof.
  cbn [collect].
  assert (H : ∀ i (items : list Node), (fix go (index : nat) (items : list (Value * Origin)) := match items with [] => [] | (v, o) :: items => collect v o (join_index path index) ++ go (S index) items end) i items
    = concat (imap (λ j (n : Node), collect n.1 n.2 (join_index path (i + j))) items)).
  { clear. intros i items. revert i. induction items as [|[v vo] items IH]; intros i; [done|]. cbn [imap concat fst snd]. rewrite IH. rewrite Nat.add_0_r. f_equal. f_equal.
    apply imap_ext. intros j n _. simpl. by rewrite Nat.add_succ_r. }
  exact (H 0 items).
Qed.

Lemma collect_get root v : ∀ o path, value_wf v → value_named v → tree_get (Some root) path = Some (v, o) →
  Forall (λ e : str * Node, tree_get (Some root) e.1 = Some e.2 ∧ is_table e.2 = false) (collect v o path).
Proof.
  induction v as [v Ha Ht|items IH|es IH] using value_nested; intros o path Hw Hn E.
  - assert (collect v o path = [(path, (v, o))]) as -> by (destruct v; naive_solver). constructor; [|constructor]. split; [done|]. by destruct v; naive_solver.
  - rewrite collect_array. apply value_wf_array in Hw. apply value_named_array in Hn as [Hlen Hn]. apply Forall_concat, Forall_forall. intros l (i & Hl)%list_elem_of_lookup.
    rewrite list_lookup_imap in Hl. destruct (items !! i) as [[c co]|] eqn:Ei; [|done]. injection Hl as <-. pose proof (lookup_lt_Some _ _ _ Ei) as Hlt.
    apply (Forall_lookup_1 _ _ _ _ IH Ei); [exact (Forall_lookup_1 _ _ _ _ Hw Ei)|exact (Forall_lookup_1 _ _ _ _ Hn Ei)|].
    assert (Hi : (N.of_nat i < N.of_nat (length items))%N) by lia.
    eapply get_join_index; [by eapply N.lt_le_trans|exact E|]. unfold item_of. cbn [fst]. rewrite bool_decide_eq_true_2 by exact Hi. by rewrite Nat2N.id.
  - rewrite collect_table. apply value_wf_table in Hw as [Hnd Hw]. apply value_named_table in Hn. apply Forall_bind, Forall_forall. intros [k [c co]] Hin.
    destruct (proj1 (Forall_forall _ _) Hn _ Hin) as [Hk Hc]. apply (proj1 (Forall_forall _ _) IH _ Hin); [exact (proj1 (Forall_forall _ _) Hw _ Hin)|exact Hc|].
    cbn [fst snd]. rewrite (get_join_key root path (VTable es, o) k Hk E). unfold named_child. destruct Hk as [Hk _]. destruct k as [|a k]; [done|]. cbn [fst]. by apply entry_of_elem.
Qed.

(** ** Writing *)

Definition escape_char (c : ascii) : str :=
  if bool_decide (c = newline) then [backslash; "n"%char]
  else if bool_decide (c = double_quote) then [backslash; double_quote]
  else if bool_decide (c = backslash) then [backslash; backslash]
  else [c].

Definition escaped (v : str) : str := v ≫= escape_char.

Definition written_line (e : str * str) : str := e.1 ++ "="%char :: double_quote :: escaped e.2 ++ [double_quote].

Definition written (es : list (str * str)) : str := es ≫= λ e, written_line e ++ [newline].

(** ** Quoted values *)

Lemma double_quoted_escaped v : ∀ out tail, double_quoted (escaped v ++ double_quote :: tail) out = if after_quote tail then inr (out ++ v) else inl TextAfterQuote.
Proof.
  induction v as [|c v IH]; intros out tail; [by rewrite app_nil_r|]. unfold escaped. cbn [mbind list_bind]. fold (escaped v). unfold escape_char.
  assert (Hn : ∀ t out, double_quoted (backslash :: "n"%char :: t) out = double_quoted t (out ++ [newline])) by reflexivity.
  assert (Hq : ∀ t out, double_quoted (backslash :: double_quote :: t) out = double_quoted t (out ++ [double_quote])) by reflexivity.
  assert (Hb : ∀ t out, double_quoted (backslash :: backslash :: t) out = double_quoted t (out ++ [backslash])) by reflexivity.
  repeat case_bool_decide; subst; cbn [app]; rewrite ?Hn, ?Hq, ?Hb; [by rewrite IH, <- app_assoc..|].
  cbn [double_quoted]. rewrite !bool_decide_eq_false_2 by done. by rewrite IH, <- app_assoc.
Qed.

(** ** Characters of a key *)

Definition key_char (c : ascii) : bool := is_ascii_alphanumeric c || bool_decide (c ∈ ["_"; "."; "-"]%char).

Lemma valid_key_chars key : valid_key key = true ↔ key ≠ [] ∧ Forall (λ c, key_char c = true) key.
Proof. destruct key as [|c key]; [split; [done|by intros []]|]. cbn [valid_key]. rewrite forallb_elem, Forall_forall. naive_solver. Qed.

Definition ascii_plain (c : ascii) : bool := key_char c || bool_decide (c = double_quote).

Lemma strip_space_plain c s : ascii_plain c = true → strip_space (c :: s) = None.
Proof. destruct c as [[] [] [] [] [] [] [] []]; intros H; vm_compute in H; try discriminate H; reflexivity. Qed.

Lemma strip_space_end_plain c s : ascii_plain c = true → strip_space_end (s ++ [c]) = None.
Proof.
  intros H. unfold strip_space_end. unfold strip_suffix. rewrite reverse_snoc.
  destruct c as [[] [] [] [] [] [] [] []]; vm_compute in H; try discriminate H; reflexivity.
Qed.

Lemma trim_start_plain c s : ascii_plain c = true → trim_start (c :: s) = c :: s.
Proof. intros H. unfold trim_start. cbn [length trim_start_on]. by rewrite strip_space_plain. Qed.

Lemma trim_end_plain c s : ascii_plain c = true → trim_end (s ++ [c]) = s ++ [c].
Proof. intros H. unfold trim_end. rewrite length_app, Nat.add_comm. cbn [length Nat.add trim_end_on]. by rewrite strip_space_end_plain. Qed.

Lemma key_char_plain c : key_char c = true → ascii_plain c = true.
Proof. unfold ascii_plain. by intros ->. Qed.

Lemma key_char_other c : key_char c = true → c ≠ "="%char ∧ c ≠ newline ∧ c ≠ hash ∧ c ≠ " "%char ∧ c ≠ ascii_of_nat 9.
Proof. intros H. split_and!; intros ->; vm_compute in H; discriminate H. Qed.

(** ** Lines *)

Lemma export_kept c s t : key_char c = true → Forall (λ c, key_char c = true) s → without_export (c :: s ++ "="%char :: t) = c :: s ++ "="%char :: t.
Proof.
  intros Hc Hs. unfold without_export. destruct (strip_prefix _ _) as [rest|] eqn:E; [|done]. apply strip_prefix_Some in E.
  destruct rest as [|d rest]; [done|]. destruct (bool_decide (d = " "%char) || bool_decide (d = ascii_of_nat 9)) eqn:Ed; [|done]. exfalso.
  assert (Hd : d ∉ c :: s ++ ["="%char]).
  { intros Hin. assert (Hk : key_char d = true ∨ d = "="%char).
    { apply elem_of_cons in Hin as [->|Hin]; [by left|]. apply elem_of_app in Hin as [Hin|Hin%list_elem_of_singleton]; [left; by eapply Forall_forall in Hs|by right]. }
    destruct Hk as [(_ & _ & _ & H1 & H2)%key_char_other| ->]; [|done]. apply orb_true_iff in Ed as [Ed|Ed]; by apply bool_decide_eq_true in Ed. }
  assert (Heq : "="%char ∈ str_of "export").
  { destruct (decide (length (c :: s) < 6)) as [Hlt|Hge].
    - assert (Hl : (c :: s ++ "="%char :: t) !! length (c :: s) = Some "="%char) by (change (c :: s ++ "="%char :: t) with ((c :: s) ++ "="%char :: t); by rewrite list_lookup_middle).
      rewrite E, lookup_app_l in Hl by done. by eapply list_elem_of_lookup_2.
    - exfalso. apply Hd. assert (Hl : (c :: s ++ "="%char :: t) !! 6 = Some d) by (rewrite E; done).
      change (c :: s ++ "="%char :: t) with ((c :: s) ++ ["="%char] ++ t) in Hl. rewrite app_assoc, lookup_app_l in Hl by (rewrite length_app; simpl in *; lia).
      by eapply list_elem_of_lookup_2 in Hl. }
  set_solver.
Qed.

Lemma read_written line key value : valid_key key = true → read_line line (written_line (key, value)) = Some (inr (key, value)).
Proof.
  intros Hk. pose proof Hk as [Hne Hall]%valid_key_chars. destruct key as [|c key]; [done|]. apply Forall_cons in Hall as [Hc Hkey].
  unfold read_line, written_line. cbn [fst snd app]. rewrite trim_start_plain by by apply key_char_plain.
  destruct (key_char_other c Hc) as (Heq & _ & Hh & _). rewrite bool_decide_eq_false_2 by done. rewrite export_kept by done.
  rewrite (proj2 (split_once_Some "="%char _ (c :: key) (double_quote :: escaped value ++ [double_quote]))).
  2: { split; [done|]. rewrite not_elem_of_cons. split; [congruence|]. intros Hin. eapply Forall_forall in Hkey; [|exact Hin]. done. }
  assert (Ht : trim_end (c :: key) = c :: key).
  { assert (Hall : Forall (λ c, key_char c = true) (c :: key)) by by constructor. clear -Hall. destruct (exists_last (l := c :: key)) as (s & d & E); [done|].
    rewrite E in Hall |- *. apply Forall_app in Hall as [_ [Hd _]%Forall_cons]. apply trim_end_plain. by apply key_char_plain. }
  rewrite Ht, Hk. cbn [negb]. unfold parse_value. rewrite trim_start_plain by done. cbn [strip_prefix].
  rewrite (bool_decide_eq_false_2 (quote = double_quote)) by done. rewrite (bool_decide_eq_true_2 (double_quote = double_quote)) by done.
  by rewrite double_quoted_escaped.
Qed.

Lemma escaped_no_newline v : newline ∉ escaped v.
Proof.
  unfold escaped. rewrite list_elem_of_bind. intros (c & Hin & _). unfold escape_char in Hin. repeat case_bool_decide; set_solver.
Qed.

Lemma written_no_newline e : valid_key e.1 = true → newline ∉ written_line e.
Proof.
  intros [_ Hk]%valid_key_chars. unfold written_line. rewrite not_elem_of_app, !not_elem_of_cons, not_elem_of_app. split_and!; try done.
  - intros Hin. eapply Forall_forall in Hk; [|exact Hin]. by apply key_char_other in Hk as (_ & ? & _).
  - apply escaped_no_newline.
  - by intros ?%list_elem_of_singleton.
Qed.

Lemma lines_written es : Forall (λ e, valid_key e.1 = true) es → lines (written es) = written_line <$> es.
Proof.
  intros Hes. unfold lines.
  assert (Hs : split_on newline (written es) = (written_line <$> es) ++ [[]]).
  { induction es as [|e es IH]; [done|]. apply Forall_cons in Hes as [He Hes]. unfold written. cbn [mbind list_bind]. fold (written es).
    rewrite <- app_assoc. cbn [app]. rewrite split_on_app by by apply written_no_newline. by rewrite (IH Hes). }
  rewrite Hs. clear Hs Hes. induction es as [|e es IH]; [done|]. csimpl.
  assert (Hl : line_of (written_line e) = written_line e).
  { unfold line_of. destruct (strip_suffix _ _) as [t|] eqn:E; [|done]. apply strip_suffix_Some in E. unfold written_line in E.
    change (e.1 ++ "="%char :: double_quote :: escaped e.2 ++ [double_quote]) with (e.1 ++ ("="%char :: double_quote :: escaped e.2) ++ [double_quote]) in E.
    rewrite app_assoc in E. by apply app_inj_tail in E as [_ E]. }
  destruct ((written_line <$> es) ++ [[]]) as [|p ps] eqn:E; [by destruct es|]. cbn [lines_of]. rewrite Hl. f_equal. exact IH.
Qed.

(** ** Files *)

(** The lines that are not blank, each with its number and what is read of it. *)
Fixpoint lines_read (index : nat) (raws : list str) : list (N * (EnvProblem + (str * str))) :=
  match raws with
  | [] => []
  | raw :: raws => option_list ((λ r, (to_u32 (S index), r)) <$> read_line (to_u32 (S index)) raw) ++ lines_read (S index) raws
  end.

Definition entry_read (x : N * (EnvProblem + (str * str))) : option EnvEntry :=
  match x.2 with inr (key, value) => Some {| ee_key := key; ee_value := value; ee_line := x.1 |} | inl _ => None end.

Definition refused_read (x : N * (EnvProblem + (str * str))) : bool := match x.2 with inl _ => true | inr _ => false end.

Lemma first_seen_None s key : first_seen s key = None ↔ key ∉ ee_key <$> es_entries s.
Proof.
  unfold first_seen. destruct (find_first _ _) as [e|] eqn:E; simpl.
  - apply find_first_Some in E as (Hin & He). case_bool_decide; [subst|done]. split; [done|]. intros []. by apply list_elem_of_fmap_2.
  - split; [|done]. intros _ (e & -> & Hin)%list_elem_of_fmap. eapply find_first_None in E; [|exact Hin]. by apply bool_decide_eq_false in E.
Qed.

Lemma lines_read_cons index raw raws : lines_read index (raw :: raws) =
  match read_line (to_u32 (S index)) raw with Some r => (to_u32 (S index), r) :: lines_read (S index) raws | None => lines_read (S index) raws end.
Proof. cbn [lines_read]. by destruct (read_line _ raw). Qed.

Lemma dotenv_lines_exact raws : ∀ s index,
  (es_problems (dotenv_lines s index raws) = [] ↔
     es_problems s = [] ∧ Forall (λ x, refused_read x = false) (lines_read index raws) ∧ NoDup (ee_key <$> omap entry_read (lines_read index raws))
     ∧ ∀ k, k ∈ ee_key <$> omap entry_read (lines_read index raws) → k ∉ ee_key <$> es_entries s)
  ∧ (es_problems (dotenv_lines s index raws) = [] → es_entries (dotenv_lines s index raws) = es_entries s ++ omap entry_read (lines_read index raws)).
Proof.
  induction raws as [|raw raws IH]; intros s index; [|rewrite lines_read_cons; cbn [dotenv_lines]].
  { simpl. rewrite app_nil_r. split; [|done]. split; [|by intros (? & _)]. intros ->. split_and!; [done|constructor..|by intros k ?%elem_of_nil]. }
  set (line := to_u32 (S index)). pose proof (eq_refl (dotenv_line s line raw)) as Hd. unfold dotenv_line in Hd at 2.
  destruct (read_line line raw) as [[p|[key value]]|] eqn:E.
  - rewrite Hd. destruct (IH {| es_entries := es_entries s; es_problems := es_problems s ++ [p] |} (S index)) as [IH1 IH2]. split.
    + rewrite IH1. cbn [es_problems]. split; [intros [H _]; by destruct (es_problems s)|]. intros (_ & [Hp _]%Forall_cons & _). done.
    + intros H. apply IH1 in H as [H _]. simpl in H. by destruct (es_problems s).
  - destruct (first_seen s key) as [first|] eqn:Ef; rewrite Hd.
    + destruct (IH {| es_entries := es_entries s; es_problems := es_problems s ++ [WrittenTwice key first line] |} (S index)) as [IH1 IH2]. split.
      * rewrite IH1. cbn [es_problems]. split; [intros [H _]; by destruct (es_problems s)|]. intros (_ & _ & _ & Hk). exfalso.
        assert (Hn : first_seen s key = None) by (apply first_seen_None, Hk; csimpl; left). congruence.
      * intros H. apply IH1 in H as [H _]. simpl in H. by destruct (es_problems s).
    + set (e := {| ee_key := key; ee_value := value; ee_line := line |}).
      destruct (IH {| es_entries := es_entries s ++ [e]; es_problems := es_problems s |} (S index)) as [IH1 IH2]. apply first_seen_None in Ef. split.
      * rewrite IH1. cbn [es_problems es_entries]. change (omap entry_read ((line, inr (key, value)) :: ?l)) with (e :: omap entry_read l). rewrite Forall_cons, fmap_cons, NoDup_cons, fmap_app. change (ee_key e) with key.
        split.
        -- intros (H1 & H2 & H3 & H4). split_and!; [done|done|done| |done|].
           ++ intros Hin. apply (H4 key Hin). apply elem_of_app. right. left.
           ++ intros k [->|Hin]%elem_of_cons; [done|]. intros Hk. apply (H4 k Hin). apply elem_of_app. by left.
        -- intros (H1 & [_ H2] & [H3 H4] & H5). split_and!; [done|done|done|]. intros k Hin [Hk|Hk%list_elem_of_singleton]%elem_of_app; [by apply (H5 k); [right|]|].
           subst k. done.
      * intros H. rewrite (IH2 H). simpl. by rewrite <- app_assoc.
  - rewrite Hd. apply IH.
Qed.
