(* ===== verification/ConfigTheorems.v ===== *)
(** * ConfigTheorems: what a configuration holds and what its reads report *)

From S2P Require Import Prelude Text Config ConfigFacts.
Local Open Scope nat_scope.
Local Open Scope list_scope.

(** ** Layers *)

Section Layers.
Context (to_lowercase : str → str) (parse_format : Format → str → str → Problems + Tree) (read_file : str → FileRead).
Abbreviation read := (source_read to_lowercase parse_format read_file).

(** The trees of the sources that set one value after another. *)
Lemma env_tree_sets vars prefix separator : env_tree to_lowercase vars prefix separator =
  set_all None (omap (λ v : str * str, (λ path, (path, (VText v.2, OVariable v.1))) <$> segments to_lowercase v.1 prefix separator) vars).
Proof.
  unfold env_tree, set_all. generalize (@None Node). induction vars as [|[n v] vars IH]; intros t; [done|]. cbn [foldl]. rewrite IH. unfold set_named.
  cbn [omap list_omap fst snd]. by destruct (segments to_lowercase n prefix separator).
Qed.

Lemma dotenv_tree_sets name prefix separator entries : dotenv_tree to_lowercase name prefix separator entries =
  set_all None (omap (λ e, (λ path, (path, (VText (ee_value e), OFile name (ee_line e) 0))) <$> segments to_lowercase (ee_key e) prefix separator) entries).
Proof.
  unfold dotenv_tree, set_all. generalize (@None Node). induction entries as [|e entries IH]; intros t; [done|]. cbn [foldl]. rewrite IH. unfold set_named.
  cbn [omap list_omap]. by destruct (segments to_lowercase (ee_key e) prefix separator).
Qed.

(** Sources that are not files of another format, nor a type's default, are well-formed. *)
Lemma plain_source_wf s : match s with SFile _ _ _ | STypeDefaults _ => True | _ => tree_wf (ly_tree (read s)) end.
Proof.
  destruct s as [| | |name optional prefix separator|vars prefix separator|entries]; try done; cbn [source_read].
  - destruct (read_text _ _ _) as [layer|text] eqn:E.
    + unfold read_text in E. destruct (read_file name); simplify_eq; try done. by destruct optional.
    + destruct (dotenv_parse text) as [ps|es]; [done|]. cbn [layer_of ly_tree]. rewrite dotenv_tree_sets. apply set_all_wf; [done|].
      apply Forall_forall. intros x (e & _ & (path & _ & ->)%fmap_Some)%list_elem_of_omap. done.
  - cbn [layer_of ly_tree]. rewrite env_tree_sets. apply set_all_wf; [done|]. apply Forall_forall. intros x (e & _ & (path & _ & ->)%fmap_Some)%list_elem_of_omap. done.
  - cbn [layer_of ly_tree]. unfold values_tree. assert (H : tree_wf None) by done. revert H. generalize (@None Node).
    induction entries as [|[k sc] entries IH]; intros t Ht; [done|]. cbn [foldl]. apply IH. apply tree_set_wf; [done|]. by destruct sc.
Qed.

Definition load_all (l : Loaded) (layers : list Layer) : Loaded := foldl load_layer l layers.

Lemma load_all_tree layers : ∀ l, tree_wf (ld_tree l) → Forall (λ y, tree_wf (ly_tree y)) layers →
  tree_wf (ld_tree (load_all l layers))
  ∧ (∀ p, scalar_at (ld_tree (load_all l layers)) p =
      match last (filterb (λ y, decides (ly_tree y) p) layers) with Some y => scalar_at (ly_tree y) p | None => scalar_at (ld_tree l) p end)
  ∧ ld_failures (load_all l layers) = ld_failures l ++ (layers ≫= ly_failures).
Proof.
  induction layers as [|y layers IH]; intros l Hl Hys; [simpl; rewrite app_nil_r; by split_and!|]. apply Forall_cons in Hys as [Hy Hys].
  unfold load_all. cbn [foldl]. fold (load_all (load_layer l y) layers).
  destruct (IH (load_layer l y)) as (H1 & H2 & H3); [by apply overlay_wf|done|]. split_and!; [done| |by rewrite H3; simpl; rewrite <- app_assoc].
  intros p. rewrite H2, filterb_cons. cbn [load_layer ld_tree]. rewrite overlay_scalar by done.
  destruct (decides (ly_tree y) p) eqn:E; [|done]. rewrite last_cons. by destruct (last (filterb _ layers)).
Qed.

Lemma load_layers sources : load to_lowercase parse_format read_file sources =
  load_all {| ld_tree := None; ld_failures := []; ld_defaults := false; ld_consumed := ∅ |} (read <$> sources).
Proof. unfold load, load_all. by rewrite foldl_fmap. Qed.

(** C11: The value of a path is the last source's that decides it. A loaded configuration holds at
    each path the scalar or array of the last source, in the order they were added, that has a node
    there or a leaf on the way to it, with that source's origin; a later source with neither leaves
    it alone. No table of it holds a key twice, and every failure of every source is kept, in
    order. *)
Theorem layers_last_wins sources : Forall (λ s, tree_wf (ly_tree (read s))) sources →
  let l := load to_lowercase parse_format read_file sources in
  tree_wf (ld_tree l)
  ∧ (∀ p, scalar_at (ld_tree l) p = last (filterb (λ s, decides (ly_tree (read s)) p) sources) ≫= λ s, scalar_at (ly_tree (read s)) p)
  ∧ ld_failures l = sources ≫= λ s, ly_failures (read s).
Proof.
  intros Hw l. unfold l. rewrite load_layers. destruct (load_all_tree (read <$> sources) {| ld_tree := None; ld_failures := []; ld_defaults := false; ld_consumed := ∅ |}) as (H1 & H2 & H3); [done|by apply Forall_fmap|].
  split_and!; [done| |by rewrite H3, list_fmap_bind].
  intros p. rewrite H2. clear. induction sources as [|s sources IH] using rev_ind; [done|]. rewrite fmap_app, !filterb_app, !last_app. cbn [fmap list_fmap]. rewrite !filterb_cons.
  by destruct (decides (ly_tree (read s)) p).
Qed.

(** A variable is read at the path its name stands for. Of the environment the value at the
    path of a variable's name, less the prefix, split at the separator and lowercased, is that
    variable's text, with the variable as its origin, unless a later one names the same path, a
    part of it or a path below it; a name that stands for no path is left out. *)
Theorem variables_read vars prefix separator pre name value post path : vars = pre ++ (name, value) :: post →
  segments to_lowercase name prefix separator = Some path →
  (∀ v path', v ∈ post → segments to_lowercase v.1 prefix separator = Some path' → parts path' path) →
  scalar_at (ly_tree (read (SEnv vars prefix separator))) path = Some (VText value, OVariable name).
Proof.
  intros -> Hs Hpost. cbn [source_read layer_of ly_tree]. rewrite env_tree_sets, omap_app. cbn [omap list_omap fst snd]. rewrite Hs. cbn [fmap option_fmap option_map].
  apply set_all_last; [|done|].
  - unfold segments in Hs. intros ->. destruct (match prefix with Some _ => _ | None => _ end) as [rest|]; [|done].
    destruct (match separator with [] => _ | _ => _ end) as [|a l] eqn:E; [done|]. cbn [forallb] in Hs. by destruct (negb (nonempty a) && _).
  - apply Forall_forall. intros x (v & Hv & (path' & Hp & ->)%fmap_Some)%list_elem_of_omap. cbn [fst]. by eapply Hpost.
Qed.
End Layers.

(** ** Paths *)

(** What is reported can be read. Every leaf of a tree whose keys can be named, and so every key
    of the unread report, is listed under the path that [get] finds it by, arrays by their index,
    with its origin. *)
Theorem leaves_read_back l path n : tree_wf (ld_tree l) → tree_named (ld_tree l) →
  ((path, n) ∈ tree_leaves (ld_tree l) → tree_get (ld_tree l) path = Some n ∧ is_table n = false)
  ∧ (∀ o, (path, o) ∈ unread l → (path ∉ ld_consumed l) ∧ ∃ v, tree_get (ld_tree l) path = Some (v, o)).
Proof.
  intros Hw Hn.
  assert (Hl : ∀ path n, (path, n) ∈ tree_leaves (ld_tree l) → tree_get (ld_tree l) path = Some n ∧ is_table n = false).
  { intros p m. unfold tree_leaves. destruct (ld_tree l) as [[v o]|]; [|by intros ?%elem_of_nil]. intros Hin.
    exact (proj1 (Forall_forall _ _) (collect_get (v, o) v o [] Hw Hn eq_refl) _ Hin). }
  split; [apply Hl|]. intros o ([p [v o']] & [= -> ->] & Hin)%list_elem_of_fmap. apply elem_of_filterb in Hin as [Hc Hin].
  cbn [fst] in *. split; [by apply negb_true_iff, bool_decide_eq_false in Hc|]. exists v. by apply Hl.
Qed.

(** ** The .env format *)

(** C13: A file of variables is read back as written: lines [KEY="value"] with the value's newlines,
    double quotes and backslashes escaped give the same keys and values, each with its line. And a
    file is accepted exactly when none of its lines is refused and no key is written twice; then its
    entries are those of its lines, in order. *)
Theorem dotenv_roundtrip es : Forall (λ e : str * str, valid_key e.1 = true) es → NoDup es.*1 →
  dotenv_parse (written es) = inr (imap (λ i e, {| ee_key := e.1; ee_value := e.2; ee_line := to_u32 (S i) |}) es)
  ∧ ∀ text entries, dotenv_parse text = inr entries ↔
      Forall (λ x, refused_read x = false) (lines_read 0 (lines text)) ∧ NoDup (ee_key <$> omap entry_read (lines_read 0 (lines text)))
      ∧ entries = omap entry_read (lines_read 0 (lines text)).
Proof.
  intros Hk Hnd.
  assert (Hex : ∀ text entries, dotenv_parse text = inr entries ↔
      Forall (λ x, refused_read x = false) (lines_read 0 (lines text)) ∧ NoDup (ee_key <$> omap entry_read (lines_read 0 (lines text)))
      ∧ entries = omap entry_read (lines_read 0 (lines text))).
  { intros text entries. unfold dotenv_parse. destruct (dotenv_lines_exact (lines text) {| es_entries := []; es_problems := [] |} 0) as [H1 H2]. cbn [es_entries es_problems app] in H1, H2.
    destruct (es_problems (dotenv_lines _ 0 (lines text))) as [|p ps] eqn:E.
    - destruct (proj1 H1 eq_refl) as (_ & Ha & Hb & _). rewrite (H2 eq_refl). split; [intros [= <-]; done|by intros (_ & _ & ->)].
    - split; [done|]. intros (Ha & Hb & _). assert (p :: ps = []) by (apply H1; split_and!; try done; by intros k _ ?%elem_of_nil). done. }
  split; [|exact Hex]. apply Hex. rewrite lines_written by done.
  assert (Hr : ∀ i, lines_read i (written_line <$> es) = imap (λ j e, (to_u32 (S (i + j)), inr (e.1, e.2))) es).
  { clear Hnd Hex. induction es as [|[k v] es IH]; intros i; [done|]. apply Forall_cons in Hk as [Hk Hes]. rewrite fmap_cons, lines_read_cons, read_written by done.
    rewrite (IH Hes (S i)). cbn [imap fst snd]. rewrite Nat.add_0_r. f_equal. apply imap_ext. intros j e _. simpl. by rewrite Nat.add_succ_r. }
  rewrite Hr. cbn [Nat.add].
  assert (Ho : omap entry_read (imap (λ j e, (to_u32 (S j), inr (e.1, e.2))) es) = imap (λ i e, {| ee_key := e.1; ee_value := e.2; ee_line := to_u32 (S i) |}) es).
  { clear. generalize S. induction es as [|e es IH]; intros f; [done|]. cbn. f_equal. apply (IH (f ∘ S)). }
  rewrite Ho. split_and!; [| |done].
  2: { assert (Hkeys : ee_key <$> imap (λ i e, {| ee_key := e.1; ee_value := e.2; ee_line := to_u32 (S i) |}) es = es.*1); [|by rewrite Hkeys].
       clear. generalize S. induction es as [|e es IH]; intros f; [done|]. cbn. f_equal. apply (IH (f ∘ S)). }
  apply Forall_forall. intros x (i & Hx)%list_elem_of_lookup. rewrite list_lookup_imap in Hx. destruct (es !! i); [|done]. by injection Hx as <-.
Qed.

(** ** Typed reads *)

Section Read.
Context {T : Type} (pass : list (str * str) → gset str → PassEnd T) (l : Loaded) (path : str).


























End Read.

(** ** Examples *)

Definition no_formats : Format → str → str → Problems + Tree := λ _ _ _, inr None.
Definition no_files : str → FileRead := λ _, FileNotFound.

(** Lowercasing of ASCII letters, as the Unicode tables have it. *)
Definition ascii_lower (s : str) : str := (λ c, if is_ascii_upper c then ascii_of_nat (nat_of_ascii c + 32) else c) <$> s.

(** Values set in code under variables of the environment, one of which replaces a table. *)
Definition demo_vars : list (str * str) := [(str_of "APP_HTTP__PORT", str_of "80"); (str_of "APP_NAME", str_of "api"); (str_of "HOME", str_of "/root")].

Definition demo_sources : list Source :=
  [SValues [(str_of "http.port", SInteger 8080); (str_of "http.host", SString (str_of "::1")); (str_of "name.first", SBool true)];
   SEnv demo_vars (Some (str_of "APP_")) (str_of "__")].

Definition demo_loaded : Loaded := load ascii_lower no_formats no_files demo_sources.

Lemma layers_last_wins_example :
  Forall (λ s, tree_wf (ly_tree (source_read ascii_lower no_formats no_files s))) demo_sources
  ∧ scalar_at (ld_tree demo_loaded) [str_of "http"; str_of "port"] = Some (VText (str_of "80"), OVariable (str_of "APP_HTTP__PORT"))
  ∧ scalar_at (ld_tree demo_loaded) [str_of "http"; str_of "host"] = Some (VString (str_of "::1"), OExplicit (str_of "http.host"))
  ∧ scalar_at (ld_tree demo_loaded) [str_of "name"; str_of "first"] = None.
Proof.
  assert (Hw : Forall (λ s, tree_wf (ly_tree (source_read ascii_lower no_formats no_files s))) demo_sources).
  { apply Forall_cons. split; [exact (plain_source_wf ascii_lower no_formats no_files (SValues _))|]. apply Forall_singleton.
    exact (plain_source_wf ascii_lower no_formats no_files (SEnv _ _ _)). }
  split; [exact Hw|]. destruct (layers_last_wins ascii_lower no_formats no_files demo_sources Hw) as (_ & H & _). cbv zeta in H. fold demo_loaded in H.
  rewrite !H. split_and!; vm_compute; reflexivity.
Defined.

Lemma variables_read_example :
  segments ascii_lower (str_of "APP_HTTP__PORT") (Some (str_of "APP_")) (str_of "__") = Some [str_of "http"; str_of "port"]
  ∧ scalar_at (ly_tree (source_read ascii_lower no_formats no_files (SEnv demo_vars (Some (str_of "APP_")) (str_of "__")))) [str_of "http"; str_of "port"]
    = Some (VText (str_of "80"), OVariable (str_of "APP_HTTP__PORT")).
Proof.
  split; [vm_compute; reflexivity|].
  apply (variables_read ascii_lower no_formats no_files demo_vars (Some (str_of "APP_")) (str_of "__") [] (str_of "APP_HTTP__PORT") (str_of "80")
    [(str_of "APP_NAME", str_of "api"); (str_of "HOME", str_of "/root")]); [reflexivity|vm_compute; reflexivity|].
  intros v path' [->|[->|[]%elem_of_nil]%elem_of_cons]%elem_of_cons Hs; vm_compute in Hs; [|discriminate Hs]. injection Hs as <-.
  exists [], (str_of "name"), (str_of "http"), [], [str_of "port"]. by split_and!.
Defined.

Definition named_tree : Loaded := {|
  ld_tree := Some (VTable [(str_of "hosts", (VArray [(VTable [(str_of "name", (VNull, ODefault))], ODefault); (VText (str_of "b"), OVariable (str_of "H"))], ODefault))], ODefault);
  ld_failures := []; ld_defaults := false; ld_consumed := ∅ |}.

Lemma leaves_read_back_example :
  tree_leaves (ld_tree named_tree) = [(str_of "hosts[0].name", (VNull, ODefault)); (str_of "hosts[1]", (VText (str_of "b"), OVariable (str_of "H")))]
  ∧ tree_get (ld_tree named_tree) (str_of "hosts[0].name") = Some (VNull, ODefault).
Proof.
  assert (E : tree_leaves (ld_tree named_tree) = [(str_of "hosts[0].name", (VNull, ODefault)); (str_of "hosts[1]", (VText (str_of "b"), OVariable (str_of "H")))]) by (vm_compute; reflexivity).
  assert (Hp : ∀ k, k = str_of "hosts" ∨ k = str_of "name" → plain_key k).
  { intros k Hk. split_and!; [by destruct Hk as [-> | ->]|apply (bool_decide_unpack (dot ∉ k)); destruct Hk as [-> | ->]; vm_compute; done|apply (bool_decide_unpack (bracket ∉ k)); destruct Hk as [-> | ->]; vm_compute; done]. }
  split; [exact E|]. apply (leaves_read_back named_tree (str_of "hosts[0].name") (VNull, ODefault)).
  - cbn. repeat split; repeat constructor; set_solver.
  - cbn. split_and!; try done; apply Hp; auto.
  - rewrite E. left.
Defined.

Lemma dotenv_roundtrip_example : ∃ entries,
  dotenv_parse (written [(str_of "A", [newline; backslash; double_quote; hash]); (str_of "export", [])]) = inr entries ∧ ee_value <$> entries = [[newline; backslash; double_quote; hash]; []].
Proof.
  eexists. split.
  - apply dotenv_roundtrip; [by repeat constructor|]. apply NoDup_cons. split; [|apply NoDup_singleton]. by intros ?%list_elem_of_singleton.
  - reflexivity.
Defined.



