(* ===== verification/Queue.v ===== *)
(** * Queue: a call's bounded queue of frames

    [ulo-rpc/src/queue.rs]. The counter and the flag are atomics beside an unbounded channel, so a
    [QEvent] is one atomic step of a call and a run is any interleaving of producers, halts and the
    reader. The channel is [futures-channel]'s, a parameter with the behaviour its documentation
    gives. The counter is an integer: below zero it would wrap, and that it never is is proved. *)

From S2P Require Import Prelude.
Local Open Scope nat_scope.
Local Open Scope list_scope.

(** [mpsc::unbounded]: a send fails once the channel is closed or its receiver gone, an item sent is
    received in its turn, a closed channel still gives what it holds, and a receiver dropped drops
    the items it had not received. *)
Class Mpsc (T : Type) := {
  Ch : Type;
  ch_items : Ch → list T;
  ch_open : Ch → bool;
  ch_new : Ch;
  ch_send : T → Ch → option Ch;
  ch_recv : Ch → option (T * Ch);
  ch_close : Ch → Ch;
  ch_drop : Ch → Ch;
  ch_new_spec : ch_items ch_new = [] ∧ ch_open ch_new = true;
  ch_send_open : ∀ x c, ch_open c = true → ∃ c', ch_send x c = Some c' ∧ ch_items c' = ch_items c ++ [x] ∧ ch_open c' = true;
  ch_send_closed : ∀ x c, ch_open c = false → ch_send x c = None;
  ch_recv_spec : ∀ c, match ch_items c with
    | [] => ch_recv c = None
    | x :: xs => ∃ c', ch_recv c = Some (x, c') ∧ ch_items c' = xs ∧ ch_open c' = ch_open c
    end;
  ch_close_spec : ∀ c, ch_items (ch_close c) = ch_items c ∧ ch_open (ch_close c) = false;
  ch_drop_spec : ∀ c, ch_items (ch_drop c) = [] ∧ ch_open (ch_drop c) = false;
}.

Definition DEFAULT_MAX_QUEUED_ITEMS : nat := 1024.

Inductive Count := CountDefault | CountMax (n : nat) | CountUnlimited.

Definition limit_of (count : Count) : option nat :=
  match count with CountDefault => Some DEFAULT_MAX_QUEUED_ITEMS | CountMax n => Some n | CountUnlimited => None end.

(** How an item was queued. *)
Inductive Lane := Offered | Last.

Section Queue.
Context {T : Type} {mpsc : Mpsc (Lane * T)} (limit : option nat).

(** Where a producer's call is: [offer] or [finish] by its lane. *)
Inductive Producer :=
  | Refusing             (* counted past the limit, to be taken back *)
  | Sending (lane : Lane) (item : T)
  | Dropping (lane : Lane)   (* the channel refused it, to be taken back *)
  | Answered (lane : Lane) (fitted : bool).

Inductive Halting := Flagged | Halted.

Inductive Reader :=
  | Idle
  | Checked              (* [poll_next], past its first read of the flag *)
  | Took (item : T)      (* an item received, not yet uncounted *)
  | Uncounted (item : T)
  | Ended                (* the last poll answered the end *)
  | Gone.

(** [q_sent] is what the channel took, [q_read] what polls answered, both in order, and [q_lost] how
    many items were unread when the reader was dropped. *)
Record QState := {
  q_held : Z;
  q_halted : bool;
  q_chan : Ch;
  q_producers : list Producer;
  q_halts : list Halting;
  q_reader : Reader;
  q_sent : list T;
  q_read : list T;
  q_lost : nat;
}.

(** [queue]. *)
Definition queue : QState :=
  {| q_held := 0; q_halted := false; q_chan := ch_new; q_producers := []; q_halts := []; q_reader := Idle; q_sent := []; q_read := []; q_lost := 0 |}.

Inductive QEvent :=
  | QOffer (item : T)    (* [offer]: counted, and compared with the limit *)
  | QFinish (item : T)   (* [finish]: counted *)
  | QStep (p : nat)      (* the next step of a producer's call *)
  | QHalt                (* [halt]: the flag stored *)
  | QClose (h : nat)     (* the channel closed *)
  | QEnd                 (* the last producing end dropped *)
  | QPoll                (* [poll_next] called *)
  | QRead                (* the next step of the reader's poll *)
  | QDrop.               (* the reader dropped *)

Definition with_producers (s : QState) (held : Z) (chan : Ch) (sent : list T) (ps : list Producer) : QState :=
  {| q_held := held; q_halted := q_halted s; q_chan := chan; q_producers := ps; q_halts := q_halts s; q_reader := q_reader s; q_sent := sent; q_read := q_read s; q_lost := q_lost s |}.

Definition with_reader (s : QState) (held : Z) (chan : Ch) (r : Reader) (read : list T) : QState :=
  {| q_held := held; q_halted := q_halted s; q_chan := chan; q_producers := q_producers s; q_halts := q_halts s; q_reader := r; q_sent := q_sent s; q_read := read; q_lost := q_lost s |}.

Definition over (held : Z) : bool := match limit with Some n => bool_decide (Z.of_nat n ≤ held)%Z | None => false end.

Definition offer (s : QState) (item : T) : QState :=
  with_producers s (q_held s + 1) (q_chan s) (q_sent s) (q_producers s ++ [if over (q_held s) then Refusing else Sending Offered item]).

Definition finish (s : QState) (item : T) : QState :=
  with_producers s (q_held s + 1) (q_chan s) (q_sent s) (q_producers s ++ [Sending Last item]).

Definition producer_step (s : QState) (p : nat) (call : Producer) : option QState :=
  match call with
  | Refusing => Some (with_producers s (q_held s - 1) (q_chan s) (q_sent s) (<[p := Answered Offered false]> (q_producers s)))
  | Sending lane item =>
      match ch_send (lane, item) (q_chan s) with
      | Some chan => Some (with_producers s (q_held s) chan (q_sent s ++ [item]) (<[p := Answered lane true]> (q_producers s)))
      | None => Some (with_producers s (q_held s) (q_chan s) (q_sent s) (<[p := Dropping lane]> (q_producers s)))
      end
  | Dropping lane => Some (with_producers s (q_held s - 1) (q_chan s) (q_sent s) (<[p := Answered lane true]> (q_producers s)))
  | Answered _ _ => None
  end.

Definition halt (s : QState) : QState :=
  {| q_held := q_held s; q_halted := true; q_chan := q_chan s; q_producers := q_producers s; q_halts := q_halts s ++ [Flagged]; q_reader := q_reader s;
     q_sent := q_sent s; q_read := q_read s; q_lost := q_lost s |}.

Definition halt_close (s : QState) (h : nat) : QState :=
  {| q_held := q_held s; q_halted := q_halted s; q_chan := ch_close (q_chan s); q_producers := q_producers s; q_halts := <[h := Halted]> (q_halts s);
     q_reader := q_reader s; q_sent := q_sent s; q_read := q_read s; q_lost := q_lost s |}.

(** [Stream::poll_next]. *)
Definition read_step (s : QState) : option QState :=
  match q_reader s with
  | Checked =>
      match ch_recv (q_chan s) with
      | Some ((_, item), chan) => Some (with_reader s (q_held s) chan (Took item) (q_read s))
      | None => Some (with_reader s (q_held s) (q_chan s) (if ch_open (q_chan s) then Idle else Ended) (q_read s))
      end
  | Took item => Some (with_reader s (q_held s - 1) (q_chan s) (Uncounted item) (q_read s))
  | Uncounted item =>
      if q_halted s then Some (with_reader s (q_held s) (q_chan s) Ended (q_read s))
      else Some (with_reader s (q_held s) (q_chan s) Idle (q_read s ++ [item]))
  | _ => None
  end.

Definition read_poll (s : QState) : QState :=
  with_reader s (q_held s) (q_chan s) (if q_halted s then Ended else Checked) (q_read s).

Definition drop_reader (s : QState) : QState :=
  {| q_held := q_held s; q_halted := q_halted s; q_chan := ch_drop (q_chan s); q_producers := q_producers s; q_halts := q_halts s; q_reader := Gone;
     q_sent := q_sent s; q_read := q_read s; q_lost := length (ch_items (q_chan s)) |}.

(** The channel closes with its last sender. *)
Definition producers_gone (s : QState) : QState := with_producers s (q_held s) (ch_close (q_chan s)) (q_sent s) (q_producers s).

Definition answered (call : Producer) : bool := match call with Answered _ _ => true | _ => false end.

(** [halted_at]. *)
Definition halted_at (s : QState) : option nat := if q_halted s then limit else None.

Definition between_polls (r : Reader) : bool := match r with Idle | Ended => true | _ => false end.

Definition qstep (s : QState) (e : QEvent) : option QState :=
  match e with
  | QOffer item => Some (offer s item)
  | QFinish item => Some (finish s item)
  | QStep p => match q_producers s !! p with Some call => producer_step s p call | None => None end
  | QHalt => Some (halt s)
  | QClose h => match q_halts s !! h with Some Flagged => Some (halt_close s h) | _ => None end
  | QEnd => if forallb answered (q_producers s) then Some (producers_gone s) else None
  | QPoll => if between_polls (q_reader s) then Some (read_poll s) else None
  | QRead => read_step s
  | QDrop => if between_polls (q_reader s) then Some (drop_reader s) else None
  end.

Inductive qreachable : QState → Prop :=
  | qreachable_new : qreachable queue
  | qreachable_step s e s' : qreachable s → qstep s e = Some s' → qreachable s'.

Definition qsteps (s : QState) (es : list QEvent) : option QState := foldl (λ os e, os ≫= λ s, qstep s e) (Some s) es.
End Queue.
