(* ===== verification/QueueTheorems.v ===== *)
(** * QueueTheorems: what a bounded queue holds, and when it refuses *)

From S2P Require Import Prelude Queue.
Local Open Scope nat_scope.
Local Open Scope list_scope.

Section Queue.
Context {T : Type} {mpsc : Mpsc (Lane * T)} (limit : option nat).
Implicit Type s : @QState T mpsc.

(** Calls between counting an item and its send or its taking back. *)
Definition counted (call : @Producer T) : nat := match call with Answered _ _ => 0 | _ => 1 end.
Definition offering (call : @Producer T) : nat := match call with Sending Offered _ => 1 | _ => 0 end.
Definition finished (call : @Producer T) : nat := match call with Answered Last _ => 1 | _ => 0 end.
Definition of_lane (lane : Lane) (x : Lane * T) : nat := match lane, x.1 with Offered, Offered | Last, Last => 1 | _, _ => 0 end.

Definition pending (r : @Reader T) : list T := match r with Took x | Uncounted x => [x] | _ => [] end.
Definition uncounted (r : @Reader T) : nat := match r with Took _ => 1 | _ => 0 end.

Record qinv s : Prop := {
  qi_held : q_held s = Z.of_nat (length (ch_items (q_chan s)) + total (counted <$> q_producers s) + uncounted (q_reader s) + q_lost s);
  qi_offered : ∀ n, limit = Some n → total (of_lane Offered <$> ch_items (q_chan s)) + total (offering <$> q_producers s) ≤ n;
  qi_last : total (of_lane Last <$> ch_items (q_chan s)) ≤ total (finished <$> q_producers s);
  qi_gone : match q_reader s with Gone => ch_items (q_chan s) = [] ∧ ch_open (q_chan s) = false | _ => q_lost s = 0 end;
  qi_read : q_read s `prefix_of` q_sent s;
  qi_order : q_reader s ≠ Gone → ∃ taken, q_sent s = taken ++ (ch_items (q_chan s)).*2
    ∧ (q_read s ++ pending (q_reader s) = taken ∨ q_halted s = true ∧ q_reader s = Ended ∧ q_read s `prefix_of` taken);
}.

Lemma qinv_queue : qinv queue.
Proof. destruct ch_new_spec as [Hi Ho]. split; cbn; rewrite ?Hi; try done; cbn; try lia. intros _. exists []. split; [done|by left]. Qed.

Lemma total_snoc ns n : total (ns ++ [n]) = total ns + n.
Proof. rewrite total_app. cbn. lia. Qed.

Lemma offered_held s n : limit = Some n → qinv s → total (of_lane Offered <$> ch_items (q_chan s)) + total (offering <$> q_producers s) ≤ Z.to_nat (q_held s).
Proof.
  intros _ Hi. rewrite (qi_held s Hi). rewrite Nat2Z.id.
  assert (H1 : total (of_lane Offered <$> ch_items (q_chan s)) ≤ length (ch_items (q_chan s))).
  { rewrite <- (Nat.mul_1_l (length _)). apply total_fmap_bound. by intros [[] x] _; cbn; lia. }
  assert (H2 : total (offering <$> q_producers s) ≤ total (counted <$> q_producers s)).
  { apply total_fmap_le. intros [|[] x| |] _; cbn; lia. }
  lia.
Qed.

Lemma qinv_offer s x : qinv s → qinv (offer limit s x).
Proof.
  intros Hi. pose proof Hi as [H1 H2 H3 H4 H5 H6]. unfold offer. split; cbn [with_producers q_held q_chan q_producers q_reader q_lost q_read q_sent q_halted]; try done; rewrite ?fmap_app; cbn [fmap list_fmap]; rewrite ?total_snoc.
  - rewrite H1. destruct (over limit _); cbn; lia.
  - intros n Hn. pose proof (offered_held s n Hn Hi) as Hh. unfold over. rewrite Hn. case_bool_decide as Hb; cbn; [specialize (H2 n Hn); lia|]. lia.
  - destruct (over limit _); cbn; lia.
Qed.

Lemma qinv_finish s x : qinv s → qinv (finish s x).
Proof.
  intros [H1 H2 H3 H4 H5 H6]. unfold finish. split; cbn [with_producers q_held q_chan q_producers q_reader q_lost q_read q_sent q_halted]; try done; rewrite ?fmap_app; cbn [fmap list_fmap]; rewrite ?total_snoc.
  - rewrite H1. cbn. lia.
  - intros n Hn. specialize (H2 n Hn). cbn. lia.
  - cbn. lia.
Qed.

(** A producer's step that sends nothing. *)
Lemma qinv_producer s p call held call' : qinv s → q_producers s !! p = Some call → (q_held s + Z.of_nat (counted call') = held + Z.of_nat (counted call))%Z →
  offering call' ≤ offering call → finished call ≤ finished call' → qinv (with_producers s held (q_chan s) (q_sent s) (<[p := call']> (q_producers s))).
Proof.
  intros [H1 H2 H3 H4 H5 H6] Hp Hh Ho Hf. pose proof (total_insert counted _ _ _ call' Hp). pose proof (total_insert offering _ _ _ call' Hp). pose proof (total_insert finished _ _ _ call' Hp).
  split; cbn [with_producers q_held q_chan q_producers q_reader q_lost q_read q_sent q_halted]; try done; [lia|intros n Hn; specialize (H2 n Hn); lia|lia].
Qed.

Lemma qinv_send s p lane x : qinv s → q_producers s !! p = Some (Sending lane x) → ∀ s', producer_step s p (Sending lane x) = Some s' → qinv s'.
Proof.
  intros Hi Hp s' E. cbn [producer_step] in E. destruct (ch_open (q_chan s)) eqn:Eo.
  - destruct (ch_send_open (lane, x) (q_chan s) Eo) as (c' & Es & Hitems & Ho). rewrite Es in E. injection E as <-. destruct Hi as [H1 H2 H3 H4 H5 H6].
    pose proof (total_insert counted _ _ _ (Answered lane true) Hp) as Hc. pose proof (total_insert offering _ _ _ (Answered lane true) Hp) as Hof. pose proof (total_insert finished _ _ _ (Answered lane true) Hp) as Hfi.
    assert (Hr : q_reader s ≠ Gone) by (intros E; rewrite E in H4; destruct H4; congruence).
    split; cbn [with_producers q_held q_chan q_producers q_reader q_lost q_read q_sent q_halted]; rewrite ?Hitems, ?fmap_app, ?length_app; cbn [fmap list_fmap length]; rewrite ?total_snoc.
    + cbn in Hc. lia.
    + intros n Hn. specialize (H2 n Hn). destruct lane; cbn in *; lia.
    + destruct lane; cbn in *; lia.
    + by destruct (q_reader s).
    + by apply prefix_app_r.
    + intros Hg. destruct (H6 Hg) as (taken & -> & Ht). exists taken. split; [by rewrite <- app_assoc|done].
  - rewrite (ch_send_closed (lane, x) (q_chan s) Eo) in E. injection E as <-. eapply qinv_producer; [done|exact Hp|..]; by destruct lane; cbn; try lia.
Qed.

(** A reader's step that takes nothing and answers no item. *)
Lemma qinv_reader s held r' : qinv s → q_reader s ≠ Gone → r' ≠ Gone → q_reader s = Ended ∧ r' = Ended ∨ pending r' = pending (q_reader s) ∧ (q_reader s = Ended → q_halted s = false) →
  (q_held s + Z.of_nat (uncounted r') = held + Z.of_nat (uncounted (q_reader s)))%Z → qinv (with_reader s held (q_chan s) r' (q_read s)).
Proof.
  intros [H1 H2 H3 H4 H5 H6] Hs Hg Hpd Hh.
  split; cbn [with_reader q_held q_chan q_producers q_reader q_lost q_read q_sent q_halted]; auto; [lia|destruct (q_reader s), r'; done|].
  intros _. destruct (H6 Hs) as (taken & Ht & Hc). exists taken. split; [done|]. destruct Hpd as [[He ->]|[-> He]].
  - destruct Hc as [Hc|(? & _ & ?)]; [left; by rewrite <- Hc, He|right; done].
  - destruct Hc as [Hc|(Hha & Hre & _)]; [by left|]. specialize (He Hre). congruence.
Qed.

Lemma qinv_read s s' : qinv s → read_step s = Some s' → qinv s'.
Proof.
  intros Hi E. unfold read_step in E. destruct (q_reader s) as [| |x|x| |] eqn:Er; try done.
  - pose proof (ch_recv_spec (q_chan s)) as Hrecv. destruct (ch_items (q_chan s)) as [|[lane x] items] eqn:Ei.
    + rewrite Hrecv in E. injection E as <-. apply qinv_reader; [done|by rewrite Er|by destruct (ch_open _)|right; rewrite Er; split; [by destruct (ch_open _)|done]|rewrite Er; destruct (ch_open _); cbn; lia].
    + destruct Hrecv as (c' & Hc & Hitems & Hopen). rewrite Hc in E. injection E as <-. destruct Hi as [H1 H2 H3 H4 H5 H6].
      rewrite Er, Ei in *. destruct H6 as (taken & Ht & Hr); [done|]. destruct Hr as [Hr|(_ & ? & _)]; [|done]. cbn in Hr. rewrite app_nil_r in Hr. subst taken.
      split; cbn [with_reader q_held q_chan q_producers q_reader q_lost q_read q_sent q_halted]; rewrite ?Hitems; try done.
      * rewrite H1. cbn. lia.
      * intros n Hn. specialize (H2 n Hn). rewrite fmap_cons, total_cons in H2. lia.
      * rewrite fmap_cons, total_cons in H3. lia.
      * intros _. exists (q_read s ++ [x]). split; [rewrite Ht; cbn; by rewrite <- app_assoc|by left].
  - injection E as <-. apply qinv_reader; rewrite ?Er; try done; [right; done|cbn; lia].
  - destruct Hi as [H1 H2 H3 H4 H5 H6]. rewrite Er in *. destruct H6 as (taken & Ht & Hr); [done|]. destruct Hr as [Hr|(_ & ? & _)]; [|done]. cbn in Hr. subst taken.
    destruct (q_halted s) eqn:Eh; injection E as <-; split; cbn [with_reader q_held q_chan q_producers q_reader q_lost q_read q_sent q_halted]; try done.
    + intros _. exists (q_read s ++ [x]). split; [done|]. right. split_and!; [done..|by apply prefix_app_r].
    + rewrite Ht. by apply prefix_app_r.
    + intros _. exists (q_read s ++ [x]). split; [done|]. left. by rewrite app_nil_r.
Qed.

Lemma qinv_step s e s' : qinv s → qstep limit s e = Some s' → qinv s'.
Proof.
  intros Hi E. destruct e as [x|x|p| |h| | | |]; cbn [qstep] in E.
  - injection E as <-. by apply qinv_offer.
  - injection E as <-. by apply qinv_finish.
  - destruct (q_producers s !! p) as [call|] eqn:Ep; [|done]. destruct call as [|lane x|lane|lane fitted]; [..|done].
    + injection E as <-. apply (qinv_producer s p Refusing); [done|done|cbn; lia..].
    + by eapply qinv_send.
    + injection E as <-. apply (qinv_producer s p (Dropping lane)); [done|done|cbn; lia|done|by destruct lane; cbn; lia].
  - injection E as <-. destruct Hi as [H1 H2 H3 H4 H5 H6]. split; cbn; try done. intros Hg. destruct (H6 Hg) as (taken & Ht & Hr). exists taken. split; [done|]. naive_solver.
  - destruct (q_halts s !! h) as [[]|]; try done. injection E as <-. destruct (ch_close_spec (q_chan s)) as [Hc Ho], Hi as [H1 H2 H3 H4 H5 H6].
    split; cbn; rewrite ?Hc; try done. destruct (q_reader s); try done. by destruct H4.
  - destruct (forallb answered (q_producers s)); [|done]. injection E as <-. destruct (ch_close_spec (q_chan s)) as [Hc Ho], Hi as [H1 H2 H3 H4 H5 H6].
    split; cbn; rewrite ?Hc; try done. destruct (q_reader s); try done. by destruct H4.
  - destruct (between_polls (q_reader s)) eqn:Eb; [|done]. injection E as <-. unfold read_poll. apply qinv_reader; [done|by intros Hg; rewrite Hg in Eb|by destruct (q_halted s)| |].
    + destruct (q_reader s) eqn:Er; try done; destruct (q_halted s); [right|right|by left|right]; done.
    + by destruct (q_reader s), (q_halted s).
  - by apply (qinv_read s).
  - destruct (between_polls (q_reader s)) eqn:Eb; [|done]. injection E as <-. destruct (ch_drop_spec (q_chan s)) as [Hc Ho], Hi as [H1 H2 H3 H4 H5 H6].
    split; cbn [drop_reader q_held q_chan q_producers q_reader q_lost q_read q_sent q_halted]; rewrite ?Hc; try done; cbn [length fmap list_fmap total foldr].
    + destruct (q_reader s); try done; rewrite H1, H4; cbn [uncounted]; lia.
    + intros n Hn. specialize (H2 n Hn). lia.
    + lia.
Qed.

Lemma qreachable_inv s : qreachable limit s → qinv s.
Proof. induction 1 as [|s e s' _ IH E]; [apply qinv_queue|by eapply qinv_step]. Qed.

Lemma lanes_length (l : list (Lane * T)) : total (of_lane Offered <$> l) + total (of_lane Last <$> l) = length l.
Proof. induction l as [|[[] x] l IH]; [done|..]; rewrite !fmap_cons, !total_cons; cbn; lia. Qed.

(** A call's queue keeps its bound and its order. Over every interleaving of producers, halts and
    the reader the counter is the items unread and the calls that have counted one, so it never goes
    below zero; the items offered and unread never pass the limit, and those of [finish] come on top
    of them, one for each call of it; and the reader is given the items in the order they were
    queued, none twice, and until a halt none left out. *)
Theorem queue_bounded s : qreachable limit s →
  q_held s = Z.of_nat (length (ch_items (q_chan s)) + total (counted <$> q_producers s) + uncounted (q_reader s) + q_lost s)
  ∧ (∀ n, limit = Some n → total (of_lane Offered <$> ch_items (q_chan s)) ≤ n
      ∧ length (ch_items (q_chan s)) ≤ n + total (finished <$> q_producers s))
  ∧ q_read s `prefix_of` q_sent s
  ∧ (q_halted s = false → q_reader s ≠ Gone → q_sent s = q_read s ++ pending (q_reader s) ++ (ch_items (q_chan s)).*2).
Proof.
  intros [H1 H2 H3 H4 H5 H6]%qreachable_inv. split_and!; [done| |done|].
  - intros n Hn. specialize (H2 n Hn). pose proof (lanes_length (ch_items (q_chan s))). lia.
  - intros Hh Hg. destruct (H6 Hg) as (taken & -> & [Hr|(? & _)]); [|congruence]. by rewrite app_assoc, Hr.
Qed.

(** No call is under way. *)
Definition quiet s : Prop := forallb answered (q_producers s) = true ∧ (between_polls (q_reader s) = true ∨ q_reader s = Gone).

(** What the counter stands for then: the items unread, or those that were when the reader went. *)
Definition waiting s : nat := match q_reader s with Gone => q_lost s | _ => length (ch_items (q_chan s)) end.

Definition full s : bool := match limit with Some n => n <=? waiting s | None => false end.

Lemma quiet_held s : qinv s → quiet s → q_held s = Z.of_nat (waiting s).
Proof.
  intros [H1 _ _ H4 _ _] [Ha Hr]. rewrite H1. f_equal. unfold waiting.
  assert (Hc : total (counted <$> q_producers s) = 0).
  { assert (Hle : total (counted <$> q_producers s) ≤ 0 * length (q_producers s)); [|lia]. apply total_fmap_bound. intros call Hin.
    pose proof (proj1 (forallb_elem _ _) Ha call Hin). by destruct call. }
  rewrite Hc. destruct Hr as [Hr|Hr]; [destruct (q_reader s); try done; cbn; lia|]. rewrite Hr in *. destruct H4 as [-> _]. cbn. lia.
Qed.

(** C14: An offer made while no other call is under way is refused exactly when the limit's worth of
    items wait unread, and is queued otherwise, or dropped when the channel has closed. When the
    reader has gone, what counts as waiting is what it had left unread: a reader that goes from a
    full queue has every later item refused, which ends the call. *)
Theorem offer_exact s x : qreachable limit s → quiet s →
  ∃ es s', qsteps limit s (QOffer x :: es) = Some s' ∧ Forall (λ e, e = QStep (length (q_producers s))) es
    ∧ q_producers s' !! length (q_producers s) = Some (Answered Offered (negb (full s)))
    ∧ ch_items (q_chan s') = (if full s then ch_items (q_chan s) else if ch_open (q_chan s) then ch_items (q_chan s) ++ [(Offered, x)] else ch_items (q_chan s))
    ∧ q_held s' = Z.of_nat (waiting s + (if full s then 0 else if ch_open (q_chan s) then 1 else 0)).
Proof.
  intros Hi%qreachable_inv Hq. pose proof (quiet_held s Hi Hq) as Hh. set (p := length (q_producers s)).
  assert (Hov : over limit (q_held s) = full s).
  { unfold over, full. rewrite Hh. destruct limit as [n|]; [|done]. case_bool_decide; symmetry; [apply Nat.leb_le|apply Nat.leb_gt]; lia. }
  assert (Hl : ∀ call ps, (q_producers s ++ [call] : list (@Producer T)) = ps → ps !! p = Some call) by (intros call ps <-; apply list_lookup_middle; done).
  destruct (full s) eqn:Ef; [|destruct (ch_open (q_chan s)) eqn:Eo].
  - exists [QStep p]. eexists. split_and!; [cbn; rewrite (Hl Refusing) by (unfold offer; by rewrite Hov); cbn; reflexivity|by repeat constructor|..]; cbn; [|done|lia].
    apply list_lookup_insert_eq. rewrite length_app. cbn. unfold p. lia.
  - destruct (ch_send_open (Offered, x) (q_chan s) Eo) as (c' & Es & Hitems & _).
    exists [QStep p]. eexists. split_and!; [cbn; rewrite (Hl (Sending Offered x)) by (unfold offer; by rewrite Hov); cbn; rewrite Es; reflexivity|by repeat constructor|..]; cbn; [|done|lia].
    apply list_lookup_insert_eq. rewrite length_app. cbn. unfold p. lia.
  - pose proof (ch_send_closed (Offered, x) (q_chan s) Eo) as Es.
    exists [QStep p; QStep p]. eexists. split_and!; [cbn; rewrite (Hl (Sending Offered x)) by (unfold offer; by rewrite Hov); cbn; rewrite Es; cbn; rewrite list_lookup_insert_eq by (rewrite length_app; cbn; unfold p; lia); reflexivity|by repeat constructor|..]; cbn; [|done|lia].
    apply list_lookup_insert_eq. rewrite length_insert, length_app. cbn. unfold p. lia.
Qed.
End Queue.

(** ** Examples *)

(** A channel that is the list of its items. *)
#[export] Instance list_mpsc {T} : Mpsc T.
Proof.
  refine {| Ch := list T * bool; ch_items := fst; ch_open := snd; ch_new := ([], true);
    ch_send x c := if c.2 then Some (c.1 ++ [x], true) else None;
    ch_recv c := match c.1 with [] => None | x :: xs => Some (x, (xs, c.2)) end;
    ch_close c := (c.1, false); ch_drop c := ([], false) |}.
  - done.
  - intros x [l []]; [|done]. intros _. by eexists.
  - by intros x [l []].
  - intros [[|x l] b]; [done|]. by eexists.
  - done.
  - done.
Defined.

Definition run_queue (es : list (@QEvent nat)) : option (@QState nat list_mpsc) := qsteps (Some 2) queue es.

Lemma run_reachable es s : run_queue es = Some s → qreachable (Some 2) s.
Proof.
  unfold run_queue, qsteps. revert s. induction es as [|e es IH] using rev_ind; intros s; [intros [= <-]; constructor|].
  rewrite foldl_app. cbn. destruct (foldl _ _ es) as [s1|]; [|done]. intros E. econstructor; [by apply IH|exact E].
Qed.

(** Two items, a third refused while the reader takes one, and the last one past the limit. *)
Lemma queue_bounded_example : ∃ s, run_queue [QOffer 1; QStep 0; QOffer 2; QStep 1; QOffer 3; QPoll; QRead; QStep 2; QRead; QRead; QOffer 4; QStep 3; QFinish 5; QStep 4] = Some s
  ∧ (ch_items (q_chan s)).*2 = [2; 4; 5] ∧ q_producers s !! 2 = Some (Answered Offered false)
  ∧ length (ch_items (q_chan s)) ≤ 2 + total (finished <$> q_producers s).
Proof.
  eexists. split; [vm_compute; reflexivity|]. split; [vm_compute; reflexivity|]. split; [vm_compute; reflexivity|].
  eapply (queue_bounded (Some 2)); [|reflexivity]. apply (run_reachable [QOffer 1; QStep 0; QOffer 2; QStep 1; QOffer 3; QPoll; QRead; QStep 2; QRead; QRead; QOffer 4; QStep 3; QFinish 5; QStep 4]). vm_compute. reflexivity.
Defined.

(** The reader goes with the queue full, and the next offer is refused. *)
Lemma offer_exact_example : ∃ s, run_queue [QOffer 1; QStep 0; QOffer 2; QStep 1; QDrop] = Some s ∧ q_reader s = Gone
  ∧ ∃ es s', qsteps (Some 2) s (QOffer 3 :: es) = Some s' ∧ q_producers s' !! 2 = Some (Answered Offered false).
Proof.
  eexists. split; [vm_compute; reflexivity|]. split; [reflexivity|].
  match goal with |- ∃ es s', qsteps _ ?s _ = _ ∧ _ => destruct (offer_exact (Some 2) s 3) as (es & s' & H1 & _ & H2 & _) end.
  - apply (run_reachable [QOffer 1; QStep 0; QOffer 2; QStep 1; QDrop]). vm_compute. reflexivity.
  - split; [reflexivity|by right].
  - exists es, s'. split; [exact H1|exact H2].
Defined.
