(* ===== verification/Events.v ===== *)
(** * Events: what a wait listens to

    [event_listener::Event], which the queues and connections of the transports wait on: a class with
    the behaviour its documentation gives, an instance of it, and what a waiter keeps of an event,
    its ear: the listener it holds, if any. *)

From S2P Require Import Prelude.
Local Open Scope nat_scope.
Local Open Scope list_scope.

(** [Event]: a new listener is not notified; notifying all of them notifies each; notifying one
    notifies the only one there is; what is notified stays so until it is dropped. *)
Class Events := {
  Event : Type;
  ev_new : Event;
  live : Event → nat → bool;
  notified : Event → nat → bool;
  ev_listen : Event → Event * nat;
  ev_notify_one : Event → Event;
  ev_notify_all : Event → Event;
  ev_drop : nat → Event → Event;
  ev_new_live : ∀ i, live ev_new i = false;
  ev_listen_spec : ∀ e e' i, ev_listen e = (e', i) → live e i = false ∧ live e' i = true ∧ notified e' i = false
    ∧ ∀ j, j ≠ i → live e' j = live e j ∧ notified e' j = notified e j;
  ev_one_spec : ∀ e i, live (ev_notify_one e) i = live e i ∧ (notified e i = true → notified (ev_notify_one e) i = true)
    ∧ (live e i = true → (∀ j, live e j = true → j = i) → notified (ev_notify_one e) i = true);
  ev_all_spec : ∀ e i, live (ev_notify_all e) i = live e i ∧ (live e i = true → notified (ev_notify_all e) i = true);
  ev_drop_spec : ∀ e i j, live (ev_drop i e) j = (if bool_decide (i = j) then false else live e j)
    ∧ (i ≠ j → notified e j = true → notified (ev_drop i e) j = true);
}.

(** ** Ears *)

Section Ears.
Context {events : Events}.
Implicit Types (e : Event) (ear : option nat).

(** [ear.get_or_insert_with(|| event.listen())]. *)
Definition ear_listen e ear : Event * option nat :=
  match ear with Some i => (e, Some i) | None => let '(e, i) := ev_listen e in (e, Some i) end.

(** A poll of the listener that is ready, and spends it. *)
Definition ear_hears e ear : bool := match ear with Some i => notified e i | None => false end.

Definition ear_drop e ear : Event := match ear with Some i => ev_drop i e | None => e end.

Definition asleep e ear : Prop := ∃ i, ear = Some i ∧ notified e i = false.

(** The ear is the only listener. *)
Definition sole e ear : Prop := ∀ i, live e i = true ↔ ear = Some i.

(** The ears of many waiters: each listens, and no two with one listener. *)
Definition shared e (ears : nat → option nat) : Prop :=
  (∀ k i, ears k = Some i → live e i = true) ∧ (∀ k k' i, ears k = Some i → ears k' = Some i → k = k').

Definition set_ear (ears : nat → option nat) (k : nat) ear : nat → option nat := λ k', if bool_decide (k' = k) then ear else ears k'.

Lemma sole_new : sole ev_new None.
Proof. intros i. by rewrite ev_new_live. Qed.

Lemma sole_listen e ear : sole e ear → sole (ear_listen e ear).1 (ear_listen e ear).2 ∧ is_Some (ear_listen e ear).2.
Proof.
  intros H. unfold ear_listen. destruct ear as [i|]; [done|]. destruct (ev_listen e) as [e' i] eqn:E. destruct (ev_listen_spec _ _ _ E) as (_ & Hl & _ & Ho).
  split; [|done]. intros j. cbn. destruct (decide (j = i)) as [->|Hne]; [by rewrite Hl|]. destruct (Ho j Hne) as [-> _]. rewrite (H j). naive_solver.
Qed.

Lemma sole_drop e ear : sole e ear → sole (ear_drop e ear) None.
Proof.
  intros H i. unfold ear_drop. destruct ear as [j|]; [|apply H]. destruct (ev_drop_spec e j i) as [-> _]. case_bool_decide as E; [done|]. rewrite (H i). naive_solver.
Qed.

Lemma sole_one e ear : sole e ear → sole (ev_notify_one e) ear ∧ ¬ asleep (ev_notify_one e) ear.
Proof.
  intros H. split; [intros i; by rewrite (proj1 (ev_one_spec e i))|]. intros (i & -> & Hn). destruct (ev_one_spec e i) as (_ & _ & Hone).
  rewrite Hone in Hn; [done|by apply H|]. intros j Hj%H. congruence.
Qed.

Lemma shared_new ears : (∀ k, ears k = None) → shared ev_new ears.
Proof. intros H. split; intros; congruence. Qed.

Lemma shared_ext e ears ears' : (∀ k, ears' k = ears k) → shared e ears → shared e ears'.
Proof. intros H [H1 H2]. split; intros k; rewrite !H; [apply H1|]. intros k' i. rewrite H. apply H2. Qed.

(** One waiter listens: the others' ears are as they were. *)
Lemma shared_listen e ears k : shared e ears →
  let r := ear_listen e (ears k) in
  shared r.1 (set_ear ears k r.2) ∧ is_Some r.2 ∧ (∀ k', k' ≠ k → asleep r.1 (ears k') → asleep e (ears k')) ∧ (is_Some (ears k) → r = (e, ears k)).
Proof.
  intros [H1 H2]. unfold ear_listen, set_ear. destruct (ears k) as [i|] eqn:Ek; cbn.
  - split_and!; [|done|done|done]. split; intros *; repeat case_bool_decide; subst; naive_solver.
  - destruct (ev_listen e) as [e' i] eqn:E. destruct (ev_listen_spec _ _ _ E) as (Hd & Hl & _ & Ho). cbn. split_and!; [|done| |by intros []].
    + assert (Hne : ∀ k' j, ears k' = Some j → j ≠ i) by (intros k' j Hk' ->; rewrite (H1 _ _ Hk') in Hd; done). split.
      * intros k' j. case_bool_decide; [by intros [= <-]|]. intros Hj. destruct (Ho j) as [-> _]; eauto.
      * intros k1 k2 j. repeat case_bool_decide; subst; intros; simplify_eq; try done; [exfalso; by eapply Hne..|eauto].
    + intros k' Hk' (j & Hj & Hn). exists j. split; [done|]. destruct (Ho j) as [_ <-]; [|done]. intros ->. rewrite (H1 _ _ Hj) in Hd. done.
Qed.

Lemma shared_drop e ears k : shared e ears →
  shared (ear_drop e (ears k)) (set_ear ears k None) ∧ (∀ k', k' ≠ k → asleep (ear_drop e (ears k)) (ears k') → asleep e (ears k')).
Proof.
  intros [H1 H2]. unfold ear_drop, set_ear. split; [split|].
  - intros k' j. case_bool_decide; [done|]. intros Hj. destruct (ears k) as [i|] eqn:Ek; [|eauto]. destruct (ev_drop_spec e i j) as [-> _].
    case_bool_decide; [subst; exfalso; eauto|eauto].
  - intros k1 k2 j. repeat case_bool_decide; naive_solver.
  - intros k' Hne (j & Hj & Hn). exists j. split; [done|]. destruct (ears k) as [i|] eqn:Ek; [|done]. destruct (ev_drop_spec e i j) as [_ Hd].
    destruct (notified e j) eqn:En; [|done]. rewrite Hd in Hn; [done| |done]. intros ->. naive_solver.
Qed.

Lemma shared_all e ears : shared e ears → shared (ev_notify_all e) ears ∧ ∀ k, ¬ asleep (ev_notify_all e) (ears k).
Proof.
  intros [H1 H2]. split; [split; [|done]|].
  - intros k i Hk. rewrite (proj1 (ev_all_spec e i)). eauto.
  - intros k (i & Hk & Hn). rewrite (proj2 (ev_all_spec e i)) in Hn; [done|eauto].
Qed.

Lemma ear_listen_asleep e ear : asleep e ear → ear_listen e ear = (e, ear).
Proof. by intros (i & -> & _). Qed.

Lemma ear_hears_asleep e ear : is_Some ear → ear_hears e ear = false → asleep e ear.
Proof. intros [i ->] H. by exists i. Qed.
End Ears.

(** ** The event's laws can hold: listeners in a list, a dropped one left as a gap. *)

Definition slot_live (e : list (option bool)) (i : nat) : bool := bool_decide (is_Some (mjoin (e !! i))).

Definition slot_notified (e : list (option bool)) (i : nat) : bool := bool_decide (mjoin (e !! i) = Some true).

Definition wake (x : option bool) : option bool := (λ _, true) <$> x.

Fixpoint wake_first (e : list (option bool)) : list (option bool) :=
  match e with
  | [] => []
  | Some _ :: rest => Some true :: rest
  | None :: rest => None :: wake_first rest
  end.

Definition wake_one (e : list (option bool)) : list (option bool) := if bool_decide (Some true ∈ e) then e else wake_first e.

Lemma wake_first_live e i : slot_live (wake_first e) i = slot_live e i.
Proof. revert i. unfold slot_live. induction e as [|[b|] e IH]; intros [|i]; cbn; done. Qed.

Lemma wake_first_mono e i : slot_notified e i = true → slot_notified (wake_first e) i = true.
Proof. revert i. unfold slot_notified. induction e as [|[b|] e IH]; intros [|i]; cbn; try done. apply IH. Qed.

Lemma wake_first_only e i : slot_live e i = true → (∀ j, slot_live e j = true → j = i) → slot_notified (wake_first e) i = true.
Proof.
  revert i. induction e as [|[b|] e IH]; intros i Hi Hall.
  - by destruct i.
  - assert (0 = i) as <- by (apply Hall; reflexivity). reflexivity.
  - destruct i as [|i]; [done|]. apply (IH i); [exact Hi|]. intros j Hj. enough (S j = S i) by lia. by apply Hall.
Qed.

#[local] Instance list_events : Events.
Proof.
  refine {| Event := list (option bool); ev_new := []; live := slot_live; notified := slot_notified;
    ev_listen := λ e, (e ++ [Some false], length e); ev_notify_one := wake_one; ev_notify_all := fmap wake; ev_drop := λ i e, <[i := None]> e |}.
  - done.
  - intros e e' i [= <- <-]. unfold slot_live, slot_notified. rewrite list_lookup_middle, lookup_ge_None_2 by done. split_and!; try done.
    intros j Hj. destruct (decide (j < length e)); [by rewrite lookup_app_l|]. rewrite !lookup_ge_None_2; [done|lia|rewrite length_app; cbn; lia].
  - intros e i. unfold wake_one. case_bool_decide as Ht; [|split_and!; [apply wake_first_live|apply wake_first_mono|apply wake_first_only]].
    split; [done|]. split; [done|]. intros Hi Hall. apply list_elem_of_lookup in Ht as [j Hj]. assert (j = i) as ->; [apply Hall|]; unfold slot_live, slot_notified; by rewrite Hj.
  - intros e i. unfold slot_live, slot_notified. rewrite list_lookup_fmap. destruct (e !! i) as [[b|]|]; done.
  - intros e i j. unfold slot_live, slot_notified. destruct (decide (i = j)) as [<-|E].
    + split; [|done]. rewrite (bool_decide_eq_true_2 (i = i)) by done. destruct (decide (i < length e)); [by rewrite list_lookup_insert_eq|]. rewrite lookup_ge_None_2; [done|]. rewrite length_insert. lia.
    + rewrite (bool_decide_eq_false_2 (i = j)), list_lookup_insert_ne by done. done.
Defined.
