(* ===== verification/Ordered.v ===== *)
(** * Ordered: a bounded queue that keeps call order

    [ulo-transport/src/sync/ordered.rs]. The state is under a lock, and what wakes a wait is done
    outside it, so an [OEvent] is one locked section or one step between two, and a run is any
    interleaving of sends, polls of their [Room]s and the receiver's. Waits go through
    [event_listener::Event], a parameter with the behaviour its documentation gives. The counts of
    items are [u64], and the sum that bounds a wait is kept at that width. *)

From S2P Require Import Prelude Events.
Local Open Scope nat_scope.
Local Open Scope list_scope.

Section Ordered.
Context {events : Events} {T : Type}.

(** Where a wait is, between its polls or in one. *)
Inductive Wait (A : Type) :=
  | Unpolled
  | Reading             (* before the state is read *)
  | Registering         (* read, and not there yet *)
  | Parked              (* the last poll answered [Pending] *)
  | Resolved (answer : A)
  | WaitDropped.
Arguments Unpolled {A}.
Arguments Reading {A}.
Arguments Registering {A}.
Arguments Parked {A}.
Arguments Resolved {A} answer.
Arguments WaitDropped {A}.

(** [Room]: its place, or none for an item refused, the listener and the wait; [true] is [Ok]. *)
Record Room := { ro_place : option nat; ro_listener : option nat; ro_wait : Wait bool }.

(** [o_sent] is what the sends queued, in the order they were called; [o_received] what polls of the
    receiver took. The [o_due] are calls past their lock that have yet to notify: sends, the drop of
    the last sender, and the receiver's takes and drop. *)
Record OState := {
  o_queue : list T;
  o_pushed : nat;
  o_taken : nat;
  o_senders : nat;
  o_receiving : bool;
  o_room : Event;
  o_item : Event;
  o_rooms : list Room;
  o_receiver : Wait (option T);
  o_listener : option nat;
  o_due_item : nat;
  o_due_last : nat;
  o_due_room : nat;
  o_sent : list T;
  o_received : list T;
}.

(** [channel]. *)
Definition channel : OState :=
  {| o_queue := []; o_pushed := 0; o_taken := 0; o_senders := 1; o_receiving := true; o_room := ev_new; o_item := ev_new; o_rooms := [];
     o_receiver := Unpolled; o_listener := None; o_due_item := 0; o_due_last := 0; o_due_room := 0; o_sent := []; o_received := [] |}.

Definition bound_of (bound : nat) : nat := Nat.max bound 1.

Context (bound : nat).

Inductive OEvent :=
  | OSend (item : T)        (* [send], under its lock *)
  | OTrySend (item : T)     (* [try_send], under its lock *)
  | OItemNotify             (* a send's [item.notify(1)] *)
  | OClone
  | ODropSender             (* under its lock *)
  | OLastNotify             (* the last sender's [item.notify(usize::MAX)] *)
  | OPoll (r : nat)         (* a poll of a [Room] *)
  | ORead (r : nat)         (* its locked section *)
  | OWait (r : nat)         (* its listener made or polled *)
  | ODropRoom (r : nat)
  | ORecv                   (* [poll_recv] called *)
  | OTake                   (* its locked section *)
  | OTaken                  (* [room.notify(usize::MAX)] after a take or the receiver's drop *)
  | ORecvWait               (* its listener made or polled *)
  | ODropReceiver.          (* under its lock *)

Definition push (s : OState) (item : T) (rooms : list Room) : OState :=
  {| o_queue := o_queue s ++ [item]; o_pushed := S (o_pushed s); o_taken := o_taken s; o_senders := o_senders s; o_receiving := o_receiving s;
     o_room := o_room s; o_item := o_item s; o_rooms := rooms; o_receiver := o_receiver s; o_listener := o_listener s; o_due_item := S (o_due_item s);
     o_due_last := o_due_last s; o_due_room := o_due_room s; o_sent := o_sent s ++ [item]; o_received := o_received s |}.

Definition with_rooms (s : OState) (room : Event) (rooms : list Room) : OState :=
  {| o_queue := o_queue s; o_pushed := o_pushed s; o_taken := o_taken s; o_senders := o_senders s; o_receiving := o_receiving s;
     o_room := room; o_item := o_item s; o_rooms := rooms; o_receiver := o_receiver s; o_listener := o_listener s; o_due_item := o_due_item s;
     o_due_last := o_due_last s; o_due_room := o_due_room s; o_sent := o_sent s; o_received := o_received s |}.

Definition with_receiver (s : OState) (item : Event) (receiver : Wait (option T)) (listener : option nat) : OState :=
  {| o_queue := o_queue s; o_pushed := o_pushed s; o_taken := o_taken s; o_senders := o_senders s; o_receiving := o_receiving s;
     o_room := o_room s; o_item := item; o_rooms := o_rooms s; o_receiver := receiver; o_listener := listener; o_due_item := o_due_item s;
     o_due_last := o_due_last s; o_due_room := o_due_room s; o_sent := o_sent s; o_received := o_received s |}.

Definition with_senders (s : OState) (senders last : nat) : OState :=
  {| o_queue := o_queue s; o_pushed := o_pushed s; o_taken := o_taken s; o_senders := senders; o_receiving := o_receiving s;
     o_room := o_room s; o_item := o_item s; o_rooms := o_rooms s; o_receiver := o_receiver s; o_listener := o_listener s; o_due_item := o_due_item s;
     o_due_last := last; o_due_room := o_due_room s; o_sent := o_sent s; o_received := o_received s |}.

(** [Sender::send]: a [Room], refused when the receiver has gone. *)
Definition send (s : OState) (item : T) : OState :=
  if o_receiving s then push s item (o_rooms s ++ [{| ro_place := Some (o_pushed s); ro_listener := None; ro_wait := Unpolled |}])
  else with_rooms s (o_room s) (o_rooms s ++ [{| ro_place := None; ro_listener := None; ro_wait := Unpolled |}]).

Inductive TrySend := TrySent | TryFull | TryClosed.

Definition try_send (s : OState) (item : T) : OState * TrySend :=
  if o_receiving s then
    if bool_decide (bound_of bound ≤ length (o_queue s)) then (s, TryFull) else (push s item (o_rooms s), TrySent)
  else (s, TryClosed).

Definition item_notify (s : OState) : OState :=
  {| o_queue := o_queue s; o_pushed := o_pushed s; o_taken := o_taken s; o_senders := o_senders s; o_receiving := o_receiving s;
     o_room := o_room s; o_item := ev_notify_one (o_item s); o_rooms := o_rooms s; o_receiver := o_receiver s; o_listener := o_listener s;
     o_due_item := pred (o_due_item s); o_due_last := o_due_last s; o_due_room := o_due_room s; o_sent := o_sent s; o_received := o_received s |}.

Definition last_notify (s : OState) : OState :=
  {| o_queue := o_queue s; o_pushed := o_pushed s; o_taken := o_taken s; o_senders := o_senders s; o_receiving := o_receiving s;
     o_room := o_room s; o_item := ev_notify_all (o_item s); o_rooms := o_rooms s; o_receiver := o_receiver s; o_listener := o_listener s;
     o_due_item := o_due_item s; o_due_last := pred (o_due_last s); o_due_room := o_due_room s; o_sent := o_sent s; o_received := o_received s |}.

Definition room_notify (s : OState) : OState :=
  {| o_queue := o_queue s; o_pushed := o_pushed s; o_taken := o_taken s; o_senders := o_senders s; o_receiving := o_receiving s;
     o_room := ev_notify_all (o_room s); o_item := o_item s; o_rooms := o_rooms s; o_receiver := o_receiver s; o_listener := o_listener s;
     o_due_item := o_due_item s; o_due_last := o_due_last s; o_due_room := pred (o_due_room s); o_sent := o_sent s; o_received := o_received s |}.

Definition drop_listener (listener : option nat) (e : Event) : Event := match listener with Some i => ev_drop i e | None => e end.

Definition in_poll {A} (w : Wait A) : bool := match w with Reading | Registering => true | _ => false end.

Definition set_room (s : OState) (room : Event) (r : nat) (x : Room) : OState := with_rooms s room (<[r := x]> (o_rooms s)).

Definition room_waits (x : Room) (listener : option nat) (w : Wait bool) : Room := {| ro_place := ro_place x; ro_listener := listener; ro_wait := w |}.

(** [place < state.taken + bound], at the width of [u64]. *)
Definition within (place taken : nat) : bool := bool_decide (N.of_nat place < (N.of_nat taken + N.of_nat (bound_of bound)) mod 2 ^ 64)%N.

(** The locked section of a [Room]'s poll: its answer, or none yet. *)
Definition room_answer (s : OState) (place : nat) : option bool :=
  if bool_decide (place < o_taken s) then Some true
  else if negb (o_receiving s) then Some false
  else if within place (o_taken s) then Some true
  else None.

Definition room_poll (s : OState) (r : nat) (x : Room) : OState :=
  set_room s (o_room s) r (room_waits x (ro_listener x) (match ro_place x with Some _ => Reading | None => Resolved false end)).

Definition room_read (s : OState) (r : nat) (x : Room) (place : nat) : OState :=
  set_room s (o_room s) r (room_waits x (ro_listener x) (match room_answer s place with Some a => Resolved a | None => Registering end)).

Definition room_wait (s : OState) (r : nat) (x : Room) : OState :=
  match ro_listener x with
  | None => let '(e, i) := ev_listen (o_room s) in set_room s e r (room_waits x (Some i) Reading)
  | Some i =>
      if notified (o_room s) i then set_room s (ev_drop i (o_room s)) r (room_waits x None Reading)
      else set_room s (o_room s) r (room_waits x (Some i) Parked)
  end.

Definition room_drop (s : OState) (r : nat) (x : Room) : OState :=
  set_room s (drop_listener (ro_listener x) (o_room s)) r (room_waits x None WaitDropped).

(** The locked section of [poll_recv]. *)
Definition recv_take (s : OState) : OState :=
  match o_queue s with
  | item :: queue =>
      {| o_queue := queue; o_pushed := o_pushed s; o_taken := S (o_taken s); o_senders := o_senders s; o_receiving := o_receiving s;
         o_room := o_room s; o_item := drop_listener (o_listener s) (o_item s); o_rooms := o_rooms s; o_receiver := Resolved (Some item); o_listener := None;
         o_due_item := o_due_item s; o_due_last := o_due_last s; o_due_room := S (o_due_room s); o_sent := o_sent s; o_received := o_received s ++ [item] |}
  | [] => with_receiver s (o_item s) (if bool_decide (o_senders s = 0) then Resolved None else Registering) (o_listener s)
  end.

Definition recv_wait (s : OState) : OState :=
  match o_listener s with
  | None => let '(e, i) := ev_listen (o_item s) in with_receiver s e Reading (Some i)
  | Some i =>
      if notified (o_item s) i then with_receiver s (ev_drop i (o_item s)) Reading None
      else with_receiver s (o_item s) Parked (Some i)
  end.

(** [Drop for Receiver]. *)
Definition drop_receiver (s : OState) : OState :=
  {| o_queue := []; o_pushed := o_pushed s; o_taken := o_taken s; o_senders := o_senders s; o_receiving := false;
     o_room := o_room s; o_item := drop_listener (o_listener s) (o_item s); o_rooms := o_rooms s; o_receiver := WaitDropped; o_listener := None;
     o_due_item := o_due_item s; o_due_last := o_due_last s; o_due_room := S (o_due_room s); o_sent := o_sent s; o_received := o_received s |}.

Definition has_dropped {A} (w : Wait A) : bool := match w with WaitDropped => true | _ => false end.

Definition resolved {A} (w : Wait A) : bool := match w with Resolved _ => true | _ => false end.

(** One step; [None] when the call is not there to make it. A [Room] is not polled past its answer. *)
Definition ostep (s : OState) (e : OEvent) : option OState :=
  match e with
  | OSend item => if bool_decide (o_senders s = 0) then None else Some (send s item)
  | OTrySend item => if bool_decide (o_senders s = 0) then None else Some (try_send s item).1
  | OItemNotify => if bool_decide (o_due_item s = 0) then None else Some (item_notify s)
  | OClone => if bool_decide (o_senders s = 0) then None else Some (with_senders s (S (o_senders s)) (o_due_last s))
  | ODropSender =>
      match o_senders s with
      | 0 => None
      | S n => Some (with_senders s n (if bool_decide (n = 0) then S (o_due_last s) else o_due_last s))
      end
  | OLastNotify => if bool_decide (o_due_last s = 0) then None else Some (last_notify s)
  | OPoll r =>
      match o_rooms s !! r with
      | Some x => if in_poll (ro_wait x) || resolved (ro_wait x) || has_dropped (ro_wait x) then None else Some (room_poll s r x)
      | None => None
      end
  | ORead r =>
      match o_rooms s !! r with
      | Some x => match ro_wait x, ro_place x with Reading, Some place => Some (room_read s r x place) | _, _ => None end
      | None => None
      end
  | OWait r =>
      match o_rooms s !! r with
      | Some x => match ro_wait x with Registering => Some (room_wait s r x) | _ => None end
      | None => None
      end
  | ODropRoom r =>
      match o_rooms s !! r with
      | Some x => if in_poll (ro_wait x) || has_dropped (ro_wait x) then None else Some (room_drop s r x)
      | None => None
      end
  | ORecv => if in_poll (o_receiver s) || has_dropped (o_receiver s) then None else Some (with_receiver s (o_item s) Reading (o_listener s))
  | OTake => match o_receiver s with Reading => Some (recv_take s) | _ => None end
  | OTaken => if bool_decide (o_due_room s = 0) then None else Some (room_notify s)
  | ORecvWait => match o_receiver s with Registering => Some (recv_wait s) | _ => None end
  | ODropReceiver => if in_poll (o_receiver s) || has_dropped (o_receiver s) then None else Some (drop_receiver s)
  end.

Inductive oreachable : OState → Prop :=
  | oreachable_new : oreachable channel
  | oreachable_step s e s' : oreachable s → ostep s e = Some s' → oreachable s'.
End Ordered.
Arguments Unpolled {A}.
Arguments Reading {A}.
Arguments Registering {A}.
Arguments Parked {A}.
Arguments Resolved {A} answer.
Arguments WaitDropped {A}.
