(* ===== verification/OrderedTheorems.v ===== *)
(** * OrderedTheorems: order and wakeups of the ordered queue *)

From S2P Require Import Prelude Events Ordered.
Local Open Scope nat_scope.
Local Open Scope list_scope.

Section Ordered.
Context {events : Events} {T : Type} (bound : nat).
Implicit Type s : @OState events T.

(** ** The state *)

(** What a [Room] is, given the counts. *)
Definition room_ok s (x : Room) : Prop :=
  match ro_place x with
  | None => ro_wait x = Unpolled ∨ ro_wait x = Resolved false ∨ ro_wait x = WaitDropped
  | Some p =>
      p < o_pushed s ∧
      match ro_wait x with
      | Resolved true => p < o_taken s + bound_of bound
      | Resolved false => o_receiving s = false ∧ o_taken s ≤ p
      | _ => True
      end
  end.

Record ocounts s : Prop := {
  oc_pushed : o_pushed s = length (o_sent s);
  oc_taken : o_taken s = length (o_received s);
  oc_order : if o_receiving s then o_sent s = o_received s ++ o_queue s else o_queue s = [] ∧ o_received s `prefix_of` o_sent s;
  oc_receiver : o_receiving s = negb (has_dropped (o_receiver s));
  oc_rooms : ∀ r x, o_rooms s !! r = Some x → room_ok s x;
}.

(** [room_ok] only gains: items are pushed and taken, and the receiver goes once. *)
Lemma room_ok_later s s' x : room_ok s x → o_pushed s ≤ o_pushed s' → o_taken s ≤ o_taken s' →
  (o_receiving s = false → o_receiving s' = false ∧ o_taken s' = o_taken s) → room_ok s' x.
Proof.
  unfold room_ok. destruct (ro_place x) as [p|]; [|done]. intros [Hp Hw] H1 H2 H3. split; [lia|]. destruct (ro_wait x) as [| | | |[]|]; try done; [lia|]. destruct Hw as [Hr Ht]. destruct (H3 Hr) as [H3' H4]. split; [done|lia].
Qed.

Lemma rooms_snoc (P : Room → Prop) (rooms : list Room) x : (∀ r y, rooms !! r = Some y → P y) → P x → ∀ r y, (rooms ++ [x]) !! r = Some y → P y.
Proof. intros H Hx r y [Hy|[_ [_ <-]%list_lookup_singleton_Some]]%lookup_app_Some; [by eapply H|]. done. Qed.

Lemma rooms_insert (P : Room → Prop) (rooms : list Room) k x : (∀ r y, rooms !! r = Some y → P y) → P x → ∀ r y, <[k := x]> rooms !! r = Some y → P y.
Proof. intros H Hx r y [[<- [<- _]]|[_ Hy]]%list_lookup_insert_Some; [done|by eapply H]. Qed.

Lemma ocounts_push s x rooms : ocounts s → o_receiving s = true → (∀ r y, rooms !! r = Some y → room_ok (push s x rooms) y) → ocounts (push s x rooms).
Proof.
  intros [H1 H2 H3 H4 H5] Hr Hrooms. split; cbn; rewrite ?length_app, ?Hr in *; cbn; [lia|done|rewrite H3; by rewrite <- app_assoc|done|done].
Qed.

Lemma within_le place taken : within bound place taken = true → place < taken + bound_of bound.
Proof.
  unfold within. intros H%bool_decide_eq_true. assert (Hm := N.Div0.mod_le (N.of_nat taken + N.of_nat (bound_of bound)) (2 ^ 64)). lia.
Qed.

Lemma ocounts_room s e k x : ocounts s → room_ok s x → ocounts (set_room s e k x).
Proof. intros [H1 H2 H3 H4 H5] Hx. split; try done. cbn. exact (rooms_insert (room_ok s) (o_rooms s) k x H5 Hx). Qed.

Lemma ocounts_step s e s' : ocounts s → ostep bound s e = Some s' → ocounts s'.
Proof.
  intros Hc E. pose proof Hc as [H1 H2 H3 H4 H5]. destruct e as [x|x| | | | |r|r|r|r| | | | |]; cbn [ostep] in E.
  - case_bool_decide; [done|]. injection E as <-. unfold send. destruct (o_receiving s) eqn:Er.
    + apply ocounts_push; [done|done|]. apply rooms_snoc; [|cbn; split; [lia|done]].
      intros r y Hy. apply (room_ok_later s); [by eapply H5|cbn; lia|done|by rewrite Er].
    + split; cbn; rewrite ?Er in *; try done. apply (rooms_snoc (room_ok _)); [done|by left].
  - case_bool_decide; [done|]. injection E as <-. unfold try_send. destruct (o_receiving s) eqn:Er; [|done]. case_bool_decide; [done|]. cbn [fst].
    apply ocounts_push; [done|done|]. intros r y Hy. apply (room_ok_later s); [by eapply H5|cbn; lia|done|by rewrite Er].
  - case_bool_decide; simplify_eq. by split.
  - case_bool_decide; simplify_eq. by split.
  - destruct (o_senders s); simplify_eq. by split.
  - case_bool_decide; simplify_eq. by split.
  - destruct (o_rooms s !! r) as [x|] eqn:Ex; [|done]. destruct (in_poll (ro_wait x) || resolved (ro_wait x) || _); simplify_eq. apply ocounts_room; [done|].
    pose proof (H5 r x Ex) as Hx. unfold room_ok in *. cbn. destruct (ro_place x) as [p|]; [by destruct Hx|by right; left].
  - destruct (o_rooms s !! r) as [x|] eqn:Ex; [|done]. destruct (ro_wait x); try done. destruct (ro_place x) as [p|] eqn:Ep; simplify_eq. apply ocounts_room; [done|].
    pose proof (H5 r x Ex) as Hx. unfold room_ok in *. cbn. rewrite Ep in *. destruct Hx as [Hp _]. split; [done|]. unfold room_answer.
    case_bool_decide as Ht; [lia|]. destruct (o_receiving s); cbn; [|split; [done|lia]]. destruct (within bound p (o_taken s)) eqn:Ew; [|done]. by apply within_le.
  - destruct (o_rooms s !! r) as [x|] eqn:Ex; [|done]. destruct (ro_wait x) eqn:Ew; try done. injection E as <-. pose proof (H5 r x Ex) as Hx.
    assert (Hok : ∀ l w, w = Reading ∨ w = Parked → room_ok s (room_waits x l w)).
    { intros l w Hw. unfold room_ok in *. cbn. rewrite Ew in Hx. destruct (ro_place x) as [p|]; [destruct Hx; split; [done|by destruct Hw as [-> | ->]]|naive_solver]. }
    unfold room_wait. destruct (ro_listener x) as [i|]; [destruct (notified (o_room s) i)|destruct (ev_listen (o_room s)) as [e i]]; apply ocounts_room; auto.
  - destruct (o_rooms s !! r) as [x|] eqn:Ex; [|done]. destruct (in_poll (ro_wait x) || _); simplify_eq. apply ocounts_room; [done|].
    pose proof (H5 r x Ex) as Hx. unfold room_ok in *. cbn. destruct (ro_place x) as [p|]; [by destruct Hx|by right; right].
  - destruct (in_poll (o_receiver s) || _) eqn:Eb; simplify_eq. apply orb_false_iff in Eb as [_ Eb]. split; cbn; try done. by rewrite H4, Eb.
  - destruct (o_receiver s) eqn:Er; try done. injection E as <-. unfold recv_take. destruct (o_queue s) as [|x q] eqn:Eq.
    + split; cbn; rewrite ?Eq; try done. rewrite H4. by case_bool_decide.
    + rewrite H4 in H3. cbn in H3, H4. split; cbn; rewrite ?H4, ?length_app; cbn; [done|lia|rewrite H3; by rewrite <- app_assoc|done|].
      intros r y Hy. apply (room_ok_later s); [by eapply H5|done|cbn; lia|by rewrite H4].
  - case_bool_decide; simplify_eq. by split.
  - destruct (o_receiver s) eqn:Er; try done. injection E as <-. unfold recv_wait.
    destruct (o_listener s) as [i|]; [destruct (notified (o_item s) i)|destruct (ev_listen (o_item s)) as [e i]]; split; cbn; try done.
  - destruct (in_poll (o_receiver s) || _) eqn:Eb; simplify_eq. apply orb_false_iff in Eb as [_ Eb]. rewrite Eb in H4. rewrite H4 in H3. cbn in H3.
    split; cbn; try done; [split; [done|rewrite H3; by apply prefix_app_r]|]. intros r y Hy. apply (room_ok_later s); [by eapply H5|done|done|]. cbn. intros _. done.
Qed.

Lemma ocounts_reachable s : oreachable bound s → ocounts s.
Proof.
  induction 1 as [|s e s' _ IH E]; [|by eapply ocounts_step]. split; cbn; try done. 
Qed.

(** ** Wakeups *)

(** A wait that is past its read of the state, or parked on its listener. *)
Definition settled {A} (w : Wait A) : bool := match w with Registering | Parked => true | _ => false end.

(** What a listener that is not notified tells a [Room]'s wait: nothing has changed for it, or the
    call that changed it has yet to notify. *)
Definition room_asleep s (e : Event) (x : Room) : Prop :=
  ∀ i p, ro_listener x = Some i → ro_place x = Some p → settled (ro_wait x) = true → notified e i = false → room_answer bound s p = None ∨ 0 < o_due_room s.

Record owakes s : Prop := {
  ow_live : ∀ r x i, o_rooms s !! r = Some x → ro_listener x = Some i → live (o_room s) i = true;
  ow_own : ∀ r r' x x' i, o_rooms s !! r = Some x → o_rooms s !! r' = Some x' → ro_listener x = Some i → ro_listener x' = Some i → r = r';
  ow_parked : ∀ r x, o_rooms s !! r = Some x → ro_wait x = Parked → is_Some (ro_listener x);
  ow_room : ∀ r x, o_rooms s !! r = Some x → room_asleep s (o_room s) x;
  ow_item_only : ∀ i, live (o_item s) i = true ↔ o_listener s = Some i;
  ow_recv_parked : o_receiver s = Parked → is_Some (o_listener s);
  ow_item : ∀ i, o_listener s = Some i → settled (o_receiver s) = true → notified (o_item s) i = false →
    (o_queue s = [] ∧ o_senders s ≠ 0) ∨ 0 < o_due_item s + o_due_last s;
}.

(** A change that leaves the rooms and their event alone. *)
Lemma owakes_rooms_same s s' : owakes s → o_rooms s' = o_rooms s → o_room s' = o_room s →
  (∀ p, room_answer bound s' p = room_answer bound s p ∧ o_due_room s' = o_due_room s ∨ 0 < o_due_room s') →
  (∀ i, live (o_item s') i = true ↔ o_listener s' = Some i) → (o_receiver s' = Parked → is_Some (o_listener s')) →
  (∀ i, o_listener s' = Some i → settled (o_receiver s') = true → notified (o_item s') i = false → (o_queue s' = [] ∧ o_senders s' ≠ 0) ∨ 0 < o_due_item s' + o_due_last s') →
  owakes s'.
Proof.
  intros [H1 H2 H3 H4 H5 H6 H7] Hr He Ha Hi1 Hi2 Hi3. split; rewrite ?Hr, ?He; try done. intros r x Hx i p Hl Hp Hs Hn. destruct (Ha p) as [[-> ->]|]; [by eapply H4|by right].
Qed.

(** A change of one room. *)
Lemma owakes_room s e r x x' : owakes s → o_rooms s !! r = Some x →
  (∀ i, live (o_room s) i = true → ro_listener x ≠ Some i → live e i = true ∧ (notified (o_room s) i = true → notified e i = true)) →
  (∀ i, ro_listener x' = Some i → live e i = true ∧ (ro_listener x = Some i ∨ live (o_room s) i = false)) →
  (ro_wait x' = Parked → is_Some (ro_listener x')) → room_asleep s e x' → owakes (set_room s e r x').
Proof.
  intros [H1 H2 H3 H4 H5 H6 H7] Hx Hold Hnew Hpk Ha. pose proof (lookup_lt_Some _ _ _ Hx) as Hlt. split; try done; cbn [set_room with_rooms o_rooms o_room].
  - intros r' y i [[<- [<- _]]|[Hne Hy]]%list_lookup_insert_Some Hl; [by apply Hnew|]. apply Hold; [by eapply H1|]. intros Hxi. apply Hne. by eapply (H2 r r').
  - intros r1 r2 y1 y2 i [[<- [<- _]]|[Hn1 Hy1]]%list_lookup_insert_Some [[<- [<- _]]|[Hn2 Hy2]]%list_lookup_insert_Some Hl1 Hl2; [done|..|by eapply H2].
    + destruct (Hnew i Hl1) as [_ [Hxi|Hd]]; [by eapply (H2 r r2)|]. rewrite (H1 r2 y2 i Hy2 Hl2) in Hd. done.
    + destruct (Hnew i Hl2) as [_ [Hxi|Hd]]; [by eapply (H2 r1 r)|]. rewrite (H1 r1 y1 i Hy1 Hl1) in Hd. done.
  - intros r' y [[<- [<- _]]|[Hne Hy]]%list_lookup_insert_Some; [done|by eapply H3].
  - intros r' y [[<- [<- _]]|[Hne Hy]]%list_lookup_insert_Some; [exact Ha|]. intros i p Hl Hp Hs Hn. eapply (H4 r' y Hy i p); try done.
    destruct (notified (o_room s) i) eqn:En; [|done]. destruct (Hold i) as [_ Hmono]; [by eapply H1|intros Hxi; apply Hne; by eapply (H2 r r')|]. by rewrite Hmono in Hn.
Qed.

Lemma owakes_send s x : ocounts s → owakes s → owakes (send s x) ∧ owakes (push s x (o_rooms s)).
Proof.
  intros _ Ho. pose proof Ho as [H1 H2 H3 H4 H5 H6 H7].
  assert (Hit : ∀ rooms, ∀ i, o_listener (push s x rooms) = Some i → settled (o_receiver (push s x rooms)) = true → notified (o_item (push s x rooms)) i = false →
    (o_queue (push s x rooms) = [] ∧ o_senders (push s x rooms) ≠ 0) ∨ 0 < o_due_item (push s x rooms) + o_due_last (push s x rooms)) by (intros; right; cbn; lia).
  assert (Hsn : ∀ place, ∀ r y, (o_rooms s ++ [{| ro_place := place; ro_listener := None; ro_wait := Unpolled |}]) !! r = Some y → o_rooms s !! r = Some y ∨ ro_listener y = None ∧ ro_wait y = Unpolled).
  { intros place r y [Hy|[_ [_ <-]%list_lookup_singleton_Some]]%lookup_app_Some; [by left|by right]. }
  split; [|apply (owakes_rooms_same s); [done|done|done|by left|done|done|apply Hit]]. unfold send. destruct (o_receiving s); split; cbn [push with_rooms o_rooms o_room o_item o_listener o_receiver]; try done.
  all: try (by intros; right; cbn; lia).
  all: try (intros r y i [Hy|[-> _]]%Hsn Hl; [by eapply H1|done]).
  all: try (intros r1 r2 y1 y2 i [Hy1|[-> _]]%Hsn [Hy2|[Hn2 _]]%Hsn Hl1 Hl2; [by eapply H2|congruence|done..]).
  all: try (intros r y [Hy|[_ ->]]%Hsn Hw; [by eapply H3|done]).
  all: intros r y [Hy|[Hl' _]]%Hsn i p Hl Hp Hs Hn; [exact (H4 r y Hy i p Hl Hp Hs Hn)|congruence].
Qed.

(** Dropping the receiver's listener leaves none; dropping a [Room]'s leaves the others as they are. *)
Lemma item_unlistened s : owakes s → ∀ i, live (drop_listener (o_listener s) (o_item s)) i = true ↔ (None : option nat) = Some i.
Proof.
  intros [_ _ _ _ H5 _ _] i. split; [|done]. unfold drop_listener. intros Hi. exfalso. destruct (o_listener s) as [j|] eqn:Ej.
  - destruct (ev_drop_spec (o_item s) j i) as [Hd _]. rewrite Hd in Hi. case_bool_decide; [done|]. apply H5 in Hi. congruence.
  - apply H5 in Hi. done.
Qed.

Lemma drop_listener_others (e : Event) (l : option nat) j : live e j = true → l ≠ Some j →
  live (drop_listener l e) j = true ∧ (notified e j = true → notified (drop_listener l e) j = true).
Proof.
  intros Hj Hne. unfold drop_listener. destruct l as [i|]; [|done]. destruct (ev_drop_spec e i j) as [Hd1 Hd2].
  rewrite bool_decide_eq_false_2 in Hd1 by congruence. split; [congruence|]. apply Hd2. congruence.
Qed.

Lemma owakes_step s e s' : ocounts s → owakes s → ostep bound s e = Some s' → owakes s'.
Proof.
  intros Hc Ho E. pose proof Ho as [H1 H2 H3 H4 H5 H6 H7]. destruct e as [x|x| | | | |r|r|r|r| | | | |]; cbn [ostep] in E.
  - case_bool_decide; [done|]. injection E as <-. by apply owakes_send.
  - case_bool_decide; [done|]. injection E as <-. unfold try_send. destruct (o_receiving s); [case_bool_decide|]; try done. by apply (owakes_send s x).
  - case_bool_decide; [done|]. injection E as <-. apply (owakes_rooms_same s); try done; [by left|..]; cbn.
    + intros i. by rewrite (proj1 (ev_one_spec (o_item s) i)).
    + intros i Hl _ Hn. exfalso. destruct (ev_one_spec (o_item s) i) as (_ & _ & Hone). rewrite Hone in Hn; [done|by apply H5|]. intros j Hj%H5. congruence.
  - case_bool_decide; [done|]. injection E as <-. apply (owakes_rooms_same s); try done; [by left|]; cbn. intros i Hl Hs Hn. destruct (H7 i Hl Hs Hn) as [[? ?]|]; [left; split; [done|lia]|by right].
  - destruct (o_senders s) as [|n] eqn:En; [done|]. injection E as <-. apply (owakes_rooms_same s); try done; [by left|]; cbn. intros i Hl Hs Hn.
    case_bool_decide; [right; lia|]. destruct (H7 i Hl Hs Hn) as [[? ?]|]; [left; split; [done|lia]|by right].
  - case_bool_decide; [done|]. injection E as <-. apply (owakes_rooms_same s); try done; [by left|..]; cbn.
    + intros i. by rewrite (proj1 (ev_all_spec (o_item s) i)).
    + intros i Hl _ Hn. exfalso. destruct (ev_all_spec (o_item s) i) as (_ & Hall). rewrite Hall in Hn; [done|by apply H5].
  - destruct (o_rooms s !! r) as [x|] eqn:Ex; [|done]. destruct (in_poll (ro_wait x) || resolved (ro_wait x) || _); simplify_eq.
    apply (owakes_room s _ r x); try done; cbn; [intros i Hi; split; [by eapply H1|by left]|by destruct (ro_place x)|]. intros i p _ _ Hs _. cbn in Hs. by destruct (ro_place x).
  - destruct (o_rooms s !! r) as [x|] eqn:Ex; [|done]. destruct (ro_wait x); try done. destruct (ro_place x) as [p|] eqn:Ep; simplify_eq.
    apply (owakes_room s _ r x); try done; cbn; [intros i Hi; split; [by eapply H1|by left]|by destruct (room_answer bound s p)|].
    intros i q _ Hq Hs _. cbn in Hq, Hs. rewrite Ep in Hq. injection Hq as <-. left. by destruct (room_answer bound s p).
  - destruct (o_rooms s !! r) as [x|] eqn:Ex; [|done]. destruct (ro_wait x) eqn:Ew; try done. injection E as <-. unfold room_wait. destruct (ro_listener x) as [i|] eqn:El.
    + destruct (notified (o_room s) i) eqn:En; apply (owakes_room s _ r x); try done; cbn.
      * intros j Hj Hne. apply (drop_listener_others (o_room s) (Some i)); [done|congruence].
      * intros j [= <-]. split; [by eapply H1|by left].
      * intros j p Hj Hp _ Hn. cbn in Hj, Hp. apply (H4 r x Ex j p); [by rewrite El|done|by rewrite Ew|done].
    + destruct (ev_listen (o_room s)) as [e i] eqn:Elisten. destruct (ev_listen_spec _ _ _ Elisten) as (Hd & Hl & Hn & Hother). apply (owakes_room s _ r x); try done; cbn.
      * intros j Hj _. destruct (Hother j) as [Ha Hb]; [intros ->; congruence|]. rewrite Ha, Hb. done.
      * intros j [= <-]. split; [done|by right].
  - destruct (o_rooms s !! r) as [x|] eqn:Ex; [|done]. destruct (in_poll (ro_wait x) || _); simplify_eq. apply (owakes_room s _ r x); try done; cbn.
    apply drop_listener_others.
  - destruct (in_poll (o_receiver s) || _); simplify_eq. apply (owakes_rooms_same s); try done; [by left|..]; cbn; done.
  - destruct (o_receiver s) eqn:Er; try done. injection E as <-. unfold recv_take. destruct (o_queue s) as [|x q] eqn:Eq.
    + apply (owakes_rooms_same s); try done; [by left|..]; cbn; [by case_bool_decide|]. intros i Hl Hs _. rewrite Eq. left. by case_bool_decide.
    + apply (owakes_rooms_same s); try done; cbn; [right; lia|by apply item_unlistened].
  - case_bool_decide; [done|]. injection E as <-. split; try done; cbn.
    + intros r x i Hx Hl. rewrite (proj1 (ev_all_spec (o_room s) i)). by eapply H1.
    + intros r x Hx i p Hl Hp Hs Hn. exfalso. rewrite (proj2 (ev_all_spec (o_room s) i)) in Hn; [done|by eapply H1].
  - destruct (o_receiver s) eqn:Er; try done. injection E as <-. unfold recv_wait. destruct (o_listener s) as [i|] eqn:El.
    + destruct (notified (o_item s) i) eqn:En; apply (owakes_rooms_same s); try done; try (by left); cbn.
      intros j. split; [|done]. destruct (ev_drop_spec (o_item s) i j) as [-> _]. case_bool_decide; [done|]. intros Hj%H5. congruence.
    + destruct (ev_listen (o_item s)) as [e i] eqn:Elisten. destruct (ev_listen_spec _ _ _ Elisten) as (Hd & Hl & Hn & Hother).
      apply (owakes_rooms_same s); try done; [by left|]; cbn. intros j. split; [|by intros [= <-]]. intros Hj. destruct (decide (j = i)) as [->|Hne]; [done|].
      destruct (Hother j Hne) as [Ha _]. rewrite Ha in Hj. apply H5 in Hj. done.
  - destruct (in_poll (o_receiver s) || _); simplify_eq. apply (owakes_rooms_same s); try done; cbn; [right; lia|by apply item_unlistened].
Qed.

Lemma owakes_reachable s : oreachable bound s → owakes s.
Proof.
  induction 1 as [|s e s' Hs IH E]; [|eapply owakes_step; [by apply ocounts_reachable|done|done]].
  split; cbn; try done. intros i. by rewrite ev_new_live.
Qed.
End Ordered.

(** ** What the queue promises *)

(** C24: after any interleaving of sends, polls and drops, what the receiver has taken is the start of
    what was sent, in the order the sends were called; while it is there, the rest is the queue. A
    send made while the receiver is there takes the next place, and its [Room] answers [Ok] only when
    fewer than the bound of the items before it are untaken, [Closed] only when the receiver has gone
    without taking it. *)
Theorem ordered_keeps_call_order {events : Events} {T : Type} (bound : nat) (s : @OState events T) (H : oreachable bound s) :
  o_received s `prefix_of` o_sent s
  ∧ (o_receiving s = true → o_sent s = o_received s ++ o_queue s
     ∧ ∀ item, o_sent (send s item) !! length (o_sent s) = Some item
         ∧ o_rooms (send s item) = o_rooms s ++ [{| ro_place := Some (length (o_sent s)); ro_listener := None; ro_wait := Unpolled |}])
  ∧ ∀ r x p, o_rooms s !! r = Some x → ro_place x = Some p →
      is_Some (o_sent s !! p)
      ∧ (ro_wait x = Resolved true → p < length (o_received s) + bound_of bound)
      ∧ (ro_wait x = Resolved false → o_receiving s = false ∧ length (o_received s) ≤ p).
Proof.
  destruct (ocounts_reachable bound s H) as [H1 H2 H3 H4 H5]. split_and!.
  - destruct (o_receiving s); [rewrite H3; by apply prefix_app_r|by destruct H3].
  - intros Hr. rewrite Hr in H3. split; [done|]. intros item. unfold send. rewrite Hr. cbn. rewrite H1, list_lookup_middle by done. done.
  - intros r x p Hx Hp. pose proof (H5 r x Hx) as Hok. unfold room_ok in Hok. rewrite Hp in Hok. destruct Hok as [Hlt Hw]. split_and!.
    + apply lookup_lt_is_Some. lia.
    + intros E. rewrite E in Hw. lia.
    + intros E. rewrite E in Hw. destruct Hw. split; [done|lia].
Qed.

(** C25: no wakeup is lost. Of a [Room] whose last poll left it parked, when its item has been taken,
    there is room for it or the receiver has gone, the listener is notified, or the take or drop that
    made it so has yet to notify; of a parked receiver, when an item is queued or the last sender is
    gone, its listener is notified, or the send or drop has yet to. *)
Theorem ordered_wakes {events : Events} {T : Type} (bound : nat) (s : @OState events T) (H : oreachable bound s) :
  (∀ r x p, o_rooms s !! r = Some x → ro_place x = Some p → ro_wait x = Parked → is_Some (room_answer bound s p) →
     0 < o_due_room s ∨ ∃ i, ro_listener x = Some i ∧ live (o_room s) i = true ∧ notified (o_room s) i = true)
  ∧ (o_receiver s = Parked → o_queue s ≠ [] ∨ o_senders s = 0 →
     0 < o_due_item s + o_due_last s ∨ ∃ i, o_listener s = Some i ∧ live (o_item s) i = true ∧ notified (o_item s) i = true).
Proof.
  destruct (owakes_reachable bound s H) as [H1 H2 H3 H4 H5 H6 H7]. split.
  - intros r x p Hx Hp Hw [a Ha]. destruct (H3 r x Hx Hw) as [i Hi]. destruct (notified (o_room s) i) eqn:En; [right; eauto|].
    destruct (H4 r x Hx i p Hi Hp) as [Hnone|Hdue]; [by rewrite Hw|done|congruence|by left].
  - intros Hw Hready. destruct (H6 Hw) as [i Hi]. destruct (notified (o_item s) i) eqn:En; [right; exists i; split_and!; [done|by apply H5|done]|].
    destruct (H7 i Hi) as [[Hq Hs]|Hdue]; [by rewrite Hw|done|naive_solver|by left].
Qed.

(** ** A run, at the events of [list_events] *)

Definition run_ordered (bound : nat) (es : list (@OEvent nat)) : option (@OState list_events nat) :=
  foldl (λ o e, s ← o; ostep bound s e) (Some channel) es.

Lemma run_ordered_reachable bound es s : run_ordered bound es = Some s → oreachable bound s.
Proof.
  unfold run_ordered. revert s. induction es as [|e es IH] using rev_ind; cbn; [intros s [= <-]; constructor|].
  intros s. rewrite foldl_app. cbn. intros (s0 & H0 & H1)%bind_Some. exact (oreachable_step bound s0 e s (IH s0 H0) H1).
Qed.

(** With a bound of one: two sends, the second [Room] parked, and a take that has not notified yet. *)
Definition two_sends : list (@OEvent nat) :=
  [OSend 7; OItemNotify; OSend 8; OPoll 1; ORead 1; OWait 1; ORead 1; OWait 1; ORecv; OTake; OItemNotify].

Definition two_sent : @OState list_events nat := default channel (run_ordered 1 two_sends).

Lemma two_sent_reachable : oreachable 1 two_sent.
Proof. apply (run_ordered_reachable 1 two_sends). vm_compute. reflexivity. Qed.

Lemma ordered_keeps_call_order_example : o_received two_sent = [7] ∧ o_queue two_sent = [8] ∧ o_received two_sent `prefix_of` o_sent two_sent.
Proof. split_and!; [vm_compute; reflexivity|vm_compute; reflexivity|exact (proj1 (ordered_keeps_call_order 1 two_sent two_sent_reachable))]. Defined.

Lemma ordered_wakes_example : room_answer 1 two_sent 1 = Some true ∧ 0 < o_due_room two_sent.
Proof.
  split; [vm_compute; reflexivity|].
  destruct (proj1 (ordered_wakes 1 two_sent two_sent_reachable) 1 {| ro_place := Some 1; ro_listener := Some 0; ro_wait := Parked |} 1) as [Hd|(i & Hi & _ & Hn)];
    [vm_compute; reflexivity|reflexivity|reflexivity|vm_compute; by eexists|exact Hd|]. injection Hi as <-. vm_compute in Hn. done.
Defined.
