(* ===== verification/Outbound.v ===== *)
(** * Outbound: a WebSocket connection's outbound queue

    [Outbound] of [ulo-ws/src/connection.rs] with [truncated] of [gateway.rs]. Message tasks, streamed
    answers, broadcasts and [Connection::send] write to it and the connection's read loop drains it.
    Its state is under a lock and its events are notified outside it, so every locked section and
    every notify is a step of its own. *)

From S2P Require Import Prelude Text Events.
Local Open Scope nat_scope.
Local Open Scope list_scope.

(** [Overflow] of [gateway.rs]. *)
Inductive Overflow := OverflowClose | DropOldest.

Definition REASON_LIMIT : nat := 123.

(** [str::is_char_boundary]: the end, or a byte that starts a character. *)
Definition is_char_boundary (s : str) (at_ : nat) : bool :=
  match s !! at_ with
  | Some c => negb ((128 <=? nat_of_ascii c) && (nat_of_ascii c <=? 191))
  | None => bool_decide (at_ = length s)
  end.

(** The [while] of [truncated]: the first boundary at or under [end_]. *)
Fixpoint boundary_under (s : str) (end_ : nat) : nat :=
  match end_ with
  | 0 => 0
  | S n => if is_char_boundary s end_ then end_ else boundary_under s n
  end.

Definition truncated (reason : str) : str :=
  if bool_decide (REASON_LIMIT < length reason) then take (boundary_under reason REASON_LIMIT) reason else reason.

Section Outbound.
Context {events : Events} {M : Type} (limit : option nat) (overflow : Overflow).

(** [OutState]. *)
Record OutState := { out_queue : list M; out_close : option (nat * str); out_closed : bool }.

(** A [push_wait] under way: about to listen, about to read the state, waiting, over or dropped. *)
Inductive PumpAt := PumpListen | PumpCheck (i : nat) | PumpAwait (i : nat) | PumpEnded (ok : bool) | PumpDropped.

Record Pump := { pm_message : M; pm_at : PumpAt }.

(** [Outbound]. [ob_woken] is the read loop's ear on [wake], and [ob_fresh] says that it took the
    queue since it began to listen. The [ob_due] are calls past their lock that have yet to notify.
    [ob_accepted] holds the messages pushed with [Ok], [ob_given] those handed to the loop, and
    [ob_lost] says that one was discarded in between. *)
Record Outbound := {
  ob_state : OutState;
  ob_wake : Event;
  ob_woken : option nat;
  ob_fresh : bool;
  ob_due_wake : nat;
  ob_space : Event;
  ob_pumps : list Pump;
  ob_due_space : nat;
  ob_accepted : list M;
  ob_given : list M;
  ob_lost : bool;
}.

Definition outbound_new : Outbound :=
  {| ob_state := {| out_queue := []; out_close := None; out_closed := false |}; ob_wake := ev_new; ob_woken := None; ob_fresh := false; ob_due_wake := 0;
     ob_space := ev_new; ob_pumps := []; ob_due_space := 0; ob_accepted := []; ob_given := []; ob_lost := false |}.

Definition refuses (st : OutState) : bool := out_closed st || match out_close st with Some _ => true | None => false end.

Definition is_full (st : OutState) : bool := match limit with Some n => bool_decide (n ≤ length (out_queue st)) | None => false end.

Definition SLOW_CONSUMER : nat * str := (1008, str_of "slow consumer").

Definition queued (st : OutState) (queue : list M) : OutState := {| out_queue := queue; out_close := out_close st; out_closed := out_closed st |}.

(** A writer's locked section: the state after it, the messages it adds, and whether it notifies. *)
Definition write (b : Outbound) (st : OutState) (accepted : list M) (lost : bool) : Outbound :=
  {| ob_state := st; ob_wake := ob_wake b; ob_woken := ob_woken b; ob_fresh := ob_fresh b; ob_due_wake := S (ob_due_wake b); ob_space := ob_space b;
     ob_pumps := ob_pumps b; ob_due_space := ob_due_space b; ob_accepted := ob_accepted b ++ accepted; ob_given := ob_given b; ob_lost := ob_lost b || lost |}.

(** [push]: the queue after it, and [true] for [Ok]. *)
Definition push (b : Outbound) (m : M) : Outbound * bool :=
  let st := ob_state b in
  if refuses st then (b, false)
  else if is_full st then
    match overflow with
    | DropOldest => (write b (queued st (tail (out_queue st) ++ [m])) [m] (bool_decide (0 < length (out_queue st))), true)
    | OverflowClose =>
        (write b {| out_queue := []; out_close := Some SLOW_CONSUMER; out_closed := out_closed st |} [] (bool_decide (0 < length (out_queue st))), false)
    end
  else (write b (queued st (out_queue st ++ [m])) [m] false, true).

Definition request_close (b : Outbound) (code : nat) (reason : str) : Outbound :=
  let st := ob_state b in
  write b (if refuses st then st else {| out_queue := out_queue st; out_close := Some (code, truncated reason); out_closed := out_closed st |}) [] false.

Definition with_pumps (b : Outbound) (space : Event) (pumps : list Pump) : Outbound :=
  {| ob_state := ob_state b; ob_wake := ob_wake b; ob_woken := ob_woken b; ob_fresh := ob_fresh b; ob_due_wake := ob_due_wake b; ob_space := space;
     ob_pumps := pumps; ob_due_space := ob_due_space b; ob_accepted := ob_accepted b; ob_given := ob_given b; ob_lost := ob_lost b |}.

Definition set_pump (b : Outbound) (space : Event) (p : nat) (x : Pump) (to : PumpAt) : Outbound :=
  with_pumps b space (<[p := {| pm_message := pm_message x; pm_at := to |}]> (ob_pumps b)).

(** One step of a [push_wait]: the listen, the locked section, or the listener heard. The listener
    goes out of scope with the round it was made in. *)
Definition pump_step (b : Outbound) (p : nat) (x : Pump) : option Outbound :=
  match pm_at x with
  | PumpListen => let '(space, i) := ev_listen (ob_space b) in Some (set_pump b space p x (PumpCheck i))
  | PumpCheck i =>
      let st := ob_state b in
      if refuses st then Some (set_pump b (ev_drop i (ob_space b)) p x (PumpEnded false))
      else if is_full st then Some (set_pump b (ob_space b) p x (PumpAwait i))
      else Some (write (set_pump b (ev_drop i (ob_space b)) p x (PumpEnded true)) (queued st (out_queue st ++ [pm_message x])) [pm_message x] false)
  | PumpAwait i => if notified (ob_space b) i then Some (set_pump b (ev_drop i (ob_space b)) p x PumpListen) else None
  | PumpEnded _ | PumpDropped => None
  end.

Definition pump_ear (x : Pump) : option nat := match pm_at x with PumpCheck i | PumpAwait i => Some i | _ => None end.

Definition pump_live (x : Pump) : bool := match pm_at x with PumpEnded _ | PumpDropped => false | _ => true end.

(** What the tasks beside the loop do to the queue. *)
Inductive BEvent :=
  | BPush (m : M)
  | BRequestClose (code : nat) (reason : str)
  | BPumpNew (m : M)
  | BPump (p : nat)
  | BPumpDrop (p : nat)
  | BWake                  (* a writer's [wake.notify(1)] *)
  | BSpace.                (* the loop's [space.notify(usize::MAX)] *)

Definition wake_notify (b : Outbound) : Outbound :=
  {| ob_state := ob_state b; ob_wake := ev_notify_one (ob_wake b); ob_woken := ob_woken b; ob_fresh := ob_fresh b; ob_due_wake := pred (ob_due_wake b);
     ob_space := ob_space b; ob_pumps := ob_pumps b; ob_due_space := ob_due_space b; ob_accepted := ob_accepted b; ob_given := ob_given b; ob_lost := ob_lost b |}.

Definition space_notify (b : Outbound) : Outbound :=
  {| ob_state := ob_state b; ob_wake := ob_wake b; ob_woken := ob_woken b; ob_fresh := ob_fresh b; ob_due_wake := ob_due_wake b;
     ob_space := ev_notify_all (ob_space b); ob_pumps := ob_pumps b; ob_due_space := pred (ob_due_space b);
     ob_accepted := ob_accepted b; ob_given := ob_given b; ob_lost := ob_lost b |}.

Definition bstep (b : Outbound) (e : BEvent) : option Outbound :=
  match e with
  | BPush m => Some (push b m).1
  | BRequestClose code reason => Some (request_close b code reason)
  | BPumpNew m => Some (with_pumps b (ob_space b) (ob_pumps b ++ [{| pm_message := m; pm_at := PumpListen |}]))
  | BPump p => match ob_pumps b !! p with Some x => pump_step b p x | None => None end
  | BPumpDrop p =>
      match ob_pumps b !! p with
      | Some x => if pump_live x then Some (set_pump b (ear_drop (ob_space b) (pump_ear x)) p x PumpDropped) else None
      | None => None
      end
  | BWake => if bool_decide (ob_due_wake b = 0) then None else Some (wake_notify b)
  | BSpace => if bool_decide (ob_due_space b = 0) then None else Some (space_notify b)
  end.

(** ** What the read loop does to the queue *)

(** [woken.get_or_insert_with(|| outbound.wake.listen())]. *)
Definition loop_listen (b : Outbound) : Outbound :=
  let '(wake, woken) := ear_listen (ob_wake b) (ob_woken b) in
  {| ob_state := ob_state b; ob_wake := wake; ob_woken := woken; ob_fresh := match ob_woken b with Some _ => ob_fresh b | None => false end;
     ob_due_wake := ob_due_wake b; ob_space := ob_space b; ob_pumps := ob_pumps b; ob_due_space := ob_due_space b;
     ob_accepted := ob_accepted b; ob_given := ob_given b; ob_lost := ob_lost b |}.

(** [poll_listener(&mut woken, cx)] when it is ready. *)
Definition loop_hear (b : Outbound) : option Outbound :=
  if ear_hears (ob_wake b) (ob_woken b) then
    Some {| ob_state := ob_state b; ob_wake := ear_drop (ob_wake b) (ob_woken b); ob_woken := None; ob_fresh := ob_fresh b;
            ob_due_wake := ob_due_wake b; ob_space := ob_space b; ob_pumps := ob_pumps b; ob_due_space := ob_due_space b;
            ob_accepted := ob_accepted b; ob_given := ob_given b; ob_lost := ob_lost b |}
  else None.

(** The loop's locked sections, with what they hand to it. *)
Definition drain (b : Outbound) (st : OutState) (given : list M) (fresh lost : bool) : Outbound :=
  {| ob_state := st; ob_wake := ob_wake b; ob_woken := ob_woken b; ob_fresh := fresh; ob_due_wake := ob_due_wake b; ob_space := ob_space b;
     ob_pumps := ob_pumps b; ob_due_space := S (ob_due_space b); ob_accepted := ob_accepted b; ob_given := ob_given b ++ given; ob_lost := ob_lost b || lost |}.

Definition take_queue (b : Outbound) : Outbound * (list M * option (nat * str)) :=
  let st := ob_state b in
  (drain b {| out_queue := []; out_close := None; out_closed := out_closed st || match out_close st with Some _ => true | None => false end |}
         (out_queue st) true false, (out_queue st, out_close st)).

Definition shut (b : Outbound) : Outbound :=
  let st := ob_state b in
  drain b {| out_queue := []; out_close := out_close st; out_closed := true |} [] (ob_fresh b) (bool_decide (0 < length (out_queue st))).

Definition shut_taking (b : Outbound) : Outbound * list M :=
  let st := ob_state b in
  (drain b {| out_queue := []; out_close := out_close st; out_closed := true |} (out_queue st) (ob_fresh b) false, out_queue st).
End Outbound.
