(* ===== verification/Connection.v ===== *)
(** * Connection: the read loops of a WebSocket server

    The connections of [ulo-ws/src/connection.rs]: [serve], the loop that owns a connection's socket,
    with [Flight], its messages in flight, and [Places], the places all connections of a server share.
    Every read or change of what tasks share is a step of its own: a loop is at one of the points of
    [Loop] between two of them, and a run is any interleaving of the loops with the tasks of their
    messages, the writers of their queues and the server's drain. What the socket and the clock
    answer comes with the step; which branch a turn polls first is left open. *)

From S2P Require Import Prelude Text Events Outbound.
Local Open Scope nat_scope.
Local Open Scope list_scope.

(** [DisconnectReason] of [gateway.rs]. *)
Inductive DisconnectReason :=
  | ClientClose (code : nat) (reason : str)
  | ServerClose (code : nat)
  | ProtocolFailure
  | Drained
  | Lost
  | RuntimeShutDown.

(** What [received] makes of a frame of an enveloped gateway: refused with 1003, answered with an
    error, a cancel, or a message to handle. *)
Inductive Received (M : Type) := RUnreadable (reason : str) | RAnswered (answer : M) | RCancel | RCall.
Arguments RUnreadable {M} reason.
Arguments RAnswered {M} answer.
Arguments RCancel {M}.
Arguments RCall {M}.

(** The errors a read ends with, as [read_failure] tells them apart. *)
Inductive WsError := ResetWithoutClose | ProtocolError | Utf8Error | CapacityError | OtherError.

Definition read_failure (e : WsError) : option nat * DisconnectReason :=
  match e with
  | ResetWithoutClose => (None, Lost)
  | ProtocolError => (Some 1002, ProtocolFailure)
  | Utf8Error => (Some 1007, ProtocolFailure)
  | CapacityError => (Some 1009, ProtocolFailure)
  | OtherError => (None, Lost)
  end.

Definition SHUTDOWN_MESSAGE : str := str_of "the server is shutting down".

Section Connection.
Context {events : Events} {M F : Type}.

(** ** Data *)

(** What a read of the socket answers; [sent] and [flushed] are how the answer to it went. *)
Inductive ReadEnd :=
  | ReadNone
  | ReadData (f : F)
  | ReadPing (flushed : bool)
  | ReadPong
  | ReadClose (frame : option (nat * str))
  | ReadOther
  | ReadError (e : WsError) (sent : bool).

(** What ends a turn's wait: [Turn], with the branch that was heard and how a Ping went out. *)
Inductive Turn :=
  | TurnRead (r : ReadEnd)
  | TurnWoken
  | TurnProgressed
  | TurnPhase
  | TurnFreed
  | TurnJoined
  | TurnPing (sent : bool)
  | TurnRefused (passed : bool)
  | TurnPongMissed
  | TurnCloseDeadline.

(** Where a loop is: what it does next. *)
Inductive Loop :=
  | LWoken                                       (* listen to the queue *)
  | LProgressed                                  (* listen to the messages in flight *)
  | LPhase                                       (* listen to the server's phase *)
  | LDraining                                    (* read the phase *)
  | LTake                                        (* take the queue *)
  | LWrite (queued : list M) (close : option (nat * str))
  | LDecide (close : option (nat * str))         (* whether to close *)
  | LShut (code : nat) (reason : str) (why : DisconnectReason)
  | LLate (late : list M) (code : nat) (reason : str) (why : DisconnectReason)
  | LSendClose (code : nat) (reason : str) (why : DisconnectReason)
  | LFreed                                       (* whether to listen for a place *)
  | LFreedListen
  | LWaiting                                     (* whether the message waiting can go on *)
  | LReceive (f : F) (again : bool)              (* [received], of the message waiting or of one read *)
  | LReading                                     (* whether to read, by the loop's locals and the places *)
  | LInflight                                    (* and by the messages in flight *)
  | LPoll (reading full : bool)                  (* the wait; what was read of the places *)
  | LEnd (why : DisconnectReason)                (* out of the loop *)
  | LDone (why : DisconnectReason).

(** The locals of [serve]; a timer is whether it is set. *)
Record LoopState := {
  lp_at : Loop;
  lp_draining : bool;
  lp_closing : option DisconnectReason;
  lp_waiting : option F;
  lp_shut_down : bool;
  lp_ping : bool;
  lp_pong : bool;
  lp_deadline : bool;
  lp_phase_changed : option nat;
  lp_freed : option nat;
}.

(** [Flight]: the counts, the event with the loop's ear, and the calls of [handled] and [finished]
    that have yet to give a place back or to notify. *)
Record Flight := {
  fl_handling : nat;
  fl_busy : nat;
  fl_due_give : nat;
  fl_progress : Event;
  fl_progressed : option nat;
  fl_due_progress : nat;
  fl_dropped : bool;
}.

Inductive Wire := WData (m : M) | WPing | WClose (code : nat) (reason : str).

Record Conn := { cn_out : @Outbound events M; cn_flight : Flight; cn_loop : LoopState; cn_wire : list Wire }.

(** What the connections of a server share: [Places] and the drain's [Watch]. *)
Record Shared := {
  sh_held : nat;
  sh_freed : Event;
  sh_due_freed : nat;
  sh_draining : bool;
  sh_phase : Event;
  sh_due_phase : nat;
}.

Record Server := { sv_shared : Shared; sv_conns : list Conn }.

Context (queue_limit : option nat) (overflow : Overflow) (max_inflight places : nat) (ping_interval pong_timeout raw : bool) (classify : F → Received M).

Definition flight_new : Flight :=
  {| fl_handling := 0; fl_busy := 0; fl_due_give := 0; fl_progress := ev_new; fl_progressed := None; fl_due_progress := 0; fl_dropped := false |}.

Definition conn_new : Conn :=
  {| cn_out := outbound_new; cn_flight := flight_new;
     cn_loop := {| lp_at := LWoken; lp_draining := false; lp_closing := None; lp_waiting := None; lp_shut_down := false; lp_ping := ping_interval;
                   lp_pong := false; lp_deadline := false; lp_phase_changed := None; lp_freed := None |};
     cn_wire := [] |}.

Definition server_new : Server :=
  {| sv_shared := {| sh_held := 0; sh_freed := ev_new; sh_due_freed := 0; sh_draining := false; sh_phase := ev_new; sh_due_phase := 0 |}; sv_conns := [] |}.

(** ** Moves *)

Definition with_loop (c : Conn) (l : LoopState) : Conn := {| cn_out := cn_out c; cn_flight := cn_flight c; cn_loop := l; cn_wire := cn_wire c |}.
Definition with_out (c : Conn) (out : Outbound) : Conn := {| cn_out := out; cn_flight := cn_flight c; cn_loop := cn_loop c; cn_wire := cn_wire c |}.
Definition with_flight (c : Conn) (fl : Flight) : Conn := {| cn_out := cn_out c; cn_flight := fl; cn_loop := cn_loop c; cn_wire := cn_wire c |}.
Definition with_wire (c : Conn) (ws : list Wire) : Conn := {| cn_out := cn_out c; cn_flight := cn_flight c; cn_loop := cn_loop c; cn_wire := cn_wire c ++ ws |}.

Definition go (c : Conn) (to : Loop) : Conn :=
  let l := cn_loop c in
  with_loop c {| lp_at := to; lp_draining := lp_draining l; lp_closing := lp_closing l; lp_waiting := lp_waiting l; lp_shut_down := lp_shut_down l;
                 lp_ping := lp_ping l; lp_pong := lp_pong l; lp_deadline := lp_deadline l; lp_phase_changed := lp_phase_changed l; lp_freed := lp_freed l |}.

Definition with_closing (c : Conn) (why : DisconnectReason) : Conn :=
  let l := cn_loop c in
  with_loop c {| lp_at := lp_at l; lp_draining := lp_draining l; lp_closing := Some why; lp_waiting := lp_waiting l; lp_shut_down := lp_shut_down l;
                 lp_ping := lp_ping l; lp_pong := lp_pong l; lp_deadline := pong_timeout; lp_phase_changed := lp_phase_changed l; lp_freed := lp_freed l |}.

Definition with_waiting (c : Conn) (waiting : option F) : Conn :=
  let l := cn_loop c in
  with_loop c {| lp_at := lp_at l; lp_draining := lp_draining l; lp_closing := lp_closing l; lp_waiting := waiting; lp_shut_down := lp_shut_down l;
                 lp_ping := lp_ping l; lp_pong := lp_pong l; lp_deadline := lp_deadline l; lp_phase_changed := lp_phase_changed l; lp_freed := lp_freed l |}.

Definition with_ears (c : Conn) (phase freed : option nat) : Conn :=
  let l := cn_loop c in
  with_loop c {| lp_at := lp_at l; lp_draining := lp_draining l; lp_closing := lp_closing l; lp_waiting := lp_waiting l; lp_shut_down := lp_shut_down l;
                 lp_ping := lp_ping l; lp_pong := lp_pong l; lp_deadline := lp_deadline l; lp_phase_changed := phase; lp_freed := freed |}.

Definition with_draining (c : Conn) (draining : bool) : Conn :=
  let l := cn_loop c in
  with_loop c {| lp_at := lp_at l; lp_draining := draining; lp_closing := lp_closing l; lp_waiting := lp_waiting l; lp_shut_down := lp_shut_down l;
                 lp_ping := lp_ping l; lp_pong := lp_pong l; lp_deadline := lp_deadline l; lp_phase_changed := lp_phase_changed l; lp_freed := lp_freed l |}.

Definition with_timers (c : Conn) (ping pong shut_down : bool) : Conn :=
  let l := cn_loop c in
  with_loop c {| lp_at := lp_at l; lp_draining := lp_draining l; lp_closing := lp_closing l; lp_waiting := lp_waiting l; lp_shut_down := shut_down;
                 lp_ping := ping; lp_pong := pong; lp_deadline := lp_deadline l; lp_phase_changed := lp_phase_changed l; lp_freed := lp_freed l |}.

Definition counts (fl : Flight) (handling busy give progress : nat) : Flight :=
  {| fl_handling := handling; fl_busy := busy; fl_due_give := give; fl_progress := fl_progress fl; fl_progressed := fl_progressed fl;
     fl_due_progress := progress; fl_dropped := fl_dropped fl |}.

Definition with_progress (fl : Flight) (e : Event) (ear : option nat) (due : nat) : Flight :=
  {| fl_handling := fl_handling fl; fl_busy := fl_busy fl; fl_due_give := fl_due_give fl; fl_progress := e; fl_progressed := ear;
     fl_due_progress := due; fl_dropped := fl_dropped fl |}.

(** ** Places and flights *)

Definition set_held (sh : Shared) (held due : nat) : Shared :=
  {| sh_held := held; sh_freed := sh_freed sh; sh_due_freed := due; sh_draining := sh_draining sh; sh_phase := sh_phase sh; sh_due_phase := sh_due_phase sh |}.

Definition places_full (sh : Shared) : bool := bool_decide (places ≤ sh_held sh).

(** [Places::give_back], past its guard: [freed] is to be notified when no place was left. *)
Definition give_back (sh : Shared) (n : nat) : Shared :=
  set_held sh (sh_held sh - n) (if bool_decide (places ≤ sh_held sh) then S (sh_due_freed sh) else sh_due_freed sh).

(** [Flight::begin]: [try_take] and the counts; the loop is the one to read them. *)
Definition begin (sh : Shared) (fl : Flight) : option (Shared * Flight) :=
  if bool_decide (sh_held sh < places)
  then Some (set_held sh (S (sh_held sh)) (sh_due_freed sh), counts fl (S (fl_handling fl)) (S (fl_busy fl)) (fl_due_give fl) (fl_due_progress fl))
  else None.

(** [Flight::handled], before it gives its place back. *)
Definition handled (fl : Flight) : Flight := counts fl (pred (fl_handling fl)) (fl_busy fl) (S (fl_due_give fl)) (fl_due_progress fl).

Definition finished (fl : Flight) : Flight := counts fl (fl_handling fl) (pred (fl_busy fl)) (fl_due_give fl) (S (fl_due_progress fl)).

(** [Drop for Flight]. *)
Definition flight_drop (sh : Shared) (fl : Flight) : Shared * Flight :=
  (if bool_decide (fl_handling fl = 0) then sh else give_back sh (fl_handling fl),
   {| fl_handling := 0; fl_busy := 0; fl_due_give := 0; fl_progress := fl_progress fl; fl_progressed := fl_progressed fl;
      fl_due_progress := fl_due_progress fl; fl_dropped := true |}).

(** ** The loop *)

(** [received]: what waits after it. [inbox_open] is whether a hand-written gateway still takes
    messages. *)
Definition received (sh : Shared) (c : Conn) (f : F) (inbox_open : bool) : Shared * Conn * option F :=
  if raw then
    match begin sh (cn_flight c) with
    | None => (sh, c, Some f)
    | Some (sh, fl) => (sh, with_flight c (if inbox_open then fl else finished (handled fl)), None)
    end
  else match classify f with
    | RUnreadable reason => (sh, with_out c (request_close (cn_out c) 1003 reason), None)
    | RAnswered answer => (sh, with_out c (push queue_limit overflow (cn_out c) answer).1, None)
    | RCancel => (sh, c, None)
    | RCall => match begin sh (cn_flight c) with None => (sh, c, Some f) | Some (sh, fl) => (sh, with_flight c fl, None) end
    end.

(** The close a turn decides on. *)
Definition decide_close (c : Conn) (close : option (nat * str)) : option (nat * str * DisconnectReason) :=
  let l := cn_loop c in
  match lp_closing l with
  | Some _ => None
  | None =>
      match close with
      | Some (code, reason) => Some (code, reason, if bool_decide (code = 1001) && lp_draining l then Drained else ServerClose code)
      | None =>
          if lp_shut_down l then Some (1001, SHUTDOWN_MESSAGE, RuntimeShutDown)
          else if lp_draining l && bool_decide (fl_busy (cn_flight c) = 0) then Some (1001, SHUTDOWN_MESSAGE, Drained)
          else None
      end
  end.

Definition closing_or_lost (c : Conn) : DisconnectReason := default Lost (lp_closing (cn_loop c)).

(** A read's event. *)
Definition read_turn (c : Conn) (r : ReadEnd) : Conn :=
  let closing := lp_closing (cn_loop c) in
  match r with
  | ReadNone => go c (LEnd (closing_or_lost c))
  | ReadData f => match closing with None => go c (LReceive f false) | Some _ => go c LWoken end
  | ReadPing flushed => if flushed then go c LWoken else go c (LEnd (closing_or_lost c))
  | ReadPong => go (with_timers c (lp_ping (cn_loop c)) false (lp_shut_down (cn_loop c))) LWoken
  | ReadClose frame =>
      match closing with
      | None =>
          let '(code, reason) := default (1005, []) frame in
          go (with_closing (with_out c (shut (cn_out c))) (ClientClose code reason)) LWoken
      | Some _ => go c LWoken
      end
  | ReadOther => go c LWoken
  | ReadError e sent =>
      let '(code, why) := read_failure e in
      let c := match code with
        | Some code => with_wire (with_out c (shut (cn_out c))) (if sent then [WClose code []] else [])
        | None => c
        end in
      go c (LEnd (match closing, why with Some closing, Lost => closing | _, _ => why end))
  end.

(** A turn's event, [None] when its branch is not polled or not ready. *)
Definition turn (sh : Shared) (c : Conn) (reading : bool) (t : Turn) : option (Shared * Conn) :=
  let l := cn_loop c in
  let fl := cn_flight c in
  match t with
  | TurnRead r => if reading then Some (sh, read_turn c r) else None
  | TurnWoken => match loop_hear (cn_out c) with Some out => Some (sh, go (with_out c out) LWoken) | None => None end
  | TurnProgressed =>
      if ear_hears (fl_progress fl) (fl_progressed fl)
      then Some (sh, go (with_flight c (with_progress fl (ear_drop (fl_progress fl) (fl_progressed fl)) None (fl_due_progress fl))) LWoken) else None
  | TurnPhase =>
      if negb (lp_draining l) && ear_hears (sh_phase sh) (lp_phase_changed l)
      then Some ({| sh_held := sh_held sh; sh_freed := sh_freed sh; sh_due_freed := sh_due_freed sh; sh_draining := sh_draining sh;
                    sh_phase := ear_drop (sh_phase sh) (lp_phase_changed l); sh_due_phase := sh_due_phase sh |}, go (with_ears c None (lp_freed l)) LWoken)
      else None
  | TurnFreed =>
      if ear_hears (sh_freed sh) (lp_freed l)
      then Some ({| sh_held := sh_held sh; sh_freed := ear_drop (sh_freed sh) (lp_freed l); sh_due_freed := sh_due_freed sh; sh_draining := sh_draining sh;
                    sh_phase := sh_phase sh; sh_due_phase := sh_due_phase sh |}, go (with_ears c (lp_phase_changed l) None) LWoken)
      else None
  | TurnJoined => Some (sh, go c LWoken)
  | TurnPing sent =>
      match lp_closing l with
      | None =>
          if lp_ping l then
            if sent then Some (sh, go (with_timers (with_wire c [WPing]) ping_interval (lp_pong l || pong_timeout) (lp_shut_down l)) LWoken)
            else Some (sh, go c (LEnd Lost))
          else None
      | Some _ => None
      end
  | TurnRefused passed =>
      if lp_pong l || (lp_ping l && match lp_closing l with None => true | Some _ => false end) then
        if passed then (if lp_pong l then Some (sh, go c (LEnd Lost)) else None)
        else Some (sh, go (with_timers c false false (match lp_closing l with None => true | Some _ => false end)) LWoken)
      else None
  | TurnPongMissed => if lp_pong l then Some (sh, go c (LEnd Lost)) else None
  | TurnCloseDeadline => if lp_deadline l then Some (sh, go c (LEnd (closing_or_lost c))) else None
  end.

(** What a loop's step is given: how many messages a write got out and whether it failed, whether a
    Close was sent, whether an inbox is open, what ended a wait. *)
Inductive Given :=
  | GivenNothing
  | GivenWrite (written : nat) (flushed : bool)
  | GivenClose (sent : bool)
  | GivenInbox (open : bool)
  | GivenTurn (t : Turn).

(** [write]: the messages fed one by one, the [n]th refused, and then flushed; no message is a write that
    does nothing. *)
Definition write_messages (c : Conn) (ms : list M) (n : nat) (flushed : bool) : Conn * bool :=
  (with_wire c (WData <$> take n ms), match ms with [] => true | _ => bool_decide (length ms ≤ n) && flushed end).

(** One step of a loop. *)
Definition loop_step (sh : Shared) (c : Conn) (given : Given) : option (Shared * Conn) :=
  let l := cn_loop c in
  match lp_at l, given with
  | LWoken, GivenNothing => Some (sh, go (with_out c (loop_listen (cn_out c))) LProgressed)
  | LProgressed, GivenNothing =>
      let fl := cn_flight c in
      let '(e, ear) := ear_listen (fl_progress fl) (fl_progressed fl) in
      Some (sh, go (with_flight c (with_progress fl e ear (fl_due_progress fl))) (if lp_draining l then LTake else LPhase))
  | LPhase, GivenNothing =>
      let '(e, ear) := ear_listen (sh_phase sh) (lp_phase_changed l) in
      Some ({| sh_held := sh_held sh; sh_freed := sh_freed sh; sh_due_freed := sh_due_freed sh; sh_draining := sh_draining sh; sh_phase := e;
               sh_due_phase := sh_due_phase sh |}, go (with_ears c ear (lp_freed l)) LDraining)
  | LDraining, GivenNothing => Some (sh, go (with_draining c (sh_draining sh)) LTake)
  | LTake, GivenNothing =>
      let '(out, (queued, close)) := take_queue (cn_out c) in
      Some (sh, go (with_out c out) (LWrite queued close))
  | LWrite queued close, GivenWrite n flushed =>
      let '(c, ok) := write_messages c queued n flushed in
      Some (sh, go c (if ok then LDecide close else LEnd (closing_or_lost c)))
  | LDecide close, GivenNothing =>
      Some (sh, go c (match decide_close c close with Some (code, reason, why) => LShut code reason why | None => LFreed end))
  | LShut code reason why, GivenNothing =>
      let '(out, late) := shut_taking (cn_out c) in
      Some (sh, go (with_out c out) (LLate late code reason why))
  | LLate late code reason why, GivenWrite n flushed =>
      let '(c, ok) := write_messages c late n flushed in
      Some (sh, go c (if ok then LSendClose code reason why else LEnd why))
  | LSendClose code reason why, GivenClose sent =>
      if sent then Some (sh, go (with_closing (with_wire c [WClose code (truncated reason)]) why) LFreed) else Some (sh, go c (LEnd why))
  | LFreed, GivenNothing =>
      Some (sh, go c (if match lp_waiting l with Some _ => true | None => false end || places_full sh then LFreedListen else LWaiting))
  | LFreedListen, GivenNothing =>
      let '(e, ear) := ear_listen (sh_freed sh) (lp_freed l) in
      Some ({| sh_held := sh_held sh; sh_freed := e; sh_due_freed := sh_due_freed sh; sh_draining := sh_draining sh; sh_phase := sh_phase sh;
               sh_due_phase := sh_due_phase sh |}, go (with_ears c (lp_phase_changed l) ear) LWaiting)
  | LWaiting, GivenNothing =>
      Some (sh, match lp_closing l, lp_waiting l with
                | None, Some f => if places_full sh then go c LReading else go (with_waiting c None) (LReceive f true)
                | _, _ => go c LReading
                end)
  | LReceive f again, GivenInbox open =>
      let '(sh, c, waiting) := received sh c f open in
      Some (sh, go (with_waiting c waiting) (if again then LReading else LWoken))
  | LReading, GivenNothing =>
      Some (sh, go c (match lp_closing l, lp_waiting l with
                      | Some _, _ => LPoll true false
                      | None, Some _ => LPoll false false
                      | None, None => if lp_draining l then LPoll false false else if places_full sh then LPoll false true else LInflight
                      end))
  | LInflight, GivenNothing => Some (sh, go c (LPoll (bool_decide (fl_handling (cn_flight c) < max_inflight)) false))
  | LPoll reading _, GivenTurn t => turn sh c reading t
  | LEnd why, GivenNothing => Some (sh, go (with_out c (shut (cn_out c))) (LDone why))
  | _, _ => None
  end.

(** ** The server *)

Inductive CEvent :=
  | CLoop (given : Given)
  | COut (e : @BEvent M)      (* a writer of the connection's queue *)
  | CHandled                  (* a message's answer is queued, or its task ends *)
  | CGive                     (* [handled] gives its place back *)
  | CFinished
  | CProgress                 (* a [progress.notify(1)] *)
  | CDropFlight.              (* the last holder of the flight is gone *)

Definition cstep (sh : Shared) (c : Conn) (e : CEvent) : option (Shared * Conn) :=
  let fl := cn_flight c in
  match e with
  | CLoop given => loop_step sh c given
  | COut e => match bstep queue_limit overflow (cn_out c) e with Some out => Some (sh, with_out c out) | None => None end
  | CHandled => if bool_decide (fl_handling fl = 0) || fl_dropped fl then None else Some (sh, with_flight c (handled fl))
  | CGive =>
      if bool_decide (fl_due_give fl = 0) then None
      else Some (give_back sh 1, with_flight c (counts fl (fl_handling fl) (fl_busy fl) (pred (fl_due_give fl)) (S (fl_due_progress fl))))
  | CFinished => if bool_decide (fl_busy fl ≤ fl_handling fl) then None else Some (sh, with_flight c (finished fl))
  | CProgress =>
      if bool_decide (fl_due_progress fl = 0) then None
      else Some (sh, with_flight c (with_progress fl (ev_notify_one (fl_progress fl)) (fl_progressed fl) (pred (fl_due_progress fl))))
  | CDropFlight =>
      match lp_at (cn_loop c) with
      | LDone _ =>
          if fl_dropped fl || bool_decide (fl_due_give fl ≠ 0) then None
          else let '(sh, fl) := flight_drop sh fl in Some (sh, with_flight c fl)
      | _ => None
      end
  end.

Inductive SEvent :=
  | SAccept                   (* a connection's loop starts *)
  | SConn (k : nat) (e : CEvent)
  | SDrain                    (* [Tracker::drain] sets the phase *)
  | SPhaseNotify
  | SFreedNotify.

Definition sstep (s : Server) (e : SEvent) : option Server :=
  let sh := sv_shared s in
  match e with
  | SAccept => Some {| sv_shared := sh; sv_conns := sv_conns s ++ [conn_new] |}
  | SConn k e =>
      match sv_conns s !! k with
      | Some c => match cstep sh c e with Some (sh, c) => Some {| sv_shared := sh; sv_conns := <[k := c]> (sv_conns s) |} | None => None end
      | None => None
      end
  | SDrain => Some {| sv_shared := {| sh_held := sh_held sh; sh_freed := sh_freed sh; sh_due_freed := sh_due_freed sh; sh_draining := true;
                                     sh_phase := sh_phase sh; sh_due_phase := S (sh_due_phase sh) |}; sv_conns := sv_conns s |}
  | SPhaseNotify =>
      if bool_decide (sh_due_phase sh = 0) then None
      else Some {| sv_shared := {| sh_held := sh_held sh; sh_freed := sh_freed sh; sh_due_freed := sh_due_freed sh; sh_draining := sh_draining sh;
                                   sh_phase := ev_notify_all (sh_phase sh); sh_due_phase := pred (sh_due_phase sh) |}; sv_conns := sv_conns s |}
  | SFreedNotify =>
      if bool_decide (sh_due_freed sh = 0) then None
      else Some {| sv_shared := {| sh_held := sh_held sh; sh_freed := ev_notify_all (sh_freed sh); sh_due_freed := pred (sh_due_freed sh);
                                   sh_draining := sh_draining sh; sh_phase := sh_phase sh; sh_due_phase := sh_due_phase sh |}; sv_conns := sv_conns s |}
  end.

Inductive sreachable : Server → Prop :=
  | sreachable_new : sreachable server_new
  | sreachable_step s e s' : sreachable s → sstep s e = Some s' → sreachable s'.
End Connection.
