(* ===== verification/ConnectionFacts.v ===== *)
(** * ConnectionFacts: what holds of every connection of a server, whatever is interleaved

    The order, the bound and the wakeups of its outbound queue, the counts of messages, what is
    written to the socket, what wakes a parked read loop, and the places and the phase that the
    connections share. *)

From S2P Require Import Prelude Text Events Outbound Connection.
Local Open Scope nat_scope.
Local Open Scope list_scope.

Section Outbound.
Context {events : Events} {M : Type} (limit : option nat) (overflow : Overflow).
Implicit Types (b : @Outbound events M) (st : @OutState M).

Definition pump_ears (pumps : list (@Pump M)) : nat → option nat := λ p, pumps !! p ≫= pump_ear.

(** A pump that waits on a listener not notified: the queue is as it read it, or somebody is to tell
    it: the loop, past its lock or asked for a close. *)
Definition pump_waits b : Prop := ∀ p x i, ob_pumps b !! p = Some x → pm_at x = PumpAwait i → notified (ob_space b) i = false →
  (refuses (ob_state b) = false ∧ is_full limit (ob_state b) = true) ∨ 0 < ob_due_space b ∨ out_close (ob_state b) ≠ None.

Record ob_ok b : Prop := {
  bo_order : sublist (ob_given b ++ out_queue (ob_state b)) (ob_accepted b);
  bo_all : ob_lost b = false → ob_given b ++ out_queue (ob_state b) = ob_accepted b;
  bo_bound : ∀ n, limit = Some n → length (out_queue (ob_state b)) ≤ Nat.max n 1;
  bo_sole : sole (ob_wake b) (ob_woken b);
  bo_wake : asleep (ob_wake b) (ob_woken b) → ob_fresh b = true →
    (out_queue (ob_state b) = [] ∧ out_close (ob_state b) = None) ∨ 0 < ob_due_wake b;
  bo_shared : shared (ob_space b) (pump_ears (ob_pumps b));
  bo_space : pump_waits b;
}.

Lemma outbound_new_ok : ob_ok outbound_new.
Proof. split; cbn; try done; [intros; lia|apply sole_new]. Qed.

(** ** Writers *)

Lemma sublist_queue_snoc (l q a : list M) m : sublist (l ++ q) a → sublist (l ++ q ++ [m]) (a ++ [m]).
Proof. intros H. rewrite app_assoc. by apply sublist_app. Qed.

Lemma sublist_queue_tail (l q a : list M) m : sublist (l ++ q) a → sublist (l ++ tail q ++ [m]) (a ++ [m]).
Proof.
  intros H. apply sublist_queue_snoc. etrans; [|exact H]. apply sublist_app; [done|]. destruct q; [done|]. by apply sublist_cons.
Qed.

Lemma length_tail_snoc (q : list M) m : length (tail q ++ [m]) = Nat.max (length q) 1.
Proof. rewrite length_app. destruct q; cbn; lia. Qed.

(** A locked section that notifies [wake]: it leaves the order and the bound, and a pump that could
    have gone on is told. *)
Lemma ob_ok_write b st accepted lost : ob_ok b → sublist (ob_given b ++ out_queue st) (ob_accepted b ++ accepted) →
  (ob_lost b || lost = false → ob_given b ++ out_queue st = ob_accepted b ++ accepted) → (∀ n, limit = Some n → length (out_queue st) ≤ Nat.max n 1) →
  pump_waits (write b st accepted lost) → ob_ok (write b st accepted lost).
Proof. intros [] H1 H2 H3 H4. split; cbn; try done. intros _ _. right. lia. Qed.

Lemma full_after st queue : is_full limit st = true → length (out_queue st) ≤ length queue → is_full limit (queued st queue) = true.
Proof. unfold is_full. destruct limit as [n|]; [|done]. intros H%bool_decide_eq_true Hl. apply bool_decide_eq_true. cbn. lia. Qed.

Lemma ob_ok_push b m : ob_ok b → ob_ok (push limit overflow b m).1.
Proof.
  intros Hok. pose proof Hok as [H1 H2 H3 H4 H5 H6 H7]. unfold push. destruct (refuses (ob_state b)) eqn:Er; [done|]. destruct (is_full limit (ob_state b)) eqn:Ef; [destruct overflow|]; cbn [fst].
  - apply ob_ok_write; try done; cbn; [etrans; [|rewrite app_nil_r; exact H1]; apply sublist_app; [done|apply sublist_nil_l]| | |].
    + rewrite !app_nil_r. intros [Hl Hn]%orb_false_iff. apply bool_decide_eq_false in Hn. rewrite <- (H2 Hl). destruct (out_queue (ob_state b)); [by rewrite app_nil_r|cbn in Hn; lia].
    + intros; lia.
    + intros p x i _ _ _. right; right. done.
  - apply ob_ok_write; try done; cbn [queued out_queue].
    + by apply sublist_queue_tail.
    + intros [Hl Hn]%orb_false_iff. apply bool_decide_eq_false in Hn. rewrite <- (H2 Hl). destruct (out_queue (ob_state b)); [cbn; by rewrite app_nil_r|cbn in Hn; lia].
    + intros n Hn. rewrite length_tail_snoc. specialize (H3 n Hn). lia.
    + intros p x i Hp Hx Hn. destruct (H7 p x i Hp Hx Hn) as [[Hr Hf]|Hd]; [left|by right]. split; [done|]. apply full_after; [done|]. rewrite length_tail_snoc. lia.
  - apply ob_ok_write; try done; cbn [queued out_queue].
    + by apply sublist_queue_snoc.
    + rewrite orb_false_r. intros Hl. rewrite app_assoc. by rewrite (H2 Hl).
    + intros n Hn. rewrite length_app. cbn. unfold is_full in Ef. rewrite Hn in Ef. apply bool_decide_eq_false in Ef. lia.
    + intros p x i Hp Hx Hn. destruct (H7 p x i Hp Hx Hn) as [[Hr Hf]|Hd]; [congruence|by right].
Qed.

Lemma ob_ok_request b code reason : ob_ok b → ob_ok (request_close b code reason).
Proof.
  intros Hok. pose proof Hok as [H1 H2 H3 H4 H5 H6 H7]. unfold request_close. apply ob_ok_write; try done; rewrite ?app_nil_r, ?orb_false_r.
  - by destruct (refuses (ob_state b)).
  - intros Hl. rewrite <- (H2 Hl). by destruct (refuses (ob_state b)).
  - intros n Hn. destruct (refuses (ob_state b)); by apply H3.
  - intros p x i Hp Hx Hn. cbn. destruct (refuses (ob_state b)) eqn:Er; [|by right; right]. by apply (H7 p x i).
Qed.

(** ** Pumps *)

Lemma pump_ears_set (pumps : list (@Pump M)) p x to : is_Some (pumps !! p) →
  ∀ k, pump_ears (<[p := {| pm_message := x; pm_at := to |}]> pumps) k = set_ear (pump_ears pumps) p (pump_ear {| pm_message := x; pm_at := to |}) k.
Proof.
  intros Hp k. unfold pump_ears, set_ear. case_bool_decide as E; [subst k|by rewrite list_lookup_insert_ne]. rewrite list_lookup_insert_eq; [done|by apply lookup_lt_is_Some].
Qed.

(** A pump moves: the others wait as they did. *)
Lemma ob_ok_pump b p x to space : ob_ok b → ob_pumps b !! p = Some x →
  shared space (set_ear (pump_ears (ob_pumps b)) p (pump_ear {| pm_message := pm_message x; pm_at := to |})) →
  (∀ k, k ≠ p → asleep space (pump_ears (ob_pumps b) k) → asleep (ob_space b) (pump_ears (ob_pumps b) k)) →
  (∀ i, to = PumpAwait i → notified space i = false → (refuses (ob_state b) = false ∧ is_full limit (ob_state b) = true) ∨ 0 < ob_due_space b ∨ out_close (ob_state b) ≠ None) →
  ob_ok (set_pump b space p x to).
Proof.
  intros [H1 H2 H3 H4 H5 H6 H7] Hp Hs Ho Hto. split; cbn; try done.
  - eapply shared_ext; [|exact Hs]. intros k. by apply pump_ears_set.
  - intros k y i [[<- [<- _]]|[Hne Hy]]%list_lookup_insert_Some Hat Hn; [by apply (Hto i)|]. apply (H7 k y i Hy Hat).
    destruct (Ho k) as (j & Hj & Hj'); [done| |]; unfold pump_ears in *; rewrite Hy in *; cbn in *; unfold pump_ear in *; rewrite Hat in *; [by exists i|congruence].
Qed.

Lemma ob_ok_pump_drop b p x to : ob_ok b → ob_pumps b !! p = Some x → pump_ear {| pm_message := pm_message x; pm_at := to |} = None →
  ob_ok (set_pump b (ear_drop (ob_space b) (pump_ear x)) p x to).
Proof.
  intros Hok Hp Hto. pose proof (bo_shared b Hok) as Hs. destruct (shared_drop _ _ p Hs) as [Hs' Ho]. assert (Hx : pump_ears (ob_pumps b) p = pump_ear x) by (unfold pump_ears; by rewrite Hp).
  rewrite Hx in Hs', Ho. apply ob_ok_pump; [done|done|by rewrite Hto|done|]. intros i ->. done.
Qed.

Lemma ob_ok_pump_step b p x b' : ob_ok b → ob_pumps b !! p = Some x → pump_step limit b p x = Some b' → ob_ok b'.
Proof.
  intros Hok Hp E. unfold pump_step in E. pose proof (bo_shared b Hok) as Hs. assert (Hx : pump_ears (ob_pumps b) p = pump_ear x) by (unfold pump_ears; by rewrite Hp).
  destruct (pm_at x) as [|i|i| |] eqn:Eat; try done.
  - destruct (ev_listen (ob_space b)) as [space i] eqn:El. injection E as <-. destruct (shared_listen _ _ p Hs) as (H1 & _ & H3 & _).
    rewrite Hx in H1, H3. unfold pump_ear in H1, H3. rewrite Eat in H1, H3. cbn in H1, H3. rewrite El in H1, H3. by apply ob_ok_pump.
  - assert (Hear : ear_drop (ob_space b) (pump_ear x) = ev_drop i (ob_space b)) by (unfold pump_ear; by rewrite Eat).
    destruct (refuses (ob_state b)) eqn:Er; [|destruct (is_full limit (ob_state b)) eqn:Ef]; injection E as <-.
    + rewrite <- Hear. by apply ob_ok_pump_drop.
    + apply ob_ok_pump; [done|done| |done|by left]. eapply shared_ext; [|exact Hs]. intros k. unfold set_ear. case_bool_decide; [subst k|done]. rewrite Hx. unfold pump_ear. by rewrite Eat.
    + rewrite <- Hear. pose proof (ob_ok_pump_drop b p x (PumpEnded true) Hok Hp eq_refl) as Hok'. pose proof Hok' as [H1 H2 H3 H4 H5 H6 H7].
      cbn in H1, H2, H3. apply ob_ok_write; try done; cbn.
      * by apply sublist_queue_snoc.
      * rewrite orb_false_r. intros Hl. rewrite app_assoc. by rewrite (H2 Hl).
      * intros n Hn. rewrite length_app. cbn. unfold is_full in Ef. rewrite Hn in Ef. apply bool_decide_eq_false in Ef. lia.
      * intros q y j Hq Hy Hn. destruct (H7 q y j Hq Hy Hn) as [[_ Hf]|Hd]; [cbn in Hf; congruence|by right].
  - destruct (notified (ob_space b) i) eqn:En; [|done]. injection E as <-. pose proof (ob_ok_pump_drop b p x PumpListen Hok Hp eq_refl) as Hd. unfold pump_ear in Hd. by rewrite Eat in Hd.
Qed.

Lemma ob_ok_bstep b e b' : ob_ok b → bstep limit overflow b e = Some b' → ob_ok b'.
Proof.
  intros Hok E. pose proof Hok as [H1 H2 H3 H4 H5 H6 H7]. destruct e as [m|code reason|m|p|p| |]; cbn in E.
  - injection E as <-. by apply ob_ok_push.
  - injection E as <-. by apply ob_ok_request.
  - injection E as <-. split; cbn; try done.
    + eapply shared_ext; [|exact H6]. intros k. unfold pump_ears. destruct (decide (k < length (ob_pumps b))); [by rewrite lookup_app_l|].
      rewrite lookup_app_r by lia. rewrite (lookup_ge_None_2 (ob_pumps b)) by lia. by destruct (k - length (ob_pumps b)) as [|[]].
    + intros p x i [Hx|[_ [_ <-]%list_lookup_singleton_Some]]%lookup_app_Some Hat; [by apply (H7 p x i)|done].
  - destruct (ob_pumps b !! p) as [x|] eqn:Ep; [|done]. by eapply ob_ok_pump_step.
  - destruct (ob_pumps b !! p) as [x|] eqn:Ep; [|done]. destruct (pump_live x); simplify_eq. by apply ob_ok_pump_drop.
  - case_bool_decide; simplify_eq. destruct (sole_one _ _ H4). split; cbn; try done.
  - case_bool_decide; simplify_eq. destruct (shared_all _ _ H6) as [Hs Ha]. split; cbn; try done. intros p x i Hp Hx Hn. cbn in Hp, Hn. exfalso. apply (Ha p). exists i. split; [|done]. unfold pump_ears. rewrite Hp. cbn. unfold pump_ear. by rewrite Hx.
Qed.

(** ** The loop *)

Lemma ob_ok_listen b : ob_ok b → ob_ok (loop_listen b) ∧ is_Some (ob_woken (loop_listen b)).
Proof.
  intros [H1 H2 H3 H4 H5 H6 H7]. destruct (sole_listen _ _ H4) as [Hs Hi]. unfold loop_listen. destruct (ear_listen (ob_wake b) (ob_woken b)) as [wake woken] eqn:E.
  split; [|done]. split; cbn; try done. intros Ha Hf. unfold ear_listen in E. destruct (ob_woken b) as [i|] eqn:Ew; [|done]. injection E as <- <-. by apply H5.
Qed.

Lemma ob_ok_hear b b' : ob_ok b → loop_hear b = Some b' → ob_ok b'.
Proof.
  intros [H1 H2 H3 H4 H5 H6 H7] E. unfold loop_hear in E. destruct (ear_hears _ _); simplify_eq. split; cbn; try done; [by apply sole_drop|by intros (i & ? & _)].
Qed.

(** What the loop's locked sections share: they empty the queue, and are to notify [space]. *)
Lemma ob_ok_drain b st given fresh lost : ob_ok b → out_queue st = [] → sublist given (out_queue (ob_state b)) →
  (lost = false → given = out_queue (ob_state b)) → (out_close st = None ∨ (fresh = ob_fresh b ∧ out_close st = out_close (ob_state b))) → ob_ok (drain b st given fresh lost).
Proof.
  intros [H1 H2 H3 H4 H5 H6 H7] Hq Hg Hl Hf. split; cbn; rewrite ?Hq, ?app_nil_r; try done.
  - etrans; [|exact H1]. by apply sublist_app.
  - intros [Ha Hb]%orb_false_iff. by rewrite (Hl Hb), (H2 Ha).
  - intros; cbn; lia.
  - intros Ha Hfr. destruct Hf as [Hc|[-> Hc]]; [by left|]. destruct (H5 Ha Hfr) as [[_ Hn]|Hd]; [left|by right]. by rewrite Hc, Hn.
  - intros p x i Hp Hx Hn. right; left. cbn. lia.
Qed.

Lemma ob_ok_take b : ob_ok b → ob_ok (take_queue b).1.
Proof. intros Hok. apply ob_ok_drain; try done. by left. Qed.

Lemma ob_ok_shut b : ob_ok b → ob_ok (shut b).
Proof.
  intros Hok. apply ob_ok_drain; try done; [apply sublist_nil_l| |by right]. intros H%bool_decide_eq_false. destruct (out_queue (ob_state b)); [done|cbn in H; lia].
Qed.

Lemma ob_ok_shut_taking b : ob_ok b → ob_ok (shut_taking b).1.
Proof. intros Hok. apply ob_ok_drain; try done. by right. Qed.
End Outbound.

(** Every case of a step's equation. *)
Ltac step_cases E := repeat match type of E with context [match ?x with _ => _ end] => destruct x eqn:? end; simplify_eq.

(** The loop's step at each of its points. *)
Ltac at_points E c given :=
  unfold Connection.loop_step, write_messages in E;
  destruct (lp_at (cn_loop c)) as [| | | | |queued close|close|code reason why|late code reason why|code reason why| | | |f again| | |reading full|why|why] eqn:Eat;
  destruct given as [|n flushed|sent|open|t]; try discriminate E.

(** The parts of a connection after a move. *)
Ltac csimp :=
  cbn [go with_loop with_out with_flight with_wire with_closing with_waiting with_ears with_draining with_timers counts with_progress set_held
       cn_out cn_flight cn_loop cn_wire lp_at lp_draining lp_closing lp_waiting lp_shut_down lp_ping lp_pong lp_deadline lp_phase_changed lp_freed
       fl_handling fl_busy fl_due_give fl_progress fl_progressed fl_due_progress fl_dropped
       sh_held sh_freed sh_due_freed sh_draining sh_phase sh_due_phase fst snd write_messages] in *.

(** The events of a turn. *)
Ltac at_turns E t :=
  destruct t as [r| | | | | |sent|passed| |]; cbn [turn] in E; [destruct r as [|f|flushed| |frame| |e sent]; cbn [read_turn] in E|..].

Section Connection.
Context {events : Events} {M F : Type}.
Context (queue_limit : option nat) (overflow : Overflow) (max_inflight places : nat) (ping_interval pong_timeout raw : bool) (classify : F → Received M).
Implicit Types (b : @Outbound events M) (c : @Conn events M F) (sh : @Shared events) (fl : @Flight events).

Abbreviation cstep := (cstep queue_limit overflow max_inflight places ping_interval pong_timeout raw classify).
Abbreviation loop_step := (loop_step queue_limit overflow max_inflight places ping_interval pong_timeout raw classify).
Abbreviation received := (received queue_limit overflow places raw classify).

(** ** The queue *)

Lemma push_given b m : ob_given (push queue_limit overflow b m).1 = ob_given b.
Proof. unfold push. destruct (refuses _); [done|]. destruct (is_full _ _); [by destruct overflow|done]. Qed.

Lemma bstep_given b e b' : bstep queue_limit overflow b e = Some b' → ob_given b' = ob_given b.
Proof. intros E. destruct e; unfold bstep, pump_step in E; step_cases E; try done. apply push_given. Qed.

(** The queue of a connection that is closing stays empty. *)
Definition emptied b : Prop := out_closed (ob_state b) = true ∧ out_queue (ob_state b) = [].

Lemma emptied_refuses b : emptied b → refuses (ob_state b) = true.
Proof. intros [H _]. unfold refuses. by rewrite H. Qed.

Lemma emptied_push b m : emptied b → push queue_limit overflow b m = (b, false).
Proof. intros H%emptied_refuses. unfold push. by rewrite H. Qed.

Lemma emptied_request b code reason : emptied b → emptied (request_close b code reason).
Proof. intros H. pose proof (emptied_refuses b H) as Hr. unfold request_close. rewrite Hr. exact H. Qed.

Lemma emptied_bstep b e b' : emptied b → bstep queue_limit overflow b e = Some b' → emptied b'.
Proof.
  intros H E. pose proof (emptied_refuses b H) as Hr. destruct e as [m|code reason|m|p|p| |]; unfold bstep, pump_step in E; rewrite ?Hr in E; step_cases E; try done.
  - by rewrite (emptied_push b m H).
  - by apply emptied_request.
Qed.

Lemma emptied_shut b : emptied (shut b).
Proof. done. Qed.

(** What [received] does to a connection: at most it writes to the queue, or begins a message. *)
Lemma received_cases sh c f open sh' c' waiting : received sh c f open = (sh', c', waiting) →
  cn_loop c' = cn_loop c ∧ cn_wire c' = cn_wire c
  ∧ ((sh' = sh ∧ cn_flight c' = cn_flight c ∧ waiting = None
        ∧ (cn_out c' = cn_out c ∨ (∃ e, bstep queue_limit overflow (cn_out c) e = Some (cn_out c'))))
     ∨ (c' = c ∧ sh' = sh ∧ waiting = Some f ∧ places ≤ sh_held sh)
     ∨ (waiting = None ∧ cn_out c' = cn_out c ∧ ∃ fl, begin places sh (cn_flight c) = Some (sh', fl)
          ∧ (cn_flight c' = fl ∨ cn_flight c' = finished (handled fl)))).
Proof.
  unfold Connection.received. intros E.
  assert (Hfull : begin places sh (cn_flight c) = None → places ≤ sh_held sh) by (unfold begin; case_bool_decide; [done|lia]).
  destruct raw; [|destruct (classify f)]; simplify_eq; try (by split_and!; [done|done|left; naive_solver]).
  - destruct (begin places sh (cn_flight c)) as [[sh1 fl]|] eqn:Eb; simplify_eq; [|naive_solver]. split_and!; [done|done|]. right; right. split_and!; [done|done|]. exists fl. destruct open; naive_solver.
  - split_and!; [done|done|]. left. split_and!; [done..|]. right. exists (BRequestClose 1003 reason). done.
  - split_and!; [done|done|]. left. split_and!; [done..|]. right. exists (BPush answer). done.
  - destruct (begin places sh (cn_flight c)) as [[sh1 fl]|] eqn:Eb; simplify_eq; [|naive_solver]. split_and!; [done|done|]. right; right. split_and!; [done|done|]. exists fl. naive_solver.
Qed.

(** A step of a connection changes its queue by a writer's step or the loop's. *)
Lemma cstep_out sh c e sh' c' : cstep sh c e = Some (sh', c') →
  cn_out c' = cn_out c ∨ (∃ x, bstep queue_limit overflow (cn_out c) x = Some (cn_out c')) ∨ cn_out c' = loop_listen (cn_out c)
  ∨ loop_hear (cn_out c) = Some (cn_out c') ∨ cn_out c' = (take_queue (cn_out c)).1 ∨ cn_out c' = shut (cn_out c) ∨ cn_out c' = (shut_taking (cn_out c)).1.
Proof.
  intros E. destruct e as [given|x| | | | |]; cbn [Connection.cstep] in E; [|step_cases E; eauto..].
  at_points E c given; try (step_cases E; csimp; by eauto 8).
  - destruct (received sh c f open) as [[sh1 c1] waiting] eqn:Er. injection E as <- <-. csimp. destruct (received_cases _ _ _ _ _ _ _ Er) as (_ & _ & [(_ & _ & _ & [-> | ?])|[(-> & _)|(_ & -> & _)]]); csimp; eauto.
  - at_turns E t; step_cases E; csimp; eauto 8.
Qed.

Lemma out_ok_step sh c e sh' c' : ob_ok queue_limit (cn_out c) → cstep sh c e = Some (sh', c') → ob_ok queue_limit (cn_out c').
Proof.
  intros H E. destruct (cstep_out _ _ _ _ _ E) as [->|[[x Hx]|[->|[Hx|[->|[->| ->]]]]]]; [done|by eapply ob_ok_bstep|by apply ob_ok_listen|by eapply ob_ok_hear|by apply ob_ok_take|by apply ob_ok_shut|by apply ob_ok_shut_taking].
Qed.
End Connection.

Section Connection.
Context {events : Events} {M F : Type}.
Context (queue_limit : option nat) (overflow : Overflow) (max_inflight places : nat) (ping_interval pong_timeout raw : bool) (classify : F → Received M).
Implicit Types (b : @Outbound events M) (c : @Conn events M F) (sh : @Shared events) (fl : @Flight events).

Abbreviation cstep := (cstep queue_limit overflow max_inflight places ping_interval pong_timeout raw classify).
Abbreviation received := (received queue_limit overflow places raw classify).

(** ** Messages in flight *)

(** The loop places_of a message, or is about to read one: it saw room for it, and only it takes room. *)
Definition wants_room c : Prop :=
  lp_waiting (cn_loop c) ≠ None
  ∨ match lp_at (cn_loop c) with LReceive _ _ => True | LPoll true _ => lp_closing (cn_loop c) = None | _ => False end.

Record counted c : Prop := {
  ct_busy : fl_handling (cn_flight c) ≤ fl_busy (cn_flight c);
  ct_inflight : fl_handling (cn_flight c) ≤ max_inflight;
  ct_room : wants_room c → fl_handling (cn_flight c) < max_inflight;
}.

(** A flight's counts after a step, against the places taken or given. *)
Definition places_of (fl : Flight) : nat := fl_handling fl + fl_due_give fl.

Lemma begin_counts sh fl sh' fl' : begin places sh fl = Some (sh', fl') → sh_held sh < places
  ∧ sh' = set_held sh (S (sh_held sh)) (sh_due_freed sh) ∧ fl' = counts fl (S (fl_handling fl)) (S (fl_busy fl)) (fl_due_give fl) (fl_due_progress fl).
Proof. unfold begin. case_bool_decide; naive_solver. Qed.

Lemma counted_step sh c e sh' c' : counted c → cstep sh c e = Some (sh', c') → counted c'.
Proof.
  intros [H1 H2 H3] E. unfold wants_room in H3. destruct e as [given|x| | | | |]; cbn [Connection.cstep] in E.
  - at_points E c given; rewrite ?Eat in H3.
    all: try (step_cases E; (split; unfold wants_room; csimp; [done|done|first [done|naive_solver]])).
    + destruct (received sh c f open) as [[sh1 c1] waiting] eqn:Er. injection E as <- <-. assert (Hh : fl_handling (cn_flight c) < max_inflight) by (apply H3; by right).
      destruct (received_cases _ _ _ _ _ _ _ _ _ _ _ _ Er) as (Hl & _ & [(_ & Hf & -> & _)|[(-> & _ & -> & _)|(-> & _ & fl & Hb & Hf)]]).
      * split; unfold wants_room; csimp; rewrite Hf; [done|lia|]. intros _. lia.
      * split; unfold wants_room; csimp; [done|lia|done].
      * destruct (begin_counts _ _ _ _ Hb) as (_ & -> & ->). split; unfold wants_room; csimp; destruct Hf as [-> | ->]; cbn; try lia; destruct again; naive_solver lia.
    + injection E as <- <-. split; unfold wants_room; csimp; [done|done|]. intros [Hw|Hr]; [apply H3; by left|]. by case_bool_decide.
    + at_turns E t; step_cases E; split; unfold wants_room; csimp; try done; try naive_solver.
  - step_cases E. by split.
  - step_cases E. split_bools. split; unfold wants_room; csimp; unfold handled; csimp; [lia|lia|]. intros Hw. specialize (H3 Hw). lia.
  - step_cases E. by split.
  - step_cases E. split_bools. split; unfold wants_room; csimp; unfold finished; csimp; [lia|lia|done].
  - step_cases E. by split.
  - destruct (lp_at (cn_loop c)) eqn:Eat; try done. unfold flight_drop in E. step_cases E; (split; unfold wants_room; csimp; rewrite ?Eat; [lia|lia|intros Hw; specialize (H3 Hw); lia]).
Qed.

(** ** The socket *)

Definition data_of (ws : list (@Wire M)) : list M := omap (λ w, match w with WData m => Some m | _ => None end) ws.

Definition is_close (w : @Wire M) : bool := match w with WClose _ _ => true | _ => false end.

(** The messages taken from the queue and not yet written. *)
Definition in_hand (at_ : @Loop M F) : list M := match at_ with LWrite queued _ => queued | LLate late _ _ _ => late | _ => [] end.

Definition has_ended (at_ : @Loop M F) : bool := match at_ with LEnd _ | LDone _ => true | _ => false end.

(** The loop has shut the queue to close. *)
Definition shut_down_at (at_ : @Loop M F) : bool := match at_ with LLate _ _ _ _ | LSendClose _ _ _ => true | _ => false end.

Record socket_ok c : Prop := {
  so_data : if has_ended (lp_at (cn_loop c)) then data_of (cn_wire c) `prefix_of` ob_given (cn_out c)
            else data_of (cn_wire c) ++ in_hand (lp_at (cn_loop c)) = ob_given (cn_out c);
  so_emptied : lp_closing (cn_loop c) ≠ None ∨ shut_down_at (lp_at (cn_loop c)) = true → emptied (cn_out c);
  so_hand : lp_closing (cn_loop c) ≠ None → in_hand (lp_at (cn_loop c)) = [];
  so_deciding : match lp_at (cn_loop c) with LShut _ _ _ | LLate _ _ _ _ | LSendClose _ _ _ => lp_closing (cn_loop c) = None | _ => True end;
  so_order : ∃ pre post, cn_wire c = pre ++ post ∧ Forall (λ w, is_close w = false) pre ∧ Forall (λ w, is_close w = true) post;
  so_open : lp_closing (cn_loop c) = None → has_ended (lp_at (cn_loop c)) = false → Forall (λ w, is_close w = false) (cn_wire c);
}.

Lemma data_of_app ws ws' : data_of (ws ++ ws') = data_of ws ++ data_of ws'.
Proof. apply omap_app. Qed.

Lemma data_of_data (ms : list M) : data_of (WData <$> ms) = ms.
Proof. induction ms as [|m ms IH]; [done|]. unfold data_of in *. cbn. by f_equal. Qed.

Lemma data_not_close (ms : list M) : Forall (λ w, is_close w = false) (WData <$> ms).
Proof. by apply Forall_fmap, Forall_true. Qed.

Lemma order_open (ws : list (@Wire M)) : Forall (λ w, is_close w = false) ws →
  ∃ pre post, ws = pre ++ post ∧ Forall (λ w, is_close w = false) pre ∧ Forall (λ w, is_close w = true) post.
Proof. intros H. exists ws, []. by rewrite app_nil_r. Qed.

(** A move that leaves the queue's messages, the socket and the closing as they are. *)
Lemma socket_ok_move c c' : socket_ok c → cn_wire c' = cn_wire c → ob_given (cn_out c') = ob_given (cn_out c) →
  (emptied (cn_out c) → emptied (cn_out c')) → lp_closing (cn_loop c') = lp_closing (cn_loop c) →
  in_hand (lp_at (cn_loop c)) = [] → in_hand (lp_at (cn_loop c')) = [] → has_ended (lp_at (cn_loop c)) = false ∨ has_ended (lp_at (cn_loop c')) = true →
  shut_down_at (lp_at (cn_loop c')) = false →
  match lp_at (cn_loop c') with LShut _ _ _ => lp_closing (cn_loop c') = None | _ => True end → socket_ok c'.
Proof.
  intros [H1 H2 H3 H4 H5 H6] Hw Hg He Hc Hh Hh' Hend Hs Hd. split; rewrite ?Hw, ?Hg, ?Hc, ?Hh'; try done.
  - rewrite Hh, app_nil_r in H1. rewrite app_nil_r. destruct (has_ended (lp_at (cn_loop c))), (has_ended (lp_at (cn_loop c'))); try done; [naive_solver|by rewrite H1].
  - rewrite Hs. intros [Hx|]; [|done]. apply He, H2. by left.
  - destruct (lp_at (cn_loop c')); try done. by rewrite <- Hc.
  - intros Hn Hf. apply H6; [done|]. destruct Hend as [?|Ht]; [done|]. by rewrite Hf in Ht.
Qed.

(** The queue changes and the loop stays where it is. *)
Lemma socket_ok_same c c' : socket_ok c → cn_wire c' = cn_wire c → cn_loop c' = cn_loop c → ob_given (cn_out c') = ob_given (cn_out c) →
  (emptied (cn_out c) → emptied (cn_out c')) → socket_ok c'.
Proof. intros [H1 H2 H3 H4 H5 H6] Hw Hl Hg He. split; rewrite ?Hw, ?Hl, ?Hg; try done. auto. Qed.

Lemma received_out sh c f open sh' c' waiting : received sh c f open = (sh', c', waiting) →
  cn_wire c' = cn_wire c ∧ cn_loop c' = cn_loop c ∧ ob_given (cn_out c') = ob_given (cn_out c) ∧ (emptied (cn_out c) → emptied (cn_out c')).
Proof.
  intros Er. destruct (received_cases _ _ _ _ _ _ _ _ _ _ _ _ Er) as (Hl & Hw & [(_ & _ & _ & [-> |[e He]])|[(-> & _)|(_ & -> & _)]]); split_and!; try done.
  - by eapply bstep_given.
  - intros Hx. by eapply emptied_bstep.
Qed.

Lemma loop_listen_keeps b : ob_given (loop_listen b) = ob_given b ∧ ob_state (loop_listen b) = ob_state b.
Proof. unfold loop_listen. by destruct (ear_listen _ _). Qed.

Lemma loop_hear_keeps b b' : loop_hear b = Some b' → ob_given b' = ob_given b ∧ ob_state b' = ob_state b.
Proof. unfold loop_hear. destruct (ear_hears _ _); naive_solver. Qed.

(** The points that write: the queue taken, what is in hand written, the queue shut, the Close. *)
Lemma socket_ok_take c : socket_ok c → lp_at (cn_loop c) = LTake →
  socket_ok (go (with_out c (take_queue (cn_out c)).1) (LWrite (out_queue (ob_state (cn_out c))) (out_close (ob_state (cn_out c))))).
Proof.
  intros [H1 H2 H3 H4 H5 H6] Eat. rewrite Eat in *. cbn in H1. rewrite app_nil_r in H1. split; csimp; try done.
  - cbn. by rewrite H1.
  - intros [Hc|]; [|done]. destruct (H2 (or_introl Hc)) as [Hcl _]. split; [|done]. cbn. by rewrite Hcl.
  - intros Hc. by destruct (H2 (or_introl Hc)) as [_ Hq].
Qed.

Lemma socket_ok_write c ms n to : socket_ok c → in_hand (lp_at (cn_loop c)) = ms → has_ended (lp_at (cn_loop c)) = false →
  in_hand to = [] → (has_ended to = false → length ms ≤ n) →
  (shut_down_at to = true → shut_down_at (lp_at (cn_loop c)) = true) →
  match to with LShut _ _ _ | LLate _ _ _ _ | LSendClose _ _ _ => lp_closing (cn_loop c) = None | _ => True end →
  socket_ok (go (with_wire c (WData <$> take n ms)) to).
Proof.
  intros [H1 H2 H3 H4 H5 H6] Hh He Hto Hok Hs Hd. rewrite He, Hh in H1. split; csimp; try done.
  - rewrite data_of_app, data_of_data, Hto, app_nil_r. destruct (has_ended to).
    + rewrite <- H1. apply prefix_app, prefix_take.
    + rewrite take_ge by auto. done.
  - intros [Hc|Hx]; apply H2; [by left|]. right. auto.
  - destruct (lp_closing (cn_loop c)) as [why|] eqn:Ec.
    + rewrite Hh in H3. rewrite H3 by done. rewrite take_nil, app_nil_r. exact H5.
    + apply order_open, Forall_app. split; [by apply H6|apply data_not_close].
  - intros Hc _. apply Forall_app. split; [by apply H6|apply data_not_close].
Qed.

Lemma socket_ok_shutting c code reason why : socket_ok c → lp_at (cn_loop c) = LShut code reason why →
  socket_ok (go (with_out c (shut_taking (cn_out c)).1) (LLate (out_queue (ob_state (cn_out c))) code reason why)).
Proof.
  intros [H1 H2 H3 H4 H5 H6] Eat. rewrite Eat in *. cbn in H1. rewrite app_nil_r in H1. split; csimp; try done.
  cbn. by rewrite H1.
Qed.

Lemma socket_ok_close c code reason why : socket_ok c → lp_at (cn_loop c) = LSendClose code reason why →
  socket_ok (go (with_closing pong_timeout (with_wire c [WClose code (truncated reason)]) why) LFreed).
Proof.
  intros [H1 H2 H3 H4 H5 H6] Eat. rewrite Eat in *. cbn in H1. rewrite app_nil_r in H1. split; csimp; try done.
  - cbn. rewrite data_of_app. cbn. by rewrite !app_nil_r.
  - intros _. apply H2. by right.
  - exists (cn_wire c), [WClose code (truncated reason)]. split_and!; [done|by apply H6|by repeat constructor].
Qed.

(** A read's event. *)
Lemma socket_ok_read c reading full r : socket_ok c → lp_at (cn_loop c) = LPoll reading full → socket_ok (read_turn pong_timeout c r).
Proof.
  intros Hok Eat. assert (Hm : ∀ to, in_hand to = [] → shut_down_at to = false → match to with LShut _ _ _ => False | _ => True end → socket_ok (go c to)).
  { intros to H1 H2 H3. apply (socket_ok_move c); csimp; rewrite ?Eat; try done; [by left|]. by destruct to. }
  pose proof Hok as [H1 H2 H3 H4 H5 H6]. rewrite Eat in *. cbn in H1. rewrite app_nil_r in H1.
  destruct r as [|f|flushed| |frame| |e sent]; cbn [read_turn]; try (by apply Hm).
  - destruct (lp_closing (cn_loop c)); by apply Hm.
  - destruct flushed; by apply Hm.
  - apply (socket_ok_move c); csimp; rewrite ?Eat; try done. by left.
  - destruct (lp_closing (cn_loop c)) eqn:Ec; [by apply Hm|]. destruct (default _ _) as [code reason]. split; csimp; try done. cbn. by rewrite !app_nil_r.
  - destruct (read_failure e) as [[code|] why]; [|by apply Hm]. destruct sent; (split; csimp; try done).
    + cbn. rewrite data_of_app. cbn. rewrite !app_nil_r. by rewrite H1.
    + destruct H5 as (pre & post & -> & Hp & Hq). exists pre, (post ++ [WClose code []]). rewrite app_assoc. split_and!; [done|done|]. apply Forall_app. by split; [|repeat constructor].
    + cbn. rewrite !app_nil_r. by rewrite H1.
    + by rewrite app_nil_r.
Qed.

Lemma socket_ok_step sh c e sh' c' : socket_ok c → cstep sh c e = Some (sh', c') → socket_ok c'.
Proof.
  intros Hok E. destruct e as [given|x| | | | |]; cbn [Connection.cstep] in E.
  2: { destruct (bstep queue_limit overflow (cn_out c) x) as [out|] eqn:Eb; [|done]. injection E as <- <-.
       apply (socket_ok_same c); csimp; try done; [by eapply bstep_given|]. intros He. by eapply emptied_bstep. }
  2-6: step_cases E; by apply (socket_ok_same c).
  at_points E c given.
  all: try (step_cases E; apply (socket_ok_move c); csimp; rewrite ?Eat; try done; by left).
  - injection E as <- <-. destruct (loop_listen_keeps (cn_out c)) as [Hg Hs]. apply (socket_ok_move c); csimp; rewrite ?Eat; try done; [|by left]. unfold emptied. by rewrite Hs.
  - injection E as <- <-. by apply (socket_ok_take c).
  - injection E as <- <-. apply socket_ok_write; rewrite ?Eat; try done; destruct queued; cbn [length]; try done; try lia; case_bool_decide; destruct flushed; done.
  - injection E as <- <-. destruct (decide_close c close) as [[[code reason] why]|] eqn:Ed; apply (socket_ok_move c); csimp; rewrite ?Eat; try done; try (by left).
    unfold decide_close in Ed. by destruct (lp_closing (cn_loop c)).
  - injection E as <- <-. by apply (socket_ok_shutting c).
  - injection E as <- <-. pose proof (so_deciding c Hok) as Hd. rewrite Eat in Hd. apply socket_ok_write; rewrite ?Eat; try done; destruct late; cbn [length]; try done; try lia; case_bool_decide; destruct flushed; done.
  - destruct sent; injection E as <- <-; [by apply socket_ok_close|]. apply (socket_ok_move c); csimp; rewrite ?Eat; try done. by left.
  - destruct (received sh c f open) as [[sh1 c1] waiting] eqn:Er. injection E as <- <-. destruct (received_out _ _ _ _ _ _ _ Er) as (Hw & Hl & Hg & He).
    apply (socket_ok_move c); csimp; rewrite ?Hl, ?Eat; try done; destruct again; try done; by left.
  - destruct t as [r| | | | | |sent|passed| |]; cbn [turn] in E; [destruct reading; [|done]; injection E as <- <-; by eapply socket_ok_read|..].
    all: try (step_cases E; apply (socket_ok_move c); csimp; rewrite ?Eat; try done; by left).
    + destruct (loop_hear (cn_out c)) as [out|] eqn:Eh; [|done]. injection E as <- <-. destruct (loop_hear_keeps _ _ Eh) as [Hg Hs]. apply (socket_ok_move c); csimp; rewrite ?Eat; try done; [|by left]. unfold emptied. by rewrite Hs.
    + destruct (lp_closing (cn_loop c)) eqn:Ec; [done|]. destruct (lp_ping (cn_loop c)); [|done]. destruct sent; injection E as <- <-; [|apply (socket_ok_move c); csimp; rewrite ?Eat; try done; by left].
      destruct Hok as [H1 H2 H3 H4 H5 H6]. rewrite Eat in *. cbn in H1. assert (Hn : Forall (λ w, is_close w = false) (cn_wire c ++ [WPing])) by (apply Forall_app; split; [by apply H6|by repeat constructor]).
      split; csimp; rewrite ?Ec; try done; [cbn; rewrite data_of_app; cbn; by rewrite app_nil_r|by intros []|by apply order_open].
  - injection E as <- <-. apply (socket_ok_move c); csimp; rewrite ?Eat; try done; [cbn; by rewrite app_nil_r|]. by right.
Qed.
End Connection.

Section Connection.
Context {events : Events} {M F : Type}.
Context (queue_limit : option nat) (overflow : Overflow) (max_inflight places : nat) (ping_interval pong_timeout raw : bool) (classify : F → Received M).
Implicit Types (b : @Outbound events M) (c : @Conn events M F) (sh : @Shared events) (fl : @Flight events).

Abbreviation cstep := (cstep queue_limit overflow max_inflight places ping_interval pong_timeout raw classify).
Abbreviation received := (received queue_limit overflow places raw classify).
Abbreviation counted := (counted max_inflight).

(** ** The connection's own events *)

(** Where the loop listens to its queue, has taken it, listens to its messages and has decided. *)
Definition listens (at_ : @Loop M F) : bool := match at_ with LWoken | LEnd _ | LDone _ => false | _ => true end.
Definition has_taken (at_ : @Loop M F) : bool := match at_ with LWoken | LProgressed | LPhase | LDraining | LTake | LEnd _ | LDone _ => false | _ => true end.
Definition follows (at_ : @Loop M F) : bool := match at_ with LWoken | LProgressed | LEnd _ | LDone _ => false | _ => true end.
Definition decided (at_ : @Loop M F) : bool :=
  match at_ with LFreed | LFreedListen | LWaiting | LReceive _ true | LReading | LInflight | LPoll _ _ => true | _ => false end.

(** Nothing told the loop of a message's progress, and nothing is about to. *)
Definition quiet_progress fl : Prop := asleep (fl_progress fl) (fl_progressed fl) ∧ fl_due_progress fl = 0 ∧ fl_due_give fl = 0.

Record waits c : Prop := {
  wt_woken : listens (lp_at (cn_loop c)) = true → is_Some (ob_woken (cn_out c));
  wt_fresh : has_taken (lp_at (cn_loop c)) = true → ob_fresh (cn_out c) = true;
  wt_sole : sole (fl_progress (cn_flight c)) (fl_progressed (cn_flight c));
  wt_follows : follows (lp_at (cn_loop c)) = true → is_Some (fl_progressed (cn_flight c));
  wt_decided : decided (lp_at (cn_loop c)) = true → lp_closing (cn_loop c) = None →
    lp_shut_down (cn_loop c) = false ∧ (lp_draining (cn_loop c) = true → quiet_progress (cn_flight c) → fl_busy (cn_flight c) ≠ 0);
  wt_poll : match lp_at (cn_loop c) with
    | LPoll false full => lp_closing (cn_loop c) = None
        ∧ (lp_draining (cn_loop c) = true ∨ lp_waiting (cn_loop c) ≠ None ∨ full = true ∨ max_inflight ≤ fl_handling (cn_flight c) ∨ ¬ quiet_progress (cn_flight c))
    | LInflight => lp_closing (cn_loop c) = None
    | _ => True
    end;
}.

Lemma push_ear b m : ob_woken (push queue_limit overflow b m).1 = ob_woken b ∧ ob_fresh (push queue_limit overflow b m).1 = ob_fresh b.
Proof. unfold push. destruct (refuses _); [done|]. destruct (is_full _ _); [by destruct overflow|done]. Qed.

Lemma bstep_ear b e b' : bstep queue_limit overflow b e = Some b' → ob_woken b' = ob_woken b ∧ ob_fresh b' = ob_fresh b.
Proof. intros E. destruct e; unfold bstep, pump_step in E; step_cases E; try done. apply push_ear. Qed.

(** The loop goes on with its queue, its messages and its closing as they are. *)
Lemma waits_go c c' : waits c → ob_woken (cn_out c') = ob_woken (cn_out c) → ob_fresh (cn_out c') = ob_fresh (cn_out c) → cn_flight c' = cn_flight c →
  lp_closing (cn_loop c') = lp_closing (cn_loop c) → lp_shut_down (cn_loop c') = lp_shut_down (cn_loop c) → lp_draining (cn_loop c') = lp_draining (cn_loop c) →
  (listens (lp_at (cn_loop c')) = true → listens (lp_at (cn_loop c)) = true) → (has_taken (lp_at (cn_loop c')) = true → has_taken (lp_at (cn_loop c)) = true) →
  (follows (lp_at (cn_loop c')) = true → follows (lp_at (cn_loop c)) = true) → (decided (lp_at (cn_loop c')) = true → decided (lp_at (cn_loop c)) = true) →
  match lp_at (cn_loop c') with LInflight | LPoll _ _ => False | _ => True end → waits c'.
Proof.
  intros [H1 H2 H3 H4 H5 H6] E1 E2 E3 E4 E5 E6 K1 K2 K3 K4 K5. split; rewrite ?E1, ?E2, ?E3, ?E4, ?E5, ?E6; auto. by destruct (lp_at (cn_loop c')).
Qed.

(** The tasks of the messages and the writers leave the loop where it is. *)
Lemma waits_tasks c c' : waits c → cn_loop c' = cn_loop c → ob_woken (cn_out c') = ob_woken (cn_out c) → ob_fresh (cn_out c') = ob_fresh (cn_out c) →
  sole (fl_progress (cn_flight c')) (fl_progressed (cn_flight c')) → fl_progressed (cn_flight c') = fl_progressed (cn_flight c) →
  (¬ quiet_progress (cn_flight c') ∨ (cn_flight c' = cn_flight c)) → waits c'.
Proof.
  intros [H1 H2 H3 H4 H5 H6] E1 E2 E3 K1 K2 K3. rewrite K2 in K1. split; rewrite ?E1, ?E2, ?E3, ?K2; try done.
  - intros Hd Hc. destruct (H5 Hd Hc) as [Hs Hb]. split; [done|]. intros Hdr Hq. destruct K3 as [|K3]; [done|]. rewrite K3 in *. auto.
  - destruct (lp_at (cn_loop c)) as [| | | | | | | | | | | | | | | |[] full| |]; try done. destruct H6 as [Hc Hw]. split; [done|]. destruct K3 as [K3|K3]; [by auto 6|]. by rewrite K3.
Qed.

Lemma begin_progress sh fl sh' fl' : begin places sh fl = Some (sh', fl') → fl_progress fl' = fl_progress fl ∧ fl_progressed fl' = fl_progressed fl
  ∧ (quiet_progress fl' → quiet_progress fl) ∧ fl_busy fl' = S (fl_busy fl).
Proof. intros (_ & _ & ->)%begin_counts. by split_and!. Qed.

(** [received] leaves what wakes the loop, and a message begun makes it busy. *)
Lemma received_waits sh c f open sh' c' waiting : received sh c f open = (sh', c', waiting) →
  cn_loop c' = cn_loop c ∧ ob_woken (cn_out c') = ob_woken (cn_out c) ∧ ob_fresh (cn_out c') = ob_fresh (cn_out c)
  ∧ fl_progress (cn_flight c') = fl_progress (cn_flight c) ∧ fl_progressed (cn_flight c') = fl_progressed (cn_flight c)
  ∧ (quiet_progress (cn_flight c') → quiet_progress (cn_flight c) ∧ fl_busy (cn_flight c) ≤ fl_busy (cn_flight c')).
Proof.
  intros Er. destruct (received_cases _ _ _ _ _ _ _ _ _ _ _ _ Er) as (Hl & _ & Hc).
  destruct Hc as [(_ & -> & _ & Ho)|[(-> & _)|(_ & -> & fl & Hb & Hf)]]; [|by split_and!|].
  - destruct Ho as [-> |[e He]]; [by split_and!|]. destruct (bstep_ear _ _ _ He) as [-> ->]. by split_and!.
  - destruct (begin_progress _ _ _ _ Hb) as (E1 & E2 & E3 & E4). destruct Hf as [-> | ->]; split_and!; try done.
    + intros Hq. split; [by apply E3|lia].
    + intros (_ & Hd & _). cbn in Hd. lia.
Qed.

Lemma decide_close_none c close : decide_close c close = None → lp_closing (cn_loop c) = None →
  lp_shut_down (cn_loop c) = false ∧ (lp_draining (cn_loop c) = true → fl_busy (cn_flight c) ≠ 0).
Proof.
  unfold decide_close. intros Hd Hc. rewrite Hc in Hd. destruct close as [[code reason]|]; [done|]. destruct (lp_shut_down (cn_loop c)); [done|]. split; [done|].
  intros Hdr. rewrite Hdr in Hd. by case_bool_decide.
Qed.

(** The event of a parked loop: it starts over, reads a message, or ends. *)
Lemma turn_to sh c reading t sh' c' : turn ping_interval pong_timeout sh c reading t = Some (sh', c') →
  match lp_at (cn_loop c') with LWoken | LReceive _ false | LEnd _ => True | _ => False end
  ∧ (fl_progress (cn_flight c') = fl_progress (cn_flight c) ∧ fl_progressed (cn_flight c') = fl_progressed (cn_flight c)
     ∨ fl_progress (cn_flight c') = ear_drop (fl_progress (cn_flight c)) (fl_progressed (cn_flight c)) ∧ fl_progressed (cn_flight c') = None
         ∧ lp_at (cn_loop c') = LWoken)
  ∧ (match lp_at (cn_loop c') with LReceive _ _ => cn_out c' = cn_out c ∧ cn_flight c' = cn_flight c | _ => True end).
Proof.
  intros E. at_turns E t; step_cases E; csimp; repeat match goal with H : ?x = _ |- context [match ?x with _ => _ end] => rewrite H end; csimp; split_and!; auto.
Qed.

Lemma waits_step sh c e sh' c' : waits c → cstep sh c e = Some (sh', c') → waits c'.
Proof.
  intros Hw E. pose proof Hw as [H1 H2 H3 H4 H5 H6]. destruct e as [given|x| | | | |]; cbn [Connection.cstep] in E.
  - at_points E c given; try (step_cases E; apply (waits_go c); csimp; rewrite ?Eat; done).
    + injection E as <- <-. unfold loop_listen, ear_listen. destruct (ob_woken (cn_out c)) as [i|] eqn:Ew; [|destruct (ev_listen _) as [e i]]; split; csimp; try done; by cbn.
    + destruct (sole_listen _ _ H3) as [Hs Hi]. destruct (ear_listen (fl_progress (cn_flight c)) (fl_progressed (cn_flight c))) as [e ear]. injection E as <- <-.
      destruct (lp_draining (cn_loop c)); split; csimp; auto; done.
    + injection E as <- <-. split; csimp; auto; done.
    + injection E as <- <-. split; csimp; auto; done.
    + injection E as <- <-. destruct (decide_close c close) as [[[code reason] why]|] eqn:Ed; split; csimp; auto; try done. intros _ Hc. destruct (decide_close_none c close Ed Hc). auto.
    + injection E as <- <-. split; csimp; auto; done.
    + destruct sent; injection E as <- <-; split; csimp; auto; done.
    + destruct (received sh c f open) as [[sh1 c1] waiting] eqn:Er. injection E as <- <-. destruct (received_waits _ _ _ _ _ _ _ Er) as (Hl & Ho1 & Ho2 & Hp1 & Hp2 & Hq).
      split; csimp; rewrite ?Hl, ?Ho1, ?Ho2, ?Hp1, ?Hp2; try done; destruct again; try done; auto.
      intros _ Hc. destruct (H5 eq_refl Hc) as [Hs Hb]. split; [done|]. intros Hd Hq'. destruct (Hq Hq') as [Hq1 Hq2]. specialize (Hb Hd Hq1). lia.
    + injection E as <- <-. destruct (lp_closing (cn_loop c)) eqn:Ec; [split; csimp; rewrite ?Ec; auto; done|]. destruct (lp_waiting (cn_loop c)) eqn:Ewt; [split; csimp; rewrite ?Ec, ?Ewt; by auto|].
      destruct (lp_draining (cn_loop c)) eqn:Ed; [|destruct (places_full places sh)]; split; csimp; rewrite ?Ec, ?Ed; by auto 6.
    + injection E as <- <-. split; csimp; auto. case_bool_decide; [done|]. split; [by apply H6|]. right; right; right; left. lia.
    + destruct (turn_to _ _ _ _ _ _ E) as (Hto & Hp & Hr). split; rewrite ?Eat.
      * destruct (lp_at (cn_loop c')) as [| | | | | | | | | | | | |f []| | | | |]; try done. destruct Hr as [-> _]. auto.
      * destruct (lp_at (cn_loop c')) as [| | | | | | | | | | | | |f []| | | | |]; try done. destruct Hr as [-> _]. auto.
      * destruct Hp as [[-> ->]|(-> & -> & _)]; [done|by apply sole_drop].
      * destruct (lp_at (cn_loop c')) as [| | | | | | | | | | | | |f []| | | | |]; try done. destruct Hr as [_ ->]. auto.
      * by destruct (lp_at (cn_loop c')) as [| | | | | | | | | | | | |f []| | | | |].
      * by destruct (lp_at (cn_loop c')) as [| | | | | | | | | | | | |f []| | | | |].
  - destruct (bstep queue_limit overflow (cn_out c) x) as [out|] eqn:Eb; [|done]. injection E as <- <-. destruct (bstep_ear _ _ _ Eb) as [Ho1 Ho2].
    apply (waits_tasks c); csimp; try done. by right.
  - step_cases E. apply (waits_tasks c); csimp; try done. left. intros (_ & _ & Hd). cbn in Hd. lia.
  - step_cases E. apply (waits_tasks c); csimp; try done. left. intros (_ & Hd & _). cbn in Hd. lia.
  - step_cases E. apply (waits_tasks c); csimp; try done. left. intros (_ & Hd & _). cbn in Hd. lia.
  - step_cases E. destruct (sole_one _ _ H3) as [Hs Ha]. apply (waits_tasks c); csimp; try done. left. by intros (Hx & _).
  - destruct (lp_at (cn_loop c)) eqn:Eat; try done. unfold flight_drop in E. step_cases E; split; csimp; rewrite ?Eat; done.
Qed.
End Connection.

Section Server.
Context {events : Events} {M F : Type}.
Context (queue_limit : option nat) (overflow : Overflow) (max_inflight places : nat) (ping_interval pong_timeout raw : bool) (classify : F → Received M).
Implicit Types (c : @Conn events M F) (sh : @Shared events) (fl : @Flight events).

Abbreviation cstep := (cstep queue_limit overflow max_inflight places ping_interval pong_timeout raw classify).
Abbreviation received := (received queue_limit overflow places raw classify).

(** ** Places *)

Lemma received_held sh c f open sh' c' waiting : sh_held sh ≤ places → received sh c f open = (sh', c', waiting) →
  sh_held sh' + places_of (cn_flight c) = sh_held sh + places_of (cn_flight c') ∧ sh_held sh' ≤ places
  ∧ sh_held sh ≤ sh_held sh' ∧ sh' = set_held sh (sh_held sh') (sh_due_freed sh).
Proof.
  intros Hle Er. destruct (received_cases _ _ _ _ _ _ _ _ _ _ _ _ Er) as (_ & _ & [(-> & -> & _)|[(-> & -> & _)|(_ & _ & fl & Hb & Hf)]]); [by destruct sh|by destruct sh|].
  destruct (begin_counts _ _ _ _ _ Hb) as (Hlt & -> & ->). destruct Hf as [-> | ->]; unfold places_of; cbn; split_and!; try lia; done.
Qed.

(** A step takes or gives the places it counts, and gives one back when none was left only with a
    notify to follow. *)
Lemma cstep_held sh c e sh' c' : cstep sh c e = Some (sh', c') → sh_held sh ≤ places → places_of (cn_flight c) ≤ sh_held sh →
  sh_held sh' + places_of (cn_flight c) = sh_held sh + places_of (cn_flight c') ∧ sh_held sh' ≤ places
  ∧ sh_due_freed sh ≤ sh_due_freed sh' ∧ (places ≤ sh_held sh → sh_held sh' < places → sh_due_freed sh < sh_due_freed sh')
  ∧ sh_draining sh' = sh_draining sh ∧ sh_due_phase sh' = sh_due_phase sh.
Proof.
  intros E Hle Hh. destruct e as [given|x| | | | |]; cbn [Connection.cstep] in E.
  - at_points E c given; try (step_cases E; csimp; split_and!; lia || done).
    + destruct (received sh c f open) as [[sh1 c1] waiting] eqn:Er. injection E as <- <-. destruct (received_held _ _ _ _ _ _ _ Hle Er) as (H1 & H2 & H3 & ->). csimp. split_and!; lia || done.
    + at_turns E t; step_cases E; csimp; split_and!; lia || done.
  - step_cases E. csimp. split_and!; lia || done.
  - step_cases E. split_bools. unfold handled, places_of in *. csimp. split_and!; lia || done.
  - step_cases E. split_bools. unfold give_back, places_of in *. csimp. case_bool_decide; split_and!; lia || done.
  - step_cases E. unfold finished, places_of in *. csimp. split_and!; lia || done.
  - step_cases E. unfold places_of in *. csimp. split_and!; lia || done.
  - unfold flight_drop, give_back, places_of in *. step_cases E; split_bools; csimp; split_and!; lia || done.
Qed.

(** ** Ears on what is shared *)

(** How a step changes an event the connections share, and this connection's ear on it. *)
Definition ear_moves (e : Event) (ear : option nat) (e' : Event) (ear' : option nat) : Prop :=
  (e' = e ∧ ear' = ear) ∨ (e', ear') = ear_listen e ear ∨ (e' = ear_drop e ear ∧ ear' = None).

Lemma cstep_ears sh c e sh' c' : cstep sh c e = Some (sh', c') →
  ear_moves (sh_freed sh) (lp_freed (cn_loop c)) (sh_freed sh') (lp_freed (cn_loop c'))
  ∧ ear_moves (sh_phase sh) (lp_phase_changed (cn_loop c)) (sh_phase sh') (lp_phase_changed (cn_loop c')).
Proof.
  intros E. unfold ear_moves. destruct e as [given|x| | | | |]; cbn [Connection.cstep] in E.
  - at_points E c given; try (step_cases E; csimp; split; by auto).
    + destruct (received sh c f open) as [[sh1 c1] waiting] eqn:Er. injection E as <- <-.
      destruct (received_cases _ _ _ _ _ _ _ _ _ _ _ _ Er) as (Hl & _ & [(-> & _)|[(_ & -> & _)|(_ & _ & fl & Hb & _)]]); csimp; rewrite ?Hl; [auto..|].
      destruct (begin_counts _ _ _ _ _ Hb) as (_ & -> & _). csimp. auto.
    + at_turns E t; step_cases E; csimp; auto 6.
  - step_cases E. csimp. auto.
  - step_cases E. csimp. auto.
  - step_cases E. unfold give_back. csimp. auto.
  - step_cases E. csimp. auto.
  - step_cases E. csimp. auto.
  - unfold flight_drop, give_back in E. step_cases E; csimp; auto.
Qed.

(** Nothing told a connection that a place was freed or that the phase changed, and nothing is about
    to. *)
Definition quiet_freed sh (ear : option nat) : Prop := asleep (sh_freed sh) ear ∧ sh_due_freed sh = 0.
Definition quiet_phase sh (ear : option nat) : Prop := asleep (sh_phase sh) ear ∧ sh_due_phase sh = 0.

Definition past_freed (at_ : @Loop M F) : bool := match at_ with LReading | LInflight | LPoll _ _ => true | _ => false end.
Definition past_draining (at_ : @Loop M F) : bool :=
  match at_ with LWoken | LProgressed | LPhase | LDraining | LEnd _ | LDone _ => false | _ => true end.

Record shares sh c : Prop := {
  hs_freed_ear : match lp_at (cn_loop c) with
    | LWaiting | LReading | LInflight | LPoll _ _ => lp_waiting (cn_loop c) ≠ None → is_Some (lp_freed (cn_loop c))
    | LReceive _ true => is_Some (lp_freed (cn_loop c))
    | _ => True end;
  hs_freed : past_freed (lp_at (cn_loop c)) = true → lp_waiting (cn_loop c) ≠ None → lp_closing (cn_loop c) = None →
    quiet_freed sh (lp_freed (cn_loop c)) → places ≤ sh_held sh;
  hs_phase_ear : past_draining (lp_at (cn_loop c)) = true ∧ lp_draining (cn_loop c) = false ∨ lp_at (cn_loop c) = LDraining → is_Some (lp_phase_changed (cn_loop c));
  hs_phase : past_draining (lp_at (cn_loop c)) = true → lp_draining (cn_loop c) = false → quiet_phase sh (lp_phase_changed (cn_loop c)) → sh_draining sh = false;
  hs_full : match lp_at (cn_loop c) with LPoll _ true => quiet_freed sh (lp_freed (cn_loop c)) → places ≤ sh_held sh | _ => True end;
}.

(** What another connection does: it keeps the places taken, or tells of the one it gives back. *)
Lemma shares_later sh sh' c : shares sh c →
  (quiet_freed sh' (lp_freed (cn_loop c)) → quiet_freed sh (lp_freed (cn_loop c)) ∧ (places ≤ sh_held sh → places ≤ sh_held sh')) →
  (quiet_phase sh' (lp_phase_changed (cn_loop c)) → quiet_phase sh (lp_phase_changed (cn_loop c)) ∧ sh_draining sh' = sh_draining sh) → shares sh' c.
Proof.
  intros [H1 H2 H3 H4 H5] Hf Hp. split; try done.
  - intros Ha Hw Hc Hq. destruct (Hf Hq) as [Hq' Hheld]. auto.
  - intros Ha Hd Hq. destruct (Hp Hq) as [Hq' ->]. auto.
  - destruct (lp_at (cn_loop c)) as [| | | | | | | | | | | | | | | |reading []| |]; try done. intros Hq. destruct (Hf Hq) as [Hq' Hheld]. auto.
Qed.

Lemma ear_listen_some (e : Event) ear : is_Some (ear_listen e ear).2.
Proof. unfold ear_listen. destruct ear; [done|]. by destruct (ev_listen e). Qed.

(** The tasks beside the loop leave it where it is. *)
Lemma shares_tasks sh c sh' c' : shares sh c → cn_loop c' = cn_loop c → sh_freed sh' = sh_freed sh → sh_phase sh' = sh_phase sh →
  sh_due_freed sh ≤ sh_due_freed sh' → (places ≤ sh_held sh → sh_held sh' < places → sh_due_freed sh < sh_due_freed sh') →
  sh_draining sh' = sh_draining sh → sh_due_phase sh' = sh_due_phase sh → shares sh' c'.
Proof.
  intros [H1 H2 H3 H4 H5] El Ef Ep Hd Hg Hdr Hdp.
  assert (Hk : quiet_freed sh' (lp_freed (cn_loop c)) → (quiet_freed sh (lp_freed (cn_loop c)) → places ≤ sh_held sh) → places ≤ sh_held sh').
  { intros [Hq Hz] Hx. rewrite Ef in Hq. destruct (decide (places ≤ sh_held sh')); [done|]. assert (places ≤ sh_held sh) by (apply Hx; split; [done|lia]). lia. }
  split; rewrite ?El; try done; unfold quiet_phase; rewrite ?Ep, ?Hdr, ?Hdp; try done.
  - intros Ha Hw Hc Hq. by apply Hk; [|intros; apply H2].
  - destruct (lp_at (cn_loop c)) as [| | | | | | | | | | | | | | | |reading []| |]; try done. intros Hq. by apply Hk.
Qed.

(** The loop goes on, with what it shares as it was. *)
Lemma shares_go sh c c' : shares sh c → past_freed (lp_at (cn_loop c')) = false → (past_draining (lp_at (cn_loop c')) = true → past_draining (lp_at (cn_loop c)) = true) →
  lp_at (cn_loop c') ≠ LDraining → lp_draining (cn_loop c') = lp_draining (cn_loop c) → lp_freed (cn_loop c') = lp_freed (cn_loop c) →
  lp_phase_changed (cn_loop c') = lp_phase_changed (cn_loop c) →
  match lp_at (cn_loop c') with LWaiting => lp_waiting (cn_loop c') ≠ None → is_Some (lp_freed (cn_loop c)) | LReceive _ true => is_Some (lp_freed (cn_loop c)) | _ => True end →
  shares sh c'.
Proof.
  intros [H1 H2 H3 H4 H5] Hpf Hpd Hto Hd Hf Hp Hear. split; rewrite ?Hd, ?Hf, ?Hp, ?Hpf; try done.
  - by destruct (lp_at (cn_loop c')).
  - intros [[Hx Hdr]|Hx]; [|done]. apply H3. left. auto.
  - intros Hx Hdr Hq. auto.
  - by destruct (lp_at (cn_loop c')).
Qed.

Lemma shares_loop sh c given sh' c' : sh_held sh ≤ places → shares sh c → cstep sh c (CLoop given) = Some (sh', c') → shares sh' c'.
Proof.
  intros Hle Hs E. pose proof Hs as [H1 H2 H3 H4 H5]. cbn [Connection.cstep] in E. at_points E c given.
  all: try (step_cases E; apply (shares_go _ c); csimp; rewrite ?Eat; done).
  - destruct (ear_listen _ _) as [e ear]. injection E as <- <-. destruct (lp_draining (cn_loop c)) eqn:Ed; split; csimp; rewrite ?Ed; try done; naive_solver.
  - pose proof (ear_listen_some (sh_phase sh) (lp_phase_changed (cn_loop c))) as Hi. destruct (ear_listen (sh_phase sh) (lp_phase_changed (cn_loop c))) as [e ear]. injection E as <- <-. split; csimp; done.
  - injection E as <- <-. split; csimp; try done. intros _. apply H3. by right.
  - injection E as <- <-. destruct (lp_waiting (cn_loop c)) eqn:Ew; [|destruct (places_full places sh)]; cbn [orb]; apply (shares_go _ c); csimp; rewrite ?Eat, ?Ew; done.
  - pose proof (ear_listen_some (sh_freed sh) (lp_freed (cn_loop c))) as Hi. destruct (ear_listen _ _) as [e ear]. injection E as <- <-. split; csimp; try done; naive_solver.
  - injection E as <- <-.
    assert (Hr : (lp_waiting (cn_loop c) ≠ None → lp_closing (cn_loop c) = None → places ≤ sh_held sh) → shares sh (go c LReading)).
    { intros Hf. split; csimp; try done; [by auto|]. intros [Hx|]; [|done]. apply H3. by left. }
    destruct (lp_closing (cn_loop c)) eqn:Ec; [by apply Hr|]. destruct (lp_waiting (cn_loop c)) as [f|] eqn:Ew; [|by apply Hr].
    destruct (places_full places sh) eqn:Ef; [apply Hr; intros _ _; by apply bool_decide_eq_true in Ef|].
    split; csimp; try done; [by apply H1|]. intros [Hx|]; [|done]. apply H3. by left.
  - destruct (received sh c f open) as [[sh1 c1] waiting] eqn:Er. injection E as <- <-. destruct (received_held _ _ _ _ _ _ _ Hle Er) as (_ & _ & _ & Hsh).
    destruct (received_cases _ _ _ _ _ _ _ _ _ _ _ _ Er) as (Hl & _ & Hc). destruct again; [|split; csimp; rewrite ?Hl; try done; by intros [[]|]].
    split; csimp; rewrite ?Hl; try done.
    + destruct Hc as [(_ & _ & -> & _)|[(_ & -> & -> & Hf)|(-> & _)]]; done.
    + intros [Hx|]; [|done]. apply H3. by left.
    + intros Hx Hd Hq. rewrite Hsh in Hq |- *. by apply H4.
  - assert (Hr : ∀ to, past_freed to = true → (match to with LPoll _ true => places ≤ sh_held sh | _ => True end) → shares sh (go c to)).
    { intros to Hto Hfull. split; csimp; try done; [by destruct to|by auto|intros [Hx|Hx]; [apply H3; left; by destruct Hx|by subst to]|by auto|by destruct to as [| | | | | | | | | | | | | | | |reading []| |]]. }
    injection E as <- <-. apply Hr; destruct (lp_closing (cn_loop c)), (lp_waiting (cn_loop c)); try done; destruct (lp_draining (cn_loop c)); try done;
      destruct (places_full places sh) eqn:Ef; try done. by apply bool_decide_eq_true in Ef.
  - injection E as <- <-. split; csimp; try done; [intros [Hx|]; [|done]; apply H3; by left].
  - at_turns E t; step_cases E; try (apply (shares_go _ c); csimp; rewrite ?Eat; done); split; csimp; try done; by intros [[]|].
Qed.

Lemma shares_step sh c e sh' c' : sh_held sh ≤ places → places_of (cn_flight c) ≤ sh_held sh → shares sh c → cstep sh c e = Some (sh', c') → shares sh' c'.
Proof.
  intros Hle Hh Hs E. destruct e as [given|x| | | | |]; [by eapply shares_loop|..].
  all: destruct (cstep_held _ _ _ _ _ E Hle Hh) as (_ & _ & H1 & H2 & H3 & H4); apply (shares_tasks sh c); try done; cbn [Connection.cstep] in E.
  all: unfold flight_drop, give_back in E; step_cases E; done.
Qed.

(** ** The server *)

Record conn_inv sh c : Prop := {
  ci_out : ob_ok queue_limit (cn_out c);
  ci_counted : counted max_inflight c;
  ci_socket : socket_ok c;
  ci_waits : waits max_inflight c;
  ci_shares : shares sh c;
}.

Definition freed_ears (conns : list Conn) : nat → option nat := λ k, (conns : list (@Conn events M F)) !! k ≫= λ c, lp_freed (cn_loop c).
Definition phase_ears (conns : list Conn) : nat → option nat := λ k, (conns : list (@Conn events M F)) !! k ≫= λ c, lp_phase_changed (cn_loop c).

Record server_inv (s : @Server events M F) : Prop := {
  si_held : sh_held (sv_shared s) = total ((λ c, places_of (cn_flight c)) <$> sv_conns s);
  si_places : sh_held (sv_shared s) ≤ places;
  si_freed : shared (sh_freed (sv_shared s)) (freed_ears (sv_conns s));
  si_phase : shared (sh_phase (sv_shared s)) (phase_ears (sv_conns s));
  si_conns : ∀ k c, sv_conns s !! k = Some c → conn_inv (sv_shared s) c;
}.

Lemma ears_insert {A} (f : A → option nat) (l : list A) k x : is_Some (l !! k) → ∀ j, (<[k := x]> l !! j ≫= f) = set_ear (λ j, l !! j ≫= f) k (f x) j.
Proof.
  intros Hk j. unfold set_ear. case_bool_decide as E; [subst j|by rewrite list_lookup_insert_ne]. rewrite list_lookup_insert_eq; [done|by apply lookup_lt_is_Some].
Qed.

(** One connection moves its ear on a shared event: the event stays shared, and nobody else goes to
    sleep by it. *)
Lemma ear_moves_shared e ears k e' ear' : shared e ears → ear_moves e (ears k) e' ear' →
  shared e' (set_ear ears k ear') ∧ ∀ j, j ≠ k → asleep e' (ears j) → asleep e (ears j).
Proof.
  intros Hs [[-> ->]|[Hl|[-> ->]]].
  - split; [|done]. eapply shared_ext; [|exact Hs]. intros j. unfold set_ear. case_bool_decide; [by subst|done].
  - destruct (shared_listen _ _ k Hs) as (H1 & _ & H3 & _). rewrite <- Hl in H1, H3. done.
  - apply (shared_drop _ _ k Hs).
Qed.

Lemma total_elem {A} (f : A → nat) (l : list A) k x : l !! k = Some x → f x ≤ total (f <$> l).
Proof.
  revert k. induction l as [|y l IH]; intros [|k] H; try done; rewrite fmap_cons, total_cons; cbn in H; [simplify_eq; lia|]. specialize (IH k H). lia.
Qed.

Abbreviation sstep := (sstep queue_limit overflow max_inflight places ping_interval pong_timeout raw classify).

Lemma conn_new_inv sh : conn_inv sh (conn_new ping_interval).
Proof.
  split; [apply outbound_new_ok|..].
  - split; cbn; [lia|lia|]. intros [Hn|Hf]; [by destruct Hn|done].
  - split; try done; [intros [Hn|Hf]; [by destruct Hn|done]|exists [], []; by split_and!].
  - split; cbn; try done. apply sole_new.
  - split; cbn; try done. by intros [[]|].
Qed.

(** One connection's step. *)
Lemma server_inv_conn s k c e sh' c' : server_inv s → sv_conns s !! k = Some c → cstep (sv_shared s) c e = Some (sh', c') →
  server_inv {| sv_shared := sh'; sv_conns := <[k := c']> (sv_conns s) |}.
Proof.
  intros [Hh Hp Hf Hph Hc] Hk E. pose proof (Hc k c Hk) as [C1 C2 C3 C4 C5].
  assert (Hhc : places_of (cn_flight c) ≤ sh_held (sv_shared s)) by (rewrite Hh; by apply (total_elem (λ c, places_of (cn_flight c)) _ k)).
  destruct (cstep_held _ _ _ _ _ E Hp Hhc) as (K1 & K2 & K3 & K4 & K5 & K6). destruct (cstep_ears _ _ _ _ _ E) as [Ef Eph].
  assert (Ek : freed_ears (sv_conns s) k = lp_freed (cn_loop c)) by (unfold freed_ears; by rewrite Hk).
  assert (Epk : phase_ears (sv_conns s) k = lp_phase_changed (cn_loop c)) by (unfold phase_ears; by rewrite Hk).
  rewrite <- Ek in Ef. rewrite <- Epk in Eph. destruct (ear_moves_shared _ _ _ _ _ Hf Ef) as [Sf Of]. destruct (ear_moves_shared _ _ _ _ _ Hph Eph) as [Sp Op].
  split; cbn [sv_shared sv_conns].
  - pose proof (total_insert (λ c, places_of (cn_flight c)) (sv_conns s) k c c' Hk) as Ht. cbn beta in Ht. lia.
  - done.
  - eapply shared_ext; [|exact Sf]. apply (ears_insert (λ c, lp_freed (cn_loop c)) (sv_conns s) k c'). by rewrite Hk.
  - eapply shared_ext; [|exact Sp]. apply (ears_insert (λ c, lp_phase_changed (cn_loop c)) (sv_conns s) k c'). by rewrite Hk.
  - intros j d [[<- [<- _]]|[Hne Hd]]%list_lookup_insert_Some.
    + split; [by eapply out_ok_step|by eapply counted_step|by eapply socket_ok_step|by eapply waits_step|exact (shares_step _ _ _ _ _ Hp Hhc C5 E)].
    + destruct (Hc j d Hd) as [D1 D2 D3 D4 D5]. split; try done. apply (shares_later (sv_shared s)); [done| |].
      * intros [Ha Hz]. assert (Ej : freed_ears (sv_conns s) j = lp_freed (cn_loop d)) by (unfold freed_ears; by rewrite Hd). rewrite <- Ej in *. split; [split; [by apply Of|lia]|]. intros Hfull. destruct (decide (places ≤ sh_held sh')); [done|]. lia.
      * intros [Ha Hz]. assert (Ej : phase_ears (sv_conns s) j = lp_phase_changed (cn_loop d)) by (unfold phase_ears; by rewrite Hd). rewrite <- Ej in *. split; [split; [by apply Op|lia]|done].
Qed.

Lemma server_inv_step s e s' : server_inv s → sstep s e = Some s' → server_inv s'.
Proof.
  intros Hs E. pose proof Hs as [Hh Hp Hf Hph Hc]. destruct e as [|k e| | |]; cbn [Connection.sstep] in E.
  - injection E as <-. split; cbn [sv_shared sv_conns]; try done.
    + rewrite fmap_app, total_app. cbn. lia.
    + eapply shared_ext; [|exact Hf]. intros k. unfold freed_ears. destruct (decide (k < length (sv_conns s))); [by rewrite lookup_app_l|].
      rewrite lookup_app_r, (lookup_ge_None_2 (sv_conns s)) by lia. by destruct (k - length (sv_conns s)) as [|[]].
    + eapply shared_ext; [|exact Hph]. intros k. unfold phase_ears. destruct (decide (k < length (sv_conns s))); [by rewrite lookup_app_l|].
      rewrite lookup_app_r, (lookup_ge_None_2 (sv_conns s)) by lia. by destruct (k - length (sv_conns s)) as [|[]].
    + intros k c [Hk|[_ [_ <-]%list_lookup_singleton_Some]]%lookup_app_Some; [by eapply Hc|apply conn_new_inv].
  - destruct (sv_conns s !! k) as [c|] eqn:Ek; [|done]. destruct (cstep (sv_shared s) c e) as [[sh' c']|] eqn:Ec; [|done]. injection E as <-. by eapply server_inv_conn.
  - injection E as <-. split; try done. cbn [sv_shared sv_conns]. intros k c Hk. destruct (Hc k c Hk) as [D1 D2 D3 D4 D5]. split; try done. apply (shares_later (sv_shared s)); [done| |]; cbn.
    + intros [Ha Hz]. by split.
    + intros [Ha Hz]. cbn in Hz. done.
  - case_bool_decide; [done|]. injection E as <-. destruct (shared_all _ _ Hph) as [Sp Ap]. split; try done. cbn [sv_shared sv_conns]. intros k c Hk. destruct (Hc k c Hk) as [D1 D2 D3 D4 D5]. split; try done.
    apply (shares_later (sv_shared s)); [done|by intros []|]. intros [Ha _]. cbn in Ha. exfalso. apply (Ap k). unfold phase_ears. by rewrite Hk.
  - case_bool_decide; [done|]. injection E as <-. destruct (shared_all _ _ Hf) as [Sp Ap]. split; try done. cbn [sv_shared sv_conns]. intros k c Hk. destruct (Hc k c Hk) as [D1 D2 D3 D4 D5]. split; try done.
    apply (shares_later (sv_shared s)); [done| |by intros []]. intros [Ha _]. cbn in Ha. exfalso. apply (Ap k). unfold freed_ears. by rewrite Hk.
Qed.

Lemma server_inv_reachable s : sreachable queue_limit overflow max_inflight places ping_interval pong_timeout raw classify s → server_inv s.
Proof.
  induction 1 as [|s e s' _ IH E]; [|by eapply server_inv_step]. split; cbn; try done; [lia|by apply shared_new..].
Qed.
End Server.
