(* ===== verification/ConnectionTheorems.v ===== *)
(** * ConnectionTheorems: what a WebSocket server's connections promise *)

From S2P Require Import Prelude Text Events Outbound Connection ConnectionFacts.
Local Open Scope nat_scope.
Local Open Scope list_scope.

Section Server.
Context {events : Events} {M F : Type}.
Context (queue_limit : option nat) (overflow : Overflow) (max_inflight places : nat) (ping_interval pong_timeout raw : bool) (classify : F → Received M).

Abbreviation reachable := (@sreachable events M F queue_limit overflow max_inflight places ping_interval pong_timeout raw classify).

(** C17: Over every interleaving of the read loops with their messages, writers and the drain, the
    places held are those of the messages a handler still answers, with those about to be given
    back, and never more than the server's; a connection never has more messages in a handler than
    its own bound, and its outbound queue never more than its limit. *)
Theorem connection_bounds s (H : reachable s) :
  sh_held (sv_shared s) = total ((λ c, fl_handling (cn_flight c) + fl_due_give (cn_flight c)) <$> sv_conns s)
  ∧ sh_held (sv_shared s) ≤ places
  ∧ ∀ k c, sv_conns s !! k = Some c →
      fl_handling (cn_flight c) ≤ max_inflight
      ∧ ∀ n, queue_limit = Some n → length (out_queue (ob_state (cn_out c))) ≤ Nat.max n 1.
Proof.
  destruct (server_inv_reachable _ _ _ _ _ _ _ _ s H) as [H1 H2 _ _ H5]. split_and!; [done|done|]. intros k c Hk. destruct (H5 k c Hk) as [C1 C2 _ _ _].
  split; [apply C2|]. exact (bo_bound _ _ C1).
Qed.

(** C16: What a connection writes to its socket it writes in the order it was queued, some of it left
    out only when the overflow policy or the end of the connection discarded it; after its Close
    frame it writes no message and no Ping, and once it is closing its queue takes nothing. *)
Theorem connection_writes_in_order s k c (H : reachable s) (Hk : sv_conns s !! k = Some c) :
  sublist (data_of (cn_wire c)) (ob_accepted (cn_out c))
  ∧ (ob_lost (cn_out c) = false → data_of (cn_wire c) `prefix_of` ob_accepted (cn_out c))
  ∧ (∃ pre post, cn_wire c = pre ++ post ∧ Forall (λ w, is_close w = false) pre ∧ Forall (λ w, is_close w = true) post)
  ∧ (lp_closing (cn_loop c) ≠ None → ∀ m, push queue_limit overflow (cn_out c) m = (cn_out c, false)).
Proof.
  destruct (server_inv_reachable _ _ _ _ _ _ _ _ s H) as [_ _ _ _ H5]. destruct (H5 k c Hk) as [C1 _ C3 _ _].
  assert (Hp : data_of (cn_wire c) `prefix_of` ob_given (cn_out c)).
  { pose proof (so_data c C3) as Hd. destruct (has_ended (lp_at (cn_loop c))); [done|]. rewrite <- Hd. by apply prefix_app_r. }
  assert (Hq : ob_given (cn_out c) `prefix_of` ob_given (cn_out c) ++ out_queue (ob_state (cn_out c))) by (by apply prefix_app_r).
  split_and!.
  - etrans; [|exact (bo_order _ _ C1)]. destruct (Hp) as [rest ->]. rewrite <- app_assoc. by apply sublist_inserts_r.
  - intros Hl. rewrite <- (bo_all _ _ C1 Hl). by etrans.
  - apply C3.
  - intros Hc m. apply emptied_push, C3. by left.
Qed.

(** Nothing has notified the loop of a connection, and no call is about to. *)
Definition unheard (s : @Server events M F) (c : @Conn events M F) : Prop :=
  ear_hears (ob_wake (cn_out c)) (ob_woken (cn_out c)) = false ∧ ob_due_wake (cn_out c) = 0
  ∧ ear_hears (fl_progress (cn_flight c)) (fl_progressed (cn_flight c)) = false ∧ fl_due_progress (cn_flight c) = 0 ∧ fl_due_give (cn_flight c) = 0
  ∧ ear_hears (sh_phase (sv_shared s)) (lp_phase_changed (cn_loop c)) = false ∧ sh_due_phase (sv_shared s) = 0
  ∧ ear_hears (sh_freed (sv_shared s)) (lp_freed (cn_loop c)) = false ∧ sh_due_freed (sv_shared s) = 0.

(** C15: A parked read loop that nothing has notified and nothing is about to has nothing to do: its
    queue is empty and no close is requested, no drain has begun that it has not seen, and if it
    drains a message is still busy; a message that waits for a place finds none free. When it does
    not read though it is not closing, it drains, holds a message, or has as many messages in flight
    as it may, or the server has no place free, or it began to wait with no listener for a place. *)
Theorem connection_hears s k c reading full (H : reachable s) (Hk : sv_conns s !! k = Some c) (Hat : lp_at (cn_loop c) = LPoll reading full) (Hu : unheard s c) :
  out_queue (ob_state (cn_out c)) = [] ∧ out_close (ob_state (cn_out c)) = None
  ∧ (lp_draining (cn_loop c) = false → sh_draining (sv_shared s) = false)
  ∧ (lp_closing (cn_loop c) = None → lp_shut_down (cn_loop c) = false ∧ (lp_draining (cn_loop c) = true → fl_busy (cn_flight c) ≠ 0)
       ∧ (lp_waiting (cn_loop c) ≠ None → places ≤ sh_held (sv_shared s)))
  ∧ (reading = false → lp_closing (cn_loop c) = None
       ∧ (lp_draining (cn_loop c) = true ∨ lp_waiting (cn_loop c) ≠ None ∨ max_inflight ≤ fl_handling (cn_flight c)
          ∨ places ≤ sh_held (sv_shared s) ∨ (full = true ∧ lp_freed (cn_loop c) = None))).
Proof.
  destruct (server_inv_reachable _ _ _ _ _ _ _ _ s H) as [_ _ _ _ H5]. destruct (H5 k c Hk) as [C1 _ _ [W1 W2 W3 W4 W5 W6] [S1 S2 S3 S4 S5]].
  destruct Hu as (U1 & U2 & U3 & U4 & U5 & U6 & U7 & U8 & U9). rewrite Hat in *. cbn [listens has_taken follows decided past_freed past_draining] in *.
  assert (Hq : quiet_progress (cn_flight c)) by (split_and!; [by apply ear_hears_asleep; [apply W4|]|done|done]).
  assert (Hfr : is_Some (lp_freed (cn_loop c)) → quiet_freed (sv_shared s) (lp_freed (cn_loop c))) by (intros Hs; split; [by apply ear_hears_asleep|done]).
  destruct (bo_wake _ _ C1) as [[Hqueue Hclose]|Hd]; [by apply ear_hears_asleep; [apply W1|]|by apply W2| |lia]. split_and!; [done|done|..].
  - intros Hdr. apply S4; [done|done|]. split; [|done]. apply ear_hears_asleep; [|done]. apply S3. by left.
  - intros Hc. destruct (W5 eq_refl Hc) as [Hs Hb]. split_and!; [done|by auto|]. intros Hw. apply S2; [done..|]. apply Hfr. by apply S1.
  - intros ->. destruct W6 as [Hc Hw]. split; [done|]. destruct Hw as [|[|[->|[|]]]]; [by auto..| |by auto|done].
    destruct (lp_freed (cn_loop c)) as [i|] eqn:Ef; [|by auto 6]. right; right; right; left. apply S5. by apply Hfr.
Qed.
End Server.

(** ** Runs, at the events of [list_events] *)

(** Frames are numbers, each a message to handle; the places of the server are one. *)
Definition demo_step := @sstep list_events nat nat (Some 4) OverflowClose 2 1 false false false (λ _, RCall).
Definition demo_reachable := @sreachable list_events nat nat (Some 4) OverflowClose 2 1 false false false (λ _, RCall).

Definition run_server (es : list SEvent) : option (@Server list_events nat nat) := foldl (λ o e, s ← o; demo_step s e) (Some server_new) es.

Lemma run_server_reachable es s : run_server es = Some s → demo_reachable s.
Proof.
  unfold run_server. revert s. induction es as [|e es IH] using rev_ind; cbn; [intros s [= <-]; constructor|].
  intros s. rewrite foldl_app. cbn. intros (s0 & H0 & H1)%bind_Some. exact (sreachable_step _ _ _ _ _ _ _ _ s0 e s (IH s0 H0) H1).
Qed.

Definition run_of (es : list SEvent) : @Server list_events nat nat := default server_new (run_server es).

Lemma run_of_reachable es : match run_server es with Some _ => true | None => false end = true → demo_reachable (run_of es).
Proof. intros H. apply (run_server_reachable es). unfold run_of. by destruct (run_server es). Qed.

Definition conn_of (k : nat) (s : @Server list_events nat nat) : @Conn list_events nat nat := default (conn_new false) (sv_conns s !! k).

Lemma conn_of_some k s : match sv_conns s !! k with Some _ => true | None => false end = true → sv_conns s !! k = Some (conn_of k s).
Proof. unfold conn_of. by destruct (sv_conns s !! k). Qed.

Definition loop_of (k : nat) (given : Given) : @SEvent nat nat := SConn k (CLoop given).

(** From the top of the loop to where it asks whether to listen for a place, and on to its wait. *)
Definition to_freed (k : nat) : list (@SEvent nat nat) :=
  loop_of k <$> [GivenNothing; GivenNothing; GivenNothing; GivenNothing; GivenNothing; GivenWrite 0 true; GivenNothing].
Definition to_wait (k : nat) : list (@SEvent nat nat) := loop_of k <$> [GivenNothing; GivenNothing; GivenNothing; GivenNothing].

(** The first connection finds a place free; before it asks again whether to read, a message of the
    second takes the place; then its answer gives the place back and notifies. *)
Definition missed_place : list (@SEvent nat nat) :=
  [SAccept; SAccept] ++ to_freed 1 ++ to_wait 1 ++ to_freed 0 ++ [loop_of 0 GivenNothing]
  ++ [loop_of 1 (GivenTurn (TurnRead (ReadData 5))); loop_of 1 (GivenInbox true)] ++ (loop_of 0 <$> [GivenNothing; GivenNothing])
  ++ [SConn 1 CHandled; SConn 1 CGive; SFreedNotify; SConn 1 CProgress].

Definition missed_server : @Server list_events nat nat := run_of missed_place.

Lemma missed_reachable : demo_reachable missed_server.
Proof. apply run_of_reachable. vm_compute. reflexivity. Qed.

(** C18: A free place can go unheard. A connection that sees a place free registers no listener for
    one, and if the last place goes before it asks again it parks without reading; that place given
    back, the loop stays parked with nothing that holds it back from reading and nothing that will
    wake it: no place taken, no message in flight, none waiting, no drain, no close. *)
Theorem freed_place_unheard : ∃ (s : @Server list_events nat nat) (c : @Conn list_events nat nat),
  demo_reachable s ∧ sv_conns s !! 0 = Some c ∧ lp_at (cn_loop c) = LPoll false true ∧ unheard s c
  ∧ lp_closing (cn_loop c) = None ∧ lp_draining (cn_loop c) = false ∧ sh_draining (sv_shared s) = false ∧ lp_waiting (cn_loop c) = None
  ∧ fl_handling (cn_flight c) = 0 ∧ fl_busy (cn_flight c) = 0 ∧ sh_held (sv_shared s) = 0 ∧ out_queue (ob_state (cn_out c)) = [].
Proof.
  exists missed_server, (conn_of 0 missed_server).
  split; [exact missed_reachable|]. split; [apply conn_of_some; vm_compute; reflexivity|]. unfold unheard. split_and!; vm_compute; reflexivity.
Qed.

(** A connection that reads a message and answers it, its loop parked again. *)
Definition answered_run : list (@SEvent nat nat) :=
  [SAccept] ++ to_freed 0 ++ to_wait 0 ++ [loop_of 0 (GivenTurn (TurnRead (ReadData 5))); loop_of 0 (GivenInbox true)]
  ++ [SConn 0 (COut (BPush 7)); SConn 0 CHandled; SConn 0 (COut BWake)].

Definition answered_server : @Server list_events nat nat := run_of answered_run.

Lemma answered_reachable : demo_reachable answered_server.
Proof. apply run_of_reachable. vm_compute. reflexivity. Qed.

Lemma connection_bounds_example : sh_held (sv_shared answered_server) = 1 ∧ sh_held (sv_shared answered_server) ≤ 1.
Proof. split; [vm_compute; reflexivity|]. exact (proj1 (proj2 (connection_bounds (Some 4) OverflowClose 2 1 false false false (λ _, RCall) answered_server answered_reachable))). Defined.

Definition written_run : list (@SEvent nat nat) :=
  answered_run ++ (loop_of 0 <$> [GivenNothing; GivenNothing; GivenNothing; GivenNothing; GivenNothing; GivenWrite 1 true]).

Definition written_server : @Server list_events nat nat := run_of written_run.

Lemma written_reachable : demo_reachable written_server.
Proof. apply run_of_reachable. vm_compute. reflexivity. Qed.

Lemma connection_writes_in_order_example :
  cn_wire (conn_of 0 written_server) = [WData 7] ∧ sublist (data_of (cn_wire (conn_of 0 written_server))) (ob_accepted (cn_out (conn_of 0 written_server))).
Proof.
  split; [vm_compute; reflexivity|].
  refine (proj1 (connection_writes_in_order (Some 4) OverflowClose 2 1 false false false (λ _, RCall) written_server 0 (conn_of 0 written_server) written_reachable _)).
  apply conn_of_some. vm_compute. reflexivity.
Defined.

Lemma connection_hears_example : lp_at (cn_loop (conn_of 0 missed_server)) = LPoll false true ∧ out_queue (ob_state (cn_out (conn_of 0 missed_server))) = [].
Proof.
  split; [vm_compute; reflexivity|].
  refine (proj1 (connection_hears (Some 4) OverflowClose 2 1 false false false (λ _, RCall) missed_server 0 (conn_of 0 missed_server) false true missed_reachable _ _ _));
    [apply conn_of_some; vm_compute; reflexivity|vm_compute; reflexivity|]. unfold unheard. split_and!; vm_compute; reflexivity.
Defined.
