(* ===== verification/Rooms.v ===== *)
(** * Rooms: addressing the connections of WebSocket gateways

    [ulo-ws/src/rooms.rs]: the [Hub] of an application's connections in one process, their rooms, and
    the delivery of a broadcast to the queues of those it addresses; [broadcast.rs]: who a broadcast
    reaches and the form it takes between processes; of [envelope.rs] the message a delivered
    broadcast becomes. JSON and MessagePack values are other crates', classes with the behaviour the
    code relies on. *)

From S2P Require Import Prelude Text Events Outbound.
Local Open Scope nat_scope.
Local Open Scope list_scope.

(** ** Ids and targets *)

(** [ConnId]: the node is a [u128] and [seq] a [u64]. *)
Record ConnId := { ci_node : N; ci_seq : N }.

#[export] Instance conn_id_eq_dec : EqDecision ConnId.
Proof. solve_decision. Defined.

#[export] Instance conn_id_countable : Countable ConnId.
Proof. apply (inj_countable' (λ c, (ci_node c, ci_seq c)) (λ p, {| ci_node := p.1; ci_seq := p.2 |})). by intros []. Defined.

Inductive Audience := AudienceAll | AudienceRoom (room : str) | AudienceClient (id : ConnId).

Record Target := { tg_gateway : option str; tg_audience : Audience; tg_except : list ConnId }.

(** ** Node ids as text *)

Definition hex_digit (n : N) : ascii := default "0"%char (str_of "0123456789abcdef" !! N.to_nat n).

Fixpoint hex_of (width : nat) (n : N) : str := match width with 0 => [] | S width => hex_of width (N.div n 16) ++ [hex_digit (N.modulo n 16)] end.

(** [Display for NodeId]: [{:032x}]. *)
Definition node_text (node : N) : str := hex_of 32 node.

(** A digit of radix 16, in either case. *)
Definition hex_value (c : ascii) : option N :=
  let n := N_of_ascii c in
  if (48 <=? n)%N && (n <=? 57)%N then Some (n - 48)%N
  else if (97 <=? n)%N && (n <=? 102)%N then Some (n - 87)%N
  else if (65 <=? n)%N && (n <=? 70)%N then Some (n - 55)%N
  else None.

Fixpoint radix16 (acc : N) (s : str) : option N :=
  match s with
  | [] => Some acc
  | c :: s => match hex_value c with
              | Some d => let acc := (16 * acc + d)%N in if bool_decide (acc < 2 ^ 128)%N then radix16 acc s else None
              | None => None
              end
  end.

(** [u128::from_str_radix(s, 16)]. *)
Definition from_str_radix16 (s : str) : option N :=
  let s := match s with "+"%char :: s => s | _ => s end in
  match s with [] => None | _ => radix16 0 s end.

Definition is_lower_hex (c : ascii) : bool := let n := N_of_ascii c in ((48 <=? n)%N && (n <=? 57)%N) || ((97 <=? n)%N && (n <=? 102)%N).

(** ** The wire *)

(** [wire::Id]. *)
Record WireId := { wi_node : str; wi_seq : N }.

(** [wire::Kind]. *)
Inductive AudienceKind := KindAll | KindRoom (room : str) | KindClient (client : WireId).

Record HeaderOut := { ho_gateway : option str; ho_audience : AudienceKind; ho_except : list WireId }.

(** The audience as the text it was read as. *)
Record HeaderIn := { hi_gateway : option str; hi_audience : str; hi_except : list WireId }.

Definition kind_name (k : AudienceKind) : str :=
  match k with KindAll => str_of "all" | KindRoom _ => str_of "room" | KindClient _ => str_of "client" end.

Definition kind_ids (k : AudienceKind) : list WireId := match k with KindClient id => [id] | _ => [] end.

Definition seq_u64 (id : WireId) : Prop := (wi_seq id < 2 ^ 64)%N.

(** [serde_json] on these types: compact JSON holds no newline, and what was written reads back. *)
Class HeaderJson := {
  write_header : HeaderOut → str;
  kind_text : AudienceKind → str;
  read_header : str → str + HeaderIn;
  read_named : str → str + str;
  read_kind : str → str + AudienceKind;
  header_no_newline : ∀ h, ascii_of_nat 10 ∉ write_header h;
  header_read_back : ∀ h, Forall seq_u64 (ho_except h) → Forall seq_u64 (kind_ids (ho_audience h)) →
    read_header (write_header h) = inr {| hi_gateway := ho_gateway h; hi_audience := kind_text (ho_audience h); hi_except := ho_except h |};
  named_read_back : ∀ k, read_named (kind_text k) = inr (kind_name k);
  kind_read_back : ∀ k, Forall seq_u64 (kind_ids k) → read_kind (kind_text k) = inr k;
}.

Definition VERSION : ascii := ascii_of_nat 1.
Definition UNVERSIONED : ascii := "{"%char.
Definition KINDS : list str := [str_of "all"; str_of "room"; str_of "client"].

Inductive Undecodable := Unversioned | BadVersion (version : ascii) | UnknownAudience (kind : str) | Malformed (reason : str).

(** [From<ConnId> for Id]. *)
Definition wire_id (id : ConnId) : WireId := {| wi_node := node_text (ci_node id); wi_seq := ci_seq id |}.

(** [Id::conn]. *)
Definition conn_of_id (id : WireId) : Undecodable + ConnId :=
  let hex := bool_decide (length (wi_node id) = 32) && forallb is_lower_hex (wi_node id) in
  match from_str_radix16 (wi_node id), hex with
  | Some node, true => inr {| ci_node := node; ci_seq := wi_seq id |}
  | _, _ => inl (Malformed ("`"%char :: wi_node id ++ str_of "` is not a node id of 32 lowercase hex digits"))
  end.

(** [collect::<Result<_, _>>]. *)
Fixpoint conns_of_ids (ids : list WireId) : Undecodable + list ConnId :=
  match ids with
  | [] => inr []
  | id :: ids =>
      match conn_of_id id with
      | inl e => inl e
      | inr c => match conns_of_ids ids with inl e => inl e | inr cs => inr (c :: cs) end
      end
  end.

Section Wire.
Context {json : HeaderJson}.

Definition encode (target : Target) (frame : str) : str :=
  let audience := match tg_audience target with
    | AudienceAll => KindAll
    | AudienceRoom room => KindRoom room
    | AudienceClient id => KindClient (wire_id id)
    end in
  VERSION :: write_header {| ho_gateway := tg_gateway target; ho_audience := audience; ho_except := wire_id <$> tg_except target |}
    ++ ascii_of_nat 10 :: frame.

Definition decode_audience (raw : str) : Undecodable + Audience :=
  match read_named raw with
  | inl e => inl (Malformed e)
  | inr kind =>
      if bool_decide (kind ∈ KINDS) then
        match read_kind raw with
        | inl e => inl (Malformed e)
        | inr KindAll => inr AudienceAll
        | inr (KindRoom room) => inr (AudienceRoom room)
        | inr (KindClient client) => match conn_of_id client with inl e => inl e | inr c => inr (AudienceClient c) end
        end
      else inl (UnknownAudience kind)
  end.

Definition decode (message : str) : Undecodable + (Target * str) :=
  match message with
  | [] => inl (Malformed (str_of "the message is empty"))
  | version :: rest =>
      if bool_decide (version = VERSION) then
        match split_once (ascii_of_nat 10) rest with
        | None => inl (Malformed (str_of "no newline ends the target"))
        | Some (header, frame) =>
            match read_header header with
            | inl e => inl (Malformed e)
            | inr header =>
                match decode_audience (hi_audience header) with
                | inl e => inl e
                | inr audience =>
                    match conns_of_ids (hi_except header) with
                    | inl e => inl e
                    | inr except => inr ({| tg_gateway := hi_gateway header; tg_audience := audience; tg_except := except |}, frame)
                    end
                end
            end
        end
      else if bool_decide (version = UNVERSIONED) then inl Unversioned
      else inl (BadVersion version)
  end.
End Wire.

(** ** Messages *)

Inductive Codec := CodecJson | CodecMsgPack.

Inductive Message := MText (text : str) | MBinary (bytes : str).

(** [Carried]: the event and the JSON text of its data. *)
Record Carried := { ca_event : str; ca_data : str }.

Definition byte (n : N) : ascii := ascii_of_N n.

(** [map_header] and [write_str]: MessagePack, a length in the fewest bytes. *)
Definition map_header (len : N) : str := [byte (N.lor 128 (N.land len 15))].

Definition be_bytes (width : nat) (n : N) : str := (λ i, byte (N.land (N.shiftr n (8 * N.of_nat i)) 255)) <$> reverse (seq 0 width).

Definition write_str (text : str) : str :=
  let len := N.of_nat (length text) in
  (if bool_decide (len < 32)%N then [byte (N.lor 160 len)]
   else if bool_decide (len < 2 ^ 8)%N then [byte 217; byte len]
   else if bool_decide (len < 2 ^ 16)%N then byte 218 :: be_bytes 2 len
   else byte 219 :: be_bytes 4 (N.min len (2 ^ 32 - 1))) ++ text.

(** ** The hub *)

(** The text between the event and the data. *)
Definition DATA_FIELD : str := ","%char :: ascii_of_nat 34 :: str_of "data" ++ [ascii_of_nat 34; ":"%char].

Section Hub.
Context {events : Events}.
Context (json_string : str → str) (msgpack_of_json : str → option str) (read_broadcast : str → option Carried).

(** [envelope::event]. *)
Definition event_message (codec : Codec) (field : str) (carried : Carried) : option Message :=
  match codec with
  | CodecJson => Some (MText ("{"%char :: json_string field ++ ":"%char :: json_string (ca_event carried) ++ DATA_FIELD ++ ca_data carried ++ ["}"%char]))
  | CodecMsgPack =>
      match msgpack_of_json (ca_data carried) with
      | Some data => Some (MBinary (map_header 2 ++ write_str field ++ write_str (ca_event carried) ++ write_str (str_of "data") ++ data))
      | None => None
      end
  end.

(** What delivery reads of a [GatewayRuntime]. *)
Record Gateway := {
  gw_path : str; gw_namespace : option str; gw_field : str; gw_codec : Codec; gw_controller : nat;
  gw_limit : option nat; gw_overflow : Overflow;
}.

(** A member holds its queue by [Arc], shared with the connection's tasks: where it is in [Queues]. *)
Record Member := { mb_gateway : Gateway; mb_rooms : gset str; mb_outbound : nat }.

Abbreviation Queues := (gmap nat (@Outbound events Message)).

(** [Hub]: a controller stands for its type's name; the delivery task is whether there is one. *)
Record Hub := { hb_node : N; hb_seq : N; hb_members : gmap ConnId Member; hb_paths : gmap nat str; hb_delivery : bool }.

Definition hub_new (node : N) : Hub := {| hb_node := node; hb_seq := 0; hb_members := ∅; hb_paths := ∅; hb_delivery := false |}.

Definition next_id (h : Hub) : Hub * ConnId :=
  ({| hb_node := hb_node h; hb_seq := ((hb_seq h + 1) mod 2 ^ 64)%N; hb_members := hb_members h; hb_paths := hb_paths h; hb_delivery := hb_delivery h |},
   {| ci_node := hb_node h; ci_seq := hb_seq h |}).

Definition with_members (h : Hub) (members : gmap ConnId Member) : Hub :=
  {| hb_node := hb_node h; hb_seq := hb_seq h; hb_members := members; hb_paths := hb_paths h; hb_delivery := hb_delivery h |}.

Definition with_delivery (h : Hub) (delivery : bool) : Hub :=
  {| hb_node := hb_node h; hb_seq := hb_seq h; hb_members := hb_members h; hb_paths := hb_paths h; hb_delivery := delivery |}.

Definition record_gateways (h : Hub) (gateways : list Gateway) : Hub :=
  {| hb_node := hb_node h; hb_seq := hb_seq h; hb_members := hb_members h;
     hb_paths := foldl (λ paths g, <[gw_controller g := gw_path g]> paths) (hb_paths h) gateways; hb_delivery := hb_delivery h |}.

Definition path_of (h : Hub) (controller : nat) : option str := hb_paths h !! controller.

Definition hub_register (h : Hub) (id : ConnId) (gateway : Gateway) (outbound : nat) : Hub :=
  with_members h (<[id := {| mb_gateway := gateway; mb_rooms := ∅; mb_outbound := outbound |}]> (hb_members h)).

Definition hub_unregister (h : Hub) (id : ConnId) : Hub := with_members h (delete id (hb_members h)).

Definition in_rooms (f : gset str → gset str) (m : Member) : Member := {| mb_gateway := mb_gateway m; mb_rooms := f (mb_rooms m); mb_outbound := mb_outbound m |}.

Definition hub_join (h : Hub) (id : ConnId) (room : str) : Hub := with_members h (alter (in_rooms (λ rooms, {[room]} ∪ rooms)) id (hb_members h)).

Definition hub_leave (h : Hub) (id : ConnId) (room : str) : Hub := with_members h (alter (in_rooms (λ rooms, rooms ∖ {[room]})) id (hb_members h)).

Definition hub_rooms (h : Hub) (id : ConnId) : gset str := match hb_members h !! id with Some m => mb_rooms m | None => ∅ end.

(** [start] before and after it waited for the subscription: a task, unless there is one by then. *)
Definition start_subscribes (h : Hub) : bool := negb (hb_delivery h).

Definition start_spawns (h : Hub) : Hub * bool := if hb_delivery h then (h, false) else (with_delivery h true, true).

(** [stop]: with the task to abort. *)
Definition hub_stop (h : Hub) : Hub * bool := (with_delivery h false, hb_delivery h).

Definition addressed (target : Target) (id : ConnId) (m : Member) : bool :=
  if bool_decide (id ∈ tg_except target) then false
  else if match tg_gateway target with
          | Some gateway => negb (bool_decide (gateway = gw_path (mb_gateway m)) || bool_decide (gw_namespace (mb_gateway m) = Some gateway))
          | None => false
          end then false
  else match tg_audience target with
       | AudienceAll => true
       | AudienceRoom room => bool_decide (room ∈ mb_rooms m)
       | AudienceClient client => bool_decide (client = id)
       end.

(** One round of [deliver]'s loop: the message, encoded for the member's gateway, is pushed to its
    queue. *)
Definition deliver_to (target : Target) (carried : Carried) (queues : Queues) (entry : ConnId * Member) : Queues :=
  let '(id, m) := entry in
  if addressed target id m then
    match event_message (gw_codec (mb_gateway m)) (gw_field (mb_gateway m)) carried with
    | Some message => alter (λ b, (push (gw_limit (mb_gateway m)) (gw_overflow (mb_gateway m)) b message).1) (mb_outbound m) queues
    | None => queues
    end
  else queues.

(** [deliver] over the members in the [order] the hash map gives them. *)
Definition deliver (order : list (ConnId * Member)) (target : Target) (frame : str) (queues : Queues) : Queues :=
  match read_broadcast frame with
  | Some carried => foldl (deliver_to target carried) queues order
  | None => queues
  end.

(** ** Building a target *)

Definition broadcast_to (gateway : option str) (audience : Audience) : Target := {| tg_gateway := gateway; tg_audience := audience; tg_except := [] |}.

(** [Rooms::gateway]: at the path a server prepared it under, or its own setting's before that. *)
Definition rooms_gateway (h : Hub) (controller : nat) (setting : str) : str := default setting (path_of h controller).

Definition except (t : Target) (ids : list ConnId) : Target := {| tg_gateway := tg_gateway t; tg_audience := tg_audience t; tg_except := tg_except t ++ ids |}.

(** ** Everything that happens to a hub *)

Inductive HubOp :=
  | HubRegister (id : ConnId) (gateway : Gateway)         (* with an [Outbound::new] *)
  | HubUnregister (id : ConnId)
  | HubJoin (id : ConnId) (room : str)
  | HubLeave (id : ConnId) (room : str)
  | HubDeliver (target : Target) (frame : str)
  | HubQueue (at_ : nat) (b : @Outbound events Message)   (* what else holds the queue left it so *)
  | HubRecord (gateways : list Gateway)
  | HubNext
  | HubStart
  | HubStop.

Record World := { wd_hub : Hub; wd_queues : Queues }.

Definition world_step (w : World) (op : HubOp) : World :=
  let h := wd_hub w in let queues := wd_queues w in
  match op with
  | HubRegister id gateway =>
      let outbound := fresh (dom queues) in
      {| wd_hub := hub_register h id gateway outbound; wd_queues := <[outbound := outbound_new]> queues |}
  | HubUnregister id => {| wd_hub := hub_unregister h id; wd_queues := queues |}
  | HubJoin id room => {| wd_hub := hub_join h id room; wd_queues := queues |}
  | HubLeave id room => {| wd_hub := hub_leave h id room; wd_queues := queues |}
  | HubDeliver target frame => {| wd_hub := h; wd_queues := deliver (map_to_list (hb_members h)) target frame queues |}
  | HubQueue at_ b => {| wd_hub := h; wd_queues := alter (λ _, b) at_ queues |}
  | HubRecord gateways => {| wd_hub := record_gateways h gateways; wd_queues := queues |}
  | HubNext => {| wd_hub := (next_id h).1; wd_queues := queues |}
  | HubStart => {| wd_hub := (start_spawns h).1; wd_queues := queues |}
  | HubStop => {| wd_hub := (hub_stop h).1; wd_queues := queues |}
  end.

Definition world_after (node : N) (ops : list HubOp) : World := foldl world_step {| wd_hub := hub_new node; wd_queues := ∅ |} ops.
End Hub.
