(* ===== verification/RoomsTheorems.v ===== *)
(** * RoomsTheorems: who a broadcast reaches, and the form it travels in *)

From S2P Require Import Prelude Text Events Outbound Rooms.
Local Open Scope nat_scope.
Local Open Scope list_scope.

(** ** Node ids *)

Lemma hex_digit_value n : (n < 16)%N → hex_value (hex_digit n) = Some n ∧ is_lower_hex (hex_digit n) = true.
Proof.
  intros Hn. assert (Hin : n ∈ N.of_nat <$> seq 0 16) by (apply list_elem_of_fmap; exists (N.to_nat n); rewrite elem_of_seq; lia).
  clear Hn. revert n Hin. apply Forall_forall. by repeat (constructor; [by vm_compute|]).
Qed.

Lemma lower_hex_digit c : is_lower_hex c = true → ∃ n, (n < 16)%N ∧ c = hex_digit n ∧ hex_value c = Some n.
Proof.
  intros H. destruct (hex_value c) as [n|] eqn:E.
  - exists n. by destruct c as [[] [] [] [] [] [] [] []]; vm_compute in H, E; simplify_eq.
  - by destruct c as [[] [] [] [] [] [] [] []]; vm_compute in H, E; simplify_eq.
Qed.

Lemma radix16_app s t : ∀ acc, radix16 acc (s ++ t) = radix16 acc s ≫= λ a, radix16 a t.
Proof. induction s as [|c s IH]; intros acc; [done|]. cbn [app radix16]. destruct (hex_value c); [|done]. case_bool_decide; [apply IH|done]. Qed.

Lemma hex_of_facts width : ∀ n, length (hex_of width n) = width ∧ forallb is_lower_hex (hex_of width n) = true.
Proof.
  induction width as [|w IH]; intros n; [done|]. cbn [hex_of]. destruct (IH (n / 16)%N) as [Hl Hh].
  rewrite length_app, forallb_app, Hl, Hh. cbn. split; [lia|]. rewrite andb_true_r. apply hex_digit_value. apply N.mod_lt. lia.
Qed.

Lemma radix16_hex_of width : ∀ n acc, (n < 16 ^ N.of_nat width)%N → (acc * 16 ^ N.of_nat width + n < 2 ^ 128)%N →
  radix16 acc (hex_of width n) = Some (acc * 16 ^ N.of_nat width + n)%N.
Proof.
  induction width as [|w IH]; intros n acc Hn Hb; [change (16 ^ N.of_nat 0)%N with 1%N in *; cbn [hex_of radix16]; f_equal; lia|]. cbn [hex_of]. rewrite Nat2N.inj_succ, N.pow_succ_r' in *.
  pose proof (N.div_mod n 16 ltac:(lia)) as Hd. pose proof (N.mod_lt n 16 ltac:(lia)) as Hm.
  assert (Hq : (n / 16 < 16 ^ N.of_nat w)%N) by (apply N.Div0.div_lt_upper_bound; lia).
  set (P := (16 ^ N.of_nat w)%N) in *. set (q := (n / 16)%N) in *. set (m := (n mod 16)%N) in *.
  rewrite radix16_app, IH by lia. cbn [mbind option_bind radix16].
  rewrite (proj1 (hex_digit_value _ Hm)). rewrite bool_decide_eq_true_2 by lia. f_equal. lia.
Qed.

Lemma radix16_reads s : ∀ acc v, forallb is_lower_hex s = true → radix16 acc s = Some v →
  ∃ k, (k < 16 ^ N.of_nat (length s))%N ∧ v = (acc * 16 ^ N.of_nat (length s) + k)%N ∧ s = hex_of (length s) k ∧ (s = [] ∨ (v < 2 ^ 128)%N).
Proof.
  induction s as [|c s IH] using rev_ind; intros acc v; [intros _ [= ->]; exists 0%N; cbn; repeat split; [lia..|by left]|].
  rewrite forallb_app, andb_true_iff, radix16_app. intros [Hs Hc] (a & Ha & Hv)%bind_Some.
  destruct (IH _ _ Hs Ha) as (k & Hk & -> & Hsk & _). cbn in Hc. rewrite andb_true_r in Hc. destruct (lower_hex_digit c Hc) as (d & Hd & -> & Hx).
  cbn [radix16] in Hv. rewrite Hx in Hv. case_bool_decide; [|done]. injection Hv as <-. exists (16 * k + d)%N.
  rewrite length_app, Nat.add_1_r, Nat2N.inj_succ, N.pow_succ_r'. repeat split; [lia..| |by right].
  cbn [hex_of]. rewrite (N.mul_comm 16 k), N.div_add_l, (N.div_small d 16), N.add_0_r, <- Hsk by lia.
  by rewrite N.add_comm, N.Div0.mod_add, N.mod_small by lia.
Qed.

(** Only the text [Display] writes is read as an id. *)
Lemma conn_of_id_exact w c : conn_of_id w = inr c ↔ w = wire_id c ∧ (ci_node c < 2 ^ 128)%N.
Proof.
  destruct w as [text seq], c as [node s]. unfold conn_of_id, wire_id, node_text. cbn [wi_node wi_seq ci_node ci_seq]. split.
  - destruct (from_str_radix16 text) as [n|] eqn:E; [|done]. destruct (_ && _) eqn:Hh; [|done]. intros [= -> ->].
    apply andb_true_iff in Hh as [Hl%bool_decide_eq_true Hh]. unfold from_str_radix16 in E.
    assert (Hr : radix16 0 text = Some node) by (destruct text as [|[[] [] [] [] [] [] [] []] text]; done).
    destruct (radix16_reads _ _ _ Hh Hr) as (k & _ & -> & Ht & Hb). rewrite Hl in *. rewrite N.mul_0_l, N.add_0_l in *.
    destruct Hb as [->|Hb]; [done|]. split; [by rewrite Ht at 1|done].
  - intros [E Hb]. rewrite (f_equal wi_node E : text = hex_of 32 node), (f_equal wi_seq E : seq = s). destruct (hex_of_facts 32 node) as [Hl Hh]. rewrite Hl, Hh.
    assert (Hr : from_str_radix16 (hex_of 32 node) = radix16 0 (hex_of 32 node)).
    { unfold from_str_radix16. destruct (hex_of 32 node) as [|[[] [] [] [] [] [] [] []] t]; done. }
    rewrite Hr, radix16_hex_of; [done|exact Hb..].
Qed.

Lemma conns_of_ids_back cs : Forall (λ c, ci_node c < 2 ^ 128)%N cs → conns_of_ids (wire_id <$> cs) = inr cs.
Proof. induction 1 as [|c cs Hc _ IH]; [done|]. cbn. rewrite (proj2 (conn_of_id_exact _ _) (conj eq_refl Hc)). cbn in IH. by rewrite IH. Qed.

(** ** The wire *)

(** A [u128] and a [u64]. *)
Definition conn_id_ok (c : ConnId) : Prop := (ci_node c < 2 ^ 128)%N ∧ (ci_seq c < 2 ^ 64)%N.

Definition target_ok (t : Target) : Prop := Forall conn_id_ok (tg_except t) ∧ match tg_audience t with AudienceClient c => conn_id_ok c | _ => True end.

Lemma wire_ids_u64 cs : Forall conn_id_ok cs → Forall seq_u64 (wire_id <$> cs).
Proof. intros H. apply Forall_fmap. eapply Forall_impl; [exact H|]. intros c Hc. apply Hc. Qed.

Section Wire.
Context {json : HeaderJson}.

(** C20: what an adapter publishes is read back by every process that runs this version as the target
    and the frame it was, whatever the room names, gateways, ids and frame bytes; a message that
    opens with any other byte is refused as the unversioned layout or by its version, and never as
    a target; and an id is read from the one text that names it alone. *)
Theorem broadcast_wire_roundtrip t frame : target_ok t →
  decode (encode t frame) = inr (t, frame)
  ∧ (∀ v rest, v ≠ VERSION → decode (v :: rest) = inl (if bool_decide (v = UNVERSIONED) then Unversioned else BadVersion v))
  ∧ (∀ w c, conn_of_id w = inr c ↔ w = wire_id c ∧ (ci_node c < 2 ^ 128)%N).
Proof.
  intros [Hex Haud]. split; [|split; [|exact conn_of_id_exact]].
  2: { intros v rest Hv. cbn [decode]. rewrite bool_decide_eq_false_2 by done. by destruct (bool_decide _). }
  destruct t as [gateway audience ex]. unfold encode, decode. cbn in *. rewrite bool_decide_eq_true_2 by done.
  rewrite (proj2 (split_once_Some _ _ _ _) (conj eq_refl (header_no_newline _))).
  assert (Hids : Forall seq_u64 (wire_id <$> ex)) by by apply wire_ids_u64.
  rewrite header_read_back; [|exact Hids|by destruct audience; repeat constructor; destruct Haud]. cbn.
  assert (Hcs : conns_of_ids (wire_id <$> ex) = inr ex) by (apply conns_of_ids_back; eapply Forall_impl; [exact Hex|by intros ? []]).
  cbn in Hcs. rewrite Hcs. unfold decode_audience. rewrite named_read_back.
  assert (Hk : ∀ k, bool_decide (kind_name k ∈ KINDS) = true) by (intros k; apply bool_decide_eq_true; unfold KINDS; destruct k; set_solver).
  rewrite Hk, kind_read_back by (destruct audience; repeat constructor; destruct Haud; done).
  destruct audience as [|room|c]; [done..|]. destruct Haud as [Hn _]. by rewrite (proj2 (conn_of_id_exact _ _) (conj eq_refl Hn)).
Qed.
End Wire.

(** ** The hub *)

Section Hub.
Context {events : Events}.
Context (json_string : str → str) (msgpack_of_json : str → option str) (read_broadcast : str → option Carried).

Abbreviation HubOp := (@HubOp events).
Abbreviation World := (@World events).
Abbreviation Queues := (gmap nat (@Outbound events Message)).
Abbreviation world_after := (world_after json_string msgpack_of_json read_broadcast).
Abbreviation world_step := (world_step json_string msgpack_of_json read_broadcast).
Abbreviation deliver := (deliver json_string msgpack_of_json read_broadcast).
Abbreviation deliver_to := (deliver_to json_string msgpack_of_json).
Abbreviation event_message := (event_message json_string msgpack_of_json).

(** What a history, the latest operation first, says of a connection. *)
Fixpoint gateway_of (history : list HubOp) (id : ConnId) : option Gateway :=
  match history with
  | [] => None
  | HubRegister i g :: past => if bool_decide (i = id) then Some g else gateway_of past id
  | HubUnregister i :: past => if bool_decide (i = id) then None else gateway_of past id
  | _ :: past => gateway_of past id
  end.

Fixpoint in_room (history : list HubOp) (id : ConnId) (room : str) : bool :=
  match history with
  | [] => false
  | HubRegister i _ :: past | HubUnregister i :: past => if bool_decide (i = id) then false else in_room past id room
  | HubJoin i r :: past => if bool_decide (i = id ∧ r = room) then bool_decide (is_Some (gateway_of past id)) else in_room past id room
  | HubLeave i r :: past => if bool_decide (i = id ∧ r = room) then false else in_room past id room
  | _ :: past => in_room past id room
  end.

(** The members a target names, by the history alone. *)
Definition reached (history : list HubOp) (t : Target) (id : ConnId) (g : Gateway) : Prop :=
  gateway_of history id = Some g ∧ (id ∉ tg_except t)
  ∧ (∀ name, tg_gateway t = Some name → name = gw_path g ∨ gw_namespace g = Some name)
  ∧ match tg_audience t with AudienceAll => True | AudienceRoom room => in_room history id room | AudienceClient c => c = id end.

(** The queue of a member of [g] once a broadcast reached it. *)
Definition received (g : Gateway) (frame : str) (b : Outbound) : Outbound :=
  match read_broadcast frame with
  | Some carried => match event_message (gw_codec g) (gw_field g) carried with Some m => (push (gw_limit g) (gw_overflow g) b m).1 | None => b end
  | None => b
  end.

Lemma in_rooms_kept f (members : gmap ConnId Member) id i m' : alter (in_rooms f) id members !! i = Some m' →
  ∃ m, members !! i = Some m ∧ mb_outbound m = mb_outbound m'.
Proof. rewrite lookup_alter_Some. intros [(-> & m & Hm & ->)|[_ Hm]]; eauto. Qed.

(** Every member has a queue of its own. *)
Definition queues_apart (w : World) : Prop :=
  (∀ i m, hb_members (wd_hub w) !! i = Some m → is_Some (wd_queues w !! mb_outbound m))
  ∧ (∀ i j m n, hb_members (wd_hub w) !! i = Some m → hb_members (wd_hub w) !! j = Some n → mb_outbound m = mb_outbound n → i = j).

Lemma deliver_to_dom t c queues e : dom (deliver_to t c queues e) = dom queues.
Proof. destruct e as [id m]. unfold Rooms.deliver_to. destruct (addressed t id m); [|done]. destruct (event_message _ _ c); [apply dom_alter_L|done]. Qed.

Lemma deliver_dom order t frame queues : dom (deliver order t frame queues) = dom queues.
Proof.
  unfold Rooms.deliver. destruct (read_broadcast frame) as [c|]; [|done]. revert queues.
  induction order as [|e order IH]; intros queues; [done|]. cbn. by rewrite IH, deliver_to_dom.
Qed.

(** The steps that keep each member's queue: none adds a member and none drops a queue. *)
Lemma queues_apart_kept w w' : dom (wd_queues w') = dom (wd_queues w) →
  (∀ i m', hb_members (wd_hub w') !! i = Some m' → ∃ m, hb_members (wd_hub w) !! i = Some m ∧ mb_outbound m = mb_outbound m') →
  queues_apart w → queues_apart w'.
Proof.
  intros Hd Hm [Hq Hn]. split.
  - intros i m' (m & Hi & <-)%Hm. apply elem_of_dom. rewrite Hd. apply elem_of_dom. by eapply Hq.
  - intros i j m n (m0 & Hi & Em)%Hm (n0 & Hj & En)%Hm E. apply (Hn i j m0 n0); [done..|congruence].
Qed.

Lemma queues_apart_step w op : queues_apart w → queues_apart (world_step w op).
Proof.
  intros Hw. destruct op as [id g|id|id room|id room|t f|q b|gs| | |]; try (eapply queues_apart_kept; [..|exact Hw]; cbn; [done|by eauto]).
  - destruct Hw as [Hq Hn]. cbn. pose proof (is_fresh (dom (wd_queues w))) as Hf. set (o := fresh (dom (wd_queues w))) in *.
    assert (Hne : ∀ i m, hb_members (wd_hub w) !! i = Some m → mb_outbound m ≠ o).
    { intros i m Hi E. destruct Hf. apply elem_of_dom. rewrite <- E. by eapply Hq. }
    split; cbn.
    + intros i m [[<- <-]|[_ Hi]]%lookup_insert_Some; cbn; [by rewrite lookup_insert_eq|]. rewrite lookup_insert_ne by (by eapply not_eq_sym, Hne). by eapply Hq.
    + intros i j m n [[<- <-]|[Hi Him]]%lookup_insert_Some [[<- <-]|[Hj Hjn]]%lookup_insert_Some; cbn; [done| | |by eapply Hn].
      * intros E. by destruct (Hne _ _ Hjn).
      * intros E. by destruct (Hne _ _ Him).
  - eapply queues_apart_kept; [..|exact Hw]; cbn; [done|]. intros i m' [_ Hi]%lookup_delete_Some. by eauto.
  - eapply queues_apart_kept; [..|exact Hw]; cbn; [done|]. intros i m'. apply in_rooms_kept.
  - eapply queues_apart_kept; [..|exact Hw]; cbn; [done|]. intros i m'. apply in_rooms_kept.
  - eapply queues_apart_kept; [..|exact Hw]; cbn; [by apply deliver_dom|by eauto].
  - eapply queues_apart_kept; [..|exact Hw]; cbn; [apply dom_alter_L|by eauto].
  - eapply queues_apart_kept; [..|exact Hw]; cbn; [done|]. unfold start_spawns. destruct (hb_delivery (wd_hub w)); cbn; by eauto.
Qed.
Lemma queues_apart_after node ops : queues_apart (world_after node ops).
Proof.
  induction ops as [|op ops IH] using rev_ind.
  - split; [intros i m|intros i j m n]; cbn; rewrite lookup_empty; done.
  - unfold Rooms.world_after in *. rewrite foldl_app. by apply queues_apart_step.
Qed.

(** *** The members are what the history says *)

Definition follows (w : World) (history : list HubOp) : Prop :=
  ∀ id, mb_gateway <$> hb_members (wd_hub w) !! id = gateway_of history id ∧ ∀ room, room ∈ hub_rooms (wd_hub w) id ↔ in_room history id room.

(** A step that leaves the members alone and that the history skips. *)
Lemma follows_kept w w' op history : hb_members (wd_hub w') = hb_members (wd_hub w) →
  (∀ id, gateway_of (op :: history) id = gateway_of history id) → (∀ id room, in_room (op :: history) id room = in_room history id room) →
  follows w history → follows w' (op :: history).
Proof. intros Hm Hg Hr Hf id. unfold hub_rooms. rewrite Hm, Hg. setoid_rewrite Hr. apply Hf. Qed.

Lemma follows_step w op history : follows w history → follows (world_step w op) (op :: history).
Proof.
  intros Hf. destruct op as [id g|id|id room|id room|t f|q b|gs| | |]; try (by apply (follows_kept w)).
  - intros j. destruct (Hf j) as [Hg Hr]. unfold hub_rooms in *. cbn. case_bool_decide as E; [subst|]; [rewrite lookup_insert_eq|by rewrite lookup_insert_ne].
    cbn. split; [done|]. intros r. set_solver.
  - intros j. destruct (Hf j) as [Hg Hr]. unfold hub_rooms in *. cbn. case_bool_decide as E; [subst|]; [rewrite lookup_delete_eq|by rewrite lookup_delete_ne].
    cbn. split; [done|]. intros r. set_solver.
  - intros j. destruct (Hf j) as [Hg Hr]. unfold hub_rooms in *. cbn. destruct (decide (id = j)) as [->|Hne].
    + rewrite lookup_alter_eq. split; [rewrite <- Hg; by destruct (_ !! j)|]. intros r. specialize (Hr r). destruct (hb_members _ !! j) as [m|]; cbn in *; rewrite <- Hg.
      * case_bool_decide; destruct_and?; [by rewrite bool_decide_eq_true_2 by done; set_solver|]. rewrite <- Hr. set_solver.
      * case_bool_decide; [|done]. by rewrite bool_decide_eq_false_2 by (by intros []).
    + rewrite lookup_alter_ne by done. split; [done|]. intros r. by rewrite bool_decide_eq_false_2 by (by intros []).
  - intros j. destruct (Hf j) as [Hg Hr]. unfold hub_rooms in *. cbn. destruct (decide (id = j)) as [->|Hne].
    + rewrite lookup_alter_eq. split; [rewrite <- Hg; by destruct (_ !! j)|]. intros r. specialize (Hr r). destruct (hb_members _ !! j) as [m|]; cbn in *.
      * case_bool_decide; destruct_and?; [set_solver|]. rewrite <- Hr. set_solver.
      * case_bool_decide; [|done]. set_solver.
    + rewrite lookup_alter_ne by done. split; [done|]. intros r. by rewrite bool_decide_eq_false_2 by (by intros []).
  - apply (follows_kept w); [|done..|done]. cbn. unfold start_spawns. by destruct (hb_delivery _).
Qed.

Lemma follows_after node ops : follows (world_after node ops) (reverse ops).
Proof.
  induction ops as [|op ops IH] using rev_ind; [by split; [|intros room; set_solver]|].
  unfold Rooms.world_after in *. rewrite foldl_app, reverse_snoc. by apply follows_step.
Qed.
(** *** Delivery *)

(** What one broadcast does to the queue of one member. *)
Definition round (t : Target) (c : Carried) (e : ConnId * Member) (b : Outbound) : Outbound :=
  if addressed t e.1 e.2 then
    match event_message (gw_codec (mb_gateway e.2)) (gw_field (mb_gateway e.2)) c with
    | Some m => (push (gw_limit (mb_gateway e.2)) (gw_overflow (mb_gateway e.2)) b m).1
    | None => b
    end
  else b.

Lemma deliver_to_lookup t c queues e q :
  deliver_to t c queues e !! q = if bool_decide (mb_outbound e.2 = q) then round t c e <$> queues !! q else queues !! q.
Proof.
  destruct e as [id m]. unfold Rooms.deliver_to, round. cbn. case_bool_decide as E; [subst|].
  - destruct (addressed t id m); [destruct (event_message _ _ c); [by rewrite lookup_alter_eq|]|]; by destruct (queues !! _).
  - destruct (addressed t id m); [destruct (event_message _ _ c); [by rewrite lookup_alter_ne|]|]; done.
Qed.

Lemma deliver_others t c q order : ∀ queues, (∀ e, e ∈ order → mb_outbound e.2 ≠ q) → foldl (deliver_to t c) queues order !! q = queues !! q.
Proof.
  induction order as [|e order IH]; intros queues Hq; [done|]. cbn [foldl]. rewrite IH by (intros; apply Hq; by constructor).
  rewrite deliver_to_lookup, bool_decide_eq_false_2; [done|]. apply Hq. constructor.
Qed.

Lemma deliver_member t c e order : ∀ queues, NoDup ((λ e, mb_outbound e.2) <$> order) → e ∈ order →
  foldl (deliver_to t c) queues order !! mb_outbound e.2 = round t c e <$> queues !! mb_outbound e.2.
Proof.
  induction order as [|x order IH]; intros queues; [by intros ? ?%not_elem_of_nil|]. rewrite fmap_cons, NoDup_cons. intros [Hx Hnd] [->|He]%elem_of_cons; cbn [foldl].
  - rewrite deliver_others; [by rewrite deliver_to_lookup, bool_decide_eq_true_2|]. intros y Hy E. destruct Hx. apply list_elem_of_fmap. by eauto.
  - rewrite IH, deliver_to_lookup, bool_decide_eq_false_2; [done| |done..]. intros E. destruct Hx. apply list_elem_of_fmap. by eauto.
Qed.

Lemma order_apart w order : queues_apart w → order ≡ₚ map_to_list (hb_members (wd_hub w)) → NoDup ((λ e, mb_outbound e.2) <$> order).
Proof.
  intros [_ Hn] Ho. rewrite Ho. apply NoDup_fmap_2_strong; [|apply NoDup_map_to_list].
  intros [i m] [j n] Hi%elem_of_map_to_list Hj%elem_of_map_to_list E. assert (i = j) as -> by exact (Hn i j m n Hi Hj E). cbn in *. congruence.
Qed.

Lemma addressed_reached w history t id m : follows w history → hb_members (wd_hub w) !! id = Some m →
  addressed t id m ↔ reached history t id (mb_gateway m).
Proof.
  intros Hf Hm. destruct (Hf id) as [Hg Hr]. unfold hub_rooms in Hr. rewrite Hm in Hg, Hr. cbn in Hg. unfold reached, addressed. rewrite <- Hg.
  case_bool_decide; [naive_solver|].
  assert (Ha : Is_true match tg_audience t with AudienceAll => true | AudienceRoom room => bool_decide (room ∈ mb_rooms m) | AudienceClient client => bool_decide (client = id) end
    ↔ match tg_audience t with AudienceAll => True | AudienceRoom room => in_room history id room | AudienceClient c => c = id end).
  { destruct (tg_audience t) as [|room|]; [done|by rewrite bool_decide_spec, Hr|by rewrite bool_decide_spec]. }
  assert (Hn : match tg_gateway t with
               | Some gateway => negb (bool_decide (gateway = gw_path (mb_gateway m)) || bool_decide (gw_namespace (mb_gateway m) = Some gateway))
               | None => false
               end = false ↔ ∀ name, tg_gateway t = Some name → (name = gw_path (mb_gateway m) ∨ gw_namespace (mb_gateway m) = Some name)).
  { destruct (tg_gateway t) as [name|]; [|by split]. rewrite negb_false_iff, orb_true_iff, !bool_decide_eq_true.
    split; [by intros H' ? [= <-]|intros H'; by apply H']. }
  destruct (match tg_gateway t with Some _ => _ | None => _ end).
  - split; [done|]. intros (_ & _ & Hx & _). by apply Hn in Hx.
  - rewrite Ha. split; [|by intros (_ & _ & _ & Hx)]. intros Hx. by split; [|split; [|split; [apply Hn|]]].
Qed.

(** C19: whatever connections open, close, join and leave and whatever their own tasks do to their
    queues in between, a connection's gateway and rooms are what its latest open, close, joins and
    leaves say; a broadcast, over the members in any order, puts its message, encoded for the
    member's gateway, under its overflow policy on the queue of each member the target names (its
    gateway's path or namespace, all, a room it is in or its own id, less the exceptions) exactly
    once, and every other queue stays as it was. *)
Theorem rooms_follow_history node ops t frame order : let w := world_after node ops in
  order ≡ₚ map_to_list (hb_members (wd_hub w)) →
  let after := deliver order t frame (wd_queues w) in
  (∀ id, mb_gateway <$> hb_members (wd_hub w) !! id = gateway_of (reverse ops) id)
  ∧ (∀ id room, room ∈ hub_rooms (wd_hub w) id ↔ in_room (reverse ops) id room)
  ∧ (∀ id m, hb_members (wd_hub w) !! id = Some m → ∃ b, wd_queues w !! mb_outbound m = Some b
      ∧ (reached (reverse ops) t id (mb_gateway m) → after !! mb_outbound m = Some (received (mb_gateway m) frame b))
      ∧ (¬ reached (reverse ops) t id (mb_gateway m) → after !! mb_outbound m = Some b))
  ∧ (∀ q, (∀ id m, hb_members (wd_hub w) !! id = Some m → mb_outbound m ≠ q) → after !! q = wd_queues w !! q).
Proof.
  intros w Ho after. pose proof (follows_after node ops) as Hf. pose proof (queues_apart_after node ops) as Ha. fold w in Hf, Ha.
  split; [|split; [|split]]; [intros; apply Hf..| |].
  - intros id m Hm. destruct (proj1 Ha _ _ Hm) as [b Hb]. exists b. split; [done|]. rewrite <- (addressed_reached w) by done.
    unfold after, Rooms.deliver, received. destruct (read_broadcast frame) as [c|]; [|done].
    assert (He : (id, m) ∈ order) by by rewrite Ho, elem_of_map_to_list.
    pose proof (deliver_member t c (id, m) order (wd_queues w) (order_apart w order Ha Ho) He) as Hd. cbn in Hd. rewrite Hd, Hb. unfold round. cbn.
    by destruct (addressed t id m).
  - intros q Hq. unfold after, Rooms.deliver. destruct (read_broadcast frame) as [c|]; [|done]. apply deliver_others.
    intros [i m]. rewrite Ho, elem_of_map_to_list. apply Hq.
Qed.
End Hub.

(** ** Examples *)

Definition lobby_gateway (path : str) (codec : Codec) : Gateway :=
  {| gw_path := path; gw_namespace := Some (str_of "chat"); gw_field := str_of "event"; gw_codec := codec; gw_controller := 0; gw_limit := Some 2; gw_overflow := DropOldest |}.

Definition conn (n : N) : ConnId := {| ci_node := 7; ci_seq := n |}.

(** Three connections, of two gateways: the first and the third are in the lobby. *)
Definition lobby_ops : list (@HubOp list_events) :=
  [HubRegister (conn 0) (lobby_gateway (str_of "/a") CodecJson); HubRegister (conn 1) (lobby_gateway (str_of "/a") CodecJson);
   HubRegister (conn 2) (lobby_gateway (str_of "/b") CodecJson); HubJoin (conn 0) (str_of "lobby"); HubJoin (conn 1) (str_of "lobby");
   HubJoin (conn 2) (str_of "lobby"); HubLeave (conn 1) (str_of "lobby")].

Definition quoted (s : str) : str := ascii_of_nat 34 :: s ++ [ascii_of_nat 34].

Definition data_of (frame : str) : option Carried := Some {| ca_event := str_of "hi"; ca_data := frame |}.

Definition lobby_world : @World list_events := world_after quoted (λ _, None) data_of 7 lobby_ops.

Definition lobby_but_two : Target := except (broadcast_to (Some (str_of "chat")) (AudienceRoom (str_of "lobby"))) [conn 2].

Definition lobby_order : list (ConnId * Member) := reverse (map_to_list (hb_members (wd_hub lobby_world))).

Definition lobby_after := deliver quoted (λ _, None) data_of lobby_order lobby_but_two (str_of "1") (wd_queues lobby_world).

Lemma rooms_follow_history_example :
  (∃ m b, hb_members (wd_hub lobby_world) !! conn 0 = Some m ∧ wd_queues lobby_world !! mb_outbound m = Some b
     ∧ lobby_after !! mb_outbound m = Some (received quoted (λ _, None) data_of (mb_gateway m) (str_of "1") b))
  ∧ (∃ m b, hb_members (wd_hub lobby_world) !! conn 1 = Some m ∧ wd_queues lobby_world !! mb_outbound m = Some b ∧ lobby_after !! mb_outbound m = Some b)
  ∧ out_queue (ob_state (received quoted (λ _, None) data_of (lobby_gateway (str_of "/a") CodecJson) (str_of "1") (@outbound_new list_events Message)))
    = [MText ("{"%char :: quoted (str_of "event") ++ ":"%char :: quoted (str_of "hi") ++ ","%char :: quoted (str_of "data") ++ str_of ":1}")].
Proof.
  destruct (rooms_follow_history quoted (λ _, None) data_of 7 lobby_ops lobby_but_two (str_of "1") lobby_order (reverse_Permutation _)) as (Hg & _ & Hd & _).
  fold lobby_world in Hg, Hd. fold lobby_after in Hd. split; [|split; [|by vm_compute]].
  - pose proof (Hg (conn 0)) as (m & Hm & E)%fmap_Some. destruct (Hd _ _ Hm) as (b & Hb & Hr & _). exists m, b. split; [done|split; [done|]]. apply Hr.
    unfold reached. rewrite <- E. split; [by vm_compute|split; [by apply (bool_decide_unpack _); vm_compute|]]. split; [intros ? [= <-]; right; by vm_compute|by vm_compute].
  - pose proof (Hg (conn 1)) as (m & Hm & E)%fmap_Some. destruct (Hd _ _ Hm) as (b & Hb & _ & Hr). exists m, b. split; [done|split; [done|]]. apply Hr.
    intros (_ & _ & _ & Hin). by vm_compute in Hin.
Defined.

Definition id_pair (w : WireId) : str * N := (wi_node w, wi_seq w).
Definition pair_id (p : str * N) : WireId := {| wi_node := p.1; wi_seq := p.2 |}.

#[local] Instance wire_id_eq_dec : EqDecision WireId.
Proof. solve_decision. Defined.

#[local] Instance wire_id_countable : Countable WireId.
Proof. apply (inj_countable' id_pair pair_id). by intros []. Defined.

Definition kind_sum (k : AudienceKind) : unit + (str + WireId) := match k with KindAll => inl () | KindRoom r => inr (inl r) | KindClient w => inr (inr w) end.
Definition sum_kind (x : unit + (str + WireId)) : AudienceKind := match x with inl () => KindAll | inr (inl r) => KindRoom r | inr (inr w) => KindClient w end.

(** A stand-in for [serde_json]. *)
#[local] Program Instance binary_json : HeaderJson := {|
  kind_text k := encoded (kind_sum k);
  write_header h := encoded (ho_gateway h, encoded (kind_sum (ho_audience h)), ho_except h);
  read_header s := match (decoded s : option (option str * str * list WireId)) with None => inl [] | Some (g, a, ex) => inr {| hi_gateway := g; hi_audience := a; hi_except := ex |} end;
  read_kind s := match (decoded s : option (unit + (str + WireId))) with None => inl [] | Some x => inr (sum_kind x) end;
  read_named s := match (decoded s : option (unit + (str + WireId))) with None => inl [] | Some x => inr (kind_name (sum_kind x)) end;
|}.
Next Obligation. intros h. apply encoded_no_newline. Qed.
Next Obligation. intros [g a ex] _ _. cbn. by rewrite decoded_encoded. Qed.
Next Obligation. intros k. cbn. rewrite decoded_encoded. by destruct k. Qed.
Next Obligation. intros k _. cbn. rewrite decoded_encoded. by destruct k. Qed.

Lemma broadcast_wire_roundtrip_example :
  decode (encode lobby_but_two (str_of "{}")) = inr (lobby_but_two, str_of "{}")
  ∧ decode (str_of "{}") = inl Unversioned ∧ decode [] = inl (Malformed (str_of "the message is empty")).
Proof.
  assert (H : target_ok lobby_but_two) by (split; [repeat constructor|done]).
  destruct (broadcast_wire_roundtrip lobby_but_two (str_of "{}") H) as (Hr & Hv & _). split; [exact Hr|]. split; [|done].
  exact (Hv "{"%char (str_of "}") ltac:(done)).
Defined.
