(* ===== verification/Turns.v ===== *)
(** * Turns: one more poll for a server's tasks

    [ulo-transport/src/turns.rs]: the futures a server tracks, which its [close] polls once each
    before it aborts them, beside the tasks that run them. Every access to a slot's lock, to its
    [again] flag and to a waker is a step of its own, and a poll of a future is two: where it begins
    and where the future answers. *)

From S2P Require Import Prelude.
Local Open Scope nat_scope.
Local Open Scope list_scope.

(** [Run]. *)
Inductive Run := Running | Done | Panicked.

(** What a poll of user code answers. *)
Inductive Answer := APending | AReady | APanic.

Inductive Holder := ByTask | ByTurn (v : nat).

(** Where [Turn::poll] is: about to lock, in the future's poll, unlocked and about to read [again];
    [once_more] is its variable. A task polls no more once its poll returned [Ready] or unwound, and
    is dropped: the registry's entry first, then what it runs. *)
Inductive TaskAt :=
  | TaskIdle
  | TaskLock (once_more : bool) (waker : nat)
  | TaskPoll (once_more : bool) (waker : nat)
  | TaskAgain (once_more : bool) (waker : nat)
  | TaskEnded
  | TaskUnwound
  | TaskDropping
  | TaskDropped.

(** Where [Slot::turn] is: the two attempts to lock with the store between them, with the lock, in the
    future's poll, unlocked with a waker to wake, and over. *)
Inductive VisitAt := VTry | VSet | VTry2 | VHeld | VPolling | VWake (waker : option nat) | VOver.

(** A turn, how many polls of the future had begun when it started, and whether it gave up because a
    poll made for another turn was under way: one a turn makes, or the second of the task's [poll]. *)
Record Visit := { vs_at : VisitAt; vs_start : nat; vs_crowded : bool }.

(** [Slot] with its [State], the task, the turns given to it, whether the task's last waker was woken
    since, and how many polls of the future have begun. *)
Record Slot := {
  sl_run : Run;
  sl_waker : option nat;
  sl_lock : option Holder;
  sl_again : bool;
  sl_task : TaskAt;
  sl_turns : list Visit;
  sl_woken : bool;
  sl_polls : nat;
}.

Definition slot_new : Slot :=
  {| sl_run := Running; sl_waker := None; sl_lock := None; sl_again := false; sl_task := TaskIdle; sl_turns := []; sl_woken := false; sl_polls := 0 |}.

Definition with_task (s : Slot) (run : Run) (lock : option Holder) (task : TaskAt) : Slot :=
  {| sl_run := run; sl_waker := sl_waker s; sl_lock := lock; sl_again := sl_again s; sl_task := task; sl_turns := sl_turns s; sl_woken := sl_woken s; sl_polls := sl_polls s |}.

(** A poll called with a waker. *)
Definition poll_call (s : Slot) (waker : nat) : option Slot :=
  match sl_task s with
  | TaskIdle =>
      Some {| sl_run := sl_run s; sl_waker := sl_waker s; sl_lock := sl_lock s; sl_again := sl_again s; sl_task := TaskLock true waker;
              sl_turns := sl_turns s; sl_woken := false; sl_polls := sl_polls s |}
  | _ => None
  end.

(** The lock taken: an ended future ends the task, a panic resumed; a running one is polled, the
    waker kept. *)
Definition poll_locked (s : Slot) : option Slot :=
  match sl_task s, sl_lock s with
  | TaskLock once_more waker, None =>
      match sl_run s with
      | Done => Some (with_task s Done None TaskEnded)
      | Panicked => Some (with_task s Done None TaskUnwound)
      | Running =>
          Some {| sl_run := Running; sl_waker := Some waker; sl_lock := Some ByTask; sl_again := sl_again s; sl_task := TaskPoll once_more waker;
                  sl_turns := sl_turns s; sl_woken := sl_woken s; sl_polls := S (sl_polls s) |}
      end
  | _, _ => None
  end.

Definition poll_answer (s : Slot) (answer : Answer) : option Slot :=
  match sl_task s with
  | TaskPoll once_more waker =>
      Some match answer with
           | APending => with_task s (sl_run s) None (TaskAgain once_more waker)
           | AReady => with_task s Done None TaskEnded
           | APanic => with_task s (sl_run s) None TaskUnwound
           end
  | _ => None
  end.

(** [once_more && again.swap(false)]. *)
Definition poll_again (s : Slot) : option Slot :=
  match sl_task s with
  | TaskAgain once_more waker =>
      if once_more then
        Some {| sl_run := sl_run s; sl_waker := sl_waker s; sl_lock := sl_lock s; sl_again := false;
                sl_task := if sl_again s then TaskLock false waker else TaskIdle; sl_turns := sl_turns s; sl_woken := sl_woken s; sl_polls := sl_polls s |}
      else Some (with_task s (sl_run s) (sl_lock s) TaskIdle)
  | _ => None
  end.

(** [Drop for Turn]: the entry of the registry, then, once the lock is free, the future. *)
Definition drop_entry (s : Slot) : option Slot :=
  match sl_task s with TaskIdle | TaskEnded | TaskUnwound => Some (with_task s (sl_run s) (sl_lock s) TaskDropping) | _ => None end.

Definition drop_run (s : Slot) : option Slot :=
  match sl_task s, sl_lock s with TaskDropping, None => Some (with_task s Done None TaskDropped) | _, _ => None end.

(** [Slot::turn]. *)
Definition at_visit (s : Slot) (v : nat) (x : Visit) (run : Run) (lock : option Holder) (again woken : bool) (polls : nat) (to : VisitAt) (crowded : bool) : Slot :=
  {| sl_run := run; sl_waker := sl_waker s; sl_lock := lock; sl_again := again; sl_task := sl_task s;
     sl_turns := <[v := {| vs_at := to; vs_start := vs_start x; vs_crowded := crowded |}]> (sl_turns s); sl_woken := woken; sl_polls := polls |}.

Definition moves (s : Slot) (v : nat) (x : Visit) (lock : option Holder) (again : bool) (to : VisitAt) : Slot :=
  at_visit s v x (sl_run s) lock again (sl_woken s) (sl_polls s) to (vs_crowded x).

Definition made_for_turn (s : Slot) (h : Holder) : bool :=
  match h with ByTurn _ => true | ByTask => match sl_task s with TaskPoll false _ => true | _ => false end end.

Definition turn_step (s : Slot) (v : nat) (x : Visit) (answer : Answer) : option Slot :=
  match vs_at x with
  | VTry => Some (match sl_lock s with None => moves s v x (Some (ByTurn v)) (sl_again s) VHeld | Some h => moves s v x (Some h) (sl_again s) VSet end)
  | VSet => Some (moves s v x (sl_lock s) true VTry2)
  | VTry2 =>
      Some match sl_lock s with
           | None => moves s v x (Some (ByTurn v)) (sl_again s) VHeld
           | Some h => at_visit s v x (sl_run s) (Some h) (sl_again s) (sl_woken s) (sl_polls s) VOver (made_for_turn s h)
           end
  | VHeld =>
      Some match sl_run s with
           | Running => at_visit s v x Running (sl_lock s) false (sl_woken s) (S (sl_polls s)) VPolling (vs_crowded x)
           | _ => moves s v x None false VOver
           end
  | VPolling =>
      Some match answer with
           | APending => moves s v x None (sl_again s) VOver
           | AReady => at_visit s v x Done None (sl_again s) (sl_woken s) (sl_polls s) (VWake (sl_waker s)) (vs_crowded x)
           | APanic => at_visit s v x Panicked None (sl_again s) (sl_woken s) (sl_polls s) (VWake (sl_waker s)) (vs_crowded x)
           end
  | VWake waker =>
      Some (at_visit s v x (sl_run s) (sl_lock s) (sl_again s) (sl_woken s || bool_decide (is_Some waker ∧ waker = sl_waker s)) (sl_polls s) VOver (vs_crowded x))
  | VOver => None
  end.

Inductive SlotEvent :=
  | PollCall (waker : nat)
  | PollLock
  | PollAnswer (answer : Answer)
  | PollAgain
  | DropEntry
  | DropRun
  | TurnStep (v : nat) (answer : Answer).

Definition slot_step (s : Slot) (e : SlotEvent) : option Slot :=
  match e with
  | PollCall waker => poll_call s waker
  | PollLock => poll_locked s
  | PollAnswer answer => poll_answer s answer
  | PollAgain => poll_again s
  | DropEntry => drop_entry s
  | DropRun => drop_run s
  | TurnStep v answer => match sl_turns s !! v with Some x => turn_step s v x answer | None => None end
  end.

(** ** The set *)

(** A [give] under way: the slots it found, with the polls each had begun, those it has yet to
    visit, and the turn it is in. *)
Record Giver := { gv_found : list (nat * nat); gv_left : list (nat * nat); gv_current : option (nat * nat) }.

(** [Turns]: a slot's key is its position, and its entry is there until the task's drop takes it. *)
Record Turns := { tn_slots : list Slot; tn_givers : list Giver }.

Definition turns_new : Turns := {| tn_slots := []; tn_givers := [] |}.

Definition registered (s : Slot) : bool := match sl_task s with TaskDropping | TaskDropped => false | _ => true end.

(** [slots.values().rev().filter_map(Weak::upgrade)]. *)
Definition slots_from_last (slots : list Slot) : list (nat * nat) :=
  reverse (omap (λ ks : nat * Slot, if registered ks.2 then Some (ks.1, sl_polls ks.2) else None) (imap pair slots)).

Definition visiting (slots : list Slot) (at_ : nat * nat) : bool :=
  match slots !! at_.1 with
  | Some s => match sl_turns s !! at_.2 with Some x => match vs_at x with VOver => false | _ => true end | None => false end
  | None => false
  end.

Definition visit_new (s : Slot) : Visit := {| vs_at := VTry; vs_start := sl_polls s; vs_crowded := false |}.

(** The loop of [give]: the next slot, once the turn before is over. *)
Definition give_next (t : Turns) (g : Giver) : option (list Slot * Giver) :=
  if match gv_current g with Some at_ => visiting (tn_slots t) at_ | None => false end then None
  else match gv_left g with
       | [] => None
       | (k, n) :: rest =>
           match tn_slots t !! k with
           | Some s =>
               Some (<[k := {| sl_run := sl_run s; sl_waker := sl_waker s; sl_lock := sl_lock s; sl_again := sl_again s; sl_task := sl_task s;
                               sl_turns := sl_turns s ++ [visit_new s]; sl_woken := sl_woken s; sl_polls := sl_polls s |}]> (tn_slots t),
                     {| gv_found := gv_found g; gv_left := rest; gv_current := Some (k, length (sl_turns s)) |})
           | None => None
           end
       end.

Inductive TurnsEvent := Track | Give | GiveNext (g : nat) | InSlot (k : nat) (e : SlotEvent).

Definition turns_step (t : Turns) (e : TurnsEvent) : option Turns :=
  match e with
  | Track => Some {| tn_slots := tn_slots t ++ [slot_new]; tn_givers := tn_givers t |}
  | Give =>
      let found := slots_from_last (tn_slots t) in
      Some {| tn_slots := tn_slots t; tn_givers := tn_givers t ++ [{| gv_found := found; gv_left := found; gv_current := None |}] |}
  | GiveNext i =>
      match tn_givers t !! i with
      | Some g => match give_next t g with Some (slots, g) => Some {| tn_slots := slots; tn_givers := <[i := g]> (tn_givers t) |} | None => None end
      | None => None
      end
  | InSlot k e =>
      match tn_slots t !! k with
      | Some s => match slot_step s e with Some s => Some {| tn_slots := <[k := s]> (tn_slots t); tn_givers := tn_givers t |} | None => None end
      | None => None
      end
  end.

Inductive turns_reachable : Turns → Prop :=
  | turns_start : turns_reachable turns_new
  | turns_after t e t' : turns_reachable t → turns_step t e = Some t' → turns_reachable t'.

(** ** A turn is not lost *)

(** The future has ended, or the task that runs it polls no more. *)
Definition task_over (s : Slot) : Prop :=
  sl_run s ≠ Running ∨ match sl_task s with TaskEnded | TaskUnwound | TaskDropping | TaskDropped => True | _ => False end.

Definition holds_lock (v : VisitAt) : bool := match v with VHeld | VPolling => true | _ => false end.

Definition past_set (v : VisitAt) : bool := match v with VTry | VSet => false | _ => true end.

(** A poll is about to begin: in the task, or in a turn that has the lock. *)
Definition poll_due (s : Slot) : Prop :=
  match sl_task s with TaskLock _ _ => True | _ => False end ∨ ∃ v x, sl_turns s !! v = Some x ∧ vs_at x = VHeld.

(** A poll has begun since there were [n], or is about to. *)
Definition met (s : Slot) (n : nat) : Prop := n < sl_polls s ∨ task_over s ∨ poll_due s.

(** The task is in a poll after which it reads [again]. *)
Definition reads_again (s : Slot) : Prop := match sl_task s with TaskPoll true _ | TaskAgain true _ => True | _ => False end.

(** What a turn is owed, by where it is. *)
Definition owed (s : Slot) (x : Visit) : Prop :=
  match vs_at x with
  | VTry | VSet | VHeld => True
  | VTry2 => met s (vs_start x) ∨ sl_again s
  | VPolling | VWake _ => vs_start x < sl_polls s
  | VOver => met s (vs_start x) ∨ (sl_again s ∧ reads_again s) ∨ vs_crowded x
  end.

Record slot_inv (s : Slot) : Prop := {
  si_task : sl_lock s = Some ByTask ↔ match sl_task s with TaskPoll _ _ => True | _ => False end;
  si_turn : ∀ v, sl_lock s = Some (ByTurn v) ↔ ∃ x, sl_turns s !! v = Some x ∧ holds_lock (vs_at x);
  si_polling : match sl_task s with TaskPoll _ _ => sl_run s = Running | _ => True end;
  si_start : ∀ v x, sl_turns s !! v = Some x → vs_start x ≤ sl_polls s;
  si_owed : ∀ v x, sl_turns s !! v = Some x → owed s x;
  si_again : sl_again s → ∃ v x, sl_turns s !! v = Some x ∧ past_set (vs_at x);
  si_second : match sl_task s with
              | TaskLock false _ => ∃ v x, sl_turns s !! v = Some x ∧ past_set (vs_at x)
              | TaskPoll false _ | TaskAgain false _ => ∃ v x, sl_turns s !! v = Some x ∧ past_set (vs_at x) ∧ vs_start x < sl_polls s
              | _ => True
              end;
  si_crowded : ∀ v x, sl_turns s !! v = Some x → vs_crowded x → vs_start x < sl_polls s ∨ 2 ≤ length (sl_turns s);
  si_wakes : ∀ v x w, sl_turns s !! v = Some x → vs_at x = VWake w → sl_run s ≠ Running ∧ w = sl_waker s;
  si_woken : sl_run s ≠ Running → match sl_task s with TaskIdle | TaskAgain _ _ => True | _ => False end →
    sl_waker s = None ∨ sl_woken s ∨ ∃ v x, sl_turns s !! v = Some x ∧ vs_at x = VWake (sl_waker s);
}.

Lemma slot_inv_new : slot_inv slot_new.
Proof. by split; cbn; try naive_solver. Qed.

Lemma owed_met s s' x : sl_polls s ≤ sl_polls s' → met s' (vs_start x) → owed s x → owed s' x.
Proof. unfold owed. destruct (vs_at x); intros; auto; lia. Qed.

Lemma owed_kept s s' x : sl_polls s ≤ sl_polls s' → (met s (vs_start x) → met s' (vs_start x)) →
  (sl_again s → met s' (vs_start x) ∨ sl_again s') → (sl_again s → reads_again s → met s' (vs_start x) ∨ (sl_again s' ∧ reads_again s')) → owed s x → owed s' x.
Proof. unfold owed. intros Hp Hm Ha Hr. destruct (vs_at x); auto; [|intros; lia..|]; naive_solver. Qed.

Lemma past_set_there s : (∃ v x, sl_turns s !! v = Some x ∧ past_set (vs_at x)) → (∀ v x, sl_turns s !! v = Some x → vs_start x ≤ sl_polls s) →
  ∃ v x, sl_turns s !! v = Some x ∧ past_set (vs_at x) ∧ vs_start x < S (sl_polls s).
Proof. intros (v & x & Hx & Hp) Hs. exists v, x. specialize (Hs v x Hx). split; [done|split; [done|lia]]. Qed.

(** The fields a step of the task alone has to show: it moves no turn. *)
Lemma slot_inv_moved s s' : slot_inv s → sl_turns s' = sl_turns s → sl_polls s ≤ sl_polls s' →
  (sl_lock s' = Some ByTask ↔ match sl_task s' with TaskPoll _ _ => True | _ => False end) →
  (∀ v, sl_lock s' = Some (ByTurn v) ↔ sl_lock s = Some (ByTurn v)) →
  match sl_task s' with TaskPoll _ _ => sl_run s' = Running | _ => True end →
  (∀ v x, sl_turns s !! v = Some x → owed s' x) → (sl_again s' → sl_again s) →
  match sl_task s' with
  | TaskLock false _ => sl_again s
  | TaskPoll false _ | TaskAgain false _ => ∃ v x, sl_turns s !! v = Some x ∧ past_set (vs_at x) ∧ vs_start x < sl_polls s'
  | _ => True
  end →
  (sl_run s' = sl_run s ∧ sl_waker s' = sl_waker s ∨ (∀ v x w, sl_turns s !! v = Some x → vs_at x ≠ VWake w) ∨ sl_run s' ≠ Running ∧ sl_waker s' = sl_waker s) →
  (sl_run s' ≠ Running → match sl_task s' with TaskIdle | TaskAgain _ _ => True | _ => False end →
    sl_run s ≠ Running ∧ match sl_task s with TaskIdle | TaskAgain _ _ => True | _ => False end ∧ sl_waker s' = sl_waker s ∧ sl_woken s' = sl_woken s) →
  slot_inv s'.
Proof.
  intros [Ht Hv Hg Hs Ho Ha H2 Hcr Hw Hk] Et Hp Ht' Hl Hg' Ho' Ha' H2' Hw' Hk'. split; rewrite ?Et; auto.
  - intros v. by rewrite Hl, Hv.
  - intros v x Hx. specialize (Hs v x Hx). lia.
  - destruct (sl_task s') as [|[] ?|[] ?|[] ?| | | |]; auto.
  - intros v x Hx Hc. destruct (Hcr v x Hx Hc); [left; lia|by right].
  - intros v x w Hx Ex. destruct (Hw v x w Hx Ex) as [Hr ->]. destruct Hw' as [[-> ->]|[Hn|[Hn ->]]]; [done|by destruct (Hn v x _ Hx Ex)|done].
  - intros Hr Htk. destruct (Hk' Hr Htk) as (Hr0 & Ht0 & -> & ->). auto.
Qed.

Lemma not_waking s : slot_inv s → sl_run s = Running → ∀ v x w, sl_turns s !! v = Some x → vs_at x ≠ VWake w.
Proof. intros Hi Hr v x w Hx Ex. by destruct (si_wakes _ Hi v x w Hx Ex). Qed.

Lemma owed_over s s' v x : slot_inv s → sl_turns s !! v = Some x → sl_polls s ≤ sl_polls s' → task_over s' ∨ poll_due s' ∨ sl_polls s < sl_polls s' → owed s' x.
Proof.
  intros Hi Hx Hp Hm. apply (owed_met s); [done| |by eapply si_owed]. pose proof (si_start _ Hi v x Hx). unfold met. destruct Hm as [?|[?|?]]; [tauto..|left; lia].
Qed.

Lemma slot_inv_task s e s' : slot_inv s → match e with TurnStep _ _ => False | _ => True end → slot_step s e = Some s' → slot_inv s'.
Proof.
  intros Hi He. pose proof (si_task _ Hi) as Ht. pose proof (not_waking _ Hi) as Hn. pose proof (si_second _ Hi) as H2. pose proof (si_polling _ Hi) as Hg.
  destruct e; try done; cbn; unfold poll_call, poll_locked, poll_answer, poll_again, drop_entry, drop_run;
    destruct (sl_task s) as [|o w|o w|o w| | | |] eqn:E; try done.
  - intros [= <-]. apply (slot_inv_moved s); cbn; try done; [|by left]. intros v x Hx. apply (owed_over s _ v); cbn; [done..|]. right. left. by left.
  - destruct (sl_lock s) eqn:El; [done|]. destruct (sl_run s) eqn:Er; intros [= <-]; apply (slot_inv_moved s); cbn; rewrite ?El; try done; try lia.
    + intros v x Hx. apply (owed_over s _ v); cbn; [done|done|lia|]. right. right. lia.
    + destruct o; [done|]. by apply past_set_there; [|apply si_start].
    + right. left. by apply Hn.
    + intros v x Hx. apply (owed_over s _ v); cbn; [done..|]. left. by left.
    + right. by right.
    + intros v x Hx. apply (owed_over s _ v); cbn; [done..|]. left. by left.
    + right. by right.
  - assert (El : sl_lock s = Some ByTask) by by apply Ht. destruct answer; intros [= <-]; apply (slot_inv_moved s); cbn; rewrite ?El; try done.
    + intros v x Hx. apply (owed_kept s); cbn; [done..| | | |by eapply si_owed]; unfold met, task_over, poll_due, reads_again; cbn; rewrite ?E; auto.
    + by left.
    + intros v x Hx. apply (owed_over s _ v); cbn; [done..|]. left. by left.
    + right. by right.
    + intros v x Hx. apply (owed_over s _ v); cbn; [done..|]. left. by right.
    + by left.
  - destruct o; intros [= <-]; apply (slot_inv_moved s); cbn; try done; try (by destruct (sl_again s)).
    + intros v x Hx. destruct (sl_again s) eqn:Ea.
      * apply (owed_over s _ v); cbn; [done..|]. right. left. by left.
      * apply (owed_kept s); cbn; [done..| | | |by eapply si_owed]; unfold met, task_over, poll_due, reads_again; cbn; rewrite ?E, ?Ea; done || tauto.
    + by left.
    + intros Hr Hk. by rewrite E.
    + intros v x Hx. apply (owed_kept s); cbn; [done..| | | |by eapply si_owed]; unfold met, task_over, poll_due, reads_again; cbn; rewrite ?E; done || tauto.
    + by left.
    + intros Hr _. by rewrite E.
  - intros [= <-]. apply (slot_inv_moved s); cbn; try done; [|by left]. intros v x Hx. apply (owed_over s _ v); cbn; [done..|]. left. by right.
  - intros [= <-]. apply (slot_inv_moved s); cbn; try done; [|by left]. intros v x Hx. apply (owed_over s _ v); cbn; [done..|]. left. by right.
  - intros [= <-]. apply (slot_inv_moved s); cbn; try done; [|by left]. intros v x Hx. apply (owed_over s _ v); cbn; [done..|]. left. by right.
  - destruct (sl_lock s) eqn:El; [done|]. intros [= <-]. apply (slot_inv_moved s); cbn; rewrite ?El; try done.
    + intros v x Hx. apply (owed_over s _ v); cbn; [done..|]. left. by left.
    + right. by right.
Qed.

(** *** The steps of a turn *)

Lemma insert_any (P : Visit → Prop) (l : list Visit) v x y : l !! v = Some x → (P x → P y) → (∃ u z, l !! u = Some z ∧ P z) → ∃ u z, <[v := y]> l !! u = Some z ∧ P z.
Proof.
  intros Hx HP (u & z & Hz & Hp). destruct (decide (u = v)) as [->|Hne]; [exists v, y|exists u, z].
  - rewrite list_lookup_insert_eq by (by eapply lookup_lt_Some). naive_solver.
  - by rewrite list_lookup_insert_ne.
Qed.

Lemma insert_all (P : Visit → Prop) (l : list Visit) v (y : Visit) : (∀ u z, l !! u = Some z → P z) → P y → ∀ u z, <[v := y]> l !! u = Some z → P z.
Proof. intros Hl Hy u z [(<- & <- & _)|(_ & Hz)]%list_lookup_insert_Some; eauto. Qed.

(** The fields a step of one turn has to show. *)
Lemma slot_inv_visit s v x run lock again woken polls to crowded (s' := at_visit s v x run lock again woken polls to crowded) :
  slot_inv s → sl_turns s !! v = Some x → sl_polls s ≤ polls → (past_set (vs_at x) → past_set to) →
  (lock = Some ByTask ↔ sl_lock s = Some ByTask) → (∀ u, lock = Some (ByTurn u) ↔ (u = v ∧ holds_lock to) ∨ (u ≠ v ∧ sl_lock s = Some (ByTurn u))) →
  (run = sl_run s ∨ holds_lock (vs_at x) ∧ run ≠ Running) →
  (∀ u y, sl_turns s !! u = Some y → owed s' y) → owed s' {| vs_at := to; vs_start := vs_start x; vs_crowded := crowded |} →
  (again → sl_again s ∨ past_set to) → (crowded → vs_start x < polls ∨ 2 ≤ length (sl_turns s)) →
  (∀ w, to = VWake w → run ≠ Running ∧ w = sl_waker s) →
  (run ≠ Running → to = VWake (sl_waker s) ∨ (sl_run s ≠ Running ∧ (sl_woken s → woken) ∧ (vs_at x = VWake (sl_waker s) → sl_waker s = None ∨ woken))) →
  slot_inv s'.
Proof.
  intros Hi Hx Hp Hpast Ht Hv Hr Ho Hown Ha Hcr Hw Hk. pose proof (insert_any (λ z, past_set (vs_at z)) _ v x {| vs_at := to; vs_start := vs_start x; vs_crowded := crowded |} Hx Hpast) as Hany.
  assert (Hnp : holds_lock (vs_at x) → match sl_task s with TaskPoll _ _ => False | _ => True end).
  { intros Hh. assert (Hl : sl_lock s = Some (ByTurn v)) by (apply (si_turn _ Hi); eauto). pose proof (si_task _ Hi) as Hl'. destruct (sl_task s); try done.
    rewrite Hl in Hl'. discriminate (proj2 Hl' I). }
  split; cbn.
  - rewrite Ht. apply Hi.
  - intros u. rewrite Hv, (si_turn _ Hi u). split.
    + intros [[-> Hh]|[Hne (z & Hz & Hh)]]; [exists {| vs_at := to; vs_start := vs_start x; vs_crowded := crowded |}|exists z].
      * by rewrite list_lookup_insert_eq by (by eapply lookup_lt_Some).
      * by rewrite list_lookup_insert_ne.
    + intros (z & [(<- & <- & _)|(Hne & Hz)]%list_lookup_insert_Some & Hh); [by left|right; eauto].
  - pose proof (si_polling _ Hi). destruct (sl_task s); try done. destruct Hr as [->|[Hh _]]; [done|by destruct (Hnp Hh)].
  - apply (insert_all (λ z, vs_start z ≤ polls)); [|cbn]; [intros u z Hz; pose proof (si_start _ Hi u z Hz)|pose proof (si_start _ Hi v x Hx)]; lia.
  - by apply insert_all.
  - intros H. destruct (Ha H) as [H'|Hto]; [by apply Hany, (si_again _ Hi)|]. exists v, {| vs_at := to; vs_start := vs_start x; vs_crowded := crowded |}. by rewrite list_lookup_insert_eq by (by eapply lookup_lt_Some).
  - pose proof (si_second _ Hi) as H2. destruct (sl_task s) as [|[] ?|[] ?|[] ?| | | |]; auto.
    all: apply (insert_any (λ z, past_set (vs_at z) ∧ vs_start z < polls) _ v x); [done|cbn; tauto|]; destruct H2 as (u & z & Hz & Hz1 & Hz2); exists u, z; (split; [done|split; [done|lia]]).
  - intros u z Hz Hc. rewrite length_insert. apply list_lookup_insert_Some in Hz as [(<- & <- & _)|(_ & Hz)]; [by apply Hcr|].
    destruct (si_crowded _ Hi u z Hz Hc); [left; lia|by right].
  - intros u z w [(<- & <- & _)|(Hne & Hz)]%list_lookup_insert_Some; [apply Hw|]. intros Ez. destruct (si_wakes _ Hi u z w Hz Ez) as [Hrun ->].
    split; [|done]. destruct Hr as [->|[_ Hr]]; done.
  - intros Hrun Htask. destruct (Hk Hrun) as [->|(Hrs & Hwo & Hxw)].
    + right. right. exists v, {| vs_at := VWake (sl_waker s); vs_start := vs_start x; vs_crowded := crowded |}. by rewrite list_lookup_insert_eq by (by eapply lookup_lt_Some).
    + destruct (si_woken _ Hi Hrs Htask) as [?|[?|(u & z & Hz & Ez)]]; [by left|right; left; auto|]. destruct (decide (u = v)) as [->|Hne].
      * simplify_eq. destruct (Hxw Ez) as [?|?]; [by left|by right; left].
      * right. right. exists u, z. by rewrite list_lookup_insert_ne.
Qed.

(** A turn that neither holds the lock nor takes it leaves what the others are owed. *)
Lemma owed_others s v x lock (again woken : bool) to crowded u y : slot_inv s → sl_turns s !! v = Some x → vs_at x ≠ VHeld → (sl_again s → again) → sl_turns s !! u = Some y →
  owed (at_visit s v x (sl_run s) lock again woken (sl_polls s) to crowded) y.
Proof.
  intros Hi Hx Hne Ha Hy. assert (Hm : met s (vs_start y) → met (at_visit s v x (sl_run s) lock again woken (sl_polls s) to crowded) (vs_start y)).
  { unfold met, task_over, poll_due. cbn. intros [?|[?|[?|Hd]]]; [tauto..|]. right. right. right. by apply (insert_any (λ z, vs_at z = VHeld) _ v x). }
  apply (owed_kept s); cbn; auto. by eapply si_owed.
Qed.

(** A turn that gave up because the future was being polled. *)
Lemma owed_gave_up s v x h : slot_inv s → sl_turns s !! v = Some x → vs_at x = VTry2 → sl_lock s = Some h →
  met s (vs_start x) ∨ (sl_again s ∧ reads_again s) ∨ made_for_turn s h.
Proof.
  intros Hi Hx Ex Hl. pose proof (si_owed _ Hi v x Hx) as Ho. unfold owed in Ho. rewrite Ex in Ho. destruct Ho as [Ho|Ho]; [by left|]. destruct h as [|u]; [|by right; right].
  pose proof (proj1 (si_task _ Hi) Hl) as Ht. unfold reads_again, made_for_turn. destruct (sl_task s) as [| |[] w| | | | |]; try done; [by right; left|by right; right].
Qed.

(** The poll it found was made for another turn, or has begun since. *)
Lemma crowded_by_another s v x h : slot_inv s → sl_turns s !! v = Some x → vs_at x = VTry2 → sl_lock s = Some h → made_for_turn s h →
  vs_start x < sl_polls s ∨ 2 ≤ length (sl_turns s).
Proof.
  intros Hi Hx Ex Hl Hm. assert (Htwo : ∀ u y, sl_turns s !! u = Some y → u ≠ v → 2 ≤ length (sl_turns s)).
  { intros u y Hy%lookup_lt_Some Hne. apply lookup_lt_Some in Hx. lia. }
  destruct h as [|u].
  - pose proof (si_second _ Hi) as H2. cbn in Hm. destruct (sl_task s) as [| |[] w| | | | |]; try done. destruct H2 as (u & y & Hy & _ & Hlt).
    destruct (decide (u = v)) as [->|Hne]; [|right; by eapply Htwo]. left. by simplify_eq.
  - apply (si_turn _ Hi) in Hl as (y & Hy & Hh). right. apply (Htwo u y Hy). intros ->. simplify_eq. by rewrite Ex in Hh.
Qed.

(** Who holds the lock after a turn that did not hold it moved on without it, or with it. *)
Lemma lock_kept s v x to u : slot_inv s → sl_turns s !! v = Some x → holds_lock (vs_at x) = false → holds_lock to = false →
  sl_lock s = Some (ByTurn u) ↔ (u = v ∧ holds_lock to) ∨ (u ≠ v ∧ sl_lock s = Some (ByTurn u)).
Proof.
  intros Hi Hx Hh ->. split; [|by intros [[_ []]|[_ ?]]]. intros Hl. right. split; [|done]. intros ->.
  apply (si_turn _ Hi) in Hl as (y & Hy & Hy'). simplify_eq. by rewrite Hh in Hy'.
Qed.

Lemma lock_freed s v x to u : slot_inv s → sl_turns s !! v = Some x → holds_lock (vs_at x) → holds_lock to = false →
  None = Some (ByTurn u) ↔ (u = v ∧ holds_lock to) ∨ (u ≠ v ∧ sl_lock s = Some (ByTurn u)).
Proof.
  intros Hi Hx Hh ->. split; [done|]. assert (Hl : sl_lock s = Some (ByTurn v)) by (apply (si_turn _ Hi); eauto). rewrite Hl. by intros [[_ []]|[Hne [= ->]]].
Qed.

Lemma slot_inv_turn s v x answer s' : slot_inv s → sl_turns s !! v = Some x → turn_step s v x answer = Some s' → slot_inv s'.
Proof.
  intros Hi Hx. assert (Hh : holds_lock (vs_at x) → sl_lock s = Some (ByTurn v)) by (intros; apply (si_turn _ Hi); eauto).
  pose proof (si_start _ Hi v x Hx) as Hs. pose proof (si_crowded _ Hi v x Hx) as Hcr. pose proof (si_owed _ Hi v x Hx) as Ho. pose proof (λ w, si_wakes _ Hi v x w Hx) as Hw.
  unfold turn_step. destruct (vs_at x) as [| | | | |w|] eqn:Ex; [| | | | | |done]; intros [= <-].
  - destruct (sl_lock s) as [h|] eqn:El; (apply slot_inv_visit; rewrite ?Ex, ?El; auto; try done).
    + intros u. rewrite <- El. by apply (lock_kept s v x); rewrite ?Ex.
    + intros u y. apply owed_others; [done|done|by rewrite Ex|done].
    + naive_solver.
    + intros u. naive_solver.
    + intros u y. apply owed_others; [done|done|by rewrite Ex|done].
    + naive_solver.
  - apply slot_inv_visit; rewrite ?Ex; auto; try done.
    + intros u. by apply (lock_kept s v x); rewrite ?Ex.
    + intros u y. apply owed_others; [done|done|by rewrite Ex|done].
    + by right.
    + naive_solver.
  - destruct (sl_lock s) as [h|] eqn:El; (apply slot_inv_visit; rewrite ?Ex, ?El; auto; try done).
    + intros u. rewrite <- El. by apply (lock_kept s v x); rewrite ?Ex.
    + intros u y. apply owed_others; [done|done|by rewrite Ex|done].
    + unfold owed. cbn. destruct (owed_gave_up s v x h Hi Hx Ex El) as [[?|[?|[?|Hd]]]|?]; [| | | |by right]; left; unfold met, task_over, poll_due; cbn; [tauto..|].
      right. right. right. apply (insert_any (λ z, vs_at z = VHeld) _ v x); [done|by rewrite Ex|done].
    + intros Hm. by apply (crowded_by_another s v x h).
    + naive_solver.
    + intros u. naive_solver.
    + intros u y. apply owed_others; [done|done|by rewrite Ex|done].
    + naive_solver.
  - destruct (sl_run s) eqn:Er; (apply slot_inv_visit; rewrite ?Ex, ?Er; auto; try done); try lia.
    + intros u. rewrite Hh by done. naive_solver.
    + intros u y Hy. apply (owed_over s _ u); cbn; [done|done|lia|]. right. right. lia.
    + unfold owed. cbn. lia.
    + rewrite Hh by done. done.
    + intros u. by apply (lock_freed s v x); rewrite ?Ex.
    + intros u y Hy. apply (owed_over s _ u); cbn; [done|done|lia|]. left. left. cbn. congruence.
    + unfold owed. cbn. left. right. left. left. cbn. congruence.
    + naive_solver.
    + rewrite Hh by done. done.
    + intros u. by apply (lock_freed s v x); rewrite ?Ex.
    + intros u y Hy. apply (owed_over s _ u); cbn; [done|done|lia|]. left. left. cbn. congruence.
    + unfold owed. cbn. left. right. left. left. cbn. congruence.
    + naive_solver.
  - unfold owed in Ho. rewrite Ex in Ho. destruct answer; (apply slot_inv_visit; rewrite ?Ex; auto; try done); try (by rewrite Hh by done); try (by intros u; apply (lock_freed s v x); rewrite ?Ex).
    + intros u y. apply owed_others; [done|done|by rewrite Ex|done].
    + unfold owed. cbn. left. by left.
    + naive_solver.
    + intros u y Hy. apply (owed_over s _ u); cbn; [done|done|lia|]. left. by left.
    + naive_solver.
    + intros u y Hy. apply (owed_over s _ u); cbn; [done|done|lia|]. left. by left.
    + naive_solver.
  - unfold owed in Ho. rewrite Ex in Ho. destruct (Hw w eq_refl) as [Hr ->]. apply slot_inv_visit; rewrite ?Ex; auto; try done.
    + intros u. by apply (lock_kept s v x); rewrite ?Ex.
    + intros u y. apply owed_others; [done|done|by rewrite Ex|done].
    + unfold owed. cbn. left. by left.
    + intros _. right. split; [done|]. split; [by destruct (sl_woken s)|]. intros _. destruct (sl_waker s); [right|by left]. apply orb_True. right. by apply bool_decide_pack.
Qed.

Lemma slot_inv_step s e s' : slot_inv s → slot_step s e = Some s' → slot_inv s'.
Proof.
  intros Hi. destruct e; try (by apply slot_inv_task). cbn. destruct (sl_turns s !! v) as [x|] eqn:Hx; [|done]. by apply slot_inv_turn.
Qed.

(** ** The set of turns *)

(** A turn stays over, and where it started. *)
Definition continues (x y : Visit) : Prop := vs_start y = vs_start x ∧ (vs_at x = VOver → vs_at y = VOver).

Lemma continues_refl l : Forall2 continues l l.
Proof. induction l; constructor; [by split|done]. Qed.

Lemma slot_step_turns s e s' : slot_step s e = Some s' → sl_polls s ≤ sl_polls s' ∧ Forall2 continues (sl_turns s) (sl_turns s').
Proof.
  destruct e; cbn; unfold poll_call, poll_locked, poll_answer, poll_again, drop_entry, drop_run.
  1-6: intros H; repeat case_match; simplify_eq; cbn; (split; [lia|apply continues_refl]).
  destruct (sl_turns s !! v) as [x|] eqn:Hx; [|done]. unfold turn_step. intros H.
  assert (Hins : ∀ to crowded, vs_at x ≠ VOver → Forall2 continues (sl_turns s) (<[v := {| vs_at := to; vs_start := vs_start x; vs_crowded := crowded |}]> (sl_turns s))).
  { intros to crowded Hne. rewrite <- (list_insert_id (sl_turns s) v x Hx) at 1. apply Forall2_insert; [apply continues_refl|by split]. }
  destruct (vs_at x) eqn:Ex; simplify_eq; repeat case_match; cbn; (split; [lia|]); by apply Hins.
Qed.

Definition given (s : Slot) : Slot :=
  {| sl_run := sl_run s; sl_waker := sl_waker s; sl_lock := sl_lock s; sl_again := sl_again s; sl_task := sl_task s;
     sl_turns := sl_turns s ++ [visit_new s]; sl_woken := sl_woken s; sl_polls := sl_polls s |}.

Lemma given_any (P : Visit → Prop) l y : (∃ u z, l !! u = Some z ∧ P z) → ∃ u z, (l ++ [y]) !! u = Some z ∧ P z.
Proof. intros (u & z & Hz & Hp). exists u, z. by rewrite lookup_app_l_Some with (1 := Hz). Qed.

Lemma slot_inv_given s : slot_inv s → slot_inv (given s).
Proof.
  intros Hi. assert (Hnew : ∀ u x, (sl_turns s ++ [visit_new s]) !! u = Some x → sl_turns s !! u = Some x ∨ x = visit_new s).
  { intros u x [Hx|[_ Hx]]%lookup_app_Some; [by left|]. apply list_lookup_singleton_Some in Hx as [_ <-]. by right. }
  split; cbn; try apply Hi.
  - intros v. rewrite (si_turn _ Hi). split; intros (x & Hx & Hh); exists x; (split; [|done]); [by apply lookup_app_l_Some|]. destruct (Hnew v x Hx) as [?| ->]; done.
  - intros v x [Hx| ->]%Hnew; [by eapply Hi|done].
  - intros v x [Hx| ->]%Hnew; [|done]. pose proof (si_owed _ Hi v x Hx) as Ho. pose proof (lookup_lt_Some _ _ _ Hx). unfold owed in *. cbn.
    assert (Hm : met s (vs_start x) → met (given s) (vs_start x)).
    { unfold met, task_over, poll_due. cbn. intros [?|[?|[?|Hd]]]; [tauto..|]. right. right. right. by apply (given_any (λ z, vs_at z = VHeld)). }
    destruct (vs_at x); try done; naive_solver.
  - intros Ha. apply (given_any (λ z, past_set (vs_at z))). by apply Hi.
  - pose proof (si_second _ Hi) as H2. destruct (sl_task s) as [|[] ?|[] ?|[] ?| | | |]; try done.
    + by apply (given_any (λ z, past_set (vs_at z))).
    + by apply (given_any (λ z, past_set (vs_at z) ∧ vs_start z < sl_polls s)).
    + by apply (given_any (λ z, past_set (vs_at z) ∧ vs_start z < sl_polls s)).
  - intros v x [Hx| ->]%Hnew; [|done]. intros Hc. rewrite length_app. cbn. destruct (si_crowded _ Hi v x Hx Hc); [by left|right; lia].
  - intros v x w [Hx| ->]%Hnew; [by eapply si_wakes|done].
  - intros Hr Ht. destruct (si_woken _ Hi Hr Ht) as [?|[?|Hw]]; [by left|by right; left|]. right. right. by apply (given_any (λ z, vs_at z = VWake (sl_waker s))).
Qed.

Lemma slots_inv t : turns_reachable t → ∀ k s, tn_slots t !! k = Some s → slot_inv s.
Proof.
  induction 1 as [|t e t' _ IH He]; [done|]. destruct e as [| |i|k e]; cbn in He.
  - injection He as <-. cbn. intros k s [Hs|[_ Hs]]%lookup_app_Some; [by eapply IH|]. apply list_lookup_singleton_Some in Hs as [_ <-]. apply slot_inv_new.
  - by injection He as <-.
  - destruct (tn_givers t !! i) as [g|]; [|done]. destruct (give_next t g) as [[slots g']|] eqn:En; [|done]. injection He as <-. cbn. unfold give_next in En.
    destruct (match gv_current g with Some at_ => _ | None => false end); [done|]. destruct (gv_left g) as [|[k n] rest]; [done|].
    destruct (tn_slots t !! k) as [s0|] eqn:Es; [|done]. injection En as <- _. intros j s [(<- & <- & _)|(_ & Hs)]%list_lookup_insert_Some; [|by eapply IH].
    by apply slot_inv_given, (IH k).
  - destruct (tn_slots t !! k) as [s0|] eqn:Es; [|done]. destruct (slot_step s0 e) as [s1|] eqn:E1; [|done]. injection He as <-. cbn.
    intros j s [(<- & <- & _)|(_ & Hs)]%list_lookup_insert_Some; [|by eapply IH]. eapply slot_inv_step; [|exact E1]. by eapply IH.
Qed.

(** The slots a give found, in the order it visits them. *)
Lemma slots_from_last_exact slots k n : (k, n) ∈ slots_from_last slots ↔ ∃ s, slots !! k = Some s ∧ registered s ∧ n = sl_polls s.
Proof.
  unfold slots_from_last. rewrite elem_of_reverse, list_elem_of_omap. split.
  - intros ([j s] & Hin & E). apply elem_of_lookup_imap in Hin as (i & s' & [= -> ->] & Hs). cbn in E. destruct (registered s') eqn:R; [|done]. injection E as <- <-. exists s'. by rewrite R.
  - intros (s & Hs & R & ->). exists (k, s). split; [apply elem_of_lookup_imap; by exists k, s|]. cbn. by destruct (registered s).
Qed.

Lemma slots_from_last_sorted slots : StronglySorted (λ a b : nat * nat, b.1 < a.1) (slots_from_last slots).
Proof.
  induction slots as [|s slots IH] using rev_ind; [constructor|]. unfold slots_from_last in *. rewrite imap_app, omap_app, reverse_app. cbn.
  destruct (registered s); cbn; [|done]. constructor; [done|]. apply Forall_forall. intros [j n]. rewrite elem_of_reverse, list_elem_of_omap.
  intros ([i s'] & Hin & E). apply elem_of_lookup_imap in Hin as (i' & s'' & [= -> ->] & Hs). cbn in E. destruct (registered s''); [|done]. injection E as <- <-. cbn.
  rewrite Nat.add_0_r. by eapply lookup_lt_Some.
Qed.

(** A give among slots that have had no other: those it has visited have had its turn, which is over
    but for the one it is in, and those left have had none. *)
Definition giver_inv (slots : list Slot) (g : Giver) : Prop :=
  StronglySorted (λ a b : nat * nat, b.1 < a.1) (gv_found g)
  ∧ ∃ visited, gv_found g = visited ++ gv_left g
    ∧ (∀ k n, (k, n) ∈ visited → ∃ s x, slots !! k = Some s ∧ sl_turns s = [x] ∧ n ≤ vs_start x ∧ (vs_at x = VOver ∨ gv_current g = Some (k, 0)))
    ∧ (∀ k n, (k, n) ∈ gv_left g → ∃ s, slots !! k = Some s ∧ sl_turns s = [] ∧ n ≤ sl_polls s).

Definition one_give (t : Turns) : Prop :=
  match tn_givers t with
  | [] => ∀ k s, tn_slots t !! k = Some s → sl_turns s = []
  | [g] => giver_inv (tn_slots t) g
  | _ => True
  end.

(** Slots that move on, and new ones, keep it. *)
Lemma giver_inv_kept slots slots' g :
  (∀ k s, slots !! k = Some s → ∃ s', slots' !! k = Some s' ∧ sl_polls s ≤ sl_polls s' ∧ Forall2 continues (sl_turns s) (sl_turns s')) →
  giver_inv slots g → giver_inv slots' g.
Proof.
  intros Hk (Hs & visited & Hf & Hv & Hl). split; [done|]. exists visited. split; [done|]. split.
  - intros k n Hin. destruct (Hv k n Hin) as (s & x & Es & Et & Hn & Hat). destruct (Hk k s Es) as (s' & Es' & _ & Hc). rewrite Et in Hc.
    inversion Hc as [|? y ? l [Hy1 Hy2] Hnil Ea Eb]; subst. inversion Hnil; subst. exists s', y. rewrite Hy1. split; [done|split; [done|split; [done|]]]. naive_solver.
  - intros k n Hin. destruct (Hl k n Hin) as (s & Es & Et & Hn). destruct (Hk k s Es) as (s' & Es' & Hp & Hc). rewrite Et in Hc. inversion Hc. exists s'. split; [done|split; [done|lia]].
Qed.

Lemma giver_inv_next t g slots g' : giver_inv (tn_slots t) g → give_next t g = Some (slots, g') → giver_inv slots g'.
Proof.
  intros (Hs & visited & Hf & Hv & Hl). unfold give_next.
  destruct (match gv_current g with Some at_ => visiting (tn_slots t) at_ | None => false end) eqn:Hc; [done|]. destruct (gv_left g) as [|[k n] rest] eqn:El; [done|].
  destruct (Hl k n ltac:(constructor)) as (s & Es & Et & Hn). rewrite Es. intros [= <- <-]. split; [done|]. exists (visited ++ [(k, n)]). cbn.
  assert (Hne : ∀ j m, (j, m) ∈ visited ∨ (j, m) ∈ rest → k ≠ j).
  { rewrite Hf in Hs. apply StronglySorted_app in Hs as (Hlt & _ & Hr). inversion Hr as [|? ? _ Hall]; subst. intros j m [Hj|Hj] ->.
    - specialize (Hlt _ _ Hj (list_elem_of_here _ _)). cbn in Hlt. lia.
    - rewrite Forall_forall in Hall. specialize (Hall _ Hj). cbn in Hall. lia. }
  split; [by rewrite Hf, <- app_assoc|]. split.
  - intros j m [Hj|Hj]%elem_of_app.
    + destruct (Hv j m Hj) as (s' & x & Es' & Et' & Hm & Hat). exists s', x. rewrite list_lookup_insert_ne by (apply (Hne j m); by left). split; [done|split; [done|split; [done|]]].
      left. destruct Hat as [Hat|Hat]; [done|]. rewrite Hat in Hc. unfold visiting in Hc. cbn in Hc. rewrite Es', Et' in Hc. cbn in Hc. by destruct (vs_at x).
    + apply list_elem_of_singleton in Hj as [= -> ->]. exists (given s), (visit_new s). rewrite list_lookup_insert_eq by (by eapply lookup_lt_Some).
      split; [done|]. cbn. rewrite Et. by split; [|split; [|right]].
  - intros j m Hj. destruct (Hl j m ltac:(by constructor)) as (s' & Es' & Hs'). exists s'. by rewrite list_lookup_insert_ne by (apply (Hne j m); by right).
Qed.

Lemma one_give_step t e t' : one_give t → turns_step t e = Some t' → one_give t'.
Proof.
  unfold one_give. intros Hi He. destruct e as [| |i|k e]; cbn in He.
  - injection He as <-. cbn. destruct (tn_givers t) as [|g [|]]; [| |done].
    + intros k s [Hs|[_ Hs]]%lookup_app_Some; [by eapply Hi|]. by apply list_lookup_singleton_Some in Hs as [_ <-].
    + eapply giver_inv_kept; [|exact Hi]. intros k s Hs. exists s. split; [by apply lookup_app_l_Some|]. split; [lia|apply continues_refl].
  - injection He as <-. cbn. destruct (tn_givers t) as [|g [|]]; [|done..]. cbn. split; [apply slots_from_last_sorted|]. exists []. split; [done|]. split; [by intros ?? ?%not_elem_of_nil|].
    intros k n (s & Hs & _ & ->)%slots_from_last_exact. exists s. split; [done|]. split; [by eapply Hi|lia].
  - destruct (tn_givers t !! i) as [g|] eqn:Eg; [|done]. destruct (give_next t g) as [[slots g']|] eqn:En; [|done]. injection He as <-. cbn.
    destruct (tn_givers t) as [|g0 [|]]; [done| |by destruct i as [|[|]]]. destruct i as [|i]; [|done]. injection Eg as ->. cbn. by eapply giver_inv_next.
  - destruct (tn_slots t !! k) as [s|] eqn:Es; [|done]. destruct (slot_step s e) as [s'|] eqn:E; [|done]. injection He as <-. cbn. apply slot_step_turns in E as [Hp Hc].
    destruct (tn_givers t) as [|g [|]]; [| |done].
    + intros j x [(<- & <- & _)|(_ & Hx)]%list_lookup_insert_Some; [|by eapply Hi]. rewrite (Hi k s Es) in Hc. by inversion Hc.
    + eapply giver_inv_kept; [|exact Hi]. intros j x Hx. destruct (decide (j = k)) as [->|Hne].
      * simplify_eq. exists s'. by rewrite list_lookup_insert_eq by (by eapply lookup_lt_Some).
      * exists x. rewrite list_lookup_insert_ne by done. split; [done|]. split; [lia|apply continues_refl].
Qed.

Lemma one_give_reachable t : turns_reachable t → one_give t.
Proof. induction 1 as [|t e t' _ IH He]; [by intros k s|]. by eapply one_give_step. Qed.

(** ** Any number of gives *)

(** Each slot a give has visited has had its turn, which is over but for the one it is in. *)
Record visited_inv (slots : list Slot) (g : Giver) : Prop := {
  vi_sorted : StronglySorted (λ a b : nat * nat, b.1 < a.1) (gv_found g);
  vi_visited : ∃ visited, gv_found g = visited ++ gv_left g
    ∧ ∀ k n, (k, n) ∈ visited → ∃ s v x, slots !! k = Some s ∧ sl_turns s !! v = Some x ∧ n ≤ vs_start x ∧ (vs_at x = VOver ∨ gv_current g = Some (k, v));
  vi_left : ∀ k n, (k, n) ∈ gv_left g → ∃ s, slots !! k = Some s ∧ n ≤ sl_polls s;
}.

(** A slot later: its turns went on, and there may be more. *)
Definition later_slot (s s' : Slot) : Prop :=
  sl_polls s ≤ sl_polls s' ∧ ∀ v x, sl_turns s !! v = Some x → ∃ y, sl_turns s' !! v = Some y ∧ continues x y.

Lemma polls_later_refl s : later_slot s s.
Proof. split; [done|]. intros v x Hx. exists x. by split. Qed.

Lemma visited_inv_kept slots slots' g : (∀ k s, slots !! k = Some s → ∃ s', slots' !! k = Some s' ∧ later_slot s s') → visited_inv slots g → visited_inv slots' g.
Proof.
  intros Hk [Hs (visited & Hf & Hv) Hl]. split; [done|exists visited; split; [done|]|].
  - intros k n Hin. destruct (Hv k n Hin) as (s & v & x & Es & Ex & Hn & Hat). destruct (Hk k s Es) as (s' & Es' & _ & Hc). destruct (Hc v x Ex) as (y & Ey & Hy1 & Hy2).
    exists s', v, y. rewrite Hy1. split; [done|split; [done|split; [done|]]]. naive_solver.
  - intros k n Hin. destruct (Hl k n Hin) as (s & Es & Hn). destruct (Hk k s Es) as (s' & Es' & Hp & _). exists s'. split; [done|lia].
Qed.

Lemma given_later s : later_slot s (given s).
Proof. split; [done|]. intros v x Hx. exists x. split; [by apply lookup_app_l_Some|by split]. Qed.

Lemma give_next_slots t g slots g' : give_next t g = Some (slots, g') →
  (match gv_current g with Some at_ => visiting (tn_slots t) at_ | None => false end) = false
  ∧ ∃ k n rest s, gv_left g = (k, n) :: rest ∧ tn_slots t !! k = Some s ∧ slots = <[k := given s]> (tn_slots t)
    ∧ g' = {| gv_found := gv_found g; gv_left := rest; gv_current := Some (k, length (sl_turns s)) |}.
Proof.
  unfold give_next. destruct (match gv_current g with Some at_ => _ | None => false end); [done|]. split; [done|].
  destruct (gv_left g) as [|[k n] rest]; [done|]. destruct (tn_slots t !! k) as [s|] eqn:Es; [|done]. injection H as <- <-. by exists k, n, rest, s.
Qed.

Lemma visited_inv_next t g slots g' : visited_inv (tn_slots t) g → give_next t g = Some (slots, g') → visited_inv slots g'.
Proof.
  intros Hi (Hc & k & n & rest & s & El & Es & -> & ->)%give_next_slots.
  assert (Hlater : ∀ j x, tn_slots t !! j = Some x → ∃ x', <[k := given s]> (tn_slots t) !! j = Some x' ∧ later_slot x x').
  { intros j x Hx. destruct (decide (k = j)) as [<-|Hne].
    - simplify_eq. exists (given s). split; [|apply given_later]. by rewrite list_lookup_insert_eq by (by eapply lookup_lt_Some).
    - exists x. rewrite list_lookup_insert_ne by done. split; [done|apply polls_later_refl]. }
  pose proof (visited_inv_kept _ _ _ Hlater Hi) as [_ (visited & Hf & Hv) Hl']. destruct Hi as [Hs (visited0 & Hf0 & Hv0) Hl].
  assert (visited0 = visited) as -> by (rewrite Hf in Hf0; by apply app_inv_tail in Hf0). split; cbn; [done| |].
  - exists (visited ++ [(k, n)]). split; [by rewrite Hf, El, <- app_assoc|]. intros j m [Hj|Hj]%elem_of_app.
    + destruct (Hv j m Hj) as (s' & v & x & Es' & Ex & Hm & _), (Hv0 j m Hj) as (s0 & v0 & x0 & Es0 & Ex0 & Hm0 & Hat). clear s' v x Es' Ex Hm.
      destruct (Hlater j s0 Es0) as (s' & Es' & _ & Hcont). destruct (Hcont v0 x0 Ex0) as (y & Ey & Hy1 & Hy2). exists s', v0, y. rewrite Hy1.
      split; [done|split; [done|split; [done|]]]. left. apply Hy2. destruct Hat as [Hat|Hat]; [done|]. rewrite Hat in Hc. unfold visiting in Hc. cbn in Hc. rewrite Es0, Ex0 in Hc. by destruct (vs_at x0).
    + apply list_elem_of_singleton in Hj as [= -> ->]. exists (given s), (length (sl_turns s)), (visit_new s). rewrite list_lookup_insert_eq by (by eapply lookup_lt_Some).
      split; [done|]. cbn. rewrite lookup_app_r, Nat.sub_diag by lia. split; [done|]. split; [|by right].
      destruct (Hl k n) as (s' & Es' & Hn); [rewrite El; constructor|]. by simplify_eq.
  - intros j m Hj. apply Hl'. rewrite El. by right.
Qed.

Lemma givers_visit t : turns_reachable t → ∀ i g, tn_givers t !! i = Some g → visited_inv (tn_slots t) g.
Proof.
  induction 1 as [|t e t' Hr IH He]; [done|]. destruct e as [| |i|k e]; cbn in He.
  - injection He as <-. cbn. intros i g Hg. eapply visited_inv_kept; [|by eapply IH]. intros k s Hs. exists s. split; [by apply lookup_app_l_Some|apply polls_later_refl].
  - injection He as <-. cbn. intros i g [Hg|[_ Hg]]%lookup_app_Some; [by eapply IH|]. apply list_lookup_singleton_Some in Hg as [_ <-]. split; cbn.
    + apply slots_from_last_sorted.
    + exists []. split; [done|]. by intros ?? ?%not_elem_of_nil.
    + intros k n (s & Hs & _ & ->)%slots_from_last_exact. by exists s.
  - destruct (tn_givers t !! i) as [g0|] eqn:Eg; [|done]. destruct (give_next t g0) as [[slots g']|] eqn:En; [|done]. injection He as <-. cbn.
    intros j g [(<- & <- & _)|(_ & Hg)]%list_lookup_insert_Some; [by eapply visited_inv_next; [by eapply IH|]|].
    eapply visited_inv_kept; [|by eapply IH]. apply give_next_slots in En as (_ & k & n & rest & s & _ & Es & -> & _). intros m x Hx. destruct (decide (k = m)) as [<-|Hne].
    + simplify_eq. exists (given s). split; [by rewrite list_lookup_insert_eq by (by eapply lookup_lt_Some)|apply given_later].
    + exists x. rewrite list_lookup_insert_ne by done. split; [done|apply polls_later_refl].
  - destruct (tn_slots t !! k) as [s|] eqn:Es; [|done]. destruct (slot_step s e) as [s'|] eqn:E; [|done]. injection He as <-. cbn. apply slot_step_turns in E as [Hp Hc].
    intros i g Hg. eapply visited_inv_kept; [|by eapply IH]. intros j x Hx. destruct (decide (k = j)) as [<-|Hne].
    + simplify_eq. exists s'. split; [by rewrite list_lookup_insert_eq by (by eapply lookup_lt_Some)|]. split; [done|]. intros v y Hy. by eapply Forall2_lookup_l in Hc.
    + exists x. rewrite list_lookup_insert_ne by done. split; [done|apply polls_later_refl].
Qed.

(** The task is in no poll, and no turn is polling. *)
Definition quiet (s : Slot) : Prop := sl_lock s = None ∧ match sl_task s with TaskLock _ _ | TaskPoll _ _ | TaskAgain _ _ => False | _ => True end.

Lemma turn_met s v x : slot_inv s → sl_turns s !! v = Some x → vs_at x = VOver → quiet s →
  vs_start x < sl_polls s ∨ task_over s ∨ (vs_crowded x ∧ 2 ≤ length (sl_turns s)).
Proof.
  intros Hi Hx Ex [Hl Hq]. pose proof (si_owed _ Hi v x Hx) as Ho. unfold owed in Ho. rewrite Ex in Ho.
  destruct Ho as [[?|[?|[Hd|(u & y & Hy & Ey)]]]|[[_ Hr]|Hc]]; [by left|by right; left|by destruct (sl_task s)| |unfold reads_again in Hr; by destruct (sl_task s)|].
  - assert (Hv : sl_lock s = Some (ByTurn u)) by (apply (si_turn _ Hi); exists y; by rewrite Ey). congruence.
  - destruct (si_crowded _ Hi v x Hx Hc); [by left|by right; right].
Qed.

(** A [give] has returned: every slot it found is visited and its last turn is over. *)
Definition returned (t : Turns) (g : Giver) : Prop :=
  gv_left g = [] ∧ ∀ at_, gv_current g = Some at_ → visiting (tn_slots t) at_ = false.

(** C21: what [give] promises, whatever the tasks and other gives do meanwhile. It finds every tracked
    task, the latest first, and never waits: each step of a turn can be taken whoever holds the
    lock. Once a give has returned, every future it found that is not being polled then was polled
    once more since the give began, or has ended, or its task polls no more; or the turn gave up
    because a poll of the future made for another give's turn was under way, which needs two turns
    of one slot. So for a server that gives its turns once there is no exception. A future that
    ended in a turn has its task woken, or about to be, unless the task was never polled. *)
Theorem turns_given t : turns_reachable t →
  (∀ k n, (k, n) ∈ slots_from_last (tn_slots t) ↔ ∃ s, tn_slots t !! k = Some s ∧ registered s ∧ n = sl_polls s)
  ∧ (∀ k s v x answer, tn_slots t !! k = Some s → sl_turns s !! v = Some x → vs_at x ≠ VOver → is_Some (turns_step t (InSlot k (TurnStep v answer))))
  ∧ (∀ i g, tn_givers t !! i = Some g → StronglySorted (λ a b : nat * nat, b.1 < a.1) (gv_found g)
      ∧ (returned t g → ∀ k n, (k, n) ∈ gv_found g → ∃ s v x, tn_slots t !! k = Some s ∧ sl_turns s !! v = Some x ∧ vs_at x = VOver ∧ n ≤ vs_start x
         ∧ (quiet s → n < sl_polls s ∨ task_over s ∨ (vs_crowded x ∧ 2 ≤ length (sl_turns s)))))
  ∧ (∀ g, tn_givers t = [g] → returned t g → ∀ k n, (k, n) ∈ gv_found g → ∃ s, tn_slots t !! k = Some s ∧ (quiet s → n < sl_polls s ∨ task_over s))
  ∧ (∀ k s, tn_slots t !! k = Some s → sl_run s ≠ Running → sl_task s = TaskIdle →
      sl_waker s = None ∨ sl_woken s ∨ ∃ v x, sl_turns s !! v = Some x ∧ vs_at x = VWake (sl_waker s)).
Proof.
  intros Ht. split; [intros; apply slots_from_last_exact|]. split; [|split; [|split]].
  - intros k s v x answer Hs Hx Hne. cbn. rewrite Hs, Hx. unfold turn_step. destruct (vs_at x); [by eauto..|done].
  - intros i g Hg. destruct (givers_visit t Ht i g Hg) as [Hs (visited & Hf & Hv) _]. split; [done|]. intros [El Hc] k n. rewrite Hf, El, app_nil_r. intros Hin.
    destruct (Hv k n Hin) as (s & v & x & Es & Ex & Hn & Hat). assert (Hover : vs_at x = VOver).
    { destruct Hat as [?|Hat]; [done|]. specialize (Hc _ Hat). unfold visiting in Hc. cbn in Hc. rewrite Es, Ex in Hc. by destruct (vs_at x). }
    exists s, v, x. split_and!; [done..|]. intros Hq. destruct (turn_met s v x (slots_inv t Ht k s Es) Ex Hover Hq) as [?|?]; [left; lia|by right].
  - intros g Eg [El Hc] k n Hin. pose proof (one_give_reachable t Ht) as Hg. unfold one_give in Hg. rewrite Eg in Hg. destruct Hg as (_ & visited & Hf & Hv & _).
    rewrite Hf, El, app_nil_r in Hin. destruct (Hv k n Hin) as (s & x & Es & Et & Hn & Hat). exists s. split; [done|]. intros Hq. assert (Ex : sl_turns s !! 0 = Some x) by by rewrite Et.
    assert (Hover : vs_at x = VOver). { destruct Hat as [?|Hat]; [done|]. specialize (Hc _ Hat). unfold visiting in Hc. cbn in Hc. rewrite Es, Ex in Hc. by destruct (vs_at x). }
    destruct (turn_met s 0 x (slots_inv t Ht k s Es) Ex Hover Hq) as [?|[?|[_ H2]]]; [left; lia|by right|]. rewrite Et in H2. cbn in H2. lia.
  - intros k s Hs Hr Hi. apply (si_woken _ (slots_inv t Ht k s Hs)); [done|]. by rewrite Hi.
Qed.

(** ** An example *)

Fixpoint turns_run (t : Turns) (es : list TurnsEvent) : option Turns :=
  match es with [] => Some t | e :: es => match turns_step t e with Some t => turns_run t es | None => None end end.

Lemma turns_run_reachable es : ∀ t t', turns_reachable t → turns_run t es = Some t' → turns_reachable t'.
Proof.
  induction es as [|e es IH]; cbn; intros t t' Ht; [by intros [= <-]|]. destruct (turns_step t e) as [t1|] eqn:E; [|done]. apply IH. by apply (turns_after t e).
Qed.

(** A connection is being polled when its server closes: the turn of its call, tracked after it, ends
    the call, the connection's own turn does not wait for the poll, and the task polls it once more. *)
Definition closing : list TurnsEvent :=
  [Track; Track; InSlot 0 (PollCall 7); InSlot 0 PollLock; Give; GiveNext 0]
  ++ (InSlot 1 ∘ TurnStep 0 <$> [AReady; AReady; AReady; AReady])
  ++ [GiveNext 0] ++ (InSlot 0 ∘ TurnStep 0 <$> [APending; APending; APending])
  ++ (InSlot 0 <$> [PollAnswer APending; PollAgain; PollLock; PollAnswer APending; PollAgain]).

Definition closed_turns : Turns := Eval vm_compute in default turns_new (turns_run turns_new closing).

Lemma closed_reachable : turns_reachable closed_turns.
Proof. apply (turns_run_reachable closing turns_new); [constructor|]. vm_compute. reflexivity. Qed.

Lemma turns_given_example : (∃ s, tn_slots closed_turns !! 0 = Some s ∧ quiet s ∧ (1 < sl_polls s ∨ task_over s)) ∧ (∃ s, tn_slots closed_turns !! 1 = Some s ∧ task_over s).
Proof.
  destruct (turns_given closed_turns closed_reachable) as (_ & _ & _ & Hg & _).
  assert (H' : ∀ k n, (k, n) ∈ [(1, 0); (0, 1)] → ∃ s, tn_slots closed_turns !! k = Some s ∧ (quiet s → n < sl_polls s ∨ task_over s)).
  { apply (Hg {| gv_found := [(1, 0); (0, 1)]; gv_left := []; gv_current := Some (0, 0) |} eq_refl). split; [done|]. by intros at_ [= <-]. }
  split.
  - destruct (H' 0 1) as (s & Hs & Hq); [by right; left|]. exists s. vm_compute in Hs. injection Hs as <-. by split; [|split; [split|apply Hq; split]].
  - destruct (H' 1 0) as (s & Hs & Hq); [by left|]. exists s. vm_compute in Hs. injection Hs as <-. split; [done|]. by left.
Defined.

(** Two gives: the second finds the task in the poll made for the first one's turn, sets [again] and
    gives up; that poll is the last of the task's [poll], which returns without reading [again], so
    the future is not polled for the second give. *)
Definition crowding : list TurnsEvent :=
  [Track; InSlot 0 (PollCall 7); InSlot 0 PollLock; Give; GiveNext 0] ++ (InSlot 0 ∘ TurnStep 0 <$> [APending; APending; APending])
  ++ (InSlot 0 <$> [PollAnswer APending; PollAgain; PollLock]) ++ [Give; GiveNext 1] ++ (InSlot 0 ∘ TurnStep 1 <$> [APending; APending; APending])
  ++ (InSlot 0 <$> [PollAnswer APending; PollAgain]).

Definition crowded_turns : Turns := Eval vm_compute in default turns_new (turns_run turns_new crowding).

Example second_give_unmet : turns_reachable crowded_turns
  ∧ ∃ g s, tn_givers crowded_turns !! 1 = Some g ∧ returned crowded_turns g ∧ gv_found g = [(0, 2)]
    ∧ tn_slots crowded_turns !! 0 = Some s ∧ quiet s ∧ sl_polls s = 2 ∧ ¬ task_over s ∧ sl_again s = true.
Proof.
  split; [apply (turns_run_reachable crowding turns_new); [constructor|]; vm_compute; reflexivity|].
  eexists _, _. split; [reflexivity|]. split; [split; [reflexivity|by intros at_ [= <-]]|]. split; [reflexivity|]. split; [reflexivity|].
  split; [by split|]. split; [reflexivity|]. split; [by intros [?|[]]|reflexivity].
Qed.
