(* ===== verification/Frames.v ===== *)
(** * Frames: the RPC frame grammar and its codecs

    [ulo-rpc/src/frame.rs] and [codec.rs], with the error details of [ulo-transport/src/details.rs]
    and the kinds of [error.rs]. A frame is written as a map and read back through the fields it may
    have; serde and the JSON and CBOR crates under it are classes with the behaviour the code
    relies on. The readers serde derives take a sequence of the fields too; no frame is written as
    one, and that form is not modelled. *)

From S2P Require Import Prelude Text.
Local Open Scope nat_scope.
Local Open Scope list_scope.

(** ** Kinds of errors *)

Inductive ErrorKind :=
  | BadRequest | Unauthorized | Forbidden | NotFound | Conflict | Unprocessable | TooManyRequests | Timeout | Unavailable | Unimplemented | Internal.

Definition kind_as_str (k : ErrorKind) : str :=
  str_of match k with
         | BadRequest => "bad_request" | Unauthorized => "unauthorized" | Forbidden => "forbidden" | NotFound => "not_found" | Conflict => "conflict"
         | Unprocessable => "unprocessable" | TooManyRequests => "too_many_requests" | Timeout => "timeout" | Unavailable => "unavailable"
         | Unimplemented => "unimplemented" | Internal => "internal"
         end.

Definition kind_from_wire (kind : str) : ErrorKind :=
  if bool_decide (kind = str_of "bad_request") then BadRequest
  else if bool_decide (kind = str_of "unauthorized") then Unauthorized
  else if bool_decide (kind = str_of "forbidden") then Forbidden
  else if bool_decide (kind = str_of "not_found") then NotFound
  else if bool_decide (kind = str_of "conflict") then Conflict
  else if bool_decide (kind = str_of "unprocessable") then Unprocessable
  else if bool_decide (kind = str_of "too_many_requests") then TooManyRequests
  else if bool_decide (kind = str_of "timeout") then Timeout
  else if bool_decide (kind = str_of "unavailable") then Unavailable
  else if bool_decide (kind = str_of "unimplemented") then Unimplemented
  else Internal.

(** ** Details *)

(** [serde_json::Value]: an object's members are found by name and listed in an order of its own. *)
Class JsonValue := {
  J : Type;
  json_null : J;
  json_str : str → J;
  json_num : N → J;
  json_arr : list J → J;
  json_obj : list (str * J) → J;
  json_get : J → str → option J;
  as_str : J → option str;
  as_u64 : J → option N;
  as_array : J → option (list J);
  as_object : J → option (list (str * J));
  str_as_str : ∀ s, as_str (json_str s) = Some s;
  num_as_u64 : ∀ n, (n < 2 ^ 64)%N → as_u64 (json_num n) = Some n;
  arr_as_array : ∀ l, as_array (json_arr l) = Some l;
  obj_as_object : ∀ l, NoDup l.*1 → ∃ l', as_object (json_obj l) = Some l' ∧ l' ≡ₚ l;
  obj_get : ∀ l k v, NoDup l.*1 → (k, v) ∈ l → json_get (json_obj l) k = Some v;
}.

Record FieldViolation := { fv_field : str; fv_description : str }.
Record Link := { lk_description : str; lk_url : str }.

(** A [Duration]: whole seconds, a [u64], and nanoseconds under one second. *)
Record Duration := { du_secs : N; du_nanos : N }.

Inductive Detail `{JsonValue} :=
  | FieldViolations (violations : list FieldViolation)
  | ErrorInfo (reason domain : str) (metadata : gmap str str)
  | RetryAfter (after : Duration)
  | Help (links : list Link)
  | DetailJson (value : J).

(** [saturating_add]. *)
Definition whole_seconds (after : Duration) : N :=
  let rounded_up := if bool_decide (0 < du_nanos after)%N then 1%N else 0%N in N.min (du_secs after + rounded_up) (2 ^ 64 - 1).

Section Details.
Context {json : JsonValue}.

(** Details as a value: what reading one finds. *)
Definition pair_json (first second : str * str) : J := json_obj [(first.1, json_str first.2); (second.1, json_str second.2)].

Definition violation_json (v : FieldViolation) : J := pair_json (str_of "field", fv_field v) (str_of "description", fv_description v).
Definition link_json (l : Link) : J := pair_json (str_of "description", lk_description l) (str_of "url", lk_url l).

(** The entries of a [BTreeMap<String, String>], in order. *)
Definition metadata_entries (metadata : gmap str str) : list (str * str) :=
  merge_sort (λ a b : str * str, Is_true (str_leb a.1 b.1)) (map_to_list metadata).

Definition detail_json (d : Detail) : J :=
  match d with
  | FieldViolations violations => json_obj [(str_of "type", json_str (str_of "field_violations")); (str_of "violations", json_arr (violation_json <$> violations))]
  | ErrorInfo reason domain metadata =>
      json_obj [(str_of "type", json_str (str_of "error_info")); (str_of "reason", json_str reason); (str_of "domain", json_str domain);
                (str_of "metadata", json_obj (prod_map id json_str <$> metadata_entries metadata))]
  | RetryAfter after => json_obj [(str_of "type", json_str (str_of "retry_after")); (str_of "seconds", json_num (whole_seconds after))]
  | Help links => json_obj [(str_of "type", json_str (str_of "help")); (str_of "links", json_arr (link_json <$> links))]
  | DetailJson value => json_obj [(str_of "type", json_str (str_of "json")); (str_of "value", value)]
  end.

Definition details_json (details : list Detail) : J := json_arr (detail_json <$> details).

(** The closures [text] and [list] of [detail_from]. *)
Definition text_of (value : J) (key : str) : str := default [] (json_get value key ≫= as_str).
Definition list_of (value : J) (key : str) : list J := default [] (json_get value key ≫= as_array).

Definition metadata_of (entry : J) : gmap str str :=
  match json_get entry (str_of "metadata") ≫= as_object with
  | Some object => list_to_map (omap (λ kv : str * J, (λ v, (kv.1, v)) <$> as_str kv.2) object)
  | None => ∅
  end.

Definition detail_from (entry : J) : Detail :=
  match json_get entry (str_of "type") ≫= as_str with
  | Some tag =>
      if bool_decide (tag = str_of "field_violations") then
        FieldViolations ((λ v, {| fv_field := text_of v (str_of "field"); fv_description := text_of v (str_of "description") |}) <$> list_of entry (str_of "violations"))
      else if bool_decide (tag = str_of "error_info") then ErrorInfo (text_of entry (str_of "reason")) (text_of entry (str_of "domain")) (metadata_of entry)
      else if bool_decide (tag = str_of "retry_after") then RetryAfter {| du_secs := default 0%N (json_get entry (str_of "seconds") ≫= as_u64); du_nanos := 0 |}
      else if bool_decide (tag = str_of "help") then
        Help ((λ l, {| lk_description := text_of l (str_of "description"); lk_url := text_of l (str_of "url") |}) <$> list_of entry (str_of "links"))
      else if bool_decide (tag = str_of "json") then DetailJson (default json_null (json_get entry (str_of "value")))
      else DetailJson entry
  | None => DetailJson entry
  end.

Definition details_from (value : J) : list Detail := match as_array value with Some entries => detail_from <$> entries | None => [] end.

(** [Details::retry_after]. *)
Definition retry_after (details : list Detail) : option Duration := head (omap (λ d, match d with RetryAfter after => Some after | _ => None end) details).
End Details.

(** ** Frames *)

Section Frames.
Context {json : JsonValue}.

Record ErrorBody := { eb_kind : ErrorKind; eb_message : str; eb_details : list Detail }.

(** [CallHeaders]: the entries in order, a name as often as it was given. *)
Definition CallHeaders : Type := list (str * str).

Definition header_get (headers : CallHeaders) (name : str) : option str := snd <$> find (λ h, bool_decide (h.1 = name)) headers.

Inductive Frame :=
  | Req (id : N) (pattern : str) (headers : CallHeaders) (data : str)
  | Evt (pattern : str) (headers : CallHeaders) (data : str)
  | Res (id : N) (data : str)
  | Err (id : N) (error : ErrorBody)
  | Item (id : N) (data : str)
  | End_ (id : N)
  | Open (id : N) (pattern : str) (headers : CallHeaders)
  | In_ (id : N) (data : str)
  | InEnd (id : N)
  | Cancel (id : N)
  | Credit (id n : N)
  | Goaway.

Definition frame_kind (f : Frame) : str :=
  str_of match f with
         | Req _ _ _ _ => "req" | Evt _ _ _ => "evt" | Res _ _ => "res" | Err _ _ => "err" | Item _ _ => "item" | End_ _ => "end" | Open _ _ _ => "open"
         | In_ _ _ => "in" | InEnd _ => "in_end" | Cancel _ => "cancel" | Credit _ _ => "credit" | Goaway => "goaway"
         end.

Definition frame_id (f : Frame) : option N :=
  match f with
  | Req id _ _ _ | Res id _ | Err id _ | Item id _ | End_ id | Open id _ _ | In_ id _ | InEnd id | Cancel id | Credit id _ => Some id
  | Evt _ _ _ | Goaway => None
  end.

Definition frame_data (f : Frame) : option str :=
  match f with Req _ _ _ data | Evt _ _ data | Res _ data | Item _ data | In_ _ data => Some data | _ => None end.

(** [ErrorIn]. *)
Record ErrorIn := { ei_kind : str; ei_message : str; ei_details : J }.

Definition into_body (e : ErrorIn) : ErrorBody := {| eb_kind := kind_from_wire (ei_kind e); eb_message := ei_message e; eb_details := details_from (ei_details e) |}.

(** A codec: a payload's item ([RawValue] or [ciborium::Value]), what serde writes for a value, and
    the document, a map. A map is written under a length declared first, which CBOR reads by. A
    value is read as a text, a number, the entries of a map in order, or a [serde_json::Value],
    which keeps all but the last bits of a float. *)
Class FrameCodec := {
  PayloadItem : Type;
  item_of : str → option PayloadItem;
  item_bytes : PayloadItem → str;
  Raw : Type;
  raw_text : str → Raw;
  raw_num : N → Raw;
  raw_map : nat → list (str * Raw) → Raw;
  raw_seq : list Raw → Raw;
  raw_json : J → Raw;
  raw_item : PayloadItem → Raw;
  raw_null : Raw → bool;
  read_text : Raw → option str;
  read_num : Raw → option N;
  read_map : Raw → option (list (str * Raw));
  read_json : Raw → option J;
  read_item : Raw → option PayloadItem;
  write_doc : nat → list (str * Raw) → str;
  read_doc : str → option (list (str * Raw));
  json_exact : J → Prop;
  item_read_back : ∀ i, item_of (item_bytes i) = Some i;
  item_not_empty : ∀ i, item_bytes i ≠ [];
  text_read_back : ∀ s, raw_null (raw_text s) = false ∧ read_text (raw_text s) = Some s;
  num_read_back : ∀ n, (n < 2 ^ 64)%N → raw_null (raw_num n) = false ∧ read_num (raw_num n) = Some n;
  map_read_back : ∀ entries, raw_null (raw_map (length entries) entries) = false ∧ read_map (raw_map (length entries) entries) = Some entries;
  raw_item_read_back : ∀ i, raw_null (raw_item i) = false → read_item (raw_item i) = Some i;
  json_of_text : ∀ s, read_json (raw_text s) = Some (json_str s);
  json_of_num : ∀ n, (n < 2 ^ 64)%N → read_json (raw_num n) = Some (json_num n);
  json_of_seq : ∀ l, read_json (raw_seq l) = json_arr <$> mapM read_json l;
  json_of_map : ∀ entries, NoDup entries.*1 → read_json (raw_map (length entries) entries) = json_obj <$> mapM (λ e : str * Raw, pair e.1 <$> read_json e.2) entries;
  json_read_back : ∀ j, json_exact j → read_json (raw_json j) = Some j;
  doc_read_back : ∀ entries, read_doc (write_doc (length entries) entries) = Some entries;
}.
End Frames.

Section Codec.
Context {json : JsonValue} {codec : FrameCodec}.

(** ** Writing *)

(** [Pair]. *)
Definition pair_out (first second : str * str) : Raw := raw_map 2 [(first.1, raw_text first.2); (second.1, raw_text second.2)].

(** [Violations] and [Links]. *)
Definition violations_out (violations : list FieldViolation) : Raw :=
  raw_seq ((λ v, pair_out (str_of "field", fv_field v) (str_of "description", fv_description v)) <$> violations).
Definition links_out (links : list Link) : Raw :=
  raw_seq ((λ l, pair_out (str_of "description", lk_description l) (str_of "url", lk_url l)) <$> links).

(** [TaggedDetail]. *)
Definition detail_out (d : Detail) : Raw :=
  match d with
  | FieldViolations violations => raw_map 2 [(str_of "type", raw_text (str_of "field_violations")); (str_of "violations", violations_out violations)]
  | ErrorInfo reason domain metadata =>
      raw_map 4 [(str_of "type", raw_text (str_of "error_info")); (str_of "reason", raw_text reason); (str_of "domain", raw_text domain);
                 (str_of "metadata", raw_map (size metadata) (prod_map id raw_text <$> metadata_entries metadata))]
  | RetryAfter after => raw_map 2 [(str_of "type", raw_text (str_of "retry_after")); (str_of "seconds", raw_num (whole_seconds after))]
  | Help links => raw_map 2 [(str_of "type", raw_text (str_of "help")); (str_of "links", links_out links)]
  | DetailJson value => raw_map 2 [(str_of "type", raw_text (str_of "json")); (str_of "value", raw_json value)]
  end.

(** [Serialize for Details]. *)
Definition details_out (details : list Detail) : Raw := raw_seq (detail_out <$> details).

(** [HeadersOut]. *)
Definition headers_out (headers : CallHeaders) : Raw := raw_map (length headers) (prod_map id raw_text <$> headers).

(** [ErrorOut]. *)
Definition error_out (error : ErrorBody) : Raw :=
  raw_map 3 [(str_of "kind", raw_text (kind_as_str (eb_kind error))); (str_of "message", raw_text (eb_message error)); (str_of "details", details_out (eb_details error))].

(** [Wire]: the members of a frame, in order, and the length it declares. *)
Definition frame_entries (f : Frame) (d : option PayloadItem) : list (str * Raw) :=
  (str_of "t", raw_text (frame_kind f))
  :: match f with
     | Req id pattern headers _ | Open id pattern headers => [(str_of "id", raw_num id); (str_of "p", raw_text pattern); (str_of "h", headers_out headers)]
     | Evt pattern headers _ => [(str_of "p", raw_text pattern); (str_of "h", headers_out headers)]
     | Res id _ | Item id _ | In_ id _ => [(str_of "id", raw_num id)]
     | Err id error => [(str_of "id", raw_num id); (str_of "e", error_out error)]
     | Credit id n => [(str_of "id", raw_num id); (str_of "n", raw_num n)]
     | End_ id | InEnd id | Cancel id => [(str_of "id", raw_num id)]
     | Goaway => []
     end
  ++ match d with Some d => [(str_of "d", raw_item d)] | None => [] end.

Definition declared_len (f : Frame) (d : option PayloadItem) : nat :=
  let d := match d with Some _ => 1 | None => 0 end in
  1 + match f with
      | Req _ _ _ _ | Open _ _ _ => 3 + d
      | Evt _ _ _ => 2 + d
      | Res _ _ | Item _ _ | In_ _ _ => 1 + d
      | Err _ _ | Credit _ _ => 2
      | End_ _ | InEnd _ | Cancel _ => 1
      | Goaway => 0
      end.

(** [write_frame]: [None] is [FrameUnencodable]. *)
Definition encode_frame (f : Frame) : option str :=
  match frame_data f with
  | Some (c :: data) =>
      match item_of (c :: data) with
      | Some d => Some (write_doc (declared_len f (Some d)) (frame_entries f (Some d)))
      | None => None
      end
  | _ => Some (write_doc (declared_len f None) (frame_entries f None))
  end.

(** ** Reading *)

(** [WireIn]. *)
Record WireIn := {
  in_t : str; in_id : option N; in_p : option str; in_h : option CallHeaders; in_d : option PayloadItem; in_e : option ErrorIn; in_n : option N;
}.

(** A member by name: [None] for one that comes twice, which serde refuses. *)
Definition entry_named (name : str) (entries : list (str * Raw)) : option (option Raw) :=
  match filter (λ e, e.1 = name) entries with [] => Some None | [e] => Some (Some e.2) | _ => None end.

(** A member of type [Option<T>], [None] when it is missing or null. *)
Definition opt_member {A} (read : Raw → option A) (name : str) (entries : list (str * Raw)) : option (option A) :=
  match entry_named name entries with
  | Some (Some r) => if raw_null r then Some None else Some <$> read r
  | Some None => Some None
  | None => None
  end.

(** [HeadersIn]: a map's entries in order, or none of a null. *)
Definition headers_in (r : Raw) : option CallHeaders :=
  if raw_null r then Some [] else entries ← read_map r; mapM (λ e : str * Raw, pair e.1 <$> read_text e.2) entries.

(** A member that is [serde(default)]. *)
Definition member_or {A} (read : Raw → option A) (missing : A) (name : str) (entries : list (str * Raw)) : option A :=
  match entry_named name entries with Some (Some r) => read r | Some None => Some missing | None => None end.

(** [ErrorIn]'s [Deserialize]. *)
Definition error_in (r : Raw) : option ErrorIn :=
  entries ← read_map r;
  match entry_named (str_of "kind") entries with
  | Some (Some kind) =>
      kind ← read_text kind;
      message ← member_or read_text [] (str_of "message") entries;
      details ← member_or read_json json_null (str_of "details") entries;
      Some {| ei_kind := kind; ei_message := message; ei_details := details |}
  | _ => None
  end.

Definition wire_in (entries : list (str * Raw)) : option WireIn :=
  match entry_named (str_of "t") entries with
  | Some (Some t) =>
      t ← read_text t;
      id ← opt_member read_num (str_of "id") entries;
      p ← opt_member read_text (str_of "p") entries;
      h ← opt_member headers_in (str_of "h") entries;
      d ← opt_member read_item (str_of "d") entries;
      e ← opt_member error_in (str_of "e") entries;
      n ← opt_member read_num (str_of "n") entries;
      Some {| in_t := t; in_id := id; in_p := p; in_h := h; in_d := d; in_e := e; in_n := n |}
  | _ => None
  end.

Inductive FrameError := Unreadable | Lacks (kind field : str) | NotAKind (kind : str).

Definition required_field {A B} (kind field : str) (x : option A) (k : A → FrameError + B) : FrameError + B :=
  match x with Some x => k x | None => inl (Lacks kind field) end.

Definition into_frame (w : WireIn) : FrameError + Frame :=
  let kind := in_t w in
  let id := required_field (B := Frame) kind (str_of "id") (in_id w) in
  let pattern := required_field (B := Frame) kind (str_of "p") (in_p w) in
  let headers := default [] (in_h w) in
  let data := match in_d w with Some d => item_bytes d | None => [] end in
  if bool_decide (kind = str_of "req") then id (λ id, pattern (λ p, inr (Req id p headers data)))
  else if bool_decide (kind = str_of "evt") then pattern (λ p, inr (Evt p headers data))
  else if bool_decide (kind = str_of "res") then id (λ id, inr (Res id data))
  else if bool_decide (kind = str_of "err") then id (λ id, required_field kind (str_of "e") (in_e w) (λ e, inr (Err id (into_body e))))
  else if bool_decide (kind = str_of "item") then id (λ id, inr (Item id data))
  else if bool_decide (kind = str_of "end") then id (λ id, inr (End_ id))
  else if bool_decide (kind = str_of "open") then id (λ id, pattern (λ p, inr (Open id p headers)))
  else if bool_decide (kind = str_of "in") then id (λ id, inr (In_ id data))
  else if bool_decide (kind = str_of "in_end") then id (λ id, inr (InEnd id))
  else if bool_decide (kind = str_of "cancel") then id (λ id, inr (Cancel id))
  else if bool_decide (kind = str_of "credit") then id (λ id, required_field kind (str_of "n") (in_n w) (λ n, inr (Credit id n)))
  else if bool_decide (kind = str_of "goaway") then inr Goaway
  else inl (NotAKind kind).

Definition decode_frame (bytes : str) : FrameError + Frame :=
  match read_doc bytes ≫= wire_in with Some w => into_frame w | None => inl Unreadable end.

(** ** What is read back *)

Definition whole (d : Detail) : Detail := match d with RetryAfter after => RetryAfter {| du_secs := whole_seconds after; du_nanos := 0 |} | d => d end.

(** A payload as it comes back: its item written again, and nothing for an empty one or a null. *)
Definition carried_data (data : str) : str :=
  match data with
  | [] => []
  | _ => match item_of data with Some d => if raw_null (raw_item d) then [] else item_bytes d | None => data end
  end.

Definition carried_frame (f : Frame) : Frame :=
  match f with
  | Req id p h data => Req id p h (carried_data data)
  | Evt p h data => Evt p h (carried_data data)
  | Res id data => Res id (carried_data data)
  | Item id data => Item id (carried_data data)
  | In_ id data => In_ id (carried_data data)
  | Err id error => Err id {| eb_kind := eb_kind error; eb_message := eb_message error; eb_details := whole <$> eb_details error |}
  | f => f
  end.

(** The numbers are [u64]s, and the values in an error's details hold no float. *)
Definition detail_ok (d : Detail) : Prop := match d with DetailJson value => json_exact value | _ => True end.

Definition frame_ok (f : Frame) : Prop :=
  match frame_id f with Some id => (id < 2 ^ 64)%N | None => True end
  ∧ match f with Credit _ n => (n < 2 ^ 64)%N | Err _ error => Forall detail_ok (eb_details error) | _ => True end.

Lemma kind_read_back k : kind_from_wire (kind_as_str k) = k.
Proof. by destruct k. Qed.

(** *** Details *)

Ltac distinct := cbn [fmap list_fmap fst]; apply (bool_decide_unpack _); vm_compute; exact I.
Ltac found := repeat (left || right).

Lemma pair_text first second k v : first.1 ≠ second.1 → (k, v) ∈ [first; second] → text_of (pair_json first second) k = v.
Proof.
  intros Hne Hin. unfold text_of, pair_json. rewrite (obj_get _ k (json_str v)); [cbn; by rewrite str_as_str| |].
  - cbn. apply NoDup_cons_2; [by rewrite list_elem_of_singleton|apply NoDup_singleton].
  - destruct first as [a x], second as [b y]. cbn. apply elem_of_cons in Hin as [[= -> ->]|[= -> ->]%list_elem_of_singleton]; [left|right; left].
Qed.

Lemma violations_back (vs : list FieldViolation) : (λ v, {| fv_field := text_of v (str_of "field"); fv_description := text_of v (str_of "description") |}) <$> (violation_json <$> vs) = vs.
Proof.
  rewrite <- list_fmap_compose. rewrite <- (list_fmap_id vs) at 2. apply list_fmap_ext. intros _ [f d] _. cbn. unfold violation_json. cbn.
  by rewrite (pair_text _ _ _ f), (pair_text _ _ _ d) by (done || found).
Qed.

Lemma links_back (ls : list Link) : (λ l, {| lk_description := text_of l (str_of "description"); lk_url := text_of l (str_of "url") |}) <$> (link_json <$> ls) = ls.
Proof.
  rewrite <- list_fmap_compose. rewrite <- (list_fmap_id ls) at 2. apply list_fmap_ext. intros _ [d u] _. cbn. unfold link_json. cbn.
  by rewrite (pair_text _ _ _ d), (pair_text _ _ _ u) by (done || found).
Qed.

Lemma metadata_entries_nodup (m : gmap str str) : NoDup (metadata_entries m).*1 ∧ metadata_entries m ≡ₚ map_to_list m.
Proof.
  assert (Hp : metadata_entries m ≡ₚ map_to_list m) by apply merge_sort_Permutation. split; [|done]. rewrite Hp. apply NoDup_fst_map_to_list.
Qed.

Lemma metadata_back (entry : J) (m : gmap str str) : json_get entry (str_of "metadata") = Some (json_obj (prod_map id json_str <$> metadata_entries m)) → metadata_of entry = m.
Proof.
  intros Hg. unfold metadata_of. rewrite Hg. cbn [mbind option_bind]. destruct (metadata_entries_nodup m) as [Hnd Hperm].
  assert (Hk : (prod_map id json_str <$> metadata_entries m).*1 = (metadata_entries m).*1) by (rewrite <- list_fmap_compose; by apply list_fmap_ext; intros _ [] _).
  destruct (obj_as_object (prod_map id json_str <$> metadata_entries m)) as (l & -> & Hl); [by rewrite Hk|].
  transitivity (list_to_map (metadata_entries m) : gmap str str).
  2: { transitivity (list_to_map (map_to_list m) : gmap str str); [by apply list_to_map_proper|apply list_to_map_to_list]. }
  assert (Ho : omap (λ kv : str * J, (λ v, (kv.1, v)) <$> as_str kv.2) (prod_map id json_str <$> metadata_entries m) = metadata_entries m).
  { generalize (metadata_entries m). intros k. induction k as [|[a b] k IH]; [done|]. cbn. rewrite str_as_str. cbn. by f_equal. }
  rewrite <- Ho. symmetry. apply list_to_map_proper; [by rewrite Ho|]. symmetry. by rewrite Hl.
Qed.

Lemma whole_seconds_u64 after : (whole_seconds after < 2 ^ 64)%N.
Proof. unfold whole_seconds. lia. Qed.

Lemma detail_back d : detail_from (detail_json d) = whole d.
Proof.
  unfold detail_from. destruct d as [vs|reason domain m|after|ls|v]; cbn [detail_json whole];
    rewrite (obj_get _ (str_of "type") (json_str (str_of _))) by (distinct || found); cbn [mbind option_bind]; rewrite str_as_str.
  - rewrite bool_decide_eq_true_2 by done. unfold list_of. rewrite (obj_get _ (str_of "violations") (json_arr (violation_json <$> vs))) by (distinct || found).
    cbn [mbind option_bind]. rewrite arr_as_array. f_equal. apply violations_back.
  - change (bool_decide (str_of "error_info" = str_of "field_violations")) with false. change (bool_decide (str_of "error_info" = str_of "error_info")) with true. cbv iota.
    unfold text_of at 1 2. rewrite (obj_get _ (str_of "reason") (json_str reason)), (obj_get _ (str_of "domain") (json_str domain)) by (distinct || found).
    cbn [mbind option_bind]. rewrite !str_as_str. cbn [default]. f_equal. apply metadata_back. apply obj_get; [distinct|found].
  - change (bool_decide (str_of "retry_after" = str_of "retry_after")) with true. cbv iota beta.
    rewrite (obj_get _ (str_of "seconds") (json_num (whole_seconds after))) by (distinct || found). cbn [mbind option_bind]. by rewrite num_as_u64 by apply whole_seconds_u64.
  - change (bool_decide (str_of "help" = str_of "help")) with true. unfold list_of. rewrite (obj_get _ (str_of "links") (json_arr (link_json <$> ls))) by (distinct || found).
    cbn [mbind option_bind]. rewrite arr_as_array. cbv iota. f_equal. apply links_back.
  - rewrite (obj_get _ (str_of "value") v) by (distinct || found). done.
Qed.

Lemma mapM_fmap_Some {A B C} (f : B → option C) (g : A → B) (h : A → C) (l : list A) : (∀ x, x ∈ l → f (g x) = Some (h x)) → mapM f (g <$> l) = Some (h <$> l).
Proof.
  induction l as [|x l IH]; intros H; [done|]. cbn. rewrite (H x) by left. cbn. rewrite IH; [done|]. intros y Hy. apply H. by right.
Qed.

Lemma pair_read first second : first.1 ≠ second.1 → read_json (pair_out first second) = Some (pair_json first second).
Proof.
  intros Hne. unfold pair_out. rewrite (json_of_map [_; _]); [cbn; by rewrite !json_of_text|]. cbn. apply NoDup_cons_2; [by rewrite list_elem_of_singleton|apply NoDup_singleton].
Qed.

Ltac read_members := rewrite json_of_map by distinct; cbn [mapM fst snd]; rewrite ?json_of_text; cbn [fmap option_fmap option_map mbind option_bind].

(** What is written for a detail is read as its value. *)
Lemma detail_read d : detail_ok d → read_json (detail_out d) = Some (detail_json d).
Proof.
  intros Hd. destruct d as [vs|reason domain m|after|ls|v]; cbn [detail_out detail_json].
  - change 2 with (length [(str_of "type", raw_text (str_of "field_violations")); (str_of "violations", violations_out vs)]). read_members.
    unfold violations_out. rewrite json_of_seq. rewrite (mapM_fmap_Some _ _ violation_json) by (intros v _; by apply pair_read). done.
  - change 4 with (length [(str_of "type", raw_text (str_of "error_info")); (str_of "reason", raw_text reason); (str_of "domain", raw_text domain);
      (str_of "metadata", raw_map (size m) (prod_map id raw_text <$> metadata_entries m))]). read_members.
    destruct (metadata_entries_nodup m) as [Hnd Hp].
    assert (Hlen : size m = length (prod_map id raw_text <$> metadata_entries m)) by (by rewrite length_fmap, Hp, length_map_to_list).
    rewrite Hlen, json_of_map by (rewrite <- list_fmap_compose; rewrite (list_fmap_ext _ fst) by (by intros _ [] _); done).
    rewrite (mapM_fmap_Some _ _ (prod_map id json_str)) by (intros [k v] _; cbn; by rewrite json_of_text). done.
  - change 2 with (length [(str_of "type", raw_text (str_of "retry_after")); (str_of "seconds", raw_num (whole_seconds after))]). read_members.
    by rewrite json_of_num by apply whole_seconds_u64.
  - change 2 with (length [(str_of "type", raw_text (str_of "help")); (str_of "links", links_out ls)]). read_members.
    unfold links_out. rewrite json_of_seq. rewrite (mapM_fmap_Some _ _ link_json) by (intros v _; by apply pair_read). done.
  - change 2 with (length [(str_of "type", raw_text (str_of "json")); (str_of "value", raw_json v)]). read_members. by rewrite json_read_back by done.
Qed.

Lemma details_read ds : Forall detail_ok ds → read_json (details_out ds) = Some (details_json ds).
Proof.
  intros Hd. unfold details_out. rewrite json_of_seq. rewrite (mapM_fmap_Some _ _ detail_json); [done|]. intros d Hin. apply detail_read. by rewrite Forall_forall in Hd; apply Hd.
Qed.

Lemma details_back ds : details_from (details_json ds) = whole <$> ds.
Proof.
  unfold details_from, details_json. rewrite arr_as_array, <- list_fmap_compose. apply list_fmap_ext. intros _ d _. apply detail_back.
Qed.

(** *** Headers and errors *)

Lemma member_here name r l : name ∉ l.*1 → entry_named name ((name, r) :: l) = Some (Some r).
Proof.
  intros Hn. unfold entry_named. rewrite filter_cons_True by done. destruct (filter (λ e : str * Raw, e.1 = name) l) as [|y ys] eqn:E; [done|].
  assert (Hy : y ∈ filter (λ e : str * Raw, e.1 = name) l) by (rewrite E; constructor). apply list_elem_of_filter in Hy as [<- Hy]. destruct Hn. apply list_elem_of_fmap. by exists y.
Qed.

Lemma member_skip name k r l : k ≠ name → entry_named name ((k, r) :: l) = entry_named name l.
Proof. intros Hne. unfold entry_named. by rewrite filter_cons_False. Qed.

Ltac fresh_name := cbn [fmap list_fmap fst]; apply (bool_decide_unpack _); vm_compute; exact I.

Lemma headers_read_back h : raw_null (headers_out h) = false ∧ headers_in (headers_out h) = Some h.
Proof.
  unfold headers_in, headers_out. replace (length h) with (length (prod_map id raw_text <$> h)) by apply length_fmap. destruct (map_read_back (prod_map id raw_text <$> h)) as [-> ->].
  split; [done|]. cbn [mbind option_bind]. rewrite (mapM_fmap_Some _ _ id) by (intros [k v] _; cbn; by rewrite (proj2 (text_read_back v))). by rewrite list_fmap_id.
Qed.

Lemma error_read_back e : Forall detail_ok (eb_details e) → raw_null (error_out e) = false
  ∧ error_in (error_out e) = Some {| ei_kind := kind_as_str (eb_kind e); ei_message := eb_message e; ei_details := details_json (eb_details e) |}.
Proof.
  intros Hd. unfold error_in, error_out.
  change 3 with (length [(str_of "kind", raw_text (kind_as_str (eb_kind e))); (str_of "message", raw_text (eb_message e)); (str_of "details", details_out (eb_details e))]).
  destruct (map_read_back [(str_of "kind", raw_text (kind_as_str (eb_kind e))); (str_of "message", raw_text (eb_message e)); (str_of "details", details_out (eb_details e))]) as [-> ->].
  split; [done|]. cbn [mbind option_bind]. unfold member_or.
  rewrite (member_here (str_of "kind")) by fresh_name. rewrite (proj2 (text_read_back _)). cbn [mbind option_bind].
  rewrite (member_skip (str_of "message")), (member_here (str_of "message")) by (fresh_name || done). rewrite (proj2 (text_read_back _)). cbn [mbind option_bind].
  rewrite !(member_skip (str_of "details")), (member_here (str_of "details")) by (fresh_name || done). by rewrite details_read.
Qed.

(** *** Frames *)

Lemma declared_len_exact f d : d = None ∨ is_Some (frame_data f) → declared_len f d = length (frame_entries f d).
Proof. intros [->|[data Hd]]; destruct f; try done; by destruct d. Qed.

Definition payload (f : Frame) (d : option PayloadItem) : option PayloadItem := match d with Some i => if raw_null (raw_item i) then None else Some i | None => None end.

(** The fields of a frame, as read. *)
Definition frame_in (f : Frame) (d : option PayloadItem) : WireIn :=
  {| in_t := frame_kind f;
     in_id := frame_id f;
     in_p := match f with Req _ p _ _ | Evt p _ _ | Open _ p _ => Some p | _ => None end;
     in_h := match f with Req _ _ h _ | Evt _ h _ | Open _ _ h => Some h | _ => None end;
     in_d := payload f d;
     in_e := match f with Err _ e => Some {| ei_kind := kind_as_str (eb_kind e); ei_message := eb_message e; ei_details := details_json (eb_details e) |} | _ => None end;
     in_n := match f with Credit _ n => Some n | _ => None end |}.

Lemma opt_member_skip {A} (read : Raw → option A) name k r l : k ≠ name → opt_member read name ((k, r) :: l) = opt_member read name l.
Proof. intros Hne. unfold opt_member. by rewrite member_skip. Qed.

Lemma opt_member_here {A} (read : Raw → option A) name r l (x : A) : name ∉ l.*1 → raw_null r = false ∧ read r = Some x → opt_member read name ((name, r) :: l) = Some (Some x).
Proof. intros Hn [Hr Hx]. unfold opt_member. rewrite member_here by done. by rewrite Hr, Hx. Qed.

Lemma opt_member_item i : opt_member read_item (str_of "d") [(str_of "d", raw_item i)] = Some (if raw_null (raw_item i) then None else Some i).
Proof.
  unfold opt_member. rewrite member_here by (apply not_elem_of_nil). destruct (raw_null (raw_item i)) eqn:E; [done|]. by rewrite raw_item_read_back.
Qed.

Ltac members :=
  repeat match goal with
  | |- context [opt_member ?f ?n ((?n, ?r) :: ?l)] =>
      first [rewrite opt_member_item | erewrite (opt_member_here f n r l); [|fresh_name|(apply text_read_back || apply headers_read_back || (apply error_read_back; assumption) || (apply num_read_back; assumption))]]
  | |- context [opt_member ?f ?n ((?k, ?r) :: ?l)] => rewrite (opt_member_skip f n k r l) by (let H := fresh in intros H; vm_compute in H; discriminate)
  end.

Lemma wire_in_entries f d : frame_ok f → wire_in (frame_entries f d) = Some (frame_in f d).
Proof.
  intros [Hid Hn]. unfold wire_in, frame_entries. rewrite member_here by (destruct f, d; fresh_name). rewrite (proj2 (text_read_back _)). cbn [mbind option_bind].
  destruct f; cbn [frame_id] in Hid; (destruct d as [i|]; cbn [app]; members; reflexivity).
Qed.
(** The item a frame is written with, if its payload has one. *)
Definition written_item (f : Frame) : option PayloadItem := match frame_data f with Some (c :: data) => item_of (c :: data) | _ => None end.

Lemma encode_frame_inv f : match encode_frame f with
  | Some bytes => bytes = write_doc (length (frame_entries f (written_item f))) (frame_entries f (written_item f))
      ∧ ∀ data, frame_data f = Some data → data = [] ∨ is_Some (item_of data)
  | None => ∃ data, frame_data f = Some data ∧ data ≠ [] ∧ item_of data = None
  end.
Proof.
  unfold encode_frame, written_item. destruct (frame_data f) as [[|c data]|] eqn:E.
  - rewrite declared_len_exact by (by left). split; [done|]. intros ? [= <-]. by left.
  - destruct (item_of (c :: data)) as [d|] eqn:Ed; [|by exists (c :: data)]. rewrite declared_len_exact by (right; by rewrite E). split; [done|]. intros ? [= <-]. right. by rewrite Ed.
  - rewrite declared_len_exact by (by left). by split.
Qed.

Lemma payload_carried f data : frame_data f = Some data → data = [] ∨ is_Some (item_of data) →
  match payload f (written_item f) with Some d => item_bytes d | None => [] end = carried_data data.
Proof.
  intros Hd Hi. unfold written_item, payload, carried_data. rewrite Hd. destruct data as [|c data]; [done|]. destruct Hi as [?|[d Hi]]; [done|]. rewrite Hi. by destruct (raw_null (raw_item d)).
Qed.

Lemma into_frame_back f : (∀ data, frame_data f = Some data → data = [] ∨ is_Some (item_of data)) → into_frame (frame_in f (written_item f)) = inr (carried_frame f).
Proof.
  intros Hd. pose proof (λ data H, payload_carried f data H (Hd data H)) as Hp. unfold into_frame, frame_in. cbn [in_t in_id in_p in_h in_d in_e in_n].
  destruct f as [? ? ? data|? ? data|? data|id e|? data| | |? data| | | |]; try (rewrite (Hp data eq_refl)); try reflexivity.
  cbn -[details_from details_json]. unfold into_body. cbn -[details_from details_json]. by rewrite details_back, kind_read_back.
Qed.

Lemma carried_data_again data : carried_data (carried_data data) = carried_data data.
Proof.
  unfold carried_data. destruct data as [|c data]; [done|]. destruct (item_of (c :: data)) as [d|] eqn:E; [|by rewrite E]. destruct (raw_null (raw_item d)) eqn:En; [done|].
  destruct (item_bytes d) as [|b bs] eqn:Eb; [done|]. by rewrite <- Eb, item_read_back, En.
Qed.

Lemma whole_again d : whole (whole d) = whole d.
Proof. destruct d as [| |after| |]; try done. cbn. do 2 f_equal. pose proof (whole_seconds_u64 after). unfold whole_seconds at 1. cbn [du_secs du_nanos]. rewrite bool_decide_eq_false_2 by done. lia. Qed.

Lemma carried_again f : carried_frame (carried_frame f) = carried_frame f.
Proof.
  destruct f as [| | | id e| | | | | | | |]; cbn; rewrite ?carried_data_again; try done. do 2 f_equal. rewrite <- list_fmap_compose. apply list_fmap_ext. intros _ d _. apply whole_again.
Qed.

Lemma into_frame_kind w f : into_frame w = inr f → frame_kind f = in_t w ∧ ∀ id, frame_id f = Some id → in_id w = Some id.
Proof.
  unfold into_frame, required_field. intros H. repeat case_bool_decide; repeat case_match; simplify_eq; (split; [done|]); by intros ? [= <-].
Qed.

(** C22: a frame a link writes is read back by the other end as the frame it was: its kind, id, pattern,
    headers with their order and repetitions, and its error with its details, whatever the codec; a
    payload comes back as its item, an empty or null one as none, and a wait to retry in whole
    seconds, rounded up, so that passing a frame on changes it no further. Only a payload that is no
    item of the codec is refused. A frame read has the kind its [t] names and the id that was sent.
    The numbers of the frame are [u64]s and the values in its error's details hold no float; a wait
    is never shortened as long as one second more fits a [u64]. *)
Theorem frame_roundtrip f : frame_ok f →
  match encode_frame f with
  | Some bytes => decode_frame bytes = inr (carried_frame f)
  | None => ∃ data, frame_data f = Some data ∧ data ≠ [] ∧ item_of data = None
  end
  ∧ carried_frame (carried_frame f) = carried_frame f
  ∧ (∀ bytes f', decode_frame bytes = inr f' → ∃ w, read_doc bytes ≫= wire_in = Some w ∧ frame_kind f' = in_t w ∧ ∀ id, frame_id f' = Some id → in_id w = Some id)
  ∧ (∀ after, (du_nanos after < 10 ^ 9)%N → (du_secs after + 1 < 2 ^ 64)%N →
      (10 ^ 9 * du_secs after + du_nanos after ≤ 10 ^ 9 * whole_seconds after < 10 ^ 9 * du_secs after + du_nanos after + 10 ^ 9)%N).
Proof.
  intros Hok. split; [|split; [apply carried_again|split]].
  - pose proof (encode_frame_inv f) as He. destruct (encode_frame f) as [bytes|]; [|done]. destruct He as [-> Hd].
    unfold decode_frame. rewrite doc_read_back. cbn [mbind option_bind]. rewrite wire_in_entries by done. by apply into_frame_back.
  - intros bytes f'. unfold decode_frame. destruct (read_doc bytes ≫= wire_in) as [w|]; [|done]. intros H. exists w. split; [done|]. by apply into_frame_kind.
  - intros after Hn Hs. unfold whole_seconds. case_bool_decide; lia.
Qed.
End Codec.

(** ** An example *)

(** JSON values as trees, and members and documents as their numbers. *)
Definition Tree : Type := gen_tree (str + N).

Definition tree_members (t : Tree) : option (list (str * Tree)) :=
  match t with
  | GenNode 1 l => Some (omap (λ m, match m with GenNode 0 [GenLeaf (inl k); v] => Some (k, v) | _ => None end) l)
  | _ => None
  end.

Definition tree_obj (l : list (str * Tree)) : Tree := GenNode 1 ((λ m, GenNode 0 [GenLeaf (inl m.1); m.2]) <$> l).

Lemma tree_members_obj l : tree_members (tree_obj l) = Some l.
Proof. cbn. f_equal. induction l as [|[k v] l IH]; cbn; [done|]. by rewrite IH. Qed.

Definition get_member (t : Tree) (k : str) : option Tree := tree_members t ≫= λ l, snd <$> find (λ m : str * Tree, bool_decide (m.1 = k)) l.

Lemma find_member (l : list (str * Tree)) k v : NoDup l.*1 → (k, v) ∈ l → snd <$> find (λ m : str * Tree, bool_decide (m.1 = k)) l = Some v.
Proof.
  induction l as [|[j w] l IH]; cbn; [by intros _ ?%not_elem_of_nil|]. intros [Hj Hl]%NoDup_cons [[= -> ->]|Hin]%elem_of_cons; [by rewrite bool_decide_eq_true_2|].
  rewrite bool_decide_eq_false_2; [by apply IH|]. intros ->. destruct Hj. apply list_elem_of_fmap. by exists (k, v).
Qed.

Definition tree_str (t : Tree) : option str := match t with GenLeaf (inl s) => Some s | _ => None end.
Definition tree_num (t : Tree) : option N := match t with GenLeaf (inr n) => Some n | _ => None end.
Definition tree_arr (t : Tree) : option (list Tree) := match t with GenNode 0 l => Some l | _ => None end.

#[local] Program Instance tree_json : JsonValue := {|
  J := Tree;
  json_null := GenNode 2 [];
  json_str s := GenLeaf (inl s);
  json_num n := GenLeaf (inr n);
  json_arr l := GenNode 0 l;
  json_obj := tree_obj;
  json_get := get_member;
  as_str := tree_str;
  as_u64 := tree_num;
  as_array := tree_arr;
  as_object := tree_members;
|}.
Next Obligation. done. Qed.
Next Obligation. done. Qed.
Next Obligation. done. Qed.
Next Obligation. intros l _. exists l. by rewrite tree_members_obj. Qed.
Next Obligation. intros l k v Hl Hin. unfold get_member. rewrite tree_members_obj. by apply find_member. Qed.

(** A payload is an item when it opens with a [1]. *)
Definition ones (s : str) : option str := match s with c :: s => if bool_decide (c = "1"%char) then Some s else None | [] => None end.

(** What serde writes is a tree: a value is itself, and a payload's item a node of its own. *)
Definition cell_item (c : Tree) : option str := match c with GenNode 3 [GenLeaf (inl i)] => Some i | _ => None end.
Definition cell_null (c : Tree) : bool := match c with GenNode 2 [] => true | GenNode 3 [GenLeaf (inl i)] => bool_decide (i = str_of "null") | _ => false end.

Lemma mapM_pairs (l : list (str * Tree)) : mapM (λ e : str * Tree, pair e.1 <$> Some e.2) l = Some l.
Proof. induction l as [|[k v] l IH]; [done|]. cbn in *. by rewrite IH. Qed.

Lemma mapM_same (l : list Tree) : mapM (λ t : Tree, Some t) l = Some l.
Proof. induction l as [|t l IH]; [done|]. cbn in *. by rewrite IH. Qed.

#[local] Program Instance cell_codec : FrameCodec (json := tree_json) := {|
  PayloadItem := str;
  item_of := ones;
  item_bytes i := "1"%char :: i;
  Raw := Tree;
  raw_text s := GenLeaf (inl s);
  raw_num n := GenLeaf (inr n);
  raw_map len entries := tree_obj (take len entries);
  raw_seq l := GenNode 0 l;
  raw_json j := j;
  raw_item i := GenNode 3 [GenLeaf (inl i)];
  raw_null := cell_null;
  read_text := tree_str;
  read_num := tree_num;
  read_map := tree_members;
  read_json t := Some t;
  read_item := cell_item;
  write_doc len entries := encoded (take len entries);
  read_doc := decoded;
  json_exact _ := True;
|}.
Next Obligation. done. Qed.
Next Obligation. done. Qed.
Next Obligation. done. Qed.
Next Obligation. done. Qed.
Next Obligation. intros entries. split; [done|]. rewrite take_ge by done. apply tree_members_obj. Qed.
Next Obligation. done. Qed.
Next Obligation. done. Qed.
Next Obligation. done. Qed.
Next Obligation. intros l. cbn. by rewrite mapM_same. Qed.
Next Obligation. intros entries _. cbn. rewrite take_ge by done. by rewrite mapM_pairs. Qed.
Next Obligation. done. Qed.
Next Obligation. intros entries. cbn. rewrite take_ge by done. apply (decoded_encoded (A := list (str * Tree))). Qed.

Definition slow_down : Frame (json := tree_json) :=
  Err 7 {| eb_kind := TooManyRequests; eb_message := str_of "slow down";
           eb_details := [RetryAfter {| du_secs := 2; du_nanos := 1 |}; ErrorInfo (str_of "QUOTA") (str_of "billing") {[str_of "plan" := str_of "free"]}] |}.

Lemma frame_roundtrip_example :
  (∃ bytes, encode_frame slow_down = Some bytes ∧ decode_frame bytes = inr (carried_frame slow_down))
  ∧ encode_frame (Res 3 (str_of "x") : Frame (json := tree_json)) = None
  ∧ retry_after match carried_frame slow_down with Err _ e => eb_details e | _ => [] end = Some {| du_secs := 3; du_nanos := 0 |}.
Proof.
  assert (Hok : frame_ok slow_down) by (split; [done|by repeat constructor]). destruct (frame_roundtrip slow_down Hok) as [H _]. split; [|split; vm_compute; reflexivity].
  destruct (encode_frame slow_down) as [bytes|]; [exists bytes; by split|]. destruct H as (data & Hd & _). discriminate Hd.
Defined.
