(* ===== verification/Tcp.v ===== *)
(** * Tcp: the calls of a TCP link's connections

    [ulo-rpc-tcp-core/src/link.rs]: the length-prefixed frames of a connection, the ids a caller
    gives its calls mapped to the server's and back ([Ids]), the replies written under the caller's
    id, and the count of calls in flight that a drain waits for. The tables are under a lock of
    each connection, so every locked section is a step, and a reply is three: it looks its caller
    up, it is queued, and it ends its call. *)

From S2P Require Import Prelude Text Frames.
Local Open Scope nat_scope.
Local Open Scope list_scope.

(** ** The tables *)

(** [Caller]: a cancelled call's sends wait until it is forgotten. *)
Inductive Caller := Live (caller : N) | Cancelled.

#[export] Instance caller_eq_dec : EqDecision Caller.
Proof. solve_decision. Defined.

Record Ids := { by_caller : gmap N N; by_server : gmap N Caller }.

Definition ids_new : Ids := {| by_caller := ∅; by_server := ∅ |}.

(** [counted]: the count after the tables changed; a [usize], [saturating_sub]. *)
Definition counted (held before after : nat) : nat := if bool_decide (after = before) then held else held + after - before.

Definition ids_open (ids : Ids) (caller server : N) : Ids :=
  let live := match by_caller ids !! caller with Some stale => delete stale (by_server ids) | None => by_server ids end in
  {| by_caller := <[caller := server]> (by_caller ids); by_server := <[server := Live caller]> live |}.

Definition ids_server (ids : Ids) (caller : N) : option N := by_caller ids !! caller.

Definition ids_cancel (ids : Ids) (caller : N) : option (Ids * N) :=
  match by_caller ids !! caller with
  | Some server => Some ({| by_caller := delete caller (by_caller ids); by_server := <[server := Cancelled]> (by_server ids) |}, server)
  | None => None
  end.

Definition ids_finish (ids : Ids) (server : N) : Ids :=
  match by_server ids !! server with
  | Some (Live caller) => {| by_caller := delete caller (by_caller ids); by_server := delete server (by_server ids) |}
  | _ => ids
  end.

Definition ids_release (ids : Ids) (server : N) : Ids := {| by_caller := by_caller ids; by_server := delete server (by_server ids) |}.

(** [drain]: the tables, and how many live calls they forgot. *)
Definition ids_drain (ids : Ids) : Ids * nat :=
  let kept := filter (λ sc : N * Caller, sc.2 = Cancelled) (by_server ids) in
  ({| by_caller := ∅; by_server := kept |}, size (by_server ids) - size kept).

(** ** Frames on the socket *)

Definition DEFAULT_MAX_FRAME : N := 1024 * 1024.

(** [Core::limit]. *)
Definition frame_limit (max_frame : option N) : N := N.min (default DEFAULT_MAX_FRAME max_frame) (2 ^ 32 - 1).

Definition be_byte (n : N) (i : N) : ascii := ascii_of_N (N.modulo (N.div n (256 ^ i)) 256).

(** [to_be_bytes] of the length as a [u32], which drops what is over. *)
Definition length_prefix (len : nat) : str := let n := N.modulo (N.of_nat len) (2 ^ 32) in [be_byte n 3; be_byte n 2; be_byte n 1; be_byte n 0].

Definition framed (bytes : str) : str := length_prefix (length bytes) ++ bytes.

Definition of_be_bytes (a b c d : ascii) : N := (((N_of_ascii a * 256 + N_of_ascii b) * 256 + N_of_ascii c) * 256 + N_of_ascii d)%N.

Inductive FrameEnd := CleanEnd | OverLimit | CutShort.

(** [Reading::frame] on what the peer has sent: a frame and the rest, or how the connection ends. *)
Definition read_frame (limit : N) (bytes : str) : FrameEnd + (str * str) :=
  match bytes with
  | a :: b :: c :: d :: rest =>
      let len := of_be_bytes a b c d in
      if bool_decide (limit < len)%N then inl OverLimit
      else if bool_decide (N.of_nat (length rest) < len)%N then inl CutShort
      else inr (take (N.to_nat len) rest, drop (N.to_nat len) rest)
  | _ => inl CleanEnd
  end.

(** The loop that reads a connection, a frame taking four bytes at least. *)
Fixpoint read_frames (limit : N) (fuel : nat) (bytes : str) : list str * FrameEnd :=
  match fuel with
  | 0 => ([], CleanEnd)
  | S fuel =>
      match read_frame limit bytes with
      | inl e => ([], e)
      | inr (frame, rest) => let '(frames, e) := read_frames limit fuel rest in (frame :: frames, e)
      end
  end.

(** ** Connections *)

Section Tcp.
Context {json : JsonValue} {codec : FrameCodec} (limit : N).

(** [encode]: [None] for [FrameUnencodable] and [FrameTooLarge]. *)
Definition tcp_encode (f : Frame) : option str :=
  match encode_frame f with Some bytes => if bool_decide (limit < N.of_nat (length bytes))%N then None else Some bytes | None => None end.

Definition with_id (f : Frame) (id : N) : Frame :=
  match f with Res _ data => Res id data | Err _ error => Err id error | Item _ data => Item id data | End_ _ => End_ id | other => other end.

Definition ends_call (f : Frame) : bool := match f with Res _ _ | Err _ _ | End_ _ => true | _ => false end.

(** What became of a reply frame: [Queued], or the error of its send. *)
Inductive Queued := Written | Dropped | Refused.

(** A [queue_reply] under way: its caller found, queued with the call to end, dropped until its call is
    forgotten, and over. *)
Inductive Reply := RFound (server caller : N) (f : Frame) | REnds (server : N) | RDropped (server : N) | ROver (q : Queued).

(** One connection: its tables, the frames queued on its writer, the [cancel]s the server has yet to
    take, the replies under way, and the calls its reader left behind, still counted. Two fields are of
    the model only: the replies the server gave, each with whom the tables named as it was given, and
    for each queued frame the reply it came from, [None] for a [goaway]. *)
Record TcpConn := {
  cn_ids : Ids; cn_queue : list str; cn_acks : list N; cn_replies : list Reply; cn_reading : bool; cn_orphans : nat;
  cn_given : list (Frame * option Caller); cn_from : list (option nat);
}.

Definition tcp_conn_new : TcpConn :=
  {| cn_ids := ids_new; cn_queue := []; cn_acks := []; cn_replies := []; cn_reading := true; cn_orphans := 0; cn_given := []; cn_from := [] |}.

(** The link: [next_id] is a [u64], [held] a [usize]. [ln_opened] holds the connection and the caller's
    id that each server id was given to. *)
Record TcpLink := { ln_conns : list TcpConn; ln_next : N; ln_held : nat; ln_opened : gmap N (nat * N) }.

Definition link_new : TcpLink := {| ln_conns := []; ln_next := 1; ln_held := 0; ln_opened := ∅ |}.

Definition with_ids (n : TcpConn) (ids : Ids) (queue : list str) (acks : list N) (replies : list Reply) : TcpConn :=
  {| cn_ids := ids; cn_queue := queue; cn_acks := acks; cn_replies := replies; cn_reading := cn_reading n; cn_orphans := cn_orphans n;
     cn_given := cn_given n; cn_from := cn_from n |}.

(** [bytes] queued on the connection's writer, from a reply or from none. *)
Definition queues (n : TcpConn) (from : option nat) (bytes : str) : TcpConn :=
  {| cn_ids := cn_ids n; cn_queue := cn_queue n ++ [bytes]; cn_acks := cn_acks n; cn_replies := cn_replies n; cn_reading := cn_reading n; cn_orphans := cn_orphans n;
     cn_given := cn_given n; cn_from := cn_from n ++ [from] |}.

(** The reader stopped, with [orphans] calls left behind. *)
Definition reader_over (n : TcpConn) (ids : Ids) (orphans : nat) : TcpConn :=
  {| cn_ids := ids; cn_queue := cn_queue n; cn_acks := cn_acks n; cn_replies := cn_replies n; cn_reading := false; cn_orphans := orphans;
     cn_given := cn_given n; cn_from := cn_from n |}.

(** Connection [c] after a locked section, without the count and with it. *)
Definition at_conn (l : TcpLink) (c : nat) (n' : TcpConn) : TcpLink :=
  {| ln_conns := <[c := n']> (ln_conns l); ln_next := ln_next l; ln_held := ln_held l; ln_opened := ln_opened l |}.

Definition recount (l : TcpLink) (c : nat) (n n' : TcpConn) : TcpLink :=
  {| ln_conns := <[c := n']> (ln_conns l); ln_next := ln_next l;
     ln_held := counted (ln_held l) (size (by_server (cn_ids n))) (size (by_server (cn_ids n'))); ln_opened := ln_opened l |}.

(** [open]: the next server id. *)
Definition open_call (l : TcpLink) (c : nat) (n : TcpConn) (caller : N) : TcpLink * N :=
  let server := ln_next l in
  let l' := recount l c n (with_ids n (ids_open (cn_ids n) caller server) (cn_queue n) (cn_acks n) (cn_replies n)) in
  ({| ln_conns := ln_conns l'; ln_next := N.modulo (server + 1) (2 ^ 64); ln_held := ln_held l'; ln_opened := <[server := (c, caller)]> (ln_opened l') |}, server).

(** [inward]: the link after it and the frame the server gets. *)
Definition inward (l : TcpLink) (c : nat) (n : TcpConn) (f : Frame) : option (TcpLink * Frame) :=
  match f with
  | Req id pattern headers data => let '(l, id) := open_call l c n id in Some (l, Req id pattern headers data)
  | Open id pattern headers => let '(l, id) := open_call l c n id in Some (l, Open id pattern headers)
  | Evt pattern headers data => Some (l, Evt pattern headers data)
  | In_ id data => (λ id, (l, In_ id data)) <$> ids_server (cn_ids n) id
  | InEnd id => (λ id, (l, InEnd id)) <$> ids_server (cn_ids n) id
  | Cancel id =>
      match ids_cancel (cn_ids n) id with
      | Some (ids, server) => Some (at_conn l c (with_ids n ids (cn_queue n) (cn_acks n ++ [server]) (cn_replies n)), Cancel server)
      | None => None
      end
  | _ => None
  end.

(** [queue_reply] up to its first unlock. *)
Definition reply_found (ids : Ids) (f : Frame) : Reply :=
  match frame_id f with
  | Some server => match by_server ids !! server with Some (Live caller) => RFound server caller f | Some Cancelled => RDropped server | None => ROver Refused end
  | None => ROver Refused
  end.

(** The server gives the connection a reply. *)
Definition gives (n : TcpConn) (f : Frame) : TcpConn :=
  {| cn_ids := cn_ids n; cn_queue := cn_queue n; cn_acks := cn_acks n; cn_replies := cn_replies n ++ [reply_found (cn_ids n) f]; cn_reading := cn_reading n;
     cn_orphans := cn_orphans n; cn_given := cn_given n ++ [(f, frame_id f ≫= λ server, by_server (cn_ids n) !! server)]; cn_from := cn_from n |}.

Inductive TcpEvent :=
  | TAccept
  | TFrame (c : nat) (f : Frame)      (* the reader decoded a frame *)
  | TAck (c : nat) (server : N)       (* a [cancel]'s [Ack] settles or drops *)
  | TReply (c : nat) (f : Frame)
  | TReplyStep (c r : nat)
  | TGoaway (c : nat)                 (* the link drains *)
  | TEnd (c : nat)                    (* the reader stops: [drain] *)
  | TOrphans (c : nat).               (* its [cancel]s are queued *)

(** The rest of [queue_reply], and the wait of a dropped reply. *)
Definition reply_step (n : TcpConn) (r : nat) (x : Reply) : option TcpConn :=
  let to n ids y := Some (with_ids n ids (cn_queue n) (cn_acks n) (<[r := y]> (cn_replies n))) in
  match x with
  | RFound server caller f =>
      match tcp_encode (with_id f caller) with
      | Some bytes => to (queues n (Some r) bytes) (cn_ids n) (if ends_call f then REnds server else ROver Written)
      | None => to n (cn_ids n) (ROver Refused)
      end
  | REnds server => to n (ids_finish (cn_ids n) server) (ROver Written)
  | RDropped server => if bool_decide (by_server (cn_ids n) !! server = None) then to n (cn_ids n) (ROver Dropped) else None
  | ROver _ => None
  end.

Definition tcp_step (l : TcpLink) (e : TcpEvent) : option TcpLink :=
  match e with
  | TAccept => Some {| ln_conns := ln_conns l ++ [tcp_conn_new]; ln_next := ln_next l; ln_held := ln_held l; ln_opened := ln_opened l |}
  | TFrame c f =>
      n ← ln_conns l !! c;
      if cn_reading n then match inward l c n f with Some (l, _) => Some l | None => Some l end else None
  | TAck c server =>
      n ← ln_conns l !! c;
      if bool_decide (server ∈ cn_acks n) then
        Some (recount l c n (with_ids n (ids_release (cn_ids n) server) (cn_queue n) (filter (λ s, s ≠ server) (cn_acks n)) (cn_replies n)))
      else None
  | TReply c f => n ← ln_conns l !! c; Some (at_conn l c (gives n f))
  | TReplyStep c r => n ← ln_conns l !! c; x ← cn_replies n !! r; n' ← reply_step n r x; Some (recount l c n n')
  | TGoaway c =>
      n ← ln_conns l !! c;
      goaway ← encode_frame Goaway;
      Some (at_conn l c (queues n None goaway))
  | TEnd c =>
      n ← ln_conns l !! c;
      if cn_reading n then
        let '(ids, orphans) := ids_drain (cn_ids n) in
        Some (at_conn l c (reader_over n ids orphans))
      else None
  | TOrphans c =>
      n ← ln_conns l !! c;
      if cn_reading n then None
      else Some {| ln_conns := <[c := reader_over n (cn_ids n) 0]> (ln_conns l);
                   ln_next := ln_next l; ln_held := ln_held l - cn_orphans n; ln_opened := ln_opened l |}
  end.

Inductive tcp_reachable : TcpLink → Prop :=
  | tcp_start : tcp_reachable link_new
  | tcp_after l e l' : tcp_reachable l → tcp_step l e = Some l' → tcp_reachable l'.
End Tcp.

(** ** Frames are read back *)

Lemma of_length_prefix n : (n < 2 ^ 32)%N → of_be_bytes (be_byte n 3) (be_byte n 2) (be_byte n 1) (be_byte n 0) = n.
Proof.
  intros Hn. unfold of_be_bytes, be_byte. rewrite !N_ascii_embedding by (apply N.mod_lt; lia).
  change (256 ^ 3)%N with (256 * 256 * 256)%N. change (256 ^ 2)%N with (256 * 256)%N. change (256 ^ 1)%N with 256%N. change (256 ^ 0)%N with 1%N. change (2 ^ 32)%N with 4294967296%N in Hn.
  rewrite <- !N.Div0.div_div, N.div_1_r. pose proof (N.div_mod n 256 ltac:(lia)) as H0. pose proof (N.div_mod (n / 256) 256 ltac:(lia)) as H1.
  pose proof (N.div_mod (n / 256 / 256) 256 ltac:(lia)) as H2. rewrite (N.mod_small (n / 256 / 256 / 256)); [lia|]. repeat apply N.Div0.div_lt_upper_bound. lia.
Qed.

Lemma read_framed limit bytes rest : (limit < 2 ^ 32)%N → (N.of_nat (length bytes) ≤ limit)%N → read_frame limit (framed bytes ++ rest) = inr (bytes, rest).
Proof.
  intros Hl Hb. unfold framed, length_prefix. rewrite N.mod_small by lia. cbn [app read_frame]. rewrite of_length_prefix by lia.
  rewrite bool_decide_eq_false_2 by lia. rewrite bool_decide_eq_false_2 by (rewrite length_app; lia).
  by rewrite Nat2N.id, take_app_length, drop_app_length.
Qed.

Lemma read_frames_back limit bodies : (limit < 2 ^ 32)%N → Forall (λ b, N.of_nat (length b) ≤ limit)%N bodies → ∀ fuel, length bodies < fuel →
  read_frames limit fuel (concat (framed <$> bodies)) = (bodies, CleanEnd).
Proof.
  intros Hl. induction 1 as [|b bodies Hb _ IH]; intros [|fuel] Hf; cbn [length] in Hf; try lia; [done|]. cbn [fmap list_fmap concat read_frames].
  rewrite read_framed by done. unfold fmap in IH. by rewrite IH by lia.
Qed.

(** ** Calls *)

Section Calls.
Context {json : JsonValue} {codec : FrameCodec} (limit : N).

Abbreviation tcp_step := (tcp_step limit).
Abbreviation tcp_reachable := (tcp_reachable limit).

(** The two tables are each other's inverse on the live calls, and every server id is one that was
    given to a call of this connection. *)
Record ids_inv (opened : gmap N (nat * N)) (c : nat) (ids : Ids) : Prop := {
  ii_inverse : ∀ k s, by_caller ids !! k = Some s ↔ by_server ids !! s = Some (Live k);
  ii_known : ∀ s v, by_server ids !! s = Some v → ∃ k, opened !! s = Some (c, k) ∧ (v = Live k ∨ v = Cancelled);
}.

(** [f] as the caller that named its call [k] is to read it: the same reply under [k]. *)
Inductive under_id (k : N) : Frame → Frame → Prop :=
  | under_res s data : under_id k (Res s data) (Res k data)
  | under_err s error : under_id k (Err s error) (Err k error)
  | under_item s data : under_id k (Item s data) (Item k data)
  | under_end s : under_id k (End_ s) (End_ k)
  | under_other f : match f with Res _ _ | Err _ _ | Item _ _ | End_ _ => False | _ => True end → under_id k f f.

Definition last_reply (f : Frame) : Prop := (∃ s data, f = Res s data) ∨ (∃ s error, f = Err s error) ∨ ∃ s, f = End_ s.

Definition fits (f : Frame) (bytes : str) : Prop := encode_frame f = Some bytes ∧ (N.of_nat (length bytes) ≤ limit)%N.

(** What a queued frame is, by where it came from: a [goaway], or the reply that was given, under the
    id of the caller that opened its call on this connection. *)
Definition carries (opened : gmap N (nat * N)) (c : nat) (given : list (Frame * option Caller)) (from : option nat) (bytes : str) : Prop :=
  match from with
  | None => encode_frame Goaway = Some bytes
  | Some r => ∃ f s k f', given !! r = Some (f, Some (Live k)) ∧ frame_id f = Some s ∧ opened !! s = Some (c, k) ∧ under_id k f f' ∧ fits f' bytes
  end.

(** What becomes of the [r]th reply: to a live call it is queued unless it does not fit, and the last
    reply of a call ends it; to a cancelled call it is dropped, answered once the call is forgotten; to
    no call it is refused. *)
Definition accounts (opened : gmap N (nat * N)) (c : nat) (ids : Ids) (from : list (option nat)) (r : nat) (given : Frame * option Caller) (x : Reply) : Prop :=
  match given.2 with
  | Some (Live k) => ∃ s f', frame_id given.1 = Some s ∧ opened !! s = Some (c, k) ∧ under_id k given.1 f'
      ∧ ((x = RFound s k given.1 ∧ Some r ∉ from)
         ∨ ((∃ bytes, fits f' bytes) ∧ Some r ∈ from
              ∧ ((last_reply given.1 ∧ x = REnds s) ∨ (x = ROver Written ∧ (last_reply given.1 → ∀ k', by_server ids !! s ≠ Some (Live k')))))
         ∨ ((∀ bytes, ¬ fits f' bytes) ∧ x = ROver Refused ∧ Some r ∉ from))
  | Some Cancelled => (Some r ∉ from)
      ∧ (∃ s k, frame_id given.1 = Some s ∧ opened !! s = Some (c, k) ∧ (x = RDropped s ∨ (x = ROver Dropped ∧ by_server ids !! s = None)))
  | None => x = ROver Refused ∧ Some r ∉ from
  end.

Record conn_inv (opened : gmap N (nat * N)) (c : nat) (n : TcpConn) : Prop := {
  ci_ids : ids_inv opened c (cn_ids n);
  ci_acks : ∀ s, s ∈ cn_acks n → by_server (cn_ids n) !! s = Some Cancelled;
  ci_given : length (cn_given n) = length (cn_replies n);
  ci_replies : ∀ r g x, cn_given n !! r = Some g → cn_replies n !! r = Some x → accounts opened c (cn_ids n) (cn_from n) r g x;
  ci_queue : Forall2 (carries opened c (cn_given n)) (cn_from n) (cn_queue n);
  ci_once : NoDup (omap id (cn_from n));
  ci_orphans : cn_reading n → cn_orphans n = 0;
}.

Definition conn_calls (n : TcpConn) : nat := size (by_server (cn_ids n)) + cn_orphans n.

Record link_inv (l : TcpLink) : Prop := {
  li_next : ln_next l = (N.of_nat (size (ln_opened l)) + 1)%N;
  li_opened : ∀ s o, ln_opened l !! s = Some o → (s < ln_next l)%N;
  li_conns : ∀ c n, ln_conns l !! c = Some n → conn_inv (ln_opened l) c n;
  li_held : ln_held l = total (conn_calls <$> ln_conns l);
}.

(** *** The tables *)

Lemma ids_open_inv opened c ids caller server : opened !! server = None → ids_inv opened c ids → ids_inv (<[server := (c, caller)]> opened) c (ids_open ids caller server).
Proof.
  intros Hs [Hi Hk]. assert (Hns : by_server ids !! server = None).
  { destruct (by_server ids !! server) as [v|] eqn:E; [|done]. destruct (Hk _ _ E) as (k & Ho & _). congruence. }
  assert (Hlive : ∀ s, (match by_caller ids !! caller with Some stale => delete stale (by_server ids) | None => by_server ids end) !! s
    = if bool_decide (by_caller ids !! caller = Some s) then None else by_server ids !! s).
  { intros s. destruct (by_caller ids !! caller) as [stale|]; [|done]. case_bool_decide as E; [injection E as ->; apply lookup_delete_eq|]. apply lookup_delete_ne. congruence. }
  split; cbn.
  - intros k s. destruct (decide (s = server)) as [->|Hne].
    + rewrite lookup_insert_eq. destruct (decide (k = caller)) as [->|Hk']; [by rewrite lookup_insert_eq|]. rewrite lookup_insert_ne by done. rewrite Hi, Hns. split; [done|congruence].
    + rewrite (lookup_insert_ne _ server s) by done. rewrite Hlive. destruct (decide (k = caller)) as [->|Hk'].
      * rewrite lookup_insert_eq. case_bool_decide as E; [split; congruence|]. rewrite <- Hi. split; congruence.
      * rewrite lookup_insert_ne by done. rewrite Hi. case_bool_decide as E; [|done]. apply Hi in E. split; congruence.
  - intros s v [[<- <-]|[Hne Hv]]%lookup_insert_Some; [exists caller; rewrite lookup_insert_eq; auto|]. rewrite Hlive in Hv. case_bool_decide; [done|].
    destruct (Hk s v Hv) as (k & Ho & Hv'). exists k. by rewrite lookup_insert_ne.
Qed.

Lemma ids_cancel_inv opened c ids caller ids' server : ids_cancel ids caller = Some (ids', server) → ids_inv opened c ids →
  ids_inv opened c ids' ∧ by_caller ids !! caller = Some server ∧ by_server ids' = <[server := Cancelled]> (by_server ids) ∧ size (by_server ids') = size (by_server ids).
Proof.
  unfold ids_cancel. destruct (by_caller ids !! caller) as [s0|] eqn:E; [|done]. intros [= <- <-] [Hi Hk]. pose proof (proj1 (Hi _ _) E) as El. split; [split; cbn|].
  - intros k s. destruct (decide (s = s0)) as [->|Hne].
    + rewrite lookup_insert_eq. destruct (decide (k = caller)) as [->|Hk']; [by rewrite lookup_delete_eq|]. rewrite lookup_delete_ne by done. rewrite Hi, El. split; [congruence|done].
    + rewrite (lookup_insert_ne _ s0 s) by done. destruct (decide (k = caller)) as [->|Hk']; [|by rewrite lookup_delete_ne by done].
      rewrite lookup_delete_eq, <- Hi, E. split; [done|congruence].
  - intros s v [[<- <-]|[Hne Hv]]%lookup_insert_Some; [|by apply Hk]. destruct (Hk s0 _ El) as (k & Ho & _). exists k. auto.
  - split; [done|]. split; [done|]. cbn. by rewrite map_size_insert_Some by (by rewrite El).
Qed.

Lemma ids_finish_inv opened c ids server : ids_inv opened c ids → ids_inv opened c (ids_finish ids server).
Proof.
  intros [Hi Hk]. unfold ids_finish. destruct (by_server ids !! server) as [[caller|]|] eqn:E; try by split. pose proof (proj2 (Hi _ _) E) as Ec. split; cbn.
  - intros k s. destruct (decide (k = caller)) as [->|Hk'].
    + rewrite lookup_delete_eq. destruct (decide (s = server)) as [->|Hne]; [by rewrite lookup_delete_eq|]. rewrite lookup_delete_ne by done. rewrite <- Hi, Ec. split; congruence.
    + rewrite lookup_delete_ne by done. destruct (decide (s = server)) as [->|Hne]; [|by rewrite lookup_delete_ne by done]. rewrite lookup_delete_eq, Hi, E. split; congruence.
  - intros s v [_ Hv]%lookup_delete_Some. by apply Hk.
Qed.

Lemma ids_release_inv opened c ids server : by_server ids !! server = Some Cancelled → ids_inv opened c ids → ids_inv opened c (ids_release ids server).
Proof.
  intros E [Hi Hk]. split; cbn.
  - intros k s. rewrite Hi. destruct (decide (s = server)) as [->|Hne]; [|by rewrite lookup_delete_ne]. rewrite lookup_delete_eq, E. split; congruence.
  - intros s v [_ Hv]%lookup_delete_Some. by apply Hk.
Qed.

Lemma ids_drain_inv opened c ids ids' orphans : ids_drain ids = (ids', orphans) → ids_inv opened c ids →
  ids_inv opened c ids' ∧ size (by_server ids') + orphans = size (by_server ids) ∧ ∀ s, by_server ids !! s = Some Cancelled → by_server ids' !! s = Some Cancelled.
Proof.
  intros [= <- <-] [Hi Hk]. split; [split; cbn|split; cbn].
  - intros k s. rewrite lookup_empty. split; [done|]. by intros [_ ?]%map_lookup_filter_Some.
  - intros s v [Hv _]%map_lookup_filter_Some. by apply Hk.
  - assert (size (filter (λ sc : N * Caller, sc.2 = Cancelled) (by_server ids)) ≤ size (by_server ids)); [|lia]. apply map_subseteq_size, map_filter_subseteq.
  - intros s Hs. by apply map_lookup_filter_Some.
Qed.

(** The tables change only so: of the calls opened so far none comes to life, and one that is forgotten
    stays forgotten. *)
Definition ids_after (opened : gmap N (nat * N)) (ids ids' : Ids) : Prop := ∀ s o, opened !! s = Some o →
  (∀ k, by_server ids' !! s = Some (Live k) → by_server ids !! s = Some (Live k)) ∧ (by_server ids !! s = None → by_server ids' !! s = None).

Lemma ids_after_sub opened ids ids' : (∀ s v, by_server ids' !! s = Some v → by_server ids !! s = Some v) → ids_after opened ids ids'.
Proof. intros H s o _. split; [intros k; apply H|]. intros E. destruct (by_server ids' !! s) as [v|] eqn:E'; [|done]. apply H in E'. congruence. Qed.

Lemma ids_open_after opened ids caller server : opened !! server = None → ids_after opened ids (ids_open ids caller server).
Proof.
  intros Hs s o Ho. assert (Hne : server ≠ s) by congruence. cbn. rewrite lookup_insert_ne by done.
  destruct (by_caller ids !! caller) as [stale|]; [|done]. split; [by intros k [_ H]%lookup_delete_Some|]. intros E. apply lookup_delete_None. by right.
Qed.

Lemma ids_cancel_after opened c ids caller ids' server : ids_cancel ids caller = Some (ids', server) → ids_inv opened c ids → ids_after opened ids ids'.
Proof.
  intros Hc Hids s o Ho. destruct (ids_cancel_inv opened c _ _ _ _ Hc Hids) as (_ & Hs & -> & _). apply (ii_inverse _ _ _ Hids) in Hs. destruct (decide (server = s)) as [<-|Hne].
  - rewrite lookup_insert_eq. split; [by intros k|congruence].
  - by rewrite lookup_insert_ne.
Qed.

Lemma ids_finish_after opened ids server : ids_after opened ids (ids_finish ids server).
Proof. apply ids_after_sub. intros s v. unfold ids_finish. destruct (by_server ids !! server) as [[]|]; cbn; try done. by intros [_ H]%lookup_delete_Some. Qed.

Lemma ids_finish_ends ids server k : by_server (ids_finish ids server) !! server ≠ Some (Live k).
Proof. unfold ids_finish. destruct (by_server ids !! server) as [[]|] eqn:E; cbn; [rewrite lookup_delete_eq|..]; congruence. Qed.

Lemma ids_release_after opened ids server : ids_after opened ids (ids_release ids server).
Proof. apply ids_after_sub. intros s v. cbn. by intros [_ H]%lookup_delete_Some. Qed.

Lemma ids_drain_after opened ids : ids_after opened ids (ids_drain ids).1.
Proof. apply ids_after_sub. intros s v. cbn. by intros [H _]%map_lookup_filter_Some. Qed.

(** *** Replies *)

Lemma with_id_under f k : under_id k f (with_id f k).
Proof. destruct f; by constructor. Qed.

Lemma ends_call_last f : ends_call f = true ↔ last_reply f.
Proof. unfold last_reply. destruct f; cbn; naive_solver. Qed.

Lemma tcp_encode_fits f bytes : tcp_encode limit f = Some bytes ↔ fits f bytes.
Proof. unfold tcp_encode, fits. destruct (encode_frame f) as [b|]; [|naive_solver]. case_bool_decide; naive_solver lia. Qed.

Lemma accounts_mono opened opened' c ids ids' from from' r g x : opened ⊆ opened' → ids_after opened ids ids' → (Some r ∈ from' ↔ Some r ∈ from) →
  accounts opened c ids from r g x → accounts opened' c ids' from' r g x.
Proof.
  intros Hsub Ha Hf. pose proof (λ s o, lookup_weaken opened opened' s o) as Hw. unfold accounts. destruct g.2 as [[k|]|]; [| |by rewrite Hf].
  - intros (s & f' & Hs & Ho & Hu & H). exists s, f'. split; [done|]. split; [by apply Hw|]. split; [done|]. rewrite Hf. destruct H as [H|[(Hfit & Hin & H)|H]]; [by left| |by right; right].
    right. left. split; [done|]. split; [done|]. destruct H as [H|[-> H]]; [by left|]. right. split; [done|]. intros Hlast k' Hk'. apply (H Hlast k'). by apply (Ha s _ Ho).
  - intros (Hin & s & k & Hs & Ho & H). rewrite Hf. split; [done|]. exists s, k. split; [done|]. split; [by apply Hw|]. destruct H as [H|[-> H]]; [by left|]. right. split; [done|]. by apply (Ha s _ Ho).
Qed.

Lemma carries_mono opened opened' c given given' from bytes : opened ⊆ opened' → given `prefix_of` given' → carries opened c given from bytes → carries opened' c given' from bytes.
Proof.
  intros Hsub Hg. destruct from as [r|]; [|done]. intros (f & s & k & f' & Hr & Hs & Ho & H). exists f, s, k, f'.
  split; [by eapply prefix_lookup_Some|]. split; [done|]. split; [by eapply lookup_weaken|done].
Qed.

(** *** The link *)

(** A locked section that leaves the replies and the queue as they are. *)
Lemma conn_inv_tables opened opened' c n n' : conn_inv opened c n → opened ⊆ opened' → ids_inv opened' c (cn_ids n') → ids_after opened (cn_ids n) (cn_ids n') →
  (∀ s, s ∈ cn_acks n' → by_server (cn_ids n') !! s = Some Cancelled) → (cn_replies n', cn_given n', cn_from n', cn_queue n') = (cn_replies n, cn_given n, cn_from n, cn_queue n) →
  (cn_reading n' → cn_orphans n' = 0) → conn_inv opened' c n'.
Proof.
  intros [_ _ Hg Hr Hq Ho _] Hsub Hids Ha Hacks [= Er Eg Ef Eq] Hz. split; rewrite ?Er, ?Eg, ?Ef, ?Eq; try done.
  - intros r g x Hgr Hx. eapply accounts_mono; [exact Hsub|exact Ha|done|by apply Hr].
  - eapply Forall2_impl; [exact Hq|]. intros. by eapply carries_mono.
Qed.

Lemma conn_inv_mono opened opened' c n : opened ⊆ opened' → conn_inv opened c n → conn_inv opened' c n.
Proof.
  intros Hsub Hc. apply (conn_inv_tables opened opened' c n); [done|done| |by apply ids_after_sub|apply Hc|done|apply Hc]. destruct (ci_ids _ _ _ Hc) as [Hi Hk]. split; [done|].
  intros s v Hv. destruct (Hk s v Hv) as (k & Ho & H). exists k. split; [by eapply lookup_weaken|done].
Qed.

(** A step of the [r]th reply, which queues what it queues. *)
Lemma conn_inv_reply opened c n r x y ids from queue : conn_inv opened c n → cn_replies n !! r = Some x → ids_inv opened c ids → ids_after opened (cn_ids n) ids →
  (∀ s, s ∈ cn_acks n → by_server ids !! s = Some Cancelled) → (∀ r', Some r' ∈ from → r' = r) → NoDup (omap id (cn_from n ++ from)) → Forall2 (carries opened c (cn_given n)) from queue →
  (∀ g, cn_given n !! r = Some g → accounts opened c (cn_ids n) (cn_from n) r g x → accounts opened c ids (cn_from n ++ from) r g y) →
  conn_inv opened c {| cn_ids := ids; cn_queue := cn_queue n ++ queue; cn_acks := cn_acks n; cn_replies := <[r := y]> (cn_replies n); cn_reading := cn_reading n;
                       cn_orphans := cn_orphans n; cn_given := cn_given n; cn_from := cn_from n ++ from |}.
Proof.
  intros [_ _ Hg Hr Hq Ho Hz] Hx Hids Ha Hacks Hfrom Hnd Hcar Hy. split; cbn; try done.
  - by rewrite length_insert.
  - intros r' g z Hgr [(<- & <- & _)|(Hne & Hz')]%list_lookup_insert_Some; [by apply Hy; [done|apply Hr]|]. eapply accounts_mono; [done|exact Ha| |by apply Hr].
    rewrite elem_of_app. split; [|by left]. intros [?|?%Hfrom]; [done|congruence].
  - by apply Forall2_app.
Qed.

Lemma held_at_least l c n : link_inv l → ln_conns l !! c = Some n → conn_calls n ≤ ln_held l.
Proof.
  intros Hl Hn. rewrite (li_held _ Hl). pose proof (total_insert conn_calls (ln_conns l) c n tcp_conn_new Hn) as H.
  assert (H0 : conn_calls tcp_conn_new = 0) by done. lia.
Qed.

Lemma link_inv_at l c n n' held : link_inv l → ln_conns l !! c = Some n → conn_inv (ln_opened l) c n' → held + conn_calls n = ln_held l + conn_calls n' →
  link_inv {| ln_conns := <[c := n']> (ln_conns l); ln_next := ln_next l; ln_held := held; ln_opened := ln_opened l |}.
Proof.
  intros Hl Hn Hi Hh. destruct Hl as [Hx Ho Hc Ht]. split; cbn [ln_held ln_conns ln_next ln_opened]; [done|done| |].
  - intros d m [(<- & <- & _)|(_ & Hm)]%list_lookup_insert_Some; [done|by apply Hc].
  - pose proof (total_insert conn_calls (ln_conns l) c n n' Hn). lia.
Qed.

Lemma link_inv_recount l c n n' : link_inv l → ln_conns l !! c = Some n → conn_inv (ln_opened l) c n' → cn_orphans n' = cn_orphans n → link_inv (recount l c n n').
Proof.
  intros Hl Hn Hi Ho. pose proof (held_at_least l c n Hl Hn). apply link_inv_at with n; [done..|]. unfold counted, conn_calls in *. case_bool_decide; lia.
Qed.

Lemma link_inv_opens l c n caller : link_inv l → (N.of_nat (size (ln_opened l)) + 2 < 2 ^ 64)%N → ln_conns l !! c = Some n → link_inv (open_call l c n caller).1.
Proof.
  intros Hl Hb Hn. assert (Hf : ln_opened l !! ln_next l = None).
  { destruct (ln_opened l !! ln_next l) as [o|] eqn:E; [|done]. pose proof (li_opened _ Hl _ _ E). lia. }
  set (opened := <[ln_next l := (c, caller)]> (ln_opened l)). assert (Hsub : ln_opened l ⊆ opened) by by apply insert_subseteq.
  pose proof (li_conns _ Hl c n Hn) as Hi.
  assert (Hl' : link_inv {| ln_conns := ln_conns l; ln_next := N.modulo (ln_next l + 1) (2 ^ 64); ln_held := ln_held l; ln_opened := opened |}).
  { pose proof (li_next _ Hl) as Hx. split; cbn.
    - unfold opened. rewrite map_size_insert_None by done. rewrite N.mod_small by lia. lia.
    - rewrite N.mod_small by lia. intros s o [[<- _]|[_ Ho]]%lookup_insert_Some; [lia|]. pose proof (li_opened _ Hl s o Ho). lia.
    - intros d m Hm. eapply conn_inv_mono; [exact Hsub|by apply Hl].
    - apply Hl. }
  apply (link_inv_recount _ c n (with_ids n (ids_open (cn_ids n) caller (ln_next l)) (cn_queue n) (cn_acks n) (cn_replies n))) in Hl'; [exact Hl'|done| |done]. cbn.
  pose proof (ids_open_inv _ c (cn_ids n) caller (ln_next l) Hf (ci_ids _ _ _ Hi)) as Hids'.
  apply (conn_inv_tables (ln_opened l) opened c n); [done|done|done|by apply ids_open_after| |done|apply Hi].
  cbn. intros s Hs. pose proof (ci_acks _ _ _ Hi s Hs) as Ha0. destruct (ii_known _ _ _ (ci_ids _ _ _ Hi) s _ Ha0) as (k & Ho & _). assert (s ≠ ln_next l) by (intros ->; congruence).
  rewrite lookup_insert_ne by done. destruct (by_caller (cn_ids n) !! caller) as [stale|] eqn:E; [|done]. rewrite lookup_delete_ne; [done|]. intros ->.
  apply (ii_inverse _ _ _ (ci_ids _ _ _ Hi)) in E. congruence.
Qed.
Lemma conn_inv_new opened c : conn_inv opened c tcp_conn_new.
Proof.
  split; cbn; [split; cbn|by intros s ?%not_elem_of_nil|done..|constructor|done].
  - intros k s. rewrite !lookup_empty. by split.
  - intros s v. by rewrite lookup_empty.
Qed.

Lemma link_inv_cancel l c n caller ids server : link_inv l → ln_conns l !! c = Some n → ids_cancel (cn_ids n) caller = Some (ids, server) →
  link_inv (at_conn l c (with_ids n ids (cn_queue n) (cn_acks n ++ [server]) (cn_replies n))).
Proof.
  intros Hl Hn Hc. pose proof (li_conns _ Hl c n Hn) as Hi. destruct (ids_cancel_inv _ _ _ _ _ _ Hc (ci_ids _ _ _ Hi)) as (Hids' & Hs & Eb & Es).
  apply link_inv_at with n; [done|done| |unfold conn_calls; cbn; lia].
  apply (conn_inv_tables (ln_opened l) _ c n); [done|done|done|by eapply ids_cancel_after, Hi| |done|apply Hi]. cbn. intros s [Hin|Hin]%elem_of_app; rewrite Eb.
  - destruct (decide (s = server)) as [->|Hne]; [by rewrite lookup_insert_eq|]. rewrite lookup_insert_ne by done. by apply Hi.
  - apply list_elem_of_singleton in Hin as ->. by rewrite lookup_insert_eq.
Qed.

Lemma conn_inv_gives opened c n f : conn_inv opened c n → conn_inv opened c (gives n f).
Proof.
  intros [Hids Ha Hg Hr Hq Ho Hz]. assert (Hfresh : Some (length (cn_given n)) ∉ cn_from n).
  { intros (i & Hi)%list_elem_of_lookup. destruct (Forall2_lookup_l _ _ _ _ _ Hq Hi) as (b & _ & f0 & s0 & k0 & f1 & Hlt & _). apply lookup_lt_Some in Hlt. lia. }
  split; cbn; try done.
  - rewrite !length_app. cbn. lia.
  - intros r g x [Hgr|[Hge Hgr]]%lookup_app_Some [Hx|[Hge' Hx]]%lookup_app_Some; [by apply Hr|apply lookup_lt_Some in Hgr; lia|apply lookup_lt_Some in Hx; lia|].
    apply list_lookup_singleton_Some in Hgr as [Er <-]. apply list_lookup_singleton_Some in Hx as [_ <-]. assert (r = length (cn_given n)) as -> by lia.
    unfold accounts, reply_found. cbn. destruct (frame_id f) as [s|]; cbn; [|done]. destruct (by_server (cn_ids n) !! s) as [v|] eqn:E; [|done].
    destruct (ii_known _ _ _ Hids s _ E) as (k0 & Ho' & [-> | ->]); [|split; [done|]; exists s, k0; auto]. exists s, (with_id f k0). split; [done|]. split; [done|]. split; [apply with_id_under|by left].
  - eapply Forall2_impl; [exact Hq|]. intros. eapply carries_mono; [done|by apply prefix_app_r|done].
Qed.

Lemma conn_inv_goaway opened c n goaway : encode_frame Goaway = Some goaway → conn_inv opened c n → conn_inv opened c (queues n None goaway).
Proof.
  intros Hg [Hids Ha Hl Hr Hq Ho Hz]. split; cbn; try done.
  - intros r g x Hgr Hx. eapply accounts_mono; [done|by apply ids_after_sub| |by apply Hr]. rewrite elem_of_app, list_elem_of_singleton. naive_solver.
  - apply Forall2_app; [done|]. by constructor.
  - by rewrite omap_app, app_nil_r.
Qed.

Lemma reply_queued opened c n r s k f bytes : conn_inv opened c n → cn_replies n !! r = Some (RFound s k f) → tcp_encode limit (with_id f k) = Some bytes →
  conn_inv opened c (with_ids (queues n (Some r) bytes) (cn_ids n) (cn_queue n ++ [bytes]) (cn_acks n) (<[r := if ends_call f then REnds s else ROver Written]> (cn_replies n))).
Proof.
  intros Hi Hx He. apply tcp_encode_fits in He. pose proof (ci_given _ _ _ Hi) as Hl. destruct (lookup_lt_is_Some_2 (cn_given n) r) as [[f0 who] Hg]; [rewrite Hl; by eapply lookup_lt_Some|].
  pose proof (ci_replies _ _ _ Hi r _ _ Hg Hx) as Hacc. destruct who as [[k0|]|]; cbn in Hacc; [|naive_solver..].
  destruct Hacc as (s0 & f' & Hs & Ho & Hu & [[[= -> -> ->] Hnin]|[(_ & _ & ?)|(_ & ? & _)]]); [|naive_solver|done].
  apply (conn_inv_reply opened c n r (RFound s0 k0 f0) _ (cn_ids n) [Some r] [bytes]); [done|done|apply Hi|by apply ids_after_sub|apply Hi|by intros r' [= ->]%list_elem_of_singleton| | |].
  - rewrite omap_app. apply NoDup_app. split; [apply Hi|]. split; [|apply NoDup_singleton]. intros r' Hin%list_elem_of_omap ->%list_elem_of_singleton. destruct Hin as (o & Hin & Ho'). cbn in Ho'. by subst o.
  - constructor; [|done]. exists f0, s0, k0, (with_id f0 k0). split; [done|]. split; [done|]. split; [done|]. split; [apply with_id_under|done].
  - intros g Hg'. rewrite Hg in Hg'. injection Hg' as <-. intros _. exists s0, (with_id f0 k0). split; [done|]. split; [done|]. split; [apply with_id_under|]. right. left.
    split; [by exists bytes|]. split; [by rewrite elem_of_app, list_elem_of_singleton; right|]. destruct (ends_call f0) eqn:E; [left; by split; [apply ends_call_last|]|].
    right. split; [done|]. intros Hlast. apply (ends_call_last f0) in Hlast. congruence.
Qed.

Lemma reply_step_inv opened c n r x n' : reply_step limit n r x = Some n' → cn_replies n !! r = Some x → conn_inv opened c n → conn_inv opened c n' ∧ cn_orphans n' = cn_orphans n.
Proof.
  intros H Hx Hi. assert (Hstep : ∀ y ids, ids_inv opened c ids → ids_after opened (cn_ids n) ids → (∀ s, s ∈ cn_acks n → by_server ids !! s = Some Cancelled) →
    (∀ g, accounts opened c (cn_ids n) (cn_from n) r g x → accounts opened c ids (cn_from n) r g y) → conn_inv opened c (with_ids n ids (cn_queue n) (cn_acks n) (<[r := y]> (cn_replies n)))).
  { intros y ids Hids Ha Hacks Hy. pose proof (conn_inv_reply opened c n r x y ids [] [] Hi Hx Hids Ha Hacks) as Hc. rewrite !app_nil_r in Hc.
    apply Hc; [by intros r' ?%not_elem_of_nil|apply Hi|constructor|intros g _; apply Hy]. }
  destruct x as [s k f|s|s|q]; cbn in H; [| | |done].
  - destruct (tcp_encode limit (with_id f k)) as [bytes|] eqn:E; injection H as <-; (split; [|done]); [by eapply reply_queued|].
    apply Hstep; [apply Hi|by apply ids_after_sub|apply Hi|]. intros [f0 [[k0|]|]]; cbn; [|naive_solver..].
    intros (s0 & f' & Hs & Ho & Hu & [[[= -> -> ->] Hnin]|[(_ & _ & ?)|(_ & ? & _)]]); [|naive_solver|done]. exists s0, (with_id f0 k0). split; [done|]. split; [done|]. split; [apply with_id_under|].
    right. right. split; [|done]. intros bytes Hb%tcp_encode_fits. congruence.
  - injection H as <-. split; [|done]. apply Hstep; [by apply ids_finish_inv, Hi|apply ids_finish_after| |].
    + intros s' Hs'. pose proof (ci_acks _ _ _ Hi s' Hs') as Ha. unfold ids_finish. destruct (by_server (cn_ids n) !! s) as [[k|]|] eqn:E; [|done..]. cbn. rewrite lookup_delete_ne; [done|]. congruence.
    + intros [f0 [[k0|]|]]; cbn; [|naive_solver..]. intros (s0 & f' & Hs & Ho & Hu & [[? _]|[(Hfit & Hin & [[Hlast [= ->]]|[? _]])|(_ & ? & _)]]); [done| |done|done].
      exists s0, f'. split; [done|]. split; [done|]. split; [done|]. right. left. split; [done|]. split; [done|]. right. split; [done|]. intros _ k'. apply ids_finish_ends.
  - case_bool_decide as E; [|done]. injection H as <-. split; [|done]. apply Hstep; [apply Hi|by apply ids_after_sub|apply Hi|]. intros [f0 [[k0|]|]]; cbn; [naive_solver| |naive_solver].
    intros (Hnin & s0 & k0 & Hs & Ho & [[= ->]|[? _]]); [|done]. split; [done|]. exists s0, k0. auto.
Qed.

Lemma link_inv_step l e l' : link_inv l → (N.of_nat (size (ln_opened l')) + 1 < 2 ^ 64)%N → tcp_step l e = Some l' → link_inv l'.
Proof.
  intros Hl Hb. destruct e as [|c f|c s|c f|c r|c|c|c]; cbn [Tcp.tcp_step].
  { intros [= <-]. destruct Hl as [Hx Ho Hc Hh]. split; cbn [ln_held ln_conns ln_next ln_opened]; [done|done| |].
    + intros d m [Hm|[_ Hm]]%lookup_app_Some; [by apply Hc|]. apply list_lookup_singleton_Some in Hm as [_ <-]. apply conn_inv_new.
    + rewrite fmap_app, total_app, Hh. change (total (conn_calls <$> [tcp_conn_new])) with (conn_calls tcp_conn_new + 0). assert (conn_calls tcp_conn_new = 0) by done. lia. }
  all: (destruct (ln_conns l !! c) as [n|] eqn:Hn; [|done]); cbn [mbind option_bind]; pose proof (li_conns _ Hl c n Hn) as Hi.
  - destruct (cn_reading n); [|done].
    assert (Hopen : ∀ caller, l' = (open_call l c n caller).1 → link_inv l').
    { intros caller ->. apply link_inv_opens; [done| |done]. cbn in Hb. destruct (ln_opened l !! ln_next l) as [o|] eqn:E.
      - pose proof (li_opened _ Hl _ _ E). lia.
      - rewrite map_size_insert_None in Hb by done. lia. }
    destruct f; cbn [inward ids_server]; try (by intros [= <-]).
    + intros [= <-]. by eapply Hopen.
    + intros [= <-]. by eapply Hopen.
    + destruct (ids_server (cn_ids n) id); by intros [= <-].
    + destruct (ids_server (cn_ids n) id); by intros [= <-].
    + destruct (ids_cancel (cn_ids n) id) as [[ids server]|] eqn:Ec; intros [= <-]; [by eapply link_inv_cancel|done].
  - case_bool_decide as Hs; [|done]. intros [= <-]. apply link_inv_recount; [done|done| |done].
    apply (conn_inv_tables (ln_opened l) _ c n); [done|done|by apply ids_release_inv; apply Hi|apply ids_release_after| |done|apply Hi].
    cbn. intros s' [Hne Hs']%list_elem_of_filter. rewrite lookup_delete_ne by done. by apply Hi.
  - intros [= <-]. apply link_inv_at with n; [done|done|by apply conn_inv_gives|unfold conn_calls; cbn; lia].
  - destruct (cn_replies n !! r) as [x|] eqn:Hx; [|done]. cbn [mbind option_bind].
    destruct (reply_step limit n r x) as [n'|] eqn:E; [|done]. intros [= <-]. destruct (reply_step_inv (ln_opened l) c n r x n' E Hx Hi). by apply link_inv_recount.
  - destruct (encode_frame Goaway) as [goaway|] eqn:Eg; [|done]. intros [= <-]. apply link_inv_at with n; [done|done|by apply conn_inv_goaway|unfold conn_calls; cbn; lia].
  - destruct (cn_reading n) eqn:Er; [|done]. pose proof (ids_drain_after (ln_opened l) (cn_ids n)) as Hd. destruct (ids_drain (cn_ids n)) as [ids orphans] eqn:Ed. intros [= <-].
    destruct (ids_drain_inv _ _ _ _ _ Ed (ci_ids _ _ _ Hi)) as (Hids' & Es & Hk). apply link_inv_at with n; [done|done| |].
    + apply (conn_inv_tables (ln_opened l) _ c n); [done|done|done|done| |done|done]. cbn. intros s Hs. by apply Hk, Hi.
    + pose proof (ci_orphans _ _ _ Hi) as Hz. rewrite Er in Hz. unfold conn_calls. cbn. rewrite (Hz I). lia.
  - destruct (cn_reading n) eqn:Er; [done|]. intros [= <-]. pose proof (held_at_least l c n Hl Hn) as Hge. apply link_inv_at with n; [done|done| |unfold conn_calls in *; cbn; lia].
    by apply (conn_inv_tables (ln_opened l) _ c n); [| |apply Hi|apply ids_after_sub|apply Hi|..].
Qed.

Lemma opened_grows l e l' : tcp_step l e = Some l' → size (ln_opened l) ≤ size (ln_opened l').
Proof.
  intros H. enough (ln_opened l = ln_opened l' ∨ ∃ s o, ln_opened l' = <[s := o]> (ln_opened l)) as [->|(s & o & ->)]; [lia|rewrite map_size_insert; destruct (ln_opened l !! s); cbn; lia|].
  destruct e as [|c f|c s|c f|c r|c|c|c]; cbn [Tcp.tcp_step] in H; [by simplify_eq; left|..]; (destruct (ln_conns l !! c) as [n|]; [|done]); cbn [mbind option_bind] in H.
  - destruct (cn_reading n); [|done]. destruct f; cbn [inward open_call ids_server] in H; try (by simplify_eq; left); try (by simplify_eq; right; eauto).
    all: destruct (ids_server (cn_ids n) id), (ids_cancel (cn_ids n) id) as [[]|]; cbn in H; simplify_eq; by left.
  - case_bool_decide; [|done]. simplify_eq. by left.
  - simplify_eq. by left.
  - destruct (cn_replies n !! r) as [x|]; [|done]. cbn [mbind option_bind] in H. destruct (reply_step limit n r x); [|done]. cbn in H. simplify_eq. by left.
  - destruct (encode_frame Goaway); [|done]. cbn in H. simplify_eq. by left.
  - destruct (cn_reading n); [|done]. destruct (ids_drain (cn_ids n)). simplify_eq. by left.
  - destruct (cn_reading n); [done|]. simplify_eq. by left.
Qed.

Lemma inward_known l c n f l' f' s : link_inv l → ids_inv (ln_opened l) c (cn_ids n) → inward l c n f = Some (l', f') → frame_id f' = Some s →
  ∃ k, frame_id f = Some k ∧ ln_opened l' !! s = Some (c, k).
Proof.
  intros Hl Hids Hf Hs. assert (Hknown : ∀ k, by_caller (cn_ids n) !! k = Some s → ln_opened l !! s = Some (c, k)).
  { intros k Hk. apply (ii_inverse _ _ _ Hids) in Hk. destruct (ii_known _ _ _ Hids s _ Hk) as (k' & Ho & [[= ->]|?]); done. }
  destruct f; cbn [inward open_call ids_server] in Hf; try done.
  - injection Hf as <- <-. injection Hs as <-. eexists. split; [done|]. apply lookup_insert_eq.
  - injection Hf as <- <-. done.
  - injection Hf as <- <-. injection Hs as <-. eexists. split; [done|]. apply lookup_insert_eq.
  - unfold ids_server in Hf. destruct (by_caller (cn_ids n) !! id) eqn:E; [|done]. injection Hf as <- <-. injection Hs as ->. eauto.
  - unfold ids_server in Hf. destruct (by_caller (cn_ids n) !! id) eqn:E; [|done]. injection Hf as <- <-. injection Hs as ->. eauto.
  - unfold ids_cancel in Hf. destruct (by_caller (cn_ids n) !! id) eqn:E; [|done]. injection Hf as <- <-. injection Hs as ->. eauto.
Qed.

Lemma link_inv_reachable l : tcp_reachable l → (N.of_nat (size (ln_opened l)) + 1 < 2 ^ 64)%N → link_inv l.
Proof.
  induction 1 as [|l e l' _ IH He]; intros Hb.
  - split; cbn; [done|intros s o; by rewrite lookup_empty|done|done].
  - apply (link_inv_step l e); [|done|done]. apply IH. pose proof (opened_grows l e l' He). lia.
Qed.
End Calls.

Section Link.
Context {json : JsonValue} {codec : FrameCodec}.

(** C23: over every interleaving of a link's connections, its callers' frames, the server's replies
    and the [cancel]s it takes, while fewer than 2^64 calls were opened. Every frame queued for a
    connection is a [goaway] or one reply the server gave for a call that connection opened, its kind
    and its content as given, under the id the caller named the call by; no reply is queued twice, and
    each has the fate its call's state gives it: to a live call it is queued, or refused if it does not
    encode within the limit, and the last reply of a call ends the call; to a cancelled call it is
    dropped, its send over once the call is forgotten; to no call it is refused. The peer reads what is
    queued for it frame by frame, as it was queued, if a [goaway] fits the limit; the tables of a
    connection are each other's inverse on its live calls; a frame that names a call is handed to the
    server under the id of the call that connection opened; and the count a drain waits for is the
    number of calls still known and of those left behind by a closed connection whose [cancel]s are not
    queued yet. *)
Theorem tcp_calls max_frame l (limit := frame_limit max_frame) : tcp_reachable limit l → (N.of_nat (size (ln_opened l)) + 1 < 2 ^ 64)%N →
  (∀ c n, ln_conns l !! c = Some n →
     (∀ k s, by_caller (cn_ids n) !! k = Some s ↔ by_server (cn_ids n) !! s = Some (Live k))
     ∧ Forall2 (carries limit (ln_opened l) c (cn_given n)) (cn_from n) (cn_queue n)
     ∧ NoDup (omap id (cn_from n))
     ∧ (∀ r g, cn_given n !! r = Some g → ∃ x, cn_replies n !! r = Some x ∧ accounts limit (ln_opened l) c (cn_ids n) (cn_from n) r g x)
     ∧ ((∀ bytes, encode_frame Goaway = Some bytes → N.of_nat (length bytes) ≤ limit)%N →
          read_frames limit (S (length (cn_queue n))) (concat (framed <$> cn_queue n)) = (cn_queue n, CleanEnd))
     ∧ (∀ f l' f' s, inward l c n f = Some (l', f') → frame_id f' = Some s →
          ∃ k, frame_id f = Some k ∧ ln_opened l' !! s = Some (c, k)))
  ∧ ln_held l = total ((λ n, size (by_server (cn_ids n)) + cn_orphans n) <$> ln_conns l).
Proof.
  intros Hr Hb. pose proof (link_inv_reachable limit l Hr Hb) as Hl. split; [|apply Hl]. intros c n Hn. destruct (li_conns _ _ Hl c n Hn) as [Hids Ha Hg Hrep Hq Ho Hz].
  split; [apply Hids|]. split; [done|]. split; [done|]. split; [|split].
  - intros r g Hgr. destruct (lookup_lt_is_Some_2 (cn_replies n) r) as [x Hx]; [rewrite <- Hg; by eapply lookup_lt_Some|]. eauto.
  - intros Hga. apply read_frames_back; [unfold limit, frame_limit; lia| |lia]. apply Forall_forall. intros b (i & Hi)%list_elem_of_lookup.
    destruct (Forall2_lookup_r _ _ _ _ _ Hq Hi) as ([r|] & _ & Hc); [|by apply Hga]. destruct Hc as (f & s & k & f' & _ & _ & _ & _ & _ & Hlen). done.
  - intros f l' f' s. by apply (inward_known limit).
Qed.
End Link.

(** ** An example *)

#[local] Existing Instances tree_json cell_codec.

Fixpoint tcp_run (limit : N) (l : TcpLink) (es : list TcpEvent) : option TcpLink :=
  match es with [] => Some l | e :: es => match tcp_step limit l e with Some l => tcp_run limit l es | None => None end end.

Lemma tcp_run_reachable limit es : ∀ l l', tcp_reachable limit l → tcp_run limit l es = Some l' → tcp_reachable limit l'.
Proof.
  induction es as [|e es IH]; cbn; intros l l' Hl; [by intros [= <-]|]. destruct (tcp_step limit l e) as [l1|] eqn:E; [|done]. apply IH. by apply (tcp_after limit l e).
Qed.

(** Two callers give a call the same id: each gets its own reply. The first cancels another call, whose
    reply is dropped, and closes with one call open. *)
Definition two_callers : list TcpEvent :=
  [TAccept; TAccept; TFrame 0 (Req 5 (str_of "a") [] []); TFrame 1 (Req 5 (str_of "b") [] []); TFrame 0 (Req 6 (str_of "c") [] []); TFrame 0 (Req 7 (str_of "d") [] []);
   TReply 1 (Res 2 []); TReplyStep 1 0; TReplyStep 1 0; TReply 0 (Item 1 []); TReplyStep 0 0; TFrame 0 (Cancel 6); TReply 0 (Res 3 []); TAck 0 3; TReplyStep 0 1; TGoaway 0; TEnd 0].

Definition two_callers_link : TcpLink := Eval vm_compute in default link_new (tcp_run (frame_limit None) link_new two_callers).

Lemma two_callers_reachable : tcp_reachable (frame_limit None) two_callers_link.
Proof. apply (tcp_run_reachable _ two_callers link_new); [constructor|]. vm_compute. reflexivity. Qed.

Lemma tcp_calls_example : ln_held two_callers_link = 2
  ∧ ∀ c n, ln_conns two_callers_link !! c = Some n → read_frames (frame_limit None) (S (length (cn_queue n))) (concat (framed <$> cn_queue n)) = (cn_queue n, CleanEnd).
Proof.
  destruct (tcp_calls None two_callers_link two_callers_reachable) as [H Hh]; [by vm_compute|]. split; [by vm_compute|].
  intros c n Hn. destruct (H c n Hn) as (_ & _ & _ & _ & Hf & _). apply Hf. intros bytes [= <-]. by vm_compute.
Defined.
